(* ===== verification/_CoqProject ===== *)
-Q . S2P
Prelude.v
Number.v
Bytes.v
Timestamp.v
Key.v
Fields.v
Lock.v
Write.v
OrderedMap.v
PeerLocks.v
PeerLocksSpec.v
Engine.v
ConcurrencyManager.v
Reader.v
Cursor.v
Versions.v
MvccTxn.v
CheckTxnStatus.v
Prewrite.v
AcquirePessimisticLock.v
Gc.v
Commands.v
PrewriteCommand.v
KeyView.v
Protocol.v
ActionSpec.v
ReadSpec.v
PrewriteSpec.v
PrewriteCommandSpec.v
System.v
Demo.v
Safety.v
PrewriteAtomic.v
GcSpec.v
AsyncCommit.v
AgentScheduler.v
Latch.v
Scheduler.v
Concurrent.v
AgentDelay.v
Deadlock.v
PointGetter.v
Scanner.v
ScanSpec.v
ForwardScan.v
BackwardScan.v
Scan.v
ReadProgress.v
Resolver.v
ChangeLog.v
ChangeLogSpec.v
CommandRows.v
LockScan.v
ObserveRegion.v
ResolvedTs.v
ResolvedTsSystem.v
ObserveInit.v
Advance.v
AdvanceSafe.v
LockWaiting.v
LockWaitSystem.v
LockWaitDeadlock.v
LockCommands.v
LockCommandsSpec.v
LockSafety.v
LruTrace.v
LruCache.v
LruSpec.v
LruRefine.v
TxnStatusCache.v
TxnStatusSafe.v
TxnStatusRuns.v
TxnStatusKept.v
