(* ===== verification/Prelude.v ===== *)
(** * A verification library for TiKV's transaction layer

    TiKV stores versioned keys and commits transactions in two phases. This
    library models the code between a request and the storage engine as
    executable definitions, file by file, and proves what it promises. Source
    paths below are relative to the repository root; [st] is [src/storage].

    ** The program and the files that model it

    - Encodings. [Number.v] and [Bytes.v] model integers, varints and the
      memcomparable byte strings of [components/tikv_util/src/codec] and
      [components/codec]. [Timestamp.v] and [Key.v] model
      [components/txn_types/src/timestamp.rs] and [types.rs]; [Fields.v],
      [Lock.v] and [Write.v] the lock and write records of [lock.rs] and
      [write.rs]. Shown: round trips, the order of encoded and versioned keys,
      equivalence of the optimised decoders, behaviour on malformed input.
    - Storage. [OrderedMap.v] and [Engine.v] model the B-tree engine of
      [components/tikv_kv] (column families are maps from byte strings to byte
      strings; a snapshot is such a map), [PeerLocks.v] the in-memory
      pessimistic locks of [components/raftstore/src/store/txn_ext.rs] and
      [ConcurrencyManager.v] the memory locks and [max_ts] of
      [components/concurrency_manager]. [PeerLocksSpec.v]: the memory counter
      is exact, and a region split moves every lock to its region.
    - MVCC. [Reader.v] models [st/mvcc/reader/reader.rs], [MvccTxn.v] models
      [st/mvcc/txn.rs]. [Versions.v] proves what the reader finds.
    - Actions and commands. [CheckTxnStatus.v], [Prewrite.v],
      [AcquirePessimisticLock.v] and [Gc.v] model [st/txn/actions],
      [Commands.v] the [process_write] of [st/txn/commands], and
      [PrewriteCommand.v] the two prewrite commands. [LockCommands.v] models
      the two commands that acquire pessimistic locks and what the scheduler
      does with requests that wait again; [LockCommandsSpec.v] and
      [LockSafety.v] show that a request locks all its keys or none, that a
      new lock covers every version and reads the newest one, and that every
      resumed request is answered through its own callback, with the result of
      its own action.
    - The protocol. [KeyView.v] reads a column-family state as versions of one
      key, [Protocol.v] is an abstract commit protocol on that view with its
      invariant, [ActionSpec.v], [PrewriteSpec.v] and [ReadSpec.v] prove that
      the actions refine it, [PrewriteCommandSpec.v] does so for the loop of a
      prewrite command with its fallbacks, [System.v] runs commands on engines
      ([sys_step]): the seven write commands of optimistic transactions. An
      engine is [reachable] if these lead to it, so that theorems about
      reachable engines are about optimistic transactions. [Demo.v] has
      concrete runs. [Safety.v] has the results: committed
      transactions on a key do not overlap, commits and primary rollbacks are
      final, a Commit commits all its keys ([PrewriteAtomic.v]: a prewrite
      locks or, in one phase, commits all its keys or none), snapshot reads return the newest
      committed value and are repeatable. [GcSpec.v]: collection keeps what
      can be read and leaves one version. [PointGetter.v] models
      [st/mvcc/reader/point_getter.rs] and shows that a point get reads the
      same values, reports conflicting locks and notes newer data exactly, and
      when the debug assertion of the code fails.
    - Scans. [Cursor.v] models [components/tikv_kv/src/cursor.rs] over any
      iterator (the class [Iterator]; [IterSpec] is what an iterator promises)
      and the iterator of the B-tree engine: seeks that step from where the
      cursor stands answer as fresh seeks do, within the order that the mode of
      the cursor allows. [Scanner.v] models the forward
      and backward scanners of [st/mvcc/reader/scanner] and [Scanner::scan] of
      [st/txn/store.rs]. [ScanSpec.v], [ForwardScan.v] and [BackwardScan.v]
      prove, and [Scan.v] states, that a scan returns what point gets of the
      keys in its range return.
    - Async commit. [AsyncCommit.v] interleaves [prepare_snap_ctx]
      and the checks of keys and of ranges ([st/mod.rs], the lock table of
      [components/concurrency_manager]) with the publication of memory locks in
      prewrite: a lock that a read below the largest timestamp misses commits
      after the read, unless it does not concern the read.
    - Scheduling. [Latch.v] and [Scheduler.v] model [st/txn/latch.rs] and the
      way [st/txn/scheduler.rs] acquires, hands over and releases latches,
      with one step per latch: exclusion, no panic, and every command
      finishes. [Concurrent.v] adds snapshots and writes: concurrent commands
      behave as commands run one at a time. [AgentDelay.v] models the delay
      queue of the scheduler, [AgentScheduler.v] the slots and waiting loops of
      [src/server/service/agent_scheduler.rs] and of [raw_put] in [kv.rs]; the
      loop of compare and exchange that reserves a slot takes what the other
      requests do between its operations, and when the weak exchange fails, as
      an argument.
    - Deadlocks. [Deadlock.v] models the detector of
      [src/server/lock_manager/deadlock.rs]: the wait-for graph stays acyclic
      and a deadlock is reported exactly when there is one.
    - Lock waiting. [LockWaiting.v] models the queues of
      [st/lock_manager/lock_waiting_queue.rs] and the shared state of a request
      in [lock_wait_context.rs], [LockWaitSystem.v] the threads that push,
      wake, notify and cancel requests: a request is answered at most once and
      never lost. [LockWaitDeadlock.v]: some thread can always go on, except in
      one deadlock between a request and its canceller, which is reachable.
    - Transaction states. [LruTrace.v] and [LruCache.v] model the LRU cache of
      [components/tikv_util/src/lru.rs], its linked list with raw pointers over
      an explicit memory; [LruSpec.v] is a cache without pointers and
      [LruRefine.v] shows that the code refines it, without bad accesses and
      leaks. [TxnStatusCache.v] models [st/txn/txn_status_cache.rs] and its
      callers; [TxnStatusSafe.v], [TxnStatusRuns.v] and [TxnStatusKept.v] show
      that it answers what was reported and keeps committed transactions for
      the keep time, so that late prewrite requests are handled as retries.
    - Resolved timestamps and stale reads. [Resolver.v] models
      [components/resolved_ts/src/resolver.rs] and the memory quota of
      [components/tikv_util/src/memory.rs], [ChangeLog.v] the decoding of
      applied commands in [cmd.rs], [ObserveRegion.v] the regions and handlers
      of [endpoint.rs], [ReadProgress.v] the [RegionReadProgress] of
      [components/raftstore/src/store/util.rs]. [ChangeLogSpec.v] relates the
      rows of a command to what it does to each key, [CommandRows.v] does so
      for the commands of [sys_step]. [LockScan.v] models the scan of locks in
      [scanner.rs] and [scan_locks_from_storage]. Rows of rollbacks can mislead
      the resolver: the record of one makes it forget the lock that another
      transaction holds, and one that is noted in another transaction's commit
      record does not reach it. The theorems therefore have a set [hit] of
      keys, about which nothing is said; a rollback must spare the other keys.
      Shown: pairs of an index and a timestamp that the resolver publishes are
      true of the log and a replica that follows the
      pairs misses nothing at or below its [safe_ts] ([ResolvedTs.v]), a
      resolver initialised while commands are applied has the locks of the
      engine ([ObserveInit.v]), the commands keep it exact and
      commit above it ([ResolvedTsSystem.v]). [Advance.v] models
      [advance.rs], the worker that computes the timestamp and confirms that
      the store leads its regions, with the side of the store that is asked;
      [AdvanceSafe.v] interleaves it with async-commit, one-phase and
      two-phase transactions and rollbacks: the pairs stay true.

    ** Conventions

    A fallible function returns [res E A]: a value, an error or a panic. A
    [debug_assert] is not compiled in a release and is left out, but for the
    point getter, where a flag says whether it is there. The
    actions run in the monad [M] of [MvccTxn.v], which threads the transaction
    buffer. Integers are [Z]; 64-bit arithmetic that can overflow is written
    with [wrap64]. State that threads share is a record, and an interleaving a
    sequence of steps of a relation ([sys_step], [txn_step], [con_step],
    [world_step], [sched_step], [delay_step], [detector_step], [rrp_step],
    [lead_step], [init_step], [row_step], [rts_step], [worker_step], [store_step],
    [whole_step], [wait_step], [lock_step]).

    ** Bounds and fuel

    Loops over versions take the number of entries of the write column family
    plus one as fuel ([write_fuel]): every turn moves to an older version.
    The loops of the scanners take the entries of the write and lock column
    families plus two ([scan_fuel]): every turn finishes a key or a version.
    The collector's fuel is checked the same way in [GcSpec.v]. The deadlock
    search takes one more than the number of transactions waited for, because
    a transaction is pushed once; its chain takes one more than the number of
    pushed ones. Running out of fuel is a panic, so each theorem that
    excludes panics also shows that the fuel is enough. Command identifiers
    are bounded by 2^64 in the steps that allocate one. The loop of a delayed
    notification takes the length of the queue: every turn removes an entry.
    The scan of locks takes one more batch than there are locks, because a
    batch that is not the last one passes at least one lock.
    The loops of the LRU cache take one more than the number of entries, or the
    number of allocated records; running out is an error of its own.

    ** Parameters

    The hash of latch keys, the order in which a hash map is iterated, clocks,
    [size_of::<PessimisticLock>()], the free threads of a pool, the limits of
    [max_ts], the answer of the transaction status cache to a command
    ([TxnStatusKept.v] has what the cache gives), whether a seek
    gave up after too many deleted keys and the iterator under a cursor are
    arguments. What is assumed of them is a hypothesis of the theorem that
    needs it, or a class: [IterSpec] for iterators, [KeyedPriorityQueueLaws] for
    the third-party priority queue of the lock waiting queues, [AllocatorLaws]
    for the allocator, [SizeLaws] and [EvictLaws] for the policies of an LRU
    cache. The shard of a
    concurrent map that has a key is an argument too.

    ** Not modelled

    Raft replication and the raftstore (but its in-memory locks and read
    progress), the cancellation of the scan that initialises a resolver, RocksDB, the
    coprocessor and query engines, backup, change data capture, import,
    encryption, resource control, the servers and their protobuf code, the
    tools: they are I/O, generated code or libraries outside the repository.
    Of the transaction layer: the entry and delta policies of the forward
    scanner, raw commands, flashback, the waiter manager, the merging of a
    region while stale reads follow its log, flow control, metrics, failpoints
    and log messages. The engine applies a write batch at once, calls of the
    concurrency manager are atomic, and capacities of containers are ignored.
    [commit_role] of the commit action only fills a debug record and is left
    out.

    This file holds what all files share: outcomes, machine integers, byte
    strings and their order, tactics and hints. *)
From stdpp Require Export base numbers list gmap.
From Stdlib Require Export ZArith Lia.
From Stdlib Require Import Strings.Byte.

Open Scope Z_scope.

(** ** Outcomes of Rust code

    A call of a fallible Rust function returns [Ok], returns [Err], or
    panics ([assert!], [unwrap] on [None], [unreachable!], an access out of
    bounds).  The three are kept apart, so that absence of panics is a
    property that can be stated. *)

Inductive res (E A : Type) : Type :=
| Ok (a : A)
| Err (e : E)
| Panic.
Arguments Ok {E A} a.
Arguments Err {E A} e.
Arguments Panic {E A}.

#[export] Instance res_ret {E} : MRet (res E) := fun A a => Ok a.
#[export] Instance res_bind {E} : MBind (res E) :=
  fun A B f m => match m with Ok a => f a | Err e => Err e | Panic => Panic end.
#[export] Instance res_fmap {E} : FMap (res E) :=
  fun A B f m => match m with Ok a => Ok (f a) | Err e => Err e | Panic => Panic end.

(** The conversion the [?] operator performs on the error. *)
Definition map_err {E F A} (f : E -> F) (m : res E A) : res F A :=
  match m with Ok a => Ok a | Err e => Err (f e) | Panic => Panic end.

(** [assert!(b)] followed by [k]. *)
Definition rassert {E A} (b : bool) (k : res E A) : res E A :=
  if b then k else Panic.

Definition res_ok {E A} (m : res E A) : bool :=
  match m with Ok _ => true | _ => false end.

Definition no_panic {E A} (m : res E A) : Prop := m <> Panic.

#[export] Instance res_eq_dec {E A} `{EqDecision E, EqDecision A} : EqDecision (res E A).
Proof. solve_decision. Defined.

(** ** Machine integers *)

Definition u64_max : Z := 2 ^ 64 - 1.
Definition wrap64 (z : Z) : Z := z mod 2 ^ 64.
Definition is_u64 (z : Z) : Prop := 0 <= z < 2 ^ 64.
#[export] Instance is_u64_dec z : Decision (is_u64 z).
Proof. unfold is_u64. apply _. Defined.

(** The bitwise complement [!v] of a [u64]. *)
Definition not64 (v : Z) : Z := wrap64 (Z.lnot v).

(** ** Bytes *)

Abbreviation byte := Corelib.Init.Byte.byte.
Abbreviation bytes := (list byte).

#[export] Instance byte_eq_dec : EqDecision byte := Byte.byte_eq_dec.
#[export] Instance byte_countable : Countable byte :=
  inj_countable Byte.to_N Byte.of_N Byte.of_to_N.

(** The numeric value of a byte, and the truncating conversion [z as u8]. *)
Definition b2z (b : byte) : Z := Z.of_N (Byte.to_N b).
Definition u8 (z : Z) : byte :=
  match Byte.of_N (Z.to_N (z mod 256)) with Some b => b | None => Byte.x00 end.

(** The bitwise complement [!b] of a byte. *)
Definition notb (b : byte) : byte := u8 (Z.lnot (b2z b)).

(** ** Vectors *)

(** [Vec::dedup]: of consecutive equal elements one stays. *)
Fixpoint vec_dedup {A} `{EqDecision A} (l : list A) : list A :=
  match l with
  | x :: l' => match l' with y :: _ => if decide (x = y) then vec_dedup l' else x :: vec_dedup l' | [] => [x] end
  | [] => []
  end.

(** ** Automation *)

Create HintDb tikv discriminated.

Ltac split_and_all := repeat match goal with |- _ /\ _ => split end.

(** Case analysis on the scrutinee of a [match] or an [if] in the goal. *)
Ltac case_goal :=
  match goal with
  | |- context [match ?x with _ => _ end] => destruct x eqn:?
  end.

(** The same, in a hypothesis. *)
Ltac case_hyp H :=
  match type of H with
  | context [match ?x with _ => _ end] => destruct x eqn:?
  end.

(** Turn boolean tests on integers into the propositions they decide. *)
Ltac bool_to_prop :=
  repeat match goal with
  | H : (_ <? _) = true |- _ => apply Z.ltb_lt in H
  | H : (_ <? _) = false |- _ => apply Z.ltb_ge in H
  | H : (_ <=? _) = true |- _ => apply Z.leb_le in H
  | H : (_ <=? _) = false |- _ => apply Z.leb_gt in H
  | H : (_ =? _) = true |- _ => apply Z.eqb_eq in H
  | H : (_ =? _) = false |- _ => apply Z.eqb_neq in H
  | H : (_ && _) = true |- _ => apply andb_true_iff in H as [? ?]
  | H : (_ || _) = false |- _ => apply orb_false_iff in H as [? ?]
  | H : negb _ = true |- _ => apply negb_true_iff in H
  | H : negb _ = false |- _ => apply negb_false_iff in H
  | H : bool_decide _ = true |- _ => apply bool_decide_eq_true in H
  | H : bool_decide _ = false |- _ => apply bool_decide_eq_false in H
  end.

(** Arithmetic on 64-bit values with the bounds unfolded. *)
Ltac u64_lia :=
  unfold is_u64, u64_max, wrap64 in *;
  change (2 ^ 64) with 18446744073709551616 in *; lia.

(** Invert a successful bind in a hypothesis. *)
Ltac inv_bind H :=
  unfold mbind, res_bind, mret, res_ret, fmap, res_fmap, map_err, rassert in H;
  repeat (case_hyp H; try discriminate).

(** ** Facts about machine integers *)

Lemma wrap64_small z : is_u64 z -> wrap64 z = z.
Proof. intros H. unfold wrap64. apply Z.mod_small. exact H. Qed.

Lemma wrap64_range z : is_u64 (wrap64 z).
Proof. unfold is_u64, wrap64. apply Z.mod_pos_bound. lia. Qed.
Lemma wrap64_add_l a b : wrap64 (wrap64 a + b) = wrap64 (a + b).
Proof. apply Zplus_mod_idemp_l. Qed.
Lemma wrap64_add_r a b : wrap64 (a + wrap64 b) = wrap64 (a + b).
Proof. apply Zplus_mod_idemp_r. Qed.
Lemma wrap64_sub_l a b : wrap64 (wrap64 a - b) = wrap64 (a - b).
Proof. apply Zminus_mod_idemp_l. Qed.
Lemma wrap64_sub_r a b : wrap64 (a - wrap64 b) = wrap64 (a - b).
Proof. apply Zminus_mod_idemp_r. Qed.

Lemma not64_eq v : is_u64 v -> not64 v = u64_max - v.
Proof.
  intros H. unfold not64, wrap64, Z.lnot.
  replace (Z.pred (- v)) with (u64_max - v + (-1) * 2 ^ 64) by u64_lia.
  rewrite Z.mod_add by lia. apply Z.mod_small. u64_lia.
Qed.

Lemma not64_range v : is_u64 (not64 v).
Proof. apply wrap64_range. Qed.

Lemma not64_invol v : is_u64 v -> not64 (not64 v) = v.
Proof.
  intros H. rewrite (not64_eq (not64 v)) by apply not64_range.
  rewrite not64_eq by done. u64_lia.
Qed.

#[export] Hint Resolve wrap64_range not64_range : tikv.

(** ** Facts about bytes *)

Lemma b2z_range b : 0 <= b2z b < 256.
Proof. unfold b2z. pose proof (Byte.to_N_bounded b). lia. Qed.

Lemma b2z_inj b1 b2 : b2z b1 = b2z b2 -> b1 = b2.
Proof.
  unfold b2z. intros H. apply N2Z.inj in H.
  pose proof (Byte.of_to_N b1) as E1. rewrite H, Byte.of_to_N in E1. congruence.
Qed.

Lemma b2z_u8 z : b2z (u8 z) = z mod 256.
Proof.
  unfold b2z, u8. pose proof (Z.mod_pos_bound z 256 ltac:(lia)) as Hb.
  destruct (Byte.of_N _) as [b|] eqn:E.
  - apply Byte.to_of_N in E. rewrite E. lia.
  - apply Byte.of_N_None_iff in E. lia.
Qed.

Lemma b2z_u8_small z : 0 <= z < 256 -> b2z (u8 z) = z.
Proof. intros. rewrite b2z_u8. by apply Z.mod_small. Qed.

Lemma u8_b2z b : u8 (b2z b) = b.
Proof. apply b2z_inj. rewrite b2z_u8. apply Z.mod_small, b2z_range. Qed.

Lemma b2z_notb b : b2z (notb b) = 255 - b2z b.
Proof.
  unfold notb. rewrite b2z_u8. unfold Z.lnot.
  pose proof (b2z_range b). replace (Z.pred (- b2z b)) with (255 - b2z b + (-1) * 256) by lia.
  rewrite Z.mod_add by lia. apply Z.mod_small. lia.
Qed.

Lemma notb_invol b : notb (notb b) = b.
Proof. apply b2z_inj. rewrite !b2z_notb. lia. Qed.

Lemma u8_inj z1 z2 : 0 <= z1 < 256 -> 0 <= z2 < 256 -> u8 z1 = u8 z2 -> z1 = z2.
Proof. intros H1 H2 H. apply (f_equal b2z) in H. by rewrite !b2z_u8_small in H. Qed.

(** A test on the values of a byte is checked by evaluation. *)
Lemma z256_forall (P : Z -> bool) :
  forallb P (map Z.of_nat (seq 0 256)) = true -> forall z, 0 <= z < 256 -> P z = true.
Proof.
  intros H z Hz. rewrite forallb_forall in H. apply H.
  apply in_map_iff. exists (Z.to_nat z). split; [lia|]. apply in_seq. lia.
Qed.

Lemma lor_range a b : is_u64 a -> is_u64 b -> is_u64 (Z.lor a b).
Proof.
  intros Ha Hb. unfold is_u64 in *. split; [apply Z.lor_nonneg; lia|].
  assert (Z.lor a b mod 2 ^ 64 = Z.lor a b) as <-; [|apply Z.mod_pos_bound; lia].
  rewrite <- Z.land_ones by lia. rewrite Z.land_lor_distr_l.
  rewrite !Z.land_ones by lia. by rewrite !Z.mod_small by lia.
Qed.

(** [a | (b << k)] is an addition when [a] fits below bit [k]. *)
Lemma lor_shiftl_add a b k :
  0 <= k -> 0 <= a < 2 ^ k -> 0 <= b -> Z.lor a (Z.shiftl b k) = a + b * 2 ^ k.
Proof.
  intros Hk Ha Hb. rewrite Z.shiftl_mul_pow2 by done.
  rewrite <- Z.lxor_lor, <- Z.add_nocarry_lxor; [done|..];
  apply Z.bits_inj'; intros i Hi; rewrite Z.land_spec, Z.bits_0;
  rewrite <- Z.shiftl_mul_pow2, Z.shiftl_spec by done;
  (destruct (decide (i < k)); [rewrite (Z.testbit_neg_r b) by lia; by rewrite andb_false_r|]);
  rewrite <- (Z.mod_small a (2 ^ k)) by done; by rewrite Z.mod_pow2_bits_high by lia.
Qed.

(** ** The lexicographic order on byte strings

    This is Rust's [Ord] on [[u8]], and the order of RocksDB's bytewise
    comparator. *)

Fixpoint bcmp (a b : bytes) : comparison :=
  match a, b with
  | [], [] => Eq
  | [], _ => Lt
  | _, [] => Gt
  | x :: a', y :: b' =>
      match Z.compare (b2z x) (b2z y) with
      | Eq => bcmp a' b'
      | c => c
      end
  end.

Definition bltb (a b : bytes) : bool := match bcmp a b with Lt => true | _ => false end.
Definition bleb (a b : bytes) : bool := match bcmp a b with Gt => false | _ => true end.
Definition blt (a b : bytes) : Prop := bcmp a b = Lt.
Definition ble (a b : bytes) : Prop := bcmp a b <> Gt.

Lemma bcmp_refl a : bcmp a a = Eq.
Proof. induction a as [|x a IH]; simpl; [done|]. by rewrite Z.compare_refl. Qed.

Lemma bcmp_eq a b : bcmp a b = Eq <-> a = b.
Proof.
  split; [|intros ->; apply bcmp_refl].
  revert b; induction a as [|x a IH]; intros [|y b]; simpl; try done.
  destruct (Z.compare_spec (b2z x) (b2z y)) as [E| |]; try done.
  intros H. f_equal; [by apply b2z_inj|auto].
Qed.

Lemma bcmp_antisym a b : bcmp b a = CompOpp (bcmp a b).
Proof.
  revert b; induction a as [|x a IH]; intros [|y b]; simpl; try done.
  rewrite Z.compare_antisym. destruct (b2z x ?= b2z y); simpl; auto.
Qed.

Lemma bcmp_lt_trans a b c : bcmp a b = Lt -> bcmp b c = Lt -> bcmp a c = Lt.
Proof.
  revert b c; induction a as [|x a IH]; intros [|y b] [|z c]; simpl; try done.
  destruct (Z.compare_spec (b2z x) (b2z y)); try done;
  destruct (Z.compare_spec (b2z y) (b2z z)); try done; intros;
  destruct (Z.compare_spec (b2z x) (b2z z)); try lia; eauto.
Qed.

Lemma blt_irrefl a : ~ blt a a.
Proof. unfold blt. by rewrite bcmp_refl. Qed.

Lemma ble_refl a : ble a a.
Proof. unfold ble. by rewrite bcmp_refl. Qed.

Lemma ble_alt a b : ble a b <-> blt a b \/ a = b.
Proof.
  unfold ble, blt. rewrite <- bcmp_eq. destruct (bcmp a b); intuition congruence.
Qed.

Lemma not_ble a b : ~ ble a b <-> blt b a.
Proof. unfold ble, blt. rewrite (bcmp_antisym a b). destruct (bcmp a b); simpl; intuition congruence. Qed.

Lemma not_blt a b : ~ blt a b <-> ble b a.
Proof. unfold ble, blt. rewrite (bcmp_antisym a b). destruct (bcmp a b); simpl; intuition congruence. Qed.

Lemma ble_trans a b c : ble a b -> ble b c -> ble a c.
Proof.
  rewrite !ble_alt. unfold blt. intros [H| ->] [H'| ->]; eauto using bcmp_lt_trans.
Qed.

Lemma blt_le_trans a b c : blt a b -> ble b c -> blt a c.
Proof. rewrite ble_alt. unfold blt. intros H [H'| <-]; eauto using bcmp_lt_trans. Qed.

Lemma ble_lt_trans a b c : ble a b -> blt b c -> blt a c.
Proof. rewrite ble_alt. unfold blt. intros [H| ->] H'; eauto using bcmp_lt_trans. Qed.

Lemma blt_trans a b c : blt a b -> blt b c -> blt a c.
Proof. apply bcmp_lt_trans. Qed.

Lemma blt_ble a b : blt a b -> ble a b.
Proof. rewrite ble_alt. auto. Qed.

Lemma ble_antisym a b : ble a b -> ble b a -> a = b.
Proof.
  rewrite !ble_alt. intros [H|H] [H'|H']; auto.
  exfalso. eapply blt_irrefl, blt_trans; eauto.
Qed.

Lemma ble_total a b : ble a b \/ ble b a.
Proof.
  unfold ble. rewrite (bcmp_antisym a b). destruct (bcmp a b); simpl; auto; by left + right.
Qed.

Lemma bltb_lt a b : bltb a b = true <-> blt a b.
Proof. unfold bltb, blt. destruct (bcmp a b); intuition congruence. Qed.

Lemma bltb_ge a b : bltb a b = false <-> ble b a.
Proof. rewrite <- not_blt, <- bltb_lt. destruct (bltb a b); intuition congruence. Qed.

Lemma bleb_le a b : bleb a b = true <-> ble a b.
Proof. unfold bleb, ble. destruct (bcmp a b); intuition congruence. Qed.

Lemma bleb_gt a b : bleb a b = false <-> blt b a.
Proof. rewrite <- not_ble, <- bleb_le. destruct (bleb a b); intuition congruence. Qed.

#[export] Hint Resolve ble_refl blt_ble : tikv.

(** Comparison of strings that start with blocks of the same length. *)
Lemma bcmp_app a b x y :
  length a = length b ->
  bcmp (a ++ x) (b ++ y) = match bcmp a b with Eq => bcmp x y | c => c end.
Proof.
  revert b; induction a as [|u a IH]; intros [|v b] Hl; simpl in *; try done.
  destruct (b2z u ?= b2z v); auto.
Qed.

Lemma bcmp_app_same a x y : bcmp (a ++ x) (a ++ y) = bcmp x y.
Proof. by rewrite bcmp_app, bcmp_refl. Qed.

Lemma ble_app p a : ble p (p ++ a).
Proof. rewrite <- (app_nil_r p) at 1. unfold ble. rewrite bcmp_app_same. by destruct a. Qed.

(** A string between two extensions of [p] extends [p]. *)
Lemma ble_prefix_squeeze p a b e :
  ble (p ++ a) e -> ble e (p ++ b) -> exists c, e = p ++ c.
Proof.
  revert e; induction p as [|x p IH]; intros e; simpl; [by exists e|].
  unfold ble. destruct e as [|y e]; simpl; [done|].
  destruct (Z.compare_spec (b2z x) (b2z y)) as [E|E|E]; try done.
  - rewrite E, Z.compare_refl. intros H1 H2. destruct (IH e H1 H2) as [c ->].
    exists c. by rewrite (b2z_inj _ _ E).
  - destruct (Z.compare_spec (b2z y) (b2z x)); try done; lia.
Qed.

(** ** Lists *)

Lemma take_app_ge_eq {A} (l k : list A) n : n = length l -> take n (l ++ k) = l.
Proof. intros ->. by rewrite take_app_length. Qed.

Lemma drop_app_ge_eq {A} (l k : list A) n : n = length l -> drop n (l ++ k) = k.
Proof. intros ->. by rewrite drop_app_length. Qed.

(** Two decompositions whose heads have the same length coincide. *)
Lemma app_eq_length_inv {A} (a b x y : list A) :
  length a = length b -> a ++ x = b ++ y -> a = b /\ x = y.
Proof. intros. by apply app_inj_1. Qed.
