(* ===== verification/Number.v ===== *)
(** * Number codecs (components/tikv_util/src/codec/number.rs)

    Fixed-width big- and little-endian integers, memcomparable signed
    integers, and LEB128-style variable-length integers.  A decoder takes
    the slice and returns the value with the rest of the slice, which is
    what the Rust code leaves behind the [&mut &[u8]].  The unchecked reads
    of [decode_var_u64] are modelled as reads that panic out of bounds. *)
From S2P Require Import Prelude.

(** ** Errors of the codec (codec/mod.rs) *)

Inductive io_error_kind := UnexpectedEof | InvalidData.

Inductive codec_error :=
| Io (k : io_error_kind)
| KeyLength
| KeyPadding
| KeyNotFound
| ValueLength
| ValueMeta.

#[export] Instance io_error_kind_eq_dec : EqDecision io_error_kind.
Proof. solve_decision. Defined.
#[export] Instance codec_error_eq_dec : EqDecision codec_error.
Proof. solve_decision. Defined.

Definition unexpected_eof : codec_error := Io UnexpectedEof.

Definition read_slice (data : bytes) (size : nat) : res codec_error (bytes * bytes) :=
  if (size <=? length data)%nat then Ok (take size data, drop size data)
  else Err unexpected_eof.

(** ** Constants *)

Definition SIGN_MARK : Z := 2 ^ 63.
Definition MAX_VAR_I64_LEN : nat := 10.
Definition MAX_VAR_U64_LEN : nat := 10.
Definition U64_SIZE : nat := 8.

(** ** Byte order *)

(** The [n] low-order bytes of [v], most significant first. *)
Fixpoint be_bytes (n : nat) (v : Z) : bytes :=
  match n with
  | O => []
  | S m => u8 (Z.shiftr v (8 * Z.of_nat m)) :: be_bytes m v
  end.

Fixpoint be_value (bs : bytes) : Z :=
  match bs with
  | [] => 0
  | b :: bs' => b2z b * 256 ^ Z.of_nat (length bs') + be_value bs'
  end.

Definition le_bytes (n : nat) (v : Z) : bytes := rev (be_bytes n v).
Definition le_value (bs : bytes) : Z := be_value (rev bs).

(** The conversions [v as u64] and [u as i64]. *)
Definition as_u64 (v : Z) : Z := wrap64 v.
Definition as_i64 (u : Z) : Z := if u <? 2 ^ 63 then u else u - 2 ^ 64.
Definition is_i64 (v : Z) : Prop := - 2 ^ 63 <= v < 2 ^ 63.

(** ** Encoders *)

Definition order_encode_i64 (v : Z) : Z := Z.lxor (as_u64 v) SIGN_MARK.
Definition order_decode_i64 (u : Z) : Z := as_i64 (Z.lxor u SIGN_MARK).

Definition encode_u64 (v : Z) : bytes := be_bytes 8 v.
Definition encode_u64_desc (v : Z) : bytes := be_bytes 8 (not64 v).
Definition encode_u32 (v : Z) : bytes := be_bytes 4 v.
Definition encode_u16 (v : Z) : bytes := be_bytes 2 v.
Definition encode_i64 (v : Z) : bytes := encode_u64 (order_encode_i64 v).
Definition encode_i64_desc (v : Z) : bytes := encode_u64_desc (order_encode_i64 v).
Definition encode_u16_le (v : Z) : bytes := le_bytes 2 v.
Definition encode_u32_le (v : Z) : bytes := le_bytes 4 v.
Definition encode_u64_le (v : Z) : bytes := le_bytes 8 v.

(** [while v >= 0x80 { write(v as u8 | 0x80); v >>= 7 } write(v as u8)].
    Ten rounds are enough for a [u64]. *)
Fixpoint encode_var_u64_loop (fuel : nat) (v : Z) : bytes :=
  match fuel with
  | O => []
  | S f =>
      if 128 <=? v
      then u8 (Z.lor (v mod 256) 128) :: encode_var_u64_loop f (Z.shiftr v 7)
      else [u8 v]
  end.

Definition encode_var_u64 (v : Z) : bytes := encode_var_u64_loop MAX_VAR_U64_LEN v.

Definition encode_var_i64 (v : Z) : bytes :=
  let vx := wrap64 (Z.shiftl (as_u64 v) 1) in
  encode_var_u64 (if v <? 0 then not64 vx else vx).

(** ** Decoders *)

Definition read_num_bytes {T} (size : nat) (data : bytes) (f : bytes -> T) :
    res codec_error (T * bytes) :=
  if (size <=? length data)%nat then Ok (f (take size data), drop size data)
  else Err unexpected_eof.

Definition decode_u64 (data : bytes) : res codec_error (Z * bytes) :=
  read_num_bytes 8 data be_value.
Definition decode_u32 (data : bytes) : res codec_error (Z * bytes) :=
  read_num_bytes 4 data be_value.
Definition decode_u16 (data : bytes) : res codec_error (Z * bytes) :=
  read_num_bytes 2 data be_value.
Definition decode_u64_desc (data : bytes) : res codec_error (Z * bytes) :=
  '(v, rest) ← decode_u64 data; Ok (not64 v, rest).
Definition decode_i64 (data : bytes) : res codec_error (Z * bytes) :=
  '(v, rest) ← decode_u64 data; Ok (order_decode_i64 v, rest).
Definition decode_i64_desc (data : bytes) : res codec_error (Z * bytes) :=
  '(v, rest) ← decode_u64_desc data; Ok (order_decode_i64 v, rest).
Definition decode_u16_le (data : bytes) : res codec_error (Z * bytes) :=
  read_num_bytes 2 data le_value.
Definition decode_u32_le (data : bytes) : res codec_error (Z * bytes) :=
  read_num_bytes 4 data le_value.
Definition decode_u64_le (data : bytes) : res codec_error (Z * bytes) :=
  read_num_bytes 8 data le_value.

Definition read_u8 (data : bytes) : res codec_error (byte * bytes) :=
  match data with
  | b :: rest => Ok (b, rest)
  | [] => Err unexpected_eof
  end.

(** [data.get_unchecked(i)]: undefined out of bounds, modelled as a panic. *)
Definition get_unchecked (data : bytes) (i : nat) : res codec_error byte :=
  match data !! i with Some b => Ok b | None => Panic end.

(** [(u64::from(b) & 0x7f) << (i * 7)] *)
Definition var_part (b : byte) (i : nat) : Z :=
  wrap64 (Z.shiftl (Z.land (b2z b) 127) (7 * Z.of_nat i)).

(** The loop [for i in 0..9] of the unrolled path, with [left] rounds left. *)
Fixpoint decode_var_fast (left i : nat) (r : Z) (data : bytes) : res codec_error (Z * bytes) :=
  match left with
  | S left' =>
      b ← get_unchecked data i;
      let r := Z.lor r (var_part b i) in
      if b2z b <? 128 then Ok (r, drop (i + 1) data)
      else decode_var_fast left' (i + 1) r data
  | O =>
      b ← get_unchecked data 9;
      if b2z b <=? 1 then Ok (Z.lor r (var_part b 9), drop 10 data)
      else Err (Io InvalidData)
  end.

(** The loop [for i in 0..data.len()] of the slow path. *)
Fixpoint decode_var_slow (left i : nat) (r : Z) (data : bytes) : res codec_error (Z * bytes) :=
  match left with
  | S left' =>
      b ← get_unchecked data i;
      let r := Z.lor r (var_part b i) in
      if b2z b <? 128 then Ok (r, drop (i + 1) data)
      else decode_var_slow left' (i + 1) r data
  | O => Err unexpected_eof
  end.

Definition decode_var_u64 (data : bytes) : res codec_error (Z * bytes) :=
  match data with
  | [] => decode_var_slow 0 0 0 data
  | b :: rest =>
      if b2z b <? 128 then Ok (Z.land (b2z b) 127, rest)
      else if (10 <=? length data)%nat || (b2z (List.last data Byte.x00) <? 128)
      then decode_var_fast 9 0 0 data
      else decode_var_slow (length data) 0 0 data
  end.

Definition decode_var_i64 (data : bytes) : res codec_error (Z * bytes) :=
  '(v, rest) ← decode_var_u64 data;
  let vx := Z.shiftr v 1 in
  Ok (if Z.land v 1 =? 0 then as_i64 vx else as_i64 (not64 vx), rest).

(** ** Byte order: lemmas *)

Lemma length_be_bytes n v : length (be_bytes n v) = n.
Proof. induction n; simpl; auto. Qed.

Lemma be_split m v :
  v mod 256 ^ Z.of_nat (S m)
  = (v / 256 ^ Z.of_nat m) mod 256 * 256 ^ Z.of_nat m + v mod 256 ^ Z.of_nat m.
Proof.
  rewrite Nat2Z.inj_succ, Z.pow_succ_r, (Z.mul_comm 256) by lia.
  rewrite Z.rem_mul_r by lia. lia.
Qed.

Lemma be_head m v :
  b2z (u8 (Z.shiftr v (8 * Z.of_nat m))) = (v / 256 ^ Z.of_nat m) mod 256.
Proof.
  rewrite b2z_u8, Z.shiftr_div_pow2, Z.pow_mul_r by lia. done.
Qed.

Lemma be_value_be_bytes n v : be_value (be_bytes n v) = v mod 256 ^ Z.of_nat n.
Proof.
  induction n as [|m IH]; [simpl; by rewrite Z.mod_1_r|].
  rewrite be_split. cbn [be_bytes be_value]. by rewrite length_be_bytes, IH, be_head.
Qed.

Lemma be_value_range bs : 0 <= be_value bs < 256 ^ Z.of_nat (length bs).
Proof.
  induction bs as [|b bs IH]; cbn [be_value length]; [simpl; lia|].
  rewrite Nat2Z.inj_succ, Z.pow_succ_r by lia. pose proof (b2z_range b). nia.
Qed.

Lemma be_bytes_mod n m v : (n <= m)%nat -> be_bytes n (v mod 256 ^ Z.of_nat m) = be_bytes n v.
Proof.
  induction n as [|k IH]; intros Hn; cbn [be_bytes]; [done|].
  rewrite IH by lia. f_equal. apply b2z_inj. rewrite !be_head.
  replace (Z.of_nat m) with (Z.of_nat k + Z.of_nat (m - k)) by lia.
  rewrite Z.pow_add_r, Z.rem_mul_r by lia.
  rewrite Z.add_comm, Z.mul_comm, Z.div_add_l by lia.
  rewrite (Z.div_small (v mod 256 ^ Z.of_nat k)) by (apply Z.mod_pos_bound; lia).
  rewrite Z.add_0_r. replace (Z.of_nat (m - k)) with (1 + Z.of_nat (m - k - 1)) by lia.
  rewrite Z.pow_add_r, Z.rem_mul_r by lia. rewrite Z.pow_1_r.
  rewrite Z.add_mod, Z.mul_mod, Z.mod_same, Z.mul_0_l, Z.mod_0_l, Z.add_0_r by lia.
  by rewrite !Z.mod_mod by lia.
Qed.

Lemma be_bytes_be_value bs : be_bytes (length bs) (be_value bs) = bs.
Proof.
  induction bs as [|b bs IH]; [done|]. cbn [length be_bytes be_value].
  pose proof (be_value_range bs) as Hr. pose proof (b2z_range b) as Hb. f_equal.
  - apply b2z_inj. rewrite be_head, Z.div_add_l, Z.div_small by lia.
    rewrite Z.add_0_r. by apply Z.mod_small.
  - etransitivity; [|exact IH]. rewrite <- (be_bytes_mod _ (length bs)) by lia.
    rewrite Z.add_comm, Z.mod_add, Z.mod_small by lia. done.
Qed.

Lemma bcmp_be_bytes_mod n x y :
  bcmp (be_bytes n x) (be_bytes n y) = (x mod 256 ^ Z.of_nat n ?= y mod 256 ^ Z.of_nat n).
Proof.
  induction n as [|m IH]; [simpl; by rewrite !Z.mod_1_r|].
  cbn [be_bytes bcmp]. rewrite IH, !be_head, !be_split.
  pose proof (Z.mod_pos_bound x (256 ^ Z.of_nat m) ltac:(lia)).
  pose proof (Z.mod_pos_bound y (256 ^ Z.of_nat m) ltac:(lia)).
  destruct (Z.compare_spec ((x / 256 ^ Z.of_nat m) mod 256) ((y / 256 ^ Z.of_nat m) mod 256)) as [->|L|L].
  - rewrite Z.add_compare_mono_l. done.
  - symmetry. apply Z.compare_lt_iff. nia.
  - symmetry. apply Z.compare_gt_iff. nia.
Qed.

(** ** Fixed-width integers *)

Lemma pow256_8 : 256 ^ Z.of_nat 8 = 2 ^ 64.
Proof. done. Qed.

Lemma length_encode_u64 v : length (encode_u64 v) = 8%nat.
Proof. apply length_be_bytes. Qed.

Lemma length_encode_u64_desc v : length (encode_u64_desc v) = 8%nat.
Proof. apply length_be_bytes. Qed.

Lemma read_num_bytes_app {T} n (f : bytes -> T) a rest :
  length a = n -> read_num_bytes n (a ++ rest) f = Ok (f a, rest).
Proof.
  intros Hl. unfold read_num_bytes. rewrite length_app.
  destruct (Nat.leb_spec n (length a + length rest)); [|lia].
  by rewrite take_app_ge_eq, drop_app_ge_eq by done.
Qed.

Lemma decode_encode_u64 v rest : is_u64 v -> decode_u64 (encode_u64 v ++ rest) = Ok (v, rest).
Proof.
  intros Hv. unfold decode_u64. rewrite read_num_bytes_app by apply length_encode_u64.
  unfold encode_u64. by rewrite be_value_be_bytes, pow256_8, Z.mod_small.
Qed.

Lemma decode_encode_u64_desc v rest :
  is_u64 v -> decode_u64_desc (encode_u64_desc v ++ rest) = Ok (v, rest).
Proof.
  intros Hv. unfold decode_u64_desc, encode_u64_desc.
  fold (encode_u64 (not64 v)). rewrite decode_encode_u64 by auto with tikv.
  simpl. by rewrite not64_invol.
Qed.

Lemma decode_u64_range d v rest : decode_u64 d = Ok (v, rest) -> is_u64 v.
Proof.
  unfold decode_u64, read_num_bytes. case_match eqn:E; [|done]. intros [= <- <-].
  apply Nat.leb_le in E. pose proof (be_value_range (take 8 d)) as H.
  rewrite length_take, Nat.min_l in H by done. done.
Qed.

Lemma bcmp_encode_u64 x y :
  is_u64 x -> is_u64 y -> bcmp (encode_u64 x) (encode_u64 y) = (x ?= y).
Proof.
  intros. unfold encode_u64. rewrite bcmp_be_bytes_mod, pow256_8. by rewrite !Z.mod_small.
Qed.

Lemma bcmp_encode_u64_desc x y :
  is_u64 x -> is_u64 y -> bcmp (encode_u64_desc x) (encode_u64_desc y) = (y ?= x).
Proof.
  intros. unfold encode_u64_desc.
  fold (encode_u64 (not64 x)) (encode_u64 (not64 y)).
  rewrite bcmp_encode_u64 by auto with tikv. rewrite !not64_eq by done.
  rewrite Z.compare_sub, (Z.compare_sub y). f_equal. lia.
Qed.

(** The eight bytes of a timestamp determine it. *)
Lemma encode_u64_desc_inj x y : is_u64 x -> is_u64 y -> encode_u64_desc x = encode_u64_desc y -> x = y.
Proof.
  intros Hx Hy E. apply bcmp_eq in E. rewrite bcmp_encode_u64_desc in E by done.
  by apply Z.compare_eq in E.
Qed.

(** ** Signed integers *)

Lemma lxor_sign_low u : 0 <= u < 2 ^ 63 -> Z.lxor u SIGN_MARK = u + 2 ^ 63.
Proof.
  intros Hu. unfold SIGN_MARK. rewrite <- Z.add_nocarry_lxor; [done|].
  change (2 ^ 63) with (2 ^ 63 * 1). rewrite Z.mul_comm, <- Z.shiftl_mul_pow2 by lia.
  apply Z.bits_inj'. intros i Hi. rewrite Z.land_spec, Z.bits_0, Z.shiftl_spec by done.
  destruct (decide (i < 63)); [rewrite (Z.testbit_neg_r 1) by lia; by rewrite andb_false_r|].
  rewrite <- (Z.mod_small u (2 ^ 63)) by done. by rewrite Z.mod_pow2_bits_high by lia.
Qed.

Lemma lxor_sign_high u : 2 ^ 63 <= u < 2 ^ 64 -> Z.lxor u SIGN_MARK = u - 2 ^ 63.
Proof.
  intros Hu. replace u with (Z.lxor (u - 2 ^ 63) SIGN_MARK) at 1.
  - by rewrite Z.lxor_assoc, Z.lxor_nilpotent, Z.lxor_0_r.
  - rewrite lxor_sign_low; lia.
Qed.

Lemma order_encode_i64_eq v : is_i64 v -> order_encode_i64 v = v + 2 ^ 63.
Proof.
  unfold is_i64, order_encode_i64, as_u64, wrap64. intros Hv.
  destruct (decide (0 <= v)).
  - rewrite Z.mod_small by lia. apply lxor_sign_low. lia.
  - replace (v mod 2 ^ 64) with (v + 2 ^ 64).
    + rewrite lxor_sign_high; lia.
    + apply (Z.mod_unique _ _ (-1)); lia.
Qed.

Lemma order_decode_encode_i64 v : is_i64 v -> order_decode_i64 (order_encode_i64 v) = v.
Proof.
  intros Hv. rewrite order_encode_i64_eq by done. unfold order_decode_i64, as_i64, is_i64 in *.
  destruct (decide (0 <= v)).
  - rewrite lxor_sign_high by lia. case_match eqn:E; bool_to_prop; lia.
  - rewrite lxor_sign_low by lia. case_match eqn:E; bool_to_prop; lia.
Qed.

Lemma order_encode_i64_range v : is_i64 v -> is_u64 (order_encode_i64 v).
Proof. intros H. rewrite order_encode_i64_eq by done. unfold is_i64, is_u64 in *. lia. Qed.

(** ** Variable-length integers *)

Lemma var_byte_cont w :
  let b := u8 (Z.lor (w mod 256) 128) in
  128 <= b2z b /\ Z.land (b2z b) 127 = w mod 128.
Proof.
  simpl. pose proof (Z.mod_pos_bound w 256 ltac:(lia)) as Hb.
  pose (P := fun x => (128 <=? Z.lor x 128) && (Z.lor x 128 <? 256)
                      && (Z.land (Z.lor x 128) 127 =? x mod 128)).
  assert (P (w mod 256) = true) as HP.
  { apply z256_forall; [by vm_compute|done]. }
  unfold P in HP. bool_to_prop. rewrite b2z_u8_small by lia. split; [lia|].
  rewrite H0. symmetry. change 256 with (128 * 2).
  rewrite Z.rem_mul_r by lia. rewrite Z.mul_comm, Z.mod_add by lia. by rewrite Z.mod_mod by lia.
Qed.

Lemma var_byte_last w : 0 <= w < 128 -> b2z (u8 w) = w /\ Z.land (b2z (u8 w)) 127 = w.
Proof.
  intros Hw. rewrite b2z_u8_small by lia. split; [done|].
  change 127 with (Z.ones 7). rewrite Z.land_ones by lia. by apply Z.mod_small.
Qed.

(** Adding the [i]-th group of seven bits. *)
Lemma var_accum r p i :
  0 <= r < 2 ^ (7 * Z.of_nat i) -> 0 <= p -> p * 2 ^ (7 * Z.of_nat i) < 2 ^ 64 ->
  Z.lor r (wrap64 (Z.shiftl p (7 * Z.of_nat i))) = r + p * 2 ^ (7 * Z.of_nat i).
Proof.
  intros Hr Hp Hb. rewrite wrap64_small.
  - apply lor_shiftl_add; lia.
  - rewrite Z.shiftl_mul_pow2 by lia. unfold is_u64. split; [nia|done].
Qed.

Lemma var_step r w i :
  0 <= r < 2 ^ (7 * Z.of_nat i) -> 0 <= w -> r + w * 2 ^ (7 * Z.of_nat i) < 2 ^ 64 ->
  let r' := Z.lor r (var_part (u8 (Z.lor (w mod 256) 128)) i) in
  0 <= r' < 2 ^ (7 * Z.of_nat (i + 1))
  /\ r' + Z.shiftr w 7 * 2 ^ (7 * Z.of_nat (i + 1)) = r + w * 2 ^ (7 * Z.of_nat i).
Proof.
  intros Hr Hw Hb. cbv zeta. unfold var_part.
  destruct (var_byte_cont w) as [_ ->].
  pose proof (Z.mod_pos_bound w 128 ltac:(lia)) as Hm.
  pose proof (Z.div_mod w 128 ltac:(lia)) as Hd.
  rewrite var_accum by (try lia; pose proof (Z.div_pos w 128 Hw ltac:(lia)); nia).
  rewrite Z.shiftr_div_pow2 by lia. change (2 ^ 7) with 128.
  replace (7 * Z.of_nat (i + 1)) with (7 + 7 * Z.of_nat i) by lia.
  rewrite Z.pow_add_r by lia. change (2 ^ 7) with 128. nia.
Qed.

Lemma lookup_pre (pre : bytes) b post i : length pre = i -> (pre ++ b :: post) !! i = Some b.
Proof. intros <-. by rewrite lookup_app_r, Nat.sub_diag. Qed.

Lemma drop_pre (pre : bytes) b post i : length pre = i -> drop (i + 1) (pre ++ b :: post) = post.
Proof.
  intros <-. rewrite drop_app_ge by lia.
  by replace (length pre + 1 - length pre)%nat with 1%nat by lia.
Qed.

Section VarU64.
  (** One lemma serves both loops: [loop left i r data] consumes the encoding
      of [w] at offset [i] and adds it to [r]. *)
  Context (loop : nat -> nat -> Z -> bytes -> res codec_error (Z * bytes)).
  Hypothesis loop_S : forall left i r data,
    loop (S left) i r data
    = (b ← get_unchecked data i;
       let r := Z.lor r (var_part b i) in
       if b2z b <? 128 then Ok (r, drop (i + 1) data)
       else loop left (i + 1)%nat r data).

  (** What the loop does when its rounds are used up at offset [i]. *)
  Context (last_ok : nat -> Prop).
  Hypothesis loop_O : forall i r w pre rest,
    last_ok i -> length pre = i -> 0 <= r < 2 ^ (7 * Z.of_nat i) -> 0 <= w < 128 ->
    r + w * 2 ^ (7 * Z.of_nat i) < 2 ^ 64 ->
    loop 0 i r (pre ++ u8 w :: rest) = Ok (r + w * 2 ^ (7 * Z.of_nat i), rest).

Lemma var_loop_spec fuel : forall left i r w pre rest,
  length pre = i -> 0 <= r < 2 ^ (7 * Z.of_nat i) ->
  0 <= w -> w < 2 ^ (7 * Z.of_nat fuel) ->
  (fuel <= left)%nat \/ fuel = S left /\ last_ok (i + left)%nat ->
  r + w * 2 ^ (7 * Z.of_nat i) < 2 ^ 64 -> (0 < fuel)%nat ->
  loop left i r (pre ++ encode_var_u64_loop fuel w ++ rest)
  = Ok (r + w * 2 ^ (7 * Z.of_nat i), rest).
Proof.
  induction fuel as [|f IH]; intros left i r w pre rest Hp Hr Hw Hw2 Hle Hb Hf; [lia|].
  destruct left as [|left].
  { destruct Hle as [?|[E Hl]]; [lia|]. injection E as ->. rewrite Nat.add_0_r in Hl.
    change (7 * Z.of_nat 1) with 7 in Hw2. cbn [encode_var_u64_loop].
    destruct (Z.leb_spec 128 w); [lia|]. apply loop_O; lia || done. }
  rewrite loop_S. cbn [encode_var_u64_loop].
  unfold get_unchecked. destruct (Z.leb_spec 128 w) as [Hw3|Hw3]; cbn [app].
  - rewrite lookup_pre by done. cbn [mbind res_bind]. cbv zeta.
    destruct (var_byte_cont w) as [Hc _].
    destruct (Z.ltb_spec (b2z (u8 (Z.lor (w mod 256) 128))) 128) as [?|_]; [lia|].
    destruct (var_step r w i Hr Hw Hb) as [Hr' He].
    rewrite cons_middle, app_assoc. rewrite <- He. apply IH; try done; try lia.
    + rewrite length_app. simpl. lia.
    + apply Z.shiftr_nonneg. done.
    + rewrite Z.shiftr_div_pow2 by lia. apply Z.div_lt_upper_bound; [lia|].
      rewrite <- Z.pow_add_r by lia.
      by replace (7 + 7 * Z.of_nat f) with (7 * Z.of_nat (S f)) by lia.
    + replace (i + 1 + left)%nat with (i + S left)%nat by lia. intuition lia.
    + destruct f; [|lia]. change (7 * Z.of_nat 1) with 7 in Hw2. lia.
  - rewrite lookup_pre by done. cbn [mbind res_bind]. cbv zeta.
    destruct (var_byte_last w ltac:(lia)) as [E1 E2]. rewrite E1.
    destruct (Z.ltb_spec w 128) as [_|?]; [|lia].
    rewrite drop_pre by done. unfold var_part. rewrite E2, var_accum by lia. done.
Qed.
End VarU64.

Lemma decode_var_fast_spec v rest :
  is_u64 v -> decode_var_fast 9 0 0 (encode_var_u64 v ++ rest) = Ok (v, rest).
Proof.
  intros Hv. unfold is_u64 in Hv.
  rewrite <- (app_nil_l (encode_var_u64 v ++ rest)). unfold encode_var_u64, MAX_VAR_U64_LEN.
  erewrite (var_loop_spec decode_var_fast ltac:(done) (fun i => i = 9%nat));
    try done; try lia.
  - f_equal. f_equal. simpl. lia.
  - intros i r w pre rest' -> Hp Hr Hw Hb. simpl. unfold get_unchecked.
    rewrite lookup_pre by done. cbn [mbind res_bind].
    destruct (var_byte_last w Hw) as [E1 E2]. rewrite E1.
    change (7 * Z.of_nat 9) with 63 in *.
    destruct (Z.leb_spec w 1) as [Hw1|Hw1]; [|lia].
    unfold var_part. rewrite E2, var_accum by (change (7 * Z.of_nat 9) with 63; lia).
    change 10%nat with (9 + 1)%nat. by rewrite drop_pre.
Qed.

(** Fuel beyond the length of the encoding does not change it. *)
Lemma encode_var_fuel fuel w :
  0 <= w < 2 ^ (7 * Z.of_nat fuel) -> (0 < fuel)%nat ->
  exists k, (0 < k <= fuel)%nat /\ length (encode_var_u64_loop fuel w) = k
    /\ w < 2 ^ (7 * Z.of_nat k) /\ encode_var_u64_loop k w = encode_var_u64_loop fuel w.
Proof.
  revert w; induction fuel as [|f IH]; intros w Hw Hf; [lia|].
  cbn [encode_var_u64_loop]. destruct (Z.leb_spec 128 w) as [Hw3|Hw3].
  - assert (0 < f)%nat by (destruct f; [|lia]; change (7 * Z.of_nat 1) with 7 in Hw; lia).
    destruct (IH (Z.shiftr w 7)) as (k & Hk & Hl & Hb & He); [|done|].
    + rewrite Z.shiftr_div_pow2 by lia. split; [apply Z.div_pos; lia|].
      apply Z.div_lt_upper_bound; [lia|]. rewrite <- Z.pow_add_r by lia.
      replace (7 + 7 * Z.of_nat f) with (7 * Z.of_nat (S f)) by lia. lia.
    + exists (S k). cbn [encode_var_u64_loop length]. rewrite Hl, He.
      destruct (Z.leb_spec 128 w); [|lia]. split_and_all; try lia; try done.
      rewrite Z.shiftr_div_pow2 in Hb by lia.
      replace (7 * Z.of_nat (S k)) with (7 + 7 * Z.of_nat k) by lia.
      rewrite Z.pow_add_r by lia. change (2 ^ 7) with 128 in *.
      pose proof (Z.div_mod w 128 ltac:(lia)). pose proof (Z.mod_pos_bound w 128 ltac:(lia)). nia.
  - exists 1%nat. cbn [encode_var_u64_loop length]. destruct (Z.leb_spec 128 w); [lia|].
    split_and_all; try lia; done.
Qed.

Lemma encode_var_u64_fuel v :
  is_u64 v -> exists k, (0 < k <= 10)%nat /\ length (encode_var_u64 v) = k
    /\ v < 2 ^ (7 * Z.of_nat k) /\ encode_var_u64_loop k v = encode_var_u64 v.
Proof. intros Hv. apply encode_var_fuel; unfold is_u64, MAX_VAR_U64_LEN in *; simpl; lia. Qed.

Lemma decode_var_slow_spec v rest n :
  is_u64 v -> (length (encode_var_u64 v) <= n)%nat ->
  decode_var_slow n 0 0 (encode_var_u64 v ++ rest) = Ok (v, rest).
Proof.
  intros Hv Hn. destruct (encode_var_u64_fuel v Hv) as (k & Hk & Hl & Hb & <-).
  unfold is_u64 in Hv. rewrite <- (app_nil_l (encode_var_u64_loop k v ++ rest)).
  erewrite (var_loop_spec decode_var_slow ltac:(done) (fun _ => False)); try done; try lia.
  f_equal. f_equal. simpl. lia.
Qed.

Lemma encode_var_u64_head v :
  is_u64 v -> exists b t, encode_var_u64 v = b :: t /\
    (if v <? 128 then b = u8 v /\ t = [] else 128 <= b2z b).
Proof.
  intros Hv. unfold encode_var_u64, MAX_VAR_U64_LEN. generalize 9%nat as f. intros f.
  cbn [encode_var_u64_loop]. rewrite Z.ltb_antisym.
  destruct (Z.leb_spec 128 v); cbn [negb]; eexists _, _; split; try done.
  by destruct (var_byte_cont v).
Qed.

Lemma decode_encode_var_u64 v rest :
  is_u64 v -> decode_var_u64 (encode_var_u64 v ++ rest) = Ok (v, rest).
Proof.
  intros Hv. pose proof (decode_var_fast_spec v rest Hv) as Hfast.
  pose proof (decode_var_slow_spec v rest (length (encode_var_u64 v ++ rest)) Hv) as Hslow.
  rewrite length_app in Hslow. specialize (Hslow ltac:(lia)).
  destruct (encode_var_u64_head v Hv) as (b & t & E & Hh). rewrite E in *.
  cbn [app] in *. unfold decode_var_u64. destruct (Z.ltb_spec v 128) as [Hlt|Hge].
  - destruct Hh as [-> ->]. unfold is_u64 in Hv. destruct (var_byte_last v ltac:(lia)) as [E1 E2].
    rewrite E2, E1. by destruct (Z.ltb_spec v 128); [|lia].
  - destruct (Z.ltb_spec (b2z b) 128); [lia|]. case_match; [done|].
    rewrite <- Hslow. f_equal. simpl. by rewrite length_app.
Qed.

(** *** The unchecked reads stay in bounds *)

Lemma decode_var_slow_no_panic left i r data :
  (i + left <= length data)%nat -> decode_var_slow left i r data <> Panic.
Proof.
  revert i r; induction left as [|l IH]; intros i r Hl; simpl; [done|].
  unfold get_unchecked. destruct (lookup_lt_is_Some_2 data i ltac:(lia)) as [b Hb].
  rewrite Hb. cbn [mbind res_bind]. case_match; [done|]. apply IH. lia.
Qed.

Lemma last_lookup (data : bytes) d i : length data = S i -> data !! i = Some (List.last data d).
Proof.
  revert i; induction data as [|x [|y data] IH]; intros i Hl; simpl in *; try done.
  - by injection Hl as <-.
  - destruct i as [|i]; [done|]. simpl. apply IH. lia.
Qed.

Lemma decode_var_fast_no_panic left i r data :
  (i + left = 9)%nat -> (i < length data)%nat ->
  (10 <= length data)%nat \/ b2z (List.last data Byte.x00) < 128 ->
  decode_var_fast left i r data <> Panic.
Proof.
  revert i r; induction left as [|l IH]; intros i r Hi Hlt Hc; simpl; unfold get_unchecked.
  - destruct (lookup_lt_is_Some_2 data 9 ltac:(lia)) as [b ->]. cbn [mbind res_bind].
    by case_match.
  - destruct (lookup_lt_is_Some_2 data i Hlt) as [b Hb]. rewrite Hb. cbn [mbind res_bind].
    destruct (Z.ltb_spec (b2z b) 128) as [|Hge]; [done|].
    apply IH; [lia| |done]. destruct Hc as [|Hc]; [lia|].
    destruct (decide (length data = S i)) as [E|]; [|lia].
    rewrite (last_lookup data Byte.x00 i E) in Hb. injection Hb as <-. lia.
Qed.

Lemma decode_var_u64_no_panic data : decode_var_u64 data <> Panic.
Proof.
  unfold decode_var_u64. destruct data as [|b rest]; [done|].
  case_match; [done|]. case_match eqn:E.
  - apply decode_var_fast_no_panic; [done|simpl; lia|].
    apply orb_true_iff in E as [E|E]; [left; by apply Nat.leb_le|right; by apply Z.ltb_lt].
  - apply decode_var_slow_no_panic. simpl. lia.
Qed.

Lemma var_part_range b i : is_u64 (var_part b i).
Proof. apply wrap64_range. Qed.

#[export] Hint Resolve lor_range var_part_range : tikv.

Lemma decode_var_slow_range left i r data v rest :
  is_u64 r -> decode_var_slow left i r data = Ok (v, rest) -> is_u64 v.
Proof.
  revert i r; induction left as [|l IH]; intros i r Hr; simpl; [done|].
  destruct (get_unchecked data i); cbn [mbind res_bind]; try done.
  case_match; [intros [= <- <-]|]; eauto with tikv.
Qed.

Lemma decode_var_fast_range left i r data v rest :
  is_u64 r -> decode_var_fast left i r data = Ok (v, rest) -> is_u64 v.
Proof.
  revert i r; induction left as [|l IH]; intros i r Hr; simpl;
    (destruct (get_unchecked data _); cbn [mbind res_bind]; try done);
    case_match; try done; try (intros [= <- <-]); eauto with tikv.
Qed.

Lemma is_u64_0 : is_u64 0.
Proof. by unfold is_u64. Qed.
#[export] Hint Resolve is_u64_0 : tikv.

Lemma decode_var_u64_range data v rest : decode_var_u64 data = Ok (v, rest) -> is_u64 v.
Proof.
  unfold decode_var_u64. destruct data as [|b t]; [done|].
  case_match; [|case_match; eauto using decode_var_fast_range, decode_var_slow_range with tikv].
  intros [= <- <-]. change 127 with (Z.ones 7). rewrite Z.land_ones by lia.
  pose proof (Z.mod_pos_bound (b2z b) (2 ^ 7) ltac:(lia)). unfold is_u64. lia.
Qed.

(** *** Zigzag *)

Lemma shiftl1_wrap v : 0 <= v < 2 ^ 63 -> wrap64 (Z.shiftl v 1) = 2 * v.
Proof.
  intros. rewrite Z.shiftl_mul_pow2 by lia. rewrite wrap64_small; unfold is_u64; lia.
Qed.

Lemma land_1 z : Z.land z 1 = z mod 2.
Proof. change 1 with (Z.ones 1). by rewrite Z.land_ones by lia. Qed.

Lemma shiftr_1 z : Z.shiftr z 1 = z / 2.
Proof. by rewrite Z.shiftr_div_pow2 by lia. Qed.

Lemma decode_encode_var_i64 v rest :
  is_i64 v -> decode_var_i64 (encode_var_i64 v ++ rest) = Ok (v, rest).
Proof.
  intros Hv. unfold decode_var_i64, encode_var_i64, is_i64 in *.
  rewrite decode_encode_var_u64 by (case_match; auto with tikv). cbn [mbind res_bind].
  destruct (Z.ltb_spec v 0) as [Hn|Hn].
  - assert (wrap64 (Z.shiftl (as_u64 v) 1) = 2 * v + 2 ^ 64) as ->.
    { unfold as_u64, wrap64. rewrite Z.shiftl_mul_pow2 by lia. rewrite Z.mul_mod_idemp_l by lia.
      symmetry. apply (Z.mod_unique _ _ (-1)); lia. }
    rewrite not64_eq by (unfold is_u64; lia).
    replace (u64_max - (2 * v + 2 ^ 64)) with (1 + (- v - 1) * 2) by (unfold u64_max; lia).
    rewrite land_1, shiftr_1, Z.mod_add, Z.div_add by lia.
    change (1 mod 2 =? 0) with false. change (1 / 2) with 0. cbv iota.
    rewrite not64_eq by (unfold is_u64; lia).
    unfold as_i64, u64_max. case_match; bool_to_prop; f_equal; f_equal; lia.
  - unfold as_u64. rewrite (wrap64_small v) by (unfold is_u64; lia).
    rewrite shiftl1_wrap by lia. rewrite land_1, shiftr_1, Z.mul_comm, Z.mod_mul, Z.div_mul by lia.
    change (0 =? 0) with true. cbv iota. unfold as_i64. case_match; bool_to_prop; [done|lia].
Qed.

(** ** The varint decoder of components/codec (codec/src/number.rs)

    A second decoder of the same format, used for write records. Unlike
    [decode_var_u64] it accepts a tenth byte other than 0 and 1 and keeps only
    its low bit. *)

Fixpoint codec_var_fast (left i : nat) (val : Z) (buf : bytes) : res codec_error (Z * bytes) :=
  match left with
  | S left' =>
      b ← get_unchecked buf i;
      let val := Z.lor val (var_part b i) in
      if b2z b <? 128 then Ok (val, drop (i + 1) buf)
      else codec_var_fast left' (i + 1) val buf
  | O =>
      b ← get_unchecked buf 9;
      Ok (Z.lor val (wrap64 (Z.shiftl (Z.land (b2z b) 1) 63)), drop 10 buf)
  end.

(** [while ptr != ptr_end && *ptr >= 0x80], with [left] bytes before the end. *)
Fixpoint codec_var_slow (left i : nat) (val : Z) (buf : bytes) : res codec_error (Z * bytes) :=
  match left with
  | S left' =>
      b ← get_unchecked buf i;
      if 128 <=? b2z b then codec_var_slow left' (i + 1) (Z.lor val (var_part b i)) buf
      else Ok (Z.lor val (wrap64 (Z.shiftl (b2z b) (7 * Z.of_nat i))), drop (i + 1) buf)
  | O => Err unexpected_eof
  end.

Definition try_decode_var_u64 (buf : bytes) : res codec_error (Z * bytes) :=
  if (10 <=? length buf)%nat then codec_var_fast 9 0 0 buf
  else codec_var_slow (length buf) 0 0 buf.

Lemma codec_var_slow_eq left i val buf :
  codec_var_slow left i val buf = decode_var_slow left i val buf.
Proof.
  revert i val; induction left as [|l IH]; intros i val; simpl; [done|].
  destruct (get_unchecked buf i) as [b| |]; [|done..]. cbn [mbind res_bind].
  rewrite Z.ltb_antisym. destruct (Z.leb_spec 128 (b2z b)); cbn [negb]; [apply IH|].
  unfold var_part. change 127 with (Z.ones 7). rewrite Z.land_ones, Z.mod_small; [done|..]; try lia.
  pose proof (b2z_range b). change (2 ^ 7) with 128. lia.
Qed.

Lemma codec_var_fast_eq left i val buf v rest :
  decode_var_fast left i val buf = Ok (v, rest) -> codec_var_fast left i val buf = Ok (v, rest).
Proof.
  revert i val; induction left as [|l IH]; intros i val; simpl.
  - destruct (get_unchecked buf 9) as [b| |]; [|done..]. cbn [mbind res_bind].
    destruct (Z.leb_spec (b2z b) 1) as [Hb|]; [|done]. intros [= <- <-]. unfold var_part.
    change 127 with (Z.ones 7). change 1 with (Z.ones 1). rewrite !Z.land_ones by lia.
    pose proof (b2z_range b). rewrite !Z.mod_small; [done|..]; lia.
  - destruct (get_unchecked buf i) as [b| |]; [|done..]. cbn [mbind res_bind].
    case_match; [done|]. apply IH.
Qed.

(** Running out of rounds is the only difference between the two loops. *)
Lemma decode_var_fast_slow left i val buf v rest :
  (i + left = 9)%nat -> (length buf <= 9)%nat -> (i <= length buf)%nat ->
  decode_var_fast left i val buf = Ok (v, rest) ->
  decode_var_slow (length buf - i) i val buf = Ok (v, rest).
Proof.
  revert i val; induction left as [|l IH]; intros i val Hi Hl Hle; simpl.
  - unfold get_unchecked. by rewrite lookup_ge_None_2 by lia.
  - unfold get_unchecked at 1. destruct (buf !! i) as [b|] eqn:Eb; [|done].
    pose proof (lookup_lt_Some _ _ _ Eb). cbn [mbind res_bind]. intros H'.
    replace (length buf - i)%nat with (S (length buf - (i + 1))) by lia. simpl.
    unfold get_unchecked. rewrite Eb. cbn [mbind res_bind].
    case_match; [done|]. apply IH; [lia..|done].
Qed.

Lemma decode_var_slow_one b t :
  b2z b < 128 -> decode_var_slow (S (length t)) 0 0 (b :: t) = Ok (Z.land (b2z b) 127, t).
Proof.
  intros Hb. simpl. destruct (Z.ltb_spec (b2z b) 128); [|lia]. f_equal. f_equal.
  unfold var_part. rewrite Z.shiftl_0_r. rewrite wrap64_small; [apply Z.lor_0_l|].
  change 127 with (Z.ones 7). rewrite Z.land_ones by lia.
  pose proof (Z.mod_pos_bound (b2z b) (2 ^ 7) ltac:(lia)). unfold is_u64. lia.
Qed.

Lemma codec_var_fast_one b t :
  b2z b < 128 -> codec_var_fast 9 0 0 (b :: t) = Ok (Z.land (b2z b) 127, t).
Proof.
  intros Hb. pose proof (decode_var_slow_one b t Hb) as E. simpl in E |- *.
  by destruct (Z.ltb_spec (b2z b) 128); [|lia].
Qed.

(** Whatever [decode_var_u64] accepts, the other decoder reads the same way. *)
Lemma try_decode_var_u64_agree buf v rest :
  decode_var_u64 buf = Ok (v, rest) -> try_decode_var_u64 buf = Ok (v, rest).
Proof.
  unfold decode_var_u64, try_decode_var_u64. destruct buf as [|b t]; [done|].
  destruct (Z.ltb_spec (b2z b) 128) as [Hb|Hb].
  { intros [= <- <-]. rewrite codec_var_slow_eq. case_match;
      [by apply codec_var_fast_one|by apply decode_var_slow_one]. }
  destruct (Nat.leb_spec 10 (length (b :: t))) as [Hl|Hl]; cbn [orb].
  - apply codec_var_fast_eq.
  - rewrite codec_var_slow_eq. case_match; [|done]. intros H'.
    apply (decode_var_fast_slow 9 0 0) in H'; [|done|lia..]. by rewrite Nat.sub_0_r in H'.
Qed.

Lemma try_decode_encode_var_u64 v rest :
  is_u64 v -> try_decode_var_u64 (encode_var_u64 v ++ rest) = Ok (v, rest).
Proof. intros. by apply try_decode_var_u64_agree, decode_encode_var_u64. Qed.

Lemma try_decode_var_u64_range buf v rest : try_decode_var_u64 buf = Ok (v, rest) -> is_u64 v.
Proof.
  unfold try_decode_var_u64. case_match; [|rewrite codec_var_slow_eq; apply decode_var_slow_range, is_u64_0].
  generalize is_u64_0. generalize 9%nat as n. intros n. generalize 0%nat as i. generalize 0 as r.
  induction n as [|l IH]; intros r i Hr; simpl;
    (destruct (get_unchecked buf _); cbn [mbind res_bind]; try done).
  - intros [= <- <-]. auto using lor_range, wrap64_range.
  - case_match; [intros [= <- <-]|]; eauto with tikv.
Qed.

(** ** Properties *)

(** The varint codec is lossless and safe. Decoding the encoding of any
    64-bit value, whatever bytes follow it, returns the value and exactly the
    bytes that follow; and on arbitrary input the decoder, which reads with
    unchecked indexing, never reads out of bounds and never returns more than
    64 bits. *)
Theorem var_u64_codec :
  (forall v rest, is_u64 v -> decode_var_u64 (encode_var_u64 v ++ rest) = Ok (v, rest))
  /\ (forall data, decode_var_u64 data <> Panic)
  /\ (forall data, match decode_var_u64 data with Ok (v, _) => is_u64 v | _ => True end).
Proof.
  split; [exact decode_encode_var_u64|]. split; [exact decode_var_u64_no_panic|].
  intros data. destruct (decode_var_u64 data) as [[v rest]| |] eqn:E; try done.
  by eapply decode_var_u64_range.
Qed.

(** the two varint decoders of the repository agree: whenever the
    decoder of tikv_util accepts an input, the decoder of the codec crate
    (used to parse write records) returns the same value and the same
    remaining bytes; and they differ on an overlong tenth byte, which the first
    rejects and the second silently truncates. *)
Theorem varint_decoders_agree :
  (forall buf, match decode_var_u64 buf with
               | Ok r => try_decode_var_u64 buf = Ok r
               | _ => True end)
  /\ decode_var_u64 (replicate 9 Byte.x80 ++ [Byte.x02]) = Err (Io InvalidData)
  /\ try_decode_var_u64 (replicate 9 Byte.x80 ++ [Byte.x02]) = Ok (0, []).
Proof.
  split; [|split; reflexivity]. intros buf.
  destruct (decode_var_u64 buf) as [[v rest]| |] eqn:E; try done. by apply try_decode_var_u64_agree.
Qed.
