(* ===== verification/Bytes.v ===== *)
(** * Byte-string codecs (components/tikv_util/src/codec/bytes.rs)

    The memcomparable encoding of keys (groups of eight bytes, each followed
    by a marker that counts its padding), its decoders, the reverse
    comparison [is_encoded_from], and the length-prefixed compact encoding.
    Loops over an offset carry fuel; the lemmas show that one round per group
    is enough. *)
From S2P Require Import Prelude Number.

(** ** Definitions *)

Definition ENC_GROUP_SIZE : nat := 8.
Definition ENC_MARKER : byte := Byte.xff.
Definition ENC_ASC_PADDING : bytes := replicate ENC_GROUP_SIZE Byte.x00.
Definition ENC_DESC_PADDING : bytes := replicate ENC_GROUP_SIZE Byte.xff.

Definition max_encoded_bytes_size (n : nat) : nat :=
  ((n / ENC_GROUP_SIZE + 1) * (ENC_GROUP_SIZE + 1))%nat.

Definition adjust_bytes_order (bs : bytes) (desc : bool) : bytes :=
  if desc then map notb bs else bs.

(** [while index <= len { ... index += ENC_GROUP_SIZE }] *)
Fixpoint encode_bytes_loop (fuel : nat) (key : bytes) (index : nat) (desc : bool) : bytes :=
  match fuel with
  | O => []
  | S f =>
      if (index <=? length key)%nat then
        let remain := (length key - index)%nat in
        if (ENC_GROUP_SIZE <? remain)%nat then
          adjust_bytes_order (take ENC_GROUP_SIZE (drop index key)) desc
          ++ adjust_bytes_order [ENC_MARKER] desc
          ++ encode_bytes_loop f key (index + ENC_GROUP_SIZE) desc
        else
          let pad := (ENC_GROUP_SIZE - remain)%nat in
          adjust_bytes_order (drop index key) desc
          ++ take pad (if desc then ENC_DESC_PADDING else ENC_ASC_PADDING)
          ++ adjust_bytes_order [u8 (b2z ENC_MARKER - Z.of_nat pad)] desc
          ++ encode_bytes_loop f key (index + ENC_GROUP_SIZE) desc
      else []
  end.

Definition encode_bytes (key : bytes) (desc : bool) : bytes :=
  encode_bytes_loop (length key / ENC_GROUP_SIZE + 1) key 0 desc.

Definition encode_compact_bytes (data : bytes) : bytes :=
  encode_var_i64 (as_i64 (wrap64 (Z.of_nat (length data)))) ++ data.

(** The pad size a marker announces. *)
Definition pad_size_of (marker : byte) (desc : bool) : nat :=
  Z.to_nat (if desc then b2z marker else b2z ENC_MARKER - b2z marker).

Fixpoint encoded_bytes_len_loop (fuel : nat) (encoded : bytes) (idx : nat) (desc : bool) : nat :=
  match fuel with
  | O => length encoded
  | S f =>
      match encoded !! idx with
      | None => length encoded
      | Some marker =>
          if (desc && negb (bool_decide (marker = Byte.x00)))
             || (negb desc && negb (bool_decide (marker = ENC_MARKER)))
          then (idx + 1)%nat
          else encoded_bytes_len_loop f encoded (idx + (ENC_GROUP_SIZE + 1)) desc
      end
  end.

Definition encoded_bytes_len (encoded : bytes) (desc : bool) : nat :=
  encoded_bytes_len_loop (S (length encoded)) encoded ENC_GROUP_SIZE desc.

Definition decode_compact_bytes (data : bytes) : res codec_error (bytes * bytes) :=
  '(v, data) ← decode_var_i64 data;
  let vn := as_u64 v in
  if vn <=? Z.of_nat (length data)
  then Ok (take (Z.to_nat vn) data, drop (Z.to_nat vn) data)
  else Err unexpected_eof.

Definition encoded_compact_len (encoded : bytes) : Z :=
  match decode_var_i64 encoded with
  | Ok (v, rest) => wrap64 (as_u64 v + (Z.of_nat (length encoded) - Z.of_nat (length rest)))
  | _ => Z.of_nat (length encoded)
  end.

Fixpoint decode_bytes_loop (fuel : nat) (data : bytes) (offset : nat) (key : bytes) (desc : bool) :
    res codec_error (bytes * bytes) :=
  match fuel with
  | O => Panic
  | S f =>
      let next_offset := (offset + (ENC_GROUP_SIZE + 1))%nat in
      if (next_offset <=? length data)%nat then
        let chunk := take (ENC_GROUP_SIZE + 1) (drop offset data) in
        let marker := List.last chunk Byte.x00 in
        let bs := take ENC_GROUP_SIZE chunk in
        let pad_size := pad_size_of marker desc in
        if (pad_size =? 0)%nat then decode_bytes_loop f data next_offset (key ++ bs) desc
        else if (ENC_GROUP_SIZE <? pad_size)%nat then Err KeyPadding
        else
          let padding := drop (ENC_GROUP_SIZE - pad_size) bs in
          let key := key ++ take (ENC_GROUP_SIZE - pad_size) bs in
          let pad_byte := if desc then Byte.xff else Byte.x00 in
          if existsb (fun x => negb (bool_decide (x = pad_byte))) padding then Err KeyPadding
          else Ok (if desc then map notb key else key, drop next_offset data)
      else Err unexpected_eof
  end.

Definition decode_bytes (data : bytes) (desc : bool) : res codec_error (bytes * bytes) :=
  decode_bytes_loop (S (length data)) data 0 [] desc.

(** [ptr::copy(data + read, data + write, ENC_GROUP_SIZE)] *)
Definition copy_group (data : bytes) (read write : nat) : bytes :=
  take write data ++ take ENC_GROUP_SIZE (drop read data) ++ drop (write + ENC_GROUP_SIZE) data.

Fixpoint decode_in_place_loop (fuel : nat) (data : bytes) (read write : nat) (desc : bool) :
    res codec_error bytes :=
  match fuel with
  | O => Panic
  | S f =>
      let marker_offset := (read + ENC_GROUP_SIZE)%nat in
      if (length data <=? marker_offset)%nat then Err unexpected_eof
      else
        let data := copy_group data read write in
        let write := (write + ENC_GROUP_SIZE)%nat in
        let read := (read + (ENC_GROUP_SIZE + 1))%nat in
        match data !! marker_offset with
        | None => Panic
        | Some marker =>
            let pad_size := pad_size_of marker desc in
            if (0 <? pad_size)%nat then
              if (ENC_GROUP_SIZE <? pad_size)%nat then Err KeyPadding
              else
                let padding_slice := take pad_size (if desc then ENC_DESC_PADDING else ENC_ASC_PADDING) in
                if bool_decide (take pad_size (drop (write - pad_size) data) = padding_slice) then
                  let data := take (write - pad_size) data in
                  Ok (if desc then map notb data else data)
                else Err KeyPadding
            else decode_in_place_loop f data read write desc
        end
  end.

Definition decode_bytes_in_place (data : bytes) (desc : bool) : res codec_error bytes :=
  decode_in_place_loop (S (length data)) data 0 0 desc.

(** The slice iterators of the standard library used by [is_encoded_from]:
    chunks of exactly [n] bytes from the front, with the remainder, and
    chunks of exactly [n] bytes from the back, last chunk first. *)
Fixpoint chunks_loop (count n : nat) (l : bytes) : list bytes :=
  match count with
  | O => []
  | S c => take n l :: chunks_loop c n (drop n l)
  end.

Definition chunks_exact (n : nat) (l : bytes) : list bytes * bytes :=
  let count := (length l / n)%nat in
  (chunks_loop count n l, drop (count * n) l).

Definition rchunks_exact (n : nat) (l : bytes) : list bytes * bytes :=
  let r := (length l mod n)%nat in
  (rev (chunks_loop (length l / n) n (drop r l)), take r l).

Definition check_single_chunk (desc : bool) (encoded raw : bytes) : bool :=
  let len := length raw in
  let pad := Z.of_nat (ENC_GROUP_SIZE - len) in
  let body := take (length encoded - 1 - len) (drop len encoded) in
  match encoded !! ENC_GROUP_SIZE with
  | None => false
  | Some marker =>
      if desc then
        bool_decide (marker = notb (u8 (b2z ENC_MARKER - pad)))
        && forallb (fun '(e, r) => bool_decide (e = notb r)) (zip (take len encoded) raw)
        && forallb (fun v => bool_decide (v = ENC_MARKER)) body
      else
        bool_decide (marker = u8 (b2z ENC_MARKER - pad))
        && bool_decide (take len encoded = raw)
        && forallb (fun v => bool_decide (v = notb ENC_MARKER)) body
  end.

Definition is_encoded_from (encoded raw : bytes) (desc : bool) : bool :=
  let '(rev_encoded_chunks, remainder) := rchunks_exact (ENC_GROUP_SIZE + 1) encoded in
  if bool_decide (remainder = []) then
    let '(raw_chunks, raw_remainder) := chunks_exact ENC_GROUP_SIZE raw in
    match rev_encoded_chunks with
    | encoded_chunk :: rest =>
        if check_single_chunk desc encoded_chunk raw_remainder then
          if (length rest =? length raw_chunks)%nat then
            forallb (fun '(e, r) => check_single_chunk desc e r) (zip rest (rev raw_chunks))
          else false
        else false
    | [] => false
    end
  else false.

(** codec/mod.rs, [next_prefix_of]: drop the trailing 0xff bytes and
    increment the last byte that is left. *)
Fixpoint next_prefix_rev (rkey : bytes) : bytes :=
  match rkey with
  | [] => []
  | b :: r => if bool_decide (b = Byte.xff) then next_prefix_rev r else u8 (b2z b + 1) :: r
  end.

Definition next_prefix_of (key : bytes) : bytes := rev (next_prefix_rev (rev key)).

Example encode_bytes_ex1 :
  encode_bytes [Byte.x01; Byte.x02] false
  = [Byte.x01; Byte.x02; Byte.x00; Byte.x00; Byte.x00; Byte.x00; Byte.x00; Byte.x00; Byte.xf9].
Proof. reflexivity. Qed.

(** ** Groups

    The encoding of one group of at most eight bytes. *)

Definition group (desc : bool) (c : bytes) : bytes :=
  adjust_bytes_order
    (c ++ replicate (8 - length c) Byte.x00 ++ [u8 (247 + Z.of_nat (length c))]) desc.

Lemma length_adjust bs desc : length (adjust_bytes_order bs desc) = length bs.
Proof. destruct desc; simpl; [apply length_map|done]. Qed.

Lemma adjust_app a b desc :
  adjust_bytes_order (a ++ b) desc = adjust_bytes_order a desc ++ adjust_bytes_order b desc.
Proof. destruct desc; simpl; [apply map_app|done]. Qed.

Lemma adjust_invol bs desc : adjust_bytes_order (adjust_bytes_order bs desc) desc = bs.
Proof.
  destruct desc; simpl; [|done]. rewrite map_map. erewrite map_ext; [apply map_id|].
  apply notb_invol.
Qed.

Lemma adjust_replicate n desc :
  (n <= 8)%nat ->
  adjust_bytes_order (replicate n Byte.x00) desc
  = take n (if desc then ENC_DESC_PADDING else ENC_ASC_PADDING).
Proof.
  intros Hn. unfold ENC_DESC_PADDING, ENC_ASC_PADDING, ENC_GROUP_SIZE.
  destruct desc; unfold adjust_bytes_order; rewrite take_replicate, Nat.min_l by done; [|done].
  clear. induction n as [|n IH]; simpl; [done|]. by rewrite IH.
Qed.

Lemma length_group desc c : (length c <= 8)%nat -> length (group desc c) = 9%nat.
Proof.
  intros. unfold group. rewrite length_adjust, !length_app, length_replicate. simpl. lia.
Qed.

Lemma marker_eq n : (n <= 8)%nat ->
  b2z ENC_MARKER - Z.of_nat (8 - n) = 247 + Z.of_nat n.
Proof. intros. change (b2z ENC_MARKER) with 255. lia. Qed.

Lemma div8_succ n : ((8 + n) / 8)%nat = S (n / 8).
Proof. apply (Nat.div_add_l 1 8 n). done. Qed.

Lemma encode_loop_shift f key i j desc :
  (i <= length key)%nat ->
  encode_bytes_loop f key (i + j) desc = encode_bytes_loop f (drop i key) j desc.
Proof.
  revert j; induction f as [|f IH]; intros j Hi; cbn [encode_bytes_loop]; [done|].
  rewrite length_drop, drop_drop. replace (i + j + ENC_GROUP_SIZE)%nat with (i + (j + ENC_GROUP_SIZE))%nat by lia.
  rewrite IH by done.
  replace (length key - (i + j))%nat with (length key - i - j)%nat by lia.
  destruct (Nat.leb_spec (i + j) (length key)), (Nat.leb_spec j (length key - i)); try lia; done.
Qed.

Lemma encode_bytes_short k desc : (length k < 8)%nat -> encode_bytes k desc = group desc k.
Proof.
  intros Hk. unfold encode_bytes, ENC_GROUP_SIZE. rewrite Nat.div_small by done.
  cbn [Nat.add encode_bytes_loop]. unfold ENC_GROUP_SIZE. rewrite Nat.sub_0_r, drop_0.
  destruct (Nat.leb_spec 0 (length k)); [|lia].
  destruct (Nat.ltb_spec 8 (length k)); [lia|].
  unfold group. rewrite !adjust_app, adjust_replicate, marker_eq by lia. by rewrite app_nil_r.
Qed.

Lemma encode_bytes_long c k desc :
  length c = 8%nat -> encode_bytes (c ++ k) desc = group desc c ++ encode_bytes k desc.
Proof.
  intros Hc. unfold encode_bytes. rewrite length_app, Hc. unfold ENC_GROUP_SIZE.
  rewrite div8_succ.
  cbn [Nat.add]. cbn [encode_bytes_loop]. unfold ENC_GROUP_SIZE.
  rewrite (encode_loop_shift _ _ 8 0) by (rewrite length_app; lia).
  rewrite drop_0, Nat.sub_0_r, length_app, Hc.
  rewrite (drop_app_ge_eq c k) by done.
  destruct (Nat.leb_spec 0 (8 + length k)); [|lia].
  unfold group. rewrite Hc. cbn [Nat.sub replicate app].
  destruct (Nat.ltb_spec 8 (8 + length k)) as [Hl|Hl].
  - rewrite take_app_ge_eq by done. rewrite adjust_app, <- app_assoc. done.
  - destruct k; [|simpl in Hl; lia]. rewrite app_nil_r. cbn [length Nat.add Nat.sub take].
    rewrite adjust_app, <- app_assoc. done.
Qed.

(** Induction over the groups of a byte string. *)
Lemma bytes_group_ind (P : bytes -> Prop) :
  (forall k, (length k < 8)%nat -> P k) ->
  (forall c k, length c = 8%nat -> P k -> P (c ++ k)) ->
  forall k, P k.
Proof.
  intros Hs Hl k. induction (Nat.lt_wf_0_projected length k) as [k _ IH].
  destruct (decide (length k < 8)%nat); [auto|].
  rewrite <- (take_drop 8 k). apply Hl; [rewrite length_take; lia|].
  apply IH. rewrite length_drop. lia.
Qed.

(** ** Order *)

Definition dir (desc : bool) (c : comparison) : comparison := if desc then CompOpp c else c.

Lemma bcmp_notb a b :
  length a = length b -> bcmp (map notb a) (map notb b) = CompOpp (bcmp a b).
Proof.
  revert b; induction a as [|x a IH]; intros [|y b] Hl; simpl in *; try done.
  rewrite !b2z_notb. rewrite Z.compare_sub. replace (255 - b2z x - (255 - b2z y)) with (b2z y - b2z x) by lia.
  rewrite <- Z.compare_sub, Z.compare_antisym.
  destruct (b2z x ?= b2z y); simpl; auto.
Qed.

Lemma bcmp_adjust a b desc :
  length a = length b ->
  bcmp (adjust_bytes_order a desc) (adjust_bytes_order b desc) = dir desc (bcmp a b).
Proof. destruct desc; simpl; [apply bcmp_notb|done]. Qed.

(** Padding sorts before any longer string with a larger marker. *)
Lemma bcmp_padding n b m m' :
  (length b <= n)%nat -> 0 <= m < m' -> m' < 256 ->
  bcmp (replicate n Byte.x00 ++ [u8 m]) (b ++ replicate (n - length b) Byte.x00 ++ [u8 m']) = Lt.
Proof.
  revert b; induction n as [|n IH]; intros b Hb Hm Hm'.
  - destruct b; [|simpl in Hb; lia]. simpl. rewrite !b2z_u8_small by lia.
    by rewrite (proj2 (Z.compare_lt_iff m m')) by lia.
  - destruct b as [|y b]; cbn [app bcmp length replicate Nat.sub].
    + specialize (IH [] ltac:(simpl; lia) Hm Hm'). simpl in IH. rewrite Nat.sub_0_r in IH. exact IH.
    + pose proof (b2z_range y). destruct (Z.compare_spec (b2z Byte.x00) (b2z y)) as [E|E|E]; [|done|].
      * apply IH; simpl in Hb; lia.
      * change (b2z Byte.x00) with 0 in E. lia.
Qed.

Lemma bcmp_padded n a b m :
  (length a <= n)%nat -> (length b <= n)%nat -> 0 <= m -> m + Z.of_nat n < 256 ->
  bcmp (a ++ replicate (n - length a) Byte.x00 ++ [u8 (m + Z.of_nat (length a))])
       (b ++ replicate (n - length b) Byte.x00 ++ [u8 (m + Z.of_nat (length b))]) = bcmp a b.
Proof.
  revert n b m; induction a as [|x a IH]; intros n b m Ha Hb Hm Hn.
  - destruct b as [|y b]; [apply bcmp_refl|].
    change (length []) with 0%nat. rewrite Nat.sub_0_r. rewrite app_nil_l.
    rewrite bcmp_padding; [done|done|simpl in *; lia|lia].
  - destruct b as [|y b].
    + change (length []) with 0%nat. rewrite Nat.sub_0_r, (app_nil_l (replicate n _ ++ _)).
      rewrite bcmp_antisym, bcmp_padding; [done|done|simpl in *; lia|lia].
    + destruct n as [|n]; [simpl in Ha; lia|]. specialize (IH n b (m + 1)).
      cbn [app bcmp length Nat.sub] in *. destruct (b2z x ?= b2z y); try done.
      rewrite <- IH by lia.
      by rewrite !Nat2Z.inj_succ, <- !Z.add_1_l, !Z.add_assoc.
Qed.

Lemma bcmp_group a b desc x y :
  (length a <= 8)%nat -> (length b <= 8)%nat ->
  bcmp (group desc a ++ x) (group desc b ++ y)
  = match bcmp a b with Eq => bcmp x y | c => dir desc c end.
Proof.
  intros Ha Hb. rewrite bcmp_app by (rewrite !length_group; lia).
  unfold group. rewrite bcmp_adjust, bcmp_padded;
    try (rewrite ?length_app, ?length_replicate; simpl; lia).
  by destruct (bcmp a b), desc.
Qed.

(** A string shorter than [c] compares with [c ++ d] as it does with [c]. *)
Lemma bcmp_shorter a c d :
  (length a < length c)%nat -> bcmp a (c ++ d) = bcmp a c /\ bcmp a c <> Eq.
Proof.
  revert c; induction a as [|x a IH]; intros [|y c] Hl; simpl in *; try lia; [done|].
  destruct (b2z x ?= b2z y); [apply IH; lia|done..].
Qed.

Lemma bcmp_encode_bytes desc a : forall b x y,
  bcmp (encode_bytes a desc ++ x) (encode_bytes b desc ++ y)
  = match bcmp a b with Eq => bcmp x y | c => dir desc c end.
Proof.
  induction a as [a Ha|c a Hc IH] using bytes_group_ind; intros b x y;
    destruct (decide (length b < 8)%nat) as [Hb|Hb].
  - rewrite !encode_bytes_short by done. apply bcmp_group; lia.
  - rewrite <- (take_drop 8 b). set (d := take 8 b). assert (length d = 8%nat) as Hd.
    { unfold d. rewrite length_take. lia. }
    rewrite encode_bytes_short, encode_bytes_long, <- app_assoc, bcmp_group by lia.
    destruct (bcmp_shorter a d (drop 8 b) ltac:(lia)) as [-> ?]. by destruct (bcmp a d).
  - rewrite encode_bytes_long, (encode_bytes_short b), <- app_assoc, bcmp_group by lia.
    destruct (bcmp_shorter b c a ltac:(lia)) as [E ?].
    rewrite (bcmp_antisym b (c ++ a)), E, (bcmp_antisym b c).
    by destruct (bcmp b c).
  - rewrite <- (take_drop 8 b). set (d := take 8 b). assert (length d = 8%nat) as Hd.
    { unfold d. rewrite length_take. lia. }
    rewrite !encode_bytes_long, <- !app_assoc, bcmp_group by lia. rewrite IH, bcmp_app by congruence.
    by destruct (bcmp c d).
Qed.

(** *** Consequences: encodings are prefix-free and order-preserving *)

Lemma encode_bytes_app_inj desc a b x y :
  encode_bytes a desc ++ x = encode_bytes b desc ++ y -> a = b /\ x = y.
Proof.
  intros E. apply bcmp_eq in E. rewrite bcmp_encode_bytes in E.
  destruct (bcmp a b) eqn:Eab; [|by destruct desc..].
  apply bcmp_eq in Eab, E. done.
Qed.

Lemma encode_bytes_inj desc a b : encode_bytes a desc = encode_bytes b desc -> a = b.
Proof.
  intros E. apply (encode_bytes_app_inj desc a b [] []). by rewrite !app_nil_r.
Qed.

Lemma bcmp_encode_asc a b : bcmp (encode_bytes a false) (encode_bytes b false) = bcmp a b.
Proof.
  rewrite <- (app_nil_r (encode_bytes a false)), <- (app_nil_r (encode_bytes b false)).
  rewrite bcmp_encode_bytes. by destruct (bcmp a b).
Qed.

(** ** Decoding *)

Lemma pad_size_marker n (desc : bool) :
  (n <= 8)%nat ->
  pad_size_of (if desc then notb (u8 (247 + Z.of_nat n)) else u8 (247 + Z.of_nat n)) desc = (8 - n)%nat.
Proof.
  intros Hn. unfold pad_size_of. change (b2z ENC_MARKER) with 255.
  destruct desc; rewrite ?b2z_notb, b2z_u8_small by lia; lia.
Qed.

(** A group seen as its eight bytes and its marker. *)
Lemma group_snoc (desc : bool) c :
  group desc c
  = adjust_bytes_order (c ++ replicate (8 - length c) Byte.x00) desc
    ++ [if desc then notb (u8 (247 + Z.of_nat (length c))) else u8 (247 + Z.of_nat (length c))].
Proof. unfold group. rewrite app_assoc, adjust_app. by destruct desc. Qed.

Lemma existsb_padding (desc : bool) n :
  existsb (fun x : byte => negb (bool_decide (x = (if desc then Byte.xff else Byte.x00))))
    (adjust_bytes_order (replicate n Byte.x00) desc) = false.
Proof. destruct desc; induction n; simpl; auto. Qed.

Lemma decode_loop_shift f data i j key desc :
  (i <= length data)%nat ->
  decode_bytes_loop f data (i + j) key desc = decode_bytes_loop f (drop i data) j key desc.
Proof.
  revert j key; induction f as [|f IH]; intros j key Hi; cbn [decode_bytes_loop]; [done|].
  rewrite length_drop, !drop_drop, <- !Nat.add_assoc, IH by done.
  destruct (Nat.leb_spec (i + (j + (ENC_GROUP_SIZE + 1))) (length data)),
    (Nat.leb_spec (j + (ENC_GROUP_SIZE + 1)) (length data - i)); try lia; done.
Qed.

(** One round of the decoder, on eight bytes and their marker. *)
Lemma decode_loop_chunk f (desc : bool) bs m rest key :
  length bs = 8%nat ->
  decode_bytes_loop (S f) (bs ++ m :: rest) 0 key desc
  = let pad := pad_size_of m desc in
    if (pad =? 0)%nat then decode_bytes_loop f rest 0 (key ++ bs) desc
    else if (8 <? pad)%nat then Err KeyPadding
    else if existsb (fun x : byte => negb (bool_decide (x = if desc then Byte.xff else Byte.x00)))
              (drop (8 - pad) bs) then Err KeyPadding
    else Ok (adjust_bytes_order (key ++ take (8 - pad) bs) desc, rest).
Proof.
  intros Hb. assert (length (bs ++ [m]) = 9%nat) as H9 by (rewrite length_app; simpl; lia).
  rewrite cons_middle, app_assoc. cbn [decode_bytes_loop]. rewrite drop_0, length_app, H9.
  unfold ENC_GROUP_SIZE. cbn [Nat.add].
  destruct (Nat.leb_spec 9 (9 + length rest)); [|lia].
  rewrite take_app_ge_eq, (drop_app_ge_eq (bs ++ [m])) by done.
  rewrite last_last, take_app_ge_eq by done. cbv zeta.
  case_match; [|by destruct desc].
  rewrite <- (Nat.add_0_r 9), decode_loop_shift by (rewrite length_app; lia).
  by rewrite drop_app_ge_eq.
Qed.

Lemma decode_loop_group f desc c rest key :
  (length c <= 8)%nat ->
  decode_bytes_loop (S f) (group desc c ++ rest) 0 key desc
  = if (length c =? 8)%nat
    then decode_bytes_loop f rest 0 (key ++ adjust_bytes_order c desc) desc
    else Ok (adjust_bytes_order (key ++ adjust_bytes_order c desc) desc, rest).
Proof.
  intros Hc. rewrite group_snoc, <- app_assoc. cbn [app].
  rewrite decode_loop_chunk by (rewrite length_adjust, length_app, length_replicate; lia).
  rewrite pad_size_marker by done. cbv zeta.
  destruct (Nat.eqb_spec (length c) 8) as [E|E].
  - rewrite E. cbn [Nat.sub Nat.eqb replicate]. by rewrite app_nil_r.
  - destruct (Nat.eqb_spec (8 - length c) 0); [lia|].
    destruct (Nat.ltb_spec 8 (8 - length c)); [lia|].
    rewrite adjust_app. replace (8 - (8 - length c))%nat with (length c) by lia.
    rewrite take_app_ge_eq, drop_app_ge_eq by (by rewrite length_adjust).
    by rewrite existsb_padding.
Qed.

Lemma decode_loop_encode desc k : forall f key rest,
  (length k < f * 8)%nat ->
  decode_bytes_loop f (encode_bytes k desc ++ rest) 0 key desc
  = Ok (adjust_bytes_order (key ++ adjust_bytes_order k desc) desc, rest).
Proof.
  induction k as [k Hk|c k Hc IH] using bytes_group_ind; intros f key rest Hf;
    (destruct f as [|f]; [lia|]).
  - rewrite encode_bytes_short, decode_loop_group by lia.
    by destruct (Nat.eqb_spec (length k) 8); [lia|].
  - rewrite encode_bytes_long, <- app_assoc, decode_loop_group by lia.
    rewrite Hc. cbn [Nat.eqb]. rewrite length_app in Hf.
    rewrite IH by lia. by rewrite (adjust_app c k), <- app_assoc.
Qed.

Lemma encode_bytes_grows k desc : (length k < length (encode_bytes k desc))%nat.
Proof.
  induction k as [k Hk|c k Hc IH] using bytes_group_ind.
  - rewrite encode_bytes_short, length_group by lia. lia.
  - rewrite encode_bytes_long, !length_app, length_group by lia. lia.
Qed.

(** Decoding inverts encoding and leaves the rest of the slice. *)
Lemma decode_encode_bytes k desc rest :
  decode_bytes (encode_bytes k desc ++ rest) desc = Ok (k, rest).
Proof.
  unfold decode_bytes. rewrite decode_loop_encode.
  - simpl. by rewrite adjust_invol.
  - rewrite length_app. pose proof (encode_bytes_grows k desc). lia.
Qed.

(** *** Only encodings decode *)

Lemma existsb_padding_inv (desc : bool) (l : bytes) :
  existsb (fun x : byte => negb (bool_decide (x = (if desc then Byte.xff else Byte.x00)))) l = false ->
  l = adjust_bytes_order (replicate (length l) Byte.x00) desc.
Proof.
  induction l as [|x l IH]; simpl; [by destruct desc|].
  intros H. apply orb_false_iff in H as [H1 H2]. bool_to_prop. rewrite (IH H2) at 1.
  by destruct desc; subst x.
Qed.

Lemma pad_size_inv m (desc : bool) :
  (pad_size_of m desc <= 8)%nat ->
  m = if desc then notb (u8 (247 + Z.of_nat (8 - pad_size_of m desc)))
      else u8 (247 + Z.of_nat (8 - pad_size_of m desc)).
Proof.
  unfold pad_size_of. change (b2z ENC_MARKER) with 255. pose proof (b2z_range m).
  destruct desc; intros Hp; apply b2z_inj; rewrite ?b2z_notb, b2z_u8_small; lia.
Qed.

Lemma chunk_group (desc : bool) bs m :
  length bs = 8%nat -> (pad_size_of m desc <= 8)%nat ->
  existsb (fun x : byte => negb (bool_decide (x = (if desc then Byte.xff else Byte.x00))))
    (drop (8 - pad_size_of m desc) bs) = false ->
  bs ++ [m] = group desc (adjust_bytes_order (take (8 - pad_size_of m desc) bs) desc).
Proof.
  intros Hb Hp He. apply existsb_padding_inv in He. rewrite length_drop, Hb in He.
  rewrite group_snoc, length_adjust, length_take, Hb, Nat.min_l by lia.
  f_equal; [|by rewrite <- pad_size_inv].
  rewrite adjust_app, adjust_invol. rewrite <- He. by rewrite take_drop.
Qed.

Lemma decode_loop_short f data key desc :
  (length data < 9)%nat -> decode_bytes_loop (S f) data 0 key desc = Err unexpected_eof.
Proof.
  intros. cbn [decode_bytes_loop]. unfold ENC_GROUP_SIZE. cbn [Nat.add].
  by destruct (Nat.leb_spec 9 (length data)); [lia|].
Qed.

(** A slice of nine bytes or more starts with a chunk. *)
Lemma split_chunk (data : bytes) :
  (9 <= length data)%nat -> exists bs m rest, data = bs ++ m :: rest /\ length bs = 8%nat.
Proof.
  intros Hl. destruct (lookup_lt_is_Some_2 data 8 ltac:(lia)) as [m Hm].
  exists (take 8 data), m, (drop 9 data). split; [|rewrite length_take; lia].
  by rewrite <- (take_drop_middle data 8 m) at 1.
Qed.

Lemma decode_loop_inv desc f : forall data key k rest,
  decode_bytes_loop f data 0 key desc = Ok (k, rest) ->
  exists k', k = adjust_bytes_order (key ++ adjust_bytes_order k' desc) desc
             /\ data = encode_bytes k' desc ++ rest.
Proof.
  induction f as [|f IH]; intros data key k rest; [done|].
  destruct (decide (length data < 9)%nat) as [Hl|Hl]; [by rewrite decode_loop_short|].
  destruct (split_chunk data ltac:(lia)) as (bs & m & r & -> & Hb).
  rewrite decode_loop_chunk by done. cbv zeta.
  destruct (Nat.eqb_spec (pad_size_of m desc) 0) as [E|E].
  - intros H. apply IH in H as (k' & -> & ->).
    exists (adjust_bytes_order bs desc ++ k'). rewrite encode_bytes_long by (by rewrite length_adjust).
    rewrite (adjust_app (adjust_bytes_order bs desc)), adjust_invol, <- app_assoc. split; [done|].
    trans ((bs ++ [m]) ++ encode_bytes k' desc ++ rest); [by rewrite <- app_assoc|].
    rewrite (chunk_group desc bs m) by (rewrite ?E, ?drop_ge by lia; simpl; done || lia).
    rewrite E, take_ge by lia. by rewrite <- app_assoc.
  - destruct (Nat.ltb_spec 8 (pad_size_of m desc)); [done|]. case_match eqn:Ee; [done|].
    intros [= <- <-]. exists (adjust_bytes_order (take (8 - pad_size_of m desc) bs) desc).
    rewrite adjust_invol. split; [done|].
    rewrite encode_bytes_short by (rewrite length_adjust, length_take; lia).
    rewrite <- chunk_group by (done || lia). by rewrite <- app_assoc.
Qed.

(** Decoding succeeds exactly on the encodings. *)
Lemma decode_bytes_inv data desc k rest :
  decode_bytes data desc = Ok (k, rest) -> data = encode_bytes k desc ++ rest.
Proof.
  unfold decode_bytes. intros H. apply decode_loop_inv in H as (k' & -> & ->).
  simpl. by rewrite adjust_invol.
Qed.

Lemma decode_loop_no_panic desc f : forall data key,
  (length data < f)%nat -> decode_bytes_loop f data 0 key desc <> Panic.
Proof.
  induction f as [|f IH]; intros data key Hf; [lia|].
  destruct (decide (length data < 9)%nat) as [Hl|Hl]; [by rewrite decode_loop_short|].
  destruct (split_chunk data ltac:(lia)) as (bs & m & r & -> & Hb).
  rewrite decode_loop_chunk by done. cbv zeta. case_match.
  - apply IH. rewrite length_app in Hf. simpl in Hf. lia.
  - by repeat case_match.
Qed.

Lemma decode_bytes_no_panic data desc : decode_bytes data desc <> Panic.
Proof. apply decode_loop_no_panic. lia. Qed.

(** *** Decoding in place *)

Lemma copy_group_eq (w x bs t : bytes) :
  length bs = 8%nat ->
  copy_group (w ++ x ++ bs ++ t) (length w + length x) (length w)
  = (w ++ bs) ++ drop 8 (x ++ bs) ++ t.
Proof.
  intros Hb. unfold copy_group, ENC_GROUP_SIZE.
  rewrite take_app_ge_eq by done. rewrite <- !app_assoc. f_equal.
  rewrite <- !drop_drop, (drop_app_ge_eq w), (drop_app_ge_eq x), take_app_ge_eq by done.
  f_equal. rewrite app_assoc. apply drop_app_le. rewrite length_app. lia.
Qed.

Lemma padding_check (desc : bool) (l : bytes) n :
  length l = n -> (n <= 8)%nat ->
  bool_decide (l = take n (if desc then ENC_DESC_PADDING else ENC_ASC_PADDING))
  = negb (existsb (fun x : byte => negb (bool_decide (x = if desc then Byte.xff else Byte.x00))) l).
Proof.
  intros Hl Hn. rewrite <- adjust_replicate by done.
  destruct (existsb _ l) eqn:E; cbn [negb].
  - apply bool_decide_eq_false. intros ->. by rewrite existsb_padding in E.
  - apply bool_decide_eq_true. rewrite <- Hl. by apply existsb_padding_inv.
Qed.

Lemma decode_in_place_sim desc f : forall w x d,
  decode_in_place_loop f (w ++ x ++ d) (length w + length x) (length w) desc
  = fst <$> decode_bytes_loop f d 0 w desc.
Proof.
  induction f as [|f IH]; intros w x d; [done|].
  destruct (decide (length d < 9)%nat) as [Hl|Hl].
  { rewrite decode_loop_short by done. cbn [decode_in_place_loop]. unfold ENC_GROUP_SIZE.
    rewrite !length_app.
    by destruct (Nat.leb_spec (length w + (length x + length d)) (length w + length x + 8)); [|lia]. }
  destruct (split_chunk d ltac:(lia)) as (bs & m & r & -> & Hb).
  rewrite decode_loop_chunk by done. cbn [decode_in_place_loop]. cbv zeta.
  rewrite copy_group_eq by done. unfold ENC_GROUP_SIZE.
  rewrite !length_app. cbn [length].
  destruct (Nat.leb_spec (length w + (length x + (length bs + S (length r)))) (length w + length x + 8)) as [?|_];
    [lia|].
  assert (length (drop 8 (x ++ bs)) = length x) as Hx by (rewrite length_drop, length_app; lia).
  rewrite (lookup_app_r (w ++ bs)), lookup_app_r by (rewrite ?length_app; lia).
  rewrite Hx, !length_app, Hb. replace (length w + length x + 8 - (length w + 8) - length x)%nat with 0%nat by lia.
  cbn [lookup list_lookup]. change ((m :: r) !! 0%nat) with (Some m). cbv iota.
  destruct (Nat.ltb_spec 0 (pad_size_of m desc)), (Nat.eqb_spec (pad_size_of m desc) 0); try lia.
  - destruct (Nat.ltb_spec 8 (pad_size_of m desc)); [done|].
    assert (length w + 8 - pad_size_of m desc = length w + (8 - pad_size_of m desc))%nat as -> by lia.
    rewrite <- !app_assoc, take_app, drop_app.
    rewrite (drop_ge w), (take_ge w) by lia.
    rewrite Nat.add_sub_swap, Nat.sub_diag by lia. cbn [Nat.add app].
    rewrite drop_app_le, take_app_le, take_ge by (rewrite ?length_drop; lia).
    rewrite (take_app_le bs) by lia.
    rewrite padding_check by (rewrite ?length_drop; lia).
    by destruct (existsb _ _).
  - specialize (IH (w ++ bs) (drop 8 (x ++ bs) ++ [m]) r).
    rewrite !length_app, Hx, Hb, <- !app_assoc in IH. cbn [length app] in IH.
    rewrite <- IH, <- !app_assoc. f_equal. lia.
Qed.

Lemma decode_in_place_eq data desc :
  decode_bytes_in_place data desc = fst <$> decode_bytes data desc.
Proof. exact (decode_in_place_sim desc _ [] [] data). Qed.

(** *** [is_encoded_from] *)

Lemma forallb_replicate (p : byte) l :
  forallb (fun v => bool_decide (v = p)) l = true <-> l = replicate (length l) p.
Proof.
  induction l as [|x l IH]; simpl; [done|].
  rewrite andb_true_iff, bool_decide_eq_true, IH. split; [by intros [-> <-]|].
  intros [= -> E]. by split.
Qed.

Lemma forallb_zip_map {A B} (g : B -> A) (p : A * B -> bool) :
  (forall a b, p (a, b) = true <-> a = g b) ->
  forall l r, length l = length r -> (forallb p (zip l r) = true <-> l = map g r).
Proof.
  intros Hp l. induction l as [|a l IH]; intros [|b r] Hl; try done.
  injection Hl as Hl. cbn [zip zip_with forallb map]. rewrite andb_true_iff, Hp.
  change (zip_with pair l r) with (zip l r). rewrite (IH r Hl).
  split; [by intros [-> ->]|]. by intros [= -> ->].
Qed.

Lemma app_eq_take_drop {A} (l a b : list A) :
  l = a ++ b <-> take (length a) l = a /\ drop (length a) l = b.
Proof.
  split; [intros ->; by rewrite take_app_ge_eq, drop_app_ge_eq|].
  intros [<- <-]. by rewrite length_take, <- (take_drop (length a) l) at 1; destruct (Nat.min_spec (length a) (length l)) as [[? ->]|[? ->]];
    [|rewrite !take_ge, !drop_ge by lia].
Qed.

Lemma check_single_chunk_spec (desc : bool) e r :
  length e = 9%nat -> (length r <= 8)%nat ->
  check_single_chunk desc e r = true <-> e = group desc r.
Proof.
  intros He Hr. destruct (split_chunk e ltac:(lia)) as (b & m & t & -> & Hb).
  assert (t = []) as -> by (destruct t; [done|]; rewrite length_app in He; simpl in He; lia).
  unfold check_single_chunk, ENC_GROUP_SIZE.
  rewrite lookup_app_r, Hb by lia. cbn [Nat.sub]. change ([m] !! 0%nat) with (Some m). cbv iota.
  rewrite marker_eq, He, take_app_le by lia.
  rewrite drop_app_le, take_app_le, (take_ge (drop _ b)) by (rewrite ?length_drop; lia).
  rewrite group_snoc.
  assert (forall (x : bytes) m', length x = 8%nat -> b ++ [m] = x ++ [m'] <-> m = m' /\ b = x) as Happ.
  { intros x m' Hx. split; [|by intros [-> ->]].
    intros E%app_inj_1; [|lia]. destruct E as [-> [= ->]]. done. }
  rewrite Happ by (done || rewrite length_adjust, length_app, length_replicate; lia).
  rewrite adjust_app, app_eq_take_drop, length_adjust.
  destruct desc; rewrite !andb_true_iff, !bool_decide_eq_true, forallb_replicate, length_drop, Hb.
  - rewrite (forallb_zip_map notb) by (intros; rewrite ?length_take, ?bool_decide_eq_true; done || lia).
    unfold adjust_bytes_order. change (@map byte byte) with (@fmap list _ byte byte). rewrite fmap_replicate.
    change (notb Byte.x00) with ENC_MARKER. tauto.
  - unfold adjust_bytes_order. change (notb ENC_MARKER) with Byte.x00. tauto.
Qed.

Lemma concat_chunks c n (l : bytes) : length l = (c * n)%nat -> concat (chunks_loop c n l) = l.
Proof.
  revert l; induction c as [|c IH]; intros l Hl; simpl.
  - by destruct l.
  - rewrite IH by (rewrite length_drop; lia). apply take_drop.
Qed.

Lemma chunks_concat n (L : list bytes) :
  Forall (fun x => length x = n) L -> chunks_loop (length L) n (concat L) = L.
Proof.
  induction 1 as [|x L Hx _ IH]; simpl; [done|].
  by rewrite take_app_ge_eq, drop_app_ge_eq, IH.
Qed.

Lemma chunks_lengths c n (l : bytes) :
  (c * n <= length l)%nat -> Forall (fun x => length x = n) (chunks_loop c n l).
Proof.
  revert l; induction c as [|c IH]; intros l Hl; simpl; constructor.
  - rewrite length_take. lia.
  - apply IH. rewrite length_drop. lia.
Qed.

Lemma length_chunks c n (l : bytes) : length (chunks_loop c n l) = c.
Proof. revert l; induction c as [|c IH]; intros l; simpl; [done|]. by rewrite IH. Qed.

Lemma length_concat_uniform n (L : list bytes) :
  Forall (fun x => length x = n) L -> length (concat L) = (length L * n)%nat.
Proof. induction 1 as [|x L Hx _ IH]; simpl; [done|]. rewrite length_app. lia. Qed.

(** The chunks of an encoding are the groups of the chunks of the key. *)
Lemma encode_bytes_chunks k desc :
  let '(cs, r) := chunks_exact 8 k in
  encode_bytes k desc = concat (map (group desc) cs ++ [group desc r])
  /\ Forall (fun x => length x = 8%nat) cs /\ (length r < 8)%nat.
Proof.
  unfold chunks_exact. split; [|split].
  - induction k as [k Hk|c k Hc IH] using bytes_group_ind.
    + rewrite Nat.div_small, encode_bytes_short by done. simpl. by rewrite drop_0, app_nil_r.
    + rewrite encode_bytes_long, length_app, Hc, IH by done.
      rewrite div8_succ.
      cbn [chunks_loop map app concat]. rewrite take_app_ge_eq, drop_app_ge_eq by done.
      change (S (length k / 8) * 8)%nat with (8 + (length k / 8) * 8)%nat.
      by rewrite <- drop_drop, drop_app_ge_eq.
  - apply chunks_lengths. rewrite Nat.mul_comm. by apply Nat.Div0.mul_div_le.
  - rewrite length_drop. pose proof (Nat.div_mod_eq (length k) 8).
    pose proof (Nat.mod_upper_bound (length k) 8). lia.
Qed.

Lemma check_zip desc : forall es rs,
  Forall (fun x => length x = 9%nat) es -> Forall (fun x => length x = 8%nat) rs ->
  length es = length rs ->
  forallb (fun '(e, r) => check_single_chunk desc e r) (zip es rs) = true
  <-> es = map (group desc) rs.
Proof.
  induction es as [|e es IH]; intros [|r rs] He Hr Hl; try done.
  injection Hl as Hl. apply Forall_cons in He as [He Hes]. apply Forall_cons in Hr as [Hr Hrs].
  cbn [zip zip_with forallb map]. change (zip_with pair es rs) with (zip es rs).
  rewrite andb_true_iff, check_single_chunk_spec, (IH rs) by (done || lia).
  split; [by intros [-> ->]|]. by intros [= -> ->].
Qed.

Lemma rchunks_exact_nil n (e : bytes) :
  n <> O -> snd (rchunks_exact n e) = [] ->
  exists L, e = concat L /\ Forall (fun x => length x = n) L /\ fst (rchunks_exact n e) = rev L.
Proof.
  unfold rchunks_exact. cbn [fst snd]. intros Hn Hrem.
  pose proof (Nat.div_mod_eq (length e) n) as Hdm. pose proof (Nat.Div0.mod_le (length e) n).
  apply (f_equal length) in Hrem. rewrite length_take in Hrem. cbn [length] in Hrem.
  assert (length e mod n = 0)%nat as -> by lia. rewrite drop_0.
  exists (chunks_loop (length e / n) n e). split_and!; [|apply chunks_lengths; lia|done].
  by rewrite concat_chunks by lia.
Qed.

Lemma rchunks_exact_concat n (L : list bytes) :
  n <> O -> Forall (fun x => length x = n) L -> rchunks_exact n (concat L) = (rev L, []).
Proof.
  intros Hn HL. unfold rchunks_exact. rewrite (length_concat_uniform n) by done.
  rewrite Nat.Div0.mod_mul, Nat.div_mul, drop_0, take_0 by done. by rewrite chunks_concat.
Qed.

Lemma map_group_lengths desc cs :
  Forall (fun x : bytes => length x = 8%nat) cs ->
  Forall (fun x : bytes => length x = 9%nat) (map (group desc) cs).
Proof. induction 1; simpl; constructor; [apply length_group; lia|done]. Qed.

Lemma is_encoded_from_iff e r desc :
  is_encoded_from e r desc = true <-> e = encode_bytes r desc.
Proof.
  pose proof (encode_bytes_chunks r desc) as Henc.
  unfold is_encoded_from, ENC_GROUP_SIZE in *. cbn [Nat.add].
  destruct (chunks_exact 8 r) as [cs rm]. destruct Henc as (-> & Hcs & Hrm).
  split.
  - destruct (rchunks_exact 9 e) as [ecs rem] eqn:Ee. intros H. case_bool_decide; [|done]. subst rem.
    destruct (rchunks_exact_nil 9 e) as (L & -> & HL & Ecs); [done|by rewrite Ee|].
    rewrite Ee in Ecs. cbn [fst] in Ecs. subst ecs. f_equal.
    apply Forall_rev in HL. rewrite <- (rev_involutive L).
    destruct (rev L) as [|ec rest]; [done|]. apply Forall_cons in HL as [Hec Hrest].
    destruct (check_single_chunk desc ec rm) eqn:E1; [|done].
    apply check_single_chunk_spec in E1 as ->; [|done|lia].
    destruct (Nat.eqb_spec (length rest) (length cs)) as [El|]; [|done].
    apply check_zip in H as ->; [|done|by apply Forall_rev|by rewrite length_rev].
    cbn [rev]. by rewrite <- map_rev, rev_involutive.
  - intros ->. rewrite rchunks_exact_concat; [|done|].
    2:{ apply Forall_app. split; [|repeat constructor; apply length_group; lia].
        by apply map_group_lengths. }
    rewrite rev_app_distr. cbn [rev app]. rewrite bool_decide_eq_true_2 by done.
    assert (check_single_chunk desc (group desc rm) rm = true) as ->
      by (apply check_single_chunk_spec; [apply length_group; lia|lia|done]).
    rewrite length_rev, length_map, Nat.eqb_refl, <- map_rev.
    apply check_zip; [|by apply Forall_rev|by rewrite length_map|done].
    by apply map_group_lengths, Forall_rev.
Qed.

(** *** Lengths *)

Lemma length_encode_bytes k desc :
  length (encode_bytes k desc) = max_encoded_bytes_size (length k).
Proof.
  unfold max_encoded_bytes_size, ENC_GROUP_SIZE.
  induction k as [k Hk|c k Hc IH] using bytes_group_ind.
  - rewrite encode_bytes_short, length_group, Nat.div_small by lia. done.
  - rewrite encode_bytes_long, !length_app, length_group, IH, Hc by lia.
    rewrite div8_succ. lia.
Qed.

Lemma encoded_len_shift g t desc f : forall i,
  encoded_bytes_len_loop f (g ++ t) (length g + i) desc
  = (length g + encoded_bytes_len_loop f t i desc)%nat.
Proof.
  induction f as [|f IH]; intros i; cbn [encoded_bytes_len_loop]; [apply length_app|].
  rewrite lookup_app_r, Nat.add_comm, Nat.add_sub by lia.
  destruct (t !! i); [|rewrite length_app; lia].
  case_match; [lia|]. rewrite <- IH. f_equal. lia.
Qed.

Lemma encoded_len_group desc c t f :
  (length c <= 8)%nat ->
  encoded_bytes_len_loop (S f) (group desc c ++ t) 8 desc
  = if (length c =? 8)%nat then (9 + encoded_bytes_len_loop f t 8 desc)%nat else 9%nat.
Proof.
  intros Hc. cbn [encoded_bytes_len_loop]. rewrite group_snoc at 1. rewrite <- app_assoc.
  rewrite lookup_app_r by (rewrite length_adjust, length_app, length_replicate; lia).
  rewrite length_adjust, length_app, length_replicate.
  replace (8 - (length c + (8 - length c)))%nat with 0%nat by lia.
  cbn [app]. change ((?x :: t) !! 0%nat) with (Some x). cbv iota.
  pose proof (pad_size_marker (length c) desc Hc) as Hp. unfold pad_size_of in Hp.
  replace (8 + (ENC_GROUP_SIZE + 1))%nat with (length (group desc c) + 8)%nat
    by (by rewrite length_group).
  rewrite encoded_len_shift, length_group by done.
  change (b2z ENC_MARKER) with (b2z Byte.xff) in Hp.
  destruct desc; cbn [andb orb negb].
  - case_bool_decide as E; [rewrite E in Hp|]; destruct (Nat.eqb_spec (length c) 8); cbn; try done.
    + exfalso. change (b2z Byte.x00) with 0 in Hp. lia.
    + exfalso. apply E. apply b2z_inj. change (b2z Byte.x00) with 0.
      pose proof (b2z_range (notb (u8 (247 + Z.of_nat (length c))))). lia.
  - case_bool_decide as E; [rewrite E in Hp|]; destruct (Nat.eqb_spec (length c) 8); cbn; try done.
    + exfalso. change (b2z Byte.xff - b2z ENC_MARKER) with 0 in Hp. lia.
    + exfalso. apply E. apply b2z_inj. change (b2z ENC_MARKER) with 255.
      change (b2z Byte.xff) with 255 in Hp.
      pose proof (b2z_range (u8 (247 + Z.of_nat (length c)))). lia.
Qed.

Lemma encoded_bytes_len_loop_encode desc k : forall f rest,
  (length k < f * 8)%nat ->
  encoded_bytes_len_loop f (encode_bytes k desc ++ rest) 8 desc = length (encode_bytes k desc).
Proof.
  induction k as [k Hk|c k Hc IH] using bytes_group_ind; intros f rest Hf;
    (destruct f as [|f]; [lia|]).
  - rewrite encode_bytes_short, encoded_len_group, length_group by lia.
    by destruct (Nat.eqb_spec (length k) 8); [lia|].
  - rewrite encode_bytes_long, <- app_assoc, encoded_len_group, Hc, Nat.eqb_refl by lia.
    rewrite IH, length_app, length_group by (rewrite ?length_app in Hf; lia). done.
Qed.

Lemma encoded_bytes_len_encode k desc rest :
  encoded_bytes_len (encode_bytes k desc ++ rest) desc = length (encode_bytes k desc).
Proof.
  apply encoded_bytes_len_loop_encode. rewrite length_app, length_encode_bytes.
  unfold max_encoded_bytes_size, ENC_GROUP_SIZE.
  pose proof (Nat.div_mod_eq (length k) 8). pose proof (Nat.mod_upper_bound (length k) 8). lia.
Qed.

(** *** Compact bytes *)

Lemma compact_length (d : bytes) :
  Z.of_nat (length d) < 2 ^ 63 ->
  as_i64 (wrap64 (Z.of_nat (length d))) = Z.of_nat (length d)
  /\ is_i64 (Z.of_nat (length d)) /\ as_u64 (Z.of_nat (length d)) = Z.of_nat (length d).
Proof.
  intros Hl. rewrite wrap64_small by (unfold is_u64; lia). unfold as_i64, is_i64, as_u64.
  destruct (Z.ltb_spec (Z.of_nat (length d)) (2 ^ 63)); [|lia].
  split_and!; [done|lia..|apply wrap64_small; unfold is_u64; lia].
Qed.

Lemma decode_compact_encode d rest :
  Z.of_nat (length d) < 2 ^ 63 ->
  decode_compact_bytes (encode_compact_bytes d ++ rest) = Ok (d, rest).
Proof.
  intros Hl. destruct (compact_length d Hl) as (E1 & Hi & E2).
  unfold decode_compact_bytes, encode_compact_bytes.
  rewrite E1, <- app_assoc, decode_encode_var_i64 by done. cbn [mbind res_bind].
  rewrite E2, length_app. destruct (Z.leb_spec (Z.of_nat (length d)) (Z.of_nat (length d + length rest))); [|lia].
  by rewrite Nat2Z.id, take_app_ge_eq, drop_app_ge_eq.
Qed.

(** *** [next_prefix_of] *)

(** The half-open range of keys, the empty end meaning infinity. *)
Definition in_range (start end_ x : bytes) : Prop := ble start x /\ (end_ = [] \/ blt x end_).

Lemma ble_ff_prefix n x :
  ble (replicate n Byte.xff) x <-> replicate n Byte.xff `prefix_of` x.
Proof.
  revert x; induction n as [|n IH]; intros x; cbn [replicate].
  { split; [intros _; apply prefix_nil|by destruct x]. }
  destruct x as [|y x]; [split; [by intros []|by intros [? [=]]]|].
  unfold ble. cbn [bcmp]. change (b2z Byte.xff) with 255. pose proof (b2z_range y).
  destruct (Z.compare_spec 255 (b2z y)) as [E|E|E]; [|lia|].
  - change 255 with (b2z Byte.xff) in E. apply b2z_inj in E as <-.
    fold (ble (replicate n Byte.xff) x). rewrite IH.
    split; [apply prefix_cons|apply prefix_cons_inv_2].
  - split; [done|]. intros Hp%prefix_cons_inv_1. subst y. change (b2z Byte.xff) with 255 in E. lia.
Qed.

Lemma prefix_range_step a b n x :
  b <> Byte.xff ->
  a ++ b :: replicate n Byte.xff `prefix_of` x
  <-> ble (a ++ b :: replicate n Byte.xff) x /\ blt x (a ++ [u8 (b2z b + 1)]).
Proof.
  intros Hb. assert (b2z (u8 (b2z b + 1)) = b2z b + 1) as Hb1.
  { apply b2z_u8_small. pose proof (b2z_range b).
    assert (b2z b <> 255) by (intros E; apply Hb, b2z_inj; done). lia. }
  revert x; induction a as [|c a IH]; intros x; cbn [app].
  - destruct x as [|y x]; [split; [by intros [? [=]]|by intros [[] ?]]|].
    unfold ble, blt. cbn [bcmp]. rewrite Hb1.
    destruct (Z.compare_spec (b2z b) (b2z y)) as [E|E|E].
    + apply b2z_inj in E as <-. fold (ble (replicate n Byte.xff) x). rewrite ble_ff_prefix.
      destruct (Z.compare_spec (b2z b) (b2z b + 1)); try lia.
      split; [intros Hp%prefix_cons_inv_2; done|intros [? _]; by apply prefix_cons].
    + split; [intros Hp%prefix_cons_inv_1; subst; lia|].
      destruct (Z.compare_spec (b2z y) (b2z b + 1)) as [E1|E1|E1]; [|lia|by intros []].
      by destruct x; intros [].
    + split; [intros Hp%prefix_cons_inv_1; subst; lia|by intros []].
  - destruct x as [|y x]; [split; [by intros [? [=]]|by intros [[] ?]]|].
    unfold ble, blt. cbn [bcmp]. destruct (Z.compare_spec (b2z c) (b2z y)) as [E|E|E].
    + apply b2z_inj in E as <-. rewrite Z.compare_refl. unfold ble, blt in IH. rewrite <- IH.
      split; [apply prefix_cons_inv_2|apply prefix_cons].
    + split; [intros Hp%prefix_cons_inv_1; subst; lia|].
      destruct (Z.compare_spec (b2z y) (b2z c)); try lia. by intros [].
    + split; [intros Hp%prefix_cons_inv_1; subst; lia|by intros []].
Qed.

Lemma next_prefix_cases key :
  (exists n, key = replicate n Byte.xff /\ next_prefix_of key = [])
  \/ (exists a b n, key = a ++ b :: replicate n Byte.xff /\ b <> Byte.xff
                    /\ next_prefix_of key = a ++ [u8 (b2z b + 1)]).
Proof.
  unfold next_prefix_of. induction key as [|c key IH] using rev_ind; [left; by exists 0%nat|].
  rewrite rev_app_distr. cbn [rev app next_prefix_rev]. case_bool_decide as E; [subst c|].
  - destruct IH as [(n & -> & ->)|(a & b & n & -> & Hb & ->)]; [left|right].
    + exists (S n). by rewrite replicate_S_end.
    + exists a, b, (S n). split_and!; [|done..]. by rewrite <- app_assoc, replicate_S_end.
  - right. exists key, c, 0%nat. cbn [rev replicate]. by rewrite rev_involutive.
Qed.

Lemma next_prefix_range key x :
  key `prefix_of` x <-> in_range key (next_prefix_of key) x.
Proof.
  unfold in_range. destruct (next_prefix_cases key) as [(n & Hk & ->)|(a & b & n & Hk & Hb & ->)]; subst key.
  - rewrite ble_ff_prefix. tauto.
  - rewrite (prefix_range_step a b n x Hb). split; [tauto|].
    intros [? [H|?]]; [|done]. by destruct a.
Qed.

(** ** Properties *)

(** C39: the memcomparable encoding preserves order and is prefix free. The
    comparison of two encodings, each followed by arbitrary bytes, is the
    comparison of the keys (reversed for the descending encoding) unless the
    keys are equal, in which case the bytes that follow decide. *)
Theorem encode_bytes_order desc a b x y :
  bcmp (encode_bytes a desc ++ x) (encode_bytes b desc ++ y)
  = match bcmp a b with
    | Eq => bcmp x y
    | c => if desc then CompOpp c else c
    end.
Proof. rewrite bcmp_encode_bytes. by destruct (bcmp a b), desc. Qed.

(** C40: decoding inverts encoding and accepts nothing else: [decode_bytes]
    returns a key exactly on the inputs that start with the encoding of that
    key, so no key has two encodings; on every other input it returns an
    error, never a panic. *)
Theorem decode_bytes_canonical data desc :
  (forall k rest, decode_bytes data desc = Ok (k, rest) <-> data = encode_bytes k desc ++ rest)
  /\ decode_bytes data desc <> Panic.
Proof.
  split; [|apply decode_bytes_no_panic]. intros k rest. split; [apply decode_bytes_inv|].
  intros ->. apply decode_encode_bytes.
Qed.

(** Decoding in place is the same function: the routine that shifts the
    groups down inside the buffer, overwriting bytes it has already read,
    returns the key and the errors of [decode_bytes] on every input. *)
Theorem decode_bytes_in_place_equiv data desc :
  decode_bytes_in_place data desc = fst <$> decode_bytes data desc.
Proof. apply decode_in_place_eq. Qed.

(** [is_encoded_from], which compares the chunks from the last to the
    first without encoding, answers whether the first argument is the encoding
    of the second. *)
Theorem is_encoded_from_correct encoded raw desc :
  is_encoded_from encoded raw desc = bool_decide (encoded = encode_bytes raw desc).
Proof.
  destruct (is_encoded_from encoded raw desc) eqn:E; symmetry.
  - by apply bool_decide_eq_true, is_encoded_from_iff.
  - apply bool_decide_eq_false. intros ->.
    by rewrite (proj2 (is_encoded_from_iff _ raw desc) eq_refl) in E.
Qed.

(** The range from a key to its [next_prefix_of] (an empty end meaning
    infinity) holds exactly the keys that start with the key. *)
Theorem next_prefix_of_range key x :
  in_range key (next_prefix_of key) x <-> key `prefix_of` x.
Proof. symmetry. apply next_prefix_range. Qed.
