(* ===== verification/Timestamp.v ===== *)
(** * Timestamps (components/txn_types/src/timestamp.rs)

    A timestamp is a [u64] whose low 18 bits are a logical counter and whose
    high 46 bits are a physical clock in milliseconds; [TsSet] is the
    immutable set of timestamps a request carries. *)
From S2P Require Import Prelude Number.

Abbreviation TimeStamp := Z.

Definition TSO_PHYSICAL_SHIFT_BITS : Z := 18.

Definition ts_compose (physical logical : Z) : TimeStamp :=
  wrap64 (wrap64 (Z.shiftl physical TSO_PHYSICAL_SHIFT_BITS) + logical).
Definition ts_zero : TimeStamp := 0.
Definition ts_max : TimeStamp := u64_max.
Definition ts_physical (ts : TimeStamp) : Z := Z.shiftr ts TSO_PHYSICAL_SHIFT_BITS.
Definition ts_logical (ts : TimeStamp) : Z :=
  Z.land ts (Z.shiftl 1 TSO_PHYSICAL_SHIFT_BITS - 1).

Definition ts_next {E} (ts : TimeStamp) : res E TimeStamp :=
  if ts <? u64_max then Ok (wrap64 (ts + 1)) else Panic.
Definition ts_prev {E} (ts : TimeStamp) : res E TimeStamp :=
  if 0 <? ts then Ok (wrap64 (ts - 1)) else Panic.

Definition ts_is_zero (ts : TimeStamp) : bool := ts =? 0.
Definition ts_is_max (ts : TimeStamp) : bool := ts =? u64_max.

Definition TS_SET_USE_VEC_LIMIT : nat := 8.

Inductive TsSet :=
| TsEmpty
| TsVec (v : list TimeStamp)
| TsHash (s : gset TimeStamp).

Definition TsSet_new (ts : list TimeStamp) : TsSet :=
  if bool_decide (ts = []) then TsEmpty
  else if (length ts <=? TS_SET_USE_VEC_LIMIT)%nat then TsVec ts
  else TsHash (list_to_set ts).

Definition TsSet_vec (ts : list TimeStamp) : TsSet :=
  if bool_decide (ts = []) then TsEmpty else TsVec ts.

Definition TsSet_contains (s : TsSet) (ts : TimeStamp) : bool :=
  match s with
  | TsEmpty => false
  | TsVec v => bool_decide (ts ∈ v)
  | TsHash s => bool_decide (ts ∈ s)
  end.

(** ** Lemmas *)

Lemma ts_physical_eq ts : ts_physical ts = ts / 2 ^ 18.
Proof. apply Z.shiftr_div_pow2. done. Qed.

Lemma ts_logical_eq ts : ts_logical ts = ts mod 2 ^ 18.
Proof. unfold ts_logical, TSO_PHYSICAL_SHIFT_BITS. by apply (Z.land_ones ts 18). Qed.

Lemma ts_compose_eq p l :
  0 <= p < 2 ^ 46 -> 0 <= l < 2 ^ 18 -> ts_compose p l = p * 2 ^ 18 + l.
Proof.
  intros. unfold ts_compose, TSO_PHYSICAL_SHIFT_BITS. rewrite Z.shiftl_mul_pow2 by done.
  rewrite (wrap64_small (p * 2 ^ 18)) by (unfold is_u64; lia).
  apply wrap64_small. unfold is_u64. lia.
Qed.

Lemma ts_compose_parts p l :
  0 <= p < 2 ^ 46 -> 0 <= l < 2 ^ 18 ->
  ts_physical (ts_compose p l) = p /\ ts_logical (ts_compose p l) = l.
Proof.
  intros. rewrite ts_physical_eq, ts_logical_eq, ts_compose_eq by done. split.
  - rewrite Z.div_add_l by done. rewrite Z.div_small; lia.
  - rewrite Z.add_comm, Z.mod_add by done. by apply Z.mod_small.
Qed.

Lemma ts_parts_compose ts :
  is_u64 ts -> ts_compose (ts_physical ts) (ts_logical ts) = ts.
Proof.
  unfold is_u64. intros H. rewrite ts_physical_eq, ts_logical_eq.
  pose proof (Z.mod_pos_bound ts (2 ^ 18) ltac:(lia)).
  rewrite ts_compose_eq; [|split; [apply Z.div_pos; lia|apply Z.div_lt_upper_bound; lia]|lia].
  rewrite (Z.div_mod ts (2 ^ 18)) at 3 by done. lia.
Qed.

Lemma ts_next_ok {E} ts : is_u64 ts -> ts < u64_max -> ts_next (E := E) ts = Ok (ts + 1).
Proof.
  unfold is_u64, ts_next, u64_max. intros. destruct (Z.ltb_spec ts (2 ^ 64 - 1)); [|lia].
  f_equal. apply wrap64_small. unfold is_u64. lia.
Qed.

Lemma ts_prev_ok {E} ts : is_u64 ts -> 0 < ts -> ts_prev (E := E) ts = Ok (ts - 1).
Proof.
  unfold is_u64, ts_prev. intros. destruct (Z.ltb_spec 0 ts); [|lia].
  f_equal. apply wrap64_small. unfold is_u64. lia.
Qed.

Lemma TsSet_contains_new l ts : TsSet_contains (TsSet_new l) ts = bool_decide (ts ∈ l).
Proof.
  unfold TsSet_new. case_bool_decide as E; [subst l; by rewrite bool_decide_eq_false_2 by set_solver|].
  case_match; cbn [TsSet_contains]; [done|]. apply bool_decide_ext. set_solver.
Qed.

Lemma TsSet_contains_vec l ts : TsSet_contains (TsSet_vec l) ts = bool_decide (ts ∈ l).
Proof.
  unfold TsSet_vec. case_bool_decide as E; [subst l; by rewrite bool_decide_eq_false_2 by set_solver|done].
Qed.
