(* ===== verification/Key.v ===== *)
(** * Keys, mutations and their satellites (components/txn_types/src/types.rs)

    [Key] holds the encoded form of a user key, with or without a timestamp
    appended. The file also has the mutations of a prewrite request, the old
    values collected for change data capture, and [LastChange], the pointer
    from a LOCK record to the latest data-changing record. *)
From S2P Require Import Prelude Number Bytes Timestamp.

(** ** Keys *)

Abbreviation Key := bytes.
Abbreviation Value := bytes.

Definition SHORT_VALUE_MAX_LEN : nat := 255.
Definition SHORT_VALUE_PREFIX : byte := Byte.x76.

Definition is_short_value (value : bytes) : bool := (length value <=? SHORT_VALUE_MAX_LEN)%nat.

Definition key_from_raw (key : bytes) : Key := encode_bytes key false.
Definition key_from_raw_maybe_unbounded (key : bytes) : option Key :=
  match key with [] => None | _ => Some (key_from_raw key) end.
Definition key_into_raw (k : Key) : res codec_error bytes := decode_bytes_in_place k false.
Definition key_to_raw (k : Key) : res codec_error bytes :=
  '(raw, _) ← decode_bytes k false; Ok raw.

Definition append_ts (k : Key) (ts : TimeStamp) : Key := k ++ encode_u64_desc ts.

Definition truncate_ts (k : Key) : res codec_error Key :=
  let len := length k in
  if (len <? U64_SIZE)%nat then Err KeyLength else Ok (take (len - U64_SIZE) k).

Definition split_on_ts_for (key : bytes) : res codec_error (bytes * TimeStamp) :=
  if (length key <? U64_SIZE)%nat then Err KeyLength
  else
    let pos := (length key - U64_SIZE)%nat in
    let k := take pos key in
    '(ts, _) ← decode_u64_desc (drop pos key); Ok (k, ts).

Definition truncate_ts_for (key : bytes) : res codec_error bytes :=
  if (length key <? U64_SIZE)%nat then Err KeyLength else Ok (take (length key - U64_SIZE) key).

Definition decode_ts_from (key : bytes) : res codec_error TimeStamp :=
  let len := length key in
  if (len <? U64_SIZE)%nat then Err KeyLength
  else '(ts, _) ← decode_u64_desc (drop (len - U64_SIZE) key); Ok ts.

Definition decode_ts_bytes_from (key : bytes) : res codec_error bytes :=
  let len := length key in
  if (len <? U64_SIZE)%nat then Err KeyLength else Ok (drop (len - U64_SIZE) key).

(** [NativeEndian::read_u64] of the first eight bytes, on a little-endian
    target. *)
Definition native_read_u64 (bs : bytes) : Z := le_value (take 8 bs).

Definition is_user_key_eq (ts_encoded_key user_key : bytes) : bool :=
  let user_key_len := length user_key in
  if negb (length ts_encoded_key =? user_key_len + U64_SIZE)%nat then false
  else if (U64_SIZE <=? user_key_len)%nat then
    let left := native_read_u64 (drop (user_key_len - 8) ts_encoded_key) in
    let right := native_read_u64 (drop (user_key_len - 8) user_key) in
    if negb (left =? right) then false
    else bool_decide (take (user_key_len - 8) ts_encoded_key = take (user_key_len - 8) user_key)
  else bool_decide (take user_key_len ts_encoded_key = user_key).

Definition key_is_encoded_from (k : Key) (raw_key : bytes) : bool := is_encoded_from k raw_key false.

(** ** Mutations *)

Inductive Assertion := AssertNone | AssertExist | AssertNotExist.

Inductive MutationType := MTPut | MTDelete | MTLock | MTInsert | MTOther.

Inductive Mutation :=
| MutPut (key : Key) (value : Value) (a : Assertion)
| MutDelete (key : Key) (a : Assertion)
| MutLock (key : Key) (a : Assertion)
| MutInsert (key : Key) (value : Value) (a : Assertion)
| MutCheckNotExists (key : Key) (a : Assertion).

#[export] Instance Assertion_eq_dec : EqDecision Assertion.
Proof. solve_decision. Defined.
#[export] Instance MutationType_eq_dec : EqDecision MutationType.
Proof. solve_decision. Defined.

Definition mutation_key (m : Mutation) : Key :=
  match m with
  | MutPut key _ _ | MutDelete key _ | MutLock key _ | MutInsert key _ _
  | MutCheckNotExists key _ => key
  end.

Definition mutation_type (m : Mutation) : MutationType :=
  match m with
  | MutPut _ _ _ => MTPut
  | MutDelete _ _ => MTDelete
  | MutLock _ _ => MTLock
  | MutInsert _ _ _ => MTInsert
  | _ => MTOther
  end.

Definition into_key_value (m : Mutation) : Key * option Value :=
  match m with
  | MutPut key value _ => (key, Some value)
  | MutDelete key _ => (key, None)
  | MutLock key _ => (key, None)
  | MutInsert key value _ => (key, Some value)
  | MutCheckNotExists key _ => (key, None)
  end.

Definition should_not_exists (m : Mutation) : bool :=
  match m with MutInsert _ _ _ | MutCheckNotExists _ _ => true | _ => false end.

Definition should_not_write (m : Mutation) : bool :=
  match m with MutCheckNotExists _ _ => true | _ => false end.

Definition get_assertion (m : Mutation) : Assertion :=
  match m with
  | MutPut _ _ a | MutDelete _ a | MutLock _ a | MutInsert _ _ a | MutCheckNotExists _ a => a
  end.

Definition set_assertion (m : Mutation) (a : Assertion) : Mutation :=
  match m with
  | MutPut k v _ => MutPut k v a
  | MutDelete k _ => MutDelete k a
  | MutLock k _ => MutLock k a
  | MutInsert k v _ => MutInsert k v a
  | MutCheckNotExists k _ => MutCheckNotExists k a
  end.

(** ** Old values *)

Inductive OldValue :=
| OVValue (value : Value)
| OVValueTimeStamp (start_ts : TimeStamp)
| OVNone
| OVUnspecified
| OVSeekWrite (key : Key).

Definition old_value_seek_write (raw_user_key : bytes) (ts : Z) : OldValue :=
  OVSeekWrite (append_ts (key_from_raw raw_user_key) ts).

Definition old_value_resolved (o : OldValue) : bool :=
  match o with
  | OVValue _ | OVValueTimeStamp _ | OVNone => true
  | OVUnspecified | OVSeekWrite _ => false
  end.

Definition old_value_finalized {E} (o : OldValue) : res E (option Value) :=
  match o with
  | OVValue value => Ok (Some value)
  | OVNone | OVUnspecified => Ok None
  | _ => Panic
  end.

Abbreviation OldValues := (gmap bytes (OldValue * option MutationType)).

Definition insert_old_value_if_resolved (old_values : OldValues) (key : Key) (start_ts : TimeStamp)
    (old_value : OldValue) (mt : option MutationType) : OldValues :=
  if old_value_resolved old_value
  then <[append_ts key start_ts := (old_value, mt)]> old_values
  else old_values.

(** ** [LastChange] *)

Inductive LastChange :=
| LCUnknown
| LCExist (last_change_ts : TimeStamp) (estimated_versions_to_last_change : Z)
| LCNotExist.

#[export] Instance LastChange_eq_dec : EqDecision LastChange.
Proof. solve_decision. Defined.

Definition lc_make_exist {E} (last_change_ts : TimeStamp) (versions : Z) : res E LastChange :=
  rassert (negb (ts_is_zero last_change_ts))
    (rassert (0 <? versions) (Ok (LCExist last_change_ts versions))).

Definition lc_to_parts (lc : LastChange) : TimeStamp * Z :=
  match lc with
  | LCUnknown => (ts_zero, 0)
  | LCExist last_change_ts versions => (last_change_ts, versions)
  | LCNotExist => (ts_zero, 1)
  end.

Definition lc_from_parts {E} (last_change_ts : TimeStamp) (versions : Z) : res E LastChange :=
  if ts_is_zero last_change_ts then
    Ok (if 0 <? versions then LCNotExist else LCUnknown)
  else lc_make_exist last_change_ts versions.

(** The values [make_exist] builds: what every stored pointer satisfies. *)
Definition lc_wf (lc : LastChange) : Prop :=
  match lc with
  | LCExist ts versions => is_u64 ts /\ ts <> 0 /\ is_u64 versions /\ 0 < versions
  | _ => True
  end.

Inductive CommitRole := RolePrimary | RoleSecondary.

(** ** Lemmas on keys *)

Lemma key_to_into_raw k : key_into_raw k = key_to_raw k.
Proof.
  unfold key_into_raw, key_to_raw. rewrite decode_in_place_eq.
  by destruct (decode_bytes k false) as [[? ?]| |].
Qed.

Lemma key_to_raw_from_raw raw : key_to_raw (key_from_raw raw) = Ok raw.
Proof.
  unfold key_to_raw, key_from_raw. rewrite <- (app_nil_r (encode_bytes raw false)).
  by rewrite decode_encode_bytes.
Qed.

Lemma length_append_ts k ts : length (append_ts k ts) = (length k + 8)%nat.
Proof. unfold append_ts. by rewrite length_app, length_encode_u64_desc. Qed.

Lemma append_ts_split k ts :
  (length (append_ts k ts) <? U64_SIZE)%nat = false
  /\ take (length (append_ts k ts) - U64_SIZE) (append_ts k ts) = k
  /\ drop (length (append_ts k ts) - U64_SIZE) (append_ts k ts) = encode_u64_desc ts.
Proof.
  rewrite length_append_ts. unfold U64_SIZE, append_ts. rewrite Nat.add_sub.
  rewrite take_app_ge_eq, drop_app_ge_eq by done. split; [|done]. apply Nat.ltb_ge. lia.
Qed.

Lemma truncate_append_ts k ts : truncate_ts (append_ts k ts) = Ok k.
Proof. unfold truncate_ts. cbv zeta. by destruct (append_ts_split k ts) as (-> & -> & _). Qed.

Lemma truncate_for_append_ts k ts : truncate_ts_for (append_ts k ts) = Ok k.
Proof. apply truncate_append_ts. Qed.

Lemma decode_ts_append_ts k ts : is_u64 ts -> decode_ts_from (append_ts k ts) = Ok ts.
Proof.
  intros H. unfold decode_ts_from. cbv zeta. destruct (append_ts_split k ts) as (-> & _ & ->).
  rewrite <- (app_nil_r (encode_u64_desc ts)). by rewrite decode_encode_u64_desc.
Qed.

Lemma split_on_append_ts k ts : is_u64 ts -> split_on_ts_for (append_ts k ts) = Ok (k, ts).
Proof.
  intros H. unfold split_on_ts_for. cbv zeta. destruct (append_ts_split k ts) as (-> & -> & ->).
  rewrite <- (app_nil_r (encode_u64_desc ts)). by rewrite decode_encode_u64_desc.
Qed.

Lemma append_ts_inj k1 k2 t1 t2 :
  is_u64 t1 -> is_u64 t2 -> append_ts k1 t1 = append_ts k2 t2 -> k1 = k2 /\ t1 = t2.
Proof.
  intros H1 H2 E. pose proof (split_on_append_ts k1 t1 H1) as E1.
  rewrite E, split_on_append_ts in E1 by done. by injection E1.
Qed.

(** Any eight bytes are the descending encoding of one timestamp. *)
Lemma encode_u64_desc_surj t :
  length t = 8%nat -> exists ts, is_u64 ts /\ t = encode_u64_desc ts.
Proof.
  intros Ht. pose proof (be_value_range t) as Hr. rewrite Ht in Hr. change (256 ^ Z.of_nat 8) with (2 ^ 64) in Hr.
  exists (not64 (be_value t)). split; [apply not64_range; exact Hr|].
  unfold encode_u64_desc, encode_u64. rewrite not64_invol by exact Hr.
  by rewrite <- Ht, be_bytes_be_value.
Qed.

Lemma native_read_inj a b :
  length a = 8%nat -> length b = 8%nat -> le_value a = le_value b -> a = b.
Proof.
  unfold le_value. intros Ha Hb E. rewrite <- (rev_involutive a), <- (rev_involutive b).
  f_equal. rewrite <- (be_bytes_be_value (rev a)), <- (be_bytes_be_value (rev b)).
  by rewrite E, !length_rev, Ha, Hb.
Qed.

Lemma is_user_key_eq_iff tk uk :
  is_user_key_eq tk uk = true <-> exists t, tk = uk ++ t /\ length t = 8%nat.
Proof.
  unfold is_user_key_eq, U64_SIZE. cbv zeta.
  destruct (Nat.eqb_spec (length tk) (length uk + 8)) as [El|El]; cbn [negb].
  2:{ split; [done|]. intros (t & -> & Ht). rewrite length_app in El. lia. }
  transitivity (take (length uk) tk = uk).
  2:{ split.
      - intros E. exists (drop (length uk) tk). rewrite <- E at 1. by rewrite take_drop, length_drop, El, Nat.add_comm, Nat.add_sub.
      - intros (t & -> & _). by rewrite take_app_ge_eq. }
  destruct (Nat.leb_spec 8 (length uk)) as [Hl|Hl]; [|by rewrite bool_decide_eq_true].
  set (n := (length uk - 8)%nat). unfold native_read_u64.
  rewrite (take_ge (drop n uk)) by (rewrite length_drop; lia).
  assert (take (length uk) tk = take n tk ++ take 8 (drop n tk)) as ->.
  { replace (length uk) with (n + 8)%nat by lia. rewrite take_take_drop. done. }
  destruct (Z.eqb_spec (le_value (take 8 (drop n tk))) (le_value (drop n uk))) as [E|E]; cbn [negb].
  - apply native_read_inj in E; [|rewrite length_take, length_drop; lia|rewrite length_drop; lia].
    rewrite E, bool_decide_eq_true. rewrite <- (take_drop n uk) at 3. split; [by intros ->|].
    apply app_inv_tail.
  - split; [done|]. intros Eq. destruct E. f_equal.
    rewrite <- (take_drop n uk) in Eq. apply app_inj_1 in Eq as [_ E]; [done|].
    rewrite !length_take. lia.
Qed.

Lemma is_user_key_eq_append k ts : is_user_key_eq (append_ts k ts) k = true.
Proof. apply is_user_key_eq_iff. exists (encode_u64_desc ts). by rewrite length_encode_u64_desc. Qed.

Lemma is_user_key_eq_append_ts tk k :
  is_user_key_eq tk k = true <-> exists ts, is_u64 ts /\ tk = append_ts k ts.
Proof.
  rewrite is_user_key_eq_iff. split.
  - intros (t & -> & Ht). destruct (encode_u64_desc_surj t Ht) as (ts & Hts & ->). by exists ts.
  - intros (ts & _ & ->). exists (encode_u64_desc ts). by rewrite length_encode_u64_desc.
Qed.

(** Versions of one key are ordered newest first. *)
Lemma bcmp_append_ts_same k t1 t2 :
  is_u64 t1 -> is_u64 t2 -> bcmp (append_ts k t1) (append_ts k t2) = (t2 ?= t1).
Proof. intros. unfold append_ts. rewrite bcmp_app_same. by apply bcmp_encode_u64_desc. Qed.

Lemma key_from_raw_inj a b : key_from_raw a = key_from_raw b -> a = b.
Proof. apply encode_bytes_inj. Qed.

Lemma key_from_raw_prefix_free a b x y :
  key_from_raw a ++ x = key_from_raw b ++ y -> a = b /\ x = y.
Proof. apply encode_bytes_app_inj. Qed.

(** ** Lemmas on [LastChange] *)

Lemma lc_from_to_parts {E} lc :
  lc_wf lc -> lc_from_parts (E := E) (fst (lc_to_parts lc)) (snd (lc_to_parts lc)) = Ok lc.
Proof.
  destruct lc as [|ts v|]; cbn; [done| |done]. intros (_ & H0 & _ & Hv).
  unfold lc_from_parts, lc_make_exist, ts_is_zero.
  destruct (Z.eqb_spec ts 0); [done|]. cbn. by destruct (Z.ltb_spec 0 v); [|lia].
Qed.

(** ** Properties *)

(** the order of the write column family: versioned keys are sorted by
    user key and, within one user key, from the newest timestamp to the
    oldest. *)
Theorem versioned_key_order a b t1 t2 :
  is_u64 t1 -> is_u64 t2 ->
  bcmp (append_ts (key_from_raw a) t1) (append_ts (key_from_raw b) t2)
  = match bcmp a b with Eq => (t2 ?= t1) | c => c end.
Proof.
  intros H1 H2. unfold append_ts, key_from_raw. rewrite bcmp_encode_bytes, bcmp_encode_u64_desc by done.
  by destruct (bcmp a b).
Qed.

Lemma versioned_key_order_witness :
  bcmp (append_ts (key_from_raw [Byte.x61]) 7) (append_ts (key_from_raw [Byte.x61]) 5) = Lt.
Proof. exact (versioned_key_order [Byte.x61] [Byte.x61] 7 5 ltac:(by vm_compute) ltac:(by vm_compute)). Defined.

(** [is_user_key_eq], which compares the last eight bytes of the user
    key as one machine word before the rest, answers whether the first
    argument is the second with some timestamp appended. *)
Theorem is_user_key_eq_correct tk uk :
  is_user_key_eq tk uk = true <-> exists ts, is_u64 ts /\ tk = append_ts uk ts.
Proof. apply is_user_key_eq_append_ts. Qed.
