(* ===== verification/Fields.v ===== *)
(** * Tagged optional fields

    [Lock::parse] and [WriteRef::parse] (components/txn_types) end with the
    same loop: while bytes are left, read a tag, read the field the tag
    announces, and stop at an unknown tag. The loop is defined here once over
    the field reader; each round consumes at least the tag, so the length of
    the input is enough fuel. *)
From S2P Require Import Prelude Number Bytes.

Section FieldLoop.
  Context {S E : Type}.
  (** [field tag rest st]: [None] is the [break] at an unknown tag. *)
  Context (field : byte -> bytes -> S -> res E (option (S * bytes))).

Fixpoint field_loop (fuel : nat) (b : bytes) (st : S) : res E S :=
  match fuel with
  | O => Panic
  | Datatypes.S f =>
      match b with
      | [] => Ok st
      | tag :: b =>
          r ← field tag b st;
          match r with
          | None => Ok st
          | Some (st, b) => field_loop f b st
          end
      end
  end.

Definition parse_fields (b : bytes) (st : S) : res E S := field_loop (Datatypes.S (length b)) b st.

  Hypothesis field_shrinks : forall tag b st st' b',
    field tag b st = Ok (Some (st', b')) -> (length b' <= length b)%nat.

Lemma field_loop_fuel f : forall g b st,
  (length b < f)%nat -> (length b < g)%nat -> field_loop f b st = field_loop g b st.
Proof using field_shrinks.
  induction f as [|f IH]; intros [|g] b st Hf Hg; try lia. destruct b as [|tag b]; [done|].
  cbn [field_loop]. destruct (field tag b st) as [[[st' b']|]| |] eqn:E1; try done.
  cbn [mbind res_bind]. apply field_shrinks in E1. simpl in *. apply IH; lia.
Qed.

Lemma parse_fields_nil st : parse_fields [] st = Ok st.
Proof using. done. Qed.

Lemma parse_fields_cons tag b st :
  parse_fields (tag :: b) st
  = (r ← field tag b st; match r with None => Ok st | Some (st', b') => parse_fields b' st' end).
Proof using field_shrinks.
  unfold parse_fields. cbn [field_loop length].
  destruct (field tag b st) as [[[st' b']|]| |] eqn:E1; try done.
  cbn [mbind res_bind]. apply field_shrinks in E1.
  refine (field_loop_fuel (Datatypes.S (length b)) (Datatypes.S (length b')) b' st' _ _); lia.
Qed.

Lemma parse_fields_step tag b st st' b' :
  field tag b st = Ok (Some (st', b')) -> parse_fields (tag :: b) st = parse_fields b' st'.
Proof using field_shrinks. intros E1. by rewrite parse_fields_cons, E1. Qed.
End FieldLoop.

(** ** The decoders return a suffix *)

Lemma read_num_bytes_suffix {T} n data (f : bytes -> T) v rest :
  read_num_bytes n data f = Ok (v, rest) -> (length rest <= length data)%nat.
Proof. unfold read_num_bytes. case_match; [|done]. intros [= _ <-]. rewrite length_drop. lia. Qed.

Lemma decode_u64_suffix data v rest :
  decode_u64 data = Ok (v, rest) -> (length rest <= length data)%nat.
Proof. apply read_num_bytes_suffix. Qed.

Lemma decode_var_slow_suffix left i r data v rest :
  decode_var_slow left i r data = Ok (v, rest) -> (length rest <= length data)%nat.
Proof.
  revert i r; induction left as [|l IH]; intros i r; simpl; [done|].
  destruct (get_unchecked data i); cbn [mbind res_bind]; try done.
  case_match; [intros [= _ <-]; rewrite length_drop; lia|apply IH].
Qed.

Lemma decode_var_fast_suffix left i r data v rest :
  decode_var_fast left i r data = Ok (v, rest) -> (length rest <= length data)%nat.
Proof.
  revert i r; induction left as [|l IH]; intros i r; simpl;
    (destruct (get_unchecked data _); cbn [mbind res_bind]; try done); case_match;
    try done; try (intros [= _ <-]; rewrite length_drop; lia). apply IH.
Qed.

Lemma decode_var_u64_suffix data v rest :
  decode_var_u64 data = Ok (v, rest) -> (length rest <= length data)%nat.
Proof.
  unfold decode_var_u64. destruct data as [|b t]; [done|]. case_match.
  - intros [= _ <-]. simpl. lia.
  - case_match; eauto using decode_var_fast_suffix, decode_var_slow_suffix.
Qed.

Lemma decode_compact_suffix data v rest :
  decode_compact_bytes data = Ok (v, rest) -> (length rest <= length data)%nat.
Proof.
  unfold decode_compact_bytes, decode_var_i64.
  destruct (decode_var_u64 data) as [[u r]| |] eqn:E; try done. cbn [mbind res_bind].
  case_match; [|done]. intros [= _ <-]. apply decode_var_u64_suffix in E.
  rewrite length_drop. lia.
Qed.

#[export] Hint Resolve decode_u64_suffix decode_var_u64_suffix decode_compact_suffix : tikv.
