(* ===== verification/Lock.v ===== *)
(** * Locks (components/txn_types/src/lock.rs)

    The lock record of the lock column family, its byte format, the conflict
    check a read performs against it, and the in-memory pessimistic lock. *)
From S2P Require Import Prelude Number Bytes Timestamp Key Fields.

(** ** Errors of the crate (components/txn_types/src/lib.rs) *)

(** The operations of the protocol the crate names. *)
Inductive Op := OpPut | OpDel | OpLock | OpPessimisticLock.

Inductive WriteConflictReason :=
| ReasonUnknown
| ReasonOptimistic
| ReasonPessimisticRetry
| ReasonSelfRolledBack
| ReasonRcCheckTs
| ReasonLazyUniquenessCheck
| ReasonNotLockedKeyConflict.

Inductive IsolationLevel := Si | Rc | RcCheckTs.

(** The fields of [kvrpcpb::LockInfo] that [into_lock_info] sets. *)
Record LockInfo := mk_lock_info {
  info_primary_lock : bytes;
  info_lock_version : Z;
  info_key : bytes;
  info_lock_ttl : Z;
  info_txn_size : Z;
  info_lock_type : Op;
  info_lock_for_update_ts : Z;
  info_use_async_commit : bool;
  info_min_commit_ts : Z;
  info_secondaries : list bytes
}.

Inductive txn_error :=
| TIo (e : io_error_kind)
| TCodec (e : codec_error)
| BadFormatLock
| BadFormatWrite
| TKeyIsLocked (info : LockInfo)
| TWriteConflict (start_ts conflict_start_ts conflict_commit_ts : TimeStamp) (key primary : bytes)
    (reason : WriteConflictReason).

(** ** Lock types *)

Inductive LockType := LTPut | LTDelete | LTLock | LTPessimistic.

#[export] Instance LockType_eq_dec : EqDecision LockType.
Proof. solve_decision. Defined.

Definition FLAG_PUT : byte := Byte.x50.
Definition FLAG_DELETE : byte := Byte.x44.
Definition FLAG_LOCK : byte := Byte.x4c.
Definition FLAG_PESSIMISTIC : byte := Byte.x53.

Definition FOR_UPDATE_TS_PREFIX : byte := Byte.x66.
Definition TXN_SIZE_PREFIX : byte := Byte.x74.
Definition MIN_COMMIT_TS_PREFIX : byte := Byte.x63.
Definition ASYNC_COMMIT_PREFIX : byte := Byte.x61.
Definition ROLLBACK_TS_PREFIX : byte := Byte.x72.
Definition LAST_CHANGE_PREFIX : byte := Byte.x6c.
Definition LOCK_TXN_SOURCE_PREFIX : byte := Byte.x73.
Definition PESSIMISTIC_LOCK_WITH_CONFLICT_PREFIX : byte := Byte.x46.
Definition GENERATION_PREFIX : byte := Byte.x67.

Definition lock_type_from_mutation (m : Mutation) : option LockType :=
  match m with
  | MutPut _ _ _ | MutInsert _ _ _ => Some LTPut
  | MutDelete _ _ => Some LTDelete
  | MutLock _ _ => Some LTLock
  | MutCheckNotExists _ _ => None
  end.

Definition lock_type_from_u8 (b : byte) : option LockType :=
  if bool_decide (b = FLAG_PUT) then Some LTPut
  else if bool_decide (b = FLAG_DELETE) then Some LTDelete
  else if bool_decide (b = FLAG_LOCK) then Some LTLock
  else if bool_decide (b = FLAG_PESSIMISTIC) then Some LTPessimistic
  else None.

Definition lock_type_to_u8 (t : LockType) : byte :=
  match t with
  | LTPut => FLAG_PUT
  | LTDelete => FLAG_DELETE
  | LTLock => FLAG_LOCK
  | LTPessimistic => FLAG_PESSIMISTIC
  end.

(** ** The record *)

Record Lock := mk_lock {
  lock_type : LockType;
  lock_primary : bytes;
  lock_ts : TimeStamp;
  lock_ttl : Z;
  lock_short_value : option Value;
  lock_for_update_ts : TimeStamp;
  lock_txn_size : Z;
  lock_min_commit_ts : TimeStamp;
  lock_use_async_commit : bool;
  lock_use_one_pc : bool;
  lock_secondaries : list bytes;
  lock_rollback_ts : list TimeStamp;
  lock_last_change : LastChange;
  lock_txn_source : Z;
  lock_is_locked_with_conflict : bool;
  lock_generation : Z
}.

#[export] Instance Lock_eq_dec : EqDecision Lock.
Proof. solve_decision. Defined.

Definition lock_new (t : LockType) (primary : bytes) (ts : TimeStamp) (ttl : Z)
    (short_value : option Value) (for_update_ts : TimeStamp) (txn_size : Z)
    (min_commit_ts : TimeStamp) (is_locked_with_conflict : bool) : Lock :=
  mk_lock t primary ts ttl short_value for_update_ts txn_size min_commit_ts
    false false [] [] LCUnknown 0 is_locked_with_conflict 0.

(** *** Field updates *)

Definition lock_with_type (l : Lock) (t : LockType) : Lock :=
  mk_lock t (lock_primary l) (lock_ts l) (lock_ttl l) (lock_short_value l)
    (lock_for_update_ts l) (lock_txn_size l) (lock_min_commit_ts l) (lock_use_async_commit l)
    (lock_use_one_pc l) (lock_secondaries l) (lock_rollback_ts l) (lock_last_change l)
    (lock_txn_source l) (lock_is_locked_with_conflict l) (lock_generation l).
Definition lock_with_ttl (l : Lock) (ttl : Z) : Lock :=
  mk_lock (lock_type l) (lock_primary l) (lock_ts l) ttl (lock_short_value l)
    (lock_for_update_ts l) (lock_txn_size l) (lock_min_commit_ts l) (lock_use_async_commit l)
    (lock_use_one_pc l) (lock_secondaries l) (lock_rollback_ts l) (lock_last_change l)
    (lock_txn_source l) (lock_is_locked_with_conflict l) (lock_generation l).
Definition lock_with_short_value (l : Lock) (v : option Value) : Lock :=
  mk_lock (lock_type l) (lock_primary l) (lock_ts l) (lock_ttl l) v
    (lock_for_update_ts l) (lock_txn_size l) (lock_min_commit_ts l) (lock_use_async_commit l)
    (lock_use_one_pc l) (lock_secondaries l) (lock_rollback_ts l) (lock_last_change l)
    (lock_txn_source l) (lock_is_locked_with_conflict l) (lock_generation l).
Definition lock_with_min_commit_ts (l : Lock) (ts : TimeStamp) : Lock :=
  mk_lock (lock_type l) (lock_primary l) (lock_ts l) (lock_ttl l) (lock_short_value l)
    (lock_for_update_ts l) (lock_txn_size l) ts (lock_use_async_commit l)
    (lock_use_one_pc l) (lock_secondaries l) (lock_rollback_ts l) (lock_last_change l)
    (lock_txn_source l) (lock_is_locked_with_conflict l) (lock_generation l).
Definition lock_set_async (l : Lock) (async one_pc : bool) (secondaries : list bytes) : Lock :=
  mk_lock (lock_type l) (lock_primary l) (lock_ts l) (lock_ttl l) (lock_short_value l)
    (lock_for_update_ts l) (lock_txn_size l) (lock_min_commit_ts l) async
    one_pc secondaries (lock_rollback_ts l) (lock_last_change l)
    (lock_txn_source l) (lock_is_locked_with_conflict l) (lock_generation l).
Definition lock_set_use_async_commit (l : Lock) (secondaries : list bytes) : Lock :=
  lock_set_async l true (lock_use_one_pc l) secondaries.
Definition lock_with_rollback_ts (l : Lock) (rollback_ts : list TimeStamp) : Lock :=
  mk_lock (lock_type l) (lock_primary l) (lock_ts l) (lock_ttl l) (lock_short_value l)
    (lock_for_update_ts l) (lock_txn_size l) (lock_min_commit_ts l) (lock_use_async_commit l)
    (lock_use_one_pc l) (lock_secondaries l) rollback_ts (lock_last_change l)
    (lock_txn_source l) (lock_is_locked_with_conflict l) (lock_generation l).
Definition lock_set_last_change (l : Lock) (last_change : LastChange) : Lock :=
  mk_lock (lock_type l) (lock_primary l) (lock_ts l) (lock_ttl l) (lock_short_value l)
    (lock_for_update_ts l) (lock_txn_size l) (lock_min_commit_ts l) (lock_use_async_commit l)
    (lock_use_one_pc l) (lock_secondaries l) (lock_rollback_ts l) last_change
    (lock_txn_source l) (lock_is_locked_with_conflict l) (lock_generation l).
Definition lock_set_txn_source (l : Lock) (source : Z) : Lock :=
  mk_lock (lock_type l) (lock_primary l) (lock_ts l) (lock_ttl l) (lock_short_value l)
    (lock_for_update_ts l) (lock_txn_size l) (lock_min_commit_ts l) (lock_use_async_commit l)
    (lock_use_one_pc l) (lock_secondaries l) (lock_rollback_ts l) (lock_last_change l)
    source (lock_is_locked_with_conflict l) (lock_generation l).
Definition lock_with_generation (l : Lock) (generation : Z) : Lock :=
  mk_lock (lock_type l) (lock_primary l) (lock_ts l) (lock_ttl l) (lock_short_value l)
    (lock_for_update_ts l) (lock_txn_size l) (lock_min_commit_ts l) (lock_use_async_commit l)
    (lock_use_one_pc l) (lock_secondaries l) (lock_rollback_ts l) (lock_last_change l)
    (lock_txn_source l) (lock_is_locked_with_conflict l) generation.

(** ** Serialization *)

Definition short_value_bytes (v : option Value) : bytes :=
  match v with
  | Some v => SHORT_VALUE_PREFIX :: u8 (Z.of_nat (length v)) :: v
  | None => []
  end.

Definition last_change_bytes (lc : LastChange) : bytes :=
  match lc with
  | LCUnknown => []
  | _ => let '(ts, versions) := lc_to_parts lc in
         LAST_CHANGE_PREFIX :: encode_u64 ts ++ encode_var_u64 versions
  end.

Definition lock_to_bytes (l : Lock) : bytes :=
  [lock_type_to_u8 (lock_type l)]
  ++ encode_compact_bytes (lock_primary l)
  ++ encode_var_u64 (lock_ts l)
  ++ encode_var_u64 (lock_ttl l)
  ++ short_value_bytes (lock_short_value l)
  ++ (if ts_is_zero (lock_for_update_ts l) then []
      else FOR_UPDATE_TS_PREFIX :: encode_u64 (lock_for_update_ts l))
  ++ (if 0 <? lock_txn_size l then TXN_SIZE_PREFIX :: encode_u64 (lock_txn_size l) else [])
  ++ (if ts_is_zero (lock_min_commit_ts l) then []
      else MIN_COMMIT_TS_PREFIX :: encode_u64 (lock_min_commit_ts l))
  ++ (if lock_use_async_commit l then
        ASYNC_COMMIT_PREFIX :: encode_var_u64 (wrap64 (Z.of_nat (length (lock_secondaries l))))
        ++ concat (map encode_compact_bytes (lock_secondaries l))
      else [])
  ++ (if bool_decide (lock_rollback_ts l = []) then []
      else ROLLBACK_TS_PREFIX :: encode_var_u64 (wrap64 (Z.of_nat (length (lock_rollback_ts l))))
           ++ concat (map encode_u64 (lock_rollback_ts l)))
  ++ last_change_bytes (lock_last_change l)
  ++ (if lock_txn_source l =? 0 then [] else LOCK_TXN_SOURCE_PREFIX :: encode_var_u64 (lock_txn_source l))
  ++ (if lock_is_locked_with_conflict l then [PESSIMISTIC_LOCK_WITH_CONFLICT_PREFIX] else [])
  ++ (if 0 <? lock_generation l then GENERATION_PREFIX :: encode_u64 (lock_generation l) else []).

(** ** Parsing *)

(** [(0..len).map(|_| decode(&mut b)).collect::<Result<_>>()]: stops at the
    first error. Every element takes a byte at least, so the length of the
    input bounds the number of rounds. *)
Fixpoint decode_many {T} (dec : bytes -> res codec_error (T * bytes)) (fuel : nat) (len : Z)
    (b : bytes) : res codec_error (list T * bytes) :=
  if len <=? 0 then Ok ([], b)
  else
    match fuel with
    | O => Err unexpected_eof
    | S f =>
        '(x, b) ← dec b;
        '(xs, b) ← decode_many dec f (len - 1) b;
        Ok (x :: xs, b)
    end.

(** The local variables of the parsing loop. *)
Record LockFields := mk_fields {
  fd_short_value : option Value;
  fd_for_update_ts : TimeStamp;
  fd_txn_size : Z;
  fd_min_commit_ts : TimeStamp;
  fd_secondaries : option (list bytes);
  fd_rollback_ts : list TimeStamp;
  fd_last_change_ts : TimeStamp;
  fd_versions : Z;
  fd_txn_source : Z;
  fd_is_locked_with_conflict : bool;
  fd_generation : Z
}.

Definition fields_init : LockFields := mk_fields None ts_zero 0 ts_zero None [] ts_zero 0 0 false 0.

(** [Vec::with_capacity(len + 1)] of 8-byte elements: a capacity of more than
    [isize::MAX] bytes panics. *)
Definition capacity_overflow (len : Z) : bool := 2 ^ 63 - 1 <? 8 * wrap64 (len + 1).

Definition lock_field (tag : byte) (b : bytes) (st : LockFields) :
    res txn_error (option (LockFields * bytes)) :=
  let '(mk_fields sv fut size mct secs rts lct vers src wc gen) := st in
  if bool_decide (tag = SHORT_VALUE_PREFIX) then
    match b with
    | [] => Err (TIo UnexpectedEof)
    | len :: b =>
        let len := Z.to_nat (b2z len) in
        if (length b <? len)%nat then Panic
        else Ok (Some (mk_fields (Some (take len b)) fut size mct secs rts lct vers src wc gen, drop len b))
    end
  else if bool_decide (tag = FOR_UPDATE_TS_PREFIX) then
    '(ts, b) ← map_err TCodec (decode_u64 b);
    Ok (Some (mk_fields sv ts size mct secs rts lct vers src wc gen, b))
  else if bool_decide (tag = TXN_SIZE_PREFIX) then
    '(size, b) ← map_err TCodec (decode_u64 b);
    Ok (Some (mk_fields sv fut size mct secs rts lct vers src wc gen, b))
  else if bool_decide (tag = MIN_COMMIT_TS_PREFIX) then
    '(mct, b) ← map_err TCodec (decode_u64 b);
    Ok (Some (mk_fields sv fut size mct secs rts lct vers src wc gen, b))
  else if bool_decide (tag = ASYNC_COMMIT_PREFIX) then
    '(len, b) ← map_err TCodec (decode_var_u64 b);
    '(secs, b) ← map_err TCodec (decode_many decode_compact_bytes (length b) len b);
    Ok (Some (mk_fields sv fut size mct (Some secs) rts lct vers src wc gen, b))
  else if bool_decide (tag = ROLLBACK_TS_PREFIX) then
    '(len, b) ← map_err TCodec (decode_var_u64 b);
    if capacity_overflow len then Panic
    else
      '(rts, b) ← map_err TCodec (decode_many decode_u64 (length b) len b);
      Ok (Some (mk_fields sv fut size mct secs rts lct vers src wc gen, b))
  else if bool_decide (tag = LAST_CHANGE_PREFIX) then
    '(lct, b) ← map_err TCodec (decode_u64 b);
    '(vers, b) ← map_err TCodec (decode_var_u64 b);
    Ok (Some (mk_fields sv fut size mct secs rts lct vers src wc gen, b))
  else if bool_decide (tag = LOCK_TXN_SOURCE_PREFIX) then
    '(src, b) ← map_err TCodec (decode_var_u64 b);
    Ok (Some (mk_fields sv fut size mct secs rts lct vers src wc gen, b))
  else if bool_decide (tag = PESSIMISTIC_LOCK_WITH_CONFLICT_PREFIX) then
    Ok (Some (mk_fields sv fut size mct secs rts lct vers src true gen, b))
  else if bool_decide (tag = GENERATION_PREFIX) then
    '(gen, b) ← map_err TCodec (decode_u64 b);
    Ok (Some (mk_fields sv fut size mct secs rts lct vers src wc gen, b))
  else Ok None.

Definition lock_parse (b : bytes) : res txn_error Lock :=
  match b with
  | [] => Err BadFormatLock
  | flag :: b =>
      match lock_type_from_u8 flag with
      | None => Err BadFormatLock
      | Some t =>
          '(primary, b) ← map_err TCodec (decode_compact_bytes b);
          '(ts, b) ← map_err TCodec (decode_var_u64 b);
          '(ttl, b) ← (match b with [] => Ok (0, b) | _ => map_err TCodec (decode_var_u64 b) end);
          match b with
          | [] => Ok (lock_new t primary ts ttl None ts_zero 0 ts_zero false)
          | _ =>
              st ← parse_fields lock_field b fields_init;
              lc ← lc_from_parts (fd_last_change_ts st) (fd_versions st);
              let lock :=
                lock_with_generation
                  (lock_with_rollback_ts
                    (lock_set_txn_source
                      (lock_set_last_change
                        (lock_new t primary ts ttl (fd_short_value st) (fd_for_update_ts st)
                          (fd_txn_size st) (fd_min_commit_ts st) (fd_is_locked_with_conflict st))
                        lc)
                      (fd_txn_source st))
                    (fd_rollback_ts st))
                  (fd_generation st) in
              Ok (match fd_secondaries st with
                  | Some secondaries => lock_set_use_async_commit lock secondaries
                  | None => lock
                  end)
          end
      end
  end.

(** ** Conflict checks *)

Definition into_lock_info (l : Lock) (raw_key : bytes) : LockInfo :=
  {| info_primary_lock := lock_primary l;
     info_lock_version := lock_ts l;
     info_key := raw_key;
     info_lock_ttl := lock_ttl l;
     info_txn_size := lock_txn_size l;
     info_lock_type := match lock_type l with
                       | LTPut => OpPut
                       | LTDelete => OpDel
                       | LTLock => OpLock
                       | LTPessimistic => OpPessimisticLock
                       end;
     info_lock_for_update_ts := lock_for_update_ts l;
     info_use_async_commit := lock_use_async_commit l;
     info_min_commit_ts := lock_min_commit_ts l;
     info_secondaries := lock_secondaries l |}.

Definition is_pessimistic_txn (l : Lock) : bool := negb (ts_is_zero (lock_for_update_ts l)).
Definition is_pessimistic_lock (l : Lock) : bool := bool_decide (lock_type l = LTPessimistic).
Definition is_pessimistic_lock_with_conflict (l : Lock) : bool :=
  is_pessimistic_lock l && lock_is_locked_with_conflict l.

Definition check_ts_conflict_si (lock : Lock) (key : Key) (ts : TimeStamp) (bypass_locks : TsSet)
    (is_replica_read : bool) : res txn_error unit :=
  if (ts <? lock_ts lock) || bool_decide (lock_type lock = LTLock) || is_pessimistic_lock lock
  then Ok tt
  else if ts <? lock_min_commit_ts lock then Ok tt
  else if TsSet_contains bypass_locks (lock_ts lock) then Ok tt
  else
    raw_key ← map_err TCodec (key_to_raw key);
    if (ts =? ts_max) && is_replica_read
    then Err (TKeyIsLocked (into_lock_info lock raw_key))
    else if (ts =? ts_max) && bool_decide (raw_key = lock_primary lock)
            && negb (lock_use_async_commit lock) && negb (lock_use_one_pc lock)
    then Ok tt
    else Err (TKeyIsLocked (into_lock_info lock raw_key)).

Definition check_ts_conflict_rc_check_ts (lock : Lock) (key : Key) (ts : TimeStamp)
    (bypass_locks : TsSet) : res txn_error unit :=
  if bool_decide (lock_type lock = LTLock) || is_pessimistic_lock lock then Ok tt
  else if TsSet_contains bypass_locks (lock_ts lock) then Ok tt
  else
    raw_key ← map_err TCodec (key_to_raw key);
    Err (TWriteConflict ts (lock_ts lock) ts_zero raw_key (lock_primary lock) ReasonRcCheckTs).

Definition check_ts_conflict (lock : Lock) (key : Key) (ts : TimeStamp) (bypass_locks : TsSet)
    (iso_level : IsolationLevel) : res txn_error unit :=
  match iso_level with
  | Si => check_ts_conflict_si lock key ts bypass_locks false
  | RcCheckTs => check_ts_conflict_rc_check_ts lock key ts bypass_locks
  | _ => Ok tt
  end.

Definition check_ts_conflict_for_replica_read (lock : Lock) (key : Key) (ts : TimeStamp)
    (bypass_locks : TsSet) (iso_level : IsolationLevel) : res txn_error unit :=
  match iso_level with
  | Si => check_ts_conflict_si lock key ts bypass_locks true
  | RcCheckTs => Panic
  | _ => Ok tt
  end.

(** ** Pessimistic locks kept in memory *)

Record PessimisticLock := mk_pessimistic_lock {
  pl_primary : bytes;
  pl_start_ts : TimeStamp;
  pl_ttl : Z;
  pl_for_update_ts : TimeStamp;
  pl_min_commit_ts : TimeStamp;
  pl_last_change : LastChange;
  pl_is_locked_with_conflict : bool
}.

Definition pl_to_lock (p : PessimisticLock) : Lock :=
  lock_set_last_change
    (lock_new LTPessimistic (pl_primary p) (pl_start_ts p) (pl_ttl p) None (pl_for_update_ts p) 0
      (pl_min_commit_ts p) (pl_is_locked_with_conflict p))
    (pl_last_change p).

(** ** Round trip *)

(** What the code that builds locks guarantees of them: the widths of the
    integers, a short value that fits its length byte, secondaries only on
    async-commit locks. *)
Definition lock_wf (l : Lock) : Prop :=
  Z.of_nat (length (lock_primary l)) < 2 ^ 63
  /\ is_u64 (lock_ts l) /\ is_u64 (lock_ttl l)
  /\ match lock_short_value l with Some v => (length v <= 255)%nat | None => True end
  /\ is_u64 (lock_for_update_ts l) /\ is_u64 (lock_txn_size l) /\ is_u64 (lock_min_commit_ts l)
  /\ (lock_use_async_commit l = false -> lock_secondaries l = [])
  /\ Z.of_nat (length (lock_secondaries l)) < 2 ^ 63
  /\ Forall (fun k => Z.of_nat (length k) < 2 ^ 63) (lock_secondaries l)
  /\ Z.of_nat (length (lock_rollback_ts l)) < 2 ^ 60 - 1
  /\ Forall is_u64 (lock_rollback_ts l)
  /\ lc_wf (lock_last_change l)
  /\ is_u64 (lock_txn_source l) /\ is_u64 (lock_generation l).

Lemma lock_type_roundtrip t : lock_type_from_u8 (lock_type_to_u8 t) = Some t.
Proof. by destruct t. Qed.

Lemma decode_many_spec {T} (dec : bytes -> res codec_error (T * bytes)) (enc : T -> bytes) P :
  (forall x rest, P x -> dec (enc x ++ rest) = Ok (x, rest)) ->
  forall xs fuel rest, Forall P xs -> (length xs <= fuel)%nat ->
  decode_many dec fuel (Z.of_nat (length xs)) (concat (map enc xs) ++ rest) = Ok (xs, rest).
Proof.
  intros Hdec xs. induction xs as [|x xs IH]; intros fuel rest HP Hf; [by destruct fuel|].
  apply Forall_cons in HP as [Hx HP]. destruct fuel as [|f]; [simpl in Hf; lia|].
  cbn [length map concat decode_many]. destruct (Z.leb_spec (Z.of_nat (S (length xs))) 0); [lia|].
  rewrite <- app_assoc, Hdec by done. cbn [mbind res_bind].
  replace (Z.of_nat (S (length xs)) - 1) with (Z.of_nat (length xs)) by lia.
  rewrite IH by (done || simpl in Hf; lia). done.
Qed.

Lemma length_concat_ge {T} (enc : T -> bytes) xs rest :
  (forall x, (1 <= length (enc x))%nat) ->
  (length xs <= length (concat (map enc xs) ++ rest))%nat.
Proof.
  intros He. induction xs as [|x xs IH]; simpl; [lia|].
  rewrite !length_app in *. specialize (He x). lia.
Qed.

Lemma decode_many_shrinks {T} (dec : bytes -> res codec_error (T * bytes)) :
  (forall b x rest, dec b = Ok (x, rest) -> (length rest <= length b)%nat) ->
  forall fuel len b xs rest,
  decode_many dec fuel len b = Ok (xs, rest) -> (length rest <= length b)%nat.
Proof.
  intros Hd fuel. induction fuel as [|f IH]; intros len b xs rest; simpl; case_match; try done;
    try (intros [= _ <-]; lia).
  destruct (dec b) as [[x b']| |] eqn:E1; try done. cbn [mbind res_bind].
  destruct (decode_many dec f (len - 1) b') as [[xs' b'']| |] eqn:E2; try done. cbn [mbind res_bind].
  intros [= _ <-]. apply Hd in E1. apply IH in E2. lia.
Qed.

(** Discharges the successful branches of a field reader. *)
Ltac shrink_tac :=
  repeat match goal with
  | |- context [map_err _ (?f ?b)] => destruct (f b) as [[? ?]| |] eqn:?; cbn [map_err mbind res_bind]; try done
  | |- context [map_err _ (decode_many ?d ?n ?l ?b)] =>
      destruct (decode_many d n l b) as [[? ?]| |] eqn:?; cbn [map_err mbind res_bind]; try done
  | |- context [if ?c then _ else _] => destruct c; try done
  end;
  intros [= <- <-];
  repeat match goal with
  | H : decode_u64 _ = _ |- _ => apply decode_u64_suffix in H
  | H : decode_var_u64 _ = _ |- _ => apply decode_var_u64_suffix in H
  | H : decode_many _ _ _ _ = _ |- _ =>
      apply decode_many_shrinks in H; [|eauto with tikv]
  end;
  rewrite ?length_drop; simpl; lia.

Lemma lock_field_shrinks tag b st st' b' :
  lock_field tag b st = Ok (Some (st', b')) -> (length b' <= length b)%nat.
Proof.
  destruct st as [sv fut size mct secs rts lct vers src wc gen]. unfold lock_field.
  case_bool_decide; [destruct b as [|n b]; [done|]; shrink_tac|].
  repeat (case_bool_decide; [shrink_tac|]). done.
Qed.

Abbreviation lock_fields := (parse_fields lock_field).

Lemma lock_fields_step tag b st st' b' :
  lock_field tag b st = Ok (Some (st', b')) -> lock_fields (tag :: b) st = lock_fields b' st'.
Proof. apply parse_fields_step, lock_field_shrinks. Qed.

Section Steps.
  Context (sv : option Value) (fut : TimeStamp) (size : Z) (mct : TimeStamp)
    (secs : option (list bytes)) (rts : list TimeStamp) (lct vers src : Z) (wc : bool) (gen : Z)
    (rest : bytes).

Lemma step_short_value v :
  match v with Some v => (length v <= 255)%nat | None => True end ->
  lock_fields (short_value_bytes v ++ rest) (mk_fields None fut size mct secs rts lct vers src wc gen)
  = lock_fields rest (mk_fields v fut size mct secs rts lct vers src wc gen).
Proof.
  destruct v as [v|]; [|done]. intros Hv. cbn [short_value_bytes app]. apply lock_fields_step.
  unfold lock_field. rewrite bool_decide_eq_true_2 by done.
  rewrite b2z_u8_small, Nat2Z.id by lia. rewrite length_app.
  destruct (Nat.ltb_spec (length v + length rest) (length v)); [lia|].
  by rewrite take_app_ge_eq, drop_app_ge_eq.
Qed.

Lemma step_for_update_ts t :
  is_u64 t ->
  lock_fields ((if ts_is_zero t then [] else FOR_UPDATE_TS_PREFIX :: encode_u64 t) ++ rest)
    (mk_fields sv 0 size mct secs rts lct vers src wc gen)
  = lock_fields rest (mk_fields sv t size mct secs rts lct vers src wc gen).
Proof.
  intros Ht. unfold ts_is_zero. destruct (Z.eqb_spec t 0) as [->|]; [done|]. cbn [app].
  apply lock_fields_step. unfold lock_field. by rewrite decode_encode_u64.
Qed.

Lemma step_txn_size n :
  is_u64 n ->
  lock_fields ((if 0 <? n then TXN_SIZE_PREFIX :: encode_u64 n else []) ++ rest)
    (mk_fields sv fut 0 mct secs rts lct vers src wc gen)
  = lock_fields rest (mk_fields sv fut n mct secs rts lct vers src wc gen).
Proof.
  intros Hn. destruct (Z.ltb_spec 0 n).
  - apply lock_fields_step. unfold lock_field. by rewrite decode_encode_u64.
  - unfold is_u64 in Hn. assert (n = 0) as -> by lia. done.
Qed.

Lemma step_min_commit_ts t :
  is_u64 t ->
  lock_fields ((if ts_is_zero t then [] else MIN_COMMIT_TS_PREFIX :: encode_u64 t) ++ rest)
    (mk_fields sv fut size 0 secs rts lct vers src wc gen)
  = lock_fields rest (mk_fields sv fut size t secs rts lct vers src wc gen).
Proof.
  intros Ht. unfold ts_is_zero. destruct (Z.eqb_spec t 0) as [->|]; [done|]. cbn [app].
  apply lock_fields_step. unfold lock_field. by rewrite decode_encode_u64.
Qed.

Lemma step_async_commit (async : bool) ks :
  Z.of_nat (length ks) < 2 ^ 63 -> Forall (fun k => Z.of_nat (length k) < 2 ^ 63) ks ->
  lock_fields
    ((if async then ASYNC_COMMIT_PREFIX :: encode_var_u64 (wrap64 (Z.of_nat (length ks)))
                    ++ concat (map encode_compact_bytes ks) else []) ++ rest)
    (mk_fields sv fut size mct None rts lct vers src wc gen)
  = lock_fields rest (mk_fields sv fut size mct (if async then Some ks else None) rts lct vers src wc gen).
Proof.
  intros Hl Hks. destruct async; [|done]. cbn [app]. apply lock_fields_step. unfold lock_field.
  rewrite wrap64_small, <- app_assoc, decode_encode_var_u64 by (unfold is_u64; lia).
  cbn [map_err mbind res_bind].
  rewrite (decode_many_spec decode_compact_bytes encode_compact_bytes (fun k => Z.of_nat (length k) < 2 ^ 63));
    [done|auto using decode_compact_encode|done|].
  apply length_concat_ge. intros k. unfold encode_compact_bytes, encode_var_i64, encode_var_u64.
  rewrite length_app. destruct MAX_VAR_U64_LEN eqn:E; [done|]. cbn [encode_var_u64_loop].
  case_match; case_match; simpl; lia.
Qed.

Lemma step_rollback_ts l :
  Z.of_nat (length l) < 2 ^ 60 - 1 -> Forall is_u64 l ->
  lock_fields
    ((if bool_decide (l = []) then []
      else ROLLBACK_TS_PREFIX :: encode_var_u64 (wrap64 (Z.of_nat (length l)))
           ++ concat (map encode_u64 l)) ++ rest)
    (mk_fields sv fut size mct secs [] lct vers src wc gen)
  = lock_fields rest (mk_fields sv fut size mct secs l lct vers src wc gen).
Proof.
  intros Hl Hts. case_bool_decide as E; [by subst l|]. cbn [app]. apply lock_fields_step.
  unfold lock_field, capacity_overflow.
  rewrite wrap64_small, <- app_assoc, decode_encode_var_u64 by (unfold is_u64; lia).
  cbn [map_err mbind res_bind].
  rewrite !bool_decide_eq_false_2 by done. rewrite bool_decide_eq_true_2 by done.
  rewrite wrap64_small by (unfold is_u64; lia).
  destruct (Z.ltb_spec (2 ^ 63 - 1) (8 * (Z.of_nat (length l) + 1))); [lia|].
  rewrite (decode_many_spec decode_u64 encode_u64 is_u64); [done|apply decode_encode_u64|done|].
  apply length_concat_ge. intros. rewrite length_encode_u64. lia.
Qed.

Lemma step_last_change lc :
  lc_wf lc ->
  lock_fields (last_change_bytes lc ++ rest)
    (mk_fields sv fut size mct secs rts 0 0 src wc gen)
  = lock_fields rest (mk_fields sv fut size mct secs rts (fst (lc_to_parts lc)) (snd (lc_to_parts lc)) src wc gen).
Proof.
  intros Hlc. destruct lc as [|t v|]; [done| |]; cbn [last_change_bytes lc_to_parts fst snd app];
    apply lock_fields_step; unfold lock_field; rewrite <- app_assoc.
  - destruct Hlc as (Ht & _ & Hv & _). rewrite decode_encode_u64 by done.
    cbn [map_err mbind res_bind]. by rewrite decode_encode_var_u64.
  - rewrite decode_encode_u64 by (by unfold is_u64).
    cbn [map_err mbind res_bind]. by rewrite decode_encode_var_u64 by (by unfold is_u64).
Qed.

Lemma step_txn_source n :
  is_u64 n ->
  lock_fields ((if n =? 0 then [] else LOCK_TXN_SOURCE_PREFIX :: encode_var_u64 n) ++ rest)
    (mk_fields sv fut size mct secs rts lct vers 0 wc gen)
  = lock_fields rest (mk_fields sv fut size mct secs rts lct vers n wc gen).
Proof.
  intros Hn. destruct (Z.eqb_spec n 0) as [->|]; [done|]. cbn [app].
  apply lock_fields_step. unfold lock_field. by rewrite decode_encode_var_u64.
Qed.

Lemma step_with_conflict (w : bool) :
  lock_fields ((if w then [PESSIMISTIC_LOCK_WITH_CONFLICT_PREFIX] else []) ++ rest)
    (mk_fields sv fut size mct secs rts lct vers src false gen)
  = lock_fields rest (mk_fields sv fut size mct secs rts lct vers src w gen).
Proof. destruct w; [|done]. by apply lock_fields_step. Qed.

Lemma step_generation n :
  is_u64 n ->
  lock_fields ((if 0 <? n then GENERATION_PREFIX :: encode_u64 n else []) ++ rest)
    (mk_fields sv fut size mct secs rts lct vers src wc 0)
  = lock_fields rest (mk_fields sv fut size mct secs rts lct vers src wc n).
Proof.
  intros Hn. destruct (Z.ltb_spec 0 n).
  - apply lock_fields_step. unfold lock_field. by rewrite decode_encode_u64.
  - unfold is_u64 in Hn. assert (n = 0) as -> by lia. done.
Qed.
End Steps.

(** The part of a serialized lock after its header. *)
Definition lock_tail (l : Lock) : bytes :=
  short_value_bytes (lock_short_value l)
  ++ (if ts_is_zero (lock_for_update_ts l) then []
      else FOR_UPDATE_TS_PREFIX :: encode_u64 (lock_for_update_ts l))
  ++ (if 0 <? lock_txn_size l then TXN_SIZE_PREFIX :: encode_u64 (lock_txn_size l) else [])
  ++ (if ts_is_zero (lock_min_commit_ts l) then []
      else MIN_COMMIT_TS_PREFIX :: encode_u64 (lock_min_commit_ts l))
  ++ (if lock_use_async_commit l then
        ASYNC_COMMIT_PREFIX :: encode_var_u64 (wrap64 (Z.of_nat (length (lock_secondaries l))))
        ++ concat (map encode_compact_bytes (lock_secondaries l))
      else [])
  ++ (if bool_decide (lock_rollback_ts l = []) then []
      else ROLLBACK_TS_PREFIX :: encode_var_u64 (wrap64 (Z.of_nat (length (lock_rollback_ts l))))
           ++ concat (map encode_u64 (lock_rollback_ts l)))
  ++ last_change_bytes (lock_last_change l)
  ++ (if lock_txn_source l =? 0 then [] else LOCK_TXN_SOURCE_PREFIX :: encode_var_u64 (lock_txn_source l))
  ++ (if lock_is_locked_with_conflict l then [PESSIMISTIC_LOCK_WITH_CONFLICT_PREFIX] else [])
  ++ (if 0 <? lock_generation l then GENERATION_PREFIX :: encode_u64 (lock_generation l) else []).

Lemma lock_tail_fields l :
  lock_wf l ->
  lock_fields (lock_tail l) fields_init
  = Ok (mk_fields (lock_short_value l) (lock_for_update_ts l) (lock_txn_size l) (lock_min_commit_ts l)
      (if lock_use_async_commit l then Some (lock_secondaries l) else None) (lock_rollback_ts l)
      (fst (lc_to_parts (lock_last_change l))) (snd (lc_to_parts (lock_last_change l)))
      (lock_txn_source l) (lock_is_locked_with_conflict l) (lock_generation l)).
Proof.
  intros (_ & _ & _ & Hsv & Hfut & Hsz & Hmct & _ & Hsl & Hsf & Hrl & Hrf & Hlc & Hsrc & Hgen).
  unfold lock_tail, fields_init, ts_zero.
  rewrite step_short_value, step_for_update_ts, step_txn_size, step_min_commit_ts,
    step_async_commit, step_rollback_ts, step_last_change, step_txn_source,
    step_with_conflict by done.
  rewrite <- (app_nil_r (if 0 <? lock_generation l then _ else _)).
  by rewrite step_generation.
Qed.

(** Parsing a serialized lock gives the lock back, except for the in-memory
    one-phase-commit flag, which is not stored. *)
Lemma lock_parse_to_bytes l :
  lock_wf l ->
  lock_parse (lock_to_bytes l)
  = Ok (lock_set_async l (lock_use_async_commit l) false (lock_secondaries l)).
Proof.
  intros Hwf. pose proof (lock_tail_fields l Hwf) as Htail.
  destruct Hwf as (Hp & Hts & Httl & _ & _ & _ & _ & Hsec & _ & _ & _ & _ & Hlc & _).
  unfold lock_parse, lock_to_bytes. cbn [app]. rewrite lock_type_roundtrip.
  rewrite decode_compact_encode by done. cbn [map_err mbind res_bind].
  rewrite decode_encode_var_u64 by done. cbn [map_err mbind res_bind].
  fold (lock_tail l).
  destruct (encode_var_u64_head (lock_ttl l) Httl) as (h & t & E & _).
  assert (forall X Y : res txn_error (Z * bytes),
    match encode_var_u64 (lock_ttl l) ++ lock_tail l with [] => X | _ => Y end = Y) as Hcons
    by (intros; by rewrite E).
  rewrite Hcons, decode_encode_var_u64 by done. cbn [map_err mbind res_bind].
  set (tail := lock_tail l) in *. transitivity (
    st ← lock_fields tail fields_init;
    lc ← lc_from_parts (E := txn_error) (fd_last_change_ts st) (fd_versions st);
    Ok (lock_set_async l (lock_use_async_commit l) false (lock_secondaries l))).
  2:{ rewrite Htail. cbn [mbind res_bind fd_last_change_ts fd_versions]. by rewrite lc_from_to_parts. }
  destruct tail as [|x tail].
  - rewrite parse_fields_nil in Htail |- *. injection Htail as E1 E2 E3 E4 E5 E6 E7 E8 E9 E10 E11.
    cbn. unfold lock_new, lock_set_async. f_equal. destruct l; simpl in *; subst.
    destruct lock_use_async_commit0; [done|]. rewrite Hsec by done.
    f_equal. destruct lock_last_change0 as [|ts v|]; [done| |done].
    destruct Hlc as (_ & H0 & _). simpl in *. by subst ts.
  - rewrite Htail. cbn [mbind res_bind fd_last_change_ts fd_versions fd_secondaries].
    rewrite lc_from_to_parts by done. cbn [mbind res_bind]. f_equal.
    destruct l; cbn in *. destruct lock_use_async_commit0; [done|]. by rewrite Hsec.
Qed.

(** ** Properties *)

(** a serialized lock parses back to itself; only the one-phase-commit
    flag, which lives in memory, is reset. *)
Theorem lock_roundtrip l :
  lock_wf l ->
  lock_parse (lock_to_bytes l)
  = Ok (lock_set_async l (lock_use_async_commit l) false (lock_secondaries l)).
Proof. apply lock_parse_to_bytes. Qed.

Definition sample_lock : Lock :=
  mk_lock LTPut [Byte.x70] 10 3000 (Some [Byte.x76; Byte.x00]) 12 2 11 true true [[Byte.x61]; []]
    [5; 6] (LCExist 8 3) 1 false 4.

Lemma lock_roundtrip_witness :
  lock_parse (lock_to_bytes sample_lock)
  = Ok (lock_set_async sample_lock true false [[Byte.x61]; []]).
Proof.
  apply (lock_roundtrip sample_lock). unfold lock_wf, sample_lock; cbn.
  unfold is_u64. split_and!; try done; try lia; repeat constructor; done || lia.
Defined.
