(* ===== verification/Write.v ===== *)
(** * Write records (components/txn_types/src/write.rs)

    The records of the write column family, their byte format and the
    predicates reads apply to them. *)
From S2P Require Import Prelude Number Bytes Timestamp Key Fields Lock.

Inductive WriteType := WTPut | WTDelete | WTLock | WTRollback.

#[export] Instance WriteType_eq_dec : EqDecision WriteType.
Proof. solve_decision. Defined.

Definition FLAG_ROLLBACK : byte := Byte.x52.
Definition FLAG_OVERLAPPED_ROLLBACK : byte := Byte.x52.
Definition GC_FENCE_PREFIX : byte := Byte.x46.
Definition WRITE_TXN_SOURCE_PREFIX : byte := Byte.x53.
Definition PROTECTED_ROLLBACK_SHORT_VALUE : bytes := [Byte.x70].

Definition write_type_from_lock_type (tp : LockType) : option WriteType :=
  match tp with
  | LTPut => Some WTPut
  | LTDelete => Some WTDelete
  | LTLock => Some WTLock
  | LTPessimistic => None
  end.

Definition write_type_from_u8 (b : byte) : option WriteType :=
  if bool_decide (b = FLAG_PUT) then Some WTPut
  else if bool_decide (b = FLAG_DELETE) then Some WTDelete
  else if bool_decide (b = FLAG_LOCK) then Some WTLock
  else if bool_decide (b = FLAG_ROLLBACK) then Some WTRollback
  else None.

Definition write_type_to_u8 (t : WriteType) : byte :=
  match t with
  | WTPut => FLAG_PUT
  | WTDelete => FLAG_DELETE
  | WTLock => FLAG_LOCK
  | WTRollback => FLAG_ROLLBACK
  end.

(** [Write] and the borrowed [WriteRef] have the same fields. *)
Record Write := mk_write {
  write_type : WriteType;
  write_start_ts : TimeStamp;
  write_short_value : option Value;
  write_has_overlapped_rollback : bool;
  write_gc_fence : option TimeStamp;
  write_last_change : LastChange;
  write_txn_source : Z
}.

#[export] Instance Write_eq_dec : EqDecision Write.
Proof. solve_decision. Defined.

Definition write_new (t : WriteType) (start_ts : TimeStamp) (short_value : option Value) : Write :=
  mk_write t start_ts short_value false None LCUnknown 0.

Definition write_new_rollback (start_ts : TimeStamp) (protected : bool) : Write :=
  mk_write WTRollback start_ts
    (if protected then Some PROTECTED_ROLLBACK_SHORT_VALUE else None) false None LCUnknown 0.

Definition set_overlapped_rollback (w : Write) (has : bool) (gc_fence : option TimeStamp) : Write :=
  mk_write (write_type w) (write_start_ts w) (write_short_value w) has gc_fence
    (write_last_change w) (write_txn_source w).

Definition write_set_last_change (w : Write) (lc : LastChange) : Write :=
  mk_write (write_type w) (write_start_ts w) (write_short_value w)
    (write_has_overlapped_rollback w) (write_gc_fence w) lc (write_txn_source w).

Definition write_set_txn_source (w : Write) (source : Z) : Write :=
  mk_write (write_type w) (write_start_ts w) (write_short_value w)
    (write_has_overlapped_rollback w) (write_gc_fence w) (write_last_change w) source.

Definition write_parse_type (b : bytes) : res txn_error WriteType :=
  match b with
  | [] => Err BadFormatWrite
  | f :: _ => match write_type_from_u8 f with Some t => Ok t | None => Err BadFormatWrite end
  end.

(** The local variables of the parsing loop. *)
Record WriteFields := mk_wfields {
  wf_short_value : option Value;
  wf_has_overlapped_rollback : bool;
  wf_gc_fence : option TimeStamp;
  wf_last_change_ts : TimeStamp;
  wf_versions : Z;
  wf_txn_source : Z
}.

Definition wfields_init : WriteFields := mk_wfields None false None ts_zero 0 0.

Definition write_field (tag : byte) (b : bytes) (st : WriteFields) :
    res txn_error (option (WriteFields * bytes)) :=
  let '(mk_wfields sv ov gf lct vers src) := st in
  if bool_decide (tag = SHORT_VALUE_PREFIX) then
    match b with
    | [] => Err BadFormatWrite
    | len :: b =>
        let len := Z.to_nat (b2z len) in
        if (length b <? len)%nat then Panic
        else Ok (Some (mk_wfields (Some (take len b)) ov gf lct vers src, drop len b))
    end
  else if bool_decide (tag = FLAG_OVERLAPPED_ROLLBACK) then
    Ok (Some (mk_wfields sv true gf lct vers src, b))
  else if bool_decide (tag = GC_FENCE_PREFIX) then
    '(ts, b) ← map_err TCodec (decode_u64 b);
    Ok (Some (mk_wfields sv ov (Some ts) lct vers src, b))
  else if bool_decide (tag = LAST_CHANGE_PREFIX) then
    '(lct, b) ← map_err TCodec (decode_u64 b);
    '(vers, b) ← map_err TCodec (decode_var_u64 b);
    Ok (Some (mk_wfields sv ov gf lct vers src, b))
  else if bool_decide (tag = WRITE_TXN_SOURCE_PREFIX) then
    '(src, b) ← map_err TCodec (decode_var_u64 b);
    Ok (Some (mk_wfields sv ov gf lct vers src, b))
  else Ok None.

Definition write_parse (b : bytes) : res txn_error Write :=
  match b with
  | [] => Err BadFormatWrite
  | f :: b =>
      match write_type_from_u8 f with
      | None => Err BadFormatWrite
      | Some t =>
          '(start_ts, b) ← map_err (fun _ => BadFormatWrite) (try_decode_var_u64 b);
          st ← parse_fields write_field b wfields_init;
          lc ← lc_from_parts (wf_last_change_ts st) (wf_versions st);
          Ok (mk_write t start_ts (wf_short_value st) (wf_has_overlapped_rollback st)
                (wf_gc_fence st) lc (wf_txn_source st))
      end
  end.

Definition write_to_bytes (w : Write) : bytes :=
  [write_type_to_u8 (write_type w)]
  ++ encode_var_u64 (write_start_ts w)
  ++ short_value_bytes (write_short_value w)
  ++ (if write_has_overlapped_rollback w then [FLAG_OVERLAPPED_ROLLBACK] else [])
  ++ (match write_gc_fence w with Some ts => GC_FENCE_PREFIX :: encode_u64 ts | None => [] end)
  ++ last_change_bytes (write_last_change w)
  ++ (if write_txn_source w =? 0 then [] else WRITE_TXN_SOURCE_PREFIX :: encode_var_u64 (write_txn_source w)).

Definition check_gc_fence_as_latest_version (w : Write) (read_ts : TimeStamp) : bool :=
  match write_gc_fence w with
  | Some gc_fence_ts => negb (negb (ts_is_zero gc_fence_ts) && (gc_fence_ts <=? read_ts))
  | None => true
  end.

Definition write_is_protected (w : Write) : bool :=
  bool_decide (write_type w = WTRollback)
  && match write_short_value w with
     | Some v => bool_decide (v = PROTECTED_ROLLBACK_SHORT_VALUE)
     | None => false
     end.

(** ** Round trip *)

Definition write_wf (w : Write) : Prop :=
  is_u64 (write_start_ts w)
  /\ match write_short_value w with Some v => (length v <= 255)%nat | None => True end
  /\ match write_gc_fence w with Some ts => is_u64 ts | None => True end
  /\ lc_wf (write_last_change w)
  /\ is_u64 (write_txn_source w).

Lemma write_type_roundtrip t : write_type_from_u8 (write_type_to_u8 t) = Some t.
Proof. by destruct t. Qed.

Lemma write_field_shrinks tag b st st' b' :
  write_field tag b st = Ok (Some (st', b')) -> (length b' <= length b)%nat.
Proof.
  destruct st as [sv ov gf lct vers src]. unfold write_field.
  case_bool_decide; [destruct b as [|n b]; [done|]; shrink_tac|].
  repeat (case_bool_decide; [shrink_tac|]). done.
Qed.

Abbreviation write_fields := (parse_fields write_field).

Lemma write_fields_step tag b st st' b' :
  write_field tag b st = Ok (Some (st', b')) -> write_fields (tag :: b) st = write_fields b' st'.
Proof. apply parse_fields_step, write_field_shrinks. Qed.

Section Steps.
  Context (sv : option Value) (ov : bool) (gf : option TimeStamp) (lct vers src : Z) (rest : bytes).

Lemma wstep_short_value v :
  match v with Some v => (length v <= 255)%nat | None => True end ->
  write_fields (short_value_bytes v ++ rest) (mk_wfields None ov gf lct vers src)
  = write_fields rest (mk_wfields v ov gf lct vers src).
Proof.
  destruct v as [v|]; [|done]. intros Hv. cbn [short_value_bytes app]. apply write_fields_step.
  unfold write_field. rewrite bool_decide_eq_true_2 by done.
  rewrite b2z_u8_small, Nat2Z.id by lia. rewrite length_app.
  destruct (Nat.ltb_spec (length v + length rest) (length v)); [lia|].
  by rewrite take_app_ge_eq, drop_app_ge_eq.
Qed.

Lemma wstep_overlapped (o : bool) :
  write_fields ((if o then [FLAG_OVERLAPPED_ROLLBACK] else []) ++ rest) (mk_wfields sv false gf lct vers src)
  = write_fields rest (mk_wfields sv o gf lct vers src).
Proof. destruct o; [|done]. by apply write_fields_step. Qed.

Lemma wstep_gc_fence f :
  match f with Some ts => is_u64 ts | None => True end ->
  write_fields ((match f with Some ts => GC_FENCE_PREFIX :: encode_u64 ts | None => [] end) ++ rest)
    (mk_wfields sv ov None lct vers src)
  = write_fields rest (mk_wfields sv ov f lct vers src).
Proof.
  destruct f as [ts|]; [|done]. intros Hts. cbn [app]. apply write_fields_step.
  unfold write_field. by rewrite decode_encode_u64.
Qed.

Lemma wstep_last_change lc :
  lc_wf lc ->
  write_fields (last_change_bytes lc ++ rest) (mk_wfields sv ov gf 0 0 src)
  = write_fields rest (mk_wfields sv ov gf (fst (lc_to_parts lc)) (snd (lc_to_parts lc)) src).
Proof.
  intros Hlc. destruct lc as [|t v|]; [done| |]; cbn [last_change_bytes lc_to_parts fst snd app];
    apply write_fields_step; unfold write_field; rewrite <- app_assoc.
  - destruct Hlc as (Ht & _ & Hv & _). rewrite decode_encode_u64 by done.
    cbn [map_err mbind res_bind]. by rewrite decode_encode_var_u64.
  - rewrite decode_encode_u64 by (by unfold is_u64).
    cbn [map_err mbind res_bind]. by rewrite decode_encode_var_u64 by (by unfold is_u64).
Qed.

Lemma wstep_txn_source n :
  is_u64 n ->
  write_fields ((if n =? 0 then [] else WRITE_TXN_SOURCE_PREFIX :: encode_var_u64 n) ++ rest)
    (mk_wfields sv ov gf lct vers 0)
  = write_fields rest (mk_wfields sv ov gf lct vers n).
Proof.
  intros Hn. destruct (Z.eqb_spec n 0) as [->|]; [done|]. cbn [app].
  apply write_fields_step. unfold write_field. by rewrite decode_encode_var_u64.
Qed.
End Steps.

Lemma write_parse_to_bytes w : write_wf w -> write_parse (write_to_bytes w) = Ok w.
Proof.
  intros (Hts & Hsv & Hgf & Hlc & Hsrc). unfold write_parse, write_to_bytes, wfields_init, ts_zero.
  cbn [app]. rewrite write_type_roundtrip.
  rewrite try_decode_encode_var_u64 by done. cbn [map_err mbind res_bind].
  rewrite wstep_short_value, wstep_overlapped, wstep_gc_fence, wstep_last_change by done.
  rewrite <- (app_nil_r (if write_txn_source w =? 0 then _ else _)), wstep_txn_source by done.
  rewrite parse_fields_nil. cbn [mbind res_bind wf_last_change_ts wf_versions].
  rewrite lc_from_to_parts by done. by destruct w.
Qed.

Lemma write_parse_type_to_bytes w : write_parse_type (write_to_bytes w) = Ok (write_type w).
Proof. unfold write_parse_type, write_to_bytes. cbn [app]. by rewrite write_type_roundtrip. Qed.

(** The flag byte alone decides the type [parse] returns. *)
Lemma write_parse_type_agrees b w : write_parse b = Ok w -> write_parse_type b = Ok (write_type w).
Proof.
  unfold write_parse, write_parse_type. destruct b as [|f b]; [done|]. case_match; [|done].
  intros H'. inv_bind H'. by injection H' as <-.
Qed.

(** ** Properties *)

(** A serialized write record parses back to itself. *)
Theorem write_roundtrip w : write_wf w -> write_parse (write_to_bytes w) = Ok w.
Proof. apply write_parse_to_bytes. Qed.

Lemma write_roundtrip_witness :
  write_parse (write_to_bytes (mk_write WTPut 10 (Some [Byte.x52]) true (Some 0) LCNotExist 3))
  = Ok (mk_write WTPut 10 (Some [Byte.x52]) true (Some 0) LCNotExist 3).
Proof.
  apply (write_roundtrip (mk_write WTPut 10 (Some [Byte.x52]) true (Some 0) LCNotExist 3)).
  unfold write_wf, is_u64; cbn. split_and!; done || lia.
Defined.
