(* ===== verification/OrderedMap.v ===== *)
(** * Ordered maps

    A column family and the in-memory lock table are maps iterated in the
    order of their keys (RocksDB, [BTreeMap]). The contents are a [gmap]; the
    iteration order is the sorted list of its entries, and the seeks of an
    iterator are defined on that list. The lemmas characterise each seek by
    the entries of the map alone. *)
From stdpp Require Import sorting.
From S2P Require Import Prelude.

Section OrderedMap.
  Context {A : Type}.
  Implicit Types (m : gmap bytes A) (k : bytes) (e : bytes * A).

Definition entry_le (a b : bytes * A) : Prop := ble a.1 b.1.

#[global] Instance entry_le_dec : RelDecision entry_le.
Proof. intros a b. unfold entry_le. destruct (bleb a.1 b.1) eqn:E; [left|right]; rewrite <- bleb_le; by rewrite E. Defined.

#[global] Instance entry_le_trans : Transitive entry_le.
Proof. intros a b c. apply ble_trans. Qed.

#[global] Instance entry_le_total : Total entry_le.
Proof. intros a b. apply ble_total. Qed.

(** The entries in iteration order. *)
Definition entries (m : gmap bytes A) : list (bytes * A) := merge_sort entry_le (map_to_list m).

(** The first entry at or after [k], after [k]; the last at or before, before. *)
Definition seek_ge (m : gmap bytes A) (k : bytes) : option (bytes * A) :=
  List.find (fun e => bleb k e.1) (entries m).
Definition seek_gt (m : gmap bytes A) (k : bytes) : option (bytes * A) :=
  List.find (fun e => bltb k e.1) (entries m).
Definition seek_le (m : gmap bytes A) (k : bytes) : option (bytes * A) :=
  List.find (fun e => bleb e.1 k) (rev (entries m)).
Definition seek_lt (m : gmap bytes A) (k : bytes) : option (bytes * A) :=
  List.find (fun e => bltb e.1 k) (rev (entries m)).
Definition seek_first (m : gmap bytes A) : option (bytes * A) := head (entries m).
Definition seek_last (m : gmap bytes A) : option (bytes * A) := last (entries m).

Lemma elem_of_entries m k a : (k, a) ∈ entries m <-> m !! k = Some a.
Proof. unfold entries. rewrite merge_sort_Permutation. apply elem_of_map_to_list. Qed.

Lemma entries_le_sorted m : StronglySorted entry_le (entries m).
Proof. apply (StronglySorted_merge_sort entry_le). Qed.

Lemma entries_nodup m : NoDup (entries m).*1.
Proof. unfold entries. rewrite merge_sort_Permutation. apply NoDup_fst_map_to_list. Qed.

Lemma entries_sorted m : StronglySorted (fun a b => blt a.1 b.1) (entries m).
Proof.
  pose proof (entries_nodup m) as Hn. pose proof (entries_le_sorted m) as Hs.
  induction Hs as [|a l Hs IH Ha]; constructor; simpl in Hn; apply NoDup_cons in Hn as [Hn1 Hn2]; auto.
  rewrite Forall_forall in Ha |- *. intros b Hb. specialize (Ha b Hb).
  apply ble_alt in Ha as [|E]; [done|]. destruct Hn1. rewrite E. by apply list_elem_of_fmap_2.
Qed.

(** In a sorted list the first element that satisfies [p] is below every
    other one that does. *)
Lemma find_least (R : bytes * A -> bytes * A -> Prop) p l e :
  StronglySorted R l -> List.find p l = Some e ->
  e ∈ l /\ p e = true /\ (forall e', e' ∈ l -> p e' = true -> e' = e \/ R e e').
Proof.
  induction 1 as [|a l Hs IH Ha]; simpl; [done|]. destruct (p a) eqn:Ep.
  - intros [= <-]. split_and!; [apply list_elem_of_here|done|]. intros e' He' _.
    apply elem_of_cons in He' as [->|He']; [by left|right].
    rewrite Forall_forall in Ha. by apply Ha.
  - intros Hf. destruct (IH Hf) as (? & ? & Hm). split_and!; [by apply list_elem_of_further|done|].
    intros e' He' He. apply elem_of_cons in He' as [->|He']; [congruence|auto].
Qed.

Lemma find_exists (p : bytes * A -> bool) l e :
  e ∈ l -> p e = true -> exists e', List.find p l = Some e'.
Proof.
  induction l as [|a l IH]; simpl; [by intros ?%elem_of_nil|]. intros He Hp.
  destruct (p a) eqn:Ea; [by exists a|]. apply elem_of_cons in He as [->|He]; [congruence|auto].
Qed.

Lemma rev_sorted m : StronglySorted (fun a b => blt b.1 a.1) (rev (entries m)).
Proof.
  generalize (entries_sorted m). generalize (entries m). induction l as [|a l IH]; intros Hs; simpl; [constructor|].
  apply StronglySorted_cons in Hs as [Ha Hs]. specialize (IH Hs).
  assert (Forall (fun b => blt a.1 b.1) (rev l)) as Hr by (by apply Forall_rev).
  revert Hr IH. generalize (rev l). induction l0 as [|b l0 IH0]; simpl; intros Hr Hs0.
  - repeat constructor.
  - apply Forall_cons in Hr as [Hb Hr]. apply StronglySorted_cons in Hs0 as [Hb0 Hs0].
    constructor; [auto|]. apply Forall_app. auto.
Qed.

Lemma elem_of_rev_entries m k a : (k, a) ∈ rev (entries m) <-> m !! k = Some a.
Proof. rewrite list_elem_of_In, <- in_rev, <- list_elem_of_In. apply elem_of_entries. Qed.

(** A seek returns the entry of the map that is least, in the direction of
    the iteration, among those that satisfy the predicate. *)
Section Find.
  Context (m : gmap bytes A) (L : list (bytes * A)) (lt le : bytes -> bytes -> Prop)
    (q : bytes -> bool).
  Hypothesis HL : forall k a, (k, a) ∈ L <-> m !! k = Some a.
  Hypothesis Hsorted : StronglySorted (fun a b => lt a.1 b.1) L.
  Hypothesis lt_le : forall a b, lt a b -> le a b.
  Hypothesis le_refl : forall a, le a a.
  Hypothesis le_antisym : forall a b, le a b -> le b a -> a = b.

Lemma find_key_least k a :
  List.find (fun e => q e.1) L = Some (k, a) ->
  m !! k = Some a /\ q k = true /\ (forall k2 a2, m !! k2 = Some a2 -> q k2 = true -> le k k2).
Proof using HL Hsorted lt_le le_refl.
  intros Hf. apply (find_least _ _ _ _ Hsorted) in Hf as (Hin & Hp & Hl).
  apply HL in Hin. split_and!; [done..|].
  intros k2 a2 H2 Hle. destruct (Hl (k2, a2)) as [E|?]; [by apply HL|done| |by apply lt_le].
  injection E as -> _. apply le_refl.
Qed.

Lemma find_key_Some k a :
  List.find (fun e => q e.1) L = Some (k, a) <->
  m !! k = Some a /\ q k = true /\ (forall k2 a2, m !! k2 = Some a2 -> q k2 = true -> le k k2).
Proof using HL Hsorted lt_le le_refl le_antisym.
  split; [apply find_key_least|]. intros (Hk & Hq & Hl).
  destruct (find_exists (fun e => q e.1) L (k, a)) as [[k2 b] E]; [by apply HL|done|].
  destruct (find_key_least k2 b E) as (H2 & Hq2 & Hl2).
  assert (k2 = k) as -> by (apply le_antisym; eauto). rewrite E. congruence.
Qed.

Lemma find_key_None :
  List.find (fun e => q e.1) L = None <-> forall k a, m !! k = Some a -> q k = false.
Proof using HL.
  split.
  - intros E k a Hk. destruct (q k) eqn:Eq; [|done].
    destruct (find_exists (fun e => q e.1) L (k, a)) as [? E']; [by apply HL|done|congruence].
  - intros Hall. destruct (List.find _ L) as [[k a]|] eqn:E; [|done].
    apply List.find_some in E as [Hin Hq]. apply list_elem_of_In, HL in Hin.
    simpl in Hq. by rewrite (Hall k a Hin) in Hq.
Qed.
End Find.

Lemma seek_ge_Some m k k1 a :
  seek_ge m k = Some (k1, a) <->
  m !! k1 = Some a /\ ble k k1 /\ (forall k2 a2, m !! k2 = Some a2 -> ble k k2 -> ble k1 k2).
Proof.
  unfold seek_ge. rewrite (find_key_Some m (entries m) blt ble (bleb k));
    eauto using elem_of_entries, entries_sorted, blt_ble, ble_refl, ble_antisym.
  setoid_rewrite bleb_le. done.
Qed.

Lemma seek_ge_None m k : seek_ge m k = None <-> forall k2 a2, m !! k2 = Some a2 -> blt k2 k.
Proof.
  unfold seek_ge. rewrite (find_key_None m (entries m) (bleb k)) by apply elem_of_entries.
  setoid_rewrite bleb_gt. done.
Qed.

Lemma seek_gt_Some m k k1 a :
  seek_gt m k = Some (k1, a) <->
  m !! k1 = Some a /\ blt k k1 /\ (forall k2 a2, m !! k2 = Some a2 -> blt k k2 -> ble k1 k2).
Proof.
  unfold seek_gt. rewrite (find_key_Some m (entries m) blt ble (bltb k));
    eauto using elem_of_entries, entries_sorted, blt_ble, ble_refl, ble_antisym.
  setoid_rewrite bltb_lt. done.
Qed.

Lemma seek_gt_None m k : seek_gt m k = None <-> forall k2 a2, m !! k2 = Some a2 -> ble k2 k.
Proof.
  unfold seek_gt. rewrite (find_key_None m (entries m) (bltb k)) by apply elem_of_entries.
  setoid_rewrite bltb_ge. done.
Qed.

Lemma seek_le_Some m k k1 a :
  seek_le m k = Some (k1, a) <->
  m !! k1 = Some a /\ ble k1 k /\ (forall k2 a2, m !! k2 = Some a2 -> ble k2 k -> ble k2 k1).
Proof.
  unfold seek_le.
  rewrite (find_key_Some m (rev (entries m)) (fun x y => blt y x) (fun x y => ble y x) (fun x => bleb x k));
    eauto using elem_of_rev_entries, rev_sorted, blt_ble, ble_refl, ble_antisym.
  setoid_rewrite bleb_le. done.
Qed.

Lemma seek_le_None m k : seek_le m k = None <-> forall k2 a2, m !! k2 = Some a2 -> blt k k2.
Proof.
  unfold seek_le. rewrite (find_key_None m (rev (entries m)) (fun x => bleb x k)) by apply elem_of_rev_entries.
  setoid_rewrite bleb_gt. done.
Qed.

Lemma seek_lt_Some m k k1 a :
  seek_lt m k = Some (k1, a) <->
  m !! k1 = Some a /\ blt k1 k /\ (forall k2 a2, m !! k2 = Some a2 -> blt k2 k -> ble k2 k1).
Proof.
  unfold seek_lt.
  rewrite (find_key_Some m (rev (entries m)) (fun x y => blt y x) (fun x y => ble y x) (fun x => bltb x k));
    eauto using elem_of_rev_entries, rev_sorted, blt_ble, ble_refl, ble_antisym.
  setoid_rewrite bltb_lt. done.
Qed.

Lemma seek_lt_None m k : seek_lt m k = None <-> forall k2 a2, m !! k2 = Some a2 -> ble k k2.
Proof.
  unfold seek_lt. rewrite (find_key_None m (rev (entries m)) (fun x => bltb x k)) by apply elem_of_rev_entries.
  setoid_rewrite bltb_ge. done.
Qed.
(** *** Seeks and neighbours *)

Lemma find_all (p : bytes * A -> bool) l : (forall e, e ∈ l -> p e = true) -> List.find p l = head l.
Proof. destruct l as [|a l]; intros Hp; [done|]. simpl. by rewrite Hp by apply list_elem_of_here. Qed.

Lemma seek_first_ge m k : (forall k2 a2, m !! k2 = Some a2 -> ble k k2) -> seek_first m = seek_ge m k.
Proof.
  intros Hall. unfold seek_first, seek_ge. symmetry. apply find_all. intros [k2 a2] Hin.
  apply elem_of_entries in Hin. apply bleb_le. by eapply Hall.
Qed.

Lemma seek_last_le m k : (forall k2 a2, m !! k2 = Some a2 -> ble k2 k) -> seek_last m = seek_le m k.
Proof.
  intros Hall. unfold seek_last, seek_le. rewrite <- head_reverse. unfold reverse. rewrite <- rev_alt.
  symmetry. apply find_all. intros [k2 a2] Hin. apply elem_of_rev_entries in Hin. apply bleb_le. by eapply Hall.
Qed.

(** Going on from an entry below [k] to one that is not finds what a seek to
    [k] finds. *)
Lemma seek_gt_ge m k0 k : blt k0 k -> (forall k1 a1, seek_gt m k0 = Some (k1, a1) -> ble k k1) -> seek_gt m k0 = seek_ge m k.
Proof.
  intros Hlt Hge. destruct (seek_gt m k0) as [[k1 a1]|] eqn:E; symmetry.
  - specialize (Hge _ _ eq_refl). apply seek_gt_Some in E as (H1 & _ & Hl). apply seek_ge_Some. split_and!; [done..|].
    intros k2 a2 H2 Hle. eapply Hl; [done|]. by eapply blt_le_trans.
  - apply seek_ge_None. intros k2 a2 H2. apply (proj1 (seek_gt_None m k0) E) in H2. by eapply ble_lt_trans.
Qed.

Lemma seek_last_max m k1 a1 : seek_last m = Some (k1, a1) ->
  m !! k1 = Some a1 /\ forall k2 a2, m !! k2 = Some a2 -> ble k2 k1.
Proof.
  intros El. unfold seek_last in El. pose proof (entries_sorted m) as Hs.
  assert (forall l : list (bytes * A), StronglySorted (fun a b => blt a.1 b.1) l -> last l = Some (k1, a1) ->
    (k1, a1) ∈ l /\ forall p, p ∈ l -> ble p.1 k1) as Hl.
  { induction 1 as [|p l Hs' IH Hf]; [done|]. rewrite last_cons. rewrite Forall_forall in Hf. destruct (last l) as [q|] eqn:E.
    - intros [= ->]. destruct (IH eq_refl) as [Hin Hle]. split; [by right|]. intros p' [->|Hp']%elem_of_cons; [apply blt_ble; by apply (Hf (k1, a1))|by apply Hle].
    - intros [= ->]. apply last_None in E as ->. split; [apply list_elem_of_here|]. intros p' [->|Hp']%elem_of_cons; [apply ble_refl|by apply elem_of_nil in Hp']. }
  destruct (Hl _ Hs El) as [Hin Hle]. split; [by apply elem_of_entries|]. intros k2 a2 H2. by apply (Hle (k2, a2)), elem_of_entries.
Qed.

Lemma seek_last_None m : seek_last m = None -> m = ∅.
Proof.
  unfold seek_last. intros E%last_None. apply map_empty. intros k2. destruct (m !! k2) as [a2|] eqn:E2; [|done].
  apply elem_of_entries in E2. rewrite E in E2. by apply elem_of_nil in E2.
Qed.

Lemma seek_lt_le m k0 k : blt k k0 -> (forall k1 a1, seek_lt m k0 = Some (k1, a1) -> ble k1 k) -> seek_lt m k0 = seek_le m k.
Proof.
  intros Hlt Hge. destruct (seek_lt m k0) as [[k1 a1]|] eqn:E; symmetry.
  - specialize (Hge _ _ eq_refl). apply seek_lt_Some in E as (H1 & _ & Hl). apply seek_le_Some. split_and!; [done..|].
    intros k2 a2 H2 Hle. eapply Hl; [done|]. by eapply ble_lt_trans.
  - apply seek_le_None. intros k2 a2 H2. apply (proj1 (seek_lt_None m k0) E) in H2. by eapply blt_le_trans.
Qed.

(** An entry that is there is what is found, in both directions. *)
Lemma seek_ge_eq m k a : m !! k = Some a -> seek_ge m k = Some (k, a).
Proof. intros Hk. apply seek_ge_Some. split_and!; [done|apply ble_refl|done]. Qed.

Lemma seek_le_eq m k a : m !! k = Some a -> seek_le m k = Some (k, a).
Proof. intros Hk. apply seek_le_Some. split_and!; [done|apply ble_refl|done]. Qed.

(** From the last entry at or before [k], one step leads to the first at or
    after it, unless it is [k] itself; and the other way round. *)
Lemma seek_le_next m k k1 a1 : seek_le m k = Some (k1, a1) -> blt k1 k -> seek_gt m k1 = seek_ge m k.
Proof.
  intros (H1 & _ & Hl)%seek_le_Some Hlt. apply seek_gt_ge; [done|]. intros k2 a2 (H2 & Hgt & _)%seek_gt_Some.
  apply not_blt. intros Hk2. pose proof (Hl _ _ H2 (blt_ble _ _ Hk2)) as Hle. by apply not_ble in Hgt.
Qed.

Lemma seek_ge_prev m k k1 a1 : seek_ge m k = Some (k1, a1) -> blt k k1 -> seek_lt m k1 = seek_le m k.
Proof.
  intros (H1 & _ & Hl)%seek_ge_Some Hlt. apply seek_lt_le; [done|]. intros k2 a2 (H2 & Hgt & _)%seek_lt_Some.
  apply not_blt. intros Hk2. pose proof (Hl _ _ H2 (blt_ble _ _ Hk2)) as Hle. by apply not_ble in Hgt.
Qed.
End OrderedMap.
