(* ===== verification/PeerLocks.v ===== *)
(** * The in-memory pessimistic lock table of a peer
    (components/raftstore/src/store/txn_ext.rs)

    Pessimistic locks may be kept in memory instead of the lock column family.
    The table is bounded by a memory quota, split with the region, and
    scanned together with the stored locks. *)
From stdpp Require Import sorting.
From S2P Require Import Prelude Number Bytes Timestamp Key Fields Lock OrderedMap.

Inductive LocksStatus := LSNormal | TransferringLeader | MergingRegion | NotLeader | IsInFlashback.

#[export] Instance LocksStatus_eq_dec : EqDecision LocksStatus.
Proof. solve_decision. Defined.

Record PeerPessimisticLocks := mk_peer_locks {
  ppl_map : gmap bytes (PessimisticLock * bool);
  ppl_status : LocksStatus;
  ppl_term : Z;
  ppl_version : Z;
  ppl_memory_size : Z
}.

Definition ppl_default : PeerPessimisticLocks := mk_peer_locks ∅ LSNormal 0 0 0.

Definition ppl_is_writable (p : PeerPessimisticLocks) : bool := bool_decide (ppl_status p = LSNormal).
Definition ppl_get (p : PeerPessimisticLocks) (key : Key) : option (PessimisticLock * bool) :=
  ppl_map p !! key.

Definition ppl_update (p : PeerPessimisticLocks) (m : gmap bytes (PessimisticLock * bool)) (size : Z) :
    PeerPessimisticLocks :=
  mk_peer_locks m (ppl_status p) (ppl_term p) (ppl_version p) size.

(** The bounds of a region, the empty end meaning infinity. *)
Record Region := mk_region { region_start_key : bytes; region_end_key : bytes }.

Section Memory.
  (** [size_of::<PessimisticLock>()], a constant of the target. *)
  Context (size_of_pessimistic_lock : Z).

Definition pl_memory_size (l : PessimisticLock) : Z :=
  wrap64 (Z.of_nat (length (pl_primary l)) + size_of_pessimistic_lock).

Definition entry_size (key : Key) (l : PessimisticLock) : Z :=
  wrap64 (Z.of_nat (length key) + pl_memory_size l).

(** The memory the pairs need: those whose key is already in the map are
    overwrites and need none. *)
Fixpoint insert_incr (m : gmap bytes (PessimisticLock * bool)) (pairs : list (Key * PessimisticLock)) : Z :=
  match pairs with
  | [] => 0
  | (key, lock) :: pairs =>
      match m !! key with
      | Some _ => insert_incr m pairs
      | None => wrap64 (entry_size key lock + insert_incr m pairs)
      end
  end.

Fixpoint insert_pairs (m : gmap bytes (PessimisticLock * bool)) (pairs : list (Key * PessimisticLock)) :
    gmap bytes (PessimisticLock * bool) :=
  match pairs with
  | [] => m
  | (key, lock) :: pairs => insert_pairs (<[key := (lock, false)]> m) pairs
  end.

(** [insert]: the table and the instance-wide counter change together; on
    failure the pairs go back to the caller. *)
Definition ppl_insert (p : PeerPessimisticLocks) (instance : Z) (pairs : list (Key * PessimisticLock))
    (peer_limit instance_limit : Z) :
    res (list (Key * PessimisticLock)) (PeerPessimisticLocks * Z) :=
  let incr := insert_incr (ppl_map p) pairs in
  if (peer_limit <? wrap64 (ppl_memory_size p + incr)) || (instance_limit <? wrap64 (as_u64 instance + incr))
  then Err pairs
  else Ok (ppl_update p (insert_pairs (ppl_map p) pairs) (wrap64 (ppl_memory_size p + incr)),
           as_i64 (wrap64 (instance + incr))).

Definition ppl_remove (p : PeerPessimisticLocks) (instance : Z) (key : Key) : PeerPessimisticLocks * Z :=
  match ppl_map p !! key with
  | Some (lock, _) =>
      let desc := entry_size key lock in
      (ppl_update p (delete key (ppl_map p)) (wrap64 (ppl_memory_size p - desc)),
       as_i64 (wrap64 (instance - desc)))
  | None => (p, instance)
  end.

Definition ppl_clear (p : PeerPessimisticLocks) (instance : Z) : PeerPessimisticLocks * Z :=
  (ppl_update p ∅ 0, as_i64 (wrap64 (instance - ppl_memory_size p))).

(** *** Splitting *)

Definition in_region (r : Region) (key : bytes) : bool :=
  negb (bltb key (region_start_key r)
        || (negb (bool_decide (region_end_key r = [])) && bleb (region_end_key r) key)).

(** [slice::binary_search_by_key] on the start keys of regions sorted by them:
    the index of the region that starts at the key, or the insertion point. *)
Definition search_region (regions : list Region) (key : bytes) : nat + nat :=
  let idx := length (List.filter (fun r => bltb (region_start_key r) key) regions) in
  match regions !! idx with
  | Some r => if bool_decide (region_start_key r = key) then inl idx else inr idx
  | None => inr idx
  end.

(** [.unwrap_or_else(|idx| idx - 1)], used as an index: below the first region
    it is out of bounds. *)
Definition region_index (regions : list Region) (key : bytes) : option nat :=
  match search_region regions key with
  | inl idx => Some idx
  | inr (S idx) => Some idx
  | inr O => None
  end.

Definition move_lock (regions : list Region) (st : Z * list PeerPessimisticLocks)
    (e : Key * (PessimisticLock * bool)) : res unit (Z * list PeerPessimisticLocks) :=
  let '(memory_size, out) := st in
  let '(key, (lock, _)) := e in
  match region_index regions key with
  | None => Panic
  | Some idx =>
      match out !! idx with
      | None => Panic
      | Some p =>
          let size := entry_size key lock in
          Ok (wrap64 (memory_size - size),
              <[idx := ppl_update p (<[key := (lock, false)]> (ppl_map p))
                         (wrap64 (ppl_memory_size p + size))]> out)
      end
  end.

Fixpoint move_locks (regions : list Region) (st : Z * list PeerPessimisticLocks)
    (es : list (Key * (PessimisticLock * bool))) : res unit (Z * list PeerPessimisticLocks) :=
  match es with
  | [] => Ok st
  | e :: es => st ← move_lock regions st e; move_locks regions st es
  end.

Definition group_by_regions (p : PeerPessimisticLocks) (regions : list Region) (derived : Region) :
    res unit (PeerPessimisticLocks * list PeerPessimisticLocks) :=
  let kept := filter (fun e => in_region derived e.1 = true) (ppl_map p) in
  let removed := filter (fun e => in_region derived e.1 = false) (ppl_map p) in
  '(memory_size, out) ← move_locks regions (ppl_memory_size p, map (fun _ => ppl_default) regions)
                          (entries removed);
  Ok (ppl_update p kept memory_size, out).
End Memory.

(** *** Scanning *)

Definition in_scan_range (start end_ : option Key) (key : Key) : bool :=
  match start with Some s => bleb s key | None => true end
  && match end_ with Some e => bltb key e | None => true end.

Fixpoint scan_loop (flt : Key -> PessimisticLock -> bool) (limit : nat)
    (es : list (Key * (PessimisticLock * bool))) (locks : list (Key * Lock)) :
    list (Key * Lock) * bool :=
  match es with
  | [] => (locks, false)
  | (key, (lock, _)) :: es =>
      let locks := if flt key lock then locks ++ [(key, pl_to_lock lock)] else locks in
      if ((0 <? limit) && (limit <=? length locks))%nat
      then (locks, match es with [] => false | _ => true end)
      else scan_loop flt limit es locks
  end.

Definition ppl_scan_locks {E} (p : PeerPessimisticLocks) (start end_ : option Key)
    (flt : Key -> PessimisticLock -> bool) (limit : nat) : res E (list (Key * Lock) * bool) :=
  match start, end_ with
  | Some s, Some e => rassert (bleb s e)
      (Ok (scan_loop flt limit
             (List.filter (fun e => in_scan_range start end_ e.1) (entries (ppl_map p))) []))
  | _, _ =>
      Ok (scan_loop flt limit
            (List.filter (fun e => in_scan_range start end_ e.1) (entries (ppl_map p))) [])
  end.
