(* ===== verification/PeerLocksSpec.v ===== *)
(** * The in-memory lock table keeps its accounts and splits with its region
    (components/raftstore/src/store/txn_ext.rs)

    Shown: the memory counter is the size of the locks in the table through
    inserts, removals and splits; a split gives every lock to the region that
    holds its key and loses none. *)
From stdpp Require Import sorting.
From S2P Require Import Prelude Number Bytes Timestamp Key Fields Lock OrderedMap PeerLocks.
Local Open Scope Z_scope.

Section Spec.
  Context (sz : Z).
  Implicit Types (m : gmap bytes (PessimisticLock * bool)) (p : PeerPessimisticLocks).

(** ** Memory *)

(** The memory of the locks in a table. *)
Definition mem m : Z := map_fold (fun k v acc => entry_size sz k v.1 + acc) 0 m.

Definition accounted_for p : Prop := ppl_memory_size p = wrap64 (mem (ppl_map p)).

Lemma mem_insert m k v : m !! k = None -> mem (<[k := v]> m) = entry_size sz k v.1 + mem m.
Proof using. intros H. unfold mem. rewrite map_fold_insert_L; [done|intros; lia|done]. Qed.

Lemma mem_delete m k v : m !! k = Some v -> mem m = entry_size sz k v.1 + mem (delete k m).
Proof using. intros H. unfold mem. rewrite (map_fold_delete_L _ _ k v); [done|intros; lia|done]. Qed.

Lemma mem_replace m k v v' : m !! k = Some v -> entry_size sz k v.1 = entry_size sz k v'.1 -> mem (<[k := v']> m) = mem m.
Proof using.
  intros H E. rewrite (mem_delete m k v H), E, <- (mem_insert (delete k m) k v') by apply lookup_delete_eq.
  by rewrite insert_delete_eq.
Qed.

(** A lock that is written again keeps its primary. *)
Definition overwrites_ok m (pairs : list (Key * PessimisticLock)) : Prop :=
  forall k l l' d, (k, l) ∈ pairs -> m !! k = Some (l', d) -> length (pl_primary l) = length (pl_primary l').

Lemma insert_mem pairs : NoDup pairs.*1 -> forall m0 m,
  (forall k, k ∈ pairs.*1 -> m !! k = m0 !! k) -> overwrites_ok m0 pairs ->
  wrap64 (mem (insert_pairs m pairs)) = wrap64 (mem m + insert_incr sz m0 pairs).
Proof using.
  induction pairs as [|[k l] pairs IH]; intros Hnd m0 m Heq Hok; cbn [insert_pairs insert_incr]; [f_equal; lia|].
  cbn in Hnd. apply NoDup_cons in Hnd as [Hk Hnd].
  assert (m !! k = m0 !! k) as Hmk by (apply Heq; left).
  rewrite (IH Hnd m0).
  - rewrite <- Hmk. destruct (m !! k) as [[l' d]|] eqn:E.
    + rewrite (mem_replace m k (l', d) (l, false)); [done|done|]. unfold entry_size, pl_memory_size. cbn.
      by rewrite (Hok k l l' d ltac:(left) (eq_sym Hmk)).
    + rewrite mem_insert by done. cbn. rewrite wrap64_add_r. f_equal. lia.
  - intros k' Hk'. rewrite lookup_insert_ne by (intros ->; done). apply Heq. by right.
  - intros k' l1 l2 d Hin. apply Hok. by right.
Qed.

(** What the callers do with a table: they insert a batch, remove a key or
    clear the table. *)
Inductive table_op : PeerPessimisticLocks * Z -> PeerPessimisticLocks * Z -> Prop :=
| op_insert p i pairs peer_limit instance_limit r :
    NoDup pairs.*1 -> overwrites_ok (ppl_map p) pairs ->
    ppl_insert sz p i pairs peer_limit instance_limit = Ok r -> table_op (p, i) r
| op_remove p i key : table_op (p, i) (ppl_remove sz p i key)
| op_clear p i : table_op (p, i) (ppl_clear p i).

Lemma as_i64_wrap u : wrap64 (as_i64 (wrap64 u)) = wrap64 u.
Proof using.
  unfold as_i64. destruct (_ <? _); [apply wrap64_small, wrap64_range|].
  unfold wrap64. rewrite Zminus_mod, Z_mod_same_full, Z.sub_0_r, !Z.mod_mod by lia. done.
Qed.

Lemma table_op_accounts x x' : table_op x x' -> accounted_for x.1 ->
  accounted_for x'.1 /\ wrap64 (x'.2 - mem (ppl_map x'.1)) = wrap64 (x.2 - mem (ppl_map x.1)).
Proof using.
  unfold accounted_for. intros [p i pairs pl il r Hnd Hok Hr|p i key|p i] Ha; cbn in *.
  - unfold ppl_insert in Hr. destruct (_ || _); [done|]. injection Hr as <-. cbn.
    pose proof (insert_mem pairs Hnd (ppl_map p) (ppl_map p) (fun _ _ => eq_refl) Hok) as Hm. split.
    + by rewrite Ha, wrap64_add_l, Hm.
    + rewrite <- (wrap64_sub_l (as_i64 _)), as_i64_wrap, wrap64_sub_l.
      rewrite <- wrap64_sub_r, Hm, wrap64_sub_r. f_equal. lia.
  - unfold ppl_remove. destruct (ppl_map p !! key) as [[lock d]|] eqn:E; [|done]. cbn.
    rewrite (mem_delete _ _ _ E) in Ha |- *. cbn in *. split.
    + rewrite Ha, wrap64_sub_l. f_equal. lia.
    + rewrite <- (wrap64_sub_l (as_i64 _)), as_i64_wrap, wrap64_sub_l. f_equal. lia.
  - split; [done|]. rewrite <- (wrap64_sub_l (as_i64 _)), as_i64_wrap, wrap64_sub_l, Ha.
    rewrite <- (wrap64_sub_l (i - _)), wrap64_sub_r, wrap64_sub_l. f_equal. change (mem ∅) with 0. lia.
Qed.

(** ** Splitting *)

(** Regions that follow one another. *)
Definition chained (regions : list Region) : Prop :=
  forall i r r', regions !! i = Some r -> regions !! S i = Some r' ->
    blt (region_start_key r) (region_end_key r) /\ region_end_key r = region_start_key r'.

Lemma chained_start regions i j r r' : chained regions -> (i < j)%nat -> regions !! i = Some r -> regions !! j = Some r' ->
  ble (region_end_key r) (region_start_key r') /\ blt (region_start_key r) (region_start_key r').
Proof using.
  intros Hc Hlt Hi. revert r'. induction j as [|j IH]; intros r' Hj; [lia|].
  destruct (decide (i = j)) as [<-|Hne].
  - destruct (Hc i r r' Hi Hj) as [H1 H2]. rewrite <- H2. split; [apply ble_alt; by right|done].
  - destruct (regions !! j) as [r1|] eqn:E.
    + destruct (IH ltac:(lia) r1 eq_refl) as [H1 H2]. destruct (Hc j r1 r' E Hj) as [H3 H4]. rewrite H4 in H3.
      split; [eapply blt_ble, ble_lt_trans; [exact H1|exact H3]|by eapply blt_trans].
    + apply lookup_ge_None in E. apply lookup_lt_Some in Hj. lia.
Qed.

(** In a list where exactly the first [n] satisfy a test, [n] do. *)
Lemma filter_prefix {A} (f : A -> bool) (l : list A) n :
  (n <= length l)%nat -> (forall i a, l !! i = Some a -> f a = (i <? n)%nat) -> length (List.filter f l) = n.
Proof using.
  revert n. induction l as [|a l IH]; intros n Hn H; cbn; [cbn in Hn; lia|].
  pose proof (H 0%nat a eq_refl) as Ha. destruct n as [|n].
  - rewrite Ha. cbn. apply IH; [lia|]. intros i b Hb. apply (H (S i) b Hb).
  - rewrite Ha. cbn. f_equal. apply IH; [cbn in Hn; lia|]. intros i b Hb. apply (H (S i) b Hb).
Qed.

Lemma in_region_spec r key : in_region r key = true <->
  ble (region_start_key r) key /\ (region_end_key r = [] \/ blt key (region_end_key r)).
Proof using.
  unfold in_region. rewrite negb_true_iff, orb_false_iff, andb_false_iff, negb_false_iff, bool_decide_eq_true, bltb_ge, bleb_gt.
  done.
Qed.

(** The search finds the region a key is in. *)
Lemma region_index_found regions i r key : chained regions -> regions !! i = Some r -> in_region r key = true ->
  region_index regions key = Some i.
Proof using.
  intros Hc Hi [Hs He]%in_region_spec. pose proof (lookup_lt_Some _ _ _ Hi) as Hlen.
  assert (forall j r', (i < j)%nat -> regions !! j = Some r' -> blt key (region_start_key r')) as Hafter.
  { intros j r' Hij Hj. destruct (chained_start regions i j r r' Hc Hij Hi Hj) as [H1 H2].
    destruct He as [He|He]; [|by eapply blt_le_trans]. exfalso.
    destruct (regions !! S i) as [r1|] eqn:E; [|apply lookup_ge_None in E; apply lookup_lt_Some in Hj; lia].
    destruct (Hc i r r1 Hi E) as [H3 _]. rewrite He in H3. by destruct (region_start_key r). }
  assert (forall j r', (j < i)%nat -> regions !! j = Some r' -> blt (region_start_key r') key) as Hbefore.
  { intros j r' Hij Hj. destruct (chained_start regions j i r' r Hc Hij Hj Hi) as [_ H2]. by eapply blt_le_trans. }
  unfold region_index, search_region. apply ble_alt in Hs as [Hs|Hs].
  - rewrite (filter_prefix _ _ (S i)); [|lia|].
    + destruct (regions !! S i) as [r1|] eqn:E; [|done]. rewrite bool_decide_eq_false_2; [done|]. intros Heq.
      pose proof (Hafter (S i) r1 ltac:(lia) E) as H. rewrite Heq in H. by apply blt_irrefl in H.
    + intros j r' Hj. destruct (Nat.ltb_spec j (S i)).
      * apply bltb_lt. destruct (decide (j = i)) as [->|]; [congruence|]. apply (Hbefore j r'); [lia|done].
      * apply bltb_ge, blt_ble, (Hafter j r'); [lia|done].
  - rewrite (filter_prefix _ _ i); [|lia|].
    + rewrite Hi. by rewrite bool_decide_eq_true_2.
    + intros j r' Hj. destruct (Nat.ltb_spec j i).
      * apply bltb_lt, (Hbefore j r'); done.
      * apply bltb_ge. destruct (decide (j = i)) as [->|]; [|apply blt_ble, (Hafter j r'); [lia|done]].
        apply ble_alt. right. congruence.
Qed.

(** The memory of a list of entries. *)
Definition esum (es : list (Key * (PessimisticLock * bool))) : Z := foldr (fun e acc => entry_size sz e.1 e.2.1 + acc) 0 es.

Lemma mem_entries m : mem m = esum (entries m).
Proof using.
  unfold mem, esum. rewrite map_fold_foldr.
  transitivity (foldr (fun e acc => entry_size sz e.1 e.2.1 + acc) 0 (map_to_list m)).
  - induction (map_to_list m) as [|[k v] l IH]; cbn; [done|]. by rewrite IH.
  - apply (foldr_permutation (=)); [solve_proper|intros; lia|]. unfold entries. symmetry. apply merge_sort_Permutation.
Qed.

Lemma mem_split (f : bytes -> bool) m :
  mem (filter (fun e => f e.1 = true) m) + mem (filter (fun e => f e.1 = false) m) = mem m.
Proof using.
  induction m as [|k v m Hk IH] using map_ind; [done|]. rewrite mem_insert by done.
  rewrite !map_filter_insert. cbn. destruct (f k) eqn:E.
  - rewrite decide_True, decide_False, mem_insert by (done || apply map_lookup_filter_None_2; by left).
    rewrite delete_id by done. lia.
  - rewrite decide_False, decide_True, mem_insert by (done || apply map_lookup_filter_None_2; by left).
    rewrite delete_id by done. lia.
Qed.

(** What the loop of the split has put into the tables. *)
Definition moved_to (regions : list Region) (es : list (Key * (PessimisticLock * bool)))
    (out out' : list PeerPessimisticLocks) : Prop :=
  length out' = length out /\
  forall i p p', out !! i = Some p -> out' !! i = Some p' -> accounted_for p' /\
    forall key, ppl_map p' !! key =
      match find (fun e => bool_decide (e.1 = key)) es with
      | Some (_, (lock, _)) => if decide (region_index regions key = Some i) then Some (lock, false) else ppl_map p !! key
      | None => ppl_map p !! key
      end.

Lemma find_key_none (es : list (Key * (PessimisticLock * bool))) key : key ∉ es.*1 -> find (fun e => bool_decide (e.1 = key)) es = None.
Proof using.
  induction es as [|e es IH]; [done|]. cbn. intros [Hne Hin]%not_elem_of_cons. rewrite bool_decide_eq_false_2 by congruence.
  by apply IH.
Qed.

Lemma move_lock_moves regions e ms out idx p : region_index regions e.1 = Some idx -> out !! idx = Some p ->
  exists out', move_lock sz regions (ms, out) e = Ok (wrap64 (ms - entry_size sz e.1 e.2.1), out') /\
    (Forall accounted_for out -> ppl_map p !! e.1 = None -> moved_to regions [e] out out').
Proof using.
  destruct e as [key [lock d]]. cbn. intros Hidx Hp. unfold move_lock. rewrite Hidx, Hp. eexists. split; [reflexivity|].
  intros Ha Hnone. split; [apply length_insert|]. intros i q q' Hq Hq'. rewrite Forall_forall in Ha.
  destruct (decide (i = idx)) as [->|Hne].
  - rewrite list_lookup_insert_eq in Hq' by (by eapply lookup_lt_Some). simplify_eq. cbn. split.
    + unfold accounted_for. cbn. rewrite (Ha p) by (by eapply list_elem_of_lookup_2). rewrite wrap64_add_l, mem_insert by done.
      cbn. f_equal. lia.
    + intros k. cbn. case_bool_decide as Hk; [subst; rewrite lookup_insert_eq, decide_True by done; done|].
      by rewrite lookup_insert_ne.
  - rewrite list_lookup_insert_ne in Hq' by done. simplify_eq. split; [apply Ha; by eapply list_elem_of_lookup_2|].
    intros k. cbn. case_bool_decide as Hk; [|done]. subst. rewrite decide_False by congruence. done.
Qed.

Lemma move_locks_move regions es : NoDup es.*1 ->
  (forall e, e ∈ es -> exists idx, region_index regions e.1 = Some idx /\ (idx < length regions)%nat) ->
  forall ms out, is_u64 ms -> length out = length regions -> Forall accounted_for out ->
  (forall p e, p ∈ out -> e ∈ es -> ppl_map p !! e.1 = None) ->
  exists out', move_locks sz regions (ms, out) es = Ok (wrap64 (ms - esum es), out') /\ moved_to regions es out out'.
Proof using.
  induction es as [|e es IH]; intros Hnd Hidx ms out Hms Hlen Ha Hnone; cbn [move_locks].
  { exists out. cbn. rewrite Z.sub_0_r, wrap64_small by done. split; [done|]. split; [done|]. intros i p p' Hp Hp'. simplify_eq.
    rewrite Forall_forall in Ha. split; [apply Ha; by eapply list_elem_of_lookup_2|done]. }
  cbn in Hnd. apply NoDup_cons in Hnd as [Hnin Hnd]. destruct (Hidx e ltac:(left)) as (idx & Hi & Hlt).
  destruct (lookup_lt_is_Some_2 out idx ltac:(lia)) as [p Hp].
  destruct (move_lock_moves regions e ms out idx p Hi Hp) as (out1 & Hm1 & Hmv).
  destruct (Hmv Ha (Hnone p e ltac:(by eapply list_elem_of_lookup_2) ltac:(left))) as [Hlen1 Hout1].
  assert (forall i q1, out1 !! i = Some q1 -> exists q, out !! i = Some q) as Hback.
  { intros i q1 H1. apply lookup_lt_is_Some_2. rewrite <- Hlen1. by eapply lookup_lt_Some. }
  destruct (IH Hnd (fun e' He' => Hidx e' ltac:(by right)) (wrap64 (ms - entry_size sz e.1 e.2.1)) out1) as (out' & Hm & Hlen' & Hout').
  - apply wrap64_range.
  - lia.
  - apply Forall_lookup. intros i q1 H1. destruct (Hback i q1 H1) as [q Hq]. apply (Hout1 i q q1 Hq H1).
  - intros q1 e' [i Hq1]%list_elem_of_lookup He'. destruct (Hback i q1 Hq1) as [q Hq].
    destruct (Hout1 i q q1 Hq Hq1) as [_ ->]. rewrite find_key_none.
    + apply Hnone; [by eapply list_elem_of_lookup_2|by right].
    + cbn. rewrite list_elem_of_singleton. intros E. apply Hnin. rewrite <- E. by apply list_elem_of_fmap_2.
  - exists out'. cbn [mbind res_bind] in *. unfold mbind, res_bind. rewrite Hm1, Hm. split.
    { rewrite wrap64_sub_l. cbn [esum foldr]. fold (esum es). by rewrite Z.sub_add_distr. }
    split; [lia|]. intros i q q' Hq Hq'.
    destruct (lookup_lt_is_Some_2 out1 i) as [q1 Hq1]; [rewrite Hlen1; by eapply lookup_lt_Some|].
    destruct (Hout1 i q q1 Hq Hq1) as [_ H1]. destruct (Hout' i q1 q' Hq1 Hq') as [Hacc H2]. split; [done|].
    intros key. rewrite H2, H1. destruct e as [k [lock d]]. cbn. case_bool_decide as Hk; [|done].
    subst. by rewrite find_key_none.
Qed.

Lemma find_entry m key : find (fun e => bool_decide (e.1 = key)) (entries m) = (fun v => (key, v)) <$> m !! key.
Proof using.
  destruct (m !! key) as [v|] eqn:E; cbn.
  - destruct (find _ _) as [[k w]|] eqn:F.
    + apply find_some in F as [Hin Hk]. cbn in Hk. apply bool_decide_eq_true in Hk as ->.
      apply list_elem_of_In, elem_of_entries in Hin. congruence.
    + apply elem_of_entries, list_elem_of_In in E. apply (find_none _ _ F) in E. cbn in E. by rewrite bool_decide_eq_true_2 in E.
  - apply find_key_none. intros ([k v] & -> & Hin)%list_elem_of_fmap. apply elem_of_entries in Hin. cbn in *. congruence.
Qed.

(** Every region of [out] gets its part of the locks that are moved. *)
Lemma moved_parts regions m out i r p :
  chained regions -> (forall key v, m !! key = Some v -> exists r, r ∈ regions /\ in_region r key = true) ->
  moved_to regions (entries m) (map (fun _ => ppl_default) regions) out -> regions !! i = Some r -> out !! i = Some p ->
  accounted_for p /\ forall key, ppl_map p !! key = if in_region r key then (fun v => (v.1, false)) <$> m !! key else None.
Proof using.
  intros Hc Hcov [Hlen Hout] Hr Hp.
  destruct (Hout i ppl_default p) as [Ha Hk]; [by rewrite list_lookup_fmap, Hr|done|]. split; [done|].
  intros key. rewrite Hk, find_entry. destruct (m !! key) as [[l d]|] eqn:E; cbn; [|rewrite lookup_empty; by destruct (in_region r key)].
  destruct (in_region r key) eqn:Hin; [by rewrite decide_True by (by eapply region_index_found)|].
  destruct (Hcov key _ E) as (r' & [j Hj]%list_elem_of_lookup & Hin').
  rewrite (region_index_found regions j r' key Hc Hj Hin'), decide_False; [apply lookup_empty|]. intros [= ->]. congruence.
Qed.
End Spec.

(** The memory counter of a lock table is, through every sequence of
    inserts of distinct keys, removals and clears, the memory of the locks in
    the table, the instance-wide counter changes by the same amounts, and an
    insert that succeeds leaves the table within its limit. *)
Theorem table_memory_accounted sz i0 p i :
  rtc (table_op sz) (ppl_default, i0) (p, i) ->
  ppl_memory_size p = wrap64 (mem sz (ppl_map p)) /\ wrap64 (i - mem sz (ppl_map p)) = wrap64 i0 /\
  forall pairs limit instance_limit p' i',
    ppl_insert sz p i pairs limit instance_limit = Ok (p', i') -> ppl_memory_size p' <= limit.
Proof.
  intros H. assert (forall x x', rtc (table_op sz) x x' -> accounted_for sz x.1 ->
    accounted_for sz x'.1 /\ wrap64 (x'.2 - mem sz (ppl_map x'.1)) = wrap64 (x.2 - mem sz (ppl_map x.1))) as Hall.
  { clear. induction 1 as [|x y z Hs _ IH]; [done|]. intros Ha. destruct (table_op_accounts sz _ _ Hs Ha) as [Hy Hi].
    destruct (IH Hy) as [Hz Hi']. split; [done|congruence]. }
  destruct (Hall _ _ H eq_refl) as [Ha Hi]. cbn in Hi. rewrite Z.sub_0_r in Hi. split; [exact Ha|]. split; [exact Hi|].
  intros pairs limit il p' i' Hins. unfold ppl_insert in Hins.
  destruct (Z.ltb_spec limit (wrap64 (ppl_memory_size p + insert_incr sz (ppl_map p) pairs))); [done|].
  cbn in Hins. destruct (_ <? _) in Hins; [done|]. by injection Hins as <- _.
Qed.

(** C36: A split loses no lock and gives none to the wrong region: the locks of
    the derived region stay as they are, every other lock goes to the region
    of [regions] that holds its key with its deleted mark cleared, and the
    memory counters of all tables are right. The call does not panic. *)
Theorem split_moves_every_lock sz p regions derived :
  chained regions -> accounted_for sz p ->
  (forall key v, ppl_map p !! key = Some v -> in_region derived key = false -> exists r, r ∈ regions /\ in_region r key = true) ->
  exists p' out, group_by_regions sz p regions derived = Ok (p', out) /\ length out = length regions /\ accounted_for sz p' /\
    (forall key, ppl_map p' !! key = if in_region derived key then ppl_map p !! key else None) /\
    forall i r q, regions !! i = Some r -> out !! i = Some q -> accounted_for sz q /\
      forall key, ppl_map q !! key =
        if in_region r key && negb (in_region derived key) then (fun v => (v.1, false)) <$> ppl_map p !! key else None.
Proof.
  intros Hc Ha Hcov. set (removed := filter (fun e => in_region derived e.1 = false) (ppl_map p)).
  assert (forall key, removed !! key = if in_region derived key then None else ppl_map p !! key) as Hrem.
  { intros key. unfold removed. destruct (in_region derived key) eqn:E.
    - apply map_lookup_filter_None_2. right. intros v _. cbn. congruence.
    - destruct (ppl_map p !! key) as [v|] eqn:F; [by apply map_lookup_filter_Some_2|by apply map_lookup_filter_None_2; left]. }
  assert (forall key v, removed !! key = Some v -> exists r, r ∈ regions /\ in_region r key = true) as Hcov'.
  { intros key v Hkv. rewrite Hrem in Hkv. destruct (in_region derived key) eqn:E; [done|]. by eapply Hcov. }
  destruct (move_locks_move sz regions (entries removed) (entries_nodup _)) with (ms := ppl_memory_size p) (out := map (fun _ : Region => ppl_default) regions)
    as (out & Hm & Hmoved).
  - intros [key v] Hin%elem_of_entries. destruct (Hcov' key v Hin) as (r & [i Hi]%list_elem_of_lookup & Hr). exists i. cbn.
    split; [by eapply region_index_found|by eapply lookup_lt_Some].
  - rewrite Ha. apply wrap64_range.
  - apply length_map.
  - apply Forall_forall. intros q (r & -> & _)%list_elem_of_fmap. done.
  - intros q e (r & -> & _)%list_elem_of_fmap _. apply lookup_empty.
  - eexists _, out. split; [unfold group_by_regions; fold removed; unfold mbind, res_bind; rewrite Hm; reflexivity|].
    split; [destruct Hmoved as [-> _]; apply length_map|]. split.
    { unfold accounted_for. cbn. rewrite Ha, wrap64_sub_l, <- mem_entries, <- (mem_split sz (in_region derived) (ppl_map p)).
      f_equal. unfold removed. lia. }
    split.
    + intros key. cbn. destruct (in_region derived key) eqn:E.
      * destruct (ppl_map p !! key) as [v|] eqn:F; [by apply map_lookup_filter_Some_2|by apply map_lookup_filter_None_2; left].
      * apply map_lookup_filter_None_2. right. intros v _. cbn. congruence.
    + intros i r q Hr Hq. destruct (moved_parts sz regions removed out i r q Hc Hcov' Hmoved Hr Hq) as [Hacc Hmap].
      split; [done|]. intros key. rewrite Hmap, Hrem. by destruct (in_region r key), (in_region derived key).
Qed.

(** ** Samples *)

Definition sample_lock (primary : bytes) : PessimisticLock :=
  mk_pessimistic_lock primary 5 3000 6 7 LCUnknown false.

Definition ka : bytes := [Byte.x61].
Definition kb : bytes := [Byte.x62].

Definition sample_table : PeerPessimisticLocks :=
  match ppl_insert 88 ppl_default 0 [(ka, sample_lock ka); (kb, sample_lock ka)] 1000 1000 with Ok (p, _) => p | _ => ppl_default end.

Lemma sample_op : rtc (table_op 88) (ppl_default, 0) (sample_table, 180).
Proof.
  apply rtc_once. apply (op_insert 88 ppl_default 0 [(ka, sample_lock ka); (kb, sample_lock ka)] 1000 1000).
  - apply (bool_decide_unpack _). vm_compute. exact I.
  - intros k l l' d _ H. cbn in H. by rewrite lookup_empty in H.
  - vm_compute. reflexivity.
Qed.

Lemma table_memory_accounted_witness :
  ppl_memory_size sample_table = 180 /\ ppl_memory_size sample_table = wrap64 (mem 88 (ppl_map sample_table)).
Proof. split; [vm_compute; reflexivity|]. exact (proj1 (table_memory_accounted 88 0 sample_table 180 sample_op)). Defined.

(** A region split at [kb]; the part below is the derived one. *)
Definition left_region : Region := mk_region [] kb.
Definition right_region : Region := mk_region kb [].

Lemma split_moves_every_lock_witness :
  exists p' out, group_by_regions 88 sample_table [left_region; right_region] left_region = Ok (p', out) /\
    ppl_map p' !! ka = Some (sample_lock ka, false) /\ ppl_map p' !! kb = None.
Proof.
  destruct (split_moves_every_lock 88 sample_table [left_region; right_region] left_region) as (p' & out & H & _ & _ & Hk & _).
  - intros [|[|i]] r r' Hr Hr'; cbn in *; simplify_eq. split; [vm_compute; reflexivity|reflexivity].
  - vm_compute. reflexivity.
  - intros key v _ Hin. exists right_region. split; [right; left|]. apply in_region_spec. split; [|by left].
    apply not_true_iff_false in Hin. rewrite in_region_spec in Hin. apply not_blt. intros Hlt. apply Hin. split; [|by right].
    by destruct key.
  - exists p', out. split; [exact H|]. rewrite !Hk. split; vm_compute; reflexivity.
Defined.

(** A batch that names a new key twice is counted twice. *)
Example insert_counts_duplicates :
  exists p, ppl_insert 88 ppl_default 0 [(ka, sample_lock ka); (ka, sample_lock ka)] 1000 1000 = Ok (p, 180) /\
    ppl_memory_size p = 180 /\ mem 88 (ppl_map p) = 90.
Proof. eexists. split; [vm_compute; reflexivity|]. split; vm_compute; reflexivity. Qed.
