(* ===== verification/Engine.v ===== *)
(** * The storage engine under the transaction layer
    (components/tikv_kv/src/lib.rs, components/tikv_kv/src/btree_engine.rs)

    Three column families, the modifications a command produces, and their
    application. The engine is the in-memory [BTreeEngine]; a snapshot is its
    contents together with the in-memory pessimistic locks of the region. *)
From S2P Require Import Prelude Number Bytes Timestamp Key Fields Lock Write OrderedMap PeerLocks.

Inductive CfName := CF_DEFAULT | CF_LOCK | CF_WRITE.

#[export] Instance CfName_eq_dec : EqDecision CfName.
Proof. solve_decision. Defined.

Abbreviation cf := (gmap bytes bytes).

Record Engine := mk_engine { cf_default : cf; cf_lock : cf; cf_write : cf }.

Definition engine_get_cf (e : Engine) (c : CfName) : cf :=
  match c with CF_DEFAULT => cf_default e | CF_LOCK => cf_lock e | CF_WRITE => cf_write e end.

Definition engine_set_cf (e : Engine) (c : CfName) (m : cf) : Engine :=
  match c with
  | CF_DEFAULT => mk_engine m (cf_lock e) (cf_write e)
  | CF_LOCK => mk_engine (cf_default e) m (cf_write e)
  | CF_WRITE => mk_engine (cf_default e) (cf_lock e) m
  end.

(** The errors of an engine the transaction layer passes on. *)
Inductive kv_error := EmptyRequest | StaleCommand | EpochNotMatch | FlashbackInProgress.

(** [ModifyDeleteRange] and [ModifyIngest] do not come from transactions. *)
Inductive Modify :=
| ModifyDelete (c : CfName) (key : Key)
| ModifyPut (c : CfName) (key : Key) (value : Value)
| ModifyPessimisticLock (key : Key) (lock : PessimisticLock)
| ModifyDeleteRange (c : CfName) (start end_ : Key) (notify_only : bool)
| ModifyIngest.

Definition modify_key {E} (m : Modify) : res E Key :=
  match m with
  | ModifyDelete _ k => Ok k
  | ModifyPut _ k _ => Ok k
  | ModifyPessimisticLock k _ => Ok k
  | _ => Panic
  end.

Definition write_modify {E} (e : Engine) (rev : Modify) : res E Engine :=
  match rev with
  | ModifyDelete c k => Ok (engine_set_cf e c (delete k (engine_get_cf e c)))
  | ModifyPut c k v => Ok (engine_set_cf e c (<[k := v]> (engine_get_cf e c)))
  | ModifyPessimisticLock k lock =>
      let v := lock_to_bytes (pl_to_lock lock) in
      Ok (engine_set_cf e CF_LOCK (<[k := v]> (engine_get_cf e CF_LOCK)))
  | ModifyDeleteRange _ _ _ _ | ModifyIngest => Panic
  end.

Fixpoint write_modifies {E} (e : Engine) (modifies : list Modify) : res E Engine :=
  match modifies with
  | [] => Ok e
  | rev :: modifies => e ← write_modify e rev; write_modifies e modifies
  end.

Definition async_write (e : Engine) (modifies : list Modify) : res kv_error Engine :=
  if bool_decide (length modifies = O) then Err EmptyRequest else write_modifies e modifies.

(** A snapshot with the transaction extensions of the region's peer. *)
Record Snapshot := mk_snapshot {
  snap_engine : Engine;
  snap_txn_ext : option PeerPessimisticLocks
}.

Definition snap_get_cf (s : Snapshot) (c : CfName) (key : Key) : option Value :=
  engine_get_cf (snap_engine s) c !! key.

(** ** Lemmas *)

Lemma write_modifies_app {E} (e : Engine) (a b : list Modify) :
  write_modifies (E := E) e (a ++ b) = (e' ← write_modifies e a; write_modifies e' b).
Proof.
  revert e; induction a as [|x a IH]; intros e; [done|]. cbn [app write_modifies].
  destruct (write_modify e x); cbn [mbind res_bind]; [apply IH|done..].
Qed.

(** Modifications of the kinds transactions produce. *)
Definition txn_modify (m : Modify) : bool :=
  match m with ModifyDelete _ _ | ModifyPut _ _ _ | ModifyPessimisticLock _ _ => true | _ => false end.

Lemma write_modifies_total {E} (e : Engine) (ms : list Modify) :
  forallb txn_modify ms = true -> exists e', write_modifies (E := E) e ms = Ok e'.
Proof.
  revert e; induction ms as [|m ms IH]; intros e H; [by exists e|].
  cbn [forallb] in H. apply andb_true_iff in H as [Hm H]. cbn [write_modifies].
  by destruct m; try done; apply IH.
Qed.
