(* ===== verification/ConcurrencyManager.v ===== *)
(** * The concurrency manager
    (components/concurrency_manager/src/{lib,lock_table,key_handle}.rs)

    Two pieces of state shared by every request of a store: [max_ts], an upper
    bound of the timestamps reads were served at, and the in-memory lock
    table, which makes the locks of an async-commit prewrite visible before
    they reach the engine. Each operation is atomic here, as the atomic
    integers, the skip map and the per-key mutex make it in the code; threads
    interleave operations. *)
From S2P Require Import Prelude Number Bytes Timestamp Key Fields Lock OrderedMap.

Inductive ActionOnInvalidMaxTs := ActPanic | ActError | ActLog.

Record InvalidMaxTsUpdate := mk_invalid_max_ts { attempted_ts : TimeStamp; max_ts_limit : TimeStamp }.

(** Instants and durations are nanoseconds. A key is in the lock table while
    a guard of its handle is alive; the value is the content of its store. *)
Record ConcurrencyManager := mk_cm {
  cm_max_ts : TimeStamp;
  cm_lock_table : gmap bytes (option Lock);
  cm_limit : TimeStamp;
  cm_limit_update_time : Z;
  cm_limit_valid_duration : Z;
  cm_action : ActionOnInvalidMaxTs;
  cm_drift_allowance_ms : Z
}.

(** What the manager asks of its surroundings: the monotonic clock, and the
    answer of the timestamp oracle ([None] without an oracle, [Some None] when
    it fails or times out). *)
Record CmEnv := mk_env { env_now : Z; env_tso : option (option TimeStamp) }.

Definition cm_new_with_config (latest_ts : TimeStamp) (now limit_valid_duration : Z)
    (action : ActionOnInvalidMaxTs) (drift_ms : Z) : ConcurrencyManager :=
  mk_cm latest_ts ∅ 0 now limit_valid_duration action drift_ms.

Definition cm_with_max_ts (cm : ConcurrencyManager) (ts : TimeStamp) : ConcurrencyManager :=
  mk_cm ts (cm_lock_table cm) (cm_limit cm) (cm_limit_update_time cm)
    (cm_limit_valid_duration cm) (cm_action cm) (cm_drift_allowance_ms cm).

Definition cm_with_limit (cm : ConcurrencyManager) (limit : TimeStamp) (now : Z) : ConcurrencyManager :=
  mk_cm (cm_max_ts cm) (cm_lock_table cm) limit now
    (cm_limit_valid_duration cm) (cm_action cm) (cm_drift_allowance_ms cm).

Definition cm_with_table (cm : ConcurrencyManager) (t : gmap bytes (option Lock)) : ConcurrencyManager :=
  mk_cm (cm_max_ts cm) t (cm_limit cm) (cm_limit_update_time cm)
    (cm_limit_valid_duration cm) (cm_action cm) (cm_drift_allowance_ms cm).

(** ** [max_ts] *)

Definition set_max_ts_limit (env : CmEnv) (cm : ConcurrencyManager) (ts_from_tso : TimeStamp) :
    ConcurrencyManager :=
  if ts_is_max ts_from_tso then cm
  else
    let limit := ts_compose (wrap64 (ts_physical ts_from_tso + cm_drift_allowance_ms cm))
                            (ts_logical ts_from_tso) in
    if limit <=? cm_limit cm then cm else cm_with_limit cm limit (env_now env).

Definition report_error (cm : ConcurrencyManager) (new_ts limit : TimeStamp) (tso_confirmed : bool) :
    res InvalidMaxTsUpdate unit :=
  match cm_action cm, tso_confirmed with
  | ActPanic, true => Panic
  | ActError, true => Err (mk_invalid_max_ts new_ts limit)
  | _, _ => Ok tt
  end.

Definition double_check (env : CmEnv) (cm : ConcurrencyManager) (new_ts : TimeStamp) :
    res InvalidMaxTsUpdate unit * ConcurrencyManager :=
  let '(tso_confirmed, cm) :=
    match env_tso env with
    | Some (Some ts) => (true, set_max_ts_limit env cm ts)
    | _ => (false, cm)
    end in
  if cm_limit cm <? new_ts then (report_error cm new_ts (cm_limit cm) tso_confirmed, cm)
  else (Ok tt, cm).

(** Whether [new_ts] exceeds the limit, or, when the limit is stale, the
    limit advanced by the time since its update. *)
Definition exceeds_limit (env : CmEnv) (cm : ConcurrencyManager) (new_ts : TimeStamp) : bool :=
  if negb (ts_is_zero (cm_limit cm)) && (cm_limit cm <? new_ts) then
    let elapsed := Z.max 0 (env_now env - cm_limit_update_time cm) in
    if elapsed <? cm_limit_valid_duration cm then true
    else
      let approximate_limit :=
        ts_compose (wrap64 (ts_physical (cm_limit cm) + wrap64 (elapsed / 1000000)))
                   (ts_logical (cm_limit cm)) in
      approximate_limit <? new_ts
  else false.

Definition update_max_ts (env : CmEnv) (cm : ConcurrencyManager) (new_ts : TimeStamp) :
    res InvalidMaxTsUpdate unit * ConcurrencyManager :=
  if ts_is_max new_ts then (Ok tt, cm)
  else
    let '(r, cm) :=
      if exceeds_limit env cm new_ts then double_check env cm new_ts else (Ok tt, cm) in
    match r with
    | Ok _ => (Ok tt, cm_with_max_ts cm (Z.max (cm_max_ts cm) new_ts))
    | _ => (r, cm)
    end.

(** ** The lock table *)

(** [lock_key]: waits while another guard of the key is alive; [None] is the
    wait. *)
Definition cm_lock_key (cm : ConcurrencyManager) (key : Key) : option ConcurrencyManager :=
  match cm_lock_table cm !! key with
  | Some _ => None
  | None => Some (cm_with_table cm (<[key := None]> (cm_lock_table cm)))
  end.

(** [KeyHandleGuard::with_lock], as the writers use it. *)
Definition guard_set_lock (cm : ConcurrencyManager) (key : Key) (l : option Lock) : ConcurrencyManager :=
  cm_with_table cm (<[key := l]> (cm_lock_table cm)).

(** Dropping a guard clears the store and, with the last reference to the
    handle, removes the key. *)
Definition guard_drop (cm : ConcurrencyManager) (key : Key) : ConcurrencyManager :=
  cm_with_table cm (delete key (cm_lock_table cm)).

Section Check.
  Context {E : Type}.

Definition read_key_check (cm : ConcurrencyManager) (key : Key) (check_fn : Lock -> res E unit) :
    res E unit :=
  match cm_lock_table cm !! key with
  | Some (Some lock) => check_fn lock
  | _ => Ok tt
  end.

Fixpoint check_entries (check_fn : Key -> Lock -> res E unit) (es : list (bytes * option Lock)) :
    res E unit :=
  match es with
  | [] => Ok tt
  | (key, Some lock) :: es => match check_fn key lock with Ok _ => check_entries check_fn es | r => r end
  | (_, None) :: es => check_entries check_fn es
  end.

Definition key_in_range (start_key end_key : option Key) (key : Key) : bool :=
  match start_key with Some s => bleb s key | None => true end
  && match end_key with Some e => bltb key e | None => true end.

Definition read_range_check (cm : ConcurrencyManager) (start_key end_key : option Key)
    (check_fn : Key -> Lock -> res E unit) : res E unit :=
  check_entries check_fn
    (List.filter (fun e => key_in_range start_key end_key e.1) (entries (cm_lock_table cm))).
End Check.

Fixpoint min_lock_loop (es : list (bytes * option Lock)) (acc : option (TimeStamp * Key)) :
    option (TimeStamp * Key) :=
  match es with
  | [] => acc
  | (_, None) :: es => min_lock_loop es acc
  | (key, Some lock) :: es =>
      let curr_ts := lock_ts lock in
      min_lock_loop es
        (match acc with
         | Some (ts, _) => if curr_ts <? ts then Some (curr_ts, key) else acc
         | None => Some (curr_ts, key)
         end)
  end.

Definition global_min_lock (cm : ConcurrencyManager) : option (TimeStamp * Key) :=
  min_lock_loop (entries (cm_lock_table cm)) None.

Definition global_min_lock_ts (cm : ConcurrencyManager) : option TimeStamp :=
  fst <$> global_min_lock cm.

(** ** Lemmas *)

Lemma set_max_ts_limit_max env cm ts : cm_max_ts (set_max_ts_limit env cm ts) = cm_max_ts cm.
Proof. unfold set_max_ts_limit. by repeat case_match. Qed.

Lemma double_check_max env cm ts : cm_max_ts (double_check env cm ts).2 = cm_max_ts cm.
Proof.
  unfold double_check. destruct (env_tso env) as [[t|]|]; case_match; cbn [snd]; auto using set_max_ts_limit_max.
Qed.

Lemma update_max_ts_monotone env cm ts : cm_max_ts cm <= cm_max_ts (update_max_ts env cm ts).2.
Proof.
  unfold update_max_ts. case_match; [cbn; lia|].
  pose proof (double_check_max env cm ts) as Hm.
  destruct (exceeds_limit env cm ts); cbn.
  - destruct (double_check env cm ts) as [[| |] cm'] eqn:E; cbn in *; lia.
  - lia.
Qed.

Lemma update_max_ts_covers env cm ts :
  (update_max_ts env cm ts).1 = Ok tt -> ts_is_max ts = false ->
  ts <= cm_max_ts (update_max_ts env cm ts).2.
Proof.
  unfold update_max_ts. intros H E. rewrite E in *. revert H.
  destruct (if exceeds_limit env cm ts then _ else _) as [[| |] cm']; cbn; intros H; try discriminate H; lia.
Qed.

Lemma check_entries_ok {E} (f : Key -> Lock -> res E unit) es :
  check_entries f es = Ok tt <-> forall k l, (k, Some l) ∈ es -> f k l = Ok tt.
Proof.
  induction es as [|[k [l|]] es IH]; cbn [check_entries].
  - split; [|done]. intros _ k l Hin. by apply elem_of_nil in Hin.
  - destruct (f k l) as [[]| |] eqn:Ef.
    + rewrite IH. split; [|intros H k' l' Hin; apply H; by apply list_elem_of_further].
      intros H k' l' Hin. apply elem_of_cons in Hin as [[= -> ->]|Hin]; auto.
    + split; [done|]. intros H. rewrite <- Ef. apply H, list_elem_of_here.
    + split; [done|]. intros H. rewrite <- Ef. apply H, list_elem_of_here.
  - rewrite IH. split; intros H k' l' Hin.
    + apply elem_of_cons in Hin as [|Hin]; [done|auto].
    + apply H. by apply list_elem_of_further.
Qed.

Lemma elem_of_filter_b {A} (p : A -> bool) x l : x ∈ List.filter p l <-> x ∈ l /\ p x = true.
Proof. rewrite !list_elem_of_In. apply filter_In. Qed.

Lemma read_range_check_ok {E} cm s e (f : Key -> Lock -> res E unit) :
  read_range_check cm s e f = Ok tt <->
  forall k l, cm_lock_table cm !! k = Some (Some l) -> key_in_range s e k = true -> f k l = Ok tt.
Proof.
  unfold read_range_check. rewrite check_entries_ok. setoid_rewrite elem_of_filter_b.
  setoid_rewrite elem_of_entries. naive_solver.
Qed.
