(* ===== verification/Reader.v ===== *)
(** * The MVCC reader
    (src/storage/mvcc/mod.rs, src/storage/mvcc/reader/{mod,reader}.rs)

    Reads of one snapshot: the lock of a key, the versions of a key in the
    write column family, the value a version points to, and the scans that
    commands use. The cursors [MvccReader] keeps are caches of iterator
    positions; a seek of a cursor returns what the seek on the column family
    returns (Cursor.v), so the reader is a function of the snapshot. *)
From S2P Require Import Prelude Number Bytes Timestamp Key Fields Lock Write OrderedMap PeerLocks Engine.
From S2P Require Import ConcurrencyManager.

(** ** Errors *)

Inductive PessimisticLockNotFoundReason :=
| LockTsMismatch
| LockMissingAmendFail
| LockForUpdateTsMismatch
| NonLockKeyConflict.

(** [ErrorInner]; the [mvcc_info] some variants carry for diagnosis is filled
    in later by the command and is left out. *)
Inductive mvcc_error :=
| MKv (e : kv_error)
| MIo (e : io_error_kind)
| MCodec (e : codec_error)
| MKeyIsLocked (info : LockInfo)
| MBadFormat (e : txn_error)
| MCommitted (start_ts commit_ts : TimeStamp) (key : bytes)
| MPessimisticLockRolledBack (start_ts : TimeStamp) (key : bytes)
| MTxnLockNotFound (start_ts commit_ts : TimeStamp) (key : bytes)
| MTxnNotFound (start_ts : TimeStamp) (key : bytes)
| MLockTypeNotMatch (start_ts : TimeStamp) (key : bytes) (pessimistic : bool)
| MWriteConflict (start_ts conflict_start_ts conflict_commit_ts : TimeStamp) (key primary : bytes)
    (reason : WriteConflictReason)
| MAlreadyExist (key : bytes) (existing_start_ts : TimeStamp)
| MDefaultNotFound (key : bytes)
| MCommitTsExpired (start_ts commit_ts : TimeStamp) (key : bytes) (min_commit_ts : TimeStamp)
| MPessimisticLockNotFound (start_ts : TimeStamp) (key : bytes) (reason : PessimisticLockNotFoundReason)
| MCommitTsTooLarge (start_ts min_commit_ts max_commit_ts : TimeStamp)
| MAssertionFailed (start_ts : TimeStamp) (key : bytes) (assertion : Assertion)
    (existing_start_ts existing_commit_ts : TimeStamp)
| MLockIfExistsFailed (start_ts : TimeStamp) (key : bytes)
| MPrimaryMismatch (info : LockInfo)
| MGenerationOutOfOrder (generation : Z) (key : Key) (lock : Lock)
| MInvalidMaxTsUpdate (e : InvalidMaxTsUpdate)
| MOther.

Definition mvcc_error_from_txn (e : txn_error) : mvcc_error :=
  match e with
  | TIo e => MIo e
  | TCodec e => MCodec e
  | BadFormatLock | BadFormatWrite => MBadFormat e
  | TKeyIsLocked info => MKeyIsLocked info
  | TWriteConflict s cs cc k p r => MWriteConflict s cs cc k p r
  end.

Abbreviation mres := (res mvcc_error).

(** ** The reader *)

Definition SEEK_BOUND : Z := 8.

Record Reader := mk_reader {
  rd_snapshot : Snapshot;
  rd_start_ts : TimeStamp;
  rd_term : Z;
  rd_version : Z;
  rd_allow_in_flashback : bool
}.

Record OverlappedWrite := mk_overlapped { ow_write : Write; ow_gc_fence : TimeStamp }.

Inductive TxnCommitRecord :=
| TCRNone (overlapped_write : option OverlappedWrite)
| TCRSingleRecord (commit_ts : TimeStamp) (write : Write)
| TCROverlappedRollback (commit_ts : TimeStamp).

Definition tcr_exist (r : TxnCommitRecord) : bool :=
  match r with TCRNone _ => false | _ => true end.

Definition tcr_info (r : TxnCommitRecord) : option (TimeStamp * WriteType) :=
  match r with
  | TCRNone _ => None
  | TCRSingleRecord commit_ts write => Some (commit_ts, write_type write)
  | TCROverlappedRollback commit_ts => Some (commit_ts, WTRollback)
  end.

Definition tcr_unwrap_none (r : TxnCommitRecord) : mres (option OverlappedWrite) :=
  match r with TCRNone o => Ok o | _ => Panic end.

Section Reader.
  Context (rd : Reader).

Definition rd_cf (c : CfName) : cf := engine_get_cf (snap_engine (rd_snapshot rd)) c.

Definition get_value (key : Key) (start_ts : TimeStamp) : mres (option Value) :=
  Ok (rd_cf CF_DEFAULT !! append_ts key start_ts).

Definition load_data (key : Key) (write : Write) : mres Value :=
  rassert (bool_decide (write_type write = WTPut))
    (match write_short_value write with
     | Some val => Ok val
     | None =>
         v ← get_value key (write_start_ts write);
         match v with
         | Some val => Ok val
         | None => Err (MDefaultNotFound (append_ts key (write_start_ts write)))
         end
     end).

Definition check_term_version_status (locks : PeerPessimisticLocks) : mres unit :=
  if negb (rd_term rd =? 0) && negb (ppl_term locks =? rd_term rd) then Err (MKv StaleCommand)
  else if negb (rd_version rd =? 0) && negb (ppl_version locks =? rd_version rd)
  then Err (MKv EpochNotMatch)
  else if bool_decide (ppl_status locks = IsInFlashback) && negb (rd_allow_in_flashback rd)
  then Err (MKv FlashbackInProgress)
  else Ok tt.

Definition load_in_memory_pessimistic_lock (key : Key) : mres (option Lock) :=
  match snap_txn_ext (rd_snapshot rd) with
  | Some locks =>
      _ ← check_term_version_status locks;
      Ok ((fun '(lock, _) => pl_to_lock lock) <$> ppl_get locks key)
  | None => Ok None
  end.

Definition load_lock (key : Key) : mres (option Lock) :=
  in_memory ← load_in_memory_pessimistic_lock key;
  match in_memory with
  | Some lock => Ok (Some lock)
  | None =>
      match rd_cf CF_LOCK !! key with
      | Some v => lock ← map_err mvcc_error_from_txn (lock_parse v); Ok (Some lock)
      | None => Ok None
      end
  end.

Definition seek_write (key : Key) (ts : TimeStamp) : mres (option (TimeStamp * Write)) :=
  match seek_ge (rd_cf CF_WRITE) (append_ts key ts) with
  | None => Ok None
  | Some (write_key, value) =>
      commit_ts ← map_err MCodec (decode_ts_from write_key);
      if negb (is_user_key_eq write_key key) then Ok None
      else
        write ← map_err mvcc_error_from_txn (write_parse value);
        Ok (Some (commit_ts, write))
  end.

(** The loop of [get_write_with_commit_ts]. Every round but the last moves to
    an older version or follows a pointer to a data-changing one. *)
Fixpoint get_write_loop (fuel : nat) (key : Key) (ts : TimeStamp) (gc_fence_limit : option TimeStamp)
    (seek_res : option (TimeStamp * Write)) : mres (option (Write * TimeStamp)) :=
  match fuel with
  | O => Panic
  | S f =>
      match seek_res with
      | None => Ok None
      | Some (commit_ts, write) =>
          if match gc_fence_limit with
             | Some limit => negb (check_gc_fence_as_latest_version write limit)
             | None => false
             end
          then Ok None
          else
            match write_type write with
            | WTPut => Ok (Some (write, commit_ts))
            | WTDelete => Ok None
            | WTLock | WTRollback =>
                let next_version :=
                  if ts_is_zero ts then Ok None
                  else
                    ts ← ts_prev commit_ts;
                    seek_res ← seek_write key ts;
                    get_write_loop f key ts gc_fence_limit seek_res in
                match write_last_change write with
                | LCNotExist => Ok None
                | LCExist last_change_ts versions =>
                    if SEEK_BOUND <=? versions then
                      match rd_cf CF_WRITE !! append_ts key last_change_ts with
                      | None => Ok None
                      | Some value =>
                          write ← map_err mvcc_error_from_txn (write_parse value);
                          rassert (bool_decide (write_type write = WTPut)
                                   || bool_decide (write_type write = WTDelete))
                            (get_write_loop f key ts gc_fence_limit (Some (last_change_ts, write)))
                      end
                    else next_version
                | LCUnknown => next_version
                end
            end
      end
  end.

(** [statistics.write.next] of the same loop: a move to an older version finds
    the cursor on the version at [commit_ts] and takes one [next] to the first
    key at or after [commit_ts - 1]; following a pointer takes none. *)
Fixpoint next_count (fuel : nat) (key : Key) (ts : TimeStamp) (gc_fence_limit : option TimeStamp)
    (seek_res : option (TimeStamp * Write)) : Z :=
  match fuel with
  | O => 0
  | S f =>
      match seek_res with
      | None => 0
      | Some (commit_ts, write) =>
          if match gc_fence_limit with
             | Some limit => negb (check_gc_fence_as_latest_version write limit)
             | None => false
             end
          then 0
          else
            let next_version :=
              if ts_is_zero ts then 0
              else match ts_prev (E := mvcc_error) commit_ts with
                   | Ok ts =>
                       match seek_write key ts with
                       | Ok seek_res => 1 + next_count f key ts gc_fence_limit seek_res
                       | _ => 1
                       end
                   | _ => 0
                   end in
            match write_type write, write_last_change write with
            | WTPut, _ | WTDelete, _ => 0
            | _, LCNotExist => 0
            | _, LCExist _ versions => if SEEK_BOUND <=? versions then 0 else next_version
            | _, LCUnknown => next_version
            end
      end
  end.

Definition write_fuel : nat := S (S (size (rd_cf CF_WRITE))).

Definition get_write_with_commit_ts (key : Key) (ts : TimeStamp) (gc_fence_limit : option TimeStamp) :
    mres (option (Write * TimeStamp)) :=
  seek_res ← seek_write key ts;
  get_write_loop write_fuel key ts gc_fence_limit seek_res.

Definition get_write (key : Key) (ts : TimeStamp) (gc_fence_limit : option TimeStamp) :
    mres (option Write) :=
  r ← get_write_with_commit_ts key ts gc_fence_limit; Ok (option_map fst r).

Definition reader_get (key : Key) (ts : TimeStamp) (gc_fence_limit : option TimeStamp) :
    mres (option Value) :=
  w ← get_write key ts gc_fence_limit;
  match w with
  | Some write => v ← load_data key write; Ok (Some v)
  | None => Ok None
  end.

(** [SnapshotReader::key_exist] *)
Definition key_exist (key : Key) (ts : TimeStamp) : mres bool :=
  w ← get_write key ts (Some (rd_start_ts rd));
  Ok (match w with Some _ => true | None => false end).

Fixpoint commit_record_loop (fuel : nat) (key : Key) (start_ts seek_ts gc_fence : TimeStamp) :
    mres TxnCommitRecord :=
  match fuel with
  | O => Panic
  | S f =>
      r ← seek_write key seek_ts;
      match r with
      | None => Ok (TCRNone None)
      | Some (commit_ts, write) =>
          if write_start_ts write =? start_ts then Ok (TCRSingleRecord commit_ts write)
          else if commit_ts =? start_ts then
            if write_has_overlapped_rollback write then Ok (TCROverlappedRollback commit_ts)
            else Ok (TCRNone (Some (mk_overlapped write gc_fence)))
          else
            let gc_fence :=
              if bool_decide (write_type write = WTPut) || bool_decide (write_type write = WTDelete)
              then commit_ts else gc_fence in
            if commit_ts <? start_ts then Ok (TCRNone None)
            else
              seek_ts ← ts_prev commit_ts;
              commit_record_loop f key start_ts seek_ts gc_fence
      end
  end.

Definition get_txn_commit_record (key : Key) (start_ts : TimeStamp) : mres TxnCommitRecord :=
  commit_record_loop write_fuel key start_ts ts_max 0.

Definition get_old_value (key : Key) (start_ts : TimeStamp) (prev_write_loaded : bool)
    (prev_write : option Write) : mres OldValue :=
  let from_write (w : Write) :=
    match write_short_value w with
    | Some value => OVValue value
    | None => OVValueTimeStamp (write_start_ts w)
    end in
  let search :=
    w ← get_write key start_ts (Some start_ts);
    Ok (match w with Some write => from_write write | None => OVNone end) in
  match prev_write with
  | None => if prev_write_loaded then Ok OVNone else search
  | Some prev_write =>
      if negb (check_gc_fence_as_latest_version prev_write start_ts) then Ok OVNone
      else
        match write_type prev_write with
        | WTPut => Ok (from_write prev_write)
        | WTDelete => Ok OVNone
        | WTRollback | WTLock => search
        end
  end.
End Reader.
