(* ===== verification/Cursor.v ===== *)
(** * Cursors over a column family
    (components/tikv_kv/src/cursor.rs, the [Iterator] trait of lib.rs,
    components/tikv_kv/src/btree_engine.rs)

    A [Cursor] wraps an iterator of the engine: it remembers up to where
    nothing is left, skips a seek when the iterator is already at the answer
    or, going forward, past it, and turns a seek that is thought to be near
    into a few moves. The iterators themselves (RocksDB's) are known through
    the interface [IterSpec]; cursors are shown to find what a seek of the
    ordered map finds. Which keys and values were read before is bookkeeping
    for the flow statistics and is left out. *)
From S2P Require Import Prelude Number Bytes Timestamp Key Fields Lock Write OrderedMap PeerLocks Engine.
From S2P Require Import ConcurrencyManager Reader.

(** ** Iterators *)

(** The trait [Iterator], with [Snapshot::iter] as [iter_new]: it is given the
    contents of the column family and the two bounds. The moves return
    whether the iterator is valid after them. *)
Class Iterator (I : Type) := {
  iter_new : cf -> option Key -> option Key -> res kv_error I;
  iter_next : I -> res kv_error (bool * I);
  iter_prev : I -> res kv_error (bool * I);
  iter_seek : I -> Key -> res kv_error (bool * I);
  iter_seek_for_prev : I -> Key -> res kv_error (bool * I);
  iter_seek_to_first : I -> res kv_error (bool * I);
  iter_seek_to_last : I -> res kv_error (bool * I);
  iter_valid : I -> res kv_error bool;
  iter_validate_key : I -> Key -> res kv_error unit;
  iter_key : I -> res kv_error bytes;
  iter_value : I -> res kv_error bytes
}.

(** [expect] and [unwrap] on a result. *)
Definition rexpect {E A} (r : res E A) : res E A := match r with Ok a => Ok a | _ => Panic end.

(** ** The cursor *)

Inductive ScanMode := ScanForward | ScanBackward | ScanMixed.
#[export] Instance ScanMode_eq_dec : EqDecision ScanMode.
Proof. solve_decision. Defined.

Record Cursor (I : Type) := mk_cursor {
  cu_iter : I;
  cu_scan_mode : ScanMode;
  cu_prefix_seek : bool;
  cu_min_key : option bytes;
  cu_max_key : option bytes
}.
Arguments mk_cursor {I}.
Arguments cu_iter {I}.
Arguments cu_scan_mode {I}.
Arguments cu_prefix_seek {I}.
Arguments cu_min_key {I}.
Arguments cu_max_key {I}.

Section Cursor.
  Context {I : Type} `{Iterator I}.

Definition cursor_new (iter : I) (mode : ScanMode) (prefix_seek : bool) : Cursor I :=
  mk_cursor iter mode prefix_seek None None.

Definition set_iter (c : Cursor I) (iter : I) : Cursor I :=
  mk_cursor iter (cu_scan_mode c) (cu_prefix_seek c) (cu_min_key c) (cu_max_key c).

(** The notes that nothing is left, which prefix seeks do not take. *)
Definition note_max (c : Cursor I) (key : Key) : Cursor I :=
  if cu_prefix_seek c then c else mk_cursor (cu_iter c) (cu_scan_mode c) (cu_prefix_seek c) (cu_min_key c) (Some key).
Definition note_min (c : Cursor I) (key : Key) : Cursor I :=
  if cu_prefix_seek c then c else mk_cursor (cu_iter c) (cu_scan_mode c) (cu_prefix_seek c) (Some key) (cu_max_key c).

Definition moved (c : Cursor I) (r : res kv_error (bool * I)) : res kv_error (bool * Cursor I) :=
  '(valid, iter) ← r; Ok (valid, set_iter c iter).

Definition cursor_key (c : Cursor I) : res kv_error bytes := iter_key (cu_iter c).
Definition cursor_value (c : Cursor I) : res kv_error bytes := iter_value (cu_iter c).
Definition cursor_valid (c : Cursor I) : res kv_error bool := iter_valid (cu_iter c).
Definition cursor_seek_to_first (c : Cursor I) : res kv_error (bool * Cursor I) :=
  rassert (negb (cu_prefix_seek c)) (moved c (rexpect (iter_seek_to_first (cu_iter c)))).
Definition cursor_seek_to_last (c : Cursor I) : res kv_error (bool * Cursor I) :=
  rassert (negb (cu_prefix_seek c)) (moved c (rexpect (iter_seek_to_last (cu_iter c)))).
Definition internal_seek (c : Cursor I) (key : Key) : res kv_error (bool * Cursor I) :=
  moved c (iter_seek (cu_iter c) key).
Definition internal_seek_for_prev (c : Cursor I) (key : Key) : res kv_error (bool * Cursor I) :=
  moved c (iter_seek_for_prev (cu_iter c) key).
Definition cursor_next (c : Cursor I) : res kv_error (bool * Cursor I) := moved c (rexpect (iter_next (cu_iter c))).
Definition cursor_prev (c : Cursor I) : res kv_error (bool * Cursor I) := moved c (rexpect (iter_prev (cu_iter c))).

(** [self.valid()? && p(self.key())] *)
Definition valid_and (c : Cursor I) (p : bytes -> bool) : res kv_error bool :=
  valid ← cursor_valid c;
  if (valid : bool) then key ← cursor_key c; Ok (p key) else Ok false.

Definition cursor_seek (c : Cursor I) (key : Key) : res kv_error (bool * Cursor I) :=
  rassert (negb (bool_decide (cu_scan_mode c = ScanBackward)))
    (if match cu_max_key c with Some k => bleb k key | None => false end then
       _ ← iter_validate_key (cu_iter c) key; Ok (false, c)
     else
       there ← (if bool_decide (cu_scan_mode c = ScanForward) then valid_and c (fun k => bleb key k) else Ok false);
       if (there : bool) then Ok (true, c)
       else
         '(found, c) ← internal_seek c key;
         if (found : bool) then Ok (true, c) else Ok (false, note_max c key)).

Definition cursor_seek_for_prev (c : Cursor I) (key : Key) : res kv_error (bool * Cursor I) :=
  rassert (negb (bool_decide (cu_scan_mode c = ScanForward)))
    (if match cu_min_key c with Some k => bleb key k | None => false end then
       _ ← iter_validate_key (cu_iter c) key; Ok (false, c)
     else
       there ← (if bool_decide (cu_scan_mode c = ScanBackward) then valid_and c (fun k => bleb k key) else Ok false);
       if (there : bool) then Ok (true, c)
       else
         '(found, c) ← internal_seek_for_prev c key;
         if (found : bool) then Ok (true, c) else Ok (false, note_min c key)).

(** [near_loop!]: the condition moves the cursor and looks at its key; the
    loop is over its bound when the condition held [n + 1] times. *)
Fixpoint near_loop (n : nat) (move : Cursor I -> res kv_error (bool * Cursor I)) (p : bytes -> bool) (c : Cursor I) :
    res kv_error (bool * Cursor I) :=
  '(valid, c) ← move c;
  go_on ← (if (valid : bool) then key ← cursor_key c; Ok (p key) else Ok false);
  if (go_on : bool) then match n with O => Ok (true, c) | S n => near_loop n move p c end else Ok (false, c).

Definition near_bound : nat := Z.to_nat (SEEK_BOUND - 1).

(** The end of the near seeks, when the cursor stopped within the bound. *)
Definition near_end (c : Cursor I) (note : Cursor I -> Key -> Cursor I) (key : Key) : res kv_error (bool * Cursor I) :=
  valid ← cursor_valid c;
  if (valid : bool) then Ok (true, c) else Ok (false, note c key).

(** [near_seek]; the boolean beside the result says whether the loop went over
    its bound, which is counted in [over_seek_bound]. *)
Definition near_seek (c : Cursor I) (key : Key) : res kv_error (bool * Cursor I * bool) :=
  rassert (negb (bool_decide (cu_scan_mode c = ScanBackward)))
    (valid ← cursor_valid c;
     if negb valid then r ← cursor_seek c key; Ok (r, false)
     else
       cur ← cursor_key c;
       if bool_decide (bcmp cur key = Eq) || (bool_decide (cu_scan_mode c = ScanForward) && bltb key cur) then Ok (true, c, false)
       else if match cu_max_key c with Some k => bleb k key | None => false end then
         _ ← iter_validate_key (cu_iter c) key; Ok (false, c, false)
       else if bltb key cur then
         '(over, c) ← near_loop near_bound cursor_prev (fun k => bltb key k) c;
         if (over : bool) then r ← cursor_seek c key; Ok (r, true)
         else
           valid ← cursor_valid c;
           if (valid : bool) then
             cur ← cursor_key c;
             c ← (if bltb cur key then '(_, c) ← cursor_next c; Ok c else Ok c);
             r ← near_end c note_max key; Ok (r, false)
           else if cu_prefix_seek c then r ← cursor_seek c key; Ok (r, false)
           else
             '(found, c) ← cursor_seek_to_first c;
             rassert found (Ok (true, c, false))
       else
         '(over, c) ← near_loop near_bound cursor_next (fun k => bltb k key) c;
         if (over : bool) then r ← cursor_seek c key; Ok (r, true)
         else r ← near_end c note_max key; Ok (r, false)).

Definition near_seek_for_prev (c : Cursor I) (key : Key) : res kv_error (bool * Cursor I * bool) :=
  rassert (negb (bool_decide (cu_scan_mode c = ScanForward)))
    (valid ← cursor_valid c;
     if negb valid then r ← cursor_seek_for_prev c key; Ok (r, false)
     else
       cur ← cursor_key c;
       if bool_decide (bcmp cur key = Eq) || (bool_decide (cu_scan_mode c = ScanBackward) && bltb cur key) then Ok (true, c, false)
       else if match cu_min_key c with Some k => bleb key k | None => false end then
         _ ← iter_validate_key (cu_iter c) key; Ok (false, c, false)
       else if bltb cur key then
         '(over, c) ← near_loop near_bound cursor_next (fun k => bltb k key) c;
         if (over : bool) then r ← cursor_seek_for_prev c key; Ok (r, true)
         else
           valid ← cursor_valid c;
           if (valid : bool) then
             cur ← cursor_key c;
             c ← (if bltb key cur then '(_, c) ← cursor_prev c; Ok c else Ok c);
             r ← near_end c note_min key; Ok (r, false)
           else if cu_prefix_seek c then r ← cursor_seek_for_prev c key; Ok (r, false)
           else
             '(found, c) ← cursor_seek_to_last c;
             rassert found (Ok (true, c, false))
       else
         '(over, c) ← near_loop near_bound cursor_prev (fun k => bltb key k) c;
         if (over : bool) then r ← cursor_seek_for_prev c key; Ok (r, true)
         else r ← near_end c note_min key; Ok (r, false)).

Definition reverse_seek (c : Cursor I) (key : Key) : res kv_error (bool * Cursor I) :=
  '(found, c) ← cursor_seek_for_prev c key;
  if negb found then Ok (false, c)
  else
    cur ← cursor_key c;
    if bool_decide (cur = key) then cursor_prev c else Ok (true, c).

Definition near_reverse_seek (c : Cursor I) (key : Key) : res kv_error (bool * Cursor I * bool) :=
  '(found, c, over) ← near_seek_for_prev c key;
  if negb found then Ok (false, c, over)
  else
    cur ← cursor_key c;
    if bool_decide (cur = key) then r ← cursor_prev c; Ok (r, over) else Ok (true, c, over).

(** [Cursor::get] *)
Definition cursor_get (c : Cursor I) (key : Key) : res kv_error (option bytes * Cursor I * bool) :=
  '(found, c, over) ← (if negb (bool_decide (cu_scan_mode c = ScanBackward)) then near_seek c key else near_seek_for_prev c key);
  if (found : bool) then
    cur ← cursor_key c;
    if bool_decide (cur = key) then value ← cursor_value c; Ok (Some value, c, over) else Ok (None, c, over)
  else Ok (None, c, over).
End Cursor.

(** ** What iterators do *)

(** The entries between the bounds. *)
Definition in_range (lo hi : option Key) (k : bytes) : bool :=
  match lo with Some l => bleb l k | None => true end && match hi with Some h => bltb k h | None => true end.
Definition range_cf (lo hi : option Key) (m : cf) : cf := filter (fun e => in_range lo hi e.1 = true) m.

(** The keys an iterator may be sent to. *)
Definition accepts (lo hi : option Key) (k : Key) : Prop :=
  (forall l, lo = Some l -> ble l k) /\ (forall h, hi = Some h -> ble k h).

Definition found (p : option (bytes * bytes)) : bool := match p with Some _ => true | None => false end.

(** The behaviour of the engine's iterators that cursors rely on: an iterator
    created with bounds ranges over the entries between them in the order of
    the keys, and stands on one of them or is not valid. *)
Class IterSpec (I : Type) `{Iterator I} (lo hi : option Key) := {
  iter_at : I -> cf -> option (bytes * bytes) -> Prop;
  iter_new_at m : exists it, iter_new m lo hi = Ok it /\ iter_at it (range_cf lo hi m) None;
  iter_at_valid it m p : iter_at it m p -> iter_valid it = Ok (found p);
  iter_at_entry it m k v : iter_at it m (Some (k, v)) -> iter_key it = Ok k /\ iter_value it = Ok v /\ m !! k = Some v;
  iter_at_validate it m p k : iter_at it m p -> accepts lo hi k -> iter_validate_key it k = Ok tt;
  iter_at_next it m k v : iter_at it m (Some (k, v)) ->
    exists it', iter_next it = Ok (found (seek_gt m k), it') /\ iter_at it' m (seek_gt m k);
  iter_at_prev it m k v : iter_at it m (Some (k, v)) ->
    exists it', iter_prev it = Ok (found (seek_lt m k), it') /\ iter_at it' m (seek_lt m k);
  iter_at_seek it m p k : iter_at it m p -> accepts lo hi k ->
    exists it', iter_seek it k = Ok (found (seek_ge m k), it') /\ iter_at it' m (seek_ge m k);
  iter_at_seek_for_prev it m p k : iter_at it m p -> accepts lo hi k ->
    exists it', iter_seek_for_prev it k = Ok (found (seek_le m k), it') /\ iter_at it' m (seek_le m k);
  iter_at_first it m p : iter_at it m p ->
    exists it', iter_seek_to_first it = Ok (found (seek_first m), it') /\ iter_at it' m (seek_first m);
  iter_at_last it m p : iter_at it m p ->
    exists it', iter_seek_to_last it = Ok (found (seek_last m), it') /\ iter_at it' m (seek_last m)
}.

Lemma range_cf_lookup lo hi m k v : range_cf lo hi m !! k = Some v <-> m !! k = Some v /\ in_range lo hi k = true.
Proof. apply map_lookup_filter_Some. Qed.

Lemma range_cf_all m : range_cf None None m = m.
Proof. apply map_filter_id. done. Qed.

(** *** The iterator of the in-memory engine *)

Inductive Bound := Included (k : Key) | Excluded (k : Key) | Unbounded.

Definition bounds_contain (r : Bound * Bound) (k : bytes) : bool :=
  match r.1 with Included l => bleb l k | Excluded l => bltb l k | Unbounded => true end
  && match r.2 with Included h => bleb k h | Excluded h => bltb k h | Unbounded => true end.

(** [BTreeMap::range] panics on a range that ends before it starts. *)
Definition range_panics (r : Bound * Bound) : bool :=
  match r with
  | (Excluded l, Excluded h) => bleb h l
  | (Included l, Included h) | (Included l, Excluded h) | (Excluded l, Included h) => bltb h l
  | _ => false
  end.

Record BTreeEngineIterator := mk_btree_iter {
  bt_tree : cf;
  bt_cur_key : option Key;
  bt_cur_value : option Value;
  bt_valid : bool;
  bt_bounds : Bound * Bound
}.

(** The bounds in the options are encoded again. *)
Definition btree_iter_new (tree : cf) (lower upper : option Key) : BTreeEngineIterator :=
  mk_btree_iter tree None None false
    (match lower with None => Unbounded | Some key => Included (key_from_raw key) end,
     match upper with None => Unbounded | Some key => Excluded (key_from_raw key) end).

Definition seek_to_range_endpoint (it : BTreeEngineIterator) (range : Bound * Bound) (left : bool) :
    res kv_error (bool * BTreeEngineIterator) :=
  rassert (negb (range_panics range))
    (match List.find (fun e => bounds_contain range e.1) (if left then entries (bt_tree it) else rev (entries (bt_tree it))) with
     | Some (k, v) =>
         if bounds_contain (bt_bounds it) k then Ok (true, mk_btree_iter (bt_tree it) (Some k) (Some v) true (bt_bounds it))
         else Ok (false, mk_btree_iter (bt_tree it) (bt_cur_key it) (bt_cur_value it) false (bt_bounds it))
     | None => Ok (false, mk_btree_iter (bt_tree it) (bt_cur_key it) (bt_cur_value it) false (bt_bounds it))
     end).

Definition btree_next (it : BTreeEngineIterator) : res kv_error (bool * BTreeEngineIterator) :=
  match bt_cur_key it with Some k => seek_to_range_endpoint it (Excluded k, Unbounded) true | None => Panic end.
Definition btree_prev (it : BTreeEngineIterator) : res kv_error (bool * BTreeEngineIterator) :=
  match bt_cur_key it with Some k => seek_to_range_endpoint it (Unbounded, Excluded k) false | None => Panic end.
Definition btree_key (it : BTreeEngineIterator) : res kv_error bytes :=
  rassert (bt_valid it) (match bt_cur_key it with Some k => Ok k | None => Panic end).
Definition btree_value (it : BTreeEngineIterator) : res kv_error bytes :=
  rassert (bt_valid it) (match bt_cur_value it with Some v => Ok v | None => Panic end).

#[export] Instance btree_iterator : Iterator BTreeEngineIterator := {
  iter_new tree lower upper := Ok (btree_iter_new tree lower upper);
  iter_next := btree_next;
  iter_prev := btree_prev;
  iter_seek it key := seek_to_range_endpoint it (Included key, Unbounded) true;
  iter_seek_for_prev it key := seek_to_range_endpoint it (Unbounded, Included key) false;
  iter_seek_to_first it := seek_to_range_endpoint it (bt_bounds it) true;
  iter_seek_to_last it := seek_to_range_endpoint it (bt_bounds it) false;
  iter_valid it := Ok (bt_valid it);
  iter_validate_key _ _ := Ok tt;
  iter_key := btree_key;
  iter_value := btree_value
}.

Definition bt_at (it : BTreeEngineIterator) (m : cf) (p : option (bytes * bytes)) : Prop :=
  bt_tree it = m /\ bt_bounds it = (Unbounded, Unbounded) /\
  match p with
  | Some (k, v) => bt_valid it = true /\ bt_cur_key it = Some k /\ bt_cur_value it = Some v /\ m !! k = Some v
  | None => bt_valid it = false
  end.

Lemma find_ext {A} (f g : A -> bool) l : (forall x, f x = g x) -> List.find f l = List.find g l.
Proof. intros Hfg. induction l as [|a l IH]; simpl; [done|]. by rewrite Hfg, IH. Qed.

Lemma bt_endpoint it range left (q : bytes -> bool) : bt_bounds it = (Unbounded, Unbounded) -> range_panics range = false ->
  (forall k, bounds_contain range k = q k) ->
  let p := List.find (fun e => q e.1) (if left : bool then entries (bt_tree it) else rev (entries (bt_tree it))) in
  exists it', seek_to_range_endpoint it range left = Ok (found p, it') /\ bt_at it' (bt_tree it) p.
Proof.
  intros Hb Hp Hq p. unfold seek_to_range_endpoint. rewrite Hp. cbn [negb rassert].
  rewrite (find_ext _ (fun e => q e.1)) by (intros; apply Hq). fold p. destruct p as [[k v]|] eqn:E.
  - rewrite Hb. cbn [bounds_contain fst snd andb]. eexists. split; [done|]. do 2 (split; [done|]). split_and!; [done..|].
    apply List.find_some in E as [Hin _]. apply list_elem_of_In in Hin. destruct left; [by apply elem_of_entries|by apply elem_of_rev_entries].
  - eexists. split; [done|]. by split_and!.
Qed.

Lemma seek_first_find {A} (m : gmap bytes A) : seek_first m = List.find (fun e => true) (entries m).
Proof. unfold seek_first. by rewrite find_all. Qed.

Lemma seek_last_find {A} (m : gmap bytes A) : seek_last m = List.find (fun e => true) (rev (entries m)).
Proof. unfold seek_last. rewrite find_all by done. rewrite <- head_reverse. unfold reverse. by rewrite <- rev_alt. Qed.

(** Without bounds the in-memory engine's iterator keeps the contract. *)
#[export] Instance btree_iter_spec : IterSpec BTreeEngineIterator None None.
Proof.
  refine {| iter_at := bt_at |}.
  - intros m. eexists. split; [done|]. rewrite range_cf_all. by split_and!.
  - intros it m [[k v]|] (_ & _ & Hv); cbn; [by destruct Hv as [-> _]|by rewrite Hv].
  - intros it m k v (_ & _ & Hv & Hk & Hx & Hm). cbn. unfold btree_key, btree_value. by rewrite Hv, Hk, Hx.
  - done.
  - intros it m k v (<- & Hb & _ & Hk & _). cbn. unfold btree_next. rewrite Hk.
    apply (bt_endpoint _ _ true (bltb k)); [done..|]. intros k2. unfold bounds_contain. apply andb_true_r.
  - intros it m k v (<- & Hb & _ & Hk & _). cbn. unfold btree_prev. rewrite Hk.
    by apply (bt_endpoint _ _ false (fun x => bltb x k)).
  - intros it m p k (<- & Hb & _) _. apply (bt_endpoint _ _ true (bleb k)); [done..|]. intros k2. unfold bounds_contain. apply andb_true_r.
  - intros it m p k (<- & Hb & _) _. by apply (bt_endpoint _ _ false (fun x => bleb x k)).
  - intros it m p (<- & Hb & _). rewrite seek_first_find. apply (bt_endpoint _ _ true (fun _ => true)); [done|by rewrite Hb|]. by rewrite Hb.
  - intros it m p (<- & Hb & _). rewrite seek_last_find. apply (bt_endpoint _ _ false (fun _ => true)); [done|by rewrite Hb|]. by rewrite Hb.
Defined.

(** *** A reference iterator: the entries between the bounds and a position *)

Record RangeIterator := mk_range_iter { ri_entries : cf; ri_pos : option (bytes * bytes) }.

Definition ri_move (it : RangeIterator) (p : option (bytes * bytes)) : res kv_error (bool * RangeIterator) :=
  Ok (found p, mk_range_iter (ri_entries it) p).

#[export] Instance range_iterator : Iterator RangeIterator := {
  iter_new m lower upper := Ok (mk_range_iter (range_cf lower upper m) None);
  iter_next it := match ri_pos it with Some (k, _) => ri_move it (seek_gt (ri_entries it) k) | None => Panic end;
  iter_prev it := match ri_pos it with Some (k, _) => ri_move it (seek_lt (ri_entries it) k) | None => Panic end;
  iter_seek it key := ri_move it (seek_ge (ri_entries it) key);
  iter_seek_for_prev it key := ri_move it (seek_le (ri_entries it) key);
  iter_seek_to_first it := ri_move it (seek_first (ri_entries it));
  iter_seek_to_last it := ri_move it (seek_last (ri_entries it));
  iter_valid it := Ok (found (ri_pos it));
  iter_validate_key _ _ := Ok tt;
  iter_key it := match ri_pos it with Some (k, _) => Ok k | None => Panic end;
  iter_value it := match ri_pos it with Some (_, v) => Ok v | None => Panic end
}.

Definition ri_at (it : RangeIterator) (m : cf) (p : option (bytes * bytes)) : Prop :=
  ri_entries it = m /\ ri_pos it = p /\ (forall k v, p = Some (k, v) -> m !! k = Some v).

Lemma seek_first_Some {A} (m : gmap bytes A) k a : seek_first m = Some (k, a) -> m !! k = Some a.
Proof. rewrite seek_first_find. intros [Hin _]%List.find_some. by apply elem_of_entries, list_elem_of_In. Qed.

Lemma seek_last_Some {A} (m : gmap bytes A) k a : seek_last m = Some (k, a) -> m !! k = Some a.
Proof. rewrite seek_last_find. intros [Hin _]%List.find_some. by apply elem_of_rev_entries, list_elem_of_In. Qed.

#[export] Instance range_iter_spec lo hi : IterSpec RangeIterator lo hi.
Proof.
  refine {| iter_at := ri_at |}.
  - intros m. eexists. split; [done|]. by split_and!.
  - intros it m p (_ & <- & _). done.
  - intros it m k v (_ & Hp & Hm). cbn. rewrite Hp. split_and!; [done..|]. by apply Hm.
  - done.
  - intros it m k v (<- & Hp & _). cbn. rewrite Hp. eexists. split; [done|]. split_and!; [done..|]. by intros k2 v2 (? & _)%seek_gt_Some.
  - intros it m k v (<- & Hp & _). cbn. rewrite Hp. eexists. split; [done|]. split_and!; [done..|]. by intros k2 v2 (? & _)%seek_lt_Some.
  - intros it m p k (<- & _) _. eexists. split; [done|]. split_and!; [done..|]. by intros k2 v2 (? & _)%seek_ge_Some.
  - intros it m p k (<- & _) _. eexists. split; [done|]. split_and!; [done..|]. by intros k2 v2 (? & _)%seek_le_Some.
  - intros it m p (<- & _). eexists. split; [done|]. split_and!; [done..|]. apply seek_first_Some.
  - intros it m p (<- & _). eexists. split; [done|]. split_and!; [done..|]. apply seek_last_Some.
Defined.

(** ** Where cursors are *)

Section Spec.
  Context {I : Type} {lo hi : option Key} `{IS : IterSpec I lo hi}.
  Implicit Types (c : Cursor I) (m : cf) (p : option (bytes * bytes)) (k : Key).

(** The cursor is at [p], and what it noted is true. *)
Record cursor_at (c : Cursor I) (m : cf) (p : option (bytes * bytes)) : Prop := {
  ca_iter : iter_at (cu_iter c) m p;
  ca_prefix : cu_prefix_seek c = false;
  ca_max : forall k, cu_max_key c = Some k -> seek_ge m k = None;
  ca_min : forall k, cu_min_key c = Some k -> seek_le m k = None
}.

Definition keeps (c c' : Cursor I) : Prop :=
  cu_scan_mode c' = cu_scan_mode c /\ cu_max_key c' = cu_max_key c /\ cu_min_key c' = cu_min_key c.

Lemma cursor_at_move c m p it p' : cursor_at c m p -> iter_at it m p' -> cursor_at (set_iter c it) m p' /\ keeps c (set_iter c it).
Proof. intros [_ Hp Hma Hmi] Hit. split; [|by split_and!]. by constructor. Qed.

Lemma cursor_valid_at c m p : cursor_at c m p -> cursor_valid c = Ok (found p).
Proof. intros [Hit _ _ _]. by eapply iter_at_valid. Qed.

Lemma cursor_entry_at c m k v : cursor_at c m (Some (k, v)) -> cursor_key c = Ok k /\ cursor_value c = Ok v /\ m !! k = Some v.
Proof. intros [Hit _ _ _]. by eapply iter_at_entry. Qed.

Lemma valid_and_at c m p (q : bytes -> bool) : cursor_at c m p ->
  valid_and c q = Ok (match p with Some (k, _) => q k | None => false end).
Proof.
  intros Hc. unfold valid_and. rewrite (cursor_valid_at c m p Hc). destruct p as [[k v]|]; [|done].
  destruct (cursor_entry_at c m k v Hc) as (Hk & _). cbn. by rewrite Hk.
Qed.

(** A move of the iterator is a move of the cursor. *)
Lemma moved_at c m p p' (r : res kv_error (bool * I)) : cursor_at c m p ->
  (exists it', r = Ok (found p', it') /\ iter_at it' m p') ->
  exists c', moved c r = Ok (found p', c') /\ cursor_at c' m p' /\ keeps c c'.
Proof. intros Hc (it' & -> & Hit). eexists. split; [done|]. by eapply cursor_at_move. Qed.

Lemma rexpect_Ok (P : I -> Prop) b (r : res kv_error (bool * I)) : (exists it', r = Ok (b, it') /\ P it') -> (exists it', rexpect r = Ok (b, it') /\ P it').
Proof. intros (it' & -> & Hit). by exists it'. Qed.

Lemma cursor_next_at c m k v : cursor_at c m (Some (k, v)) ->
  exists c', cursor_next c = Ok (found (seek_gt m k), c') /\ cursor_at c' m (seek_gt m k) /\ keeps c c'.
Proof. intros Hc. eapply moved_at; [done|]. apply rexpect_Ok. eapply iter_at_next. apply Hc. Qed.

Lemma cursor_prev_at c m k v : cursor_at c m (Some (k, v)) ->
  exists c', cursor_prev c = Ok (found (seek_lt m k), c') /\ cursor_at c' m (seek_lt m k) /\ keeps c c'.
Proof. intros Hc. eapply moved_at; [done|]. apply rexpect_Ok. eapply iter_at_prev. apply Hc. Qed.

Lemma internal_seek_at c m p k : cursor_at c m p -> accepts lo hi k ->
  exists c', internal_seek c k = Ok (found (seek_ge m k), c') /\ cursor_at c' m (seek_ge m k) /\ keeps c c'.
Proof. intros Hc Hk. eapply moved_at; [done|]. eapply iter_at_seek; [apply Hc|done]. Qed.

Lemma internal_seek_for_prev_at c m p k : cursor_at c m p -> accepts lo hi k ->
  exists c', internal_seek_for_prev c k = Ok (found (seek_le m k), c') /\ cursor_at c' m (seek_le m k) /\ keeps c c'.
Proof. intros Hc Hk. eapply moved_at; [done|]. eapply iter_at_seek_for_prev; [apply Hc|done]. Qed.

Lemma cursor_first_at c m p : cursor_at c m p ->
  exists c', cursor_seek_to_first c = Ok (found (seek_first m), c') /\ cursor_at c' m (seek_first m) /\ keeps c c'.
Proof.
  intros Hc. unfold cursor_seek_to_first. rewrite (ca_prefix _ _ _ Hc). cbn [negb rassert].
  eapply moved_at; [done|]. apply rexpect_Ok. eapply iter_at_first. apply Hc.
Qed.

Lemma cursor_last_at c m p : cursor_at c m p ->
  exists c', cursor_seek_to_last c = Ok (found (seek_last m), c') /\ cursor_at c' m (seek_last m) /\ keeps c c'.
Proof.
  intros Hc. unfold cursor_seek_to_last. rewrite (ca_prefix _ _ _ Hc). cbn [negb rassert].
  eapply moved_at; [done|]. apply rexpect_Ok. eapply iter_at_last. apply Hc.
Qed.

Lemma note_max_at c m p k : cursor_at c m p -> seek_ge m k = None -> cursor_at (note_max c k) m p.
Proof. intros [Hit Hp Hma Hmi] Hk. unfold note_max. rewrite Hp. constructor; [done..| |done]. by intros k' [= <-]. Qed.

Lemma note_min_at c m p k : cursor_at c m p -> seek_le m k = None -> cursor_at (note_min c k) m p.
Proof. intros [Hit Hp Hma Hmi] Hk. unfold note_min. rewrite Hp. constructor; [done..|]. by intros k' [= <-]. Qed.

Lemma cursor_new_at m mode : exists it, iter_new m lo hi = Ok it /\ cursor_at (cursor_new it mode false) (range_cf lo hi m) None.
Proof. destruct (iter_new_at m) as (it & E & Hit). exists it. split; [done|]. by constructor. Qed.

(** *** Notes *)

Lemma seek_ge_None_le m k k' : seek_ge m k = None -> ble k k' -> seek_ge m k' = None.
Proof. rewrite !seek_ge_None. intros Hn Hk k2 a2 H2. eapply blt_le_trans; [by eapply Hn|done]. Qed.

Lemma seek_le_None_le m k k' : seek_le m k = None -> ble k' k -> seek_le m k' = None.
Proof. rewrite !seek_le_None. intros Hn Hk k2 a2 H2. eapply ble_lt_trans; [done|by eapply Hn]. Qed.

(** Past the noted key nothing is found. *)
Lemma max_key_at c m p k : cursor_at c m p -> match cu_max_key c with Some k' => bleb k' k | None => false end = true -> seek_ge m k = None.
Proof.
  intros Hc Hk. destruct (cu_max_key c) as [k'|] eqn:E; [|done]. apply bleb_le in Hk.
  eapply seek_ge_None_le; [|done]. by eapply ca_max.
Qed.

Lemma min_key_at c m p k : cursor_at c m p -> match cu_min_key c with Some k' => bleb k k' | None => false end = true -> seek_le m k = None.
Proof.
  intros Hc Hk. destruct (cu_min_key c) as [k'|] eqn:E; [|done]. apply bleb_le in Hk.
  eapply seek_le_None_le; [|done]. by eapply ca_min.
Qed.

(** *** Seeks *)

(** What a seek to [k] leads to: the sought entry, if there is one, and
    otherwise a cursor that is not valid, or one that did not move because of
    what it had noted. *)
Definition sought (noted : Cursor I -> option bytes) (c c' : Cursor I) (m : cf) (q : option (bytes * bytes)) : Prop :=
  cu_scan_mode c' = cu_scan_mode c /\ (is_Some q -> keeps c c') /\
  exists p', cursor_at c' m p' /\ (p' = q \/ (q = None /\ noted c <> None)).

Lemma sought_here noted c m p q : cursor_at c m p -> p = q \/ (q = None /\ noted c <> None) -> sought noted c c m q.
Proof. intros Hc Hq. split; [done|]. split; [done|]. exists p. split; [done|]. destruct Hq as [->|Hq]; auto. Qed.

Lemma sought_found noted c c' m q : cursor_at c' m q -> keeps c c' -> sought noted c c' m q.
Proof. intros Hc Hk. split; [apply Hk|]. split; [done|]. eauto. Qed.

Lemma max_noted c k : match cu_max_key c with Some k' => bleb k' k | None => false end = true -> cu_max_key c <> None.
Proof. by destruct (cu_max_key c). Qed.

Lemma min_noted c k : match cu_min_key c with Some k' => bleb k k' | None => false end = true -> cu_min_key c <> None.
Proof. by destruct (cu_min_key c). Qed.

Lemma sought_max c c' m k : cursor_at c' m None -> keeps c c' -> seek_ge m k = None -> sought cu_max_key c (note_max c' k) m None.
Proof.
  intros Hc (Hm & _) Hk. split; [unfold note_max; by destruct (cu_prefix_seek c')|]. split; [by intros [? ?]|].
  exists None. split; [by apply note_max_at|by left].
Qed.

Lemma sought_min c c' m k : cursor_at c' m None -> keeps c c' -> seek_le m k = None -> sought cu_min_key c (note_min c' k) m None.
Proof.
  intros Hc (Hm & _) Hk. split; [unfold note_min; by destruct (cu_prefix_seek c')|]. split; [by intros [? ?]|].
  exists None. split; [by apply note_min_at|by left].
Qed.

(** A forward cursor only answers questions ahead of it. *)
Definition ahead (c : Cursor I) (p : option (bytes * bytes)) (k : Key) : Prop :=
  cu_scan_mode c = ScanForward -> forall k' v, p = Some (k', v) -> ble k' k.
Definition behind (c : Cursor I) (p : option (bytes * bytes)) (k : Key) : Prop :=
  cu_scan_mode c = ScanBackward -> forall k' v, p = Some (k', v) -> ble k k'.

Lemma cursor_seek_at c m p k : cursor_at c m p -> accepts lo hi k -> cu_scan_mode c <> ScanBackward -> ahead c p k ->
  exists c', cursor_seek c k = Ok (found (seek_ge m k), c') /\ sought cu_max_key c c' m (seek_ge m k).
Proof.
  intros Hc Hk Hmode Hah. unfold cursor_seek. rewrite bool_decide_eq_false_2 by done. cbn [negb rassert].
  destruct (match cu_max_key c with Some k' => bleb k' k | None => false end) eqn:Emax.
  { rewrite (max_key_at c m p k Hc Emax). rewrite (iter_at_validate _ m p k (ca_iter _ _ _ Hc) Hk). cbn.
    exists c. split; [done|]. eapply sought_here; [exact Hc|]. right. split; [done|]. by eapply max_noted. }
  assert (exists c', ('(b, c) ← internal_seek c k; if (b : bool) then Ok (true, c) else Ok (false, note_max c k)) =
      Ok (found (seek_ge m k), c') /\ sought cu_max_key c c' m (seek_ge m k)) as Hgo.
  { destruct (internal_seek_at c m p k Hc Hk) as (c' & -> & Hc' & Hm). cbn. destruct (seek_ge m k) as [e|] eqn:E; cbn.
    - exists c'. split; [done|]. by apply sought_found.
    - eexists. split; [done|]. by eapply sought_max. }
  case_bool_decide as Hf; [|done]. rewrite (valid_and_at c m p _ Hc). cbn. destruct p as [[k' v]|]; [|done].
  destruct (bleb k k') eqn:Ek; [|done]. apply bleb_le in Ek. assert (k' = k) as -> by (apply ble_antisym; [by eapply Hah|done]).
  destruct (cursor_entry_at c m k v Hc) as (_ & _ & Hm). rewrite (seek_ge_eq m k v Hm). exists c. split; [done|]. eapply sought_here; [exact Hc|by left].
Qed.

Lemma cursor_seek_for_prev_at c m p k : cursor_at c m p -> accepts lo hi k -> cu_scan_mode c <> ScanForward -> behind c p k ->
  exists c', cursor_seek_for_prev c k = Ok (found (seek_le m k), c') /\ sought cu_min_key c c' m (seek_le m k).
Proof.
  intros Hc Hk Hmode Hah. unfold cursor_seek_for_prev. rewrite bool_decide_eq_false_2 by done. cbn [negb rassert].
  destruct (match cu_min_key c with Some k' => bleb k k' | None => false end) eqn:Emin.
  { rewrite (min_key_at c m p k Hc Emin). rewrite (iter_at_validate _ m p k (ca_iter _ _ _ Hc) Hk). cbn.
    exists c. split; [done|]. eapply sought_here; [exact Hc|]. right. split; [done|]. by eapply min_noted. }
  assert (exists c', ('(b, c) ← internal_seek_for_prev c k; if (b : bool) then Ok (true, c) else Ok (false, note_min c k)) =
      Ok (found (seek_le m k), c') /\ sought cu_min_key c c' m (seek_le m k)) as Hgo.
  { destruct (internal_seek_for_prev_at c m p k Hc Hk) as (c' & -> & Hc' & Hm). cbn. destruct (seek_le m k) as [e|] eqn:E; cbn.
    - exists c'. split; [done|]. by apply sought_found.
    - eexists. split; [done|]. by eapply sought_min. }
  case_bool_decide as Hf; [|done]. rewrite (valid_and_at c m p _ Hc). cbn. destruct p as [[k' v]|]; [|done].
  destruct (bleb k' k) eqn:Ek; [|done]. apply bleb_le in Ek. assert (k' = k) as -> by (apply ble_antisym; [done|by eapply Hah]).
  destruct (cursor_entry_at c m k v Hc) as (_ & _ & Hm). rewrite (seek_le_eq m k v Hm). exists c. split; [done|]. eapply sought_here; [exact Hc|by left].
Qed.

(** *** Near seeks *)

Lemma keeps_refl c : keeps c c.
Proof. done. Qed.
Lemma keeps_trans c1 c2 c3 : keeps c1 c2 -> keeps c2 c3 -> keeps c1 c3.
Proof. unfold keeps. intuition congruence. Qed.

(** Within the bound the loop ends at the sought entry; over it, the cursor is
    still on the same side of it. *)
Lemma near_loop_next n k : forall c m k0 v0, cursor_at c m (Some (k0, v0)) -> blt k0 k ->
  exists over c' p', near_loop n cursor_next (fun x => bltb x k) c = Ok (over, c') /\ cursor_at c' m p' /\ keeps c c' /\
    if (over : bool) then exists k1 v1, p' = Some (k1, v1) /\ blt k1 k else p' = seek_ge m k.
Proof.
  induction n as [|n IH]; intros c m k0 v0 Hc Hlt; cbn [near_loop];
    destruct (cursor_next_at c m k0 v0 Hc) as (c1 & -> & Hc1 & Hk1); cbn [mbind res_bind].
  all: destruct (seek_gt m k0) as [[k1 v1]|] eqn:E; cbn.
  all: try (exists false, c1, None; split_and!; [done..|]; rewrite <- E; apply seek_gt_ge; [done|]; by rewrite E).
  all: destruct (cursor_entry_at c1 m k1 v1 Hc1) as (Hkey & _); rewrite Hkey; cbn; destruct (bltb k1 k) eqn:Ek.
  all: try (exists false, c1, (Some (k1, v1)); split_and!; [done..|]; rewrite <- E; apply seek_gt_ge; [done|]; rewrite E; intros ? ? [= <- <-]; by apply bltb_ge).
  all: apply bltb_lt in Ek.
  - exists true, c1, (Some (k1, v1)). eauto 8.
  - destruct (IH c1 m k1 v1 Hc1 Ek) as (over & c' & p' & E' & Hc' & Hk' & Hp). exists over, c', p'. split_and!; [done..| |done]. by eapply keeps_trans.
Qed.

Lemma near_loop_prev n k : forall c m k0 v0, cursor_at c m (Some (k0, v0)) -> blt k k0 ->
  exists over c' p', near_loop n cursor_prev (fun x => bltb k x) c = Ok (over, c') /\ cursor_at c' m p' /\ keeps c c' /\
    if (over : bool) then exists k1 v1, p' = Some (k1, v1) /\ blt k k1 else p' = seek_le m k.
Proof.
  induction n as [|n IH]; intros c m k0 v0 Hc Hlt; cbn [near_loop];
    destruct (cursor_prev_at c m k0 v0 Hc) as (c1 & -> & Hc1 & Hk1); cbn [mbind res_bind].
  all: destruct (seek_lt m k0) as [[k1 v1]|] eqn:E; cbn.
  all: try (exists false, c1, None; split_and!; [done..|]; rewrite <- E; apply seek_lt_le; [done|]; by rewrite E).
  all: destruct (cursor_entry_at c1 m k1 v1 Hc1) as (Hkey & _); rewrite Hkey; cbn; destruct (bltb k k1) eqn:Ek.
  all: try (exists false, c1, (Some (k1, v1)); split_and!; [done..|]; rewrite <- E; apply seek_lt_le; [done|]; rewrite E; intros ? ? [= <- <-]; by apply bltb_ge).
  all: apply bltb_lt in Ek.
  - exists true, c1, (Some (k1, v1)). eauto 8.
  - destruct (IH c1 m k1 v1 Hc1 Ek) as (over & c' & p' & E' & Hc' & Hk' & Hp). exists over, c', p'. split_and!; [done..| |done]. by eapply keeps_trans.
Qed.

Lemma near_end_max c c' m k : cursor_at c' m (seek_ge m k) -> keeps c c' ->
  exists c2, near_end c' note_max k = Ok (found (seek_ge m k), c2) /\ sought cu_max_key c c2 m (seek_ge m k).
Proof.
  intros Hc Hk. unfold near_end. rewrite (cursor_valid_at c' m _ Hc). cbn. destruct (seek_ge m k) as [e|] eqn:E; cbn; eexists; (split; [done|]).
  - by apply sought_found.
  - by eapply sought_max.
Qed.

Lemma near_end_min c c' m k : cursor_at c' m (seek_le m k) -> keeps c c' ->
  exists c2, near_end c' note_min k = Ok (found (seek_le m k), c2) /\ sought cu_min_key c c2 m (seek_le m k).
Proof.
  intros Hc Hk. unfold near_end. rewrite (cursor_valid_at c' m _ Hc). cbn. destruct (seek_le m k) as [e|] eqn:E; cbn; eexists; (split; [done|]).
  - by apply sought_found.
  - by eapply sought_min.
Qed.

(** A seek from where the loop gave up. *)
Lemma sought_via noted c c1 c' m q : keeps c c1 -> noted c1 = noted c -> sought noted c1 c' m q -> sought noted c c' m q.
Proof.
  intros Hk Hn (Hm & Hs & p' & Hc' & Hp). split; [rewrite Hm; apply Hk|]. split; [intros Hx; by eapply keeps_trans; [|apply Hs]|].
  exists p'. split; [done|]. by rewrite <- Hn.
Qed.

(** The cursor is past [k] and goes back. *)
Lemma near_seek_back c m k0 v0 k : cursor_at c m (Some (k0, v0)) -> accepts lo hi k -> cu_scan_mode c <> ScanBackward ->
  cu_scan_mode c <> ScanForward -> blt k k0 ->
  exists c' over,
    ('(over, c) ← near_loop near_bound cursor_prev (fun k' => bltb k k') c;
     if (over : bool) then r ← cursor_seek c k; Ok (r, true)
     else
       valid ← cursor_valid c;
       if (valid : bool) then
         cur ← cursor_key c;
         c ← (if bltb cur k then '(_, c) ← cursor_next c; Ok c else Ok c);
         r ← near_end c note_max k; Ok (r, false)
       else if cu_prefix_seek c then r ← cursor_seek c k; Ok (r, false)
       else
         '(found, c) ← cursor_seek_to_first c;
         rassert found (Ok (true, c, false))) = Ok (found (seek_ge m k), c', over) /\ sought cu_max_key c c' m (seek_ge m k).
Proof.
  intros Hc Hk Hmode Hnf Hlt. destruct (cursor_entry_at c m k0 v0 Hc) as (_ & _ & Hm0).
  destruct (near_loop_prev near_bound k c m k0 v0 Hc Hlt) as (over & c1 & p1 & -> & Hc1 & Hk1 & Hp). cbn [mbind res_bind]. destruct over.
  { destruct (cursor_seek_at c1 m _ k Hc1 Hk) as (c' & -> & Hs); [by destruct Hk1 as (-> & _)|unfold ahead; by destruct Hk1 as (-> & _)|].
    cbn. do 2 eexists. split; [done|]. eapply sought_via; [done|apply Hk1|done]. }
  subst p1. rewrite (cursor_valid_at c1 m _ Hc1). cbn [mbind res_bind]. destruct (seek_le m k) as [[k1 v1]|] eqn:Ele; cbn [found].
  - destruct (cursor_entry_at c1 m k1 v1 Hc1) as (-> & _ & Hm1). cbn. pose proof Ele as (_ & Hle & _)%seek_le_Some.
    destruct (bltb k1 k) eqn:E1.
    + apply bltb_lt in E1. destruct (cursor_next_at c1 m k1 v1 Hc1) as (c2 & -> & Hc2 & Hk2). cbn.
      rewrite (seek_le_next m k k1 v1 Ele E1) in Hc2. destruct (near_end_max c c2 m k Hc2) as (c' & -> & Hs); [by eapply keeps_trans|].
      cbn. eauto.
    + apply bltb_ge in E1. assert (k1 = k) as -> by (by apply ble_antisym). rewrite <- (seek_ge_eq m k v1 Hm1) in Hc1.
      cbn. destruct (near_end_max c c1 m k Hc1 Hk1) as (c' & -> & Hs). cbn. eauto.
  - rewrite (ca_prefix _ _ _ Hc1). destruct (cursor_first_at c1 m _ Hc1) as (c2 & -> & Hc2 & Hk2). cbn.
    assert (seek_first m = seek_ge m k) as Ef by (apply seek_first_ge; intros k2 a2 H2; by apply blt_ble, (proj1 (seek_le_None m k) Ele k2 a2)).
    rewrite Ef in Hc2 |- *. assert (found (seek_ge m k) = true) as Hf.
    { destruct (seek_ge m k) eqn:Eg; [done|]. pose proof (proj1 (seek_ge_None m k) Eg _ _ Hm0) as Hgt. by apply not_ble in Hgt; destruct Hgt; apply blt_ble. }
    rewrite Hf. cbn. do 2 eexists. split; [done|]. apply sought_found; [done|]. by eapply keeps_trans.
Qed.

Lemma near_seek_at c m p k : cursor_at c m p -> accepts lo hi k -> cu_scan_mode c <> ScanBackward -> ahead c p k ->
  exists c' over, near_seek c k = Ok (found (seek_ge m k), c', over) /\ sought cu_max_key c c' m (seek_ge m k).
Proof.
  intros Hc Hk Hmode Hah. unfold near_seek. rewrite bool_decide_eq_false_2 by done. cbn [negb rassert].
  rewrite (cursor_valid_at c m p Hc). cbn [mbind res_bind]. destruct p as [[k0 v0]|]; cbn [found negb].
  2:{ destruct (cursor_seek_at c m None k Hc Hk Hmode Hah) as (c' & -> & Hs). cbn. eauto. }
  destruct (cursor_entry_at c m k0 v0 Hc) as (-> & _ & Hm). cbn.
  case_bool_decide as Heq; cbn [orb].
  { apply bcmp_eq in Heq as ->. rewrite (seek_ge_eq m k v0 Hm). do 2 eexists. split; [done|]. eapply sought_here; [exact Hc|by left]. }
  destruct (bool_decide (cu_scan_mode c = ScanForward) && bltb k k0) eqn:Ef.
  { apply andb_true_iff in Ef as [Hf%bool_decide_eq_true Hlt%bltb_lt]. apply not_ble in Hlt. destruct Hlt. by eapply Hah. }
  destruct (match cu_max_key c with Some k' => bleb k' k | None => false end) eqn:Emax.
  { rewrite (max_key_at c m _ k Hc Emax). rewrite (iter_at_validate _ m _ k (ca_iter _ _ _ Hc) Hk). cbn. do 2 eexists. split; [done|].
    eapply sought_here; [exact Hc|]. right. split; [done|]. by eapply max_noted. }
  destruct (bltb k k0) eqn:Elt.
  - rewrite andb_true_r in Ef. apply bool_decide_eq_false in Ef. apply bltb_lt in Elt.
    by apply (near_seek_back c m k0 v0 k).
  - assert (blt k0 k) as Hlt. { apply bltb_ge, ble_alt in Elt as [?| ->]; [done|]. by rewrite bcmp_refl in Heq. }
    destruct (near_loop_next near_bound k c m k0 v0 Hc Hlt) as (over & c1 & p1 & -> & Hc1 & Hk1 & Hp). cbn. destruct over.
    + destruct Hp as (k1 & v1 & -> & Hlt1). destruct (cursor_seek_at c1 m _ k Hc1 Hk) as (c' & -> & Hs).
      * by destruct Hk1 as (-> & _).
      * intros _ ? ? [= <- <-]. by apply blt_ble.
      * cbn. do 2 eexists. split; [done|]. eapply sought_via; [done|apply Hk1|done].
    + subst p1. destruct (near_end_max c c1 m k Hc1 Hk1) as (c' & -> & Hs). cbn. eauto.
Qed.
(** The cursor is before [k] and goes on. *)
Lemma near_seek_for_prev_on c m k0 v0 k : cursor_at c m (Some (k0, v0)) -> accepts lo hi k -> cu_scan_mode c <> ScanForward ->
  cu_scan_mode c <> ScanBackward -> blt k0 k ->
  exists c' over,
    ('(over, c) ← near_loop near_bound cursor_next (fun k' => bltb k' k) c;
     if (over : bool) then r ← cursor_seek_for_prev c k; Ok (r, true)
     else
       valid ← cursor_valid c;
       if (valid : bool) then
         cur ← cursor_key c;
         c ← (if bltb k cur then '(_, c) ← cursor_prev c; Ok c else Ok c);
         r ← near_end c note_min k; Ok (r, false)
       else if cu_prefix_seek c then r ← cursor_seek_for_prev c k; Ok (r, false)
       else
         '(found, c) ← cursor_seek_to_last c;
         rassert found (Ok (true, c, false))) = Ok (found (seek_le m k), c', over) /\ sought cu_min_key c c' m (seek_le m k).
Proof.
  intros Hc Hk Hmode Hnf Hlt. destruct (cursor_entry_at c m k0 v0 Hc) as (_ & _ & Hm0).
  destruct (near_loop_next near_bound k c m k0 v0 Hc Hlt) as (over & c1 & p1 & -> & Hc1 & Hk1 & Hp). cbn [mbind res_bind]. destruct over.
  { destruct (cursor_seek_for_prev_at c1 m _ k Hc1 Hk) as (c' & -> & Hs); [by destruct Hk1 as (-> & _)|unfold behind; by destruct Hk1 as (-> & _)|].
    cbn. do 2 eexists. split; [done|]. eapply sought_via; [done|apply Hk1|done]. }
  subst p1. rewrite (cursor_valid_at c1 m _ Hc1). cbn [mbind res_bind]. destruct (seek_ge m k) as [[k1 v1]|] eqn:Ele; cbn [found].
  - destruct (cursor_entry_at c1 m k1 v1 Hc1) as (-> & _ & Hm1). cbn. pose proof Ele as (_ & Hle & _)%seek_ge_Some.
    destruct (bltb k k1) eqn:E1.
    + apply bltb_lt in E1. destruct (cursor_prev_at c1 m k1 v1 Hc1) as (c2 & -> & Hc2 & Hk2). cbn.
      rewrite (seek_ge_prev m k k1 v1 Ele E1) in Hc2. destruct (near_end_min c c2 m k Hc2) as (c' & -> & Hs); [by eapply keeps_trans|].
      cbn. eauto.
    + apply bltb_ge in E1. assert (k1 = k) as -> by (by apply ble_antisym). rewrite <- (seek_le_eq m k v1 Hm1) in Hc1.
      cbn. destruct (near_end_min c c1 m k Hc1 Hk1) as (c' & -> & Hs). cbn. eauto.
  - rewrite (ca_prefix _ _ _ Hc1). destruct (cursor_last_at c1 m _ Hc1) as (c2 & -> & Hc2 & Hk2). cbn.
    assert (seek_last m = seek_le m k) as Ef by (apply seek_last_le; intros k2 a2 H2; by apply blt_ble, (proj1 (seek_ge_None m k) Ele k2 a2)).
    rewrite Ef in Hc2 |- *. assert (found (seek_le m k) = true) as Hf.
    { destruct (seek_le m k) eqn:Eg; [done|]. pose proof (proj1 (seek_le_None m k) Eg _ _ Hm0) as Hgt. by apply not_ble in Hgt; destruct Hgt; apply blt_ble. }
    rewrite Hf. cbn. do 2 eexists. split; [done|]. apply sought_found; [done|]. by eapply keeps_trans.
Qed.

Lemma near_seek_for_prev_at c m p k : cursor_at c m p -> accepts lo hi k -> cu_scan_mode c <> ScanForward -> behind c p k ->
  exists c' over, near_seek_for_prev c k = Ok (found (seek_le m k), c', over) /\ sought cu_min_key c c' m (seek_le m k).
Proof.
  intros Hc Hk Hmode Hah. unfold near_seek_for_prev. rewrite bool_decide_eq_false_2 by done. cbn [negb rassert].
  rewrite (cursor_valid_at c m p Hc). cbn [mbind res_bind]. destruct p as [[k0 v0]|]; cbn [found negb].
  2:{ destruct (cursor_seek_for_prev_at c m None k Hc Hk Hmode Hah) as (c' & -> & Hs). cbn. eauto. }
  destruct (cursor_entry_at c m k0 v0 Hc) as (-> & _ & Hm). cbn.
  case_bool_decide as Heq; cbn [orb].
  { apply bcmp_eq in Heq as ->. rewrite (seek_le_eq m k v0 Hm). do 2 eexists. split; [done|]. eapply sought_here; [exact Hc|by left]. }
  destruct (bool_decide (cu_scan_mode c = ScanBackward) && bltb k0 k) eqn:Ef.
  { apply andb_true_iff in Ef as [Hf%bool_decide_eq_true Hlt%bltb_lt]. apply not_ble in Hlt. destruct Hlt. by eapply Hah. }
  destruct (match cu_min_key c with Some k' => bleb k k' | None => false end) eqn:Emin.
  { rewrite (min_key_at c m _ k Hc Emin). rewrite (iter_at_validate _ m _ k (ca_iter _ _ _ Hc) Hk). cbn. do 2 eexists. split; [done|].
    eapply sought_here; [exact Hc|]. right. split; [done|]. by eapply min_noted. }
  destruct (bltb k0 k) eqn:Elt.
  - rewrite andb_true_r in Ef. apply bool_decide_eq_false in Ef. apply bltb_lt in Elt.
    by apply (near_seek_for_prev_on c m k0 v0 k).
  - assert (blt k k0) as Hlt. { apply bltb_ge, ble_alt in Elt as [?| ->]; [done|]. by rewrite bcmp_refl in Heq. }
    destruct (near_loop_prev near_bound k c m k0 v0 Hc Hlt) as (over & c1 & p1 & -> & Hc1 & Hk1 & Hp). cbn. destruct over.
    + destruct Hp as (k1 & v1 & -> & Hlt1). destruct (cursor_seek_for_prev_at c1 m _ k Hc1 Hk) as (c' & -> & Hs).
      * by destruct Hk1 as (-> & _).
      * intros _ ? ? [= <- <-]. by apply blt_ble.
      * cbn. do 2 eexists. split; [done|]. eapply sought_via; [done|apply Hk1|done].
    + subst p1. destruct (near_end_min c c1 m k Hc1 Hk1) as (c' & -> & Hs). cbn. eauto.
Qed.

Lemma reverse_seek_at c m p k : cursor_at c m p -> accepts lo hi k -> cu_scan_mode c <> ScanForward -> behind c p k ->
  exists c', reverse_seek c k = Ok (found (seek_lt m k), c') /\ sought cu_min_key c c' m (seek_lt m k).
Proof.
  intros Hc Hk Hmode Hbe. unfold reverse_seek.
  destruct (cursor_seek_for_prev_at c m p k Hc Hk Hmode Hbe) as (c1 & -> & Hs). cbn [mbind res_bind].
  pose proof Hs as (Hm1 & Hk1 & p' & Hc1 & Hp).
  destruct (seek_le m k) as [[k1 v1]|] eqn:E; cbn [found negb].
  - assert (p' = Some (k1, v1)) as -> by (by destruct Hp as [|[? _]]). specialize (Hk1 ltac:(eauto)).
    destruct (cursor_entry_at c1 m k1 v1 Hc1) as (-> & _ & Hm). cbn. pose proof E as (_ & Hle & Hmax)%seek_le_Some. case_bool_decide as Hkk.
    + subst k1. destruct (cursor_prev_at c1 m k v1 Hc1) as (c2 & -> & Hc2 & Hk2). eexists. split; [done|].
      apply sought_found; [done|]. by eapply keeps_trans.
    + assert (seek_lt m k = Some (k1, v1)) as ->.
      { apply seek_lt_Some. split_and!; [done| |intros k2 a2 H2 Hl; eapply Hmax; [done|by apply blt_ble]]. apply ble_alt in Hle as [|]; done. }
      eexists. split; [done|]. by apply sought_found.
  - assert (seek_lt m k = None) as ->; [|eauto]. apply seek_lt_None. intros k2 a2 H2. apply blt_ble. by eapply (proj1 (seek_le_None m k) E).
Qed.

End Spec.

(** ** Seeks that start from where the cursor is *)


Definition sample_cf : cf := <[[Byte.x01] := [Byte.x0a]]> {[ [Byte.x02] := [Byte.x0b] ]}.
Definition sample_cursor : Cursor RangeIterator := cursor_new (mk_range_iter sample_cf (Some ([Byte.x02], [Byte.x0b]))) ScanMixed false.

