(* ===== verification/Versions.v ===== *)
(** * The versions of a key

    The abstract view of the write column family: for every user key, the
    write record committed at each timestamp. The lemmas show that the seeks
    of the reader on encoded keys compute the latest version at or before a
    timestamp, and that its loops end within their fuel. *)
From S2P Require Import Prelude Number Bytes Timestamp Key Fields Lock Write OrderedMap PeerLocks Engine.
From S2P Require Import ConcurrencyManager Reader.

Definition user_key (k : Key) : Prop := exists raw, k = key_from_raw raw.

(** What every command maintains of the column families. *)
Definition write_cf_wf (m : cf) : Prop :=
  forall k v, m !! k = Some v -> exists key ts w,
    user_key key /\ is_u64 ts /\ 0 < ts /\ write_wf w /\ k = append_ts key ts /\ v = write_to_bytes w.

Definition lock_cf_wf (m : cf) : Prop :=
  forall k v, m !! k = Some v -> exists l,
    user_key k /\ lock_wf l /\ lock_use_one_pc l = false /\ v = lock_to_bytes l.

(** The record of [key] committed at [c]. *)
Definition version (m : cf) (key : Key) (c : TimeStamp) : option Write :=
  match m !! append_ts key c with
  | Some v => match write_parse v with Ok w => Some w | _ => None end
  | None => None
  end.

(** [w], committed at [c], is the latest version of [key] at [ts]. *)
Definition is_latest (m : cf) (key : Key) (ts c : TimeStamp) (w : Write) : Prop :=
  is_u64 c /\ c <= ts /\ version m key c = Some w
  /\ (forall c', is_u64 c' -> c < c' <= ts -> version m key c' = None).

Definition no_version (m : cf) (key : Key) (ts : TimeStamp) : Prop :=
  forall c, is_u64 c -> c <= ts -> version m key c = None.

Lemma user_key_append_inj k1 k2 a b : user_key k1 -> user_key k2 -> k1 ++ a = k2 ++ b -> k1 = k2 /\ a = b.
Proof. intros [r1 ->] [r2 ->] E. apply key_from_raw_prefix_free in E as [-> ->]. done. Qed.

Lemma is_latest_unique m key ts c w c' w' :
  is_latest m key ts c w -> is_latest m key ts c' w' -> c = c' /\ w = w'.
Proof.
  intros (Hc & Hle & Hv & Hn) (Hc' & Hle' & Hv' & Hn').
  destruct (Z.lt_trichotomy c c') as [H|[->|H]].
  - rewrite (Hn c') in Hv' by (done || lia). done.
  - split; congruence.
  - rewrite (Hn' c) in Hv by (done || lia). done.
Qed.

Section Seek.
  Context (rd : Reader).
Let m := rd_cf rd CF_WRITE.
  Hypothesis Hwf : write_cf_wf m.
  Context (key : Key).
  Hypothesis Hkey : user_key key.

Lemma version_Some c w :
  version m key c = Some w <-> write_wf w /\ m !! append_ts key c = Some (write_to_bytes w).
Proof using Hwf.
  unfold version. split.
  - destruct (m !! append_ts key c) as [v|] eqn:E; [|done].
    destruct (Hwf _ _ E) as (k' & ts' & w' & _ & _ & _ & Hw' & _ & ->).
    rewrite write_parse_to_bytes by done. by intros [= <-].
  - intros [Hw ->]. by rewrite write_parse_to_bytes.
Qed.

Lemma version_entry c v : m !! append_ts key c = Some v -> exists w, version m key c = Some w.
Proof using Hwf.
  intros E. destruct (Hwf _ _ E) as (k' & ts' & w' & _ & _ & _ & Hw' & _ & ->).
  exists w'. apply version_Some. done.
Qed.

(** Any entry at or after the seek key and at or before a version of the key
    is itself a version of the key. *)
Lemma entry_between ts c k v :
  is_u64 ts -> is_u64 c -> m !! k = Some v ->
  ble (append_ts key ts) k -> ble k (append_ts key c) ->
  exists c', k = append_ts key c' /\ is_u64 c' /\ c <= c' <= ts.
Proof using Hwf Hkey.
  intros Hts Hc Hk H1 H2. unfold append_ts in H1, H2.
  destruct (ble_prefix_squeeze _ _ _ _ H1 H2) as [x Hx].
  destruct (Hwf _ _ Hk) as (key' & c' & w & Hk' & Hc' & _ & _ & Hkk & _).
  rewrite Hkk in Hx. apply user_key_append_inj in Hx as [-> <-]; [|done..].
  exists c'. split; [done|]. split; [done|].
  fold (append_ts key ts) in H1. fold (append_ts key c) in H2. rewrite Hkk in H1, H2.
  unfold ble in H1, H2. rewrite bcmp_append_ts_same in H1, H2 by done.
  destruct (Z.compare_spec c' ts), (Z.compare_spec c c'); try lia; done.
Qed.

Lemma append_ts_le t c : is_u64 t -> is_u64 c -> ble (append_ts key t) (append_ts key c) <-> c <= t.
Proof using.
  intros. unfold ble. rewrite bcmp_append_ts_same by done.
  destruct (Z.compare_spec c t); split; try lia; done.
Qed.

(** [seek_write] on the encoded column family is the abstract look-up. *)
Lemma seek_write_spec ts :
  is_u64 ts ->
  match seek_write rd key ts with
  | Ok (Some (c, w)) => is_latest m key ts c w
  | Ok None => no_version m key ts
  | _ => False
  end.
Proof using Hwf Hkey.
  intros Hts. unfold seek_write. fold m.
  assert (forall c w, is_u64 c -> c <= ts -> version m key c = Some w ->
    exists c' v', seek_ge m (append_ts key ts) = Some (append_ts key c', v') /\ is_u64 c' /\ c <= c' <= ts) as Hfind.
  { intros c w Hc Hle Hv. apply version_Some in Hv as [Hw Hm].
    destruct (seek_ge m (append_ts key ts)) as [[k v]|] eqn:E.
    - apply seek_ge_Some in E as (Hk & Hge & Hl).
      pose proof (Hl _ _ Hm (proj2 (append_ts_le ts c Hts Hc) Hle)) as Hl'.
      destruct (entry_between ts c k v Hts Hc Hk Hge Hl') as (c' & -> & Hc' & ?). eauto.
    - apply seek_ge_None with (k2 := append_ts key c) (a2 := write_to_bytes w) in E; [|done].
      exfalso. apply not_ble in E. apply E. by apply append_ts_le. }
  destruct (seek_ge m (append_ts key ts)) as [[k v]|] eqn:E.
  2:{ intros c Hc Hle. destruct (version m key c) as [w|] eqn:Ev; [|done].
      by destruct (Hfind c w Hc Hle Ev) as (? & ? & ? & _). }
  apply seek_ge_Some in E as (Hk & Hge & Hl).
  destruct (Hwf _ _ Hk) as (key' & c' & w & Hk' & Hc' & _ & Hw & -> & ->).
  rewrite decode_ts_append_ts by done. cbn [map_err mbind res_bind].
  destruct (is_user_key_eq (append_ts key' c') key) eqn:Eu; cbn [negb].
  - apply is_user_key_eq_append_ts in Eu as (c2 & Hc2 & Eu).
    apply append_ts_inj in Eu as [-> ->]; [|done..].
    rewrite write_parse_to_bytes by done. cbn [map_err mbind res_bind].
    split_and!; [done|by apply append_ts_le in Hge|by apply version_Some|].
    intros c Hc Hlt. destruct (version m key c) as [w'|] eqn:Ev; [|done].
    apply version_Some in Ev as [Hw' Hm]. exfalso.
    assert (ble (append_ts key c2) (append_ts key c)) as Hle by (eapply Hl; [done|]; apply append_ts_le; done || lia).
    apply append_ts_le in Hle; [lia|done..].
  - intros c Hc Hle. destruct (version m key c) as [w'|] eqn:Ev; [|done].
    destruct (Hfind c w' Hc Hle Ev) as (c2 & v2 & [= E1 _] & Hc2 & _).
    apply append_ts_inj in E1 as [-> ->]; [|done..]. by rewrite is_user_key_eq_append in Eu.
Qed.

Lemma seek_write_Ok ts : is_u64 ts -> exists r, seek_write rd key ts = Ok r.
Proof using Hwf Hkey.
  intros H. apply seek_write_spec in H. destruct (seek_write rd key ts); [by eexists|done..].
Qed.

Lemma seek_write_latest ts c w :
  is_u64 ts -> is_latest m key ts c w -> seek_write rd key ts = Ok (Some (c, w)).
Proof using Hwf Hkey.
  intros Hts Hl. pose proof (seek_write_spec ts Hts) as Hs.
  destruct (seek_write rd key ts) as [[[c' w']|]| |]; try done.
  - destruct (is_latest_unique _ _ _ _ _ _ _ Hs Hl) as [-> ->]. done.
  - destruct Hl as (Hc & Hle & Hv & _). by rewrite (Hs c) in Hv.
Qed.

Lemma seek_write_none ts :
  is_u64 ts -> no_version m key ts -> seek_write rd key ts = Ok None.
Proof using Hwf Hkey.
  intros Hts Hn. pose proof (seek_write_spec ts Hts) as Hs.
  destruct (seek_write rd key ts) as [[[c' w']|]| |]; try done.
  destruct Hs as (Hc & Hle & Hv & _). by rewrite (Hn c') in Hv.
Qed.

Lemma version_pos c w : is_u64 c -> version m key c = Some w -> 0 < c.
Proof using Hwf.
  intros Hc Hv. apply version_Some in Hv as [_ Hm].
  destruct (Hwf _ _ Hm) as (k' & c' & w' & _ & Hc' & Hpos & _ & E & _).
  by apply append_ts_inj in E as [_ ->].
Qed.

(** *** Fuel *)

(** The entries an iteration at or after [k] can still meet. *)
Definition entries_from (k : bytes) : cf := filter (fun e => ble k e.1) m.

Lemma entries_from_size k : (size (entries_from k) <= size m)%nat.
Proof using. apply map_subseteq_size, map_filter_subseteq. Qed.

Lemma entries_from_decr ts c w :
  is_u64 ts -> is_latest m key ts c w ->
  (size (entries_from (append_ts key (c - 1))) < size (entries_from (append_ts key ts)))%nat.
Proof using Hwf.
  intros Hts (Hc & Hle & Hv & _). pose proof (version_pos c w Hc Hv) as Hpos.
  apply version_Some in Hv as [_ Hm].
  assert (is_u64 (c - 1)) as Hc1 by (unfold is_u64 in *; lia).
  apply map_subset_size, map_subset_alt. split.
  - apply map_filter_subseteq_ext. intros k v _ Hk. cbn in *. eapply ble_trans; [|exact Hk].
    apply append_ts_le; [done..|lia].
  - exists (append_ts key c). split.
    + apply map_lookup_filter_None_2. right. intros x _ Hx. cbn in Hx.
      apply append_ts_le in Hx; [lia|done..].
    + exists (write_to_bytes w). apply map_lookup_filter_Some_2; [done|]. cbn.
      by apply append_ts_le.
Qed.
End Seek.

(** ** Data-changing versions *)

(** Put and Delete records change the data; Lock and Rollback do not. *)
Definition is_data (w : Write) : bool :=
  match write_type w with WTPut | WTDelete => true | _ => false end.

Definition latest_data (m : cf) (key : Key) (ts c : TimeStamp) (w : Write) : Prop :=
  is_u64 c /\ c <= ts /\ version m key c = Some w /\ is_data w = true
  /\ (forall c' w', is_u64 c' -> c < c' <= ts -> version m key c' = Some w' -> is_data w' = false).

Definition no_data (m : cf) (key : Key) (ts : TimeStamp) : Prop :=
  forall c w, is_u64 c -> c <= ts -> version m key c = Some w -> is_data w = false.

(** The abstract read: the latest data-changing version at [ts], if it is a
    Put. *)
Definition reads (m : cf) (key : Key) (ts : TimeStamp) (r : option (Write * TimeStamp)) : Prop :=
  match r with
  | Some (w, c) => latest_data m key ts c w /\ write_type w = WTPut
  | None => no_data m key ts \/ exists c w, latest_data m key ts c w /\ write_type w = WTDelete
  end.

(** The [last_change] pointers tell the truth: a pointer with enough versions
    to be followed leads to the latest data-changing version, unless that
    version was removed because nothing is readable there; [LCNotExist] says
    that nothing is readable. *)
Definition last_change_valid (m : cf) (key : Key) : Prop :=
  forall c w, is_u64 c -> version m key c = Some w -> is_data w = false ->
  match write_last_change w with
  | LCUnknown => True
  | LCExist t versions =>
      SEEK_BOUND <= versions ->
      match version m key t with
      | Some w' => latest_data m key c t w'
      | None => reads m key c None
      end
  | LCNotExist => reads m key c None
  end.

(** The GC fence of a version, if it is not zero, is the timestamp of a newer
    data-changing version. *)
Definition fences_valid (m : cf) (key : Key) : Prop :=
  forall c w g, is_u64 c -> version m key c = Some w -> write_gc_fence w = Some g -> g <> 0 ->
  c < g /\ is_u64 g /\ exists w', version m key g = Some w' /\ is_data w' = true.

Lemma latest_data_unique m key ts c w c' w' :
  latest_data m key ts c w -> latest_data m key ts c' w' -> c = c' /\ w = w'.
Proof.
  intros (Hc & Hle & Hv & Hd & Hn) (Hc' & Hle' & Hv' & Hd' & Hn').
  destruct (Z.lt_trichotomy c c') as [H|[->|H]].
  - by rewrite (Hn c' w') in Hd' by (done || lia).
  - split; congruence.
  - by rewrite (Hn' c w) in Hd by (done || lia).
Qed.

Lemma reads_unique m key ts r r' : reads m key ts r -> reads m key ts r' -> r = r'.
Proof.
  destruct r as [[w c]|], r' as [[w' c']|]; cbn; [| | |done].
  - intros [H1 _] [H2 _]. destruct (latest_data_unique _ _ _ _ _ _ _ H1 H2) as [-> ->]. done.
  - intros [H1 Hp] [Hn|(c' & w' & H2 & Hd)].
    + destruct H1 as (Hc & Hle & Hv & Hd & _). by rewrite (Hn c w) in Hd.
    + destruct (latest_data_unique _ _ _ _ _ _ _ H1 H2) as [-> ->]. congruence.
  - intros [Hn|(c & w & H2 & Hd)] [H1 Hp].
    + destruct H1 as (Hc & Hle & Hv & Hd & _). by rewrite (Hn c' w') in Hd.
    + destruct (latest_data_unique _ _ _ _ _ _ _ H1 H2) as [-> ->]. congruence.
Qed.

(** Moving the timestamp across versions that change no data does not change
    what is read. *)
Lemma latest_data_skip m key ts ts' c w :
  ts' <= ts ->
  (forall c' w', is_u64 c' -> ts' < c' <= ts -> version m key c' = Some w' -> is_data w' = false) ->
  latest_data m key ts' c w -> latest_data m key ts c w.
Proof.
  intros Hle Hskip (Hc & Hcle & Hv & Hd & Hn). split_and!; [done|lia|done..|].
  intros c' w' Hc' Hlt Hv'. destruct (Z.le_gt_cases c' ts'); [eapply Hn|eapply Hskip]; done || lia.
Qed.

Lemma no_data_skip m key ts ts' :
  ts' <= ts ->
  (forall c' w', is_u64 c' -> ts' < c' <= ts -> version m key c' = Some w' -> is_data w' = false) ->
  no_data m key ts' -> no_data m key ts.
Proof.
  intros Hle Hskip Hn c w Hc Hcle Hv.
  destruct (Z.le_gt_cases c ts'); [eapply Hn|eapply Hskip]; done || lia.
Qed.

Lemma reads_skip m key ts ts' r :
  ts' <= ts ->
  (forall c' w', is_u64 c' -> ts' < c' <= ts -> version m key c' = Some w' -> is_data w' = false) ->
  reads m key ts' r -> reads m key ts r.
Proof.
  intros Hle Hskip. destruct r as [[w c]|]; cbn.
  - intros [H Hp]. eauto using latest_data_skip.
  - intros [H|(c & w & H & Hd)]; [left|right]; eauto 6 using no_data_skip, latest_data_skip.
Qed.

(** The latest version and, below it, the read. *)
Lemma latest_skip m key ts c w ts' r :
  is_latest m key ts c w -> is_data w = false -> c - 1 <= ts' <= c ->
  reads m key ts' r -> reads m key ts r.
Proof.
  intros (Hc & Hle & Hv & Hn) Hd Ht. apply reads_skip; [lia|].
  intros c' w' Hc' Hlt Hv'. destruct (decide (c' = c)) as [->|]; [congruence|].
  rewrite (Hn c') in Hv' by (done || lia). done.
Qed.

Lemma latest_is_data m key ts c w :
  is_latest m key ts c w -> is_data w = true -> latest_data m key ts c w.
Proof.
  intros (Hc & Hle & Hv & Hn) Hd. split_and!; [done..|].
  intros c' w' Hc' Hlt Hv'. by rewrite (Hn c') in Hv' by done.
Qed.

Lemma no_version_reads m key ts : no_version m key ts -> reads m key ts None.
Proof. intros Hn. left. intros c w Hc Hle Hv. by rewrite (Hn c) in Hv. Qed.

(** No data-changing version lies between [ts] and the timestamp fences are
    checked against. *)
Definition quiet (m : cf) (key : Key) (limit : option TimeStamp) (ts : TimeStamp) : Prop :=
  forall l c w, limit = Some l -> is_u64 c -> ts < c <= l -> version m key c = Some w -> is_data w = false.

Definition fences_pass (m : cf) (key : Key) (limit : option TimeStamp) : Prop :=
  forall c w, is_u64 c -> version m key c = Some w -> quiet m key limit c ->
  match limit with Some l => negb (check_gc_fence_as_latest_version w l) | None => false end = false.

Lemma fences_valid_pass m key limit : fences_valid m key -> fences_pass m key limit.
Proof.
  intros Hfence c w Hc Hv Hq. destruct limit as [l|] eqn:E; [|done]. unfold check_gc_fence_as_latest_version.
  destruct (write_gc_fence w) as [g|] eqn:Eg; [|done]. rewrite negb_involutive.
  unfold ts_is_zero. destruct (Z.eqb_spec g 0) as [|Hg]; [done|]. cbn [negb andb].
  destruct (Hfence c w g Hc Hv Eg Hg) as (Hcg & Hgu & w' & Hw' & Hd).
  apply Z.leb_gt. destruct (Z.le_gt_cases g l) as [Hle|]; [|done].
  by rewrite (Hq l g w') in Hd by (done || lia).
Qed.

(** ** [get_write] reads the latest data-changing version *)

Section GetWrite.
  Context (rd : Reader).
Let m := rd_cf rd CF_WRITE.
  Hypothesis Hwf : write_cf_wf m.
  Context (key : Key).
  Hypothesis Hkey : user_key key.
  Hypothesis Hlc : last_change_valid m key.
  Context (limit : option TimeStamp).
  (** A version that no newer data hides is not fenced off. *)
  Hypothesis Hfence : fences_pass m key limit.

Abbreviation quiet := (quiet m key limit).

Definition seek_result (ts : TimeStamp) (sr : option (TimeStamp * Write)) : Prop :=
  match sr with
  | Some (c, w) => is_latest m key ts c w
  | None => no_version m key ts
  end.

Lemma quiet_data ts c w : quiet ts -> latest_data m key ts c w -> quiet c.
Proof using.
  intros Hq (_ & _ & _ & _ & Hn) l c' w' El Hc' Hlt Hv.
  destruct (Z.le_gt_cases c' ts); [eapply Hn|eapply Hq]; done || lia.
Qed.

Lemma quiet_latest ts c w : quiet ts -> is_latest m key ts c w -> quiet c.
Proof using.
  intros Hq (_ & _ & _ & Hn) l c' w' El Hc' Hlt Hv.
  destruct (Z.le_gt_cases c' ts) as [Hle|]; [by rewrite (Hn c') in Hv by (done || lia)|eapply Hq; done || lia].
Qed.

Lemma quiet_prev c w : quiet c -> version m key c = Some w -> is_data w = false -> quiet (c - 1).
Proof using.
  intros Hq Hv Hd l c' w' El Hc' Hlt Hv'. destruct (decide (c' = c)) as [->|]; [congruence|].
  eapply Hq; done || lia.
Qed.

(** A data-changing version ends the loop. *)
Lemma get_write_loop_data f ts ts' c w :
  quiet c -> latest_data m key ts c w ->
  exists r, get_write_loop rd (S f) key ts' limit (Some (c, w)) = Ok r /\ reads m key ts r.
Proof using Hfence.
  intros Hq Hl. pose proof Hl as (Hc & Hle & Hv & Hd & _). cbn [get_write_loop].
  rewrite (Hfence c w Hc Hv Hq). unfold is_data in Hd.
  destruct (write_type w) eqn:Et; try done; eexists; (split; [done|]); [done|right; eauto].
Qed.

Lemma get_write_loop_spec f : forall ts sr,
  is_u64 ts -> quiet ts -> seek_result ts sr ->
  (size (entries_from rd (append_ts key ts)) + 2 <= f)%nat ->
  exists r, get_write_loop rd f key ts limit sr = Ok r /\ reads m key ts r.
Proof using Hwf Hkey Hlc Hfence.
  induction f as [|f IH]; intros ts sr Hts Hqt Hsr Hf; [lia|].
  destruct sr as [[c w]|]; [|exists None; split; [done|by apply no_version_reads]].
  cbn in Hsr. pose proof Hsr as (Hc & Hle & Hv & Hn).
  assert (quiet c) as Hq by (by eapply quiet_latest).
  destruct (is_data w) eqn:Hd; [by apply get_write_loop_data; [|apply latest_is_data]|].
  assert (c - 1 <= c <= c) as Hcc by lia.
  (* the round that moves to the next older version *)
  assert (exists r, (if ts_is_zero ts then Ok None
            else ts' ← ts_prev c; sr ← seek_write rd key ts'; get_write_loop rd f key ts' limit sr) = Ok r
          /\ reads m key ts r) as Hnext.
  { pose proof (version_pos rd Hwf key c w Hc Hv) as Hpos.
    unfold ts_is_zero. destruct (Z.eqb_spec ts 0); [lia|].
    rewrite ts_prev_ok by done. cbn [mbind res_bind].
    assert (is_u64 (c - 1)) as Hc1 by (unfold is_u64 in *; lia).
    pose proof (seek_write_spec rd Hwf key Hkey (c - 1) Hc1) as Hs.
    pose proof (entries_from_decr rd Hwf key ts c w Hts Hsr) as Hdec.
    destruct (seek_write rd key (c - 1)) as [sr'| |] eqn:Esk; [|done..]. cbn [mbind res_bind].
    destruct (IH (c - 1) sr' Hc1) as (r & Er & Hr); [by eapply quiet_prev|by destruct sr' as [[]|]|lia|].
    exists r. split; [done|]. eapply latest_skip; [exact Hsr|done| |exact Hr]. lia. }
  cbn [get_write_loop]. rewrite (Hfence c w Hc Hv Hq). pose proof (Hlc c w Hc Hv Hd) as Hptr.
  unfold is_data in Hd. destruct (write_type w) eqn:Et; try done; clear Hd;
    (assert (is_data w = false) as Hd by (unfold is_data; by rewrite Et)).
  all: destruct (write_last_change w) as [|t n|]; [done| |exists None; split; [done|]; by eapply latest_skip].
  all: destruct (Z.leb_spec SEEK_BOUND n) as [Hb|Hb]; [|done]; specialize (Hptr Hb); fold m.
  all: destruct (m !! append_ts key t) as [v|] eqn:Em.
  all: try (exists None; split; [done|]; unfold version in Hptr; rewrite Em in Hptr; by eapply latest_skip).
  all: destruct (version_entry rd Hwf key t v Em) as [w' Hw']; fold m in Hw'; rewrite Hw' in Hptr.
  all: apply (version_Some rd Hwf) in Hw' as [Hww Hm']; fold m in Hm'; rewrite Em in Hm'; injection Hm' as ->.
  all: rewrite write_parse_to_bytes by done; cbn [map_err mbind res_bind].
  all: destruct f as [|f]; [lia|]; destruct (get_write_loop_data f c ts t w' (quiet_data c t w' Hq Hptr) Hptr) as (r & Er & Hr).
  all: exists r; split; [|by eapply latest_skip].
  all: destruct Hptr as (_ & _ & _ & Hd' & _); unfold is_data in Hd'.
  all: destruct (write_type w'); done.
Qed.

(** [get_write_with_commit_ts] returns, within its fuel, the abstract read. *)
Lemma get_write_spec ts :
  is_u64 ts -> quiet ts ->
  exists r, get_write_with_commit_ts rd key ts limit = Ok r /\ reads m key ts r.
Proof using Hwf Hkey Hlc Hfence.
  intros Hts Hq. unfold get_write_with_commit_ts.
  pose proof (seek_write_spec rd Hwf key Hkey ts Hts) as Hs.
  destruct (seek_write rd key ts) as [sr| |]; [|done..]. cbn [mbind res_bind].
  apply get_write_loop_spec; [done..|by destruct sr as [[]|]|].
  pose proof (entries_from_size rd (append_ts key ts)) as He. unfold write_fuel. lia.
Qed.
End GetWrite.

(** ** The record of a transaction *)

(** The transaction that started at [st] left record [w] at [c]. *)
Definition txn_record (m : cf) (key : Key) (st c : TimeStamp) (w : Write) : Prop :=
  is_u64 c /\ version m key c = Some w /\ write_start_ts w = st.

Definition no_txn_record (m : cf) (key : Key) (st : TimeStamp) : Prop :=
  forall c w, ~ txn_record m key st c w.

(** A record is never older than its transaction. *)
Definition start_before_commit (m : cf) (key : Key) : Prop :=
  forall c w, is_u64 c -> version m key c = Some w -> write_start_ts w <= c.

(** [g] is the first data-changing version after [ts], or zero without one. *)
Definition next_data (m : cf) (key : Key) (ts g : TimeStamp) : Prop :=
  (g = 0 \/ (is_u64 g /\ ts < g /\ exists w, version m key g = Some w /\ is_data w = true))
  /\ forall c w, is_u64 c -> ts < c -> (g = 0 \/ c < g) -> version m key c = Some w -> is_data w = false.

Definition commit_record_correct (m : cf) (key : Key) (st : TimeStamp) (r : TxnCommitRecord) : Prop :=
  match r with
  | TCRSingleRecord c w => txn_record m key st c w
  | TCROverlappedRollback c =>
      c = st /\ no_txn_record m key st
      /\ exists w, version m key st = Some w /\ write_has_overlapped_rollback w = true
  | TCRNone (Some (mk_overlapped w g)) =>
      no_txn_record m key st /\ version m key st = Some w
      /\ write_has_overlapped_rollback w = false /\ next_data m key st g
  | TCRNone None => no_txn_record m key st /\ version m key st = None
  end.

Section CommitRecord.
  Context (rd : Reader).
Let m := rd_cf rd CF_WRITE.
  Hypothesis Hwf : write_cf_wf m.
  Context (key : Key) (st : TimeStamp).
  Hypothesis Hkey : user_key key.
  Hypothesis Hst : is_u64 st.
  Hypothesis Hstart : start_before_commit m key.

(** Nothing the loop has passed belongs to the transaction. *)
Definition passed (s g : TimeStamp) : Prop :=
  is_u64 s /\ st <= s /\ next_data m key s g
  /\ forall c w, is_u64 c -> s < c -> version m key c = Some w -> write_start_ts w <> st.

Lemma passed_none s g :
  passed s g -> no_version m key s \/ (exists c w, is_latest m key s c w /\ c < st /\ write_start_ts w <> st) ->
  no_txn_record m key st /\ version m key st = None.
Proof using Hst Hstart.
  intros (Hs & Hle & _ & Hp) Hcase. split.
  - intros c w (Hc & Hv & E). destruct (Z.le_gt_cases c s) as [Hcs|Hcs]; [|by eapply Hp].
    destruct Hcase as [Hn|(c' & w' & (Hc' & Hle' & Hv' & Hn) & Hlt & Hne)].
    + by rewrite (Hn c) in Hv.
    + pose proof (Hstart c w Hc Hv). by rewrite (Hn c) in Hv by (done || lia).
  - destruct Hcase as [Hn|(c' & w' & (Hc' & Hle' & Hv' & Hn) & Hlt & Hne)]; [by apply Hn|].
    apply Hn; [done|lia].
Qed.

Lemma passed_at_start s g w :
  passed s g -> is_latest m key s st w -> write_start_ts w <> st ->
  no_txn_record m key st /\ next_data m key st g.
Proof using Hstart.
  intros (Hs & Hle & (Hg & Hnd) & Hp) (Hc & _ & Hv & Hn) Hne. split.
  - intros c w' (Hc' & Hv' & E). destruct (Z.le_gt_cases c s) as [Hcs|Hcs]; [|by eapply Hp].
    pose proof (Hstart c w' Hc' Hv') as Hsc. destruct (decide (c = st)) as [->|]; [congruence|].
    by rewrite (Hn c) in Hv' by (done || lia).
  - split; [destruct Hg as [|(? & ? & ?)]; [by left|right; split_and!; done || lia]|].
    intros c w' Hc' Hlt Hcg Hv'. destruct (Z.le_gt_cases c s) as [Hcs|Hcs].
    + by rewrite (Hn c) in Hv' by (done || lia).
    + by eapply Hnd.
Qed.

Lemma passed_step s g c w :
  passed s g -> is_latest m key s c w -> st < c -> write_start_ts w <> st ->
  passed (c - 1) (if is_data w then c else g).
Proof using Hst.
  intros (Hs & Hle & (Hg & Hnd) & Hp) (Hc & Hcs & Hv & Hn) Hlt Hne.
  split_and!; [unfold is_u64 in *; lia|lia| |].
  - split.
    + destruct (is_data w) eqn:Hd; [right; split_and!; [done|lia|eauto]|].
      destruct Hg as [|(? & ? & ?)]; [by left|right; split_and!; done || lia].
    + intros c' w' Hc' Hlt' Hcg Hv'. destruct (Z.le_gt_cases c' s) as [Hcs'|Hcs'].
      * destruct (decide (c' = c)) as [->|]; [|by rewrite (Hn c') in Hv' by (done || lia)].
        destruct (is_data w) eqn:Hd; [unfold is_u64 in *; destruct Hcg; lia|congruence].
      * destruct (is_data w); [destruct Hcg; unfold is_u64 in *; lia|by eapply Hnd].
  - intros c' w' Hc' Hlt' Hv'. destruct (Z.le_gt_cases c' s) as [Hcs'|Hcs']; [|by eapply Hp].
    destruct (decide (c' = c)) as [->|]; [congruence|]. by rewrite (Hn c') in Hv' by (done || lia).
Qed.

Lemma commit_record_loop_spec f : forall s g,
  passed s g -> (size (entries_from rd (append_ts key s)) + 1 <= f)%nat ->
  exists r, commit_record_loop rd f key st s g = Ok r /\ commit_record_correct m key st r.
Proof using Hwf Hkey Hst Hstart.
  induction f as [|f IH]; intros s g Hpass Hf; [lia|].
  pose proof Hpass as (Hs & Hle & _ & _). cbn [commit_record_loop].
  pose proof (seek_write_spec rd Hwf key Hkey s Hs) as Hsk. fold m in Hsk.
  destruct (seek_write rd key s) as [[[c w]|]| |]; [| |done..]; cbn [mbind res_bind].
  2:{ exists (TCRNone None). split; [done|]. apply (passed_none s g Hpass). by left. }
  pose proof Hsk as (Hc & Hcs & Hv & Hn).
  destruct (Z.eqb_spec (write_start_ts w) st) as [E|Hne]; [by exists (TCRSingleRecord c w)|].
  destruct (Z.eqb_spec c st) as [->|Hcst].
  { destruct (passed_at_start s g w Hpass Hsk Hne) as [Hno Hnext].
    destruct (write_has_overlapped_rollback w) eqn:Eo; eexists; (split; [done|]); cbn; eauto 6. }
  destruct (Z.ltb_spec c st) as [Hlt|Hge].
  { exists (TCRNone None). split; [done|]. apply (passed_none s g Hpass). right. eauto 6. }
  rewrite ts_prev_ok by (unfold is_u64 in *; done || lia). cbn [mbind res_bind].
  pose proof (entries_from_decr rd Hwf key s c w Hs Hsk) as Hdec.
  assert ((if bool_decide (write_type w = WTPut) || bool_decide (write_type w = WTDelete) then c else g)
          = if is_data w then c else g) as ->.
  { unfold is_data. by destruct (write_type w). }
  apply IH; [|lia]. apply (passed_step s g c w); [done..|lia|done].
Qed.

Lemma get_txn_commit_record_spec :
  exists r, get_txn_commit_record rd key st = Ok r /\ commit_record_correct m key st r.
Proof using Hwf Hkey Hst Hstart.
  apply commit_record_loop_spec.
  - assert (forall c, is_u64 c -> c <= ts_max) as Hmax by (intros c; unfold is_u64, ts_max, u64_max; lia).
    split_and!; [by vm_compute|by apply Hmax| |].
    + split; [by left|]. intros c w Hc Hlt. specialize (Hmax c Hc). lia.
    + intros c w Hc Hlt. specialize (Hmax c Hc). lia.
  - pose proof (entries_from_size rd (append_ts key ts_max)) as He. unfold write_fuel. lia.
Qed.
End CommitRecord.
