(* ===== verification/MvccTxn.v ===== *)
(** * The transaction buffer (src/storage/mvcc/txn.rs)

    [MvccTxn] collects the modifications of one command. The actions read the
    snapshot through the reader and append to the buffer; they are written in
    a monad that threads the buffer and keeps it when an action returns an
    error, since some callers go on after an error. *)
From S2P Require Import Prelude Number Bytes Timestamp Key Fields Lock Write OrderedMap PeerLocks Engine.
From S2P Require Import ConcurrencyManager Reader.

Definition MAX_TXN_WRITE_SIZE : Z := 32 * 1024.

Record ReleasedLock := mk_released {
  rl_start_ts : TimeStamp;
  rl_commit_ts : TimeStamp;
  rl_key : Key;
  rl_pessimistic : bool
}.

Record MvccTxn := mk_txn {
  txn_start_ts : TimeStamp;
  txn_write_size : Z;
  txn_modifies : list Modify;
  txn_locks_for_1pc : list (Key * Lock * bool);
  txn_new_locks : list LockInfo;
  txn_cm : ConcurrencyManager;
  txn_guards : list Key
}.

Definition txn_new (start_ts : TimeStamp) (cm : ConcurrencyManager) : MvccTxn :=
  mk_txn start_ts 0 [] [] [] cm [].

Definition txn_with_cm (t : MvccTxn) (cm : ConcurrencyManager) : MvccTxn :=
  mk_txn (txn_start_ts t) (txn_write_size t) (txn_modifies t) (txn_locks_for_1pc t) (txn_new_locks t) cm
    (txn_guards t).

Definition txn_push_guard (t : MvccTxn) (cm : ConcurrencyManager) (key : Key) : MvccTxn :=
  mk_txn (txn_start_ts t) (txn_write_size t) (txn_modifies t) (txn_locks_for_1pc t) (txn_new_locks t) cm
    (txn_guards t ++ [key]).

(** ** The monad *)

Definition M (A : Type) : Type := MvccTxn -> mres A * MvccTxn.

#[export] Instance M_ret : MRet M := fun A a t => (Ok a, t).
#[export] Instance M_bind : MBind M := fun A B f m t =>
  match m t with
  | (Ok a, t) => f a t
  | (Err e, t) => (Err e, t)
  | (Panic, t) => (Panic, t)
  end.

(** A read, or a pure computation that may fail. *)
Definition lift {A} (r : mres A) : M A := fun t => (r, t).
Definition fail {A} (e : mvcc_error) : M A := fun t => (Err e, t).
Definition panic {A} : M A := fun t => (Panic, t).
Definition get_txn : M MvccTxn := fun t => (Ok t, t).
Definition put_txn (t' : MvccTxn) : M unit := fun _ => (Ok tt, t').
Definition massert {A} (b : bool) (k : M A) : M A := if b then k else panic.
(** [match m { Err(e) => h(e), ok => ok }]. *)
Definition catch {A} (m : M A) (h : mvcc_error -> M A) : M A := fun t =>
  match m t with (Err e, t) => h e t | r => r end.

(** ** Operations *)

Definition cf_name_len (c : CfName) : Z :=
  match c with CF_DEFAULT => 0 | CF_LOCK => 4 | CF_WRITE => 5 end.

Definition modify_size (m : Modify) : Z :=
  match m with
  | ModifyDelete c k => wrap64 (cf_name_len c + Z.of_nat (length k))
  | ModifyPut c k v => wrap64 (cf_name_len c + Z.of_nat (length k) + Z.of_nat (length v))
  | ModifyPessimisticLock k _ => wrap64 (cf_name_len CF_LOCK + Z.of_nat (length k))
  | _ => 0
  end.

Definition push_modify (m : Modify) : M unit := fun t =>
  (Ok tt, mk_txn (txn_start_ts t) (wrap64 (txn_write_size t + modify_size m)) (txn_modifies t ++ [m])
            (txn_locks_for_1pc t) (txn_new_locks t) (txn_cm t) (txn_guards t)).

(** [key.to_raw().unwrap()] *)
Definition raw_unwrap (key : Key) : M bytes :=
  match key_to_raw key with Ok raw => mret raw | _ => panic end.

Definition push_new_lock (info : LockInfo) : M unit := fun t =>
  (Ok tt, mk_txn (txn_start_ts t) (txn_write_size t) (txn_modifies t) (txn_locks_for_1pc t)
            (txn_new_locks t ++ [info]) (txn_cm t) (txn_guards t)).

Definition put_lock (key : Key) (lock : Lock) (is_new : bool) : M unit :=
  _ ← (if is_new then raw ← raw_unwrap key; push_new_lock (into_lock_info lock raw) else mret tt);
  push_modify (ModifyPut CF_LOCK key (lock_to_bytes lock)).

Definition put_locks_for_1pc (key : Key) (lock : Lock) (remove_pessimistic_lock : bool) : M unit := fun t =>
  (Ok tt, mk_txn (txn_start_ts t) (txn_write_size t) (txn_modifies t)
            (txn_locks_for_1pc t ++ [(key, lock, remove_pessimistic_lock)])
            (txn_new_locks t) (txn_cm t) (txn_guards t)).

Definition push_modify_unsized (m : Modify) : M unit := fun t =>
  (Ok tt, mk_txn (txn_start_ts t) (txn_write_size t) (txn_modifies t ++ [m])
            (txn_locks_for_1pc t) (txn_new_locks t) (txn_cm t) (txn_guards t)).

(** The size of a pessimistic lock is not added to [write_size]. *)
Definition put_pessimistic_lock (key : Key) (lock : PessimisticLock) (is_new : bool) : M unit :=
  _ ← (if is_new then raw ← raw_unwrap key; push_new_lock (into_lock_info (pl_to_lock lock) raw) else mret tt);
  push_modify_unsized (ModifyPessimisticLock key lock).

Definition unlock_key (key : Key) (pessimistic : bool) (commit_ts : TimeStamp) : M (option ReleasedLock) :=
  t ← get_txn;
  let released := mk_released (txn_start_ts t) commit_ts key pessimistic in
  _ ← push_modify (ModifyDelete CF_LOCK key);
  mret (Some released).

Definition put_value (key : Key) (ts : TimeStamp) (value : Value) : M unit :=
  push_modify (ModifyPut CF_DEFAULT (append_ts key ts) value).
Definition delete_value (key : Key) (ts : TimeStamp) : M unit :=
  push_modify (ModifyDelete CF_DEFAULT (append_ts key ts)).
Definition put_write (key : Key) (ts : TimeStamp) (value : Value) : M unit :=
  push_modify (ModifyPut CF_WRITE (append_ts key ts) value).
Definition delete_write (key : Key) (ts : TimeStamp) : M unit :=
  push_modify (ModifyDelete CF_WRITE (append_ts key ts)).

Definition mark_rollback_on_mismatching_lock (key : Key) (lock : Lock) (is_protected : bool) : M unit :=
  t ← get_txn;
  massert (negb (lock_ts lock =? txn_start_ts t))
    (if negb is_protected then mret tt
     else if txn_start_ts t <? lock_min_commit_ts lock then mret tt
     else if negb (lock_use_async_commit lock) then mret tt
     else put_lock key (lock_with_rollback_ts lock (lock_rollback_ts lock ++ [txn_start_ts t])) false).

(** The guards are dropped, which removes their keys from the lock table. *)
Definition txn_clear : M unit := fun t =>
  (Ok tt, mk_txn (txn_start_ts t) 0 [] [] [] (fold_left guard_drop (txn_guards t) (txn_cm t)) []).

Definition txn_is_empty (t : MvccTxn) : bool :=
  bool_decide (length (txn_modifies t) = O) && bool_decide (length (txn_locks_for_1pc t) = O).

Definition into_modifies {E} (t : MvccTxn) : res E (list Modify) :=
  rassert (bool_decide (length (txn_locks_for_1pc t) = O)) (Ok (txn_modifies t)).
