(* ===== verification/CheckTxnStatus.v ===== *)
(** * Deciding the fate of a transaction
    (src/storage/txn/actions/{check_txn_status,commit,cleanup}.rs)

    The actions that look at the lock or the records of a transaction on one
    key and commit it, roll it back, or report its status. *)
From S2P Require Import Prelude Number Bytes Timestamp Key Fields Lock Write OrderedMap PeerLocks Engine.
From S2P Require Import ConcurrencyManager Reader MvccTxn.

(** src/storage/types.rs *)
Inductive TxnStatus :=
| TSRolledBack
| TSTtlExpire
| TSLockNotExist
| TSUncommitted (lock : Lock) (min_commit_ts_pushed : bool)
| TSCommitted (commit_ts : TimeStamp)
| TSPessimisticRollBack
| TSLockNotExistDoNothing.

Definition is_decided (s : TxnStatus) : bool :=
  match s with TSRolledBack | TSTtlExpire | TSCommitted _ => true | _ => false end.

Inductive MissingLockAction := MLARollback | MLAProtectedRollback | MLAReturnError.

#[export] Instance MissingLockAction_eq_dec : EqDecision MissingLockAction.
Proof. solve_decision. Defined.

Definition mla_rollback_protect (protect_rollback : bool) : MissingLockAction :=
  if protect_rollback then MLAProtectedRollback else MLARollback.

Definition mla_rollback (rollback_if_not_exist : bool) : MissingLockAction :=
  if rollback_if_not_exist then MLAProtectedRollback else MLAReturnError.

Definition mla_collapse_rollback (a : MissingLockAction) : mres bool :=
  match a with
  | MLARollback => Ok true
  | MLAProtectedRollback => Ok false
  | MLAReturnError => Panic
  end.

Definition make_rollback (start_ts : TimeStamp) (protected : bool)
    (overlapped_write : option OverlappedWrite) : mres (option Write) :=
  match overlapped_write with
  | Some (mk_overlapped write gc_fence) =>
      rassert (write_start_ts write <? start_ts)
        (Ok (if protected then Some (set_overlapped_rollback write true (Some gc_fence)) else None))
  | None => Ok (Some (write_new_rollback start_ts protected))
  end.

Definition mla_construct_write (a : MissingLockAction) (ts : TimeStamp)
    (overlapped_write : option OverlappedWrite) : mres (option Write) :=
  collapse ← mla_collapse_rollback a;
  make_rollback ts (negb collapse) overlapped_write.

(** [lock.ts.physical() + lock.ttl < current_ts.physical()], in 64 bits. *)
Definition lock_expired (lock : Lock) (current_ts : TimeStamp) : bool :=
  wrap64 (ts_physical (lock_ts lock) + lock_ttl lock) <? ts_physical current_ts.

Section Actions.
  Context (rd : Reader).
Let start_ts := rd_start_ts rd.

(** [key.into_raw()?] *)
Definition into_raw_m (key : Key) : M bytes := lift (map_err MCodec (key_into_raw key)).

Definition collapse_prev_rollback (key : Key) : M unit :=
  r ← lift (seek_write rd key start_ts);
  match r with
  | Some (commit_ts, write) =>
      if bool_decide (write_type write = WTRollback) && negb (write_is_protected write)
      then delete_write key commit_ts
      else mret tt
  | None => mret tt
  end.

Definition put_rollback_write (key : Key) (w : option Write) : M unit :=
  match w with
  | Some write => put_write key start_ts (write_to_bytes write)
  | None => mret tt
  end.

Definition rollback_lock (key : Key) (lock : Lock) (pessimistic_txn collapse_rollback : bool) :
    M (option ReleasedLock) :=
  record ← lift (get_txn_commit_record rd key start_ts);
  match record with
  | TCRNone overlapped_write =>
      _ ← (if bool_decide (lock_short_value lock = None) && bool_decide (lock_type lock = LTPut)
           then delete_value key (lock_ts lock) else mret tt);
      let protected := key_is_encoded_from key (lock_primary lock) || (0 <? lock_generation lock) in
      w ← lift (make_rollback start_ts protected overlapped_write);
      _ ← put_rollback_write key w;
      _ ← (if collapse_rollback then collapse_prev_rollback key else mret tt);
      unlock_key key pessimistic_txn ts_zero
  | TCRSingleRecord _ write =>
      if bool_decide (write_type write = WTRollback) then unlock_key key pessimistic_txn ts_zero
      else panic
  | TCROverlappedRollback _ => unlock_key key pessimistic_txn ts_zero
  end.

Definition check_determined_txn_status (primary_key : Key) : mres (option TxnStatus) :=
  record ← get_txn_commit_record rd primary_key start_ts;
  Ok (match record with
      | TCRSingleRecord commit_ts write =>
          if bool_decide (write_type write = WTRollback) then Some TSRolledBack
          else Some (TSCommitted commit_ts)
      | TCROverlappedRollback _ => Some TSRolledBack
      | TCRNone _ => None
      end).

Definition check_txn_status_missing_lock (primary_key : Key) (mismatch_lock : option Lock)
    (action : MissingLockAction) (resolving_pessimistic_lock : bool) : M TxnStatus :=
  record ← lift (get_txn_commit_record rd primary_key start_ts);
  match record with
  | TCRSingleRecord commit_ts write =>
      mret (if bool_decide (write_type write = WTRollback) then TSRolledBack
            else TSCommitted commit_ts)
  | TCROverlappedRollback _ => mret TSRolledBack
  | TCRNone overlapped_write =>
      if bool_decide (action = MLAReturnError) then
        raw ← into_raw_m primary_key; fail (MTxnNotFound start_ts raw)
      else if resolving_pessimistic_lock then mret TSLockNotExistDoNothing
      else
        collapse ← lift (mla_collapse_rollback action);
        _ ← (if collapse : bool then collapse_prev_rollback primary_key else mret tt);
        _ ← (match mismatch_lock, overlapped_write with
             | Some l, None =>
                 mark_rollback_on_mismatching_lock primary_key l
                   (bool_decide (action = MLAProtectedRollback))
             | _, _ => mret tt
             end);
        w ← lift (mla_construct_write action start_ts overlapped_write);
        _ ← put_rollback_write primary_key w;
        mret TSLockNotExist
  end.

Definition check_txn_status_from_pessimistic_primary_lock (primary_key : Key) (lock : Lock)
    (current_ts : TimeStamp) (resolving_pessimistic_lock : bool) :
    M (option TxnStatus * option ReleasedLock) :=
  massert (is_pessimistic_lock lock)
    (stale ← (if is_pessimistic_lock_with_conflict lock
              then lift (check_determined_txn_status primary_key) else mret None);
     match stale with
     | Some txn_status =>
         released ← unlock_key primary_key true ts_zero;
         mret (Some txn_status, released)
     | None =>
         if lock_expired lock current_ts then
           if resolving_pessimistic_lock then
             released ← unlock_key primary_key true ts_zero;
             mret (Some TSPessimisticRollBack, released)
           else
             released ← rollback_lock primary_key lock true true;
             mret (Some TSTtlExpire, released)
         else mret (None, None)
     end).

(** The end of [check_txn_status_lock_exists]: push the [min_commit_ts] of a
    live lock above the caller. *)
Definition push_min_commit_ts (primary_key : Key) (lock : Lock) (current_ts caller_start_ts : TimeStamp) :
    M (TxnStatus * option ReleasedLock) :=
  lock ← (if negb (ts_is_zero (lock_min_commit_ts lock)) && negb (ts_is_max caller_start_ts)
             && (lock_min_commit_ts lock <=? caller_start_ts)
          then
            min_commit_ts ← lift (ts_next caller_start_ts);
            let lock := lock_with_min_commit_ts lock
              (if min_commit_ts <? current_ts then current_ts else min_commit_ts) in
            _ ← put_lock primary_key lock false;
            mret lock
          else mret lock);
  let min_commit_ts_pushed :=
    (negb (ts_is_zero caller_start_ts) && (caller_start_ts <? lock_min_commit_ts lock))
    || ts_is_max caller_start_ts in
  mret (TSUncommitted lock min_commit_ts_pushed, None).

Definition check_txn_status_lock_exists (primary_key : Key) (lock : Lock)
    (current_ts caller_start_ts : TimeStamp)
    (force_sync_commit resolving_pessimistic_lock verify_is_primary rollback_if_not_exist : bool) :
    M (TxnStatus * option ReleasedLock) :=
  if verify_is_primary && negb (key_is_encoded_from primary_key (lock_primary lock)) then
    if negb resolving_pessimistic_lock && is_pessimistic_lock lock then
      txn_status ← check_txn_status_missing_lock primary_key None (mla_rollback rollback_if_not_exist)
                     resolving_pessimistic_lock;
      released ← unlock_key primary_key true ts_zero;
      mret (txn_status, released)
    else
      raw ← into_raw_m primary_key;
      fail (MPrimaryMismatch (into_lock_info lock raw))
  else if lock_use_async_commit lock && negb force_sync_commit then
    mret (TSUncommitted lock false, None)
  else if is_pessimistic_lock lock then
    check_result ← check_txn_status_from_pessimistic_primary_lock primary_key lock current_ts
                     resolving_pessimistic_lock;
    match check_result with
    | (Some txn_status, Some released_lock) => mret (txn_status, Some released_lock)
    | (None, None) => push_min_commit_ts primary_key lock current_ts caller_start_ts
    | _ => panic
    end
  else if lock_expired lock current_ts then
    released ← rollback_lock primary_key lock (negb (ts_is_zero (lock_for_update_ts lock))) true;
    mret (TSTtlExpire, released)
  else push_min_commit_ts primary_key lock current_ts caller_start_ts.

Definition cleanup (key : Key) (current_ts : TimeStamp) (protect_rollback : bool) :
    M (option ReleasedLock) :=
  l ← lift (load_lock rd key);
  let missing :=
    status ← check_txn_status_missing_lock key l (mla_rollback_protect protect_rollback) false;
    match status with
    | TSCommitted commit_ts => raw ← into_raw_m key; fail (MCommitted start_ts commit_ts raw)
    | TSRolledBack => mret None
    | TSLockNotExist => mret None
    | _ => panic
    end in
  match l with
  | Some lock =>
      if lock_ts lock =? start_ts then
        if negb (ts_is_zero current_ts) && negb (lock_expired lock current_ts) then
          raw ← into_raw_m key; fail (MKeyIsLocked (into_lock_info lock raw))
        else rollback_lock key lock (is_pessimistic_txn lock) (negb protect_rollback)
      else missing
  | None => missing
  end.

(** The record a commit writes: the lock's type, value, pointer and source,
    marked when a protected rollback sits at the commit timestamp. *)
Definition commit_write (lock : Lock) (commit_ts : TimeStamp) : mres Write :=
  match write_type_from_lock_type (lock_type lock) with
  | None => Panic
  | Some t =>
      let write :=
        write_set_txn_source
          (write_set_last_change (write_new t start_ts (lock_short_value lock)) (lock_last_change lock))
          (lock_txn_source lock) in
      Ok (if existsb (fun ts => ts =? commit_ts) (lock_rollback_ts lock)
          then set_overlapped_rollback write true None else write)
  end.

Definition commit (key : Key) (commit_ts : TimeStamp) : M (option ReleasedLock) :=
  l ← lift (load_lock rd key);
  let missing :=
    record ← lift (get_txn_commit_record rd key start_ts);
    match tcr_info record with
    | Some (_, WTRollback) | None =>
        raw ← into_raw_m key; fail (MTxnLockNotFound start_ts commit_ts raw)
    | Some _ => mret None
    end in
  match l with
  | Some lock =>
      if lock_ts lock =? start_ts then
        if commit_ts <? lock_min_commit_ts lock then
          raw ← into_raw_m key;
          fail (MCommitTsExpired start_ts commit_ts raw (lock_min_commit_ts lock))
        else if is_pessimistic_lock lock then
          unlock_key key (is_pessimistic_txn lock) ts_zero
        else
          write ← lift (commit_write lock commit_ts);
          _ ← put_write key commit_ts (write_to_bytes write);
          unlock_key key (is_pessimistic_txn lock) commit_ts
      else missing
  | None => missing
  end.
End Actions.

(** The sum of the lock's time and its TTL wraps around: a lock written at
    1000 ms with a TTL of 2^64 - 501 ms counts as expired at 1000 ms. *)
Example lock_expired_wraps :
  let ts := ts_compose 1000 0 in
  lock_expired (lock_new LTPut [] ts (u64_max - 500) None 0 0 0 false) ts = true.
Proof. vm_compute. reflexivity. Qed.
