(* ===== verification/Prewrite.v ===== *)
(** * Prewrite
    (src/storage/txn/actions/{prewrite,common,check_data_constraint}.rs)

    Writing the lock of one mutation: the checks against the lock and the
    newer versions of the key, assertions, the commit timestamp of async
    commit and one-phase commit, and the lock itself. *)
From S2P Require Import Prelude Number Bytes Timestamp Key Fields Lock Write OrderedMap PeerLocks Engine.
From S2P Require Import ConcurrencyManager Reader MvccTxn CheckTxnStatus.

(** ** Parameters of the transaction *)

Inductive CommitKind :=
| TwoPc
| OnePc (max_commit_ts : TimeStamp)
| Async (max_commit_ts : TimeStamp).

Inductive TransactionKind :=
| Optimistic (skip_constraint_check : bool)
| Pessimistic (for_update_ts : TimeStamp).

Inductive AssertionLevel := ALOff | ALFast | ALStrict.

#[export] Instance AssertionLevel_eq_dec : EqDecision AssertionLevel.
Proof. solve_decision. Defined.

Inductive PessimisticAction := SkipPessimisticCheck | DoPessimisticCheck | DoConstraintCheck.

#[export] Instance PessimisticAction_eq_dec : EqDecision PessimisticAction.
Proof. solve_decision. Defined.

Record TransactionProperties := mk_props {
  tp_start_ts : TimeStamp;
  tp_kind : TransactionKind;
  tp_commit_kind : CommitKind;
  tp_primary : bytes;
  tp_txn_size : Z;
  tp_lock_ttl : Z;
  tp_min_commit_ts : TimeStamp;
  tp_need_old_value : bool;
  tp_is_retry_request : bool;
  tp_assertion_level : AssertionLevel;
  tp_txn_source : Z
}.

Definition tp_max_commit_ts (p : TransactionProperties) : mres TimeStamp :=
  match tp_commit_kind p with TwoPc => Panic | OnePc ts => Ok ts | Async ts => Ok ts end.

Definition tp_is_pessimistic (p : TransactionProperties) : bool :=
  match tp_kind p with Optimistic _ => false | Pessimistic _ => true end.

Definition tp_for_update_ts (p : TransactionProperties) : TimeStamp :=
  match tp_kind p with Optimistic _ => ts_zero | Pessimistic ts => ts end.

Inductive LockStatus :=
| LSLocked (min_commit_ts : TimeStamp)
| LSPessimistic (for_update_ts : TimeStamp)
| LSNone.

Definition has_pessimistic_lock (s : LockStatus) : bool :=
  match s with LSPessimistic _ => true | _ => false end.

(** ** One mutation *)

Record PrewriteMutation := mk_pmut {
  pm_key : Key;
  pm_value : option Value;
  pm_mutation_type : MutationType;
  pm_secondary_keys : option (list bytes);
  pm_min_commit_ts : TimeStamp;
  pm_pessimistic_action : PessimisticAction;
  pm_lock_type : option LockType;
  pm_lock_ttl : Z;
  pm_last_change : LastChange;
  pm_should_not_exist : bool;
  pm_should_not_write : bool;
  pm_assertion : Assertion;
  pm_txn_props : TransactionProperties
}.

Definition pm_with_last_change (m : PrewriteMutation) (lc : LastChange) : PrewriteMutation :=
  mk_pmut (pm_key m) (pm_value m) (pm_mutation_type m) (pm_secondary_keys m) (pm_min_commit_ts m)
    (pm_pessimistic_action m) (pm_lock_type m) (pm_lock_ttl m) lc (pm_should_not_exist m)
    (pm_should_not_write m) (pm_assertion m) (pm_txn_props m).

Definition pm_with_lock (m : PrewriteMutation) (ttl : Z) (min_commit_ts : TimeStamp) : PrewriteMutation :=
  mk_pmut (pm_key m) (pm_value m) (pm_mutation_type m) (pm_secondary_keys m) min_commit_ts
    (pm_pessimistic_action m) (pm_lock_type m) ttl (pm_last_change m) (pm_should_not_exist m)
    (pm_should_not_write m) (pm_assertion m) (pm_txn_props m).

Definition from_mutation (mutation : Mutation) (secondary_keys : option (list bytes))
    (pessimistic_action : PessimisticAction) (txn_props : TransactionProperties) : mres PrewriteMutation :=
  if tp_is_pessimistic txn_props && should_not_write mutation then Err MOther
  else
    let '(key, value) := into_key_value mutation in
    Ok (mk_pmut key value (mutation_type mutation) secondary_keys (tp_min_commit_ts txn_props)
          pessimistic_action (lock_type_from_mutation mutation) (tp_lock_ttl txn_props) LCUnknown
          (should_not_exists mutation) (should_not_write mutation) (get_assertion mutation) txn_props).

(** [key.to_raw()?] *)
Definition to_raw_r (key : Key) : mres bytes := map_err MCodec (key_to_raw key).

Definition info_with_ttl (i : LockInfo) (ttl : Z) : LockInfo :=
  mk_lock_info (info_primary_lock i) (info_lock_version i) (info_key i) ttl (info_txn_size i)
    (info_lock_type i) (info_lock_for_update_ts i) (info_use_async_commit i) (info_min_commit_ts i)
    (info_secondaries i).

Definition pm_lock_info (m : PrewriteMutation) (lock : Lock) : mres LockInfo :=
  raw ← to_raw_r (pm_key m);
  let info := into_lock_info lock raw in
  Ok (if tp_is_pessimistic (pm_txn_props m) then info_with_ttl info 0 else info).

Definition check_lock (m : PrewriteMutation) (lock : Lock) (pessimistic_action : PessimisticAction)
    (expected_for_update_ts : option TimeStamp) (generation_to_write : Z) :
    mres (LockStatus * PrewriteMutation) :=
  let props := pm_txn_props m in
  if negb (lock_ts lock =? tp_start_ts props) then
    if bool_decide (pessimistic_action = DoPessimisticCheck) then
      raw ← to_raw_r (pm_key m); Err (MPessimisticLockNotFound (tp_start_ts props) raw LockTsMismatch)
    else info ← pm_lock_info m lock; Err (MKeyIsLocked info)
  else
    let m := pm_with_last_change m (lock_last_change lock) in
    if is_pessimistic_lock lock then
      if negb (tp_is_pessimistic props) then
        raw ← to_raw_r (pm_key m); Err (MLockTypeNotMatch (tp_start_ts props) raw true)
      else if match expected_for_update_ts with
              | Some ts => negb (lock_for_update_ts lock =? ts)
              | None => false
              end
      then
        raw ← to_raw_r (pm_key m);
        Err (MPessimisticLockNotFound (tp_start_ts props) raw LockForUpdateTsMismatch)
      else
        Ok (LSPessimistic (lock_for_update_ts lock),
            pm_with_lock m (Z.max (pm_lock_ttl m) (lock_ttl lock))
              (Z.max (pm_min_commit_ts m) (lock_min_commit_ts lock)))
    else if (0 <? generation_to_write) && (generation_to_write <=? lock_generation lock) then
      Err (MGenerationOutOfOrder generation_to_write (pm_key m) lock)
    else if (0 <? lock_generation lock) && pm_should_not_exist m && bool_decide (lock_type lock = LTPut) then
      raw ← to_raw_r (pm_key m); Err (MAlreadyExist raw (lock_ts lock))
    else
      Ok (LSLocked (if lock_use_async_commit lock then lock_min_commit_ts lock else ts_zero), m).

Definition skip_constraint_check (m : PrewriteMutation) : bool :=
  match tp_kind (pm_txn_props m) with
  | Optimistic s => s
  | Pessimistic _ =>
      match pm_pessimistic_action m with
      | DoPessimisticCheck => true
      | SkipPessimisticCheck => negb (tp_is_retry_request (pm_txn_props m))
      | DoConstraintCheck => false
      end
  end.

Definition need_min_commit_ts (m : PrewriteMutation) : bool :=
  match tp_commit_kind (pm_txn_props m) with Async _ | OnePc _ => true | TwoPc => false end.

Definition try_one_pc (m : PrewriteMutation) : bool :=
  match tp_commit_kind (pm_txn_props m) with OnePc _ => true | _ => false end.

Definition write_conflict_error {A} (m : PrewriteMutation) (write : Write) (commit_ts : TimeStamp)
    (reason : WriteConflictReason) : mres A :=
  raw ← to_raw_r (pm_key m);
  Err (MWriteConflict (tp_start_ts (pm_txn_props m)) (write_start_ts write) commit_ts raw
         (tp_primary (pm_txn_props m)) reason).

Definition assertion_failed_error {A} (m : PrewriteMutation) (existing_start_ts existing_commit_ts : TimeStamp) :
    mres A :=
  raw ← to_raw_r (pm_key m);
  Err (MAssertionFailed (tp_start_ts (pm_txn_props m)) raw (pm_assertion m) existing_start_ts existing_commit_ts).

(** ** Checks against the snapshot *)

Section Checks.
  Context (rd : Reader).

(** A non-zero GC fence on the latest version: the version is already gone. *)
Definition fenced (w : Write) : bool :=
  match write_gc_fence w with Some ts => negb (ts_is_zero ts) | None => false end.

Definition check_data_constraint (should_not_exist : bool) (write : Write) (write_commit_ts : TimeStamp)
    (key : Key) : mres unit :=
  if negb should_not_exist || bool_decide (write_type write = WTDelete) || fenced write then Ok tt
  else
    existing ←
      (if bool_decide (write_type write = WTPut) then Ok (Some (write_start_ts write))
       else
         ts ← ts_prev write_commit_ts;
         prev_write ← get_write rd key ts (Some (rd_start_ts rd));
         Ok (option_map write_start_ts prev_write));
    match existing with
    | Some existing_start_ts => raw ← to_raw_r key; Err (MAlreadyExist raw existing_start_ts)
    | None => Ok tt
    end.

Definition next_last_change_info (key : Key) (write : Write) (start_ts : TimeStamp) (commit_ts : TimeStamp) :
    mres LastChange :=
  match write_type write with
  | WTPut | WTDelete => lc_make_exist commit_ts 1
  | WTLock | WTRollback =>
      match write_last_change write with
      | LCExist last_change_ts versions => lc_make_exist last_change_ts (wrap64 (versions + 1))
      | LCNotExist => Ok LCNotExist
      | LCUnknown =>
          res ← get_write_with_commit_ts rd key commit_ts (Some start_ts);
          match res with
          | None => Ok LCNotExist
          | Some (w, last_change_ts) =>
              sr ← seek_write rd key commit_ts;
              rassert (bool_decide (write_type w = WTPut))
                (lc_make_exist last_change_ts
                   (wrap64 (next_count rd (write_fuel rd) key commit_ts (Some start_ts) sr + 1)))
          end
      end
  end.

(** The loop passes the Rollback records of others when the transaction is
    pessimistic; every round moves to an older version. *)
Fixpoint newer_version_loop (fuel : nat) (m : PrewriteMutation) (seek_ts : TimeStamp) :
    mres (option (Write * TimeStamp) * PrewriteMutation) :=
  match fuel with
  | O => Panic
  | S f =>
      let props := pm_txn_props m in
      r ← seek_write rd (pm_key m) seek_ts;
      match r with
      | None =>
          Ok (None, if ts_is_max seek_ts then pm_with_last_change m LCNotExist else m)
      | Some (commit_ts, write) =>
          if (commit_ts =? tp_start_ts props)
             && (bool_decide (write_type write = WTRollback) || write_has_overlapped_rollback write)
          then write_conflict_error m write commit_ts ReasonSelfRolledBack
          else
            m ← (if ts_is_max seek_ts then
                   lc ← next_last_change_info (pm_key m) write (rd_start_ts rd) commit_ts;
                   Ok (pm_with_last_change m lc)
                 else Ok m);
            let found :=
              _ ← check_data_constraint (pm_should_not_exist m) write commit_ts (pm_key m);
              Ok (Some (write, commit_ts), m) in
            match tp_kind props with
            | Optimistic _ =>
                if tp_start_ts props <? commit_ts
                then write_conflict_error m write commit_ts ReasonOptimistic
                else found
            | Pessimistic for_update_ts =>
                if bool_decide (pm_pessimistic_action m = DoConstraintCheck)
                   && (tp_start_ts props <? commit_ts)
                then write_conflict_error m write commit_ts ReasonLazyUniquenessCheck
                else if for_update_ts <? commit_ts then
                  if bool_decide (write_type write = WTRollback) then
                    seek_ts ← ts_prev commit_ts;
                    newer_version_loop f m seek_ts
                  else
                    raw ← map_err MCodec (key_into_raw (pm_key m));
                    Err (MPessimisticLockNotFound (tp_start_ts props) raw NonLockKeyConflict)
                else found
            end
      end
  end.

Definition check_for_newer_version (m : PrewriteMutation) :
    mres (option (Write * TimeStamp) * PrewriteMutation) :=
  newer_version_loop (write_fuel rd) m ts_max.

Definition check_assertion (m : PrewriteMutation) (write : option (Write * TimeStamp)) (write_loaded : bool) :
    mres (option (Write * TimeStamp) * bool) :=
  let props := pm_txn_props m in
  if bool_decide (pm_assertion m = AssertNone) || bool_decide (tp_assertion_level props = ALOff) then
    Ok (None, false)
  else if negb (bool_decide (tp_assertion_level props = ALStrict)) && negb write_loaded then
    Ok (None, false)
  else
    let write :=
      if write_loaded && match write with Some (w, _) => fenced w | None => false end then None
      else write in
    let need_reload :=
      negb write_loaded
      || match write with
         | Some (w, _) => negb (bool_decide (write_type w = WTPut)) && negb (bool_decide (write_type w = WTDelete))
         | None => false
         end in
    '(write, reloaded_write, reloaded) ←
      (if need_reload then
         let reload_ts := match write with Some (_, ts) => ts | None => ts_max end in
         w ← get_write_with_commit_ts rd (pm_key m) reload_ts (Some (rd_start_ts rd));
         Ok (w, w, true)
       else Ok (write, None, false));
    let assertion_err : mres unit :=
      match pm_assertion m, write with
      | AssertExist, None => assertion_failed_error m ts_zero ts_zero
      | AssertExist, Some (w, commit_ts) =>
          if bool_decide (write_type w = WTDelete)
          then assertion_failed_error m (write_start_ts w) commit_ts else Ok tt
      | AssertNotExist, Some (w, commit_ts) =>
          if bool_decide (write_type w = WTPut)
          then assertion_failed_error m (write_start_ts w) commit_ts else Ok tt
      | _, _ => Ok tt
      end in
    match assertion_err with
    | Ok _ => Ok (reloaded_write, reloaded)
    | Err e =>
        if skip_constraint_check m then _ ← check_for_newer_version m; Err e else Err e
    | Panic => Panic
    end.

Definition amend_pessimistic_lock (m : PrewriteMutation) : mres PrewriteMutation :=
  write ← seek_write rd (pm_key m) ts_max;
  m ← (match write with
       | Some (commit_ts, w) =>
           if rd_start_ts rd <=? commit_ts then
             raw ← map_err MCodec (key_into_raw (pm_key m));
             Err (MPessimisticLockNotFound (rd_start_ts rd) raw LockMissingAmendFail)
           else
             lc ← next_last_change_info (pm_key m) w (rd_start_ts rd) commit_ts;
             Ok (pm_with_last_change m lc)
       | None => Ok (pm_with_last_change m LCNotExist)
       end);
  _ ← check_assertion m (option_map (fun '(ts, w) => (w, ts)) write) true;
  Ok m.
End Checks.

(** ** Writing the lock *)

(** [update_max_ts(..)?] *)
Definition update_max_ts_m (env : CmEnv) (ts : TimeStamp) : M unit := fun t =>
  match update_max_ts env (txn_cm t) ts with
  | (Ok _, cm) => (Ok tt, txn_with_cm t cm)
  | (Err e, cm) => (Err (MInvalidMaxTsUpdate e), txn_with_cm t cm)
  | (Panic, cm) => (Panic, txn_with_cm t cm)
  end.

(** The closure run under the guard: the lock with its [min_commit_ts], given
    the [max_ts] it read. *)
Definition publish_lock (max_ts : TimeStamp) (lock : Lock) (start_ts for_update_ts max_commit_ts : TimeStamp) : mres Lock :=
  next ← ts_next (Z.max (Z.max max_ts start_ts) for_update_ts);
  let min_commit_ts := Z.max (lock_min_commit_ts lock) next in
  if negb (ts_is_zero max_commit_ts) && (max_commit_ts <? min_commit_ts)
  then Err (MCommitTsTooLarge start_ts min_commit_ts max_commit_ts)
  else Ok (lock_with_min_commit_ts lock min_commit_ts).

(** The guard of the key is taken, [max_ts] is read and the lock is made
    visible under it; the guard is kept on success and dropped on an error.
    Waiting for a guard that another thread holds would not return (the latch
    of the key excludes it). *)
Definition async_commit_timestamps (key : Key) (lock : Lock) (start_ts for_update_ts max_commit_ts : TimeStamp) :
    M (TimeStamp * Lock) := fun t =>
  match cm_lock_key (txn_cm t) key with
  | None => (Panic, t)
  | Some cm =>
      match publish_lock (cm_max_ts cm) lock start_ts for_update_ts max_commit_ts with
      | Ok lock => (Ok (lock_min_commit_ts lock, lock), txn_push_guard t (guard_set_lock cm key (Some lock)) key)
      | Err e => (Err e, txn_with_cm t (guard_drop cm key))
      | Panic => (Panic, t)
      end
  end.

Definition for_update_ts_to_write (props : TransactionProperties) (lock_status : LockStatus) : TimeStamp :=
  match lock_status with
  | LSPessimistic from_pessimistic_lock => Z.max (tp_for_update_ts props) from_pessimistic_lock
  | _ => tp_for_update_ts props
  end.

(** The lock before the value and the commit protocol are filled in.
    [last_change_enabled] is [tls_can_enable(LAST_CHANGE_TS)], the feature
    gate of the cluster version. *)
Definition new_prewrite_lock (last_change_enabled : bool) (m : PrewriteMutation) (lt : LockType)
    (lock_status : LockStatus) (generation : Z) : Lock :=
  let props := pm_txn_props m in
  let lock := lock_new lt (tp_primary props) (tp_start_ts props) (pm_lock_ttl m) None
                (for_update_ts_to_write props lock_status) (tp_txn_size props) (pm_min_commit_ts m) false in
  let lock := lock_with_generation (lock_set_txn_source lock (tp_txn_source props)) generation in
  if last_change_enabled && bool_decide (lt = LTLock)
  then lock_set_last_change lock (pm_last_change m) else lock.

Definition put_prewrite_value (m : PrewriteMutation) (lock : Lock) : M Lock :=
  match pm_value m with
  | None => mret lock
  | Some value =>
      if is_short_value value then mret (lock_with_short_value lock (Some value))
      else _ ← put_value (pm_key m) (tp_start_ts (pm_txn_props m)) value; mret lock
  end.

Definition write_lock (last_change_enabled : bool) (m : PrewriteMutation) (lock_status : LockStatus)
    (is_new_lock : bool) (generation : Z) : M TimeStamp :=
  match pm_lock_type m with
  | None => panic
  | Some lt =>
      let props := pm_txn_props m in
      lock ← put_prewrite_value m (new_prewrite_lock last_change_enabled m lt lock_status generation);
      let lock :=
        match pm_secondary_keys m with
        | Some secondary_keys => lock_set_use_async_commit lock secondary_keys
        | None => if try_one_pc m then lock_set_async lock (lock_use_async_commit lock) true (lock_secondaries lock)
                  else lock
        end in
      let finish (one_pc : bool) (lock : Lock) : M unit :=
        if one_pc then put_locks_for_1pc (pm_key m) lock (has_pessimistic_lock lock_status)
        else put_lock (pm_key m) lock is_new_lock in
      if lock_use_async_commit lock || try_one_pc m then
        max_commit_ts ← lift (tp_max_commit_ts props);
        '(res, lock, one_pc) ←
          catch ('(ts, lock) ← async_commit_timestamps (pm_key m) lock (tp_start_ts props)
                                 (tp_for_update_ts props) max_commit_ts;
                 mret (Ok ts, lock, try_one_pc m))
            (fun e => match e with
                      | MCommitTsTooLarge _ _ _ =>
                          mret (Err e, lock_set_async lock false false [], false)
                      | _ => mret (Err e, lock, try_one_pc m)
                      end);
        _ ← finish one_pc lock;
        lift res
      else
        _ ← finish (try_one_pc m) lock;
        mret ts_zero
  end.

(** ** The action *)

Section Prewrite.
  Context (env : CmEnv) (last_change_enabled : bool) (rd : Reader).

(** The lock of the key is checked; a missing pessimistic lock is amended.
    The flag says whether it was. *)
Definition prewrite_lock_status (m : PrewriteMutation) (pessimistic_action : PessimisticAction)
    (expected_for_update_ts : option TimeStamp) (generation : Z) :
    mres (LockStatus * PrewriteMutation * bool) :=
  lock ← load_lock rd (pm_key m);
  match lock with
  | Some lock =>
      '(s, m) ← check_lock m lock pessimistic_action expected_for_update_ts generation;
      Ok (s, m, false)
  | None =>
      if bool_decide (pessimistic_action = DoPessimisticCheck) then
        rassert (generation =? 0) (m ← amend_pessimistic_lock rd m; Ok (LSNone, m, true))
      else Ok (LSNone, m, false)
  end.

(** The previous write and whether it was loaded. *)
Definition prewrite_prev_write (m : PrewriteMutation) (lock_status : LockStatus) (lock_amended : bool)
    (generation : Z) : mres (option (Write * TimeStamp) * bool * PrewriteMutation) :=
  '(prev_write, loaded, m) ←
    (if negb (skip_constraint_check m) then
       '(w, m) ← check_for_newer_version rd m; Ok (w, true, m)
     else Ok (None, false, m));
  let is_subsequent_flush :=
    (0 <? generation) && match lock_status with LSLocked _ => true | _ => false end in
  if negb lock_amended && negb is_subsequent_flush then
    '(reloaded_prev_write, reloaded) ← check_assertion rd m prev_write loaded;
    if (reloaded : bool) then Ok (reloaded_prev_write, true, m) else Ok (prev_write, loaded, m)
  else Ok (prev_write, loaded, m).

Definition prewrite_old_value (m : PrewriteMutation) (prev_write_loaded : bool) (prev_write : option Write) :
    mres OldValue :=
  let props := pm_txn_props m in
  if tp_need_old_value props then
    match pm_mutation_type m with
    | MTInsert => Ok OVNone
    | MTPut | MTDelete =>
        if skip_constraint_check m then
          Ok (if tp_is_pessimistic props then OVUnspecified else OVNone)
        else
          let ts := match tp_kind props with
                    | Optimistic _ => tp_start_ts props
                    | Pessimistic for_update_ts => for_update_ts
                    end in
          get_old_value rd (pm_key m) ts prev_write_loaded prev_write
    | _ => Ok OVUnspecified
    end
  else Ok OVUnspecified.

Definition prewrite_with_generation (txn_props : TransactionProperties) (mutation : Mutation)
    (secondary_keys : option (list bytes)) (pessimistic_action : PessimisticAction)
    (expected_for_update_ts : option TimeStamp) (generation : Z) : M (TimeStamp * OldValue) :=
  m ← lift (from_mutation mutation secondary_keys pessimistic_action txn_props);
  _ ← (if pm_should_not_exist m then update_max_ts_m env (tp_start_ts txn_props) else mret tt);
  '(lock_status, m, lock_amended) ←
    lift (prewrite_lock_status m pessimistic_action expected_for_update_ts generation);
  match (if generation =? 0 then lock_status else LSNone) with
  | LSLocked ts => mret (ts, OVUnspecified)
  | _ =>
      '(prev_write, prev_write_loaded, m) ← lift (prewrite_prev_write m lock_status lock_amended generation);
      if pm_should_not_write m then
        _ ← update_max_ts_m env (tp_start_ts txn_props);
        min_commit_ts ←
          (if need_min_commit_ts m then
             next ← lift (ts_next (tp_start_ts txn_props));
             mret (Z.max (tp_min_commit_ts txn_props) next)
           else mret ts_zero);
        mret (min_commit_ts, OVUnspecified)
      else
        old_value ← lift (prewrite_old_value m prev_write_loaded (option_map fst prev_write));
        let is_new_lock := negb (bool_decide (pessimistic_action = DoPessimisticCheck)) || lock_amended in
        final_min_commit_ts ← write_lock last_change_enabled m lock_status is_new_lock generation;
        mret (final_min_commit_ts, old_value)
  end.

Definition prewrite (txn_props : TransactionProperties) (mutation : Mutation)
    (secondary_keys : option (list bytes)) (pessimistic_action : PessimisticAction)
    (expected_for_update_ts : option TimeStamp) : M (TimeStamp * OldValue) :=
  prewrite_with_generation txn_props mutation secondary_keys pessimistic_action expected_for_update_ts 0.

(** [check_committed_record_on_err]: the committed transaction's timestamp,
    or the error of the prewrite. *)
Definition check_committed_record_on_err (prewrite_err : mvcc_error) (key : Key) : M TimeStamp :=
  r ← lift (get_txn_commit_record rd key (rd_start_ts rd));
  match r with
  | TCRSingleRecord commit_ts write =>
      if negb (bool_decide (write_type write = WTRollback)) then _ ← txn_clear; mret commit_ts
      else fail prewrite_err
  | _ => fail prewrite_err
  end.
End Prewrite.
