(* ===== verification/AcquirePessimisticLock.v ===== *)
(** * Acquiring a pessimistic lock
    (src/storage/txn/actions/acquire_pessimistic_lock.rs,
     src/storage/types.rs PessimisticLockKeyResult) *)
From S2P Require Import Prelude Number Bytes Timestamp Key Fields Lock Write OrderedMap PeerLocks Engine.
From S2P Require Import ConcurrencyManager Reader MvccTxn CheckTxnStatus Prewrite.

(** What a successful call reports; [Waiting] and [Failed] are produced by
    the lock-waiting commands. *)
Inductive PessimisticLockKeyResult :=
| PLEmpty
| PLValue (v : option Value)
| PLExistence (b : bool)
| PLLockedWithConflict (value : option Value) (conflict_ts : TimeStamp).

Definition new_success (need_value need_check_existence : bool) (locked_with_conflict_ts : option TimeStamp)
    (value : option Value) : PessimisticLockKeyResult :=
  match locked_with_conflict_ts with
  | Some conflict_ts => PLLockedWithConflict value conflict_ts
  | None =>
      if need_value then PLValue value
      else if need_check_existence then PLExistence (bool_decide (is_Some value))
      else PLEmpty
  end.

(** [ConflictInfo]: (conflict_start_ts, conflict_commit_ts). *)
Definition ConflictInfo : Type := TimeStamp * TimeStamp.

Definition into_write_conflict_error (c : ConflictInfo) (start_ts : TimeStamp) (primary key : bytes) : mvcc_error :=
  MWriteConflict start_ts c.1 c.2 key primary ReasonPessimisticRetry.

Definition is_already_exist (e : mvcc_error) : bool :=
  match e with MAlreadyExist _ _ => true | _ => false end.

(** The arguments of one request. *)
Record AcquireReq := mk_acquire {
  aq_primary : bytes;
  aq_should_not_exist : bool;
  aq_lock_ttl : Z;
  aq_need_value : bool;
  aq_need_check_existence : bool;
  aq_min_commit_ts : TimeStamp;
  aq_need_old_value : bool;
  aq_lock_only_if_exists : bool;
  aq_allow_lock_with_conflict : bool
}.

Section Acquire.
  Context (env : CmEnv) (last_change_enabled : bool) (rd : Reader) (q : AcquireReq).

Definition load_old_value (value_loaded : bool) (val : option Value) (key : Key) (for_update_ts : TimeStamp)
    (prev_write_loaded : bool) (prev_write : option Write) : mres OldValue :=
  if negb (aq_need_old_value q) then Ok OVUnspecified
  else if value_loaded then Ok (match val with Some v => OVValue v | None => OVNone end)
  else get_old_value rd key for_update_ts prev_write_loaded prev_write.

(** [check_data_constraint(..).or_else(..)]: an existing key is reported as
    the write conflict [conflict], when there is one. *)
Definition check_constraint_or_conflict (write : Write) (commit_ts : TimeStamp) (key : Key)
    (conflict : option ConflictInfo) : mres unit :=
  match check_data_constraint rd (aq_should_not_exist q) write commit_ts key with
  | Err e =>
      match conflict with
      | Some c =>
          if is_already_exist e then
            raw ← to_raw_r key;
            Err (into_write_conflict_error c (rd_start_ts rd) (aq_primary q) raw)
          else Err e
      | None => Err e
      end
  | r => r
  end.

(** The key is already locked. *)
Definition acquire_locked (key : Key) (lock : Lock) (requested_for_update_ts : TimeStamp)
    (need_load_value : bool) : M (PessimisticLockKeyResult * OldValue) :=
  if negb (lock_ts lock =? rd_start_ts rd) then
    raw ← into_raw_m key; fail (MKeyIsLocked (into_lock_info lock raw))
  else if negb (is_pessimistic_lock lock) then
    raw ← into_raw_m key; fail (MLockTypeNotMatch (rd_start_ts rd) raw false)
  else
    let with_conflict :=
      aq_allow_lock_with_conflict q && (requested_for_update_ts <? lock_for_update_ts lock) in
    let need_load_value := need_load_value || with_conflict in
    let for_update_ts := if with_conflict then lock_for_update_ts lock else requested_for_update_ts in
    let locked_with_conflict_ts := if with_conflict then Some (lock_for_update_ts lock) else None in
    val ← lift
      (if need_load_value || aq_need_check_existence q || aq_should_not_exist q then
         write ← get_write_with_commit_ts rd key for_update_ts (Some (rd_start_ts rd));
         match write with
         | None => Ok None
         | Some (write, commit_ts) =>
             _ ← check_constraint_or_conflict write commit_ts key
                   (if requested_for_update_ts <? commit_ts
                    then Some (write_start_ts write, commit_ts) else None);
             if need_load_value then v ← load_data rd key write; Ok (Some v)
             else Ok (if aq_need_check_existence q then Some [] else None)
         end
       else Ok None);
    old_value ← lift (load_old_value need_load_value val key for_update_ts false None);
    _ ← (if lock_for_update_ts lock <? for_update_ts then
           put_pessimistic_lock key
             (mk_pessimistic_lock (aq_primary q) (rd_start_ts rd) (aq_lock_ttl q) for_update_ts (aq_min_commit_ts q)
                (lock_last_change lock) (is_pessimistic_lock_with_conflict lock)) false
         else mret tt);
    mret (new_success (aq_need_value q) (aq_need_check_existence q) locked_with_conflict_ts val, old_value).

(** Whether a record is the rollback of this transaction. *)
Definition is_own_rollback (commit_ts : TimeStamp) (write : Write) : bool :=
  (commit_ts =? rd_start_ts rd)
  && (bool_decide (write_type write = WTRollback) || write_has_overlapped_rollback write).

Definition check_own_rollback (key : Key) (commit_ts : TimeStamp) (write : Write) : mres unit :=
  let rolled_back := raw ← map_err MCodec (key_into_raw key); Err (MPessimisticLockRolledBack (rd_start_ts rd) raw) in
  if is_own_rollback commit_ts write then
    rassert (write_has_overlapped_rollback write || (write_start_ts write =? commit_ts)) rolled_back
  else if rd_start_ts rd <? commit_ts then
    older ← seek_write rd key (rd_start_ts rd);
    match older with
    | Some (older_commit_ts, older_write) =>
        if is_own_rollback older_commit_ts older_write then rolled_back else Ok tt
    | None => Ok tt
    end
  else Ok tt.

Definition acquire_read_value (key : Key) (commit_ts : TimeStamp) (write : Write) (need_load_value : bool) :
    mres (option Value) :=
  match write_type write with
  | WTPut =>
      if check_gc_fence_as_latest_version write (rd_start_ts rd) then
        if need_load_value then v ← load_data rd key write; Ok (Some v) else Ok (Some [])
      else Ok None
  | WTDelete => Ok None
  | WTLock | WTRollback =>
      ts ← ts_prev commit_ts;
      if need_load_value then reader_get rd key ts (Some (rd_start_ts rd))
      else w ← get_write rd key ts (Some (rd_start_ts rd)); Ok (option_map (fun _ => []) w)
  end.

(** The latest version, read when the key is not locked: the value, the
    last-change info, the conflict and the for_update_ts to lock with. *)
Record AcquireRead := mk_acquire_read {
  ar_val : option Value;
  ar_last_change : LastChange;
  ar_conflict : option ConflictInfo;
  ar_for_update_ts : TimeStamp;
  ar_need_load_value : bool;
  ar_prev_write : option Write
}.

Definition acquire_check_version (key : Key) (for_update_ts : TimeStamp) (need_load_value : bool)
    (txn_start : TimeStamp) (commit_ts : TimeStamp) (write : Write) : mres AcquireRead :=
  let conflicts := for_update_ts <? commit_ts in
  if conflicts && negb (aq_allow_lock_with_conflict q) then
    raw ← map_err MCodec (key_into_raw key);
    Err (MWriteConflict (rd_start_ts rd) (write_start_ts write) commit_ts raw (aq_primary q)
           ReasonPessimisticRetry)
  else
    let conflict_info := if conflicts then Some (write_start_ts write, commit_ts) else None in
    let for_update_ts := if conflicts then commit_ts else for_update_ts in
    let need_load_value := need_load_value || conflicts in
    _ ← check_own_rollback key commit_ts write;
    _ ← check_constraint_or_conflict write commit_ts key conflict_info;
    last_change ← next_last_change_info rd key write txn_start commit_ts;
    val ← (if aq_need_value q || aq_need_check_existence q || conflicts
           then acquire_read_value key commit_ts write need_load_value else Ok None);
    Ok (mk_acquire_read val last_change conflict_info for_update_ts need_load_value
          (if aq_need_old_value q then Some write else None)).

Definition acquire_unlocked (key : Key) (for_update_ts : TimeStamp) (need_load_value : bool) :
    M (PessimisticLockKeyResult * OldValue) :=
  t ← get_txn;
  r ← lift
    (v ← seek_write rd key ts_max;
     match v with
     | Some (commit_ts, write) =>
         acquire_check_version key for_update_ts need_load_value (txn_start_ts t) commit_ts write
     | None => Ok (mk_acquire_read None LCNotExist None for_update_ts need_load_value None)
     end);
  old_value ← lift (load_old_value (ar_need_load_value r) (ar_val r) key (ar_for_update_ts r) true
                      (ar_prev_write r));
  let lock := mk_pessimistic_lock (aq_primary q) (rd_start_ts rd) (aq_lock_ttl q) (ar_for_update_ts r) (aq_min_commit_ts q)
                (if last_change_enabled then ar_last_change r else LCUnknown)
                (bool_decide (is_Some (ar_conflict r))) in
  _ ← (if negb (aq_lock_only_if_exists q) || bool_decide (is_Some (ar_val r)) then
         put_pessimistic_lock key lock true
       else match ar_conflict r with
            | Some c => raw ← into_raw_m key;
                        fail (into_write_conflict_error c (rd_start_ts rd) (aq_primary q) raw)
            | None => mret tt
            end);
  mret (new_success (aq_need_value q) (aq_need_check_existence q) (option_map snd (ar_conflict r)) (ar_val r),
        old_value).

Definition acquire_pessimistic_lock (key : Key) (for_update_ts : TimeStamp) :
    M (PessimisticLockKeyResult * OldValue) :=
  if aq_lock_only_if_exists q && negb (aq_need_value q) then
    raw ← into_raw_m key; fail (MLockIfExistsFailed (rd_start_ts rd) raw)
  else
    _ ← (if aq_should_not_exist q || aq_need_value q || aq_need_check_existence q
         then update_max_ts_m env for_update_ts else mret tt);
    let need_load_value := aq_need_value q || (aq_need_check_existence q && aq_need_old_value q) in
    lock ← lift (load_lock rd key);
    match lock with
    | Some lock => acquire_locked key lock for_update_ts need_load_value
    | None => acquire_unlocked key for_update_ts need_load_value
    end.
End Acquire.
