(* ===== verification/Gc.v ===== *)
(** * Garbage collection of one key (src/storage/txn/actions/gc.rs)

    The versions of the key are visited from the newest; the ones no read at
    or after the safe point can see are deleted. *)
From S2P Require Import Prelude Number Bytes Timestamp Key Fields Lock Write OrderedMap PeerLocks Engine.
From S2P Require Import ConcurrencyManager Reader Versions MvccTxn.

Record GcInfo := mk_gc_info { gi_found_versions : Z; gi_deleted_versions : Z; gi_is_completed : bool }.

Definition gi_found (i : GcInfo) : GcInfo :=
  mk_gc_info (gi_found_versions i + 1) (gi_deleted_versions i) (gi_is_completed i).
Definition gi_deleted (i : GcInfo) : GcInfo :=
  mk_gc_info (gi_found_versions i) (gi_deleted_versions i + 1) (gi_is_completed i).
Definition gi_completed (i : GcInfo) : GcInfo :=
  mk_gc_info (gi_found_versions i) (gi_deleted_versions i) true.

Inductive GcState :=
| Rewind (safe_point : TimeStamp)
| RemoveIdempotent
| RemoveAll (latest_delete : option (TimeStamp * Write)).

Section Gc.
  Context (rd : Reader) (key : Key).

Definition gc_delete_write (write : Write) (ts : TimeStamp) (info : GcInfo) : M GcInfo :=
  _ ← delete_write key ts;
  _ ← (if bool_decide (write_type write = WTPut) && bool_decide (write_short_value write = None)
       then delete_value key (write_start_ts write) else mret tt);
  mret (gi_deleted info).

Definition gc_next_write (cur_ts : TimeStamp) (info : GcInfo) :
    mres (option (TimeStamp * Write) * TimeStamp * GcInfo) :=
  result ← seek_write rd key cur_ts;
  match result with
  | Some (commit, _) => prev ← ts_prev commit; Ok (result, prev, gi_found info)
  | None => Ok (result, cur_ts, info)
  end.

(** [State::step] in the states that do not call it again. *)
Definition gc_step_remove (state : GcState) (write : Write) (commit_ts : TimeStamp) (info : GcInfo) :
    M (GcState * GcInfo) :=
  match state with
  | Rewind _ => mret (state, info)
  | RemoveIdempotent =>
      match write_type write with
      | WTPut => mret (RemoveAll None, info)
      | WTDelete => mret (RemoveAll (Some (commit_ts, write)), info)
      | WTRollback | WTLock => info ← gc_delete_write write commit_ts info; mret (RemoveIdempotent, info)
      end
  | RemoveAll _ => info ← gc_delete_write write commit_ts info; mret (state, info)
  end.

Definition gc_step (state : GcState) (write : Write) (commit_ts : TimeStamp) (info : GcInfo) :
    M (GcState * GcInfo) :=
  match state with
  | Rewind safe_point =>
      if commit_ts <=? safe_point then gc_step_remove RemoveIdempotent write commit_ts info
      else mret (state, info)
  | _ => gc_step_remove state write commit_ts info
  end.

(** The loop of [run]; the flag says whether it visited every version. *)
Fixpoint gc_loop (fuel : nat) (cur_ts : TimeStamp) (state : GcState) (info : GcInfo) :
    M (bool * GcState * GcInfo) :=
  match fuel with
  | O => panic
  | S f =>
      '(result, cur_ts, info) ← lift (gc_next_write cur_ts info);
      match result with
      | None => mret (true, state, info)
      | Some (commit, write) =>
          t ← get_txn;
          if MAX_TXN_WRITE_SIZE <=? txn_write_size t then mret (false, state, info)
          else
            '(state, info) ← gc_step state write commit info;
            gc_loop f cur_ts state info
      end
  end.

Definition gc (safe_point : TimeStamp) : M GcInfo :=
  '(finished, state, info) ← gc_loop (write_fuel rd) ts_max (Rewind safe_point) (mk_gc_info 0 0 false);
  if negb finished then mret info
  else
    info ← (match state with
            | RemoveAll (Some (commit, write)) => gc_delete_write write commit info
            | _ => mret info
            end);
    mret (gi_completed info).
End Gc.
