(* ===== verification/Commands.v ===== *)
(** * The write commands
    (src/storage/txn/commands/{mod,commit,rollback,cleanup,check_txn_status,
     check_secondary_locks,txn_heart_beat,pessimistic_rollback,
     resolve_lock_lite,resolve_lock}.rs)

    A command takes a snapshot and returns the modifications to write, what it
    reports to its caller and the locks it released. *)
From stdpp Require Import sorting.
From S2P Require Import Prelude Number Bytes Timestamp Key Fields Lock Write OrderedMap PeerLocks Engine.
From S2P Require Import ConcurrencyManager Reader MvccTxn CheckTxnStatus Prewrite.

(** The errors of src/storage/txn/mod.rs these commands produce. *)
Inductive cmd_error :=
| CMvcc (e : mvcc_error)
| CInvalidTxnTso (start_ts commit_ts : TimeStamp)
| CInvalidMaxTsUpdate (e : InvalidMaxTsUpdate)
| CMaxTimestampNotSynced (region_id : Z) (start_ts : TimeStamp)
| COther (index len : nat).

Abbreviation cres := (res cmd_error).

Record WriteResult (A : Type) := mk_write_result {
  wr_pr : A;
  wr_modifies : list Modify;
  wr_rows : Z;
  wr_released_locks : list ReleasedLock;
  wr_new_acquired_locks : list LockInfo;
  wr_known_txn_status : list (TimeStamp * TimeStamp)
}.
Arguments mk_write_result {A}.
Arguments wr_pr {A}.
Arguments wr_modifies {A}.
Arguments wr_rows {A}.
Arguments wr_released_locks {A}.
Arguments wr_new_acquired_locks {A}.
Arguments wr_known_txn_status {A}.

(** What the request's context gives the reader. *)
Record Context := mk_context { ctx_term : Z; ctx_version : Z; ctx_allow_in_flashback : bool }.

Definition new_with_ctx (start_ts : TimeStamp) (snapshot : Snapshot) (ctx : Context) : Reader :=
  mk_reader snapshot start_ts (ctx_term ctx) (ctx_version ctx) (ctx_allow_in_flashback ctx).

(** [update_max_ts(..)?] *)
Definition cmd_update_max_ts {A} (env : CmEnv) (cm : ConcurrencyManager) (ts : TimeStamp)
    (k : ConcurrencyManager -> cres A) : cres A :=
  match update_max_ts env cm ts with
  | (Ok _, cm) => k cm
  | (Err e, _) => Err (CInvalidMaxTsUpdate e)
  | (Panic, _) => Panic
  end.

(** Run the body of a command on a new transaction buffer. *)
Definition run_body {A B} (start_ts : TimeStamp) (cm : ConcurrencyManager) (body : M A)
    (k : A -> MvccTxn -> cres B) : cres B :=
  match body (txn_new start_ts cm) with
  | (Ok a, t) => k a t
  | (Err e, _) => Err (CMvcc e)
  | (Panic, _) => Panic
  end.

Definition finish_write {A} (t : MvccTxn) (pr : A) (rows : Z) (released : list (option ReleasedLock))
    (known_txn_status : list (TimeStamp * TimeStamp)) : cres (WriteResult A) :=
  modifies ← into_modifies t;
  Ok (mk_write_result pr modifies rows (omap id released) (txn_new_locks t) known_txn_status).

(** [for k in keys { .. ? }] *)
Fixpoint for_each {K A} (act : K -> M A) (keys : list K) : M (list A) :=
  match keys with
  | [] => mret []
  | k :: keys => a ← act k; r ← for_each act keys; mret (a :: r)
  end.

Section Commands.
  Context (env : CmEnv) (cm : ConcurrencyManager) (snapshot : Snapshot) (ctx : Context).

Definition Commit (keys : list Key) (lock_ts commit_ts : TimeStamp) : cres (WriteResult TxnStatus) :=
  if commit_ts <=? lock_ts then Err (CInvalidTxnTso lock_ts commit_ts)
  else
    let reader := new_with_ctx lock_ts snapshot ctx in
    run_body lock_ts cm (for_each (fun k => commit reader k commit_ts) keys) (fun released t =>
      finish_write t (TSCommitted commit_ts) (Z.of_nat (length keys)) released [(lock_ts, commit_ts)]).

Definition Rollback (keys : list Key) (start_ts : TimeStamp) : cres (WriteResult unit) :=
  let reader := new_with_ctx start_ts snapshot ctx in
  run_body start_ts cm (for_each (fun k => cleanup reader k ts_zero false) keys) (fun released t =>
    finish_write t tt (Z.of_nat (length keys)) released []).

Definition Cleanup (key : Key) (start_ts current_ts : TimeStamp) : cres (WriteResult unit) :=
  cmd_update_max_ts env cm start_ts (fun cm =>
    let reader := new_with_ctx start_ts snapshot ctx in
    run_body start_ts cm (cleanup reader key current_ts true) (fun released t =>
      finish_write t tt 1 [released] [])).

Definition check_status_new_max_ts (lock_ts caller_start_ts current_ts : TimeStamp) : TimeStamp :=
  let new_max_ts := lock_ts in
  let new_max_ts :=
    if negb (ts_is_max current_ts) && (new_max_ts <? current_ts) then current_ts else new_max_ts in
  if negb (ts_is_max caller_start_ts) && (new_max_ts <? caller_start_ts) then caller_start_ts else new_max_ts.

Definition check_txn_status_body (reader : Reader) (primary_key : Key)
    (lock_ts_ caller_start_ts current_ts : TimeStamp)
    (rollback_if_not_exist force_sync_commit resolving_pessimistic_lock verify_is_primary : bool) :
    M (TxnStatus * option ReleasedLock) :=
  l ← lift (load_lock reader primary_key);
  let missing :=
    s ← check_txn_status_missing_lock reader primary_key l (mla_rollback rollback_if_not_exist)
          resolving_pessimistic_lock;
    mret (s, None) in
  match l with
  | Some lock =>
      if lock_ts lock =? lock_ts_ then
        check_txn_status_lock_exists reader primary_key lock current_ts caller_start_ts force_sync_commit
          resolving_pessimistic_lock verify_is_primary rollback_if_not_exist
      else missing
  | None => missing
  end.

Definition CheckTxnStatus (primary_key : Key) (lock_ts_ caller_start_ts current_ts : TimeStamp)
    (rollback_if_not_exist force_sync_commit resolving_pessimistic_lock verify_is_primary : bool) :
    cres (WriteResult TxnStatus) :=
  cmd_update_max_ts env cm (check_status_new_max_ts lock_ts_ caller_start_ts current_ts) (fun cm =>
    let reader := new_with_ctx lock_ts_ snapshot ctx in
    run_body lock_ts_ cm
      (check_txn_status_body reader primary_key lock_ts_ caller_start_ts current_ts rollback_if_not_exist
         force_sync_commit resolving_pessimistic_lock verify_is_primary)
      (fun '(txn_status, released) t =>
         finish_write t txn_status 1 [released]
           (match txn_status with TSCommitted commit_ts => [(lock_ts_, commit_ts)] | _ => [] end))).

(** ** Secondary locks *)

Inductive SecondaryLocksStatus :=
| SLSLocked (locks : list LockInfo)
| SLSCommitted (commit_ts : TimeStamp)
| SLSRolledBack.

Inductive SecondaryLockStatus :=
| SecLocked (lock : Lock)
| SecCommitted (commit_ts : TimeStamp)
| SecRolledBack.

(** The status, whether a rollback must be written, and what it overlaps. *)
Definition secondary_determined_status (reader : Reader) (key : Key) :
    mres (SecondaryLockStatus * bool * option OverlappedWrite) :=
  r ← get_txn_commit_record reader key (rd_start_ts reader);
  Ok (match r with
      | TCRSingleRecord commit_ts write =>
          (if negb (bool_decide (write_type write = WTRollback)) then SecCommitted commit_ts else SecRolledBack,
           false, None)
      | TCROverlappedRollback _ => (SecRolledBack, false, None)
      | TCRNone overlapped_write => (SecRolledBack, true, overlapped_write)
      end).

Definition check_status_from_lock (reader : Reader) (lock : Lock) (key : Key) :
    M (SecondaryLockStatus * bool * option OverlappedWrite * option ReleasedLock) :=
  if is_pessimistic_lock_with_conflict lock then
    massert (is_pessimistic_lock lock)
      ('(status, need_rollback, overlapped) ← lift (secondary_determined_status reader key);
       released ← unlock_key key true ts_zero;
       if negb need_rollback then mret (status, need_rollback, overlapped, released)
       else mret (SecRolledBack, true, overlapped, released))
  else if is_pessimistic_lock lock then
    released ← unlock_key key true ts_zero;
    record ← lift (get_txn_commit_record reader key (rd_start_ts reader));
    overlapped ← lift (tcr_unwrap_none record);
    mret (SecRolledBack, true, overlapped, released)
  else mret (SecLocked lock, false, None, None).

Definition check_secondary_lock (reader : Reader) (start_ts : TimeStamp) (key : Key) :
    M (SecondaryLockStatus * option ReleasedLock) :=
  l ← lift (load_lock reader key);
  let own := match l with Some lock => lock_ts lock =? start_ts | None => false end in
  '(status, need_rollback, overlapped, released) ←
    (match l with
     | Some lock =>
         if own then check_status_from_lock reader lock key
         else '(s, n, o) ← lift (secondary_determined_status reader key); mret (s, n, o, None)
     | None => '(s, n, o) ← lift (secondary_determined_status reader key); mret (s, n, o, None)
     end);
  _ ← (if need_rollback : bool then
         _ ← (match l with
              | Some lock => if own then mret tt else mark_rollback_on_mismatching_lock key lock true
              | None => mret tt
              end);
         w ← lift (make_rollback start_ts true overlapped);
         match w with
         | Some write =>
             _ ← put_write key start_ts (write_to_bytes write);
             collapse_prev_rollback reader key
         | None => mret tt
         end
       else mret tt);
  mret (status, released).

(** The loop stops at the first key that decides the transaction. *)
Fixpoint check_secondary_loop (reader : Reader) (start_ts : TimeStamp) (keys : list Key) (locks : list LockInfo) :
    M (SecondaryLocksStatus * list (option ReleasedLock)) :=
  match keys with
  | [] => mret (SLSLocked locks, [])
  | key :: keys =>
      '(status, released) ← check_secondary_lock reader start_ts key;
      match status with
      | SecLocked lock =>
          raw ← lift (to_raw_r key);
          '(result, rest) ← check_secondary_loop reader start_ts keys (locks ++ [into_lock_info lock raw]);
          mret (result, released :: rest)
      | SecCommitted commit_ts => mret (SLSCommitted commit_ts, [released])
      | SecRolledBack => mret (SLSRolledBack, [released])
      end
  end.

Definition CheckSecondaryLocks (keys : list Key) (start_ts : TimeStamp) :
    cres (WriteResult SecondaryLocksStatus) :=
  cmd_update_max_ts env cm start_ts (fun cm =>
    let reader := new_with_ctx start_ts snapshot ctx in
    run_body start_ts cm (check_secondary_loop reader start_ts keys []) (fun '(result, released) t =>
      finish_write t result (match result with SLSRolledBack => 1 | _ => 0 end) released
        (match result with SLSCommitted commit_ts => [(start_ts, commit_ts)] | _ => [] end))).

(** ** Heart beats and pessimistic rollback *)

Definition heart_beat_lock (lock : Lock) (advise_ttl min_commit_ts : Z) : Lock * bool :=
  let '(lock, updated) :=
    if lock_ttl lock <? advise_ttl then (lock_with_ttl lock advise_ttl, true) else (lock, false) in
  if negb (lock_use_async_commit lock) && (0 <? lock_generation lock) && (0 <? min_commit_ts)
     && (lock_min_commit_ts lock <? min_commit_ts)
  then (lock_with_min_commit_ts lock min_commit_ts, true) else (lock, updated).

Definition heart_beat_body (reader : Reader) (primary_key : Key) (start_ts : TimeStamp)
    (advise_ttl min_commit_ts : Z) : M Lock :=
  l ← lift (load_lock reader primary_key);
  let missing := raw ← into_raw_m primary_key; fail (MTxnNotFound start_ts raw) in
  match l with
  | Some lock =>
      if lock_ts lock =? start_ts then
        let '(lock, updated) := heart_beat_lock lock advise_ttl min_commit_ts in
        _ ← (if updated : bool then put_lock primary_key lock false else mret tt);
        mret lock
      else missing
  | None => missing
  end.

Definition TxnHeartBeat (primary_key : Key) (start_ts : TimeStamp) (advise_ttl min_commit_ts : Z) :
    cres (WriteResult TxnStatus) :=
  run_body start_ts cm
    (heart_beat_body (new_with_ctx start_ts snapshot ctx) primary_key start_ts advise_ttl min_commit_ts)
    (fun lock t => finish_write t (TSUncommitted lock false) 1 [] []).

Definition pessimistic_rollback_key (reader : Reader) (start_ts for_update_ts : TimeStamp) (key : Key) :
    M (option ReleasedLock) :=
  l ← lift (load_lock reader key);
  match l with
  | Some lock =>
      if is_pessimistic_lock lock && (lock_ts lock =? start_ts) && (lock_for_update_ts lock <=? for_update_ts)
      then unlock_key key true ts_zero
      else mret None
  | None => mret None
  end.

(** The result says whether a read phase continues from [scan_key]. *)
Definition PessimisticRollback (keys : list Key) (start_ts for_update_ts : TimeStamp) (scan_key : option Key) :
    cres (WriteResult (option Key)) :=
  run_body start_ts cm
    (for_each (pessimistic_rollback_key (new_with_ctx start_ts snapshot ctx) start_ts for_update_ts) keys)
    (fun released t => finish_write t scan_key (Z.of_nat (length keys)) released []).

(** ** Resolving locks *)

Definition ResolveLockLite (start_ts commit_ts : TimeStamp) (resolve_keys : list Key) : cres (WriteResult unit) :=
  let reader := new_with_ctx start_ts snapshot ctx in
  run_body start_ts cm
    (for_each (fun key => if negb (ts_is_zero commit_ts) then commit reader key commit_ts
                          else cleanup reader key ts_zero false) resolve_keys)
    (fun released t =>
       finish_write t tt (Z.of_nat (length resolve_keys)) released
         (if negb (ts_is_zero commit_ts) then [(start_ts, commit_ts)] else [])).

(** [txn.start_ts = ts] *)
Definition set_start_ts (ts : TimeStamp) : M unit := fun t =>
  (Ok tt, mk_txn ts (txn_write_size t) (txn_modifies t) (txn_locks_for_1pc t) (txn_new_locks t) (txn_cm t)
            (txn_guards t)).

(** One lock of the batch: the released lock and the commit it confirms. *)
Definition resolve_one (txn_status : gmap Z TimeStamp) (current_key : Key) (current_lock : Lock) :
    M (cmd_error + (option ReleasedLock * option (TimeStamp * TimeStamp))) :=
  let ts := lock_ts current_lock in
  _ ← set_start_ts ts;
  let reader := new_with_ctx ts snapshot ctx in
  match txn_status !! ts with
  | None => panic
  | Some commit_ts =>
      if ts_is_zero commit_ts then
        r ← cleanup reader current_key ts_zero false; mret (inr (r, None))
      else if ts <? commit_ts then
        catch (r ← commit reader current_key commit_ts; mret (inr (r, Some (ts, commit_ts))))
          (fun e => match e with
                    | MTxnLockNotFound _ _ _ =>
                        if is_pessimistic_lock current_lock then mret (inr (None, None)) else fail e
                    | _ => fail e
                    end)
      else mret (inl (CInvalidTxnTso ts commit_ts))
  end.

(** The loop stops when the batch is large enough, at the key to continue
    from. *)
Fixpoint resolve_loop (txn_status : gmap Z TimeStamp) (key_locks : list (Key * Lock)) (scan_key : option Key) :
    M (cmd_error + (option Key * list (option ReleasedLock) * list (TimeStamp * TimeStamp))) :=
  match key_locks with
  | [] => mret (inr (scan_key, [], []))
  | (current_key, current_lock) :: key_locks =>
      one ← resolve_one txn_status current_key current_lock;
      match one with
      | inl e => mret (inl e)
      | inr (released, known) =>
          t ← get_txn;
          rest ← (if MAX_TXN_WRITE_SIZE <=? txn_write_size t then mret (inr (Some current_key, [], []))
                  else resolve_loop txn_status key_locks scan_key);
          mret (match rest with
                | inl e => inl e
                | inr (scan, rs, ks) => inr (scan, released :: rs, option_list known ++ ks)
                end)
      end
  end.

Definition status_le (a b : TimeStamp * TimeStamp) : Prop := a.1 < b.1 \/ (a.1 = b.1 /\ a.2 <= b.2).
#[local] Instance status_le_dec a b : Decision (status_le a b).
Proof. unfold status_le. apply _. Defined.

Definition ResolveLock (txn_status : gmap Z TimeStamp) (scan_key : option Key) (key_locks : list (Key * Lock)) :
    cres (WriteResult (option Key)) :=
  run_body ts_zero cm (resolve_loop txn_status key_locks scan_key) (fun r t =>
    match r with
    | inl e => Err e
    | inr (scan_key, released, known) =>
        finish_write t scan_key (Z.of_nat (length key_locks)) released (vec_dedup (merge_sort status_le known))
    end).
End Commands.
