(* ===== verification/PrewriteCommand.v ===== *)
(** * The prewrite commands (src/storage/txn/commands/prewrite.rs)

    [Prewrite] and [PrewritePessimistic] turn into a [Prewriter], generic in
    the kind of the transaction. It prewrites the mutations one after the
    other in one buffer, falls back from one-phase or async commit to two
    phases when a key demands it, and at the end writes the locks or, for
    one-phase commit, the commit records. *)
From S2P Require Import Prelude Number Bytes Timestamp Key Fields Lock Write OrderedMap PeerLocks Engine.
From S2P Require Import ConcurrencyManager Reader MvccTxn CheckTxnStatus Prewrite Commands.

Definition FORWARD_MIN_MUTATIONS_NUM : nat := 12.

(** ** Mutations of a request *)

Class MutationLock (A : Type) := {
  pessimistic_action : A -> PessimisticAction;
  pessimistic_expected_for_update_ts : A -> option TimeStamp;
  into_mutation : A -> Mutation
}.

#[export] Instance Mutation_lock : MutationLock Mutation := {
  pessimistic_action _ := SkipPessimisticCheck;
  pessimistic_expected_for_update_ts _ := None;
  into_mutation m := m
}.

Record PessimisticMutation := mk_pess_mutation {
  pesm_mutation : Mutation;
  pesm_pessimistic_action : PessimisticAction;
  pesm_expected_for_update_ts : option TimeStamp
}.

Definition pess_mutation_new (mutation : Mutation) (action : PessimisticAction) : PessimisticMutation :=
  mk_pess_mutation mutation action None.

#[export] Instance PessimisticMutation_lock : MutationLock PessimisticMutation := {
  pessimistic_action := pesm_pessimistic_action;
  pessimistic_expected_for_update_ts := pesm_expected_for_update_ts;
  into_mutation := pesm_mutation
}.

(** ** Kinds of transactions *)

Record OptimisticKind := mk_optimistic { ok_skip_constraint_check : bool }.
Record PessimisticKind := mk_pessimistic { pk_for_update_ts : TimeStamp }.

(** [sort_by] on the keys; it is stable. *)
Fixpoint insert_by_key (m : Mutation) (ms : list Mutation) : list Mutation :=
  match ms with
  | [] => [m]
  | m' :: ms' => if bleb (mutation_key m) (mutation_key m') then m :: ms else m' :: insert_by_key m ms'
  end.
Definition sort_by_key (ms : list Mutation) : list Mutation := foldr insert_by_key [] ms.

(** [seek_incomplete] says that the engine gave the seek up because it skipped
    too many internal keys, which counts as data. *)
Definition has_data_in_range (seek_incomplete : bool) (snapshot : Snapshot) (c : CfName) (left right : Key) : bool :=
  seek_incomplete ||
  match seek_ge (engine_get_cf (snap_engine snapshot) c) left with
  | Some (k, _) => bltb k right
  | None => false
  end.

Definition optimistic_can_skip (seek_incomplete : bool) (snapshot : Snapshot) (k : OptimisticKind)
    (mutations : list Mutation) : OptimisticKind * list Mutation :=
  if (FORWARD_MIN_MUTATIONS_NUM <? length mutations)%nat then
    let mutations := sort_by_key mutations in
    match head mutations, last mutations with
    | Some first, Some last =>
        let left_key := mutation_key first in
        let right_key := append_ts (mutation_key last) ts_zero in
        if negb (has_data_in_range seek_incomplete snapshot CF_WRITE left_key right_key)
        then (mk_optimistic true, mutations) else (k, mutations)
    | _, _ => (k, mutations)
    end
  else (k, mutations).

Class PrewriteKind (K A : Type) := {
  txn_kind : K -> TransactionKind;
  can_skip_constraint_check : bool -> Snapshot -> K -> list A -> K * list A
}.

#[export] Instance Optimistic_kind : PrewriteKind OptimisticKind Mutation := {
  txn_kind k := Optimistic (ok_skip_constraint_check k);
  can_skip_constraint_check := optimistic_can_skip
}.

#[export] Instance Pessimistic_kind : PrewriteKind PessimisticKind PessimisticMutation := {
  txn_kind k := Pessimistic (pk_for_update_ts k);
  can_skip_constraint_check _ _ k mutations := (k, mutations)
}.

(** ** One-phase commit *)

(** [txn.guards = Vec::new()] *)
Definition drop_guards : M unit := fun t =>
  (Ok tt, mk_txn (txn_start_ts t) (txn_write_size t) (txn_modifies t) (txn_locks_for_1pc t) (txn_new_locks t)
            (fold_left guard_drop (txn_guards t) (txn_cm t)) []).

(** [mem::take(&mut txn.locks_for_1pc)] *)
Definition take_locks_for_1pc : M (list (Key * Lock * bool)) := fun t =>
  (Ok (txn_locks_for_1pc t),
   mk_txn (txn_start_ts t) (txn_write_size t) (txn_modifies t) [] (txn_new_locks t) (txn_cm t) (txn_guards t)).

(** The lock keeps the other fields of one-phase commit. *)
Definition lock_unset_one_pc (lock : Lock) : Lock :=
  lock_set_async lock (lock_use_async_commit lock) false (lock_secondaries lock).

Definition fallback_1pc_locks : M unit :=
  ls ← take_locks_for_1pc;
  _ ← for_each (fun '(key, lock, remove_pessimistic_lock) =>
        put_lock key (lock_unset_one_pc lock) (negb remove_pessimistic_lock)) ls;
  mret tt.

(** The commit record of a lock; a one-phase commit cannot overwrite a
    rollback record. *)
Definition one_pc_write (wt : WriteType) (start_ts : TimeStamp) (lock : Lock) : Write :=
  write_set_txn_source (write_set_last_change (write_new wt start_ts (lock_short_value lock)) (lock_last_change lock))
    (lock_txn_source lock).

Definition handle_1pc_lock (commit_ts : TimeStamp) (x : Key * Lock * bool) : M (option ReleasedLock) :=
  let '(key, lock, delete_pessimistic_lock) := x in
  match write_type_from_lock_type (lock_type lock) with
  | None => panic
  | Some wt =>
      t ← get_txn;
      _ ← put_write key commit_ts (write_to_bytes (one_pc_write wt (txn_start_ts t) lock));
      if delete_pessimistic_lock then unlock_key key true commit_ts else mret None
  end.

(** A lock that is not released is no entry of the released locks. *)
Definition handle_1pc_locks (commit_ts : TimeStamp) : M (list (option ReleasedLock)) :=
  ls ← take_locks_for_1pc;
  for_each (handle_1pc_lock commit_ts) ls.

Definition one_pc_commit (try_one_pc : bool) (final_min_commit_ts : TimeStamp) :
    M (TimeStamp * list (option ReleasedLock)) :=
  if try_one_pc then
    massert (negb (ts_is_zero final_min_commit_ts))
      (released ← handle_1pc_locks final_min_commit_ts; mret (final_min_commit_ts, released))
  else
    t ← get_txn;
    massert (bool_decide (length (txn_locks_for_1pc t) = O)) (mret (ts_zero, [])).

(** ** The prewriter *)

(** What the request's context adds to the reader's. *)
Record PrewriteCtx := mk_prewrite_ctx {
  pc_ctx : Context;
  pc_region_id : Z;
  pc_is_retry_request : bool;
  pc_txn_source : Z
}.

Definition pc_set_retry (c : PrewriteCtx) : PrewriteCtx :=
  mk_prewrite_ctx (pc_ctx c) (pc_region_id c) true (pc_txn_source c).

Abbreviation OldValues := (gmap Key (OldValue * option MutationType)).

Definition insert_old_value_if_resolved (old_values : OldValues) (key : Key) (start_ts : TimeStamp)
    (old_value : OldValue) (mutation_type : option MutationType) : OldValues :=
  if old_value_resolved old_value then <[append_ts key start_ts := (old_value, mutation_type)]> old_values
  else old_values.

(** The fields of [Prewriter] that the loop does not change. *)
Record Prewriter (K A : Type) := mk_prewriter {
  pw_kind : K;
  pw_mutations : list A;
  pw_primary : bytes;
  pw_start_ts : TimeStamp;
  pw_lock_ttl : Z;
  pw_txn_size : Z;
  pw_min_commit_ts : TimeStamp;
  pw_max_commit_ts : TimeStamp;
  pw_secondary_keys : option (list bytes);
  pw_try_one_pc : bool;
  pw_assertion_level : AssertionLevel;
  pw_ctx : PrewriteCtx
}.
Arguments mk_prewriter {K A}.
Arguments pw_kind {K A}.
Arguments pw_mutations {K A}.
Arguments pw_primary {K A}.
Arguments pw_start_ts {K A}.
Arguments pw_lock_ttl {K A}.
Arguments pw_txn_size {K A}.
Arguments pw_min_commit_ts {K A}.
Arguments pw_max_commit_ts {K A}.
Arguments pw_secondary_keys {K A}.
Arguments pw_try_one_pc {K A}.
Arguments pw_assertion_level {K A}.
Arguments pw_ctx {K A}.

(** The state of the loop over the mutations: the fields of the prewriter and
    of [props] that a fallback changes, and the local variables. *)
Record PrewriteState := mk_pstate {
  ps_commit_kind : CommitKind;
  ps_async_commit_pk : option Key;
  ps_secondary_keys : option (list bytes);
  ps_try_one_pc : bool;
  ps_final_min_commit_ts : TimeStamp;
  ps_locks : list mvcc_error;
  ps_assertion_failure : option mvcc_error;
  ps_old_values : OldValues
}.

Definition ps_fall_back (s : PrewriteState) : PrewriteState :=
  mk_pstate TwoPc None None false ts_zero (ps_locks s) (ps_assertion_failure s) (ps_old_values s).

Definition ps_prewritten (s : PrewriteState) (final_min_commit_ts : TimeStamp) (old_values : OldValues) :
    PrewriteState :=
  mk_pstate (ps_commit_kind s) (ps_async_commit_pk s) (ps_secondary_keys s) (ps_try_one_pc s)
    final_min_commit_ts (ps_locks s) (ps_assertion_failure s) old_values.

Definition ps_push_lock (s : PrewriteState) (e : mvcc_error) : PrewriteState :=
  mk_pstate (ps_commit_kind s) (ps_async_commit_pk s) (ps_secondary_keys s) (ps_try_one_pc s)
    (ps_final_min_commit_ts s) (ps_locks s ++ [e]) (ps_assertion_failure s) (ps_old_values s).

Definition ps_assertion_failed (s : PrewriteState) (e : mvcc_error) : PrewriteState :=
  mk_pstate (ps_commit_kind s) (ps_async_commit_pk s) (ps_secondary_keys s) (ps_try_one_pc s)
    (ps_final_min_commit_ts s) (ps_locks s)
    (match ps_assertion_failure s with None => Some e | some => some end) (ps_old_values s).

(** The result of an action as a value. *)
Definition attempt {A} (m : M A) : M (A + mvcc_error) := fun t =>
  match m t with
  | (Ok a, t) => (Ok (inl a), t)
  | (Err e, t) => (Ok (inr e), t)
  | (Panic, t) => (Panic, t)
  end.

Record PrewriteResult := mk_prewrite_result {
  pr_locks : list mvcc_error;
  pr_min_commit_ts : TimeStamp;
  pr_one_pc_commit_ts : TimeStamp
}.

Record TxnExtra := mk_txn_extra {
  te_old_values : OldValues;
  te_one_pc : bool;
  te_allowed_in_flashback : bool
}.

Inductive ResponsePolicy := OnApplied | OnCommitted | OnProposed.

(** What a prewrite adds to the result of a command. *)
Record PrewriteWrite := mk_prewrite_write {
  pww_result : WriteResult PrewriteResult;
  pww_extra : TxnExtra;
  pww_lock_guards : list Key;
  pww_response_policy : ResponsePolicy
}.

Section Prewriter.
  Context {K A : Type} {HA : MutationLock A} {HK : PrewriteKind K A}.
  Context (env : CmEnv) (last_change_enabled : bool).

Definition prewriter_commit_kind (p : Prewriter K A) : CommitKind :=
  match pw_secondary_keys p, pw_try_one_pc p with
  | _, true => OnePc (pw_max_commit_ts p)
  | Some _, false => Async (pw_max_commit_ts p)
  | None, false => TwoPc
  end.

Definition prewriter_props (p : Prewriter K A) (need_old_value : bool) (commit_kind : CommitKind) :
    TransactionProperties :=
  mk_props (pw_start_ts p) (txn_kind (pw_kind p)) commit_kind (pw_primary p) (pw_txn_size p) (pw_lock_ttl p)
    (pw_min_commit_ts p) need_old_value (pc_is_retry_request (pw_ctx p)) (pw_assertion_level p)
    (pc_txn_source (pw_ctx p)).

Definition prewriter_init (p : Prewriter K A) : PrewriteState :=
  mk_pstate (prewriter_commit_kind p)
    (match pw_secondary_keys p with
     | Some (_ :: _) => Some (key_from_raw (pw_primary p))
     | _ => None
     end)
    (pw_secondary_keys p) (pw_try_one_pc p) ts_zero [] None ∅.

(** The secondaries recorded in the lock of [key]: all of them in the primary
    lock, none in the others. *)
Definition secondaries_of (s : PrewriteState) (key : Key) : option (list bytes) :=
  if bool_decide (Some key = ps_async_commit_pk s) then ps_secondary_keys s
  else option_map (fun _ => []) (ps_secondary_keys s).

(** Give async and one-phase commit up for this and the later keys. *)
Definition fall_back (s : PrewriteState) : M PrewriteState :=
  _ ← fallback_1pc_locks;
  _ ← drop_guards;
  mret (ps_fall_back s).

(** One turn of the loop: it goes on with a state, or returns early because
    the transaction turns out to be committed. *)
Definition prewrite_one (rd : Reader) (p : Prewriter K A) (need_old_value : bool) (s : PrewriteState) (x : A) :
    M (PrewriteState + TimeStamp) :=
  let m := into_mutation x in
  let key := mutation_key m in
  let secondaries := secondaries_of s key in
  let need_min_commit_ts := match secondaries with Some _ => true | None => false end || ps_try_one_pc s in
  r ← attempt (prewrite env last_change_enabled rd (prewriter_props p need_old_value (ps_commit_kind s)) m secondaries
                 (pessimistic_action x) (pessimistic_expected_for_update_ts x));
  match r with
  | inl (ts, old_value) =>
      if negb (need_min_commit_ts && ts_is_zero ts) then
        let final := if need_min_commit_ts && (ps_final_min_commit_ts s <? ts) then ts
                     else ps_final_min_commit_ts s in
        t ← get_txn;
        mret (inl (ps_prewritten s final
                     (insert_old_value_if_resolved (ps_old_values s) key (txn_start_ts t) old_value
                        (Some (mutation_type m)))))
      else s ← fall_back s; mret (inl s)
  | inr e =>
      match e with
      | MWriteConflict start_ts _ conflict_commit_ts _ _ _ =>
          if start_ts <? conflict_commit_ts
          then c ← check_committed_record_on_err rd e key; mret (inr c)
          else fail e
      | MPessimisticLockNotFound _ _ _ => c ← check_committed_record_on_err rd e key; mret (inr c)
      | MCommitTsTooLarge _ _ _ =>
          res ← attempt (check_committed_record_on_err rd e key);
          match res with
          | inl c => mret (inr c)
          | inr _ => s ← fall_back s; mret (inl s)
          end
      | MKeyIsLocked _ =>
          res ← attempt (check_committed_record_on_err rd e key);
          match res with
          | inl c => mret (inr c)
          | inr e => mret (inl (ps_push_lock s e))
          end
      | MAssertionFailed _ _ _ _ _ => mret (inl (ps_assertion_failed s e))
      | _ => fail e
      end
  end.

(** The loop, with the locks it found and the final [min_commit_ts]. *)
Fixpoint prewrite_loop (rd : Reader) (p : Prewriter K A) (need_old_value : bool) (s : PrewriteState) (xs : list A) :
    M (list mvcc_error * TimeStamp * PrewriteState) :=
  match xs with
  | [] =>
      match ps_assertion_failure s with
      | Some e => fail e
      | None => mret (ps_locks s, ps_final_min_commit_ts s, s)
      end
  | x :: xs =>
      r ← prewrite_one rd p need_old_value s x;
      match r with
      | inl s => prewrite_loop rd p need_old_value s xs
      | inr commit_ts => mret ([], commit_ts, s)
      end
  end.

(** The result of the command from the result of the loop. The guards stay
    held until the write finishes; without a write they are dropped. *)
Definition prewrite_write_result (p : Prewriter K A) (locks : list mvcc_error) (final_min_commit_ts : TimeStamp)
    (s : PrewriteState) (rows : Z) (async_apply_prewrite : bool) : M PrewriteWrite :=
  let async_commit_ts := match ps_secondary_keys s with Some _ => final_min_commit_ts | None => ts_zero end in
  let policy := if (negb (ts_is_zero async_commit_ts) || ps_try_one_pc s) && async_apply_prewrite
                then OnCommitted else OnApplied in
  match locks with
  | [] =>
      '(one_pc_commit_ts, released) ← one_pc_commit (ps_try_one_pc s) final_min_commit_ts;
      t ← get_txn;
      modifies ← lift (into_modifies t);
      mret (mk_prewrite_write
              (mk_write_result (mk_prewrite_result [] async_commit_ts one_pc_commit_ts) modifies rows
                 (omap id released) (txn_new_locks t)
                 (if negb (ts_is_zero one_pc_commit_ts) then [(pw_start_ts p, one_pc_commit_ts)] else []))
              (mk_txn_extra (ps_old_values s) (ps_try_one_pc s) false) (txn_guards t) policy)
  | _ =>
      _ ← drop_guards;
      mret (mk_prewrite_write
              (mk_write_result (mk_prewrite_result locks async_commit_ts ts_zero) [] rows [] [] [])
              (mk_txn_extra ∅ false false) [] policy)
  end.

(** [context.txn_status_cache.get_committed_no_promote(start_ts)] says whether
    the transaction is known to be committed, for pessimistic transactions. *)
Definition prewriter_check_cache (committed : TimeStamp -> option TimeStamp) (p : Prewriter K A) : Prewriter K A :=
  match txn_kind (pw_kind p), committed (pw_start_ts p) with
  | Pessimistic _, Some _ =>
      mk_prewriter (pw_kind p) (pw_mutations p) (pw_primary p) (pw_start_ts p) (pw_lock_ttl p) (pw_txn_size p)
        (pw_min_commit_ts p) (pw_max_commit_ts p) (pw_secondary_keys p) (pw_try_one_pc p) (pw_assertion_level p)
        (pc_set_retry (pw_ctx p))
  | _, _ => p
  end.

Definition prewriter_skip (seek_incomplete : bool) (snapshot : Snapshot) (p : Prewriter K A) : Prewriter K A :=
  let '(kind, mutations) := can_skip_constraint_check seek_incomplete snapshot (pw_kind p) (pw_mutations p) in
  mk_prewriter kind mutations (pw_primary p) (pw_start_ts p) (pw_lock_ttl p) (pw_txn_size p) (pw_min_commit_ts p)
    (pw_max_commit_ts p) (pw_secondary_keys p) (pw_try_one_pc p) (pw_assertion_level p) (pw_ctx p).

Definition check_max_ts_synced (max_ts_synced : bool) (p : Prewriter K A) : cres unit :=
  if (match pw_secondary_keys p with Some _ => true | None => false end || pw_try_one_pc p) && negb max_ts_synced
  then Err (CMaxTimestampNotSynced (pc_region_id (pw_ctx p)) (pw_start_ts p))
  else Ok tt.

(** The transaction buffer is dropped with its guards on an error. *)
Definition prewriter_process_write (cm : ConcurrencyManager) (snapshot : Snapshot)
    (max_ts_synced seek_incomplete need_old_value async_apply_prewrite : bool)
    (committed : TimeStamp -> option TimeStamp) (p : Prewriter K A) : cres PrewriteWrite * ConcurrencyManager :=
  let p := prewriter_skip seek_incomplete snapshot (prewriter_check_cache committed p) in
  match check_max_ts_synced max_ts_synced p with
  | Ok _ =>
      let rd := new_with_ctx (pw_start_ts p) snapshot (pc_ctx (pw_ctx p)) in
      let rows := Z.of_nat (length (pw_mutations p)) in
      let body :=
        '(locks, final_min_commit_ts, s) ←
          prewrite_loop rd p need_old_value (prewriter_init p) (pw_mutations p);
        prewrite_write_result p locks final_min_commit_ts s rows async_apply_prewrite in
      match body (txn_new (pw_start_ts p) cm) with
      | (Ok w, t) => (Ok w, txn_cm t)
      | (Err e, t) => (Err (CMvcc e), fold_left guard_drop (txn_guards t) (txn_cm t))
      | (Panic, t) => (Panic, txn_cm t)
      end
  | Err e => (Err e, cm)
  | Panic => (Panic, cm)
  end.
End Prewriter.

(** ** The commands *)

Record Prewrite := mk_prewrite_cmd {
  pwc_mutations : list Mutation;
  pwc_primary : bytes;
  pwc_start_ts : TimeStamp;
  pwc_lock_ttl : Z;
  pwc_skip_constraint_check : bool;
  pwc_txn_size : Z;
  pwc_min_commit_ts : TimeStamp;
  pwc_max_commit_ts : TimeStamp;
  pwc_secondary_keys : option (list bytes);
  pwc_try_one_pc : bool;
  pwc_assertion_level : AssertionLevel;
  pwc_ctx : PrewriteCtx
}.

Definition prewrite_into_prewriter (c : Prewrite) : Prewriter OptimisticKind Mutation :=
  mk_prewriter (mk_optimistic (pwc_skip_constraint_check c)) (pwc_mutations c) (pwc_primary c) (pwc_start_ts c)
    (pwc_lock_ttl c) (pwc_txn_size c) (pwc_min_commit_ts c) (pwc_max_commit_ts c) (pwc_secondary_keys c)
    (pwc_try_one_pc c) (pwc_assertion_level c) (pwc_ctx c).

(** The keys whose latches the command takes. *)
Definition prewrite_keys (c : Prewrite) : list Key := map mutation_key (pwc_mutations c).

Definition mutation_bytes (m : Mutation) : Z :=
  match m with
  | MutPut key value _ | MutInsert key value _ => Z.of_nat (length key) + Z.of_nat (length value)
  | MutDelete key _ | MutLock key _ => Z.of_nat (length key)
  | MutCheckNotExists _ _ => 0
  end.

Definition prewrite_write_bytes (c : Prewrite) : Z :=
  fold_left (fun bytes m => wrap64 (bytes + mutation_bytes m)) (pwc_mutations c) 0.

Definition prewrite_process_write (env : CmEnv) (last_change_enabled : bool) (cm : ConcurrencyManager)
    (snapshot : Snapshot) (max_ts_synced seek_incomplete need_old_value async_apply_prewrite : bool)
    (committed : TimeStamp -> option TimeStamp) (c : Prewrite) : cres PrewriteWrite * ConcurrencyManager :=
  prewriter_process_write env last_change_enabled cm snapshot max_ts_synced seek_incomplete need_old_value
    async_apply_prewrite committed (prewrite_into_prewriter c).

Record ForUpdateTsConstraint := mk_futs_constraint {
  fuc_index : nat;
  fuc_expected_for_update_ts : TimeStamp
}.

Record PrewritePessimistic := mk_prewrite_pess {
  pwp_mutations : list (Mutation * PessimisticAction);
  pwp_primary : bytes;
  pwp_start_ts : TimeStamp;
  pwp_lock_ttl : Z;
  pwp_for_update_ts : TimeStamp;
  pwp_txn_size : Z;
  pwp_min_commit_ts : TimeStamp;
  pwp_max_commit_ts : TimeStamp;
  pwp_secondary_keys : option (list bytes);
  pwp_try_one_pc : bool;
  pwp_assertion_level : AssertionLevel;
  pwp_for_update_ts_constraints : list ForUpdateTsConstraint;
  pwp_ctx : PrewriteCtx
}.

(** An index out of range is an error of the request. *)
Fixpoint apply_constraints (mutations : list PessimisticMutation) (items : list ForUpdateTsConstraint) :
    cres (list PessimisticMutation) :=
  match items with
  | [] => Ok mutations
  | item :: items =>
      match mutations !! fuc_index item with
      | None => Err (COther (fuc_index item) (length mutations))
      | Some m =>
          apply_constraints
            (<[fuc_index item := mk_pess_mutation (pesm_mutation m) (pesm_pessimistic_action m)
                                   (Some (fuc_expected_for_update_ts item))]> mutations) items
      end
  end.

Definition prewrite_pess_into_prewriter (c : PrewritePessimistic) :
    cres (Prewriter PessimisticKind PessimisticMutation) :=
  mutations ← apply_constraints (map (fun '(m, a) => pess_mutation_new m a) (pwp_mutations c))
                (pwp_for_update_ts_constraints c);
  Ok (mk_prewriter (mk_pessimistic (pwp_for_update_ts c)) mutations (pwp_primary c) (pwp_start_ts c)
        (pwp_lock_ttl c) (pwp_txn_size c) (pwp_min_commit_ts c) (pwp_max_commit_ts c) (pwp_secondary_keys c)
        (pwp_try_one_pc c) (pwp_assertion_level c) (pwp_ctx c)).

Definition prewrite_pess_write_bytes (c : PrewritePessimistic) : Z :=
  fold_left (fun bytes m => wrap64 (bytes + mutation_bytes m.1)) (pwp_mutations c) 0.

Definition prewrite_pess_process_write (env : CmEnv) (last_change_enabled : bool) (cm : ConcurrencyManager)
    (snapshot : Snapshot) (max_ts_synced seek_incomplete need_old_value async_apply_prewrite : bool)
    (committed : TimeStamp -> option TimeStamp) (c : PrewritePessimistic) :
    cres PrewriteWrite * ConcurrencyManager :=
  match prewrite_pess_into_prewriter c with
  | Ok p => prewriter_process_write env last_change_enabled cm snapshot max_ts_synced seek_incomplete need_old_value
              async_apply_prewrite committed p
  | Err e => (Err e, cm)
  | Panic => (Panic, cm)
  end.
