(* ===== verification/KeyView.v ===== *)
(** * The contents of one key

    The three column families seen from one user key: its lock, its versions
    and its long values. Modifications of one key act on this view alone, so
    that actions can be described, and composed, key by key. *)
From S2P Require Import Prelude Number Bytes Timestamp Key Fields Lock Write OrderedMap PeerLocks Engine.
From S2P Require Import ConcurrencyManager Reader Versions.

Create HintDb kview.

(** ** The view *)

Record KV := mk_kv {
  kv_lock : option Lock;
  kv_ver : gmap Z Write;
  kv_val : gmap Z Value
}.

(** The entries of a column family whose key is [key] with a timestamp. *)
Definition slice {A} (parse : bytes -> option A) (m : cf) (key : Key) : gmap Z A :=
  list_to_map (omap (fun '(k, v) =>
    if is_user_key_eq k key then
      match decode_ts_from k, parse v with Ok ts, Some a => Some (ts, a) | _, _ => None end
    else None) (map_to_list m)).

Definition parse_write_opt (v : bytes) : option Write :=
  match write_parse v with Ok w => Some w | _ => None end.

Definition lock_at (m : cf) (key : Key) : option Lock :=
  match m !! key with
  | Some v => match lock_parse v with Ok l => Some l | _ => None end
  | None => None
  end.

Definition view (e : Engine) (key : Key) : KV :=
  mk_kv (lock_at (cf_lock e) key) (slice parse_write_opt (cf_write e) key) (slice Some (cf_default e) key).

(** Every key of the column family is a user key with a timestamp. *)
Definition versioned (m : cf) : Prop :=
  forall k v, m !! k = Some v -> exists key ts, user_key key /\ is_u64 ts /\ k = append_ts key ts.

Definition engine_wf (e : Engine) : Prop :=
  versioned (cf_default e) /\ lock_cf_wf (cf_lock e) /\ write_cf_wf (cf_write e).

Lemma write_cf_versioned m : write_cf_wf m -> versioned m.
Proof. intros H k v E. destruct (H k v E) as (key & ts & w & ? & ? & _ & _ & ? & _). eauto. Qed.

Lemma elem_of_slice {A} (parse : bytes -> option A) m key c a :
  versioned m -> user_key key ->
  (c, a) ∈ omap (fun '(k, v) =>
    if is_user_key_eq k key then
      match decode_ts_from k, parse v with Ok ts, Some a => Some (ts, a) | _, _ => None end
    else None) (map_to_list m)
  <-> is_u64 c /\ exists v, m !! append_ts key c = Some v /\ parse v = Some a.
Proof.
  intros Hm Hkey. rewrite list_elem_of_omap. split.
  - intros ([k v] & Hin & E). apply elem_of_map_to_list in Hin.
    destruct (is_user_key_eq k key) eqn:Eu; [|done].
    apply is_user_key_eq_append_ts in Eu as (c' & Hc' & ->).
    rewrite decode_ts_append_ts in E by done.
    destruct (parse v) as [a'|] eqn:Ep; [|done]. injection E as <- <-. eauto.
  - intros (Hc & v & Hv & Ep). exists (append_ts key c, v). split; [by apply elem_of_map_to_list|].
    by rewrite is_user_key_eq_append, decode_ts_append_ts, Ep.
Qed.

Lemma slice_lookup {A} (parse : bytes -> option A) m key c a :
  versioned m -> user_key key ->
  slice parse m key !! c = Some a
  <-> is_u64 c /\ exists v, m !! append_ts key c = Some v /\ parse v = Some a.
Proof.
  intros Hm Hkey. rewrite <- elem_of_slice by done. unfold slice. split.
  - apply elem_of_list_to_map_2.
  - intros Hin. apply elem_of_list_to_map'; [|done]. intros a' _ Hin'.
    apply elem_of_slice in Hin as (_ & v & Hv & Ep); [|done..].
    apply elem_of_slice in Hin' as (_ & v' & Hv' & Ep'); [|done..].
    congruence.
Qed.

Lemma ver_lookup e key c w :
  engine_wf e -> user_key key ->
  kv_ver (view e key) !! c = Some w <-> is_u64 c /\ version (cf_write e) key c = Some w.
Proof.
  intros (_ & _ & Hw) Hkey. cbn. rewrite slice_lookup by auto using write_cf_versioned.
  unfold version, parse_write_opt. split.
  - intros (Hc & v & -> & E). split; [done|]. by destruct (write_parse v).
  - intros [Hc E]. split; [done|].
    destruct (cf_write e !! append_ts key c) as [v|]; [|done]. exists v.
    by destruct (write_parse v).
Qed.

Lemma ver_None e key c :
  engine_wf e -> user_key key -> is_u64 c ->
  kv_ver (view e key) !! c = None <-> version (cf_write e) key c = None.
Proof.
  intros He Hkey Hc. split; intros E.
  - destruct (version (cf_write e) key c) as [w|] eqn:Ev; [|done].
    assert (kv_ver (view e key) !! c = Some w) by (by apply ver_lookup). congruence.
  - destruct (kv_ver (view e key) !! c) as [w|] eqn:Ev; [|done].
    apply ver_lookup in Ev as [_ Ev]; [|done..]. congruence.
Qed.

(** ** Modifications of one key *)

Inductive kmod :=
| KPutLock (l : Lock)
| KDelLock
| KPutWrite (c : TimeStamp) (w : Write)
| KDelWrite (c : TimeStamp)
| KPutVal (ts : TimeStamp) (v : Value)
| KDelVal (ts : TimeStamp).

Definition concrete (key : Key) (k : kmod) : Modify :=
  match k with
  | KPutLock l => ModifyPut CF_LOCK key (lock_to_bytes l)
  | KDelLock => ModifyDelete CF_LOCK key
  | KPutWrite c w => ModifyPut CF_WRITE (append_ts key c) (write_to_bytes w)
  | KDelWrite c => ModifyDelete CF_WRITE (append_ts key c)
  | KPutVal ts v => ModifyPut CF_DEFAULT (append_ts key ts) v
  | KDelVal ts => ModifyDelete CF_DEFAULT (append_ts key ts)
  end.

Definition kmod_wf (k : kmod) : Prop :=
  match k with
  | KPutLock l => lock_wf l /\ lock_use_one_pc l = false
  | KDelLock => True
  | KPutWrite c w => is_u64 c /\ 0 < c /\ write_wf w
  | KDelWrite c | KPutVal c _ | KDelVal c => is_u64 c
  end.

Definition kapply (a : KV) (k : kmod) : KV :=
  match k with
  | KPutLock l => mk_kv (Some l) (kv_ver a) (kv_val a)
  | KDelLock => mk_kv None (kv_ver a) (kv_val a)
  | KPutWrite c w => mk_kv (kv_lock a) (<[c := w]> (kv_ver a)) (kv_val a)
  | KDelWrite c => mk_kv (kv_lock a) (delete c (kv_ver a)) (kv_val a)
  | KPutVal ts v => mk_kv (kv_lock a) (kv_ver a) (<[ts := v]> (kv_val a))
  | KDelVal ts => mk_kv (kv_lock a) (kv_ver a) (delete ts (kv_val a))
  end.

Definition kapplies (a : KV) (ks : list kmod) : KV := fold_left kapply ks a.

(** ** The engine implements the view *)

Lemma versioned_insert m key c v :
  versioned m -> user_key key -> is_u64 c -> versioned (<[append_ts key c := v]> m).
Proof. intros Hm ?? k v' [[<- _]|[_ E]]%lookup_insert_Some; [by exists key, c|by eapply Hm]. Qed.

Lemma versioned_delete m k : versioned m -> versioned (delete k m).
Proof. intros Hm k' v [_ E]%lookup_delete_Some. by eapply Hm. Qed.

Lemma write_cf_wf_insert m key c w :
  write_cf_wf m -> user_key key -> is_u64 c -> 0 < c -> write_wf w ->
  write_cf_wf (<[append_ts key c := write_to_bytes w]> m).
Proof.
  intros Hm ???? k v' [[<- <-]|[_ E]]%lookup_insert_Some; [by exists key, c, w|by eapply Hm].
Qed.

Lemma write_cf_wf_delete m k : write_cf_wf m -> write_cf_wf (delete k m).
Proof. intros Hm k' v [_ E]%lookup_delete_Some. by eapply Hm. Qed.

Lemma lock_cf_wf_insert m key l :
  lock_cf_wf m -> user_key key -> lock_wf l -> lock_use_one_pc l = false ->
  lock_cf_wf (<[key := lock_to_bytes l]> m).
Proof. intros Hm ??? k v' [[<- <-]|[_ E]]%lookup_insert_Some; [by exists l|by eapply Hm]. Qed.

Lemma lock_cf_wf_delete m k : lock_cf_wf m -> lock_cf_wf (delete k m).
Proof. intros Hm k' v [_ E]%lookup_delete_Some. by eapply Hm. Qed.

#[local] Hint Resolve versioned_insert versioned_delete write_cf_wf_insert write_cf_wf_delete
  lock_cf_wf_insert lock_cf_wf_delete write_cf_versioned : kview.

Lemma slice_insert {A} (parse : bytes -> option A) m key c v a :
  versioned m -> user_key key -> is_u64 c -> parse v = Some a ->
  slice parse (<[append_ts key c := v]> m) key = <[c := a]> (slice parse m key).
Proof.
  intros Hm Hkey Hc Hp. apply map_eq. intros c'. apply option_eq. intros a'.
  rewrite slice_lookup, lookup_insert_Some, slice_lookup by auto with kview. split.
  - intros (Hc' & v' & [[E <-]|[Hne Hv']]%lookup_insert_Some & Hp').
    + apply append_ts_inj in E as [_ <-]; [|done..]. left. split; [done|congruence].
    + right. split; [congruence|eauto].
  - intros [[<- <-]|[Hne (Hc' & v' & Hv' & Hp')]].
    + split; [done|]. exists v. by rewrite lookup_insert_eq.
    + split; [done|]. exists v'. rewrite lookup_insert_ne; [done|].
      by intros [_ ?]%append_ts_inj.
Qed.

Lemma slice_delete {A} (parse : bytes -> option A) m key c :
  versioned m -> user_key key -> is_u64 c ->
  slice parse (delete (append_ts key c) m) key = delete c (slice parse m key).
Proof.
  intros Hm Hkey Hc. apply map_eq. intros c'. apply option_eq. intros a'.
  rewrite slice_lookup, lookup_delete_Some, slice_lookup by auto with kview. split.
  - intros (Hc' & v' & [Hne Hv']%lookup_delete_Some & Hp'). split; [congruence|eauto].
  - intros (Hne & Hc' & v' & Hv' & Hp'). split; [done|]. exists v'.
    rewrite lookup_delete_ne; [done|]. by intros [_ ?]%append_ts_inj.
Qed.

(** Entries of other keys do not matter. *)
Lemma slice_ext {A} (parse : bytes -> option A) m m' key :
  versioned m -> versioned m' -> user_key key ->
  (forall c, is_u64 c -> m !! append_ts key c = m' !! append_ts key c) ->
  slice parse m key = slice parse m' key.
Proof.
  intros Hm Hm' Hkey E. apply map_eq. intros c. apply option_eq. intros a.
  rewrite !slice_lookup by done. split; intros (Hc & v & Hv & Hp); (split; [done|]); exists v.
  - by rewrite <- E.
  - by rewrite E.
Qed.

Lemma append_ts_ne key key' c c' :
  user_key key -> user_key key' -> key <> key' -> append_ts key c <> append_ts key' c'.
Proof. intros H H' Hne [E _]%user_key_append_inj; done. Qed.

Lemma lock_parse_wf l : lock_wf l -> lock_use_one_pc l = false -> lock_parse (lock_to_bytes l) = Ok l.
Proof. intros Hl E. rewrite lock_parse_to_bytes by done. rewrite <- E. by destruct l. Qed.

Section Apply.
  Context (e : Engine) (key : Key) (k : kmod).
  Hypothesis He : engine_wf e.
  Hypothesis Hkey : user_key key.
  Hypothesis Hk : kmod_wf k.

Lemma write_modify_wf :
  exists e', write_modify (E := kv_error) e (concrete key k) = Ok e' /\ engine_wf e'
    /\ view e' key = kapply (view e key) k
    /\ forall key', user_key key' -> key' <> key -> view e' key' = view e key'.
Proof using He Hkey Hk.
  destruct He as (Hd & Hl & Hw), e as [d lk wr]. cbn [cf_default cf_lock cf_write] in *.
  assert (forall c key', user_key key' -> key' <> key -> forall c', append_ts key c <> append_ts key' c') as Hne
    by (intros; apply append_ts_ne; done || congruence).
  destruct k as [l| |c w|c|ts v|ts]; cbn [kmod_wf concrete write_modify engine_get_cf engine_set_cf kapply cf_default cf_lock cf_write] in Hk |- *;
    unfold view; cbn [cf_default cf_lock cf_write].
  - destruct Hk as [Hlw H1]. eexists; split_and!; [done|split_and!; cbn [cf_default cf_lock cf_write]; auto with kview| |]; cbn [kv_lock kv_ver kv_val cf_default cf_lock cf_write].
    + unfold lock_at. by rewrite lookup_insert_eq, lock_parse_wf.
    + intros key' Hk' Hkk. f_equal. unfold lock_at. by rewrite lookup_insert_ne by congruence.
  - eexists; split_and!; [done|split_and!; cbn [cf_default cf_lock cf_write]; auto with kview| |]; cbn [kv_lock kv_ver kv_val cf_default cf_lock cf_write].
    + unfold lock_at. by rewrite lookup_delete_eq.
    + intros key' Hk' Hkk. f_equal. unfold lock_at. by rewrite lookup_delete_ne by congruence.
  - destruct Hk as (Hc & Hpos & Hww). eexists; split_and!; [done|split_and!; cbn [cf_default cf_lock cf_write]; auto with kview| |]; cbn [kv_lock kv_ver kv_val cf_default cf_lock cf_write].
    + f_equal. apply slice_insert; auto with kview. unfold parse_write_opt. by rewrite write_parse_to_bytes.
    + intros key' Hk' Hkk. f_equal. apply slice_ext; auto with kview.
      intros c' Hc'. by rewrite lookup_insert_ne by auto.
  - eexists; split_and!; [done|split_and!; cbn [cf_default cf_lock cf_write]; auto with kview| |]; cbn [kv_lock kv_ver kv_val cf_default cf_lock cf_write].
    + f_equal. apply slice_delete; auto with kview.
    + intros key' Hk' Hkk. f_equal. apply slice_ext; auto with kview.
      intros c' Hc'. by rewrite lookup_delete_ne by auto.
  - eexists; split_and!; [done|split_and!; cbn [cf_default cf_lock cf_write]; auto with kview| |]; cbn [kv_lock kv_ver kv_val cf_default cf_lock cf_write].
    + f_equal. by apply slice_insert.
    + intros key' Hk' Hkk. f_equal. apply slice_ext; auto with kview.
      intros c' Hc'. by rewrite lookup_insert_ne by auto.
  - eexists; split_and!; [done|split_and!; cbn [cf_default cf_lock cf_write]; auto with kview| |]; cbn [kv_lock kv_ver kv_val cf_default cf_lock cf_write].
    + f_equal. by apply slice_delete.
    + intros key' Hk' Hkk. f_equal. apply slice_ext; auto with kview.
      intros c' Hc'. by rewrite lookup_delete_ne by auto.
Qed.
End Apply.

(** A batch of well-formed modifications of one key. *)
Lemma write_modifies_view e key ks :
  engine_wf e -> user_key key -> Forall kmod_wf ks ->
  exists e', write_modifies (E := kv_error) e (map (concrete key) ks) = Ok e' /\ engine_wf e'
    /\ view e' key = kapplies (view e key) ks
    /\ forall key', user_key key' -> key' <> key -> view e' key' = view e key'.
Proof.
  revert e. induction ks as [|k ks IH]; intros e He Hkey Hks; [by exists e|].
  apply Forall_cons in Hks as [Hk Hks].
  destruct (write_modify_wf e key k He Hkey Hk) as (e1 & E1 & He1 & Hv1 & Ho1).
  destruct (IH e1 He1 Hkey Hks) as (e2 & E2 & He2 & Hv2 & Ho2).
  exists e2. cbn [map write_modifies]. rewrite E1. cbn [mbind res_bind]. split_and!; [done..| |].
  - rewrite Hv2, Hv1. done.
  - intros key' Hk' Hne. by rewrite Ho2, Ho1.
Qed.
