(* ===== verification/Protocol.v ===== *)
(** * The commit protocol on one key

    The abstract machine the actions on one key implement: a lock is taken,
    and released by a commit or a rollback; rollbacks leave records, which may
    be collapsed unless they are protected. The invariant of the machine and
    the stability of a transaction's fate are proved here, on the machine. *)
From S2P Require Import Prelude Number Bytes Timestamp Key Fields Lock Write OrderedMap PeerLocks Engine.
From S2P Require Import ConcurrencyManager Reader Versions CheckTxnStatus KeyView.

(** ** Reading a version map *)

Abbreviation vmap := (gmap Z Write).

Definition is_rollback (w : Write) : bool := bool_decide (write_type w = WTRollback).

(** What a data-changing version says. *)
Definition data_at (V : vmap) (c : TimeStamp) : option (WriteType * TimeStamp * option Value) :=
  match V !! c with
  | Some w => if is_data w then Some (write_type w, write_start_ts w, write_short_value w) else None
  | None => None
  end.

Definition dlatest (V : vmap) (ts t : TimeStamp) : Prop :=
  t <= ts /\ is_Some (data_at V t) /\ forall c, t < c <= ts -> data_at V c = None.

Definition dnone (V : vmap) (ts : TimeStamp) : Prop := forall c, c <= ts -> data_at V c = None.

(** Nothing is readable at [ts]. *)
Definition unreadable (V : vmap) (ts : TimeStamp) : Prop :=
  dnone V ts \/ exists t st v, dlatest V ts t /\ data_at V t = Some (WTDelete, st, v).

(** A [last_change] pointer tells the truth at [ts]. *)
Definition lc_true (V : vmap) (ts : TimeStamp) (lc : LastChange) : Prop :=
  match lc with
  | LCUnknown => True
  | LCExist t _ => dlatest V ts t
  | LCNotExist => unreadable V ts
  end.

Definition same_data (V V' : vmap) : Prop := forall c, data_at V c = data_at V' c.

(** ** Fates *)

(** The transaction [st] committed at [c]. *)
Definition committed_at (V : vmap) (st c : TimeStamp) (w : Write) : Prop :=
  V !! c = Some w /\ is_rollback w = false /\ write_start_ts w = st.

(** A version that says that the transaction that started at its timestamp
    was rolled back, and one that will not be collapsed. *)
Definition says_rollback (w : Write) : bool := is_rollback w || write_has_overlapped_rollback w.
Definition says_sticky_rollback (w : Write) : bool := write_is_protected w || write_has_overlapped_rollback w.

Definition rolled_back (V : vmap) (st : TimeStamp) : Prop :=
  exists w, V !! st = Some w /\ says_rollback w = true.
Definition sticky_rolled_back (V : vmap) (st : TimeStamp) : Prop :=
  exists w, V !! st = Some w /\ says_sticky_rollback w = true.

(** The first data-changing version after [ts], or zero. *)
Definition next_data_at (V : vmap) (ts g : TimeStamp) : Prop :=
  (g = 0 \/ (ts < g /\ is_Some (data_at V g)))
  /\ forall c, ts < c -> (g = 0 \/ c < g) -> data_at V c = None.

(** ** The machine *)

Definition needs_value (l : Lock) : bool :=
  bool_decide (lock_type l = LTPut) && bool_decide (lock_short_value l = None).

(** The record a lock becomes when its transaction commits at [c]. *)
Definition committed_record (l : Lock) (c : TimeStamp) (w : Write) : Prop :=
  exists t, write_type_from_lock_type (lock_type l) = Some t
    /\ write_type w = t /\ write_start_ts w = lock_ts l /\ write_short_value w = lock_short_value l
    /\ write_last_change w = lock_last_change l /\ write_gc_fence w = None
    /\ write_has_overlapped_rollback w = bool_decide (c ∈ lock_rollback_ts l).

(** Updates of a lock in place: only its time to live, its [min_commit_ts]
    and its list of rollbacks change, and the last two only grow. *)
Definition lock_extends (l l' : Lock) : Prop :=
  lock_type l' = lock_type l /\ lock_ts l' = lock_ts l /\ lock_short_value l' = lock_short_value l
  /\ lock_last_change l' = lock_last_change l /\ lock_use_async_commit l' = lock_use_async_commit l
  /\ lock_min_commit_ts l <= lock_min_commit_ts l' /\ lock_rollback_ts l ⊆ lock_rollback_ts l'
  /\ lock_generation l' = lock_generation l.

Inductive kstep : KV -> KV -> Prop :=
| step_prewrite a l v :
    kv_lock a = None ->
    lock_type l <> LTPessimistic -> lock_rollback_ts l = [] -> 0 <= lock_ts l ->
    (forall c w, kv_ver a !! c = Some w -> c <= lock_ts l) ->
    ~ rolled_back (kv_ver a) (lock_ts l) ->
    (lock_type l = LTLock -> lc_true (kv_ver a) (lock_ts l) (lock_last_change l)) ->
    (needs_value l = true -> is_Some v) ->
    kstep a (mk_kv (Some l) (kv_ver a) (match v with Some v => <[lock_ts l := v]> (kv_val a) | None => kv_val a end))
| step_commit a l c w :
    kv_lock a = Some l -> lock_ts l < c -> lock_min_commit_ts l <= c ->
    lock_use_async_commit l = true \/ kv_ver a !! c = None ->
    committed_record l c w ->
    kstep a (mk_kv None (<[c := w]> (kv_ver a)) (kv_val a))
| step_unlock a l (d : bool) :
    kv_lock a = Some l ->
    kstep a (mk_kv None (kv_ver a) (if d then delete (lock_ts l) (kv_val a) else kv_val a))
| step_put_rollback a st p :
    0 < st -> kv_ver a !! st = None ->
    (forall c w, kv_ver a !! c = Some w -> write_start_ts w <> st) ->
    (forall l, kv_lock a = Some l -> lock_ts l <> st
       /\ (p = true -> lock_use_async_commit l = true -> lock_min_commit_ts l <= st -> st ∈ lock_rollback_ts l)) ->
    kstep a (mk_kv (kv_lock a) (<[st := write_new_rollback st p]> (kv_ver a)) (kv_val a))
| step_overlap a st w g :
    kv_ver a !! st = Some w -> write_start_ts w < st ->
    (forall c w, kv_ver a !! c = Some w -> write_start_ts w <> st) ->
    (forall l, kv_lock a = Some l -> lock_ts l <> st) ->
    next_data_at (kv_ver a) st g ->
    kstep a (mk_kv (kv_lock a) (<[st := set_overlapped_rollback w true (Some g)]> (kv_ver a)) (kv_val a))
| step_collapse a c w :
    kv_ver a !! c = Some w -> is_rollback w = true -> write_is_protected w = false ->
    kstep a (mk_kv (kv_lock a) (delete c (kv_ver a)) (kv_val a))
| step_extend_lock a l l' :
    kv_lock a = Some l -> lock_extends l l' ->
    (forall st, st ∈ lock_rollback_ts l' -> st ∈ lock_rollback_ts l
       \/ st <> lock_ts l /\ (forall c w, kv_ver a !! c = Some w -> write_start_ts w <> st)) ->
    kstep a (mk_kv (Some l') (kv_ver a) (kv_val a)).

(** ** The invariant *)

Record kinv (a : KV) : Prop := {
  (* the shape of the records *)
  inv_pos : forall c w, kv_ver a !! c = Some w -> 0 < c;
  inv_rollback : forall c w, kv_ver a !! c = Some w -> is_rollback w = true ->
    write_start_ts w = c /\ write_has_overlapped_rollback w = false /\ write_last_change w = LCUnknown;
  inv_commit : forall c w, kv_ver a !! c = Some w -> is_rollback w = false -> write_start_ts w < c;
  (* a transaction has one record *)
  inv_unique : forall c w c' w', kv_ver a !! c = Some w -> kv_ver a !! c' = Some w' ->
    write_start_ts w = write_start_ts w' -> c = c';
  (* a transaction that was rolled back under another's record has none *)
  inv_overlap : forall c w c' w', kv_ver a !! c = Some w -> write_has_overlapped_rollback w = true ->
    kv_ver a !! c' = Some w' -> write_start_ts w' <> c;
  (* no transaction committed between the start and the commit of another *)
  inv_no_lost_update : forall c w c' w', kv_ver a !! c = Some w -> kv_ver a !! c' = Some w' ->
    is_rollback w = false -> is_rollback w' = false -> c < c' -> c <= write_start_ts w';
  (* the lock *)
  inv_lock_type : forall l, kv_lock a = Some l -> lock_type l <> LTPessimistic /\ 0 <= lock_ts l;
  inv_lock_undecided : forall l c w, kv_lock a = Some l -> kv_ver a !! c = Some w -> write_start_ts w <> lock_ts l;
  inv_lock_overlap : forall l w, kv_lock a = Some l -> kv_ver a !! lock_ts l = Some w ->
    write_has_overlapped_rollback w = false;
  inv_lock_newer : forall l c w, kv_lock a = Some l -> kv_ver a !! c = Some w -> lock_ts l < c ->
    is_rollback w = true
    /\ (write_is_protected w = true -> lock_use_async_commit l = true -> lock_min_commit_ts l <= c ->
        c ∈ lock_rollback_ts l);
  inv_lock_rollback_ts : forall l st, kv_lock a = Some l -> st ∈ lock_rollback_ts l ->
    st <> lock_ts l /\ forall c w, kv_ver a !! c = Some w -> is_rollback w = false -> write_start_ts w <> st;
  (* values, fences and pointers *)
  inv_value : forall c w, kv_ver a !! c = Some w -> write_type w = WTPut -> write_short_value w = None ->
    is_Some (kv_val a !! write_start_ts w);
  inv_lock_value : forall l, kv_lock a = Some l -> needs_value l = true -> is_Some (kv_val a !! lock_ts l);
  inv_fence : forall c w g, kv_ver a !! c = Some w -> write_gc_fence w = Some g -> g <> 0 ->
    c < g /\ is_Some (data_at (kv_ver a) g);
  inv_last_change : forall c w, kv_ver a !! c = Some w -> is_data w = false ->
    lc_true (kv_ver a) c (write_last_change w);
  inv_lock_last_change : forall l, kv_lock a = Some l -> lock_type l = LTLock ->
    lc_true (kv_ver a) (lock_ts l) (lock_last_change l)
}.

(** ** Preservation *)

(** A pointer stays true when nothing below changes and nothing above is
    data. *)
Lemma lc_true_mono V V' ts ts' lc :
  ts <= ts' -> (forall c, c <= ts -> data_at V c = data_at V' c) ->
  (forall c, ts < c <= ts' -> data_at V' c = None) ->
  lc_true V ts lc -> lc_true V' ts' lc.
Proof.
  intros Hle Hsame Hno.
  assert (forall t, dlatest V ts t -> dlatest V' ts' t) as Hl.
  { intros t (Ht & Hs & Hn). split_and!; [lia|by rewrite <- Hsame|]. intros c Hc.
    destruct (Z.le_gt_cases c ts); [rewrite <- Hsame by done; apply Hn; lia|apply Hno; lia]. }
  destruct lc as [|t n|]; cbn; [done|auto|]. intros [Hn|(t & st & v & Ht & E)].
  - left. intros c Hc. destruct (Z.le_gt_cases c ts); [rewrite <- Hsame by done; auto|apply Hno; lia].
  - right. exists t, st, v. split; [auto|]. destruct Ht as [? _]. by rewrite <- Hsame.
Qed.

Lemma lc_true_same V V' ts lc : same_data V V' -> lc_true V ts lc -> lc_true V' ts lc.
Proof. intros E. apply lc_true_mono; [done|auto|lia]. Qed.

Lemma rollback_not_data w : is_rollback w = true -> is_data w = false.
Proof. unfold is_rollback, is_data. by destruct (write_type w). Qed.

Lemma data_at_None V c : (forall w, V !! c = Some w -> is_data w = false) -> data_at V c = None.
Proof. unfold data_at. intros H. destruct (V !! c) as [w|]; [|done]. by rewrite (H w). Qed.

Lemma data_at_Some V c w : V !! c = Some w -> is_data w = true -> is_Some (data_at V c).
Proof. unfold data_at. intros -> ->. eauto. Qed.

Lemma data_at_insert_ne V c w c' : c <> c' -> data_at (<[c := w]> V) c' = data_at V c'.
Proof. intros. unfold data_at. by rewrite lookup_insert_ne. Qed.

Lemma same_data_insert V c w :
  (forall w', V !! c = Some w' -> is_data w' = false) -> is_data w = false -> same_data V (<[c := w]> V).
Proof.
  intros H Hw c'. destruct (decide (c = c')) as [<-|]; [|by rewrite data_at_insert_ne].
  rewrite data_at_None by done. unfold data_at. by rewrite lookup_insert_eq, Hw.
Qed.

Lemma same_data_delete V c :
  (forall w', V !! c = Some w' -> is_data w' = false) -> same_data V (delete c V).
Proof.
  intros H c'. destruct (decide (c = c')) as [<-|].
  - rewrite data_at_None by done. unfold data_at. by rewrite lookup_delete_eq.
  - unfold data_at. by rewrite lookup_delete_ne.
Qed.

Lemma same_data_overlap V c w b g :
  V !! c = Some w -> same_data V (<[c := set_overlapped_rollback w b g]> V).
Proof.
  intros Hw c'. destruct (decide (c = c')) as [<-|]; [|by rewrite data_at_insert_ne].
  unfold data_at. by rewrite lookup_insert_eq, Hw.
Qed.

(** Looking a record up in an updated map. *)
Ltac lookup_cases :=
  repeat match goal with
  | H : <[_ := _]> _ !! _ = Some _ |- _ =>
      apply lookup_insert_Some in H as [[? ?]|[? ?]]; subst
  | H : delete _ _ !! _ = Some _ |- _ => apply lookup_delete_Some in H as [? ?]
  end.

(** A goal that is a clause of the invariant. *)
Ltac by_inv I :=
  solve [ eapply (inv_pos _ I); eauto
        | eapply (inv_rollback _ I); eauto
        | eapply (inv_commit _ I); eauto
        | eapply (inv_unique _ I); eauto
        | eapply (inv_overlap _ I); eauto
        | eapply (inv_no_lost_update _ I); eauto
        | eapply (inv_lock_type _ I); eauto
        | eapply (inv_lock_undecided _ I); eauto
        | eapply (inv_lock_overlap _ I); eauto
        | eapply (inv_lock_newer _ I); eauto
        | eapply (inv_lock_rollback_ts _ I); eauto
        | eapply (inv_value _ I); eauto
        | eapply (inv_lock_value _ I); eauto
        | eapply (inv_fence _ I); eauto
        | eapply (inv_last_change _ I); eauto
        | eapply (inv_lock_last_change _ I); eauto ].

Lemma prewrite_inv a l v :
  kinv a -> kv_lock a = None -> lock_type l <> LTPessimistic -> lock_rollback_ts l = [] -> 0 <= lock_ts l ->
  (forall c w, kv_ver a !! c = Some w -> c <= lock_ts l) ->
  ~ rolled_back (kv_ver a) (lock_ts l) ->
  (lock_type l = LTLock -> lc_true (kv_ver a) (lock_ts l) (lock_last_change l)) ->
  (needs_value l = true -> is_Some v) ->
  kinv (mk_kv (Some l) (kv_ver a) (match v with Some v => <[lock_ts l := v]> (kv_val a) | None => kv_val a end)).
Proof.
  intros I Hnone Ht Hr Hpos Hnew Hnr Hlc Hv.
  assert (forall c w, kv_ver a !! c = Some w -> write_start_ts w <> lock_ts l) as Hund.
  { intros c w Hw E. pose proof (Hnew c w Hw). destruct (is_rollback w) eqn:Er.
    - destruct (inv_rollback a I c w Hw Er) as [E' _]. apply Hnr. exists w.
      unfold says_rollback. rewrite Er. split; [congruence|done].
    - pose proof (inv_commit a I c w Hw Er). lia. }
  constructor; cbn [kv_lock kv_ver kv_val]; try apply I.
  - by intros l' [= <-].
  - intros l' c w [= <-]. apply Hund.
  - intros l' w [= <-] Hw. destruct (write_has_overlapped_rollback w) eqn:Eo; [|done].
    destruct Hnr. exists w. split; [done|]. unfold says_rollback. rewrite Eo. apply orb_true_r.
  - intros l' c w [= <-] Hw Hlt. specialize (Hnew c w Hw). lia.
  - intros l' st [= <-]. rewrite Hr. by intros ?%elem_of_nil.
  - intros c w Hw Hp Hs. pose proof (inv_value a I c w Hw Hp Hs). destruct v; [|done].
    rewrite lookup_insert_ne; [done|]. intros E. by apply (Hund c w).
  - intros l' [= <-] Hn. destruct (Hv Hn) as [v' ->]. rewrite lookup_insert_eq. eauto.
  - intros l' [= <-]. exact Hlc.
Qed.

Lemma unlock_inv a l (d : bool) :
  kinv a -> kv_lock a = Some l ->
  kinv (mk_kv None (kv_ver a) (if d then delete (lock_ts l) (kv_val a) else kv_val a)).
Proof.
  intros I Hl. constructor; cbn [kv_lock kv_ver kv_val]; try apply I; try done.
  intros c w Hw Hp Hs. pose proof (inv_value a I c w Hw Hp Hs). destruct d; [|done].
  rewrite lookup_delete_ne; [done|]. intros E. by apply (inv_lock_undecided a I l c w).
Qed.

Lemma collapse_inv a c w :
  kinv a -> kv_ver a !! c = Some w -> is_rollback w = true ->
  kinv (mk_kv (kv_lock a) (delete c (kv_ver a)) (kv_val a)).
Proof.
  intros I Hw Hr.
  assert (same_data (kv_ver a) (delete c (kv_ver a))) as Hsd.
  { apply same_data_delete. intros w' Hw'. apply rollback_not_data. congruence. }
  constructor; cbn [kv_lock kv_ver kv_val]; intros; lookup_cases; try by_inv I.
  - split; [by_inv I|]. intros; lookup_cases. by_inv I.
  - destruct (inv_fence a I c0 w0 g) as [? ?]; [done..|]. split; [done|]. by rewrite <- Hsd.
  - eapply lc_true_same; [done|]. by eapply inv_last_change.
  - eapply lc_true_same; [done|]. by eapply inv_lock_last_change.
Qed.

Lemma extend_lock_inv a l l' :
  kinv a -> kv_lock a = Some l -> lock_extends l l' ->
  (forall st, st ∈ lock_rollback_ts l' -> st ∈ lock_rollback_ts l
     \/ st <> lock_ts l /\ (forall c w, kv_ver a !! c = Some w -> write_start_ts w <> st)) ->
  kinv (mk_kv (Some l') (kv_ver a) (kv_val a)).
Proof.
  intros I Hl (Et & Es & Ev & Elc & Ea & Hm & Hr & _) Hnew.
  constructor; cbn [kv_lock kv_ver kv_val]; try apply I; intros l2.
  - intros [= <-]. rewrite Et, Es. by apply (inv_lock_type a I).
  - intros c w [= <-]. rewrite Es. by apply (inv_lock_undecided a I).
  - intros w [= <-]. rewrite Es. by apply (inv_lock_overlap a I).
  - intros c w [= <-] Hw. rewrite Es, Ea. intros Hlt.
    destruct (inv_lock_newer a I l c w Hl Hw Hlt) as [Hrb Hin]. split; [done|].
    intros Hp Has Hc. apply Hr, Hin; done || lia.
  - intros st [= <-] [Hin|[Hne Hno]]%Hnew; rewrite Es; [by apply (inv_lock_rollback_ts a I)|].
    split; [done|]. intros c w Hw _. by eapply Hno.
  - intros [= <-]. rewrite Es. unfold needs_value. rewrite Et, Ev. by apply (inv_lock_value a I).
  - intros [= <-]. rewrite Et, Es, Elc. by apply (inv_lock_last_change a I).
Qed.

Lemma put_rollback_inv a st p :
  kinv a -> 0 < st -> kv_ver a !! st = None ->
  (forall c w, kv_ver a !! c = Some w -> write_start_ts w <> st) ->
  (forall l, kv_lock a = Some l -> lock_ts l <> st
     /\ (p = true -> lock_use_async_commit l = true -> lock_min_commit_ts l <= st -> st ∈ lock_rollback_ts l)) ->
  kinv (mk_kv (kv_lock a) (<[st := write_new_rollback st p]> (kv_ver a)) (kv_val a)).
Proof.
  intros I Hpos Hnone Hno Hl. set (r := write_new_rollback st p).
  assert (same_data (kv_ver a) (<[st := r]> (kv_ver a))) as Hsd.
  { apply same_data_insert; [|done]. intros w. by rewrite Hnone. }
  constructor; cbn [kv_lock kv_ver kv_val]; intros; lookup_cases; try done; try by_inv I.
  - exfalso. by eapply Hno.
  - exfalso. by eapply Hno.
  - intros E. destruct (Hl l) as [Hne _]; [done|]. by apply Hne.
  - destruct (Hl l) as [Hne Hin]; [done|]. split; [done|]. intros Hp. apply Hin.
    unfold write_is_protected in Hp. by destruct p.
  - split; [by_inv I|]. intros; lookup_cases; [done|]. by_inv I.
  - destruct (inv_fence a I c w g) as [? ?]; [done..|]. split; [done|]. by rewrite <- Hsd.
  - eapply lc_true_same; [done|]. by eapply inv_last_change.
  - eapply lc_true_same; [done|]. by eapply inv_lock_last_change.
Qed.

Lemma overlap_inv a st w g :
  kinv a -> kv_ver a !! st = Some w -> write_start_ts w < st ->
  (forall c w, kv_ver a !! c = Some w -> write_start_ts w <> st) ->
  (forall l, kv_lock a = Some l -> lock_ts l <> st) ->
  next_data_at (kv_ver a) st g ->
  kinv (mk_kv (kv_lock a) (<[st := set_overlapped_rollback w true (Some g)]> (kv_ver a)) (kv_val a)).
Proof.
  intros I Hw Hlt Hno Hl [Hg _]. set (w2 := set_overlapped_rollback w true (Some g)).
  pose proof (same_data_overlap (kv_ver a) st w true (Some g) Hw) as Hsd.
  assert (is_rollback w = false) as Hnr.
  { destruct (is_rollback w) eqn:E; [|done]. destruct (inv_rollback a I st w Hw E). lia. }
  (* every record keeps what it says of its own transaction *)
  assert (forall c w', <[st := w2]> (kv_ver a) !! c = Some w' -> exists w0, kv_ver a !! c = Some w0
    /\ write_type w' = write_type w0 /\ write_start_ts w' = write_start_ts w0
    /\ write_short_value w' = write_short_value w0 /\ write_last_change w' = write_last_change w0
    /\ is_rollback w' = is_rollback w0 /\ is_data w' = is_data w0
    /\ write_is_protected w' = write_is_protected w0 /\ (w' = w0 \/ c = st /\ w' = w2)) as Hback.
  { intros c w' [[<- <-]|[Hne Hw']]%lookup_insert_Some; [exists w|exists w']; split_and!; auto. }
  constructor; cbn [kv_lock kv_ver kv_val]; intros;
    repeat match goal with H : <[st := w2]> _ !! _ = Some _ |- _ =>
      apply Hback in H as (? & ? & Et & Es & Ev & Elc & Er & Ed & Ep & ?);
      rewrite ?Et, ?Es, ?Ev, ?Elc, ?Er, ?Ed, ?Ep in *; clear Et Es Ev Elc Er Ed Ep end; try by_inv I.
  - destruct (inv_rollback a I c x) as (? & ? & ?); [done..|]. split_and!; [done| |done].
    destruct H1 as [->|[-> ->]]; [done|]. congruence.
  - match goal with H : _ \/ c = st /\ _ |- _ => destruct H as [->|[-> ->]] end; [by_inv I|]. by eapply Hno.
  - match goal with H : _ \/ _ /\ _ |- _ => destruct H as [->|[E _]] end; [by_inv I|].
    by destruct (Hl l).
  - split; [by_inv I|]. intros c w0 (x & Hx & _ & -> & _ & _ & -> & _)%Hback. by_inv I.
  - rewrite <- Hsd. match goal with H : _ \/ _ /\ _ |- _ => destruct H as [->|[-> E]] end; [by_inv I|].
    rewrite E in *. match goal with H : write_gc_fence _ = _ |- _ => injection H as <- end.
    by destruct Hg as [|[? ?]].
  - eapply lc_true_same; [done|]. by_inv I.
  - eapply lc_true_same; [done|]. by_inv I.
Qed.

Lemma committed_record_kind l c w :
  committed_record l c w -> lock_type l <> LTPessimistic ->
  is_rollback w = false /\ (is_data w = false -> lock_type l = LTLock)
  /\ (write_type w = WTPut -> lock_type l = LTPut).
Proof.
  intros (t & Et & <- & _) Hp. unfold is_rollback, is_data.
  by destruct (lock_type l); try done; injection Et as <-.
Qed.

Section Commit.
  Context (a : KV) (l : Lock) (c : TimeStamp) (w : Write).
  Hypothesis I : kinv a.
  Hypothesis Hl : kv_lock a = Some l.
  Hypothesis Hlt : lock_ts l < c.
  Hypothesis Hw : committed_record l c w.

Lemma commit_data_below c' : c' <> c -> data_at (<[c := w]> (kv_ver a)) c' = data_at (kv_ver a) c'.
Proof using. intros. by rewrite data_at_insert_ne by congruence. Qed.

Lemma locked_no_data c' : lock_ts l < c' -> data_at (kv_ver a) c' = None.
Proof using I Hl.
  intros Hc. apply data_at_None. intros w' Hw'.
  destruct (inv_lock_newer a I l c' w') as [? _]; [done..|]. by apply rollback_not_data.
Qed.

Lemma commit_last_change c0 w0 :
  <[c := w]> (kv_ver a) !! c0 = Some w0 -> is_data w0 = false ->
  lc_true (<[c := w]> (kv_ver a)) c0 (write_last_change w0).
Proof using I Hl Hlt Hw.
  intros Hv Hd. destruct (inv_lock_type a I l Hl) as [Hp _].
  destruct (committed_record_kind l c w Hw Hp) as (_ & Hk & _).
  apply lookup_insert_Some in Hv as [[<- <-]|[Hne Hv]].
  - pose proof Hw as (t & _ & _ & _ & _ & -> & _).
    apply (lc_true_mono (kv_ver a) _ (lock_ts l)); [lia| | |].
    + intros c' Hc'. rewrite commit_data_below; [done|lia].
    + intros c' Hc'. destruct (decide (c' = c)) as [->|].
      * unfold data_at. by rewrite lookup_insert_eq, Hd.
      * rewrite commit_data_below by done. apply locked_no_data. lia.
    + apply (inv_lock_last_change a I); auto.
  - destruct (Z.le_gt_cases c0 (lock_ts l)) as [Hle|Hgt].
    + apply (lc_true_mono (kv_ver a) _ c0); [lia| |lia|by eapply (inv_last_change a I)].
      intros c' Hc'. rewrite commit_data_below; [done|lia].
    + destruct (inv_lock_newer a I l c0 w0) as [Hr _]; [done..|].
      by destruct (inv_rollback a I c0 w0) as (_ & _ & ->).
Qed.

Lemma commit_overlap c0 w0 c' w' :
  <[c := w]> (kv_ver a) !! c0 = Some w0 -> write_has_overlapped_rollback w0 = true ->
  <[c := w]> (kv_ver a) !! c' = Some w' -> write_start_ts w' <> c0.
Proof using I Hl Hlt Hw.
  pose proof Hw as (t & _ & _ & Es & _ & _ & _ & Eo).
  intros [[<- <-]|[Hne Hv]]%lookup_insert_Some Ho [[Ec Ew]|[Hne' Hv']]%lookup_insert_Some.
  - rewrite <- Ew. lia.
  - rewrite Eo in Ho. apply bool_decide_eq_true in Ho.
    destruct (is_rollback w') eqn:Er; [|by eapply (inv_lock_rollback_ts a I)].
    by destruct (inv_rollback a I c' w') as [-> _].
  - rewrite <- Ew, Es. intros E. rewrite <- E in Hv. by rewrite (inv_lock_overlap a I l w0 Hl Hv) in Ho.
  - by eapply (inv_overlap a I).
Qed.

Lemma commit_no_lost_update c0 w0 c' w' :
  <[c := w]> (kv_ver a) !! c0 = Some w0 -> <[c := w]> (kv_ver a) !! c' = Some w' ->
  is_rollback w0 = false -> is_rollback w' = false -> c0 < c' -> c0 <= write_start_ts w'.
Proof using I Hl Hlt Hw.
  pose proof Hw as (t & _ & _ & Es & _).
  assert (forall x y, kv_ver a !! x = Some y -> is_rollback y = false -> x <= lock_ts l) as Hold.
  { intros x y Hx Hr. destruct (Z.le_gt_cases x (lock_ts l)) as [|Hgt]; [done|].
    destruct (inv_lock_newer a I l x y) as [? _]; [done..|congruence]. }
  intros [[Ec <-]|[Hne Hv]]%lookup_insert_Some [[Ec' <-]|[Hne' Hv']]%lookup_insert_Some Hr Hr' Hcc.
  - lia.
  - specialize (Hold c' w' Hv' Hr'). lia.
  - rewrite Es. by apply (Hold c0 w0).
  - by eapply (inv_no_lost_update a I).
Qed.

Lemma commit_inv : kinv (mk_kv None (<[c := w]> (kv_ver a)) (kv_val a)).
Proof using I Hl Hlt Hw.
  destruct (inv_lock_type a I l Hl) as [Hp H0].
  destruct (committed_record_kind l c w Hw Hp) as (Hnr & _ & Hput).
  pose proof Hw as (t & _ & _ & Es & Esv & _ & Ef & _).
  constructor; cbn [kv_lock kv_ver kv_val]; try done;
    try exact commit_overlap; try exact commit_no_lost_update; try exact commit_last_change.
  - intros c0 w0 [[<- <-]|[Hne Hv]]%lookup_insert_Some; [lia|by_inv I].
  - intros c0 w0 [[<- <-]|[Hne Hv]]%lookup_insert_Some; [congruence|by_inv I].
  - intros c0 w0 [[<- <-]|[Hne Hv]]%lookup_insert_Some; [lia|by_inv I].
  - intros c0 w0 c' w' [[<- <-]|[Hne Hv]]%lookup_insert_Some [[<- <-]|[Hne' Hv']]%lookup_insert_Some E;
      [done| | |by_inv I]; exfalso; eapply (inv_lock_undecided a I); eauto; congruence.
  - intros c0 w0 [[<- <-]|[Hne Hv]]%lookup_insert_Some; [|by_inv I].
    intros Hpt Hs. rewrite Es. apply (inv_lock_value a I l Hl). unfold needs_value.
    by rewrite Hput, <- Esv, Hs.
  - intros c0 w0 g [[<- <-]|[Hne Hv]]%lookup_insert_Some Hg Hnz; [congruence|].
    destruct (inv_fence a I c0 w0 g) as [Hcg Hd]; [done..|]. split; [done|].
    destruct (decide (g = c)) as [->|]; [|by rewrite commit_data_below].
    rewrite locked_no_data in Hd by done. by destruct Hd.
Qed.
End Commit.

(** Every step of the machine keeps the invariant. *)
Lemma kstep_inv a a' : kinv a -> kstep a a' -> kinv a'.
Proof.
  intros I H. destruct H; eauto using prewrite_inv, commit_inv, unlock_inv, put_rollback_inv, overlap_inv,
    collapse_inv, extend_lock_inv.
Qed.

Lemma ksteps_inv a a' : kinv a -> rtc kstep a a' -> kinv a'.
Proof. intros I H. induction H; eauto using kstep_inv. Qed.

(** ** The fate of a transaction *)

(** A later version of the same record: only the mark of another
    transaction's rollback may have been added. *)
Definition same_record (w w' : Write) : Prop :=
  write_type w' = write_type w /\ write_start_ts w' = write_start_ts w
  /\ write_short_value w' = write_short_value w /\ write_last_change w' = write_last_change w
  /\ write_txn_source w' = write_txn_source w.

#[export] Instance same_record_preorder : PreOrder same_record.
Proof.
  split; [done|]. intros x y z (?&?&?&?&?) (?&?&?&?&?). split_and!; congruence.
Qed.

Lemma same_record_rollback w w' : same_record w w' -> is_rollback w' = is_rollback w.
Proof. intros (E & _). unfold is_rollback. by rewrite E. Qed.

(** A committed record is never removed or replaced. *)
Lemma kstep_committed a a' st c w :
  kinv a -> kstep a a' -> committed_at (kv_ver a) st c w ->
  exists w', committed_at (kv_ver a') st c w' /\ same_record w w'.
Proof.
  intros I H (Hw & Hr & Es).
  assert (committed_at (kv_ver a) st c w) as Hsame by done.
  destruct H; cbn [kv_ver]; try by (exists w; split; [done|reflexivity]).
  - exists w. split; [|reflexivity]. split; [|done]. rewrite lookup_insert_ne; [done|]. intros ->.
    destruct (inv_lock_newer a I l c w) as [? _]; [done..|congruence].
  - exists w. split; [|reflexivity]. split; [|done]. rewrite lookup_insert_ne; [done|]. congruence.
  - destruct (decide (st0 = c)) as [->|].
    + assert (w0 = w) as -> by congruence. eexists. split; [split; [by rewrite lookup_insert_eq|done]|done].
    + exists w. split; [|reflexivity]. split; [|done]. by rewrite lookup_insert_ne.
  - exists w. split; [|reflexivity]. split; [|done]. rewrite lookup_delete_ne; [done|]. congruence.
Qed.

(** A protected rollback, or one marked on another's record, is never lost. *)
Lemma kstep_sticky a a' st :
  kinv a -> kstep a a' -> sticky_rolled_back (kv_ver a) st -> sticky_rolled_back (kv_ver a') st.
Proof.
  intros I H (w & Hw & Hs). unfold sticky_rolled_back.
  destruct H; cbn [kv_ver]; try by (exists w; done).
  - destruct (decide (c = st)) as [->|]; [|exists w; by rewrite lookup_insert_ne].
    destruct (inv_lock_newer a I l st w) as [Hr Hin]; [done..|].
    destruct (inv_rollback a I st w Hw Hr) as (_ & Ho & _).
    unfold says_sticky_rollback in Hs. rewrite Ho, orb_false_r in Hs.
    assert (st ∈ lock_rollback_ts l) as Hin' by (apply Hin; [done| |done]; destruct H2; congruence).
    exists w0. rewrite lookup_insert_eq. split; [done|].
    destruct H3 as (t & _ & _ & _ & _ & _ & _ & Eo). unfold says_sticky_rollback. rewrite Eo.
    rewrite bool_decide_eq_true_2 by done. apply orb_true_r.
  - exists w. by rewrite lookup_insert_ne by congruence.
  - destruct (decide (st0 = st)) as [->|]; [|exists w; by rewrite lookup_insert_ne].
    eexists. rewrite lookup_insert_eq. split; [done|]. apply orb_true_r.
  - destruct (decide (c = st)) as [->|]; [|exists w; by rewrite lookup_delete_ne].
    exfalso. assert (w0 = w) as -> by congruence. unfold says_sticky_rollback in Hs.
    destruct (inv_rollback a I st w) as (_ & E & _); [done..|]. rewrite E, H1 in Hs. done.
Qed.

(** A transaction is never both committed and rolled back. *)
Lemma sticky_not_committed a st c w :
  kinv a -> sticky_rolled_back (kv_ver a) st -> ~ committed_at (kv_ver a) st c w.
Proof.
  intros I (w' & Hw' & Hs) (Hw & Hr & Es). unfold says_sticky_rollback in Hs.
  apply orb_true_iff in Hs as [Hp|Ho].
  - assert (is_rollback w' = true) as Hr' by (unfold write_is_protected in Hp; by apply andb_true_iff in Hp as [? _]).
    destruct (inv_rollback a I st w' Hw' Hr') as [E _].
    assert (c = st) as -> by (eapply (inv_unique a I); eauto; congruence). congruence.
  - by apply (inv_overlap a I st w' c w).
Qed.
