(* ===== verification/ActionSpec.v ===== *)
(** * What the actions do to a key

    Each action on one key is described on the key's view: its result and the
    modifications of the key it emits. The specifications are total, so the
    actions neither panic nor fail to return on well-formed contents. *)
From S2P Require Import Prelude Number Bytes Timestamp Key Fields Lock Write OrderedMap PeerLocks Engine.
From S2P Require Import ConcurrencyManager Reader Versions MvccTxn CheckTxnStatus KeyView Protocol.

(** ** Emitted modifications *)

(** [m], run for the transaction [st], appends modifications [ks] of [key] to
    the buffer and returns [r], with [Q r ks]. *)
Definition emits {A} (st : TimeStamp) (key : Key) (m : M A) (Q : mres A -> list kmod -> Prop) : Prop :=
  forall t, txn_start_ts t = st -> exists r t' ks, m t = (r, t')
    /\ txn_modifies t' = txn_modifies t ++ map (concrete key) ks
    /\ txn_locks_for_1pc t' = txn_locks_for_1pc t /\ txn_start_ts t' = st /\ Q r ks.

Section Emits.
  Context (st : TimeStamp) (key : Key).

Lemma emits_with {A} (m : M A) (Q : mres A -> list kmod -> Prop) (P : mres A -> Prop) :
  emits st key m Q -> (forall t, P (m t).1) -> emits st key m (fun r ks => Q r ks /\ P r).
Proof.
  intros H Hp t Ht. destruct (H t Ht) as (r & t' & ks & E & ? & ? & ? & ?). exists r, t', ks.
  split_and!; try done. specialize (Hp t). by rewrite E in Hp.
Qed.

Lemma emits_mono {A} (m : M A) (Q Q' : mres A -> list kmod -> Prop) :
  (forall r ks, Q r ks -> Q' r ks) -> emits st key m Q -> emits st key m Q'.
Proof using. intros H Hm t Ht. destruct (Hm t Ht) as (r & t' & ks & ? & ? & ? & ? & ?). exists r, t', ks. auto 6. Qed.

Lemma emits_ret {A} (a : A) (Q : mres A -> list kmod -> Prop) : Q (Ok a) [] -> emits st key (mret a) Q.
Proof using. intros H t Ht. exists (Ok a), t, []. cbn. by rewrite app_nil_r. Qed.

Lemma emits_lift {A} (r : mres A) (Q : mres A -> list kmod -> Prop) : Q r [] -> emits st key (lift r) Q.
Proof using. intros H t Ht. exists r, t, []. cbn. by rewrite app_nil_r. Qed.

Lemma emits_fail {A} e (Q : mres A -> list kmod -> Prop) : Q (Err e) [] -> emits st key (fail e) Q.
Proof using. intros H t Ht. exists (Err e), t, []. cbn. by rewrite app_nil_r. Qed.

Lemma emits_bind {A B} (m : M A) (f : A -> M B) (P : mres A -> list kmod -> Prop) (Q : mres B -> list kmod -> Prop) :
  emits st key m P ->
  (forall a ks, P (Ok a) ks -> emits st key (f a) (fun r ks' => Q r (ks ++ ks'))) ->
  (forall e ks, P (Err e) ks -> Q (Err e) ks) ->
  (forall ks, P Panic ks -> Q Panic ks) ->
  emits st key (m ≫= f) Q.
Proof using.
  intros Hm Hf He Hp t Ht. destruct (Hm t Ht) as (r & t1 & ks & Em & E1 & E2 & E3 & HP).
  unfold mbind, M_bind. rewrite Em. destruct r as [a|e|].
  - destruct (Hf a ks HP t1 E3) as (r & t2 & ks' & Ef & E4 & E5 & E6 & HQ).
    exists r, t2, (ks ++ ks'). rewrite map_app, app_assoc, <- E1, <- E4, Ef. split_and!; congruence || done.
  - exists (Err e), t1, ks. auto 6.
  - exists Panic, t1, ks. auto 6.
Qed.

(** An action that always succeeds, first. *)
Lemma emits_seq {A B} (m : M A) (f : A -> M B) a ks (Q : mres B -> list kmod -> Prop) :
  emits st key m (fun r ks' => r = Ok a /\ ks' = ks) ->
  emits st key (f a) (fun r ks' => Q r (ks ++ ks')) -> emits st key (m ≫= f) Q.
Proof using.
  intros Hm Hf. eapply emits_bind; [exact Hm|..].
  - intros a' ks' [[= ->] ->]. exact Hf.
  - by intros e ks' [? _].
  - by intros ks' [? _].
Qed.

Lemma emits_lift_bind {A B} (r : mres A) a (f : A -> M B) (Q : mres B -> list kmod -> Prop) :
  r = Ok a -> emits st key (f a) Q -> emits st key (lift r ≫= f) Q.
Proof using. intros -> Hf. eapply (emits_seq _ _ a []); [by apply emits_lift|exact Hf]. Qed.

Lemma emits_push (k : kmod) m :
  m = concrete key k -> emits st key (push_modify m) (fun r ks => r = Ok tt /\ ks = [k]).
Proof using. intros -> t Ht. eexists (Ok tt), _, [k]. split_and!; done. Qed.

Lemma emits_put_write c w :
  emits st key (put_write key c (write_to_bytes w)) (fun r ks => r = Ok tt /\ ks = [KPutWrite c w]).
Proof using. by apply emits_push. Qed.

Lemma emits_delete_write c : emits st key (delete_write key c) (fun r ks => r = Ok tt /\ ks = [KDelWrite c]).
Proof using. by apply emits_push. Qed.

Lemma emits_put_value ts v : emits st key (put_value key ts v) (fun r ks => r = Ok tt /\ ks = [KPutVal ts v]).
Proof using. by apply emits_push. Qed.

Lemma emits_delete_value ts : emits st key (delete_value key ts) (fun r ks => r = Ok tt /\ ks = [KDelVal ts]).
Proof using. by apply emits_push. Qed.

Lemma emits_put_lock l : emits st key (put_lock key l false) (fun r ks => r = Ok tt /\ ks = [KPutLock l]).
Proof using. intros t Ht. eexists (Ok tt), _, [KPutLock l]. split_and!; done. Qed.

Lemma emits_unlock p c :
  emits st key (unlock_key key p c)
    (fun r ks => r = Ok (Some (mk_released st c key p)) /\ ks = [KDelLock]).
Proof using.
  intros t <-. eexists (Ok (Some (mk_released (txn_start_ts t) c key p))), _, [KDelLock].
  split; [cbv [unlock_key get_txn mbind M_bind push_modify mret M_ret]; reflexivity|].
  split_and!; (done || eauto).
Qed.
End Emits.

(** ** Reading the view *)

(** The reader sees the contents [a] of [key], and no in-memory pessimistic
    lock on it. *)
Record sees (rd : Reader) (key : Key) (a : KV) : Prop := {
  sees_wf : engine_wf (snap_engine (rd_snapshot rd));
  sees_key : user_key key;
  sees_view : view (snap_engine (rd_snapshot rd)) key = a;
  sees_memory : load_in_memory_pessimistic_lock rd key = Ok None;
  sees_start : is_u64 (rd_start_ts rd) /\ 0 < rd_start_ts rd
}.

(** The record of transaction [st], on the version map. *)
Definition record_of (V : vmap) (st : TimeStamp) (r : TxnCommitRecord) : Prop :=
  match r with
  | TCRSingleRecord c w => V !! c = Some w /\ write_start_ts w = st
  | TCROverlappedRollback c =>
      c = st /\ (forall c w, V !! c = Some w -> write_start_ts w <> st)
      /\ exists w, V !! st = Some w /\ write_has_overlapped_rollback w = true
  | TCRNone (Some (mk_overlapped w g)) =>
      (forall c w, V !! c = Some w -> write_start_ts w <> st) /\ V !! st = Some w
      /\ write_has_overlapped_rollback w = false /\ next_data_at V st g
  | TCRNone None => (forall c w, V !! c = Some w -> write_start_ts w <> st) /\ V !! st = None
  end.

Section Sees.
  Context (rd : Reader) (key : Key) (a : KV).
  Hypothesis Hs : sees rd key a.
Let e := snap_engine (rd_snapshot rd).

Lemma sees_ver c w : kv_ver a !! c = Some w <-> is_u64 c /\ version (cf_write e) key c = Some w.
Proof using Hs. rewrite <- (sees_view _ _ _ Hs). apply ver_lookup; apply Hs. Qed.

Lemma sees_ver_wf c w : kv_ver a !! c = Some w -> is_u64 c /\ 0 < c /\ write_wf w.
Proof using Hs.
  intros [Hc Hv]%sees_ver. destruct (sees_wf _ _ _ Hs) as (_ & _ & Hwf).
  pose proof (version_pos rd Hwf key c w Hc Hv). by apply (version_Some rd Hwf) in Hv as [? _].
Qed.

Lemma sees_lock_wf l : kv_lock a = Some l -> lock_wf l /\ lock_use_one_pc l = false.
Proof using Hs.
  rewrite <- (sees_view _ _ _ Hs). cbn. unfold lock_at. destruct (sees_wf _ _ _ Hs) as (_ & Hl & _).
  destruct (cf_lock e !! key) as [v|] eqn:E; fold e; rewrite E; [|done].
  destruct (Hl _ _ E) as (l' & _ & Hwf & H1 & ->). rewrite lock_parse_wf by done. by intros [= <-].
Qed.

Lemma sees_load_lock : load_lock rd key = Ok (kv_lock a).
Proof using Hs.
  unfold load_lock. rewrite (sees_memory _ _ _ Hs). cbn [mbind res_bind].
  rewrite <- (sees_view _ _ _ Hs). cbn. unfold lock_at. fold e.
  destruct (sees_wf _ _ _ Hs) as (_ & Hl & _). fold e in Hl.
  destruct (cf_lock e !! key) as [v|] eqn:E; [|done].
  destruct (Hl _ _ E) as (l' & _ & Hwf & H1 & ->). by rewrite lock_parse_wf.
Qed.

Lemma sees_seek ts :
  is_u64 ts ->
  exists r, seek_write rd key ts = Ok r /\
  match r with
  | Some (c, w) => kv_ver a !! c = Some w /\ c <= ts /\ forall c', c < c' <= ts -> kv_ver a !! c' = None
  | None => forall c, c <= ts -> kv_ver a !! c = None
  end.
Proof using Hs.
  intros Hts. destruct (sees_wf _ _ _ Hs) as (_ & _ & Hwf).
  pose proof (seek_write_spec rd Hwf key (sees_key _ _ _ Hs) ts Hts) as Hk.
  assert (forall c, version (cf_write e) key c = None -> kv_ver a !! c = None) as Hno.
  { intros c Hn. destruct (kv_ver a !! c) eqn:E; [|done]. apply sees_ver in E as [_ E]. congruence. }
  assert (forall c, ~ is_u64 c -> kv_ver a !! c = None) as Hno'.
  { intros c Hn. destruct (kv_ver a !! c) eqn:E; [|done]. by apply sees_ver in E as [? _]. }
  destruct (seek_write rd key ts) as [[[c w]|]| |]; [| |done..]; eexists; (split; [done|]).
  - destruct Hk as (Hc & Hle & Hv & Hn). split_and!; [by apply sees_ver|done|].
    intros c' Hc'. destruct (decide (0 <= c' < 2 ^ 64)) as [Hu|Hu]; [|by apply Hno'].
    apply Hno, Hn; done.
  - intros c Hc. destruct (decide (0 <= c < 2 ^ 64)) as [Hu|Hu]; [|by apply Hno']. by apply Hno, Hk.
Qed.

Lemma data_at_version c :
  data_at (kv_ver a) c = None <-> (forall w, is_u64 c -> version (cf_write e) key c = Some w -> is_data w = false).
Proof using Hs.
  unfold data_at. destruct (kv_ver a !! c) as [w|] eqn:E.
  - apply sees_ver in E as [Hc E]. destruct (is_data w) eqn:Ed; split; try done.
    + intros H. rewrite (H w) in Ed; done.
    + intros _ w' _ Hw'. congruence.
  - split; [|done]. intros _ w Hc Hv. assert (kv_ver a !! c = Some w) by (by apply sees_ver). congruence.
Qed.

Lemma sees_record :
  kinv a ->
  exists r, get_txn_commit_record rd key (rd_start_ts rd) = Ok r /\ record_of (kv_ver a) (rd_start_ts rd) r.
Proof using Hs.
  intros I. destruct (sees_start _ _ _ Hs) as [Hst Hpos].
  destruct (sees_wf _ _ _ Hs) as (_ & _ & Hwf).
  destruct (get_txn_commit_record_spec rd Hwf key (rd_start_ts rd) (sees_key _ _ _ Hs) Hst) as (r & Er & Hr).
  { intros c w Hc Hv. assert (kv_ver a !! c = Some w) as Hw by (by apply sees_ver).
    destruct (is_rollback w) eqn:Erb; [destruct (inv_rollback a I c w Hw Erb); lia|].
    pose proof (inv_commit a I c w Hw Erb). lia. }
  exists r. split; [done|]. set (st := rd_start_ts rd) in *.
  assert (no_txn_record (cf_write e) key st -> forall c w, kv_ver a !! c = Some w -> write_start_ts w <> st) as Hno.
  { intros H c w [Hc Hv]%sees_ver E. by apply (H c w). }
  destruct r as [[[w g]|]|c w|c]; cbn in Hr |- *.
  - destruct Hr as (H1 & H2 & H3 & H4). split_and!; [by apply Hno|by apply sees_ver|done|].
    destruct H4 as [Hg Hn]. split.
    + destruct Hg as [?|(Hu & Hlt & w' & Hw' & Hd)]; [by left|right]. split; [done|].
      eapply data_at_Some; [|done]. by apply sees_ver.
    + intros c Hlt Hcg. apply data_at_version. intros w' Hc Hv. by eapply Hn.
  - destruct Hr as [H1 H2]. split; [by apply Hno|].
    destruct (kv_ver a !! st) as [w|] eqn:E; [|done]. apply sees_ver in E as [_ E].
    unfold e in E. by rewrite H2 in E.
  - destruct Hr as (Hc & Hv & E). split; [by apply sees_ver|done].
  - destruct Hr as (E & H1 & w & Hv & Ho). split_and!; [done|by apply Hno|]. exists w.
    split; [by apply sees_ver|done].
Qed.
End Sees.

(** ** Commit *)

Lemma emits_into_raw {B} st key (f : bytes -> M B) (Q : mres B -> list kmod -> Prop) :
  user_key key -> (forall raw, emits st key (f raw) Q) -> emits st key (into_raw_m key ≫= f) Q.
Proof.
  intros [raw ->] Hf. apply (emits_lift_bind _ _ _ raw); [|done].
  unfold map_err. by rewrite key_to_into_raw, key_to_raw_from_raw.
Qed.

Lemma write_wf_of_lock l c w :
  lock_wf l -> committed_record l c w -> is_u64 (write_txn_source w) -> write_wf w.
Proof.
  intros (_ & Hts & _ & Hsv & _ & _ & _ & _ & _ & _ & _ & _ & Hlc & _) (t & _ & _ & Es & Ev & El & Ef & _) Hsrc.
  unfold write_wf. by rewrite Es, Ev, El, Ef.
Qed.

Section Commit.
  Context (rd : Reader) (key : Key) (a : KV) (c : TimeStamp).
  Hypothesis Hs : sees rd key a.
  Hypothesis I : kinv a.
Let st := rd_start_ts rd.

(** Without its lock, a commit only confirms an earlier commit. *)
Definition commit_missing_post (r : mres (option ReleasedLock)) : Prop :=
  (exists c' w, committed_at (kv_ver a) st c' w /\ r = Ok None)
  \/ ((forall c' w, ~ committed_at (kv_ver a) st c' w) /\ exists raw, r = Err (MTxnLockNotFound st c raw)).

Definition commit_post (r : mres (option ReleasedLock)) (ks : list kmod) : Prop :=
  match kv_lock a with
  | Some l =>
      if lock_ts l =? st then
        if c <? lock_min_commit_ts l
        then ks = [] /\ exists raw, r = Err (MCommitTsExpired st c raw (lock_min_commit_ts l))
        else exists w rel, r = Ok (Some rel) /\ ks = [KPutWrite c w; KDelLock] /\ committed_record l c w /\ write_wf w
      else ks = [] /\ commit_missing_post r
  | None => ks = [] /\ commit_missing_post r
  end.

Lemma commit_write_spec l :
  lock_wf l -> lock_type l <> LTPessimistic -> lock_ts l = st ->
  exists w, commit_write rd l c = Ok w /\ committed_record l c w /\ write_wf w.
Proof using.
  intros Hwf Hp Hts. unfold commit_write.
  destruct (write_type_from_lock_type (lock_type l)) as [t|] eqn:Et; [|by destruct (lock_type l)].
  assert (existsb (fun ts => ts =? c) (lock_rollback_ts l) = bool_decide (c ∈ lock_rollback_ts l)) as ->.
  { apply Bool.eq_iff_eq_true. rewrite bool_decide_eq_true, existsb_exists. split.
    - intros (x & Hx & ->%Z.eqb_eq). by apply list_elem_of_In.
    - intros Hx. exists c. split; [by apply list_elem_of_In|apply Z.eqb_refl]. }
  eexists. split; [done|].
  match goal with |- committed_record l c ?w /\ _ => assert (committed_record l c w) as Hc end.
  { exists t. fold st. rewrite <- Hts. case_bool_decide; split_and!; done. }
  split; [done|]. eapply write_wf_of_lock; [done..|]. destruct Hwf as (_ & _ & _ & _ & _ & _ & _ & _ & _ & _ & _ & _ & _ & Hsrc & _).
  by case_bool_decide.
Qed.

Lemma commit_spec : emits st key (commit rd key c) commit_post.
Proof using Hs I.
  pose proof (sees_key _ _ _ Hs) as Hkey.
  assert (emits st key (record ← lift (get_txn_commit_record rd key st);
    match tcr_info record with
    | Some (_, WTRollback) | None => raw ← into_raw_m key; fail (MTxnLockNotFound st c raw)
    | Some _ => mret None
    end) (fun r ks => ks = [] /\ commit_missing_post r)) as Hmissing.
  { destruct (sees_record rd key a Hs I) as (r & Er & Hr). fold st in Er, Hr.
    eapply emits_lift_bind; [done|].
    assert (forall x : bool, (forall c' w, ~ committed_at (kv_ver a) st c' w) ->
      emits st key (raw ← into_raw_m key; fail (MTxnLockNotFound st c raw))
        (fun r ks => ks = [] /\ commit_missing_post r)) as Hfail.
    { intros _ Hn. apply emits_into_raw; [done|]. intros raw. apply emits_fail. split; [done|]. right. eauto. }
    destruct r as [[[w g]|]|c' w|c']; cbn [tcr_info record_of] in Hr |- *.
    - apply (Hfail true). destruct Hr as [Hn _]. intros c' w' (Hw & _ & E). by eapply Hn.
    - apply (Hfail true). destruct Hr as [Hn _]. intros c' w' (Hw & _ & E). by eapply Hn.
    - destruct Hr as [Hw E]. destruct (is_rollback w) eqn:Erb.
      + unfold is_rollback in Erb. apply bool_decide_eq_true in Erb as Et. rewrite Et. apply (Hfail true).
        intros c2 w2 (Hw2 & Hr2 & E2). assert (c' = c2) as <- by (by eapply (inv_unique a I); eauto; congruence).
        assert (w2 = w) as -> by congruence. unfold is_rollback in Hr2. congruence.
      + assert (emits st key (mret None) (fun r ks => ks = [] /\ commit_missing_post r)) as Hok.
        { apply emits_ret. split; [done|]. left. exists c', w. done. }
        unfold is_rollback in Erb. by destruct (write_type w).
    - apply (Hfail true). destruct Hr as (_ & Hn & _). intros c2 w' (Hw & _ & E). by eapply Hn. }
  unfold commit, commit_post. fold st. eapply emits_lift_bind; [by apply sees_load_lock|].
  destruct (kv_lock a) as [l|] eqn:El; [|done].
  destruct (Z.eqb_spec (lock_ts l) st) as [Hts|Hne]; [|done].
  destruct (Z.ltb_spec c (lock_min_commit_ts l)) as [Hmin|Hmin].
  { apply emits_into_raw; [done|]. intros raw. apply emits_fail. eauto. }
  destruct (inv_lock_type a I l El) as [Hp _]. destruct (sees_lock_wf rd key a Hs l El) as [Hwf _].
  assert (is_pessimistic_lock l = false) as -> by (by apply bool_decide_eq_false).
  destruct (commit_write_spec l Hwf Hp Hts) as (w & Ew & Hw & Hww).
  eapply emits_lift_bind; [done|]. eapply emits_seq; [apply emits_put_write|].
  eapply emits_mono; [|apply emits_unlock]. intros r ks [-> ->]. eauto 8.
Qed.
End Commit.

(** ** Rollback *)

(** The modifications that record the rollback of [st]. *)
Definition rollback_mods (st : TimeStamp) (prot : bool) (ov : option OverlappedWrite) : list kmod :=
  match ov with
  | None => [KPutWrite st (write_new_rollback st prot)]
  | Some (mk_overlapped w g) => if prot then [KPutWrite st (set_overlapped_rollback w true (Some g))] else []
  end.

(** Other transactions' locks know of a protected rollback they may overlap
    with. *)
Definition lock_allows (a : KV) (st : TimeStamp) (prot : bool) : Prop :=
  forall l, kv_lock a = Some l -> lock_ts l <> st
    /\ (prot = true -> lock_use_async_commit l = true -> lock_min_commit_ts l <= st -> st ∈ lock_rollback_ts l).

(** At most one unprotected rollback record before [st] is dropped. *)
Definition collapses (a : KV) (st : TimeStamp) (ks : list kmod) : Prop :=
  ks = [] \/ exists c w, ks = [KDelWrite c] /\ kv_ver a !! c = Some w /\ is_rollback w = true
    /\ write_is_protected w = false /\ c <> st /\ is_u64 c.

(** The lock of another transaction stays, and may be told of the rollback. *)
Definition told_of (a : KV) (ks : list kmod) : Prop :=
  ks = [] \/ exists l l', kv_lock a = Some l /\ lock_extends l l' /\ ks = [KPutLock l'].

(** What the modifications of a rollback are: with the transaction's lock, and
    without it. *)
Definition rollback_form (a : KV) (st : TimeStamp) (ks : list kmod) : Prop :=
  exists prot ov cs, record_of (kv_ver a) st (TCRNone ov) /\ collapses a st cs /\
    ((exists l dv, kv_lock a = Some l /\ lock_ts l = st /\ (dv = [] \/ dv = [KDelVal st]) /\
        ks = dv ++ rollback_mods st prot ov ++ cs ++ [KDelLock])
     \/ (exists ls, (forall l, kv_lock a = Some l -> lock_ts l <> st) /\ told_of a ls /\ ks = cs ++ ls ++ rollback_mods st prot ov)).

(** The modifications [ks] lead to a state where [st] is rolled back. *)
Definition rolls_back (a : KV) (st : TimeStamp) (prot : bool) (ks : list kmod) : Prop :=
  Forall kmod_wf ks /\ rtc kstep a (kapplies a ks)
  /\ (prot = true -> sticky_rolled_back (kv_ver (kapplies a ks)) st)
  /\ (kv_ver a !! st = None -> rolled_back (kv_ver (kapplies a ks)) st)
  /\ rollback_form a st ks.

Section Rollback.
  Context (rd : Reader) (key : Key) (a : KV).
  Hypothesis Hs : sees rd key a.
  Hypothesis I : kinv a.
Let st := rd_start_ts rd.

Lemma overlapped_start ov :
  record_of (kv_ver a) st (TCRNone ov) ->
  match ov with
  | Some (mk_overlapped w g) => write_start_ts w < st /\ is_rollback w = false /\ is_u64 g /\ write_wf w
  | None => True
  end.
Proof using Hs I.
  destruct ov as [[w g]|]; [|done]. intros (Hno & Hw & Ho & [Hg _]).
  destruct (is_rollback w) eqn:Er.
  { destruct (inv_rollback a I st w Hw Er) as [E _]. by destruct (Hno st w Hw). }
  split_and!; [by eapply (inv_commit a I)|done| |by eapply sees_ver_wf].
  destruct Hg as [->|[_ Hd]]; [done|]. unfold data_at in Hd.
  destruct (kv_ver a !! g) as [w'|] eqn:Eg; [|by destruct Hd]. by eapply sees_ver_wf.
Qed.

Lemma make_rollback_spec {B} prot ov (k : M B) (Q : mres B -> list kmod -> Prop) :
  record_of (kv_ver a) st (TCRNone ov) ->
  emits st key k (fun r ks => Q r (rollback_mods st prot ov ++ ks)) ->
  emits st key (w ← lift (make_rollback st prot ov); _ ← put_rollback_write rd key w; k) Q.
Proof using Hs I.
  intros Hr Hk. pose proof (overlapped_start ov Hr) as Hov.
  destruct ov as [[w g]|]; unfold make_rollback.
  - destruct Hov as (Hlt & _). apply Z.ltb_lt in Hlt as ->. destruct prot; (eapply emits_lift_bind; [done|]).
    + eapply emits_seq; [apply emits_put_write|exact Hk].
    + eapply (emits_seq _ _ _ _ tt []); [by apply emits_ret|exact Hk].
  - eapply emits_lift_bind; [done|]. eapply emits_seq; [apply emits_put_write|exact Hk].
Qed.

Lemma rollback_mods_wf prot ov :
  record_of (kv_ver a) st (TCRNone ov) -> Forall kmod_wf (rollback_mods st prot ov).
Proof using Hs I.
  intros Hr. destruct (sees_start _ _ _ Hs) as [Hu Hpos]. pose proof (overlapped_start ov Hr) as Hov.
  destruct ov as [[w g]|]; cbn [rollback_mods].
  - destruct Hov as (_ & _ & Hg & Hsu & Hsv & _ & Hlc & Hsrc). destruct prot; [|by constructor].
    apply Forall_singleton. cbn. split_and!; done.
  - apply Forall_singleton. cbn. split_and!; try done. unfold write_wf.
    destruct prot; cbn; split_and!; try done; lia.
Qed.

(** Recording a rollback is a step of the machine. *)
Lemma rollback_mods_step b prot ov :
  record_of (kv_ver a) st (TCRNone ov) -> record_of (kv_ver b) st (TCRNone ov) ->
  (forall l, kv_lock b = Some l -> lock_ts l <> st) -> (ov = None -> lock_allows b st prot) ->
  rtc kstep b (kapplies b (rollback_mods st prot ov))
  /\ (prot = true -> sticky_rolled_back (kv_ver (kapplies b (rollback_mods st prot ov))) st)
  /\ (kv_ver a !! st = None -> rolled_back (kv_ver (kapplies b (rollback_mods st prot ov))) st).
Proof using Hs I.
  intros Hra Hr Hne Hl. destruct (sees_start _ _ _ Hs) as [Hu Hpos]. pose proof (overlapped_start ov Hra) as Hov.
  destruct ov as [[w g]|]; cbn [rollback_mods] in *.
  - destruct Hr as (Hno & Hw & Ho & Hnd), Hov as (Hlt & Hnr & _), Hra as (_ & Hwa & _).
    destruct prot; cbn [kapplies fold_left kapply kv_ver]; (split; [|split]); try congruence; try done.
    + apply rtc_once. apply step_overlap; try done.
    + intros _. eexists. rewrite lookup_insert_eq. split; [done|]. apply orb_true_r.
  - destruct Hr as [Hno Hn]. cbn [kapplies fold_left kapply kv_ver]. split; [|split].
    + apply rtc_once. apply step_put_rollback; try done. by apply Hl.
    + intros ->. eexists. rewrite lookup_insert_eq. done.
    + intros _. eexists. rewrite lookup_insert_eq. done.
Qed.

Lemma rollback_mods_frame b prot ov :
  kv_lock (kapplies b (rollback_mods st prot ov)) = kv_lock b
  /\ forall c, c <> st -> kv_ver (kapplies b (rollback_mods st prot ov)) !! c = kv_ver b !! c.
Proof using.
  destruct ov as [[w g]|]; [destruct prot|]; cbn [rollback_mods kapplies fold_left kapply kv_ver kv_lock];
    (split; [done|]); intros c Hc; by rewrite ?lookup_insert_ne by done.
Qed.

Lemma collapse_spec ov :
  record_of (kv_ver a) st (TCRNone ov) ->
  emits st key (collapse_prev_rollback rd key) (fun r ks => r = Ok tt /\ collapses a st ks).
Proof using Hs I.
  intros Hr. destruct (sees_start _ _ _ Hs) as [Hu _]. unfold collapse_prev_rollback.
  destruct (sees_seek rd key a Hs st Hu) as (sr & Esk & Hsr).
  eapply emits_lift_bind; [exact Esk|].
  destruct sr as [[c w]|]; [|apply emits_ret; split; [done|by left]].
  destruct Hsr as (Hw & Hle & _). fold (is_rollback w).
  destruct (is_rollback w && negb (write_is_protected w)) eqn:E; [|apply emits_ret; split; [done|by left]].
  apply andb_true_iff in E as [Er Ep%negb_true_iff].
  eapply emits_mono; [|apply emits_delete_write]. intros r ks [-> ->]. split; [done|]. right.
  exists c, w. split_and!; try done; [|by eapply sees_ver_wf]. intros ->.
  destruct (inv_rollback a I st w Hw Er) as [E _].
  destruct ov as [[w' g]|]; cbn in Hr; destruct Hr as [Hno _]; by apply (Hno st w).
Qed.

(** Dropping an unprotected rollback record is a step of the machine, and
    keeps the record of [st]. *)
Lemma collapses_step b ks :
  collapses a st ks -> (forall c, c <> st -> kv_ver b !! c = kv_ver a !! c) ->
  Forall kmod_wf ks /\ rtc kstep b (kapplies b ks)
  /\ kv_ver (kapplies b ks) !! st = kv_ver b !! st /\ kv_lock (kapplies b ks) = kv_lock b.
Proof using.
  intros [->|(c & w & -> & Hw & Hr & Hp & Hne & Hc)] Hb; cbn [kapplies fold_left kapply kv_ver kv_lock].
  - done.
  - split_and!; [by apply Forall_singleton| |by rewrite lookup_delete_ne|done].
    apply rtc_once. eapply step_collapse; [by rewrite Hb|done..].
Qed.
End Rollback.

Definition not_put_lock (k : kmod) : Prop := match k with KPutLock _ => False | _ => True end.

Lemma kapplies_app a ks ks' : kapplies a (ks ++ ks') = kapplies (kapplies a ks) ks'.
Proof. apply fold_left_app. Qed.

(** A lock can be deleted before or after the other modifications. *)
Lemma kapplies_del_lock a ks :
  Forall not_put_lock ks ->
  kapplies a (ks ++ [KDelLock]) = kapplies (kapply a KDelLock) ks.
Proof.
  intros H. rewrite kapplies_app. cbn [kapplies fold_left]. revert a.
  induction ks as [|k ks IH]; intros a; [done|]. apply Forall_cons in H as [Hk H].
  cbn [kapplies fold_left]. specialize (IH H (kapply a k)). unfold kapplies in IH. rewrite IH.
  f_equal. by destruct k, a.
Qed.

Section RollbackLock.
  Context (rd : Reader) (key : Key) (a : KV) (l : Lock).
  Hypothesis Hs : sees rd key a.
  Hypothesis I : kinv a.
Let st := rd_start_ts rd.
  Hypothesis Hl : kv_lock a = Some l.
  Hypothesis Hts : lock_ts l = st.

Definition lock_protected : bool := key_is_encoded_from key (lock_primary l) || (0 <? lock_generation l).

(** A locked transaction has no record yet. *)
Lemma locked_record :
  exists ov, get_txn_commit_record rd key st = Ok (TCRNone ov) /\ record_of (kv_ver a) st (TCRNone ov).
Proof using Hs I Hl Hts.
  destruct (sees_record rd key a Hs I) as (r & Er & Hr). fold st in Er, Hr.
  destruct r as [ov|c w|c]; [eauto|exfalso..]; cbn in Hr.
  - destruct Hr as [Hw E]. apply (inv_lock_undecided a I l c w Hl Hw). congruence.
  - destruct Hr as (-> & _ & w & Hw & Ho). rewrite <- Hts in Hw.
    by rewrite (inv_lock_overlap a I l w Hl Hw) in Ho.
Qed.

Definition drops_value : bool := bool_decide (lock_short_value l = None) && bool_decide (lock_type l = LTPut).

(** The modifications of a rollback, as steps of the machine. *)
Lemma rollback_lock_steps ov ks :
  record_of (kv_ver a) st (TCRNone ov) -> collapses a st ks ->
  let ms := (if drops_value then [KDelVal st] else []) ++ rollback_mods st lock_protected ov ++ ks ++ [KDelLock] in
  rolls_back a st lock_protected ms /\ kv_lock (kapplies a ms) = None.
Proof using Hs I Hl Hts.
  intros Hr Hc. cbv zeta. set (dv := if drops_value then [KDelVal st] else []).
  set (rb := rollback_mods st lock_protected ov).
  set (b := mk_kv None (kv_ver a) (if drops_value then delete (lock_ts l) (kv_val a) else kv_val a)).
  assert (kapplies a (dv ++ rb ++ ks ++ [KDelLock]) = kapplies (kapplies b rb) ks) as E.
  { rewrite (app_assoc rb), (app_assoc dv), kapplies_del_lock.
    - rewrite (app_assoc dv), !kapplies_app. f_equal. f_equal. unfold b, dv. rewrite Hts. by destruct drops_value, a.
    - apply Forall_app; split; [unfold dv; destruct drops_value; by repeat constructor|apply Forall_app; split].
      + unfold rb. destruct ov as [[w g]|]; [destruct lock_protected|]; by repeat constructor.
      + destruct Hc as [->|(c & w & -> & _)]; by repeat constructor. }
  destruct (rollback_mods_step rd key a Hs I b lock_protected ov Hr Hr) as (Hstep & Hst & Hrb);
    [done|by intros _ l'|].
  destruct (rollback_mods_frame rd b lock_protected ov) as [Hlk Hfr].
  destruct (collapses_step rd a (kapplies b rb) ks Hc) as (Hwf & Hstep2 & Hver & Hlk2); [intros; by rewrite Hfr|].
  unfold rolls_back, sticky_rolled_back, rolled_back. rewrite E. fold st rb in Hst, Hrb, Hver |- *. rewrite Hver.
  fold st rb in Hlk. split_and!; [| |exact Hst|exact Hrb| |by rewrite Hlk2, Hlk].
  - rewrite !Forall_app. split_and!.
    + unfold dv. destruct drops_value; [|done]. apply Forall_singleton. apply (sees_start _ _ _ Hs).
    + by eapply rollback_mods_wf.
    + done.
    + by apply Forall_singleton.
  - eapply rtc_l; [by apply (step_unlock a l drops_value)|]. by etrans.
  - exists lock_protected, ov, ks. split; [done|]. split; [done|]. left. exists l, dv. split_and!; try done.
    unfold dv. destruct drops_value; [by right|by left].
Qed.

(** [rollback_lock] releases the lock and rolls the transaction back. *)
Lemma rollback_lock_spec pess collapse :
  emits st key (rollback_lock rd key l pess collapse)
    (fun r ks => (exists rel, r = Ok (Some rel)) /\ rolls_back a st lock_protected ks
                 /\ kv_lock (kapplies a ks) = None).
Proof using Hs I Hl Hts.
  destruct locked_record as (ov & Er & Hr). unfold rollback_lock. fold st.
  eapply emits_lift_bind; [exact Er|]. cbv beta iota. fold drops_value lock_protected.
  eapply (emits_seq _ _ _ _ tt (if drops_value then [KDelVal st] else [])).
  { destruct drops_value; [rewrite Hts; apply emits_delete_value|by apply emits_ret]. }
  eapply make_rollback_spec; [done..|].
  eapply (emits_bind _ _ _ _ (fun r ks => r = Ok tt /\ collapses a st ks)).
  - destruct collapse; [by eapply collapse_spec|apply emits_ret; split; [done|by left]].
  - intros [] ks [_ Hc]. eapply emits_mono; [|apply emits_unlock].
    intros r ks' [-> ->]. split; [eauto|]. by apply rollback_lock_steps.
  - by intros e ks [? _].
  - by intros ks [? _].
Qed.
End RollbackLock.

(** ** The transaction's lock is missing *)

(** There is room for one more rollback in the lock's list. *)
Definition lock_has_room (a : KV) : Prop :=
  forall l, kv_lock a = Some l -> Z.of_nat (length (lock_rollback_ts l)) < 2 ^ 60 - 2.

Section Missing.
  Context (rd : Reader) (key : Key) (a : KV).
  Hypothesis Hs : sees rd key a.
  Hypothesis I : kinv a.
Let st := rd_start_ts rd.
  Hypothesis Hfree : forall l, kv_lock a = Some l -> lock_ts l <> st.
  Hypothesis Hroom : lock_has_room a.

(** The lock of another transaction, told of the rollback if they may meet. *)
Definition marks (prot : bool) (ov : option OverlappedWrite) : list kmod :=
  match kv_lock a, ov with
  | Some l, None =>
      if prot && (lock_min_commit_ts l <=? st) && lock_use_async_commit l
      then [KPutLock (lock_with_rollback_ts l (lock_rollback_ts l ++ [st]))] else []
  | _, _ => []
  end.

Lemma mark_spec prot l :
  kv_lock a = Some l ->
  emits st key (mark_rollback_on_mismatching_lock key l prot) (fun r ks => r = Ok tt /\ ks = marks prot None).
Proof using Hfree.
  intros Hl t Ht. unfold mark_rollback_on_mismatching_lock, marks. rewrite Hl.
  unfold mbind, M_bind, get_txn. cbv beta iota. rewrite Ht.
  assert ((lock_ts l =? st) = false) as -> by (apply Z.eqb_neq; auto). cbn [negb massert].
  destruct prot; cbn [negb andb].
  - rewrite Z.ltb_antisym. destruct (lock_min_commit_ts l <=? st); cbn [negb andb].
    + destruct (lock_use_async_commit l); cbn [negb andb].
      * by apply emits_put_lock.
      * by apply (emits_ret st key tt).
    + by apply (emits_ret st key tt).
  - by apply (emits_ret st key tt).
Qed.

Lemma mark_opt_spec prot ov :
  emits st key (match kv_lock a, ov with
                | Some l, None => mark_rollback_on_mismatching_lock key l prot
                | _, _ => mret tt
                end) (fun r ks => r = Ok tt /\ ks = marks prot ov).
Proof using Hfree.
  pose proof (mark_spec prot) as Hm. unfold marks in *.
  destruct (kv_lock a) as [l|], ov; [by apply emits_ret|by apply Hm|by apply emits_ret..].
Qed.

Lemma marks_wf prot ov : Forall kmod_wf (marks prot ov).
Proof using Hs Hroom Hfree.
  unfold marks. destruct (kv_lock a) as [l|] eqn:El; [|by constructor]. destruct ov; [by constructor|].
  destruct (prot && (lock_min_commit_ts l <=? st) && lock_use_async_commit l); [|by constructor].
  apply Forall_singleton. destruct (sees_lock_wf rd key a Hs l El) as [Hwf H1]. split; [|done].
  destruct Hwf as (?&?&?&?&?&?&?&?&?&?&?&?&?&?&?). pose proof (Hroom l El).
  unfold lock_wf; cbn [lock_with_rollback_ts lock_rollback_ts]; split_and!; try done.
  - rewrite length_app. cbn [length]. lia.
  - apply Forall_app. split; [done|]. apply Forall_singleton. apply (sees_start _ _ _ Hs).
Qed.

Lemma marks_told prot ov : told_of a (marks prot ov).
Proof using Hfree.
  unfold marks. destruct (kv_lock a) as [l|] eqn:El; [|by left]. destruct ov; [by left|]. destruct (_ && _); [|by left].
  right. exists l. eexists. split; [done|]. split; [|done]. repeat split; cbn; try done. by apply list_subseteq_app_l.
Qed.

(** Marking the lock is a step of the machine, and allows the rollback. *)
Lemma marks_step prot ov b :
  record_of (kv_ver a) st (TCRNone ov) -> kv_lock b = kv_lock a ->
  (forall c w, kv_ver b !! c = Some w -> kv_ver a !! c = Some w) ->
  rtc kstep b (kapplies b (marks prot ov)) /\ kv_ver (kapplies b (marks prot ov)) = kv_ver b
  /\ (ov = None -> lock_allows (kapplies b (marks prot ov)) st prot).
Proof using Hfree.
  intros Hr Hlk Hsub. unfold marks, lock_allows. destruct (kv_lock a) as [l|] eqn:El.
  2:{ cbn [kapplies fold_left]. split_and!; [done..|]. intros _ l Hl. congruence. }
  destruct ov as [o|]; [by cbn [kapplies fold_left]|].
  destruct (prot && (lock_min_commit_ts l <=? st) && lock_use_async_commit l) eqn:E;
    cbn [kapplies fold_left kapply kv_lock kv_ver].
  - split_and!; [|done|].
    + apply rtc_once. eapply step_extend_lock; [done| |].
      * repeat split; cbn; try done. apply list_subseteq_app_l. done.
      * intros st' Hin. cbn in Hin. apply elem_of_app in Hin as [?|Hin]; [by left|right].
        apply list_elem_of_singleton in Hin as ->.
        split; [by apply not_eq_sym, Hfree|]. intros c w Hw. apply Hsub in Hw. destruct Hr as [Hno _]. by eapply Hno.
    + intros _ l' [= <-]. cbn [lock_with_rollback_ts lock_ts lock_rollback_ts]. split; [by apply Hfree|]. intros _ _ _. apply elem_of_app. right. by apply list_elem_of_singleton.
  - split_and!; [done..|]. intros _ l' Hl'. assert (l' = l) as -> by congruence. split; [by apply Hfree|].
    intros -> Ha Hm. rewrite Ha in E. apply Z.leb_le in Hm. by rewrite Hm in E.
Qed.

(** Dropping an unprotected rollback does not change the record of [st]. *)
Lemma collapses_record ov ks :
  record_of (kv_ver a) st (TCRNone ov) -> collapses a st ks ->
  record_of (kv_ver (kapplies a ks)) st (TCRNone ov)
  /\ forall c w, kv_ver (kapplies a ks) !! c = Some w -> kv_ver a !! c = Some w.
Proof using.
  intros Hr [->|(c & w & -> & Hw & Hrb & Hp & Hne & Hc)]; [done|].
  cbn [kapplies fold_left kapply kv_ver].
  assert (forall c' w', delete c (kv_ver a) !! c' = Some w' -> kv_ver a !! c' = Some w') as Hsub
    by (by intros c' w' [_ ?]%lookup_delete_Some).
  split; [|done].
  assert (same_data (kv_ver a) (delete c (kv_ver a))) as Hsd.
  { apply same_data_delete. intros w' Hw'. apply rollback_not_data. congruence. }
  destruct ov as [[w' g]|]; cbn [record_of] in *.
  - destruct Hr as (Hno & Hv & Ho & Hg & Hnd). split_and!; [eauto|by rewrite lookup_delete_ne|done|].
    split; [by rewrite <- Hsd|]. intros c' ? ?. rewrite <- Hsd. auto.
  - destruct Hr as [Hno Hv]. split; [eauto|]. by rewrite lookup_delete_ne.
Qed.

(** The steps of a rollback without a lock. *)
Lemma missing_steps ov prot ks :
  record_of (kv_ver a) st (TCRNone ov) -> collapses a st ks ->
  rolls_back a st prot (ks ++ marks prot ov ++ rollback_mods st prot ov).
Proof using Hs I Hfree Hroom.
  intros Hr Hc. destruct (collapses_record ov ks Hr Hc) as [Hrb Hsub].
  destruct (collapses_step rd a a ks Hc) as (Hwf & Hstep & Hver & Hlk); [done|].
  set (b := kapplies a ks) in *.
  destruct (marks_step prot ov b Hr Hlk Hsub) as (Hstep2 & Hver2 & Hallow).
  set (b2 := kapplies b (marks prot ov)) in *.
  destruct (rollback_mods_step rd key a Hs I b2 prot ov) as (Hstep3 & Hst & Hrbk); [done|by rewrite Hver2| |done|].
  { intros l Hl. unfold b2, marks in Hl. destruct (kv_lock a) as [l0|] eqn:El; [|cbn [kapplies fold_left] in Hl; congruence].
    destruct ov; [cbn [kapplies fold_left] in Hl; apply Hfree; congruence|].
    destruct (_ && _) in Hl; cbn [kapplies fold_left kapply kv_lock] in Hl; [|apply Hfree; congruence].
    injection Hl as <-. cbn [lock_with_rollback_ts lock_ts]. by apply Hfree. }
  unfold rolls_back. rewrite !kapplies_app. fold b b2. split_and!; [|by do 2 etrans|done|done|].
  - rewrite !Forall_app. split_and!; [done|by apply marks_wf|by eapply rollback_mods_wf].
  - exists prot, ov, ks. split; [done|]. split; [done|]. right. exists (marks prot ov). split_and!; [done|by apply marks_told|done].
Qed.

(** What [check_txn_status_missing_lock] finds and does. *)
Definition missing_post (action : MissingLockAction) (resolving : bool) (r : mres TxnStatus) (ks : list kmod) : Prop :=
  (exists c w, committed_at (kv_ver a) st c w /\ r = Ok (TSCommitted c) /\ ks = [])
  \/ (rolled_back (kv_ver a) st /\ (forall c w, ~ committed_at (kv_ver a) st c w)
      /\ r = Ok TSRolledBack /\ ks = [])
  \/ (~ rolled_back (kv_ver a) st /\ (forall c w, kv_ver a !! c = Some w -> write_start_ts w <> st)
      /\ match action with
         | MLAReturnError => ks = [] /\ exists raw, r = Err (MTxnNotFound st raw)
         | _ =>
             if resolving then r = Ok TSLockNotExistDoNothing /\ ks = []
             else r = Ok TSLockNotExist /\ rolls_back a st (bool_decide (action = MLAProtectedRollback)) ks
         end).

Lemma missing_found c w :
  kv_ver a !! c = Some w -> write_start_ts w = st ->
  if is_rollback w then rolled_back (kv_ver a) st /\ (forall c w, ~ committed_at (kv_ver a) st c w)
  else committed_at (kv_ver a) st c w.
Proof using I.
  intros Hw E. destruct (is_rollback w) eqn:Er; [|done].
  destruct (inv_rollback a I c w Hw Er) as [E' _]. assert (c = st) as -> by congruence. split.
  - exists w. split; [done|]. unfold says_rollback. by rewrite Er.
  - intros c2 w2 (Hw2 & Hr2 & E2). assert (st = c2) as <- by (eapply (inv_unique a I); eauto; congruence).
    congruence.
Qed.

Lemma not_rolled_back ov : record_of (kv_ver a) st (TCRNone ov) -> ~ rolled_back (kv_ver a) st.
Proof using I.
  intros Hr (w & Hw & Hsr). unfold says_rollback in Hsr.
  destruct ov as [[w' g]|]; cbn in Hr; [|destruct Hr; congruence].
  destruct Hr as (Hno & Hw' & Ho & _). assert (w' = w) as -> by congruence.
  rewrite Ho, orb_false_r in Hsr. destruct (inv_rollback a I st w Hw Hsr) as [E _]. by apply (Hno st w).
Qed.

Lemma check_missing_lock_spec action resolving :
  emits st key (check_txn_status_missing_lock rd key (kv_lock a) action resolving) (missing_post action resolving).
Proof using Hs I Hfree Hroom.
  destruct (sees_record rd key a Hs I) as (r & Er & Hr). fold st in Er, Hr.
  unfold check_txn_status_missing_lock. fold st. eapply emits_lift_bind; [exact Er|].
  destruct r as [ov|c w|c].
  2:{ destruct Hr as [Hw E]. pose proof (missing_found c w Hw E) as Hf. fold (is_rollback w).
      apply emits_ret. destruct (is_rollback w); [right; left; by destruct Hf|left; by exists c, w]. }
  2:{ destruct Hr as (-> & Hno & w & Hw & Ho). apply emits_ret. right. left. split_and!; try done.
      - exists w. split; [done|]. unfold says_rollback. rewrite Ho. apply orb_true_r.
      - intros c2 w2 (Hw2 & _ & E). by eapply Hno. }
  pose proof (not_rolled_back ov Hr) as Hnr.
  assert (forall c w, kv_ver a !! c = Some w -> write_start_ts w <> st) as Hno
    by (destruct ov as [[? ?]|]; apply Hr).
  case_bool_decide as Ha; [subst action; apply emits_into_raw; [apply Hs|]; intros raw; apply emits_fail;
    right; right; eauto|].
  destruct resolving; [apply emits_ret; right; right; by destruct action|].
  apply (emits_mono _ _ _ (fun r ks => r = Ok TSLockNotExist
    /\ rolls_back a st (bool_decide (action = MLAProtectedRollback)) ks)).
  { intros r ks [-> Hks]. right. right. by destruct action. }
  assert (exists collapse, mla_collapse_rollback action = Ok collapse
    /\ negb collapse = bool_decide (action = MLAProtectedRollback)) as (collapse & Ec & Ep)
    by (destruct action; [by exists true|by exists false|done]).
  rewrite <- Ep. unfold mla_construct_write. rewrite Ec. eapply emits_lift_bind; [done|].
  eapply (emits_bind _ _ _ _ (fun r ks => r = Ok tt /\ collapses a st ks)).
  - destruct collapse; [by eapply collapse_spec|apply emits_ret; split; [done|by left]].
  - intros [] ks [_ Hc]. eapply emits_seq; [apply mark_opt_spec|].
    eapply make_rollback_spec; [done..|]. apply emits_ret. split; [done|]. rewrite app_nil_r.
    by apply missing_steps.
  - by intros e ks [? _].
  - by intros ks [? _].
Qed.
End Missing.

(** ** Cleanup *)

Section Cleanup.
  Context (rd : Reader) (key : Key) (a : KV) (current_ts : TimeStamp) (protect : bool).
  Hypothesis Hs : sees rd key a.
  Hypothesis I : kinv a.
  Hypothesis Hroom : lock_has_room a.
Let st := rd_start_ts rd.

Definition cleanup_missing_post (r : mres (option ReleasedLock)) (ks : list kmod) : Prop :=
  (exists c w raw, committed_at (kv_ver a) st c w /\ r = Err (MCommitted st c raw) /\ ks = [])
  \/ (rolled_back (kv_ver a) st /\ (forall c w, ~ committed_at (kv_ver a) st c w) /\ r = Ok None /\ ks = [])
  \/ (~ rolled_back (kv_ver a) st /\ (forall c w, kv_ver a !! c = Some w -> write_start_ts w <> st)
      /\ r = Ok None /\ rolls_back a st protect ks).

Definition cleanup_post (r : mres (option ReleasedLock)) (ks : list kmod) : Prop :=
  match kv_lock a with
  | Some l =>
      if lock_ts l =? st then
        if negb (ts_is_zero current_ts) && negb (lock_expired l current_ts)
        then ks = [] /\ exists info, r = Err (MKeyIsLocked info)
        else (exists rel, r = Ok (Some rel)) /\ rolls_back a st (lock_protected key l) ks
             /\ kv_lock (kapplies a ks) = None
      else cleanup_missing_post r ks
  | None => cleanup_missing_post r ks
  end.

Lemma cleanup_missing_spec :
  (forall l, kv_lock a = Some l -> lock_ts l <> st) ->
  emits st key (status ← check_txn_status_missing_lock rd key (kv_lock a) (mla_rollback_protect protect) false;
    match status with
    | TSCommitted commit_ts => raw ← into_raw_m key; fail (MCommitted st commit_ts raw)
    | TSRolledBack => mret None
    | TSLockNotExist => mret None
    | _ => panic
    end) cleanup_missing_post.
Proof using Hs I Hroom.
  intros Hfree. eapply emits_bind; [by apply check_missing_lock_spec|..].
  - intros status ks [(c & w & Hc & [= ->] & ->)|[(Hr & Hn & [= ->] & ->)|(Hnr & Hno & H)]].
    + apply emits_into_raw; [apply Hs|]. intros raw. apply emits_fail. left. by exists c, w, raw.
    + apply emits_ret. right. by left.
    + unfold mla_rollback_protect in H. destruct protect eqn:Ep; destruct H as [[= ->] Hk];
        apply emits_ret; right; right; split_and!; try done; rewrite app_nil_r, Ep; exact Hk.
  - intros e ks [(c & w & Hc & ? & ->)|[(Hr & Hn & ? & ->)|(Hnr & Hno & H)]]; [done..|].
    unfold mla_rollback_protect in H. destruct protect; by destruct H.
  - intros ks [(c & w & Hc & ? & ->)|[(Hr & Hn & ? & ->)|(Hnr & Hno & H)]]; [done..|].
    unfold mla_rollback_protect in H. destruct protect; by destruct H.
Qed.

Lemma cleanup_spec : emits st key (cleanup rd key current_ts protect) cleanup_post.
Proof using Hs I Hroom.
  unfold cleanup. fold st. eapply emits_lift_bind; [by apply sees_load_lock|].
  pose proof cleanup_missing_spec as Hm. unfold cleanup_post. destruct (kv_lock a) as [l|] eqn:El; [|by apply Hm].
  destruct (Z.eqb_spec (lock_ts l) st) as [Hts|Hne]; [|apply Hm; by intros l' [= <-]].
  destruct (negb (ts_is_zero current_ts) && negb (lock_expired l current_ts)).
  - apply emits_into_raw; [apply Hs|]. intros raw. apply emits_fail. eauto.
  - by apply rollback_lock_spec.
Qed.
End Cleanup.

(** ** Checking the status of a transaction at its primary lock *)

Section CheckStatus.
  Context (rd : Reader) (key : Key) (a : KV) (l : Lock) (current_ts caller_start_ts : TimeStamp).
  Hypothesis Hs : sees rd key a.
  Hypothesis I : kinv a.
  Hypothesis Hl : kv_lock a = Some l.
  Hypothesis Hcur : is_u64 current_ts.
  Hypothesis Hcaller : is_u64 caller_start_ts.
Let st := rd_start_ts rd.
  Hypothesis Hts : lock_ts l = st.

(** The lock stays, possibly with a larger [min_commit_ts]; a reader told that
    it was pushed can not be overtaken by the commit. *)
Definition push_post (r : mres (TxnStatus * option ReleasedLock)) (ks : list kmod) : Prop :=
  exists l' pushed, r = Ok (TSUncommitted l' pushed, None) /\ lock_extends l l'
    /\ (ks = [] /\ l' = l \/ ks = [KPutLock l'] /\ lock_rollback_ts l' = lock_rollback_ts l)
    /\ Forall kmod_wf ks
    /\ (pushed = true -> ts_is_max caller_start_ts = false -> caller_start_ts < lock_min_commit_ts l').

Lemma push_min_commit_ts_spec :
  emits st key (push_min_commit_ts key l current_ts caller_start_ts) push_post.
Proof using Hs Hl Hcur Hcaller.
  destruct (sees_lock_wf rd key a Hs l Hl) as [Hwf H1]. unfold push_min_commit_ts.
  destruct (_ && _ && _) eqn:E.
  - apply andb_true_iff in E as [[_ Hm%negb_true_iff]%andb_true_iff Hle%Z.leb_le].
    unfold ts_is_max in Hm. apply Z.eqb_neq in Hm.
    assert (caller_start_ts < u64_max) as Hlt by (unfold is_u64, ts_max, u64_max in *; lia).
    set (m := if caller_start_ts + 1 <? current_ts then current_ts else caller_start_ts + 1).
    assert (is_u64 m /\ caller_start_ts < m) as [Hmu Hmc].
    { unfold m, is_u64, u64_max in *. destruct (Z.ltb_spec (caller_start_ts + 1) current_ts); lia. }
    eapply (emits_seq _ _ _ _ (lock_with_min_commit_ts l m) [KPutLock (lock_with_min_commit_ts l m)]).
    + eapply emits_lift_bind; [by rewrite ts_next_ok|].
      eapply emits_seq; [apply emits_put_lock|]. by apply emits_ret.
    + apply emits_ret. eexists _, _. split; [done|]. split_and!.
      * repeat split; cbn; try done. lia.
      * by right.
      * apply Forall_singleton. split; [|done]. destruct Hwf as (?&?&?&?&?&?&?&?&?&?&?&?&?&?&?).
        unfold lock_wf; cbn [lock_with_min_commit_ts lock_min_commit_ts]; split_and!; done.
      * intros _ _. done.
  - eapply (emits_seq _ _ _ _ l []); [by apply emits_ret|]. apply emits_ret. eexists _, _. split; [done|].
    split_and!; [repeat split; done|by left|done|]. intros Hp Hmax. rewrite Hmax, orb_false_r in Hp.
    apply andb_true_iff in Hp as [_ Hp%Z.ltb_lt]. done.
Qed.

Definition status_post (force_sync verify_primary : bool) (r : mres (TxnStatus * option ReleasedLock))
    (ks : list kmod) : Prop :=
  if verify_primary && negb (key_is_encoded_from key (lock_primary l)) then
    ks = [] /\ exists info, r = Err (MPrimaryMismatch info)
  else if lock_use_async_commit l && negb force_sync then ks = [] /\ r = Ok (TSUncommitted l false, None)
  else if lock_expired l current_ts then
    (exists rel, r = Ok (TSTtlExpire, Some rel)) /\ rolls_back a st (lock_protected key l) ks
    /\ kv_lock (kapplies a ks) = None
  else push_post r ks.

Lemma check_lock_exists_spec force_sync resolving verify_primary rollback_if_not_exist :
  emits st key (check_txn_status_lock_exists rd key l current_ts caller_start_ts force_sync resolving
                  verify_primary rollback_if_not_exist) (status_post force_sync verify_primary).
Proof using Hs I Hl Hcur Hcaller Hts.
  destruct (inv_lock_type a I l Hl) as [Hp _].
  unfold check_txn_status_lock_exists, status_post.
  assert (is_pessimistic_lock l = false) as -> by (by apply bool_decide_eq_false).
  destruct (verify_primary && negb (key_is_encoded_from key (lock_primary l))).
  { rewrite andb_false_r. apply emits_into_raw; [apply Hs|]. intros raw. apply emits_fail. eauto. }
  destruct (lock_use_async_commit l && negb force_sync); [by apply emits_ret|].
  destruct (lock_expired l current_ts); [|apply push_min_commit_ts_spec].
  eapply emits_bind; [by apply rollback_lock_spec|..].
  - intros rel ks ([rel' [= ->]] & Hk). apply emits_ret. rewrite app_nil_r. eauto.
  - by intros e ks [[? ?] _].
  - by intros ks [[? ?] _].
Qed.
End CheckStatus.
