(* ===== verification/ReadSpec.v ===== *)
(** * What reads return

    On contents that satisfy the invariant of the protocol, the reader's loops
    compute the latest data-changing version, whatever the [last_change]
    pointers and the GC fences of the versions they meet. *)
From S2P Require Import Prelude Number Bytes Timestamp Key Fields Lock Write OrderedMap PeerLocks Engine.
From S2P Require Import ConcurrencyManager Reader Versions MvccTxn CheckTxnStatus KeyView Protocol ActionSpec.

(** The version a read at [ts] sees. *)
Definition read_at (V : vmap) (ts : TimeStamp) (r : option (Write * TimeStamp)) : Prop :=
  match r with
  | Some (w, c) => V !! c = Some w /\ write_type w = WTPut /\ dlatest V ts c
  | None => unreadable V ts
  end.

(** What reads need of the contents: pointers that tell the truth or lead to a
    removed version where nothing is readable, fences that hide only hidden
    versions, and values for the versions that refer to them. *)
Record readable (a : KV) (limit : option TimeStamp) : Prop := {
  rb_last_change : forall c w, kv_ver a !! c = Some w -> is_data w = false ->
    match write_last_change w with
    | LCUnknown => True
    | LCExist t _ => dlatest (kv_ver a) c t \/ (kv_ver a !! t = None /\ unreadable (kv_ver a) c)
    | LCNotExist => unreadable (kv_ver a) c
    end;
  rb_fence : forall c w l, kv_ver a !! c = Some w -> limit = Some l ->
    (forall c', c < c' <= l -> data_at (kv_ver a) c' = None) -> check_gc_fence_as_latest_version w l = true;
  rb_value : forall c w, kv_ver a !! c = Some w -> write_type w = WTPut -> write_short_value w = None ->
    is_Some (kv_val a !! write_start_ts w)
}.

Lemma kinv_readable a limit : kinv a -> readable a limit.
Proof.
  intros I. split.
  - intros c w Hw Hd. pose proof (inv_last_change a I c w Hw Hd) as H. destruct (write_last_change w); [done|by left|done].
  - intros c w l Hw _ Hq. unfold check_gc_fence_as_latest_version. destruct (write_gc_fence w) as [g|] eqn:Eg; [|done].
    unfold ts_is_zero. destruct (Z.eqb_spec g 0) as [|Hg]; [done|]. cbn [negb andb].
    destruct (inv_fence a I c w g Hw Eg Hg) as [Hlt [x Hd]]. apply negb_true_iff, Z.leb_gt.
    destruct (Z.le_gt_cases g l); [|done]. by rewrite Hq in Hd by lia.
  - apply (inv_value a I).
Qed.

Section Reads.
  Context (rd : Reader) (key : Key) (a : KV).
  Hypothesis Hs : sees rd key a.
Let m := cf_write (snap_engine (rd_snapshot rd)).

Lemma dlatest_version ts t : dlatest (kv_ver a) ts t <-> exists w, latest_data m key ts t w.
Proof using Hs.
  split.
  - intros (Hle & Hd & Hn). unfold data_at in Hd. destruct (kv_ver a !! t) as [w|] eqn:E; [|by destruct Hd].
    destruct (is_data w) eqn:Ed; [|by destruct Hd]. apply (sees_ver rd key a Hs) in E as [Ht E].
    exists w. split_and!; try done. intros c w' Hc Hlt Hv.
    specialize (Hn c Hlt). by eapply data_at_version in Hn.
  - intros (w & Ht & Hle & Hv & Hd & Hn). split_and!; [done| |].
    + eapply data_at_Some; [|done]. by apply (sees_ver rd key a Hs).
    + intros c Hc. eapply data_at_version; [done|]. intros w' Hu Hv'. by eapply Hn.
Qed.

Lemma data_at_type ts t w :
  latest_data m key ts t w -> data_at (kv_ver a) t = Some (write_type w, write_start_ts w, write_short_value w).
Proof using Hs.
  intros (Ht & _ & Hv & Hd & _). unfold data_at.
  assert (kv_ver a !! t = Some w) as -> by (by apply (sees_ver rd key a Hs)). by rewrite Hd.
Qed.

Lemma unreadable_reads ts : unreadable (kv_ver a) ts <-> reads m key ts None.
Proof using Hs.
  split.
  - intros [Hn|(t & st & v & Hl & Ht)].
    + left. intros c w Hc Hle Hv. specialize (Hn c Hle). by eapply data_at_version in Hn.
    + right. apply dlatest_version in Hl as [w Hl]. exists t, w. split; [done|].
      rewrite (data_at_type ts t w Hl) in Ht. congruence.
  - intros [Hn|(c & w & Hl & Ht)].
    + left. intros c Hc. eapply data_at_version; [done|]. intros w Hu Hv. by eapply Hn.
    + right. exists c, (write_start_ts w), (write_short_value w). split; [apply dlatest_version; eauto|].
      by rewrite (data_at_type ts c w Hl), Ht.
Qed.

Lemma reads_read_at ts r : reads m key ts r <-> read_at (kv_ver a) ts r.
Proof using Hs.
  destruct r as [[w c]|]; [|symmetry; apply unreadable_reads]. cbn. split.
  - intros [Hl Hp]. split_and!; [|done|apply dlatest_version; eauto].
    apply (sees_ver rd key a Hs). by destruct Hl as (? & _ & ? & _).
  - intros (Hw & Hp & Hl). apply dlatest_version in Hl as [w' Hl]. split; [|done].
    pose proof Hl as (_ & _ & Hv & _). apply (sees_ver rd key a Hs) in Hw as [_ Hw]. fold m in Hw. congruence.
Qed.

Lemma readable_last_change limit : readable a limit -> last_change_valid m key.
Proof using Hs.
  intros I c w Hc Hv Hd. assert (kv_ver a !! c = Some w) as Hw by (by apply (sees_ver rd key a Hs)).
  pose proof (rb_last_change a limit I c w Hw Hd) as Hlc.
  destruct (write_last_change w) as [|t n|] eqn:Elc; [done| |by apply unreadable_reads].
  intros _. destruct Hlc as [Hlc|[Hn Hu]].
  - apply dlatest_version in Hlc as [w' Hl]. pose proof Hl as (_ & _ & Hv' & _). by rewrite Hv'.
  - apply unreadable_reads in Hu. destruct (version m key t) as [w'|] eqn:Ev; [|done].
    assert (is_u64 t) as Ht.
    { destruct (sees_ver_wf rd key a Hs c w Hw) as (_ & _ & Hwf). unfold write_wf in Hwf. rewrite Elc in Hwf. cbn in Hwf. tauto. }
    assert (kv_ver a !! t = Some w') by (by apply (sees_ver rd key a Hs)). congruence.
Qed.

Lemma readable_fences limit : readable a limit -> fences_pass m key limit.
Proof using Hs.
  intros I c w Hc Hv Hq. destruct limit as [l|] eqn:El; [|done]. apply negb_false_iff.
  assert (kv_ver a !! c = Some w) as Hw by (by apply (sees_ver rd key a Hs)).
  apply (rb_fence a _ I c w l Hw eq_refl). intros c' Hc'. eapply data_at_version; [done|].
  intros w' Hu Hv'. by eapply (Hq l c').
Qed.

(** [get_write] returns the version a read sees, whatever limit the fences
    are checked against, as long as nothing changed data between the two. *)
Lemma get_write_readable ts limit :
  readable a limit -> is_u64 ts -> (forall l c, limit = Some l -> ts < c <= l -> data_at (kv_ver a) c = None) ->
  exists r, get_write_with_commit_ts rd key ts limit = Ok r /\ read_at (kv_ver a) ts r.
Proof using Hs.
  intros I Hts Hq. destruct (sees_wf _ _ _ Hs) as (_ & _ & Hwf).
  destruct (get_write_spec rd Hwf key (sees_key _ _ _ Hs) (readable_last_change limit I) limit (readable_fences limit I) ts Hts)
    as (r & Er & Hr).
  { intros l c w El Hc Hlt Hv. specialize (Hq l c El Hlt). by eapply data_at_version in Hq. }
  exists r. split; [done|]. by apply reads_read_at.
Qed.

(** The value, from the record or from the default column family. *)
Definition value_at (ts : TimeStamp) (v : option Value) : Prop :=
  match v with
  | Some v => exists w c, read_at (kv_ver a) ts (Some (w, c))
      /\ match write_short_value w with Some sv => v = sv | None => kv_val a !! write_start_ts w = Some v end
  | None => unreadable (kv_ver a) ts
  end.

Lemma sees_value ts v :
  is_u64 ts -> kv_val a !! ts = Some v -> cf_default (snap_engine (rd_snapshot rd)) !! append_ts key ts = Some v.
Proof using Hs.
  intros Hts. rewrite <- (sees_view _ _ _ Hs). cbn [view kv_val].
  destruct (sees_wf _ _ _ Hs) as (Hd & _). intros E.
  apply slice_lookup in E as (_ & v' & Hv & [= ->]); [done|done|apply Hs].
Qed.

(** A read returns the value, and never misses one. *)
Lemma reader_get_readable ts limit :
  readable a limit -> is_u64 ts -> (forall l c, limit = Some l -> ts < c <= l -> data_at (kv_ver a) c = None) ->
  exists v, reader_get rd key ts limit = Ok v /\ value_at ts v.
Proof using Hs.
  intros I Hts Hq. destruct (get_write_readable ts limit I Hts Hq) as (r & Er & Hr).
  unfold reader_get, get_write. rewrite Er. cbn [mbind res_bind].
  destruct r as [[w c]|]; [|by exists None]. cbn [option_map fst]. pose proof Hr as (Hw & Hp & _).
  unfold load_data. rewrite Hp. cbn [bool_decide rassert].
  destruct (write_short_value w) as [sv|] eqn:Esv.
  { exists (Some sv). split; [done|]. exists w, c. split; [done|]. by rewrite Esv. }
  destruct (rb_value a limit I c w Hw Hp Esv) as [v Hv]. exists (Some v). split.
  - assert (is_u64 (write_start_ts w)) as Hst by (by apply (sees_ver_wf rd key a Hs) in Hw as (_ & _ & ? & _)).
    pose proof (sees_value _ _ Hst Hv) as E. unfold get_value, rd_cf. cbn [engine_get_cf]. by rewrite E.
  - exists w, c. split; [done|]. by rewrite Esv.
Qed.

(** On contents that satisfy the invariant of the protocol. *)
Lemma get_write_reads (I : kinv a) ts limit :
  is_u64 ts -> (forall l c, limit = Some l -> ts < c <= l -> data_at (kv_ver a) c = None) ->
  exists r, get_write_with_commit_ts rd key ts limit = Ok r /\ read_at (kv_ver a) ts r.
Proof using Hs. apply get_write_readable. by apply kinv_readable. Qed.

Lemma reader_get_value (I : kinv a) ts limit :
  is_u64 ts -> (forall l c, limit = Some l -> ts < c <= l -> data_at (kv_ver a) c = None) ->
  exists v, reader_get rd key ts limit = Ok v /\ value_at ts v.
Proof using Hs. apply reader_get_readable. by apply kinv_readable. Qed.
End Reads.
