(* ===== verification/PrewriteSpec.v ===== *)
(** * What an optimistic prewrite does to a key

    A prewrite that locks a key finds it without lock, without version newer
    than the transaction and without rollback of it. It writes the lock
    together with the value the lock refers to, which is the prewrite step of
    the protocol, or keeps the lock aside for one-phase commit. *)
From S2P Require Import Prelude Number Bytes Timestamp Key Fields Lock Write OrderedMap PeerLocks Engine.
From S2P Require Import ConcurrencyManager Reader Versions MvccTxn CheckTxnStatus Prewrite KeyView Protocol.
From S2P Require Import ActionSpec ReadSpec.

(** ** More rules for emitted modifications *)

Lemma emits_catch {A} st key (m : M A) (h : mvcc_error -> M A) (P Q : mres A -> list kmod -> Prop) :
  emits st key m P ->
  (forall a ks, P (Ok a) ks -> Q (Ok a) ks) ->
  (forall e ks, P (Err e) ks -> emits st key (h e) (fun r ks' => Q r (ks ++ ks'))) ->
  (forall ks, P Panic ks -> Q Panic ks) ->
  emits st key (catch m h) Q.
Proof.
  intros Hm Ho He Hp t Ht. destruct (Hm t Ht) as (r & t1 & ks & Em & E1 & E2 & E3 & HP).
  unfold catch. rewrite Em. destruct r as [a|e|]; [exists (Ok a), t1, ks; auto 6| |exists Panic, t1, ks; auto 6].
  destruct (He e ks HP t1 E3) as (r & t2 & ks' & Ef & E4 & E5 & E6 & HQ).
  exists r, t2, (ks ++ ks'). rewrite map_app, app_assoc, <- E1, <- E4, Ef. split_and!; congruence || done.
Qed.

Lemma emits_max_ts st key env ts : emits st key (update_max_ts_m env ts) (fun _ ks => ks = []).
Proof.
  intros t Ht. unfold update_max_ts_m. destruct (update_max_ts env (txn_cm t) ts) as [[[]|e|] cm];
    (eexists _, _, []; split_and!; [done|cbn; by rewrite app_nil_r|done..]).
Qed.

Lemma emits_put_new_lock st key l is_new :
  user_key key -> emits st key (put_lock key l is_new) (fun r ks => r = Ok tt /\ ks = [KPutLock l]).
Proof.
  intros [raw ->]. destruct is_new; [|apply emits_put_lock]. intros t Ht.
  unfold put_lock, raw_unwrap. rewrite key_to_raw_from_raw.
  eexists (Ok tt), _, [KPutLock l]. split; [cbv [mbind M_bind mret M_ret push_new_lock push_modify]; reflexivity|].
  split_and!; done.
Qed.

(** [m] appends modifications [ks] of [key] to the buffer, and [ps] to its
    locks for one-phase commit. *)
Definition buffers {A} (st : TimeStamp) (key : Key) (m : M A)
    (Q : mres A -> list kmod -> list (Key * Lock * bool) -> Prop) : Prop :=
  forall t, txn_start_ts t = st -> exists r t' ks ps, m t = (r, t')
    /\ txn_modifies t' = txn_modifies t ++ map (concrete key) ks
    /\ txn_locks_for_1pc t' = txn_locks_for_1pc t ++ ps /\ txn_start_ts t' = st /\ Q r ks ps.

Lemma emits_buffers {A} st key (m : M A) (P : mres A -> list kmod -> Prop) Q :
  emits st key m P -> (forall r ks, P r ks -> Q r ks []) -> buffers st key m Q.
Proof.
  intros Hm H t Ht. destruct (Hm t Ht) as (r & t' & ks & E & E1 & E2 & E3 & HP).
  exists r, t', ks, []. rewrite app_nil_r. auto 6.
Qed.

Lemma buffers_bind {A B} st key (m : M A) (f : A -> M B) P Q :
  buffers st key m P ->
  (forall a ks ps, P (Ok a) ks ps -> buffers st key (f a) (fun r ks' ps' => Q r (ks ++ ks') (ps ++ ps'))) ->
  (forall e ks ps, P (Err e) ks ps -> Q (Err e) ks ps) -> (forall ks ps, P Panic ks ps -> Q Panic ks ps) ->
  buffers st key (m ≫= f) Q.
Proof.
  intros Hm Ho He Hp t Ht. destruct (Hm t Ht) as (r & t1 & ks & ps & Em & E1 & E2 & E3 & HP).
  unfold mbind, M_bind. rewrite Em. destruct r as [a|e|]; [|exists (Err e), t1, ks, ps; auto 6|exists Panic, t1, ks, ps; auto 6].
  destruct (Ho a ks ps HP t1 E3) as (r & t2 & ks' & ps' & Ef & E4 & E5 & E6 & HQ).
  exists r, t2, (ks ++ ks'), (ps ++ ps'). rewrite map_app, !app_assoc, <- E1, <- E2, <- E4, <- E5. auto 6.
Qed.

(** After modifications only. *)
Lemma buffers_after {A B} st key (m : M A) (f : A -> M B) (P : mres A -> list kmod -> Prop) Q :
  emits st key m P ->
  (forall a ks, P (Ok a) ks -> buffers st key (f a) (fun r ks' ps => Q r (ks ++ ks') ps)) ->
  (forall e ks, P (Err e) ks -> Q (Err e) ks []) -> (forall ks, P Panic ks -> Q Panic ks []) ->
  buffers st key (m ≫= f) Q.
Proof.
  intros Hm Ho He Hp.
  eapply (buffers_bind _ _ _ _ (fun r ks ps => ps = [] /\ P r ks)); [by eapply emits_buffers|..].
  - intros a ks ps [-> H]. by apply Ho.
  - intros e ks ps [-> H]. by apply He.
  - intros ks ps [-> H]. by apply Hp.
Qed.

Lemma buffers_ret {A} st key (a : A) Q : Q (Ok a) [] [] -> buffers st key (mret a) Q.
Proof. intros H. eapply emits_buffers; [apply (emits_ret _ _ _ (fun r ks => r = Ok a /\ ks = [])); done|]. by intros r ks [-> ->]. Qed.

Lemma buffers_1pc st key l b :
  buffers st key (put_locks_for_1pc key l b) (fun r ks ps => r = Ok tt /\ ks = [] /\ ps = [(key, l, b)]).
Proof. intros t Ht. eexists (Ok tt), _, [], [(key, l, b)]. split; [done|]. cbn. by rewrite app_nil_r. Qed.

Lemma emits_panic {A} st key (Q : mres A -> list kmod -> Prop) : Q Panic [] -> emits st key panic Q.
Proof. intros H t Ht. exists Panic, t, []. cbn. by rewrite app_nil_r. Qed.

(** ** The last-change pointer of the lock *)

Lemma lc_make_exist_Ok {E} t n :
  is_u64 t -> is_u64 n ->
  match lc_make_exist (E := E) t n with
  | Ok lc => lc = LCExist t n /\ lc_wf lc | Err _ => False | Panic => True
  end.
Proof.
  intros Ht Hn. unfold lc_make_exist, ts_is_zero, rassert. destruct (Z.eqb_spec t 0); [done|]. cbn [negb].
  destruct (Z.ltb_spec 0 n); [|done]. done.
Qed.

Section Pointer.
  Context (rd : Reader) (key : Key) (a : KV).
  Hypothesis Hs : sees rd key a.
  Hypothesis I : kinv a.
Let st := rd_start_ts rd.

(** Of the latest version, [next_last_change_info] makes a true pointer. *)
Lemma next_last_change_spec c w :
  kv_ver a !! c = Some w -> (forall c', c < c' -> kv_ver a !! c' = None) ->
  match next_last_change_info rd key w st c with
  | Ok lc => lc_wf lc /\ lc_true (kv_ver a) c lc
  | Err _ => False
  | Panic => True
  end.
Proof using Hs I.
  intros Hw Hlast. destruct (sees_ver_wf rd key a Hs c w Hw) as (Hc & Hpos & Hww).
  assert (is_data w = true -> dlatest (kv_ver a) c c) as Hself.
  { intros Hd. split_and!; [lia|by eapply data_at_Some|lia]. }
  unfold next_last_change_info. destruct (is_data w) eqn:Hd.
  { assert (is_u64 1) as H1 by done. pose proof (lc_make_exist_Ok (E := mvcc_error) c 1 Hc H1) as Hm.
    unfold is_data in Hd. destruct (write_type w); try done;
      (destruct (lc_make_exist c 1) as [lc| |]; [|done..]; destruct Hm as [-> ?]; split; [done|by apply Hself]). }
  pose proof (inv_last_change a I c w Hw Hd) as Hlc.
  assert (write_type w = WTLock \/ write_type w = WTRollback) as Ht
    by (unfold is_data in Hd; destruct (write_type w); auto; done).
  assert (forall X Y : mres LastChange, match write_type w with WTPut | WTDelete => X | _ => Y end = Y) as ->
    by (intros; by destruct Ht as [-> | ->]).
  destruct Hww as (_ & _ & _ & Hlw & _).
  destruct (write_last_change w) as [|t n|]; [| |done].
  - destruct (get_write_reads rd key a Hs I c (Some st) Hc) as (r & Er & Hr).
    { intros l c' _ Hlt. apply data_at_None. intros w'. rewrite (Hlast c') by lia. done. }
    rewrite Er. cbn [mbind res_bind]. destruct r as [[w' t]|]; [|done].
    destruct (sees_seek rd key a Hs c Hc) as (sr & -> & _). cbn [mbind res_bind].
    destruct Hr as (Hw' & Hp & Hl). rewrite Hp. cbn [bool_decide rassert].
    destruct (sees_ver_wf rd key a Hs t w' Hw') as (Htu & _).
    pose proof (lc_make_exist_Ok (E := mvcc_error) t _ Htu
      (wrap64_range (next_count rd (write_fuel rd) key c (Some st) sr + 1))) as Hm.
    cbv [WriteType_eq_dec] in *. cbn. destruct (lc_make_exist _ _) as [lc| |]; [|done..]. by destruct Hm as [-> ?].
  - destruct Hlw as (Htu & _). pose proof (lc_make_exist_Ok (E := mvcc_error) t _ Htu (wrap64_range (n + 1))) as Hm.
    destruct (lc_make_exist _ _) as [lc| |]; [|done..]. by destruct Hm as [-> ?].
Qed.

(** Between the latest version and the transaction's start nothing changes. *)
Lemma lc_true_at_start c lc :
  c <= st -> (forall c', c < c' -> kv_ver a !! c' = None) -> lc_true (kv_ver a) c lc -> lc_true (kv_ver a) st lc.
Proof using.
  intros Hle Hlast. apply lc_true_mono; [done..|]. intros c' Hc'.
  apply data_at_None. intros w'. rewrite (Hlast c') by lia. done.
Qed.
End Pointer.

(** ** The checks *)

(** An optimistic transaction that checks its constraints, or skips the
    checks on a key that has no version. *)
Definition optimistic (props : TransactionProperties) (a : KV) : Prop :=
  exists skip, tp_kind props = Optimistic skip /\ (skip = true -> kv_ver a = ∅).

(** The timestamp a held lock answers a repeated prewrite with. *)
Definition held_min_commit_ts (l : Lock) : TimeStamp :=
  if lock_use_async_commit l then lock_min_commit_ts l else ts_zero.

Section Checks.
  Context (rd : Reader) (key : Key) (a : KV).
  Hypothesis Hs : sees rd key a.
  Hypothesis I : kinv a.
Let st := rd_start_ts rd.
  Context (m : PrewriteMutation).
  Hypothesis Hkey : pm_key m = key.
  Hypothesis Hopt : optimistic (pm_txn_props m) a.
  Hypothesis Hstart : tp_start_ts (pm_txn_props m) = st.
  Hypothesis Hnew : pm_last_change m = LCUnknown.

(** The key allows the transaction to write. *)
Definition writable : Prop :=
  (forall c w, kv_ver a !! c = Some w -> c <= st) /\ ~ rolled_back (kv_ver a) st.

(** The checks passed: the mutation differs only by its pointer. *)
Definition checked (m' : PrewriteMutation) : Prop :=
  writable /\ exists lc, m' = pm_with_last_change m lc /\ lc_wf lc /\ lc_true (kv_ver a) st lc.

Lemma newer_version_spec :
  match check_for_newer_version rd m with
  | Ok (_, m') => checked m'
  | _ => True
  end.
Proof using Hs I Hkey Hopt Hstart.
  destruct (sees_start _ _ _ Hs) as [Hu Hpos]. fold st in Hu, Hpos.
  assert (is_u64 ts_max) as Hmax by by vm_compute.
  unfold check_for_newer_version, write_fuel. cbn [newer_version_loop]. rewrite Hkey, Hstart.
  destruct Hopt as (skip & -> & _).
  destruct (sees_seek rd key a Hs ts_max Hmax) as (sr & -> & Hsr). cbn [mbind res_bind].
  assert (forall c, is_u64 c -> c <= ts_max) as Hle by (unfold is_u64, ts_max, u64_max; lia).
  assert (ts_is_max ts_max = true) as -> by done.
  destruct sr as [[c w]|].
  2:{ assert (forall c, kv_ver a !! c = None) as Hnone.
      { intros c. destruct (kv_ver a !! c) as [w|] eqn:E; [|done].
        destruct (sees_ver_wf rd key a Hs c w E) as (Hc & _). by rewrite Hsr in E by auto. }
      split; [split|].
      - intros c w. by rewrite Hnone.
      - intros (w & Hw & _). by rewrite Hnone in Hw.
      - exists LCNotExist. split_and!; [done..|]. left. intros c _. apply data_at_None. intros w. by rewrite Hnone. }
  destruct Hsr as (Hw & _ & Hlast).
  assert (forall c', c < c' -> kv_ver a !! c' = None) as Hlast'.
  { intros c' Hlt. destruct (kv_ver a !! c') as [w'|] eqn:E; [|done].
    destruct (sees_ver_wf rd key a Hs c' w' E) as (Hc' & _). by rewrite Hlast in E by auto. }
  fold (is_rollback w) (says_rollback w).
  destruct ((c =? st) && says_rollback w) eqn:Erb.
  { unfold write_conflict_error. by destruct (to_raw_r (pm_key m)). }
  pose proof (next_last_change_spec rd key a Hs I c w Hw Hlast') as Hlc. fold st in Hlc |- *.
  destruct (next_last_change_info rd key w st c) as [lc| |]; [|done..]. cbn [mbind res_bind].
  destruct Hlc as [Hlw Hlt].
  destruct (Z.ltb_spec st c) as [Hgt|Hcs].
  { unfold write_conflict_error. by destruct (to_raw_r (pm_key (pm_with_last_change m lc))). }
  destruct (check_data_constraint _ _ _ _ _) as [[]| |]; [|done..]. cbn [mbind res_bind].
  split; [split|].
  - intros c' w' Hw'. destruct (Z.le_gt_cases c' c); [lia|]. by rewrite Hlast' in Hw'.
  - intros (w' & Hw' & Hr). destruct (Z.eqb_spec c st) as [->|Hne].
    + assert (w' = w) as -> by congruence. by rewrite Hr in Erb.
    + by rewrite Hlast' in Hw' by lia.
  - exists lc. split_and!; [done..|]. by eapply lc_true_at_start.
Qed.

Lemma prev_write_spec lock_amended generation :
  match prewrite_prev_write rd m LSNone lock_amended generation with
  | Ok (_, _, m') => checked m'
  | _ => True
  end.
Proof using Hs I Hkey Hopt Hstart Hnew.
  unfold prewrite_prev_write, skip_constraint_check. pose proof newer_version_spec as Hn.
  destruct Hopt as (skip & -> & Hskip).
  assert (match (if negb skip then '(w, m) ← check_for_newer_version rd m; Ok (w, true, m) else Ok (None, false, m)) with
          | Ok (_, _, m') => checked m' | _ => True end) as Hc.
  { destruct skip; cbn [negb].
    - split.
      + split; [intros c w|intros (w & Hw & _); revert Hw]; rewrite Hskip by done; by rewrite lookup_empty.
      + exists LCUnknown. split_and!; [|done..]. rewrite <- Hnew. by destruct m.
    - by destruct (check_for_newer_version rd m) as [[pw m']| |]. }
  destruct (if negb skip then _ else _) as [[[pw loaded] m']| |]; [|done..]. cbn [mbind res_bind].
  destruct (negb lock_amended && negb ((0 <? generation) && false)); [|done].
  destruct (check_assertion rd m' pw loaded) as [[rw []]| |]; done.
Qed.

(** An existing lock is left alone. *)
Lemma check_lock_spec l action expected :
  kv_lock a = Some l ->
  match check_lock m l action expected 0 with
  | Ok (s, _) => lock_ts l = st /\ s = LSLocked (held_min_commit_ts l)
  | Err _ => True
  | Panic => False
  end.
Proof using Hs I Hkey Hstart.
  intros Hl. destruct (inv_lock_type a I l Hl) as [Hp _].
  assert (exists raw, to_raw_r (pm_key m) = Ok raw) as [raw Hraw].
  { rewrite Hkey. destruct (sees_key _ _ _ Hs) as [raw ->]. exists raw.
    unfold to_raw_r. by rewrite key_to_raw_from_raw. }
  unfold check_lock, pm_lock_info. rewrite Hstart. cbn [pm_key pm_with_last_change]. rewrite Hraw.
  destruct (Z.eqb_spec (lock_ts l) st) as [E|E]; cbn [negb].
  - assert (is_pessimistic_lock l = false) as -> by (by apply bool_decide_eq_false).
    change (0 <? 0) with false. cbn [andb]. destruct (_ && _ && _); [done|]. eauto.
  - by case_bool_decide.
Qed.
End Checks.

(** ** The errors of the reads *)

(** [r] is not the error that makes a prewrite fall back. *)
Definition no_fallback {A} (r : mres A) : Prop := forall s mi ma, r <> Err (MCommitTsTooLarge s mi ma).

Create HintDb reads.

Lemma no_fallback_bind {A B} (r : mres A) (k : A -> mres B) :
  no_fallback r -> (forall x, no_fallback (k x)) -> no_fallback (x ← r; k x).
Proof. intros Hr Hk. destruct r as [x|e|]; [apply Hk| |done]. intros s mi ma [= ->]. by destruct (Hr s mi ma). Qed.

Lemma no_fallback_codec {A} (r : res codec_error A) : no_fallback (map_err MCodec r).
Proof. by destruct r. Qed.

Lemma no_fallback_txn {A} (r : res _ A) : no_fallback (map_err mvcc_error_from_txn r).
Proof. destruct r as [|[]|]; done. Qed.

Lemma no_fallback_to_raw key : no_fallback (to_raw_r key).
Proof. apply no_fallback_codec. Qed.

#[export] Hint Resolve no_fallback_codec no_fallback_txn no_fallback_to_raw : reads.

(** Follow the branches of a read. *)
Ltac no_fallback :=
  repeat first
    [ done | solve [auto with reads] | apply no_fallback_bind; [|intros]
    | progress unfold rassert, write_conflict_error, assertion_failed_error, ts_prev, lc_make_exist
    | progress cbv zeta | case_match ].

Section ReadErrors.
  Context (rd : Reader).

Lemma no_fallback_load_lock key : no_fallback (load_lock rd key).
Proof. unfold load_lock, load_in_memory_pessimistic_lock, check_term_version_status. no_fallback. Qed.

Lemma no_fallback_seek_write key ts : no_fallback (seek_write rd key ts).
Proof. unfold seek_write. no_fallback. Qed.
Hint Resolve no_fallback_load_lock no_fallback_seek_write : reads.

Lemma no_fallback_get_write key ts limit : no_fallback (get_write_with_commit_ts rd key ts limit).
Proof.
  unfold get_write_with_commit_ts. apply no_fallback_bind; [no_fallback|]. generalize (write_fuel rd). intros fuel sr.
  revert ts sr. induction fuel as [|f IH]; intros ts sr; [done|]. cbn [get_write_loop]. no_fallback.
Qed.
Hint Resolve no_fallback_get_write : reads.

Lemma no_fallback_newer_version m : no_fallback (check_for_newer_version rd m).
Proof.
  unfold check_for_newer_version. generalize (write_fuel rd) ts_max. intros fuel. revert m.
  induction fuel as [|f IH]; intros m ts; [done|]. cbn [newer_version_loop].
  unfold next_last_change_info, check_data_constraint, get_write. no_fallback.
Qed.
Hint Resolve no_fallback_newer_version : reads.

Lemma no_fallback_assertion m w loaded : no_fallback (check_assertion rd m w loaded).
Proof.
  unfold check_assertion. destruct (_ || _); [done|]. destruct (_ && _); [done|]. cbv zeta.
  apply no_fallback_bind; [no_fallback|]. intros [[w' rw] reloaded].
  match goal with |- no_fallback (match ?x with Ok _ => _ | Err _ => _ | Panic => _ end) =>
    assert (no_fallback x) as Hx by no_fallback; destruct x as [|e|] end; [done| |done].
  assert (no_fallback (A := option (Write * TimeStamp) * bool) (Err e)) as He
    by (intros s mi ma [= ->]; by destruct (Hx s mi ma)).
  no_fallback.
Qed.
Hint Resolve no_fallback_assertion : reads.

Lemma no_fallback_prev_write m s amended generation : no_fallback (prewrite_prev_write rd m s amended generation).
Proof. unfold prewrite_prev_write. no_fallback. Qed.

Lemma no_fallback_lock_status m action expected generation :
  no_fallback (prewrite_lock_status rd m action expected generation).
Proof.
  unfold prewrite_lock_status, check_lock, pm_lock_info, amend_pessimistic_lock, next_last_change_info. no_fallback.
Qed.

Lemma no_fallback_old_value m loaded w : no_fallback (prewrite_old_value rd m loaded w).
Proof. unfold prewrite_old_value, get_old_value, get_write. no_fallback. Qed.
End ReadErrors.

Lemma no_fallback_mutation mutation secondary_keys action props :
  no_fallback (from_mutation mutation secondary_keys action props).
Proof. unfold from_mutation. no_fallback. Qed.

#[export] Hint Resolve no_fallback_prev_write no_fallback_lock_status no_fallback_old_value no_fallback_mutation : reads.

(** ** Writing the lock *)

(** A request whose parameters fit their fields, and whose secondaries fit
    the way it commits. *)
Record request_wf (props : TransactionProperties) (secondary_keys : option (list bytes)) : Prop := {
  req_primary : Z.of_nat (length (tp_primary props)) < 2 ^ 63;
  req_txn_size : is_u64 (tp_txn_size props);
  req_ttl : is_u64 (tp_lock_ttl props);
  req_min_commit_ts : is_u64 (tp_min_commit_ts props);
  req_txn_source : is_u64 (tp_txn_source props);
  req_commit_kind : match tp_commit_kind props with
    | TwoPc => secondary_keys = None
    | Async _ => is_Some secondary_keys
    | OnePc _ => True
    end;
  req_secondaries : forall ks, secondary_keys = Some ks ->
    Z.of_nat (length ks) < 2 ^ 63 /\ Forall (fun k => Z.of_nat (length k) < 2 ^ 63) ks
}.

Definition one_phase (props : TransactionProperties) : bool :=
  match tp_commit_kind props with OnePc _ => true | _ => false end.

Definition value_mods (st : TimeStamp) (v : option Value) : list kmod :=
  match v with Some v => [KPutVal st v] | None => [] end.

(** The lock of a prewrite of [st], whose value is [v] unless it is in the
    lock. *)
Record prewritten_lock (a : KV) (st : TimeStamp) (l : Lock) (v : option Value) : Prop := {
  pl_type : lock_type l <> LTPessimistic;
  pl_ts : lock_ts l = st;
  pl_rollback_ts : lock_rollback_ts l = [];
  pl_wf : lock_wf l;
  pl_last_change : lock_type l = LTLock -> lc_true (kv_ver a) st (lock_last_change l);
  pl_value : needs_value l = true -> is_Some v
}.

(** The modifications of a successful prewrite. *)
Definition locks (a : KV) (st : TimeStamp) (ks : list kmod) : Prop :=
  exists l v, ks = value_mods st v ++ [KPutLock l] /\ lock_ts l = st /\ Forall kmod_wf ks
    /\ kstep a (kapplies a ks) /\ kv_lock (kapplies a ks) = Some l /\ kv_lock a = None.

(** The lock of a successful prewrite for one-phase commit, which is to be
    committed at [ts] or later. *)
Definition locks_1pc (a : KV) (st : TimeStamp) (key : Key) (ts : TimeStamp) (ks : list kmod)
    (ps : list (Key * Lock * bool)) : Prop :=
  exists l v, ks = value_mods st v /\ ps = [(key, l, false)] /\ lock_min_commit_ts l = ts /\ st < ts
    /\ prewritten_lock a st l v.

Definition lock_or_1pc (one_pc : bool) (a : KV) (st : TimeStamp) (key : Key) (ts : TimeStamp) (ks : list kmod)
    (ps : list (Key * Lock * bool)) : Prop :=
  if one_pc then locks_1pc a st key ts ks ps else ps = [] /\ locks a st ks.

Lemma value_mods_wf st v : is_u64 st -> Forall kmod_wf (value_mods st v).
Proof. intros H. destruct v; [by apply Forall_singleton|by constructor]. Qed.

Lemma prewritten_locks rd key a l v :
  sees rd key a -> kv_lock a = None -> writable rd a -> prewritten_lock a (rd_start_ts rd) l v ->
  lock_use_one_pc l = false -> locks a (rd_start_ts rd) (value_mods (rd_start_ts rd) v ++ [KPutLock l]).
Proof.
  intros Hs Hfree [Hnew Hnr] [] Hone. destruct (sees_start _ _ _ Hs) as [Hu Hpos]. set (st := rd_start_ts rd) in *.
  exists l, v. split; [done|]. split; [done|].
  assert (kapplies a (value_mods st v ++ [KPutLock l])
    = mk_kv (Some l) (kv_ver a) (match v with Some v => <[lock_ts l := v]> (kv_val a) | None => kv_val a end)) as ->
    by (rewrite pl_ts0; by destruct v).
  split_and!; [|apply step_prewrite; rewrite ?pl_ts0; try done; lia|done|done].
  apply Forall_app. split; [by apply value_mods_wf|by apply Forall_singleton].
Qed.

(** The commit protocol's fields of the lock are free. *)
Lemma prewritten_set_async a st l v async one_pc secondaries mc :
  prewritten_lock a st l v -> is_u64 mc -> (async = false -> secondaries = []) ->
  Z.of_nat (length secondaries) < 2 ^ 63 -> Forall (fun k => Z.of_nat (length k) < 2 ^ 63) secondaries ->
  prewritten_lock a st (lock_with_min_commit_ts (lock_set_async l async one_pc secondaries) mc) v.
Proof.
  intros [] Hmc Hsec Hl Hf. constructor; try done.
  destruct pl_wf0 as (?&?&?&?&?&?&?&?&?&?&?&?&?&?&?). by split_and!.
Qed.

Section WriteLock.
  Context (rd : Reader) (key : Key) (a : KV).
  Hypothesis Hs : sees rd key a.
Let st := rd_start_ts rd.
  Context (last_change_enabled : bool) (m : PrewriteMutation) (lt : LockType).
  Hypothesis Hkey : pm_key m = key.
  Hypothesis Hopt : optimistic (pm_txn_props m) a.
  Hypothesis Hstart : tp_start_ts (pm_txn_props m) = st.
  Hypothesis Hreq : request_wf (pm_txn_props m) (pm_secondary_keys m).
  Hypothesis Httl : is_u64 (pm_lock_ttl m).
  Hypothesis Hmin : is_u64 (pm_min_commit_ts m).
  Hypothesis Hlt : pm_lock_type m = Some lt.
  Hypothesis Hlt_p : lt <> LTPessimistic.
  Hypothesis Hlt_value : lt = LTPut -> is_Some (pm_value m).
  Hypothesis Hfree : kv_lock a = None.
  Hypothesis Hwritable : writable rd a.
  Hypothesis Hlc : lc_wf (pm_last_change m) /\ lc_true (kv_ver a) st (pm_last_change m).

Lemma put_prewrite_value_spec lock :
  lock_short_value lock = None ->
  emits st key (put_prewrite_value m lock) (fun r ks => exists sh v,
    r = Ok (lock_with_short_value lock sh) /\ ks = value_mods st v
    /\ match sh with Some s => (length s <= 255)%nat | None => True end
    /\ (is_Some (pm_value m) -> sh = None -> is_Some v)).
Proof using Hkey Hstart Hlt_value.
  intros Hn. unfold put_prewrite_value. destruct (pm_value m) as [value|].
  - destruct (is_short_value value) eqn:Esv.
    + apply emits_ret. exists (Some value), None. split_and!; try done.
      unfold is_short_value, SHORT_VALUE_MAX_LEN in Esv. by apply Nat.leb_le.
    + eapply emits_seq; [rewrite Hkey, Hstart; apply emits_put_value|]. apply emits_ret.
      exists None, (Some value). split_and!; try done. rewrite <- Hn. by destruct lock.
  - apply emits_ret. exists None, None. split_and!; try done. rewrite <- Hn. by destruct lock.
Qed.

(** The lock before the commit protocol fills it in. *)
Lemma base_lock_ok sh v :
  match sh with Some s => (length s <= 255)%nat | None => True end ->
  (is_Some (pm_value m) -> sh = None -> is_Some v) ->
  let base := lock_with_short_value (new_prewrite_lock last_change_enabled m lt LSNone 0) sh in
  prewritten_lock a st base v /\ lock_use_async_commit base = false /\ lock_use_one_pc base = false
  /\ lock_secondaries base = [] /\ lock_min_commit_ts base = pm_min_commit_ts m.
Proof using All.
  intros Hsh Hv base. destruct Hreq, Hlc as [Hlw Hlt'], (sees_start _ _ _ Hs) as [Hu _].
  subst base. unfold new_prewrite_lock. rewrite Hstart.
  assert (for_update_ts_to_write (pm_txn_props m) LSNone = 0) as ->
    by (unfold for_update_ts_to_write, tp_for_update_ts; by destruct Hopt as (? & -> & _)).
  destruct (last_change_enabled && bool_decide (lt = LTLock)); split; try done; constructor; cbn; try done.
  all: intros [Ht Hn]%andb_true_iff; apply Hv; [apply Hlt_value|]; by apply bool_decide_eq_true in Ht, Hn.
Qed.

(** The result of writing the lock: the lock is written or kept for one-phase
    commit. When the commit timestamp grew too large it is written for two
    phases. *)
Definition write_lock_post (r : mres TimeStamp) (ks : list kmod) (ps : list (Key * Lock * bool)) : Prop :=
  match r with
  | Ok ts => lock_or_1pc (one_phase (pm_txn_props m)) a st key ts ks ps
  | Err (MCommitTsTooLarge _ _ _) => ps = [] /\ locks a st ks
  | Err _ => False
  | Panic => True
  end.

Lemma async_commit_spec lock max_commit_ts :
  is_u64 (lock_min_commit_ts lock) ->
  emits st key (async_commit_timestamps key lock (tp_start_ts (pm_txn_props m))
                  (tp_for_update_ts (pm_txn_props m)) max_commit_ts)
    (fun r ks => ks = [] /\ match r with
       | Ok (ts, lock') => is_u64 ts /\ st < ts /\ lock' = lock_with_min_commit_ts lock ts
       | Err e => exists s mi ma, e = MCommitTsTooLarge s mi ma
       | Panic => True
       end).
Proof using Hs Hstart.
  intros Hm t Ht. unfold async_commit_timestamps, publish_lock. destruct (sees_start _ _ _ Hs) as [Hu _].
  destruct (cm_lock_key (txn_cm t) key) as [cm|]; [|by exists Panic, t, []; rewrite app_nil_r].
  rewrite Hstart. set (x := Z.max (Z.max (cm_max_ts cm) st) (tp_for_update_ts (pm_txn_props m))).
  unfold ts_next. destruct (Z.ltb_spec x u64_max); cbn [mbind res_bind]; [|by exists Panic, t, []; rewrite app_nil_r].
  assert (is_u64 (Z.max (lock_min_commit_ts lock) (wrap64 (x + 1))) /\ st < Z.max (lock_min_commit_ts lock) (wrap64 (x + 1)))
    as [Hx Hgt].
  { rewrite wrap64_small; unfold is_u64, u64_max, st in *; lia. }
  destruct (_ && _); eexists _, _, []; (split; [done|]); cbn; rewrite app_nil_r; split_and!; eauto 6.
Qed.

(** Computing the timestamps of an async or one-phase commit, with the
    fallback. *)
Lemma async_try_spec lock one_pc max_commit_ts :
  is_u64 (lock_min_commit_ts lock) ->
  emits st key
    (catch ('(ts, lock) ← async_commit_timestamps (pm_key m) lock (tp_start_ts (pm_txn_props m))
                            (tp_for_update_ts (pm_txn_props m)) max_commit_ts;
            mret (Ok ts, lock, one_pc))
       (fun e => match e with
                 | MCommitTsTooLarge _ _ _ => mret (Err e, lock_set_async lock false false [], false)
                 | _ => mret (Err e, lock, one_pc)
                 end))
    (fun r ks => ks = [] /\ match r with
       | Ok (res, l, b) =>
           (exists ts, (is_u64 ts /\ st < ts) /\ res = Ok ts /\ l = lock_with_min_commit_ts lock ts /\ b = one_pc)
           \/ (exists s mi ma, res = Err (MCommitTsTooLarge s mi ma)) /\ l = lock_set_async lock false false [] /\ b = false
       | Err _ => False
       | Panic => True
       end).
Proof using Hs Hkey Hstart.
  intros Hm.
  eapply (emits_catch _ _ _ _ (fun r ks => ks = [] /\ match r with
    | Ok (res, l, b) => exists ts, (is_u64 ts /\ st < ts) /\ res = Ok ts /\ l = lock_with_min_commit_ts lock ts /\ b = one_pc
    | Err e => exists s mi ma, e = MCommitTsTooLarge s mi ma
    | Panic => True
    end)).
  - eapply emits_bind; [rewrite Hkey; apply async_commit_spec; exact Hm|..].
    + intros [ts l] ks [-> (Hts & Hgt & ->)]. apply emits_ret. eauto 8.
    + by intros e ks [-> H].
    + by intros ks [-> _].
  - intros [[res l] b] ks [-> H]. auto.
  - intros e ks [-> (s & mi & ma & ->)]. apply emits_ret. split; [done|]. right. eauto 6.
  - by intros ks [-> _].
Qed.

(** The end of [write_lock]: the lock is written or set aside. *)
Lemma finish_lock_spec l v is_new (one_pc : bool) ks (res : mres TimeStamp) :
  prewritten_lock a st l v -> ks = value_mods st v ->
  (if one_pc then st < lock_min_commit_ts l else lock_use_one_pc l = false) ->
  (forall ks' ps', lock_or_1pc one_pc a st key (lock_min_commit_ts l) ks' ps' -> write_lock_post res ks' ps') ->
  buffers st key
    (_ ← (if one_pc then put_locks_for_1pc (pm_key m) l false else put_lock (pm_key m) l is_new); lift res)
    (fun r ks' ps => write_lock_post r (ks ++ ks') ps).
Proof using Hs Hkey Hfree Hwritable.
  intros Hl -> Hone Hpost. rewrite Hkey. unfold lock_or_1pc in Hpost. destruct one_pc.
  - eapply buffers_bind; [apply buffers_1pc|..]; [|by intros ? ? ? [? _]|by intros ? ? [? _]].
    intros [] ks ps (_ & -> & ->). eapply emits_buffers; [apply (emits_lift _ _ _ (fun r ks => r = res /\ ks = [])); done|].
    intros r ks [-> ->]. rewrite !app_nil_r. apply Hpost. exists l, v. done.
  - eapply buffers_after; [apply emits_put_new_lock; apply Hs|..]; [|by intros ? ? [? _]|by intros ? [? _]].
    intros [] ks (_ & ->). eapply emits_buffers; [apply (emits_lift _ _ _ (fun r ks => r = res /\ ks = [])); done|].
    intros r ks [-> ->]. rewrite app_nil_r. apply Hpost. split; [done|]. eapply prewritten_locks; eauto.
Qed.

(** The lock of the chosen commit protocol. *)
Definition protocol_lock (base : Lock) : Lock :=
  match pm_secondary_keys m with
  | Some secondary_keys => lock_set_use_async_commit base secondary_keys
  | None => if try_one_pc m then lock_set_async base (lock_use_async_commit base) true (lock_secondaries base) else base
  end.

Lemma protocol_lock_ok base v ts :
  prewritten_lock a st base v -> lock_use_async_commit base = false -> lock_secondaries base = [] -> is_u64 ts ->
  prewritten_lock a st (lock_with_min_commit_ts (protocol_lock base) ts) v
  /\ prewritten_lock a st (lock_set_async (protocol_lock base) false false []) v
  /\ lock_min_commit_ts (protocol_lock base) = lock_min_commit_ts base
  /\ (one_phase (pm_txn_props m) = false -> lock_use_one_pc (protocol_lock base) = lock_use_one_pc base).
Proof using Hreq.
  intros Hb Ha Hsec Hts. pose proof (req_secondaries _ _ Hreq) as Hsk.
  assert (is_u64 (lock_min_commit_ts base)) as Hm by (destruct (pl_wf _ _ _ _ Hb) as (?&?&?&?&?&?&?&_); done).
  assert (lock_set_async (protocol_lock base) false false []
    = lock_with_min_commit_ts (lock_set_async base false false []) (lock_min_commit_ts base)) as ->
    by (unfold protocol_lock; destruct (pm_secondary_keys m); [done|]; by destruct (try_one_pc m)).
  split; [|split; [by apply prewritten_set_async|]].
  - unfold protocol_lock, lock_set_use_async_commit. destruct (pm_secondary_keys m) as [sk|].
    + destruct (Hsk sk eq_refl). by apply prewritten_set_async.
    + rewrite Ha, Hsec. destruct (try_one_pc m); [by apply prewritten_set_async|].
      pose proof (prewritten_set_async a st base v false (lock_use_one_pc base) [] ts Hb Hts) as H.
      assert (lock_set_async base false (lock_use_one_pc base) [] = base) as E by (rewrite <- Ha, <- Hsec; by destruct base).
      rewrite E in H. by apply H.
  - unfold protocol_lock, try_one_pc, one_phase. destruct (pm_secondary_keys m); [done|].
    by destruct (tp_commit_kind (pm_txn_props m)).
Qed.

Lemma write_lock_spec is_new :
  buffers st key (write_lock last_change_enabled m LSNone is_new 0) write_lock_post.
Proof using All.
  unfold write_lock. rewrite Hlt. pose proof (req_commit_kind _ _ Hreq) as Hkind.
  eapply buffers_after; [apply put_prewrite_value_spec|..].
  { unfold new_prewrite_lock. by destruct (last_change_enabled && _). }
  2:{ by intros e ks (sh & v & ? & _). }
  2:{ by intros ks (sh & v & ? & _). }
  intros lock ks (sh & v & [= ->] & Eks & Hsh & Hv).
  destruct (base_lock_ok sh v Hsh Hv) as (Hb & Ha & Ho & Hsec & Hbm). revert Hb Ha Ho Hsec Hbm.
  generalize (lock_with_short_value (new_prewrite_lock last_change_enabled m lt LSNone 0) sh).
  intros base Hb Ha Ho Hsec Hbm. fold (protocol_lock base).
  destruct (protocol_lock_ok base v (pm_min_commit_ts m) Hb Ha Hsec Hmin) as (_ & Hfb & Hpm & Hone).
  assert (try_one_pc m = one_phase (pm_txn_props m)) as Etry by done.
  destruct (tp_commit_kind (pm_txn_props m)) eqn:Ek.
  { assert (protocol_lock base = base) as -> by (unfold protocol_lock, try_one_pc; by rewrite Hkind, Ek).
    rewrite Ha. unfold try_one_pc. rewrite Ek. cbn [orb].
    eapply (finish_lock_spec base v is_new false ks (Ok ts_zero)); [done..|].
    intros ks' ps'. unfold write_lock_post, one_phase. by rewrite Ek. }
  all: assert (lock_use_async_commit (protocol_lock base) || try_one_pc m = true) as ->
    by (unfold protocol_lock, try_one_pc; rewrite ?Ek; first [apply orb_true_r|by destruct Hkind as [sk ->]]).
  all: unfold tp_max_commit_ts; rewrite Ek; eapply buffers_after;
    [apply (emits_lift _ _ _ (fun r ks => r = Ok max_commit_ts /\ ks = [])); done| |by intros ? ? [? _]|by intros ? [? _]].
  all: intros max ks' [[= ->] ->]; cbn [app]; eapply buffers_after;
    [apply async_try_spec; by rewrite Hpm, Hbm|..|by intros ? ? [_ ?]|by intros ? [_ ?]].
  all: intros [[res l] b] ks' [-> [(ts & [Hts Hgt] & -> & -> & ->)|((s & mi & ma & ->) & -> & ->)]]; cbn [app].
  1, 3: eapply (finish_lock_spec _ v is_new (try_one_pc m) ks (Ok ts)); [apply (protocol_lock_ok base v ts Hb Ha Hsec Hts)|..].
  7, 8: eapply (finish_lock_spec _ v is_new false ks (Err _)); [exact Hfb|..].
  all: rewrite ?Etry; try done.
  all: destruct (one_phase (pm_txn_props m)); [done|]; cbn; by rewrite Hone.
Qed.
End WriteLock.

(** ** The action *)

Section Prewrite.
  Context (rd : Reader) (key : Key) (a : KV).
  Hypothesis Hs : sees rd key a.
  Hypothesis I : kinv a.
Let st := rd_start_ts rd.
  Context (env : CmEnv) (last_change_enabled : bool) (props : TransactionProperties) (mutation : Mutation)
    (secondary_keys : option (list bytes)) (action : PessimisticAction) (expected : option TimeStamp).
  Hypothesis Hkey : mutation_key mutation = key.
  Hypothesis Hopt : optimistic props a.
  Hypothesis Hstart : tp_start_ts props = st.
  Hypothesis Hreq : request_wf props secondary_keys.
  Hypothesis Haction : action <> DoPessimisticCheck.

(** A prewrite succeeds without writing when the transaction already holds
    the lock or when the mutation only checks; otherwise it locks a key that
    has no lock, no newer version and no rollback of the transaction. *)
Definition prewrite_post (r : mres (TimeStamp * OldValue)) (ks : list kmod) (ps : list (Key * Lock * bool)) : Prop :=
  match r with
  | Ok (ts, _) =>
      (one_phase props = true -> is_u64 ts)
      /\ ((ks = [] /\ ps = []
           /\ ((exists l, kv_lock a = Some l /\ lock_ts l = st /\ ts = held_min_commit_ts l)
               \/ should_not_write mutation = true))
          \/ (kv_lock a = None /\ writable rd a /\ should_not_write mutation = false
              /\ lock_or_1pc (one_phase props) a st key ts ks ps))
  | Err (MCommitTsTooLarge _ _ _) =>
      ps = [] /\ kv_lock a = None /\ writable rd a /\ should_not_write mutation = false /\ locks a st ks
  | Err _ => ps = [] /\ ks = []
  | Panic => True
  end.

(** A result without modifications, other than a success. *)
Lemma prewrite_post_fail r : (forall x, r <> Ok x) -> no_fallback r -> prewrite_post r [] [].
Proof using. intros H Hn. destruct r as [x|[]|]; cbn; auto; [by destruct (H x)|by edestruct Hn]. Qed.

Lemma mutation_fields m :
  from_mutation mutation secondary_keys action props = Ok m ->
  pm_key m = key /\ pm_txn_props m = props /\ pm_secondary_keys m = secondary_keys
  /\ pm_should_not_write m = should_not_write mutation /\ pm_lock_ttl m = tp_lock_ttl props
  /\ pm_min_commit_ts m = tp_min_commit_ts props /\ pm_last_change m = LCUnknown
  /\ (should_not_write mutation = false -> exists lt, pm_lock_type m = Some lt /\ lt <> LTPessimistic
      /\ (lt = LTPut -> is_Some (pm_value m))).
Proof using Hkey.
  unfold from_mutation. destruct (tp_is_pessimistic props && should_not_write mutation); [done|].
  rewrite <- Hkey. destruct mutation; intros [= <-]; cbn; split_and!; try done; intros ?; try done;
    eexists; split_and!; try done; eauto.
Qed.

(** A read that fails ends the prewrite without modifications. *)
Lemma prewrite_read {A} (r : mres A) (k : A -> M (TimeStamp * OldValue)) :
  no_fallback r ->
  (forall x, r = Ok x -> buffers st key (k x) prewrite_post) -> buffers st key (lift r ≫= k) prewrite_post.
Proof using.
  intros Hn Hk. eapply (buffers_after _ _ _ _ (fun r' ks => r' = r /\ ks = [])); [by apply emits_lift|..].
  - intros x ks [E ->]. by apply Hk.
  - intros e ks [<- ->]. apply prewrite_post_fail; [done|]. intros s mi ma [= ->]. by edestruct Hn.
  - done.
Qed.

Lemma prewrite_max_ts (b : bool) ts (k : M (TimeStamp * OldValue)) :
  buffers st key k prewrite_post ->
  buffers st key (_ ← (if b then update_max_ts_m env ts else mret tt); k) prewrite_post.
Proof using.
  intros Hk. eapply (buffers_after _ _ _ _ (fun r ks => ks = [] /\ no_fallback r)).
  - destruct b; [|by apply emits_ret]. intros t Ht. unfold update_max_ts_m.
    destruct (update_max_ts env (txn_cm t) ts) as [[[]|e|] cm];
      (eexists _, _, []; split_and!; [done|cbn; by rewrite app_nil_r|done..]).
  - by intros [] ks [-> _].
  - intros e ks [-> Hn]. apply prewrite_post_fail; [done|]. intros s mi ma [= ->]. by edestruct Hn.
  - done.
Qed.

Lemma prewrite_tail m m' is_new (pw : option Write) (loaded : bool) :
  from_mutation mutation secondary_keys action props = Ok m -> should_not_write mutation = false ->
  kv_lock a = None -> checked rd a m m' ->
  buffers st key
    (old_value ← lift (prewrite_old_value rd m' loaded pw);
     final_min_commit_ts ← write_lock last_change_enabled m' LSNone is_new 0;
     mret (final_min_commit_ts, old_value)) prewrite_post.
Proof using Hs I Hkey Hopt Hstart Hreq.
  intros Em Hw Hfree (Hwr & lc & -> & Hlw & Hlt).
  destruct (mutation_fields m Em) as (Ek & Ep & Esk & _ & Ettl & Emin & _ & Hty). destruct (Hty Hw) as (lt & Elt & Hp & Hv).
  apply prewrite_read; [by auto with reads|]. intros ov _.
  eapply buffers_bind; [eapply (write_lock_spec rd key a Hs last_change_enabled (pm_with_last_change m lc) lt)|..];
    cbn [pm_key pm_txn_props pm_secondary_keys pm_lock_ttl pm_min_commit_ts pm_lock_type pm_value pm_last_change
         pm_with_last_change]; rewrite ?Ep, ?Esk, ?Ettl, ?Emin; try done; try apply Hreq.
  - intros ts ks ps Hl. apply buffers_ret. rewrite !app_nil_r. unfold write_lock_post in Hl. cbn in Hl. rewrite Ep in Hl.
    split; [|by right]. intros E. rewrite E in Hl. destruct Hl as (l & v & _ & _ & <- & _ & Hl).
    by destruct (pl_wf _ _ _ _ Hl) as (?&?&?&?&?&?&?&_).
  - intros e ks ps Hl. destruct e; try done. by destruct Hl as [-> Hl].
Qed.

(** The transaction does not hold the lock: check and write. *)
Lemma prewrite_unlocked m pw loaded m2 is_new :
  from_mutation mutation secondary_keys action props = Ok m -> kv_lock a = None -> checked rd a m m2 ->
  buffers st key
    (if pm_should_not_write m2 then
       _ ← update_max_ts_m env (tp_start_ts props);
       min_commit_ts ←
         (if need_min_commit_ts m2 then
            next ← lift (ts_next (tp_start_ts props)); mret (Z.max (tp_min_commit_ts props) next)
          else mret ts_zero);
       mret (min_commit_ts, OVUnspecified)
     else
       old_value ← lift (prewrite_old_value rd m2 loaded pw);
       final_min_commit_ts ← write_lock last_change_enabled m2 LSNone is_new 0;
       mret (final_min_commit_ts, old_value)) prewrite_post.
Proof using All.
  intros Em El Hch. destruct (mutation_fields m Em) as (_ & _ & _ & Ew & _).
  assert (pm_should_not_write m2 = should_not_write mutation) as -> by (by destruct Hch as (_ & lc & -> & _)).
  destruct (should_not_write mutation) eqn:Enw; [|by eapply prewrite_tail].
  apply (prewrite_max_ts true). pose proof (req_min_commit_ts _ _ Hreq) as Hmc.
  assert (forall ts, is_u64 ts -> buffers st key (mret (ts, OVUnspecified)) prewrite_post) as Hret.
  { intros ts Hts. apply buffers_ret. split; [done|]. left. auto. }
  destruct (need_min_commit_ts m2); [|by apply (Hret ts_zero)].
  unfold ts_next. destruct (Z.ltb_spec (tp_start_ts props) u64_max); [|by intros t Ht; exists Panic, t, [], []; cbn; rewrite !app_nil_r].
  apply Hret. pose proof (wrap64_range (tp_start_ts props + 1)). unfold is_u64 in *. lia.
Qed.

Lemma prewrite_spec :
  buffers st key (prewrite env last_change_enabled rd props mutation secondary_keys action expected) prewrite_post.
Proof using All.
  unfold prewrite, prewrite_with_generation. apply prewrite_read; [by auto with reads|]. intros m Em.
  destruct (mutation_fields m Em) as (Ek & Ep & _ & _ & _ & _ & Enew & _).
  apply prewrite_max_ts, prewrite_read; [by auto with reads|]. intros [[s m1] amended] Es. change (0 =? 0) with true. cbv iota.
  unfold prewrite_lock_status in Es. rewrite Ek, (sees_load_lock rd key a Hs) in Es. cbn [mbind res_bind] in Es.
  destruct (kv_lock a) as [l|] eqn:El.
  { pose proof (check_lock_spec rd key a Hs I m Ek) as Hc. rewrite Ep in Hc. specialize (Hc Hstart l action expected El).
    destruct (check_lock m l action expected 0) as [[s' m']| |]; [|done..]. destruct Hc as [Hts ->].
    injection Es as <- <- <-. apply buffers_ret. split; [|by left; eauto 7].
    intros _. destruct (sees_lock_wf rd key a Hs l El) as [(?&?&?&?&?&?&?&_) _]. unfold held_min_commit_ts.
    by destruct (lock_use_async_commit l). }
  rewrite bool_decide_eq_false_2 in Es by done. injection Es as <- <- <-.
  apply prewrite_read; [by auto with reads|]. intros [[pw loaded] m2] Epw.
  pose proof (prev_write_spec rd key a Hs I m Ek) as Hpw. rewrite Ep in Hpw.
  specialize (Hpw Hopt Hstart Enew false 0). rewrite Epw in Hpw.
  by eapply prewrite_unlocked.
Qed.
End Prewrite.
