(* ===== verification/PrewriteCommandSpec.v ===== *)
(** * What a prewrite command does to its keys

    The loop over the mutations keeps, for every key, what the buffer holds of
    it: nothing, the lock of two-phase commit, or a lock kept for one-phase
    commit. A fallback turns the last into the second, the end of the command
    into a commit record. The modifications of different keys interleave in
    the buffer, so they are described by the modifications of each key. *)
From stdpp Require Import sorting.
From S2P Require Import Prelude Number Bytes Timestamp Key Fields Lock Write OrderedMap PeerLocks Engine.
From S2P Require Import ConcurrencyManager Reader Versions MvccTxn CheckTxnStatus Prewrite Commands PrewriteCommand.
From S2P Require Import KeyView Protocol ActionSpec ReadSpec PrewriteSpec.

(** ** Modifications of several keys *)

Abbreviation trace := (list (Key * kmod)).

Definition emit (tr : trace) : list Modify := map (fun '(k, m) => concrete k m) tr.

(** The entries of one key. *)
Definition of_key {B} (k : Key) (l : list (Key * B)) : list B := (filter (fun x => x.1 = k) l).*2.

Lemma of_key_app {B} k (l l' : list (Key * B)) : of_key k (l ++ l') = of_key k l ++ of_key k l'.
Proof. unfold of_key. by rewrite filter_app, fmap_app. Qed.

Lemma of_key_cons {B} k k' (b : B) l : of_key k ((k', b) :: l) = (if decide (k' = k) then [b] else []) ++ of_key k l.
Proof. unfold of_key. rewrite filter_cons. cbn [fst]. by case_decide. Qed.

Lemma of_key_same {B} k (bs : list B) : of_key k (map (pair k) bs) = bs.
Proof. induction bs as [|b bs IH]; [done|]. cbn [map]. rewrite of_key_cons, IH. by rewrite decide_True. Qed.

Lemma of_key_other {B} k k' (bs : list B) : k' <> k -> of_key k (map (pair k') bs) = [].
Proof. intros Hne. induction bs as [|b bs IH]; [done|]. cbn [map]. rewrite of_key_cons, IH. by rewrite decide_False. Qed.

Lemma of_key_map {B C} k (f : B -> C) (l : list (Key * B)) : of_key k (map (fun '(k, b) => (k, f b)) l) = map f (of_key k l).
Proof.
  induction l as [|[k' b] l IH]; [done|]. cbn [map]. rewrite !of_key_cons, map_app, IH. by case_decide.
Qed.

Lemma elem_of_of_key {B} k (b : B) l : b ∈ of_key k l <-> (k, b) ∈ l.
Proof.
  unfold of_key. rewrite list_elem_of_fmap. setoid_rewrite list_elem_of_filter. split.
  - by intros ([? ?] & -> & <- & ?).
  - intros H. by exists (k, b).
Qed.

Lemma emit_app tr tr' : emit (tr ++ tr') = emit tr ++ emit tr'.
Proof. apply map_app. Qed.

Lemma emit_key k ks : emit (map (pair k) ks) = map (concrete k) ks.
Proof. unfold emit. by rewrite map_map. Qed.

(** Writing them changes each key by its own modifications. *)
Lemma write_trace e tr :
  engine_wf e -> Forall (fun '(k, m) => user_key k /\ kmod_wf m) tr ->
  exists e', write_modifies (E := kv_error) e (emit tr) = Ok e' /\ engine_wf e'
    /\ forall k, user_key k -> view e' k = kapplies (view e k) (of_key k tr).
Proof.
  revert e. induction tr as [|[k m] tr IH]; intros e He Htr; [by exists e|].
  apply Forall_cons in Htr as [[Hk Hm] Htr].
  destruct (write_modifies_view e k [m] He Hk) as (e1 & E1 & He1 & Hv1 & Ho1); [by apply Forall_singleton|].
  destruct (IH e1 He1 Htr) as (e2 & E2 & He2 & Hv2). exists e2.
  change (emit ((k, m) :: tr)) with (map (concrete k) [m] ++ emit tr). rewrite write_modifies_app, E1. cbn [mbind res_bind].
  split_and!; [done..|]. intros k' Hk'. rewrite Hv2, of_key_cons by done. unfold kapplies. rewrite fold_left_app. f_equal.
  case_decide as E; [by subst|]. by rewrite Ho1.
Qed.

(** ** The end of a lock kept for one-phase commit *)

Lemma prewritten_unset a st l v :
  prewritten_lock a st l v -> prewritten_lock a st (lock_unset_one_pc l) v /\ lock_use_one_pc (lock_unset_one_pc l) = false.
Proof. intros []. split; [|done]. by constructor. Qed.

(** Committing it is a prewrite and a commit of the protocol. *)
Lemma commit_1pc_steps rd key a l v c wt :
  sees rd key a -> kv_lock a = None -> writable rd a -> prewritten_lock a (rd_start_ts rd) l v ->
  rd_start_ts rd < lock_min_commit_ts l <= c -> is_u64 c -> write_type_from_lock_type (lock_type l) = Some wt ->
  let w := one_pc_write wt (rd_start_ts rd) l in
  let ks := value_mods (rd_start_ts rd) v ++ [KPutWrite c w] in
  Forall kmod_wf ks /\ rtc kstep a (kapplies a ks) /\ kv_lock (kapplies a ks) = None
  /\ committed_at (kv_ver (kapplies a ks)) (rd_start_ts rd) c w.
Proof.
  intros Hs Hfree [Hnew Hnr] Hl Hc Hu Hwt w ks. destruct (sees_start _ _ _ Hs) as [Hst Hpos].
  set (st := rd_start_ts rd) in *. destruct Hl as [Hty Hts Hrb Hwf Hlc Hval].
  assert (committed_record l c w) as Hrec.
  { exists wt. rewrite Hts, Hrb. by split_and!. }
  assert (kapplies a ks = mk_kv None (<[c := w]> (kv_ver a))
    (match v with Some v => <[lock_ts l := v]> (kv_val a) | None => kv_val a end)) as ->.
  { unfold ks. rewrite Hts. destruct a as [? ? ?]. cbn in Hfree. subst. by destruct v. }
  split_and!.
  - apply Forall_app. split; [by apply value_mods_wf|]. apply Forall_singleton. cbn. split_and!; [done|lia|].
    eapply write_wf_of_lock; [done..|]. by destruct Hwf as (?&?&?&?&?&?&?&?&?&?&?&?&?&?&?).
  - eapply rtc_l; [apply (step_prewrite a l v); rewrite ?Hts; try done; lia|]. apply rtc_once.
    apply (step_commit (mk_kv (Some l) (kv_ver a) _) l c w); cbn [kv_lock kv_ver kv_val]; [done|lia|lia|right|done].
    destruct (kv_ver a !! c) as [w'|] eqn:E; [|done]. pose proof (Hnew c w' E). unfold st in *. lia.
  - done.
  - split; [cbn; by rewrite lookup_insert_eq|]. split; [|done].
    unfold is_rollback. cbn. destruct (lock_type l); cbn in Hwt; by simplify_eq.
Qed.

(** ** The buffer *)

Section Buffer.
  Context (st : TimeStamp).

(** What the buffer holds of the mutations [ms] satisfies [P], and it holds
    nothing of other keys. *)
Definition holds (P : Mutation -> list kmod -> list Lock -> Prop) (ms : list Mutation) (t : MvccTxn) : Prop :=
  txn_start_ts t = st /\ Forall (fun x => x.2 = false) (txn_locks_for_1pc t)
  /\ exists tr, txn_modifies t = emit tr
     /\ (forall m, m ∈ ms -> P m (of_key (mutation_key m) tr) (of_key (mutation_key m) (txn_locks_for_1pc t).*1))
     /\ forall k, k ∉ map mutation_key ms -> of_key k tr = [] /\ of_key k (txn_locks_for_1pc t).*1 = [].

Lemma holds_mono P P' ms t :
  (forall m ks ls, m ∈ ms -> P m ks ls -> P' m ks ls) -> holds P ms t -> holds P' ms t.
Proof. intros H (? & ? & tr & ? & Hin & ?). split; [done|]. split; [done|]. exists tr. auto 6. Qed.

Lemma holds_extend P ms m t t' ks ps :
  holds P ms t -> mutation_key m ∉ map mutation_key ms -> txn_start_ts t' = st ->
  txn_modifies t' = txn_modifies t ++ map (concrete (mutation_key m)) ks ->
  txn_locks_for_1pc t' = txn_locks_for_1pc t ++ map (fun l => (mutation_key m, l, false)) ps ->
  P m ks ps -> holds P (ms ++ [m]) t'.
Proof.
  intros (Hs & Hf & tr & Et & Hin & Hout) Hnew Hs' Em El HP. split; [done|]. rewrite El. split.
  { apply Forall_app. split; [done|]. by apply Forall_map, Forall_forall. }
  assert ((map (fun l => (mutation_key m, l, false)) ps).*1 = map (pair (mutation_key m)) ps) as El1
    by (rewrite <- list_fmap_compose; done).
  exists (tr ++ map (pair (mutation_key m)) ks). rewrite Em, Et, emit_app, emit_key, fmap_app, El1. split; [done|].
  assert (forall k, k <> mutation_key m ->
    of_key k (tr ++ map (pair (mutation_key m)) ks) = of_key k tr
    /\ of_key k ((txn_locks_for_1pc t).*1 ++ map (pair (mutation_key m)) ps) = of_key k (txn_locks_for_1pc t).*1) as Hother.
  { intros k Hne. rewrite !of_key_app, !of_key_other by done. by rewrite !app_nil_r. }
  split.
  - intros m' [Hm'|Hm'%list_elem_of_singleton]%elem_of_app; [|subst m'].
    + destruct (Hother (mutation_key m')) as [-> ->]; [|by apply Hin].
      intros E. apply Hnew. rewrite <- E. by apply list_elem_of_fmap_2.
    + destruct (Hout _ Hnew) as [E1 E2]. by rewrite !of_key_app, !of_key_same, E1, E2.
  - intros k. rewrite map_app, not_elem_of_app. cbn [map]. rewrite not_elem_of_cons. intros (Hk & Hne & _).
    destruct (Hother k Hne) as [-> ->]. by apply Hout.
Qed.

(** A step that turns every lock kept for one-phase commit into [f] of it. *)
Lemma holds_flush P ms t t' (f : Lock -> kmod) :
  holds P ms t -> txn_start_ts t' = st -> txn_locks_for_1pc t' = [] ->
  txn_modifies t' = txn_modifies t ++ emit (map (fun '(k, l) => (k, f l)) (txn_locks_for_1pc t).*1) ->
  holds (fun m ks ls => ls = [] /\ exists ks0 ls0, P m ks0 ls0 /\ ks = ks0 ++ map f ls0) ms t'.
Proof.
  intros (Hs & Hf & tr & Et & Hin & Hout) Hs' El Em. split; [done|]. rewrite El. split; [done|].
  exists (tr ++ map (fun '(k, l) => (k, f l)) (txn_locks_for_1pc t).*1). rewrite Em, Et, emit_app. split; [done|]. split.
  - intros m Hm. split; [done|]. eexists _, _. split; [by apply Hin|]. by rewrite of_key_app, of_key_map.
  - intros k Hk. destruct (Hout k Hk) as [E1 E2]. by rewrite of_key_app, of_key_map, E1, E2.
Qed.
End Buffer.

Lemma put_lock_run k l is_new t t' :
  put_lock k l is_new t = (Ok tt, t') ->
  txn_start_ts t' = txn_start_ts t /\ txn_locks_for_1pc t' = txn_locks_for_1pc t
  /\ txn_modifies t' = txn_modifies t ++ [concrete k (KPutLock l)].
Proof.
  unfold put_lock, raw_unwrap, push_new_lock, push_modify, panic, mbind, M_bind, mret, M_ret.
  destruct is_new; [destruct (key_to_raw k)|]; intros [= <-]; done.
Qed.

Lemma fallback_1pc_locks_run t t' :
  fallback_1pc_locks t = (Ok tt, t') ->
  txn_start_ts t' = txn_start_ts t /\ txn_locks_for_1pc t' = []
  /\ txn_modifies t' = txn_modifies t
       ++ emit (map (fun '(k, l) => (k, KPutLock (lock_unset_one_pc l))) (txn_locks_for_1pc t).*1).
Proof.
  unfold fallback_1pc_locks, take_locks_for_1pc, mbind, M_bind. set (t0 := mk_txn _ _ _ [] _ _ _).
  assert (txn_start_ts t0 = txn_start_ts t /\ txn_locks_for_1pc t0 = [] /\ txn_modifies t0 = txn_modifies t) as (<- & H0 & <-)
    by done. clearbody t0. generalize (txn_locks_for_1pc t). intros ls. revert t0 H0.
  induction ls as [|[[k l] b] ls IH]; intros t0 H0; cbn [for_each].
  { intros [= <-]. by rewrite app_nil_r. }
  unfold mbind, M_bind. destruct (put_lock k (lock_unset_one_pc l) (negb b) t0) as [[[]|e|] t1] eqn:E1; [|discriminate..].
  apply put_lock_run in E1 as (Es & El & Em). rewrite H0 in El.
  specialize (IH t1 El). destruct (for_each _ ls t1) as [[rs|e|] t2]; [|discriminate..]. intros [= <-].
  destruct (IH eq_refl) as (E3 & E4 & E5). rewrite E3, E4, E5, Em, Es, <- app_assoc. done.
Qed.

(** The modification that commits a lock. *)
Definition commit_1pc (st c : TimeStamp) (l : Lock) : kmod :=
  KPutWrite c (one_pc_write (default WTPut (write_type_from_lock_type (lock_type l))) st l).

Lemma handle_1pc_lock_run c k l t r t' :
  handle_1pc_lock c (k, l, false) t = (Ok r, t') ->
  r = None /\ txn_start_ts t' = txn_start_ts t /\ txn_locks_for_1pc t' = txn_locks_for_1pc t
  /\ txn_modifies t' = txn_modifies t ++ [concrete k (commit_1pc (txn_start_ts t) c l)].
Proof.
  unfold handle_1pc_lock, commit_1pc. destruct (write_type_from_lock_type (lock_type l)); [|discriminate].
  unfold get_txn, put_write, push_modify, mbind, M_bind, mret, M_ret. intros [= <- <-]. done.
Qed.

Lemma handle_1pc_locks_run c t released t' :
  Forall (fun x => x.2 = false) (txn_locks_for_1pc t) -> handle_1pc_locks c t = (Ok released, t') ->
  txn_start_ts t' = txn_start_ts t /\ txn_locks_for_1pc t' = [] /\ omap id released = []
  /\ txn_modifies t' = txn_modifies t
       ++ emit (map (fun '(k, l) => (k, commit_1pc (txn_start_ts t) c l)) (txn_locks_for_1pc t).*1).
Proof.
  unfold handle_1pc_locks, take_locks_for_1pc, mbind, M_bind. set (t0 := mk_txn _ _ _ [] _ _ _).
  assert (txn_start_ts t0 = txn_start_ts t /\ txn_locks_for_1pc t0 = [] /\ txn_modifies t0 = txn_modifies t) as (<- & H0 & <-)
    by done. clearbody t0. generalize (txn_locks_for_1pc t). intros ls. revert t0 H0 released.
  induction ls as [|[[k l] b] ls IH]; intros t0 H0 released Hf; cbn [for_each].
  { intros [= <- <-]. by rewrite app_nil_r. }
  apply Forall_cons in Hf as [Eb Hf]. cbn in Eb. subst b. unfold mbind, M_bind.
  destruct (handle_1pc_lock c (k, l, false) t0) as [[r|e|] t1] eqn:E1; [|discriminate..].
  apply handle_1pc_lock_run in E1 as (-> & Es & El & Em). rewrite H0 in El. specialize (IH t1 El).
  destruct (for_each _ ls t1) as [[rs|e|] t2]; [|discriminate..]. intros [= <- <-].
  destruct (IH rs Hf eq_refl) as (E3 & E4 & E5 & E6). rewrite E3, E4, E6, Em, Es, <- app_assoc. done.
Qed.

(** ** The loop *)

Abbreviation prewriter := (Prewriter OptimisticKind Mutation).

(** The parameters of a request fit their fields. *)
Record prewriter_wf (p : prewriter) : Prop := {
  pwf_primary : Z.of_nat (length (pw_primary p)) < 2 ^ 63;
  pwf_txn_size : is_u64 (pw_txn_size p);
  pwf_ttl : is_u64 (pw_lock_ttl p);
  pwf_min_commit_ts : is_u64 (pw_min_commit_ts p);
  pwf_txn_source : is_u64 (pc_txn_source (pw_ctx p));
  pwf_secondaries : forall ks, pw_secondary_keys p = Some ks ->
    Z.of_nat (length ks) < 2 ^ 63 /\ Forall (fun k => Z.of_nat (length k) < 2 ^ 63) ks
}.

(** The state of the loop is the one of the request, or has fallen back. *)
Record state_ok (p : prewriter) (s : PrewriteState) : Prop := {
  so_kind : match ps_try_one_pc s, ps_secondary_keys s with
    | true, _ => exists max, ps_commit_kind s = OnePc max
    | false, Some _ => exists max, ps_commit_kind s = Async max
    | false, None => ps_commit_kind s = TwoPc
    end;
  so_secondaries : forall ks, ps_secondary_keys s = Some ks -> pw_secondary_keys p = Some ks;
  so_final : ps_try_one_pc s = true -> is_u64 (ps_final_min_commit_ts s)
}.

Lemma init_ok p : state_ok p (prewriter_init p).
Proof.
  split; cbn; [|done..]. unfold prewriter_commit_kind.
  destruct (pw_secondary_keys p), (pw_try_one_pc p); eauto.
Qed.

Lemma fall_back_ok p s : state_ok p (ps_fall_back s).
Proof. by split. Qed.

Lemma secondaries_of_cases s key :
  secondaries_of s key = ps_secondary_keys s \/ secondaries_of s key = option_map (fun _ => []) (ps_secondary_keys s).
Proof. unfold secondaries_of. case_bool_decide; auto. Qed.

Lemma secondaries_of_Some s key :
  match secondaries_of s key with Some _ => true | None => false end
  = match ps_secondary_keys s with Some _ => true | None => false end.
Proof. destruct (secondaries_of_cases s key) as [-> | ->]; by destruct (ps_secondary_keys s). Qed.

Lemma state_request p s nov key :
  prewriter_wf p -> state_ok p s -> request_wf (prewriter_props p nov (ps_commit_kind s)) (secondaries_of s key).
Proof.
  intros [? ? ? ? ? Hsec] [Hk Hs _]. pose proof (secondaries_of_cases s key) as Hc. split; try done; cbn.
  - pose proof (secondaries_of_Some s key) as E.
    destruct (ps_try_one_pc s); [by destruct Hk as [max ->]|].
    destruct (ps_secondary_keys s); [destruct Hk as [max ->]|rewrite Hk]; by destruct (secondaries_of s key).
  - intros ks E. rewrite E in Hc. destruct Hc as [Hc|Hc]; [by apply Hsec, Hs|].
    destruct (ps_secondary_keys s); [injection Hc as ->; by split|done].
Qed.

Lemma state_one_phase p s nov : state_ok p s -> one_phase (prewriter_props p nov (ps_commit_kind s)) = ps_try_one_pc s.
Proof.
  intros [Hk _ _]. unfold one_phase. cbn. destruct (ps_try_one_pc s); [by destruct Hk as [max ->]|].
  destruct (ps_secondary_keys s); [by destruct Hk as [max ->]|by rewrite Hk].
Qed.

(** The command found locks or failed an assertion, so that it will not
    write. *)
Definition failed (s : PrewriteState) : Prop := ps_locks s <> [] \/ is_Some (ps_assertion_failure s).

Section Loop.
  Context (rd : Reader) (views : Key -> KV) (p : prewriter) (env : CmEnv) (last_change_enabled need_old_value : bool).
Let st := rd_start_ts rd.

(** What the buffer holds of a mutation: nothing, as the transaction already
    holds the lock, the mutation only checks or the command fails; the lock;
    or, for one-phase commit, the value and the lock to commit. *)
Definition key_state (one_pc held_async : bool) (bound : TimeStamp) (fl : Prop) (m : Mutation) (ks : list kmod)
    (ls : list Lock) : Prop :=
  let a := views (mutation_key m) in
  (ks = [] /\ ls = []
   /\ (fl \/ should_not_write m = true
       \/ exists l, kv_lock a = Some l /\ lock_ts l = st /\ (held_async = true -> lock_use_async_commit l = true)))
  \/ (kv_lock a = None /\ writable rd a /\ should_not_write m = false
      /\ if one_pc then exists l v, ks = value_mods st v /\ ls = [l] /\ st < lock_min_commit_ts l <= bound
                          /\ prewritten_lock a st l v
         else ls = [] /\ locks a st ks).

Lemma key_state_mono one_pc (h h' : bool) b b' (fl fl' : Prop) m ks ls :
  (h' = true -> h = true) -> b <= b' -> (fl -> fl') ->
  key_state one_pc h b fl m ks ls -> key_state one_pc h' b' fl' m ks ls.
Proof using.
  intros Hh Hb Hf [(-> & -> & H)|(? & ? & ? & H)].
  - left. split; [done|]. split; [done|]. destruct H as [?|[?|(l & ? & ? & ?)]]; eauto 8.
  - right. do 3 (split; [done|]). destruct one_pc; [|done]. destruct H as (l & v & ? & ? & ? & ?).
    exists l, v. split_and!; (done || lia).
Qed.

(** A fallback makes two-phase locks of all. *)
Lemma key_state_fall_back one_pc b fl m ks ls :
  (forall key, key = mutation_key m -> sees rd key (views key)) ->
  key_state one_pc false b fl m ks ls ->
  key_state false false 0 fl m (ks ++ map (fun l => KPutLock (lock_unset_one_pc l)) ls) [].
Proof using.
  intros Hs [(-> & -> & H)|(Hfree & Hw & Hnw & H)]; [by left|]. right. do 3 (split; [done|]). destruct one_pc.
  - destruct H as (l & v & -> & -> & _ & Hl). split; [done|]. destruct (prewritten_unset _ _ _ _ Hl) as [Hl' Hu].
    by apply (prewritten_locks rd (mutation_key m)); [apply Hs| | | |].
  - destruct H as [-> H]. by rewrite app_nil_r.
Qed.

  Hypothesis Hp : prewriter_wf p.
  Hypothesis Hstart : pw_start_ts p = st.

(** What the reader sees of a key of the command. Constraint checks are
    skipped only on keys without versions. *)
Record mutation_ok (m : Mutation) : Prop := {
  mo_sees : sees rd (mutation_key m) (views (mutation_key m));
  mo_inv : kinv (views (mutation_key m));
  mo_skip : ok_skip_constraint_check (pw_kind p) = true -> kv_ver (views (mutation_key m)) = ∅
}.

Definition loop_inv (ms : list Mutation) (s : PrewriteState) (t : MvccTxn) : Prop :=
  state_ok p s
  /\ holds st (key_state (ps_try_one_pc s) (ps_try_one_pc s) (ps_final_min_commit_ts s) (failed s)) ms t.

(** The transaction turned out to be committed at [c]: the buffer is empty. *)
Definition found_committed (ms : list Mutation) (c : TimeStamp) (t : MvccTxn) : Prop :=
  txn_modifies t = [] /\ txn_locks_for_1pc t = []
  /\ exists m w, m ∈ ms /\ committed_at (kv_ver (views (mutation_key m))) st c w.

Lemma check_committed_run m e t :
  mutation_ok m ->
  match check_committed_record_on_err rd e (mutation_key m) t with
  | (Ok c, t') => found_committed [m] c t'
  | (Err _, t') => t' = t
  | (Panic, _) => True
  end.
Proof using.
  intros [Hs I _]. unfold check_committed_record_on_err.
  destruct (sees_record rd _ _ Hs I) as (r & -> & Hr). unfold lift, mbind, M_bind.
  destruct r as [o|c w|c]; [done| |done]. destruct (negb _) eqn:E; [|done].
  unfold txn_clear, mret, M_ret, found_committed. cbn [txn_modifies txn_locks_for_1pc]. split; [done|]. split; [done|].
  destruct Hr as [Hv Hw]. exists m, w. split; [apply list_elem_of_here|]. split; [done|]. split; [|done].
  by apply negb_true_iff in E.
Qed.

Lemma fall_back_run P ms s t s' t' :
  holds st P ms t -> fall_back s t = (Ok s', t') ->
  s' = ps_fall_back s
  /\ holds st (fun m ks ls => ls = [] /\ exists ks0 ls0, P m ks0 ls0
       /\ ks = ks0 ++ map (fun l => KPutLock (lock_unset_one_pc l)) ls0) ms t'.
Proof using.
  intros Hh. unfold fall_back, mbind, M_bind. destruct (fallback_1pc_locks t) as [[[]|e|] t1] eqn:E; [|discriminate..].
  apply fallback_1pc_locks_run in E as (Es & El & Em). unfold drop_guards, mret, M_ret. intros [= <- <-]. split; [done|].
  eapply holds_flush; [exact Hh|cbn; rewrite Es; apply Hh|done|done].
Qed.

(** After a fallback the loop goes on with two-phase locks. *)
Lemma fall_back_inv b one_pc ms s t s' t' :
  Forall mutation_ok ms ->
  holds st (fun m ks ls => key_state one_pc false b (failed s) m ks ls \/ key_state false false b (failed s) m ks ls) ms t ->
  fall_back s t = (Ok s', t') -> loop_inv ms s' t'.
Proof using.
  intros Hok Hh E. eapply fall_back_run in E as [-> Hh']; [|exact Hh]. split; [apply fall_back_ok|].
  eapply holds_mono; [|exact Hh']. intros m ks ls Hm [-> (ks0 & ls0 & HP & ->)].
  rewrite Forall_forall in Hok. destruct (Hok m Hm) as [Hs _ _].
  destruct HP as [HP|HP]; eapply key_state_fall_back in HP; try (by intros ? ->); exact HP.
Qed.

(** One mutation, before the loop looks at the result. *)
Lemma prewrite_one_run ms m s t :
  loop_inv ms s t -> mutation_ok m ->
  exists r t' ks ps,
    prewrite env last_change_enabled rd (prewriter_props p need_old_value (ps_commit_kind s)) m
      (secondaries_of s (mutation_key m)) SkipPessimisticCheck None t = (r, t')
    /\ txn_modifies t' = txn_modifies t ++ map (concrete (mutation_key m)) ks
    /\ txn_locks_for_1pc t' = txn_locks_for_1pc t ++ ps /\ txn_start_ts t' = st
    /\ prewrite_post rd (mutation_key m) (views (mutation_key m)) (prewriter_props p need_old_value (ps_commit_kind s)) m
         r ks ps.
Proof using Hp Hstart.
  intros [Hso (Ht & _)] [Hs I Hskip].
  eapply (prewrite_spec rd (mutation_key m) (views (mutation_key m)) Hs I); [done| |done|by apply state_request|done|done].
  eexists. split; [done|]. exact Hskip.
Qed.

(** The mutation's share of the buffer, when its prewrite succeeds. *)
Lemma prewritten_state m s ts ov ks ps (bound : TimeStamp) (held_async : bool) :
  state_ok p s ->
  prewrite_post rd (mutation_key m) (views (mutation_key m)) (prewriter_props p need_old_value (ps_commit_kind s)) m
    (Ok (ts, ov)) ks ps ->
  (ps_try_one_pc s = true -> ts <= bound) -> (held_async = true -> ts <> 0) ->
  exists ls, ps = map (fun l => (mutation_key m, l, false)) ls
    /\ key_state (ps_try_one_pc s) held_async bound (failed s) m ks ls.
Proof using.
  intros Hso [_ Hpost] Hb Hts. rewrite (state_one_phase p s need_old_value Hso) in Hpost.
  destruct Hpost as [(-> & -> & H)|(Hfree & Hw & Hnw & H)].
  - exists []. split; [done|]. left. split; [done|]. split; [done|]. right.
    destruct H as [(l & El & Et & ->)|H]; [right|by left]. exists l. split; [done|]. split; [done|].
    intros Ha. specialize (Hts Ha). unfold held_min_commit_ts in Hts. by destruct (lock_use_async_commit l).
  - unfold lock_or_1pc in H. destruct (ps_try_one_pc s) eqn:Eone.
    + destruct H as (l & v & -> & -> & <- & Hlt & Hl). exists [l]. split; [done|]. right. do 3 (split; [done|]).
      exists l, v. split_and!; auto.
    + destruct H as [-> H]. exists []. split; [done|]. by right.
Qed.

Lemma prewrite_one_ok ms m s t ts ov t' ks ps :
  loop_inv ms s t -> Forall mutation_ok (ms ++ [m]) -> mutation_key m ∉ map mutation_key ms ->
  txn_modifies t' = txn_modifies t ++ map (concrete (mutation_key m)) ks ->
  txn_locks_for_1pc t' = txn_locks_for_1pc t ++ ps -> txn_start_ts t' = st ->
  prewrite_post rd (mutation_key m) (views (mutation_key m)) (prewriter_props p need_old_value (ps_commit_kind s)) m
    (Ok (ts, ov)) ks ps ->
  let need := match secondaries_of s (mutation_key m) with Some _ => true | None => false end || ps_try_one_pc s in
  (need && ts_is_zero ts = false ->
   forall old_values, loop_inv (ms ++ [m])
     (ps_prewritten s (if need && (ps_final_min_commit_ts s <? ts) then ts else ps_final_min_commit_ts s) old_values) t')
  /\ (forall s' t'', fall_back s t' = (Ok s', t'') -> loop_inv (ms ++ [m]) s' t'').
Proof using.
  intros [Hso Hh] Hok Hnew Em El Es Hpost need.
  assert (ps_try_one_pc s = true -> need = true) as Hneed by (unfold need; intros ->; apply orb_true_r). split.
  - intros Hz old_values. set (final := if need && _ then _ else _).
    assert (ps_final_min_commit_ts s <= final /\ (ps_try_one_pc s = true -> ts <= final)) as [Hf1 Hf2].
    { unfold final. destruct (Z.ltb_spec (ps_final_min_commit_ts s) ts), need; cbn [andb]; try (split; [lia|intros; lia]).
      all: split; [lia|]; intros H1; by specialize (Hneed H1). }
    destruct (prewritten_state m s ts ov ks ps final (ps_try_one_pc s) Hso Hpost Hf2) as (ls & -> & Hks).
    { intros H1 ->. rewrite (Hneed H1) in Hz. done. }
    split.
    + destruct Hso as [Hk Hsec Hfin]. split; [done..|]. cbn. intros H1. destruct Hpost as [Hu _].
      rewrite (state_one_phase p s need_old_value) in Hu by done. unfold final.
      destruct (need && (_ <? _)); auto.
    + eapply holds_extend; try done; eapply holds_mono; [|exact Hh]. intros m' ks' ls' _. by apply key_state_mono.
  - intros s' t'' E.
    destruct (prewritten_state m s ts ov ks ps (Z.max ts (ps_final_min_commit_ts s)) false Hso Hpost) as (ls & -> & Hks); [lia|done|].
    eapply (fall_back_inv (Z.max ts (ps_final_min_commit_ts s)) (ps_try_one_pc s)); [done| |exact E].
    eapply holds_mono; [intros m' ks' ls' _ H; left; exact H|].
    eapply holds_extend; try done; eapply holds_mono; [|exact Hh]. intros m' ks' ls' _. apply key_state_mono; (done || lia).
Qed.

(** A failing mutation leaves the buffer as it is. *)
Lemma prewrite_one_failed ms m s s' t t' :
  loop_inv ms s t -> mutation_key m ∉ map mutation_key ms -> failed s' ->
  ps_try_one_pc s' = ps_try_one_pc s -> ps_commit_kind s' = ps_commit_kind s ->
  ps_secondary_keys s' = ps_secondary_keys s -> ps_final_min_commit_ts s' = ps_final_min_commit_ts s ->
  txn_modifies t' = txn_modifies t -> txn_locks_for_1pc t' = txn_locks_for_1pc t -> txn_start_ts t' = st ->
  loop_inv (ms ++ [m]) s' t'.
Proof using.
  intros [[Hk Hsec Hfin] Hh] Hnew Hf E1 E2 E3 E4 Em El Es. split.
  { split; rewrite ?E1, ?E2, ?E3, ?E4; done. }
  rewrite E1, E4. eapply (holds_extend st _ ms m t t' [] []); rewrite ?app_nil_r; try done.
  - eapply holds_mono; [|exact Hh]. intros m' ks' ls' _. by apply key_state_mono.
  - left. auto.
Qed.

(** A commit timestamp that is too large: the mutation's lock is written for
    two phases, and the others follow. *)
Lemma prewrite_one_too_large ms m s t t' ks s' t'' :
  loop_inv ms s t -> Forall mutation_ok (ms ++ [m]) -> mutation_key m ∉ map mutation_key ms ->
  txn_modifies t' = txn_modifies t ++ map (concrete (mutation_key m)) ks ->
  txn_locks_for_1pc t' = txn_locks_for_1pc t -> txn_start_ts t' = st ->
  kv_lock (views (mutation_key m)) = None /\ writable rd (views (mutation_key m)) /\ should_not_write m = false
    /\ locks (views (mutation_key m)) st ks ->
  fall_back s t' = (Ok s', t'') -> loop_inv (ms ++ [m]) s' t''.
Proof using.
  intros [_ Hh] Hok Hnew Em El Es (Hfree & Hw & Hnw & Hl) E.
  eapply (fall_back_inv (ps_final_min_commit_ts s) (ps_try_one_pc s)); [done| |exact E].
  eapply (holds_extend st _ ms m t t' ks []); rewrite ?app_nil_r; try done.
  - eapply holds_mono; [|exact Hh]. intros m' ks' ls' _ H. left. eapply key_state_mono; [..|exact H]; (done || lia).
  - right. right. done.
Qed.

Definition one_result (ms : list Mutation) (m : Mutation) (r : mres (PrewriteState + TimeStamp)) (t : MvccTxn) : Prop :=
  match r with
  | Ok (inl s) => loop_inv (ms ++ [m]) s t
  | Ok (inr c) => found_committed (ms ++ [m]) c t
  | _ => True
  end.

Lemma found_committed_more ms m c t : found_committed [m] c t -> found_committed (ms ++ [m]) c t.
Proof using.
  intros (? & ? & m' & w & Hm & ?). split; [done|]. split; [done|]. exists m', w. split; [|done]. apply elem_of_app. by right.
Qed.

Lemma prewrite_one_spec ms m s t :
  loop_inv ms s t -> Forall mutation_ok (ms ++ [m]) -> mutation_key m ∉ map mutation_key ms ->
  let '(r, t') := prewrite_one env last_change_enabled rd p need_old_value s m t in one_result ms m r t'.
Proof using Hp Hstart.
  intros Hinv Hok Hnew. assert (mutation_ok m) as Hm by (rewrite Forall_app, Forall_singleton in Hok; apply Hok).
  destruct (prewrite_one_run ms m s t Hinv Hm) as (r & t1 & ks & ps & Er & Em & El & Es & Hpost).
  unfold prewrite_one, attempt, mbind, M_bind. cbn [into_mutation pessimistic_action pessimistic_expected_for_update_ts Mutation_lock].
  rewrite Er. destruct r as [[ts ov]|e|]; [| |done].
  - destruct (prewrite_one_ok ms m s t ts ov t1 ks ps) as [Hgo Hfall]; try done.
    destruct (_ && ts_is_zero ts) eqn:Ez; cbn [negb].
    + destruct (fall_back s t1) as [[s'|e|] t2] eqn:Ef; [|done..]. by apply Hfall.
    + unfold get_txn, mret, M_ret. by apply Hgo.
  - assert (forall e', let '(r, t2) := check_committed_record_on_err rd e' (mutation_key m) t1 in
      match r with Ok c => found_committed (ms ++ [m]) c t2 | Err _ => t2 = t1 | Panic => True end) as Hc.
    { intros e'. pose proof (check_committed_run m e' t1 Hm) as H.
      destruct (check_committed_record_on_err _ _ _ _) as [[c|e''|] t2]; [by apply found_committed_more|done..]. }
    destruct e; try done; destruct Hpost as [-> Hks]; rewrite app_nil_r in El.
    + specialize (Hc (MKeyIsLocked info)).
      destruct (check_committed_record_on_err _ _ _ _) as [[c|e''|] t2]; [done| |done]. subst ks t2. rewrite app_nil_r in Em.
      eapply prewrite_one_failed; try done. left. cbn. by destruct (ps_locks s).
    + destruct (_ <? _); [|done]. match goal with |- context [check_committed_record_on_err _ ?e _ _] => specialize (Hc e) end.
      by destruct (check_committed_record_on_err _ _ _ _) as [[c|e''|] t2].
    + match goal with |- context [check_committed_record_on_err _ ?e _ _] => specialize (Hc e) end.
      by destruct (check_committed_record_on_err _ _ _ _) as [[c|e''|] t2].
    + specialize (Hc (MCommitTsTooLarge start_ts min_commit_ts max_commit_ts)).
      destruct (check_committed_record_on_err _ _ _ _) as [[c|e''|] t2]; [done| |done]. subst t2.
      destruct (fall_back s t1) as [[s'|e0|] t2] eqn:Ef; [|done..]. by eapply prewrite_one_too_large.
    + subst ks. rewrite app_nil_r in Em. eapply prewrite_one_failed; try done. right. cbn. by destruct (ps_assertion_failure s).
Qed.

Lemma prewrite_loop_spec xs : forall ms s t,
  loop_inv ms s t -> Forall mutation_ok (ms ++ xs) -> NoDup (map mutation_key (ms ++ xs)) ->
  match prewrite_loop env last_change_enabled rd p need_old_value s xs t with
  | (Ok (found, ts, s'), t') =>
      (found = ps_locks s' /\ ps_assertion_failure s' = None /\ ts = ps_final_min_commit_ts s' /\ loop_inv (ms ++ xs) s' t')
      \/ (found = [] /\ found_committed (ms ++ xs) ts t')
  | _ => True
  end.
Proof using Hp Hstart.
  induction xs as [|m xs IH]; intros ms s t Hinv Hok Hnd; cbn [prewrite_loop].
  { rewrite app_nil_r in *. destruct (ps_assertion_failure s) eqn:E; [done|]. left. done. }
  rewrite cons_middle, app_assoc in Hok, Hnd. unfold mbind, M_bind.
  assert (mutation_key m ∉ map mutation_key ms) as Hnew.
  { rewrite !map_app in Hnd. apply NoDup_app in Hnd as [Hnd _]. apply NoDup_app in Hnd as (_ & Hd & _).
    intros Hin. apply (Hd _ Hin). apply list_elem_of_here. }
  pose proof (prewrite_one_spec ms m s t Hinv) as H1.
  destruct (prewrite_one _ _ _ _ _ s m t) as [[[s'|c]|e|] t1]; [| |done..].
  - rewrite cons_middle, app_assoc. apply IH; [|done..]. apply H1; [|done]. by apply Forall_app in Hok as [? _].
  - right. split; [done|]. rewrite cons_middle, app_assoc. destruct H1 as (? & ? & m' & w & ? & ?); [|done|].
    { by apply Forall_app in Hok as [? _]. }
    split; [done|]. split; [done|]. exists m', w. split; [|done]. apply elem_of_app. by left.
Qed.

(** ** The result of the command *)

(** After a two-phase prewrite the transaction holds the lock of the key. *)
Definition key_locked (m : Mutation) (ks : list kmod) : Prop :=
  let a := views (mutation_key m) in
  (ks = [] /\ (should_not_write m = true \/ exists l, kv_lock a = Some l /\ lock_ts l = st)) \/ (should_not_write m = false /\ locks a st ks).

(** After a one-phase commit the transaction is committed on the key, unless
    it held the lock of an async commit. *)
Definition key_committed (c : TimeStamp) (m : Mutation) (ks : list kmod) : Prop :=
  let a := views (mutation_key m) in
  (ks = [] /\ (should_not_write m = true
               \/ exists l, kv_lock a = Some l /\ lock_ts l = st /\ lock_use_async_commit l = true))
  \/ (should_not_write m = false /\ st < c /\ Forall kmod_wf ks /\ rtc kstep a (kapplies a ks) /\ kv_lock (kapplies a ks) = None
      /\ (exists w, committed_at (kv_ver (kapplies a ks)) st c w)
      /\ kv_lock a = None /\ exists v l, ks = value_mods st v ++ [commit_1pc st c l]).

(** What the command writes, by its result. *)
Definition prewrite_outcome (ms : list Mutation) (pr : PrewriteResult) (tr : trace) : Prop :=
  (forall k, k ∉ map mutation_key ms -> of_key k tr = [])
  /\ match pr_locks pr with
     | _ :: _ => tr = [] /\ pr_one_pc_commit_ts pr = 0
     | [] =>
         (tr = [] /\ exists m c w, m ∈ ms /\ committed_at (kv_ver (views (mutation_key m))) st c w
            /\ (pr_one_pc_commit_ts pr = 0 \/ pr_one_pc_commit_ts pr = c))
         \/ forall m, m ∈ ms ->
              if pr_one_pc_commit_ts pr =? 0 then key_locked m (of_key (mutation_key m) tr)
              else key_committed (pr_one_pc_commit_ts pr) m (of_key (mutation_key m) tr)
     end.

Lemma commit_key_state c b m ks ls :
  mutation_ok m -> is_u64 c -> b <= c -> key_state true true b False m ks ls ->
  key_committed c m (ks ++ map (commit_1pc st c) ls).
Proof using.
  intros [Hs _ _] Hc Hb [(-> & -> & [[]|[H|(l & ? & ? & ?)]])|(Hfree & Hw & Hnw & l & v & -> & -> & Hlt & Hl)];
    [left; eauto 8..|]. right.
  assert (exists wt, write_type_from_lock_type (lock_type l) = Some wt) as [wt Hwt].
  { pose proof (pl_type _ _ _ _ Hl). destruct (lock_type l); cbn; eauto; done. }
  destruct (commit_1pc_steps rd (mutation_key m) _ l v c wt Hs Hfree Hw Hl) as (Hwf & Hst & Hnl & Hcm); [unfold st in *; lia|done..|].
  cbn [map]. unfold commit_1pc. rewrite Hwt. cbn [default]. split; [done|]. split; [lia|]. split_and!; eauto.
  exists v, l. unfold commit_1pc. by rewrite Hwt.
Qed.

Lemma locked_key_state b m ks ls : key_state false false b False m ks ls -> key_locked m ks.
Proof using. unfold key_locked. intros [(-> & -> & [[]|[H|(l & ? & ? & _)]])|(_ & _ & Hnw & [_ H])]; [left; eauto..|right; by split]. Qed.

Lemma not_failed s : ps_locks s = [] -> ps_assertion_failure s = None -> failed s -> False.
Proof using. intros E1 E2 [H|[x H]]; congruence. Qed.

(** The loop went through all mutations without finding a lock. *)
Lemma loop_result ms s t rows b w t' :
  Forall mutation_ok ms -> loop_inv ms s t -> ps_locks s = [] -> ps_assertion_failure s = None ->
  prewrite_write_result p [] (ps_final_min_commit_ts s) s rows b t = (Ok w, t') ->
  exists tr, wr_modifies (pww_result w) = emit tr /\ prewrite_outcome ms (wr_pr (pww_result w)) tr.
Proof using.
  intros Hok [Hso Hh] El Ea. unfold prewrite_write_result, one_pc_commit, massert, into_modifies, rassert, lift, mbind, M_bind.
  rewrite Forall_forall in Hok.
  assert (forall one_pc h b, holds st (key_state one_pc h b (failed s)) ms t ->
    holds st (key_state one_pc h b False) ms t) as Hnf.
  { intros one_pc h b0. apply holds_mono. intros m ks ls _. apply key_state_mono; [done|lia|by apply not_failed]. }
  apply Hnf in Hh. pose proof (so_final _ _ Hso) as Hfin. destruct (ps_try_one_pc s).
  - destruct (negb (ts_is_zero (ps_final_min_commit_ts s))) eqn:Ez; [|discriminate].
    destruct (handle_1pc_locks (ps_final_min_commit_ts s) t) as [[rel|e|] t1] eqn:E1; [|discriminate..].
    apply handle_1pc_locks_run in E1 as (Es & E1 & _ & Em); [|apply Hh]. unfold get_txn, mret, M_ret. rewrite E1.
    change (bool_decide (length [] = O)) with true. cbv iota beta. intros [= <- <-]. cbn [wr_modifies wr_pr pww_result].
    assert (txn_start_ts t = st) as Et by apply Hh. rewrite Et in Es, Em.
    destruct (holds_flush st _ ms t t1 (commit_1pc st (ps_final_min_commit_ts s)) Hh Es E1 Em) as (_ & _ & tr & Etr & Hin & Hout).
    exists tr. split; [done|]. split; [intros k Hk; by apply Hout|]. cbn [pr_locks pr_one_pc_commit_ts]. right. intros m Hm.
    unfold ts_is_zero in Ez. destruct (_ =? 0); [done|]. destruct (Hin m Hm) as (_ & ks & ls & Hks & ->).
    eapply commit_key_state; eauto. lia.
  - unfold get_txn, mret, M_ret. do 2 (destruct (bool_decide _); [|discriminate]). intros [= <- <-].
    destruct Hh as (_ & _ & tr & Etr & Hin & Hout). exists tr. split; [done|]. split; [intros k Hk; by apply Hout|].
    cbn. right. intros m Hm. by eapply locked_key_state, Hin.
Qed.

Lemma prewrite_write_result_spec ms s t found ts rows b w t' :
  Forall mutation_ok ms ->
  (found = ps_locks s /\ ps_assertion_failure s = None /\ ts = ps_final_min_commit_ts s /\ loop_inv ms s t)
  \/ (found = [] /\ found_committed ms ts t) ->
  prewrite_write_result p found ts s rows b t = (Ok w, t') ->
  exists tr, wr_modifies (pww_result w) = emit tr /\ prewrite_outcome ms (wr_pr (pww_result w)) tr.
Proof using.
  intros Hok Hr E. destruct found as [|x found].
  - destruct Hr as [(El & Ea & -> & Hinv)|(_ & Em & El & m & wr & Hm & Hc)]; [by eapply loop_result|].
    exists []. revert E. unfold prewrite_write_result, one_pc_commit, massert, mbind, M_bind.
    assert (forall rel t0 r, handle_1pc_locks ts t = (Ok rel, t0) -> txn_modifies t0 = r -> r = []) as Hh.
    { intros rel t0 r E0 <-. apply handle_1pc_locks_run in E0 as (_ & _ & _ & ->); [|by rewrite El]. by rewrite Em, El. }
    destruct (ps_try_one_pc s).
    + destruct (negb _); [|discriminate]. destruct (handle_1pc_locks ts t) as [[rel|e|] t1]; [|discriminate..].
      unfold get_txn, lift, into_modifies, rassert, mret, M_ret. destruct (bool_decide _); [|discriminate]. intros [= <- <-].
      cbn. split; [by eapply Hh|]. split; [done|]. left. split; [done|]. exists m, ts, wr. auto.
    + unfold get_txn, lift, into_modifies, rassert, mret, M_ret. do 2 (destruct (bool_decide _); [|discriminate]). intros [= <- <-].
      cbn. rewrite Em.
      split; [done|]. split; [done|]. left. split; [done|]. exists m, ts, wr. auto.
  - exists []. revert E. unfold prewrite_write_result, drop_guards, mbind, M_bind, mret, M_ret. intros [= <- <-]. done.
Qed.
End Loop.

(** ** Skipping the constraint checks *)

Lemma insert_by_key_perm m ms : insert_by_key m ms ≡ₚ m :: ms.
Proof.
  induction ms as [|m' ms IH]; [done|]. cbn [insert_by_key]. destruct (bleb _ _); [done|]. rewrite IH. apply perm_swap.
Qed.

Lemma sort_by_key_perm ms : sort_by_key ms ≡ₚ ms.
Proof. induction ms as [|m ms IH]; [done|]. cbn. by rewrite insert_by_key_perm, IH. Qed.

Definition key_le (m m' : Mutation) : Prop := ble (mutation_key m) (mutation_key m').

Lemma insert_by_key_sorted m ms : StronglySorted key_le ms -> StronglySorted key_le (insert_by_key m ms).
Proof.
  induction 1 as [|m' ms Hs IH Hall]; cbn [insert_by_key]; [by repeat constructor|].
  destruct (bleb _ _) eqn:E.
  - apply bleb_le in E. constructor; [by constructor|]. constructor; [done|].
    eapply Forall_impl; [exact Hall|]. intros m2. by apply ble_trans.
  - constructor; [done|]. rewrite insert_by_key_perm. constructor; [|done].
    unfold key_le. apply blt_ble. by rewrite <- bleb_gt.
Qed.

Lemma sort_by_key_sorted ms : StronglySorted key_le (sort_by_key ms).
Proof. induction ms as [|m ms IH]; [by constructor|]. by apply insert_by_key_sorted. Qed.

Lemma sorted_head ms first m : StronglySorted key_le ms -> head ms = Some first -> m ∈ ms -> key_le first m.
Proof.
  intros Hs Hh Hm. destruct Hs as [|m' ms Hs Hall]; [done|]. injection Hh as ->.
  apply elem_of_cons in Hm as [->|Hm]; [apply ble_refl|]. rewrite Forall_forall in Hall. auto.
Qed.

Lemma sorted_last ms la m : StronglySorted key_le ms -> last ms = Some la -> m ∈ ms -> key_le m la.
Proof.
  intros Hs. induction Hs as [|m' ms Hs IH Hall]; [done|]. intros Hl Hm.
  destruct ms as [|m2 ms]; [injection Hl as ->; apply list_elem_of_singleton in Hm as ->; apply ble_refl|].
  change (last (m' :: m2 :: ms)) with (last (m2 :: ms)) in Hl. apply elem_of_cons in Hm as [->|Hm]; [|by apply IH].
  rewrite Forall_forall in Hall. apply Hall. by apply last_Some_elem_of.
Qed.

(** Versions lie between the first and the last key of the range. *)
Lemma version_in_range key la c :
  user_key key -> user_key la -> ble key la -> is_u64 c -> 0 < c -> blt (append_ts key c) (append_ts la ts_zero).
Proof.
  intros [a ->] [b ->] Hle Hc Hpos. unfold blt, ble, append_ts, key_from_raw in *.
  rewrite bcmp_encode_bytes, bcmp_encode_u64_desc by done. rewrite bcmp_encode_asc in Hle.
  destruct (bcmp a b); [|done..]. by apply Z.compare_lt_iff.
Qed.

Lemma no_data_no_versions incomplete s first la key :
  engine_wf (snap_engine s) -> user_key key -> user_key la -> ble first key -> ble key la ->
  has_data_in_range incomplete s CF_WRITE first (append_ts la ts_zero) = false ->
  kv_ver (view (snap_engine s) key) = ∅.
Proof.
  intros He Hk Hla Hf Hl Hno. apply map_eq. intros c. rewrite lookup_empty.
  destruct (kv_ver (view (snap_engine s) key) !! c) as [w|] eqn:E; [exfalso|done].
  apply ver_lookup in E as [Hc E]; [|done..]. destruct He as (_ & _ & Hw).
  pose proof (version_in_range key la c Hk Hla Hl Hc) as Hlt. unfold version in E.
  destruct (cf_write (snap_engine s) !! append_ts key c) as [v|] eqn:Ev; [|done].
  destruct (Hw _ _ Ev) as (key' & c' & w' & Hk' & Hc' & Hpos & _ & Ek & _).
  apply append_ts_inj in Ek as [<- <-]; [|done..]. specialize (Hlt Hpos).
  assert (ble first (append_ts key c)) as Hfc.
  { eapply ble_trans; [exact Hf|]. apply ble_app. }
  unfold has_data_in_range in Hno. apply orb_false_iff in Hno as [_ Hno]. cbn [engine_get_cf] in Hno.
  destruct (seek_ge (cf_write (snap_engine s)) first) as [[k1 v1]|] eqn:Es.
  - apply seek_ge_Some in Es as (_ & _ & Hmin). specialize (Hmin _ _ Ev Hfc). apply bltb_ge in Hno.
    eapply blt_irrefl, ble_lt_trans; [|exact Hlt]. by eapply ble_trans.
  - rewrite seek_ge_None in Es. specialize (Es _ _ Ev). eapply blt_irrefl, ble_lt_trans; [exact Hfc|done].
Qed.

Lemma can_skip_spec incomplete s k ms k' ms' :
  engine_wf (snap_engine s) -> Forall user_key (map mutation_key ms) ->
  optimistic_can_skip incomplete s k ms = (k', ms') ->
  ms' ≡ₚ ms /\ (ok_skip_constraint_check k' = true -> ok_skip_constraint_check k = true
                \/ forall m, m ∈ ms -> kv_ver (view (snap_engine s) (mutation_key m)) = ∅).
Proof.
  intros He Huk. unfold optimistic_can_skip. pose proof (sort_by_key_perm ms) as Hp.
  pose proof (sort_by_key_sorted ms) as Hs. destruct (_ <? _)%nat; [|intros [= <- <-]; auto].
  destruct (head (sort_by_key ms)) as [first|] eqn:Ef; [|intros [= <- <-]; auto].
  destruct (last (sort_by_key ms)) as [la|] eqn:El; [|intros [= <- <-]; auto].
  destruct (negb _) eqn:Eno; intros [= <- <-]; [|auto]. split; [done|]. intros _. right. intros m Hm.
  apply negb_true_iff in Eno. rewrite <- Hp in Hm. rewrite Forall_forall in Huk.
  assert (forall m, m ∈ sort_by_key ms -> user_key (mutation_key m)) as Hu.
  { intros m2 Hm2. apply Huk. apply list_elem_of_fmap_2. by rewrite <- Hp. }
  eapply no_data_no_versions; [done|by apply Hu|apply Hu; by apply last_Some_elem_of| | |exact Eno].
  - by eapply sorted_head.
  - by eapply sorted_last.
Qed.

(** ** The command *)

Definition prewrite_request_wf (c : Prewrite) : Prop :=
  prewriter_wf (prewrite_into_prewriter c) /\ pwc_skip_constraint_check c = false.

Lemma prewrite_outcome_perm rd views ms ms' pr tr :
  ms ≡ₚ ms' -> prewrite_outcome rd views ms pr tr -> prewrite_outcome rd views ms' pr tr.
Proof.
  intros Hp [Hout H]. assert (forall m, m ∈ ms <-> m ∈ ms') as Hiff by (intros m; by rewrite Hp).
  split; [intros k Hk; apply Hout; by rewrite Hp|]. destruct (pr_locks pr); [|done]. destruct H as [[-> (m & c & w & Hm & H)]|H].
  - left. split; [done|]. exists m, c, w. by rewrite <- Hiff.
  - right. intros m Hm. by apply H, Hiff.
Qed.

(** The mutations the loop runs through, after the attempt to skip checks. *)
Lemma can_skip_ok rd views incomplete k ms k' ms' (p : prewriter) :
  optimistic_can_skip incomplete (rd_snapshot rd) k ms = (k', ms') -> ok_skip_constraint_check k = false ->
  (forall m, m ∈ ms -> sees rd (mutation_key m) (views (mutation_key m)) /\ kinv (views (mutation_key m))) ->
  pw_kind p = k' -> ms' ≡ₚ ms /\ Forall (mutation_ok rd views p) ms'.
Proof.
  intros Ek Hskip Hviews <-. destruct ms as [|m0 ms].
  { injection Ek as _ <-. auto. }
  destruct (Hviews m0 (list_elem_of_here _ _)) as [Hs0 _].
  destruct (can_skip_spec incomplete (rd_snapshot rd) k (m0 :: ms) (pw_kind p) ms') as [Hperm Hsk]; [apply Hs0| |done|].
  { apply Forall_map, Forall_forall. intros m Hm. apply (sees_key rd _ _ (proj1 (Hviews m Hm))). }
  split; [done|]. apply Forall_forall. intros m Hm. rewrite Hperm in Hm. destruct (Hviews m Hm) as [Hs I].
  split; [done..|]. intros Hk. destruct (Hsk Hk) as [E|Hno]; [congruence|]. rewrite <- (sees_view _ _ _ Hs). by apply Hno.
Qed.

(** A prewrite command of an optimistic transaction on distinct keys. *)
Lemma prewrite_command_spec env last_change cm snapshot synced incomplete need_old async_apply committed c w cm' views :
  let rd := new_with_ctx (pwc_start_ts c) snapshot (pc_ctx (pwc_ctx c)) in
  prewrite_request_wf c -> NoDup (prewrite_keys c) ->
  (forall k, k ∈ prewrite_keys c -> sees rd k (views k) /\ kinv (views k)) ->
  prewrite_process_write env last_change cm snapshot synced incomplete need_old async_apply committed c = (Ok w, cm') ->
  exists tr, wr_modifies (pww_result w) = emit tr
    /\ prewrite_outcome rd views (pwc_mutations c) (wr_pr (pww_result w)) tr.
Proof.
  intros rd [Hwf Hskip] Hnd Hviews. unfold prewrite_process_write, prewriter_process_write.
  assert (prewriter_check_cache committed (prewrite_into_prewriter c) = prewrite_into_prewriter c) as -> by done.
  unfold prewriter_skip. cbn [can_skip_constraint_check Optimistic_kind prewrite_into_prewriter pw_kind pw_mutations].
  destruct (optimistic_can_skip incomplete snapshot _ _) as [k' ms'] eqn:Ek. set (p := mk_prewriter k' ms' _ _ _ _ _ _ _ _ _ _).
  destruct (check_max_ts_synced synced p); [|discriminate..].
  change (new_with_ctx (pw_start_ts p) snapshot (pc_ctx (pw_ctx p))) with rd. change (pw_mutations p) with ms'.
  assert (prewriter_wf p) as Hp by (destruct Hwf; by constructor).
  destruct (can_skip_ok rd views _ _ _ _ _ p Ek Hskip) as [Hperm Hok]; [|done|].
  { intros m Hm. apply Hviews. by apply list_elem_of_fmap_2. }
  unfold mbind, M_bind.
  pose proof (prewrite_loop_spec rd views p env last_change need_old Hp eq_refl ms' [] (prewriter_init p)
    (txn_new (pw_start_ts p) cm)) as Hloop.
  destruct (prewrite_loop _ _ _ _ _ _ _ _) as [[[[found ts] s]|e|] t1]; [|discriminate..].
  destruct (prewrite_write_result p found ts s _ _ t1) as [[w'|e|] t2] eqn:Ew; [|discriminate..]. intros [= <- <-].
  eapply (prewrite_write_result_spec rd views p ms') in Ew as (tr & Etr & Ho); [|done|].
  - exists tr. split; [done|]. by eapply prewrite_outcome_perm.
  - apply Hloop; [|done|].
    + split; [apply init_ok|]. split; [done|]. split; [constructor|]. exists []. split; [done|]. split; [|done].
      by intros m ?%elem_of_nil.
    + cbn [app]. unfold prewrite_keys in Hnd. by rewrite Hperm.
Qed.

(** Whatever the result, every key makes steps of the protocol. *)
Lemma prewrite_outcome_steps rd views ms pr tr k :
  prewrite_outcome rd views ms pr tr ->
  Forall kmod_wf (of_key k tr) /\ rtc kstep (views k) (kapplies (views k) (of_key k tr)).
Proof.
  intros [Hout H]. assert (of_key k tr = [] -> Forall kmod_wf (of_key k tr) /\ rtc kstep (views k) (kapplies (views k) (of_key k tr))) as Hnil
    by (intros ->; split; [by constructor|done]).
  destruct (decide (k ∈ map mutation_key ms)) as [Hk|Hk]; [|by apply Hnil, Hout].
  destruct (pr_locks pr); [|by destruct H as [-> _]; split; [constructor|]].
  destruct H as [[-> _]|H]; [by split; [constructor|]|].
  apply list_elem_of_fmap in Hk as (m & -> & Hm). specialize (H m Hm).
  destruct (_ =? 0); [destruct H as [[E _]|(_ & l & v & _ & _ & ? & ? & _)]|destruct H as [[E _]|(_ & _ & ? & ? & _)]]; auto.
  split; [done|by apply rtc_once].
Qed.
