(* ===== verification/System.v ===== *)
(** * The transaction system

    The write commands of optimistic transactions as steps on the engine:
    Prewrite (also with async commit and one-phase commit), Commit, Rollback,
    Cleanup, CheckTxnStatus, TxnHeartBeat and ResolveLockLite. Left out are
    prewrites whose client asks to skip the constraint check, pessimistic
    locks and prewrites (LockCommands.v has the commands that take such locks)
    and flashback. A step runs a command on a
    snapshot of the engine, as the latches of its keys allow, and writes its
    modifications. Every step is, key by key, a sequence of steps of the
    protocol; the invariant of the protocol therefore holds for every key of
    every reachable engine. *)
From S2P Require Import Prelude Number Bytes Timestamp Key Fields Lock Write OrderedMap PeerLocks Engine.
From S2P Require Import ConcurrencyManager Reader Versions MvccTxn CheckTxnStatus Prewrite Commands PrewriteCommand.
From S2P Require Import KeyView Protocol ActionSpec ReadSpec PrewriteSpec PrewriteCommandSpec.

(** ** Batches over several keys *)

Definition batch : Type := list (Key * list kmod).

Definition flatten (b : batch) : list Modify := concat (map (fun '(k, ks) => map (concrete k) ks) b).

(** The views after a batch. *)
Definition batch_view (e e' : Engine) (b : batch) : Prop :=
  (forall k ks, (k, ks) ∈ b -> view e' k = kapplies (view e k) ks)
  /\ (forall k, user_key k -> k ∉ b.*1 -> view e' k = view e k).

Lemma write_batch e b :
  engine_wf e -> NoDup b.*1 -> Forall (fun '(k, ks) => user_key k /\ Forall kmod_wf ks) b ->
  exists e', write_modifies (E := kv_error) e (flatten b) = Ok e' /\ engine_wf e' /\ batch_view e e' b.
Proof.
  revert e. induction b as [|[k ks] b IH]; intros e He Hnd Hb.
  { exists e. split; [done|]. split; [done|]. split; [|done]. by intros k ks ?%elem_of_nil. }
  apply Forall_cons in Hb as [[Hk Hks] Hb]. cbn in Hnd. apply NoDup_cons in Hnd as [Hnk Hnd].
  destruct (write_modifies_view e k ks He Hk Hks) as (e1 & E1 & He1 & Hv1 & Ho1).
  destruct (IH e1 He1 Hnd Hb) as (e2 & E2 & He2 & Hin & Hout).
  exists e2. unfold flatten in *. cbn [map concat]. rewrite write_modifies_app, E1. cbn [mbind res_bind].
  split; [done|]. split; [done|]. split.
  - intros k' ks' [[= -> ->]|Hk']%elem_of_cons; [by rewrite Hout, Hv1|]. rewrite (Hin k' ks' Hk').
    rewrite Forall_forall in Hb. destruct (Hb _ Hk') as [Huk _]. rewrite Ho1; [done..|].
    intros ->. apply Hnk. apply list_elem_of_fmap. by exists (k, ks').
  - intros k' Hu Hn. cbn in Hn. apply not_elem_of_cons in Hn as [Hne Hn]. by rewrite Hout, Ho1.
Qed.

(** An action over several keys, each described by what it emits. *)
Lemma for_each_emits {A} st (act : Key -> M A) (Q : Key -> mres A -> list kmod -> Prop) keys :
  (forall k, k ∈ keys -> emits st k (act k) (Q k)) ->
  forall t, txn_start_ts t = st -> exists r t' b, for_each act keys t = (r, t')
    /\ txn_modifies t' = txn_modifies t ++ flatten b /\ txn_locks_for_1pc t' = txn_locks_for_1pc t
    /\ txn_start_ts t' = st
    /\ match r with
       | Ok rs => b.*1 = keys /\ Forall2 (fun '(k, ks) a => Q k (Ok a) ks) b rs
       | _ => True
       end.
Proof.
  induction keys as [|k keys IH]; intros Hq t Ht.
  { exists (Ok []), t, []. cbn. rewrite app_nil_r. split_and!; try done. }
  destruct (Hq k (list_elem_of_here _ _) t Ht) as (r & t1 & ks & E1 & Hm1 & Hp1 & Hs1 & HQ).
  cbn [for_each]. unfold mbind, M_bind. rewrite E1. destruct r as [x|x|].
  2-3: eexists _, t1, [(k, ks)]; unfold flatten; cbn [map concat]; rewrite app_nil_r; split_and!; done.
  destruct (IH (fun k' Hk' => Hq k' (list_elem_of_further _ _ _ Hk')) t1 Hs1) as (r & t2 & b & E2 & Hm2 & Hp2 & Hs2 & Hr).
  rewrite E2.
  exists (match r with Ok rs => Ok (x :: rs) | Err e => Err e | Panic => Panic end), t2, ((k, ks) :: b).
  unfold flatten in *. cbn [map concat]. rewrite Hm2, Hm1, app_assoc.
  destruct r as [rs|e|]; split_and!; try done; try congruence; cbn in *.
  - destruct Hr as [-> _]. done.
  - destruct Hr as [_ Hr]. by constructor.
Qed.

(** ** Steps of the system *)

Definition sys_inv (e : Engine) : Prop := engine_wf e /\ forall key, user_key key -> kinv (view e key).

(** Every key makes steps of the protocol. *)
Definition simulates (e e' : Engine) : Prop :=
  engine_wf e' /\ forall key, user_key key -> rtc kstep (view e key) (view e' key).

Definition txn_ts (st : TimeStamp) : Prop := is_u64 st /\ 0 < st.

Definition snap (e : Engine) : Snapshot := mk_snapshot e None.

(** The modifications of a command reach the engine. *)
Definition writes {A} (e : Engine) (r : cres (WriteResult A)) (e' : Engine) : Prop :=
  exists wr, r = Ok wr /\ write_modifies (E := kv_error) e (wr_modifies wr) = Ok e'.

(** The timestamp oracle never hands out a commit timestamp twice: a lock
    that does not use async commit is committed at a fresh timestamp. *)
Definition fresh_commit (e : Engine) (st c : TimeStamp) (key : Key) : Prop :=
  forall l, kv_lock (view e key) = Some l -> lock_ts l = st -> lock_use_async_commit l = false ->
  kv_ver (view e key) !! c = None.

(** The snapshot a command reads may be older than the engine it writes to, as
    long as they agree on the keys of the command. *)
Definition agrees (s e : Engine) (keys : list Key) : Prop :=
  (engine_wf e -> engine_wf s) /\ forall k, k ∈ keys -> view s k = view e k.

Lemma agrees_refl e keys : agrees e e keys.
Proof. by split. Qed.

(** A command with the given keys reads [s] and writes to [e]. The requests are
    those clients make: distinct user keys, positive start timestamps, commit
    timestamps that were not handed out before, and [lock_has_room], a bound on
    the rollbacks that are noted in a lock. *)
Inductive sys_step_on (s e : Engine) : list Key -> Engine -> Prop :=
| sys_prewrite e' env cm last_change synced incomplete need_old async_apply committed c w cm' :
    txn_ts (pwc_start_ts c) -> prewrite_request_wf c -> NoDup (prewrite_keys c) -> Forall user_key (prewrite_keys c) ->
    prewrite_process_write env last_change cm (snap s) synced incomplete need_old async_apply committed c = (Ok w, cm') ->
    write_modifies (E := kv_error) e (wr_modifies (pww_result w)) = Ok e' ->
    sys_step_on s e (prewrite_keys c) e'
| sys_commit e' cm ctx keys st c :
    txn_ts st -> is_u64 c -> NoDup keys -> Forall user_key keys -> Forall (fresh_commit e st c) keys ->
    writes e (Commit cm (snap s) ctx keys st c) e' ->
    sys_step_on s e keys e'
| sys_rollback e' cm ctx keys st :
    txn_ts st -> NoDup keys -> Forall user_key keys -> Forall (fun k => lock_has_room (view e k)) keys ->
    writes e (Rollback cm (snap s) ctx keys st) e' ->
    sys_step_on s e keys e'
| sys_cleanup e' env cm ctx key st current_ts :
    txn_ts st -> user_key key -> lock_has_room (view e key) ->
    writes e (Cleanup env cm (snap s) ctx key st current_ts) e' ->
    sys_step_on s e [key] e'
| sys_check_txn_status e' env cm ctx key st caller_start_ts current_ts rollback_if_not_exist force_sync
    resolving verify_primary :
    txn_ts st -> user_key key -> is_u64 caller_start_ts -> is_u64 current_ts -> lock_has_room (view e key) ->
    writes e (CheckTxnStatus env cm (snap s) ctx key st caller_start_ts current_ts rollback_if_not_exist
                force_sync resolving verify_primary) e' ->
    sys_step_on s e [key] e'
| sys_heart_beat e' cm ctx key st advise_ttl min_commit_ts :
    txn_ts st -> user_key key -> is_u64 advise_ttl -> is_u64 min_commit_ts ->
    writes e (TxnHeartBeat cm (snap s) ctx key st advise_ttl min_commit_ts) e' ->
    sys_step_on s e [key] e'
| sys_resolve_lite e' cm ctx keys st c :
    txn_ts st -> is_u64 c -> c = 0 \/ st < c -> NoDup keys -> Forall user_key keys ->
    Forall (fresh_commit e st c) keys -> Forall (fun k => lock_has_room (view e k)) keys ->
    writes e (ResolveLockLite cm (snap s) ctx st c keys) e' ->
    sys_step_on s e keys e'.

Definition sys_step (e e' : Engine) : Prop := exists s keys, agrees s e keys /\ sys_step_on s e keys e'.

(** ** Simulation *)

Lemma sees_snap e st ctx key :
  sys_inv e -> txn_ts st -> user_key key -> sees (new_with_ctx st (snap e) ctx) key (view e key).
Proof. intros [He _] Hst Hk. constructor; done. Qed.

Lemma sees_on s e st ctx keys key :
  sys_inv e -> agrees s e keys -> key ∈ keys -> txn_ts st -> user_key key -> sees (new_with_ctx st (snap s) ctx) key (view e key).
Proof. intros [He _] [Hs Hv] Hin Hst Hk. constructor; try done; [by apply Hs|by apply Hv]. Qed.

Lemma ksteps_commit a l c w :
  kv_lock a = Some l -> lock_ts l < c -> lock_min_commit_ts l <= c ->
  lock_use_async_commit l = true \/ kv_ver a !! c = None -> committed_record l c w ->
  rtc kstep a (kapplies a [KPutWrite c w; KDelLock]).
Proof.
  intros. apply rtc_once. change (kapplies a _) with (mk_kv None (<[c := w]> (kv_ver a)) (kv_val a)).
  by eapply step_commit.
Qed.

(** What a key goes through in one command. *)
Definition key_steps (e : Engine) (key : Key) (ks : list kmod) : Prop :=
  Forall kmod_wf ks /\ rtc kstep (view e key) (kapplies (view e key) ks).

Lemma key_steps_nil e key : key_steps e key [].
Proof. split; [by constructor|done]. Qed.

Lemma rolls_back_steps e key st prot ks : rolls_back (view e key) st prot ks -> key_steps e key ks.
Proof. intros (? & ? & _). done. Qed.

(** A batch whose keys make steps of the protocol is a simulation. *)
Lemma batch_simulates e b e' :
  sys_inv e -> NoDup b.*1 -> Forall (fun '(k, ks) => user_key k /\ key_steps e k ks) b ->
  write_modifies (E := kv_error) e (flatten b) = Ok e' -> simulates e e' /\ batch_view e e' b.
Proof.
  intros [He _] Hnd Hb Ew. destruct (write_batch e b He Hnd) as (e2 & E2 & He2 & Hin & Hout).
  { eapply Forall_impl; [exact Hb|]. intros [k ks] (? & ? & ?). done. }
  assert (e2 = e') as -> by congruence. split; [|done]. split; [done|]. intros key Hk.
  destruct (decide (key ∈ b.*1)) as [Hkb|Hkb]; [|by rewrite Hout].
  apply list_elem_of_fmap in Hkb as ([k ks] & -> & Hkb). cbn [fst]. rewrite (Hin k ks Hkb).
  rewrite Forall_forall in Hb. by destruct (Hb _ Hkb) as (_ & _ & ?).
Qed.

(** A command on a list of keys. *)
Lemma for_each_simulates {A B} e st cm (act : Key -> M A) (Q : Key -> mres A -> list kmod -> Prop) keys
    (k : list A -> MvccTxn -> cres (WriteResult B)) e' :
  sys_inv e -> NoDup keys -> Forall user_key keys ->
  (forall key, key ∈ keys -> emits st key (act key) (Q key)) ->
  (forall key a ks, key ∈ keys -> Q key (Ok a) ks -> key_steps e key ks) ->
  (forall rs t wr, k rs t = Ok wr -> wr_modifies wr = txn_modifies t) ->
  writes e (run_body st cm (for_each act keys) k) e' ->
  exists b, b.*1 = keys /\ Forall (fun '(key, ks) => exists a, Q key (Ok a) ks) b
    /\ simulates e e' /\ batch_view e e' b.
Proof.
  intros Hinv Hnd Huk Hem Hst Hk (wr & Er & Ew). unfold run_body in Er.
  destruct (for_each_emits st act Q keys Hem (txn_new st cm) eq_refl) as (r & t & b & Et & Hm & _ & _ & Hr).
  rewrite Et in Er. destruct r as [rs|e0|]; [|done..]. destruct Hr as [Hb Hq].
  rewrite (Hk _ _ _ Er), Hm in Ew. cbn [txn_new txn_modifies app] in Ew. exists b. split; [done|].
  assert (forall key ks, (key, ks) ∈ b -> exists a, Q key (Ok a) ks) as Hq'.
  { intros key ks [i Hi]%list_elem_of_lookup. destruct (Forall2_lookup_l _ _ _ _ _ Hq Hi) as (a & _ & Ha). eauto. }
  split; [apply Forall_forall; intros [key ks]; apply Hq'|].
  apply batch_simulates; [done|by rewrite Hb| |done].
  apply Forall_forall. intros [key ks] Hin. assert (key ∈ keys) as Hkk.
  { rewrite <- Hb. apply list_elem_of_fmap. by exists (key, ks). }
  rewrite Forall_forall in Huk. split; [by apply Huk|]. destruct (Hq' key ks Hin) as [a Ha]. eauto.
Qed.

Lemma finish_write_modifies {A} t (pr : A) rows released known wr :
  finish_write t pr rows released known = Ok wr -> wr_modifies wr = txn_modifies t.
Proof.
  unfold finish_write, into_modifies, rassert. case_bool_decide; [|done]. by intros [= <-].
Qed.

(** The result of a command on one key. *)
Lemma body_result {A B} st cm key (body : M A) (Q : mres A -> list kmod -> Prop)
    (k : A -> MvccTxn -> cres (WriteResult B)) wr :
  emits st key body Q -> run_body st cm body k = Ok wr ->
  exists a ks t, Q (Ok a) ks /\ k a t = Ok wr /\ txn_modifies t = map (concrete key) ks.
Proof.
  intros Hem Er. unfold run_body in Er.
  destruct (Hem (txn_new st cm) eq_refl) as (r & t & ks & Et & Hm & _ & _ & Hr).
  rewrite Et in Er. destruct r as [a|e0|]; [|done..]. by exists a, ks, t.
Qed.

(** A command on one key. *)
Lemma body_simulates {A B} e st cm key (body : M A) (Q : mres A -> list kmod -> Prop)
    (k : A -> MvccTxn -> cres (WriteResult B)) wr e' :
  sys_inv e -> user_key key -> emits st key body Q ->
  (forall a ks, Q (Ok a) ks -> key_steps e key ks) ->
  (forall a t wr, k a t = Ok wr -> wr_modifies wr = txn_modifies t) ->
  run_body st cm body k = Ok wr -> write_modifies (E := kv_error) e (wr_modifies wr) = Ok e' ->
  exists a ks t, Q (Ok a) ks /\ k a t = Ok wr /\ simulates e e' /\ batch_view e e' [(key, ks)].
Proof.
  intros Hinv Huk Hem Hst Hk Er Ew.
  destruct (body_result _ _ _ _ _ _ _ Hem Er) as (a & ks & t & Hq & Ek & Hm).
  rewrite (Hk _ _ _ Ek), Hm in Ew. exists a, ks, t. split; [done|]. split; [done|].
  apply batch_simulates; [done|apply NoDup_singleton| |by unfold flatten; cbn; rewrite app_nil_r].
  apply Forall_singleton. eauto.
Qed.

Lemma cmd_max_ts_ok {A} env cm ts (k : ConcurrencyManager -> cres A) x :
  cmd_update_max_ts env cm ts k = Ok x -> exists cm', k cm' = Ok x.
Proof. unfold cmd_update_max_ts. destruct (update_max_ts env cm ts) as [[[]|y|] cm']; [eauto|done..]. Qed.

Section Simulation.
  Context (s e : Engine).
  Hypothesis Hinv : sys_inv e.

Lemma commit_key_steps st ctx c key a ks :
  txn_ts st -> is_u64 c -> st < c -> user_key key -> fresh_commit e st c key ->
  commit_post (new_with_ctx st (snap s) ctx) (view e key) c (Ok a) ks -> key_steps e key ks.
Proof using Hinv.
  intros Hst Hc Hlt Hk Hf H. unfold commit_post in H. cbn [rd_start_ts new_with_ctx] in H.
  destruct (kv_lock (view e key)) as [l|] eqn:El; [|destruct H as [-> _]; apply key_steps_nil].
  destruct (Z.eqb_spec (lock_ts l) st) as [Hts|]; [|destruct H as [-> _]; apply key_steps_nil].
  destruct (Z.ltb_spec c (lock_min_commit_ts l)); [destruct H as [-> _]; apply key_steps_nil|].
  destruct H as (w & rel & _ & -> & Hw & Hww). split.
  - apply Forall_cons. split; [|by apply Forall_singleton]. destruct Hst. cbn. split_and!; [done|lia|done].
  - eapply ksteps_commit; [done|lia|done| |done].
    destruct (lock_use_async_commit l) eqn:Ea; [by left|right]. by eapply Hf.
Qed.

Lemma cleanup_key_steps st ctx key current_ts protect a ks :
  cleanup_post (new_with_ctx st (snap s) ctx) key (view e key) current_ts protect (Ok a) ks -> key_steps e key ks.
Proof using.
  intros H. unfold cleanup_post, cleanup_missing_post in H.
  assert ((exists c w raw, committed_at (kv_ver (view e key)) st c w /\ Ok a = Err (MCommitted st c raw) /\ ks = [])
    \/ (rolled_back (kv_ver (view e key)) st /\ (forall c w, ~ committed_at (kv_ver (view e key)) st c w)
        /\ Ok a = Ok (E := mvcc_error) None /\ ks = [])
    \/ (~ rolled_back (kv_ver (view e key)) st /\ (forall c w, kv_ver (view e key) !! c = Some w -> write_start_ts w <> st)
        /\ Ok a = Ok (E := mvcc_error) None /\ rolls_back (view e key) st protect ks) -> key_steps e key ks) as Hmiss.
  { intros [(c & w & raw & _ & _ & ->)|[(_ & _ & _ & ->)|(_ & _ & _ & Hr)]];
      [apply key_steps_nil..|by eapply rolls_back_steps]. }
  destruct (kv_lock (view e key)) as [l|] eqn:El; [|by apply Hmiss].
  destruct (lock_ts l =? _); [|by apply Hmiss].
  destruct (_ && _); [destruct H as [-> _]; apply key_steps_nil|].
  destruct H as (_ & Hr & _). by eapply rolls_back_steps.
Qed.

Lemma sim_commit cm ctx keys st c e' :
  agrees s e keys -> txn_ts st -> is_u64 c -> NoDup keys -> Forall user_key keys -> Forall (fresh_commit e st c) keys ->
  writes e (Commit cm (snap s) ctx keys st c) e' ->
  st < c /\ simulates e e' /\ exists b, b.*1 = keys /\ batch_view e e' b
    /\ Forall (fun '(k, ks) => exists a, commit_post (new_with_ctx st (snap s) ctx) (view e k) c (Ok a) ks) b.
Proof using Hinv.
  intros Hag Hst Hc Hnd Huk Hf Hw. unfold Commit in Hw. destruct (Z.leb_spec c st) as [|Hlt]; [by destruct Hw as (? & ? & _)|].
  rewrite Forall_forall in Huk, Hf. destruct Hinv as [He Hk].
  eapply (for_each_simulates _ _ _ _ (fun k => commit_post (new_with_ctx st (snap s) ctx) (view e k) c))
    in Hw as (b & Hb & Hq & Hsim & Hv); [by eauto 6|..].
  - done.
  - done.
  - by apply Forall_forall.
  - intros key Hin. apply (commit_spec (new_with_ctx st (snap s) ctx)); [by eapply sees_on; eauto|auto].
  - intros key a ks Hin H. eapply commit_key_steps; eauto.
  - intros rs t wr'. apply finish_write_modifies.
Qed.

Lemma sim_rollback cm ctx keys st e' :
  agrees s e keys -> txn_ts st -> NoDup keys -> Forall user_key keys -> Forall (fun k => lock_has_room (view e k)) keys ->
  writes e (Rollback cm (snap s) ctx keys st) e' ->
  simulates e e' /\ exists b, b.*1 = keys /\ batch_view e e' b
    /\ Forall (fun '(k, ks) => exists a, cleanup_post (new_with_ctx st (snap s) ctx) k (view e k) 0 false (Ok a) ks) b.
Proof using Hinv.
  intros Hag Hst Hnd Huk Hr Hw. rewrite Forall_forall in Huk, Hr. destruct Hinv as [He Hk].
  eapply (for_each_simulates _ _ _ _ (fun k => cleanup_post (new_with_ctx st (snap s) ctx) k (view e k) 0 false))
    in Hw as (b & Hb & Hq & Hsim & Hv); [by eauto 6|..].
  - done.
  - done.
  - by apply Forall_forall.
  - intros key Hin. apply (cleanup_spec (new_with_ctx st (snap s) ctx)); [by eapply sees_on; eauto|auto..].
  - intros key a ks Hin H. eapply cleanup_key_steps; eauto.
  - intros rs t wr'. apply finish_write_modifies.
Qed.

Lemma sim_cleanup env cm ctx key st current_ts e' :
  agrees s e [key] -> txn_ts st -> user_key key -> lock_has_room (view e key) ->
  writes e (Cleanup env cm (snap s) ctx key st current_ts) e' ->
  simulates e e' /\ exists a ks, batch_view e e' [(key, ks)]
    /\ cleanup_post (new_with_ctx st (snap s) ctx) key (view e key) current_ts true (Ok a) ks.
Proof using Hinv.
  intros Hag Hst Huk Hr (wr & Er & Ew). apply cmd_max_ts_ok in Er as [cm' Er]. destruct Hinv as [He Hk].
  eapply (body_simulates _ _ _ key _ (cleanup_post (new_with_ctx st (snap s) ctx) key (view e key) current_ts true))
    in Er as (a & ks & t & Hq & _ & Hsim & Hv); [by eauto 6|done|done|..|exact Ew].
  - apply (cleanup_spec (new_with_ctx st (snap s) ctx)); [by eapply sees_on; eauto using list_elem_of_here|auto..].
  - intros a ks H. eapply cleanup_key_steps; eauto.
  - intros rs t wr'. apply finish_write_modifies.
Qed.

(** What CheckTxnStatus does to the primary key. *)
Definition check_status_post (st caller_start_ts current_ts : TimeStamp) (ctx : Context) (key : Key)
    (rollback_if_not_exist force_sync resolving verify_primary : bool)
    (r : mres (TxnStatus * option ReleasedLock)) (ks : list kmod) : Prop :=
  let rd := new_with_ctx st (snap s) ctx in
  let missing := exists x : mres TxnStatus,
    missing_post rd (view e key) (mla_rollback rollback_if_not_exist) resolving x ks
    /\ r = (y ← x; Ok (y, None)) in
  match kv_lock (view e key) with
  | Some l =>
      if lock_ts l =? st then status_post rd key (view e key) l current_ts caller_start_ts force_sync verify_primary r ks
      else missing
  | None => missing
  end.

Lemma check_status_spec st ctx key caller_start_ts current_ts rollback_if_not_exist force_sync resolving verify_primary :
  agrees s e [key] -> txn_ts st -> user_key key -> is_u64 caller_start_ts -> is_u64 current_ts -> lock_has_room (view e key) ->
  emits st key
    (check_txn_status_body (new_with_ctx st (snap s) ctx) key st caller_start_ts current_ts rollback_if_not_exist
       force_sync resolving verify_primary)
    (check_status_post st caller_start_ts current_ts ctx key rollback_if_not_exist force_sync resolving verify_primary).
Proof using Hinv.
  intros Hag Hst Huk Hca Hcu Hr. unfold check_txn_status_body, check_status_post. set (rd := new_with_ctx _ _ _).
  assert (sees rd key (view e key)) as Hs by (eapply sees_on; [done|done|apply list_elem_of_here|done|done]). pose proof (proj2 Hinv key Huk) as I.
  eapply emits_lift_bind; [by apply sees_load_lock|].
  assert ((forall l, kv_lock (view e key) = Some l -> lock_ts l <> rd_start_ts rd) ->
    emits st key
      (x ← check_txn_status_missing_lock rd key (kv_lock (view e key)) (mla_rollback rollback_if_not_exist) resolving;
       mret (x, None : option ReleasedLock))
      (fun r ks => exists x, missing_post rd (view e key) (mla_rollback rollback_if_not_exist) resolving x ks
         /\ r = (y ← x; Ok (y, None)))) as Hmiss.
  { intros Hn. eapply emits_bind; [by apply (check_missing_lock_spec rd key (view e key) Hs I Hn)|..].
    - intros x ks Hp. apply emits_ret. rewrite app_nil_r. by exists (Ok x).
    - intros x ks Hp. by exists (Err x).
    - intros ks Hp. by exists Panic. }
  destruct (kv_lock (view e key)) as [l|] eqn:El; [|by apply Hmiss].
  destruct (Z.eqb_spec (lock_ts l) st) as [Hts|Hts]; [|apply Hmiss; intros l' [= <-]; exact Hts].
  by apply (check_lock_exists_spec rd key (view e key) l current_ts caller_start_ts Hs I).
Qed.

Lemma push_key_steps key l caller_start_ts r ks :
  kv_lock (view e key) = Some l -> push_post l caller_start_ts r ks -> key_steps e key ks.
Proof using.
  intros El (l' & pushed & _ & Hx & Hks & Hwf & _). split; [done|].
  destruct Hks as [[-> _]|[-> Hr]]; [done|]. apply rtc_once. eapply step_extend_lock; [done..|].
  rewrite Hr. by left.
Qed.

Lemma status_key_steps st caller_start_ts current_ts ctx key rollback_if_not_exist force_sync resolving verify_primary r ks :
  check_status_post st caller_start_ts current_ts ctx key rollback_if_not_exist force_sync resolving verify_primary r ks ->
  key_steps e key ks.
Proof using.
  unfold check_status_post.
  assert (forall x, missing_post (new_with_ctx st (snap s) ctx) (view e key) (mla_rollback rollback_if_not_exist) resolving x ks ->
    key_steps e key ks) as Hmiss.
  { intros x [(c & w & _ & _ & ->)|[(_ & _ & _ & ->)|(_ & _ & H)]]; [apply key_steps_nil..|].
    destruct (mla_rollback _); [destruct resolving|destruct resolving|].
    1, 3: destruct H as [_ ->]; apply key_steps_nil.
    1, 2: destruct H as [_ H]; by eapply rolls_back_steps.
    destruct H as [-> _]. apply key_steps_nil. }
  destruct (kv_lock (view e key)) as [l|] eqn:El; [|by intros (x & ? & _); eapply Hmiss].
  destruct (lock_ts l =? st); [|by intros (x & ? & _); eapply Hmiss].
  unfold status_post. intros H. destruct (_ && _); [destruct H as [-> _]; apply key_steps_nil|].
  destruct (_ && _); [destruct H as [-> _]; apply key_steps_nil|].
  destruct (lock_expired _ _); [destruct H as (_ & H & _); by eapply rolls_back_steps|]. by eapply push_key_steps.
Qed.

Lemma sim_check_txn_status env cm ctx key st caller_start_ts current_ts rollback_if_not_exist force_sync resolving
    verify_primary wr e' :
  agrees s e [key] -> txn_ts st -> user_key key -> is_u64 caller_start_ts -> is_u64 current_ts -> lock_has_room (view e key) ->
  CheckTxnStatus env cm (snap s) ctx key st caller_start_ts current_ts rollback_if_not_exist
    force_sync resolving verify_primary = Ok wr ->
  write_modifies (E := kv_error) e (wr_modifies wr) = Ok e' ->
  simulates e e' /\ exists released ks, batch_view e e' [(key, ks)]
    /\ check_status_post st caller_start_ts current_ts ctx key rollback_if_not_exist force_sync resolving verify_primary
         (Ok (wr_pr wr, released)) ks.
Proof using Hinv.
  intros Hag Hst Huk Hca Hcu Hr Er Ew. apply cmd_max_ts_ok in Er as [cm' Er].
  eapply (body_simulates _ _ _ key _ _ _ _ _ Hinv Huk) in Er as ([x rel] & ks & t & Hq & Ek & Hsim & Hv);
    [|by apply check_status_spec|..|exact Ew].
  { split; [done|]. exists rel, ks. split; [done|]. cbn in Ek. unfold finish_write, into_modifies, rassert in Ek.
    case_bool_decide; [|done]. by injection Ek as <-. }
  - intros a ks. apply status_key_steps.
  - intros [x rel] t wr'. apply finish_write_modifies.
Qed.

(** A heart beat only extends the lock. *)
Lemma heart_beat_extends l advise_ttl min_commit_ts l' updated :
  lock_wf l -> is_u64 advise_ttl -> is_u64 min_commit_ts -> heart_beat_lock l advise_ttl min_commit_ts = (l', updated) ->
  lock_wf l' /\ lock_use_one_pc l' = lock_use_one_pc l /\ lock_extends l l' /\ lock_rollback_ts l' = lock_rollback_ts l
  /\ lock_ttl l <= lock_ttl l' /\ (updated = false -> l' = l).
Proof using.
  intros (?&?&?&?&?&?&?&?&?&?&?&?&?&?&?) Ha Hm. unfold heart_beat_lock, lock_wf, lock_extends.
  destruct (Z.ltb_spec (lock_ttl l) advise_ttl); destruct (_ && _) eqn:E; intros [= <- <-];
    try (apply andb_true_iff in E as [_ E%Z.ltb_lt]); cbn in E |- *; split_and!; (done || lia || reflexivity).
Qed.

Definition heart_beat_post (st : TimeStamp) (key : Key) (advise_ttl : Z) (r : mres Lock) (ks : list kmod) : Prop :=
  key_steps e key ks
  /\ match kv_lock (view e key) with
     | Some l =>
         if lock_ts l =? st then
           exists l', r = Ok l' /\ lock_extends l l' /\ Z.max (lock_ttl l) advise_ttl <= lock_ttl l'
             /\ kv_lock (kapplies (view e key) ks) = Some l' /\ (ks = [] \/ ks = [KPutLock l'])
         else ks = [] /\ exists raw, r = Err (MTxnNotFound st raw)
     | None => ks = [] /\ exists raw, r = Err (MTxnNotFound st raw)
     end.

Lemma heart_beat_ttl l advise_ttl min_commit_ts :
  advise_ttl <= lock_ttl (heart_beat_lock l advise_ttl min_commit_ts).1.
Proof using.
  unfold heart_beat_lock. destruct (Z.ltb_spec (lock_ttl l) advise_ttl); destruct (_ && _); cbn; lia.
Qed.

Lemma heart_beat_spec st ctx key advise_ttl min_commit_ts :
  agrees s e [key] -> txn_ts st -> user_key key -> is_u64 advise_ttl -> is_u64 min_commit_ts ->
  emits st key (heart_beat_body (new_with_ctx st (snap s) ctx) key st advise_ttl min_commit_ts)
    (heart_beat_post st key advise_ttl).
Proof using Hinv.
  intros Hag Hst Huk Ha Hm. unfold heart_beat_body, heart_beat_post. set (rd := new_with_ctx _ _ _).
  assert (sees rd key (view e key)) as Hs by (eapply sees_on; [done|done|apply list_elem_of_here|done|done]).
  eapply emits_lift_bind; [by apply sees_load_lock|].
  assert (emits st key (raw ← into_raw_m key; fail (MTxnNotFound st raw))
    (fun r ks => key_steps e key ks /\ ks = [] /\ exists raw, r = Err (A := Lock) (MTxnNotFound st raw))) as Hmiss.
  { apply emits_into_raw; [done|]. intros raw. apply emits_fail. split; [apply key_steps_nil|]. eauto. }
  destruct (kv_lock (view e key)) as [l|] eqn:El; [|by apply Hmiss].
  destruct (Z.eqb_spec (lock_ts l) st) as [Hts|Hts]; [|by apply Hmiss].
  destruct (sees_lock_wf rd key _ Hs l El) as [Hwf H1].
  pose proof (heart_beat_ttl l advise_ttl min_commit_ts) as Hadv.
  destruct (heart_beat_lock l advise_ttl min_commit_ts) as [l' updated] eqn:Eh.
  destruct (heart_beat_extends _ _ _ _ _ Hwf Ha Hm Eh) as (Hwf' & H1' & Hx & Hr & Httl & Hu). cbn [fst] in Hadv.
  destruct updated.
  - eapply emits_seq; [apply emits_put_lock|]. apply emits_ret. cbn [app]. split; [split|].
    + apply Forall_singleton. split; [done|by rewrite H1'].
    + apply rtc_once. eapply step_extend_lock; [done..|]. rewrite Hr. by left.
    + exists l'. split_and!; (done || lia || by right).
  - rewrite (Hu eq_refl) in *. eapply (emits_seq _ _ _ _ tt []); [by apply emits_ret|]. apply emits_ret. cbn [app].
    split; [apply key_steps_nil|]. exists l. split_and!; (done || lia || by left).
Qed.

Lemma sim_heart_beat cm ctx key st advise_ttl min_commit_ts e' :
  agrees s e [key] -> txn_ts st -> user_key key -> is_u64 advise_ttl -> is_u64 min_commit_ts ->
  writes e (TxnHeartBeat cm (snap s) ctx key st advise_ttl min_commit_ts) e' ->
  simulates e e' /\ exists ks, batch_view e e' [(key, ks)].
Proof using Hinv.
  intros Hag Hst Huk Ha Hm (wr & Er & Ew).
  eapply (body_simulates _ _ _ key _ _ _ _ _ Hinv Huk) in Er as (a & ks & t & Hq & _ & Hsim & Hv);
    [by eauto|by apply heart_beat_spec|..|exact Ew].
  - intros a ks [? _]. done.
  - intros x t wr'. apply finish_write_modifies.
Qed.

Lemma sim_resolve_lite cm ctx keys st c e' :
  agrees s e keys -> txn_ts st -> is_u64 c -> c = 0 \/ st < c -> NoDup keys -> Forall user_key keys ->
  Forall (fresh_commit e st c) keys -> Forall (fun k => lock_has_room (view e k)) keys ->
  writes e (ResolveLockLite cm (snap s) ctx st c keys) e' ->
  simulates e e' /\ exists b, b.*1 = keys /\ batch_view e e' b.
Proof using Hinv.
  intros Hag Hst Hc Hlt Hnd Huk Hf Hr Hw. rewrite Forall_forall in Huk, Hf, Hr. destruct Hinv as [He Hk].
  set (rd := new_with_ctx st (snap s) ctx).
  eapply (for_each_simulates _ _ _ _ (fun k r ks => if ts_is_zero c then cleanup_post rd k (view e k) 0 false r ks
                                                   else commit_post rd (view e k) c r ks))
    in Hw as (b & Hb & Hq & Hsim & Hv); [by eauto|done|done|by apply Forall_forall|..].
  - intros key Hin. destruct (ts_is_zero c); cbn [negb].
    + apply (cleanup_spec rd); [by eapply sees_on; eauto|auto..].
    + apply (commit_spec rd); [by eapply sees_on; eauto|auto].
  - intros key a ks Hin H. unfold ts_is_zero in H. destruct (Z.eqb_spec c 0).
    + eapply cleanup_key_steps; eauto.
    + eapply commit_key_steps; eauto; lia.
  - intros rs t wr'. apply finish_write_modifies.
Qed.

(** A prewrite's modifications, key by key. *)
Lemma sim_prewrite env cm last_change synced incomplete need_old async_apply committed c w cm' e' :
  agrees s e (prewrite_keys c) -> txn_ts (pwc_start_ts c) -> prewrite_request_wf c -> NoDup (prewrite_keys c) ->
  Forall user_key (prewrite_keys c) ->
  prewrite_process_write env last_change cm (snap s) synced incomplete need_old async_apply committed c = (Ok w, cm') ->
  write_modifies (E := kv_error) e (wr_modifies (pww_result w)) = Ok e' ->
  simulates e e' /\ exists tr,
    prewrite_outcome (new_with_ctx (pwc_start_ts c) (snap s) (pc_ctx (pwc_ctx c))) (view e) (pwc_mutations c)
      (wr_pr (pww_result w)) tr
    /\ forall k, user_key k -> view e' k = kapplies (view e k) (of_key k tr).
Proof using Hinv.
  intros Hag Hst Hreq Hnd Huk Er Ew. pose proof Hinv as [He Hk]. rewrite Forall_forall in Huk.
  eapply (prewrite_command_spec _ _ _ _ _ _ _ _ _ _ _ _ (view e)) in Er as (tr & Etr & Hout); [|done..|].
  2:{ intros k Hin. split; [by eapply sees_on; eauto|by apply Hk, Huk]. }
  pose proof (fun k => prewrite_outcome_steps _ _ _ _ _ k Hout) as Hsteps. rewrite Etr in Ew.
  destruct (write_trace e tr He) as (e2 & E2 & He2 & Hv).
  { apply Forall_forall. intros [k m] Hin%elem_of_of_key. destruct (Hsteps k) as [Hwf _]. rewrite Forall_forall in Hwf.
    split; [|by apply Hwf]. apply Huk. destruct (decide (k ∈ prewrite_keys c)) as [|Hn]; [done|exfalso].
    destruct Hout as [Hno _]. rewrite Hno in Hin by done. by apply elem_of_nil in Hin. }
  assert (e2 = e') as -> by congruence. split; [|by exists tr]. split; [done|]. intros k Hku. rewrite Hv by done. apply Hsteps.
Qed.
End Simulation.

(** ** Reachable engines *)

(** A command makes its keys take steps and leaves the others. *)
Lemma sys_step_on_simulates s e keys e' :
  sys_inv e -> agrees s e keys -> sys_step_on s e keys e' ->
  simulates e e' /\ exists b, b.*1 = keys /\ batch_view e e' b.
Proof.
  intros Hinv Hag H. destruct H.
  - destruct (sim_prewrite s e Hinv env cm last_change synced incomplete need_old async_apply committed c w cm' e')
      as (? & tr & [Hno _] & Hv); try done.
    split; [done|]. exists (map (fun k => (k, of_key k tr)) (prewrite_keys c)).
    assert ((map (fun k => (k, of_key k tr)) (prewrite_keys c)).*1 = prewrite_keys c) as E
      by (rewrite <- list_fmap_compose; apply list_fmap_id). rewrite E. split; [done|]. split.
    + intros k ks (k' & [= -> ->] & Hk)%list_elem_of_fmap. apply Hv. rewrite Forall_forall in H2. by apply H2.
    + intros k Hk Hn. rewrite E in Hn. by rewrite Hv, (Hno k Hn).
  - destruct (sim_commit s e Hinv cm ctx keys st c e') as (_ & ? & b & ? & ? & _); eauto.
  - destruct (sim_rollback s e Hinv cm ctx keys st e') as (? & b & ? & ? & _); eauto.
  - destruct (sim_cleanup s e Hinv env cm ctx key st current_ts e') as (? & a & ks & ? & _); try done.
    split; [done|]. by exists [(key, ks)].
  - destruct H4 as (wr & Er & Ew). eapply sim_check_txn_status in Er as (? & rel & ks & ? & _); try done.
    split; [done|]. by exists [(key, ks)].
  - destruct (sim_heart_beat s e Hinv cm ctx key st advise_ttl min_commit_ts e') as (? & ks & ?); try done.
    split; [done|]. by exists [(key, ks)].
  - destruct (sim_resolve_lite s e Hinv cm ctx keys st c e') as (? & b & ? & ?); eauto.
Qed.

Lemma sys_step_simulates e e' : sys_inv e -> sys_step e e' -> simulates e e'.
Proof. intros Hinv (s & keys & Hag & H). by eapply sys_step_on_simulates in H as [? _]. Qed.

Lemma simulates_inv e e' : sys_inv e -> simulates e e' -> sys_inv e'.
Proof. intros [_ Hi] [Hwf Hs]. split; [done|]. intros key Hk. eapply ksteps_inv; [by apply Hi|by apply Hs]. Qed.

#[global] Instance simulates_trans : Transitive simulates.
Proof. intros e1 e2 e3 [_ H1] [Hwf H2]. split; [done|]. intros key Hk. etrans; [by apply H1|by apply H2]. Qed.

Lemma sys_steps_simulate e e' : sys_inv e -> rtc sys_step e e' -> sys_inv e' /\ simulates e e'.
Proof.
  intros Hinv H. induction H as [e|e1 e2 e3 Hs _ IH].
  { split; [done|]. split; [apply Hinv|done]. }
  pose proof (sys_step_simulates _ _ Hinv Hs) as H12. destruct (IH (simulates_inv _ _ Hinv H12)) as [H3 H23].
  split; [done|]. by etrans.
Qed.

Definition empty_engine : Engine := mk_engine ∅ ∅ ∅.

Lemma sys_inv_empty : sys_inv empty_engine.
Proof.
  assert (forall k v, (∅ : cf) !! k = Some v -> False) as Hn by (intros k v; by rewrite lookup_empty).
  split; [split_and!; intros k v E; by destruct (Hn k v)|]. intros key _.
  change (view empty_engine key) with (mk_kv None ∅ ∅).
  constructor; cbn [kv_lock kv_ver kv_val]; try done; intros *; by rewrite lookup_empty.
Qed.
