(* ===== verification/Demo.v ===== *)
(** * Runs of the commands

    Small engines that commands reach, computed: two transactions that commit
    one key after the other, and a third that is rolled back. *)
From S2P Require Import Prelude Number Bytes Timestamp Key Fields Lock Write OrderedMap PeerLocks Engine.
From S2P Require Import ConcurrencyManager Reader Versions MvccTxn CheckTxnStatus Prewrite Commands PrewriteCommand.
From S2P Require Import KeyView Protocol ActionSpec ReadSpec PrewriteSpec PrewriteCommandSpec System.

Definition raw_k : bytes := [Byte.x6b].
Definition k : Key := key_from_raw raw_k.
Definition cm0 : ConcurrencyManager := cm_new_with_config 1 0 1000 ActError 0.
Definition ctx0 : Context := mk_context 0 0 false.
Definition env0 : CmEnv := mk_env 0 None.

Definition pctx0 : PrewriteCtx := mk_prewrite_ctx ctx0 1 false 0.

Definition put_cmd (st : TimeStamp) (v : Value) : Prewrite :=
  mk_prewrite_cmd [MutPut k v AssertNone] raw_k st 100 false 1 0 0 None false ALOff pctx0.

Definition run_prewrite (e : Engine) (st : TimeStamp) (v : Value) : cres PrewriteWrite * ConcurrencyManager :=
  prewrite_process_write env0 false cm0 (snap e) true false false false (fun _ => None) (put_cmd st v).

Definition run_commit (e : Engine) (st c : TimeStamp) : cres (WriteResult TxnStatus) :=
  Commit cm0 (snap e) ctx0 [k] st c.

Definition run_status (e : Engine) (st current_ts : TimeStamp) : cres (WriteResult TxnStatus) :=
  CheckTxnStatus env0 cm0 (snap e) ctx0 k st 1 current_ts true false false true.

Definition apply_to (e : Engine) (ms : list Modify) : Engine :=
  match write_modifies (E := kv_error) e ms with Ok e' => e' | _ => e end.

Definition modifies_of {A} (r : cres (WriteResult A)) : list Modify :=
  match r with Ok wr => wr_modifies wr | _ => [] end.

Definition prewritten (r : cres PrewriteWrite * ConcurrencyManager) : list Modify :=
  match r.1 with Ok w => wr_modifies (pww_result w) | _ => [] end.

(** Prewritten at 5, committed at 7; prewritten at 10, committed at 12;
    prewritten at 20, rolled back by a status check after its expiry. *)
Definition e1 : Engine := apply_to empty_engine (prewritten (run_prewrite empty_engine 5 [Byte.x61])).
Definition e2 : Engine := apply_to e1 (modifies_of (run_commit e1 5 7)).
Definition e3 : Engine := apply_to e2 (prewritten (run_prewrite e2 10 [Byte.x62])).
Definition e4 : Engine := apply_to e3 (modifies_of (run_commit e3 10 12)).
Definition e5 : Engine := apply_to e4 (prewritten (run_prewrite e4 20 [Byte.x63])).
Definition e6 : Engine := apply_to e5 (modifies_of (run_status e5 20 (2 ^ 40))).

Lemma k_user : user_key k.
Proof. by exists raw_k. Qed.

Lemma put_cmd_wf st v : prewrite_request_wf (put_cmd st v).
Proof. split; [|done]. split; done. Qed.

Lemma prewritten_on e st v e' :
  txn_ts st -> (exists w, (run_prewrite e st v).1 = Ok w) ->
  write_modifies (E := kv_error) e (prewritten (run_prewrite e st v)) = Ok e' -> sys_step_on e e [k] e'.
Proof.
  intros Hst [w Hw] Hm. unfold prewritten in Hm. rewrite Hw in Hm.
  destruct (run_prewrite e st v) as [r cm'] eqn:E. cbn in Hw. subst r.
  apply (sys_prewrite e e e' env0 cm0 false true false false false (fun _ => None) (put_cmd st v) w cm');
    [done|apply put_cmd_wf|apply NoDup_singleton|apply Forall_singleton, k_user|exact E|exact Hm].
Qed.

Lemma step_prewritten e st v e' :
  txn_ts st -> (exists w, (run_prewrite e st v).1 = Ok w) ->
  write_modifies (E := kv_error) e (prewritten (run_prewrite e st v)) = Ok e' -> sys_step e e'.
Proof. intros ? ? ?. exists e, [k]. split; [apply agrees_refl|]. by eapply prewritten_on. Qed.

Lemma step_committed e st c e' wr :
  txn_ts st -> is_u64 c -> kv_ver (view e k) !! c = None -> run_commit e st c = Ok wr ->
  write_modifies (E := kv_error) e (wr_modifies wr) = Ok e' -> sys_step e e'.
Proof.
  intros Hst Hc Hf Er Ew. exists e, [k]. split; [apply agrees_refl|].
  apply (sys_commit e e e' cm0 ctx0 [k] st c); [done|done|apply NoDup_singleton|..].
  - apply Forall_singleton, k_user.
  - apply Forall_singleton. by intros l _ _ _.
  - by exists wr.
Qed.

Lemma e1_on : sys_step_on empty_engine empty_engine [k] e1.
Proof. apply (prewritten_on _ 5 [Byte.x61]); [done|eexists; vm_compute; reflexivity|vm_compute; reflexivity]. Qed.
Lemma e1_step : sys_step empty_engine e1.
Proof. exists empty_engine, [k]. split; [apply agrees_refl|exact e1_on]. Qed.
Lemma e2_step : sys_step e1 e2.
Proof. eapply (step_committed _ 5 7); [done..|vm_compute; reflexivity|vm_compute; reflexivity|vm_compute; reflexivity]. Qed.
Lemma e3_step : sys_step e2 e3.
Proof. apply (step_prewritten _ 10 [Byte.x62]); [done|eexists; vm_compute; reflexivity|vm_compute; reflexivity]. Qed.
Lemma e4_step : sys_step e3 e4.
Proof. eapply (step_committed _ 10 12); [done..|vm_compute; reflexivity|vm_compute; reflexivity|vm_compute; reflexivity]. Qed.
Lemma e5_step : sys_step e4 e5.
Proof. apply (step_prewritten _ 20 [Byte.x63]); [done|eexists; vm_compute; reflexivity|vm_compute; reflexivity]. Qed.

Lemma room_of_empty e :
  match kv_lock (view e k) with Some l => bool_decide (lock_rollback_ts l = []) | None => true end = true ->
  lock_has_room (view e k).
Proof. intros H l Hl. rewrite Hl in H. apply bool_decide_eq_true in H as ->. done. Qed.

Lemma e6_step : sys_step e5 e6.
Proof.
  exists e5, [k]. split; [apply agrees_refl|].
  eapply (sys_check_txn_status e5 e5 e6 env0 cm0 ctx0 k 20 1 (2 ^ 40) true false false true);
    [done|exact k_user|done..| |eexists; split; [vm_compute; reflexivity|vm_compute; reflexivity]].
  apply room_of_empty. vm_compute. reflexivity.
Qed.

Lemma e2_steps : rtc sys_step empty_engine e2.
Proof. eapply rtc_l; [exact e1_step|]. apply rtc_once, e2_step. Qed.
Lemma e4_steps : rtc sys_step e2 e4.
Proof. eapply rtc_l; [exact e3_step|]. apply rtc_once, e4_step. Qed.
Lemma e6_steps : rtc sys_step e4 e6.
Proof. eapply rtc_l; [exact e5_step|]. apply rtc_once, e6_step. Qed.

(** The records of the first two transactions. *)
Definition rec1 : Write := mk_write WTPut 5 (Some [Byte.x61]) false None LCUnknown 0.
Definition rec2 : Write := mk_write WTPut 10 (Some [Byte.x62]) false None LCUnknown 0.

Lemma e2_rec1 : committed_at (kv_ver (view e2 k)) 5 7 rec1.
Proof. split_and!; vm_compute; reflexivity. Qed.
Lemma e4_rec1 : committed_at (kv_ver (view e4 k)) 5 7 rec1.
Proof. split_and!; vm_compute; reflexivity. Qed.
Lemma e4_rec2 : committed_at (kv_ver (view e4 k)) 10 12 rec2.
Proof. split_and!; vm_compute; reflexivity. Qed.

Lemma e4_versions c w :
  kv_ver (view e4 k) !! c = Some w -> (c = 7 /\ w = rec1) \/ (c = 12 /\ w = rec2).
Proof.
  intros H%elem_of_map_to_list. revert H.
  assert (map_to_list (kv_ver (view e4 k)) = [(7, rec1); (12, rec2)]) as -> by (vm_compute; reflexivity).
  intros [[= -> ->]|[[= -> ->]|[]%elem_of_nil]%elem_of_cons]%elem_of_cons; auto.
Qed.

(** The status check that rolls the third transaction back. *)
Lemma e6_status : exists wr,
  CheckTxnStatus env0 cm0 (snap e5) ctx0 k 20 1 (2 ^ 40) true false false true = Ok wr
  /\ wr_pr wr = TSTtlExpire /\ write_modifies (E := kv_error) e5 (wr_modifies wr) = Ok e6.
Proof. eexists. split; [vm_compute; reflexivity|]. split; [vm_compute; reflexivity|vm_compute; reflexivity]. Qed.

Lemma e4_writes : writes e3 (Commit cm0 (snap e3) ctx0 [k] 10 12) e4.
Proof. eexists. split; [vm_compute; reflexivity|vm_compute; reflexivity]. Qed.

Lemma e3_fresh : Forall (fresh_commit e3 10 12) [k].
Proof. apply Forall_singleton. intros l _ _ _. vm_compute. reflexivity. Qed.

Lemma e4_room : lock_has_room (view e4 k).
Proof. apply room_of_empty. vm_compute. reflexivity. Qed.
Lemma e5_room : lock_has_room (view e5 k).
Proof. apply room_of_empty. vm_compute. reflexivity. Qed.
