(* ===== verification/Safety.v ===== *)
(** * What the commands guarantee

    The guarantees of the transaction layer on the engines its commands can
    reach: isolation of writers, finality of commits and of protected
    rollbacks, atomicity of a commit request, and what reads return. *)
From S2P Require Import Prelude Number Bytes Timestamp Key Fields Lock Write OrderedMap PeerLocks Engine.
From S2P Require Import ConcurrencyManager Reader Versions MvccTxn CheckTxnStatus Prewrite Commands.
From S2P Require Import KeyView Protocol ActionSpec ReadSpec PrewriteSpec System Demo.

(** The engines that the commands of [sys_step] lead to, one at a time. Those
    are the commands of optimistic transactions: no pessimistic lock is ever
    taken on such an engine. *)
Definition reachable (e : Engine) : Prop := rtc sys_step empty_engine e.

Lemma reachable_inv e : reachable e -> sys_inv e.
Proof. intros H. by apply (sys_steps_simulate empty_engine e sys_inv_empty). Qed.

Lemma reachable_trans e e' : reachable e -> rtc sys_step e e' -> reachable e'.
Proof. intros H1 H2. unfold reachable in *. by etrans. Qed.

Lemma reachable_later e e' key :
  reachable e -> rtc sys_step e e' -> user_key key -> rtc kstep (view e key) (view e' key).
Proof. intros H1 H2 Hk. apply (sys_steps_simulate e e' (reachable_inv e H1) H2). done. Qed.

(** ** Stability on the machine *)

Lemma ksteps_committed a a' st c w :
  kinv a -> rtc kstep a a' -> committed_at (kv_ver a) st c w ->
  exists w', committed_at (kv_ver a') st c w' /\ same_record w w'.
Proof.
  intros I H. revert w. induction H as [a|a1 a2 a3 Hs _ IH]; intros w Hc.
  { exists w. split; [done|reflexivity]. }
  destruct (kstep_committed _ _ _ _ _ I Hs Hc) as (w1 & Hc1 & Hr1).
  destruct (IH (kstep_inv _ _ I Hs) w1 Hc1) as (w2 & Hc2 & Hr2). exists w2. split; [done|]. by etrans.
Qed.

Lemma ksteps_sticky a a' st :
  kinv a -> rtc kstep a a' -> sticky_rolled_back (kv_ver a) st -> sticky_rolled_back (kv_ver a') st.
Proof. intros I H. induction H as [|a1 a2 a3 Hs _ IH]; eauto using kstep_inv, kstep_sticky. Qed.

Lemma sticky_rolls_back V st : sticky_rolled_back V st -> rolled_back V st.
Proof.
  intros (w & Hw & Hs). exists w. split; [done|]. unfold says_sticky_rollback, says_rollback in *.
  apply orb_true_iff in Hs as [Hp| ->]; [|apply orb_true_r].
  unfold write_is_protected in Hp. apply andb_true_iff in Hp as [Hp _]. unfold is_rollback. by rewrite Hp.
Qed.

(** A transaction with a record holds no lock. *)
Lemma decided_unlocked a st c w l :
  kinv a -> committed_at (kv_ver a) st c w -> kv_lock a = Some l -> lock_ts l <> st.
Proof. intros I (Hw & _ & <-) Hl E. by eapply (inv_lock_undecided a I l c w). Qed.

Lemma sticky_unlocked a st l :
  kinv a -> sticky_rolled_back (kv_ver a) st -> kv_lock a = Some l -> lock_ts l <> st.
Proof.
  intros I (w & Hw & Hs) Hl E. subst st. unfold says_sticky_rollback in Hs. apply orb_true_iff in Hs as [Hp|Ho].
  - assert (is_rollback w = true) as Hr by (unfold write_is_protected in Hp; by apply andb_true_iff in Hp as [? _]).
    destruct (inv_rollback a I _ w Hw Hr) as [E _]. by eapply (inv_lock_undecided a I l _ w).
  - by rewrite (inv_lock_overlap a I l w Hl Hw) in Ho.
Qed.

Lemma committed_unique a st c w c' w' :
  kinv a -> committed_at (kv_ver a) st c w -> committed_at (kv_ver a) st c' w' -> c' = c /\ w' = w.
Proof.
  intros I (Hw & _ & E) (Hw' & _ & E'). assert (c' = c) as -> by (eapply (inv_unique a I); eauto; congruence).
  split; congruence.
Qed.

(** Running an action described by what it emits. *)
Lemma emits_run {A} st key (m : M A) Q cm : emits st key m Q ->
  exists ks, Q (m (txn_new st cm)).1 ks /\ txn_modifies (m (txn_new st cm)).2 = map (concrete key) ks.
Proof. intros H. destruct (H (txn_new st cm) eq_refl) as (r & t & ks & E & Hm & _ & _ & HQ). rewrite E. eauto. Qed.

(** ** Commands on a decided transaction *)

Section Decided.
  Context (e : Engine) (key : Key) (st : TimeStamp) (ctx : Context) (cm : ConcurrencyManager).
  Hypothesis Hinv : sys_inv e.
  Hypothesis Hk : user_key key.
  Hypothesis Hst : txn_ts st.
Let rd := new_with_ctx st (snap e) ctx.
Let a := view e key.
Let I : kinv a := proj2 Hinv key Hk.
Let Hsee : sees rd key a := sees_snap e st ctx key Hinv Hst Hk.
  Hypothesis Hfree : forall l, kv_lock a = Some l -> lock_ts l <> st.

Lemma commit_unlocked c :
  commit_missing_post rd a c (commit rd key c (txn_new st cm)).1 /\ txn_modifies (commit rd key c (txn_new st cm)).2 = [].
Proof using All.
  destruct (emits_run _ _ _ _ cm (commit_spec rd key a c Hsee I)) as (ks & H & Hm). unfold commit_post in H.
  destruct (kv_lock a) as [l|] eqn:El; [|by destruct H as [-> H]].
  cbn [rd_start_ts rd new_with_ctx] in H. destruct (Z.eqb_spec (lock_ts l) st) as [E|_]; [|by destruct H as [-> H]].
  by destruct (Hfree l eq_refl).
Qed.

Lemma cleanup_unlocked current_ts protect :
  lock_has_room a -> exists ks,
  cleanup_missing_post rd a protect (cleanup rd key current_ts protect (txn_new st cm)).1 ks
  /\ txn_modifies (cleanup rd key current_ts protect (txn_new st cm)).2 = map (concrete key) ks.
Proof using All.
  intros Hroom.
  destruct (emits_run _ _ _ _ cm (cleanup_spec rd key a current_ts protect Hsee I Hroom)) as (ks & H & Hm).
  unfold cleanup_post in H. exists ks. destruct (kv_lock a) as [l|] eqn:El; [|done].
  cbn [rd_start_ts rd new_with_ctx] in H. destruct (Z.eqb_spec (lock_ts l) st) as [E|_]; [|done].
  by destruct (Hfree l eq_refl).
Qed.

Lemma status_unlocked caller_start_ts current_ts rollback force resolving verify :
  lock_has_room a -> is_u64 caller_start_ts -> is_u64 current_ts -> exists s ks,
  missing_post rd a (mla_rollback rollback) resolving s ks
  /\ (check_txn_status_body rd key st caller_start_ts current_ts rollback force resolving verify (txn_new st cm)).1
     = (x ← s; Ok (x, None))
  /\ txn_modifies (check_txn_status_body rd key st caller_start_ts current_ts rollback force resolving verify (txn_new st cm)).2
     = map (concrete key) ks.
Proof using All.
  intros Hroom Hca Hcu.
  destruct (emits_run _ _ _ _ cm (check_status_spec e e Hinv st ctx key caller_start_ts current_ts rollback force
    resolving verify (agrees_refl e [key]) Hst Hk Hca Hcu Hroom)) as (ks & H & Hm). unfold check_status_post in H. fold rd a in H.
  destruct (kv_lock a) as [l|] eqn:El; [|destruct H as (s & ? & ?); by exists s, ks].
  destruct (Z.eqb_spec (lock_ts l) st) as [E|_]; [by destruct (Hfree l eq_refl)|].
  destruct H as (s & ? & ?). by exists s, ks.
Qed.
End Decided.

(** An action has the result and adds nothing to be written. *)
Definition answers {A} (x : mres A * MvccTxn) (r : mres A) : Prop := x.1 = r /\ txn_modifies x.2 = [].

(** ** The commands implement the protocol *)







(** ** Rollbacks *)

(** A status check of the primary key that ends in a rollback leaves a record
    of it that is never removed. *)
Lemma status_rollback_sticky e st caller_start_ts current_ts ctx key force r released ks :
  check_status_post e e st caller_start_ts current_ts ctx key true force false true (Ok (r, released)) ks ->
  r = TSTtlExpire \/ r = TSLockNotExist -> sticky_rolled_back (kv_ver (kapplies (view e key) ks)) st.
Proof.
  intros H Hr. unfold check_status_post in H.
  assert (forall s, missing_post (new_with_ctx st (snap e) ctx) (view e key) (mla_rollback true) false s ks ->
    Ok (r, released) = (x ← s; Ok (x, None)) -> sticky_rolled_back (kv_ver (kapplies (view e key) ks)) st) as Hmiss.
  { intros s [(c & w & _ & -> & _)|[(_ & _ & -> & _)|(_ & _ & Hm)]] E.
    1, 2: injection E as -> _; by destruct Hr.
    destruct Hm as [_ (_ & _ & Hs & _)]. by apply Hs. }
  destruct (kv_lock (view e key)) as [l|] eqn:El; [|by destruct H as (s & ? & ?); eapply Hmiss].
  destruct (lock_ts l =? st); [|by destruct H as (s & ? & ?); eapply Hmiss].
  unfold status_post in H. cbn [andb] in H.
  destruct (key_is_encoded_from key (lock_primary l)) eqn:Ep; cbn [negb] in H; [|by destruct H as (_ & ? & ?)].
  destruct (_ && _); [destruct H as [_ [= -> _]]; by destruct Hr|].
  destruct (lock_expired l current_ts).
  - destruct H as (_ & (_ & _ & Hs & _) & _). apply Hs. unfold lock_protected. by rewrite Ep.
  - destruct H as (l' & pushed & [= -> _] & _). by destruct Hr.
Qed.

(** A transaction whose rollback is recorded for good can neither lock nor
    commit the key. *)
Lemma sticky_refuses e key st ctx cm :
  sys_inv e -> user_key key -> txn_ts st -> sticky_rolled_back (kv_ver (view e key)) st ->
  let rd := new_with_ctx st (snap e) ctx in
  (forall c, exists raw, (commit rd key c (txn_new st cm)).1 = Err (MTxnLockNotFound st c raw))
  /\ forall env last_change props mutation secondary action expected x,
       tp_start_ts props = st -> mutation_key mutation = key -> should_not_write mutation = false ->
       tp_kind props = Optimistic false -> request_wf props secondary -> action <> DoPessimisticCheck ->
       (prewrite env last_change rd props mutation secondary action expected (txn_new st cm)).1 <> Ok x.
Proof.
  intros Hinv Hk Hst Hs rd. pose proof (proj2 Hinv key Hk) as I. split.
  - intros c. destruct (commit_unlocked e key st ctx cm Hinv Hk Hst) with (c := c) as [[(c' & w & Hc & _)|[_ H]] _]; [|by eapply sticky_not_committed in Hc|done].
    intros l Hl. by eapply sticky_unlocked.
  - intros env last_change props mutation secondary action expected x Est Ekey Hw Hkind Hreq Hact E.
    destruct (prewrite_spec rd key (view e key) (sees_snap e st ctx key Hinv Hst Hk) I env last_change props mutation
      secondary action expected Ekey) with (t := txn_new st cm) as (r & t & ks & ps & Er & _ & _ & _ & Hpost); try done.
    { by exists false. }
    rewrite Er in E. cbn in E. subst r. destruct x as [ts ov].
    destruct Hpost as [_ [(_ & _ & [(l & Hl & Hts & _)|Hn])|(_ & [_ Hr] & _ & _)]].
    + by eapply sticky_unlocked.
    + congruence.
    + by apply Hr, sticky_rolls_back.
Qed.



(** ** Commit requests *)

(** What a key is after a commit of it succeeded. *)
Lemma commit_post_committed e st ctx c key a ks :
  sys_inv e -> user_key key -> txn_ts st ->
  commit_post (new_with_ctx st (snap e) ctx) (view e key) c (Ok a) ks ->
  (exists l, kv_lock (view e key) = Some l /\ lock_ts l = st /\ lock_min_commit_ts l <= c
     /\ kv_lock (kapplies (view e key) ks) = None
     /\ exists w, committed_at (kv_ver (kapplies (view e key) ks)) st c w /\ committed_record l c w)
  \/ (ks = [] /\ exists c' w, committed_at (kv_ver (view e key)) st c' w).
Proof.
  intros Hinv Hk Hst H. pose proof (proj2 Hinv key Hk) as I. unfold commit_post in H. cbn [rd_start_ts new_with_ctx] in H.
  assert (ks = [] /\ commit_missing_post (new_with_ctx st (snap e) ctx) (view e key) c (Ok a) ->
    ks = [] /\ exists c' w, committed_at (kv_ver (view e key)) st c' w) as Hmiss.
  { intros [-> [(c' & w & Hc & _)|[_ (raw & ?)]]]; [|done]. split; [done|]. eauto. }
  destruct (kv_lock (view e key)) as [l|] eqn:El; [|right; by apply Hmiss].
  destruct (Z.eqb_spec (lock_ts l) st) as [Hts|]; [|right; by apply Hmiss].
  destruct (Z.ltb_spec c (lock_min_commit_ts l)); [by destruct H as (_ & ? & ?)|].
  destruct H as (w & rel & _ & -> & Hw & _). left. exists l. split_and!; try done.
  destruct (inv_lock_type _ I l El) as [Hp _]. destruct (committed_record_kind l c w Hw Hp) as [Hnr _].
  exists w. split; [|done]. split; [cbn; by rewrite lookup_insert_eq|]. split; [done|].
  destruct Hw as (t & _ & _ & Es & _). congruence.
Qed.



(** ** Reads *)

(** C6: Reads. On a reachable engine a snapshot read at [ts] succeeds, and
    returns the value written by the newest transaction that committed at or
    before [ts] and changed the key, whether the value is in the record or in
    the default column family; it returns nothing when there is no such
    transaction or when it deleted the key. *)
Theorem read_returns_committed_value e key ts ctx :
  reachable e -> user_key key -> txn_ts ts ->
  exists v, reader_get (new_with_ctx ts (snap e) ctx) key ts (Some ts) = Ok v /\ value_at (view e key) ts v.
Proof.
  intros Hr Hk Hts. pose proof (reachable_inv e Hr) as Hinv.
  apply (reader_get_value _ key (view e key) (sees_snap e ts ctx key Hinv Hts Hk) (proj2 Hinv key Hk)); [apply Hts|].
  intros l c [= <-]. lia.
Qed.

Lemma read_returns_committed_value_witness :
  exists v, reader_get (new_with_ctx 11 (snap e4) ctx0) k 11 (Some 11) = Ok v /\ value_at (view e4 k) 11 v.
Proof.
  apply (read_returns_committed_value e4 k 11 ctx0);
    [unfold reachable; etrans; [exact e2_steps|exact e4_steps]|exact k_user|done].
Defined.

(** The value of a committed transaction stays. *)
Lemma kstep_value a a' st c w v :
  kinv a -> kstep a a' -> committed_at (kv_ver a) st c w -> kv_val a !! st = Some v -> kv_val a' !! st = Some v.
Proof.
  intros I H Hc Hv.
  assert (forall l, kv_lock a = Some l -> lock_ts l <> st) as Hfree by (intros; by eapply decided_unlocked).
  destruct H as [a l x Hl Hp Hrt H0 Hnew Hnr Hlc Hval| |a l d Hl| | | |]; cbn [kv_val]; try done.
  - destruct x as [x|]; [|done]. rewrite lookup_insert_ne; [done|]. intros E. destruct Hc as (Hw & Hr & Es).
    pose proof (inv_commit a I c w Hw Hr). pose proof (Hnew c w Hw). lia.
  - destruct d; [|done]. rewrite lookup_delete_ne; [done|by apply Hfree].
Qed.

Lemma ksteps_value a a' st c w v :
  kinv a -> rtc kstep a a' -> committed_at (kv_ver a) st c w -> kv_val a !! st = Some v -> kv_val a' !! st = Some v.
Proof.
  intros I H. revert w. induction H as [a|a1 a2 a3 Hs _ IH]; intros w Hc Hv; [done|].
  destruct (kstep_committed _ _ _ _ _ I Hs Hc) as (w1 & Hc1 & _).
  eapply (IH (kstep_inv _ _ I Hs)); [done|by eapply kstep_value].
Qed.

Lemma dlatest_unique V ts t t' : dlatest V ts t -> dlatest V ts t' -> t = t'.
Proof.
  intros (Hle & [x Hd] & Hn) (Hle' & [x' Hd'] & Hn'). destruct (Z.lt_trichotomy t t') as [H|[H|H]]; [|done|].
  - rewrite Hn in Hd' by lia. done.
  - rewrite Hn' in Hd by lia. done.
Qed.

Lemma dlatest_ext V V' ts t : (forall c, c <= ts -> data_at V c = data_at V' c) -> dlatest V ts t -> dlatest V' ts t.
Proof.
  intros He (Hle & Hd & Hn). split_and!; [done|by rewrite <- He|]. intros c Hc. rewrite <- He by lia. by apply Hn.
Qed.

(** What is readable depends only on the data-changing versions. *)
Lemma unreadable_dlatest V ts t x :
  unreadable V ts -> dlatest V ts t -> data_at V t = Some x -> x.1.1 = WTDelete.
Proof.
  intros [Hn|(t' & st & v & Hl & Hd)] H Hx.
  - destruct H as (Hle & _). by rewrite Hn in Hx.
  - rewrite (dlatest_unique _ _ _ _ H Hl), Hd in Hx. by injection Hx as <-.
Qed.

Lemma put_data_at V c w : V !! c = Some w -> write_type w = WTPut ->
  data_at V c = Some (WTPut, write_start_ts w, write_short_value w).
Proof. intros Hw Hp. unfold data_at, is_data. by rewrite Hw, Hp. Qed.

Lemma value_at_agrees a a' ts v v' :
  (forall c, c <= ts -> data_at (kv_ver a) c = data_at (kv_ver a') c) ->
  (forall c w x, c <= ts -> kv_ver a !! c = Some w -> write_type w = WTPut ->
     kv_val a !! write_start_ts w = Some x -> kv_val a' !! write_start_ts w = Some x) ->
  value_at a ts v -> value_at a' ts v' -> v = v'.
Proof.
  intros He Hv H H'. destruct v as [v|], v' as [v'|]; cbn in H, H'; [| | |done].
  - destruct H as (w & c & (Hw & Hp & Hl) & Hx), H' as (w' & c' & (Hw' & Hp' & Hl') & Hx').
    apply (dlatest_ext _ _ _ _ He) in Hl as Hl2. assert (c' = c) as -> by by eapply dlatest_unique.
    pose proof (He c (proj1 Hl)) as E. rewrite (put_data_at _ _ _ Hw Hp), (put_data_at _ _ _ Hw' Hp') in E.
    injection E as Es Ev. rewrite <- Ev, <- Es in Hx'. destruct (write_short_value w); [congruence|].
    rewrite (Hv c w v (proj1 Hl) Hw Hp Hx) in Hx'. congruence.
  - destruct H as (w & c & (Hw & Hp & Hl) & _). apply (dlatest_ext _ _ _ _ He) in Hl as Hl2.
    pose proof (put_data_at _ _ _ Hw Hp) as Hd. rewrite (He c (proj1 Hl)) in Hd.
    by pose proof (unreadable_dlatest _ _ _ _ H' Hl2 Hd).
  - destruct H' as (w & c & (Hw & Hp & Hl) & _).
    apply (dlatest_ext _ (kv_ver a)) in Hl as Hl2; [|intros; symmetry; by apply He].
    pose proof (put_data_at _ _ _ Hw Hp) as Hd. rewrite <- (He c (proj1 Hl)) in Hd.
    by pose proof (unreadable_dlatest _ _ _ _ H Hl2 Hd).
Qed.

Lemma data_is_commit a c x : data_at (kv_ver a) c = Some x -> exists w, committed_at (kv_ver a) x.1.2 c w
  /\ x = (write_type w, write_start_ts w, write_short_value w).
Proof.
  unfold data_at. destruct (kv_ver a !! c) as [w|] eqn:E; [|done].
  destruct (is_data w) eqn:Ed; [|done]. intros [= <-]. exists w. split; [|done]. split; [done|]. split; [|done].
  unfold is_data in Ed. unfold is_rollback. destruct (write_type w); done.
Qed.

(** The data versions at or below [ts], when nothing new commits there. *)
Lemma ksteps_data a a' ts :
  kinv a -> rtc kstep a a' ->
  (forall st c w, committed_at (kv_ver a') st c w -> c <= ts -> exists w0, committed_at (kv_ver a) st c w0) ->
  forall c, c <= ts -> data_at (kv_ver a) c = data_at (kv_ver a') c.
Proof.
  intros I Hs Hno c Hc.
  assert (forall x, data_at (kv_ver a) c = Some x -> data_at (kv_ver a') c = Some x) as Hfwd.
  { intros x Hx. destruct (data_is_commit _ _ _ Hx) as (w & Hw & E).
    destruct (ksteps_committed _ _ _ _ _ I Hs Hw) as (w' & (Hw' & _) & Et & Es & Ev & _).
    revert Hx. unfold data_at. rewrite Hw'. destruct Hw as [-> _]. unfold is_data. rewrite Et, Es, Ev. done. }
  destruct (data_at (kv_ver a) c) as [x|] eqn:Ex; [symmetry; by apply Hfwd|].
  destruct (data_at (kv_ver a') c) as [x'|] eqn:Ex'; [|done]. exfalso.
  destruct (data_is_commit _ _ _ Ex') as (w' & Hw' & E'). destruct (Hno _ _ _ Hw' Hc) as (w0 & Hw0).
  destruct (ksteps_committed _ _ _ _ _ I Hs Hw0) as (w1 & (Hw1 & _) & Et & _).
  destruct Hw' as (Hw' & _). assert (w1 = w') as -> by congruence. destruct Hw0 as (Hw0 & _).
  revert Ex Ex'. unfold data_at, is_data. rewrite Hw0, Hw', Et. by destruct (write_type w0).
Qed.

(** C7: Repeatable reads. Whatever commands run after a snapshot read at
    [ts], the same read returns the same result as long as no transaction
    commits the key at a timestamp of at most [ts]: locking, rolling back,
    marking a rollback on another transaction's record, collapsing rollbacks
    and later commits do not change it. *)
Theorem repeatable_read e e' key ts ctx ctx' :
  reachable e -> rtc sys_step e e' -> user_key key -> txn_ts ts ->
  (forall st c w, committed_at (kv_ver (view e' key)) st c w -> c <= ts ->
     exists w0, committed_at (kv_ver (view e key)) st c w0) ->
  reader_get (new_with_ctx ts (snap e') ctx') key ts (Some ts) = reader_get (new_with_ctx ts (snap e) ctx) key ts (Some ts).
Proof.
  intros Hr Hs Hk Hts Hno. pose proof (reachable_inv e Hr) as Hinv. pose proof (proj2 Hinv key Hk) as I.
  pose proof (reachable_inv e' (reachable_trans _ _ Hr Hs)) as Hinv'.
  assert (forall l c, Some ts = Some l -> ts < c <= l -> False) as Hq by (intros l c [= <-]; lia).
  destruct (reader_get_value _ key _ (sees_snap e ts ctx key Hinv Hts Hk) I ts (Some ts)) as (v & -> & Hv);
    [apply Hts|intros; exfalso; eauto|].
  destruct (reader_get_value _ key _ (sees_snap e' ts ctx' key Hinv' Hts Hk) (proj2 Hinv' key Hk) ts (Some ts))
    as (v' & -> & Hv'); [apply Hts|intros; exfalso; eauto|]. f_equal. symmetry.
  pose proof (reachable_later _ _ _ Hr Hs Hk) as Hks.
  eapply value_at_agrees; [by eapply ksteps_data| |done..].
  intros c w x Hc Hw Hp Hx. eapply (ksteps_value _ _ _ c w); [done..| |done].
  split; [done|]. split; [|done]. unfold is_rollback. by rewrite Hp.
Qed.

Lemma repeatable_read_witness :
  reader_get (new_with_ctx 11 (snap e4) ctx0) k 11 (Some 11) = reader_get (new_with_ctx 11 (snap e2) ctx0) k 11 (Some 11).
Proof.
  apply (repeatable_read e2 e4 k 11 ctx0 ctx0); [exact e2_steps|exact e4_steps|exact k_user|done|].
  intros st c w Hc Hle. exists rec1.
  destruct Hc as (Hw & _ & <-). destruct (e4_versions c w Hw) as [[-> ->]|[-> ->]]; [exact e2_rec1|lia].
Defined.

(** C38: What the commands store is well typed: on a reachable engine every
    entry of the lock column family is a user key with bytes that parse as a
    lock and are its serialization, every entry of the write column family a
    user key with a positive commit timestamp and bytes that parse as a record
    and are its serialization, and every key of the default column family a
    user key with a timestamp. No read of a reachable engine meets bytes it
    cannot decode. *)
Theorem reachable_well_typed e : reachable e ->
  (forall x v, cf_lock e !! x = Some v -> user_key x /\ exists l, lock_parse v = Ok l /\ lock_to_bytes l = v) /\
  (forall x v, cf_write e !! x = Some v -> exists u c w,
     user_key u /\ is_u64 c /\ 0 < c /\ x = append_ts u c /\ write_parse v = Ok w /\ write_to_bytes w = v) /\
  (forall x v, cf_default e !! x = Some v -> exists u t, user_key u /\ is_u64 t /\ x = append_ts u t).
Proof.
  intros [(Hd & Hl & Hw) _]%reachable_inv. split_and!; intros x v Hx.
  - destruct (Hl x v Hx) as (l & Hu & Hwf & Hone & ->). split; [done|]. exists l. split; [by apply lock_parse_wf|done].
  - destruct (Hw x v Hx) as (u & c & w & Hu & Hc & Hpos & Hwf & -> & ->). exists u, c, w. split_and!; try done. by apply write_parse_to_bytes.
  - by destruct (Hd x v Hx) as (u & t & Hu & Ht & ->); exists u, t.
Qed.

Lemma reachable_well_typed_witness : exists u c w,
  user_key u /\ is_u64 c /\ 0 < c /\ append_ts k 12 = append_ts u c /\ write_parse (write_to_bytes rec2) = Ok w /\ write_to_bytes w = write_to_bytes rec2.
Proof.
  destruct (reachable_well_typed e4) as (_ & Hw & _); [unfold reachable; etrans; [exact e2_steps|exact e4_steps]|].
  apply (Hw (append_ts k 12) (write_to_bytes rec2)). vm_compute. reflexivity.
Defined.
