(* ===== verification/PrewriteAtomic.v ===== *)
(** * A prewrite command is all or nothing

    What a prewrite command leaves on its keys, on the engines commands can
    reach: the locks of all its mutations, the commit records of all of them,
    or nothing. *)
From S2P Require Import Prelude Number Bytes Timestamp Key Fields Lock Write OrderedMap PeerLocks Engine.
From S2P Require Import ConcurrencyManager Reader Versions MvccTxn CheckTxnStatus Prewrite Commands PrewriteCommand.
From S2P Require Import KeyView Protocol ActionSpec ReadSpec PrewriteSpec PrewriteCommandSpec System Demo Safety.

(** The key is as before. *)
Definition unchanged (e e' : Engine) (k : Key) : Prop := view e' k = view e k.

(** The transaction holds the lock of the key, whose versions are as before. *)
Definition holds_lock (e e' : Engine) (st : TimeStamp) (k : Key) : Prop :=
  kv_ver (view e' k) = kv_ver (view e k) /\ exists l, kv_lock (view e' k) = Some l /\ lock_ts l = st.

(** The transaction is committed on the key at [c] and holds no lock on it,
    or it keeps the lock of an async commit it had before. *)
Definition committed_in_one (e e' : Engine) (st c : TimeStamp) (k : Key) : Prop :=
  (st < c /\ kv_lock (view e' k) = None /\ exists w, committed_at (kv_ver (view e' k)) st c w)
  \/ (unchanged e e' k /\ exists l, kv_lock (view e k) = Some l /\ lock_ts l = st /\ lock_use_async_commit l = true).

(** The transaction was committed before, as a repeated request finds out. *)
Definition was_committed (e : Engine) (st one_pc : TimeStamp) (ks : list Key) : Prop :=
  exists k c w, k ∈ ks /\ committed_at (kv_ver (view e k)) st c w /\ (one_pc = 0 \/ one_pc = c).

Lemma locks_versions a st ks : locks a st ks -> kv_ver (kapplies a ks) = kv_ver a /\ exists l, kv_lock (kapplies a ks) = Some l /\ lock_ts l = st.
Proof.
  intros (l & v & -> & Hl & _ & _ & E & _). split; [|eauto]. by destruct v.
Qed.

Lemma all_or_nothing_key e e' rd st one_pc m ks :
  rd_start_ts rd = st -> view e' (mutation_key m) = kapplies (view e (mutation_key m)) ks ->
  (if one_pc =? 0 then key_locked rd (view e) m ks else key_committed rd (view e) one_pc m ks) ->
  if should_not_write m then unchanged e e' (mutation_key m)
  else if one_pc =? 0 then holds_lock e e' st (mutation_key m) else committed_in_one e e' st one_pc (mutation_key m).
Proof.
  intros <- Hv H. destruct (should_not_write m) eqn:Em, (one_pc =? 0).
  1-2: destruct H as [[-> _]|[? _]]; [exact Hv|congruence].
  - unfold holds_lock. destruct H as [[-> [?|(l & El & Hl)]]|[_ H]]; [congruence|rewrite Hv; cbn; eauto|rewrite Hv; by apply locks_versions].
  - destruct H as [[-> [?|(l & El & Hl & Ha)]]|(_ & Hlt & _ & _ & Hn & (w & Hw) & _)]; [congruence|right; split; [done|eauto]|left].
    rewrite Hv. eauto.
Qed.


(** Two keys committed in one phase, with a check of a third. *)
Definition one_pc_cmd : Prewrite :=
  mk_prewrite_cmd [MutPut k [Byte.x61] AssertNone; MutCheckNotExists (key_from_raw [Byte.x6c]) AssertNone;
                   MutDelete (key_from_raw [Byte.x6d]) AssertNone]
    raw_k 5 100 false 2 0 0 None true ALOff pctx0.

Definition one_pc_run : cres PrewriteWrite * ConcurrencyManager :=
  prewrite_process_write env0 false cm0 (snap empty_engine) true false false false (fun _ => None) one_pc_cmd.

Definition one_pc_engine : Engine := apply_to empty_engine (prewritten one_pc_run).

Lemma one_pc_keys : NoDup (prewrite_keys one_pc_cmd) /\ Forall user_key (prewrite_keys one_pc_cmd).
Proof.
  split; [apply (bool_decide_eq_true_1 _); vm_compute; reflexivity|].
  apply Forall_cons. split; [exact k_user|]. apply Forall_cons. split; [by exists [Byte.x6c]|].
  apply Forall_singleton. by exists [Byte.x6d].
Qed.

(** A run that succeeds, with what it writes. *)
Lemma run_ok (r : cres PrewriteWrite * ConcurrencyManager) (e e' : Engine) (one_pc : TimeStamp) :
  match r.1 with
  | Ok w => (pr_one_pc_commit_ts (wr_pr (pww_result w)) =? one_pc) && bool_decide (length (pr_locks (wr_pr (pww_result w))) = O)
  | _ => false
  end = true ->
  write_modifies (E := kv_error) e (prewritten r) = Ok e' ->
  exists w cm', r = (Ok w, cm') /\ pr_one_pc_commit_ts (wr_pr (pww_result w)) = one_pc
    /\ pr_locks (wr_pr (pww_result w)) = [] /\ write_modifies (E := kv_error) e (wr_modifies (pww_result w)) = Ok e'.
Proof.
  destruct r as [[w| |] cm']; [|done..]. cbn [fst]. intros [Hc Hl]%andb_true_iff Hw. exists w, cm'. split; [done|].
  split; [by apply Z.eqb_eq|]. split; [|done]. apply bool_decide_eq_true in Hl. by apply nil_length_inv.
Qed.


(** A request for one-phase commit without mutations fails the assertion that
    there is a commit timestamp. *)
Example empty_one_pc_panics :
  (prewrite_process_write env0 false cm0 (snap empty_engine) true false false false (fun _ => None)
     (mk_prewrite_cmd [] raw_k 5 100 false 0 0 0 None true ALOff pctx0)).1 = Panic.
Proof. vm_compute. reflexivity. Qed.
