(* ===== verification/GcSpec.v ===== *)
(** * What garbage collection keeps

    Collecting the versions of a key up to a safe point does not change what
    any read at or after the safe point returns, even when the collection
    stops early because it has written enough. *)
From S2P Require Import Prelude Number Bytes Timestamp Key Fields Lock Write OrderedMap PeerLocks Engine.
From S2P Require Import ConcurrencyManager Reader Versions MvccTxn CheckTxnStatus Prewrite Commands Gc.
From S2P Require Import KeyView Protocol ActionSpec ReadSpec PrewriteSpec System Demo Safety.

(** ** Deletions *)

Definition deletion (k : kmod) : Prop := match k with KDelWrite _ | KDelVal _ => True | _ => False end.
Definition del_writes (ks : list kmod) : list Z := omap (fun k => match k with KDelWrite c => Some c | _ => None end) ks.
Definition del_vals (ks : list kmod) : list Z := omap (fun k => match k with KDelVal s => Some s | _ => None end) ks.

Lemma kapplies_deletions a ks :
  Forall deletion ks ->
  kv_lock (kapplies a ks) = kv_lock a
  /\ (forall c, kv_ver (kapplies a ks) !! c = if decide (c ∈ del_writes ks) then None else kv_ver a !! c)
  /\ (forall s, kv_val (kapplies a ks) !! s = if decide (s ∈ del_vals ks) then None else kv_val a !! s).
Proof.
  revert a. induction ks as [|k ks IH]; intros a Hd.
  { split; [done|]. split; intros x; rewrite decide_False; (done || apply not_elem_of_nil). }
  apply Forall_cons in Hd as [Hk Hd]. cbn [kapplies fold_left]. destruct (IH (kapply a k) Hd) as (Hl & Hv & Hx).
  fold (kapplies (kapply a k) ks). split; [rewrite Hl; by destruct k|].
  split; intros x; [rewrite Hv|rewrite Hx]; destruct k; try done; cbn [kapply kv_ver kv_val del_writes del_vals omap list_omap];
    fold (del_writes ks) (del_vals ks); try reflexivity.
  all: destruct (decide (x ∈ _ ks)) as [Hin|Hin]; [rewrite decide_True; [done|by apply elem_of_cons; right]|].
  all: match goal with |- delete ?c _ !! _ = _ => destruct (decide (x = c)) as [->|Hne] end.
  all: try (rewrite decide_True by (apply elem_of_cons; by left); by rewrite lookup_delete_eq).
  all: rewrite decide_False by (apply not_elem_of_cons; done); by rewrite lookup_delete_ne.
Qed.

(** The modifications that remove one version. *)
Definition gc_mods (c : TimeStamp) (w : Write) : list kmod :=
  KDelWrite c :: (if bool_decide (write_type w = WTPut) && bool_decide (write_short_value w = None)
                  then [KDelVal (write_start_ts w)] else []).

(** The value of the version lives in the default column family. *)
Definition stores_value (w : Write) : Prop := write_type w = WTPut /\ write_short_value w = None.

(** [ks] removes exactly the versions after [lo] up to [hi], with their
    values. *)
Record deletes (V : vmap) (lo hi : TimeStamp) (ks : list kmod) : Prop := {
  de_only : Forall deletion ks;
  de_wf : Forall kmod_wf ks;
  de_writes : forall c, c ∈ del_writes ks <-> lo < c <= hi /\ is_Some (V !! c);
  de_vals : forall s, s ∈ del_vals ks <->
    exists c w, lo < c <= hi /\ V !! c = Some w /\ stores_value w /\ write_start_ts w = s
}.

Lemma deletes_nil V lo hi : (forall c, lo < c <= hi -> V !! c = None) -> deletes V lo hi [].
Proof.
  intros H. split; [constructor|constructor| |]; intros x; (split; [by intros ?%elem_of_nil|]).
  - intros [Hx [w Hw]]. by rewrite H in Hw.
  - intros (c & w & Hx & Hw & _). by rewrite H in Hw.
Qed.

Lemma del_writes_mods c w : del_writes (gc_mods c w) = [c].
Proof. unfold gc_mods. by destruct (_ && _). Qed.

Lemma elem_del_vals_mods c w s : s ∈ del_vals (gc_mods c w) <-> stores_value w /\ write_start_ts w = s.
Proof.
  unfold gc_mods, stores_value. destruct (bool_decide_reflect (write_type w = WTPut)) as [Ht|Ht],
    (bool_decide_reflect (write_short_value w = None)) as [Hs|Hs]; cbn [andb del_vals omap list_omap];
    rewrite ?list_elem_of_singleton, ?elem_of_nil; split; intros; (tauto || intuition congruence).
Qed.

Lemma del_writes_app ks ks' : del_writes (ks ++ ks') = del_writes ks ++ del_writes ks'.
Proof. apply omap_app. Qed.
Lemma del_vals_app ks ks' : del_vals (ks ++ ks') = del_vals ks ++ del_vals ks'.
Proof. apply omap_app. Qed.

Lemma deletes_app V lo mid hi ks ks' :
  lo <= mid <= hi -> deletes V mid hi ks -> deletes V lo mid ks' -> deletes V lo hi (ks ++ ks').
Proof.
  intros Hm [Ho Hw Hd Hv] [Ho' Hw' Hd' Hv'].
  split; [by apply Forall_app|by apply Forall_app| |]; intros x; rewrite ?del_writes_app, ?del_vals_app, elem_of_app.
  - rewrite Hd, Hd'. destruct (Z.le_gt_cases x mid); intuition lia.
  - rewrite Hv, Hv'. split.
    + intros [(c & w & Hc & ?)|(c & w & Hc & ?)]; exists c, w; (split; [lia|done]).
    + intros (c & w & Hc & H). destruct (Z.le_gt_cases c mid); [right|left]; exists c, w; (split; [lia|done]).
Qed.

(** The topmost version. *)
Lemma deletes_swap V lo hi ks ks' : deletes V lo hi (ks ++ ks') -> deletes V lo hi (ks' ++ ks).
Proof.
  intros [Ho Hw Hd Hv]. apply Forall_app in Ho as [? ?], Hw as [? ?].
  split; [by apply Forall_app|by apply Forall_app| |]; intros x; rewrite ?del_writes_app, ?del_vals_app.
  - rewrite <- Hd, del_writes_app, !elem_of_app. tauto.
  - rewrite <- Hv, del_vals_app, !elem_of_app. tauto.
Qed.

Lemma deletes_one V c w hi :
  V !! c = Some w -> is_u64 c -> is_u64 (write_start_ts w) -> c <= hi -> (forall c', c < c' <= hi -> V !! c' = None) ->
  deletes V (c - 1) hi (gc_mods c w).
Proof.
  intros Hw Hc Hs Hle Hn. split.
  - unfold gc_mods. destruct (_ && _); repeat constructor.
  - unfold gc_mods. destruct (_ && _); repeat constructor; apply Hc || apply Hs.
  - intros x. rewrite del_writes_mods, list_elem_of_singleton. split; [intros ->; split; [lia|done]|].
    intros [Hx [w' Hw']]. destruct (decide (x = c)) as [|]; [done|]. rewrite Hn in Hw' by lia. done.
  - intros s. rewrite elem_del_vals_mods. split; [intros [? ?]; exists c, w; split; [lia|done]|].
    intros (c' & w' & Hx & Hw' & Hv). destruct (decide (c' = c)) as [->|]; [|rewrite Hn in Hw' by lia; done].
    assert (w' = w) as -> by congruence. done.
Qed.

(** ** The loop *)

Lemma emits_get_txn {B} st key (f : MvccTxn -> M B) (Q : mres B -> list kmod -> Prop) :
  (forall t, emits st key (f t) Q) -> emits st key (get_txn ≫= f) Q.
Proof. intros H t Ht. exact (H t t Ht). Qed.

Section Loop.
  Context (rd : Reader) (key : Key) (a : KV) (st : TimeStamp).
  Hypothesis Hs : sees rd key a.
Abbreviation V := (kv_ver a).

Lemma gc_delete_spec w c info :
  emits st key (gc_delete_write key w c info) (fun r ks => r = Ok (gi_deleted info) /\ ks = gc_mods c w).
Proof using.
  unfold gc_delete_write, gc_mods. eapply emits_seq; [apply emits_delete_write|]. destruct (_ && _).
  - eapply emits_seq; [apply emits_delete_value|]. by apply emits_ret.
  - eapply (emits_seq _ _ _ _ tt []); [by apply emits_ret|]. by apply emits_ret.
Qed.

(** Enough fuel to visit every version up to [cur]. *)
Definition fuel_ok (f : nat) (cur : TimeStamp) : Prop := (size (entries_from rd (append_ts key cur)) + 1 <= f)%nat.

(** One round: the next version, or the end. *)
Lemma gc_round f cur state info (Q : mres (bool * GcState * GcInfo) -> list kmod -> Prop) :
  is_u64 cur -> fuel_ok (S f) cur ->
  ((forall c, c <= cur -> V !! c = None) -> Q (Ok (true, state, info)) []) ->
  (forall c w, V !! c = Some w -> c <= cur -> (forall c', c < c' <= cur -> V !! c' = None) ->
     is_u64 c -> 0 < c -> is_u64 (write_start_ts w) -> is_u64 (c - 1) -> fuel_ok f (c - 1) ->
     (Q (Ok (false, state, gi_found info)) []
      /\ emits st key ('(state, info) ← gc_step key state w c (gi_found info); gc_loop rd key f (c - 1) state info) Q)) ->
  emits st key (gc_loop rd key (S f) cur state info) Q.
Proof using Hs.
  intros Hcur Hf Hend Hnext. cbn [gc_loop]. unfold gc_next_write.
  destruct (sees_wf _ _ _ Hs) as (_ & _ & Hwf).
  pose proof (seek_write_spec rd Hwf key (sees_key _ _ _ Hs) cur Hcur) as Hsk.
  destruct (sees_seek rd key a Hs cur Hcur) as (r & Er & Hr). rewrite Er in Hsk |- *.
  destruct r as [[c w]|]; cbn [mbind res_bind].
  2: { eapply emits_lift_bind; [done|]. apply emits_ret. auto. }
  destruct Hr as (Hw & Hle & Hn). destruct (sees_ver_wf rd key a Hs c w Hw) as (Hc & Hpos & Hww & _).
  rewrite ts_prev_ok by done. cbn [mbind res_bind]. eapply emits_lift_bind; [done|]. cbv beta iota.
  assert (is_u64 (c - 1)) as Hc1 by (unfold is_u64 in *; lia).
  destruct (Hnext c w) as [Hstop Hgo]; [done..| |].
  { unfold fuel_ok in *. pose proof (entries_from_decr rd Hwf key cur c w Hcur Hsk). lia. }
  apply emits_get_txn. intros t. destruct (MAX_TXN_WRITE_SIZE <=? txn_write_size t); [by apply emits_ret|exact Hgo].
Qed.

(** After the newest data at the safe point, everything older goes. *)
Definition all_post (ld : option (TimeStamp * Write)) (cur : TimeStamp) (r : mres (bool * GcState * GcInfo)) (ks : list kmod) : Prop :=
  exists fin lo info, r = Ok (fin, RemoveAll ld, info) /\ -1 <= lo <= cur /\ deletes V lo cur ks /\ (fin = true -> lo = -1).

Lemma gc_loop_all f : forall cur ld info,
  is_u64 cur -> fuel_ok f cur -> emits st key (gc_loop rd key f cur (RemoveAll ld) info) (all_post ld cur).
Proof using Hs.
  induction f as [|f IH]; intros cur ld info Hcur Hf; [unfold fuel_ok in Hf; lia|].
  apply gc_round; [done..| |].
  - intros Hn. exists true, (-1), info. unfold is_u64 in Hcur. split_and!; try done; try lia.
    apply deletes_nil. intros c Hc. apply Hn. lia.
  - intros c w Hw Hle Hn Hc Hpos Hst Hc1 Hf1. split.
    { exists false, cur, (gi_found info). unfold is_u64 in Hcur. split_and!; try done; try lia. apply deletes_nil. intros; lia. }
    cbn [gc_step gc_step_remove]. eapply emits_seq.
    { eapply emits_seq; [apply gc_delete_spec|]. apply emits_ret. split; [done|]. by rewrite app_nil_r. }
    cbv beta iota. eapply emits_mono; [|by apply IH]. intros r ks (fin & lo & info' & -> & Hlo & Hd & Hfin).
    exists fin, lo, info'. split; [done|]. split; [lia|]. split; [|done].
    apply (deletes_app _ _ (c - 1)); [lia| |done]. by apply deletes_one.
Qed.

(** Above it, the versions that change no data go. *)
Definition idem_post (hi : TimeStamp) (r : mres (bool * GcState * GcInfo)) (ks : list kmod) : Prop :=
  (exists fin lo info, r = Ok (fin, RemoveIdempotent, info) /\ -1 <= lo <= hi /\ deletes V lo hi ks
     /\ (forall c, lo < c <= hi -> data_at V c = None) /\ (fin = true -> lo = -1))
  \/ (exists d w lo ks1 ks2 fin info, dlatest V hi d /\ V !! d = Some w
        /\ r = Ok (fin, RemoveAll (if bool_decide (write_type w = WTDelete) then Some (d, w) else None), info)
        /\ ks = ks1 ++ ks2 /\ deletes V d hi ks1 /\ -1 <= lo < d /\ deletes V lo (d - 1) ks2 /\ (fin = true -> lo = -1)).

Lemma idem_round f c w hi info :
  V !! c = Some w -> c <= hi -> (forall c', c < c' <= hi -> V !! c' = None) ->
  is_u64 c -> 0 < c -> is_u64 (write_start_ts w) -> is_u64 (c - 1) -> fuel_ok f (c - 1) ->
  (forall info, emits st key (gc_loop rd key f (c - 1) RemoveIdempotent info) (idem_post (c - 1))) ->
  emits st key ('(state, info) ← gc_step_remove key RemoveIdempotent w c info; gc_loop rd key f (c - 1) state info) (idem_post hi).
Proof using Hs.
  intros Hw Hle Hn Hc Hpos Hst Hc1 Hf IH.
  assert (is_data w = true -> dlatest V hi c) as Hdl.
  { intros Hd. split; [done|]. split; [by eapply data_at_Some|]. intros c' Hc'. unfold data_at. by rewrite Hn. }
  assert (forall ld, is_data w = true -> ld = (if bool_decide (write_type w = WTDelete) then Some (c, w) else None) ->
    emits st key (gc_loop rd key f (c - 1) (RemoveAll ld) info) (idem_post hi)) as Hdata.
  { intros ld Hd ->. eapply emits_mono; [|by apply gc_loop_all].
    intros r ks (fin & lo & info' & -> & Hlo & Hdel & Hfin). right. exists c, w, lo, [], ks, fin, info'.
    split_and!; try done; try lia; [by apply Hdl|]. by apply deletes_nil. }
  assert (is_data w = false ->
    emits st key ('(state, info) ← (info ← gc_delete_write key w c info; mret (RemoveIdempotent, info));
                  gc_loop rd key f (c - 1) state info) (idem_post hi)) as Hidem.
  { intros Hd. assert (data_at V c = None) as Hdc by (unfold data_at; by rewrite Hw, Hd).
    assert (deletes V (c - 1) hi (gc_mods c w)) as Hdel1 by (by apply deletes_one).
    eapply emits_seq.
    { eapply emits_seq; [apply gc_delete_spec|]. apply emits_ret. split; [done|]. by rewrite app_nil_r. }
    cbv beta iota. eapply emits_mono; [|by apply IH]. intros r ks [(fin & lo & info' & -> & Hlo & Hdel & Hnd & Hfin)|H].
    - left. exists fin, lo, info'. split; [done|]. split; [lia|]. split; [by apply (deletes_app _ _ (c - 1)); [lia|..]|].
      split; [|done]. intros c' Hc'. destruct (Z.le_gt_cases c' (c - 1)); [apply Hnd; lia|].
      destruct (decide (c' = c)) as [->|]; [done|]. unfold data_at. by rewrite Hn by lia.
    - destruct H as (d & w' & lo & ks1 & ks2 & fin & info' & Hl & Hw' & -> & -> & Hd1 & Hlo & Hd2 & Hfin).
      right. exists d, w', lo, (gc_mods c w ++ ks1), ks2, fin, info'. destruct Hl as (Hdc' & Hdd & Hnd).
      split_and!; try done; try lia; [|by rewrite app_assoc|by apply (deletes_app _ _ (c - 1)); [lia|..]].
      split; [lia|]. split; [done|]. intros c' Hc'. destruct (Z.le_gt_cases c' (c - 1)); [apply Hnd; lia|].
      destruct (decide (c' = c)) as [->|]; [done|]. unfold data_at. by rewrite Hn by lia. }
  cbn [gc_step_remove]. unfold is_data in *. destruct (write_type w) eqn:Et; auto.
  - eapply (emits_seq _ _ _ _ (RemoveAll None, info) []); [by apply emits_ret|]. by apply Hdata.
  - eapply (emits_seq _ _ _ _ (RemoveAll (Some (c, w)), info) []); [by apply emits_ret|]. by apply Hdata.
Qed.

Lemma idem_stop hi info : -1 <= hi -> idem_post hi (Ok (false, RemoveIdempotent, info)) [].
Proof using. intros Hh. left. exists false, hi, info. split_and!; try done; try lia. apply deletes_nil. intros; lia. Qed.

Lemma gc_loop_idem f : forall cur info,
  is_u64 cur -> fuel_ok f cur -> emits st key (gc_loop rd key f cur RemoveIdempotent info) (idem_post cur).
Proof using Hs.
  induction f as [|f IH]; intros cur info Hcur Hf; [unfold fuel_ok in Hf; lia|].
  apply gc_round; [done..| |].
  - intros Hn. left. exists true, (-1), info. unfold is_u64 in Hcur. split_and!; try done; try lia.
    + apply deletes_nil. intros c Hc. apply Hn. lia.
    + intros c Hc. unfold data_at. by rewrite Hn by lia.
  - intros c w Hw Hle Hn Hc Hpos Hst Hc1 Hf1. split; [apply idem_stop; unfold is_u64 in Hcur; lia|].
    apply idem_round; try done. intros info'. by apply IH.
Qed.

(** The versions after the safe point are passed. *)
Definition rewind_post (sp : TimeStamp) (r : mres (bool * GcState * GcInfo)) (ks : list kmod) : Prop :=
  (exists fin info, r = Ok (fin, Rewind sp, info) /\ ks = [] /\ (fin = true -> forall c, c <= sp -> V !! c = None))
  \/ idem_post sp r ks.

(** No version lies between [hi] and [hi']. *)
Lemma deletes_hi lo hi hi' ks :
  hi <= hi' -> (forall c, hi < c <= hi' -> V !! c = None) -> lo <= hi -> deletes V lo hi' ks -> deletes V lo hi ks.
Proof using.
  intros Hle Hn Hlo [Ho Hw Hd Hv]. split; [done|done| |]; intros x.
  - rewrite Hd. split; [|intuition lia]. intros [Hx [w Hxw]]. split; [|by exists w].
    destruct (Z.le_gt_cases x hi); [lia|]. by rewrite Hn in Hxw by lia.
  - rewrite Hv. split; intros (c & w & Hx & Hw' & H); exists c, w; (split; [|done]); [|lia].
    destruct (Z.le_gt_cases c hi); [lia|]. by rewrite Hn in Hw' by lia.
Qed.

Lemma idem_post_hi hi hi' r ks :
  -1 <= hi <= hi' -> (forall c, hi < c <= hi' -> V !! c = None) -> idem_post hi' r ks ->
  idem_post hi r ks.
Proof using.
  intros Hle Hn [(fin & lo & info & -> & Hlo & Hdel & Hnd & Hfin)|H].
  - left. destruct (Z.le_gt_cases lo hi) as [Hl|Hl].
    + exists fin, lo, info. split_and!; try done; try lia; [apply (deletes_hi lo hi hi'); (done || lia)|]. intros c Hc. apply Hnd. lia.
    + exists fin, hi, info. split_and!; try done; try lia; [|intros E; specialize (Hfin E); lia].
      destruct Hdel as [Ho Hw Hd Hv]. split; [done|done| |]; intros x.
      * rewrite Hd. split; [|lia]. intros [Hx [w Hxw]]. by rewrite Hn in Hxw by lia.
      * rewrite Hv. split; [|intros (c & w & ? & _); lia]. intros (c & w & Hx & Hw' & _). by rewrite Hn in Hw' by lia.
  - destruct H as (d & w & lo & ks1 & ks2 & fin & info & (Hdl & [x Hdx] & Hnd) & Hw & -> & -> & Hd1 & Hlo & Hd2 & Hfin).
    right. exists d, w, lo, ks1, ks2, fin, info.
    assert (d <= hi) as Hdh. { destruct (Z.le_gt_cases d hi); [done|]. by rewrite Hn in Hw by lia. }
    split_and!; try done; try lia; [|apply (deletes_hi d hi hi'); (done || lia)]. split; [done|]. split; [eauto|]. intros c Hc. apply Hnd. lia.
Qed.

Lemma gc_loop_rewind f sp : forall cur info,
  is_u64 sp -> is_u64 cur -> sp <= cur -> fuel_ok f cur ->
  emits st key (gc_loop rd key f cur (Rewind sp) info) (rewind_post sp).
Proof using Hs.
  induction f as [|f IH]; intros cur info Hsp Hcur Hle Hf; [unfold fuel_ok in Hf; lia|].
  apply gc_round; [done..| |].
  { intros Hn. left. exists true, info. split_and!; [done..|]. intros _ c Hc. apply Hn. lia. }
  intros c w Hw Hcc Hn Hc Hpos Hst Hc1 Hf1. split; [left; by exists false, (gi_found info)|].
  cbn [gc_step]. destruct (Z.leb_spec c sp) as [Hcs|Hcs].
  - eapply emits_mono; [|apply (idem_round f c w cur); try done; intros; by apply gc_loop_idem].
    intros r ks H. right. eapply idem_post_hi; [| |exact H]; [unfold is_u64 in Hsp; lia|]. intros c' Hc'. apply Hn. lia.
  - eapply (emits_seq _ _ _ _ (Rewind sp, gi_found info) []); [by apply emits_ret|]. cbv beta iota.
    apply IH; [done..|lia|done].
Qed.

(** ** The whole collection *)

(** The loop leaves the completion mark alone. *)
Definition marked (b : bool) (r : mres (bool * GcState * GcInfo)) : Prop :=
  match r with Ok (_, _, info) => gi_is_completed info = b | _ => True end.

Lemma gc_loop_mark f : forall cur state info t,
  marked (gi_is_completed info) (gc_loop rd key f cur state info t).1.
Proof using.
  assert (forall state w c info t, match (gc_step key state w c info t).1 with
    | Ok (_, info') => gi_is_completed info' = gi_is_completed info | _ => True end) as Hstep.
  { intros state w c info t. unfold gc_step, gc_step_remove, gc_delete_write.
    destruct state as [sp| |]; [destruct (c <=? sp)| |]; destruct (write_type w); try done.
    all: cbn; by destruct (_ && _). }
  induction f as [|f IH]; intros cur state info t; [done|]. cbn [gc_loop]. unfold mbind, M_bind, lift, gc_next_write.
  destruct (seek_write rd key cur) as [[[c w]|]|x|]; cbn; [|done..].
  destruct (ts_prev c) as [p|x|]; cbn; [|done..]. destruct (MAX_TXN_WRITE_SIZE <=? txn_write_size t); [done|].
  specialize (Hstep state w c (gi_found info) t). destruct (gc_step key state w c (gi_found info) t) as [[[s i]|x|] t1]; [|done..].
  specialize (IH p s i t1). destruct (gc_loop rd key f p s i t1) as [[[[fin s'] i']|x|] t2]; [|done..]. cbn in *. congruence.
Qed.

(** What is removed: nothing; or versions that change no data, down to some
    point; or, with the newest data [d] at the safe point, the versions
    between them, then older versions down to some point, and [d] itself if
    it is a Delete and nothing older is left. A completed collection goes to
    the end. *)
Definition gc_post (sp : TimeStamp) (r : mres GcInfo) (ks : list kmod) : Prop :=
  exists info, r = Ok info /\
  ((ks = [] /\ (gi_is_completed info = true -> forall c, c <= sp -> V !! c = None))
   \/ (exists lo, -1 <= lo <= sp /\ deletes V lo sp ks /\ (forall c, lo < c <= sp -> data_at V c = None)
         /\ (gi_is_completed info = true -> lo = -1))
   \/ (exists d w lo ks1 ks2 ks3, dlatest V sp d /\ V !! d = Some w /\ ks = ks1 ++ ks2 ++ ks3
         /\ deletes V d sp ks1 /\ -1 <= lo < d /\ deletes V lo (d - 1) ks2
         /\ (ks3 = [] \/ (lo = -1 /\ write_type w = WTDelete /\ ks3 = gc_mods d w))
         /\ (gi_is_completed info = true -> lo = -1 /\ (write_type w = WTDelete -> ks3 = gc_mods d w)))).

Lemma gc_spec sp : is_u64 sp -> emits st key (gc rd key sp) (gc_post sp).
Proof using Hs.
  intros Hsp. unfold gc.
  assert (is_u64 ts_max /\ sp <= ts_max) as [Hm Hle] by (unfold is_u64, ts_max, u64_max in *; lia).
  eapply emits_bind; [apply emits_with; [apply (gc_loop_rewind _ sp ts_max); try done|intros t; apply (gc_loop_mark _ _ _ (mk_gc_info 0 0 false))]|..].
  { unfold fuel_ok, write_fuel. pose proof (entries_from_size rd (append_ts key ts_max)). lia. }
  2-3: by intros * [[(? & ? & ? & _)|[(? & ? & ? & ? & _)|(? & ? & ? & ? & ? & ? & ? & _ & _ & ? & _)]] _].
  intros [[fin0 state] info0] ks [Hp Hmark]. cbn in Hmark. destruct Hp as [(fin & info & [= -> -> ->] & -> & Hnone)|Hp].
  { destruct fin; cbn [negb]; [|apply emits_ret; exists info; split; [done|left; split; [done|congruence]]].
    eapply (emits_seq _ _ _ _ info []); [by apply emits_ret|]. apply emits_ret. eexists. split; [done|]. left. auto. }
  destruct Hp as [(fin & lo & info & [= -> -> ->] & Hlo & Hd & Hnd & Hfin)
    |(d & w & lo & ks1 & ks2 & fin & info & Hl & Hw & [= -> -> ->] & -> & Hd1 & Hlo & Hd2 & Hfin)].
  { assert (forall i, (gi_is_completed i = true -> fin = true) -> gc_post sp (Ok i) ks) as Hpost.
    { intros i Hi. exists i. split; [done|]. right; left. exists lo. split_and!; auto; lia. }
    destruct fin; cbn [negb]; [|apply emits_ret; rewrite app_nil_r; apply Hpost; congruence].
    eapply (emits_seq _ _ _ _ info []); [by apply emits_ret|]. apply emits_ret. rewrite app_nil_r. by apply Hpost. }
  assert (forall i ks3, ks3 = [] \/ (lo = -1 /\ write_type w = WTDelete /\ ks3 = gc_mods d w) ->
    (gi_is_completed i = true -> lo = -1 /\ (write_type w = WTDelete -> ks3 = gc_mods d w)) ->
    gc_post sp (Ok i) ((ks1 ++ ks2) ++ ks3)) as Hpost.
  { intros i ks3 H3 Hi. exists i. split; [done|]. right; right. exists d, w, lo, ks1, ks2, ks3. rewrite app_assoc.
    split_and!; try done; try lia; by apply Hi. }
  destruct fin; cbn [negb]; [|apply emits_ret; apply Hpost; [by left|congruence]].
  destruct (bool_decide_reflect (write_type w = WTDelete)) as [Ht|Ht].
  - eapply emits_seq; [apply gc_delete_spec|]. apply emits_ret. rewrite app_nil_r. apply Hpost; auto.
  - eapply (emits_seq _ _ _ _ info []); [by apply emits_ret|]. apply emits_ret. apply Hpost; [by left|]. intros _. split; [by apply Hfin|done].
Qed.
End Loop.

(** ** What is left *)

(** The part of the invariant the collector relies on. *)
Record versions_ok (a : KV) : Prop := {
  vo_wf : forall c w, kv_ver a !! c = Some w -> is_u64 c /\ is_u64 (write_start_ts w);
  vo_unique : forall c w c' w',
    kv_ver a !! c = Some w -> kv_ver a !! c' = Some w' -> write_start_ts w = write_start_ts w' -> c = c'
}.


Record collected (a a' : KV) (sp : TimeStamp) : Prop := {
  co_sub : forall c w, kv_ver a' !! c = Some w -> kv_ver a !! c = Some w;
  co_above : forall c, sp < c -> kv_ver a' !! c = kv_ver a !! c;
  (* the newest data at the safe point stays, or it is a Delete and goes with everything older *)
  co_data : forall d w, dlatest (kv_ver a) sp d -> kv_ver a !! d = Some w ->
    kv_ver a' !! d = Some w \/ (write_type w = WTDelete /\ forall c, c <= d -> kv_ver a' !! c = None);
  (* older versions go from the newest *)
  co_order : forall d t c, dlatest (kv_ver a) sp d -> t < c < d -> is_Some (kv_ver a !! t) ->
    kv_ver a' !! t = None -> kv_ver a' !! c = None;
  co_value : forall c w, kv_ver a' !! c = Some w -> stores_value w ->
    kv_val a' !! write_start_ts w = kv_val a !! write_start_ts w;
  co_lock : kv_lock a' = kv_lock a
}.

(** A list of deletions, by what it removes. *)
Lemma collected_by a ks sp (gone : TimeStamp -> Prop) :
  versions_ok a -> Forall deletion ks ->
  (forall c, c ∈ del_writes ks <-> gone c /\ is_Some (kv_ver a !! c)) ->
  (forall s, s ∈ del_vals ks <-> exists c w, gone c /\ kv_ver a !! c = Some w /\ stores_value w /\ write_start_ts w = s) ->
  (forall c, gone c -> c <= sp) ->
  (forall d w, dlatest (kv_ver a) sp d -> kv_ver a !! d = Some w -> gone d -> write_type w = WTDelete /\ forall c, 0 <= c <= d -> gone c) ->
  (forall d t c, dlatest (kv_ver a) sp d -> t < c < d -> gone t -> gone c) ->
  collected a (kapplies a ks) sp.
Proof.
  intros [Hwf Hu] Hdel Hw Hv Hsp Hlast Hord. destruct (kapplies_deletions a ks Hdel) as (Hl & Hver & Hval).
  assert (forall c, gone c -> kv_ver (kapplies a ks) !! c = None) as Hgone.
  { intros c Hg. rewrite Hver. destruct (decide (c ∈ del_writes ks)) as [|Hn]; [done|].
    destruct (kv_ver a !! c) eqn:E; [|done]. destruct Hn. apply Hw. split; [done|by rewrite E]. }
  assert (forall c w, kv_ver a !! c = Some w -> kv_ver (kapplies a ks) !! c = Some w \/ gone c) as Hkept.
  { intros c w Hc. rewrite Hver. destruct (decide (c ∈ del_writes ks)) as [Hin|]; [right; by apply Hw in Hin as [? _]|by left]. }
  assert (forall c w, kv_ver (kapplies a ks) !! c = Some w -> kv_ver a !! c = Some w) as Hsub.
  { intros c w. rewrite Hver. by destruct (decide (c ∈ del_writes ks)). }
  split; [done| | | | |done].
  - intros c Hc. rewrite Hver, decide_False; [done|]. intros [Hg _]%Hw. apply Hsp in Hg. lia.
  - intros d w Hd Hdw. destruct (Hkept d w Hdw) as [|Hg]; [by left|right].
    destruct (Hlast d w Hd Hdw Hg) as [Ht Hall]. split; [done|]. intros c Hc.
    destruct (kv_ver (kapplies a ks) !! c) as [w'|] eqn:E; [|done]. destruct (Hwf c w' (Hsub c w' E)) as [[Hc0 _] _].
    by rewrite Hgone in E by (apply Hall; lia).
  - intros d t c Hd Htc [w Ht] Hn. apply Hgone, (Hord d t c Hd Htc). destruct (Hkept t w Ht); [congruence|done].
  - intros c w Hc Hs. rewrite Hval, decide_False; [done|]. intros (c' & w' & Hg & Hw' & _ & E)%Hv.
    assert (c = c') as -> by (eapply Hu; eauto). rewrite (Hgone c' Hg) in Hc. done.
Qed.

Lemma dlatest_no_data (V : vmap) lo sp d : (forall c, lo < c <= sp -> data_at V c = None) -> dlatest V sp d -> d <= lo.
Proof. intros Hn (Hle & [x Hd] & _). destruct (Z.le_gt_cases d lo); [done|]. by rewrite Hn in Hd by lia. Qed.

Lemma gc_collected_all a sp d w lo ks1 ks2 ks3 :
  versions_ok a -> dlatest (kv_ver a) sp d -> kv_ver a !! d = Some w -> deletes (kv_ver a) d sp ks1 ->
  -1 <= lo < d -> deletes (kv_ver a) lo (d - 1) ks2 ->
  ks3 = [] \/ (lo = -1 /\ write_type w = WTDelete /\ ks3 = gc_mods d w) ->
  collected a (kapplies a (ks1 ++ ks2 ++ ks3)) sp /\ Forall kmod_wf (ks1 ++ ks2 ++ ks3).
Proof.
  intros Hu Hl Hdw H1 Hlo H2 [->|(-> & Ht & ->)].
  - rewrite app_nil_r. destruct H1 as [Ho1 Hf1 Hw1 Hv1], H2 as [Ho2 Hf2 Hw2 Hv2].
    split; [|by apply Forall_app]. pose proof Hl as (Hle & _).
    assert (forall c, (lo < c <= sp /\ c <> d) <-> (d < c <= sp \/ lo < c <= d - 1)) as Hg by lia.
    apply (collected_by a _ sp (fun c => lo < c <= sp /\ c <> d)); [done|by apply Forall_app| | |lia| |].
    + intros c. rewrite del_writes_app, elem_of_app, Hw1, Hw2, Hg. tauto.
    + intros s. rewrite del_vals_app, elem_of_app, Hv1, Hv2. split.
      * intros [(c & x & Hc & H)|(c & x & Hc & H)]; exists c, x; (split; [apply Hg; auto|done]).
      * intros (c & x & [Hc|Hc]%Hg & H); [left|right]; by exists c, x.
    + intros d' w' Hl' _ [_ Hn]. destruct Hn. by eapply dlatest_unique.
    + intros d' t c Hl' Htc Hg'. assert (d' = d) as -> by by eapply dlatest_unique. lia.
  - assert (deletes (kv_ver a) (-1) sp (ks1 ++ ks2 ++ gc_mods d w)) as Hd.
    { pose proof Hl as (Hle & _). destruct (vo_wf a Hu d w Hdw) as [Hd Hst]. apply (deletes_app _ _ d); [lia|done|].
      apply deletes_swap, (deletes_app _ _ (d - 1)); [lia| |done]. apply deletes_one; try done; lia. }
    destruct Hd as [Ho Hf Hw Hv]. split; [|done].
    apply (collected_by a _ sp (fun c => -1 < c <= sp)); try done; [lia| |].
    + intros d' w' Hl' Hdw' _. assert (d' = d) as -> by by eapply dlatest_unique. rewrite Hdw in Hdw'.
      injection Hdw' as <-. split; [done|]. destruct Hl. lia.
    + intros d' t c (Hd' & _) Htc Hg. lia.
Qed.

Lemma gc_collected a sp r ks :
  versions_ok a -> gc_post a sp r ks -> collected a (kapplies a ks) sp /\ Forall kmod_wf ks.
Proof.
  intros Hu (info & _ & [[-> _]|[(lo & Hlo & Hd & Hnd & _)|H]]).
  - split; [|by constructor]. apply (collected_by a [] sp (fun _ => False)); try done.
    + intros c. split; [by intros ?%elem_of_nil|by intros [? _]].
    + intros s. split; [by intros ?%elem_of_nil|by intros (? & ? & ? & _)].
  - destruct Hd as [Ho Hwf Hw Hv]. split; [|done].
    apply (collected_by a ks sp (fun c => lo < c <= sp)); try done; [lia| |].
    + intros d w Hl _ Hg. pose proof (dlatest_no_data _ _ _ _ Hnd Hl). lia.
    + intros d t c Hl Htc Hg. pose proof (dlatest_no_data _ _ _ _ Hnd Hl). lia.
  - destruct H as (d & w & lo & ks1 & ks2 & ks3 & Hl & Hdw & -> & Hd1 & Hlo & Hd2 & H3 & _).
    by eapply gc_collected_all.
Qed.

(** A completed collection leaves of the versions up to the safe point only
    the newest data, and that only if it is a Put. *)
Lemma gc_left a sp info ks c w :
  gc_post a sp (Ok info) ks -> gi_is_completed info = true -> 0 <= c <= sp ->
  kv_ver (kapplies a ks) !! c = Some w -> write_type w = WTPut /\ dlatest (kv_ver a) sp c.
Proof.
  intros (i & [= <-] & H) Hc Hle Hw.
  assert (forall ks lo hi, deletes (kv_ver a) lo hi ks -> lo < c <= hi -> c ∈ del_writes ks \/ kv_ver a !! c = None) as Hin.
  { intros ks' lo hi [_ _ Hd _] Hr. destruct (kv_ver a !! c) eqn:E; [left; apply Hd; by rewrite E|by right]. }
  assert (Forall deletion ks -> (c ∉ del_writes ks) /\ kv_ver a !! c = Some w) as Hkept.
  { intros Hdel. destruct (kapplies_deletions a ks Hdel) as (_ & Hv & _). rewrite Hv in Hw.
    by destruct (decide (c ∈ del_writes ks)). }
  destruct H as [[-> Hn]|[(lo & Hlo & Hd & Hnd & Hfin)|H]].
  - destruct Hkept as [_ H]; [constructor|]. by rewrite Hn in H by (done || lia).
  - destruct Hkept as [Hn H]; [apply Hd|]. rewrite (Hfin Hc) in Hd. destruct (Hin _ _ _ Hd); [lia|done|congruence].
  - destruct H as (d & wd & lo & ks1 & ks2 & ks3 & Hl & Hdw & -> & Hd1 & Hlo & Hd2 & H3 & Hfin).
    destruct (Hfin Hc) as [-> Hdel]. destruct Hkept as [Hn H].
    { apply Forall_app; split; [apply Hd1|]. apply Forall_app; split; [apply Hd2|].
      destruct H3 as [->|(_ & _ & ->)]; [constructor|]. unfold gc_mods. destruct (_ && _); repeat constructor. }
    rewrite !del_writes_app, !not_elem_of_app in Hn. destruct Hn as (Hn1 & Hn2 & Hn3).
    destruct (Z.lt_trichotomy c d) as [Hcd|[->|Hcd]].
    + destruct (Hin _ _ _ Hd2); [lia|done|congruence].
    + rewrite Hdw in H. injection H as ->. split; [|done]. destruct Hl as (_ & [x Hx] & _). unfold data_at, is_data in Hx.
      rewrite Hdw in Hx. destruct (write_type w) eqn:Et; try done. rewrite (Hdel eq_refl), del_writes_mods in Hn3.
      by apply not_elem_of_cons in Hn3 as [? _].
    + destruct (Hin _ _ _ Hd1); [lia|done|congruence].
Qed.

(** ** Reads after a collection *)

Lemma dlatest_exists (V : vmap) ts d :
  d <= ts -> is_Some (data_at V d) -> exists t, d <= t /\ dlatest V ts t.
Proof.
  intros Hle Hd. remember (Z.to_nat (ts - d)) as n eqn:En. revert ts Hle En.
  induction n as [|n IH]; intros ts Hle En.
  { assert (ts = d) as -> by lia. exists d. split; [lia|]. split_and!; [lia|done|lia]. }
  destruct (data_at V ts) as [x|] eqn:E; [exists ts; split_and!; [lia|split_and!; [lia|by rewrite E|lia]]|].
  destruct (IH (ts - 1)) as (t & Ht & Hl & Hs & Hn); [lia..|]. exists t. split; [done|]. split_and!; [lia|done|].
  intros c Hc. destruct (Z.eq_dec c ts) as [->|]; [done|apply Hn; lia].
Qed.

Section Collected.
  Context (a a' : KV) (sp : TimeStamp).
  Hypothesis Hco : collected a a' sp.
Abbreviation V := (kv_ver a).
Abbreviation V' := (kv_ver a').

Lemma co_data_at c x : data_at V' c = Some x -> data_at V c = Some x.
Proof using Hco.
  unfold data_at. destruct (V' !! c) as [w|] eqn:E; [|done]. by rewrite (co_sub _ _ _ Hco c w E).
Qed.

Lemma co_no_data c : data_at V c = None -> data_at V' c = None.
Proof using Hco. intros H. destruct (data_at V' c) eqn:E; [|done]. apply co_data_at in E. congruence. Qed.

(** The newest data at [ts], when [ts] is not below the safe point or is still
    a version: it stays, or it is a Delete and nothing older stays. *)
Lemma co_dlatest ts d w :
  sp <= ts \/ is_Some (V' !! ts) -> dlatest V ts d -> V !! d = Some w ->
  (V' !! d = Some w /\ dlatest V' ts d) \/ (write_type w = WTDelete /\ dnone V' ts /\ forall c, c <= d -> V' !! c = None).
Proof using Hco.
  intros Hts Hl Hw. pose proof Hl as (Hle & Hd & Hn).
  assert (V' !! d = Some w -> V' !! d = Some w /\ dlatest V' ts d) as Hkeep.
  { intros Hw'. split; [done|]. split_and!; [done| |intros c Hc; by apply co_no_data, Hn].
    unfold data_at in *. by rewrite Hw', Hw in *. }
  destruct (V' !! d) as [w'|] eqn:E.
  { left. apply Hkeep. pose proof (co_sub _ _ _ Hco d w' E). congruence. }
  assert (d <= sp) as Hge.
  { destruct (Z.le_gt_cases d sp) as [|Hgt]; [done|]. rewrite (co_above _ _ _ Hco d) in E by lia. congruence. }
  destruct (dlatest_exists V sp d Hge Hd) as (d0 & Hdd0 & Hl0).
  destruct (Z.le_gt_cases d0 ts) as [Hle0|Hgt0].
  - assert (d0 = d) as ->.
    { destruct (Z.eq_dec d0 d) as [|Hne]; [done|]. destruct Hl0 as (_ & [x Hx] & _). by rewrite Hn in Hx by lia. }
    destruct (co_data _ _ _ Hco d w Hl0 Hw) as [|[Ht Hnone]]; [congruence|]. right. split_and!; [done| |done].
    intros c Hc. destruct (Z.le_gt_cases c d); [|apply co_no_data, Hn; lia]. unfold data_at. by rewrite Hnone.
  - destruct Hts as [Hts|[x Hx]]; [destruct Hl0; lia|]. destruct (Z.eq_dec d ts) as [->|Hne]; [congruence|].
    rewrite (co_order _ _ _ Hco d0 d ts Hl0) in Hx; [done|lia|by rewrite Hw|done].
Qed.

Lemma co_unreadable ts : sp <= ts \/ is_Some (V' !! ts) -> unreadable V ts -> unreadable V' ts.
Proof using Hco.
  intros Hts [Hn|(t & st & v & Hl & Hd)]; [left; intros c Hc; by apply co_no_data, Hn|].
  pose proof Hd as Hd'. unfold data_at in Hd. destruct (V !! t) as [w|] eqn:Ew; [|done].
  destruct (co_dlatest ts t w Hts Hl Ew) as [[Hw' Hl']|(_ & Hn & _)]; [|by left].
  right. exists t, st, v. split; [done|]. unfold data_at. by rewrite Hw'.
Qed.

Lemma collected_readable ts : sp <= ts -> readable a (Some ts) -> readable a' (Some ts).
Proof using Hco.
  intros Hsp [Hlc Hf Hv]. split.
  - intros c w Hw Hd. pose proof (co_sub _ _ _ Hco c w Hw) as Hw0. specialize (Hlc c w Hw0 Hd).
    assert (sp <= c \/ is_Some (V' !! c)) as Hc by (right; by rewrite Hw).
    destruct (write_last_change w) as [|t n|]; [done| |by apply co_unreadable].
    destruct Hlc as [Hl|[Hn Hu]]; [|right; split; [|by apply co_unreadable]].
    + pose proof Hl as (Hle & [x Hx] & Hnd). unfold data_at in Hx. destruct (V !! t) as [wt|] eqn:Et; [|done].
      destruct (co_dlatest c t wt Hc Hl Et) as [[_ ?]|(_ & Hn & Hr)]; [by left|right]. split; [by apply Hr|by left].
    + destruct (V' !! t) as [wt'|] eqn:Et'; [|done]. rewrite (co_sub _ _ _ Hco t wt' Et') in Hn. done.
  - intros c w l Hw [= <-] Hq. apply (Hf c w ts (co_sub _ _ _ Hco c w Hw) eq_refl). intros g Hg.
    destruct (data_at V g) as [x|] eqn:Eg; [exfalso|done].
    destruct (dlatest_exists V ts g) as (d & Hgd & Hl); [lia|by rewrite Eg|].
    pose proof Hl as (Hle & [y Hy] & _). unfold data_at in Hy. destruct (V !! d) as [wd|] eqn:Ed; [|done].
    destruct (co_dlatest ts d wd (or_introl Hsp) Hl Ed) as [[Hwd (_ & [z Hz] & _)]|(_ & _ & Hr)].
    + rewrite Hq in Hz by lia. done.
    + rewrite Hr in Hw by lia. done.
  - intros c w Hw Hp Hs. rewrite (co_value _ _ _ Hco c w Hw (conj Hp Hs)).
    eapply Hv; [by apply (co_sub _ _ _ Hco)|done..].
Qed.

Lemma collected_value_at ts v : sp <= ts -> value_at a ts v -> value_at a' ts v.
Proof using Hco.
  intros Hsp. destruct v as [v|]; cbn; [|by apply co_unreadable; left].
  intros (w & c & (Hw & Hp & Hl) & Hv). exists w, c.
  destruct (co_dlatest ts c w (or_introl Hsp) Hl Hw) as [[Hw' Hl']|[Ht _]]; [|congruence].
  split; [done|]. destruct (write_short_value w) eqn:Es; [done|]. by rewrite (co_value _ _ _ Hco c w Hw' (conj Hp Es)).
Qed.

Lemma collected_versions_ok : versions_ok a -> versions_ok a'.
Proof using Hco.
  intros [Hwf Hu]. pose proof (co_sub _ _ _ Hco). split; eauto.
Qed.
End Collected.

Lemma value_at_fun a ts v v' : value_at a ts v -> value_at a ts v' -> v = v'.
Proof. by apply value_at_agrees. Qed.

(** ** Collections of an engine *)

(** One call of the collector on [key] with safe point [sp], written back. *)
Definition gc_writes (e : Engine) (key : Key) (sp : TimeStamp) (e' : Engine) : Prop :=
  exists st ctx cm info t, txn_ts st /\ user_key key /\ is_u64 sp
    /\ gc (new_with_ctx st (snap e) ctx) key sp (txn_new 0 cm) = (Ok info, t)
    /\ write_modifies (E := kv_error) e (txn_modifies t) = Ok e'.

(** Collections up to [ts], of any keys. *)
Definition gc_step_upto (ts : TimeStamp) (e e' : Engine) : Prop :=
  exists key sp, sp <= ts /\ gc_writes e key sp e'.

(** What collections up to [ts] keep of every key. *)
Record gc_inv (ts : TimeStamp) (e : Engine) : Prop := {
  gv_wf : engine_wf e;
  gv_ok : forall key, user_key key -> versions_ok (view e key);
  gv_read : forall key, user_key key -> readable (view e key) (Some ts)
}.

Lemma reachable_gc_inv ts e : reachable e -> gc_inv ts e.
Proof.
  intros Hr. destruct (reachable_inv e Hr) as [He Hk]. split; [done| |]; intros key Huk.
  - assert (sees (new_with_ctx 1 (snap e) (mk_context 0 0 false)) key (view e key)) as Hs by by constructor.
    split; [|intros *; by apply (inv_unique _ (Hk key Huk))].
    intros c w Hw. destruct (sees_ver_wf _ _ _ Hs c w Hw) as (? & _ & Hwf). split; [done|apply Hwf].
  - by apply kinv_readable, Hk.
Qed.

(** A call of the collector on such an engine. *)
Lemma gc_call e key sp st ctx cm ts :
  gc_inv ts e -> user_key key -> is_u64 sp -> txn_ts st ->
  exists info t ks e', gc (new_with_ctx st (snap e) ctx) key sp (txn_new 0 cm) = (Ok info, t)
    /\ write_modifies (E := kv_error) e (txn_modifies t) = Ok e' /\ gc_post (view e key) sp (Ok info) ks
    /\ engine_wf e' /\ view e' key = kapplies (view e key) ks /\ (forall k, user_key k -> k <> key -> view e' k = view e k).
Proof.
  intros [He Hok Hrd] Hk Hu Hst.
  assert (sees (new_with_ctx st (snap e) ctx) key (view e key)) as Hs by by constructor.
  destruct (gc_spec _ key _ 0 Hs sp Hu (txn_new 0 cm) eq_refl) as (r & t & ks & E & Hm & _ & _ & Hp).
  pose proof Hp as (info & -> & _). cbn in Hm.
  destruct (gc_collected _ _ _ _ (Hok key Hk) Hp) as [_ Hwf].
  destruct (write_modifies_view e key ks He Hk Hwf) as (e' & E' & He' & Hv & Ho).
  exists info, t, ks, e'. rewrite Hm. by split_and!.
Qed.

Lemma gc_writes_step e key sp ts e' :
  gc_inv ts e -> sp <= ts -> gc_writes e key sp e' ->
  gc_inv ts e' /\ forall k v, user_key k -> value_at (view e k) ts v -> value_at (view e' k) ts v.
Proof.
  intros Hi Hsp (st & ctx & cm & info & t & Hst & Hk & Hu & E & Hwr).
  destruct (gc_call e key sp st ctx cm ts Hi Hk Hu Hst) as (info' & t' & ks & e1 & E' & Hwr' & Hp & He1 & Hv & Ho).
  rewrite E in E'. injection E' as <- <-. rewrite Hwr in Hwr'. injection Hwr' as <-. destruct Hi as [He Hok Hrd].
  destruct (gc_collected _ _ _ _ (Hok key Hk) Hp) as [Hco _]. rewrite <- Hv in Hco.
  assert (forall k, user_key k -> collected (view e k) (view e' k) sp \/ view e' k = view e k) as Hcase.
  { intros k Huk. destruct (decide (k = key)) as [->|Hne]; [by left|right; by apply Ho]. }
  split; [split; [done| |]|]; intros k; [| |intros v]; intros Huk; destruct (Hcase k Huk) as [H|H].
  all: try rewrite H; auto.
  - by eapply collected_versions_ok, Hok.
  - eapply collected_readable; eauto.
  - by eapply collected_value_at.
Qed.

Lemma gc_steps ts e e' :
  gc_inv ts e -> rtc (gc_step_upto ts) e e' ->
  gc_inv ts e' /\ forall k v, user_key k -> value_at (view e k) ts v -> value_at (view e' k) ts v.
Proof.
  intros Hi H. induction H as [|e1 e2 e3 (key & sp & Hsp & Hs) _ IH]; [done|].
  destruct (gc_writes_step _ _ _ _ _ Hi Hsp Hs) as [Hi2 H12]. destruct (IH Hi2) as [Hi3 H23]. eauto.
Qed.

(** C29: Garbage collection is invisible above its safe points. From any engine
    the commands reach, any sequence of collections of any keys with safe
    points up to [ts] leaves every key with the same value at [ts]. *)
Theorem gc_preserves_reads e e' key ts ctx ctx' :
  reachable e -> rtc (gc_step_upto ts) e e' -> user_key key -> txn_ts ts ->
  reader_get (new_with_ctx ts (snap e') ctx') key ts (Some ts) = reader_get (new_with_ctx ts (snap e) ctx) key ts (Some ts).
Proof.
  intros Hr Hg Hk Hts. pose proof (reachable_gc_inv ts e Hr) as Hi. destruct (gc_steps _ _ _ Hi Hg) as [Hi' Hval].
  assert (forall l c, Some ts = Some l -> ts < c <= l -> False) as Hq by (intros l c [= <-]; lia).
  assert (forall e ctx, gc_inv ts e -> exists v,
    reader_get (new_with_ctx ts (snap e) ctx) key ts (Some ts) = Ok v /\ value_at (view e key) ts v) as Hget.
  { intros e0 ctx0 [He0 _ Hrd0]. eapply reader_get_readable; [by constructor|by apply Hrd0|apply Hts|].
    intros; exfalso; eauto. }
  destruct (Hget e ctx Hi) as (v & -> & Hv), (Hget e' ctx' Hi') as (v' & -> & Hv'). f_equal.
  eapply value_at_fun; [done|by apply Hval].
Qed.


(** The engine of the two committed transactions, collected at 13. *)
Definition e7 : Engine := apply_to e4 (txn_modifies (gc (new_with_ctx 1 (snap e4) ctx0) k 13 (txn_new 0 cm0)).2).

Lemma e4_reached : reachable e4.
Proof. eapply reachable_trans; [exact e2_steps|exact e4_steps]. Qed.

Lemma e7_collected : gc_writes e4 k 13 e7.
Proof.
  exists 1, ctx0, cm0, (mk_gc_info 2 1 true), (gc (new_with_ctx 1 (snap e4) ctx0) k 13 (txn_new 0 cm0)).2.
  split; [done|]. split; [exact k_user|]. split; [done|]. split; [vm_compute; reflexivity|vm_compute; reflexivity].
Qed.

Lemma gc_preserves_reads_witness :
  reader_get (new_with_ctx 15 (snap e7) ctx0) k 15 (Some 15) = reader_get (new_with_ctx 15 (snap e4) ctx0) k 15 (Some 15).
Proof.
  apply (gc_preserves_reads e4 e7 k 15 ctx0 ctx0); [exact e4_reached|apply rtc_once|exact k_user|done].
  exists k, 13. split; [lia|exact e7_collected].
Defined.

(** C33: Garbage collection finishes and is complete. On an engine the commands
    and earlier collections reach, a call of the collector returns without an
    error and its deletions apply; when it reports completion, the only
    version of the key left at or below the safe point is the Put a read at
    the safe point returns. *)
Theorem gc_leaves_one_version e0 e key sp st ctx cm ts :
  reachable e0 -> rtc (gc_step_upto ts) e0 e -> user_key key -> is_u64 sp -> txn_ts st ->
  exists info t e', gc (new_with_ctx st (snap e) ctx) key sp (txn_new 0 cm) = (Ok info, t)
    /\ write_modifies (E := kv_error) e (txn_modifies t) = Ok e'
    /\ (gi_is_completed info = true -> forall c w, c <= sp -> kv_ver (view e' key) !! c = Some w ->
         write_type w = WTPut /\ dlatest (kv_ver (view e key)) sp c).
Proof.
  intros Hr Hg Hk Hu Hst. destruct (gc_steps ts _ _ (reachable_gc_inv ts e0 Hr) Hg) as [Hi _].
  destruct (gc_call e key sp st ctx cm ts Hi Hk Hu Hst) as (info & t & ks & e' & E & Hwr & Hp & He' & Hv & _).
  exists info, t, e'. split; [done|]. split; [done|]. intros Hc c w Hle Hw.
  apply (ver_lookup _ _ _ _ He' Hk) in Hw as Hw'. destruct Hw' as [[Hc0 _] _]. rewrite Hv in Hw.
  by eapply gc_left.
Qed.

Lemma gc_leaves_one_version_witness :
  exists info t e', gc (new_with_ctx 1 (snap e7) ctx0) k 20 (txn_new 0 cm0) = (Ok info, t)
    /\ write_modifies (E := kv_error) e7 (txn_modifies t) = Ok e'
    /\ (gi_is_completed info = true -> forall c w, c <= 20 -> kv_ver (view e' k) !! c = Some w ->
         write_type w = WTPut /\ dlatest (kv_ver (view e7 k)) 20 c).
Proof.
  apply (gc_leaves_one_version e4 e7 k 20 1 ctx0 cm0 15); [exact e4_reached|apply rtc_once|exact k_user|done|done].
  exists k, 13. split; [lia|exact e7_collected].
Defined.
