(* ===== verification/AsyncCommit.v ===== *)
(** * Readers and async-commit writers
    (src/storage/mod.rs: prepare_snap_ctx, scan; components/concurrency_manager;
    src/storage/txn/actions/prewrite.rs: async_commit_timestamps)

    A transaction with async commit chooses its commit timestamp from the
    [max_ts] of the stores it writes to, without asking the timestamp oracle.
    A reader must therefore either see the lock of such a transaction, in the
    lock table or in its snapshot, or be sure that the transaction commits
    after its read. The atomic operations of a reader and of any number of
    writers are interleaved here. *)
From S2P Require Import Prelude Number Bytes Timestamp Key Fields Lock Write OrderedMap PeerLocks Engine.
From S2P Require Import ConcurrencyManager Reader MvccTxn CheckTxnStatus Prewrite Commands.

Definition need_check_locks (iso_level : IsolationLevel) : bool :=
  match iso_level with Si | RcCheckTs => true | _ => false end.

Definition check_key_lock (cm : ConcurrencyManager) (start_ts : TimeStamp) (bypass_locks : TsSet)
    (iso_level : IsolationLevel) (key : Key) : res txn_error unit :=
  read_key_check cm key (fun lock => check_ts_conflict lock key start_ts bypass_locks iso_level).

Fixpoint check_key_locks (cm : ConcurrencyManager) (start_ts : TimeStamp) (bypass_locks : TsSet)
    (iso_level : IsolationLevel) (keys : list Key) : res txn_error unit :=
  match keys with
  | [] => Ok tt
  | key :: keys =>
      _ ← check_key_lock cm start_ts bypass_locks iso_level key; check_key_locks cm start_ts bypass_locks iso_level keys
  end.

(** What a read does before it takes its snapshot, run alone. *)
Definition prepare_snap_ctx (env : CmEnv) (cm : ConcurrencyManager) (keys : list Key) (start_ts : TimeStamp)
    (bypass_locks : TsSet) (iso_level : IsolationLevel) (stale_read : bool) : cres unit * ConcurrencyManager :=
  let '(r, cm) := if stale_read then (Ok tt, cm) else update_max_ts env cm start_ts in
  match r with
  | Ok _ =>
      if need_check_locks iso_level then
        (map_err (fun e => CMvcc (mvcc_error_from_txn e)) (check_key_locks cm start_ts bypass_locks iso_level keys), cm)
      else (Ok tt, cm)
  | Err e => (Err (CInvalidMaxTsUpdate e), cm)
  | Panic => (Panic, cm)
  end.

(** What a scan does before it takes its snapshot, run alone; the bounds of a
    reverse scan have been swapped. *)
Definition prepare_scan (env : CmEnv) (cm : ConcurrencyManager) (start_key end_key : option Key) (start_ts : TimeStamp)
    (bypass_locks : TsSet) (iso_level : IsolationLevel) (stale_read : bool) : cres unit * ConcurrencyManager :=
  let '(r, cm) := if stale_read then (Ok tt, cm) else update_max_ts env cm start_ts in
  match r with
  | Ok _ =>
      if need_check_locks iso_level then
        (map_err (fun e => CMvcc (mvcc_error_from_txn e))
           (read_range_check cm start_key end_key (fun key lock => check_ts_conflict lock key start_ts bypass_locks iso_level)), cm)
      else (Ok tt, cm)
  | Err e => (Err (CInvalidMaxTsUpdate e), cm)
  | Panic => (Panic, cm)
  end.

(** ** Interleaving *)

(** What is read: a list of keys, or a range. *)
Inductive Target := TKeys (keys : list Key) | TRange (start_key end_key : option Key).

Definition target_has (target : Target) (key : Key) : Prop :=
  match target with
  | TKeys keys => key ∈ keys
  | TRange start_key end_key => key_in_range start_key end_key key = true
  end.

(** A snapshot read at isolation level SI, which is not a stale read: about to
    update [max_ts]; checking its keys; holding the handle of a key, about to
    look at its lock; walking the entries of its range, past a key; holding
    the handle of an entry; with its snapshot, which has the locks that
    reached the engine before it. *)
Inductive RTask :=
| RStart
| RCheck (todo : list Key)
| RHandle (key : Key) (todo : list Key)
| RWalk (past : option Key)
| REntry (key : Key)
| RSnapshot (seen : list (Key * Lock))
| RFailed.

(** An async-commit prewrite of one key: waiting for the key's guard; with the
    guard; inside the closure, under the mutex of the store; after reading
    [max_ts] there; with the lock visible in memory; with the lock in the
    engine; without the guard. *)
Inductive WTask :=
| WStart (key : Key) (lock : Lock) (for_update_ts max_commit_ts : TimeStamp)
| WGuard (key : Key) (lock : Lock) (for_update_ts max_commit_ts : TimeStamp)
| WHeld (key : Key) (lock : Lock) (for_update_ts max_commit_ts : TimeStamp)
| WMax (key : Key) (lock : Lock) (for_update_ts max_commit_ts : TimeStamp) (max_ts : TimeStamp)
| WMemory (key : Key) (lock : Lock)
| WEngine (key : Key) (lock : Lock)
| WDone (key : Key) (lock : Lock)
| WFailed.

(** The shared state: the manager and the locks that reached the engine. *)
Record Shared := mk_shared { sh_cm : ConcurrencyManager; sh_written : list (Key * Lock) }.

(** The next entry of the table in the range. *)
Definition next_entry (table : gmap Key (option Lock)) (target : Target) (past : option Key) : option Key :=
  let inside key := match target with TRange start_key end_key => key_in_range start_key end_key key | TKeys _ => false end in
  fst <$> List.find (fun e => inside e.1 && match past with Some k => bltb k e.1 | None => true end) (entries table).

Section Interleaving.
  (* The read. *)
  Context (start_ts : TimeStamp) (bypass_locks : TsSet) (target : Target).

(** [free key] says that no closure runs under the mutex of the key's store. *)
Definition reader_step (env : CmEnv) (free : Key -> bool) (sh : Shared) (r : RTask) : option (Shared * RTask) :=
  match r with
  | RStart =>
      match update_max_ts env (sh_cm sh) start_ts with
      | (Ok _, cm) =>
          Some (mk_shared cm (sh_written sh), match target with TKeys keys => RCheck keys | TRange _ _ => RWalk None end)
      | (_, cm) => Some (mk_shared cm (sh_written sh), RFailed)
      end
  | RCheck [] => Some (sh, RSnapshot (sh_written sh))
  | RCheck (key :: todo) =>
      match cm_lock_table (sh_cm sh) !! key with
      | Some _ => Some (sh, RHandle key todo)
      | None => Some (sh, RCheck todo)
      end
  | RHandle key todo =>
      if free key then
        match check_key_lock (sh_cm sh) start_ts bypass_locks Si key with
        | Ok _ => Some (sh, RCheck todo)
        | _ => Some (sh, RFailed)
        end
      else None
  | RWalk past =>
      match next_entry (cm_lock_table (sh_cm sh)) target past with
      | Some key => Some (sh, REntry key)
      | None => Some (sh, RSnapshot (sh_written sh))
      end
  | REntry key =>
      if free key then
        match check_key_lock (sh_cm sh) start_ts bypass_locks Si key with
        | Ok _ => Some (sh, RWalk (Some key))
        | _ => Some (sh, RFailed)
        end
      else None
  | RSnapshot _ | RFailed => None
  end.

Definition writer_step (sh : Shared) (w : WTask) : option (Shared * WTask) :=
  match w with
  | WStart key lock f m =>
      cm ← cm_lock_key (sh_cm sh) key; Some (mk_shared cm (sh_written sh), WGuard key lock f m)
  | WGuard key lock f m => Some (sh, WHeld key lock f m)
  | WHeld key lock f m => Some (sh, WMax key lock f m (cm_max_ts (sh_cm sh)))
  | WMax key lock f m max_ts =>
      match publish_lock max_ts lock (lock_ts lock) f m with
      | Ok lock => Some (mk_shared (guard_set_lock (sh_cm sh) key (Some lock)) (sh_written sh), WMemory key lock)
      | _ => Some (mk_shared (guard_drop (sh_cm sh) key) (sh_written sh), WFailed)
      end
  | WMemory key lock => Some (mk_shared (sh_cm sh) (sh_written sh ++ [(key, lock)]), WEngine key lock)
  | WEngine key lock => Some (mk_shared (guard_drop (sh_cm sh) key) (sh_written sh), WDone key lock)
  | WDone _ _ | WFailed => None
  end.

Definition in_closure (key : Key) (w : WTask) : bool :=
  match w with
  | WHeld k _ _ _ | WMax k _ _ _ _ => bool_decide (k = key)
  | _ => false
  end.

Definition store_free (ws : list WTask) (key : Key) : bool := negb (existsb (in_closure key) ws).

Record World := mk_world { w_shared : Shared; w_reader : RTask; w_writers : list WTask }.

(** Steps of the reader and of the writers; new writers; and updates of
    [max_ts] by other readers. *)
Inductive world_step : World -> World -> Prop :=
| step_reader env sh r ws sh' r' :
    reader_step env (store_free ws) sh r = Some (sh', r') -> world_step (mk_world sh r ws) (mk_world sh' r' ws)
| step_writer sh r ws i w sh' w' :
    ws !! i = Some w -> writer_step sh w = Some (sh', w') ->
    world_step (mk_world sh r ws) (mk_world sh' r (<[i := w']> ws))
| step_new sh r ws key lock f m :
    world_step (mk_world sh r ws) (mk_world sh r (ws ++ [WStart key lock f m]))
| step_max_ts env sh r ws ts :
    world_step (mk_world sh r ws)
      (mk_world (mk_shared (update_max_ts env (sh_cm sh) ts).2 (sh_written sh)) r ws).
End Interleaving.

(** ** The invariant *)

(** The key whose guard a writer holds, and what the table says there. *)
Definition guarded (w : WTask) : option (Key * option Lock) :=
  match w with
  | WGuard k _ _ _ | WHeld k _ _ _ | WMax k _ _ _ _ => Some (k, None)
  | WMemory k l | WEngine k l => Some (k, Some l)
  | _ => None
  end.

(** The lock a writer has made visible. *)
Definition published (w : WTask) : option (Key * Lock) :=
  match w with
  | WMemory k l | WEngine k l | WDone k l => Some (k, l)
  | _ => None
  end.

(** The guards: one writer for each key of the table. *)
Record guards_ok (sh : Shared) (ws : list WTask) : Prop := {
  gu_table : forall i w k o, ws !! i = Some w -> guarded w = Some (k, o) -> cm_lock_table (sh_cm sh) !! k = Some o;
  gu_unique : forall i j w w' k o o', ws !! i = Some w -> ws !! j = Some w' ->
    guarded w = Some (k, o) -> guarded w' = Some (k, o') -> i = j;
  gu_written : forall i k l, (ws !! i = Some (WEngine k l) \/ ws !! i = Some (WDone k l)) -> (k, l) ∈ sh_written sh
}.

(** The table after a writer's step. *)
Lemma writer_step_table sh w sh' w' :
  writer_step sh w = Some (sh', w') ->
  (forall k o, guarded w = Some (k, o) -> cm_lock_table (sh_cm sh) !! k = Some o) ->
  (forall k o, guarded w' = Some (k, o) -> cm_lock_table (sh_cm sh') !! k = Some o)
  /\ (forall k o, cm_lock_table (sh_cm sh) !! k = Some o -> (forall o', guarded w <> Some (k, o')) ->
       cm_lock_table (sh_cm sh') !! k = Some o /\ forall o', guarded w' <> Some (k, o')).
Proof.
  intros H Hg. destruct w as [key lock f m|key lock f m|key lock f m|key lock f m mx|key lock|key lock|key lock|];
    cbn [writer_step] in H; try (injection H as <- <-); cbn [guarded] in *.
  - unfold cm_lock_key in H. destruct (cm_lock_table (sh_cm sh) !! key) eqn:E; [done|]. injection H as <- <-.
    cbn [guarded sh_cm cm_lock_table cm_with_table]. split.
    + intros k o [= -> <-]. by rewrite lookup_insert_eq.
    + intros k o Hk _. assert (k <> key) by congruence. rewrite lookup_insert_ne by done. split; [done|congruence].
  - split; [done|]. intros k o Hk Hn. split; [done|]. naive_solver.
  - split; [done|]. intros k o Hk Hn. split; [done|]. naive_solver.
  - destruct (publish_lock mx lock (lock_ts lock) f m) as [l| |]; injection H as <- <-;
      cbn [guarded sh_cm cm_lock_table cm_with_table guard_set_lock guard_drop]; (split; [try done|]).
    + intros k o [= -> <-]. by rewrite lookup_insert_eq.
    + intros k o Hk Hn. assert (k <> key) by naive_solver. rewrite lookup_insert_ne by done. split; [done|congruence].
    + intros k o Hk Hn. assert (k <> key) by naive_solver. by rewrite lookup_delete_ne.
    + intros k o Hk Hn. assert (k <> key) by naive_solver. by rewrite lookup_delete_ne.
  - split; [done|]. intros k o Hk Hn. split; [done|]. naive_solver.
  - split; [done|]. intros k o Hk Hn. assert (k <> key) by naive_solver.
    cbn [sh_cm cm_lock_table cm_with_table guard_drop]. by rewrite lookup_delete_ne.
  - done.
  - done.
Qed.

(** What reached the engine stays there. *)
Lemma writer_step_written sh w sh' w' :
  writer_step sh w = Some (sh', w') ->
  sh_written sh ⊆ sh_written sh'
  /\ forall k l, (w' = WEngine k l -> (k, l) ∈ sh_written sh')
      /\ (w' = WDone k l -> w = WEngine k l).
Proof.
  intros H. destruct w; cbn [writer_step] in H; try (injection H as <- <-); cbn [sh_written]; try (split; [done|]; split; congruence).
  - unfold cm_lock_key in H. destruct (_ !! _); [done|]. injection H as <- <-. split; [done|]. split; congruence.
  - destruct (publish_lock _ _ _ _ _); injection H as <- <-; (split; [done|]; split; congruence).
  - split; [set_solver|]. intros k l. split; [|congruence]. intros [= -> ->]. set_solver.
Qed.

(** Two writers at the places [i] and [j] after a step of the one at [i]. *)
Lemma lookup_two {A} (ws : list A) i w' j x :
  <[i := w']> ws !! j = Some x -> (i = j /\ x = w') \/ (i <> j /\ ws !! j = Some x).
Proof.
  destruct (decide (i = j)) as [<-|Hne].
  - intros H. left. split; [done|]. assert (i < length ws)%nat as Hl.
    { apply lookup_lt_Some in H. by rewrite length_insert in H. }
    rewrite list_lookup_insert_eq in H by done. congruence.
  - rewrite list_lookup_insert_ne by done. auto.
Qed.

Lemma writer_step_guards sh ws i w sh' w' :
  guards_ok sh ws -> ws !! i = Some w -> writer_step sh w = Some (sh', w') -> guards_ok sh' (<[i := w']> ws).
Proof.
  intros [Ht Hu Hw] Hi H.
  destruct (writer_step_table _ _ _ _ H (fun k o => Ht i w k o Hi)) as [Hown Hother].
  destruct (writer_step_written _ _ _ _ H) as [Hsub Hnew].
  assert (forall j x k o, ws !! j = Some x -> i <> j -> guarded x = Some (k, o) -> forall o', guarded w <> Some (k, o')) as Hdis.
  { intros j x k o Hj Hne Hx o' Hwk. by destruct Hne; eapply Hu. }
  split.
  - intros j x k o [[-> ->]|[Hne Hj]]%lookup_two Hx; [by apply Hown|]. eapply Hother; eauto.
  - intros j1 j2 x1 x2 k o1 o2 [[E1 ->]|[Hn1 Hj1]]%lookup_two [[E2 ->]|[Hn2 Hj2]]%lookup_two H1 H2.
    + congruence.
    + destruct (Hother k o2) as [_ Hno]; [by eapply Ht|by eapply Hdis|]. by destruct (Hno o1).
    + destruct (Hother k o1) as [_ Hno]; [by eapply Ht|by eapply Hdis|]. by destruct (Hno o2).
    + by eapply Hu.
  - intros j k l [[[-> E]|[Hne Hj]]%lookup_two|[[-> E]|[Hne Hj]]%lookup_two].
    + by apply (Hnew k l).
    + apply Hsub. eauto.
    + apply Hsub. apply (Hw j). left. rewrite Hi. f_equal. by apply (Hnew k l).
    + apply Hsub. eauto.
Qed.

Lemma writer_step_max sh w sh' w' :
  writer_step sh w = Some (sh', w') -> cm_max_ts (sh_cm sh') = cm_max_ts (sh_cm sh).
Proof.
  destruct w as [key lock f m|key lock f m|key lock f m|key lock f m mx|key lock|key lock|key lock|]; cbn [writer_step];
    intros H; try done; try (by injection H as <- _).
  - unfold cm_lock_key in H. destruct (cm_lock_table (sh_cm sh) !! key); [done|]. by injection H as <- _.
  - by destruct (publish_lock mx lock (lock_ts lock) f m); injection H as <- _.
Qed.

Lemma guards_new sh ws key lock f m : guards_ok sh ws -> guards_ok sh (ws ++ [WStart key lock f m]).
Proof.
  intros [Ht Hu Hw].
  assert (forall j x, (ws ++ [WStart key lock f m]) !! j = Some x -> x = WStart key lock f m \/ ws !! j = Some x) as Hj.
  { intros j x [?|[_ Hx]]%lookup_app_Some; [by right|left]. apply list_lookup_singleton_Some in Hx as [_ <-]. done. }
  split.
  - intros i w k o [->|Hi]%Hj Hg; [done|eauto].
  - intros i j w w' k o o' [->|Hi]%Hj [->|Hk]%Hj Hg Hg'; try done. eauto.
  - intros i k l [[?|?]%Hj|[?|?]%Hj]; try done; eauto.
Qed.

Section Invariant.
  Context (start_ts : TimeStamp) (bypass_locks : TsSet) (target : Target).
  Hypothesis Hts : is_u64 start_ts.
  Hypothesis Hmax : ts_is_max start_ts = false.

(** A read at [start_ts] may ignore the lock. *)
Definition ignores (k : Key) (l : Lock) : Prop := check_ts_conflict l k start_ts bypass_locks Si = Ok tt.

(** The reader has no more to check about the key. *)
Definition key_checked (r : RTask) (k : Key) : Prop :=
  target_has target k /\
  match r with
  | RStart | RFailed => False
  | RCheck todo => k ∉ todo
  | RHandle key todo => k ∉ key :: todo
  | RWalk past => match past with Some key => ble k key | None => False end
  | REntry key => blt k key
  | RSnapshot _ => True
  end.

Definition writer_safe (r : RTask) (w : WTask) : Prop :=
  match w with
  | WMax k _ _ _ max_ts => key_checked r k -> start_ts <= max_ts
  | WMemory k l => key_checked r k -> ignores k l
  | WEngine k l | WDone k l => forall seen, r = RSnapshot seen -> target_has target k -> (k, l) ∈ seen \/ ignores k l
  | _ => True
  end.

Record world_inv (x : World) : Prop := {
  wi_guards : guards_ok (w_shared x) (w_writers x);
  wi_max_ts : w_reader x <> RStart -> w_reader x <> RFailed -> start_ts <= cm_max_ts (sh_cm (w_shared x));
  wi_safe : Forall (writer_safe (w_reader x)) (w_writers x)
}.

Lemma publish_ignored max_ts lock k f m l :
  start_ts <= max_ts -> publish_lock max_ts lock (lock_ts lock) f m = Ok l -> ignores k l.
Proof using Hts.
  intros Hle. unfold publish_lock, ts_next.
  destruct (Z.ltb_spec (Z.max (Z.max max_ts (lock_ts lock)) f) u64_max) as [Hlt|]; [|done]. cbn [mbind res_bind].
  destruct (_ && _); [done|]. intros [= <-]. unfold ignores, check_ts_conflict, check_ts_conflict_si.
  destruct (_ || _ || _); [done|]. cbn [lock_min_commit_ts lock_with_min_commit_ts].
  rewrite wrap64_small by u64_lia.
  destruct (Z.ltb_spec start_ts (Z.max (lock_min_commit_ts lock) (Z.max (Z.max max_ts (lock_ts lock)) f + 1))); [done|lia].
Qed.

Lemma update_max_ts_table env cm ts : cm_lock_table (update_max_ts env cm ts).2 = cm_lock_table cm.
Proof using.
  unfold update_max_ts, double_check, set_max_ts_limit. by repeat case_match; simplify_eq; repeat case_match; simplify_eq.
Qed.

Lemma guards_same_table cm cm' written ws :
  cm_lock_table cm' = cm_lock_table cm -> guards_ok (mk_shared cm written) ws -> guards_ok (mk_shared cm' written) ws.
Proof using. intros E [Ht Hu Hw]. split; cbn [sh_cm sh_written] in *; [by rewrite E|done|done]. Qed.

(** The writer's own step. *)
Lemma writer_step_safe sh w sh' w' r :
  (r <> RStart -> r <> RFailed -> start_ts <= cm_max_ts (sh_cm sh)) ->
  writer_safe r w -> writer_step sh w = Some (sh', w') -> writer_safe r w'.
Proof using Hts.
  intros Hm Hs H. destruct w as [key lock f m|key lock f m|key lock f m|key lock f m mx|key lock|key lock|key lock|];
    cbn [writer_step] in H; try (injection H as <- <-); cbn [writer_safe] in *; try done.
  - unfold cm_lock_key in H. destruct (_ !! _); [done|]. by injection H as <- <-.
  - intros [_ Hr]. apply Hm; by intros ->.
  - destruct (publish_lock mx lock (lock_ts lock) f m) as [l| |] eqn:E; injection H as <- <-; try done.
    cbn [writer_safe]. intros Hc. eapply publish_ignored; [by apply Hs|exact E].
  - intros seen -> Hk. right. by apply Hs.
Qed.

(** A step of the reader that leaves the set of checked keys. *)
Lemma safe_mono r r' w :
  (forall k, key_checked r' k -> key_checked r k) -> (forall seen, r' = RSnapshot seen -> r = RSnapshot seen) ->
  writer_safe r w -> writer_safe r' w.
Proof using. intros Hc Hr Hs. destruct w; cbn [writer_safe] in *; try done; auto. all: intros seen E; eauto. Qed.

(** The reader has looked at the store of [key], or there is none. *)
Lemma safe_looked sh ws key r r' w i :
  guards_ok sh ws -> ws !! i = Some w -> start_ts <= cm_max_ts (sh_cm sh) ->
  (forall o, guarded w = Some (key, o) -> in_closure key w = false
     /\ forall l, o = Some l -> ignores key l) ->
  (forall k, key_checked r' k -> k = key \/ key_checked r k) -> (forall seen, r' <> RSnapshot seen) ->
  writer_safe r w -> writer_safe r' w.
Proof using.
  intros Hg Hi Hm Hlook Hc Hr' Hs. destruct w as [k lock f m|k lock f m|k lock f m|k lock f m mx|k lock|k lock|k lock|];
    cbn [writer_safe guarded in_closure] in *; try done.
  - intros Hk. destruct (Hc k Hk) as [->|Hk']; [|by apply Hs].
    destruct (Hlook None eq_refl) as [Hf _]. by rewrite bool_decide_eq_true_2 in Hf.
  - intros Hk. destruct (Hc k Hk) as [->|Hk']; [|by apply Hs]. by destruct (Hlook (Some lock) eq_refl) as [_ H]; apply H.
  - intros seen E. by destruct (Hr' seen).
  - intros seen E. by destruct (Hr' seen).
Qed.

Lemma checked_cons r key todo k :
  r = RCheck (key :: todo) \/ r = RHandle key todo -> key_checked (RCheck todo) k -> k = key \/ key_checked r k.
Proof using.
  intros Hr [Hk Hn]. destruct (decide (k = key)) as [->|Hne]; [by left|right].
  split; [done|]. destruct Hr as [-> | ->]; by apply not_elem_of_cons.
Qed.

Lemma checked_entry key k : key_checked (RWalk (Some key)) k -> k = key \/ key_checked (REntry key) k.
Proof using. intros [Hk Hle]. cbn in Hle. apply ble_alt in Hle as [Hlt|E]; [right; by split|left; congruence]. Qed.

Lemma walk_checked past k (P : Prop) :
  target_has target k -> match past with Some key => ble k key | None => False end \/ P -> key_checked (RWalk past) k \/ P.
Proof using. intros Hk [Hp|Hp]; [left; by split|by right]. Qed.

(** No entry lies between where the walk is and the next entry. *)
Lemma next_entry_Some table past key :
  next_entry table target past = Some key ->
  forall k, key_checked (REntry key) k -> key_checked (RWalk past) k \/ table !! k = None.
Proof using.
  unfold next_entry. intros Hf k [Hk Hlt]. apply walk_checked; [done|]. destruct target as [|start_key end_key].
  { apply fmap_Some in Hf as (e & Hf & _). by apply find_some in Hf as [_ Hf]. }
  apply fmap_Some in Hf as ([key' o] & Hf & ->). destruct (table !! k) as [o'|] eqn:Ek; [left|by right].
  assert (match past with Some p => bltb p k | None => true end = false) as Hp.
  { destruct (match past with Some p => bltb p k | None => true end) eqn:E; [exfalso|done].
    pose proof (entries_sorted table) as Hsort. cbn in Hlt. destruct (find_least _ _ _ _ Hsort Hf) as (_ & _ & Hleast).
    destruct (Hleast (k, o')) as [[= -> ->]|Hl]; [by apply elem_of_entries|cbn in Hk |- *; by rewrite Hk, E|..].
    - by apply blt_irrefl in Hlt.
    - cbn in Hl. apply blt_irrefl with key'. by eapply blt_trans. }
  destruct past as [p|]; [by apply bltb_ge in Hp|done].
Qed.

Lemma next_entry_None table past :
  next_entry table target past = None -> (exists start_key end_key, target = TRange start_key end_key) ->
  forall k, target_has target k -> key_checked (RWalk past) k \/ table !! k = None.
Proof using.
  unfold next_entry. intros Hf (start_key & end_key & Et) k Hk. apply walk_checked; [done|]. rewrite Et in Hf, Hk. apply fmap_None in Hf.
  destruct (table !! k) as [o|] eqn:Ek; [left|by right].
  assert ((k, o) ∈ entries table) as Hin by (by apply elem_of_entries).
  apply list_elem_of_In in Hin. pose proof (find_none _ _ Hf _ Hin) as Hn. cbn in Hn, Hk. rewrite Hk in Hn. cbn in Hn.
  destruct past as [p|]; [by apply bltb_ge in Hn|done].
Qed.

Lemma update_max_ts_ok env cm cm' :
  update_max_ts env cm start_ts = (Ok tt, cm') -> start_ts <= cm_max_ts cm'.
Proof using Hmax.
  intros E. pose proof (update_max_ts_covers env cm start_ts) as H. rewrite E in H. by apply H.
Qed.

Lemma unchecked_safe r w :
  (forall k, ~ key_checked r k) -> (forall seen, r <> RSnapshot seen) -> writer_safe r w.
Proof using. intros Hc Hr. destruct w; cbn [writer_safe]; try done; intros; exfalso; first [by eapply Hc|by eapply Hr]. Qed.

Lemma free_not_in_closure ws key i w : store_free ws key = true -> ws !! i = Some w -> in_closure key w = false.
Proof using.
  intros Hf Hi. unfold store_free in Hf. apply negb_true_iff in Hf. destruct (in_closure key w) eqn:E; [|done].
  assert (existsb (in_closure key) ws = true); [|congruence].
  apply existsb_exists. exists w. split; [|done]. apply list_elem_of_In. by eapply list_elem_of_lookup_2.
Qed.

Lemma looked_inv sh ws key r r' :
  world_inv (mk_world sh r ws) -> r <> RStart -> r <> RFailed ->
  (forall k, key_checked r' k -> k = key \/ key_checked r k) -> (forall seen, r' <> RSnapshot seen) ->
  (forall i w o, ws !! i = Some w -> guarded w = Some (key, o) ->
     in_closure key w = false /\ forall l, o = Some l -> ignores key l) ->
  world_inv (mk_world sh r' ws).
Proof using.
  intros [Hg Hm Hs] Hr1 Hr2 Hc Hr' Hlook. cbn [w_shared w_reader w_writers] in *.
  assert (start_ts <= cm_max_ts (sh_cm sh)) as Hle by (by apply Hm).
  split; cbn [w_shared w_reader w_writers]; [done|done|]. apply Forall_lookup. intros i w Hi.
  eapply (safe_looked sh ws key r r'); [done..|by intros o Ho; eapply Hlook|done|done|].
  by eapply Forall_lookup_1 in Hs.
Qed.

(** Keys without an entry have no writer that could harm. *)
Lemma absent_inv sh ws r r' :
  world_inv (mk_world sh r ws) -> r <> RStart -> r <> RFailed ->
  (forall k, key_checked r' k -> key_checked r k \/ cm_lock_table (sh_cm sh) !! k = None) ->
  (forall seen, r' = RSnapshot seen -> seen = sh_written sh) ->
  world_inv (mk_world sh r' ws).
Proof using.
  intros [Hg Hm Hs] Hr1 Hr2 Hc Hsnap. cbn [w_shared w_reader w_writers] in *.
  split; cbn [w_shared w_reader w_writers]; [done|by intros; apply Hm|]. apply Forall_lookup. intros i w Hi.
  pose proof (Forall_lookup_1 _ _ _ _ Hs Hi) as Hw.
  destruct w as [k lock f m|k lock f m|k lock f m|k lock f m mx|k lock|k lock|k lock|]; cbn [writer_safe] in *; try done.
  - intros [Hk|Hk]%Hc; [by apply Hw|]. by rewrite (gu_table _ _ Hg i _ k None Hi eq_refl) in Hk.
  - intros [Hk|Hk]%Hc; [by apply Hw|]. by rewrite (gu_table _ _ Hg i _ k (Some lock) Hi eq_refl) in Hk.
  - intros seen ->%Hsnap _. left. eapply (gu_written _ _ Hg); eauto.
  - intros seen ->%Hsnap _. left. eapply (gu_written _ _ Hg); eauto.
Qed.

(** The handle of a key is held, and its lock, if any, passes. *)
Lemma handle_inv sh ws key r r' :
  world_inv (mk_world sh r ws) -> r <> RStart -> r <> RFailed ->
  (forall k, key_checked r' k -> k = key \/ key_checked r k) -> (forall seen, r' <> RSnapshot seen) ->
  store_free ws key = true -> check_key_lock (sh_cm sh) start_ts bypass_locks Si key = Ok tt ->
  world_inv (mk_world sh r' ws).
Proof using.
  intros Hinv Hr1 Hr2 Hc Hr' Hf Hl. pose proof Hinv as [Hg _ _]. cbn [w_shared w_writers] in Hg.
  eapply looked_inv; [exact Hinv|done|done|exact Hc|done|]. intros i w o Hi Ho. split; [by eapply free_not_in_closure|].
  intros l ->. pose proof (gu_table _ _ Hg i w key _ Hi Ho) as E. unfold check_key_lock, read_key_check in Hl. by rewrite E in Hl.
Qed.

(** The kind of the read's states. *)
Definition reader_fits (r : RTask) : Prop :=
  match r with RWalk _ | REntry _ => exists start_key end_key, target = TRange start_key end_key | _ => True end.

Lemma failed_inv sh r ws : world_inv (mk_world sh r ws) -> world_inv (mk_world sh RFailed ws).
Proof using.
  intros [Hg _ _]. split; cbn [w_shared w_reader w_writers]; [done|done|]. apply Forall_forall. intros w _.
  apply unchecked_safe; [by intros k [_ ?]|done].
Qed.

Lemma reader_start_inv env sh ws sh' r' :
  world_inv (mk_world sh RStart ws) -> reader_step start_ts bypass_locks target env (store_free ws) sh RStart = Some (sh', r') ->
  world_inv (mk_world sh' r' ws) /\ reader_fits r'.
Proof using Hmax.
  intros [Hg Hm Hs] H. cbn [w_shared w_reader w_writers] in *. cbn [reader_step] in H.
  destruct (update_max_ts env (sh_cm sh) start_ts) as [x cm] eqn:E.
  pose proof (update_max_ts_table env (sh_cm sh) start_ts) as Et. rewrite E in Et. cbn [snd] in Et.
  assert (guards_ok (mk_shared cm (sh_written sh)) ws) as Hg' by (destruct sh; by eapply guards_same_table).
  assert (forall r, (forall k, ~ key_checked r k) -> (forall seen, r <> RSnapshot seen) -> Forall (writer_safe r) ws) as Hnone.
  { intros r1 H1 H2. apply Forall_forall. intros w _. by apply unchecked_safe. }
  destruct x as [[]| |]; injection H as <- <-.
  - split; [|destruct target eqn:Etarget; cbn; eauto]. split; cbn [w_shared w_reader w_writers]; [done|intros _ _; by eapply update_max_ts_ok|].
    apply Hnone; [|by destruct target]. intros k [Hk Hn]. by destruct target.
  - split; [|done]. split; cbn [w_shared w_reader w_writers]; [done|done|]. apply Hnone; [by intros k [_ ?]|done].
  - split; [|done]. split; cbn [w_shared w_reader w_writers]; [done|done|]. apply Hnone; [by intros k [_ ?]|done].
Qed.

Lemma reader_step_inv env sh r ws sh' r' :
  world_inv (mk_world sh r ws) -> reader_fits r ->
  reader_step start_ts bypass_locks target env (store_free ws) sh r = Some (sh', r') ->
  world_inv (mk_world sh' r' ws) /\ reader_fits r'.
Proof using Hmax.
  intros Hinv Hfit H. destruct r as [|[|key todo]|key todo|past|key| |]; cbn [reader_step] in H; [| | | | | |done|done].
  - by eapply reader_start_inv.
  - injection H as <- <-. split; [|done]. eapply absent_inv; [exact Hinv|done|done| |by intros seen [= <-]].
    intros k [Hk _]. left. split; [done|]. apply not_elem_of_nil.
  - destruct (cm_lock_table (sh_cm sh) !! key) as [o|] eqn:E; injection H as <- <-; (split; [|done]).
    + eapply absent_inv; [exact Hinv|done|done| |done]. intros k Hk. left. exact Hk.
    + eapply absent_inv; [exact Hinv|done|done| |done]. intros k Hk.
      destruct (checked_cons (RCheck (key :: todo)) key todo k) as [->|?]; auto.
  - destruct (store_free ws key) eqn:Ef; [|done].
    destruct (check_key_lock _ _ _ _ _) as [[]| |] eqn:Ec; injection H as <- <-; (split; [|done]); [|by eapply failed_inv..].
    eapply (handle_inv _ _ key); [exact Hinv|done|done| |done|done|done]. intros k Hk. apply (checked_cons _ key todo); [by right|done].
  - destruct (next_entry (cm_lock_table (sh_cm sh)) target past) as [key|] eqn:E; injection H as <- <-.
    + split; [|done]. eapply absent_inv; [exact Hinv|done|done|by apply next_entry_Some|done].
    + split; [|done]. eapply absent_inv; [exact Hinv|done|done| |by intros seen [= <-]].
      intros k [Hk _]. by eapply next_entry_None.
  - destruct (store_free ws key) eqn:Ef; [|done].
    destruct (check_key_lock _ _ _ _ _) as [[]| |] eqn:Ec; injection H as <- <-; (split; [|done]); [|by eapply failed_inv..].
    eapply (handle_inv _ _ key); [exact Hinv|done|done|by apply checked_entry|done|done|done].
Qed.

Lemma world_step_inv x y :
  world_inv x -> reader_fits (w_reader x) -> world_step start_ts bypass_locks target x y -> world_inv y /\ reader_fits (w_reader y).
Proof using Hmax Hts.
  intros Hinv Hfit H. destruct H as [env sh r ws sh' r' H|sh r ws i w sh' w' Hi H|sh r ws key lock f m|env sh r ws ts].
  - by eapply reader_step_inv.
  - split; [|done]. pose proof Hinv as [Hg Hm Hs]. cbn [w_shared w_reader w_writers] in *. split; cbn [w_shared w_reader w_writers].
    + by eapply writer_step_guards.
    + intros H1 H2. rewrite (writer_step_max _ _ _ _ H). auto.
    + apply Forall_insert; [done|]. eapply writer_step_safe; [exact Hm| |exact H]. by eapply Forall_lookup_1 in Hs.
  - split; [|done]. destruct Hinv as [Hg Hm Hs]. cbn [w_shared w_reader w_writers] in *. split; cbn [w_shared w_reader w_writers]; [|done|].
    + by apply guards_new.
    + apply Forall_app. split; [done|]. by apply Forall_singleton.
  - split; [|done]. destruct Hinv as [Hg Hm Hs]. cbn [w_shared w_reader w_writers] in *. split; cbn [w_shared w_reader w_writers]; [| |done].
    + destruct sh as [cm wr]. eapply guards_same_table; [apply update_max_ts_table|done].
    + intros H1 H2. specialize (Hm H1 H2). pose proof (update_max_ts_monotone env (sh_cm sh) ts). cbn [sh_cm]. lia.
Qed.
End Invariant.

(** ** The guarantee *)

(** A read that begins on a store whose lock table is empty. *)
Definition world_start (cm : ConcurrencyManager) (written : list (Key * Lock)) : World :=
  mk_world (mk_shared cm written) RStart [].

Lemma world_start_inv start_ts bypass_locks target cm written :
  world_inv start_ts bypass_locks target (world_start cm written).
Proof. split; cbn; [|done|by constructor]. split; intros *; rewrite ?lookup_nil; [done|done|by intros [?|?]]. Qed.

(** Why a read ignores a lock. *)
Lemma ignored_commits_later start_ts bypass_locks key lock :
  ts_is_max start_ts = false -> check_ts_conflict lock key start_ts bypass_locks Si = Ok tt ->
  start_ts < lock_min_commit_ts lock \/ start_ts < lock_ts lock
  \/ (lock_type lock <> LTPut /\ lock_type lock <> LTDelete) \/ TsSet_contains bypass_locks (lock_ts lock) = true.
Proof.
  intros Hmax H. unfold check_ts_conflict, check_ts_conflict_si, is_pessimistic_lock in H.
  destruct (Z.ltb_spec start_ts (lock_ts lock)); [by right; left|].
  destruct (Z.ltb_spec start_ts (lock_min_commit_ts lock)); [by left|].
  destruct (TsSet_contains bypass_locks (lock_ts lock)); [by do 3 right|].
  right. right. left. unfold ts_is_max in Hmax. unfold ts_max in H. rewrite Hmax in H.
  destruct (lock_type lock); cbn [bool_decide orb andb] in H; try done; exfalso; by destruct (map_err TCodec (key_to_raw key)).
Qed.


(** A scan at 10, and meanwhile a prewrite of one of its keys that started at
    5: the scan meets the entry, before the prewrite reads [max_ts]. *)
Definition sample_cm : ConcurrencyManager := cm_new_with_config 1 0 1000 ActError 0.
Definition sample_env : CmEnv := mk_env 0 None.
Definition async_lock : Lock := lock_set_use_async_commit (lock_new LTPut [] 5 100 None 0 1 0 false) [].

