(* ===== verification/AgentScheduler.v ===== *)
(** * The agentic-aware write scheduler
    (src/server/service/agent_scheduler.rs, and the raw write handlers of
    src/server/service/kv.rs)

    Raw writes carry a priority and a deadline in their headers. A write waits
    until enough of the store's write slots are free for its priority, or
    until its deadline is near. The global counters are one record; the
    requests are tasks that interleave their atomic operations on it. *)
From S2P Require Import Prelude.
From Stdlib Require Strings.String.
Import Strings.String.StringSyntax.

Local Open Scope Z_scope.
Local Open Scope list_scope.

(** ** Text in headers *)

Module Text.

Definition str (s : String.string) : bytes := String.list_byte_of_string s.
#[global] Arguments str s%_string_scope.

(** [safe_get(i)] of the UTF-8 decoder: zero past the end. *)
Definition safe_get (l : bytes) : Z := match l with b :: _ => b2z b | [] => 0 end.
Definition is_cont (z : Z) : bool := Z.land z 192 =? 128.
Definition between (lo hi z : Z) : bool := (lo <=? z) && (z <=? hi).

(** The sequence at the head of [first :: l]: the number of bytes consumed
    after [first], and whether it is a scalar value. *)
Definition utf8_sequence (first : Z) (l : bytes) : nat * bool :=
  if first <? 128 then (0%nat, true)
  else if between 194 223 first then
    if is_cont (safe_get l) then (1%nat, true) else (0%nat, false)
  else if between 224 239 first then
    let second := safe_get l in
    if ((first =? 224) && between 160 191 second) || (between 225 236 first && between 128 191 second)
       || ((first =? 237) && between 128 159 second) || (between 238 239 first && between 128 191 second)
    then if is_cont (safe_get (drop 1 l)) then (2%nat, true) else (1%nat, false)
    else (0%nat, false)
  else if between 240 244 first then
    let second := safe_get l in
    if ((first =? 240) && between 144 191 second) || (between 241 243 first && between 128 191 second)
       || ((first =? 244) && between 128 143 second)
    then if is_cont (safe_get (drop 1 l)) then
           if is_cont (safe_get (drop 2 l)) then (3%nat, true) else (2%nat, false)
         else (1%nat, false)
    else (0%nat, false)
  else (0%nat, false).

(** [std::str::from_utf8(v).is_ok()] *)
Fixpoint utf8_valid (fuel : nat) (l : bytes) : bool :=
  match fuel, l with
  | _, [] => true
  | O, _ => false
  | S f, b :: l => let '(n, ok) := utf8_sequence (b2z b) l in if ok then utf8_valid f (drop n l) else false
  end.

Definition REPLACEMENT : bytes := [Byte.xef; Byte.xbf; Byte.xbd].

(** [String::from_utf8_lossy(v)], as the bytes of the string. *)
Fixpoint lossy_loop (fuel : nat) (l : bytes) : bytes :=
  match fuel, l with
  | _, [] => []
  | O, _ => []
  | S f, b :: l =>
      let '(n, ok) := utf8_sequence (b2z b) l in
      (if ok then b :: take n l else REPLACEMENT) ++ lossy_loop f (drop n l)
  end.

Definition from_utf8_lossy (l : bytes) : bytes := lossy_loop (length l) l.

Definition digit (b : byte) : option Z := if between 48 57 (b2z b) then Some (b2z b - 48) else None.

Fixpoint parse_digits (acc : Z) (l : bytes) : option Z :=
  match l with
  | [] => Some acc
  | b :: l =>
      d ← digit b;
      let acc := acc * 10 + d in
      if acc <? 2 ^ 64 then parse_digits acc l else None
  end.

(** [s.parse::<u64>()] *)
Definition parse_u64 (s : bytes) : option Z :=
  match s with
  | [] => None
  | b :: rest =>
      if bool_decide (b = Byte.x2b) then match rest with [] => None | _ => parse_digits 0 rest end
      else parse_digits 0 s
  end.

(** [format!("{}", n)] of a [u64] *)
Fixpoint digits_loop (fuel : nat) (n : Z) (acc : bytes) : bytes :=
  match fuel with
  | O => acc
  | S f =>
      let acc := u8 (48 + n mod 10) :: acc in
      if n <? 10 then acc else digits_loop f (n / 10) acc
  end.

Definition print_u64 (n : Z) : bytes := digits_loop 20 n [].

Definition hex_digit (z : Z) : byte := if z <? 10 then u8 (48 + z) else u8 (87 + z).

(** [write!("{:02x}", b)] *)
Definition print_hex (b : byte) : bytes := [hex_digit (b2z b / 16); hex_digit (b2z b mod 16)].

End Text.
Import Text.

(** ** Data *)

Inductive AawsPriority := High | Medium | Low.

#[export] Instance AawsPriority_eq_dec : EqDecision AawsPriority.
Proof. solve_decision. Defined.

Record AawsMeta := mk_meta {
  am_priority : AawsPriority;
  am_deadline_ms : Z;
  am_actual_key : bytes;
  am_request_id : bytes;
  am_arrival_time_ms : Z;
  am_delay_budget_ms : Z
}.

Inductive Decision := UrgentAdmit | Scheduled | CheckDelay | BaselineImmediate.

Record AawsSchedRecord := mk_sched_record {
  sr_request_id : bytes;
  sr_priority : AawsPriority;
  sr_arrival_time_ms : Z;
  sr_deadline_ms : Z;
  sr_delay_budget_ms : Z;
  sr_scheduled_time_ms : Z;
  sr_scheduling_delay_ms : Z;
  sr_available_threads_at_schedule : Z;
  sr_required_threads : Z;
  sr_decision : Decision
}.

(** The statics of the module. *)
Record Aaws := mk_aaws {
  THRESHOLD_HIGH : Z;
  THRESHOLD_MEDIUM : Z;
  THRESHOLD_LOW : Z;
  MAX_WORKER_SLOTS : Z;
  RUNNING_WRITES : Z;
  TRACE_VEC : list AawsSchedRecord
}.

Definition aaws_static : Aaws := mk_aaws 1 2 4 8 0 [].

Definition BASE_RECHECK_DELAY_MS : Z := 5.
Definition URGENCY_MARGIN_MS : Z := 5.

Definition set_running (s : Aaws) (n : Z) : Aaws :=
  mk_aaws (THRESHOLD_HIGH s) (THRESHOLD_MEDIUM s) (THRESHOLD_LOW s) (MAX_WORKER_SLOTS s) n (TRACE_VEC s).
Definition saturating_sub (a b : Z) : Z := Z.max 0 (a - b).

(** ** Operations on the counters *)

(** [others] is what other requests do between the two loads. *)
Definition get_available_threads (others : Aaws -> Aaws) (s : Aaws) : Z * Aaws :=
  let running := RUNNING_WRITES s in
  let s := others s in
  let max_slots := MAX_WORKER_SLOTS s in
  (saturating_sub max_slots running, s).

Definition required_by_priority (s : Aaws) (p : AawsPriority) : Z :=
  match p with High => THRESHOLD_HIGH s | Medium => THRESHOLD_MEDIUM s | Low => THRESHOLD_LOW s end.

(** [fetch_add] and [fetch_sub] wrap around. *)
Definition inc_running (s : Aaws) : Aaws := set_running s (wrap64 (RUNNING_WRITES s + 1)).
Definition dec_running (s : Aaws) : Aaws := set_running s (wrap64 (RUNNING_WRITES s - 1)).

(** What happens around one attempt of the loop: what other requests do before
    the first load, before the second and before the exchange, and whether the
    weak exchange fails without a reason. *)
Record Attempt := mk_attempt {
  at_load : Aaws -> Aaws;
  at_max : Aaws -> Aaws;
  at_cas : Aaws -> Aaws;
  at_spurious : bool
}.

(** [None] when the attempts run out. *)
Fixpoint try_reserve_slot (fuel : nat) (attempts : nat -> Attempt) (i : nat) (s : Aaws) (required_min_available : Z)
    : option (bool * Aaws) :=
  match fuel with
  | O => None
  | S f =>
      let s := at_load (attempts i) s in
      let current := RUNNING_WRITES s in
      let s := at_max (attempts i) s in
      let max_slots := MAX_WORKER_SLOTS s in
      let available := saturating_sub max_slots current in
      if available <? required_min_available then Some (false, s)
      else
        let s := at_cas (attempts i) s in
        if negb (at_spurious (attempts i)) && (RUNNING_WRITES s =? current)
        then Some (true, set_running s (wrap64 (current + 1)))
        else try_reserve_slot f attempts (S i) s required_min_available
  end.

Definition undisturbed : nat -> Attempt := fun _ => mk_attempt id id id false.

Definition record_scheduling_event (s : Aaws) (rec : AawsSchedRecord) : Aaws :=
  mk_aaws (THRESHOLD_HIGH s) (THRESHOLD_MEDIUM s) (THRESHOLD_LOW s) (MAX_WORKER_SLOTS s) (RUNNING_WRITES s)
    (TRACE_VEC s ++ [rec]).

Definition record_from_meta (s : Aaws) (meta : AawsMeta) (decision : Decision) (event_time_ms avail required : Z) : Aaws :=
  record_scheduling_event s
    (mk_sched_record (am_request_id meta) (am_priority meta) (am_arrival_time_ms meta) (am_deadline_ms meta)
       (am_delay_budget_ms meta) event_time_ms (saturating_sub event_time_ms (am_arrival_time_ms meta)) avail required
       decision).

Definition init_agent_scheduler (s : Aaws) (pool_size : Z) : Aaws :=
  let pool_size := Z.max pool_size 1 in
  let high := Z.max (wrap64 (1 * pool_size + 4) / 8) 1 in
  let medium := Z.max (wrap64 (2 * pool_size + 4) / 8) 1 in
  let low := Z.max (wrap64 (4 * pool_size + 4) / 8) 1 in
  mk_aaws high medium low pool_size (RUNNING_WRITES s) (TRACE_VEC s).

Definition update_agent_scheduler_pool_size (s : Aaws) (pool_size : Z) : Aaws := init_agent_scheduler s pool_size.

(** ** Waiting for admission *)

(** [t + URGENCY_MARGIN_MS >= meta.deadline_ms] *)
Definition urgent (t : Z) (meta : AawsMeta) : bool := am_deadline_ms meta <=? wrap64 (t + URGENCY_MARGIN_MS).

(** A round of the loop: its two readings of the clock, what other requests do
    while the free slots are counted, the attempts of the reservation, and what
    others do during the wait. *)
Record Round := mk_round {
  rd_t : Z;
  rd_t2 : Z;
  rd_avail : Aaws -> Aaws;
  rd_attempts : nat -> Attempt;
  rd_wait : Aaws -> Aaws
}.

(** The answer of one round, or [None] to wait. *)
Definition sched_round (fuel : nat) (rd : Round) (s : Aaws) (meta : AawsMeta) (required : Z) : option (option bool * Aaws) :=
  let t := rd_t rd in
  if urgent t meta then
    let '(avail, s) := get_available_threads (rd_avail rd) s in
    match try_reserve_slot fuel (rd_attempts rd) 0 s required with
    | None => None
    | Some (true, s) => Some (Some true, record_from_meta s meta UrgentAdmit t avail required)
    | Some (false, s) => Some (Some false, record_from_meta s meta UrgentAdmit t avail required)
    end
  else
    let '(avail, s) := get_available_threads (rd_avail rd) s in
    match try_reserve_slot fuel (rd_attempts rd) 0 s required with
    | None => None
    | Some (true, s) => Some (Some true, record_from_meta s meta Scheduled (rd_t2 rd) avail required)
    | Some (false, s) => Some (None, record_from_meta s meta CheckDelay t avail required)
    end.

Section Wait.
  Context (rounds : nat -> Round).

(** [fuel] bounds the rounds, [tries] the attempts of each reservation. *)
Fixpoint wait_loop (fuel tries : nat) (n : nat) (s : Aaws) (meta : AawsMeta) (required : Z) : option (bool * Aaws) :=
  match fuel with
  | O => None
  | S f =>
      match sched_round tries (rounds n) s meta required with
      | None => None
      | Some (Some r, s) => Some (r, s)
      | Some (None, s) => wait_loop f tries (S n) (rd_wait (rounds n) s) meta required
      end
  end.

Definition maybe_delay_until_sched (fuel tries : nat) (s : Aaws) (meta : AawsMeta) : option (bool * Aaws) :=
  wait_loop fuel tries 0 s meta (required_by_priority s (am_priority meta)).

(** The blocking variant reads the threshold in every round and reserves
    nothing. *)
Definition block_round (rd : Round) (s : Aaws) (meta : AawsMeta) : bool * Aaws :=
  let t := rd_t rd in
  let '(avail, s) := get_available_threads (rd_avail rd) s in
  let required := required_by_priority s (am_priority meta) in
  if urgent t meta then (true, record_from_meta s meta UrgentAdmit t avail required)
  else if required <=? avail then (true, record_from_meta s meta Scheduled (rd_t2 rd) avail required)
  else (false, record_from_meta s meta CheckDelay t avail required).

Fixpoint block_delay_until_sched (fuel : nat) (n : nat) (s : Aaws) (meta : AawsMeta) : option Aaws :=
  match fuel with
  | O => None
  | S f =>
      match block_round (rounds n) s meta with
      | (true, s) => Some s
      | (false, s) => block_delay_until_sched f (S n) (rd_wait (rounds n) s) meta
      end
  end.
End Wait.

Definition maybe_delay_until_sched_baseline (others : Aaws -> Aaws) (s : Aaws) (meta : AawsMeta) (t : Z) : bool * Aaws :=
  let '(avail, s) := get_available_threads others s in
  let required := required_by_priority s (am_priority meta) in
  (false, record_from_meta s meta BaselineImmediate t avail required).

Definition block_delay_until_sched_baseline (others : Aaws -> Aaws) (s : Aaws) (meta : AawsMeta) (t : Z) : Aaws :=
  let '(avail, s) := get_available_threads others s in
  let required := required_by_priority s (am_priority meta) in
  record_from_meta s meta BaselineImmediate t avail required.

(** ** The headers of a raw write *)

Record Headers := mk_headers {
  h_pri : option AawsPriority;
  h_ddl_ms : option Z;
  h_arr_ms : option Z;
  h_delay_budget_ms : option Z;
  h_req_id : option bytes
}.

Definition parse_priority (v : bytes) : AawsPriority :=
  let s := from_utf8_lossy v in
  if bool_decide (s = str "H" \/ s = str "h" \/ s = str "HIGH" \/ s = str "high") then High
  else if bool_decide (s = str "L" \/ s = str "l" \/ s = str "LOW" \/ s = str "low") then Low
  else Medium.

Definition parse_ms (v : bytes) (old : option Z) : option Z :=
  if utf8_valid (length v) v then match parse_u64 v with Some x => Some x | None => old end else old.

Definition parse_header (h : Headers) (kv : bytes * bytes) : Headers :=
  let '(k, v) := kv in
  if bool_decide (k = str "x-aaws-priority") then
    mk_headers (Some (parse_priority v)) (h_ddl_ms h) (h_arr_ms h) (h_delay_budget_ms h) (h_req_id h)
  else if bool_decide (k = str "x-aaws-deadline-ms") then
    mk_headers (h_pri h) (parse_ms v (h_ddl_ms h)) (h_arr_ms h) (h_delay_budget_ms h) (h_req_id h)
  else if bool_decide (k = str "x-aaws-arrival-ms") then
    mk_headers (h_pri h) (h_ddl_ms h) (parse_ms v (h_arr_ms h)) (h_delay_budget_ms h) (h_req_id h)
  else if bool_decide (k = str "x-aaws-delay-budget-ms") then
    mk_headers (h_pri h) (h_ddl_ms h) (h_arr_ms h) (parse_ms v (h_delay_budget_ms h)) (h_req_id h)
  else if bool_decide (k = str "x-aaws-request-id") then
    let s := from_utf8_lossy v in
    mk_headers (h_pri h) (h_ddl_ms h) (h_arr_ms h) (h_delay_budget_ms h)
      (if bool_decide (s = []) then h_req_id h else Some s)
  else h.

Definition parse_headers (headers : list (bytes * bytes)) : Headers :=
  fold_left parse_header headers (mk_headers None None None None None).

(** The scheduling metadata of a request, with the key its identifier shows
    ([auto] of a put, [auto-batch] of a batch). *)
Definition request_meta (auto : bytes) (headers : list (bytes * bytes)) (now_recv_ms : Z) (key : bytes) : option AawsMeta :=
  let h := parse_headers headers in
  match h_pri h, h_ddl_ms h with
  | Some p, Some d =>
      let arrival_time_ms := default now_recv_ms (h_arr_ms h) in
      let key_preview := concat (map print_hex (take 8 key)) in
      let rid := default (auto ++ str ":" ++ print_u64 arrival_time_ms ++ str ":" ++ print_u64 d ++ str ":" ++ key_preview)
                   (h_req_id h) in
      let delay_budget_ms := default (saturating_sub d arrival_time_ms) (h_delay_budget_ms h) in
      Some (mk_meta p d [] rid arrival_time_ms delay_budget_ms)
  | _, _ => None
  end.

(** ** Interleaved requests *)

(** Where a request is. [TStart] is the handler of [raw_put], which calls the
    baseline; [TEnter] calls [maybe_delay_until_sched]. *)
Inductive Task :=
| TStart (meta : option AawsMeta)
| TBaseline (meta : AawsMeta) (t running : Z)
| TEnter (meta : AawsMeta)
| TCheck (meta : AawsMeta) (required : Z)
| TAvail (meta : AawsMeta) (required : Z) (is_urgent : bool) (t : Z)
| TSlots (meta : AawsMeta) (required : Z) (is_urgent : bool) (t running : Z)
| TLoad (meta : AawsMeta) (required : Z) (is_urgent : bool) (t avail : Z)
| TMax (meta : AawsMeta) (required : Z) (is_urgent : bool) (t avail current : Z)
| TCas (meta : AawsMeta) (required : Z) (is_urgent : bool) (t avail current : Z)
| TSleep (meta : AawsMeta) (required : Z)
| TUnreserved
| TRunning (reserved : bool)
| TDone.

(** The next atomic operation of a request. [now] is what the clock says;
    [spurious] says that the weak exchange fails without a reason. *)
Definition task_step (s : Aaws) (now : Z) (spurious : bool) (tk : Task) : Aaws * Task :=
  match tk with
  | TStart (Some meta) => (s, TBaseline meta now (RUNNING_WRITES s))
  | TBaseline meta t running =>
      let avail := saturating_sub (MAX_WORKER_SLOTS s) running in
      (record_from_meta s meta BaselineImmediate t avail (required_by_priority s (am_priority meta)), TUnreserved)
  | TStart None => (s, TUnreserved)
  | TEnter meta => (s, TCheck meta (required_by_priority s (am_priority meta)))
  | TCheck meta required => (s, TAvail meta required (urgent now meta) now)
  | TAvail meta required u t => (s, TSlots meta required u t (RUNNING_WRITES s))
  | TSlots meta required u t running => (s, TLoad meta required u t (saturating_sub (MAX_WORKER_SLOTS s) running))
  | TLoad meta required u t avail => (s, TMax meta required u t avail (RUNNING_WRITES s))
  | TMax meta required u t avail current =>
      if saturating_sub (MAX_WORKER_SLOTS s) current <? required then
        if u then (record_from_meta s meta UrgentAdmit t avail required, TUnreserved)
        else (record_from_meta s meta CheckDelay t avail required, TSleep meta required)
      else (s, TCas meta required u t avail current)
  | TCas meta required u t avail current =>
      if spurious || negb (RUNNING_WRITES s =? current) then (s, TLoad meta required u t avail)
      else
        (record_from_meta (set_running s (wrap64 (current + 1))) meta (if u then UrgentAdmit else Scheduled)
           (if u then t else now) avail required, TRunning true)
  | TSleep meta required => (s, TCheck meta required)
  | TUnreserved => (inc_running s, TRunning false)
  | TRunning _ => (dec_running s, TDone)
  | TDone => (s, TDone)
  end.

Record Sched := mk_sched { sc_aaws : Aaws; sc_tasks : list Task }.

(** A new request, or an operation of a present one. The tasks fit in memory. *)
Inductive sched_step : Sched -> Sched -> Prop :=
| sched_put s tasks meta :
    Z.of_nat (length tasks) + 1 < 2 ^ 64 ->
    sched_step (mk_sched s tasks) (mk_sched s (tasks ++ [TStart meta]))
| sched_enter s tasks meta :
    Z.of_nat (length tasks) + 1 < 2 ^ 64 ->
    sched_step (mk_sched s tasks) (mk_sched s (tasks ++ [TEnter meta]))
| sched_run s s' tasks i tk tk' now spurious :
    tasks !! i = Some tk -> task_step s now spurious tk = (s', tk') ->
    sched_step (mk_sched s tasks) (mk_sched s' (<[i := tk']> tasks)).

(** The pool changes its size while requests are in flight. *)
Inductive resize_step : Sched -> Sched -> Prop :=
| sched_keep x y : sched_step x y -> resize_step x y
| sched_resize s tasks pool_size :
    is_u64 pool_size ->
    resize_step (mk_sched s tasks) (mk_sched (update_agent_scheduler_pool_size s pool_size) tasks).

Definition b2n (b : bool) : Z := if b then 1 else 0.
Fixpoint count (p : Task -> bool) (tasks : list Task) : Z :=
  match tasks with [] => 0 | t :: tasks => b2n (p t) + count p tasks end.
Definition in_flight (tk : Task) : bool := match tk with TRunning _ => true | _ => false end.
Definition holds_slot (tk : Task) : bool := match tk with TRunning r => r | _ => false end.

(** ** Counting *)

Lemma count_app p l l' : count p (l ++ l') = count p l + count p l'.
Proof. induction l as [|t l IH]; cbn [app count]; lia. Qed.

Lemma count_le p l : 0 <= count p l <= Z.of_nat (length l).
Proof. induction l as [|t l IH]; cbn [count length]; [lia|]. destruct (p t); cbn [b2n]; lia. Qed.

Lemma count_imp (p q : Task -> bool) l : (forall t, p t = true -> q t = true) -> count p l <= count q l.
Proof.
  intros H. induction l as [|t l IH]; cbn [count]; [lia|].
  destruct (p t) eqn:Ep; [rewrite (H t Ep)|destruct (q t)]; cbn [b2n]; lia.
Qed.

Lemma count_insert p l i t t' :
  l !! i = Some t -> count p (<[i := t']> l) = count p l - b2n (p t) + b2n (p t').
Proof.
  revert i. induction l as [|x l IH]; intros [|i] H; [done..| |].
  - injection H as <-. cbn. lia.
  - change (count p (x :: <[i := t']> l) = count p (x :: l) - b2n (p t) + b2n (p t')). cbn [count].
    rewrite (IH i H). lia.
Qed.

Lemma count_pos p l i t : l !! i = Some t -> p t = true -> 0 < count p l.
Proof.
  revert i. induction l as [|x l IH]; intros [|i] H Hp; [done..| |]; cbn [count]; pose proof (count_le p l).
  - injection H as ->. rewrite Hp. cbn [b2n]. lia.
  - specialize (IH i H Hp). destruct (p x); cbn [b2n]; lia.
Qed.

(** A put without metadata that has begun to run. *)
Definition sample_run : Sched := mk_sched (set_running (init_agent_scheduler aaws_static 8) 1) [TRunning false].

Lemma sample_run_steps : rtc sched_step (mk_sched (init_agent_scheduler aaws_static 8) []) sample_run.
Proof.
  set (s := init_agent_scheduler aaws_static 8).
  eapply rtc_l; [by apply (sched_put s [] None)|].
  eapply rtc_l; [exact (sched_run s s [TStart None] 0 _ TUnreserved 0 false eq_refl eq_refl)|].
  apply rtc_once. exact (sched_run s (inc_running s) [TUnreserved] 0 _ (TRunning false) 0 false eq_refl eq_refl).
Qed.

(** ** Accounting *)

Definition limits (s : Aaws) : Z * Z * Z * Z :=
  (THRESHOLD_HIGH s, THRESHOLD_MEDIUM s, THRESHOLD_LOW s, MAX_WORKER_SLOTS s).

Lemma task_step_limits s now sp tk s' tk' : task_step s now sp tk = (s', tk') -> limits s' = limits s.
Proof. destruct tk as [[m|]| | | | | | | | | | | |]; cbn; repeat case_match; intros; simplify_eq; done. Qed.

Lemma task_step_running s now sp tk s' tk' :
  is_u64 (RUNNING_WRITES s) -> task_step s now sp tk = (s', tk') ->
  RUNNING_WRITES s' = wrap64 (RUNNING_WRITES s + b2n (in_flight tk') - b2n (in_flight tk)).
Proof.
  intros Hu. assert (forall z, z = RUNNING_WRITES s -> RUNNING_WRITES s = wrap64 z) as Hw
    by (intros z ->; by rewrite wrap64_small).
  destruct tk as [[m|]| | | | | | | | | | | |]; cbn; intros; simplify_eq; cbn; try (apply Hw; lia); try (f_equal; lia).
  - repeat case_match; simplify_eq; cbn; apply Hw; lia.
  - case_match; simplify_eq; cbn; [apply Hw; lia|]. bool_to_prop. subst. f_equal. lia.
Qed.

Definition accounted (x : Sched) : Prop :=
  RUNNING_WRITES (sc_aaws x) = count in_flight (sc_tasks x) /\ Z.of_nat (length (sc_tasks x)) < 2 ^ 64.

Lemma accounted_u64 x : accounted x -> is_u64 (RUNNING_WRITES (sc_aaws x)).
Proof. intros [-> H]. pose proof (count_le in_flight (sc_tasks x)). u64_lia. Qed.

Lemma accounted_spawn s tasks tk :
  accounted (mk_sched s tasks) -> in_flight tk = false -> Z.of_nat (length tasks) + 1 < 2 ^ 64 ->
  accounted (mk_sched s (tasks ++ [tk])).
Proof.
  intros [Hr _] Hf Hl. cbn [sc_aaws sc_tasks] in Hr. split; cbn [sc_aaws sc_tasks].
  - rewrite count_app. cbn [count]. rewrite Hf, Hr. cbn [b2n]. lia.
  - rewrite length_app. cbn [length]. lia.
Qed.

Lemma resize_step_accounted x y : accounted x -> resize_step x y -> accounted y.
Proof.
  intros Hx H. destruct H as [x y H|s tasks p Hp]; [destruct H as [s tasks m Hl|s tasks m Hl|s s' tasks i tk tk' now sp Hi Hs]|].
  - by apply accounted_spawn.
  - by apply accounted_spawn.
  - pose proof (accounted_u64 _ Hx) as Hu. destruct Hx as [Hr Hl]. cbn in *.
    split; cbn; [|by rewrite length_insert]. rewrite (task_step_running _ _ _ _ _ _ Hu Hs), Hr.
    rewrite (count_insert _ _ _ _ _ Hi).
    pose proof (count_le in_flight (<[i := tk']> tasks)) as Hle. rewrite length_insert, (count_insert _ _ _ _ _ Hi) in Hle.
    rewrite wrap64_small; [lia|u64_lia].
  - exact Hx.
Qed.

Definition idle (s : Aaws) : Prop := RUNNING_WRITES s = 0.

Lemma accounted_init s : idle s -> accounted (mk_sched s []).
Proof. intros H. split; [exact H|done]. Qed.

(** Slot accounting. However the requests interleave, and even while the
    pool is resized, the counter of running writes is exactly the number of
    writes in flight: every admitted write counts once, whether it reserved a
    slot or not, and every finished write gives its unit back. *)
Theorem running_counts_in_flight s x :
  idle s -> rtc resize_step (mk_sched s []) x ->
  RUNNING_WRITES (sc_aaws x) = count in_flight (sc_tasks x).
Proof.
  intros Hi H. assert (accounted x) as [? _]; [|done].
  pose proof (accounted_init s Hi) as Ha. induction H as [|a b c Hab _ IH]; eauto using resize_step_accounted.
Qed.

Lemma running_counts_in_flight_witness : RUNNING_WRITES (sc_aaws sample_run) = count in_flight (sc_tasks sample_run).
Proof.
  apply (running_counts_in_flight (init_agent_scheduler aaws_static 8)); [reflexivity|].
  eapply rtc_congruence with (f := id); [|exact sample_run_steps]. apply sched_keep.
Defined.

(** ** Slots *)

Definition thresholds_pos (s : Aaws) : Prop := forall p, 1 <= required_by_priority s p.

(** What a request carries from its earlier reads, while the limits stand. *)
Definition task_ok (slots : Z) (tk : Task) : Prop :=
  match tk with
  | TCheck _ required | TAvail _ required _ _ | TSlots _ required _ _ _ | TLoad _ required _ _ _ | TMax _ required _ _ _ _
  | TSleep _ required => 1 <= required
  | TCas _ required _ _ _ current => 1 <= required /\ current + required <= slots
  | _ => True
  end.

Record within_slots (lim : Z * Z * Z * Z) (x : Sched) : Prop := {
  ws_limits : limits (sc_aaws x) = lim;
  ws_pos : thresholds_pos (sc_aaws x);
  ws_accounted : accounted x;
  ws_held : count holds_slot (sc_tasks x) <= MAX_WORKER_SLOTS (sc_aaws x);
  ws_tasks : Forall (task_ok (MAX_WORKER_SLOTS (sc_aaws x))) (sc_tasks x)
}.

Lemma limits_required s s' p : limits s' = limits s -> required_by_priority s' p = required_by_priority s p.
Proof. intros [=]. by destruct p. Qed.

Lemma task_step_ok s now sp tk s' tk' :
  thresholds_pos s -> task_step s now sp tk = (s', tk') -> task_ok (MAX_WORKER_SLOTS s) tk ->
  task_ok (MAX_WORKER_SLOTS s) tk'.
Proof.
  intros Hp. destruct tk as [[m|]| | | | | | | | | | | |]; cbn; intros Hs Hok; simplify_eq; cbn; auto.
  - unfold saturating_sub in Hs. repeat case_match; simplify_eq; cbn; auto. bool_to_prop. lia.
  - case_match; simplify_eq; cbn; tauto.
Qed.

(** A request takes a slot only by an exchange that leaves room. *)
Lemma task_step_held s now sp tk s' tk' :
  task_step s now sp tk = (s', tk') -> holds_slot tk' = true -> holds_slot tk = false ->
  exists m required u t avail, tk = TCas m required u t avail (RUNNING_WRITES s).
Proof.
  destruct tk as [[m|]| | | | | | | | | | | |]; cbn; intros Hs Hh Hn; simplify_eq; cbn in Hh; try done.
  - by repeat case_match; simplify_eq.
  - case_match; simplify_eq; bool_to_prop; subst; eauto 6.
Qed.

Lemma sched_step_within lim x y : within_slots lim x -> sched_step x y -> within_slots lim y.
Proof.
  intros [Hlim Hpos Ha Hh Ht] Hs.
  pose proof (resize_step_accounted x y Ha (sched_keep _ _ Hs)) as Ha'.
  destruct Hs as [s tasks m Hl|s tasks m Hl|s s' tasks i tk tk' now sp Hi Hs]; cbn in *.
  1, 2: split; cbn [sc_aaws sc_tasks]; try done;
    [rewrite count_app; cbn [count holds_slot b2n]; lia|apply Forall_app; split; [done|by repeat constructor]].
  pose proof (task_step_limits _ _ _ _ _ _ Hs) as El.
  assert (MAX_WORKER_SLOTS s' = MAX_WORKER_SLOTS s) as Em by (by injection El).
  pose proof (Forall_lookup_1 _ _ _ _ Ht Hi) as Hok.
  split; cbn; [congruence| |done| |].
  - intros p. rewrite (limits_required _ _ _ El). apply Hpos.
  - rewrite (count_insert _ _ _ _ _ Hi), Em.
    destruct (holds_slot tk') eqn:Eh', (holds_slot tk) eqn:Eh; cbn [b2n]; try lia.
    destruct (task_step_held _ _ _ _ _ _ Hs Eh' Eh) as (m & required & u & t & avail & ->).
    destruct Hok as [H1 H2]. destruct Ha as [Hr _]. cbn in Hr.
    pose proof (count_imp holds_slot in_flight tasks) as Hle. specialize (Hle ltac:(by intros [])). lia.
  - rewrite Em. apply Forall_insert; [done|]. by eapply task_step_ok.
Qed.

(** ** Thresholds *)

(** The sizes for which the scaling does not overflow. *)
Definition pool_ok (pool_size : Z) : Prop := 0 <= pool_size < 2 ^ 61.

Lemma init_limits s pool_size :
  pool_ok pool_size -> let s' := init_agent_scheduler s pool_size in
  1 <= THRESHOLD_HIGH s' <= THRESHOLD_MEDIUM s' /\ THRESHOLD_MEDIUM s' <= THRESHOLD_LOW s' <= MAX_WORKER_SLOTS s'
  /\ MAX_WORKER_SLOTS s' = Z.max pool_size 1.
Proof.
  intros H. unfold pool_ok in H. cbn [init_agent_scheduler THRESHOLD_HIGH THRESHOLD_MEDIUM THRESHOLD_LOW MAX_WORKER_SLOTS].
  rewrite !wrap64_small by u64_lia.
  set (p := Z.max pool_size 1). assert (1 <= p) by lia.
  pose proof (Z.div_le_mono (1 * p + 4) (2 * p + 4) 8). pose proof (Z.div_le_mono (2 * p + 4) (4 * p + 4) 8).
  pose proof (Z.div_le_mono (4 * p + 4) (8 * p) 8) as H3. rewrite (Z.mul_comm 8 p), Z.div_mul in H3 by lia. lia.
Qed.

Lemma init_pos s pool_size : thresholds_pos (init_agent_scheduler s pool_size).
Proof. intros []; cbn; lia. Qed.

Definition at_least (p q : AawsPriority) : bool :=
  match p, q with High, _ | Medium, Medium | Medium, Low | Low, Low => true | _, _ => false end.

(** What a reservation that nobody disturbs answers. *)
Definition can_reserve (s : Aaws) (required : Z) : bool :=
  match try_reserve_slot 1 undisturbed 0 s required with Some (reserved, _) => reserved | None => false end.

Lemma can_reserve_iff s required : can_reserve s required = true <-> required <= saturating_sub (MAX_WORKER_SLOTS s) (RUNNING_WRITES s).
Proof.
  unfold can_reserve. cbn. rewrite Z.eqb_refl.
  destruct (Z.ltb_spec (saturating_sub (MAX_WORKER_SLOTS s) (RUNNING_WRITES s)) required); split; intros; (done || lia).
Qed.

(** Priorities. With the thresholds the pool's size gives, whenever a
    write of some priority can reserve a slot, one of a higher priority can,
    and when no write runs every priority can: no priority is shut out. *)
Theorem priorities_ordered s pool_size running p q :
  pool_ok pool_size -> is_u64 running ->
  let s' := set_running (init_agent_scheduler s pool_size) running in
  (at_least p q = true -> can_reserve s' (required_by_priority s' q) = true -> can_reserve s' (required_by_priority s' p) = true)
  /\ (running = 0 -> can_reserve s' (required_by_priority s' p) = true).
Proof.
  intros Hp Hr s'. pose proof (init_limits s pool_size Hp) as (H1 & H2 & H3). fold (init_agent_scheduler s pool_size) in s'.
  rewrite !can_reserve_iff. unfold s' in *. cbn [MAX_WORKER_SLOTS RUNNING_WRITES set_running] in *. unfold saturating_sub.
  split; [intros Ha|intros ->]; destruct p; try destruct q; try discriminate Ha;
    cbn [required_by_priority set_running THRESHOLD_HIGH THRESHOLD_MEDIUM THRESHOLD_LOW] in *; lia.
Qed.

Lemma priorities_ordered_witness :
  let s' := set_running (init_agent_scheduler aaws_static 8) 6 in
  can_reserve s' (required_by_priority s' Medium) = true /\ can_reserve s' (required_by_priority s' High) = true.
Proof.
  split; [reflexivity|]. destruct (priorities_ordered aaws_static 8 6 High Medium) as [H _]; [done|done|].
  apply H; reflexivity.
Defined.

(** ** Reservations *)

Lemma within_init s pool_size :
  idle s -> pool_ok pool_size ->
  within_slots (limits (init_agent_scheduler s pool_size)) (mk_sched (init_agent_scheduler s pool_size) []).
Proof.
  intros Hi Hp. pose proof (init_limits s pool_size Hp) as (H1 & H2 & H3).
  split; [done|apply init_pos|by apply accounted_init| |by constructor]. cbn [sc_aaws sc_tasks count]. lia.
Qed.

Lemma sched_steps_within lim x y : within_slots lim x -> rtc sched_step x y -> within_slots lim y.
Proof. intros Hw H. induction H; eauto using sched_step_within. Qed.

(** Reservations stay within the slots. However the requests interleave,
    never more writes hold a reserved slot than the pool has, and a write
    takes a slot only when, at that moment, as many slots are free as its
    priority requires. *)
Theorem reservations_within_slots s pool_size x :
  idle s -> pool_ok pool_size ->
  rtc sched_step (mk_sched (init_agent_scheduler s pool_size) []) x ->
  count holds_slot (sc_tasks x) <= Z.max pool_size 1
  /\ forall i tk now spurious s' tk',
       sc_tasks x !! i = Some tk -> task_step (sc_aaws x) now spurious tk = (s', tk') ->
       holds_slot tk = false -> holds_slot tk' = true ->
       exists meta required u t avail current, tk = TCas meta required u t avail current
         /\ RUNNING_WRITES (sc_aaws x) = current
         /\ required <= MAX_WORKER_SLOTS (sc_aaws x) - RUNNING_WRITES (sc_aaws x)
         /\ RUNNING_WRITES s' = RUNNING_WRITES (sc_aaws x) + 1.
Proof.
  intros Hi Hp H. pose proof (init_limits s pool_size Hp) as (_ & _ & H3).
  pose proof (sched_steps_within _ _ _ (within_init s pool_size Hi Hp) H) as [Hl _ Ha Hh Ht]. split.
  { injection Hl as _ _ _ Hm. congruence. }
  intros i tk now sp s' tk' Htk Hs Hn Hy.
  destruct (task_step_held _ _ _ _ _ _ Hs Hy Hn) as (m & required & u & t & avail & ->).
  exists m, required, u, t, avail, (RUNNING_WRITES (sc_aaws x)).
  pose proof (Forall_lookup_1 _ _ _ _ Ht Htk) as [Hr1 Hr2]. split_and!; [done|done|lia|].
  pose proof (accounted_u64 _ Ha) as Hu. rewrite (task_step_running _ _ _ _ _ _ Hu Hs).
  destruct tk'; try discriminate Hy. cbn [in_flight b2n].
  assert (MAX_WORKER_SLOTS (sc_aaws x) = Z.max pool_size 1) as Hm by (injection Hl as _ _ _ Hm; congruence).
  unfold pool_ok in Hp. rewrite wrap64_small; [lia|u64_lia].
Qed.

Lemma reservations_within_slots_witness : count holds_slot (sc_tasks sample_run) <= 8.
Proof.
  apply (reservations_within_slots aaws_static 8 sample_run); [reflexivity|done|exact sample_run_steps].
Defined.

(** ** Waiting ends *)

(** Nothing comes between the load of an attempt and its exchange, and the
    exchange does not fail without a reason. *)
Definition settles (a : Attempt) : Prop :=
  at_spurious a = false /\ forall s, RUNNING_WRITES (at_cas a (at_max a s)) = RUNNING_WRITES s.

(** The loop ends with the attempt that settles, at the latest. *)
Lemma reserve_settles fuel attempts i s required k :
  (k < fuel)%nat -> settles (attempts (i + k)%nat) -> exists r s', try_reserve_slot fuel attempts i s required = Some (r, s').
Proof.
  revert i s k. induction fuel as [|f IH]; intros i s k Hk Hs; [lia|]. cbn [try_reserve_slot].
  destruct (_ <? required); [eauto|]. destruct (negb _ && _) eqn:E; [eauto|]. destruct k as [|k].
  - rewrite Nat.add_0_r in Hs. destruct Hs as [Hsp Hrun]. rewrite Hsp, Hrun, Z.eqb_refl in E. discriminate E.
  - apply (IH (S i) _ k); [lia|]. by replace (S i + k)%nat with (i + S k)%nat by lia.
Qed.

(** A slot is taken from the count that was read, with enough slots free for
    the request. *)
Lemma reserve_taken fuel attempts i s required s' :
  try_reserve_slot fuel attempts i s required = Some (true, s') ->
  exists s0 slots, required <= saturating_sub slots (RUNNING_WRITES s0) /\ s' = set_running s0 (wrap64 (RUNNING_WRITES s0 + 1)).
Proof.
  revert i s. induction fuel as [|f IH]; intros i s H; [done|]. cbn [try_reserve_slot] in H.
  destruct (Z.ltb_spec (saturating_sub (MAX_WORKER_SLOTS (at_max (attempts i) (at_load (attempts i) s))) (RUNNING_WRITES (at_load (attempts i) s)))
    required) as [|Hle]; [done|]. destruct (negb _ && _) eqn:E; [|by eapply IH].
  apply andb_true_iff in E as [_ E%Z.eqb_eq]. injection H as <-. eexists _, _. rewrite E. split; [exact Hle | done].
Qed.

(** Without such an attempt it may go on for ever: another write begins before
    each exchange and ends after it. *)
Lemma reserve_may_starve fuel i :
  try_reserve_slot fuel (fun _ => mk_attempt dec_running id inc_running false) i (set_running aaws_static 1) 1 = None.
Proof. revert i. induction fuel as [|f IH]; intros i; [done|]. exact (IH (S i)). Qed.

Section Deadline.
  Context (rounds : nat -> Round) (meta : AawsMeta) (tries : nat).

(** Among the attempts of a round one settles. *)
Definition round_settles (rd : Round) : Prop := exists i, (i < tries)%nat /\ settles (rd_attempts rd i).

Lemma round_answers rd s required :
  round_settles rd -> exists r s', sched_round tries rd s meta required = Some (r, s') /\ (r = None -> urgent (rd_t rd) meta = false)
    /\ (r = Some false -> urgent (rd_t rd) meta = true).
Proof using.
  intros (i & Hi & Hs). unfold sched_round, get_available_threads.
  destruct (reserve_settles tries (rd_attempts rd) 0 (rd_avail rd s) required i Hi Hs) as (r & s' & ->).
  destruct (urgent (rd_t rd) meta), r; eexists _, _; (split; [reflexivity|]); split; done.
Qed.

(** The answer comes by the first urgent round, and without a slot only in an
    urgent one. *)
Lemma wait_loop_ends fuel n s required k :
  (k < fuel)%nat -> (forall m, (m <= k)%nat -> round_settles (rounds (n + m)%nat)) -> urgent (rd_t (rounds (n + k)%nat)) meta = true ->
  exists r s', wait_loop rounds fuel tries n s meta required = Some (r, s')
    /\ (r = false -> exists m, (m <= k)%nat /\ urgent (rd_t (rounds (n + m)%nat)) meta = true).
Proof using.
  revert n s k. induction fuel as [|f IH]; intros n s k Hk Hr Hu; [lia|]. cbn [wait_loop].
  pose proof (Hr 0%nat ltac:(lia)) as H0. rewrite Nat.add_0_r in H0.
  destruct (round_answers (rounds n) s required H0) as (r & s1 & -> & Hwait & Hfalse). destruct r as [r|].
  { eexists _, _. split; [reflexivity|]. intros ->. exists 0%nat. rewrite Nat.add_0_r. split; [lia | by apply Hfalse]. }
  destruct k as [|k]; [rewrite Nat.add_0_r, (Hwait eq_refl) in Hu; discriminate Hu|].
  destruct (IH (S n) (rd_wait (rounds n) s1) k) as (r & s2 & E & Hf); [lia| |by replace (S n + k)%nat with (n + S k)%nat by lia|].
  { intros m Hm. replace (S n + m)%nat with (n + S m)%nat by lia. apply Hr. lia. }
  exists r, s2. split; [done|]. intros Er. destruct (Hf Er) as (m & Hm & Hum). exists (S m). split; [lia|].
  by replace (n + S m)%nat with (S n + m)%nat by lia.
Qed.
End Deadline.

(** The number of waits until the deadline. *)
Definition max_waits (meta : AawsMeta) (t0 : Z) : nat := Z.to_nat ((am_deadline_ms meta - t0) / BASE_RECHECK_DELAY_MS).

Lemma clock_advances (clock : nat -> Z) n m :
  (forall i, (i < n)%nat -> clock i + BASE_RECHECK_DELAY_MS <= clock (S i)) -> (m <= n)%nat ->
  clock 0%nat + BASE_RECHECK_DELAY_MS * Z.of_nat m <= clock m.
Proof.
  intros H. induction m as [|m IH]; intros Hm; [lia|]. specialize (IH ltac:(lia)). specialize (H m ltac:(lia)). lia.
Qed.


(** A medium write with 20 milliseconds to go. Two slots are free when it first
    counts them, another write takes one before its exchange, and the store
    stays so. *)
Definition sample_meta : AawsMeta := mk_meta Medium 120 [] [] 100 20.
Definition disturbed : nat -> Attempt := fun i => mk_attempt id id (if bool_decide (i = 0%nat) then inc_running else id) false.
Definition sample_rounds (n : nat) : Round :=
  let t := 100 + 5 * Z.of_nat n in mk_round t t id (if bool_decide (n = 0%nat) then disturbed else undisturbed) id.

Lemma sample_rounds_settle n : round_settles 2 (sample_rounds n).
Proof.
  exists 1%nat. split; [lia|]. unfold sample_rounds. case_bool_decide; (split; [reflexivity|]); reflexivity.
Qed.


(** ** What the comments say and the code does not *)

(** The scaling rounds to the nearest, not up: a ninth of a slot over one per
    eight threads is dropped. *)
Lemma threshold_not_rounded_up : THRESHOLD_HIGH (init_agent_scheduler aaws_static 9) = 1.
Proof. reflexivity. Qed.

(** The function the handler of [raw_put] calls never reserves a slot. *)
Lemma baseline_never_reserves others s meta t : (maybe_delay_until_sched_baseline others s meta t).1 = false.
Proof. reflexivity. Qed.

(** Headers, read and completed. *)
Example request_meta_sample :
  request_meta (str "auto")
    [(str "x-aaws-priority", str "low"); (str "x-aaws-deadline-ms", str "oops"); (str "x-aaws-deadline-ms", str "+120")]
    100 [Byte.x6b; Byte.xff]
  = Some (mk_meta Low 120 [] (str "auto:100:120:6bff") 100 20).
Proof. vm_compute. reflexivity. Qed.
