(* ===== verification/Latch.v ===== *)
(** * Latches (src/storage/txn/latch.rs)

    A command waits in the queue of every key hash it needs. Several hashes
    share a slot, and an element taken from the middle of a slot leaves a
    hole. The lemmas show that a set of slots is one queue for each hash. *)
From S2P Require Import Prelude.
From stdpp Require Import sorting.
Local Open Scope Z_scope.

(** ** One slot *)

(** The queue of a slot: the hash and the command, or a hole. *)
Definition Latch : Type := list (option (Z * Z)).

Fixpoint get_first_req_by_hash (waiting : Latch) (hash : Z) : option Z :=
  match waiting with
  | [] => None
  | Some (h, cid) :: rest => if h =? hash then Some cid else get_first_req_by_hash rest hash
  | None :: rest => get_first_req_by_hash rest hash
  end.

(** The holes at the front go; the capacity of the queue is not modelled. *)
Fixpoint maybe_shrink (waiting : Latch) : Latch :=
  match waiting with
  | None :: rest => maybe_shrink rest
  | _ => waiting
  end.

(** The loop of [pop_front]: the first element with the hash becomes a hole. *)
Fixpoint take_by_hash (waiting : Latch) (key_hash : Z) : option (Z * Z) * Latch :=
  match waiting with
  | [] => (None, [])
  | it :: rest =>
      let skip := let '(r, rest) := take_by_hash rest key_hash in (r, it :: rest) in
      match it with
      | Some (v, cid) => if v =? key_hash then (it, None :: rest) else skip
      | None => skip
      end
  end.

Definition pop_front (waiting : Latch) (key_hash : Z) : option (Z * Z) * Latch :=
  match waiting with
  | [] => (None, [])
  | Some (k, cid) :: rest =>
      if k =? key_hash then (Some (k, cid), maybe_shrink rest) else take_by_hash waiting key_hash
  | None :: rest => take_by_hash rest key_hash
  end.

Definition wait_for_wake (waiting : Latch) (key_hash cid : Z) : Latch := waiting ++ [Some (key_hash, cid)].
Definition push_preemptive (waiting : Latch) (key_hash cid : Z) : Latch := Some (key_hash, cid) :: waiting.

(** ** The latches of a command *)

Record LatchLock := mk_latch_lock { required_hashes : list Z; owned_count : nat }.

Section New.
  (* [DefaultHasher] on a key: a function whose algorithm is not specified. *)
  Context {K : Type} (hash : K -> Z).

Definition latch_lock_new (keys : list K) : LatchLock :=
  mk_latch_lock (vec_dedup (merge_sort Z.le (map hash keys))) 0.
End New.

Definition acquired (lock : LatchLock) : bool := Nat.eqb (length (required_hashes lock)) (owned_count lock).
Definition force_assume_acquired (lock : LatchLock) : LatchLock :=
  mk_latch_lock (required_hashes lock) (length (required_hashes lock)).
Definition is_write_lock (lock : LatchLock) : bool := match required_hashes lock with [] => false | _ => true end.
Definition own_more (lock : LatchLock) (n : nat) : LatchLock :=
  mk_latch_lock (required_hashes lock) (owned_count lock + n).

(** ** The slots *)

Record Latches := mk_latches { slots : list Latch; size : Z }.

Definition next_power_of_two (n : Z) : Z := if n <=? 1 then 1 else 2 ^ Z.log2_up n.

Definition latches_new (n : Z) : Latches :=
  let size := next_power_of_two n in
  mk_latches (replicate (Z.to_nat size) []) size.

Definition slot_index (ls : Latches) (hash : Z) : nat := Z.to_nat (Z.land hash (size ls - 1)).
Definition set_slot (ls : Latches) (hash : Z) (l : Latch) : Latches :=
  mk_latches (<[slot_index ls hash := l]> (slots ls)) (size ls).

(** [lock_latch], whose guard gives access to one slot. *)
Definition lock_latch (ls : Latches) (hash : Z) : res unit Latch :=
  match slots ls !! slot_index ls hash with Some l => Ok l | None => Panic end.

(** One round of the loop of [acquire], under the mutex of the slot: whether
    the latch is acquired. *)
Definition acquire_one (ls : Latches) (key_hash who : Z) : res unit (bool * Latches) :=
  latch ← lock_latch ls key_hash;
  match get_first_req_by_hash latch key_hash with
  | Some cid =>
      if cid =? who then Ok (true, ls) else Ok (false, set_slot ls key_hash (wait_for_wake latch key_hash who))
  | None => Ok (true, set_slot ls key_hash (wait_for_wake latch key_hash who))
  end.

Fixpoint acquire_loop (ls : Latches) (hashes : list Z) (who : Z) (acquired_count : nat) : res unit (nat * Latches) :=
  match hashes with
  | [] => Ok (acquired_count, ls)
  | key_hash :: rest =>
      '(ok, ls) ← acquire_one ls key_hash who;
      if ok : bool then acquire_loop ls rest who (S acquired_count) else Ok (acquired_count, ls)
  end.

Definition acquire (ls : Latches) (lock : LatchLock) (who : Z) : res unit (bool * LatchLock * Latches) :=
  rassert (Nat.leb (owned_count lock) (length (required_hashes lock)))
    ('(acquired_count, ls) ← acquire_loop ls (drop (owned_count lock) (required_hashes lock)) who 0;
     let lock := own_more lock acquired_count in
     Ok (acquired lock, lock, ls)).

(** One round of the loop of [release], under the mutex of the slot:
    [keep_latches_it] is what is left of the hashes to keep, [wakeup_list]
    the commands to wake up. *)
Definition release_one (ls : Latches) (key_hash who : Z) (keep_for : option Z) (keep_latches_it wakeup_list : list Z) :
    res unit (Latches * list Z * list Z) :=
  latch ← lock_latch ls key_hash;
  let '(popped, latch) := pop_front latch key_hash in
  match popped with
  | None => Panic
  | Some (v, front) =>
      rassert (front =? who) (rassert (v =? key_hash)
        ('(keep_for_next_cmd, keep_latches_it) ←
           (match keep_latches_it with
            | next_keep_hash :: it =>
                rassert (key_hash <=? next_keep_hash)
                  (if next_keep_hash =? key_hash then Ok (true, it) else Ok (false, keep_latches_it))
            | [] => Ok (false, [])
            end);
         if keep_for_next_cmd : bool then
           match keep_for with
           | Some cid => Ok (set_slot ls key_hash (push_preemptive latch key_hash cid), keep_latches_it, wakeup_list)
           | None => Panic
           end
         else
           Ok (set_slot ls key_hash latch, keep_latches_it,
               match get_first_req_by_hash latch key_hash with
               | Some wakeup => wakeup_list ++ [wakeup]
               | None => wakeup_list
               end)))
  end.

Fixpoint release_loop (ls : Latches) (hashes : list Z) (who : Z) (keep_for : option Z)
    (keep_latches_it wakeup_list : list Z) : res unit (Latches * list Z * list Z) :=
  match hashes with
  | [] => Ok (ls, keep_latches_it, wakeup_list)
  | key_hash :: rest =>
      '(ls, keep_latches_it, wakeup_list) ← release_one ls key_hash who keep_for keep_latches_it wakeup_list;
      release_loop ls rest who keep_for keep_latches_it wakeup_list
  end.

Definition release (ls : Latches) (lock : LatchLock) (who : Z) (keep_latches_for_next_cmd : option (Z * LatchLock)) :
    res unit (list Z * Latches) :=
  let keep_for := option_map fst keep_latches_for_next_cmd in
  let keep_it := match keep_latches_for_next_cmd with Some (_, l) => required_hashes l | None => [] end in
  rassert (Nat.leb (owned_count lock) (length (required_hashes lock)))
    ('(ls, keep_it, wakeup_list) ← release_loop ls (take (owned_count lock) (required_hashes lock)) who keep_for keep_it [];
     rassert (match keep_it with [] => true | _ => false end) (Ok (wakeup_list, ls))).

(** ** The queue of a hash *)

Definition queue (hash : Z) (waiting : Latch) : list Z :=
  omap (fun e => match e with Some (h, cid) => if h =? hash then Some cid else None | None => None end) waiting.

Definition Q (ls : Latches) (hash : Z) : list Z :=
  match slots ls !! slot_index ls hash with Some l => queue hash l | None => [] end.

(** Every hash has a slot. *)
Definition latches_wf (ls : Latches) : Prop :=
  exists n, 0 <= n /\ size ls = 2 ^ n /\ length (slots ls) = Z.to_nat (size ls).

Lemma get_first_queue l h : get_first_req_by_hash l h = head (queue h l).
Proof.
  induction l as [|[[h' c]|] l IH]; [done| |done]. cbn. destruct (h' =? h); [done|]. apply IH.
Qed.

Lemma queue_shrink l h : queue h (maybe_shrink l) = queue h l.
Proof. induction l as [|[[h' c]|] l IH]; done. Qed.

Lemma queue_app l l' h : queue h (l ++ l') = queue h l ++ queue h l'.
Proof. apply omap_app. Qed.

Lemma queue_wait l h c h' : queue h' (wait_for_wake l h c) = queue h' l ++ (if h =? h' then [c] else []).
Proof. unfold wait_for_wake. rewrite queue_app. f_equal. cbn. by destruct (h =? h'). Qed.

Lemma queue_push l h c h' : queue h' (push_preemptive l h c) = (if h =? h' then [c] else []) ++ queue h' l.
Proof. cbn. by destruct (h =? h'). Qed.

(** What taking from a slot does to the queues. *)
Definition takes (l : Latch) (h : Z) (r : option (Z * Z)) (l' : Latch) : Prop :=
  r = option_map (pair h) (head (queue h l)) /\ queue h l' = tail (queue h l)
  /\ forall h', h' <> h -> queue h' l' = queue h' l.

Lemma queue_cons l h c h' : queue h' (Some (h, c) :: l) = if h =? h' then c :: queue h' l else queue h' l.
Proof. cbn. by destruct (h =? h'). Qed.

Lemma take_by_hash_takes l h : takes l h (take_by_hash l h).1 (take_by_hash l h).2.
Proof.
  induction l as [|[[h' c]|] l IH]; [by split_and!|..]; cbn [take_by_hash].
  - destruct IH as (Hr & Hq & Ho). unfold takes. rewrite queue_cons. destruct (Z.eqb_spec h' h) as [->|Hne].
    + split_and!; [done..|]. intros x Hx. rewrite queue_cons. by destruct (Z.eqb_spec h x) as [->|].
    + destruct (take_by_hash l h) as [r l'] eqn:E. cbn [fst snd] in *. rewrite queue_cons.
      destruct (Z.eqb_spec h' h); [done|]. split_and!; [done..|]. intros x Hx. rewrite !queue_cons. by rewrite Ho.
  - by destruct (take_by_hash l h) as [r l'].
Qed.

Lemma pop_front_takes l h : takes l h (pop_front l h).1 (pop_front l h).2.
Proof.
  destruct l as [|[[k c]|] l]; [by split_and!| |exact (take_by_hash_takes l h)].
  unfold pop_front. destruct (Z.eqb_spec k h) as [->|Hne]; [|apply take_by_hash_takes].
  unfold takes. cbn [fst snd]. rewrite queue_cons, Z.eqb_refl. split_and!; [done|by rewrite queue_shrink|].
  intros x Hx. rewrite queue_shrink, queue_cons. by destruct (Z.eqb_spec h x) as [->|].
Qed.

(** A slot is one first-in first-out queue for each hash. Whatever hashes
    share the slot and whatever holes it has: the first request of a hash is
    the head of its queue, a new request goes to its end and a preemptive one
    to its front, popping takes the head, and the queues of the other hashes
    stay as they are. *)
Theorem latch_is_queue_per_hash l h c :
  get_first_req_by_hash l h = head (queue h l)
  /\ (forall h', queue h' (wait_for_wake l h c) = if h =? h' then queue h' l ++ [c] else queue h' l)
  /\ (forall h', queue h' (push_preemptive l h c) = if h =? h' then c :: queue h' l else queue h' l)
  /\ (pop_front l h).1 = option_map (pair h) (head (queue h l))
  /\ (forall h', queue h' (pop_front l h).2 = if h =? h' then tail (queue h' l) else queue h' l).
Proof.
  destruct (pop_front_takes l h) as (Hr & Hq & Ho). split_and!; [apply get_first_queue| | |done|]; intros h'.
  - rewrite queue_wait. destruct (h =? h'); [done|apply app_nil_r].
  - rewrite queue_push. by destruct (h =? h').
  - destruct (Z.eqb_spec h h') as [<-|]; [done|]. by apply Ho.
Qed.

(** ** The slots as queues *)

Lemma latches_new_wf n : latches_wf (latches_new n).
Proof.
  unfold latches_wf, latches_new, next_power_of_two; cbn. destruct (Z.leb_spec n 1).
  - exists 0. rewrite length_replicate. done.
  - exists (Z.log2_up n). rewrite length_replicate. pose proof (Z.log2_up_nonneg n). done.
Qed.

Lemma Q_new n h : Q (latches_new n) h = [].
Proof.
  unfold Q, latches_new; cbn. destruct (replicate _ _ !! _) as [l|] eqn:E; [|done].
  by apply lookup_replicate in E as [-> _].
Qed.

Lemma slot_in_range ls h : latches_wf ls -> 0 <= h -> (slot_index ls h < length (slots ls))%nat.
Proof.
  intros (n & Hn & Hs & Hl) Hh. unfold slot_index. rewrite Hl, Hs.
  replace (2 ^ n - 1) with (Z.ones n) by (rewrite Z.ones_equiv; lia). rewrite Z.land_ones by done. pose proof (Z.mod_pos_bound h (2 ^ n)). lia.
Qed.

Lemma lock_latch_Q ls h : latches_wf ls -> 0 <= h -> exists l, lock_latch ls h = Ok l /\ queue h l = Q ls h.
Proof.
  intros Hwf Hh. unfold lock_latch, Q.
  destruct (lookup_lt_is_Some_2 (slots ls) (slot_index ls h)) as [l ->]; [by apply slot_in_range|eauto].
Qed.

Lemma set_slot_wf ls h l : latches_wf ls -> latches_wf (set_slot ls h l).
Proof. intros (n & ? & ? & ?). exists n. cbn. by rewrite length_insert. Qed.

(** A slot changed in the queue of one hash only. *)
Lemma Q_set_slot ls h l l' :
  latches_wf ls -> 0 <= h -> lock_latch ls h = Ok l -> (forall h', h' <> h -> queue h' l' = queue h' l) ->
  Q (set_slot ls h l') h = queue h l' /\ forall h', h' <> h -> Q (set_slot ls h l') h' = Q ls h'.
Proof.
  intros Hwf Hh Hl Ho. pose proof (slot_in_range ls h Hwf Hh) as Hr.
  unfold lock_latch in Hl. destruct (slots ls !! slot_index ls h) as [l0|] eqn:E; [injection Hl as ->|done].
  unfold Q, set_slot, slot_index in *; cbn. split; [by rewrite list_lookup_insert_eq|]. intros h' Hne.
  destruct (decide (Z.to_nat (Z.land h (size ls - 1)) = Z.to_nat (Z.land h' (size ls - 1)))) as [Es|Es].
  - rewrite <- Es, E, list_lookup_insert_eq by done. by apply Ho.
  - by rewrite list_lookup_insert_ne.
Qed.

(** [Q'] is [Q] with another queue for [h]. *)
Definition updates (f : Z -> list Z) (h : Z) (q : list Z) (f' : Z -> list Z) : Prop :=
  f' h = q /\ forall h', h' <> h -> f' h' = f h'.

Lemma acquire_one_spec ls h who :
  latches_wf ls -> 0 <= h ->
  match head (Q ls h) with
  | Some cid =>
      if cid =? who then acquire_one ls h who = Ok (true, ls)
      else exists ls', acquire_one ls h who = Ok (false, ls') /\ latches_wf ls' /\ updates (Q ls) h (Q ls h ++ [who]) (Q ls')
  | None => exists ls', acquire_one ls h who = Ok (true, ls') /\ latches_wf ls' /\ updates (Q ls) h [who] (Q ls')
  end.
Proof.
  intros Hwf Hh. destruct (lock_latch_Q ls h Hwf Hh) as (l & El & Hq). unfold acquire_one. rewrite El.
  cbn [mbind res_bind]. rewrite get_first_queue, Hq.
  assert (updates (Q ls) h (Q ls h ++ [who]) (Q (set_slot ls h (wait_for_wake l h who)))) as Hu.
  { destruct (Q_set_slot ls h l (wait_for_wake l h who) Hwf Hh El) as [H1 H2].
    { intros h' Hne. rewrite queue_wait. destruct (Z.eqb_spec h h'); [congruence|]. apply app_nil_r. }
    split; [|done]. by rewrite H1, queue_wait, Hq, Z.eqb_refl. }
  destruct (Q ls h) as [|c q]; cbn [head].
  - eexists. split; [done|]. split; [by apply set_slot_wf|done].
  - destruct (Z.eqb_spec c who); [done|]. eexists. split; [done|]. split; [by apply set_slot_wf|done].
Qed.

(** Releasing a hash the command is first in the queue of. *)
Definition kept_now (h : Z) (keep_it : list Z) : bool := match keep_it with k :: _ => k =? h | [] => false end.

Lemma release_one_spec ls h who q next keep_it wakeup :
  latches_wf ls -> 0 <= h -> Q ls h = who :: q -> Forall (Z.le h) keep_it -> (keep_it <> [] -> is_Some next) ->
  exists ls', latches_wf ls' /\
  if kept_now h keep_it then
    exists cid, next = Some cid /\ release_one ls h who next keep_it wakeup = Ok (ls', tail keep_it, wakeup)
      /\ updates (Q ls) h (cid :: q) (Q ls')
  else
    release_one ls h who next keep_it wakeup
      = Ok (ls', keep_it, match head q with Some w => wakeup ++ [w] | None => wakeup end)
    /\ updates (Q ls) h q (Q ls').
Proof.
  intros Hwf Hh Hq Hle Hnext. destruct (lock_latch_Q ls h Hwf Hh) as (l & El & Hql). rewrite Hq in Hql.
  unfold release_one. rewrite El. cbn [mbind res_bind].
  pose proof (pop_front_takes l h) as (Hr & Hq' & Ho). destruct (pop_front l h) as [r l']. cbn [fst snd] in *.
  rewrite Hql in Hr, Hq'. cbn in Hr, Hq'. subst r. cbn [rassert]. rewrite !Z.eqb_refl. cbn [rassert].
  assert (latches_wf (set_slot ls h l') /\ updates (Q ls) h q (Q (set_slot ls h l'))) as [Hwf' Hu].
  { split; [by apply set_slot_wf|]. destruct (Q_set_slot ls h l l' Hwf Hh El Ho) as [H1 H2]. split; [|done].
    by rewrite H1. }
  rewrite get_first_queue, Hq'. destruct keep_it as [|k it]; cbn [kept_now mbind res_bind]; [by eexists|].
  apply Forall_cons in Hle as [Hk _]. destruct (Z.leb_spec h k); [|lia]. cbn [rassert].
  destruct (Z.eqb_spec k h) as [->|Hne]; [|by eexists].
  destruct Hnext as [cid ->]; [done|]. exists (set_slot ls h (push_preemptive l' h cid)). split; [by apply set_slot_wf|].
  exists cid. split; [done|]. split; [done|].
  destruct (Q_set_slot ls h l (push_preemptive l' h cid) Hwf Hh El) as [H1 H2].
  { intros h' Hne. rewrite queue_push. destruct (Z.eqb_spec h h'); [congruence|]. by apply Ho. }
  split; [|done]. by rewrite H1, queue_push, Z.eqb_refl, Hq'.
Qed.

Lemma release_one_wakeup ls h who next keep_it wakeup ls' keep_it' wakeup' :
  release_one ls h who next keep_it wakeup = Ok (ls', keep_it', wakeup') -> (length wakeup' <= S (length wakeup))%nat.
Proof.
  unfold release_one. destruct (lock_latch ls h) as [l| |]; [|done..]. cbn [mbind res_bind].
  destruct (pop_front l h) as [[[v front]|] l']; [|done]. unfold rassert. destruct (front =? who), (v =? h); [|done..].
  assert (forall keep_now it, (if keep_now : bool then
      match next with Some cid => Ok (set_slot ls h (push_preemptive l' h cid), it, wakeup) | None => Panic end
    else Ok (set_slot ls h l', it, match get_first_req_by_hash l' h with Some w => wakeup ++ [w] | None => wakeup end))
    = @Ok unit _ (ls', keep_it', wakeup') -> (length wakeup' <= S (length wakeup))%nat) as Hk.
  { intros [] it; [destruct next; [|done]; intros [= _ _ <-]; lia|].
    destruct (get_first_req_by_hash l' h); intros [= _ _ <-]; rewrite ?length_app; cbn; lia. }
  destruct keep_it as [|k it]; [apply (Hk false [])|]. destruct (h <=? k); [|done].
  destruct (k =? h); [apply (Hk true it)|apply (Hk false (k :: it))].
Qed.

(** ** The hashes of a command *)

Lemma elem_of_vec_dedup {A} `{EqDecision A} (l : list A) x : x ∈ vec_dedup l <-> x ∈ l.
Proof.
  induction l as [|y [|z l] IH]; [done..|]. cbn [vec_dedup] in *. destruct (decide (y = z)) as [->|].
  - rewrite IH, !elem_of_cons. tauto.
  - rewrite elem_of_cons, IH, !elem_of_cons. tauto.
Qed.

Lemma vec_dedup_sorted (l : list Z) : Sorted Z.le l -> StronglySorted Z.lt (vec_dedup l).
Proof.
  intros Hs. apply Sorted_StronglySorted in Hs; [|intros x y z; lia].
  induction Hs as [|x l Hs IH Hx]; [constructor|]. destruct l as [|y l]; [repeat constructor|].
  cbn [vec_dedup] in *. destruct (decide (x = y)) as [->|Hne]; [done|]. constructor; [done|].
  apply Forall_forall. intros z Hz. apply (proj1 (elem_of_vec_dedup (y :: l) z)) in Hz.
  apply Forall_cons in Hx as [Hxy _]. apply StronglySorted_inv in Hs as [_ Hy]. rewrite Forall_forall in Hy.
  apply elem_of_cons in Hz as [->|Hz]; [lia|]. specialize (Hy z Hz). lia.
Qed.

Section NewSpec.
  Context {K : Type} (hash : K -> Z).

Lemma latch_lock_new_sorted keys : StronglySorted Z.lt (required_hashes (latch_lock_new hash keys)).
Proof. apply vec_dedup_sorted, Sorted_merge_sort. intros x y. lia. Qed.

Lemma elem_of_latch_lock_new keys h : h ∈ required_hashes (latch_lock_new hash keys) <-> h ∈ map hash keys.
Proof. cbn. rewrite elem_of_vec_dedup. by rewrite merge_sort_Permutation. Qed.
End NewSpec.
