(* ===== verification/Scheduler.v ===== *)
(** * Commands under latches (src/storage/txn/scheduler.rs)

    The scheduler gives every command an identifier, acquires its latches,
    runs it, releases the latches and wakes up the commands that waited for
    them; a finished command may hand some of its latches to the command that
    resumes the lock requests it woke up. Commands interleave at every latch
    they touch. Shown: commands that need a common latch never run at the same
    time, some command can always make progress, and no assertion of the
    latches fails. *)
From S2P Require Import Prelude Latch.
From stdpp Require Import sorting.
Local Open Scope Z_scope.

(** ** Commands *)

(** Where a command is: in the loop of [acquire], called when the command is
    scheduled or when it is [woken] up, with [n] latches acquired; waiting;
    running; in the loop of [release], with the hashes to release, the command
    some are kept for, the hashes to keep and the commands to wake up; waking
    those up; or prepared, with the [n] latches handed to it so far. *)
Inductive Phase :=
| PAcquiring (woken : bool) (n : nat)
| PWaiting
| PRunning
| PReleasing (todo : list Z) (next : option Z) (keep_it wakeup : list Z)
| PWaking (wakeup : list Z) (next : option Z)
| PHanded (n : nat).

Section Scheduler.
  Context {K : Type} (hash : K -> Z).

Record Cmd := mk_cmd { cmd_keys : list K; cmd_lock : LatchLock; cmd_phase : Phase }.

Record TxnScheduler := mk_scheduler { latches : Latches; cmds : gmap Z Cmd; id_alloc : Z }.

Definition set_phase (cmd : Cmd) (p : Phase) : Cmd := mk_cmd (cmd_keys cmd) (cmd_lock cmd) p.

Definition scheduler_new (latch_size : Z) : TxnScheduler := mk_scheduler (latches_new latch_size) ∅ 0.

(** [schedule_command] for a new command. *)
Definition schedule_command (s : TxnScheduler) (keys : list K) : TxnScheduler :=
  let cid := id_alloc s + 1 in
  mk_scheduler (latches s) (<[cid := mk_cmd keys (latch_lock_new hash keys) (PAcquiring false 0)]> (cmds s)) cid.

(** The end of [acquire]: the command runs, or it waits to be woken up. *)
Definition acquire_end (s : TxnScheduler) (cid : Z) (cmd : Cmd) (ls : Latches) (n : nat) : TxnScheduler :=
  let lock := own_more (cmd_lock cmd) n in
  mk_scheduler ls (<[cid := mk_cmd (cmd_keys cmd) lock (if acquired lock then PRunning else PWaiting)]> (cmds s)) (id_alloc s).

Definition acquire_step (s : TxnScheduler) (cid : Z) (cmd : Cmd) (woken : bool) (n : nat) : res unit TxnScheduler :=
  match required_hashes (cmd_lock cmd) !! (owned_count (cmd_lock cmd) + n)%nat with
  | None => Ok (acquire_end s cid cmd (latches s) n)
  | Some key_hash =>
      '(ok, ls) ← acquire_one (latches s) key_hash cid;
      if ok : bool then Ok (mk_scheduler ls (<[cid := set_phase cmd (PAcquiring woken (S n))]> (cmds s)) (id_alloc s))
      else Ok (acquire_end s cid cmd ls n)
  end.

(** [on_write_finished], [on_read_finished] and [finish_with_err]: the command
    starts to release its latches. With [next_keys], the keys of the lock
    requests it resumes, the latches of those keys are kept for that command. *)
Definition finish_step (s : TxnScheduler) (cid : Z) (cmd : Cmd) (next_keys : option (list K)) : TxnScheduler :=
  let todo := take (owned_count (cmd_lock cmd)) (required_hashes (cmd_lock cmd)) in
  match next_keys with
  | None => mk_scheduler (latches s) (<[cid := set_phase cmd (PReleasing todo None [] [])]> (cmds s)) (id_alloc s)
  | Some keys =>
      let next_cid := id_alloc s + 1 in
      let next_latches := latch_lock_new hash keys in
      mk_scheduler (latches s)
        (<[cid := set_phase cmd (PReleasing todo (Some next_cid) (required_hashes next_latches) [])]>
           (<[next_cid := mk_cmd keys next_latches (PHanded 0)]> (cmds s)))
        next_cid
  end.

(** The next command got one more latch. *)
Definition hand_one (m : gmap Z Cmd) (next : option Z) : gmap Z Cmd :=
  match next with
  | Some n =>
      match m !! n with
      | Some cmd => match cmd_phase cmd with PHanded k => <[n := set_phase cmd (PHanded (S k))]> m | _ => m end
      | None => m
      end
  | None => m
  end.

Definition release_step (s : TxnScheduler) (cid : Z) (cmd : Cmd) (todo : list Z) (next : option Z) (keep_it wakeup : list Z) :
    res unit TxnScheduler :=
  match todo with
  | key_hash :: todo =>
      '(ls, keep_it', wakeup) ← release_one (latches s) key_hash cid next keep_it wakeup;
      let m := if kept_now key_hash keep_it then hand_one (cmds s) next else cmds s in
      Ok (mk_scheduler ls (<[cid := set_phase cmd (PReleasing todo next keep_it' wakeup)]> m) (id_alloc s))
  | [] =>
      rassert (match keep_it with [] => true | _ => false end)
        (Ok (mk_scheduler (latches s) (<[cid := set_phase cmd (PWaking wakeup next)]> (cmds s)) (id_alloc s)))
  end.

(** [try_to_wake_up]: the woken command acquires its next latches, or it is
    past its deadline and releases the ones it has. Its context has to be
    there, with the task in it. *)
Definition wake_up (cmd : Cmd) (deadline_exceeded : bool) : res unit Cmd :=
  match cmd_phase cmd with
  | PWaiting =>
      if deadline_exceeded then
        let lock := own_more (cmd_lock cmd) 1 in
        Ok (mk_cmd (cmd_keys cmd) lock (PReleasing (take (owned_count lock) (required_hashes lock)) None [] []))
      else Ok (set_phase cmd (PAcquiring true 0))
  | _ => Panic
  end.

(** The loop of [release_latches] over the commands to wake up, and then
    [schedule_awakened_pessimistic_locks] for the next command. *)
Definition waking_step (s : TxnScheduler) (cid : Z) (cmd : Cmd) (wakeup : list Z) (next : option Z) (deadline_exceeded : bool) :
    res unit TxnScheduler :=
  match wakeup with
  | w :: wakeup =>
      match cmds s !! w with
      | None => Panic
      | Some cw =>
          cw ← wake_up cw deadline_exceeded;
          Ok (mk_scheduler (latches s) (<[cid := set_phase cmd (PWaking wakeup next)]> (<[w := cw]> (cmds s))) (id_alloc s))
      end
  | [] =>
      let m := delete cid (cmds s) in
      match next with
      | None => Ok (mk_scheduler (latches s) m (id_alloc s))
      | Some n =>
          match m !! n with
          | None => Panic
          | Some cn =>
              let cn := mk_cmd (cmd_keys cn) (force_assume_acquired (cmd_lock cn)) (PAcquiring false 0) in
              Ok (mk_scheduler (latches s) (<[n := cn]> m) (id_alloc s))
          end
      end
  end.

(** What a command does next. [next_keys] says what it resumes when it is
    done; [deadline_exceeded] is about the command it wakes up. [Err] is a
    command that others have to move. *)
Definition cmd_step (s : TxnScheduler) (cid : Z) (next_keys : option (list K)) (deadline_exceeded : bool) : res unit TxnScheduler :=
  match cmds s !! cid with
  | None => Err tt
  | Some cmd =>
      match cmd_phase cmd with
      | PAcquiring woken n => acquire_step s cid cmd woken n
      | PRunning => Ok (finish_step s cid cmd next_keys)
      | PReleasing todo next keep_it wakeup => release_step s cid cmd todo next keep_it wakeup
      | PWaking wakeup next => waking_step s cid cmd wakeup next deadline_exceeded
      | PWaiting | PHanded _ => Err tt
      end
  end.

(** A new command, or a step of a present one. The lock requests a command
    resumes are for keys of its own. *)
Inductive txn_step : TxnScheduler -> TxnScheduler -> Prop :=
| step_schedule s keys : id_alloc s + 1 < 2 ^ 64 -> txn_step s (schedule_command s keys)
| step_cmd s cid cmd next_keys deadline_exceeded s' :
    id_alloc s + 1 < 2 ^ 64 -> cmds s !! cid = Some cmd -> (forall keys, next_keys = Some keys -> keys ⊆ cmd_keys cmd) ->
    cmd_step s cid next_keys deadline_exceeded = Ok s' -> txn_step s s'.

(** ** The invariant *)

(** The queues the command is in, and those it is first in. *)
Definition enq (cmd : Cmd) : list Z :=
  let hs := required_hashes (cmd_lock cmd) in
  let o := owned_count (cmd_lock cmd) in
  match cmd_phase cmd with
  | PAcquiring woken n => take (if woken then o + Nat.max 1 n else o + n)%nat hs
  | PWaiting => take (S o) hs
  | PRunning => take o hs
  | PReleasing todo _ _ _ => todo
  | PWaking _ _ => []
  | PHanded n => take n hs
  end.

Definition front (cmd : Cmd) : list Z :=
  match cmd_phase cmd with
  | PWaiting => take (owned_count (cmd_lock cmd)) (required_hashes (cmd_lock cmd))
  | _ => enq cmd
  end.

Definition wakeup_of (cmd : Cmd) : list Z :=
  match cmd_phase cmd with PReleasing _ _ _ wakeup => wakeup | PWaking wakeup _ => wakeup | _ => [] end.
Definition next_of (cmd : Cmd) : option Z :=
  match cmd_phase cmd with PReleasing _ next _ _ => next | PWaking _ next => next | _ => None end.
Definition keep_of (cmd : Cmd) : list Z :=
  match cmd_phase cmd with PReleasing _ _ keep_it _ => keep_it | _ => [] end.

Definition waits_at (cmd : Cmd) : option Z :=
  match cmd_phase cmd with PWaiting => required_hashes (cmd_lock cmd) !! owned_count (cmd_lock cmd) | _ => None end.
Definition lacks (cmd : Cmd) : option (list Z) :=
  match cmd_phase cmd with PHanded k => Some (drop k (required_hashes (cmd_lock cmd))) | _ => None end.

Definition phase_ok (cmd : Cmd) : Prop :=
  let hs := required_hashes (cmd_lock cmd) in
  let o := owned_count (cmd_lock cmd) in
  match cmd_phase cmd with
  | PAcquiring woken n => (o + n <= length hs)%nat /\ (woken = true -> (o < length hs)%nat)
  | PWaiting => (o < length hs)%nat
  | PRunning => o = length hs
  | PReleasing todo next keep_it _ =>
      StronglySorted Z.lt todo /\ Forall (Z.le 0) todo /\ StronglySorted Z.lt keep_it /\ keep_it ⊆ todo
      /\ (keep_it <> [] -> is_Some next)
  | PWaking _ _ => True
  | PHanded n => (n <= length hs)%nat
  end.

Record cmd_ok (cmd : Cmd) : Prop := {
  ok_sorted : StronglySorted Z.lt (required_hashes (cmd_lock cmd));
  ok_nonneg : Forall (Z.le 0) (required_hashes (cmd_lock cmd));
  ok_hashes : forall h, h ∈ required_hashes (cmd_lock cmd) <-> h ∈ map hash (cmd_keys cmd);
  ok_phase : phase_ok cmd
}.

(** Whom a command wakes up; the command that gets its latches and the ones
    still to hand over; what a prepared command still has to get; the hash a
    command waits at. *)
Definition wakes (m : gmap Z Cmd) (c : Z) : list Z := match m !! c with Some cmd => wakeup_of cmd | None => [] end.
Definition nexts (m : gmap Z Cmd) (c : Z) : option Z := match m !! c with Some cmd => next_of cmd | None => None end.
Definition keeps (m : gmap Z Cmd) (c : Z) : list Z := match m !! c with Some cmd => keep_of cmd | None => [] end.
Definition lacking (m : gmap Z Cmd) (n : Z) : option (list Z) := match m !! n with Some cmd => lacks cmd | None => None end.
Definition waits (m : gmap Z Cmd) (w : Z) : option Z := match m !! w with Some cmd => waits_at cmd | None => None end.

(** The queues [f] hold the commands [m] where their phases say. *)
Record placement (f : Z -> list Z) (m : gmap Z Cmd) : Prop := {
  li_cmd : forall c cmd, m !! c = Some cmd -> cmd_ok cmd;
  li_queue : forall h c, c ∈ f h <-> exists cmd, m !! c = Some cmd /\ h ∈ enq cmd;
  li_nodup : forall h, NoDup (f h);
  li_front : forall c cmd h, m !! c = Some cmd -> h ∈ front cmd -> head (f h) = Some c
}.

(** A prepared command gets its latches from exactly one command. *)
Record handing (m : gmap Z Cmd) : Prop := {
  li_next : forall c n, nexts m c = Some n -> lacking m n = Some (keeps m c);
  li_lacking : forall n l, lacking m n = Some l -> exists c, nexts m c = Some n;
  li_next_unique : forall c c' n, nexts m c = Some n -> nexts m c' = Some n -> c = c'
}.

(** A waiting command that is first in its queue is woken up, once. *)
Record waking (f : Z -> list Z) (m : gmap Z Cmd) : Prop := {
  li_wake : forall c w, w ∈ wakes m c -> exists h, waits m w = Some h /\ head (f h) = Some w;
  li_woken : forall w h, waits m w = Some h -> head (f h) = Some w -> exists c, w ∈ wakes m c;
  li_wake_nodup : forall c, NoDup (wakes m c);
  li_wake_unique : forall c c' w, w ∈ wakes m c -> w ∈ wakes m c' -> c = c'
}.

Record latch_inv (f : Z -> list Z) (m : gmap Z Cmd) : Prop := {
  li_place :> placement f m;
  li_hand : handing m;
  li_wk : waking f m
}.

Lemma ex_some {A} (a : A) (P : A -> Prop) : (exists x, Some a = Some x /\ P x) <-> P a.
Proof. split; [by intros (x & [= <-] & ?)|eauto]. Qed.

Lemma handing_same m m' :
  handing m -> (forall x, nexts m' x = nexts m x) -> (forall x, nexts m x <> None -> keeps m' x = keeps m x) ->
  (forall x, lacking m' x = lacking m x) -> handing m'.
Proof.
  intros [H1 H2 H3] Hn Hk Hl. split.
  - intros c n. rewrite Hn, Hl. intros E. rewrite Hk by congruence. by apply H1.
  - intros n l. rewrite Hl. intros E. destruct (H2 n l E) as [c Hc]. exists c. by rewrite Hn.
  - intros c c' n. rewrite !Hn. apply H3.
Qed.

(** The command [c] prepares the new command [n]. *)
Lemma handing_start m m' c n :
  handing m -> nexts m c = None -> lacking m n = None ->
  nexts m' c = Some n -> lacking m' n = Some (keeps m' c) ->
  (forall x, x <> c -> nexts m' x = nexts m x /\ keeps m' x = keeps m x) ->
  (forall x, x <> n -> lacking m' x = lacking m x) -> handing m'.
Proof.
  intros [H1 H2 H3] Hc Hn Hc' Hn' Hx Hl.
  assert (forall x, nexts m x <> Some n) as Hno by (intros x E; apply H1 in E; congruence).
  split.
  - intros x y. destruct (decide (x = c)) as [->|Hne]; [rewrite Hc'; by intros [= <-]|].
    destruct (Hx x Hne) as [-> ->]. intros E. rewrite Hl; [by apply H1|]. intros ->. by apply (Hno x).
  - intros y l. destruct (decide (y = n)) as [->|Hne]; [by exists c|]. rewrite Hl by done. intros E.
    destruct (H2 y l E) as [x E']. exists x. assert (x <> c) as Hxc by congruence. by rewrite (proj1 (Hx x Hxc)).
  - intros x y z. destruct (decide (x = c)) as [->|Hxc], (decide (y = c)) as [->|Hyc]; [done|..].
    + rewrite Hc', (proj1 (Hx y Hyc)). intros [= <-] E. by destruct (Hno y).
    + rewrite Hc', (proj1 (Hx x Hxc)). intros E [= <-]. by destruct (Hno x).
    + rewrite (proj1 (Hx x Hxc)), (proj1 (Hx y Hyc)). apply H3.
Qed.

(** [c] hands one more latch to [n]. *)
Lemma handing_move m m' c n :
  handing m -> nexts m c = Some n -> (forall x, nexts m' x = nexts m x) -> lacking m' n = Some (keeps m' c) ->
  (forall x, x <> c -> keeps m' x = keeps m x) -> (forall x, x <> n -> lacking m' x = lacking m x) -> handing m'.
Proof.
  intros [H1 H2 H3] Hc Hn Hl Hk Hx. split.
  - intros x y. rewrite Hn. intros E. destruct (decide (x = c)) as [->|]; [congruence|]. rewrite Hk, Hx; [by apply H1|..]; [|done].
    intros ->. by apply (H3 x c) in E.
  - intros y l. destruct (decide (y = n)) as [->|]; [exists c; by rewrite Hn|]. rewrite Hx by done. intros E.
    destruct (H2 y l E) as [x ?]. exists x. by rewrite Hn.
  - intros x y z. rewrite !Hn. apply H3.
Qed.

Lemma waking_same f f' m m' :
  waking f m -> (forall x, wakes m' x = wakes m x) ->
  (forall w h, waits m w = Some h -> waits m' w = Some h /\ (head (f' h) = Some w <-> head (f h) = Some w)) ->
  (forall w h, waits m' w = Some h -> head (f' h) = Some w -> waits m w = Some h) -> waking f' m'.
Proof.
  intros [H1 H2 H3 H4] Hw Hh Hb. split.
  - intros c w. rewrite Hw. intros Hin. destruct (H1 c w Hin) as (h & E & Hhd). destruct (Hh w h E) as [E' Hiff].
    exists h. split; [done|]. by apply Hiff.
  - intros w h E Hhd. pose proof (Hb w h E Hhd) as E'. destruct (Hh w h E') as [_ Hiff].
    destruct (H2 w h E') as [c Hc]; [by apply Hiff|]. exists c. by rewrite Hw.
  - intros c. by rewrite Hw.
  - intros c c' w. rewrite !Hw. apply H4.
Qed.

(** ** Steps that change one command *)

Lemma enq_waits cmd h : cmd_ok cmd -> h ∈ enq cmd -> h ∈ front cmd \/ waits_at cmd = Some h.
Proof.
  intros [_ _ _ Hp] Hin. unfold front, waits_at, enq, phase_ok in *. destruct (cmd_phase cmd); auto.
  destruct (lookup_lt_is_Some_2 _ _ Hp) as [x Hx]. rewrite (take_S_r _ _ _ Hx), elem_of_app in Hin.
  destruct Hin as [?|Hin%list_elem_of_singleton]; [by left|right; by subst].
Qed.

(** What the views say of a command in a known phase. *)
Ltac at_phase Hc Hp :=
  unfold wakes, nexts, keeps, waits, lacking; rewrite ?Hc; unfold wakeup_of, next_of, keep_of, waits_at, lacks;
  cbn [cmd_phase set_phase cmd_lock cmd_keys]; rewrite ?Hp; try done; try (split_and!; done).

(** The command [c] becomes [cmd'], and the queue of [h] becomes [q]. *)
Record changes_one (f : Z -> list Z) (m : gmap Z Cmd) (c : Z) (cmd' : Cmd) (h : Z) (q : list Z) : Prop := {
  ch_old : wakeup_of cmd' = wakes m c /\ next_of cmd' = nexts m c /\ (nexts m c <> None -> keep_of cmd' = keeps m c);
  ch_waits : waits m c = None;
  ch_lacks : lacks cmd' = lacking m c;
  ch_ok : cmd_ok cmd';
  ch_nodup : NoDup q;
  ch_others : forall c', c' <> c -> (c' ∈ q <-> c' ∈ f h) /\ (head q = Some c' <-> head (f h) = Some c');
  ch_here : c ∈ q <-> h ∈ enq cmd';
  ch_elsewhere : forall h', h' <> h -> (c ∈ f h' <-> h' ∈ enq cmd');
  ch_front : h ∈ front cmd' -> head q = Some c;
  ch_front' : forall h', h' <> h -> h' ∈ front cmd' -> head (f h') = Some c;
  ch_waits' : forall h', waits_at cmd' = Some h' -> h' = h /\ head q <> Some c
}.

Lemma place_one f m f' c cmd' h q :
  placement f m -> updates f h q f' -> cmd_ok cmd' -> NoDup q -> (forall c', c' <> c -> (c' ∈ q <-> c' ∈ f h)) ->
  (forall c' x, c' <> c -> m !! c' = Some x -> h ∈ front x -> head q = Some c') ->
  (c ∈ q <-> h ∈ enq cmd') -> (forall h', h' <> h -> (c ∈ f h' <-> h' ∈ enq cmd')) ->
  (h ∈ front cmd' -> head q = Some c) -> (forall h', h' <> h -> h' ∈ front cmd' -> head (f h') = Some c) ->
  placement f' (<[c := cmd']> m).
Proof.
  intros I [Hh Ho] Hok Hnd Hoth Hfr Hhere Helse Hf Hf'.
  set (m' := <[c := cmd']> m). assert (m' !! c = Some cmd') as Ec by apply lookup_insert_eq.
  assert (forall x, x <> c -> m' !! x = m !! x) as Ex by (intros; by apply lookup_insert_ne).
  split.
  - intros x cx. destruct (decide (x = c)) as [->|]; [rewrite Ec; by intros [= <-]|rewrite Ex by done; apply (li_cmd _ _ I)].
  - intros y x. destruct (decide (x = c)) as [->|Hne].
    + rewrite Ec, ex_some. destruct (decide (y = h)) as [->|]; [by rewrite Hh, Hhere|by rewrite Ho, Helse by done].
    + rewrite Ex by done. rewrite <- (li_queue _ _ I).
      destruct (decide (y = h)) as [->|]; [rewrite Hh; apply (Hoth x Hne)|by rewrite Ho].
  - intros y. destruct (decide (y = h)) as [->|]; [by rewrite Hh|rewrite Ho by done; apply (li_nodup _ _ I)].
  - intros x cx y. destruct (decide (x = c)) as [->|Hne].
    + rewrite Ec. intros [= <-] Hy. destruct (decide (y = h)) as [->|]; [rewrite Hh|rewrite Ho by done]; auto.
    + rewrite Ex by done. intros Hx Hy. destruct (decide (y = h)) as [->|]; [rewrite Hh; by eapply Hfr|].
      rewrite Ho by done. by eapply (li_front _ _ I).
Qed.

Lemma change_one f m f' c cmd' h q :
  latch_inv f m -> updates f h q f' -> changes_one f m c cmd' h q -> latch_inv f' (<[c := cmd']> m).
Proof.
  intros I Hu [(Hwk & Hnx & Hkp) Hnw Hlk Hok Hnd Hoth Hhere Helse Hf Hf' Hw]. split.
  - apply (place_one f m f' c cmd' h q); try done; [apply I|intros c' Hne; by apply Hoth|].
    intros c' x Hne Hx Hin. apply Hoth; [done|]. by eapply (li_front _ _ I).
  - apply (handing_same m); [apply I|..]; intros x; unfold nexts, keeps, lacking;
      (destruct (decide (x = c)) as [->|]; [rewrite lookup_insert_eq; auto|by rewrite lookup_insert_ne]).
  - destruct Hu as [Hh Ho]. apply (waking_same f f' m); [apply I|..].
    + intros x. unfold wakes. destruct (decide (x = c)) as [->|]; [by rewrite lookup_insert_eq|by rewrite lookup_insert_ne].
    + intros w y E. assert (w <> c) by congruence. unfold waits in *. rewrite lookup_insert_ne by done. split; [done|].
      destruct (decide (y = h)) as [->|]; [rewrite Hh; by apply Hoth|by rewrite Ho].
    + intros w y E Hy. unfold waits in *. destruct (decide (w = c)) as [->|]; [|by rewrite lookup_insert_ne in E].
      rewrite lookup_insert_eq in E. destruct (Hw y E) as [-> ?]. by rewrite Hh in Hy.
Qed.

(** The command changes and its place in the queues does not. *)
Lemma change_none f m c cmd cmd' :
  latch_inv f m -> m !! c = Some cmd -> cmd_phase cmd <> PWaiting -> (forall k, cmd_phase cmd <> PHanded k) ->
  wakeup_of cmd' = wakeup_of cmd -> next_of cmd' = next_of cmd -> keep_of cmd' = keep_of cmd ->
  cmd_ok cmd' -> cmd_phase cmd' <> PWaiting -> (forall k, cmd_phase cmd' <> PHanded k) ->
  (forall h, h ∈ enq cmd' <-> h ∈ enq cmd) -> latch_inv f (<[c := cmd']> m).
Proof.
  intros I Hc Hnw Hnh Hwk Hnx Hkp Hok Hnw' Hnh' He.
  assert (forall h, c ∈ f h <-> h ∈ enq cmd') as Hq.
  { intros h. rewrite (li_queue _ _ I), He. rewrite Hc. naive_solver. }
  assert (forall h, h ∈ front cmd' -> head (f h) = Some c) as Hf.
  { intros h Hh. apply (li_front _ _ I c cmd); [done|].
    assert (front cmd = enq cmd) as -> by (unfold front; destruct (cmd_phase cmd); done).
    assert (front cmd' = enq cmd') as E by (unfold front; destruct (cmd_phase cmd'); done).
    rewrite E in Hh. by apply He. }
  apply (change_one f m f c cmd' 0 (f 0)); [done|done|]. split; auto.
  - unfold wakes, nexts, keeps. rewrite Hc. split_and!; done.
  - unfold waits, waits_at. rewrite Hc. by destruct (cmd_phase cmd).
  - unfold lacking, lacks. rewrite Hc. destruct (cmd_phase cmd), (cmd_phase cmd'); naive_solver.
  - apply (li_nodup _ _ I).
  - intros h. unfold waits_at. by destruct (cmd_phase cmd').
Qed.

Lemma sorted_take_lt (hs : list Z) i h x : StronglySorted Z.lt hs -> hs !! i = Some h -> x ∈ take i hs -> x < h.
Proof.
  intros Hs. revert i. induction Hs as [|y hs Hs IH Hy]; intros i Hi Hx; [done|].
  destruct i as [|i]; [by apply elem_of_nil in Hx|]. cbn in Hi, Hx. rewrite Forall_forall in Hy.
  apply elem_of_cons in Hx as [->|Hx]; [|by eapply IH]. by apply Hy, list_elem_of_lookup_2 with i.
Qed.

Lemma sorted_take_fresh (hs : list Z) i h : StronglySorted Z.lt hs -> hs !! i = Some h -> h ∉ take i hs.
Proof. intros Hs Hi Hx. pose proof (sorted_take_lt hs i h h Hs Hi Hx). lia. Qed.

Section Acquire.
  Context (f : Z -> list Z) (m : gmap Z Cmd) (c : Z) (cmd : Cmd) (woken : bool) (n : nat).
  Hypothesis I : latch_inv f m.
  Hypothesis Hc : m !! c = Some cmd.
  Hypothesis Hp : cmd_phase cmd = PAcquiring woken n.
Let hs := required_hashes (cmd_lock cmd).
Let o := owned_count (cmd_lock cmd).

Lemma acquiring_place h : c ∈ f h <-> h ∈ take (if woken then o + Nat.max 1 n else o + n)%nat hs.
Proof using All.
  rewrite (li_queue _ _ I), Hc. assert (enq cmd = take (if woken then o + Nat.max 1 n else o + n)%nat hs) as <-
    by (unfold enq; by rewrite Hp). naive_solver.
Qed.

(** A command is in the queue of its next hash only when it was woken up there. *)
Lemma acquiring_here h : hs !! (o + n)%nat = Some h -> c ∈ f h -> woken = true /\ n = 0%nat /\ head (f h) = Some c.
Proof using All.
  intros Hh Hin. pose proof (li_cmd _ _ I c cmd Hc) as [Hs _ _ _].
  assert (head (f h) = Some c) as Hhd.
  { apply (li_front _ _ I c cmd); [done|]. unfold front, enq. rewrite Hp. by apply acquiring_place. }
  apply acquiring_place in Hin. destruct woken; [|by apply sorted_take_fresh in Hh].
  destruct n as [|n']; [done|]. by apply sorted_take_fresh in Hh.
Qed.

Lemma acquiring_absent h :
  hs !! (o + n)%nat = Some h -> c ∉ f h ->
  (forall x, c ∈ f x <-> x ∈ take (o + n) hs)
  /\ enq (set_phase cmd (PAcquiring woken (S n))) = take (o + n) hs ++ [h].
Proof using All.
  intros Hh Hn. pose proof acquiring_place as Hpl. unfold enq. cbn [cmd_phase set_phase cmd_lock]. fold hs o.
  rewrite <- (take_S_r _ _ _ Hh). clear I Hc. destruct woken; [destruct n as [|n']|].
  - destruct Hn. apply Hpl. replace (o + Nat.max 1 0)%nat with (S (o + 0)) by lia. rewrite (take_S_r _ _ _ Hh). set_solver.
  - split; [done|]. f_equal. lia.
  - split; [done|]. f_equal. lia.
Qed.

Lemma acquired_ok (p : Phase) h :
  hs !! (o + n)%nat = Some h -> p = PAcquiring woken (S n) -> cmd_ok (set_phase cmd p).
Proof using All.
  intros Hh ->. pose proof (li_cmd _ _ I c cmd Hc) as [Hs Hnn Hhs Hok]. split; [done..|].
  apply lookup_lt_Some in Hh. unfold phase_ok in *. rewrite Hp in Hok. cbn. unfold hs, o in *. split; [lia|]. intros E. lia.
Qed.

Lemma acquire_own h :
  hs !! (o + n)%nat = Some h -> head (f h) = Some c ->
  latch_inv f (<[c := set_phase cmd (PAcquiring woken (S n))]> m).
Proof using All.
  intros Hh Hhd. assert (c ∈ f h) as Hin by (destruct (f h); [done|]; injection Hhd as ->; set_solver).
  pose proof (acquired_ok _ h Hh eq_refl) as Hok. destruct (acquiring_here h Hh Hin) as (Hw & Hn & _).
  apply (change_none f m c cmd); try done; try (intros; by rewrite Hp); unfold wakeup_of, next_of, keep_of, enq; cbn; rewrite ?Hp; try done.
  intros y. by rewrite Hw, Hn.
Qed.

Lemma acquire_first f' h :
  hs !! (o + n)%nat = Some h -> f h = [] -> updates f h [c] f' ->
  latch_inv f' (<[c := set_phase cmd (PAcquiring woken (S n))]> m).
Proof using All.
  intros Hh He Hu. pose proof (acquired_ok _ h Hh eq_refl) as Hok.
  assert (c ∉ f h) as Hn by (rewrite He; apply not_elem_of_nil).
  destruct (acquiring_absent h Hh Hn) as [Hpl Eq].
  apply (change_one f m f' c _ h [c]); [done|done|]. split; try done.
  - at_phase Hc Hp.
  - at_phase Hc Hp.
  - at_phase Hc Hp.
  - apply NoDup_singleton.
  - intros c' Hne. rewrite He, list_elem_of_singleton, elem_of_nil. cbn. naive_solver.
  - rewrite Eq. set_solver.
  - intros h' Hne. rewrite Eq, Hpl. set_solver.
  - intros h' Hne Hin. assert (c ∈ f h') as Hin'.
    { apply Hpl. unfold front in Hin. cbn [cmd_phase set_phase] in Hin. rewrite Eq in Hin. set_solver. }
    apply (li_front _ _ I c cmd); [done|]. unfold front. rewrite Hp. unfold enq. rewrite Hp. by apply acquiring_place.
Qed.

Lemma acquire_wait f' h c0 :
  hs !! (o + n)%nat = Some h -> head (f h) = Some c0 -> c0 <> c -> updates f h (f h ++ [c]) f' ->
  latch_inv f' (<[c := mk_cmd (cmd_keys cmd) (own_more (cmd_lock cmd) n) PWaiting]> m).
Proof using All.
  intros Hh Hhd Hne Hu. assert (c ∉ f h) as Hn.
  { intros Hin. destruct (acquiring_here h Hh Hin) as (_ & _ & E). congruence. }
  destruct (acquiring_absent h Hh Hn) as [Hpl _]. pose proof (li_cmd _ _ I c cmd Hc) as [Hs Hnn Hhs Hok].
  pose proof (lookup_lt_Some _ _ _ Hh) as Hlt.
  assert (enq (mk_cmd (cmd_keys cmd) (own_more (cmd_lock cmd) n) PWaiting) = take (o + n) hs ++ [h]) as Eq
    by exact (take_S_r _ _ _ Hh).
  assert (head (f h ++ [c]) = Some c0) as Hhd' by (by destruct (f h)).
  apply (change_one f m f' c _ h (f h ++ [c])); [done|done|]. split; try done.
  - at_phase Hc Hp.
  - at_phase Hc Hp.
  - at_phase Hc Hp.
  - apply NoDup_app. split_and!; [apply (li_nodup _ _ I)|set_solver|apply NoDup_singleton].
  - intros c' Hne'. rewrite Hhd', Hhd. set_solver.
  - rewrite Eq. set_solver.
  - intros h' Hne'. rewrite Eq, Hpl. set_solver.
  - unfold front. cbn. intros Hin. by apply sorted_take_fresh in Hh.
  - intros h' Hne' Hin. unfold front in Hin. cbn in Hin.
    apply (li_front _ _ I c cmd); [done|]. unfold front. rewrite Hp. unfold enq. rewrite Hp. by apply acquiring_place, Hpl.
  - intros h' Hw. cbn in Hw. unfold hs, o in Hh. rewrite Hh in Hw. injection Hw as <-. split; [done|]. congruence.
Qed.

Lemma acquire_all :
  hs !! (o + n)%nat = None ->
  latch_inv f (<[c := mk_cmd (cmd_keys cmd) (own_more (cmd_lock cmd) n) PRunning]> m).
Proof using All.
  intros Hh. apply lookup_ge_None in Hh. pose proof (li_cmd _ _ I c cmd Hc) as [Hs Hnn Hhs Hok].
  unfold phase_ok in Hok. rewrite Hp in Hok. unfold hs, o in *.
  apply (change_none f m c cmd); try done; try (intros; by rewrite Hp); unfold wakeup_of, next_of, keep_of, enq; cbn; rewrite ?Hp; try done.
  - split; try done. cbn. lia.
  - intros y. rewrite !take_ge; [done|destruct woken; lia|lia].
Qed.
End Acquire.

(** ** New commands and finished commands *)

Lemma absent_not_queued f m c h : latch_inv f m -> m !! c = None -> c ∉ f h.
Proof. intros I Hc Hin. apply (li_queue _ _ I) in Hin as (cmd & E & _). congruence. Qed.

Section Hashes.
  Hypothesis Hhash : forall k, 0 <= hash k.

Lemma new_cmd_ok keys p : (forall n, p = PHanded n -> n = 0%nat) -> (forall w n, p = PAcquiring w n -> w = false /\ n = 0%nat) ->
  match p with PHanded _ | PAcquiring _ _ => True | _ => False end -> cmd_ok (mk_cmd keys (latch_lock_new hash keys) p).
Proof using Hhash.
  intros H1 H2 H3. split; cbn [cmd_lock cmd_keys].
  - apply latch_lock_new_sorted.
  - apply Forall_forall. intros h Hh. rewrite elem_of_latch_lock_new in Hh.
    apply list_elem_of_In, in_map_iff in Hh as (k & <- & _). apply Hhash.
  - apply elem_of_latch_lock_new.
  - unfold phase_ok. cbn [cmd_phase cmd_lock]. destruct p as [w n| | | | |n]; try done.
    + destruct (H2 w n eq_refl) as [-> ->]. split; [cbn; lia|done].
    + rewrite (H1 n eq_refl). lia.
Qed.

Lemma schedule_inv f m c keys :
  latch_inv f m -> m !! c = None ->
  latch_inv f (<[c := mk_cmd keys (latch_lock_new hash keys) (PAcquiring false 0)]> m).
Proof using Hhash.
  intros I Hc. pose proof (absent_not_queued f m c) as Hq.
  apply (change_one f m f c _ 0 (f 0)); [done|done|]. split; try done.
  - at_phase Hc Hc.
  - at_phase Hc Hc.
  - at_phase Hc Hc.
  - apply new_cmd_ok; [done| |done]. by intros w n [= <- <-].
  - apply (li_nodup _ _ I).
  - split; [by intros ?%Hq|]. by intros ?%elem_of_nil.
  - intros h' _. split; [by intros ?%Hq|]. by intros ?%elem_of_nil.
  - by intros ?%elem_of_nil.
  - by intros h' _ ?%elem_of_nil.
Qed.

(** A running command that is done, with nothing to resume. *)
Lemma finish_inv f m c cmd :
  latch_inv f m -> m !! c = Some cmd -> cmd_phase cmd = PRunning ->
  latch_inv f (<[c := set_phase cmd (PReleasing (take (owned_count (cmd_lock cmd)) (required_hashes (cmd_lock cmd))) None [] [])]> m).
Proof.
  intros I Hc Hp. pose proof (li_cmd _ _ I c cmd Hc) as [Hs Hnn Hhs Hok]. unfold phase_ok in Hok. rewrite Hp in Hok.
  apply (change_none f m c cmd); try done; try (intros; by rewrite Hp); unfold wakeup_of, next_of, keep_of, enq; cbn; rewrite ?Hp; try done.
  split; try done. cbn. rewrite Hok, take_ge by lia. split_and!; try done; [constructor|apply list_subseteq_nil].
Qed.

(** A running command that is done and hands latches to the next one. *)
Lemma finish_next_inv f m c cmd n keys :
  latch_inv f m -> m !! c = Some cmd -> cmd_phase cmd = PRunning -> m !! n = None -> keys ⊆ cmd_keys cmd ->
  latch_inv f (<[c := set_phase cmd (PReleasing (take (owned_count (cmd_lock cmd)) (required_hashes (cmd_lock cmd))) (Some n)
                        (required_hashes (latch_lock_new hash keys)) [])]>
                 (<[n := mk_cmd keys (latch_lock_new hash keys) (PHanded 0)]> m)).
Proof using Hhash.
  intros I Hc Hp Hn Hsub. pose proof (li_cmd _ _ I c cmd Hc) as [Hs Hnn Hhs Hok]. unfold phase_ok in Hok. rewrite Hp in Hok.
  set (cn := mk_cmd keys _ (PHanded 0)). set (cmd' := set_phase cmd _).
  assert (c <> n) as Hcn by congruence.
  assert (cmd_ok cn) as Hokn by (apply new_cmd_ok; [by intros k [= <-]|done|done]).
  assert (cmd_ok cmd') as Hok'.
  { split; try done. cbn. rewrite Hok, take_ge by lia. split_and!; try done; [apply latch_lock_new_sorted|].
    intros h Hh. apply Hhs. apply (proj1 (elem_of_latch_lock_new hash keys h)) in Hh.
    apply list_elem_of_In, in_map_iff in Hh as (k & <- & Hk). apply list_elem_of_In, in_map, list_elem_of_In, Hsub.
    by apply list_elem_of_In. }
  set (m' := <[c := cmd']> (<[n := cn]> m)).
  assert (m' !! c = Some cmd') as Ec by apply lookup_insert_eq.
  assert (m' !! n = Some cn) as En by (unfold m'; rewrite lookup_insert_ne by done; apply lookup_insert_eq).
  assert (forall x, x <> c -> x <> n -> m' !! x = m !! x) as Ex by (intros; unfold m'; by rewrite !lookup_insert_ne).
  split.
  - split.
    + intros x cx. destruct (decide (x = c)) as [->|]; [rewrite Ec; by intros [= <-]|].
      destruct (decide (x = n)) as [->|]; [rewrite En; by intros [= <-]|rewrite Ex by done; apply (li_cmd _ _ I)].
    + intros h x. rewrite (li_queue _ _ I). destruct (decide (x = c)) as [->|]; [|destruct (decide (x = n)) as [->|]].
      * rewrite Ec, Hc, !ex_some. unfold enq. by rewrite Hp.
      * rewrite En, Hn. split; [by intros (? & ? & _)|]. by intros (? & [= <-] & ?%elem_of_nil).
      * by rewrite Ex.
    + apply I.
    + intros x cx h. destruct (decide (x = c)) as [->|]; [|destruct (decide (x = n)) as [->|]].
      * rewrite Ec. intros [= <-] Hin. apply (li_front _ _ I c cmd); [done|]. unfold front, enq. by rewrite Hp.
      * rewrite En. by intros [= <-] ?%elem_of_nil.
      * rewrite Ex by done. apply (li_front _ _ I).
  - apply (handing_start m m' c n); [apply I|at_phase Hc Hp|at_phase Hn Hn|unfold nexts; by rewrite Ec| |..].
    + unfold lacking, keeps. by rewrite En, Ec.
    + intros x Hx. unfold nexts, keeps. destruct (decide (x = n)) as [->|]; [by rewrite En, Hn|by rewrite Ex].
    + intros x Hx. unfold lacking. destruct (decide (x = c)) as [->|]; [rewrite Ec; at_phase Hc Hp|by rewrite Ex].
  - apply (waking_same f f m); [apply I|..].
    + intros x. unfold wakes. destruct (decide (x = c)) as [->|]; [rewrite Ec; at_phase Hc Hp|].
      destruct (decide (x = n)) as [->|]; [by rewrite En, Hn|by rewrite Ex].
    + intros w h E. split; [|done]. unfold waits in *. rewrite Ex; [done|intros ->; revert E; at_phase Hc Hp|].
      intros ->. by rewrite Hn in E.
    + intros w h. unfold waits. destruct (decide (w = c)) as [->|]; [by rewrite Ec|].
      destruct (decide (w = n)) as [->|]; [by rewrite En|by rewrite Ex].
Qed.
End Hashes.

(** ** Releasing *)

(** A released queue wakes up the command that is now first. *)
Lemma waking_release f f' m m' c h q :
  waking f m -> f h = c :: q -> c ∉ q -> updates f h q f' -> waits m c = None ->
  (forall w, head q = Some w -> waits m w = Some h) ->
  (forall x, waits m' x = waits m x) -> (forall x, x <> c -> wakes m' x = wakes m x) ->
  wakes m' c = wakes m c ++ option_list (head q) -> waking f' m'.
Proof.
  intros [H1 H2 H3 H4] Hq Hnq [Hh Ho] Hc Hnew Hwt Hx Hwc.
  assert (forall x w, w ∈ wakes m x -> head q <> Some w) as Hfresh.
  { intros x w Hin Hhd. destruct (H1 x w Hin) as (y & E & Hy). rewrite (Hnew w Hhd) in E. injection E as <-.
    rewrite Hq in Hy. injection Hy as ->. rewrite (Hnew w Hhd) in Hc. done. }
  assert (forall x w, w ∈ wakes m' x <-> w ∈ wakes m x \/ (x = c /\ head q = Some w)) as Hin.
  { intros x w. destruct (decide (x = c)) as [->|]; [rewrite Hwc, elem_of_app|rewrite Hx by done]; [|naive_solver].
    destruct (head q) as [y|]; cbn; [rewrite list_elem_of_singleton|rewrite elem_of_nil]; naive_solver. }
  split.
  - intros x w [Hw|[-> Hw]]%Hin; [|exists h; rewrite Hwt, Hh; auto]. destruct (H1 x w Hw) as (y & E & Hy). exists y.
    rewrite Hwt. split; [done|]. rewrite Ho; [done|]. intros ->. rewrite Hq in Hy. injection Hy as ->. congruence.
  - intros w y. rewrite Hwt. intros E Hy. setoid_rewrite Hin. destruct (decide (y = h)) as [->|].
    + exists c. right. by rewrite Hh in Hy.
    + rewrite Ho in Hy by done. destruct (H2 w y E Hy) as [x ?]. exists x. by left.
  - intros x. destruct (decide (x = c)) as [->|]; [rewrite Hwc|by rewrite Hx]. apply NoDup_app. split_and!; [done| |].
    + intros w Hw. destruct (head q) as [y|] eqn:E; cbn; [|apply not_elem_of_nil].
      intros ->%list_elem_of_singleton. by apply (Hfresh c y).
    + destruct (head q); cbn; [apply NoDup_singleton|constructor].
  - intros x y w [Hw|[-> Hw]]%Hin [Hw'|[-> Hw']]%Hin; [by eapply H4|by destruct (Hfresh x w)|by destruct (Hfresh y w)|done].
Qed.

Section Release.
  Context (f : Z -> list Z) (m : gmap Z Cmd) (c : Z) (cmd : Cmd) (h : Z) (todo : list Z) (next : option Z) (keep wakeup : list Z).
  Hypothesis I : latch_inv f m.
  Hypothesis Hc : m !! c = Some cmd.
  Hypothesis Hp : cmd_phase cmd = PReleasing (h :: todo) next keep wakeup.

Lemma releasing_first : exists q, f h = c :: q /\ NoDup (c :: q).
Proof using All.
  assert (head (f h) = Some c) as Hhd.
  { apply (li_front _ _ I c cmd); [done|]. unfold front, enq. rewrite Hp. apply elem_of_cons. by left. }
  pose proof (li_nodup _ _ I h) as Hnd. destruct (f h) as [|x q]; [done|]. injection Hhd as ->.
  by exists q.
Qed.

Lemma releasing_todo : (h ∉ todo) /\ forall x, c ∈ f x <-> x ∈ h :: todo.
Proof using All.
  pose proof (li_cmd _ _ I c cmd Hc) as [_ _ _ Hok]. unfold phase_ok in Hok. rewrite Hp in Hok. split.
  - intros Hin. destruct Hok as (Hs & _). apply StronglySorted_inv in Hs as [_ Hs]. rewrite Forall_forall in Hs.
    specialize (Hs h Hin). lia.
  - intros x. rewrite (li_queue _ _ I), Hc, ex_some. unfold enq. by rewrite Hp.
Qed.

(** The phase after the hash, with what is left to keep. *)
Lemma released_ok keep' wakeup' :
  StronglySorted Z.lt keep' -> keep' ⊆ todo -> (keep' <> [] -> keep <> []) ->
  cmd_ok (set_phase cmd (PReleasing todo next keep' wakeup')).
Proof using All.
  intros Hs' Hsub Hne. pose proof (li_cmd _ _ I c cmd Hc) as [Hs Hnn Hhs Hok]. unfold phase_ok in Hok. rewrite Hp in Hok.
  destruct Hok as (Ht & Hn & Hk & _ & Hnx). apply StronglySorted_inv in Ht as [Ht _]. apply Forall_cons in Hn as [_ Hn].
  split; try done. cbn. split_and!; auto.
Qed.

Lemma released_place f' q keep' wakeup' :
  f h = c :: q -> c ∉ q -> NoDup q -> updates f h q f' -> cmd_ok (set_phase cmd (PReleasing todo next keep' wakeup')) ->
  placement f' (<[c := set_phase cmd (PReleasing todo next keep' wakeup')]> m).
Proof using All.
  intros Hq Hnq Hnd Hu Hok. destruct releasing_todo as [Hht Hpl].
  apply (place_one f m f' c _ h q); try done; [apply I|..]; cbn [front enq set_phase cmd_phase].
  - intros c' Hne. rewrite Hq. set_solver.
  - intros c' x Hne Hx Hin. pose proof (li_front _ _ I c' x h Hx Hin) as E. rewrite Hq in E. by injection E.
  - intros h' Hne. rewrite Hpl. set_solver.
  - intros h' Hne Hin. apply (li_front _ _ I c cmd); [done|]. unfold front, enq. rewrite Hp. set_solver.
Qed.

Lemma release_wake f' q :
  f h = c :: q -> c ∉ q -> NoDup q -> kept_now h keep = false -> updates f h q f' ->
  latch_inv f' (<[c := set_phase cmd (PReleasing todo next keep (match head q with Some w => wakeup ++ [w] | None => wakeup end))]> m).
Proof using All.
  intros Hq Hnq Hnd Hk Hu. assert (cmd_ok (set_phase cmd (PReleasing todo next keep
    (match head q with Some w => wakeup ++ [w] | None => wakeup end)))) as Hok.
  { pose proof (li_cmd _ _ I c cmd Hc) as [_ _ _ Hok]. unfold phase_ok in Hok. rewrite Hp in Hok.
    destruct Hok as (Ht & _ & Hks & Hsub & _). apply released_ok; [done| |done].
    intros x Hx. pose proof (Hsub x Hx) as Hx'. apply elem_of_cons in Hx' as [->|]; [exfalso|done].
    destruct keep as [|k ks]; [by apply elem_of_nil in Hx|]. cbn in Hk. apply Z.eqb_neq in Hk.
    apply StronglySorted_inv in Hks as [_ Hks]. rewrite Forall_forall in Hks.
    apply elem_of_cons in Hx as [->|Hx]; [done|]. specialize (Hks h Hx).
    pose proof (Hsub k (list_elem_of_here k ks)) as Hk'. apply elem_of_cons in Hk' as [->|Hk']; [done|].
    apply StronglySorted_inv in Ht as [_ Ht]. rewrite Forall_forall in Ht. specialize (Ht k Hk'). lia. }
  split; [by eapply released_place|..].
  - apply (handing_same m); [apply I|..]; intros x; unfold nexts, keeps, lacking;
      (destruct (decide (x = c)) as [->|]; [rewrite lookup_insert_eq; at_phase Hc Hp|by rewrite lookup_insert_ne]).
  - apply (waking_release f f' m _ c h q); try done; [apply I|at_phase Hc Hp|..].
    + intros w Hw. assert (w ∈ f h) as Hin by (rewrite Hq; destruct q; [done|]; injection Hw as ->; set_solver).
      apply (li_queue _ _ I) in Hin as (cw & Ew & Hin). unfold waits. rewrite Ew.
      apply enq_waits in Hin as [Hin|]; [exfalso|done|by eapply (li_cmd _ _ I)].
      pose proof (li_front _ _ I w cw h Ew Hin) as E. rewrite Hq in E. injection E as ->.
      destruct q; [done|]. injection Hw as ->. set_solver.
    + intros x. unfold waits. destruct (decide (x = c)) as [->|]; [rewrite lookup_insert_eq; at_phase Hc Hp|by rewrite lookup_insert_ne].
    + intros x Hx. unfold wakes. by rewrite lookup_insert_ne.
    + unfold wakes. rewrite lookup_insert_eq, Hc. unfold wakeup_of. rewrite Hp. cbn. destruct (head q); [done|]. by rewrite app_nil_r.
Qed.

Lemma kept_ok keep' : keep = h :: keep' -> cmd_ok (set_phase cmd (PReleasing todo next keep' wakeup)).
Proof using All.
  intros Hk. pose proof (li_cmd _ _ I c cmd Hc) as [_ _ _ Hok]. unfold phase_ok in Hok. rewrite Hp in Hok.
  destruct Hok as (Ht & _ & Hks & Hsub & _). rewrite Hk in Hks, Hsub. apply StronglySorted_inv in Hks as [Hks Hlt].
  rewrite Forall_forall in Hlt. apply released_ok; [done| |by rewrite Hk].
  intros x Hx. specialize (Hsub x). rewrite !elem_of_cons in Hsub. destruct Hsub as [->|]; [by right| |done].
  specialize (Hlt h Hx). lia.
Qed.

(** The hash goes to the next command. *)
Section Keep.
  Context (q keep' : list Z) (n : Z) (cn : Cmd) (k : nat).
  Hypothesis Hq : f h = c :: q.
  Hypothesis Hnd : NoDup (c :: q).
  Hypothesis Hk : keep = h :: keep'.
  Hypothesis En : m !! n = Some cn.
  Hypothesis Hpn : cmd_phase cn = PHanded k.
  Hypothesis Hdrop : drop k (required_hashes (cmd_lock cn)) = keep.

Lemma keep_place f' :
  updates f h (n :: q) f' ->
  placement f' (<[n := set_phase cn (PHanded (S k))]> (<[c := set_phase cmd (PReleasing todo next keep' wakeup)]> m)).
Proof using All.
  intros [Hh Ho]. apply NoDup_cons in Hnd as [Hnq Hnd']. pose proof (li_cmd _ _ I n cn En) as [Hsn Hnnn Hhsn Hokn].
  assert (required_hashes (cmd_lock cn) !! k = Some h) as Hkh.
  { rewrite <- (Nat.add_0_r k), <- lookup_drop, Hdrop, Hk. done. }
  pose proof (sorted_take_fresh _ _ _ Hsn Hkh) as Hfresh.
  assert (forall x, n ∈ f x <-> x ∈ take k (required_hashes (cmd_lock cn))) as Hpn'.
  { intros x. rewrite (li_queue _ _ I), En, ex_some. unfold enq. by rewrite Hpn. }
  set (f1 := fun x => if x =? h then q else f x).
  assert (updates f h q f1) as Hu1.
  { split; [unfold f1; by rewrite Z.eqb_refl|]. intros x Hx. unfold f1. by destruct (Z.eqb_spec x h). }
  pose proof (released_place f1 q keep' wakeup Hq Hnq Hnd' Hu1 (kept_ok keep' Hk)) as Hpl. destruct Hu1 as [Hu1 Hu1'].
  apply (place_one f1 _ f' n _ h (n :: q)); [done|..]; cbn [front enq set_phase cmd_phase cmd_lock].
  - split; [done|]. intros x Hx. rewrite Hu1' by done. by apply Ho.
  - split; try done. cbn. apply lookup_lt_Some in Hkh. lia.
  - apply NoDup_cons. split; [|done]. intros Hin. destruct Hfresh. apply Hpn'. rewrite Hq. set_solver.
  - intros c' Hne. rewrite Hu1. set_solver.
  - intros c' x Hne Hx Hin. exfalso. destruct (decide (c' = c)) as [->|Hcc].
    + rewrite lookup_insert_eq in Hx. injection Hx as <-. by apply releasing_todo.
    + rewrite lookup_insert_ne in Hx by done. pose proof (li_front _ _ I c' x h Hx Hin) as E. rewrite Hq in E. by injection E.
  - rewrite (take_S_r _ _ _ Hkh). set_solver.
  - intros h' Hne. rewrite Hu1' by done. rewrite (take_S_r _ _ _ Hkh), Hpn'. set_solver.
  - done.
  - intros h' Hne. rewrite Hu1', (take_S_r _ _ _ Hkh) by done. intros [Hin|?]%elem_of_app; [|set_solver].
    apply (li_front _ _ I n cn); [done|]. unfold front, enq. by rewrite Hpn.
Qed.

Lemma release_keep f' :
  next = Some n -> updates f h (n :: q) f' ->
  latch_inv f' (<[c := set_phase cmd (PReleasing todo next keep' wakeup)]> (<[n := set_phase cn (PHanded (S k))]> m)).
Proof using All.
  intros Hn Hu. assert (n <> c) as Hnc by congruence. rewrite insert_insert_ne by done.
  split; [by apply keep_place|..]; set (m' := <[n := _]> _).
  all: assert (m' !! c = Some (set_phase cmd (PReleasing todo next keep' wakeup))) as Ec
    by (unfold m'; rewrite lookup_insert_ne by done; apply lookup_insert_eq).
  all: assert (m' !! n = Some (set_phase cn (PHanded (S k)))) as En' by apply lookup_insert_eq.
  all: assert (forall x, x <> c -> x <> n -> m' !! x = m !! x) as Ex by (intros; unfold m'; by rewrite !lookup_insert_ne).
  - apply (handing_move m m' c n); [apply I|at_phase Hc Hp|..].
    + intros x. unfold nexts. destruct (decide (x = c)) as [->|]; [rewrite Ec; at_phase Hc Hp|].
      destruct (decide (x = n)) as [->|]; [rewrite En'; at_phase En Hpn|by rewrite Ex].
    + unfold lacking, keeps. rewrite En', Ec. cbn. f_equal. rewrite <- Nat.add_1_r, <- drop_drop, Hdrop, Hk. done.
    + intros x Hx. unfold keeps. destruct (decide (x = n)) as [->|]; [rewrite En'; at_phase En Hpn|by rewrite Ex].
    + intros x Hx. unfold lacking. destruct (decide (x = c)) as [->|]; [rewrite Ec; at_phase Hc Hp|by rewrite Ex].
  - destruct Hu as [Hh Ho]. assert (waits m c = None /\ waits m n = None) as [Hwc Hwn]
      by (unfold waits, waits_at; by rewrite Hc, En, Hp, Hpn).
    assert (forall w, waits m' w = waits m w) as Hw.
    { intros w. unfold waits. destruct (decide (w = c)) as [->|]; [rewrite Ec; at_phase Hc Hp|].
      destruct (decide (w = n)) as [->|]; [rewrite En'; at_phase En Hpn|by rewrite Ex]. }
    apply (waking_same f f' m); [apply I|..].
    + intros x. unfold wakes. destruct (decide (x = c)) as [->|]; [rewrite Ec; at_phase Hc Hp|].
      destruct (decide (x = n)) as [->|]; [rewrite En'; at_phase En Hpn|by rewrite Ex].
    + intros w y E. rewrite Hw. split; [done|]. destruct (decide (y = h)) as [->|]; [|by rewrite Ho].
      rewrite Hh, Hq. cbn. split; intros [= ->]; congruence.
    + intros w y. by rewrite Hw.
Qed.
End Keep.
End Release.

Lemma place_same f m c cmd cmd' :
  placement f m -> m !! c = Some cmd -> cmd_ok cmd' -> (forall h, h ∈ enq cmd' <-> h ∈ enq cmd) ->
  (forall h, h ∈ front cmd' -> head (f h) = Some c) -> placement f (<[c := cmd']> m).
Proof.
  intros I Hc Hok He Hf. assert (forall h, c ∈ f h <-> h ∈ enq cmd') as Hq
    by (intros h; by rewrite (li_queue _ _ I), Hc, ex_some, He).
  apply (place_one f m f c cmd' 0 (f 0)); auto; [done|apply I|]. intros c' x _ Hx Hin. by eapply (li_front _ _ I).
Qed.

Lemma release_end f m c cmd next keep wakeup :
  latch_inv f m -> m !! c = Some cmd -> cmd_phase cmd = PReleasing [] next keep wakeup ->
  keep = [] /\ latch_inv f (<[c := set_phase cmd (PWaking wakeup next)]> m).
Proof.
  intros I Hc Hp. pose proof (li_cmd _ _ I c cmd Hc) as [Hs Hnn Hhs Hok]. unfold phase_ok in Hok. rewrite Hp in Hok.
  destruct Hok as (_ & _ & _ & Hsub & _). assert (keep = []) as ->.
  { destruct keep as [|x keep]; [done|]. by specialize (Hsub x (list_elem_of_here _ _)) as ?%elem_of_nil. }
  split; [done|]. apply (change_none f m c cmd); try done; try (intros; by rewrite Hp); unfold enq; at_phase Hc Hp.
Qed.

(** ** Waking up *)

Lemma waking_wake f m m' c w ws :
  waking f m -> wakes m c = w :: ws -> wakes m' c = ws -> (forall x, x <> c -> wakes m' x = wakes m x) ->
  waits m' w = None -> (forall x, x <> w -> waits m' x = waits m x) -> waking f m'.
Proof.
  intros [H1 H2 H3 H4] Hc Hc' Hx Hw Hwt. pose proof (H3 c) as Hnd. rewrite Hc in Hnd. apply NoDup_cons in Hnd as [Hnw Hnd].
  assert (forall x y, y ∈ wakes m' x <-> y ∈ wakes m x /\ y <> w) as Hin.
  { intros x y. destruct (decide (x = c)) as [->|Hne].
    - rewrite Hc, Hc', elem_of_cons. naive_solver.
    - rewrite Hx by done. split; [|by intros [? _]]. intros Hy. split; [done|]. intros ->. destruct Hne.
      apply (H4 x c w Hy). rewrite Hc. set_solver. }
  split.
  - intros x y [Hy Hne]%Hin. rewrite Hwt by done. by eapply H1.
  - intros y h. destruct (decide (y = w)) as [->|]; [by rewrite Hw|]. rewrite Hwt by done. intros E Hhd.
    destruct (H2 y h E Hhd) as [x ?]. exists x. by apply Hin.
  - intros x. destruct (decide (x = c)) as [->|]; [by rewrite Hc'|by rewrite Hx].
  - intros x x' y [Hy _]%Hin [Hy' _]%Hin. by eapply H4.
Qed.

(** The woken command stays in its queues and is first in all of them. *)
Record woken_as (cw cw' : Cmd) : Prop := {
  wa_ok : cmd_ok cw';
  wa_enq : enq cw' = enq cw;
  wa_front : front cw' = enq cw;
  wa_views : wakeup_of cw' = [] /\ next_of cw' = None /\ keep_of cw' = [] /\ lacks cw' = None /\ waits_at cw' = None
}.

Lemma sorted_take (hs : list Z) n : StronglySorted Z.lt hs -> StronglySorted Z.lt (take n hs).
Proof.
  intros Hs. revert n. induction Hs as [|x hs Hs IH Hx]; intros [|n]; cbn; constructor; [done|].
  apply Forall_take. done.
Qed.

Lemma wake_up_ok cw d : cmd_ok cw -> cmd_phase cw = PWaiting -> exists cw', wake_up cw d = Ok cw' /\ woken_as cw cw'.
Proof.
  intros [Hs Hnn Hhs Hok] Hp. unfold phase_ok in Hok. rewrite Hp in Hok. unfold wake_up. rewrite Hp.
  assert (forall cw', cmd_ok cw' -> enq cw' = enq cw -> cmd_phase cw' = PAcquiring true 0
    \/ (exists todo, cmd_phase cw' = PReleasing todo None [] []) -> woken_as cw cw') as Hwa.
  { intros cw' Hok' He Hp'. unfold front. split; [done|done|..].
    - unfold front. by destruct Hp' as [->|[todo ->]].
    - unfold wakeup_of, next_of, keep_of, lacks, waits_at. by destruct Hp' as [->|[todo ->]]. }
  destruct d; (eexists; split; [done|]); apply Hwa.
  - split; try done. cbn. split_and!; [by apply sorted_take|by apply Forall_take|constructor|apply list_subseteq_nil|done].
  - unfold enq. rewrite Hp. cbn. f_equal. lia.
  - right. by eexists.
  - split; try done. cbn. split; [lia|done].
  - unfold enq. rewrite Hp. cbn. f_equal. lia.
  - by left.
Qed.

Lemma wake_inv f m c cmd w ws next d :
  latch_inv f m -> m !! c = Some cmd -> cmd_phase cmd = PWaking (w :: ws) next ->
  exists cw cw', m !! w = Some cw /\ wake_up cw d = Ok cw'
    /\ latch_inv f (<[c := set_phase cmd (PWaking ws next)]> (<[w := cw']> m)).
Proof.
  intros I Hc Hp. assert (wakes m c = w :: ws) as Hwc by at_phase Hc Hp.
  destruct (li_wake _ _ (li_wk _ _ I) c w) as (h & Hw & Hhd); [rewrite Hwc; set_solver|].
  unfold waits in Hw. destruct (m !! w) as [cw|] eqn:Ew; [|done]. unfold waits_at in Hw.
  destruct (cmd_phase cw) eqn:Hpw; try done.
  destruct (wake_up_ok cw d (li_cmd _ _ I w cw Ew) Hpw) as (cw' & Eok & [Hok' He Hf (Hwk & Hnx & Hkp & Hlk & Hwt)]).
  exists cw, cw'. split; [done|]. split; [done|]. assert (w <> c) as Hne by congruence.
  set (m' := <[c := set_phase cmd (PWaking ws next)]> (<[w := cw']> m)).
  assert (m' !! c = Some (set_phase cmd (PWaking ws next))) as Ec by apply lookup_insert_eq.
  assert (m' !! w = Some cw') as Ew' by (unfold m'; rewrite lookup_insert_ne by done; apply lookup_insert_eq).
  assert (forall x, x <> c -> x <> w -> m' !! x = m !! x) as Ex by (intros; unfold m'; by rewrite !lookup_insert_ne).
  split.
  - apply (place_same _ (<[w := cw']> m) c cmd); [|by rewrite lookup_insert_ne|..].
    + apply (place_same _ m w cw); [apply I|done|done|by rewrite He|]. rewrite Hf. intros y Hy.
      apply enq_waits in Hy as [Hy|Hy]; [by eapply (li_front _ _ I)| |by eapply (li_cmd _ _ I)].
      unfold waits_at in Hy. rewrite Hpw in Hy. congruence.
    + pose proof (li_cmd _ _ I c cmd Hc) as []. by split.
    + intros y. unfold enq. by rewrite Hp.
    + by intros y ?%elem_of_nil.
  - apply (handing_same m); [apply I|..]; intros x; unfold nexts, keeps, lacking;
      (destruct (decide (x = c)) as [->|]; [rewrite Ec; at_phase Hc Hp|]);
      (destruct (decide (x = w)) as [->|]; [rewrite Ew', Ew; unfold next_of, keep_of, lacks in *; by rewrite Hpw|by rewrite Ex]).
  - apply (waking_wake f m m' c w ws); [apply I|done|unfold wakes; by rewrite Ec| |unfold waits; by rewrite Ew'|].
    + intros x Hx. unfold wakes. destruct (decide (x = w)) as [->|]; [|by rewrite Ex].
      rewrite Ew', Ew, Hwk. unfold wakeup_of. by rewrite Hpw.
    + intros x Hx. unfold waits. destruct (decide (x = c)) as [->|]; [rewrite Ec; at_phase Hc Hp|by rewrite Ex].
Qed.

(** ** The end of a command *)

Lemma place_delete f m c cmd : placement f m -> m !! c = Some cmd -> enq cmd = [] -> placement f (delete c m).
Proof.
  intros I Hc He. split.
  - intros x cx [_ Hx]%lookup_delete_Some. by eapply (li_cmd _ _ I).
  - intros h x. rewrite (li_queue _ _ I). destruct (decide (x = c)) as [->|].
    + rewrite lookup_delete_eq, Hc, ex_some, He, elem_of_nil. naive_solver.
    + by rewrite lookup_delete_ne.
  - apply I.
  - intros x cx h [_ Hx]%lookup_delete_Some. by eapply (li_front _ _ I).
Qed.

Lemma handing_end m m' c n :
  handing m -> nexts m c = Some n -> nexts m' c = None -> lacking m' n = None ->
  (forall x, x <> c -> nexts m' x = nexts m x) -> (forall x, nexts m' x <> None -> keeps m' x = keeps m x) ->
  (forall x, x <> n -> lacking m' x = lacking m x) -> handing m'.
Proof.
  intros [H1 H2 H3] Hc Hc' Hn Hx Hk Hl.
  assert (forall x y, nexts m' x = Some y -> nexts m x = Some y /\ x <> c /\ y <> n) as Hin.
  { intros x y E. assert (x <> c) as Hxc by congruence. rewrite Hx in E by done. split_and!; try done.
    intros ->. by apply (H3 x c) in E. }
  split.
  - intros x y E. destruct (Hin x y E) as (E' & _ & Hy). rewrite Hl, Hk by congruence. by apply H1.
  - intros y l E. assert (y <> n) as Hy by congruence. rewrite Hl in E by done. destruct (H2 y l E) as [x Ex]. exists x.
    rewrite Hx; [done|]. congruence.
  - intros x x' y E E'. apply Hin in E as [? _], E' as [? _]. by eapply H3.
Qed.

Lemma done_inv f m c cmd :
  latch_inv f m -> m !! c = Some cmd -> cmd_phase cmd = PWaking [] None -> latch_inv f (delete c m).
Proof.
  intros I Hc Hp. split.
  - apply (place_delete f m c cmd); [apply I|done|]. unfold enq. by rewrite Hp.
  - apply (handing_same m); [apply I|..]; intros x; unfold nexts, keeps, lacking;
      (destruct (decide (x = c)) as [->|]; [rewrite lookup_delete_eq; at_phase Hc Hp|by rewrite lookup_delete_ne]).
  - apply (waking_same f f m); [apply I|..].
    + intros x. unfold wakes. destruct (decide (x = c)) as [->|]; [rewrite lookup_delete_eq; at_phase Hc Hp|by rewrite lookup_delete_ne].
    + intros w h E. split; [|done]. unfold waits in *. rewrite lookup_delete_ne; [done|]. intros <-. revert E. at_phase Hc Hp.
    + intros w h. unfold waits. destruct (decide (w = c)) as [->|]; [by rewrite lookup_delete_eq|by rewrite lookup_delete_ne].
Qed.

Lemma done_next_inv f m c cmd n :
  latch_inv f m -> m !! c = Some cmd -> cmd_phase cmd = PWaking [] (Some n) ->
  exists cn, delete c m !! n = Some cn
    /\ latch_inv f (<[n := mk_cmd (cmd_keys cn) (force_assume_acquired (cmd_lock cn)) (PAcquiring false 0)]> (delete c m)).
Proof.
  intros I Hc Hp. assert (nexts m c = Some n) as Hnx by at_phase Hc Hp.
  pose proof (li_next _ (li_hand _ _ I) c n Hnx) as Hl. unfold lacking in Hl. destruct (m !! n) as [cn|] eqn:En; [|done].
  unfold lacks in Hl. destruct (cmd_phase cn) as [| | | | |k] eqn:Hpn; try done.
  assert (keeps m c = []) as Hk by at_phase Hc Hp. rewrite Hk in Hl. injection Hl as Hdrop.
  assert (n <> c) as Hne by congruence. exists cn. split; [by rewrite lookup_delete_ne|].
  pose proof (li_cmd _ _ I n cn En) as [Hs Hnn Hhs Hok]. unfold phase_ok in Hok. rewrite Hpn in Hok.
  assert (k = length (required_hashes (cmd_lock cn))) as Hkl.
  { apply (f_equal length) in Hdrop. rewrite length_drop in Hdrop. cbn in Hdrop. lia. }
  set (cn' := mk_cmd (cmd_keys cn) (force_assume_acquired (cmd_lock cn)) (PAcquiring false 0)).
  assert (enq cn' = enq cn) as He. { unfold enq. rewrite Hpn. cbn. by rewrite Hkl, Nat.add_0_r. }
  set (m' := <[n := cn']> (delete c m)). assert (m' !! n = Some cn') as En' by apply lookup_insert_eq.
  assert (m' !! c = None) as Ec by (unfold m'; rewrite lookup_insert_ne by done; apply lookup_delete_eq).
  assert (forall x, x <> c -> x <> n -> m' !! x = m !! x) as Ex by (intros; unfold m'; by rewrite lookup_insert_ne, lookup_delete_ne).
  split.
  - apply (place_same f (delete c m) n cn); [|by rewrite lookup_delete_ne| |by rewrite He|].
    + apply (place_delete f m c cmd); [apply I|done|]. unfold enq. by rewrite Hp.
    + split; try done. cbn. split; [lia|done].
    + intros h Hh. apply (li_front _ _ I n cn h En). unfold front. rewrite Hpn. change (front cn') with (enq cn') in Hh. by rewrite <- He.
  - apply (handing_end m m' c n); [apply I|done|unfold nexts; by rewrite Ec|unfold lacking; by rewrite En'|..];
      intros x; unfold nexts, keeps, lacking.
    + intros Hx. destruct (decide (x = n)) as [->|]; [rewrite En'; at_phase En Hpn|by rewrite Ex].
    + destruct (decide (x = n)) as [->|]; [by rewrite En'|]. destruct (decide (x = c)) as [->|]; [by rewrite Ec|by rewrite Ex].
    + intros Hx. destruct (decide (x = c)) as [->|]; [rewrite Ec; at_phase Hc Hp|by rewrite Ex].
  - apply (waking_same f f m); [apply I|..].
    + intros x. unfold wakes. destruct (decide (x = c)) as [->|]; [rewrite Ec; at_phase Hc Hp|].
      destruct (decide (x = n)) as [->|]; [rewrite En'; at_phase En Hpn|by rewrite Ex].
    + intros w h E. split; [|done]. unfold waits in *.
      rewrite Ex; [done|intros ->; revert E; at_phase Hc Hp|intros ->; revert E; at_phase En Hpn].
    + intros w h. unfold waits. destruct (decide (w = n)) as [->|]; [by rewrite En'|].
      destruct (decide (w = c)) as [->|]; [by rewrite Ec|by rewrite Ex].
Qed.

(** ** Every step *)

Record sched_inv (s : TxnScheduler) : Prop := {
  si_wf : latches_wf (latches s);
  si_ids : forall c cmd, cmds s !! c = Some cmd -> c <= id_alloc s;
  si_inv : latch_inv (Q (latches s)) (cmds s)
}.

(** What a step does: it keeps the invariant, and only a command that waits
    for others has none. *)
Definition step_ok (cmd : Cmd) (r : res unit TxnScheduler) : Prop :=
  match r with
  | Ok s' => sched_inv s'
  | Err _ => cmd_phase cmd = PWaiting \/ exists k, cmd_phase cmd = PHanded k
  | Panic => False
  end.

Section Steps.
  Hypothesis Hhash : forall k, 0 <= hash k.
  Context (s : TxnScheduler) (cid : Z) (cmd : Cmd).
  Hypothesis Hs : sched_inv s.
  Hypothesis Hc : cmds s !! cid = Some cmd.
Let I : latch_inv (Q (latches s)) (cmds s) := si_inv s Hs.

Lemma ids_two cmd' n cn cn' x y :
  cmds s !! n = Some cn -> <[cid := cmd']> (<[n := cn']> (cmds s)) !! x = Some y -> x <= id_alloc s.
Proof using Hs Hc.
  intros En. destruct (decide (x = cid)) as [->|]; [intros _; by eapply (si_ids s Hs)|]. rewrite lookup_insert_ne by done.
  destruct (decide (x = n)) as [->|]; [intros _; by eapply (si_ids s Hs)|]. rewrite lookup_insert_ne by done. apply (si_ids s Hs).
Qed.

Lemma ids_insert cmd' x y : <[cid := cmd']> (cmds s) !! x = Some y -> x <= id_alloc s.
Proof using Hs Hc.
  destruct (decide (x = cid)) as [->|]; [intros _; by eapply (si_ids s Hs)|]. rewrite lookup_insert_ne by done. apply (si_ids s Hs).
Qed.

Lemma acquire_step_ok woken n : cmd_phase cmd = PAcquiring woken n -> step_ok cmd (acquire_step s cid cmd woken n).
Proof using All.
  intros Hp. unfold acquire_step. pose proof (li_cmd _ _ I cid cmd Hc) as [_ Hnn _ Hok].
  unfold phase_ok in Hok. rewrite Hp in Hok. destruct (required_hashes (cmd_lock cmd) !! (owned_count (cmd_lock cmd) + n)%nat) as [h|] eqn:Hh.
  - assert (0 <= h) as Hh0 by (rewrite Forall_forall in Hnn; by eapply Hnn, list_elem_of_lookup_2).
    pose proof (acquire_one_spec (latches s) h cid (si_wf s Hs) Hh0) as Hone.
    pose proof (lookup_lt_Some _ _ _ Hh) as Hlt.
    destruct (head (Q (latches s) h)) as [c0|] eqn:Hhd; [destruct (Z.eqb_spec c0 cid) as [->|Hne]|].
    + rewrite Hone. cbn. split; cbn; [apply Hs|apply ids_insert|by eapply acquire_own].
    + destruct Hone as (ls' & -> & Hwf & Hu). cbn. unfold acquire_end, acquired. cbn [own_more required_hashes owned_count].
      destruct (Nat.eqb_spec (length (required_hashes (cmd_lock cmd))) (owned_count (cmd_lock cmd) + n)); [lia|].
      split; cbn; [done|apply ids_insert|by eapply acquire_wait].
    + destruct Hone as (ls' & -> & Hwf & Hu). cbn. split; cbn; [done|apply ids_insert|].
      eapply acquire_first; [done..| |done]. by destruct (Q (latches s) h).
  - cbn. unfold acquire_end, acquired. cbn [own_more required_hashes owned_count]. pose proof (proj1 (lookup_ge_None _ _) Hh).
    destruct (Nat.eqb_spec (length (required_hashes (cmd_lock cmd))) (owned_count (cmd_lock cmd) + n)); [|lia].
    split; cbn; [apply Hs|apply ids_insert|by eapply acquire_all].
Qed.

Lemma fresh_id : cmds s !! (id_alloc s + 1) = None.
Proof using Hs. destruct (cmds s !! (id_alloc s + 1)) as [x|] eqn:E; [|done]. apply (si_ids s Hs) in E. lia. Qed.

Lemma finish_step_ok next_keys :
  cmd_phase cmd = PRunning -> (forall keys, next_keys = Some keys -> keys ⊆ cmd_keys cmd) ->
  sched_inv (finish_step s cid cmd next_keys).
Proof using All.
  intros Hp Hsub. destruct next_keys as [keys|]; cbn.
  - split; cbn; [apply Hs| |apply finish_next_inv; try done; [apply fresh_id|by apply Hsub]].
    intros x y. destruct (decide (x = cid)) as [->|]; [intros _; apply (si_ids s Hs) in Hc; lia|].
    rewrite lookup_insert_ne by done. destruct (decide (x = id_alloc s + 1)) as [->|]; [lia|].
    rewrite lookup_insert_ne by done. intros E. apply (si_ids s Hs) in E. lia.
  - split; cbn; [apply Hs|apply ids_insert|by apply finish_inv].
Qed.

Lemma release_step_ok todo next keep wakeup :
  cmd_phase cmd = PReleasing todo next keep wakeup -> step_ok cmd (release_step s cid cmd todo next keep wakeup).
Proof using All.
  intros Hp. destruct todo as [|h todo]; cbn [release_step].
  { destruct (release_end _ _ _ _ _ _ _ I Hc Hp) as [-> Hinv]. cbn. split; cbn; [apply Hs|apply ids_insert|done]. }
  pose proof (li_cmd _ _ I cid cmd Hc) as [_ _ _ Hok]. unfold phase_ok in Hok. rewrite Hp in Hok.
  destruct Hok as (Ht & Hn & Hks & Hsub & Hnx). apply Forall_cons in Hn as [Hh0 _].
  destruct (releasing_first _ _ _ _ _ _ _ _ _ I Hc Hp) as (q & Hq & Hnd).
  assert (Forall (Z.le h) keep) as Hle.
  { apply Forall_forall. intros x Hx. apply Hsub in Hx. apply StronglySorted_inv in Ht as [_ Ht]. rewrite Forall_forall in Ht.
    apply elem_of_cons in Hx as [->|Hx]; [lia|]. specialize (Ht x Hx). lia. }
  destruct (release_one_spec (latches s) h cid q next keep wakeup (si_wf s Hs) Hh0 Hq Hle Hnx) as (ls' & Hwf & Hone).
  destruct (kept_now h keep) eqn:Hkn.
  - destruct Hone as (n & Hn & -> & Hu). cbn. destruct keep as [|k0 keep']; [done|]. cbn in Hkn. apply Z.eqb_eq in Hkn. subst k0.
    assert (nexts (cmds s) cid = Some n) as Hnc by (unfold nexts, next_of; by rewrite Hc, Hp).
    pose proof (li_next _ (li_hand _ _ I) cid n Hnc) as Hl. unfold lacking in Hl. destruct (cmds s !! n) as [cn|] eqn:En; [|done].
    unfold lacks in Hl. destruct (cmd_phase cn) as [| | | | |k] eqn:Hpn; try done. injection Hl as Hdrop.
    assert (keeps (cmds s) cid = h :: keep') as Hkp by (unfold keeps, keep_of; by rewrite Hc, Hp).
    rewrite Hkp in Hdrop. unfold hand_one. rewrite Hn, En, Hpn. assert (n <> cid) as Hne by congruence. split; cbn; [done| |].
    + intros x y. by eapply ids_two.
    + rewrite <- Hn. by eapply release_keep.
  - destruct Hone as [-> Hu]. cbn. apply NoDup_cons in Hnd as [? ?].
    split; cbn; [done|apply ids_insert|by eapply release_wake].
Qed.

Lemma waking_step_ok wakeup next d :
  cmd_phase cmd = PWaking wakeup next -> step_ok cmd (waking_step s cid cmd wakeup next d).
Proof using All.
  intros Hp. destruct wakeup as [|w ws]; cbn [waking_step].
  - destruct next as [n|].
    + destruct (done_next_inv _ _ _ _ _ I Hc Hp) as (cn & -> & Hinv). cbn. split; cbn; [apply Hs| |done].
      intros x y [[<- _]|[_ [_ E]%lookup_delete_Some]]%lookup_insert_Some; [|by eapply (si_ids s Hs)].
      assert (nexts (cmds s) cid = Some n) as Hnc by (unfold nexts, next_of; by rewrite Hc, Hp).
      pose proof (li_next _ (li_hand _ _ I) cid n Hnc) as Hl. unfold lacking in Hl.
      destruct (cmds s !! n) eqn:En; [by eapply (si_ids s Hs)|done].
    + cbn. split; cbn; [apply Hs| |by eapply done_inv]. intros x y [_ E]%lookup_delete_Some. by eapply (si_ids s Hs).
  - destruct (wake_inv _ _ _ _ _ _ _ d I Hc Hp) as (cw & cw' & Ew & Ek & Hinv). rewrite Ew, Ek. cbn.
    split; cbn; [apply Hs|intros x y; by eapply ids_two|done].
Qed.

Lemma cmd_step_ok next_keys d :
  (forall keys, next_keys = Some keys -> keys ⊆ cmd_keys cmd) -> step_ok cmd (cmd_step s cid next_keys d).
Proof using All.
  intros Hsub. unfold cmd_step. rewrite Hc. destruct (cmd_phase cmd) eqn:Hp; cbn; eauto.
  - by apply acquire_step_ok.
  - by apply finish_step_ok.
  - by apply release_step_ok.
  - by apply waking_step_ok.
Qed.
End Steps.

Section Reachable.
  Hypothesis Hu : forall k, is_u64 (hash k).

Lemma hash_nonneg k : 0 <= hash k.
Proof using Hu. apply Hu. Qed.

Lemma sched_inv_new latch_size : sched_inv (scheduler_new latch_size).
Proof.
  split; cbn; [apply latches_new_wf|done|]. split.
  - split; [done| |intros h; rewrite Q_new; constructor|done]. intros h c. rewrite Q_new.
    split; [by intros ?%elem_of_nil|by intros (? & ? & _)].
  - split; done.
  - split; try done; [by intros c w ?%elem_of_nil|intros c; constructor|by intros c c' w ?%elem_of_nil].
Qed.

Lemma txn_step_inv s s' : sched_inv s -> txn_step s s' -> sched_inv s'.
Proof using Hu.
  intros Hs Hst. destruct Hst as [s keys Hid|s cid cmd next_keys d s' Hid Hc Hsub E].
  - split; cbn; [apply Hs| |]; [|apply schedule_inv; [apply hash_nonneg|apply Hs|by apply fresh_id]].
    intros x y [[<- _]|[_ E]]%lookup_insert_Some; [lia|]. apply (si_ids s Hs) in E. lia.
  - pose proof (cmd_step_ok hash_nonneg s cid cmd Hs Hc next_keys d Hsub) as H. by rewrite E in H.
Qed.

Definition sched_reachable (latch_size : Z) (s : TxnScheduler) : Prop := rtc txn_step (scheduler_new latch_size) s.

Lemma reachable_sched_inv n s : sched_reachable n s -> sched_inv s.
Proof using Hu.
  unfold sched_reachable. intros H. assert (sched_inv (scheduler_new n)) as Hi by apply sched_inv_new.
  induction H as [|s1 s2 s3 Hst _ IH]; eauto using txn_step_inv.
Qed.

(** The command runs, with all its latches. *)
Definition running (s : TxnScheduler) (cid : Z) (keys : list K) : Prop :=
  exists cmd, cmds s !! cid = Some cmd /\ cmd_phase cmd = PRunning /\ cmd_keys cmd = keys.

Lemma running_first s cid keys k : sched_inv s -> running s cid keys -> k ∈ keys -> head (Q (latches s) (hash k)) = Some cid.
Proof.
  intros Hs (cmd & Hc & Hp & <-) Hk. pose proof (si_inv s Hs) as I. pose proof (li_cmd _ _ I cid cmd Hc) as [_ _ Hhs Hok].
  apply (li_front _ _ I cid cmd); [done|]. unfold phase_ok in Hok. rewrite Hp in Hok. unfold front, enq. rewrite Hp, Hok, take_ge by done.
  apply Hhs. by apply list_elem_of_In, in_map, list_elem_of_In.
Qed.

(** A command that runs keeps running until it takes a step itself. *)
Lemma running_stays s s' c cmd cmd' :
  sched_inv s -> txn_step s s' -> cmds s !! c = Some cmd -> cmd_phase cmd = PRunning ->
  cmds s' !! c = Some cmd' -> cmd_phase cmd' = PRunning -> cmd' = cmd.
Proof.
  intros Hs Hst Hc Hp Hc' Hp'. destruct Hst as [s keys Hid|s x cx next_keys d s' Hid Hx Hsub E].
  { cbn in Hc'. apply lookup_insert_Some in Hc' as [[<- _]|[_ Hc']]; [|congruence].
    pose proof (fresh_id s Hs). congruence. }
  unfold cmd_step in E. rewrite Hx in E. destruct (decide (x = c)) as [->|Hne].
  { rewrite Hc in Hx. injection Hx as <-. rewrite Hp in E. injection E as <-.
    destruct next_keys; cbn in Hc'; rewrite lookup_insert_eq in Hc'; by injection Hc' as <-. }
  assert (forall ls y i, s' = mk_scheduler ls (<[x := y]> (cmds s)) i -> cmd' = cmd) as Hone.
  { intros ls y i ->. cbn in Hc'. rewrite lookup_insert_ne in Hc' by done. congruence. }
  destruct (cmd_phase cx) as [woken n| | |todo next keep wakeup|[|w ws] next|] eqn:Hpx; try done.
  - unfold acquire_step in E. destruct (required_hashes (cmd_lock cx) !! (owned_count (cmd_lock cx) + n)%nat) as [h|];
      [|injection E as <-; by eapply Hone].
    destruct (acquire_one (latches s) h x) as [[ok ls]| |]; try done. cbn in E. destruct ok; injection E as <-; by eapply Hone.
  - destruct next_keys as [keys|]; injection E as <-; [|by eapply Hone]. cbn in Hc'. rewrite lookup_insert_ne in Hc' by done.
    apply lookup_insert_Some in Hc' as [[<- _]|[_ Hc']]; [|congruence]. pose proof (fresh_id s Hs). congruence.
  - destruct todo as [|h todo]; cbn in E; [destruct keep; [|done]; injection E as <-; by eapply Hone|].
    destruct (release_one (latches s) h x next keep wakeup) as [[[ls keep'] wakeup']| |]; try done. cbn in E.
    destruct (kept_now h keep); injection E as <-; [|by eapply Hone]. cbn in Hc'. rewrite lookup_insert_ne in Hc' by done.
    unfold hand_one in Hc'. destruct next as [n|]; [|congruence]. destruct (cmds s !! n) as [cn|] eqn:En; [|congruence].
    destruct (cmd_phase cn) eqn:Hpn; try congruence. rewrite lookup_insert_ne in Hc'; congruence.
  - cbn in E. pose proof (si_inv s Hs) as I. destruct next as [n|]; cbn in E.
    + destruct (done_next_inv _ _ x cx n I Hx Hpx) as (cn & En & _). rewrite En in E. injection E as <-. cbn in Hc'.
      destruct (decide (n = c)) as [->|Hnc]; [rewrite lookup_insert_eq in Hc'; by injection Hc' as <-|].
      rewrite lookup_insert_ne, lookup_delete_ne in Hc' by done. congruence.
    + injection E as <-. cbn in Hc'. rewrite lookup_delete_ne in Hc' by done. congruence.
  - cbn in E. destruct (cmds s !! w) as [cw|] eqn:Ew; [|done]. unfold wake_up in E. destruct (cmd_phase cw) eqn:Hpw; try done.
    destruct d; injection E as <-; cbn in Hc'; rewrite !lookup_insert_ne in Hc' by congruence; congruence.
Qed.

(** ** The work left *)

Definition work (cmd : Cmd) : nat :=
  let len := length (required_hashes (cmd_lock cmd)) in
  let o := owned_count (cmd_lock cmd) in
  match cmd_phase cmd with
  | PAcquiring true 0 => 3 * (len - o) + (2 * len + 3)
  | PAcquiring _ n => 3 * (len - (o + n)) + 2 + (2 * len + 3)
  | PWaiting => 3 * (len - o) + 1 + (2 * len + 3)
  | PRunning => 2 * len + 3
  | PReleasing todo _ _ wakeup => 2 * length todo + length wakeup + 2
  | PWaking wakeup _ => length wakeup + 1
  | PHanded _ => 2 * len + 6
  end%nat.

Definition total_work (m : gmap Z Cmd) : nat := map_fold (fun _ cmd acc => (work cmd + acc)%nat) 0%nat m.

Lemma total_insert m c x : m !! c = None -> total_work (<[c := x]> m) = (work x + total_work m)%nat.
Proof. intros Hc. unfold total_work. rewrite map_fold_insert_L; [done|lia|done]. Qed.

Lemma total_delete m c x : m !! c = Some x -> total_work m = (work x + total_work (delete c m))%nat.
Proof.
  intros Hc. rewrite <- (insert_delete_id m c x Hc) at 1. apply total_insert, lookup_delete_eq.
Qed.

Lemma total_update m c x y : m !! c = Some x -> (total_work (<[c := y]> m) + work x = total_work m + work y)%nat.
Proof.
  intros Hc. rewrite <- insert_delete_eq, total_insert by apply lookup_delete_eq. rewrite (total_delete m c x Hc). lia.
Qed.

(** A step of a command that resumes no lock request. *)
Definition drain_step (s s' : TxnScheduler) : Prop := exists cid d, cmd_step s cid None d = Ok s'.

Lemma total_less m c x y : m !! c = Some x -> (work y < work x)%nat -> (total_work (<[c := y]> m) < total_work m)%nat.
Proof. intros Hc Hlt. pose proof (total_update m c x y Hc). lia. Qed.

Lemma acquire_step_less s c cmd woken n s' :
  sched_inv s -> cmds s !! c = Some cmd -> cmd_phase cmd = PAcquiring woken n ->
  acquire_step s c cmd woken n = Ok s' -> (total_work (cmds s') < total_work (cmds s))%nat.
Proof.
  intros Hs Hc Hp. pose proof (li_cmd _ _ (si_inv s Hs) c cmd Hc) as [_ Hnn _ Hok]. unfold phase_ok in Hok. rewrite Hp in Hok.
  unfold acquire_step. destruct (required_hashes (cmd_lock cmd) !! (owned_count (cmd_lock cmd) + n)%nat) as [h|] eqn:Hh.
  - pose proof (lookup_lt_Some _ _ _ Hh) as Hlt.
    assert (0 <= h) as Hh0 by (rewrite Forall_forall in Hnn; by eapply Hnn, list_elem_of_lookup_2).
    pose proof (acquire_one_spec (latches s) h c (si_wf s Hs) Hh0) as Hone.
    assert (forall ls, (total_work (cmds (mk_scheduler ls (<[c := set_phase cmd (PAcquiring woken (S n))]> (cmds s)) (id_alloc s)))
      < total_work (cmds s))%nat) as Hmore.
    { intros ls. cbn. apply (total_less _ _ cmd); [done|]. unfold work. rewrite Hp. cbn. destruct woken, n; lia. }
    destruct (head (Q (latches s) h)) as [c0|] eqn:Hhd; [destruct (Z.eqb_spec c0 c) as [->|Hne]|].
    + rewrite Hone. cbn. by intros [= <-].
    + destruct Hone as (ls' & -> & _). cbn. intros [= <-]. unfold acquire_end, acquired.
      cbn [own_more required_hashes owned_count cmds].
      destruct (Nat.eqb_spec (length (required_hashes (cmd_lock cmd))) (owned_count (cmd_lock cmd) + n)); [lia|].
      apply (total_less _ _ cmd); [done|]. unfold work. rewrite Hp. cbn. destruct woken, n; try lia.
      exfalso. apply Hne. enough (head (Q (latches s) h) = Some c) by congruence.
      apply (li_front _ _ (si_inv s Hs) c cmd h Hc). unfold front, enq. rewrite Hp. cbn [Nat.max].
      rewrite Nat.add_0_r in Hh. rewrite Nat.add_1_r, (take_S_r _ _ _ Hh). set_solver.
    + destruct Hone as (ls' & -> & _). cbn. by intros [= <-].
  - apply lookup_ge_None in Hh. intros [= <-]. unfold acquire_end, acquired. cbn [own_more required_hashes owned_count cmds].
    destruct (Nat.eqb_spec (length (required_hashes (cmd_lock cmd))) (owned_count (cmd_lock cmd) + n)); [|lia].
    apply (total_less _ _ cmd); [done|]. unfold work. rewrite Hp. cbn. destruct woken, n; lia.
Qed.

Lemma release_step_less s c cmd todo next keep wakeup s' :
  sched_inv s -> cmds s !! c = Some cmd -> cmd_phase cmd = PReleasing todo next keep wakeup ->
  release_step s c cmd todo next keep wakeup = Ok s' -> (total_work (cmds s') < total_work (cmds s))%nat.
Proof.
  intros Hs Hc Hp. assert (work cmd = 2 * length todo + length wakeup + 2)%nat as Hw by (unfold work; by rewrite Hp).
  destruct todo as [|h todo]; cbn [release_step].
  { destruct keep; [|done]. cbn. intros [= <-]. cbn. apply (total_less _ _ cmd); [done|]. rewrite Hw. cbn. lia. }
  assert (forall m, m !! c = Some cmd -> total_work m = total_work (cmds s) -> forall keep' wakeup',
    (length wakeup' <= S (length wakeup))%nat ->
    (total_work (<[c := set_phase cmd (PReleasing todo next keep' wakeup')]> m) < total_work (cmds s))%nat) as Hless.
  { intros m Hm <- keep' wakeup' Hle. apply (total_less _ _ cmd); [done|]. rewrite Hw. cbn. lia. }
  assert (hand_one (cmds s) next !! c = Some cmd /\ total_work (hand_one (cmds s) next) = total_work (cmds s)) as [Hh1 Hh2].
  { unfold hand_one. destruct next as [n|]; [|done]. destruct (cmds s !! n) as [cn|] eqn:En; [|done].
    destruct (cmd_phase cn) as [| | | | |k] eqn:Hpn; try done. assert (n <> c) by congruence.
    rewrite lookup_insert_ne by done. split; [done|]. pose proof (total_update (cmds s) n cn (set_phase cn (PHanded (S k))) En) as E.
    replace (work (set_phase cn (PHanded (S k)))) with (work cn) in E by (unfold work; by rewrite Hpn). lia. }
  destruct (release_one (latches s) h c next keep wakeup) as [[[ls keep'] wakeup']| |] eqn:E; try done. cbn.
  intros [= <-]. cbn. pose proof (release_one_wakeup _ _ _ _ _ _ _ _ _ E). destruct (kept_now h keep); by apply Hless.
Qed.

Lemma waking_step_less s c cmd wakeup next d s' :
  sched_inv s -> cmds s !! c = Some cmd -> cmd_phase cmd = PWaking wakeup next ->
  waking_step s c cmd wakeup next d = Ok s' -> (total_work (cmds s') < total_work (cmds s))%nat.
Proof.
  intros Hs Hc Hp. pose proof (si_inv s Hs) as I. assert (work cmd = length wakeup + 1)%nat as Hw by (unfold work; by rewrite Hp).
  destruct wakeup as [|w ws]; cbn [waking_step].
  - pose proof (total_delete (cmds s) c cmd Hc) as Hd. destruct next as [n|]; [|intros [= <-]; cbn; cbn in Hw; lia].
    assert (nexts (cmds s) c = Some n) as Hnc by (unfold nexts, next_of; by rewrite Hc, Hp).
    pose proof (li_next _ (li_hand _ _ I) c n Hnc) as Hl. unfold lacking in Hl. destruct (cmds s !! n) as [cn|] eqn:En; [|done].
    unfold lacks in Hl. destruct (cmd_phase cn) as [| | | | |k] eqn:Hpn; try done. assert (c <> n) as Hne by congruence.
    rewrite lookup_delete_ne, En by done. intros [= <-]. cbn [cmds].
    match goal with |- (total_work (<[n := ?x]> _) < _)%nat => pose proof (total_less (delete c (cmds s)) n cn x) as Hlt end.
    rewrite lookup_delete_ne in Hlt by done. unfold work in Hlt at 1 2. rewrite Hpn in Hlt. cbn in Hlt.
    specialize (Hlt En). cbn in Hw. lia.
  - destruct (cmds s !! w) as [cw|] eqn:Ew; [|done].
    unfold wake_up. destruct (cmd_phase cw) eqn:Hpw; try done.
    pose proof (li_cmd _ _ I w cw Ew) as [_ _ _ Hok]. unfold phase_ok in Hok. rewrite Hpw in Hok.
    assert (w <> c) as Hne by congruence.
    assert (forall cw', (work cw' < work cw)%nat ->
      (total_work (<[c := set_phase cmd (PWaking ws next)]> (<[w := cw']> (cmds s))) < total_work (cmds s))%nat) as Hless.
    { intros cw' Hlt. pose proof (total_less _ _ _ _ Ew Hlt). 
      pose proof (total_update (<[w := cw']> (cmds s)) c cmd (set_phase cmd (PWaking ws next))) as E.
      rewrite lookup_insert_ne in E by done. specialize (E Hc). cbn in E. rewrite Hw in E. cbn in E. lia. }
    destruct d; intros [= <-]; cbn [cmds]; apply Hless; unfold work; rewrite Hpw; cbn; [rewrite length_take; lia|lia].
Qed.

Lemma drain_step_less s s' : sched_inv s -> drain_step s s' -> (total_work (cmds s') < total_work (cmds s))%nat.
Proof.
  intros Hs (c & d & E). unfold cmd_step in E. destruct (cmds s !! c) as [cmd|] eqn:Hc; [|done].
  destruct (cmd_phase cmd) eqn:Hp; try done.
  - by eapply acquire_step_less.
  - injection E as <-. cbn. apply (total_less _ _ cmd); [done|]. pose proof (li_cmd _ _ (si_inv s Hs) c cmd Hc) as [_ _ _ Hok].
    unfold phase_ok in Hok. rewrite Hp in Hok. unfold work. rewrite Hp. cbn. rewrite length_take. lia.
  - by eapply release_step_less.
  - by eapply waking_step_less.
Qed.

Lemma drain_step_inv s s' : sched_inv s -> drain_step s s' -> sched_inv s'.
Proof using Hu.
  intros Hs (c & d & E). destruct (cmds s !! c) as [cmd|] eqn:Hc; [|unfold cmd_step in E; by rewrite Hc in E].
  pose proof (cmd_step_ok hash_nonneg s c cmd Hs Hc None d) as H. rewrite E in H. apply H. done.
Qed.

(** ** Progress *)

Definition can_step (s : TxnScheduler) : Prop := exists s', drain_step s s'.

Lemma moving_steps s c cmd :
  sched_inv s -> cmds s !! c = Some cmd -> cmd_phase cmd <> PWaiting -> (forall k, cmd_phase cmd <> PHanded k) -> can_step s.
Proof using Hu.
  intros Hs Hc Hw Hh. pose proof (cmd_step_ok hash_nonneg s c cmd Hs Hc None false) as H.
  destruct (cmd_step s c None false) as [s'| |] eqn:E; cbn in H; [by exists s', c, false| |by destruct H].
  exfalso. destruct H as [|[k ?]]; [done|done|by eapply Hh].
Qed.

Lemma handed_steps s n cn k : sched_inv s -> cmds s !! n = Some cn -> cmd_phase cn = PHanded k -> can_step s.
Proof using Hu.
  intros Hs Hn Hp. pose proof (si_inv s Hs) as I.
  destruct (li_lacking _ (li_hand _ _ I) n (drop k (required_hashes (cmd_lock cn)))) as [c Hc];
    [unfold lacking, lacks; by rewrite Hn, Hp|].
  unfold nexts, next_of in Hc. destruct (cmds s !! c) as [cmd|] eqn:Ec; [|done].
  apply (moving_steps s c cmd Hs Ec); destruct (cmd_phase cmd); done.
Qed.

Lemma waker_steps s w c : sched_inv s -> w ∈ wakes (cmds s) c -> can_step s.
Proof using Hu.
  intros Hs Hw. unfold wakes, wakeup_of in Hw. destruct (cmds s !! c) as [cmd|] eqn:Ec; [|by apply elem_of_nil in Hw].
  apply (moving_steps s c cmd Hs Ec); destruct (cmd_phase cmd); try done; by apply elem_of_nil in Hw.
Qed.

(** Of the commands that wait, one that waits at the largest hash waits for a
    command that can move. *)
Lemma waiting_steps s : sched_inv s -> forall n w cw h,
  cmds s !! w = Some cw -> waits_at cw = Some h -> Z.to_nat (u64_max - h) = n -> is_u64 h -> can_step s.
Proof using Hu.
  intros Hs. pose proof (si_inv s Hs) as I. intros n. induction n as [n IH] using lt_wf_ind. intros w cw h Ew Hwt En Hh.
  assert (waits (cmds s) w = Some h) as Hwm by (unfold waits; by rewrite Ew).
  assert (exists c, head (Q (latches s) h) = Some c) as [c Hhd].
  { assert (w ∈ Q (latches s) h) as Hin; [|destruct (Q (latches s) h); [by apply elem_of_nil in Hin|by eexists]].
    apply (li_queue _ _ I). exists cw. split; [done|]. unfold waits_at in Hwt. unfold enq. destruct (cmd_phase cw); try done.
    rewrite (take_S_r _ _ _ Hwt). set_solver. }
  assert (exists cmd, cmds s !! c = Some cmd /\ h ∈ enq cmd) as (cmd & Ec & Hin).
  { apply (li_queue _ _ I). destruct (Q (latches s) h); [done|]. injection Hhd as ->. set_solver. }
  pose proof (li_cmd _ _ I c cmd Ec) as Hok. destruct (enq_waits cmd h Hok Hin) as [Hf|Hwc].
  - destruct (cmd_phase cmd) eqn:Hp; try (apply (moving_steps s c cmd Hs Ec); congruence); [|by eapply handed_steps].
    pose proof Hok as [Hsd _ Hhs Hpk]. unfold phase_ok, front in *. rewrite Hp in *.
    destruct (lookup_lt_is_Some_2 _ _ Hpk) as [h' Hh']. pose proof (sorted_take_lt _ _ _ _ Hsd Hh' Hf) as Hlt.
    assert (is_u64 h') as Hu'.
    { apply list_elem_of_lookup_2, Hhs, list_elem_of_In, in_map_iff in Hh' as (k & <- & _). apply Hu. }
    eapply (IH (Z.to_nat (u64_max - h'))); [|exact Ec|unfold waits_at; rewrite Hp; exact Hh'|done|done].
    unfold is_u64, u64_max in *. lia.
  - destruct (li_woken _ _ (li_wk _ _ I) c h) as [x Hx]; [unfold waits; by rewrite Ec|done|]. by eapply waker_steps.
Qed.

Lemma some_steps s : sched_inv s -> cmds s <> ∅ -> can_step s.
Proof using Hu.
  intros Hs Hne. apply map_choose in Hne as (c & cmd & Hc). pose proof (li_cmd _ _ (si_inv s Hs) c cmd Hc) as [_ _ Hhs Hpk].
  destruct (cmd_phase cmd) eqn:Hp; try (apply (moving_steps s c cmd Hs Hc); congruence); [|by eapply handed_steps].
  unfold phase_ok in Hpk. rewrite Hp in Hpk. destruct (lookup_lt_is_Some_2 _ _ Hpk) as [h Hh].
  eapply (waiting_steps s Hs _ c cmd h); [done|unfold waits_at; by rewrite Hp|done|].
  apply list_elem_of_lookup_2, Hhs, list_elem_of_In, in_map_iff in Hh as (k & <- & _). apply Hu.
Qed.
End Reachable.
End Scheduler.

(** ** Steps that are not interrupted *)

Section Sequential.
  Context {K : Type} (hash : K -> Z).

(** The acquiring steps of a command, one after the other, are [acquire]. *)
Lemma acquire_steps s cid cmd woken lock ls b :
  cmds s !! cid = Some cmd -> cmd_phase cmd = PAcquiring woken 0 -> acquire (latches s) (cmd_lock cmd) cid = Ok (b, lock, ls) ->
  rtc (fun s s' => cmd_step hash s cid None false = Ok s') s
    (mk_scheduler ls (<[cid := mk_cmd (cmd_keys cmd) lock (if b then PRunning else PWaiting)]> (cmds s)) (id_alloc s)).
Proof.
  intros Hc Hp. unfold acquire. unfold rassert. destruct (Nat.leb_spec (owned_count (cmd_lock cmd)) (length (required_hashes (cmd_lock cmd)))) as [Hle|]; [|done].
  set (o := owned_count (cmd_lock cmd)) in *. set (hs := required_hashes (cmd_lock cmd)) in *.
  destruct (acquire_loop _ _ _ _) as [[n' ls']| |] eqn:E; [|done..]. cbn. intros [= <- <- <-].
  assert (forall l n s0, drop (o + n) hs = l -> cmds s0 !! cid = Some (set_phase cmd (PAcquiring woken n)) ->
    acquire_loop (latches s0) l cid n = Ok (n', ls') ->
    rtc (fun s s' => cmd_step hash s cid None false = Ok s') s0 (acquire_end s0 cid cmd ls' n')) as Hgen.
  { induction l as [|h l IH]; intros n s0 Hd Hc0 Hl; cbn in Hl.
    - injection Hl as Hn Hls. subst n' ls'. apply rtc_once. unfold cmd_step. rewrite Hc0. cbn. unfold acquire_step. cbn. fold hs o.
      rewrite lookup_ge_None_2; [done|]. apply (f_equal length) in Hd. rewrite length_drop in Hd. cbn in Hd. lia.
    - assert (hs !! (o + n)%nat = Some h) as Hh by (rewrite <- (Nat.add_0_r (o + n)), <- lookup_drop, Hd; done).
      destruct (acquire_one (latches s0) h cid) as [[ok ls1]| |] eqn:E1; [|done..]. cbn in Hl.
      assert (cmd_step hash s0 cid None false = if ok then Ok (mk_scheduler ls1 (<[cid := set_phase cmd (PAcquiring woken (S n))]> (cmds s0)) (id_alloc s0))
        else Ok (acquire_end s0 cid cmd ls1 n)) as Es.
      { unfold cmd_step. rewrite Hc0. cbn. unfold acquire_step. cbn. fold hs o. rewrite Hh, E1. by destruct ok. }
      destruct ok; [|injection Hl as <- <-; by apply rtc_once].
      eapply rtc_l; [exact Es|]. specialize (IH (S n) (mk_scheduler ls1 (<[cid := set_phase cmd (PAcquiring woken (S n))]> (cmds s0)) (id_alloc s0))).
      unfold acquire_end in *. cbn in IH. rewrite insert_insert_eq, lookup_insert_eq in IH. apply IH; [|done|done].
      rewrite Nat.add_succ_r. by rewrite (drop_S _ _ _ Hh) in Hd; injection Hd. }
  apply (Hgen (drop o hs) 0%nat s); [by rewrite Nat.add_0_r| |done]. rewrite Hc. f_equal. unfold set_phase. rewrite <- Hp. by destruct cmd.
Qed.

(** The releasing steps of a command, one after the other, are [release]. *)
Lemma release_steps s cid cmd keep_it next wakeup ls :
  cmds s !! cid = Some cmd -> cmd_phase cmd = PReleasing (take (owned_count (cmd_lock cmd)) (required_hashes (cmd_lock cmd))) (option_map fst next) keep_it [] ->
  keep_it = match next with Some (_, l) => required_hashes l | None => [] end ->
  release (latches s) (cmd_lock cmd) cid next = Ok (wakeup, ls) ->
  exists m, rtc (fun s s' => cmd_step hash s cid None false = Ok s') s (mk_scheduler ls m (id_alloc s))
    /\ m !! cid = Some (set_phase cmd (PWaking wakeup (option_map fst next))).
Proof.
  intros Hc Hp -> E. unfold release, rassert in E. destruct (Nat.leb _ _); [|done].
  set (nx := option_map fst next) in *. set (keep_it := match next with Some (_, l) => required_hashes l | None => [] end) in *.
  destruct (release_loop _ _ _ _ _ _) as [[[ls' keep'] wk']| |] eqn:El; [|done..]. cbn in E. destruct keep'; [|done].
  injection E as -> ->.
  assert (forall l keep wk s0, cmds s0 !! cid = Some (set_phase cmd (PReleasing l nx keep wk)) ->
    release_loop (latches s0) l cid nx keep wk = Ok (ls, [], wakeup) ->
    exists m, rtc (fun s s' => cmd_step hash s cid None false = Ok s') s0 (mk_scheduler ls m (id_alloc s0))
      /\ m !! cid = Some (set_phase cmd (PWaking wakeup nx))) as Hgen.
  { induction l as [|h l IH]; intros keep wk s0 Hc0 Hl; cbn in Hl.
    - injection Hl as Hls Hk Hw. subst. eexists. split; [|apply lookup_insert_eq]. apply rtc_once. unfold cmd_step. by rewrite Hc0.
    - destruct (release_one (latches s0) h cid nx keep wk) as [[[ls1 keep1] wk1]| |] eqn:E1; [|done..]. cbn in Hl.
      set (m := if kept_now h keep then hand_one (cmds s0) nx else cmds s0).
      destruct (IH keep1 wk1 (mk_scheduler ls1 (<[cid := set_phase cmd (PReleasing l nx keep1 wk1)]> m) (id_alloc s0))) as (m' & Hr & Hm);
        [apply lookup_insert_eq|done|]. exists m'. split; [|done]. eapply rtc_l; [|exact Hr].
      unfold cmd_step. rewrite Hc0. cbn. by rewrite E1. }
  eapply Hgen; [|exact El]. rewrite Hc. f_equal. unfold set_phase. rewrite <- Hp. by destruct cmd.
Qed.
End Sequential.

(** ** What the latches guarantee *)

(** Two commands on the keys 5, 7 and 7, 9, with four slots: the first runs
    and the second waits. *)
Definition step1 (s : TxnScheduler) (cid : Z) : TxnScheduler :=
  match cmd_step wrap64 s cid None false with Ok s' => s' | _ => s end.
Definition sample_sched : TxnScheduler :=
  step1 (schedule_command wrap64 (step1 (step1 (step1 (schedule_command wrap64 (scheduler_new 4) [5; 7]) 1) 1) 1) [7; 9]) 2.

Lemma step1_step s cid :
  bool_decide (is_Some (cmds s !! cid)) && (id_alloc s + 1 <? 2 ^ 64) = true -> rtc (txn_step wrap64) s (step1 s cid).
Proof.
  intros [[cmd Hc]%bool_decide_eq_true Hid%Z.ltb_lt]%andb_true_iff. unfold step1.
  destruct (cmd_step wrap64 s cid None false) as [s'| |] eqn:E; [|reflexivity..]. apply rtc_once. apply (step_cmd wrap64 s cid cmd None false s'); [done|done|by intros ? [=]|done].
Qed.

Lemma sample_reachable : sched_reachable wrap64 4 sample_sched.
Proof.
  unfold sched_reachable, sample_sched.
  do 1 (etrans; [|apply step1_step; vm_compute; reflexivity]). etrans; [|apply rtc_once, step_schedule; vm_compute; reflexivity].
  do 3 (etrans; [|apply step1_step; vm_compute; reflexivity]). apply rtc_once, step_schedule. vm_compute. reflexivity.
Qed.

Lemma sample_running : running sample_sched 1 [5; 7].
Proof. eexists. split; [vm_compute; reflexivity|]. split; reflexivity. Qed.

(** C17: Mutual exclusion. However the commands interleave, two commands that
    run at the same time have no key in common. *)
Theorem latches_exclude {K} (hash : K -> Z) latch_size s c c' keys keys' k :
  (forall k, is_u64 (hash k)) -> sched_reachable hash latch_size s ->
  running s c keys -> running s c' keys' -> k ∈ keys -> k ∈ keys' -> c = c'.
Proof.
  intros Hu Hr H H' Hk Hk'. pose proof (reachable_sched_inv hash Hu latch_size s Hr) as Hs.
  pose proof (running_first hash s c keys k Hs H Hk). pose proof (running_first hash s c' keys' k Hs H' Hk'). congruence.
Qed.

Lemma latches_exclude_witness :
  running sample_sched 1 [5; 7] /\ (forall c', running sample_sched c' [5; 7] -> 1 = c').
Proof.
  split; [exact sample_running|]. intros c' H. apply (latches_exclude wrap64 4 sample_sched 1 c' [5; 7] [5; 7] 7);
    [exact wrap64_range|exact sample_reachable|exact sample_running|exact H|set_solver|set_solver].
Defined.

(** No assertion of the latches fails. In every reachable state the next
    step of a command returns: a released hash is the command's own, the
    hashes to keep are found in order, and a command that is woken up is
    there and waits. *)
Theorem latches_never_panic {K} (hash : K -> Z) latch_size s cid cmd next_keys d :
  (forall k, is_u64 (hash k)) -> sched_reachable hash latch_size s -> cmds s !! cid = Some cmd ->
  (forall keys, next_keys = Some keys -> keys ⊆ cmd_keys cmd) -> cmd_step hash s cid next_keys d <> Panic.
Proof.
  intros Hu Hr Hc Hsub E. pose proof (reachable_sched_inv hash Hu latch_size s Hr) as Hs.
  pose proof (cmd_step_ok hash (hash_nonneg hash Hu) s cid cmd Hs Hc next_keys d Hsub) as H. by rewrite E in H.
Qed.

Lemma latches_never_panic_witness : cmd_step wrap64 sample_sched 1 (Some [7]) false <> Panic.
Proof.
  eapply (latches_never_panic wrap64 4 sample_sched 1); [exact wrap64_range|exact sample_reachable|vm_compute; reflexivity|].
  intros keys [= <-]. cbn. set_solver.
Defined.

(** C18: No deadlock, and no command waits for ever. When no new command
    comes, every run of the scheduler is finite, bounded by the work the
    commands have left, and where it ends no command is left: all of them
    acquired their latches, ran and were removed. *)
Theorem latches_drain {K} (hash : K -> Z) latch_size s :
  (forall k, is_u64 (hash k)) -> sched_reachable hash latch_size s ->
  (forall n s', nsteps (drain_step hash) n s s' -> (n + total_work (cmds s') <= total_work (cmds s))%nat)
  /\ (forall s', rtc (drain_step hash) s s' -> (forall s'', ~ drain_step hash s' s'') -> cmds s' = ∅).
Proof.
  intros Hu Hr. pose proof (reachable_sched_inv hash Hu latch_size s Hr) as Hs. clear Hr. split.
  - intros n s' H. induction H as [s|n s1 s2 s3 H12 H23 IH]; [lia|].
    pose proof (drain_step_less hash Hu s1 s2 Hs H12). specialize (IH (drain_step_inv hash Hu s1 s2 Hs H12)). lia.
  - intros s' H Hend. assert (sched_inv hash s') as Hs'.
    { clear Hend. induction H as [|s1 s2 s3 H12 _ IH]; eauto using drain_step_inv. }
    destruct (decide (cmds s' = ∅)) as [|Hne]; [done|]. destruct (some_steps hash Hu s' Hs' Hne) as [s'' Hst]. by destruct (Hend s'').
Qed.

Lemma latches_drain_witness :
  (forall n s', nsteps (drain_step wrap64) n sample_sched s' -> (n + total_work (cmds s') <= total_work (cmds sample_sched))%nat)
  /\ (forall s', rtc (drain_step wrap64) sample_sched s' -> (forall s'', ~ drain_step wrap64 s' s'') -> cmds s' = ∅).
Proof. apply (latches_drain wrap64 4 sample_sched); [exact wrap64_range|exact sample_reachable]. Defined.
