(* ===== verification/Concurrent.v ===== *)
(** * Concurrent commands (src/storage/txn/scheduler.rs, [execute] and [process])

    Commands that hold their latches take a snapshot, run on it and write what
    they computed, while others do the same. The latches make every command
    read what it overwrites: each write is a step of a command that runs
    alone, so what holds of reachable engines holds of concurrent runs. *)
From S2P Require Import Prelude Number Bytes Timestamp Key Fields Lock Write OrderedMap PeerLocks Engine.
From S2P Require Import ConcurrencyManager Reader Versions MvccTxn CheckTxnStatus Prewrite Commands.
From S2P Require Import KeyView Protocol ActionSpec ReadSpec PrewriteSpec System Demo Safety Latch Scheduler.
Local Open Scope Z_scope.

(** The scheduler, the engine, and for a running command its snapshot with the
    keys it has not written yet. *)
Record Concurrent := mk_concurrent {
  con_sched : @TxnScheduler Key;
  con_engine : Engine;
  con_snaps : gmap Z (Engine * list Key)
}.

Definition is_running (s : @TxnScheduler Key) (cid : Z) : bool :=
  match cmds s !! cid with
  | Some cmd => match cmd_phase cmd with PRunning => true | _ => false end
  | None => false
  end.

Section Concurrent.
  Context (hash : Key -> Z).

(** A step of the scheduler, after which the snapshots of the commands that
    no longer run are gone; a running command takes a snapshot; a running
    command writes what it computed on its snapshot for some of its keys. *)
Inductive con_step : Concurrent -> Concurrent -> Prop :=
| con_schedule s s' e snaps :
    txn_step hash s s' ->
    con_step (mk_concurrent s e snaps) (mk_concurrent s' e (filter (fun '(cid, _) => is_running s' cid = true) snaps))
| con_snapshot s e snaps cid keys :
    running s cid keys -> Forall user_key keys -> con_step (mk_concurrent s e snaps) (mk_concurrent s e (<[cid := (e, keys)]> snaps))
| con_write s e snaps cid es todo keys e' :
    snaps !! cid = Some (es, todo) -> keys ⊆ todo -> sys_step_on es e keys e' ->
    con_step (mk_concurrent s e snaps)
      (mk_concurrent s e' (<[cid := (es, filter (fun k => k ∉ keys) todo)]> snaps)).

Definition con_start (latch_size : Z) : Concurrent := mk_concurrent (scheduler_new latch_size) empty_engine ∅.

(** ** The invariant *)

Record con_inv (w : Concurrent) : Prop := {
  ci_sched : sched_inv hash (con_sched w);
  ci_reach : reachable (con_engine w);
  ci_snaps : forall cid es todo, con_snaps w !! cid = Some (es, todo) ->
    exists keys, running (con_sched w) cid keys /\ todo ⊆ keys /\ Forall user_key todo /\ agrees es (con_engine w) todo
}.

  Hypothesis Hu : forall k, is_u64 (hash k).

Lemma running_exclusive s c c' keys keys' k :
  sched_inv hash s -> running s c keys -> running s c' keys' -> k ∈ keys -> k ∈ keys' -> c = c'.
Proof using.
  intros Hs H H' Hk Hk'. pose proof (running_first hash s c keys k Hs H Hk).
  pose proof (running_first hash s c' keys' k Hs H' Hk'). congruence.
Qed.

Lemma con_write_inv s e snaps cid es todo keys e' :
  con_inv (mk_concurrent s e snaps) -> snaps !! cid = Some (es, todo) -> keys ⊆ todo -> sys_step_on es e keys e' ->
  sys_step e e' /\ con_inv (mk_concurrent s e' (<[cid := (es, filter (fun k => k ∉ keys) todo)]> snaps)).
Proof using.
  intros [Hs Hr Hsn] Hc Hsub Hst. cbn in *. pose proof (reachable_inv e Hr) as Hinv.
  destruct (Hsn cid es todo Hc) as (ks & Hrun & Htodo & Huk & [Hwf Hag]).
  assert (agrees es e keys) as Hag' by (split; [done|]; intros k Hk; by apply Hag, Hsub).
  assert (sys_step e e') as Hss by (by exists es, keys). split; [done|].
  destruct (sys_step_on_simulates es e keys e' Hinv Hag' Hst) as ([He' _] & b & Hb & _ & Hout). rewrite Hb in Hout.
  split; cbn; [done|eapply reachable_trans; [done|by apply rtc_once]|].
  intros c es' todo' [[<- [= <- <-]]|[Hne Hc']]%lookup_insert_Some.
  - exists ks. split; [done|]. split; [|split].
    + intros k [_ Hk]%list_elem_of_filter. by apply Htodo.
    + apply Forall_forall. intros k [_ Hk]%list_elem_of_filter. rewrite Forall_forall in Huk. auto.
    + split; [intros _; by apply Hwf, Hinv|]. intros k [Hn Hk]%list_elem_of_filter. rewrite (Hag k Hk).
      rewrite Forall_forall in Huk. symmetry. apply Hout; [by apply Huk|done].
  - destruct (Hsn c es' todo' Hc') as (ks' & Hrun' & Htodo' & Huk' & [Hwf' Hag'']). exists ks'.
    do 3 (split; [done|]). split; [intros _; by apply Hwf', Hinv|]. intros k Hk. rewrite (Hag'' k Hk). rewrite Forall_forall in Huk'. symmetry. apply Hout; [by apply Huk'|].
    intros Hin. destruct Hne. eapply (running_exclusive s cid c ks ks' k); auto.
Qed.

Lemma con_step_inv w w' : con_inv w -> con_step w w' -> con_inv w'.
Proof using Hu.
  intros Hi Hst. destruct Hst as [s s' e snaps Hts|s e snaps cid keys Hrun Huk|s e snaps cid es todo keys e' Hc Hsub Hst].
  - destruct Hi as [Hs Hr Hsn]. cbn in *. split; cbn; [by eapply txn_step_inv|done|].
    intros cid es todo [Hc Hrun']%map_lookup_filter_Some. destruct (Hsn cid es todo Hc) as (keys & (cmd & Ec & Hp & Hk) & H).
    exists keys. split; [|done]. unfold is_running in Hrun'. destruct (cmds s' !! cid) as [cmd'|] eqn:Ec'; [|done].
    destruct (cmd_phase cmd') eqn:Hp'; try done. exists cmd'. split; [done|]. split; [done|].
    by rewrite (running_stays hash s s' cid cmd cmd' Hs Hts Ec Hp Ec' Hp').
  - destruct Hi as [Hs Hr Hsn]. cbn in *. split; cbn; [done..|].
    intros c es todo [[<- [= <- <-]]|[_ Hc]]%lookup_insert_Some; [|by apply Hsn].
    exists keys. split_and!; try done.
  - by eapply con_write_inv.
Qed.

Lemma con_start_inv latch_size : con_inv (con_start latch_size).
Proof using. split; cbn; [apply sched_inv_new|apply rtc_refl|done]. Qed.

Lemma con_reachable_inv latch_size w : rtc con_step (con_start latch_size) w -> con_inv w.
Proof using Hu.
  intros H. pose proof (con_start_inv latch_size) as Hi. induction H as [|w1 w2 w3 H12 _ IH]; eauto using con_step_inv.
Qed.
End Concurrent.

(** ** Concurrent commands *)

(** A prewrite that is scheduled, gets its latch, takes a snapshot and writes. *)
Definition zero_hash (key : Key) : Z := 0.

Definition sched1 (s : @TxnScheduler Key) : @TxnScheduler Key :=
  match cmd_step zero_hash s 1 None false with Ok s' => s' | _ => s end.
Definition latched : @TxnScheduler Key := sched1 (sched1 (schedule_command zero_hash (scheduler_new 1) [k])).

Definition con1 : Concurrent := mk_concurrent latched empty_engine {[ 1 := (empty_engine, [k]) ]}.

Lemma latched_running : running latched 1 [k].
Proof. eexists. split; [vm_compute; reflexivity|]. split; reflexivity. Qed.

Lemma sched1_step s e :
  bool_decide (is_Some (cmds s !! 1)) && (id_alloc s + 1 <? 2 ^ 64) = true ->
  rtc (con_step zero_hash) (mk_concurrent s e ∅) (mk_concurrent (sched1 s) e ∅).
Proof.
  intros [[cmd Hc]%bool_decide_eq_true Hid%Z.ltb_lt]%andb_true_iff. unfold sched1.
  destruct (cmd_step zero_hash s 1 None false) as [s'| |] eqn:E; [|reflexivity..]. apply rtc_once.
  rewrite <- (map_filter_empty (fun '(cid, _) => is_running s' cid = true)) at 2. apply con_schedule.
  apply (step_cmd zero_hash s 1 cmd None false s'); [done|done|by intros ? [=]|done].
Qed.

Lemma con1_reached : rtc (con_step zero_hash) (con_start 1) con1.
Proof.
  eapply rtc_l; [apply con_schedule; apply (step_schedule zero_hash _ [k]); reflexivity|]. rewrite map_filter_empty.
  etrans; [apply sched1_step; vm_compute; reflexivity|]. etrans; [apply sched1_step; vm_compute; reflexivity|].
  apply rtc_once. apply (con_snapshot _ latched empty_engine ∅ 1 [k]); [exact latched_running|]. apply Forall_singleton, k_user.
Qed.

(** C16: Commands that run at the same time are as if they ran one after the
    other. Whatever commands are scheduled, however their steps interleave and
    however old their snapshots are: every write to the engine is a step of a
    command that reads the engine as it is, and the engine is one that
    commands reach one at a time. *)
Theorem concurrent_commands_serial hash latch_size w w' :
  (forall k, is_u64 (hash k)) -> rtc (con_step hash) (con_start latch_size) w -> con_step hash w w' ->
  (con_engine w' = con_engine w \/ sys_step (con_engine w) (con_engine w')) /\ reachable (con_engine w').
Proof.
  intros Hu Hr Hst. pose proof (con_reachable_inv hash Hu latch_size w Hr) as Hi.
  split; [|apply (ci_reach hash w'); by eapply con_step_inv].
  destruct Hst as [| |s e snaps cid es todo keys e' Hc Hsub Hs]; [by left|by left|right].
  by eapply con_write_inv in Hs as [? _].
Qed.

Lemma concurrent_commands_serial_witness : (e1 = empty_engine \/ sys_step empty_engine e1) /\ reachable e1.
Proof.
  apply (concurrent_commands_serial zero_hash 1 con1
    (mk_concurrent latched e1 (<[1 := (empty_engine, filter (fun k' => k' ∉ [k]) [k])]> (con_snaps con1)))).
  - done.
  - exact con1_reached.
  - apply (con_write zero_hash latched empty_engine (con_snaps con1) 1 empty_engine [k] [k] e1);
      [reflexivity|done|exact e1_on].
Defined.
