(* ===== verification/AgentDelay.v ===== *)
(** * The delay queue of the transaction scheduler
    (src/storage/txn/scheduler.rs, [AgentSchedulerRuntime] and [WorkerLoad])

    A write command that finds too few free worker threads for its priority
    waits in a queue ordered by the time of its next check. A thread takes the
    requests that are due and schedules them, or puts them back until their
    deadline is near. Shown: no delayed command is lost or scheduled twice,
    and none waits past its deadline. *)
From stdpp Require Import sorting.
From S2P Require Import Prelude.
Local Open Scope Z_scope.

(** ** Time *)

(** Instants and durations in nanoseconds; the largest instant has [i64::MAX]
    seconds. *)
Definition INSTANT_MAX : Z := (2 ^ 63 - 1) * 10 ^ 9 + 999999999.

Definition checked_add (t d : Z) : option Z := if t + d <=? INSTANT_MAX then Some (t + d) else None.

(** [Instant + Duration] panics where [checked_add] returns [None]. *)
Definition instant_add (t d : Z) : res unit Z := match checked_add t d with Some x => Ok x | None => Panic end.

(** ** Worker load *)

Inductive CommandPri := PriLow | PriNormal | PriHigh.
#[export] Instance CommandPri_eq_dec : EqDecision CommandPri.
Proof. solve_decision. Defined.

Record WorkerLoad := mk_load { high_running : Z; shared_running : Z }.
Inductive LoadClass := LCHigh | LCShared.

Definition load_acquire (l : WorkerLoad) (priority : CommandPri) (high_shared : bool) : LoadClass * WorkerLoad :=
  if bool_decide (priority = PriHigh) && negb high_shared then
    (LCHigh, mk_load (wrap64 (high_running l + 1)) (shared_running l))
  else (LCShared, mk_load (high_running l) (wrap64 (shared_running l + 1))).

Definition load_release (l : WorkerLoad) (class : LoadClass) : WorkerLoad :=
  match class with
  | LCHigh => mk_load (wrap64 (high_running l - 1)) (shared_running l)
  | LCShared => mk_load (high_running l) (wrap64 (shared_running l - 1))
  end.

Definition total_running (l : WorkerLoad) : Z := wrap64 (high_running l + shared_running l).

(** [total] is the size of the pool that runs the priority. *)
Definition available_threads_for_priority (l : WorkerLoad) (total : Z) (shared_high : bool) (priority : CommandPri) : Z :=
  let running := if shared_high then total_running l
                 else if bool_decide (priority = PriHigh) then high_running l else shared_running l in
  Z.max 0 (total - running).

(** ** Requests *)

(** What the scheduler looks at of a command. *)
Record CmdInfo := mk_cmd_info {
  ci_readonly : bool;
  ci_priority : CommandPri;
  ci_busy_threshold_ms : Z;
  ci_deadline : Z
}.

Record DelayedWriteRequest := mk_delayed {
  dw_task : Z;
  dw_priority : CommandPri;
  dw_deadline : Z;
  dw_next_check_time : Z
}.

Definition delayed_new (task : Z) (priority : CommandPri) (deadline : Z) : DelayedWriteRequest :=
  mk_delayed task priority deadline deadline.

(** The parts of the runtime that stay: thresholds and durations. *)
Record AgentSchedulerRuntime := mk_agent_runtime {
  ar_high : Z; ar_medium : Z; ar_low : Z;
  ar_base_delay : Z; ar_urgency_margin : Z
}.

Definition threshold_for (rt : AgentSchedulerRuntime) (priority : CommandPri) : Z :=
  match priority with PriHigh => ar_high rt | PriNormal => ar_medium rt | PriLow => ar_low rt end.

Definition delay_budget_for_command (cmd : CmdInfo) : option Z :=
  if ci_readonly cmd then None
  else if ci_busy_threshold_ms cmd =? 0 then None
  else Some (ci_busy_threshold_ms cmd * 10 ^ 6).

(** Whether the command is delayed, and until when at most. *)
Definition should_delay_task (rt : AgentSchedulerRuntime) (available : CommandPri -> Z) (now : Z) (cmd : CmdInfo)
    (delay_budget : Z) : res unit (option Z) :=
  let required := threshold_for rt (ci_priority cmd) in
  if required =? 0 then Ok None
  else if required <=? available (ci_priority cmd) then Ok None
  else
    match checked_add now delay_budget with
    | None => Ok None
    | Some agent_deadline =>
        let command_deadline := ci_deadline cmd in
        if command_deadline <=? now then Ok None
        else
          let deadline := Z.min agent_deadline command_deadline in
          urgent ← instant_add now (ar_urgency_margin rt);
          if deadline <=? urgent then Ok None else Ok (Some deadline)
    end.

(** ** The queue *)

(** A [BTreeMap] from the next check to the requests, in order. *)
Definition DelayQueue : Type := list (Z * list DelayedWriteRequest).

Fixpoint push_request (q : DelayQueue) (req : DelayedWriteRequest) : DelayQueue :=
  let t := dw_next_check_time req in
  match q with
  | [] => [(t, [req])]
  | (t', reqs) :: rest =>
      if t <? t' then (t, [req]) :: q
      else if t =? t' then (t', reqs ++ [req]) :: rest
      else (t', reqs) :: push_request rest req
  end.

Definition compute_next_check (rt : AgentSchedulerRuntime) (now deadline : Z) : Z :=
  let next := match checked_add now (ar_base_delay rt) with Some ts => ts | None => deadline end in
  if deadline <? next then deadline else next.

Definition set_next_check (req : DelayedWriteRequest) (t : Z) : DelayedWriteRequest :=
  mk_delayed (dw_task req) (dw_priority req) (dw_deadline req) t.

Definition enqueue (rt : AgentSchedulerRuntime) (q : DelayQueue) (now : Z) (req : DelayedWriteRequest) : DelayQueue :=
  push_request q (set_next_check req (compute_next_check rt now (dw_deadline req))).

(** The requests that are due, with a reading of the clock for every entry
    looked at. The result has the readings used. *)
Fixpoint take_ready (clock : nat -> Z) (n : nat) (q : DelayQueue) : list DelayedWriteRequest * DelayQueue * nat :=
  match q with
  | [] => ([], [], n)
  | (t, reqs) :: rest =>
      if t <=? clock n then
        let '(ready, q, n) := take_ready clock (S n) rest in (reqs ++ ready, q, n)
      else ([], q, S n)
  end.

(** [wait_for_ready] when it looks at the queue: [None] if nothing is due and
    the thread waits. *)
Definition wait_for_ready (clock : nat -> Z) (q : DelayQueue) : option (list DelayedWriteRequest * DelayQueue * nat) :=
  match q with
  | (t, _) :: _ => if t <=? clock 0%nat then Some (take_ready clock 0 q) else None
  | [] => None
  end.

(** What [run] does with one request: [None] if it is scheduled, or the request
    to put back. *)
Definition check_request (rt : AgentSchedulerRuntime) (shutdown : bool) (now : Z) (available : CommandPri -> Z)
    (req : DelayedWriteRequest) : res unit (option DelayedWriteRequest) :=
  if shutdown then Ok None
  else
    urgent ← instant_add now (ar_urgency_margin rt);
    if dw_deadline req <=? urgent then Ok None
    else
      let required := threshold_for rt (dw_priority req) in
      if (required =? 0) || (required <=? available (dw_priority req)) then Ok None
      else Ok (Some (set_next_check req (compute_next_check rt now (dw_deadline req)))).

Definition requests (q : DelayQueue) : list DelayedWriteRequest := concat (map snd q).

#[global] Arguments requests : simpl never.

Definition flush_all (q : DelayQueue) : list DelayedWriteRequest := requests q.

(** ** The runtime at work *)

(** The queue, the due requests the thread has in hand, the requests handed to
    [schedule_command], the tasks ever delayed, the flag, whether the thread
    has flushed the queue and ended, and the last reading of the clock. *)
Record Delay := mk_delay {
  dl_queue : DelayQueue;
  dl_hand : list DelayedWriteRequest;
  dl_done : list DelayedWriteRequest;
  dl_submitted : list Z;
  dl_shutdown : bool;
  dl_stopped : bool;
  dl_now : Z
}.

Section Run.
  Context (rt : AgentSchedulerRuntime).

(** A command is delayed; the thread finds due requests; it handles one of
    them; the runtime is told to stop; the thread flushes the queue. The clock
    does not go back. *)
Inductive delay_step : Delay -> Delay -> Prop :=
| delay_enqueue q hand done sub sd now now' task priority deadline :
    now <= now' ->
    delay_step (mk_delay q hand done sub sd false now)
      (mk_delay (enqueue rt q now' (delayed_new task priority deadline)) hand done (sub ++ [task]) sd false now')
| delay_ready q done sub now clock ready q' n :
    (forall i, now <= clock i /\ clock i <= clock (S i)) -> wait_for_ready clock q = Some (ready, q', n) ->
    delay_step (mk_delay q [] done sub false false now) (mk_delay q' ready done sub false false (clock n))
| delay_check q req hand done sub sd now now' available r :
    now <= now' -> check_request rt sd now' available req = Ok r ->
    delay_step (mk_delay q (req :: hand) done sub sd false now)
      (match r with
       | None => mk_delay q hand (done ++ [req]) sub sd false now'
       | Some req => mk_delay (push_request q req) hand done sub sd false now'
       end)
| delay_shutdown q hand done sub sd st now :
    delay_step (mk_delay q hand done sub sd st now) (mk_delay q hand done sub true st now)
| delay_flush q done sub now :
    delay_step (mk_delay q [] done sub true false now) (mk_delay [] [] (done ++ flush_all q) sub true true now).

Definition delay_start (now : Z) : Delay := mk_delay [] [] [] [] false false now.

(** ** Nothing is lost *)

Lemma push_request_perm q req : requests (push_request q req) ≡ₚ req :: requests q.
Proof using.
  induction q as [|[t reqs] q IH]; [done|]. cbn [push_request]. destruct (_ <? t); [done|].
  destruct (_ =? t); unfold requests in *; cbn.
  - rewrite <- app_assoc. apply Permutation_sym, Permutation_middle.
  - rewrite IH. apply Permutation_sym, Permutation_middle.
Qed.

Lemma take_ready_perm clock n q :
  let '(ready, q', _) := take_ready clock n q in requests q = ready ++ requests q'.
Proof using.
  revert n. induction q as [|[t reqs] q IH]; intros n; [done|]. cbn [take_ready].
  destruct (t <=? clock n); [|done]. specialize (IH (S n)). destruct (take_ready clock (S n) q) as [[ready q'] n'].
  unfold requests in *. cbn. by rewrite IH, app_assoc.
Qed.

Lemma wait_for_ready_take clock q r : wait_for_ready clock q = Some r -> take_ready clock 0 q = r.
Proof using. destruct q as [|[t reqs] q]; [done|]. unfold wait_for_ready. destruct (t <=? clock 0%nat); [congruence|done]. Qed.

Definition tasks (l : list DelayedWriteRequest) : list Z := map dw_task l.

Definition conserved (x : Delay) : Prop :=
  tasks (dl_done x ++ dl_hand x ++ requests (dl_queue x)) ≡ₚ dl_submitted x.

Lemma delay_step_conserved x x' : delay_step x x' -> conserved x -> conserved x'.
Proof using.
  unfold conserved, tasks. intros Hs. destruct Hs as [q hand dn sub sd now now' task pri dl Hle|q dn sub now clock ready q' n Hcl Hw
    |q req hand dn sub sd now now' available r Hle Hr| |q dn sub now]; cbn; rewrite ?map_app; cbn.
  - intros <-. unfold enqueue. rewrite push_request_perm. cbn. rewrite !app_assoc, <- Permutation_middle.
    apply Permutation_cons_append.
  - apply wait_for_ready_take in Hw. pose proof (take_ready_perm clock 0 q) as Hp. rewrite Hw in Hp.
    rewrite Hp, map_app. done.
  - destruct r as [req'|]; cbn; rewrite ?map_app; cbn; intros <-.
    + rewrite push_request_perm. cbn.
      assert (dw_task req' = dw_task req) as ->.
      { unfold check_request in Hr. inv_bind Hr; simplify_eq; done. }
      apply Permutation_app_head. symmetry. apply Permutation_middle.
    + by rewrite <- app_assoc.
  - done.
  - intros <-. unfold flush_all. by rewrite app_nil_r.
Qed.

(** ** Nothing waits past its deadline *)

Definition entry_ok (e : Z * list DelayedWriteRequest) : Prop := Forall (fun r => e.1 <= dw_deadline r) e.2.

Record queue_ok (q : DelayQueue) : Prop := {
  qo_sorted : StronglySorted Z.lt q.*1;
  qo_entries : Forall entry_ok q
}.

Lemma push_request_keys q req t : t ∈ (push_request q req).*1 -> t = dw_next_check_time req \/ t ∈ q.*1.
Proof using.
  induction q as [|[t' reqs] q IH]; cbn [push_request]; [cbn; rewrite list_elem_of_singleton; by left|].
  destruct (_ <? t'); [cbn; rewrite elem_of_cons; naive_solver|]. destruct (Z.eqb_spec (dw_next_check_time req) t') as [E|].
  - cbn. auto.
  - cbn. rewrite !elem_of_cons. intros [->|?]; [by right; left|]. destruct (IH H); auto.
Qed.

Lemma push_request_ok q req : queue_ok q -> dw_next_check_time req <= dw_deadline req -> queue_ok (push_request q req).
Proof using.
  intros [Hs He] Hle. induction q as [|[t reqs] q IH]; cbn [push_request].
  { split; cbn; [repeat constructor|]. apply Forall_singleton, Forall_singleton. done. }
  cbn in Hs. apply StronglySorted_inv in Hs as [Hs Ht]. apply Forall_cons in He as [He1 He].
  destruct (IH Hs He) as [Hs' He']. destruct (Z.ltb_spec (dw_next_check_time req) t); [|destruct (Z.eqb_spec (dw_next_check_time req) t) as [E|]].
  - split; cbn.
    + constructor; [by constructor|]. apply Forall_cons. split; [done|]. eapply Forall_impl; [exact Ht|]. intros x Hx. cbn in Hx. lia.
    + apply Forall_cons. split; [by apply Forall_singleton|]. by apply Forall_cons.
  - split; cbn; [by constructor|]. apply Forall_cons. split; [|done]. unfold entry_ok in *. cbn in *. apply Forall_app.
    split; [done|]. apply Forall_singleton. lia.
  - split; cbn; [constructor; [done|]|by apply Forall_cons]. apply Forall_forall. intros x [->|Hx]%push_request_keys; [lia|].
    rewrite Forall_forall in Ht. by apply Ht.
Qed.

Lemma next_check_le now deadline : compute_next_check rt now deadline <= deadline.
Proof using. unfold compute_next_check. cbv zeta. case_match; case_match eqn:E; first [apply Z.ltb_ge in E; lia | lia]. Qed.

(** Taking what is due leaves only what is not due at the first reading. *)
Lemma take_ready_ok clock q : (forall i, clock i <= clock (S i)) -> queue_ok q -> forall n t,
  t <= clock n -> let '(ready, q', n') := take_ready clock n q in
  queue_ok q' /\ (forall r, r ∈ requests q -> dw_deadline r <= t -> r ∈ ready) /\ t <= clock n'.
Proof using.
  intros Hcl [Hs He]. induction q as [|[t0 reqs] q IH]; intros n t Ht; cbn [take_ready].
  { split_and!; [by split|by intros r ?%elem_of_nil|done]. }
  cbn in Hs. apply StronglySorted_inv in Hs as [Hs Hlt]. apply Forall_cons in He as [He1 He].
  destruct (Z.leb_spec t0 (clock n)) as [Hle|Hgt].
  - specialize (IH Hs He (S n) t). specialize (Hcl n). destruct (take_ready clock (S n) q) as [[ready q'] n'].
    destruct IH as (Hok & Hin & Hn); [lia|]. split_and!; try done. intros r Hr Hd. unfold requests in *. cbn in Hr.
    apply elem_of_app in Hr as [Hr|Hr]; apply elem_of_app; [by left|right; by apply Hin].
  - split_and!; [by split; [constructor|apply Forall_cons]| |specialize (Hcl n); lia].
    intros r Hr Hd. exfalso. unfold requests in Hr. apply list_elem_of_In, in_concat in Hr as (rs & Hrs & Hr).
    apply in_map_iff in Hrs as ([t1 rs'] & <- & Hrs). apply list_elem_of_In in Hrs, Hr. cbn in Hr.
    assert (t0 <= t1 /\ entry_ok (t1, rs')) as [Hle Hok].
    { apply elem_of_cons in Hrs as [[= -> ->]|Hrs]; [split; [lia|done]|]. split.
      - apply Z.lt_le_incl, (proj1 (Forall_forall _ _) Hlt), list_elem_of_fmap. by exists (t1, rs').
      - by apply (proj1 (Forall_forall _ _) He). }
    unfold entry_ok in Hok. rewrite Forall_forall in Hok. specialize (Hok r Hr). cbn in Hok. lia.
Qed.

Lemma delay_step_queue x x' : delay_step x x' -> queue_ok (dl_queue x) -> queue_ok (dl_queue x') /\ dl_now x <= dl_now x'.
Proof using.
  intros Hs Hq. destruct Hs as [q hand dn sub sd now now' task pri dl Hle|q dn sub now clock ready q' n Hcl Hw
    |q req hand dn sub sd now now' available r Hle Hr| |q dn sub now]; cbn in *.
  - split; [|done]. apply push_request_ok; [done|]. cbn. apply next_check_le.
  - apply wait_for_ready_take in Hw. pose proof (take_ready_ok clock q (fun i => proj2 (Hcl i)) Hq 0 now (proj1 (Hcl 0%nat))) as H.
    rewrite Hw in H. by destruct H as (? & _ & ?).
  - destruct r as [req'|]; cbn; [|done]. split; [|done]. apply push_request_ok; [done|].
    unfold check_request in Hr. inv_bind Hr; simplify_eq. apply next_check_le.
  - done.
  - split; [|done]. split; constructor.
Qed.

(** A request in hand past its deadline is scheduled. *)
Lemma overdue_scheduled x x' : delay_step x x' -> forall r,
  0 <= ar_urgency_margin rt -> dw_deadline r <= dl_now x -> r ∈ dl_done x ++ dl_hand x -> r ∈ dl_done x' ++ dl_hand x'.
Proof using.
  intros Hs r Hm Hd. destruct Hs as [q hand dn sub sd now now' task pri dl Hle|q dn sub now clock ready q' n Hcl Hw
    |q req hand dn sub sd now now' available r' Hle Hr| |q dn sub now]; cbn in *; rewrite ?app_nil_r; auto.
  - intros Hin. apply elem_of_app. by left.
  - intros Hin. destruct r' as [req'|]; cbn; [|by rewrite <- app_assoc].
    apply elem_of_app in Hin as [Hin|[->|Hin]%elem_of_cons]; [set_solver| |set_solver]. exfalso.
    unfold check_request in Hr. destruct sd; [done|]. unfold instant_add, checked_add in Hr.
    destruct (now' + ar_urgency_margin rt <=? INSTANT_MAX); [|done]. cbn in Hr.
    destruct (Z.leb_spec (dw_deadline req) (now' + ar_urgency_margin rt)); [done|lia].
  - intros Hin. apply elem_of_app. by left.
Qed.

Lemma delay_steps_queue x x' : rtc delay_step x x' -> queue_ok (dl_queue x) -> queue_ok (dl_queue x') /\ dl_now x <= dl_now x'.
Proof using.
  induction 1 as [|x y z Hs _ IH]; intros Hq; [split; [done|lia]|]. destruct (delay_step_queue _ _ Hs Hq) as [Hq' ?].
  destruct (IH Hq') as [? ?]. split; [done|lia].
Qed.

Lemma reachable_queue_ok t0 x : rtc delay_step (delay_start t0) x -> queue_ok (dl_queue x).
Proof using. intros H. eapply (delay_steps_queue _ _ H). split; constructor. Qed.

Lemma overdue_stays x x' r : rtc delay_step x x' -> queue_ok (dl_queue x) -> 0 <= ar_urgency_margin rt ->
  dw_deadline r <= dl_now x -> r ∈ dl_done x ++ dl_hand x -> r ∈ dl_done x' ++ dl_hand x'.
Proof using.
  induction 1 as [|x y z Hs _ IH]; [done|]. intros Hq Hm Hd Hin. destruct (delay_step_queue _ _ Hs Hq) as [Hq' ?].
  apply IH; [done|done|lia|]. by eapply overdue_scheduled.
Qed.

(** An overdue request in the queue makes the thread find work. *)
Lemma overdue_ready q clock r : queue_ok q -> r ∈ requests q -> dw_deadline r <= clock 0%nat ->
  exists ready q' n, wait_for_ready clock q = Some (ready, q', n).
Proof using.
  intros [Hs He] Hr Hd. destruct q as [|[t reqs] q]; [by apply elem_of_nil in Hr|].
  assert (t <= clock 0%nat) as Ht.
  { apply list_elem_of_In, in_concat in Hr as (rs & Hrs & Hr). apply in_map_iff in Hrs as ([t1 rs'] & <- & Hrs).
    apply list_elem_of_In in Hrs, Hr. cbn in Hr, Hs. apply StronglySorted_inv in Hs as [_ Hlt].
    pose proof (proj1 (Forall_forall _ _) He _ Hrs) as Hok. pose proof (proj1 (Forall_forall _ _) Hok r Hr) as Hle. cbn in Hle.
    enough (t <= t1) by lia. apply elem_of_cons in Hrs as [[= -> ->]|Hrs]; [lia|].
    apply Z.lt_le_incl, (proj1 (Forall_forall _ _) Hlt), list_elem_of_fmap. by exists (t1, rs'). }
  unfold wait_for_ready. rewrite (proj2 (Z.leb_le _ _) Ht). destruct (take_ready clock 0 _) as [[ready q'] n]. eauto.
Qed.

(** The thread gets through the requests it has in hand. *)
Lemma hand_drains hand q done sub sd now : now + ar_urgency_margin rt <= INSTANT_MAX ->
  exists z, rtc delay_step (mk_delay q hand done sub sd false now) z /\ dl_hand z = [].
Proof using.
  intros Hmax. revert q done. induction hand as [|req hand IH]; intros q dn; [eexists; split; [apply rtc_refl|done]|].
  assert (exists r, check_request rt sd now (fun _ => 0) req = Ok r) as [r Hr].
  { unfold check_request, instant_add, checked_add. rewrite (proj2 (Z.leb_le _ _) Hmax). cbn.
    repeat case_match; eauto. }
  pose proof (delay_check q req hand dn sub sd now now _ r (Z.le_refl _) Hr) as Hs.
  destruct r as [req'|]; [destruct (IH (push_request q req') dn) as (z & Hz & ?)|destruct (IH q (dn ++ [req])) as (z & Hz & ?)];
    (exists z; split; [eapply rtc_l; [exact Hs|exact Hz]|done]).
Qed.

(** C35: A command that was delayed is handed to the scheduler or is still held,
    exactly once: at every moment the commands handed on, those the delay
    thread has in hand and those in the queue are together the commands that
    were delayed, and after the thread has ended the queue is empty. *)
Theorem delayed_conserved t0 x :
  rtc delay_step (delay_start t0) x ->
  tasks (dl_done x ++ dl_hand x ++ requests (dl_queue x)) ≡ₚ dl_submitted x /\
  (dl_stopped x = true -> tasks (dl_done x) ≡ₚ dl_submitted x).
Proof using.
  intros H. assert (conserved x /\ (dl_stopped x = true -> dl_queue x = [] /\ dl_hand x = [])) as [Hc Hst].
  { remember (delay_start t0) as s eqn:Hs0. assert (conserved s /\ (dl_stopped s = true -> dl_queue s = [] /\ dl_hand s = [])) as Hs.
    { subst s. split; [apply Permutation_refl|done]. }
    clear Hs0. induction H as [|x y z Hs1 _ IH]; [done|]. apply IH. split; [eapply delay_step_conserved; [exact Hs1|apply Hs]|].
    destruct Hs as [_ Hs]. destruct Hs1 as [| |????????? [req'|]| |]; cbn in *; try done; auto. }
  split; [exact Hc|]. intros Hx. destruct (Hst Hx) as [Hq Hh]. unfold conserved in Hc. rewrite Hq, Hh in Hc.
  by rewrite app_nil_r in Hc.
Qed.

(** A delayed command is not held past its deadline: when the thread looks
    at the queue after the deadline of a queued command has passed, it does
    not wait, and when it has gone through what it took out, which it does, the
    command has been handed to the scheduler. *)
Theorem delayed_by_deadline t0 x r clock :
  rtc delay_step (delay_start t0) x -> 0 <= ar_urgency_margin rt -> dl_hand x = [] -> dl_shutdown x = false -> dl_stopped x = false ->
  r ∈ requests (dl_queue x) -> dw_deadline r <= dl_now x ->
  (forall i, dl_now x <= clock i /\ clock i <= clock (S i)) ->
  exists y, delay_step x y /\ r ∈ dl_hand y /\
    (dl_now y + ar_urgency_margin rt <= INSTANT_MAX -> exists z, rtc delay_step y z /\ dl_hand z = []) /\
    forall z, rtc delay_step y z -> dl_hand z = [] -> r ∈ dl_done z.
Proof using.
  intros Hreach Hm Hh Hsd Hst Hr Hd Hcl. pose proof (reachable_queue_ok _ _ Hreach) as Hq.
  destruct x as [q hand dn sub sd st now]. cbn in *. subst.
  destruct (overdue_ready q clock r Hq Hr) as (ready & q' & n & Hw); [specialize (Hcl 0%nat); lia|].
  pose proof (delay_ready q dn sub now clock ready q' n Hcl Hw) as Hs. destruct (delay_step_queue _ _ Hs Hq) as [Hq' Hnow].
  pose proof (take_ready_ok clock q (fun i => proj2 (Hcl i)) Hq 0 now (proj1 (Hcl 0%nat))) as Ht.
  rewrite (wait_for_ready_take _ _ _ Hw) in Ht. destruct Ht as (_ & Hin & _).
  eexists. split; [exact Hs|]. cbn in *. split; [by apply Hin|]. split; [apply hand_drains|].
  intros z Hz Hhz. pose proof (overdue_stays _ _ r Hz Hq' Hm) as Hx. cbn in Hx. rewrite Hhz, app_nil_r in Hx.
  apply Hx; [lia|]. apply elem_of_app. right. by apply Hin.
Qed.
End Run.

(** A command is delayed only while the threads free for its priority are
    fewer than its priority needs, and its deadline in the queue is past the
    urgency margin and neither past the delay the client allows nor past the
    command's own deadline. A read-only command and one with no busy threshold
    have no delay budget. *)
Theorem delay_within_budget rt available now cmd budget d :
  delay_budget_for_command cmd = Some budget -> should_delay_task rt available now cmd budget = Ok (Some d) ->
  ci_readonly cmd = false /\ ci_busy_threshold_ms cmd <> 0 /\
  available (ci_priority cmd) < threshold_for rt (ci_priority cmd) /\
  now + ar_urgency_margin rt < d /\ d <= now + ci_busy_threshold_ms cmd * 10 ^ 6 /\ d <= ci_deadline cmd /\ d <= INSTANT_MAX.
Proof.
  unfold delay_budget_for_command, should_delay_task, instant_add, checked_add. intros Hb Hd.
  destruct (ci_readonly cmd); [done|]. destruct (Z.eqb_spec (ci_busy_threshold_ms cmd) 0); [done|]. simplify_eq.
  destruct (threshold_for rt (ci_priority cmd) =? 0); [done|].
  destruct (Z.leb_spec (threshold_for rt (ci_priority cmd)) (available (ci_priority cmd))); [done|].
  destruct (Z.leb_spec (now + ci_busy_threshold_ms cmd * 10 ^ 6) INSTANT_MAX); [|done].
  destruct (ci_deadline cmd <=? now); [done|].
  destruct (now + ar_urgency_margin rt <=? INSTANT_MAX); [|done]. cbn in Hd.
  destruct (Z.leb_spec (Z.min (now + ci_busy_threshold_ms cmd * 10 ^ 6) (ci_deadline cmd)) (now + ar_urgency_margin rt)); [done|].
  simplify_eq. split_and!; lia || done.
Qed.

(** ** Samples *)

(** Thresholds of two, four and eight free threads, a recheck every
    millisecond and a margin of two. *)
Definition sample_rt : AgentSchedulerRuntime := mk_agent_runtime 2 4 8 (10 ^ 6) (2 * 10 ^ 6).

Definition sample_cmd : CmdInfo :=
  {| ci_readonly := false; ci_busy_threshold_ms := 5; ci_priority := PriNormal; ci_deadline := 10 ^ 9 |}.

Lemma delay_within_budget_witness :
  delay_budget_for_command sample_cmd = Some (5 * 10 ^ 6) /\
  should_delay_task sample_rt (fun _ => 3) 0 sample_cmd (5 * 10 ^ 6) = Ok (Some (5 * 10 ^ 6)) /\ 3 < threshold_for sample_rt PriNormal.
Proof.
  split; [reflexivity|]. split; [reflexivity|].
  exact (proj1 (proj2 (proj2 (delay_within_budget sample_rt (fun _ => 3) 0 sample_cmd (5 * 10 ^ 6) (5 * 10 ^ 6) eq_refl eq_refl)))).
Defined.

(** One command delayed at time 0 with the deadline 5 ms. *)
Definition sample_delay : Delay :=
  mk_delay (enqueue sample_rt [] 0 (delayed_new 7 PriNormal (5 * 10 ^ 6))) [] [] [7] false false 0.

Lemma sample_delay_reached : rtc (delay_step sample_rt) (delay_start 0) sample_delay.
Proof. apply rtc_once. apply (delay_enqueue sample_rt [] [] [] [] false 0 0 7 PriNormal (5 * 10 ^ 6)). lia. Qed.

(** The runtime is stopped and the queue flushed. *)
Definition sample_flushed : Delay :=
  mk_delay [] [] (flush_all (dl_queue sample_delay)) [7] true true 0.

Lemma sample_flushed_reached : rtc (delay_step sample_rt) (delay_start 0) sample_flushed.
Proof.
  etrans; [exact sample_delay_reached|]. eapply rtc_l; [apply delay_shutdown|].
  apply rtc_once. apply (delay_flush sample_rt (dl_queue sample_delay) [] [7] 0).
Qed.

Lemma delayed_conserved_witness : tasks (dl_done sample_flushed) = [7] /\ tasks (dl_done sample_flushed) ≡ₚ [7].
Proof.
  split; [reflexivity|]. exact (proj2 (delayed_conserved sample_rt 0 sample_flushed sample_flushed_reached) eq_refl).
Defined.

(** The same queue, 6 ms later: a second command has just been delayed. *)
Definition sample_late : Delay :=
  mk_delay (enqueue sample_rt (dl_queue sample_delay) (6 * 10 ^ 6) (delayed_new 8 PriNormal (10 ^ 9))) [] [] [7; 8] false false (6 * 10 ^ 6).

Lemma sample_late_reached : rtc (delay_step sample_rt) (delay_start 0) sample_late.
Proof.
  eapply rtc_r; [exact sample_delay_reached|].
  apply (delay_enqueue sample_rt (dl_queue sample_delay) [] [] [7] false 0 (6 * 10 ^ 6) 8 PriNormal (10 ^ 9)). lia.
Qed.

Definition sample_req : DelayedWriteRequest := mk_delayed 7 PriNormal (5 * 10 ^ 6) (10 ^ 6).

Lemma delayed_by_deadline_witness :
  exists y, delay_step sample_rt sample_late y /\ sample_req ∈ dl_hand y /\
    (dl_now y + ar_urgency_margin sample_rt <= INSTANT_MAX -> exists z, rtc (delay_step sample_rt) y z /\ dl_hand z = []) /\
    forall z, rtc (delay_step sample_rt) y z -> dl_hand z = [] -> sample_req ∈ dl_done z.
Proof.
  apply (delayed_by_deadline sample_rt 0 sample_late sample_req (fun _ => 6 * 10 ^ 6)); try reflexivity.
  - exact sample_late_reached.
  - vm_compute. congruence.
  - apply list_elem_of_here.
  - vm_compute. congruence.
  - intros _. vm_compute. split; congruence.
Defined.
