(* ===== verification/Deadlock.v ===== *)
(** * The deadlock detector (src/server/lock_manager/deadlock.rs)

    The leader of the detector keeps the wait-for graph of the cluster: an edge
    from a transaction to each transaction that holds a lock it waits for,
    with the keys and the time of the last request. An edge expires, and
    expired edges are removed when a search meets them. Shown: the graph never
    has a cycle, a request reports a deadlock exactly when the live edges
    close a cycle, and the chain it reports is that cycle. *)
From stdpp Require Import fin_sets.
From S2P Require Import Prelude Timestamp.
Local Open Scope Z_scope.

(** ** Edges *)

(** What one transaction waits for at another: the hash and a key for every
    hash. Instants and durations are in nanoseconds. *)
Record Locks := mk_locks {
  lk_ts : TimeStamp;
  lk_keys : list (Z * bytes);
  lk_resource_group_tag : bytes;
  lk_last_detect_time : Z
}.

Definition locks_new (ts : TimeStamp) (hash : Z) (key tag : bytes) (last_detect_time : Z) : Locks :=
  mk_locks ts [(hash, key)] tag last_detect_time.

Definition locks_push (l : Locks) (lock_hash : Z) (key : bytes) (now : Z) : Locks :=
  mk_locks (lk_ts l)
    (if existsb (fun e => e.1 =? lock_hash) (lk_keys l) then lk_keys l else lk_keys l ++ [(lock_hash, key)])
    (lk_resource_group_tag l) now.

(** [position] and [remove]. *)
Fixpoint remove_hash (lock_hash : Z) (keys : list (Z * bytes)) : list (Z * bytes) :=
  match keys with
  | [] => []
  | e :: keys => if e.1 =? lock_hash then keys else e :: remove_hash lock_hash keys
  end.

Definition locks_remove (l : Locks) (lock_hash : Z) : bool * Locks :=
  let keys := remove_hash lock_hash (lk_keys l) in
  (match keys with [] => true | _ => false end, mk_locks (lk_ts l) keys (lk_resource_group_tag l) (lk_last_detect_time l)).

(** [now.saturating_duration_since(last) >= ttl] *)
Definition locks_is_expired (l : Locks) (now ttl : Z) : bool := ttl <=? Z.max 0 (now - lk_last_detect_time l).

Record WaitForEntry := mk_entry {
  we_txn : TimeStamp;
  we_wait_for_txn : TimeStamp;
  we_key_hash : Z;
  we_key : bytes;
  we_resource_group_tag : bytes
}.

(** [self.keys[0]] *)
Definition first_key (l : Locks) : res unit (Z * bytes) := match lk_keys l with k :: _ => Ok k | [] => Panic end.

Definition to_wait_for_entry (l : Locks) (waiter_ts : TimeStamp) : res unit WaitForEntry :=
  '(hash, key) ← first_key l; Ok (mk_entry waiter_ts (lk_ts l) hash key (lk_resource_group_tag l)).

(** ** The table *)

(** [txn_ts => (lock_ts => Locks)] *)
Definition WaitForMap : Type := gmap TimeStamp (gmap TimeStamp Locks).

Record DetectTable := mk_table {
  wait_for_map : WaitForMap;
  dt_ttl : Z;
  dt_last_active_expire : Z;
  dt_now : Z
}.

Definition table_new (ttl now : Z) : DetectTable := mk_table ∅ ttl now now.

Definition set_map (d : DetectTable) (g : WaitForMap) : DetectTable :=
  mk_table g (dt_ttl d) (dt_last_active_expire d) (dt_now d).

(** [wait_for.retain(|_, locks| !locks.is_expired(now, ttl))] *)
Definition retain_live (now ttl : Z) (wait_for : gmap TimeStamp Locks) : gmap TimeStamp Locks :=
  filter (fun e => locks_is_expired e.2 now ttl = false) wait_for.

Definition ACTIVE_EXPIRE_THRESHOLD : Z := 100000.
Definition ACTIVE_EXPIRE_INTERVAL : Z := 3600 * 10 ^ 9.

Definition active_expire (d : DetectTable) : DetectTable :=
  if (ACTIVE_EXPIRE_THRESHOLD <=? Z.of_nat (size (wait_for_map d)))
     && (ACTIVE_EXPIRE_INTERVAL <=? Z.max 0 (dt_now d - dt_last_active_expire d))
  then
    mk_table (filter (fun e => bool_decide (e.2 = ∅) = false) (retain_live (dt_now d) (dt_ttl d) <$> wait_for_map d))
      (dt_ttl d) (dt_now d) (dt_now d)
  else d.

Definition register_if_existed (d : DetectTable) (txn_ts lock_ts : TimeStamp) (lock_hash : Z) (key tag : bytes) :
    option DetectTable :=
  match wait_for_map d !! txn_ts with
  | Some wait_for =>
      match wait_for !! lock_ts with
      | Some locks =>
          let locks := locks_push locks lock_hash key (dt_now d) in
          let locks := mk_locks (lk_ts locks) (lk_keys locks) tag (lk_last_detect_time locks) in
          Some (set_map d (<[txn_ts := <[lock_ts := locks]> wait_for]> (wait_for_map d)))
      | None => None
      end
  | None => None
  end.

Definition register (d : DetectTable) (txn_ts lock_ts : TimeStamp) (lock_hash : Z) (key tag : bytes) : res unit DetectTable :=
  let wait_for := default ∅ (wait_for_map d !! txn_ts) in
  rassert (bool_decide (wait_for !! lock_ts = None))
    (let locks := locks_new lock_ts lock_hash key tag (dt_now d) in
     Ok (set_map d (<[txn_ts := <[lk_ts locks := locks]> wait_for]> (wait_for_map d)))).

Definition clean_up_wait_for (d : DetectTable) (txn_ts digest_ts : TimeStamp) (digest_hash : Z) : DetectTable :=
  match wait_for_map d !! txn_ts with
  | Some wait_for =>
      match wait_for !! digest_ts with
      | Some locks =>
          let '(empty, locks) := locks_remove locks digest_hash in
          if empty : bool then
            let wait_for := delete digest_ts wait_for in
            set_map d (if bool_decide (wait_for = ∅) then delete txn_ts (wait_for_map d)
                       else <[txn_ts := wait_for]> (wait_for_map d))
          else set_map d (<[txn_ts := <[digest_ts := locks]> wait_for]> (wait_for_map d))
      | None => d
      end
  | None => d
  end.

Definition clean_up (d : DetectTable) (txn_ts : TimeStamp) : DetectTable := set_map d (delete txn_ts (wait_for_map d)).
Definition table_clear (d : DetectTable) : DetectTable := set_map d ∅.
Definition reset_ttl (d : DetectTable) (ttl : Z) : DetectTable :=
  mk_table (wait_for_map d) ttl (dt_last_active_expire d) (dt_now d).

(** ** The search *)

(** The loop of [generate_wait_chain]; the entries are in the order of the
    chain. Out of fuel counts as a panic. *)
Fixpoint chain_loop (fuel : nat) (g : WaitForMap) (start : TimeStamp) (pushed : gmap TimeStamp TimeStamp)
    (lock_ts : TimeStamp) (wait_chain : list WaitForEntry) : res unit (list WaitForEntry) :=
  match fuel with
  | O => Panic
  | S fuel =>
      match pushed !! lock_ts with
      | None => Panic
      | Some waiter_ts =>
          if ts_is_zero waiter_ts then rassert (lock_ts =? start) (Ok wait_chain)
          else
            match g !! waiter_ts with
            | None => Panic
            | Some wait_for =>
                match wait_for !! lock_ts with
                | None => Panic
                | Some locks =>
                    entry ← to_wait_for_entry locks waiter_ts;
                    chain_loop fuel g start pushed waiter_ts (entry :: wait_chain)
                end
            end
      end
  end.

Definition generate_wait_chain (g : WaitForMap) (start end_ : TimeStamp) (pushed : gmap TimeStamp TimeStamp) :
    res unit (list WaitForEntry) :=
  chain_loop (S (size pushed)) g start pushed end_ [].

(** The loop over the edges of [curr_ts]: the edge that closes the cycle, or
    the stack with the vertices not met before. *)
Fixpoint scan_edges (txn_ts curr_ts : TimeStamp) (es : list (TimeStamp * Locks)) (stack : list TimeStamp)
    (pushed : gmap TimeStamp TimeStamp) : (Locks * gmap TimeStamp TimeStamp) + (list TimeStamp * gmap TimeStamp TimeStamp) :=
  match es with
  | [] => inr (stack, pushed)
  | (lock_ts, locks) :: es =>
      if lock_ts =? txn_ts then inl (locks, pushed)
      else
        match pushed !! lock_ts with
        | Some _ => scan_edges txn_ts curr_ts es stack pushed
        | None => scan_edges txn_ts curr_ts es (lock_ts :: stack) (<[lock_ts := curr_ts]> pushed)
        end
  end.

Section Search.
  (** A hash map is iterated in an order of its own. *)
  Context (iter : gmap TimeStamp Locks -> list (TimeStamp * Locks)).

(** The top of the stack is the head of the list. *)
Fixpoint detect_loop (fuel : nat) (now ttl : Z) (txn_ts wait_for_ts : TimeStamp) (g : WaitForMap) (stack : list TimeStamp)
    (pushed : gmap TimeStamp TimeStamp) : res unit (option (Z * list WaitForEntry) * WaitForMap) :=
  match stack with
  | [] => Ok (None, g)
  | curr_ts :: stack =>
      match fuel with
      | O => Panic
      | S fuel =>
          match g !! curr_ts with
          | None => detect_loop fuel now ttl txn_ts wait_for_ts g stack pushed
          | Some wait_for =>
              let wait_for := retain_live now ttl wait_for in
              if bool_decide (wait_for = ∅) then
                detect_loop fuel now ttl txn_ts wait_for_ts (delete curr_ts g) stack pushed
              else
                let g := <[curr_ts := wait_for]> g in
                match scan_edges txn_ts curr_ts (iter wait_for) stack pushed with
                | inl (locks, pushed) =>
                    '(hash, _) ← first_key locks;
                    last_entry ← to_wait_for_entry locks curr_ts;
                    wait_chain ← generate_wait_chain g wait_for_ts curr_ts pushed;
                    Ok (Some (hash, wait_chain ++ [last_entry]), g)
                | inr (stack, pushed) => detect_loop fuel now ttl txn_ts wait_for_ts g stack pushed
                end
          end
      end
  end.

(** The transactions that are waited for: no other can be pushed. *)
Definition waited_for (g : WaitForMap) : gset TimeStamp := map_fold (fun _ wait_for acc => dom wait_for ∪ acc) ∅ g.

Definition do_detect (d : DetectTable) (txn_ts wait_for_ts : TimeStamp) :
    res unit (option (Z * list WaitForEntry) * DetectTable) :=
  '(r, g) ← detect_loop (S (size (waited_for (wait_for_map d)))) (dt_now d) (dt_ttl d) txn_ts wait_for_ts (wait_for_map d)
              [wait_for_ts] {[ wait_for_ts := ts_zero ]};
  Ok (r, set_map d g).

Definition detect (d : DetectTable) (now : Z) (txn_ts lock_ts : TimeStamp) (lock_hash : Z) (lock_key tag : bytes) :
    res unit (option (Z * list WaitForEntry) * DetectTable) :=
  let d := active_expire (mk_table (wait_for_map d) (dt_ttl d) (dt_last_active_expire d) now) in
  match register_if_existed d txn_ts lock_ts lock_hash lock_key tag with
  | Some d => Ok (None, d)
  | None =>
      '(r, d) ← do_detect d txn_ts lock_ts;
      match r with
      | Some deadlock => Ok (Some deadlock, d)
      | None => d ← register d txn_ts lock_ts lock_hash lock_key tag; Ok (None, d)
      end
  end.

(** ** Requests *)

Inductive Role := Leader | Follower.
#[export] Instance Role_eq_dec : EqDecision Role.
Proof. solve_decision. Defined.

Inductive DetectType := Detect | CleanUpWaitFor | CleanUp.

(** What a request says: who waits for whom, and on which key. *)
Record DeadlockRequest := mk_request { rq_tp : DetectType; rq_entry : WaitForEntry }.

Record DeadlockResponse := mk_response {
  rs_entry : WaitForEntry;
  rs_deadlock_key_hash : Z;
  rs_wait_chain : list WaitForEntry
}.

Record Detector := mk_detector { dr_role : Role; dr_table : DetectTable }.

(** One request of the stream, in [handle_detect_rpc]; [Err] is "leader
    changed". *)
Definition handle_rpc (dr : Detector) (now : Z) (req : DeadlockRequest) : res unit (option DeadlockResponse * Detector) :=
  if bool_decide (dr_role dr = Leader) then
    let e := rq_entry req in
    match rq_tp req with
    | Detect =>
        '(r, d) ← detect (dr_table dr) now (we_txn e) (we_wait_for_txn e) (we_key_hash e) (we_key e) (we_resource_group_tag e);
        Ok (match r with Some (hash, wait_chain) => Some (mk_response e hash wait_chain) | None => None end,
            mk_detector (dr_role dr) d)
    | CleanUpWaitFor =>
        Ok (None, mk_detector (dr_role dr) (clean_up_wait_for (dr_table dr) (we_txn e) (we_wait_for_txn e) (we_key_hash e)))
    | CleanUp => Ok (None, mk_detector (dr_role dr) (clean_up (dr_table dr) (we_txn e)))
    end
  else Err tt.

(** [handle_detect_locally]: the deadlock reported to the waiter manager, its
    chain completed with the request's own edge. *)
Definition handle_detect_locally (d : DetectTable) (now : Z) (req : DeadlockRequest) :
    res unit (option (Z * list WaitForEntry) * DetectTable) :=
  let e := rq_entry req in
  match rq_tp req with
  | Detect =>
      '(r, d) ← detect d now (we_txn e) (we_wait_for_txn e) (we_key_hash e) (we_key e) (we_resource_group_tag e);
      Ok (match r with Some (hash, wait_chain) => Some (hash, wait_chain ++ [e]) | None => None end, d)
  | CleanUpWaitFor => Ok (None, clean_up_wait_for d (we_txn e) (we_wait_for_txn e) (we_key_hash e))
  | CleanUp => Ok (None, clean_up d (we_txn e))
  end.

(** [change_role] *)
Definition change_role (dr : Detector) (role : Role) : Detector := mk_detector role (table_clear (dr_table dr)).

(** Transactions have timestamps other than zero, and none waits for itself. *)
Definition request_ok (req : DeadlockRequest) : Prop :=
  we_txn (rq_entry req) <> 0 /\ we_wait_for_txn (rq_entry req) <> 0 /\ we_txn (rq_entry req) <> we_wait_for_txn (rq_entry req).

Inductive detector_step : Detector -> Detector -> Prop :=
| det_rpc dr now req r dr' : request_ok req -> handle_rpc dr now req = Ok (r, dr') -> detector_step dr dr'
| det_local dr now req r d : dr_role dr = Leader -> request_ok req ->
    handle_detect_locally (dr_table dr) now req = Ok (r, d) -> detector_step dr (mk_detector (dr_role dr) d)
| det_role dr role : detector_step dr (change_role dr role)
| det_ttl dr ttl : detector_step dr (mk_detector (dr_role dr) (reset_ttl (dr_table dr) ttl)).

(** ** The graph *)

Definition edge (g : WaitForMap) (a b : TimeStamp) (l : Locks) : Prop := exists wait_for, g !! a = Some wait_for /\ wait_for !! b = Some l.

(** [a] waits for [b] by an edge of the table. *)
Definition waits (g : WaitForMap) (a b : TimeStamp) : Prop := exists l, edge g a b l.

(** ... by one that has not expired. *)
Definition waits_live (now ttl : Z) (g : WaitForMap) (a b : TimeStamp) : Prop :=
  exists l, edge g a b l /\ locks_is_expired l now ttl = false.

Record graph_ok (g : WaitForMap) : Prop := {
  go_edges : forall a b l, edge g a b l -> a <> 0 /\ b <> 0 /\ lk_ts l = b /\ lk_keys l <> [];
  go_acyclic : forall a, ~ tc (waits g) a a
}.

(** A table with fewer edges, every one as it was but for its keys and times. *)
Definition fewer (g g' : WaitForMap) : Prop := forall a b l, edge g' a b l -> edge g a b l.

Lemma tc_mono {A} (R R' : A -> A -> Prop) x y : (forall a b, R a b -> R' a b) -> tc R x y -> tc R' x y.
Proof using. intros H. induction 1; [apply tc_once; auto|eapply tc_l; eauto]. Qed.

Lemma fewer_ok g g' : fewer g g' -> graph_ok g -> graph_ok g'.
Proof using.
  intros Hf [He Ha]. split; [eauto|]. intros a H. apply (Ha a). eapply tc_mono; [|exact H].
  intros x y [l Hl]. exists l. auto.
Qed.

(** *** The effect of the updates on the edges *)

Lemma edge_insert g a wait_for x y l :
  edge (<[a := wait_for]> g) x y l <-> (x = a /\ wait_for !! y = Some l) \/ (x <> a /\ edge g x y l).
Proof using.
  unfold edge. destruct (decide (x = a)) as [->|Hne].
  - setoid_rewrite lookup_insert_eq. split; [intros (w & [= <-] & H); auto|intros [[_ H]|[? _]]; [eauto|done]].
  - setoid_rewrite lookup_insert_ne; [|done]. split; [auto|intros [[? _]|[_ H]]; [done|done]].
Qed.

Lemma edge_delete g a x y l : edge (delete a g) x y l <-> x <> a /\ edge g x y l.
Proof using.
  unfold edge. destruct (decide (x = a)) as [->|Hne].
  - setoid_rewrite lookup_delete_eq. split; [intros (w & [=] & _)|intros [? _]; done].
  - setoid_rewrite lookup_delete_ne; [|done]. split; [auto|intros [_ H]; done].
Qed.

Lemma retain_live_lookup now ttl w y l : retain_live now ttl w !! y = Some l <-> w !! y = Some l /\ locks_is_expired l now ttl = false.
Proof using. unfold retain_live. rewrite map_lookup_filter_Some. done. Qed.

(** What the search does to the table at a vertex. *)
Definition purge (now ttl : Z) (g : WaitForMap) (a : TimeStamp) : WaitForMap :=
  match g !! a with
  | Some w => let w := retain_live now ttl w in if bool_decide (w = ∅) then delete a g else <[a := w]> g
  | None => g
  end.

Lemma edge_purge now ttl g a x y l :
  edge (purge now ttl g a) x y l <-> edge g x y l /\ (x = a -> locks_is_expired l now ttl = false).
Proof using.
  unfold purge. destruct (g !! a) as [w|] eqn:E.
  - case_bool_decide as Hw.
    + rewrite edge_delete. split; [by intros [? ?]|]. intros [H Hx]. split; [|done]. intros ->. destruct H as (w' & Hw' & Hy).
      rewrite E in Hw'. injection Hw' as <-.
      assert (retain_live now ttl w !! y = Some l) as H' by (apply retain_live_lookup; auto). rewrite Hw in H'. by rewrite lookup_empty in H'.
    + rewrite edge_insert, retain_live_lookup. split.
      * intros [(-> & H & ?)|[? H]]; [split; [by exists w|done]|split; [done|by intros ->]].
      * intros [H Hx]. destruct (decide (x = a)) as [->|]; [left|by right]. destruct H as (w' & Hw' & H). rewrite E in Hw'.
        injection Hw' as <-. auto.
  - split; [|by intros [? _]]. intros H. split; [done|]. intros ->. destruct H as (w & Hw & _). congruence.
Qed.

Lemma edge_expire d a b l : edge (wait_for_map (active_expire d)) a b l -> edge (wait_for_map d) a b l.
Proof using.
  unfold active_expire. destruct (_ && _); [|done]. cbn. intros (w & [Hw _]%map_lookup_filter_Some & Hl).
  apply lookup_fmap_Some in Hw as (w0 & <- & E).
  apply retain_live_lookup in Hl as [? _]. exists w0. auto.
Qed.

Lemma live_expire d a b : waits_live (dt_now d) (dt_ttl d) (wait_for_map (active_expire d)) a b <->
  waits_live (dt_now d) (dt_ttl d) (wait_for_map d) a b.
Proof using.
  split; intros (l & He & Hl); exists l; (split; [|done]); [by apply edge_expire|].
  unfold active_expire. destruct (_ && _); [|done]. cbn. destruct He as (w & Hw & Hb).
  assert (retain_live (dt_now d) (dt_ttl d) w !! b = Some l) as Hr by (by apply retain_live_lookup).
  exists (retain_live (dt_now d) (dt_ttl d) w). split; [|done]. apply map_lookup_filter_Some.
  split; [apply lookup_fmap_Some; eauto|].
  cbn. apply bool_decide_eq_false. intros E. rewrite E in Hr. by rewrite lookup_empty in Hr.
Qed.

(** ** The search is right *)

Section Found.
  Context (now ttl : Z) (start txn : TimeStamp).

(** The vertices from [v] back to the start of the search. *)
Inductive pred_path (pushed : gmap TimeStamp TimeStamp) : TimeStamp -> list TimeStamp -> Prop :=
| pp_start : pushed !! start = Some 0 -> pred_path pushed start []
| pp_step v p l : pushed !! v = Some p -> p <> 0 -> pred_path pushed p l -> pred_path pushed v (p :: l).

(** The predecessors are a tree of live edges. *)
Record tree (g : WaitForMap) (pushed : gmap TimeStamp TimeStamp) : Prop := {
  tr_start : pushed !! start = Some 0;
  tr_path : forall v p, pushed !! v = Some p -> v <> 0 /\ exists l, pred_path pushed v l /\ (length l < size pushed)%nat;
  tr_live : forall v p, pushed !! v = Some p -> p <> 0 -> waits_live now ttl g p v
}.

Lemma pred_path_insert pushed b c v l : pushed !! b = None -> pred_path pushed v l -> pred_path (<[b := c]> pushed) v l.
Proof using.
  intros Hb. induction 1 as [H|v p l H Hp _ IH].
  - apply pp_start. rewrite lookup_insert_ne; [done|congruence].
  - apply pp_step; [|done|done]. rewrite lookup_insert_ne; [done|congruence].
Qed.

Lemma tree_add g pushed curr b : tree g pushed -> is_Some (pushed !! curr) -> pushed !! b = None -> b <> 0 ->
  waits_live now ttl g curr b -> tree g (<[b := curr]> pushed).
Proof using.
  intros [Hs Hp Hl] [p Hc] Hb Hb0 Hlive. destruct (Hp curr p Hc) as (Hc0 & lc & Hlc & Hlen).
  pose proof (map_size_insert_None (M := gmap TimeStamp) b curr pushed Hb) as Hsz. split.
  - rewrite lookup_insert_ne; [done|congruence].
  - intros v q [[<- <-]|[Hne Hv]]%lookup_insert_Some.
    + split; [done|]. exists (curr :: lc). split; [|cbn; lia].
      apply pp_step; [apply lookup_insert_eq|done|by apply pred_path_insert].
    + destruct (Hp v q Hv) as (Hv0 & l & Hpl & Hlt). split; [done|]. exists l. split; [by apply pred_path_insert|lia].
  - intros v q [[<- <-]|[Hne Hv]]%lookup_insert_Some Hq; [done|by apply Hl].
Qed.

Lemma live_purge g a x y : waits_live now ttl (purge now ttl g a) x y <-> waits_live now ttl g x y.
Proof using.
  split; intros (l & He & Hl); exists l; (split; [|done]); apply edge_purge in He || apply edge_purge; [by destruct He|done].
Qed.

Lemma tree_purge g a pushed : tree g pushed -> tree (purge now ttl g a) pushed.
Proof using. intros [Hs Hp Hl]. split; [done|done|]. intros v p Hv Hp0. apply live_purge. by apply Hl. Qed.

(** *** The chain *)

(** The entries are a path of live edges from [a] to [b]. *)
Fixpoint chain_from (g : WaitForMap) (a : TimeStamp) (es : list WaitForEntry) (b : TimeStamp) : Prop :=
  match es with
  | [] => a = b
  | e :: es =>
      we_txn e = a /\
      (exists l, edge g a (we_wait_for_txn e) l /\ locks_is_expired l now ttl = false /\
         head (lk_keys l) = Some (we_key_hash e, we_key e) /\ we_resource_group_tag e = lk_resource_group_tag l) /\
      chain_from g (we_wait_for_txn e) es b
  end.

Lemma chain_from_app g a es1 c es2 b : chain_from g a es1 c -> chain_from g c es2 b -> chain_from g a (es1 ++ es2) b.
Proof using. revert a. induction es1 as [|e es1 IH]; intros a; cbn; [by intros ->|]. intros (? & ? & ?) ?. auto. Qed.

Lemma chain_from_fewer g g' a es b : fewer g g' -> chain_from g' a es b -> chain_from g a es b.
Proof using.
  intros Hf. revert a. induction es as [|e es IH]; intros a; cbn; [done|]. intros (? & (l & ? & ? & ? & ?) & ?).
  split; [done|]. split; [|auto]. exists l. auto.
Qed.

Lemma chain_from_tc g a es b : chain_from g a es b -> es <> [] -> tc (waits_live now ttl g) a b.
Proof using.
  revert a. induction es as [|e es IH]; intros a; [done|]. intros (_ & (l & He & Hl & _) & Hr) _.
  assert (waits_live now ttl g a (we_wait_for_txn e)) as H1 by (exists l; auto).
  destruct es as [|e' es]; [cbn in Hr; subst; by apply tc_once|]. eapply tc_l; [exact H1|]. by apply IH.
Qed.

Lemma entry_chain g a b l : graph_ok g -> edge g a b l -> locks_is_expired l now ttl = false ->
  exists e, to_wait_for_entry l a = Ok e /\ chain_from g a [e] b /\ first_key l = Ok (we_key_hash e, we_key e).
Proof using.
  intros [Hok _] He Hl. destruct (Hok a b l He) as (_ & _ & Hts & Hk). unfold to_wait_for_entry, first_key.
  destruct (lk_keys l) as [|[h k] ks] eqn:E; [done|]. eexists. split; [reflexivity|]. split; [|done]. cbn. split; [done|].
  rewrite Hts. split; [|done]. exists l. rewrite E. auto.
Qed.

Lemma chain_loop_path g pushed : graph_ok g -> tree g pushed -> forall v l, pred_path pushed v l -> forall fuel acc,
  (length l < fuel)%nat -> exists c, chain_loop fuel g start pushed v acc = Ok (c ++ acc) /\ chain_from g start c v.
Proof using.
  intros Hg [Hs Hp Hlive]. induction 1 as [H|v p l H Hp0 Hpath IH]; intros [|fuel] acc Hf; try (cbn in Hf; lia); cbn [chain_loop]; rewrite H.
  - cbn. rewrite Z.eqb_refl. exists []. done.
  - unfold ts_is_zero. rewrite (proj2 (Z.eqb_neq p 0) Hp0). destruct (Hlive v p H Hp0) as (lk & He & Hx).
    destruct (entry_chain g p v lk Hg He Hx) as (e & Hte & Hc & _). destruct He as (w & Hw & Hlk). rewrite Hw, Hlk, Hte. cbn.
    destruct (IH fuel (e :: acc)) as (c & -> & Hcf); [cbn in Hf; lia|]. exists (c ++ [e]).
    split; [by rewrite <- app_assoc|]. by eapply chain_from_app.
Qed.

Lemma wait_chain_path g pushed v : graph_ok g -> tree g pushed -> is_Some (pushed !! v) ->
  exists c, generate_wait_chain g start v pushed = Ok c /\ chain_from g start c v.
Proof using.
  intros Hg Ht [p Hv]. destruct (tr_path g pushed Ht v p Hv) as (_ & l & Hpath & Hlen). unfold generate_wait_chain.
  destruct (chain_loop_path g pushed Hg Ht v l Hpath (S (size pushed)) []) as (c & -> & Hc); [lia|]. exists c. by rewrite app_nil_r.
Qed.

(** *** One vertex *)

(** The vertices still to push, of those waited for. *)
Definition unmet (V : gset TimeStamp) (pushed : gmap TimeStamp TimeStamp) : nat := size (V ∖ dom pushed).

Lemma unmet_insert V pushed b c : b ∈ V -> pushed !! b = None -> (S (unmet V (<[b := c]> pushed)) = unmet V pushed)%nat.
Proof using.
  intros HV Hb. unfold unmet. assert (b ∉ dom pushed) as Hd by (by apply not_elem_of_dom).
  replace (V ∖ dom pushed) with ({[b]} ∪ V ∖ dom (<[b := c]> pushed)).
  - rewrite (size_union {[b]}), size_singleton by (rewrite dom_insert_L; set_solver). done.
  - rewrite dom_insert_L. apply set_eq. intros x. destruct (decide (x = b)); set_solver.
Qed.

(** What the loop over the edges of [curr] leaves behind. *)
Record scanned (V : gset TimeStamp) (g : WaitForMap) (es : list (TimeStamp * Locks)) (stack stack' : list TimeStamp)
    (pushed pushed' : gmap TimeStamp TimeStamp) : Prop := {
  sn_tree : tree g pushed';
  sn_met : forall b l, (b, l) ∈ es -> b <> txn /\ is_Some (pushed' !! b);
  sn_kept : forall v, is_Some (pushed !! v) -> is_Some (pushed' !! v);
  sn_stack : forall v, v ∈ stack' -> v ∈ stack \/ is_Some (pushed' !! v);
  sn_stack_kept : forall v, v ∈ stack -> v ∈ stack';
  sn_new : forall v, is_Some (pushed' !! v) -> is_Some (pushed !! v) \/ v ∈ stack';
  sn_size : (length stack' + unmet V pushed' = length stack + unmet V pushed)%nat
}.

Lemma scan_edges_spec V g curr es : forall stack pushed,
  tree g pushed -> is_Some (pushed !! curr) ->
  (forall b l, (b, l) ∈ es -> b ∈ V /\ b <> 0 /\ edge g curr b l /\ locks_is_expired l now ttl = false) ->
  match scan_edges txn curr es stack pushed with
  | inl (l, pushed') => edge g curr txn l /\ locks_is_expired l now ttl = false /\ tree g pushed' /\ is_Some (pushed' !! curr)
  | inr (stack', pushed') => scanned V g es stack stack' pushed pushed'
  end.
Proof using.
  induction es as [|[b l] es IH]; intros stack pushed Ht Hc Hes; cbn [scan_edges].
  { split; try done; auto. by intros b l ?%elem_of_nil. }
  destruct (Hes b l ltac:(left)) as (HV & Hb0 & He & Hx).
  assert (forall b l, (b, l) ∈ es -> b ∈ V /\ b <> 0 /\ edge g curr b l /\ locks_is_expired l now ttl = false) as Hes'.
  { intros b' l' Hin. apply Hes. by right. }
  destruct (Z.eqb_spec b txn) as [->|Hne]; [done|]. destruct (pushed !! b) as [p|] eqn:Hb.
  - specialize (IH stack pushed Ht Hc Hes'). destruct (scan_edges txn curr es stack pushed) as [[? ?]|[stack' pushed']]; [done|].
    destruct IH as [H1 H2 H3 H4 H5 H6 H7]. split; try done. intros b' l' [[= -> ->]|Hin]%elem_of_cons; [|by eapply H2].
    split; [done|]. apply H3. eauto.
  - assert (tree g (<[b := curr]> pushed)) as Ht' by (apply tree_add; try done; by exists l).
    assert (is_Some (<[b := curr]> pushed !! curr)) as Hc'.
    { destruct (decide (curr = b)) as [->|]; [rewrite lookup_insert_eq; eauto|by rewrite lookup_insert_ne]. }
    specialize (IH (b :: stack) _ Ht' Hc' Hes').
    destruct (scan_edges txn curr es (b :: stack) (<[b := curr]> pushed)) as [[? ?]|[stack' pushed']]; [done|].
    destruct IH as [H1 H2 H3 H4 H5 H6 H7].
    assert (is_Some (pushed' !! b)) as Hb' by (apply H3; rewrite lookup_insert_eq; eauto). split.
    + done.
    + intros b' l' [[= -> ->]|Hin]%elem_of_cons; [done|by eapply H2].
    + intros v Hv. apply H3. destruct (decide (v = b)) as [->|]; [rewrite lookup_insert_eq; eauto|by rewrite lookup_insert_ne].
    + intros v [[->|?]%elem_of_cons|?]%H4; auto.
    + intros v Hv. apply H5. by right.
    + intros v [Hv|?]%H6; [|by right]. destruct (decide (v = b)) as [->|]; [right; apply H5; left|].
      rewrite lookup_insert_ne in Hv by done. by left.
    + cbn in H7. pose proof (unmet_insert V pushed b curr HV Hb). lia.
Qed.

(** *** The search *)

  Hypothesis Hiter : forall m, iter m ≡ₚ map_to_list m.

Lemma elem_of_iter m b l : (b, l) ∈ iter m <-> m !! b = Some l.
Proof using Hiter. by rewrite Hiter, elem_of_map_to_list. Qed.

Record search_inv (V : gset TimeStamp) (g : WaitForMap) (stack : list TimeStamp) (pushed : gmap TimeStamp TimeStamp) : Prop := {
  si_ok : graph_ok g;
  si_V : forall a b l, edge g a b l -> b ∈ V;
  si_tree : tree g pushed;
  si_stack : forall v, v ∈ stack -> is_Some (pushed !! v);
  si_done : forall v, is_Some (pushed !! v) -> v ∉ stack -> forall b l, edge g v b l ->
    locks_is_expired l now ttl = false /\ b <> txn /\ is_Some (pushed !! b)
}.

(** What the search says of the table [g] it started on and the one it left. *)
Definition search_post (g : WaitForMap) (r : option (Z * list WaitForEntry)) (g' : WaitForMap) : Prop :=
  fewer g g' /\ (forall a b, waits_live now ttl g a b -> waits_live now ttl g' a b) /\
  match r with
  | Some (hash, chain) => chain_from g start chain txn /\ exists e, last chain = Some e /\ we_key_hash e = hash
  | None => ~ tc (waits g') start txn
  end.

Lemma search_post_purge g a r g' : search_post (purge now ttl g a) r g' -> search_post g r g'.
Proof using.
  intros (Hf & Hl & Hr). assert (fewer g (purge now ttl g a)) as Hf0.
  { intros x y l H. by apply edge_purge in H as [? _]. }
  split; [intros x y l H; by apply Hf0, Hf|]. split; [intros x y H; by apply Hl, live_purge|].
  destruct r as [[hash chain]|]; [|done]. destruct Hr as [Hc He]. split; [|done]. by eapply chain_from_fewer.
Qed.

Lemma search_closed g (pushed : gmap TimeStamp TimeStamp) u v : (forall v, is_Some (pushed !! v) -> forall b l, edge g v b l -> b <> txn /\ is_Some (pushed !! b)) ->
  tc (waits g) u v -> is_Some (pushed !! u) -> v <> txn.
Proof using.
  intros Hc. induction 1 as [u v [l H]|u w v [l H] _ IH]; intros Hu; [by destruct (Hc u Hu v l H)|].
  apply IH. by destruct (Hc u Hu w l H).
Qed.

(** After the vertex [curr] is popped and its expired edges removed. *)
Lemma search_pop V g curr stack pushed : search_inv V g (curr :: stack) pushed ->
  graph_ok (purge now ttl g curr) /\ (forall a b l, edge (purge now ttl g curr) a b l -> b ∈ V) /\
  tree (purge now ttl g curr) pushed /\ is_Some (pushed !! curr) /\ (forall v, v ∈ stack -> is_Some (pushed !! v)) /\
  (forall v, is_Some (pushed !! v) -> v ∉ curr :: stack -> forall b l, edge (purge now ttl g curr) v b l ->
    locks_is_expired l now ttl = false /\ b <> txn /\ is_Some (pushed !! b)).
Proof using.
  intros [Hok HV Ht Hs Hd]. assert (fewer g (purge now ttl g curr)) as Hf.
  { intros x y l H. by apply edge_purge in H as [? _]. }
  split; [by eapply fewer_ok|]. split; [intros a b l H; by eapply HV, Hf|]. split; [by apply tree_purge|].
  split; [apply Hs; left|]. split; [intros v Hv; apply Hs; by right|]. intros v Hv Hn b l H. apply (Hd v Hv Hn b l). by apply Hf.
Qed.

(** A vertex without edges. *)
Lemma search_skip V g curr stack pushed : search_inv V g (curr :: stack) pushed ->
  (forall b l, ~ edge (purge now ttl g curr) curr b l) -> search_inv V (purge now ttl g curr) stack pushed.
Proof using.
  intros (Hok & HV & Ht & Hc & Hs & Hd)%search_pop Hno. split; try done. intros v Hv Hn b l H.
  destruct (decide (v = curr)) as [->|]; [by apply Hno in H|]. apply (Hd v Hv); [|done]. by intros [?|?]%elem_of_cons.
Qed.

Lemma search_scan V g curr stack pushed w : search_inv V g (curr :: stack) pushed -> purge now ttl g curr !! curr = Some w ->
  match scan_edges txn curr (iter w) stack pushed with
  | inl (l, pushed') => edge (purge now ttl g curr) curr txn l /\ locks_is_expired l now ttl = false /\
      tree (purge now ttl g curr) pushed' /\ is_Some (pushed' !! curr)
  | inr (stack', pushed') => search_inv V (purge now ttl g curr) stack' pushed' /\
      (length stack' + unmet V pushed' = length stack + unmet V pushed)%nat
  end.
Proof using Hiter.
  intros (Hok & HV & Ht & Hc & Hs & Hd)%search_pop Hw. set (g1 := purge now ttl g curr) in *.
  assert (forall b l, (b, l) ∈ iter w -> edge g1 curr b l) as Hedge.
  { intros b l Hin. apply elem_of_iter in Hin. by exists w. }
  pose proof (scan_edges_spec V g1 curr (iter w) stack pushed Ht Hc) as H.
  destruct (scan_edges txn curr (iter w) stack pushed) as [[l pushed']|[stack' pushed']].
  - apply H. intros b l0 Hin%Hedge. split; [by eapply HV|]. destruct (go_edges g1 Hok _ _ _ Hin) as (_ & ? & _).
    apply edge_purge in Hin as He. destruct He as [_ He]. auto.
  - destruct H as [H1 H2 H3 H4 H5 H6 H7].
    { intros b l0 Hin%Hedge. split; [by eapply HV|]. destruct (go_edges g1 Hok _ _ _ Hin) as (_ & ? & _).
      apply edge_purge in Hin as He. destruct He as [_ He]. auto. }
    split; [|done]. split; try done.
    + intros v [Hv|?]%H4; [by apply H3, Hs|done].
    + intros v Hv Hn b l He. destruct (decide (v = curr)) as [->|Hne].
      * apply edge_purge in He as Hx. destruct Hx as [_ Hx]. split; [by apply Hx|]. apply (H2 b l). apply elem_of_iter.
        destruct He as (w' & Hw' & Hb). congruence.
      * destruct (H6 v Hv) as [Hv'|?]; [|done]. destruct (Hd v Hv') with (b := b) (l := l) as (? & ? & ?); [|done|].
        { intros [?|Hin]%elem_of_cons; [done|]. by apply Hn, H5. }
        split; [done|]. split; [done|]. by apply H3.
Qed.

Lemma detect_loop_spec V : forall fuel g stack pushed, search_inv V g stack pushed -> (length stack + unmet V pushed <= fuel)%nat ->
  exists r g', detect_loop fuel now ttl txn start g stack pushed = Ok (r, g') /\ search_post g r g'.
Proof using Hiter.
  induction fuel as [|fuel IH]; intros g [|curr stack] pushed Hinv Hf; try (cbn in Hf; lia); cbn [detect_loop].
  1, 2: exists None, g; split; [done|]; split; [by intros a b l|]; split; [done|]; intros H;
    destruct Hinv as [_ _ Ht _ Hd]; apply (search_closed g pushed start txn) in H; [done| |rewrite (tr_start g pushed Ht); eauto];
    intros v Hv b l He; destruct (Hd v Hv) with (b := b) (l := l) as (_ & ? & ?); [apply not_elem_of_nil|done|done].
  pose proof (search_skip V g curr stack pushed Hinv) as Hskip. pose proof (fun w => search_scan V g curr stack pushed w Hinv) as Hscan.
  pose proof (search_post_purge g curr) as Hpost. destruct (search_pop V g curr stack pushed Hinv) as (Hok & _). cbn in Hf.
  unfold purge in Hskip, Hscan, Hpost, Hok. destruct (g !! curr) as [w|] eqn:Hw.
  - case_bool_decide as Hempty.
    + destruct (IH (delete curr g) stack pushed) as (r & g' & -> & Hp); [|lia|].
      { apply Hskip. intros b l [? _]%edge_delete. done. }
      exists r, g'. split; [done|]. by apply Hpost.
    + set (g1 := <[curr := retain_live now ttl w]> g) in *. specialize (Hscan (retain_live now ttl w)).
      destruct (scan_edges txn curr (iter (retain_live now ttl w)) stack pushed) as [[l pushed']|[stack' pushed']].
      * destruct Hscan as (He & Hl & Ht & Hc); [apply lookup_insert_eq|].
        destruct (entry_chain g1 curr txn l Hok He Hl) as (e & Hte & Hce & Hfk).
        destruct (wait_chain_path g1 pushed' curr Hok Ht Hc) as (c & Hwc & Hcf). rewrite Hfk, Hte. unfold mbind, res_bind. rewrite Hwc.
        eexists _, g1. split; [reflexivity|]. apply Hpost. split; [by intros a b l'|]. split; [done|].
        split; [by eapply chain_from_app|]. exists e. split; [apply last_snoc|done].
      * destruct Hscan as [Hinv' Hsz]; [apply lookup_insert_eq|]. destruct (IH g1 stack' pushed' Hinv') as (r & g' & -> & Hp); [lia|].
        exists r, g'. split; [done|]. by apply Hpost.
  - destruct (IH g stack pushed) as (r & g' & -> & Hp); [|lia|].
    { apply Hskip. intros b l (w & Hw' & _). congruence. }
    exists r, g'. done.
Qed.
End Found.

Lemma waited_for_spec (g : WaitForMap) a b l : edge g a b l -> b ∈ waited_for g.
Proof using.
  intros (w & Hw & Hb). unfold waited_for.
  apply (map_fold_weak_ind (fun acc m => m !! a = Some w -> b ∈ acc)) with (m := g); [|clear g Hw|done].
  - intros H. by apply lookup_empty_Some in H.
  - intros i w' m acc Hi IH [[-> ->]|[_ H]]%lookup_insert_Some; apply elem_of_union;
      [left; by eapply elem_of_dom_2|right; auto].
Qed.

  Hypothesis Hiter : forall m, iter m ≡ₚ map_to_list m.

Lemma do_detect_spec d txn_ts wait_for_ts : graph_ok (wait_for_map d) -> wait_for_ts <> 0 ->
  exists r g', do_detect d txn_ts wait_for_ts = Ok (r, set_map d g') /\
    search_post (dt_now d) (dt_ttl d) wait_for_ts txn_ts (wait_for_map d) r g'.
Proof using Hiter.
  intros Hok H0. set (V := waited_for (wait_for_map d)).
  destruct (detect_loop_spec (dt_now d) (dt_ttl d) wait_for_ts txn_ts Hiter V (S (size V)) (wait_for_map d) [wait_for_ts]
    {[ wait_for_ts := ts_zero ]}) as (r & g' & Hr & Hp).
  - split; [done|by intros a b l ?%waited_for_spec| | |].
    + split; [apply lookup_singleton_eq| |].
      * intros v p [<- <-]%lookup_singleton_Some. split; [done|]. exists []. split; [apply pp_start, lookup_singleton_eq|].
        rewrite map_size_singleton. cbn. lia.
      * by intros v p [<- <-]%lookup_singleton_Some.
    + intros v ->%list_elem_of_singleton. rewrite lookup_singleton_eq. eauto.
    + intros v [p [<- _]%lookup_singleton_Some] Hn. by destruct Hn; left.
  - unfold unmet. cbn [length]. apply le_n_S, subseteq_size. set_solver.
  - exists r, g'. unfold do_detect. fold V. rewrite Hr. done.
Qed.

(** ** The updates keep the graph *)

(** A cycle after adding an edge from [a] to [b] uses a path from [b] to [a]. *)
Lemma tc_add_edge {A} (R R' : A -> A -> Prop) a b x y :
  (forall x y, R' x y -> R x y \/ (x = a /\ y = b)) -> tc R' x y -> tc R x y \/ (rtc R x a /\ rtc R b y).
Proof using.
  intros H. induction 1 as [x y Hxy|x y z Hxy _ IH].
  - destruct (H x y Hxy) as [?|[-> ->]]; [left; by apply tc_once|right; split; apply rtc_refl].
  - destruct (H x y Hxy) as [Hr|[-> ->]].
    + destruct IH as [?|[? ?]]; [left; by eapply tc_l|right; split; [by eapply rtc_l|done]].
    + destruct IH as [?|[? ?]]; right; (split; [apply rtc_refl|]); [by apply tc_rtc|done].
Qed.

(** An update that keeps the ends of the edges. *)
Lemma same_ends_ok g g' : graph_ok g ->
  (forall a b l', edge g' a b l' -> exists l, edge g a b l /\ lk_ts l' = lk_ts l /\ (lk_keys l <> [] -> lk_keys l' <> [])) -> graph_ok g'.
Proof using.
  intros [He Ha] H. split.
  - intros a b l' Hl'. destruct (H a b l' Hl') as (l & Hl & Hts & Hk). destruct (He a b l Hl) as (? & ? & ? & ?).
    rewrite Hts. auto.
  - intros a Hc. apply (Ha a). eapply tc_mono; [|exact Hc]. intros x y [l' Hl']. destruct (H x y l' Hl') as (l & Hl & _). by exists l.
Qed.

Lemma locks_push_keys l h k now : lk_keys (locks_push l h k now) <> [] /\ h ∈ (lk_keys (locks_push l h k now)).*1.
Proof using.
  unfold locks_push. cbn. destruct (existsb _ _) eqn:E.
  - apply existsb_exists in E as (e & Hin & Heq%Z.eqb_eq). apply list_elem_of_In in Hin. subst. split.
    + intros E. rewrite E in Hin. by apply elem_of_nil in Hin.
    + by apply list_elem_of_fmap_2.
  - split; [by destruct (lk_keys l)|]. rewrite fmap_app. apply elem_of_app. right. left.
Qed.

Lemma register_if_existed_ok d txn lock h k tag d' : register_if_existed d txn lock h k tag = Some d' ->
  graph_ok (wait_for_map d) -> graph_ok (wait_for_map d') /\ waits (wait_for_map d) txn lock /\
  exists l, edge (wait_for_map d') txn lock l /\ h ∈ (lk_keys l).*1 /\ lk_last_detect_time l = dt_now d.
Proof using.
  unfold register_if_existed. destruct (wait_for_map d !! txn) as [w|] eqn:Hw; [|done].
  destruct (w !! lock) as [lk|] eqn:Hl; [|done]. intros [= <-] Hok. destruct (locks_push_keys lk h k (dt_now d)) as [Hne Hin]. split_and!.
  - apply (same_ends_ok (wait_for_map d)); [done|]. cbn. intros a b l' [[-> [[<- <-]|[? Hb]]%lookup_insert_Some]|[Hne' He]]%edge_insert.
    + exists lk. split; [by exists w|]. split; [done|]. intros _. exact Hne.
    + exists l'. split; [by exists w|done].
    + by exists l'.
  - exists lk. by exists w.
  - eexists. split; [apply edge_insert; left; split; [done|apply lookup_insert_eq]|]. done.
Qed.

Lemma register_ok d txn lock h k tag : graph_ok (wait_for_map d) -> txn <> 0 -> lock <> 0 -> txn <> lock ->
  ~ waits (wait_for_map d) txn lock -> ~ tc (waits (wait_for_map d)) lock txn ->
  exists d', register d txn lock h k tag = Ok d' /\ graph_ok (wait_for_map d') /\ dt_ttl d' = dt_ttl d /\
    edge (wait_for_map d') txn lock (locks_new lock h k tag (dt_now d)).
Proof using.
  intros [He Ha] Ht Hl Hne Hno Hpath. unfold register.
  assert (default ∅ (wait_for_map d !! txn) !! lock = None) as Hnone.
  { destruct (wait_for_map d !! txn) as [w|] eqn:Hw; cbn; [|apply lookup_empty]. destruct (w !! lock) as [l|] eqn:E; [|done].
    exfalso. apply Hno. exists l. by exists w. }
  rewrite bool_decide_eq_true_2 by done. eexists. split; [reflexivity|]. cbn [lk_ts locks_new set_map wait_for_map dt_ttl].
  set (g' := <[txn := _]> (wait_for_map d)).
  assert (forall x y l, edge g' x y l -> edge (wait_for_map d) x y l \/ (x = txn /\ y = lock /\ l = locks_new lock h k tag (dt_now d))) as Hg.
  { intros x y l [[-> [[<- <-]|[? Hb]]%lookup_insert_Some]|[_ ?]]%edge_insert; [by right| |by left].
    left. destruct (wait_for_map d !! txn) as [w|] eqn:Hw; cbn in Hb; [by exists w|by apply lookup_empty_Some in Hb]. }
  split_and!; [split|done|apply edge_insert; left; split; [done|apply lookup_insert_eq]].
  - intros a b l [Hab|(-> & -> & ->)]%Hg; [by apply He|]. cbn. done.
  - intros a Hc. apply (tc_add_edge (waits (wait_for_map d)) _ txn lock) in Hc.
    + destruct Hc as [Hc|[H1 H2]]; [by apply (Ha a)|]. assert (rtc (waits (wait_for_map d)) lock txn) as H by (by etrans).
      apply rtc_tc in H as [?|?]; [congruence|done].
    + intros x y [l [Hxy|(-> & -> & _)]%Hg]; [left; by exists l|by right].
Qed.

(** What a request for the edge from [txn] to [lock] does to the table [d]. *)
Definition detect_post (d : DetectTable) (now : Z) (txn lock : TimeStamp) (hash : Z)
    (r : option (Z * list WaitForEntry)) (d' : DetectTable) : Prop :=
  (is_Some r <-> tc (waits_live now (dt_ttl d) (wait_for_map d)) lock txn) /\
  (forall h chain, r = Some (h, chain) ->
     chain_from now (dt_ttl d) (wait_for_map d) lock chain txn /\ exists e, last chain = Some e /\ we_key_hash e = h) /\
  (r = None -> exists l, edge (wait_for_map d') txn lock l /\ hash ∈ (lk_keys l).*1 /\ lk_last_detect_time l = now).

Lemma live_waits now ttl g a b : tc (waits_live now ttl g) a b -> tc (waits g) a b.
Proof using. apply tc_mono. intros x y (l & H & _). by exists l. Qed.

Lemma not_existed d txn lock h k tag : register_if_existed d txn lock h k tag = None -> ~ waits (wait_for_map d) txn lock.
Proof using.
  unfold register_if_existed. intros H (l & w & Hw & Hl). rewrite Hw in H. cbn in H. by rewrite Hl in H.
Qed.

Lemma active_expire_time d : dt_now (active_expire d) = dt_now d /\ dt_ttl (active_expire d) = dt_ttl d.
Proof using. unfold active_expire. by destruct (_ && _). Qed.

Lemma detect_spec d now txn lock h k tag : graph_ok (wait_for_map d) -> txn <> 0 -> lock <> 0 -> txn <> lock ->
  exists r d', detect d now txn lock h k tag = Ok (r, d') /\ graph_ok (wait_for_map d') /\ detect_post d now txn lock h r d'.
Proof using Hiter.
  intros Hok Ht Hl Hne. set (d0 := mk_table (wait_for_map d) (dt_ttl d) (dt_last_active_expire d) now). unfold detect. fold d0.
  pose proof (edge_expire d0) as Hexp. pose proof (live_expire d0) as Hlive. destruct (active_expire_time d0) as [Hnow Httl].
  set (d1 := active_expire d0) in *. cbn in Hnow, Httl, Hlive.
  assert (graph_ok (wait_for_map d1)) as Hok1 by (by eapply fewer_ok).
  destruct (register_if_existed d1 txn lock h k tag) as [d2|] eqn:E.
  - destruct (register_if_existed_ok _ _ _ _ _ _ _ E Hok1) as (Hok2 & Hw & Hl'). exists None, d2. split; [done|]. split; [done|].
    split; [|split; [done|intros _; by rewrite <- Hnow]]. split; [by intros []|]. intros Hc%live_waits. exfalso.
    apply (go_acyclic _ Hok txn). eapply tc_l; [|exact Hc]. destruct Hw as [l Hw]. exists l. by apply Hexp.
  - destruct (do_detect_spec d1 txn lock Hok1 Hl) as (r & g' & Hr & Hf & Hkeep & Hp). rewrite Hnow, Httl in Hp, Hkeep.
    rewrite Hr. unfold mbind, res_bind. assert (graph_ok g') as Hok' by (by eapply fewer_ok). destruct r as [[hash chain]|].
    + exists (Some (hash, chain)), (set_map d1 g'). split; [done|]. split; [done|]. destruct Hp as [Hc He].
      assert (chain_from now (dt_ttl d) (wait_for_map d) lock chain txn) as Hc' by (eapply chain_from_fewer; [|exact Hc]; done).
      split; [|split; [intros ? ? [= <- <-]; done|done]]. split; [|eauto]. intros _. eapply chain_from_tc; [exact Hc'|].
      destruct He as (e & He & _). by destruct chain.
    + destruct (register_ok (set_map d1 g') txn lock h k tag) as (d2 & Hd2 & Hok2 & Httl2 & He2); try done.
      { intros (l & Hel). apply (not_existed _ _ _ _ _ _ E). exists l. by apply Hf. }
      exists None, d2. rewrite Hd2. split; [done|]. split; [done|]. split; [|split; [done|]].
      * split; [by intros []|]. intros Hc. exfalso. apply Hp. eapply tc_mono; [|exact Hc]. intros x y Hxy.
        apply Hlive, Hkeep in Hxy as (l & Hxy & _). by exists l.
      * intros _. eexists. split; [exact He2|]. split; [cbn; left|done].
Qed.

Lemma clean_up_ok d txn : graph_ok (wait_for_map d) -> graph_ok (wait_for_map (clean_up d txn)).
Proof using. apply fewer_ok. intros a b l. cbn. by intros [_ ?]%edge_delete. Qed.

Lemma remove_hash_keys h l : match remove_hash h (lk_keys l) with [] => true | _ => false end = false -> remove_hash h (lk_keys l) <> [].
Proof using. by destruct (remove_hash h (lk_keys l)). Qed.

Lemma clean_up_wait_for_ok d txn ts h : graph_ok (wait_for_map d) -> graph_ok (wait_for_map (clean_up_wait_for d txn ts h)).
Proof using.
  intros Hok. unfold clean_up_wait_for. destruct (wait_for_map d !! txn) as [w|] eqn:Hw; [|done].
  destruct (w !! ts) as [l|] eqn:Hl; [|done]. unfold locks_remove. pose proof (remove_hash_keys h l) as Hk.
  destruct (match remove_hash h (lk_keys l) with [] => true | _ => false end).
  - revert Hok. apply fewer_ok. intros a b lk. cbn. case_bool_decide.
    + by intros [_ ?]%edge_delete.
    + intros [[-> [_ Hb]%lookup_delete_Some]|[_ ?]]%edge_insert; [by exists w|done].
  - apply (same_ends_ok (wait_for_map d)); [done|]. cbn.
    intros a b l' [[-> [[<- <-]|[? Hb]]%lookup_insert_Some]|[Hne' He]]%edge_insert; cbn.
    + exists l. split; [by exists w|]. split; [done|]. intros _. by apply Hk.
    + exists l'. split; [by exists w|done].
    + by exists l'.
Qed.

Lemma empty_ok : graph_ok ∅.
Proof using.
  assert (forall a b l, ~ edge ∅ a b l) as H by (intros a b l (w & Hw & _); by apply lookup_empty_Some in Hw).
  split; [by intros a b l ?%H|]. intros a Hc. inversion Hc as [? ? [l Hl]|? ? ? [l Hl]]; by apply H in Hl.
Qed.

Lemma detector_step_ok dr dr' : detector_step dr dr' -> graph_ok (wait_for_map (dr_table dr)) -> graph_ok (wait_for_map (dr_table dr')).
Proof using Hiter.
  intros Hs Hok. destruct Hs as [dr now [tp e] r dr' (Ht & Hl & Hne) Hh|dr now [tp e] r d Hrole (Ht & Hl & Hne) Hh|dr role|dr ttl]; cbn in *.
  - unfold handle_rpc in Hh. destruct (bool_decide _); [|done]. cbn in Hh. destruct tp.
    + destruct (detect_spec (dr_table dr) now _ _ (we_key_hash e) (we_key e) (we_resource_group_tag e) Hok Ht Hl Hne) as (r0 & d' & E & Hok' & _).
      rewrite E in Hh. cbn in Hh. by injection Hh as _ <-.
    + injection Hh as _ <-. by apply clean_up_wait_for_ok.
    + injection Hh as _ <-. by apply clean_up_ok.
  - unfold handle_detect_locally in Hh. cbn in Hh. destruct tp.
    + destruct (detect_spec (dr_table dr) now _ _ (we_key_hash e) (we_key e) (we_resource_group_tag e) Hok Ht Hl Hne) as (r0 & d' & E & Hok' & _).
      rewrite E in Hh. cbn in Hh. by injection Hh as _ <-.
    + injection Hh as _ <-. by apply clean_up_wait_for_ok.
    + injection Hh as _ <-. by apply clean_up_ok.
  - apply empty_ok.
  - done.
Qed.

Definition detector_reachable (dr : Detector) : Prop := exists ttl now, rtc detector_step (mk_detector Follower (table_new ttl now)) dr.

Lemma reachable_ok dr : detector_reachable dr -> graph_ok (wait_for_map (dr_table dr)).
Proof using Hiter.
  intros (ttl & now & H). apply (rtc_ind_r (fun x => graph_ok (wait_for_map (dr_table x))) _) in H; [done|apply empty_ok|].
  intros x y _ Hs Hx. by eapply detector_step_ok.
Qed.
End Search.

(** C24: The wait-for graph of the detector never has a cycle, through every
    sequence of requests, clean-ups and role changes, whatever the clock and
    the order in which hash maps are iterated; the edges that have expired and
    are still in the table count too. *)
Theorem wait_for_graph_acyclic iter dr :
  (forall m, iter m ≡ₚ map_to_list m) -> detector_reachable iter dr ->
  forall a, ~ tc (waits (wait_for_map (dr_table dr))) a a.
Proof. intros Hi Hr. exact (go_acyclic _ (reachable_ok iter Hi dr Hr)). Qed.

(** C23: A request reports a deadlock exactly when the edges that have not
    expired already lead from the lock's transaction to the waiting one. It
    does not panic; the chain it reports is a path of such edges from the one
    to the other, and the hash is that of its last edge; and when there is no
    deadlock the edge is in the table afterwards with the requested hash. *)
Theorem deadlock_reported_exactly iter dr now req :
  (forall m, iter m ≡ₚ map_to_list m) -> detector_reachable iter dr -> request_ok req ->
  let d := dr_table dr in
  let e := rq_entry req in
  exists r d', detect iter d now (we_txn e) (we_wait_for_txn e) (we_key_hash e) (we_key e) (we_resource_group_tag e) = Ok (r, d') /\
    (is_Some r <-> tc (waits_live now (dt_ttl d) (wait_for_map d)) (we_wait_for_txn e) (we_txn e)) /\
    (forall h chain, r = Some (h, chain) ->
       chain_from now (dt_ttl d) (wait_for_map d) (we_wait_for_txn e) chain (we_txn e) /\
       exists e', last chain = Some e' /\ we_key_hash e' = h) /\
    (r = None -> exists l, edge (wait_for_map d') (we_txn e) (we_wait_for_txn e) l /\
       we_key_hash e ∈ (lk_keys l).*1 /\ lk_last_detect_time l = now).
Proof.
  intros Hi Hr (Ht & Hl & Hne) d e.
  destruct (detect_spec iter Hi d now (we_txn e) (we_wait_for_txn e) (we_key_hash e) (we_key e) (we_resource_group_tag e)
    (reachable_ok iter Hi dr Hr) Ht Hl Hne) as (r & d' & E & _ & Hp). exists r, d'. split; [exact E|exact Hp].
Qed.

(** ** Samples *)

Definition sample_request (txn lock : TimeStamp) : DeadlockRequest := mk_request Detect (mk_entry txn lock (10 * txn + lock) [] []).

Definition run_request (dr : Detector) (req : DeadlockRequest) : Detector :=
  match handle_rpc map_to_list dr 5 req with Ok (_, dr) => dr | _ => dr end.

(** The transaction 1 waits for 2, and 2 for 3. *)
Definition sample_detector : Detector :=
  run_request (run_request (change_role (mk_detector Follower (table_new 100 0)) Leader) (sample_request 1 2)) (sample_request 2 3).

Lemma run_request_step dr req : request_ok req -> rtc (detector_step map_to_list) dr (run_request dr req).
Proof.
  intros Hok. unfold run_request. destruct (handle_rpc map_to_list dr 5 req) as [[r dr']| |] eqn:E; [|reflexivity..].
  apply rtc_once. by eapply det_rpc.
Qed.

Lemma sample_detector_reached : detector_reachable map_to_list sample_detector.
Proof.
  exists 100, 0. unfold sample_detector. do 2 (etrans; [|apply run_request_step; vm_compute; split_and!; congruence]).
  apply rtc_once, det_role.
Qed.

Lemma wait_for_graph_acyclic_witness :
  waits (wait_for_map (dr_table sample_detector)) 1 2 /\ ~ tc (waits (wait_for_map (dr_table sample_detector))) 1 1.
Proof.
  split.
  - eexists _, _. split; vm_compute; reflexivity.
  - apply (wait_for_graph_acyclic map_to_list sample_detector); [done|exact sample_detector_reached].
Defined.

(** 3 asks to wait for 1. *)
Lemma deadlock_reported_exactly_witness :
  exists r d', detect map_to_list (dr_table sample_detector) 5 3 1 31 [] [] = Ok (r, d') /\ is_Some r /\
    tc (waits_live 5 100 (wait_for_map (dr_table sample_detector))) 1 3.
Proof.
  destruct (deadlock_reported_exactly map_to_list sample_detector 5 (sample_request 3 1)) as (r & d' & E & [H _] & _);
    [done|exact sample_detector_reached|vm_compute; split_and!; congruence|].
  exists r, d'. split; [exact E|]. assert (is_Some r) as Hr; [|split; [exact Hr|exact (H Hr)]].
  revert E. vm_compute. intros [= <- _]. eexists. reflexivity.
Defined.
