(* ===== verification/PointGetter.v ===== *)
(** * Point gets (src/storage/mvcc/reader/point_getter.rs)

    [PointGetter] reads one key for a client: it checks the key's lock, finds
    the version to read with a cursor limited to the key's prefix, and loads
    the value; on request it notes whether anything newer than the read's
    timestamp was there. Shown: it returns what the snapshot reader returns,
    a conflicting lock is reported or read through, and the note is exact. *)
From S2P Require Import Prelude Number Bytes Timestamp Key Fields Lock Write OrderedMap PeerLocks Engine.
From S2P Require Import ConcurrencyManager Reader Versions MvccTxn CheckTxnStatus Prewrite Commands.
From S2P Require Import KeyView Protocol ActionSpec ReadSpec PrewriteSpec System Demo Safety AsyncCommit.
Local Open Scope Z_scope.

(** ** The cursor *)

(** The prefix of a key of the write column family: all but the timestamp. *)
Definition slice_prefix (key : bytes) : bytes := take (length key - 8) key.

(** A cursor with [prefix_same_as_start]: it is valid on keys with the prefix
    of the key that was sought. *)
Definition same_prefix (k : bytes) (r : option (bytes * bytes)) : option (bytes * bytes) :=
  match r with
  | Some (k', v) => if bool_decide (slice_prefix k' = slice_prefix k) then Some (k', v) else None
  | None => None
  end.
Definition write_seek (m : cf) (k : bytes) : option (bytes * bytes) := same_prefix k (seek_ge m k).
Definition write_next (m : cf) (k : bytes) : option (bytes * bytes) := same_prefix k (seek_gt m k).

(** ** The getter *)

Inductive NewerTsCheckState := Unknown | Met | NotMetYet.
#[export] Instance NewerTsCheckState_eq_dec : EqDecision NewerTsCheckState.
Proof. solve_decision. Defined.

#[export] Instance IsolationLevel_eq_dec : EqDecision IsolationLevel.
Proof. solve_decision. Defined.

Record PointGetter := mk_getter {
  pg_snapshot : Snapshot;
  pg_omit_value : bool;
  pg_isolation_level : IsolationLevel;
  pg_ts : TimeStamp;
  pg_bypass_locks : TsSet;
  pg_access_locks : TsSet;
  pg_met_newer_ts_data : NewerTsCheckState
}.

(** [PointGetterBuilder::build] *)
Definition pg_build (snapshot : Snapshot) (omit_value : bool) (isolation_level : IsolationLevel) (ts : TimeStamp)
    (bypass_locks access_locks : TsSet) (check_has_newer_ts_data : bool) : PointGetter :=
  mk_getter snapshot omit_value isolation_level ts bypass_locks access_locks
    (if check_has_newer_ts_data then NotMetYet else Unknown).

(** The state goes from [NotMetYet] to [Met]. *)
Definition meet (met : NewerTsCheckState) : NewerTsCheckState := if bool_decide (met = NotMetYet) then Met else met.

Section Getter.
  Context (g : PointGetter).
Let m := engine_get_cf (snap_engine (pg_snapshot g)) CF_WRITE.
Let ts := pg_ts g.

Definition pg_load_and_check_lock (user_key : Key) : mres (option Lock) * NewerTsCheckState :=
  let met := pg_met_newer_ts_data g in
  match engine_get_cf (snap_engine (pg_snapshot g)) CF_LOCK !! user_key with
  | None => (Ok None, met)
  | Some lock_value =>
      match lock_parse lock_value with
      | Ok lock =>
          let met := meet met in
          match check_ts_conflict lock user_key ts (pg_bypass_locks g) (pg_isolation_level g) with
          | Ok _ => (Ok None, met)
          | Err e =>
              if TsSet_contains (pg_access_locks g) (lock_ts lock) then (Ok (Some lock), met)
              else (Err (mvcc_error_from_txn e), met)
          | Panic => (Panic, met)
          end
      | Err e => (Err (mvcc_error_from_txn e), met)
      | Panic => (Panic, met)
      end
  end.

Definition pg_load_data_from_default_cf (write_start_ts : TimeStamp) (user_key : Key) : mres Value :=
  match engine_get_cf (snap_engine (pg_snapshot g)) CF_DEFAULT !! append_ts user_key write_start_ts with
  | Some value => Ok value
  | None => Err (MDefaultNotFound (append_ts user_key write_start_ts))
  end.

(** [debug_assertions] says whether the build has [debug_assert!]. *)
Definition pg_load_data_from_lock (debug_assertions : bool) (user_key : Key) (lock : Lock) : mres (option Value) :=
  rassert (negb debug_assertions || ((lock_ts lock <? ts) && (lock_min_commit_ts lock <=? ts)))
    match lock_type lock with
    | LTPut =>
        if pg_omit_value g then Ok (Some [])
        else
          match lock_short_value lock with
          | Some value => Ok (Some value)
          | None => value ← pg_load_data_from_default_cf (lock_ts lock) user_key; Ok (Some value)
          end
    | LTDelete => Ok None
    | LTLock | LTPessimistic => Panic
    end.

(** The loop of [load_data], with the cursor at [pos]. *)
Fixpoint pg_loop (fuel : nat) (user_key : Key) (pos : bytes) (write : Write) : mres (option Value) :=
  match fuel with
  | O => Panic
  | S fuel =>
      if negb (check_gc_fence_as_latest_version write ts) then Ok None
      else
        let next :=
          match write_next m pos with
          | None => Ok None
          | Some (k, v) => write ← map_err mvcc_error_from_txn (write_parse v); pg_loop fuel user_key k write
          end in
        match write_type write with
        | WTPut =>
            if pg_omit_value g then Ok (Some [])
            else
              match write_short_value write with
              | Some value => Ok (Some value)
              | None => value ← pg_load_data_from_default_cf (write_start_ts write) user_key; Ok (Some value)
              end
        | WTDelete => Ok None
        | WTLock | WTRollback =>
            match write_last_change write with
            | LCNotExist => Ok None
            | LCExist commit_ts versions =>
                if SEEK_BOUND <=? versions then
                  match m !! append_ts user_key commit_ts with
                  | None => Ok None
                  | Some v =>
                      write ← map_err mvcc_error_from_txn (write_parse v);
                      rassert (bool_decide (write_type write = WTPut) || bool_decide (write_type write = WTDelete))
                        (pg_loop fuel user_key pos write)
                  end
                else next
            | LCUnknown => next
            end
        end
  end.

(** The part of [load_data] before the loop: where the cursor is. *)
Definition pg_position (met : NewerTsCheckState) (user_key : Key) : mres (option (bytes * bytes)) * NewerTsCheckState :=
  if bool_decide (met = NotMetYet) || bool_decide (pg_isolation_level g = RcCheckTs) then
    let seek_key := append_ts user_key ts_max in
    match write_seek m seek_key with
    | None => (Ok None, met)
    | Some (cursor_key, cursor_value) =>
        match
          seek_key ← map_err MCodec (truncate_ts seek_key);
          key_commit_ts ← map_err MCodec (decode_ts_from cursor_key);
          Ok (seek_key, key_commit_ts)
        with
        | Ok (seek_key, key_commit_ts) =>
            if (ts <? key_commit_ts) && bool_decide (pg_isolation_level g = RcCheckTs) then
              (Err (MWriteConflict ts 0 key_commit_ts cursor_key [] ReasonRcCheckTs), meet met)
            else
              let seek_key := append_ts seek_key ts in
              (Ok (if bleb seek_key cursor_key then Some (cursor_key, cursor_value) else write_seek m seek_key),
               if ts <? key_commit_ts then meet met else met)
        | Err e => (Err e, met)
        | Panic => (Panic, met)
        end
    end
  else (Ok (write_seek m (append_ts user_key ts)), met).

Definition pg_fuel : nat := S (S (size m)).

Definition pg_load_data (met : NewerTsCheckState) (user_key : Key) : mres (option Value) * NewerTsCheckState :=
  let '(pos, met) := pg_position met user_key in
  (pos ← pos;
   match pos with
   | None => Ok None
   | Some (k, v) => write ← map_err mvcc_error_from_txn (write_parse v); pg_loop pg_fuel user_key k write
   end, met).

Definition pg_get (debug_assertions : bool) (user_key : Key) : mres (option Value) * NewerTsCheckState :=
  if need_check_locks (pg_isolation_level g) then
    match pg_load_and_check_lock user_key with
    | (Ok (Some lock), met) => (pg_load_data_from_lock debug_assertions user_key lock, met)
    | (Ok None, met) => pg_load_data met user_key
    | (Err e, met) => (Err e, met)
    | (Panic, met) => (Panic, met)
    end
  else pg_load_data (pg_met_newer_ts_data g) user_key.
End Getter.

(** ** The cursor finds versions *)

Lemma slice_prefix_append key ts : slice_prefix (append_ts key ts) = key.
Proof.
  unfold slice_prefix, append_ts. rewrite length_app, length_encode_u64_desc. replace (length key + 8 - 8)%nat with (length key) by lia.
  by rewrite take_app_length.
Qed.

Section Cursor.
  Context (rd : Reader).
Let m := rd_cf rd CF_WRITE.
  Hypothesis Hwf : write_cf_wf m.
  Context (key : Key).
  Hypothesis Hkey : user_key key.

(** The cursor is where [seek_write] looks. *)
Lemma write_seek_spec ts : is_u64 ts ->
  match write_seek m (append_ts key ts) with
  | Some (k, v) => exists c w, k = append_ts key c /\ v = write_to_bytes w /\ is_latest m key ts c w
  | None => no_version m key ts
  end.
Proof using Hwf Hkey.
  intros Hts. pose proof (seek_write_spec rd Hwf key Hkey ts Hts) as H. unfold seek_write in H. fold m in H.
  unfold write_seek, same_prefix. destruct (seek_ge m (append_ts key ts)) as [[k v]|] eqn:E; [|done].
  apply seek_ge_Some in E as (Hk & _). destruct (Hwf _ _ Hk) as (key' & c & w & Hk' & Hc & _ & Hw & -> & ->).
  rewrite decode_ts_append_ts in H by done. cbn [map_err mbind res_bind] in H. rewrite !slice_prefix_append.
  case_bool_decide as Hkk.
  - subst key'. rewrite is_user_key_eq_append in H by done. cbn [negb] in H. rewrite write_parse_to_bytes in H by done.
    exists c, w. done.
  - destruct (is_user_key_eq (append_ts key' c) key) eqn:Eu; [|done]. exfalso.
    apply is_user_key_eq_append_ts in Eu as (c2 & Hc2 & Eu). by apply append_ts_inj in Eu as [-> _].
Qed.

(** Moving on from a version is seeking the timestamp before it. *)
Lemma write_next_seek c w : is_u64 c -> version m key c = Some w -> write_next m (append_ts key c) = write_seek m (append_ts key (c - 1)).
Proof using Hwf Hkey.
  intros Hc Hv. pose proof (version_pos rd Hwf key c w Hc Hv) as Hpos. assert (is_u64 (c - 1)) as Hc1 by (unfold is_u64 in *; lia).
  assert (blt (append_ts key c) (append_ts key (c - 1))) as Hlt.
  { apply not_ble. rewrite append_ts_le by done. lia. }
  assert (forall k v, m !! k = Some v -> blt (append_ts key c) k -> ble (append_ts key (c - 1)) k) as Hgap.
  { intros k v Hk Hck. apply not_blt. intros Hkc. destruct (entry_between rd Hwf key Hkey c (c - 1) k v) as (c' & -> & Hc' & ?);
      [done..|by apply blt_ble|by apply blt_ble|]. assert (c' = c \/ c' = c - 1) as [->| ->] by lia; [by apply blt_irrefl in Hck|by apply blt_irrefl in Hkc]. }
  unfold write_next, write_seek, same_prefix. rewrite !slice_prefix_append.
  assert (seek_gt m (append_ts key c) = seek_ge m (append_ts key (c - 1))) as ->; [|done].
  destruct (seek_ge m (append_ts key (c - 1))) as [[k v]|] eqn:E.
  - apply seek_ge_Some in E as (Hk & Hge & Hl). apply seek_gt_Some. split_and!; [done|by eapply blt_le_trans|].
    intros k2 v2 Hk2 H2. eapply Hl; [done|]. by eapply Hgap.
  - apply seek_gt_None. intros k2 v2 Hk2. apply not_blt. intros H2. pose proof (Hgap _ _ Hk2 H2) as H3.
    apply (proj1 (seek_ge_None m _) E) in Hk2. by apply not_ble in Hk2.
Qed.
End Cursor.

(** ** The getter and the snapshot reader *)

Section Equiv.
  Context (g : PointGetter) (rd : Reader).
  Hypothesis Hrd : rd_snapshot rd = pg_snapshot g.
Let m := rd_cf rd CF_WRITE.
  Hypothesis Hwf : write_cf_wf m.
  Context (key : Key).
  Hypothesis Hkey : user_key key.

(** What the getter makes of the version the reader finds. *)
Definition pg_finish (r : option (Write * TimeStamp)) : mres (option Value) :=
  match r with
  | Some (w, _) => if pg_omit_value g then Ok (Some []) else v ← load_data rd key w; Ok (Some v)
  | None => Ok None
  end.

Lemma pg_put w : write_type w = WTPut ->
  (if pg_omit_value g then Ok (Some [])
   else match write_short_value w with
        | Some value => Ok (Some value)
        | None => value ← pg_load_data_from_default_cf g (write_start_ts w) key; Ok (Some value)
        end) = pg_finish (Some (w, 0)).
Proof using Hrd.
  intros Ht. unfold pg_finish. destruct (pg_omit_value g); [done|]. unfold load_data. rewrite Ht. cbn [bool_decide rassert].
  destruct (write_short_value w); [done|]. unfold pg_load_data_from_default_cf, get_value, rd_cf. rewrite Hrd. cbn [mbind res_bind].
  by destruct (_ !! _).
Qed.

(** A data-changing record ends both loops. *)
Lemma pg_loop_data f pos c w t r : is_data w = true ->
  get_write_loop rd f key t (Some (pg_ts g)) (Some (c, w)) = Ok r -> pg_loop g f key pos w = pg_finish r.
Proof using Hrd.
  intros Hd. destruct f as [|f]; [done|]. cbn [pg_loop get_write_loop]. destruct (negb _); [by intros [= <-]|].
  unfold is_data in Hd. destruct (write_type w) eqn:Ht; try done; intros [= <-]; [|done]. apply (pg_put w Ht).
Qed.

(** One [next] of the cursor. *)
Lemma pg_next f c w t r : is_u64 c -> version m key c = Some w -> 0 < t ->
  (forall c' w' t' r, is_u64 c' -> version m key c' = Some w' -> 0 < t' ->
     get_write_loop rd f key t' (Some (pg_ts g)) (Some (c', w')) = Ok r -> pg_loop g f key (append_ts key c') w' = pg_finish r) ->
  (if ts_is_zero t then Ok None
   else ts ← ts_prev c; seek_res ← seek_write rd key ts; get_write_loop rd f key ts (Some (pg_ts g)) seek_res) = Ok r ->
  (match write_next m (append_ts key c) with
   | Some (k, v) => write ← map_err mvcc_error_from_txn (write_parse v); pg_loop g f key k write
   | None => Ok None
   end) = pg_finish r.
Proof using Hwf Hkey.
  intros Hc Hv Ht IH. pose proof (version_pos rd Hwf key c w Hc Hv) as Hpos.
  assert (is_u64 (c - 1)) as Hc1 by (unfold is_u64 in *; lia).
  unfold ts_is_zero. destruct (Z.eqb_spec t 0); [lia|]. rewrite ts_prev_ok by done. cbn [mbind res_bind].
  pose proof (write_next_seek rd Hwf key Hkey c w Hc Hv) as En. pose proof (write_seek_spec rd Hwf key Hkey (c - 1) Hc1) as Hs.
  fold m in En, Hs. rewrite En. destruct (write_seek m (append_ts key (c - 1))) as [[k v]|].
  - destruct Hs as (c' & w' & -> & -> & Hl). rewrite (seek_write_latest rd Hwf key Hkey (c - 1) c' w' Hc1 Hl). cbn [mbind res_bind].
    pose proof Hl as (Hc' & Hle & Hv' & _). pose proof (version_pos rd Hwf key c' w' Hc' Hv').
    apply (version_Some rd Hwf) in Hv' as Hx. destruct Hx as [Hw' _]. rewrite write_parse_to_bytes by done. cbn [map_err mbind res_bind].
    intros Hr. eapply IH; [done..| |exact Hr]. lia.
  - rewrite (seek_write_none rd Hwf key Hkey (c - 1) Hc1 Hs). cbn [mbind res_bind]. destruct f as [|f]; [done|]. by intros [= <-].
Qed.

Lemma pg_loop_equiv f : forall c w t r, is_u64 c -> version m key c = Some w -> 0 < t ->
  get_write_loop rd f key t (Some (pg_ts g)) (Some (c, w)) = Ok r -> pg_loop g f key (append_ts key c) w = pg_finish r.
Proof using Hrd Hwf Hkey.
  induction f as [|f IH]; intros c w t r Hc Hv Ht; [done|]. destruct (is_data w) eqn:Hd; [by apply pg_loop_data|].
  pose proof (pg_next f c w t r Hc Hv Ht IH) as Hnext.
  cbn [pg_loop get_write_loop]. rewrite <- Hrd. change (engine_get_cf (snap_engine (rd_snapshot rd)) CF_WRITE) with m.
  fold m. destruct (negb _); [by intros [= <-]|].
  unfold is_data in Hd. destruct (write_type w); try done; clear Hd;
    (destruct (write_last_change w) as [|lt n|]; [exact Hnext| |by intros [= <-]]; destruct (SEEK_BOUND <=? n); [|exact Hnext];
     destruct (m !! append_ts key lt) as [v|]; [|by intros [= <-]]; destruct (write_parse v) as [w'| |]; [|done..]; cbn [map_err mbind res_bind];
     unfold rassert; destruct (bool_decide (write_type w' = WTPut) || bool_decide (write_type w' = WTDelete)) eqn:Hb; [|done];
     apply pg_loop_data; unfold is_data; destruct (write_type w'); done).
Qed.

Lemma write_fuel_eq : write_fuel rd = pg_fuel g.
Proof using Hrd. unfold write_fuel, pg_fuel, rd_cf. by rewrite Hrd. Qed.

(** From where the cursor was put to the value. *)
Definition pg_from (pos : option (bytes * bytes)) : mres (option Value) :=
  match pos with
  | None => Ok None
  | Some (k, v) => write ← map_err mvcc_error_from_txn (write_parse v); pg_loop g (pg_fuel g) key k write
  end.

Lemma pg_from_seek ts r : is_u64 ts -> get_write_with_commit_ts rd key ts (Some (pg_ts g)) = Ok r ->
  pg_from (write_seek m (append_ts key ts)) = pg_finish r.
Proof using Hrd Hwf Hkey.
  intros Hts. unfold get_write_with_commit_ts. rewrite write_fuel_eq. pose proof (write_seek_spec rd Hwf key Hkey ts Hts) as Hs. fold m in Hs.
  destruct (write_seek m (append_ts key ts)) as [[k v]|]; cbn [pg_from].
  - destruct Hs as (c & w & -> & -> & Hl). rewrite (seek_write_latest rd Hwf key Hkey ts c w Hts Hl). cbn [mbind res_bind].
    pose proof Hl as (Hc & Hle & Hv & _). pose proof (version_pos rd Hwf key c w Hc Hv).
    apply (version_Some rd Hwf) in Hv as Hx. destruct Hx as [Hw _]. rewrite write_parse_to_bytes by done. cbn [map_err mbind res_bind].
    apply pg_loop_equiv; [done..|lia].
  - rewrite (seek_write_none rd Hwf key Hkey ts Hts Hs). cbn [mbind res_bind]. by intros [= <-].
Qed.
End Equiv.

(** ** The position of the cursor *)

Lemma ts_max_u64 : is_u64 ts_max.
Proof. unfold is_u64, ts_max, u64_max. lia. Qed.

Lemma truncate_append k t : truncate_ts (append_ts k t) = Ok k.
Proof.
  unfold truncate_ts, append_ts. rewrite length_app, length_encode_u64_desc.
  destruct (Nat.ltb_spec (length k + 8) U64_SIZE) as [H|_]; [unfold U64_SIZE in H; lia|].
  replace (length k + 8 - U64_SIZE)%nat with (length k) by (unfold U64_SIZE; lia). by rewrite take_app_length.
Qed.

Section Position.
  Context (g : PointGetter) (rd : Reader).
  Hypothesis Hrd : rd_snapshot rd = pg_snapshot g.
Let m := rd_cf rd CF_WRITE.
Let ts := pg_ts g.
  Hypothesis Hwf : write_cf_wf m.
  Context (key : Key).
  Hypothesis Hkey : user_key key.
  Hypothesis Hts : is_u64 ts.

(** Nothing newer than the read: the cursor is where a seek to its timestamp
    puts it, and no conflict or newer data is noted. *)
Lemma pg_position_old met : (forall c, is_u64 c -> ts < c -> version m key c = None) ->
  pg_position g met key = (Ok (write_seek m (append_ts key ts)), met).
Proof using Hrd Hwf Hkey Hts.
  intros Hno. unfold pg_position. fold ts. rewrite <- Hrd. change (engine_get_cf (snap_engine (rd_snapshot rd)) CF_WRITE) with m.
  destruct (_ || _); [|done]. pose proof (write_seek_spec rd Hwf key Hkey ts_max ts_max_u64) as H.
  pose proof (write_seek_spec rd Hwf key Hkey ts Hts) as H'. fold m in H, H'.
  destruct (write_seek m (append_ts key ts_max)) as [[k v]|].
  - destruct H as (c & w & -> & -> & Hl). pose proof Hl as (Hc & Hmax & Hv & Hn).
    rewrite truncate_append, decode_ts_append_ts by done. cbn [map_err mbind res_bind].
    assert (c <= ts) as Hle by (destruct (Z.le_gt_cases c ts); [done|]; by rewrite Hno in Hv).
    destruct (Z.ltb_spec ts c) as [|_]; [lia|]. cbn [andb]. rewrite (proj2 (bleb_le _ _)) by (by apply append_ts_le).
    assert (is_latest m key ts c w) as Hl'.
    { split_and!; [done|done|done|]. intros c' Hc' Hlt. apply Hn; [done|]. unfold is_u64, ts_max, u64_max in *. lia. }
    destruct (write_seek m (append_ts key ts)) as [[k v]|].
    + destruct H' as (c' & w' & -> & -> & Hl2). by destruct (is_latest_unique _ _ _ _ _ _ _ Hl' Hl2) as [-> ->].
    + by rewrite (H' c Hc Hle) in Hv.
  - destruct (write_seek m (append_ts key ts)) as [[k v]|]; [|done]. destruct H' as (c & w & _ & _ & (Hc & _ & Hv & _)).
    rewrite (H c Hc) in Hv; [done|]. unfold is_u64, ts_max, u64_max in *. lia.
Qed.

(** Something newer: it is noted, and a conflict under [RcCheckTs]. *)
Lemma pg_position_new met c w : is_latest m key ts_max c w -> ts < c -> 
  bool_decide (met = NotMetYet) || bool_decide (pg_isolation_level g = RcCheckTs) = true ->
  pg_position g met key =
    (if bool_decide (pg_isolation_level g = RcCheckTs)
     then Err (MWriteConflict ts 0 c (append_ts key c) [] ReasonRcCheckTs)
     else Ok (write_seek m (append_ts key ts)), meet met).
Proof using Hrd Hwf Hkey Hts.
  intros Hl Hlt Hck. unfold pg_position. fold ts. rewrite <- Hrd. change (engine_get_cf (snap_engine (rd_snapshot rd)) CF_WRITE) with m.
  rewrite Hck. pose proof (write_seek_spec rd Hwf key Hkey ts_max ts_max_u64) as H. fold m in H. pose proof Hl as (Hc & Hmax & Hv & _).
  destruct (write_seek m (append_ts key ts_max)) as [[k v]|]; [|by rewrite (H c Hc Hmax) in Hv].
  destruct H as (c' & w' & -> & -> & Hl2). destruct (is_latest_unique _ _ _ _ _ _ _ Hl Hl2) as [<- <-].
  rewrite truncate_append, decode_ts_append_ts by done. cbn [map_err mbind res_bind].
  rewrite (proj2 (Z.ltb_lt _ _) Hlt). cbn [andb]. destruct (bool_decide (pg_isolation_level g = RcCheckTs)); [done|].
  destruct (bleb (append_ts key ts) (append_ts key c)) eqn:E; [|done]. apply bleb_le, append_ts_le in E; [lia|done..].
Qed.

(** Without the checks the cursor is sought directly. *)
Lemma pg_position_plain met :
  bool_decide (met = NotMetYet) || bool_decide (pg_isolation_level g = RcCheckTs) = false ->
  pg_position g met key = (Ok (write_seek m (append_ts key ts)), met).
Proof using Hrd. unfold pg_position. intros ->. unfold m, rd_cf, ts. by rewrite Hrd. Qed.
End Position.

(** ** Point gets on contents that keep the invariant *)

(** The value a lock's transaction wrote. *)
Definition lock_value (a : KV) (l : Lock) (v : option Value) : Prop :=
  match lock_type l with
  | LTPut => exists x, v = Some x /\
      match lock_short_value l with Some sv => x = sv | None => kv_val a !! lock_ts l = Some x end
  | LTDelete => v = None
  | LTLock | LTPessimistic => False
  end.

(** What the lock of the key says to a read. *)
Definition lock_check (a : KV) (key : Key) (il : IsolationLevel) (ts : TimeStamp) (bypass : TsSet) : res txn_error unit :=
  match kv_lock a with
  | Some l => if need_check_locks il then check_ts_conflict l key ts bypass il else Ok tt
  | None => Ok tt
  end.

(** A key-only read returns an empty value for every value. *)
Definition hide (omit_value : bool) (v : option Value) : option Value :=
  if omit_value then option_map (fun _ => []) v else v.

Definition newest (a : KV) (c : TimeStamp) : Prop :=
  is_Some (kv_ver a !! c) /\ forall c', is_Some (kv_ver a !! c') -> c' <= c.

Definition newer_than (a : KV) (ts : TimeStamp) : Prop := exists c, is_Some (kv_ver a !! c) /\ ts < c.

(** What a read of the key returns once its lock does not matter. *)
Definition value_result (a : KV) (key : Key) (ts : TimeStamp) (omit : bool) (il : IsolationLevel) (r : mres (option Value)) : Prop :=
  (~ newer_than a ts \/ il <> RcCheckTs -> exists v, r = Ok (hide omit v) /\ value_at a ts v) /\
  (newer_than a ts -> il = RcCheckTs ->
     exists c, newest a c /\ ts < c /\ r = Err (MWriteConflict ts 0 c (append_ts key c) [] ReasonRcCheckTs)).

(** What a read of the key returns: a lock that conflicts is reported, or read
    if the client may. *)
Definition read_result (a : KV) (key : Key) (ts : TimeStamp) (omit : bool) (il : IsolationLevel) (bypass access : TsSet)
    (r : mres (option Value)) : Prop :=
  match lock_check a key il ts bypass, kv_lock a with
  | Err er, Some l =>
      if TsSet_contains access (lock_ts l) then exists v, r = Ok (hide omit v) /\ lock_value a l v
      else r = Err (mvcc_error_from_txn er)
  | _, _ => value_result a key ts omit il r
  end.

(** A lock that is read through fails the debug assertion: it is not older than
    the read, or it is going to commit after the read. *)
Definition debug_check_fails (a : KV) (key : Key) (ts : TimeStamp) (il : IsolationLevel) (bypass access : TsSet) : bool :=
  match lock_check a key il ts bypass, kv_lock a with
  | Err _, Some l => TsSet_contains access (lock_ts l) && negb ((lock_ts l <? ts) && (lock_min_commit_ts l <=? ts))
  | _, _ => false
  end.

Lemma put_readable V ts c w : V !! c = Some w -> write_type w = WTPut -> dlatest V ts c -> ~ unreadable V ts.
Proof. intros Hw Hp Hl Hu. by pose proof (unreadable_dlatest V ts c _ Hu Hl (put_data_at V c w Hw Hp)). Qed.

Lemma value_at_unique a ts v v' : value_at a ts v -> value_at a ts v' -> v = v'.
Proof.
  intros Hv Hv'. destruct v as [x|], v' as [x'|]; cbn in Hv, Hv'; [| | |done].
  - destruct Hv as (w & c & (Hw & _ & Hl) & Hx), Hv' as (w' & c' & (Hw' & _ & Hl') & Hx').
    assert (c' = c) as -> by (by eapply dlatest_unique). assert (w' = w) as -> by congruence.
    destruct (write_short_value w); congruence.
  - destruct Hv as (w & c & (Hw & Hp & Hl) & _). exfalso. by eapply put_readable.
  - destruct Hv' as (w & c & (Hw & Hp & Hl) & _). exfalso. by eapply put_readable.
Qed.

Lemma lock_value_unique a l v v' : lock_value a l v -> lock_value a l v' -> v = v'.
Proof.
  unfold lock_value. destruct (lock_type l); [|congruence|done..]. intros (x & -> & Hx) (x' & -> & Hx').
  destruct (lock_short_value l); congruence.
Qed.

Lemma read_result_unique a key ts omit il bypass access r r' : newer_than a ts \/ ~ newer_than a ts ->
  read_result a key ts omit il bypass access r -> read_result a key ts omit il bypass access r' -> r = r'.
Proof.
  intros Hdec. assert (value_result a key ts omit il r -> value_result a key ts omit il r' -> r = r') as Hval.
  { intros [H1 H2] [H1' H2']. destruct Hdec as [Hn|Hn]; [destruct (decide (il = RcCheckTs)) as [Hil|Hil]|].
    - destruct (H2 Hn Hil) as (c & [Hs Hc] & _ & ->), (H2' Hn Hil) as (c' & [Hs' Hc'] & _ & ->).
      assert (c' = c) as -> by (apply Z.le_antisymm; auto). done.
    - destruct (H1 (or_intror Hil)) as (v & -> & Hv), (H1' (or_intror Hil)) as (v' & -> & Hv'). by rewrite (value_at_unique a ts v v' Hv Hv').
    - destruct (H1 (or_introl Hn)) as (v & -> & Hv), (H1' (or_introl Hn)) as (v' & -> & Hv'). by rewrite (value_at_unique a ts v v' Hv Hv'). }
  unfold read_result. destruct (lock_check a key il ts bypass); [done| |done]. destruct (kv_lock a) as [l|]; [|done].
  destruct (TsSet_contains access (lock_ts l)); [|congruence]. intros (v & -> & Hv) (v' & -> & Hv').
  by rewrite (lock_value_unique a l v v' Hv Hv').
Qed.

Lemma check_ts_conflict_no_panic l key ts bypass il : user_key key -> check_ts_conflict l key ts bypass il <> Panic.
Proof.
  intros [raw ->]. unfold check_ts_conflict, check_ts_conflict_si, check_ts_conflict_rc_check_ts. rewrite key_to_raw_from_raw.
  cbn [map_err mbind res_bind]. destruct il; repeat case_match; done.
Qed.

Section Inv.
  Context (e : Engine) (key : Key) (ts : TimeStamp).
  Hypothesis Hr : sys_inv e.
  Hypothesis Hk : user_key key.
  Hypothesis Hts : txn_ts ts.
  Context (omit : bool) (il : IsolationLevel) (bypass access : TsSet) (met0 : NewerTsCheckState).
Let a := view e key.
Let g := mk_getter (snap e) omit il ts bypass access met0.
Let rd := new_with_ctx ts (snap e) ctx0.

Lemma inv_sees : sees rd key a.
Proof using Hr Hk Hts. by apply sees_snap. Qed.

Lemma inv_write_wf : write_cf_wf (rd_cf rd CF_WRITE).
Proof using Hr Hk Hts. apply (sees_wf _ _ _ inv_sees). Qed.

(** The newest version decides whether there is a newer one. *)
Lemma newest_cases : (forall c, kv_ver a !! c = None) \/ exists c w, is_latest (rd_cf rd CF_WRITE) key ts_max c w /\ newest a c.
Proof using Hr Hk Hts.
  pose proof (write_seek_spec rd inv_write_wf key Hk ts_max ts_max_u64) as H. pose proof (sees_ver rd key a inv_sees) as Hv.
  assert (forall c, is_u64 c -> c <= ts_max) as Hmax by (intros c; unfold is_u64, ts_max, u64_max; lia).
  destruct (write_seek (rd_cf rd CF_WRITE) (append_ts key ts_max)) as [[k v]|].
  - right. destruct H as (c & w & _ & _ & Hl). exists c, w. split; [done|]. pose proof Hl as (Hc & _ & Hcw & Hn). split.
    + exists w. by apply Hv.
    + intros c' [w' [Hc' Hw']%Hv]. destruct (Z.le_gt_cases c' c); [done|]. unfold rd_cf in Hn. rewrite Hn in Hw'; [done|done|].
      split; [done|]. by apply Hmax.
  - left. intros c. destruct (kv_ver a !! c) as [w|] eqn:E; [|done]. apply Hv in E as [Hc E].
    change (version (rd_cf rd CF_WRITE) key c = Some w) in E. by rewrite (H c Hc (Hmax c Hc)) in E.
Qed.

(** Reading at the sought position. *)
Lemma pg_from_value : exists v, pg_from g key (write_seek (rd_cf rd CF_WRITE) (append_ts key ts)) = Ok (hide omit v) /\ value_at a ts v.
Proof using Hr Hk Hts.
  pose proof (kinv_readable a (Some ts) (proj2 Hr key Hk)) as Hrb.
  assert (forall l c, Some ts = Some l -> ts < c <= l -> data_at (kv_ver a) c = None) as Hq by (intros l c [= <-]; lia).
  destruct (get_write_readable rd key a inv_sees ts (Some ts) Hrb (proj1 Hts) Hq) as (r & Er & _).
  destruct (reader_get_readable rd key a inv_sees ts (Some ts) Hrb (proj1 Hts) Hq) as (v & Ev & Hv). exists v. split; [|done].
  rewrite (pg_from_seek g rd eq_refl inv_write_wf key Hk ts r (proj1 Hts) Er).
  unfold reader_get, get_write in Ev. rewrite Er in Ev. cbn [mbind res_bind] in Ev. destruct r as [[w c]|]; [|by injection Ev as <-; destruct omit].
  cbn [pg_finish option_map fst] in Ev |- *. destruct (load_data rd key w) as [x| |]; [|done..]. injection Ev as <-. cbn. by destruct omit.
Qed.

(** [load_data] once the cursor is where it should be. *)
Lemma pg_load_data_at met met' v : pg_position g met key = (Ok (write_seek (rd_cf rd CF_WRITE) (append_ts key ts)), met') ->
  pg_from g key (write_seek (rd_cf rd CF_WRITE) (append_ts key ts)) = Ok v -> pg_load_data g met key = (Ok v, met').
Proof using. unfold pg_load_data. intros ->. cbn [mbind res_bind]. unfold pg_from. by intros ->. Qed.

Lemma pg_load_data_old met : ~ newer_than a ts -> exists v, pg_load_data g met key = (Ok (hide omit v), met) /\ value_at a ts v.
Proof using Hr Hk Hts.
  intros Hno. destruct pg_from_value as (v & Ev & Hv). exists v. split; [|done]. apply pg_load_data_at; [|done].
  apply (pg_position_old g rd eq_refl inv_write_wf key Hk (proj1 Hts)). intros c Hc Hlt.
  destruct (version (rd_cf rd CF_WRITE) key c) as [w|] eqn:E; [|done]. destruct Hno. exists c. split; [|done].
  exists w. by apply (sees_ver rd key a inv_sees).
Qed.

Lemma newer_newest : newer_than a ts -> exists c w, is_latest (rd_cf rd CF_WRITE) key ts_max c w /\ newest a c /\ ts < c.
Proof using Hr Hk Hts.
  intros (c' & Hc' & Hlt). destruct newest_cases as [Hemp|(c & w & Hl & Hn)]; [destruct Hc' as [x Hx]; by rewrite Hemp in Hx|].
  exists c, w. split; [done|]. split; [done|]. pose proof (proj2 Hn c' Hc'). lia.
Qed.

(** With something newer there, under the levels that do not mind. *)
Lemma pg_load_data_new met : newer_than a ts -> il <> RcCheckTs -> exists v, pg_load_data g met key = (Ok (hide omit v), meet met) /\ value_at a ts v.
Proof using Hr Hk Hts.
  intros Hnew Hil. destruct (newer_newest Hnew) as (c & w & Hl & _ & Hlt). destruct pg_from_value as (v & Ev & Hv).
  exists v. split; [|done]. apply pg_load_data_at; [|done].
  destruct (bool_decide (met = NotMetYet) || bool_decide (pg_isolation_level g = RcCheckTs)) eqn:Eck.
  - rewrite (pg_position_new g rd eq_refl inv_write_wf key Hk (proj1 Hts) met c w Hl Hlt Eck). by rewrite bool_decide_eq_false_2.
  - rewrite (pg_position_plain g rd eq_refl key met Eck). apply orb_false_iff in Eck as [Em _]. unfold meet. by rewrite Em.
Qed.

Lemma pg_load_data_conflict met : newer_than a ts -> il = RcCheckTs -> exists c, newest a c /\ ts < c /\
  pg_load_data g met key = (Err (MWriteConflict ts 0 c (append_ts key c) [] ReasonRcCheckTs), meet met).
Proof using Hr Hk Hts.
  intros Hnew Hil. destruct (newer_newest Hnew) as (c & w & Hl & Hn & Hlt). exists c. split; [done|]. split; [done|].
  unfold pg_load_data. rewrite (pg_position_new g rd eq_refl inv_write_wf key Hk (proj1 Hts) met c w Hl Hlt).
  - by rewrite bool_decide_eq_true_2.
  - apply orb_true_iff. right. by apply bool_decide_eq_true.
Qed.

Lemma newer_dec : newer_than a ts \/ ~ newer_than a ts.
Proof using Hr Hk Hts.
  destruct newest_cases as [Hemp|(c & w & _ & Hn)]; [right; intros (c & [x Hx] & _); by rewrite Hemp in Hx|].
  destruct (Z.le_gt_cases c ts); [right; intros (c' & Hc' & Hlt); pose proof (proj2 Hn c' Hc'); lia|left; exists c; split; [apply Hn|done]].
Qed.

(** *** The lock *)

Lemma pg_lock_check : pg_load_and_check_lock g key =
  match kv_lock a with
  | None => (Ok None, met0)
  | Some l =>
      match check_ts_conflict l key ts bypass il with
      | Ok _ => (Ok None, meet met0)
      | Err er => if TsSet_contains access (lock_ts l) then (Ok (Some l), meet met0) else (Err (mvcc_error_from_txn er), meet met0)
      | Panic => (Panic, meet met0)
      end
  end.
Proof using Hr.
  unfold pg_load_and_check_lock, a, view, lock_at. cbn. destruct (cf_lock e !! key) as [v|] eqn:E; [|done].
  destruct Hr as [(_ & Hl & _) _]. destruct (Hl _ _ E) as (l & _ & Hwf & Hone & ->).
  by rewrite lock_parse_wf.
Qed.

(** A lock that conflicts has a value or deletes the key. *)
Lemma conflict_type l er : kv_lock a = Some l -> check_ts_conflict l key ts bypass il = Err er -> lock_type l = LTPut \/ lock_type l = LTDelete.
Proof using Hr Hk access met0 omit.
  intros Hl Hc. pose proof (inv_lock_type a (proj2 Hr key Hk) l Hl) as [Hp _].
  unfold check_ts_conflict, check_ts_conflict_si, check_ts_conflict_rc_check_ts in Hc. destruct (lock_type l); [by left|by right| |done].
  rewrite bool_decide_eq_true_2 in Hc by done. rewrite ?orb_true_r in Hc. destruct il; done.
Qed.

Lemma pg_from_lock l er : kv_lock a = Some l -> check_ts_conflict l key ts bypass il = Err er ->
  exists v, pg_load_data_from_lock g false key l = Ok (hide omit v) /\ lock_value a l v.
Proof using Hr Hk Hts.
  intros Hl Hc. unfold pg_load_data_from_lock, lock_value. cbn [pg_omit_value g negb orb rassert].
  destruct (conflict_type l er Hl Hc) as [Ht|Ht]; rewrite Ht; [|exists None; by destruct omit].
  destruct (lock_short_value l) as [sv|] eqn:Esv; [exists (Some sv); split; [by destruct omit|]; by exists sv|].
  pose proof (inv_lock_value a (proj2 Hr key Hk) l Hl) as Hv.
  destruct Hv as [x Hx]; [unfold needs_value; rewrite Ht, Esv; by rewrite !bool_decide_eq_true_2|].
  destruct (sees_lock_wf rd key a inv_sees l Hl) as [(_ & Hlts & _) _].
  pose proof (sees_value rd key a inv_sees (lock_ts l) x Hlts Hx) as E. unfold pg_load_data_from_default_cf. cbn in E |- *. rewrite E. cbn.
  exists (Some x). split; [by destruct omit|]. by exists x.
Qed.

(** [get] by what the lock says. *)
Lemma pg_get_cases debug :
  match lock_check a key il ts bypass, kv_lock a with
  | Err er, Some l => need_check_locks il = true /\
      pg_get g debug key = (if TsSet_contains access (lock_ts l) then pg_load_data_from_lock g debug key l else Err (mvcc_error_from_txn er), meet met0)
  | _, _ => pg_get g debug key = pg_load_data g (if need_check_locks il && bool_decide (is_Some (kv_lock a)) then meet met0 else met0) key
  end.
Proof using Hr Hk.
  unfold pg_get, lock_check. cbn [pg_isolation_level g]. rewrite pg_lock_check. pose proof (fun l => check_ts_conflict_no_panic l key ts bypass il Hk) as Hnp.
  destruct (need_check_locks il); [|by destruct (kv_lock a)]. destruct (kv_lock a) as [l|]; [|done].
  specialize (Hnp l). destruct (check_ts_conflict l key ts bypass il) as [[]|er|]; [done| |done]. split; [done|].
  by destruct (TsSet_contains access (lock_ts l)).
Qed.
End Inv.

(** What [get] returns. *)
Lemma pg_get_result e key ts omit il bypass access met : sys_inv e -> user_key key -> txn_ts ts ->
  read_result (view e key) key ts omit il bypass access (pg_get (mk_getter (snap e) omit il ts bypass access met) false key).1.
Proof.
  intros Hr Hk Hts. pose proof (pg_get_cases e key ts Hr Hk omit il bypass access met false) as H. unfold read_result. set (a := view e key) in *.
  assert (forall met', value_result a key ts omit il (pg_load_data (mk_getter (snap e) omit il ts bypass access met) met' key).1) as Hload.
  { intros met'. split.
    - intros Hcase. destruct (newer_dec e key ts Hr Hk Hts) as [Hnew|Hno].
      + destruct (pg_load_data_new e key ts Hr Hk Hts omit il bypass access met met' Hnew) as (v & -> & Hv); [by destruct Hcase|eauto].
      + destruct (pg_load_data_old e key ts Hr Hk Hts omit il bypass access met met' Hno) as (v & -> & Hv). eauto.
    - intros Hnew Hil. destruct (pg_load_data_conflict e key ts Hr Hk Hts omit il bypass access met met' Hnew Hil) as (c & Hn & Hlt & ->). eauto. }
  destruct (lock_check a key il ts bypass) as [u|er|] eqn:El; [rewrite H; apply Hload| |rewrite H; apply Hload].
  destruct (kv_lock a) as [l|] eqn:Ea; [|rewrite H; apply Hload]. destruct H as [Hil ->]. cbn [fst].
  unfold lock_check in El. rewrite Ea, Hil in El. destruct (TsSet_contains access (lock_ts l)); [|done].
  apply (pg_from_lock e key ts Hr Hk Hts omit il bypass access met l er Ea El).
Qed.

(** With debug assertions: the same, but for the locks that fail them. *)
Lemma pg_get_debug e key ts omit il bypass access met : sys_inv e -> user_key key ->
  let g := mk_getter (snap e) omit il ts bypass access met in
  (pg_get g true key).1 = if debug_check_fails (view e key) key ts il bypass access then Panic else (pg_get g false key).1.
Proof.
  intros Hr Hk g. pose proof (pg_get_cases e key ts Hr Hk omit il bypass access met true) as Ht.
  pose proof (pg_get_cases e key ts Hr Hk omit il bypass access met false) as Hf. unfold debug_check_fails. fold g in Ht, Hf. set (a := view e key) in *.
  destruct (lock_check a key il ts bypass) as [u|er|]; [by rewrite Ht, Hf| |by rewrite Ht, Hf].
  destruct (kv_lock a) as [l|]; [|by rewrite Ht, Hf]. destruct Ht as [_ ->], Hf as [_ ->]. cbn [fst].
  destruct (TsSet_contains access (lock_ts l)); [|done]. unfold pg_load_data_from_lock. cbn [negb orb andb rassert g pg_ts].
  by destruct ((lock_ts l <? ts) && (lock_min_commit_ts l <=? ts)).
Qed.


(** A get that was asked whether there is newer data answers exactly: the
    answer is that nothing newer was met if and only if no version of the key
    is newer than the read's timestamp and no lock of the key was looked at. *)
Theorem newer_data_noted_exactly debug e key ts il bypass access :
  reachable e -> user_key key -> txn_ts ts ->
  let a := view e key in
  let met := (pg_get (pg_build (snap e) false il ts bypass access true) debug key).2 in
  (met = Met <-> (need_check_locks il = true /\ is_Some (kv_lock a)) \/ newer_than a ts) /\ met <> Unknown.
Proof.
  intros Hr%reachable_inv Hk Hts a met. unfold met, pg_build. pose proof (pg_get_cases e key ts Hr Hk false il bypass access NotMetYet debug) as H. fold a in H.
  assert (forall met', met' = Met \/ met' = NotMetYet ->
    ((pg_load_data (mk_getter (snap e) false il ts bypass access NotMetYet) met' key).2 = Met <-> met' = Met \/ newer_than a ts)
    /\ (pg_load_data (mk_getter (snap e) false il ts bypass access NotMetYet) met' key).2 <> Unknown) as Hload.
  { intros met' Hmet. destruct (newer_dec e key ts Hr Hk Hts) as [Hnew|Hno].
    - assert ((pg_load_data (mk_getter (snap e) false il ts bypass access NotMetYet) met' key).2 = meet met') as ->.
      { destruct (decide (il = RcCheckTs)) as [Hil|Hil].
        - destruct (pg_load_data_conflict e key ts Hr Hk Hts false il bypass access NotMetYet met' Hnew Hil) as (c & _ & _ & ->). done.
        - destruct (pg_load_data_new e key ts Hr Hk Hts false il bypass access NotMetYet met' Hnew Hil) as (v & -> & _). done. }
      destruct Hmet as [-> | ->]; split; try done; split; auto.
    - destruct (pg_load_data_old e key ts Hr Hk Hts false il bypass access NotMetYet met' Hno) as (v & -> & _). cbn.
      destruct Hmet as [-> | ->]; split; try done; split; try done; auto. intros [?|?]; done. }
  destruct (lock_check a key il ts bypass) as [u|er|] eqn:El.
  - rewrite H. destruct (need_check_locks il) eqn:En; cbn [andb].
    + destruct (kv_lock a) as [l|] eqn:Ea.
      * rewrite bool_decide_eq_true_2 by eauto. destruct (Hload (meet NotMetYet)) as [Hm Hu]; [by left|]. rewrite Hm. split; [|done].
        split; [left; eauto|]. left. done.
      * rewrite bool_decide_eq_false_2 by (by intros [? ?]). destruct (Hload NotMetYet) as [Hm Hu]; [by right|]. rewrite Hm. split; [|done].
        split; [intros [?|?]; [done|by right]|]. intros [[_ [? ?]]|?]; [done|by right].
    + destruct (Hload NotMetYet) as [Hm Hu]; [by right|]. rewrite Hm. split; [|done].
      split; [intros [?|?]; [done|by right]|]. intros [[? _]|?]; [done|by right].
  - unfold lock_check in El. destruct (kv_lock a) as [l|] eqn:Ea; [|done]. destruct H as [Hil ->]. split; [|done].
    split; [left; eauto|done].
  - exfalso. unfold lock_check in El. destruct (kv_lock a) as [l|]; [|done]. destruct (need_check_locks il); [|done].
    by destruct (check_ts_conflict_no_panic l key ts bypass il Hk).
Qed.

(** ** Samples *)

Lemma e4_reachable : reachable e4.
Proof. unfold reachable. etrans; [exact e2_steps|exact e4_steps]. Qed.

Lemma e4_unlocked : kv_lock (view e4 k) = None.
Proof. vm_compute. reflexivity. Qed.


Lemma newer_data_noted_exactly_witness :
  ((pg_get (pg_build (snap e4) false Si 11 TsEmpty TsEmpty true) true k).2 = Met <->
     (need_check_locks Si = true /\ is_Some (kv_lock (view e4 k))) \/ newer_than (view e4 k) 11) /\
  (pg_get (pg_build (snap e4) false Si 11 TsEmpty TsEmpty true) true k).2 <> Unknown.
Proof. apply (newer_data_noted_exactly true e4 k 11 Si TsEmpty TsEmpty e4_reachable k_user). done. Defined.

(** The debug assertion is not kept by its callers: a client that reads at the
    start timestamp of a lock and may read through it gets the value in a
    release build, and stops a debug build. *)
Lemma debug_check_can_fail :
  (pg_get (mk_getter (snap e1) false Si 5 TsEmpty (TsVec [5]) Unknown) false k).1 = Ok (Some [Byte.x61]) /\
  (pg_get (mk_getter (snap e1) false Si 5 TsEmpty (TsVec [5]) Unknown) true k).1 = Panic.
Proof. vm_compute. auto. Qed.
