(* ===== verification/Scanner.v ===== *)
(** * Range scans
    (src/storage/mvcc/reader/scanner/{mod,forward,backward}.rs,
    src/storage/txn/store.rs)

    A scanner walks over a range of user keys with a cursor on the lock and
    one on the write column family, and looks up long values with a third one
    on the default column family. The forward scanner is parameterised by what
    it does with the locks and records it meets. Of the statistics only those
    that decide how the third cursor is moved are kept. *)
From S2P Require Import Prelude Number Bytes Timestamp Key Fields Lock Write OrderedMap PeerLocks Engine.
From S2P Require Import ConcurrencyManager Reader Cursor AsyncCommit PointGetter.
Local Open Scope Z_scope.

(** ** Configuration and state *)

Record ScannerConfig := mk_scan_cfg {
  sc_snapshot : Snapshot;
  sc_omit_value : bool;
  sc_isolation_level : IsolationLevel;
  sc_lower_bound : option Key;
  sc_upper_bound : option Key;
  sc_ts : TimeStamp;
  sc_desc : bool;
  sc_bypass_locks : TsSet;
  sc_access_locks : TsSet;
  sc_check_has_newer_ts_data : bool
}.

(** [ScannerConfig::new]; the methods of [ScannerBuilder] set its fields. *)
Definition scan_cfg_new (snapshot : Snapshot) (ts : TimeStamp) : ScannerConfig :=
  mk_scan_cfg snapshot false Si None None ts false TsEmpty TsEmpty false.

Definition scan_mode (cfg : ScannerConfig) : ScanMode := if sc_desc cfg then ScanMixed else ScanForward.

Definition take_bounds (cfg : ScannerConfig) : ScannerConfig :=
  mk_scan_cfg (sc_snapshot cfg) (sc_omit_value cfg) (sc_isolation_level cfg) None None (sc_ts cfg) (sc_desc cfg)
    (sc_bypass_locks cfg) (sc_access_locks cfg) (sc_check_has_newer_ts_data cfg).

(** The counters [load_data_hint] compares. *)
Record Statistics := mk_stats { st_write_over_seek_bound : Z; st_last_write_over_seek_bound : Z }.

Inductive LoadDataHint := HintNearSeek | HintSeek.

Definition load_data_hint (st : Statistics) : LoadDataHint * Statistics :=
  (if negb (st_write_over_seek_bound st =? st_last_write_over_seek_bound st) then HintSeek else HintNearSeek,
   mk_stats (st_write_over_seek_bound st) (st_write_over_seek_bound st)).

(** The fields of [ForwardScanner] and of [BackwardKvScanner]. *)
Record ScanState (I : Type) := mk_scan {
  ss_cfg : ScannerConfig;
  ss_lock : option (Cursor I);
  ss_write : Cursor I;
  ss_default : option (Cursor I);
  ss_is_started : bool;
  ss_stats : Statistics;
  ss_met : NewerTsCheckState
}.
Arguments mk_scan {I}.
Arguments ss_cfg {I}.
Arguments ss_lock {I}.
Arguments ss_write {I}.
Arguments ss_default {I}.
Arguments ss_is_started {I}.
Arguments ss_stats {I}.
Arguments ss_met {I}.

(** ** Code that runs on a scanner *)

Section Ops.
  Context {I : Type} `{Iterator I}.

Definition SM (A : Type) : Type := ScanState I -> mres A * ScanState I.

#[export] Instance SM_ret : MRet SM := fun A a s => (Ok a, s).
#[export] Instance SM_bind : MBind SM := fun A B f m s =>
  match m s with
  | (Ok a, s) => f a s
  | (Err e, s) => (Err e, s)
  | (Panic, s) => (Panic, s)
  end.

Definition slift {A} (r : mres A) : SM A := fun s => (r, s).
Definition sget : SM (ScanState I) := fun s => (Ok s, s).
Definition sassert (b : bool) : SM unit := fun s => (if b then Ok tt else Panic, s).

Definition set_cfg (s : ScanState I) (cfg : ScannerConfig) : ScanState I :=
  mk_scan cfg (ss_lock s) (ss_write s) (ss_default s) (ss_is_started s) (ss_stats s) (ss_met s).
Definition set_lock (s : ScanState I) (c : Cursor I) : ScanState I :=
  mk_scan (ss_cfg s) (Some c) (ss_write s) (ss_default s) (ss_is_started s) (ss_stats s) (ss_met s).
Definition set_write (s : ScanState I) (c : Cursor I) : ScanState I :=
  mk_scan (ss_cfg s) (ss_lock s) c (ss_default s) (ss_is_started s) (ss_stats s) (ss_met s).
Definition set_default (s : ScanState I) (c : Cursor I) : ScanState I :=
  mk_scan (ss_cfg s) (ss_lock s) (ss_write s) (Some c) (ss_is_started s) (ss_stats s) (ss_met s).
Definition set_started (s : ScanState I) : ScanState I :=
  mk_scan (ss_cfg s) (ss_lock s) (ss_write s) (ss_default s) true (ss_stats s) (ss_met s).
Definition set_stats (s : ScanState I) (st : Statistics) : ScanState I :=
  mk_scan (ss_cfg s) (ss_lock s) (ss_write s) (ss_default s) (ss_is_started s) st (ss_met s).
Definition set_met (s : ScanState I) (met : NewerTsCheckState) : ScanState I :=
  mk_scan (ss_cfg s) (ss_lock s) (ss_write s) (ss_default s) (ss_is_started s) (ss_stats s) met.

Definition modify (f : ScanState I -> ScanState I) : SM unit := fun s => (Ok tt, f s).

(** [statistics.write.over_seek_bound += n] *)
Definition over_seek_bound (over : bool) : SM unit :=
  modify (fun s => set_stats s (mk_stats (st_write_over_seek_bound (ss_stats s) + if over then 1 else 0)
                                  (st_last_write_over_seek_bound (ss_stats s)))).

(** [if self.met_newer_ts_data == NotMetYet { self.met_newer_ts_data = Met }] *)
Definition note_newer : SM unit := modify (fun s => set_met s (meet (ss_met s))).

(** A call on one of the cursors; the optional ones are unwrapped. *)
Definition on_write {A} (f : Cursor I -> res kv_error (A * Cursor I)) : SM A := fun s =>
  match f (ss_write s) with
  | Ok (a, c) => (Ok a, set_write s c)
  | Err e => (Err (MKv e), s)
  | Panic => (Panic, s)
  end.
Definition on_lock {A} (f : Cursor I -> res kv_error (A * Cursor I)) : SM A := fun s =>
  match ss_lock s with
  | None => (Panic, s)
  | Some c =>
      match f c with
      | Ok (a, c) => (Ok a, set_lock s c)
      | Err e => (Err (MKv e), s)
      | Panic => (Panic, s)
      end
  end.
Definition on_default {A} (f : Cursor I -> res kv_error (A * Cursor I)) : SM A := fun s =>
  match ss_default s with
  | None => (Panic, s)
  | Some c =>
      match f c with
      | Ok (a, c) => (Ok a, set_default s c)
      | Err e => (Err (MKv e), s)
      | Panic => (Panic, s)
      end
  end.

(** A look at a cursor. *)
Definition peek {A} (f : Cursor I -> res kv_error A) (c : Cursor I) : res kv_error (A * Cursor I) := a ← f c; Ok (a, c).
(** A near seek, with whether it went over its bound as a result. *)
Definition nearly (f : Cursor I -> res kv_error (bool * Cursor I * bool)) (c : Cursor I) : res kv_error (bool * Cursor I) :=
  '(_, c, over) ← f c; Ok (over, c).

Definition write_valid : SM bool := on_write (peek cursor_valid).
Definition write_key : SM bytes := on_write (peek cursor_key).
Definition write_value : SM bytes := on_write (peek cursor_value).

(** ** What the scanners share *)

(** [create_cf_cursor_with_scan_mode]: a cursor on the default column family
    takes the bounds from the configuration. *)
Definition create_cf_cursor_with_scan_mode (cfg : ScannerConfig) (c : CfName) (mode : ScanMode) :
    mres (Cursor I * ScannerConfig) :=
  iter ← map_err MKv (iter_new (engine_get_cf (snap_engine (sc_snapshot cfg)) c) (sc_lower_bound cfg) (sc_upper_bound cfg));
  Ok (cursor_new iter mode false, if bool_decide (c = CF_DEFAULT) then take_bounds cfg else cfg).

Definition create_cf_cursor (cfg : ScannerConfig) (c : CfName) : mres (Cursor I * ScannerConfig) :=
  create_cf_cursor_with_scan_mode cfg c (scan_mode cfg).

Definition ensure_default_cursor : SM unit :=
  s ← sget;
  match ss_default s with
  | Some _ => mret tt
  | None =>
      '(c, cfg) ← slift (create_cf_cursor (ss_cfg s) CF_DEFAULT);
      modify (fun s => set_default (set_cfg s cfg) c)
  end.

(** The lookup of a long value, by a seek in either direction. *)
Definition load_at (near : Cursor I -> Key -> res kv_error (bool * Cursor I * bool))
    (seek : Cursor I -> Key -> res kv_error (bool * Cursor I)) (user_key : Key) (write_start_ts : TimeStamp) : SM Value :=
  let seek_key := append_ts user_key write_start_ts in
  s ← sget;
  let '(hint, st) := load_data_hint (ss_stats s) in
  _ ← modify (fun s => set_stats s st);
  _ ← on_default (fun c => match hint with HintNearSeek => nearly (fun c => near c seek_key) c | HintSeek => seek c seek_key end);
  here ← on_default (peek (fun c => valid_and c (fun k => bool_decide (k = seek_key))));
  if (here : bool) then on_default (peek cursor_value) else slift (Err (MDefaultNotFound seek_key)).

Definition near_load_data_by_write : Key -> TimeStamp -> SM Value := load_at near_seek cursor_seek.
Definition near_reverse_load_data_by_write : Key -> TimeStamp -> SM Value := load_at near_seek_for_prev cursor_seek_for_prev.

Definition load_data_by_lock (current_user_key : Key) (lock : Lock) : SM (option Value) :=
  s ← sget;
  match lock_type lock with
  | LTPut =>
      if sc_omit_value (ss_cfg s) then mret (Some [])
      else
        match lock_short_value lock with
        | Some value => mret (Some value)
        | None =>
            value ← (if sc_desc (ss_cfg s) then near_reverse_load_data_by_write current_user_key (lock_ts lock)
                     else near_load_data_by_write current_user_key (lock_ts lock));
            mret (Some value)
        end
  | LTDelete => mret None
  | LTLock | LTPessimistic => slift Panic
  end.

(** ** The forward scanner *)

Inductive HandleRes (T : Type) := HReturn (output : T) | HSkip (key : Key) | HMoveToNext.
Arguments HReturn {T}.
Arguments HSkip {T}.
Arguments HMoveToNext {T}.

(** The trait [ScanPolicy]. *)
Record ScanPolicy (Output : Type) := mk_policy {
  handle_lock : Key -> SM (HandleRes Output);
  handle_write : Key -> SM (HandleRes Output)
}.
Arguments handle_lock {Output}.
Arguments handle_write {Output}.

(** The rounds of [for i in 0..SEEK_BOUND] that are left; every round but the
    first moves the cursor. *)
Fixpoint next_user_key_loop (n : nat) (first : bool) (current_user_key : Key) : SM unit :=
  match n with
  | O =>
      _ ← over_seek_bound true;
      _ ← on_write (fun c => internal_seek c (append_ts current_user_key 0));
      mret tt
  | S n =>
      _ ← (if first then mret false else on_write cursor_next);
      valid ← write_valid;
      if negb valid then mret tt
      else
        current_key ← write_key;
        if negb (is_user_key_eq current_key current_user_key) then mret tt
        else next_user_key_loop n false current_user_key
  end.

Definition move_write_cursor_to_next_user_key : Key -> SM unit := next_user_key_loop (Z.to_nat SEEK_BOUND) true.

Fixpoint to_ts_loop (n : nat) (first : bool) (user_key : Key) : SM bool :=
  match n with
  | O =>
      s ← sget;
      _ ← over_seek_bound true;
      _ ← on_write (fun c => cursor_seek c (append_ts user_key (sc_ts (ss_cfg s))));
      valid ← write_valid;
      if negb valid then mret false
      else
        current_key ← write_key;
        mret (is_user_key_eq current_key user_key)
  | S n =>
      s ← sget;
      valid ← (if first then mret true else _ ← on_write cursor_next; write_valid);
      if negb valid then mret false
      else
        current_key ← write_key;
        if negb (is_user_key_eq current_key user_key) then mret false
        else
          key_commit_ts ← slift (map_err MCodec (decode_ts_from current_key));
          if key_commit_ts <=? sc_ts (ss_cfg s) then mret true
          else
            _ ← note_newer;
            if bool_decide (sc_isolation_level (ss_cfg s) = RcCheckTs) then
              slift (Err (MWriteConflict (sc_ts (ss_cfg s)) 0 key_commit_ts current_key [] ReasonRcCheckTs))
            else to_ts_loop n false user_key
  end.

Definition move_write_cursor_to_ts (user_key : Key) : SM bool :=
  valid ← write_valid;
  _ ← sassert valid;
  to_ts_loop (Z.to_nat SEEK_BOUND) true user_key.

(** *** The policy of key-value scans *)

Definition latest_kv_handle_lock (current_user_key : Key) : SM (HandleRes (Key * Value)) :=
  s ← sget;
  let cfg := ss_cfg s in
  if bool_decide (sc_isolation_level cfg = Rc) then mret (HSkip current_user_key)
  else
    lock_value ← on_lock (peek cursor_value);
    lock ← slift (map_err mvcc_error_from_txn (lock_parse lock_value));
    _ ← on_lock cursor_next;
    match check_ts_conflict lock current_user_key (sc_ts cfg) (sc_bypass_locks cfg) (sc_isolation_level cfg) with
    | Ok _ => mret (HSkip current_user_key)
    | Err e =>
        _ ← move_write_cursor_to_next_user_key current_user_key;
        if TsSet_contains (sc_access_locks cfg) (lock_ts lock) then
          _ ← ensure_default_cursor;
          val ← load_data_by_lock current_user_key lock;
          mret (match val with Some v => HReturn (current_user_key, v) | None => HMoveToNext end)
        else slift (Err (mvcc_error_from_txn e))
    | Panic => slift Panic
    end.

(** How the loop of [handle_write] ends: with a value or none to return after
    moving on, or on another key already. *)
Inductive FoundWrite := FoundValue (v : option Value) | FoundNone.

Fixpoint latest_kv_loop (fuel : nat) (current_user_key : Key) : SM FoundWrite :=
  match fuel with
  | O => slift Panic
  | S fuel =>
      s ← sget;
      let cfg := ss_cfg s in
      value ← write_value;
      write ← slift (map_err mvcc_error_from_txn (write_parse value));
      let go_on :=
        valid ← write_valid;
        if negb valid then mret FoundNone
        else
          current_key ← write_key;
          if negb (is_user_key_eq current_key current_user_key) then mret FoundNone
          else latest_kv_loop fuel current_user_key in
      if negb (check_gc_fence_as_latest_version write (sc_ts cfg)) then mret (FoundValue None)
      else
        match write_type write with
        | WTPut =>
            if sc_omit_value cfg then mret (FoundValue (Some []))
            else
              match write_short_value write with
              | Some value => mret (FoundValue (Some value))
              | None =>
                  _ ← ensure_default_cursor;
                  value ← near_load_data_by_write current_user_key (write_start_ts write);
                  mret (FoundValue (Some value))
              end
        | WTDelete => mret (FoundValue None)
        | WTLock | WTRollback =>
            match write_last_change write with
            | LCNotExist => mret (FoundValue None)
            | LCExist last_change_ts versions =>
                if SEEK_BOUND <=? versions then
                  _ ← on_write (fun c => cursor_seek c (append_ts current_user_key last_change_ts)); go_on
                else _ ← on_write cursor_next; go_on
            | LCUnknown => _ ← on_write cursor_next; go_on
            end
        end
  end.

(** Every round but the last moves the cursor on. *)
Definition scan_fuel (cfg : ScannerConfig) : nat :=
  S (S (size (engine_get_cf (snap_engine (sc_snapshot cfg)) CF_WRITE) + size (engine_get_cf (snap_engine (sc_snapshot cfg)) CF_LOCK))).

Definition latest_kv_handle_write (current_user_key : Key) : SM (HandleRes (Key * Value)) :=
  s ← sget;
  r ← latest_kv_loop (scan_fuel (ss_cfg s)) current_user_key;
  match r with
  | FoundNone => mret (HSkip current_user_key)
  | FoundValue value =>
      _ ← move_write_cursor_to_next_user_key current_user_key;
      mret (match value with Some v => HReturn (current_user_key, v) | None => HSkip current_user_key end)
  end.

Definition LatestKvPolicy : ScanPolicy (Key * Value) := mk_policy _ latest_kv_handle_lock latest_kv_handle_write.

(** *** The scan *)

Definition if_lock (f : Cursor I -> res kv_error (bool * Cursor I)) : SM unit :=
  s ← sget;
  match ss_lock s with Some _ => _ ← on_lock f; mret tt | None => mret tt end.

Definition forward_start : SM unit :=
  s ← sget;
  if ss_is_started s then mret tt
  else
    _ ← (match sc_lower_bound (ss_cfg s) with
         | Some bound => _ ← on_write (fun c => cursor_seek c bound); if_lock (fun c => cursor_seek c bound)
         | None => _ ← on_write cursor_seek_to_first; if_lock cursor_seek_to_first
         end);
    modify set_started.

Definition cursor_keys : SM (option bytes * option bytes) :=
  w_valid ← write_valid;
  w_key ← (if (w_valid : bool) then k ← write_key; mret (Some k) else mret None);
  s ← sget;
  l_key ← (match ss_lock s with
           | Some _ =>
               l_valid ← on_lock (peek cursor_valid);
               if (l_valid : bool) then k ← on_lock (peek cursor_key); mret (Some k) else mret None
           | None => mret None
           end);
  mret (w_key, l_key).

(** The key to deal with, and whether it has a write and a lock; [desc] turns
    the comparison round for the backward scanner. *)
Definition current_of (desc : bool) (keys : option bytes * option bytes) : mres (option (Key * bool * bool)) :=
  match keys with
  | (None, None) => Ok None
  | (None, Some k) => Ok (Some (k, false, true))
  | (Some k, None) => k ← map_err MCodec (truncate_ts_for k); Ok (Some (k, true, false))
  | (Some wk, Some lk) =>
      write_user_key ← map_err MCodec (truncate_ts_for wk);
      Ok (Some (match bcmp write_user_key lk, desc with
                | Lt, false | Gt, true => (write_user_key, true, false)
                | Gt, false | Lt, true => (lk, false, true)
                | Eq, _ => (lk, true, true)
                end))
  end.

Fixpoint read_next_loop {Out} (policy : ScanPolicy Out) (fuel : nat) : SM (option Out) :=
  match fuel with
  | O => slift Panic
  | S fuel =>
      keys ← cursor_keys;
      current ← slift (current_of false keys);
      match current with
      | None => mret None
      | Some (current_user_key, has_write, has_lock) =>
          locked ← (if (has_lock : bool) then _ ← note_newer; handle_lock policy current_user_key
                    else mret (HSkip current_user_key));
          match locked with
          | HReturn output => mret (Some output)
          | HMoveToNext => read_next_loop policy fuel
          | HSkip current_user_key =>
              written ← (if (has_write : bool) then
                           is_current_user_key ← move_write_cursor_to_ts current_user_key;
                           if (is_current_user_key : bool) then handle_write policy current_user_key
                           else mret (HSkip current_user_key)
                         else mret (HSkip current_user_key));
              match written with HReturn output => mret (Some output) | _ => read_next_loop policy fuel end
          end
      end
  end.

Definition forward_read_next {Out} (policy : ScanPolicy Out) : SM (option Out) :=
  _ ← forward_start;
  s ← sget;
  read_next_loop policy (scan_fuel (ss_cfg s)).

(** ** The backward scanner *)

Definition REVERSE_SEEK_BOUND : Z := 16.

(** The result of a call, kept as a value. *)
Definition attempt {A} (m : SM A) : SM (mres A) := fun s =>
  match m s with
  | (Panic, s) => (Panic, s)
  | (r, s) => (Ok r, s)
  end.

Definition reverse_load_data_by_write (write : Write) (user_key : Key) : SM Value :=
  s ← sget;
  if sc_omit_value (ss_cfg s) then mret []
  else
    match write_short_value write with
    | Some value => mret value
    | None => _ ← ensure_default_cursor; near_reverse_load_data_by_write user_key (write_start_ts write)
    end.

Definition handle_last_version (some_write : option Write) (user_key : Key) : SM (option Value) :=
  match some_write with
  | None => mret None
  | Some write =>
      s ← sget;
      if negb (check_gc_fence_as_latest_version write (sc_ts (ss_cfg s))) then mret None
      else
        match write_type write with
        | WTPut => v ← reverse_load_data_by_write write user_key; mret (Some v)
        | WTDelete => mret None
        | WTLock | WTRollback => slift Panic
        end
  end.

(** How the rounds of [prev] of [reverse_get] end: at a version that is not
    wanted, at another key (then [met_prev_user_key]) or at the end of the key
    space; or after [REVERSE_SEEK_BOUND] versions. *)
Inductive PrevRounds :=
| PrevDone (last_version : option Write) (met_prev_user_key : bool)
| PrevBound (last_version : option Write) (last_checked_commit_ts : TimeStamp).

Fixpoint prev_rounds (n : nat) (first : bool) (user_key : Key) (ts : TimeStamp) (last_version : option Write)
    (last_checked_commit_ts : TimeStamp) : SM PrevRounds :=
  match n with
  | O => mret (PrevBound last_version last_checked_commit_ts)
  | S n =>
      valid ← (if first then mret true else _ ← on_write cursor_prev; write_valid);
      if negb valid then mret (PrevDone last_version false)
      else
        s ← sget;
        current_key ← write_key;
        last_checked_commit_ts ← slift (map_err MCodec (decode_ts_from current_key));
        if negb (is_user_key_eq current_key user_key) then mret (PrevDone last_version true)
        else if ts <? last_checked_commit_ts then
          _ ← note_newer;
          if bool_decide (sc_isolation_level (ss_cfg s) = RcCheckTs) then
            slift (Err (MWriteConflict (sc_ts (ss_cfg s)) 0 last_checked_commit_ts current_key [] ReasonRcCheckTs))
          else mret (PrevDone last_version false)
        else
          value ← write_value;
          write ← slift (map_err mvcc_error_from_txn (write_parse value));
          prev_rounds n false user_key ts
            (match write_type write with WTPut | WTDelete => Some write | WTLock | WTRollback => last_version end)
            last_checked_commit_ts
  end.

(** Whether there is a version after the wanted one, when that one is at [ts];
    the result is [met_prev_user_key]. *)
Definition check_newer_at (user_key : Key) : SM bool :=
  s ← sget;
  if bool_decide (ss_met s = NotMetYet) then
    _ ← on_write cursor_prev;
    valid ← write_valid;
    if (valid : bool) then
      current_key ← write_key;
      if is_user_key_eq current_key user_key then _ ← modify (fun s => set_met s Met); mret false else mret true
    else mret false
  else mret false.

Fixpoint after_seek_loop (fuel : nat) (user_key : Key) (last_version : option Write)
    (last_checked_commit_ts : TimeStamp) : SM (option Value) :=
  match fuel with
  | O => slift Panic
  | S fuel =>
      s ← sget;
      current_key ← write_key;
      current_ts ← slift (map_err MCodec (decode_ts_from current_key));
      if current_ts <=? last_checked_commit_ts then handle_last_version last_version user_key
      else
        value ← write_value;
        write ← slift (map_err mvcc_error_from_txn (write_parse value));
        if negb (check_gc_fence_as_latest_version write (sc_ts (ss_cfg s))) then mret None
        else
          match write_type write with
          | WTPut => v ← reverse_load_data_by_write write user_key; mret (Some v)
          | WTDelete => mret None
          | WTLock | WTRollback =>
              _ ← on_write cursor_next;
              valid ← write_valid;
              _ ← sassert valid;
              after_seek_loop fuel user_key last_version last_checked_commit_ts
          end
  end.

(** The part of [reverse_get] after the rounds of [prev]. *)
Definition seek_wanted (user_key : Key) (ts : TimeStamp) (last_version : option Write)
    (last_checked_commit_ts : TimeStamp) : SM (option Value) :=
  _ ← sassert (last_checked_commit_ts <? ts);
  s ← sget;
  _ ← (if bool_decide (ss_met s = NotMetYet) then
         _ ← on_write (fun c => internal_seek c (append_ts user_key ts_max));
         valid ← write_valid;
         _ ← sassert valid;
         current_key ← write_key;
         key_ts ← slift (map_err MCodec (decode_ts_from current_key));
         _ ← (if ts <? key_ts then modify (fun s => set_met s Met) else mret tt);
         over ← on_write (nearly (fun c => near_seek c (append_ts user_key ts)));
         over_seek_bound over
       else _ ← on_write (fun c => internal_seek c (append_ts user_key ts)); mret tt);
  valid ← write_valid;
  _ ← sassert valid;
  after_seek_loop (scan_fuel (ss_cfg s)) user_key last_version last_checked_commit_ts.

(** [reverse_get]; the boolean is [met_prev_user_key]. *)
Definition reverse_get (user_key : Key) (ts : TimeStamp) : SM (mres (option Value) * bool) :=
  valid ← attempt write_valid;
  match valid with
  | Ok valid =>
      _ ← sassert valid;
      rounds ← attempt (prev_rounds (Z.to_nat REVERSE_SEEK_BOUND) true user_key ts None 0);
      match rounds with
      | Ok (PrevDone last_version met_prev_user_key) =>
          r ← attempt (handle_last_version last_version user_key); mret (r, met_prev_user_key)
      | Ok (PrevBound last_version last_checked_commit_ts) =>
          if last_checked_commit_ts =? ts then
            met_prev_user_key ← attempt (check_newer_at user_key);
            match met_prev_user_key with
            | Ok met_prev_user_key => r ← attempt (handle_last_version last_version user_key); mret (r, met_prev_user_key)
            | Err e => mret (Err e, false)
            | Panic => slift Panic
            end
          else r ← attempt (seek_wanted user_key ts last_version last_checked_commit_ts); mret (r, false)
      | Err e => mret (Err e, false)
      | Panic => slift Panic
      end
  | Err e => mret (Err e, false)
  | Panic => slift Panic
  end.

Fixpoint prev_user_key_loop (n : nat) (first : bool) (current_user_key : Key) : SM unit :=
  match n with
  | O =>
      _ ← over_seek_bound true;
      _ ← on_write (fun c => internal_seek_for_prev c current_user_key);
      mret tt
  | S n =>
      _ ← (if first then mret false else on_write cursor_prev);
      valid ← write_valid;
      if negb valid then mret tt
      else
        current_key ← write_key;
        if negb (is_user_key_eq current_key current_user_key) then mret tt
        else prev_user_key_loop n false current_user_key
  end.

Definition move_write_cursor_to_prev_user_key : Key -> SM unit := prev_user_key_loop (Z.to_nat SEEK_BOUND) true.

Definition backward_start : SM unit :=
  s ← sget;
  if ss_is_started s then mret tt
  else
    _ ← (match sc_upper_bound (ss_cfg s) with
         | Some bound => _ ← on_write (fun c => reverse_seek c bound); if_lock (fun c => reverse_seek c bound)
         | None => _ ← on_write cursor_seek_to_last; if_lock cursor_seek_to_last
         end);
    modify set_started.

(** What the lock of the current key means: the result so far, and whether the
    records of the key are still to be read. *)
Definition backward_lock (current_user_key : Key) (has_write : bool) : SM (mres (option Value) * bool) :=
  s ← sget;
  let cfg := ss_cfg s in
  r ← (if need_check_locks (sc_isolation_level cfg) then
         lock_value ← on_lock (peek cursor_value);
         lock ← slift (map_err mvcc_error_from_txn (lock_parse lock_value));
         _ ← note_newer;
         match check_ts_conflict lock current_user_key (sc_ts cfg) (sc_bypass_locks cfg) (sc_isolation_level cfg) with
         | Ok _ => mret (Ok None, has_write)
         | Err e =>
             if TsSet_contains (sc_access_locks cfg) (lock_ts lock) then
               _ ← ensure_default_cursor;
               result ← attempt (load_data_by_lock current_user_key lock);
               if has_write then _ ← move_write_cursor_to_prev_user_key current_user_key; mret (result, false)
               else mret (result, false)
             else mret (Err (mvcc_error_from_txn e), has_write)
         | Panic => slift Panic
         end
       else mret (Ok None, has_write));
  _ ← if_lock cursor_prev;
  mret r.

Fixpoint backward_loop (fuel : nat) : SM (option (Key * Value)) :=
  match fuel with
  | O => slift Panic
  | S fuel =>
      keys ← cursor_keys;
      current ← slift (current_of true keys);
      match current with
      | None => mret None
      | Some (current_user_key, has_write, has_lock) =>
          s ← sget;
          let ts := sc_ts (ss_cfg s) in
          '(result, has_write) ← (if (has_lock : bool) then backward_lock current_user_key has_write
                                  else mret (Ok None, has_write));
          result ← (if (has_write : bool) then
                      '(result, met_prev_user_key) ← (match result with
                                                      | Ok _ => reverse_get current_user_key ts
                                                      | _ => mret (result, false)
                                                      end);
                      if negb met_prev_user_key then
                        _ ← move_write_cursor_to_prev_user_key current_user_key; mret result
                      else mret result
                    else mret result);
          value ← slift result;
          match value with
          | Some v => mret (Some (current_user_key, v))
          | None => backward_loop fuel
          end
      end
  end.

Definition backward_read_next : SM (option (Key * Value)) :=
  _ ← backward_start;
  s ← sget;
  backward_loop (scan_fuel (ss_cfg s)).

(** ** Scanners of a store *)

(** [ScannerBuilder::build] *)
Definition scanner_build (cfg : ScannerConfig) : mres (ScanState I) :=
  '(lock_cursor, cfg) ← (if need_check_locks (sc_isolation_level cfg) then '(c, cfg) ← create_cf_cursor cfg CF_LOCK; Ok (Some c, cfg)
                         else Ok (None, cfg));
  '(write_cursor, cfg) ← create_cf_cursor cfg CF_WRITE;
  Ok (mk_scan cfg lock_cursor write_cursor None false (mk_stats 0 0)
        (if sc_check_has_newer_ts_data cfg then NotMetYet else Unknown)).

(** [Scanner::next] *)
Definition scanner_next : SM (option (Key * Value)) :=
  s ← sget; if sc_desc (ss_cfg s) then backward_read_next else forward_read_next LatestKvPolicy.

(** [Scanner::scan]: rounds with the results so far. *)
Fixpoint scan_loop (fuel : nat) (limit sample_step row_count : Z) (results : list (mres (bytes * Value))) :
    SM (list (mres (bytes * Value))) :=
  match fuel with
  | O => slift Panic
  | S fuel =>
      if Z.of_nat (length results) <? limit then
        next ← attempt scanner_next;
        match next with
        | Ok (Some (k, v)) =>
            let row_count := if 0 <? sample_step then row_count + 1 else row_count in
            if (0 <? sample_step) && negb ((row_count - 1) mod sample_step =? 0) then
              scan_loop fuel limit sample_step row_count results
            else
              raw ← slift (map_err MCodec (key_to_raw k));
              scan_loop fuel limit sample_step row_count (results ++ [Ok (raw, v)])
        | Ok None => mret results
        | Err (MKeyIsLocked info) => scan_loop fuel limit sample_step row_count (results ++ [Err (MKeyIsLocked info)])
        | Err e => slift (Err e)
        | Panic => slift Panic
        end
      else mret results
  end.

Definition scan (limit sample_step : Z) : SM (list (mres (bytes * Value))) :=
  s ← sget; scan_loop (scan_fuel (ss_cfg s)) limit sample_step 0 [].

End Ops.
Arguments HReturn {T}.
Arguments HSkip {T}.
Arguments HMoveToNext {T}.
Arguments handle_lock {I Output}.
Arguments handle_write {I Output}.
