(* ===== verification/ScanSpec.v ===== *)
(** * Scans and point gets

    The specification of a scan: a point get of every key of the range, in
    order. This file relates the range of a scan and the positions of its
    cursors to the user keys that are left, and has the rules to reason about
    the code of the scanners; the two scanners follow in their own files. *)
From stdpp Require Import sorting.
From S2P Require Import Prelude Number Bytes Timestamp Key Fields Lock Write OrderedMap PeerLocks Engine.
From S2P Require Import ConcurrencyManager Reader Cursor Versions MvccTxn CheckTxnStatus Prewrite Commands.
From S2P Require Import KeyView Protocol ActionSpec ReadSpec PrewriteSpec System Demo Safety AsyncCommit PointGetter Scanner.
Local Open Scope Z_scope.

(** ** The order of versioned keys *)

Lemma user_key_lt_app u1 u2 x y : user_key u1 -> user_key u2 -> blt u1 u2 -> blt (u1 ++ x) (u2 ++ y).
Proof.
  intros [a ->] [b ->]. unfold blt, key_from_raw. rewrite bcmp_encode_asc, bcmp_encode_bytes. by intros ->.
Qed.

Lemma user_key_lt_ts u1 u2 t : user_key u1 -> user_key u2 -> blt u1 u2 -> blt (append_ts u1 t) u2.
Proof. intros H1 H2 Hlt. rewrite <- (app_nil_r u2). by apply user_key_lt_app. Qed.

Lemma user_key_lt_versions u1 u2 t t' : user_key u1 -> user_key u2 -> blt u1 u2 -> blt (append_ts u1 t) (append_ts u2 t').
Proof. apply user_key_lt_app. Qed.

Lemma ble_append_ts u t : ble u (append_ts u t).
Proof. apply ble_app. Qed.

Lemma blt_append_ts u t : is_u64 t -> blt u (append_ts u t).
Proof.
  intros Ht. destruct (proj1 (ble_alt u (append_ts u t)) (ble_append_ts u t)) as [H|H]; [done|].
  apply (f_equal length) in H. rewrite length_append_ts in H. lia.
Qed.

Lemma append_ts_lt k t c : is_u64 t -> is_u64 c -> c < t -> blt (append_ts k t) (append_ts k c).
Proof. intros Ht Hc Hlt. apply not_ble. rewrite append_ts_le by done. lia. Qed.

Lemma user_key_trichotomy (u1 u2 : Key) : blt u1 u2 \/ u1 = u2 \/ blt u2 u1.
Proof. destruct (ble_total u1 u2) as [H|H]; apply ble_alt in H as [H|H]; auto. Qed.

(** The versions of a key are in the range if the key is. *)
Definition opt_user_key (b : option Key) : Prop := forall k, b = Some k -> user_key k.

Definition bounds_wf (lo hi : option Key) : Prop :=
  opt_user_key lo /\ opt_user_key hi /\ (forall l h, lo = Some l -> hi = Some h -> ble l h).

Lemma in_range_iff lo hi k : in_range lo hi k = true <-> (forall l, lo = Some l -> ble l k) /\ (forall h, hi = Some h -> blt k h).
Proof.
  unfold in_range. rewrite andb_true_iff. split.
  - intros [H1 H2]. split; [intros l ->; by apply bleb_le|intros h ->; by apply bltb_lt].
  - intros [H1 H2]. split; [destruct lo; [by apply bleb_le, H1|done]|destruct hi; [by apply bltb_lt, H2|done]].
Qed.

Lemma in_range_append lo hi u t : opt_user_key lo -> opt_user_key hi -> user_key u -> in_range lo hi (append_ts u t) = in_range lo hi u.
Proof.
  intros Hlo Hhi Hu. apply Bool.eq_true_iff_eq. rewrite !in_range_iff. split; intros [H1 H2]; split.
  - intros l El. destruct (user_key_trichotomy l u) as [H|[->|H]]; [by apply blt_ble|apply ble_refl|].
    exfalso. apply (user_key_lt_ts u l t Hu (Hlo l El)) in H. by apply not_ble in H; destruct H; apply H1.
  - intros h Eh. eapply ble_lt_trans; [apply (ble_append_ts u t)|by apply H2].
  - intros l El. eapply ble_trans; [by apply H1|apply ble_append_ts].
  - intros h Eh. apply user_key_lt_ts; [done|by apply Hhi|by apply H2].
Qed.

Lemma in_range_accepts lo hi u t : opt_user_key lo -> opt_user_key hi -> user_key u -> in_range lo hi u = true -> accepts lo hi (append_ts u t).
Proof.
  intros Hlo Hhi Hu Hr. rewrite <- (in_range_append lo hi u t Hlo Hhi Hu) in Hr. apply in_range_iff in Hr as [H1 H2].
  split; [done|]. intros h Eh. by apply blt_ble, H2.
Qed.

(** ** The engine of a range *)

Definition range_engine (lo hi : option Key) (e : Engine) : Engine :=
  mk_engine (range_cf lo hi (cf_default e)) (range_cf lo hi (cf_lock e)) (range_cf lo hi (cf_write e)).

Section Range.
  Context (lo hi : option Key).
  Hypothesis Hlo : opt_user_key lo.
  Hypothesis Hhi : opt_user_key hi.

Lemma range_engine_wf e : engine_wf e -> engine_wf (range_engine lo hi e).
Proof using.
  intros (Hd & Hl & Hw). split_and!; cbn; intros k v [Hk _]%range_cf_lookup; [by eapply Hd|by eapply Hl|by eapply Hw].
Qed.

Lemma range_lookup m u t : user_key u -> in_range lo hi u = true -> range_cf lo hi m !! append_ts u t = m !! append_ts u t.
Proof using Hlo Hhi.
  intros Hu Hr. apply option_eq. intros v. rewrite range_cf_lookup, (in_range_append lo hi u t Hlo Hhi Hu). naive_solver.
Qed.

Lemma range_lookup_out m u t : user_key u -> in_range lo hi u = false -> range_cf lo hi m !! append_ts u t = None.
Proof using Hlo Hhi.
  intros Hu Hr. apply eq_None_not_Some. intros [v [_ Hv]%range_cf_lookup]. rewrite (in_range_append lo hi u t Hlo Hhi Hu) in Hv. congruence.
Qed.

(** A key of the range looks the same; the others are gone. *)
Lemma range_view e u : engine_wf e -> user_key u -> in_range lo hi u = true -> view (range_engine lo hi e) u = view e u.
Proof using Hlo Hhi.
  intros He Hu Hr. pose proof (range_engine_wf e He) as (Hd & _ & Hw). destruct He as (Hd0 & Hl0 & Hw0). unfold view. f_equal.
  - unfold lock_at. assert (cf_lock (range_engine lo hi e) !! u = cf_lock e !! u) as ->; [|done].
    cbn. apply option_eq. intros v. rewrite range_cf_lookup. naive_solver.
  - apply slice_ext; [by apply write_cf_versioned..|done|]. intros c _. by apply range_lookup.
  - apply slice_ext; [done..|]. intros c _. by apply range_lookup.
Qed.

Lemma range_view_out e u : engine_wf e -> user_key u -> in_range lo hi u = false -> view (range_engine lo hi e) u = mk_kv None ∅ ∅.
Proof using Hlo Hhi.
  intros He Hu Hr. pose proof (range_engine_wf e He) as (Hd & _ & Hw). unfold view. f_equal.
  - unfold lock_at. destruct (cf_lock (range_engine lo hi e) !! u) as [v|] eqn:E; [|done]. cbn in E. apply range_cf_lookup in E as [_ E]. congruence.
  - apply map_eq. intros c. rewrite lookup_empty. apply eq_None_not_Some. intros [w Hx].
    apply slice_lookup in Hx as (_ & v & Hv & _); [|by apply write_cf_versioned|done]. cbn in Hv. by rewrite range_lookup_out in Hv.
  - apply map_eq. intros c. rewrite lookup_empty. apply eq_None_not_Some. intros [w Hx].
    apply slice_lookup in Hx as (_ & v & Hv & _); [|done..]. cbn in Hv. by rewrite range_lookup_out in Hv.
Qed.

Lemma range_inv e : sys_inv e -> sys_inv (range_engine lo hi e).
Proof using Hlo Hhi.
  intros [He Hi]. split; [by apply range_engine_wf|]. intros u Hu. destruct (in_range lo hi u) eqn:Er.
  - rewrite range_view by done. by apply Hi.
  - rewrite range_view_out by done. assert (view empty_engine u = mk_kv None ∅ ∅) as <- by (by vm_compute). by apply sys_inv_empty.
Qed.
End Range.

(** ** The keys of a scan *)

(** The user keys with a lock or a record, in order. *)
Definition key_map (L W : cf) : gmap bytes unit :=
  ((fun _ => tt) <$> L) ∪ list_to_map ((fun e => (slice_prefix e.1, tt)) <$> map_to_list W).
Definition scan_keys (L W : cf) : list Key := (entries (key_map L W)).*1.

Definition has_record (W : cf) (u : Key) : Prop := exists c v, is_u64 c /\ W !! append_ts u c = Some v.

Lemma key_map_lookup L W u : write_cf_wf W -> key_map L W !! u = Some tt <-> is_Some (L !! u) \/ has_record W u.
Proof.
  intros Hw. unfold key_map. rewrite lookup_union_Some_raw, lookup_fmap, fmap_None.
  assert ((list_to_map ((fun e => (slice_prefix e.1, tt)) <$> map_to_list W) : gmap bytes unit) !! u = Some tt <-> has_record W u) as Hr.
  { split.
    - intros Hin%elem_of_list_to_map_2. apply list_elem_of_fmap in Hin as ([k v] & [= ->] & Hin). apply elem_of_map_to_list in Hin.
      destruct (Hw _ _ Hin) as (key & ts & w & Hk & Hts & _ & _ & -> & ->). exists ts, (write_to_bytes w). cbn [fst]. by rewrite slice_prefix_append.
    - intros (c & v & Hc & Hv). apply elem_of_list_to_map'; [by intros []|]. apply list_elem_of_fmap. exists (append_ts u c, v). cbn [fst].
      rewrite slice_prefix_append. split; [done|]. by apply elem_of_map_to_list. }
  rewrite Hr. destruct (L !! u) as [v|] eqn:E; cbn; [naive_solver|]. split; [naive_solver|]. intros [[? ?]|?]; naive_solver.
Qed.

Lemma elem_of_scan_keys L W u : write_cf_wf W -> u ∈ scan_keys L W <-> is_Some (L !! u) \/ has_record W u.
Proof.
  intros Hw. unfold scan_keys. rewrite <- (key_map_lookup L W u Hw), list_elem_of_fmap. split.
  - intros ([k []] & -> & Hin). by apply elem_of_entries in Hin.
  - intros Hu. exists (u, tt). split; [done|]. by apply elem_of_entries.
Qed.

Lemma scan_keys_sorted L W : StronglySorted blt (scan_keys L W).
Proof.
  unfold scan_keys. generalize (entries_sorted (key_map L W)). generalize (entries (key_map L W)).
  induction l as [|a l IH]; intros Hs; [constructor|]. apply StronglySorted_cons in Hs as [Ha Hs]. cbn. constructor; [by apply IH|].
  by apply Forall_fmap.
Qed.

Lemma scan_keys_user L W u : write_cf_wf W -> lock_cf_wf L -> u ∈ scan_keys L W -> user_key u.
Proof.
  intros Hw Hl. rewrite elem_of_scan_keys by done. intros [[v Hv]|(c & v & Hc & Hv)].
  - by destruct (Hl _ _ Hv) as (l & ? & _).
  - destruct (Hw _ _ Hv) as (k & t & w & Hk & Ht & _ & _ & E & _). by apply append_ts_inj in E as [-> _].
Qed.

(** ** The specification *)

(** A scan as point gets of the keys: the loop of [Scanner::scan], with a list
    of keys in place of the scanner. *)
Fixpoint gets (get : Key -> mres (option Value)) (keys : list Key) (limit sample_step row_count : Z)
    (results : list (mres (bytes * Value))) : mres (list (mres (bytes * Value))) :=
  if Z.of_nat (length results) <? limit then
    match keys with
    | [] => Ok results
    | k :: keys =>
        match get k with
        | Ok None => gets get keys limit sample_step row_count results
        | Ok (Some v) =>
            let row_count := if 0 <? sample_step then row_count + 1 else row_count in
            if (0 <? sample_step) && negb ((row_count - 1) mod sample_step =? 0) then
              gets get keys limit sample_step row_count results
            else
              raw ← map_err MCodec (key_to_raw k);
              gets get keys limit sample_step row_count (results ++ [Ok (raw, v)])
        | Err (MKeyIsLocked info) => gets get keys limit sample_step row_count (results ++ [Err (MKeyIsLocked info)])
        | Err e => Err e
        | Panic => Panic
        end
    end
  else Ok results.

(** One call of [next]: the first key with something to return, and the keys
    after it. *)
Fixpoint first_get (get : Key -> mres (option Value)) (keys : list Key) : mres (option (Key * Value)) * list Key :=
  match keys with
  | [] => (Ok None, [])
  | k :: keys =>
      match get k with
      | Ok None => first_get get keys
      | Ok (Some v) => (Ok (Some (k, v)), keys)
      | Err e => (Err e, keys)
      | Panic => (Panic, keys)
      end
  end.

(** The results after which [Scanner::scan] calls [next] again. *)
Definition keeps_going (r : mres (option (Key * Value))) : bool :=
  match r with Ok _ | Err (MKeyIsLocked _) => true | _ => false end.

(** ** Rules for the code of the scanners *)

(** Run the first call of a sequence by the equation of its outcome. *)
Tactic Notation "sm_open" := unfold mbind at 1, SM_bind at 1.
Tactic Notation "sm_run" open_constr(E) := sm_open; rewrite E.

Section Calls.
  Context {I : Type} `{Iterator I}.

Lemma set_write_same (s : ScanState I) : set_write s (ss_write s) = s.
Proof. by destruct s. Qed.

Lemma on_write_peek {A} (g : Cursor I -> res kv_error A) s a : g (ss_write s) = Ok a -> on_write (peek g) s = (Ok a, s).
Proof. intros E. unfold on_write, peek. rewrite E. cbn. by rewrite set_write_same. Qed.

Lemma on_write_ok {A} (g : Cursor I -> res kv_error (A * Cursor I)) s a c : g (ss_write s) = Ok (a, c) -> on_write g s = (Ok a, set_write s c).
Proof. intros E. unfold on_write. by rewrite E. Qed.

Lemma on_lock_peek {A} (g : Cursor I -> res kv_error A) s c a : ss_lock s = Some c -> g c = Ok a -> on_lock (peek g) s = (Ok a, s).
Proof. intros Hc E. unfold on_lock, peek. rewrite Hc, E. destruct s; cbn in *. by subst. Qed.

Lemma on_lock_ok {A} (g : Cursor I -> res kv_error (A * Cursor I)) s c a c' : ss_lock s = Some c -> g c = Ok (a, c') -> on_lock g s = (Ok a, set_lock s c').
Proof. intros Hc E. unfold on_lock. by rewrite Hc, E. Qed.

Lemma on_default_peek {A} (g : Cursor I -> res kv_error A) s c a : ss_default s = Some c -> g c = Ok a -> on_default (peek g) s = (Ok a, s).
Proof. intros Hc E. unfold on_default, peek. rewrite Hc, E. destruct s; cbn in *. by subst. Qed.

Lemma on_default_ok {A} (g : Cursor I -> res kv_error (A * Cursor I)) s c a c' : ss_default s = Some c -> g c = Ok (a, c') -> on_default g s = (Ok a, set_default s c').
Proof. intros Hc E. unfold on_default. by rewrite Hc, E. Qed.
End Calls.

(** ** Where a scanner is *)

Section State.
  Context {I : Type} {lo hi : option Key} `{IS : IterSpec I lo hi} (e0 : Engine) (cfg0 : ScannerConfig).
Let mode := scan_mode cfg0.
Let need := need_check_locks (sc_isolation_level cfg0).
Let W := range_cf lo hi (cf_write e0).
Let D := range_cf lo hi (cf_default e0).

(** The locks the scanner looks at. *)
Definition scan_locks : cf := if need then range_cf lo hi (cf_lock e0) else ∅.

(** A cursor that goes forward has noted the end only when it is there. *)
Definition cur_at (c : Cursor I) (m : cf) (p : option (bytes * bytes)) : Prop :=
  cursor_at c m p /\ cu_scan_mode c = mode /\
  (mode = ScanForward -> is_Some p -> cu_max_key c = None).

(** The positions of the cursors; the one on the default column family is, in
    a forward scan, on a key that satisfies [B]. *)
Record state_at (s : ScanState I) (pw pl : option (bytes * bytes)) (B : bytes -> Prop) : Prop := {
  sa_write : cur_at (ss_write s) W pw;
  sa_lock : match ss_lock s with
            | Some c => need = true /\ cur_at c scan_locks pl
            | None => need = false /\ pl = None
            end;
  sa_default : match ss_default s with
               | Some c => ss_cfg s = take_bounds cfg0 /\
                   exists pd, cur_at c D pd /\ (mode = ScanForward -> cu_max_key c = None /\ forall k v, pd = Some (k, v) -> B k)
               | None => ss_cfg s = cfg0
               end;
  sa_started : ss_is_started s = true
}.

Lemma mode_not_backward : mode <> ScanBackward.
Proof using. unfold mode, scan_mode. by destruct (sc_desc cfg0). Qed.

Lemma cur_at_keeps c c' m p p' : cur_at c m p -> cursor_at c' m p' -> keeps c c' -> (mode = ScanForward -> is_Some p' -> is_Some p) -> cur_at c' m p'.
Proof using.
  intros (_ & Hm & Hf) Hc' (Hm' & Ha & Hi) Hp. split; [done|]. split; [congruence|]. intros Hmode Hx. rewrite Ha. by apply Hf, Hp.
Qed.

Lemma state_cfg s pw pl B : state_at s pw pl B -> ss_cfg s = cfg0 \/ ss_cfg s = take_bounds cfg0.
Proof using. intros [_ _ Hd _]. destruct (ss_default s); [right; by destruct Hd|by left]. Qed.

(** The parts of the configuration that stay. *)
Lemma state_cfg_eq s pw pl B : state_at s pw pl B ->
  sc_snapshot (ss_cfg s) = sc_snapshot cfg0 /\ sc_omit_value (ss_cfg s) = sc_omit_value cfg0 /\
  sc_isolation_level (ss_cfg s) = sc_isolation_level cfg0 /\ sc_ts (ss_cfg s) = sc_ts cfg0 /\ sc_desc (ss_cfg s) = sc_desc cfg0 /\
  sc_bypass_locks (ss_cfg s) = sc_bypass_locks cfg0 /\ sc_access_locks (ss_cfg s) = sc_access_locks cfg0.
Proof using. intros [-> | ->]%state_cfg; done. Qed.

Lemma state_mono s pw pl (B B' : bytes -> Prop) : state_at s pw pl B -> (forall k, B k -> B' k) -> state_at s pw pl B'.
Proof using.
  intros [Hw Hl Hd Hst] HB. constructor; [done..| |done]. destruct (ss_default s); [|done]. destruct Hd as (Hc & pd & Hpd & Hb).
  split; [done|]. exists pd. split; [done|]. intros Hm. destruct (Hb Hm) as [Hx Hb']. split; [done|]. intros k v E. apply HB. by eapply Hb'.
Qed.

Lemma state_set_write s pw pl B c pw' : state_at s pw pl B -> cur_at c W pw' -> state_at (set_write s c) pw' pl B.
Proof using. intros [_ Hl Hd Hst] Hc. by constructor. Qed.

Lemma state_set_lock s pw pl B c0 c pl' : state_at s pw pl B -> ss_lock s = Some c0 -> cur_at c scan_locks pl' -> state_at (set_lock s c) pw pl' B.
Proof using. intros [Hw Hl Hd Hst] E Hc. rewrite E in Hl. constructor; [done| |done..]. by destruct Hl. Qed.

Lemma state_set_stats s pw pl B st : state_at s pw pl B -> state_at (set_stats s st) pw pl B.
Proof using. intros [Hw Hl Hd Hst]. by constructor. Qed.

Lemma state_set_met s pw pl B met : state_at s pw pl B -> state_at (set_met s met) pw pl B.
Proof using. intros [Hw Hl Hd Hst]. by constructor. Qed.

(** *** The cursor on the write column family *)

Lemma st_valid s pw pl B : state_at s pw pl B -> write_valid s = (Ok (found pw), s).
Proof using. intros [(Hc & _) _ _ _]. apply on_write_peek. by eapply cursor_valid_at. Qed.

Lemma st_entry s k v pl B : state_at s (Some (k, v)) pl B -> write_key s = (Ok k, s) /\ write_value s = (Ok v, s) /\ W !! k = Some v.
Proof using.
  intros [(Hc & _) _ _ _]. destruct (cursor_entry_at _ _ _ _ Hc) as (Hk & Hv & Hm). split_and!; [by apply on_write_peek..|done].
Qed.

(** A move of the write cursor. *)
Lemma st_move {A} s pw pl B (f : Cursor I -> res kv_error (A * Cursor I)) a p' : state_at s pw pl B ->
  (exists c', f (ss_write s) = Ok (a, c') /\ cur_at c' W p') -> exists s', on_write f s = (Ok a, s') /\ state_at s' p' pl B.
Proof using. intros Hs (c' & E & Hc'). exists (set_write s c'). split; [by apply on_write_ok|by eapply state_set_write]. Qed.

Lemma st_next s k v pl B : state_at s (Some (k, v)) pl B ->
  exists s', on_write cursor_next s = (Ok (found (seek_gt W k)), s') /\ state_at s' (seek_gt W k) pl B.
Proof using.
  intros Hs. eapply st_move; [done|]. destruct (sa_write _ _ _ _ Hs) as (Hc & Hx). destruct (cursor_next_at _ _ _ _ Hc) as (c' & E & Hc' & Hk).
  exists c'. split; [done|]. eapply cur_at_keeps; [exact (sa_write _ _ _ _ Hs)|done|done|]. by eauto.
Qed.

Lemma st_prev s k v pl B : state_at s (Some (k, v)) pl B ->
  exists s', on_write cursor_prev s = (Ok (found (seek_lt W k)), s') /\ state_at s' (seek_lt W k) pl B.
Proof using.
  intros Hs. eapply st_move; [done|]. destruct (sa_write _ _ _ _ Hs) as (Hc & Hx). destruct (cursor_prev_at _ _ _ _ Hc) as (c' & E & Hc' & Hk).
  exists c'. split; [done|]. eapply cur_at_keeps; [exact (sa_write _ _ _ _ Hs)|done|done|]. by eauto.
Qed.

Lemma st_internal_seek s pw pl B k : state_at s pw pl B -> accepts lo hi k -> (mode = ScanForward -> is_Some pw) ->
  exists s', on_write (fun c => internal_seek c k) s = (Ok (found (seek_ge W k)), s') /\ state_at s' (seek_ge W k) pl B.
Proof using.
  intros Hs Ha Hm. eapply st_move; [done|]. destruct (sa_write _ _ _ _ Hs) as (Hc & Hx). destruct (internal_seek_at _ _ _ k Hc Ha) as (c' & E & Hc' & Hk).
  exists c'. split; [done|]. eapply cur_at_keeps; [exact (sa_write _ _ _ _ Hs)|done|done|]. intros Hmode _. by apply Hm.
Qed.

Lemma st_internal_seek_for_prev s pw pl B k : state_at s pw pl B -> accepts lo hi k -> (mode = ScanForward -> is_Some pw) ->
  exists s', on_write (fun c => internal_seek_for_prev c k) s = (Ok (found (seek_le W k)), s') /\ state_at s' (seek_le W k) pl B.
Proof using.
  intros Hs Ha Hm. eapply st_move; [done|]. destruct (sa_write _ _ _ _ Hs) as (Hc & Hx). destruct (internal_seek_for_prev_at _ _ _ k Hc Ha) as (c' & E & Hc' & Hk).
  exists c'. split; [done|]. eapply cur_at_keeps; [exact (sa_write _ _ _ _ Hs)|done|done|]. intros Hmode _. by apply Hm.
Qed.

(** What a seek of a cursor of the scan leads to. *)
Lemma cur_at_sought noted c c' m p q : cur_at c m p -> sought noted c c' m q ->
  is_Some q \/ noted c = None -> (mode = ScanForward -> is_Some p \/ cu_max_key c = None) -> cur_at c' m q.
Proof using.
  intros (Hc & Hm & Hf) (Hm' & Hk & p' & Hc' & Hp) Hq Hfwd.
  assert (p' = q) as ->. { destruct Hp as [|[-> Hn]]; [done|]. by destruct Hq as [[? ?]|?]. }
  split; [done|]. split; [congruence|]. intros Hmode Hsome. destruct (Hk Hsome) as (_ & -> & _).
  destruct (Hfwd Hmode); [by apply Hf|done].
Qed.

Lemma st_seek s pw pl B k : state_at s pw pl B -> accepts lo hi k -> ahead (ss_write s) pw k ->
  (mode = ScanForward -> is_Some pw \/ cu_max_key (ss_write s) = None) -> (is_Some (seek_ge W k) \/ cu_max_key (ss_write s) = None) ->
  exists s', on_write (fun c => cursor_seek c k) s = (Ok (found (seek_ge W k)), s') /\ state_at s' (seek_ge W k) pl B.
Proof using.
  intros Hs Ha Hah Hf Hq. eapply st_move; [done|]. pose proof (sa_write _ _ _ _ Hs) as Hc. pose proof Hc as (Hc0 & Hm & _).
  destruct (cursor_seek_at _ _ _ k Hc0 Ha) as (c' & E & Hso); [rewrite Hm; apply mode_not_backward|done|].
  exists c'. split; [done|]. by eapply cur_at_sought.
Qed.

Lemma st_near_seek s pw pl B k : state_at s pw pl B -> accepts lo hi k -> mode = ScanMixed -> is_Some (seek_ge W k) ->
  exists over s', on_write (nearly (fun c => near_seek c k)) s = (Ok over, s') /\ state_at s' (seek_ge W k) pl B.
Proof using.
  intros Hs Ha Hmode Hq. pose proof (sa_write _ _ _ _ Hs) as Hc. pose proof Hc as (Hc0 & Hm & _).
  destruct (near_seek_at _ _ _ k Hc0 Ha) as (c' & over & E & Hso); [congruence|intros ?; congruence|].
  exists over. eapply st_move; [done|]. exists c'. unfold nearly. rewrite E. split; [done|]. eapply cur_at_sought; [done..|by left|congruence].
Qed.

(** *** The cursor on the lock column family *)

Lemma st_keys s pw pl B : state_at s pw pl B -> cursor_keys s = (Ok (fst <$> pw, fst <$> pl), s).
Proof using.
  intros Hs. unfold cursor_keys, mbind, SM_bind. rewrite (st_valid s pw pl B Hs).
  assert ((if found pw then k ← write_key; mret (Some k) else mret None) s = (Ok (fst <$> pw), s)) as Ew.
  { destruct pw as [[k v]|]; [|done]. destruct (st_entry s k v pl B Hs) as (Ek & _). cbn. unfold mbind, SM_bind. by rewrite Ek. }
  unfold mbind, SM_bind in Ew. rewrite Ew. unfold sget. pose proof (sa_lock _ _ _ _ Hs) as Hl.
  destruct (ss_lock s) as [c|] eqn:Ec; [|by destruct Hl as [_ ->]]. destruct Hl as (_ & Hc & _).
  rewrite (on_lock_peek _ s c (found pl) Ec) by (by eapply cursor_valid_at). destruct pl as [[k v]|]; [|done]. cbn.
  rewrite (on_lock_peek _ s c k Ec); [done|]. by eapply cursor_entry_at.
Qed.

Lemma st_lock_cursor s pw k v B : state_at s pw (Some (k, v)) B -> exists c, ss_lock s = Some c /\ cur_at c scan_locks (Some (k, v)).
Proof using. intros Hs. pose proof (sa_lock _ _ _ _ Hs) as Hl. destruct (ss_lock s) as [c|]; [exists c; by destruct Hl|by destruct Hl]. Qed.

Lemma st_lock_value s pw k v B : state_at s pw (Some (k, v)) B -> on_lock (peek cursor_value) s = (Ok v, s).
Proof using. intros Hs. destruct (st_lock_cursor s pw k v B Hs) as (c & E & Hc & _). apply (on_lock_peek _ s c v E). by eapply cursor_entry_at. Qed.

Lemma st_lock_move s pw k v B (f : Cursor I -> res kv_error (bool * Cursor I)) p' : state_at s pw (Some (k, v)) B ->
  (forall c, cursor_at c scan_locks (Some (k, v)) -> exists c', f c = Ok (found p', c') /\ cursor_at c' scan_locks p' /\ keeps c c') ->
  exists s', on_lock f s = (Ok (found p'), s') /\ if_lock f s = (Ok tt, s') /\ state_at s' pw p' B.
Proof using.
  intros Hs Hf. destruct (st_lock_cursor s pw k v B Hs) as (c & E & Hc). destruct (Hf c (proj1 Hc)) as (c' & Ef & Hc' & Hk).
  exists (set_lock s c'). split; [by apply (on_lock_ok _ s c)|]. split.
  - unfold if_lock, mbind, SM_bind, sget. rewrite E. by rewrite (on_lock_ok _ s c _ c' E Ef).
  - eapply state_set_lock; [done..|]. eapply cur_at_keeps; [done..|]. by eauto.
Qed.

Lemma st_lock_next s pw k v B : state_at s pw (Some (k, v)) B ->
  exists s', on_lock cursor_next s = (Ok (found (seek_gt scan_locks k)), s') /\ if_lock cursor_next s = (Ok tt, s') /\ state_at s' pw (seek_gt scan_locks k) B.
Proof using. intros Hs. eapply st_lock_move; [done|]. intros c. apply cursor_next_at. Qed.

Lemma st_lock_prev s pw k v B : state_at s pw (Some (k, v)) B ->
  exists s', on_lock cursor_prev s = (Ok (found (seek_lt scan_locks k)), s') /\ if_lock cursor_prev s = (Ok tt, s') /\ state_at s' pw (seek_lt scan_locks k) B.
Proof using. intros Hs. eapply st_lock_move; [done|]. intros c. apply cursor_prev_at. Qed.

(** *** The cursor on the default column family *)

  Hypothesis Hsnap : snap_engine (sc_snapshot cfg0) = e0.
  Hypothesis Hlow : sc_lower_bound cfg0 = lo.
  Hypothesis Hup : sc_upper_bound cfg0 = hi.

(** A state with its default cursor. *)
Definition with_default (s : ScanState I) : Prop := is_Some (ss_default s).

Lemma new_cur_at cf' (c : CfName) : engine_get_cf e0 c = cf' ->
  exists cu, create_cf_cursor cfg0 c = Ok (cu, if bool_decide (c = CF_DEFAULT) then take_bounds cfg0 else cfg0) /\
    cur_at cu (range_cf lo hi cf') None /\ cu_max_key cu = None /\ cu_min_key cu = None.
Proof using Hsnap Hlow Hup.
  intros <-. unfold create_cf_cursor, create_cf_cursor_with_scan_mode. rewrite Hsnap, Hlow, Hup.
  destruct (cursor_new_at (engine_get_cf e0 c) (scan_mode cfg0)) as (it & E & Hc). rewrite E. cbn. eexists. split; [done|].
  split_and!; [|done..]. split; [done|]. split; [done|]. done.
Qed.

Lemma st_ensure s pw pl B : state_at s pw pl B -> exists s', ensure_default_cursor s = (Ok tt, s') /\ state_at s' pw pl B /\ with_default s'.
Proof using Hsnap Hlow Hup.
  intros Hs. unfold ensure_default_cursor, mbind, SM_bind, sget. destruct (ss_default s) as [c|] eqn:E; [exists s; split_and!; [done..|by eexists]|].
  pose proof Hs as [Hw Hl Hd Hst]. rewrite E in Hd. unfold slift. rewrite Hd.
  destruct (new_cur_at (cf_default e0) CF_DEFAULT eq_refl) as (cu & -> & Hc & Hmax & _). cbn. eexists. split; [done|]. split; [|by eexists].
  constructor; [done..| |done]. cbn. split; [done|]. exists None. by split.
Qed.

(** A seek of the default cursor that finds the value. *)
Definition finds (f : Cursor I -> res kv_error (bool * Cursor I)) (key v : bytes) : Prop :=
  forall c pd, cur_at c D pd -> (mode = ScanForward -> cu_max_key c = None /\ forall k v', pd = Some (k, v') -> ble k key) ->
  exists c', f c = Ok (true, c') /\ cur_at c' D (Some (key, v)).

Lemma st_load near seek u t v s pw pl (B B' : bytes -> Prop) : state_at s pw pl B -> with_default s ->
  finds (fun c => '(b, c, _) ← near c (append_ts u t); Ok (b, c)) (append_ts u t) v -> finds (fun c => seek c (append_ts u t)) (append_ts u t) v ->
  (mode = ScanForward -> forall k, B k -> ble k (append_ts u t)) -> B' (append_ts u t) ->
  exists s', load_at near seek u t s = (Ok v, s') /\ state_at s' pw pl B'.
Proof using.
  intros Hs [c Ec] Hnear Hseek HB HB'. unfold load_at. set (key := append_ts u t) in *. unfold mbind at 1, SM_bind at 1, sget.
  destruct (load_data_hint (ss_stats s)) as [hint st]. unfold modify, mbind at 1, SM_bind at 1. set (s1 := set_stats s st).
  assert (state_at s1 pw pl B) as Hs1 by (by apply state_set_stats). assert (ss_default s1 = Some c) as E1 by done. clearbody s1.
  pose proof (sa_default _ _ _ _ Hs1) as Hd. rewrite E1 in Hd. destruct Hd as (Hcfg & pd & Hpd & Hb).
  assert (mode = ScanForward -> cu_max_key c = None /\ forall k v', pd = Some (k, v') -> ble k key) as Hah.
  { intros Hm. destruct (Hb Hm) as [Hx Hb']. split; [done|]. intros k v' Ek. apply HB; [done|]. by eapply Hb'. }
  assert (exists a c', (match hint with HintNearSeek => nearly (fun c => near c key) c | HintSeek => seek c key end) = Ok (a, c') /\ cur_at c' D (Some (key, v))) as (a & c' & E & Hc').
  { destruct hint.
    - destruct (Hnear c pd Hpd Hah) as (c' & En & Hc'). unfold nearly. destruct (near c key) as [[[b c2] over]| |]; [|done..].
      cbn in En |- *. injection En as -> ->. eauto.
    - destruct (Hseek c pd Hpd Hah) as (c' & En & Hc'). eauto. }
  sm_run (on_default_ok _ s1 c a c' E1 E). set (s2 := set_default s1 c').
  assert (ss_default s2 = Some c') as E2 by done. assert (state_at s2 pw pl B') as Hs2.
  { destruct Hs1 as [Hw Hl _ Hst]. constructor; [done..| |done]. cbn. split; [done|]. exists (Some (key, v)). split; [done|]. intros Hm. split; [by apply Hc'|]. by intros k v' [= <- <-]. }
  clearbody s2. sm_open. pose proof Hc' as (Hc'' & _).
  rewrite (on_default_peek _ s2 c' true E2) by (rewrite (valid_and_at c' D (Some (key, v)) _ Hc''); by rewrite bool_decide_eq_true_2).
  exists s2. split; [|done]. apply (on_default_peek _ s2 c' v E2). by eapply cursor_entry_at.
Qed.

(** The two directions. *)
Lemma finds_forward key v : D !! key = Some v -> accepts lo hi key -> mode = ScanForward ->
  finds (fun c => '(b, c, _) ← near_seek c key; Ok (b, c)) key v /\ finds (fun c => cursor_seek c key) key v.
Proof using.
  intros Hv Ha Hm. split; intros c pd Hc Hah; pose proof Hc as (Hc0 & Hcm & Hf); destruct (Hah Hm) as [Hmax Hle].
  all: assert (ahead c pd key) as Hahead by (intros _ k v' E; by eapply Hle).
  all: assert (cu_scan_mode c <> ScanBackward) as Hnb by (rewrite Hcm; apply mode_not_backward).
  - destruct (near_seek_at c D pd key Hc0 Ha Hnb Hahead) as (c' & over & -> & Hs). rewrite (seek_ge_eq D key v Hv) in Hs |- *. cbn.
    exists c'. split; [done|]. eapply cur_at_sought; [done..|by left; eauto|]. by right.
  - destruct (cursor_seek_at c D pd key Hc0 Ha Hnb Hahead) as (c' & -> & Hs). rewrite (seek_ge_eq D key v Hv) in Hs |- *. cbn.
    exists c'. split; [done|]. eapply cur_at_sought; [done..|by left; eauto|]. by right.
Qed.

Lemma finds_backward key v : D !! key = Some v -> accepts lo hi key -> mode = ScanMixed ->
  finds (fun c => '(b, c, _) ← near_seek_for_prev c key; Ok (b, c)) key v /\ finds (fun c => cursor_seek_for_prev c key) key v.
Proof using.
  intros Hv Ha Hm. split; intros c pd Hc Hah; pose proof Hc as (Hc0 & Hcm & Hf).
  all: assert (behind c pd key) as Hbehind by (intros ?; congruence).
  all: assert (cu_scan_mode c <> ScanForward) as Hnb by congruence.
  - destruct (near_seek_for_prev_at c D pd key Hc0 Ha Hnb Hbehind) as (c' & over & -> & Hs). rewrite (seek_le_eq D key v Hv) in Hs |- *. cbn.
    exists c'. split; [done|]. eapply cur_at_sought; [done..|by left; eauto|]. congruence.
  - destruct (cursor_seek_for_prev_at c D pd key Hc0 Ha Hnb Hbehind) as (c' & -> & Hs). rewrite (seek_le_eq D key v Hv) in Hs |- *. cbn.
    exists c'. split; [done|]. eapply cur_at_sought; [done..|by left; eauto|]. congruence.
Qed.

Lemma st_load_forward u t v s pw pl (B B' : bytes -> Prop) : state_at s pw pl B -> mode = ScanForward ->
  D !! append_ts u t = Some v -> accepts lo hi (append_ts u t) -> (forall k, B k -> ble k (append_ts u t)) -> B' (append_ts u t) ->
  exists s', (ensure_default_cursor ≫= fun _ => near_load_data_by_write u t) s = (Ok v, s') /\ state_at s' pw pl B'.
Proof using Hsnap Hlow Hup.
  intros Hs Hm Hv Ha HB HB'. destruct (st_ensure s pw pl B Hs) as (s1 & E1 & Hs1 & Hd).
  destruct (finds_forward _ v Hv Ha Hm) as [Hn Hk]. destruct (st_load _ _ u t v s1 pw pl B B' Hs1 Hd Hn Hk) as (s2 & E2 & Hs2); [auto..|].
  exists s2. split; [|done]. unfold mbind, SM_bind. by rewrite E1.
Qed.

Lemma st_load_backward u t v s pw pl B : state_at s pw pl B -> mode = ScanMixed ->
  D !! append_ts u t = Some v -> accepts lo hi (append_ts u t) ->
  exists s', (ensure_default_cursor ≫= fun _ => near_reverse_load_data_by_write u t) s = (Ok v, s') /\ state_at s' pw pl (fun _ => True).
Proof using Hsnap Hlow Hup.
  intros Hs Hm Hv Ha. destruct (st_ensure s pw pl B Hs) as (s1 & E1 & Hs1 & Hd).
  destruct (finds_backward _ v Hv Ha Hm) as [Hn Hk].
  destruct (st_load _ _ u t v s1 pw pl B (fun _ => True) Hs1 Hd Hn Hk) as (s2 & E2 & Hs2); [congruence|done|].
  exists s2. split; [|done]. unfold mbind, SM_bind. by rewrite E1.
Qed.
End State.

(** ** From calls of [next] to a scan *)

Section ScanLoop.
  Context {I : Type} `{Iterator I} (get : Key -> mres (option Value)) (scanning : ScanState I -> list Key -> Prop).

  (** A call of [next] is the first get that returns something. *)
  Hypothesis Hnext : forall s keys, scanning s keys ->
    (scanner_next s).1 = (first_get get keys).1 /\
    (keeps_going (scanner_next s).1 = true -> scanning (scanner_next s).2 (first_get get keys).2).

Lemma first_get_shorter keys : (first_get get keys).1 = Ok None \/ (length (first_get get keys).2 < length keys)%nat.
Proof using.
  induction keys as [|k keys IH]; cbn; [by left|]. destruct (get k) as [[v|]|e|]; cbn; [right; lia| |right; lia..].
  destruct IH; [by left|right; lia].
Qed.

Definition after_first (limit sample_step row_count : Z) (results : list (mres (bytes * Value)))
    (p : mres (option (Key * Value)) * list Key) : mres (list (mres (bytes * Value))) :=
  match p.1 with
  | Ok None => Ok results
  | Ok (Some (k, v)) =>
      let row_count := if 0 <? sample_step then row_count + 1 else row_count in
      if (0 <? sample_step) && negb ((row_count - 1) mod sample_step =? 0) then
        gets get p.2 limit sample_step row_count results
      else
        raw ← map_err MCodec (key_to_raw k);
        gets get p.2 limit sample_step row_count (results ++ [Ok (raw, v)])
  | Err (MKeyIsLocked info) => gets get p.2 limit sample_step row_count (results ++ [Err (MKeyIsLocked info)])
  | Err e => Err e
  | Panic => Panic
  end.

Lemma gets_first limit sample_step row_count results keys : (Z.of_nat (length results) <? limit) = true ->
  gets get keys limit sample_step row_count results = after_first limit sample_step row_count results (first_get get keys).
Proof using.
  intros Hlt. induction keys as [|k keys IH]; cbn [gets first_get]; rewrite Hlt; [done|]. destruct (get k) as [[v|]|e|]; [done|done|done|done].
Qed.

Lemma scan_loop_gets limit sample_step f : forall s keys row_count results, scanning s keys -> (length keys < f)%nat ->
  (scan_loop f limit sample_step row_count results s).1 = gets get keys limit sample_step row_count results.
Proof using Hnext.
  induction f as [|f IH]; intros s keys row_count results Hs Hf; [lia|]. cbn [scan_loop].
  destruct (Z.of_nat (length results) <? limit) eqn:Elim; [|by destruct keys; cbn [gets]; rewrite Elim].
  rewrite (gets_first limit sample_step row_count results keys Elim). destruct (Hnext s keys Hs) as [E1 Hgo]. pose proof (first_get_shorter keys) as Hsh.
  unfold after_first. sm_open. unfold attempt. destruct (scanner_next s) as [r s1]. cbn [fst snd] in *. subst r.
  destruct (first_get get keys) as [r keys']. cbn [fst snd] in *.
  assert (keeps_going r = true -> r <> Ok None -> forall row_count results,
    (scan_loop f limit sample_step row_count results s1).1 = gets get keys' limit sample_step row_count results) as Hrec.
  { intros Hk Hne row' res'. apply IH; [by apply Hgo|]. destruct Hsh; [done|lia]. }
  destruct r as [[[k v]|]|er|]; [|done| |done].
  - destruct ((0 <? sample_step) && _); [by apply Hrec|]. unfold mbind at 1, SM_bind at 1, slift. destruct (map_err MCodec (key_to_raw k)); [|done..].
    by apply Hrec.
  - destruct er; try done. by apply Hrec.
Qed.
End ScanLoop.

Lemma scan_keys_nodup L W : NoDup (scan_keys L W).
Proof. apply entries_nodup. Qed.

Lemma scan_keys_length L W : write_cf_wf W -> (length (scan_keys L W) <= size L + size W)%nat.
Proof.
  intros Hw. trans (length ((map_to_list L).*1 ++ (slice_prefix <$> (map_to_list W).*1))).
  - apply submseteq_length, NoDup_submseteq; [apply scan_keys_nodup|]. intros u Hu. apply elem_of_app.
    apply (elem_of_scan_keys L W u Hw) in Hu as [[v Hv]|(c & v & _ & Hv)]; [left|right].
    + apply list_elem_of_fmap. exists (u, v). split; [done|]. by apply elem_of_map_to_list.
    + apply list_elem_of_fmap. exists (append_ts u c). rewrite slice_prefix_append. split; [done|]. apply list_elem_of_fmap.
      exists (append_ts u c, v). split; [done|]. by apply elem_of_map_to_list.
  - rewrite length_app, !length_fmap, !length_map_to_list. done.
Qed.
