(* ===== verification/ForwardScan.v ===== *)
(** * The forward scanner reads what point gets read

    The cursors of the forward scanner stand at the first record and the first
    lock of the keys that are left. One round of its loop takes the first of
    these keys and leaves the cursors behind it; what it returns for the key
    is what a point get of the key returns. *)
From stdpp Require Import sorting.
From S2P Require Import Prelude Number Bytes Timestamp Key Fields Lock Write OrderedMap PeerLocks Engine.
From S2P Require Import ConcurrencyManager Reader Cursor Versions MvccTxn CheckTxnStatus Prewrite Commands.
From S2P Require Import KeyView Protocol ActionSpec ReadSpec PrewriteSpec System Demo Safety AsyncCommit PointGetter Scanner ScanSpec.
Local Open Scope Z_scope.

(** ** The records of one key *)

Section Key.
  Context {I : Type} {lo hi : option Key} `{IS : IterSpec I lo hi} (e0 : Engine) (cfg0 : ScannerConfig).
  Hypothesis Hinv : sys_inv e0.
  Hypothesis Hlo : opt_user_key lo.
  Hypothesis Hhi : opt_user_key hi.
  Hypothesis Hsnap : sc_snapshot cfg0 = snap e0.
  Hypothesis Hlow : sc_lower_bound cfg0 = lo.
  Hypothesis Hup : sc_upper_bound cfg0 = hi.
  Hypothesis Hts : txn_ts (sc_ts cfg0).
Let e := range_engine lo hi e0.
Let rd := new_with_ctx 1 (snap e) ctx0.
Let W := range_cf lo hi (cf_write e0).
Let D := range_cf lo hi (cf_default e0).
Abbreviation ts := (sc_ts cfg0).
Abbreviation at_pos := (state_at e0 cfg0).

Lemma e_inv : sys_inv e.
Proof using Hinv Hlo Hhi. by apply range_inv. Qed.

Lemma W_wf : write_cf_wf W.
Proof using Hinv Hlo Hhi. apply e_inv. Qed.

Lemma entry_key x v : W !! x = Some v -> exists u c w, user_key u /\ is_u64 c /\ 0 < c /\ write_wf w /\ x = append_ts u c /\ v = write_to_bytes w.
Proof using Hinv Hlo Hhi. apply W_wf. Qed.

  Context (k : Key).
  Hypothesis Hk : user_key k.
  Hypothesis Hkr : in_range lo hi k = true.

(** The cursor is on a record of the key, or on the first record after all of
    them. *)
Definition past : option (bytes * bytes) := seek_ge W (append_ts k 0).
Definition on_key (p : option (bytes * bytes)) : Prop := exists c v, is_u64 c /\ p = Some (append_ts k c, v).

Lemma k_accepts t : accepts lo hi (append_ts k t).
Proof using Hlo Hhi Hk Hkr. by apply in_range_accepts. Qed.

(** Between two timestamps of the key there are only records of the key. *)
Lemma between t c x v : is_u64 t -> is_u64 c -> W !! x = Some v -> ble (append_ts k t) x -> ble x (append_ts k c) ->
  exists c', x = append_ts k c' /\ is_u64 c' /\ c <= c' <= t.
Proof using Hinv Hlo Hhi Hk. apply (entry_between rd W_wf k Hk). Qed.

Lemma entry_pos c v : is_u64 c -> W !! append_ts k c = Some v -> 0 < c.
Proof using Hinv Hlo Hhi.
  intros Hc Hv. destruct (entry_key _ _ Hv) as (u & c' & w & _ & Hc' & Hpos & _ & E & _). by apply append_ts_inj in E as [_ ->].
Qed.

(** A record that does not belong to the key and is after one that does is
    after all of them. *)
Lemma after_key c x v : is_u64 c -> W !! x = Some v -> blt (append_ts k c) x -> is_user_key_eq x k = false -> ble (append_ts k 0) x.
Proof using Hinv Hlo Hhi Hk.
  intros Hc Hx Hlt Hne. apply not_blt. intros Hx0.
  destruct (between c 0 x v Hc is_u64_0 Hx) as (c' & -> & _); [by apply blt_ble..|]. by rewrite is_user_key_eq_append in Hne.
Qed.

Lemma next_off_key c v : is_u64 c -> W !! append_ts k c = Some v ->
  (forall x v', seek_gt W (append_ts k c) = Some (x, v') -> is_user_key_eq x k = false) -> seek_gt W (append_ts k c) = past.
Proof using Hinv Hlo Hhi Hk.
  intros Hc Hv Hne. apply seek_gt_ge; [apply append_ts_lt; [done|apply is_u64_0|by eapply entry_pos]|].
  intros x v' E. pose proof E as (Hx & Hgt & _)%seek_gt_Some. eapply after_key; [exact Hc|exact Hx|done|by eapply Hne].
Qed.

(** The position behind the key is not on it. *)
Lemma past_off x v : past = Some (x, v) -> is_user_key_eq x k = false.
Proof using Hinv Hlo Hhi.
  intros (Hx & Hge & _)%seek_ge_Some. destruct (is_user_key_eq x k) eqn:E; [|done]. exfalso.
  apply is_user_key_eq_append_ts in E as (c & Hc & ->). pose proof (entry_pos c v Hc Hx). apply append_ts_le in Hge; [lia|apply is_u64_0|done].
Qed.

(** [move_write_cursor_to_next_user_key] *)
Lemma next_user_key_spec n : forall s pw pl B (first : bool), at_pos s pw pl B -> (if first then on_key pw \/ pw = past else on_key pw) ->
  (n = O -> on_key pw) -> exists s', next_user_key_loop n first k s = (Ok tt, s') /\ at_pos s' past pl B.
Proof using Hinv Hlo Hhi Hk Hkr.
  induction n as [|n IH]; intros s pw pl B first Hs Hpw Hn; cbn [next_user_key_loop].
  - destruct (Hn eq_refl) as (c & v & Hc & ->). unfold over_seek_bound, modify, mbind, SM_bind.
    set (s1 := set_stats s _). assert (at_pos s1 (Some (append_ts k c, v)) pl B) as Hs1 by (by apply state_set_stats). clearbody s1.
    destruct (st_internal_seek e0 cfg0 s1 _ pl B (append_ts k 0) Hs1 (k_accepts 0) ltac:(eauto)) as (s2 & -> & Hs2). by exists s2.
  - assert (exists s1 pw1 b, (if first then mret false else on_write cursor_next) s = (Ok b, s1) /\ at_pos s1 pw1 pl B /\ (on_key pw1 \/ pw1 = past)) as (s1 & pw1 & b & E & Hs1 & Hpw1).
    { destruct first; [exists s, pw, false; done|]. destruct Hpw as (c & v & Hc & ->).
      destruct (st_next e0 cfg0 s _ _ pl B Hs) as (s1 & E1 & Hs1). do 3 eexists. split; [exact E1|]. split; [exact Hs1|].
      destruct (st_entry e0 cfg0 s _ _ pl B Hs) as (_ & _ & Hv). fold W in Hs1, Hv |- *.
      destruct (seek_gt W (append_ts k c)) as [[x v']|] eqn:Eg; [|right; rewrite <- Eg; apply (next_off_key c v); [done..|]; by rewrite Eg].
      destruct (is_user_key_eq x k) eqn:Ex; [left; apply is_user_key_eq_append_ts in Ex as (c' & Hc' & ->); by exists c', v'|].
      right. rewrite <- Eg. apply (next_off_key c v); [done..|]. rewrite Eg. by intros ? ? [= <- <-]. }
    unfold mbind, SM_bind in E |- *. rewrite E. rewrite (st_valid e0 cfg0 s1 pw1 pl B Hs1). clear E Hs Hpw Hn.
    destruct pw1 as [[x v]|]; cbn [found negb]; [|destruct Hpw1 as [(? & ? & _ & ?)|Hp]; [done|exists s1; split; [done|by rewrite <- Hp]]].
    destruct (st_entry e0 cfg0 s1 x v pl B Hs1) as (-> & _). destruct Hpw1 as [(c & v' & Hc & [= -> ->])|Hp].
    + rewrite is_user_key_eq_append. cbn [negb]. apply (IH s1 _ pl B false Hs1); [by exists c, v'|intros _; by exists c, v'].
    + symmetry in Hp. rewrite (past_off x v Hp). exists s1. split; [done|]. by rewrite Hp.
Qed.

Lemma move_next_spec s pw pl B : at_pos s pw pl B -> on_key pw \/ pw = past ->
  exists s', move_write_cursor_to_next_user_key k s = (Ok tt, s') /\ at_pos s' past pl B.
Proof using Hinv Hlo Hhi Hk Hkr. intros Hs Hpw. by eapply next_user_key_spec. Qed.

(** *** The wanted version *)

  Hypothesis Hdesc : sc_desc cfg0 = false.

Definition wanted : option (bytes * bytes) := seek_ge W (append_ts k ts).
Definition newer_version (p : option (bytes * bytes)) : Prop := exists c v, is_u64 c /\ ts < c /\ p = Some (append_ts k c, v).
Definition is_on_key (p : option (bytes * bytes)) : bool := match p with Some (x, _) => is_user_key_eq x k | None => false end.

Lemma mode_forward : scan_mode cfg0 = ScanForward.
Proof using Hdesc. unfold scan_mode. by rewrite Hdesc. Qed.

(** One step from a version that is too new leads to another one or to the
    wanted position. *)
Lemma next_newer c v : is_u64 c -> ts < c -> W !! append_ts k c = Some v ->
  newer_version (seek_gt W (append_ts k c)) \/ seek_gt W (append_ts k c) = wanted.
Proof using Hinv Hlo Hhi Hk Hts.
  intros Hc Hlt Hv. assert (is_u64 ts) as Htu by apply Hts. pose proof (append_ts_lt k c ts Hc Htu Hlt) as Hlt'.
  destruct (seek_gt W (append_ts k c)) as [[x v']|] eqn:E; [|right; rewrite <- E; apply seek_gt_ge; [done|]; by rewrite E].
  pose proof E as (Hx & Hgt & _)%seek_gt_Some. destruct (bltb x (append_ts k ts)) eqn:Ex.
  - apply bltb_lt in Ex. left. destruct (between c ts x v' Hc Htu Hx) as (c' & -> & Hc' & _); [by apply blt_ble..|].
    exists c', v'. split_and!; [done| |done]. destruct (Z.le_gt_cases c' ts) as [Hle|]; [|done]. apply (append_ts_le k ts c' Htu Hc') in Hle.
    by apply not_ble in Ex.
  - right. rewrite <- E. apply seek_gt_ge; [done|]. rewrite E. intros ? ? [= <- <-]. by apply bltb_ge.
Qed.

Lemma wanted_old x v : wanted = Some (x, v) -> is_user_key_eq x k = true -> exists c, is_u64 c /\ c <= ts /\ x = append_ts k c.
Proof using Hts.
  intros (Hx & Hge & _)%seek_ge_Some (c & Hc & ->)%is_user_key_eq_append_ts. exists c. split_and!; [done| |done].
  apply append_ts_le in Hge; [done|apply Hts|done].
Qed.

Lemma to_ts_spec n : forall s pw pl B (first : bool), at_pos s pw pl B ->
  (if first then newer_version pw \/ (pw = wanted /\ is_Some pw) else newer_version pw) -> (n = O -> newer_version pw) ->
  sc_isolation_level cfg0 <> RcCheckTs ->
  exists s', to_ts_loop n first k s = (Ok (is_on_key wanted), s') /\ at_pos s' wanted pl B.
Proof using Hinv Hlo Hhi Hk Hkr Hts Hdesc.
  induction n as [|n IH]; intros s pw pl B first Hs Hpw Hn Hil; destruct (state_cfg_eq e0 cfg0 s pw pl B Hs) as (_ & _ & Ei & Et & _);
    cbn [to_ts_loop]; unfold mbind at 1, SM_bind at 1, sget; rewrite ?Ei, ?Et.
  - destruct (Hn eq_refl) as (c & v & Hc & Hlt & ->). unfold over_seek_bound, modify, mbind, SM_bind.
    set (s1 := set_stats s _). assert (at_pos s1 (Some (append_ts k c, v)) pl B) as Hs1 by (by apply state_set_stats). clearbody s1.
    destruct (st_seek e0 cfg0 s1 _ pl B (append_ts k ts) Hs1 (k_accepts ts)) as (s2 & -> & Hs2).
    + intros _ ? ? [= <- <-]. apply blt_ble, append_ts_lt; [done|apply Hts|done].
    + by eauto.
    + right. destruct (sa_write _ _ _ _ _ _ Hs1) as (_ & _ & Hm). apply Hm; [apply mode_forward|by eauto].
    + rewrite (st_valid e0 cfg0 s2 _ pl B Hs2). fold W wanted in Hs2 |- *. exists s2. split; [|done].
      destruct wanted as [[x v']|]; cbn [found negb]; [|done]. by destruct (st_entry e0 cfg0 s2 x v' pl B Hs2) as (-> & _).
  - assert (exists s1 pw1, (if first then mret true else _ ← on_write cursor_next; write_valid) s = (Ok (found pw1), s1)
      /\ at_pos s1 pw1 pl B /\ (newer_version pw1 \/ pw1 = wanted)) as (s1 & pw1 & E & Hs1 & Hpw1).
    { destruct first.
      - exists s, pw. destruct Hpw as [(c & v & Hc & Hlt & ->)|[-> [p Hp]]].
        + split_and!; [done..|]. left. by exists c, v.
        + split_and!; [by rewrite Hp|done|by right].
      - destruct Hpw as (c & v & Hc & Hlt & ->). destruct (st_next e0 cfg0 s _ _ pl B Hs) as (s1 & E1 & Hs1).
        destruct (st_entry e0 cfg0 s _ _ pl B Hs) as (_ & _ & Hv). exists s1, (seek_gt W (append_ts k c)). split_and!; [|done|by eapply next_newer].
        unfold mbind, SM_bind. rewrite E1. by rewrite (st_valid e0 cfg0 s1 _ pl B Hs1). }
    sm_run E. clear E Hs Hpw Hn Ei Et. sm_open.
    destruct pw1 as [[x v]|]; cbn [found negb]; [|destruct Hpw1 as [(? & ? & _ & _ & ?)|Hp]; [done|]; rewrite <- Hp; by exists s1].
    destruct (st_entry e0 cfg0 s1 x v pl B Hs1) as (-> & _). unfold mbind, SM_bind, slift. destruct Hpw1 as [(c & v' & Hc & Hlt & [= -> ->])|Hp].
    + rewrite is_user_key_eq_append, decode_ts_append_ts by done. cbn [negb map_err]. destruct (Z.leb_spec c ts) as [|_]; [lia|].
      unfold note_newer, modify. rewrite bool_decide_eq_false_2 by done. set (s2 := set_met s1 _).
      assert (at_pos s2 (Some (append_ts k c, v')) pl B) as Hs2 by (by apply state_set_met). clearbody s2.
      apply (IH s2 _ pl B false Hs2); [by exists c, v'|intros _; by exists c, v'|done].
    + rewrite <- Hp. cbn [is_on_key]. destruct (is_user_key_eq x k) eqn:Ex; cbn [negb]; [|by exists s1].
      destruct (wanted_old x v (eq_sym Hp) Ex) as (c & Hc & Hle & ->). rewrite decode_ts_append_ts by done. cbn [map_err].
      rewrite (proj2 (Z.leb_le _ _) Hle). by exists s1.
Qed.

(** The newest version decides. *)
Lemma newest_start c v : is_u64 c -> W !! append_ts k c = Some v -> (forall c', is_u64 c' -> is_Some (W !! append_ts k c') -> c' <= c) ->
  (ts < c /\ newer_version (Some (append_ts k c, v))) \/ (c <= ts /\ Some (append_ts k c, v) = wanted).
Proof using Hinv Hlo Hhi Hk Hts.
  intros Hc Hv Hmax. assert (is_u64 ts) as Htu by apply Hts. destruct (Z.le_gt_cases c ts) as [Hle|Hlt]; [right|left; split; [done|]; exists c, v; split_and!; [done|lia|done]].
  split; [done|]. symmetry. apply seek_ge_Some. split_and!; [done|by apply append_ts_le|]. intros x v' Hx Hge. apply not_blt. intros Hlt.
  destruct (between ts c x v' Htu Hc Hx Hge) as (c' & -> & Hc' & Hcc); [by apply blt_ble|].
  pose proof (Hmax c' Hc' ltac:(eauto)). assert (c' = c) as -> by lia. by apply blt_irrefl in Hlt.
Qed.

Lemma move_to_ts_spec s c v pl B : at_pos s (Some (append_ts k c, v)) pl B -> is_u64 c ->
  (forall c', is_u64 c' -> is_Some (W !! append_ts k c') -> c' <= c) ->
  exists s', at_pos s' wanted pl B /\ move_write_cursor_to_ts k s = (Ok (is_on_key wanted), s') /\ ~ (ts < c /\ sc_isolation_level cfg0 = RcCheckTs)
  \/ move_write_cursor_to_ts k s = (Err (MWriteConflict ts 0 c (append_ts k c) [] ReasonRcCheckTs), s') /\ ts < c /\ sc_isolation_level cfg0 = RcCheckTs.
Proof using Hinv Hlo Hhi Hk Hkr Hts Hdesc.
  intros Hs Hc Hmax. destruct (st_entry e0 cfg0 s _ _ pl B Hs) as (Ek & _ & Hv).
  unfold move_write_cursor_to_ts. unfold mbind, SM_bind. rewrite (st_valid e0 cfg0 s _ pl B Hs). cbn [sassert found].
  destruct (newest_start c v Hc Hv Hmax) as [[Hlt Hnew]|[Hle Hw]].
  - destruct (decide (sc_isolation_level cfg0 = RcCheckTs)) as [Hil|Hil].
    + destruct (state_cfg_eq e0 cfg0 s _ pl B Hs) as (_ & _ & Ei & Et & _). eexists. right. split; [|done].
      change (Z.to_nat SEEK_BOUND) with 8%nat. cbn [to_ts_loop]. unfold mbind, SM_bind, sget, mret, SM_ret. cbn [negb].
      rewrite Ek, is_user_key_eq_append. unfold slift. rewrite decode_ts_append_ts by done. cbn [negb map_err]. rewrite Et, Ei.
      destruct (Z.leb_spec c ts) as [|_]; [lia|]. unfold note_newer, modify. by rewrite bool_decide_eq_true_2.
    + destruct (to_ts_spec (Z.to_nat SEEK_BOUND) s _ pl B true Hs) as (s' & E & Hs'); [by left|done|done|]. exists s'. left. split_and!; [done..|].
      by intros [_ ?].
  - destruct (decide (sc_isolation_level cfg0 = RcCheckTs)) as [Hil|Hil].
    + destruct (state_cfg_eq e0 cfg0 s _ pl B Hs) as (_ & _ & Ei & Et & _). exists s. left. rewrite <- Hw. split_and!; [done| |lia].
      change (Z.to_nat SEEK_BOUND) with 8%nat. cbn [to_ts_loop]. unfold mbind, SM_bind, sget, mret, SM_ret. cbn [negb].
      rewrite Ek, is_user_key_eq_append. unfold slift. rewrite decode_ts_append_ts by done. cbn [negb map_err is_on_key]. rewrite Et.
      rewrite (proj2 (Z.leb_le _ _) Hle). by rewrite is_user_key_eq_append.
    + destruct (to_ts_spec (Z.to_nat SEEK_BOUND) s _ pl B true Hs) as (s' & E & Hs'); [right; split; [done|by eauto]|done|done|].
      exists s'. left. split_and!; [done..|]. by intros [_ ?].
Qed.

(** *** The version to read *)

Let a := view e k.

Lemma k_sees : sees rd k a.
Proof using Hinv Hlo Hhi Hk. apply sees_snap; [apply e_inv|by vm_compute|done]. Qed.

Lemma k_inv : kinv a.
Proof using Hinv Hlo Hhi Hk. by apply e_inv. Qed.

Lemma reads_exists t : is_u64 t -> exists r, reads W k t r.
Proof using Hinv Hlo Hhi Hk.
  intros Ht. destruct (get_write_reads rd k a k_sees k_inv t None Ht) as (r & _ & Hr); [done|]. exists r.
  by apply (reads_read_at rd k a k_sees).
Qed.

Lemma entries_from_mono x y : ble x y -> (size (entries_from rd y) <= size (entries_from rd x))%nat.
Proof using. intros Hxy. apply map_subseteq_size, map_filter_subseteq_ext. intros z v _ Hz. cbn in *. by eapply ble_trans. Qed.

(** The step to the next older version. *)
Lemma next_version c w : is_u64 c -> version W k c = Some w ->
  (exists c' w', seek_gt W (append_ts k c) = Some (append_ts k c', write_to_bytes w') /\ is_latest W k (c - 1) c' w')
  \/ (seek_gt W (append_ts k c) = past /\ no_version W k (c - 1)).
Proof using Hinv Hlo Hhi Hk.
  intros Hc Hv. pose proof (version_pos rd W_wf k c w Hc Hv) as Hpos. assert (is_u64 (c - 1)) as Hc1 by (unfold is_u64 in *; lia).
  pose proof (write_seek_spec rd W_wf k Hk (c - 1) Hc1) as Hs. rewrite <- (write_next_seek rd W_wf k Hk c w Hc Hv) in Hs.
  change (rd_cf rd CF_WRITE) with W in Hs. unfold write_next, same_prefix in Hs. rewrite slice_prefix_append in Hs.
  apply (version_Some rd W_wf) in Hv as [_ Hm]. pose proof (next_off_key c _ Hc Hm) as Hoff.
  destruct (seek_gt W (append_ts k c)) as [[x v]|]; [|right; split; [by apply Hoff|done]]. case_bool_decide as Hx.
  - left. destruct Hs as (c' & w' & -> & -> & Hl). eauto.
  - right. split; [|done]. apply Hoff. intros ? ? [= <- <-]. destruct (is_user_key_eq x k) eqn:E; [|done].
    apply is_user_key_eq_append_ts in E as (c' & _ & ->). by rewrite slice_prefix_append in Hx.
Qed.

(** A key that the default cursor may stand on when the next key comes. *)
Definition seen_default (B : bytes -> Prop) (x : bytes) : Prop := B x \/ exists t, is_u64 t /\ x = append_ts k t.

Lemma value_stored t v : kv_val a !! t = Some v -> is_u64 t -> D !! append_ts k t = Some v.
Proof using Hinv Hlo Hhi Hk. intros Hv Ht. by apply (sees_value rd k a k_sees t v). Qed.

Lemma load_value s pw pl (B : bytes -> Prop) t v : at_pos s pw pl B -> (forall x, B x -> ble x k) -> kv_val a !! t = Some v -> is_u64 t ->
  exists s', (ensure_default_cursor ≫= fun _ => near_load_data_by_write k t) s = (Ok v, s') /\ at_pos s' pw pl (seen_default B).
Proof using Hinv Hlo Hhi Hsnap Hlow Hup Hk Hkr Hdesc.
  intros Hs HB Hv Ht. apply (st_load_forward e0 cfg0) with (B := B); [by rewrite Hsnap|done|done|done|apply mode_forward|by apply value_stored|apply k_accepts| |].
  - intros x Hx. eapply ble_trans; [by apply HB|apply ble_append_ts].
  - right. by exists t.
Qed.

(** What the loop of [handle_write] found, for the read [r]. *)
Definition found_read (pl : option (bytes * bytes)) (B : bytes -> Prop) (o : FoundWrite) (s : ScanState I) : Prop :=
  match o with
  | FoundValue v => (exists v0, v = hide (sc_omit_value cfg0) v0 /\ value_at a ts v0) /\
      exists pw, at_pos s pw pl B /\ (on_key pw \/ pw = past)
  | FoundNone => value_at a ts None /\ at_pos s past pl B
  end.

Lemma put_found s c w pl (B : bytes -> Prop) : at_pos s (Some (append_ts k c, write_to_bytes w)) pl B -> is_u64 c -> (forall x, B x -> ble x k) ->
  read_at (kv_ver a) ts (Some (w, c)) ->
  exists o s', (if sc_omit_value (ss_cfg s) then mret (FoundValue (Some []))
                else match write_short_value w with
                     | Some value => mret (FoundValue (Some value))
                     | None => _ ← ensure_default_cursor; value ← near_load_data_by_write k (write_start_ts w); mret (FoundValue (Some value))
                     end) s = (Ok o, s') /\ found_read pl (seen_default B) o s'.
Proof using Hinv Hlo Hhi Hsnap Hlow Hup Hk Hkr Hdesc.
  intros Hs Hc HB Hr. pose proof Hr as (Hw & Hp & _). destruct (state_cfg_eq e0 cfg0 s _ pl B Hs) as (_ & Eo & _).
  assert (at_pos s (Some (append_ts k c, write_to_bytes w)) pl (seen_default B)) as Hs' by (eapply state_mono; [done|]; by left).
  assert (on_key (Some (append_ts k c, write_to_bytes w))) as Hon by (by exists c, (write_to_bytes w)).
  assert (forall v, match write_short_value w with Some sv => v = sv | None => kv_val a !! write_start_ts w = Some v end -> value_at a ts (Some v)) as Hval by (intros v Hv; by exists w, c).
  assert (exists v, match write_short_value w with Some sv => v = sv | None => kv_val a !! write_start_ts w = Some v end) as [v Hv].
  { destruct (write_short_value w) as [sv|] eqn:E; [by exists sv|]. by destruct (inv_value a k_inv c w Hw Hp E) as [v Hv]; exists v. }
  rewrite Eo. destruct (sc_omit_value cfg0) eqn:Eom.
  { exists (FoundValue (Some [])), s. split; [done|]. split; [exists (Some v); rewrite Eom; split; [done|by apply Hval]|]. by eauto. }
  destruct (write_short_value w) as [sv|] eqn:E.
  { exists (FoundValue (Some sv)), s. subst v. split; [done|]. split; [exists (Some sv); rewrite Eom; split; [done|by apply Hval]|]. by eauto. }
  destruct (load_value s _ pl B (write_start_ts w) v Hs HB Hv) as (s1 & E1 & Hs1); [by apply (sees_ver_wf rd k a k_sees) in Hw as (_ & _ & ? & _)|].
  exists (FoundValue (Some v)), s1. split.
  - unfold mbind, SM_bind in E1 |- *. destruct (ensure_default_cursor s) as [[[]| |] s2]; [|done..]. by rewrite E1.
  - split; [exists (Some v); rewrite Eom; split; [done|by apply Hval]|]. by eauto.
Qed.

Lemma reads_none_value r : reads W k ts r -> r = None -> value_at a ts None.
Proof using Hinv Hlo Hhi Hk. intros Hr ->. by apply (reads_read_at rd k a k_sees) in Hr. Qed.

(** The rest of a round: on another version, on another key or at the end. *)
Definition go_on (f : nat) : SM (I := I) FoundWrite :=
  valid ← write_valid;
  if negb valid then mret FoundNone
  else
    current_key ← write_key;
    if negb (is_user_key_eq current_key k) then mret FoundNone else latest_kv_loop f k.

Lemma go_on_version f s c v pl B : at_pos s (Some (append_ts k c, v)) pl B -> go_on f s = latest_kv_loop f k s.
Proof using.
  intros Hs. unfold go_on, mbind, SM_bind. rewrite (st_valid e0 cfg0 s _ pl B Hs). cbn [found negb].
  destruct (st_entry e0 cfg0 s _ _ pl B Hs) as (-> & _). by rewrite is_user_key_eq_append.
Qed.

Lemma go_on_past f s pl B : at_pos s past pl B -> go_on f s = (Ok FoundNone, s).
Proof using Hinv Hlo Hhi.
  intros Hs. unfold go_on, mbind, SM_bind. rewrite (st_valid e0 cfg0 s _ pl B Hs). pose proof past_off as Hoff.
  destruct past as [[x v]|]; cbn [found negb]; [|done]. destruct (st_entry e0 cfg0 s _ _ pl B Hs) as (-> & _). by rewrite (Hoff x v).
Qed.

(** The loop reads [r] from the version at [c] on. *)
Definition reads_from (f : nat) (r : option (Write * TimeStamp)) : Prop :=
  forall s c w t pl (B : bytes -> Prop), at_pos s (Some (append_ts k c, write_to_bytes w)) pl B -> (forall x, B x -> ble x k) ->
  is_u64 t -> t <= ts -> is_latest W k t c w -> quiet W k (Some ts) t -> reads W k t r ->
  (size (entries_from rd (append_ts k t)) < f)%nat ->
  exists o s', latest_kv_loop f k s = (Ok o, s') /\ found_read pl (seen_default B) o s'.

(** The round that takes the next version. *)
Lemma step_next f r s c w t pl (B : bytes -> Prop) : reads_from f r -> reads W k ts r ->
  at_pos s (Some (append_ts k c, write_to_bytes w)) pl B -> (forall x, B x -> ble x k) ->
  is_u64 t -> t <= ts -> is_latest W k t c w -> is_data w = false -> quiet W k (Some ts) t -> reads W k t r ->
  (size (entries_from rd (append_ts k t)) < S f)%nat ->
  exists o s', (_ ← on_write cursor_next; go_on f) s = (Ok o, s') /\ found_read pl (seen_default B) o s'.
Proof using Hinv Hlo Hhi Hk.
  intros IH Hrts Hs HB Ht Hle Hl Hd Hq Hr Hf. pose proof Hl as (Hc & Hct & Hv & _). pose proof (version_pos rd W_wf k c w Hc Hv) as Hpos.
  assert (is_u64 (c - 1)) as Hc1 by (unfold is_u64 in *; lia).
  destruct (st_next e0 cfg0 s _ _ pl B Hs) as (s1 & E1 & Hs1). fold W in Hs1. sm_run E1.
  destruct (reads_exists (c - 1) Hc1) as (r' & Hr'). assert (reads W k t r') as Hr2 by (eapply latest_skip; [exact Hl|done| |exact Hr']; lia).
  assert (r' = r) as -> by (by eapply reads_unique).
  destruct (next_version c w Hc Hv) as [(c' & w' & Ec & Hl')|[Ec Hno]]; rewrite Ec in Hs1.
  - rewrite (go_on_version f s1 _ _ _ _ Hs1). pose proof (entries_from_decr rd W_wf k t c w Ht Hl).
    eapply (IH s1 c' w' (c - 1)); [done..|lia|done| |done|lia]. apply (quiet_prev rd k (Some ts) c w); [by apply (quiet_latest rd k (Some ts) t c w)|done|done].
  - rewrite (go_on_past f s1 _ _ Hs1). exists FoundNone, s1. split; [done|]. split; [|eapply state_mono; [done|]; by left].
    eapply reads_none_value; [done|]. eapply reads_unique; [exact Hr'|]. by apply no_version_reads.
Qed.

(** The round that follows a pointer. *)
Lemma step_jump f r s c w t pl (B : bytes -> Prop) lt n : reads_from f r ->
  at_pos s (Some (append_ts k c, write_to_bytes w)) pl B -> (forall x, B x -> ble x k) ->
  is_u64 t -> t <= ts -> is_latest W k t c w -> is_data w = false -> quiet W k (Some ts) t -> reads W k t r ->
  (size (entries_from rd (append_ts k t)) < S f)%nat -> write_last_change w = LCExist lt n ->
  exists o s', (_ ← on_write (fun cu => cursor_seek cu (append_ts k lt)); go_on f) s = (Ok o, s') /\ found_read pl (seen_default B) o s'.
Proof using Hinv Hlo Hhi Hk Hkr Hdesc.
  intros IH Hs HB Ht Hle Hl Hd Hq Hr Hf Hlc. pose proof Hl as (Hc & Hct & Hv & Hlat). pose proof (version_pos rd W_wf k c w Hc Hv) as Hpos.
  assert (kv_ver a !! c = Some w) as Hw by (by apply (sees_ver rd k a k_sees)).
  pose proof (inv_last_change a k_inv c w Hw Hd) as Hlct. rewrite Hlc in Hlct. cbn in Hlct. apply (dlatest_version rd k a k_sees) in Hlct as [w' Hld].
  change (snap_engine (rd_snapshot rd)) with e in Hld. change (cf_write e) with W in Hld. pose proof Hld as (Hlu & Hlle & Hlv & Hldat & _).
  assert (lt <> c) as Hne by (intros ->; congruence). apply (version_Some rd W_wf) in Hlv as Hx. destruct Hx as [_ Hm]. change (rd_cf rd CF_WRITE) with W in Hm.
  destruct (st_seek e0 cfg0 s _ pl B (append_ts k lt) Hs (k_accepts lt)) as (s1 & E1 & Hs1).
  { intros _ ? ? [= <- <-]. by apply append_ts_le. }
  { by eauto. }
  { left. fold W. rewrite (seek_ge_eq _ _ _ Hm). by eauto. }
  fold W in Hs1. rewrite (seek_ge_eq _ _ _ Hm) in Hs1. sm_run E1. rewrite (go_on_version f s1 _ _ _ _ Hs1).
  assert (latest_data W k t lt w') as Hldt.
  { destruct Hld as (_ & _ & _ & _ & Hn). split_and!; [done|lia|done|done|]. intros c' w2 Hc' Hcc Hv2.
    destruct (Z.le_gt_cases c' c); [eapply Hn; [done| |done]; lia|]. by rewrite (Hlat c') in Hv2 by (done || lia). }
  assert (latest_data W k lt lt w') as Hll by (split_and!; [done|lia|done|done|]; intros; lia).
  assert (size (entries_from rd (append_ts k lt)) <= size (entries_from rd (append_ts k (c - 1))))%nat as Hsz.
  { apply entries_from_mono. apply append_ts_le; [unfold is_u64 in *; lia|done|lia]. }
  pose proof (entries_from_decr rd W_wf k t c w Ht Hl). eapply (IH s1 lt w' lt); [done|done|done|lia| | | |lia].
  - split_and!; [done|lia|done|]. intros; lia.
  - by apply (quiet_data rd k (Some ts) t lt w').
  - destruct r as [[w2 c2]|].
    + destruct Hr as [Hr Hp]. destruct (latest_data_unique _ _ _ _ _ _ _ Hldt Hr) as [<- <-]. done.
    + right. exists lt, w'. split; [done|]. destruct Hr as [Hn|(c2 & w2 & Hr & Hdel)].
      * by rewrite (Hn lt w') in Hldat by (done || lia).
      * by destruct (latest_data_unique _ _ _ _ _ _ _ Hldt Hr) as [<- <-].
Qed.

Lemma loop_reads r : reads W k ts r -> forall f, reads_from f r.
Proof using Hinv Hlo Hhi Hsnap Hlow Hup Hk Hkr Hdesc.
  intros Hrts. induction f as [|f IH]; intros s c w t pl B Hs HB Ht Hle Hl Hq Hr Hf; [lia|].
  pose proof (step_next f r s c w t pl B IH Hrts Hs HB Ht Hle Hl) as Hnext.
  pose proof (fun lt n => step_jump f r s c w t pl B lt n IH Hs HB Ht Hle Hl) as Hjump.
  pose proof Hl as (Hc & Hct & Hv & _). destruct (st_entry e0 cfg0 s _ _ pl B Hs) as (_ & Ev & _).
  assert (kv_ver a !! c = Some w) as Hw by (by apply (sees_ver rd k a k_sees)).
  assert (quiet W k (Some ts) c) as Hqc by (by apply (quiet_latest rd k (Some ts) t c w)).
  pose proof (readable_fences rd k a k_sees (Some ts) (kinv_readable a (Some ts) k_inv) c w Hc Hv Hqc) as Hfence. cbn in Hfence.
  destruct (state_cfg_eq e0 cfg0 s _ pl B Hs) as (_ & _ & _ & Et & _).
  cbn [latest_kv_loop]. fold (go_on f). unfold mbind at 1, SM_bind at 1, sget. sm_run Ev.
  apply (version_Some rd W_wf) in Hv as Hx. destruct Hx as [Hww _]. rewrite write_parse_to_bytes by done.
  unfold slift at 1. cbn [map_err]. sm_open. rewrite Et, Hfence.
  assert (at_pos s (Some (append_ts k c, write_to_bytes w)) pl (seen_default B)) as Hs' by (eapply state_mono; [done|]; by left).
  assert (r = None -> exists o s', mret (M := SM) (FoundValue None) s = (Ok o, s') /\ found_read pl (seen_default B) o s') as Hnone.
  { intros Er. eexists _, s. split; [done|]. split; [exists None; split; [by destruct (sc_omit_value cfg0)|by eapply reads_none_value]|].
    eexists. split; [done|]. left. by exists c, (write_to_bytes w). }
  destruct (is_data w) eqn:Hd.
  - pose proof (latest_is_data W k t c w Hl Hd) as Hld. unfold is_data in Hd. destruct (write_type w) eqn:Ety; try done.
    + apply (put_found s c w pl B Hs Hc HB). apply (reads_read_at rd k a k_sees). assert (r = Some (w, c)) as <-; [|done].
      eapply reads_unique; [exact Hr|]. by split.
    + apply Hnone. eapply reads_unique; [exact Hr|]. right. eauto.
  - specialize (Hnext eq_refl Hq Hr Hf). specialize (fun lt n => Hjump lt n eq_refl Hq Hr Hf).
    pose proof (inv_last_change a k_inv c w Hw Hd) as Hlct. pose proof Hd as Hd0. unfold is_data in Hd.
    destruct (write_type w); try done; (destruct (write_last_change w) as [|lt n|]; [exact Hnext| |apply Hnone; eapply reads_unique; [exact Hr|];
      apply (latest_skip W k t c w c None Hl Hd0); [lia|by apply (unreadable_reads rd k a k_sees)]];
      destruct (SEEK_BOUND <=? n); [by eapply Hjump|exact Hnext]).
Qed.

(** *** The records of the key are dealt with *)

Lemma wanted_cases :
  (is_on_key wanted = true /\ exists c w, wanted = Some (append_ts k c, write_to_bytes w) /\ is_latest W k ts c w)
  \/ (is_on_key wanted = false /\ wanted = past /\ no_version W k ts).
Proof using Hinv Hlo Hhi Hk Hts.
  assert (is_u64 ts) as Htu by apply Hts. pose proof (write_seek_spec rd W_wf k Hk ts Htu) as Hs. change (rd_cf rd CF_WRITE) with W in Hs.
  unfold write_seek, same_prefix in Hs. rewrite slice_prefix_append in Hs. fold wanted in Hs.
  destruct (is_on_key wanted) eqn:Eon; [left|right]; (split; [done|]).
  - destruct wanted as [[x v]|]; [|done]. cbn in Eon. apply is_user_key_eq_append_ts in Eon as (c & Hc & ->).
    rewrite slice_prefix_append, bool_decide_eq_true_2 in Hs by done. destruct Hs as (c' & w & Ec & -> & Hl).
    apply append_ts_inj in Ec as [_ <-]; [|done|by destruct Hl as (? & _)]. eauto.
  - assert (no_version W k ts) as Hno.
    { destruct wanted as [[x v]|] eqn:Ew; [|done]. cbn in Eon. case_bool_decide as Hx; [|done]. destruct Hs as (c & w & -> & _).
      by rewrite is_user_key_eq_append in Eon. }
    split; [|done]. unfold wanted, past. destruct (seek_ge W (append_ts k ts)) as [[x v]|] eqn:Ew; symmetry.
    + pose proof Ew as (Hx & Hge & Hmin)%seek_ge_Some. apply seek_ge_Some. split_and!; [done| |].
      * apply not_blt. intros Hlt. destruct (between ts 0 x v Htu is_u64_0 Hx Hge) as (c & -> & _); [by apply blt_ble|].
        unfold wanted in Eon. rewrite Ew in Eon. cbn in Eon. by rewrite is_user_key_eq_append in Eon.
      * intros x2 v2 H2 Hge2. eapply Hmin; [done|]. eapply ble_trans; [|exact Hge2]. apply append_ts_le; [done|apply is_u64_0|]. destruct Hts. lia.
    + eapply seek_ge_None_le; [exact Ew|]. apply append_ts_le; [done|apply is_u64_0|]. destruct Hts. lia.
Qed.

Lemma no_version_value : no_version W k ts -> value_at a ts None.
Proof using Hinv Hlo Hhi Hk. intros Hno. apply (reads_none_value None); [by apply no_version_reads|done]. Qed.

(** The outcome for a value. *)
Definition returns (v : option Value) : HandleRes (Key * Value) := match v with Some v => HReturn (k, v) | None => HSkip k end.

Lemma scan_fuel_enough s pw pl B x : at_pos s pw pl B -> (size (entries_from rd x) < scan_fuel (ss_cfg s))%nat.
Proof using Hsnap.
  intros Hs. destruct (state_cfg_eq e0 cfg0 s pw pl B Hs) as (Es & _). unfold scan_fuel. rewrite Es, Hsnap. cbn [snap snap_engine engine_get_cf].
  assert (size (entries_from rd x) <= size (cf_write e0))%nat; [|lia]. apply map_subseteq_size.
  etrans; [apply map_filter_subseteq|]. cbn. apply map_filter_subseteq.
Qed.

Lemma handle_write_spec s c w pl (B : bytes -> Prop) : at_pos s (Some (append_ts k c, write_to_bytes w)) pl B -> (forall x, B x -> ble x k) ->
  is_latest W k ts c w ->
  exists v0 s', latest_kv_handle_write k s = (Ok (returns (hide (sc_omit_value cfg0) v0)), s') /\ value_at a ts v0 /\ at_pos s' past pl (seen_default B).
Proof using Hinv Hlo Hhi Hsnap Hlow Hup Hts Hk Hkr Hdesc.
  intros Hs HB Hl. assert (is_u64 ts) as Htu by apply Hts. destruct (reads_exists ts Htu) as (r & Hr).
  destruct (loop_reads r Hr (scan_fuel (ss_cfg s)) s c w ts pl B Hs HB Htu) as (o & s1 & E1 & Ho); [lia|done| |done|by eapply scan_fuel_enough|].
  { intros l c' w' [= <-] Hc' Hlt. lia. }
  unfold latest_kv_handle_write, mbind at 1, SM_bind at 1, sget. sm_run E1. destruct o as [v|].
  - destruct Ho as ((v0 & -> & Hv0) & pw & Hs1 & Hpw). destruct (move_next_spec s1 pw pl _ Hs1 Hpw) as (s2 & E2 & Hs2).
    exists v0, s2. unfold mbind, SM_bind. rewrite E2. by destruct (hide (sc_omit_value cfg0) v0).
  - destruct Ho as [Hv0 Hs1]. exists None, s1. split_and!; [by destruct (sc_omit_value cfg0)|done..].
Qed.

(** The newest record, in the view of the key. *)
Lemma newest_view c v : is_u64 c -> W !! append_ts k c = Some v -> (forall c', is_u64 c' -> is_Some (W !! append_ts k c') -> c' <= c) -> newest a c.
Proof using Hinv Hlo Hhi Hk.
  intros Hc Hv Hmax. pose proof (sees_ver rd k a k_sees) as Hver. split.
  - destruct (version_entry rd W_wf k c v Hv) as [w Hw]. exists w. by apply Hver.
  - intros c' [w' [Hc' Hw']%Hver]. apply (version_Some rd W_wf) in Hw' as [_ Hm]. apply Hmax; [done|by eauto].
Qed.

Definition read_writes : SM (I := I) (HandleRes (Key * Value)) :=
  is_current_user_key ← move_write_cursor_to_ts k;
  if (is_current_user_key : bool) then handle_write LatestKvPolicy k else mret (HSkip k).

(** The outcome of reading the records of the key. *)
Definition read_outcome (pl : option (bytes * bytes)) (B : bytes -> Prop) (r : mres (HandleRes (Key * Value))) (s : ScanState I) : Prop :=
  match r with
  | Ok o => exists v, value_result a k ts (sc_omit_value cfg0) (sc_isolation_level cfg0) (Ok v) /\ o = returns v /\ at_pos s past pl (seen_default B)
  | Err er => value_result a k ts (sc_omit_value cfg0) (sc_isolation_level cfg0) (Err er) /\ sc_isolation_level cfg0 = RcCheckTs
  | Panic => False
  end.

Lemma read_writes_spec s c v pl (B : bytes -> Prop) : at_pos s (Some (append_ts k c, v)) pl B -> (forall x, B x -> ble x k) -> is_u64 c ->
  (forall c', is_u64 c' -> is_Some (W !! append_ts k c') -> c' <= c) -> read_outcome pl B (read_writes s).1 (read_writes s).2.
Proof using Hinv Hlo Hhi Hsnap Hlow Hup Hts Hk Hkr Hdesc.
  intros Hs HB Hc Hmax. destruct (st_entry e0 cfg0 s _ _ pl B Hs) as (_ & _ & Hv). pose proof (newest_view c v Hc Hv Hmax) as Hnew.
  destruct (move_to_ts_spec s c v pl B Hs Hc Hmax) as (s1 & [(Hs1 & E1 & Hno)|(E1 & Hlt & Hil)]); unfold read_writes, mbind, SM_bind; rewrite E1.
  - assert (forall v0, value_at a ts v0 -> value_result a k ts (sc_omit_value cfg0) (sc_isolation_level cfg0) (Ok (hide (sc_omit_value cfg0) v0))) as Hval.
    { intros v0 Hv0. split; [by exists v0|]. intros (c' & Hc' & Hlt) Hil. destruct Hno. split; [|done]. pose proof (proj2 Hnew c' Hc'). lia. }
    destruct wanted_cases as [(-> & c1 & w1 & Ew & Hl)|(-> & Ew & Hno')]; rewrite Ew in Hs1.
    + destruct (handle_write_spec s1 c1 w1 pl B Hs1 HB Hl) as (v0 & s2 & E2 & Hv0 & Hs2). cbn [handle_write LatestKvPolicy].
      rewrite E2. eexists. split; [by apply Hval|]. by split.
    + exists None. cbn. split_and!; [|done|eapply state_mono; [done|]; by left].
      assert (hide (sc_omit_value cfg0) None = None) as <- by (by destruct (sc_omit_value cfg0)). by apply Hval, no_version_value.
  - cbn. split; [|done]. split; [|intros _ _; exists c; by split_and!].
    intros [Hn|?]; [|done]. destruct Hn. exists c. by split; [apply Hnew|].
Qed.

(** A key without records. *)
Lemma no_writes_spec : ~ has_record W k -> value_result a k ts (sc_omit_value cfg0) (sc_isolation_level cfg0) (Ok None).
Proof using Hinv Hlo Hhi Hk.
  intros Hno. assert (forall c w, kv_ver a !! c = Some w -> False) as Hnone.
  { intros c w [Hc Hw]%(sees_ver rd k a k_sees). apply (version_Some rd W_wf) in Hw as [_ Hm]. destruct Hno. by eexists _, _. }
  split.
  - intros _. exists None. split; [by destruct (sc_omit_value cfg0)|]. left. intros c Hc. unfold data_at.
    destruct (kv_ver a !! c) as [w|] eqn:E; [|done]. by destruct (Hnone c w).
  - intros (c & [w Hw] & _). by destruct (Hnone c w).
Qed.

(** *** The lock of the key *)

Let L := scan_locks (lo := lo) (hi := hi) e0 cfg0.

(** The lock the cursor is on is the lock of the key. *)
Lemma lock_view lv : L !! k = Some lv -> need_check_locks (sc_isolation_level cfg0) = true /\ exists l, kv_lock a = Some l /\ lv = lock_to_bytes l /\ lock_parse lv = Ok l.
Proof using Hinv Hlo Hhi Hk.
  unfold L, scan_locks. destruct (need_check_locks (sc_isolation_level cfg0)); [|done]. intros Hv. split; [done|].
  destruct e_inv as [(_ & Hl & _) _]. destruct (Hl k lv Hv) as (l & _ & Hwf & Hone & ->). exists l.
  assert (lock_parse (lock_to_bytes l) = Ok l) as Hp by (by apply lock_parse_wf). split_and!; [|done..].
  unfold a, view, lock_at. cbn. by rewrite Hv, Hp.
Qed.

Lemma need_not_rc : need_check_locks (sc_isolation_level cfg0) = true -> sc_isolation_level cfg0 <> Rc.
Proof using. by destruct (sc_isolation_level cfg0). Qed.

(** The value of a lock that conflicts, with the default cursor there. *)
Lemma load_lock_spec s pw pl (B : bytes -> Prop) l er : at_pos s pw pl B -> (forall x, B x -> ble x k) -> with_default s -> kv_lock a = Some l ->
  check_ts_conflict l k ts (sc_bypass_locks cfg0) (sc_isolation_level cfg0) = Err er ->
  exists v s', load_data_by_lock k l s = (Ok (hide (sc_omit_value cfg0) v), s') /\ lock_value a l v /\ at_pos s' pw pl (seen_default B).
Proof using Hinv Hlo Hhi Hsnap Hlow Hup Hk Hkr Hdesc.
  intros Hs HB [c Ec] Hl Hc. destruct (state_cfg_eq e0 cfg0 s pw pl B Hs) as (_ & Eo & _ & _ & Ed & _).
  assert (at_pos s pw pl (seen_default B)) as Hs' by (eapply state_mono; [done|]; by left).
  unfold load_data_by_lock, mbind at 1, SM_bind at 1, sget. rewrite Eo, Ed, Hdesc. unfold lock_value.
  destruct (conflict_type e k ts e_inv Hk (sc_omit_value cfg0) (sc_isolation_level cfg0) (sc_bypass_locks cfg0) TsEmpty Unknown l er Hl Hc) as [Ht|Ht]; rewrite Ht.
  2:{ exists None, s. split_and!; [by destruct (sc_omit_value cfg0)|done..]. }
  assert (exists v, match lock_short_value l with Some sv => v = sv | None => kv_val a !! lock_ts l = Some v end) as [v Hv].
  { destruct (lock_short_value l) as [sv|] eqn:E; [by exists sv|]. apply (inv_lock_value a k_inv l Hl). unfold needs_value. rewrite Ht, E. by rewrite !bool_decide_eq_true_2. }
  destruct (sc_omit_value cfg0); [exists (Some v), s; split_and!; [done| |done]; by exists v|].
  destruct (lock_short_value l) as [sv|] eqn:E; [subst v; exists (Some sv), s; split_and!; [done| |done]; by exists sv|].
  destruct (load_value s pw pl B (lock_ts l) v Hs HB Hv) as (s1 & E1 & Hs1); [by destruct (sees_lock_wf rd k a k_sees l Hl) as [(_ & ? & _) _]|].
  exists (Some v), s1. split_and!; [|by exists v|done]. unfold ensure_default_cursor, mbind at 1 2, SM_bind at 1 2, sget in E1. rewrite Ec in E1.
  unfold mbind, SM_bind. unfold mret, SM_ret in E1. by rewrite E1.
Qed.

(** [handle_lock]: a lock that does not conflict is stepped over; otherwise
    the key is done. *)
Lemma handle_lock_spec s pw lv (B : bytes -> Prop) : at_pos s pw (Some (k, lv)) B -> (forall x, B x -> ble x k) -> on_key pw \/ pw = past ->
  exists l, kv_lock a = Some l /\ need_check_locks (sc_isolation_level cfg0) = true /\
  match check_ts_conflict l k ts (sc_bypass_locks cfg0) (sc_isolation_level cfg0) with
  | Ok _ => exists s', latest_kv_handle_lock k s = (Ok (HSkip k), s') /\ at_pos s' pw (seek_gt L k) B
  | Err er =>
      if TsSet_contains (sc_access_locks cfg0) (lock_ts l) then
        exists v s', latest_kv_handle_lock k s =
          (Ok (match hide (sc_omit_value cfg0) v with Some v => HReturn (k, v) | None => HMoveToNext end), s') /\
          lock_value a l v /\ at_pos s' past (seek_gt L k) (seen_default B)
      else exists s', latest_kv_handle_lock k s = (Err (mvcc_error_from_txn er), s') /\ at_pos s' past (seek_gt L k) B
  | Panic => False
  end.
Proof using Hinv Hlo Hhi Hsnap Hlow Hup Hk Hkr Hdesc.
  intros Hs HB Hpw. destruct (st_lock_cursor e0 cfg0 s pw k lv B Hs) as (lc & _ & (Hlc & _)).
  destruct (cursor_entry_at _ _ _ _ Hlc) as (_ & _ & HL). destruct (lock_view lv HL) as (Hneed & l & Hl & _ & Hparse).
  exists l. split; [done|]. split; [done|]. destruct (state_cfg_eq e0 cfg0 s pw _ B Hs) as (_ & _ & Ei & Et & _ & Eb & Ea).
  assert (latest_kv_handle_lock k s = (_ ← on_lock cursor_next;
    match check_ts_conflict l k ts (sc_bypass_locks cfg0) (sc_isolation_level cfg0) with
    | Ok _ => mret (HSkip k)
    | Err er =>
        _ ← move_write_cursor_to_next_user_key k;
        if TsSet_contains (sc_access_locks cfg0) (lock_ts l) then
          _ ← ensure_default_cursor;
          val ← load_data_by_lock k l;
          mret (match val with Some v => HReturn (k, v) | None => HMoveToNext end)
        else slift (Err (mvcc_error_from_txn er))
    | Panic => slift Panic
    end) s) as ->.
  { unfold latest_kv_handle_lock, mbind at 1, SM_bind at 1, sget. rewrite Ei, Et, Eb, Ea. rewrite bool_decide_eq_false_2 by (by apply need_not_rc).
    sm_run (st_lock_value e0 cfg0 s pw k lv B Hs). unfold slift at 1. rewrite Hparse. done. }
  destruct (st_lock_next e0 cfg0 s pw k lv B Hs) as (s1 & E1 & _ & Hs1). fold L in Hs1.
  pose proof (check_ts_conflict_no_panic l k ts (sc_bypass_locks cfg0) (sc_isolation_level cfg0) Hk) as Hnp.
  destruct (check_ts_conflict l k ts (sc_bypass_locks cfg0) (sc_isolation_level cfg0)) as [[]|er|] eqn:Ec; unfold mbind, SM_bind; rewrite ?E1; [by exists s1| |done].
  destruct (move_next_spec s1 pw _ B Hs1 Hpw) as (s2 & E2 & Hs2).
  destruct (TsSet_contains (sc_access_locks cfg0) (lock_ts l)); rewrite E2; [|by exists s2].
  destruct (st_ensure e0 cfg0 ltac:(by rewrite Hsnap) Hlow Hup s2 _ _ B Hs2) as (s3 & E3 & Hs3 & Hd). rewrite E3.
  destruct (load_lock_spec s3 _ _ B l er Hs3 HB Hd Hl Ec) as (v & s4 & E4 & Hv & Hs4). exists v, s4. by rewrite E4.
Qed.
End Key.

(** ** The keys that are left *)

Section Walk.
  Context {I : Type} {lo hi : option Key} `{IS : IterSpec I lo hi} (e0 : Engine) (cfg0 : ScannerConfig).
  Hypothesis Hinv : sys_inv e0.
  Hypothesis Hlo : opt_user_key lo.
  Hypothesis Hhi : opt_user_key hi.
  Hypothesis Hsnap : sc_snapshot cfg0 = snap e0.
  Hypothesis Hlow : sc_lower_bound cfg0 = lo.
  Hypothesis Hup : sc_upper_bound cfg0 = hi.
  Hypothesis Hts : txn_ts (sc_ts cfg0).
  Hypothesis Hdesc : sc_desc cfg0 = false.
Let W := range_cf lo hi (cf_write e0).
Let L := scan_locks (lo := lo) (hi := hi) e0 cfg0.
Abbreviation ts := (sc_ts cfg0).
Abbreviation at_pos := (state_at e0 cfg0).
Abbreviation W_ok := (W_wf e0 Hinv Hlo Hhi).

Lemma L_wf : lock_cf_wf L.
Proof using Hinv Hlo Hhi.
  unfold L, scan_locks. destruct (need_check_locks (sc_isolation_level cfg0)); [apply (e_inv e0 Hinv Hlo Hhi)|]. by intros k v Hk.
Qed.

Lemma scanned_in_range u : u ∈ scan_keys L W -> user_key u /\ in_range lo hi u = true.
Proof using Hinv Hlo Hhi.
  intros Hu. pose proof (scan_keys_user L W u W_ok L_wf Hu) as Huk. split; [done|].
  apply (elem_of_scan_keys L W u W_ok) in Hu as [[v Hv]|(c & v & Hc & Hv)].
  - unfold L, scan_locks in Hv. destruct (need_check_locks (sc_isolation_level cfg0)); [|done]. by apply range_cf_lookup in Hv as [_ ?].
  - apply range_cf_lookup in Hv as [_ Hv]. by rewrite in_range_append in Hv.
Qed.

(** The keys up to the cut are done. *)
Definition cut_bound (cut : option Key) : bytes := match cut with Some k => append_ts k 0 | None => [] end.
Definition cut_wf (cut : option Key) : Prop := forall k, cut = Some k -> user_key k.
Definition rest_of (cut : option Key) (rest : list Key) : Prop :=
  StronglySorted blt rest /\ forall u, u ∈ rest <-> u ∈ scan_keys L W /\ forall k0, cut = Some k0 -> blt k0 u.

Definition walk_at (s : ScanState I) (cut : option Key) : Prop :=
  at_pos s (seek_ge W (cut_bound cut)) (seek_ge L (cut_bound cut)) (fun x => ble x (cut_bound cut)).

Lemma ble_nil x : ble [] x.
Proof using. apply (ble_app [] x). Qed.

Lemma cut_below cut u : cut_wf cut -> user_key u -> (forall k0, cut = Some k0 -> blt k0 u) -> ble (cut_bound cut) u.
Proof using.
  intros Hc Hu Hlt. destruct cut as [k0|]; [|apply ble_nil]. apply blt_ble, user_key_lt_ts; [by apply Hc|done|by apply Hlt].
Qed.

(** A record behind the cut belongs to a key that is left. *)
Lemma record_left cut rest x v : cut_wf cut -> rest_of cut rest -> W !! x = Some v -> ble (cut_bound cut) x ->
  exists u c, is_u64 c /\ 0 < c /\ x = append_ts u c /\ u ∈ rest.
Proof using Hinv Hlo Hhi.
  intros Hc [_ Hr] Hx Hge. destruct (W_ok x v Hx) as (u & c & w & Hu & Hcu & Hpos & _ & -> & _). exists u, c. split_and!; [done..|].
  apply Hr. split; [apply (elem_of_scan_keys L W u W_ok); right; by exists c, v|]. intros k0 ->. cbn in Hge.
  destruct (user_key_trichotomy k0 u) as [H0|[->|H0]]; [done| |].
  - apply append_ts_le in Hge; [lia|apply is_u64_0|done].
  - exfalso. apply (user_key_lt_versions u k0 c 0 Hu (Hc k0 eq_refl)) in H0. by apply not_ble in H0.
Qed.

Lemma lock_left cut rest x v : cut_wf cut -> rest_of cut rest -> L !! x = Some v -> ble (cut_bound cut) x -> x ∈ rest.
Proof using Hinv Hlo Hhi.
  intros Hc [_ Hr] Hx Hge. apply Hr. split; [apply (elem_of_scan_keys L W x W_ok); left; by exists v|]. intros k0 ->. cbn in Hge.
  destruct (user_key_trichotomy k0 x) as [H0|[->|H0]]; [done| |].
  - exfalso. pose proof (blt_append_ts x 0 is_u64_0) as Hlt. by apply not_ble in Hlt.
  - exfalso. destruct (L_wf x v Hx) as (l & Hu & _). pose proof (ble_append_ts k0 0) as Hle. apply not_blt in Hge. destruct Hge.
    by eapply blt_le_trans.
Qed.

Lemma seek_ge_skip (m : cf) b b' : ble b b' -> (forall x v, m !! x = Some v -> ble b x -> ble b' x) -> seek_ge m b = seek_ge m b'.
Proof using.
  intros Hle Hskip. destruct (seek_ge m b') as [[x v]|] eqn:E.
  - pose proof E as (Hx & Hge & Hmin)%seek_ge_Some. apply seek_ge_Some. split_and!; [done|by eapply ble_trans|]. intros x2 v2 H2 Hge2.
    eapply Hmin; [done|]. by eapply Hskip.
  - apply seek_ge_None. intros x v Hx. apply not_ble. intros Hge. pose proof (Hskip x v Hx Hge) as Hge'.
    pose proof (proj1 (seek_ge_None m b') E x v Hx) as Hlt. by apply not_ble in Hlt.
Qed.

(** A point get has one outcome; it is decided by the records in the range. *)
Lemma get_unique (get : Key -> mres (option Value)) k r : user_key k -> in_range lo hi k = true ->
  read_result (view e0 k) k ts (sc_omit_value cfg0) (sc_isolation_level cfg0) (sc_bypass_locks cfg0) (sc_access_locks cfg0) (get k) ->
  read_result (view (range_engine lo hi e0) k) k ts (sc_omit_value cfg0) (sc_isolation_level cfg0) (sc_bypass_locks cfg0) (sc_access_locks cfg0) r ->
  get k = r.
Proof using Hinv Hlo Hhi Hts.
  intros Hu Hr Hg Hx. rewrite <- (range_view lo hi Hlo Hhi e0 k) in Hg by (done || apply Hinv). eapply read_result_unique; [|exact Hg|exact Hx].
  by apply (newer_dec _ k ts (e_inv e0 Hinv Hlo Hhi) Hu Hts).
Qed.

(** The first key that is left: where the cursors are. *)
Section First.
  Context (cut : option Key) (k : Key) (rest : list Key).
  Hypothesis Hcut : cut_wf cut.
  Hypothesis Hrest : rest_of cut (k :: rest).

Lemma first_key : user_key k /\ in_range lo hi k = true /\ ble (cut_bound cut) k.
Proof using Hinv Hlo Hhi Hcut Hrest.
  destruct (proj1 (proj2 Hrest k) (list_elem_of_here k rest)) as [Hin Hlt]. destruct (scanned_in_range k Hin) as [Hu Hr].
  split_and!; [done..|]. by apply cut_below.
Qed.

Lemma first_least u : u ∈ k :: rest -> u = k \/ blt k u.
Proof using Hrest.
  intros [->|Hu]%elem_of_cons; [by left|right]. destruct Hrest as [Hs _]. apply StronglySorted_cons in Hs as [Hf _].
  rewrite Forall_forall in Hf. by apply Hf.
Qed.

Lemma rest_next : rest_of (Some k) rest.
Proof using Hrest.
  pose proof Hrest as [Hs Hr]. apply StronglySorted_cons in Hs as [Hf Hs]. rewrite Forall_forall in Hf. split; [done|]. intros u. split.
  - intros Hu. split; [apply Hr; by right|]. intros k0 [= <-]. by apply Hf.
  - intros [Hu Hlt]. specialize (Hlt k eq_refl). assert (u ∈ k :: rest) as Hin.
    { apply Hr. split; [done|]. intros k0 E. eapply blt_trans; [|exact Hlt]. by apply (proj1 (Hr k) (list_elem_of_here k rest)). }
    apply elem_of_cons in Hin as [->|]; [|done]. by apply blt_irrefl in Hlt.
Qed.

Lemma write_pos :
  (exists c v, seek_ge W (cut_bound cut) = Some (append_ts k c, v) /\ is_u64 c /\
     (forall c', is_u64 c' -> is_Some (W !! append_ts k c') -> c' <= c))
  \/ (~ has_record W k /\ seek_ge W (cut_bound cut) = past e0 (lo := lo) (hi := hi) k /\
       forall x v, seek_ge W (cut_bound cut) = Some (x, v) -> exists u c, x = append_ts u c /\ blt k u).
Proof using Hinv Hlo Hhi Hcut Hrest.
  destruct first_key as (Huk & _ & Hle). assert (forall c, ble (cut_bound cut) (append_ts k c)) as Hlec by (intros c; eapply ble_trans; [exact Hle|apply ble_append_ts]).
  destruct (seek_ge W (cut_bound cut)) as [[x v]|] eqn:E.
  - pose proof E as (Hx & Hge & Hmin)%seek_ge_Some. destruct (record_left cut _ x v Hcut Hrest Hx Hge) as (u & c & Hc & Hpos & -> & Hin).
    destruct (first_least u Hin) as [->|Hlt].
    + left. exists c, v. split_and!; [done..|]. intros c' Hc' [v' Hv']. specialize (Hmin _ _ Hv' (Hlec c')). by apply append_ts_le in Hmin.
    + right. assert (user_key u) as Huu by (apply (scan_keys_user L W u W_ok L_wf); by apply Hrest).
      assert (~ has_record W k) as Hno. { intros (c' & v' & Hc' & Hv'). specialize (Hmin _ _ Hv' (Hlec c')).
        apply (user_key_lt_versions k u c' c Huk Huu) in Hlt. by apply not_ble in Hlt. }
      split_and!; [done| |intros ? ? [= <- <-]; by exists u, c]. rewrite <- E. apply seek_ge_skip; [by apply Hlec|]. intros x2 v2 H2 Hge2.
      destruct (record_left cut _ x2 v2 Hcut Hrest H2 Hge2) as (u2 & c2 & Hc2 & _ & -> & Hin2). destruct (first_least u2 Hin2) as [->|Hlt2].
      * destruct Hno. by exists c2, v2.
      * apply blt_ble, user_key_lt_versions; [done| |done]. apply (scan_keys_user L W u2 W_ok L_wf). by apply Hrest.
  - right. pose proof (proj1 (seek_ge_None W _) E) as Hn. split_and!; [|symmetry; eapply seek_ge_None_le; [exact E|apply Hlec]|done].
    intros (c & v & Hc & Hv). specialize (Hn _ _ Hv). apply not_ble in Hn. by apply Hn, Hlec.
Qed.

Lemma lock_pos :
  (exists v, L !! k = Some v /\ seek_ge L (cut_bound cut) = Some (k, v) /\ seek_gt L k = seek_ge L (append_ts k 0))
  \/ (L !! k = None /\ seek_ge L (cut_bound cut) = seek_ge L (append_ts k 0) /\ forall x v, seek_ge L (cut_bound cut) = Some (x, v) -> blt k x).
Proof using Hinv Hlo Hhi Hcut Hrest.
  destruct first_key as (Huk & _ & Hle).
  assert (forall x v, L !! x = Some v -> ble (cut_bound cut) x -> x <> k -> blt k x /\ ble (append_ts k 0) x) as Hother.
  { intros x v Hx Hge Hne. pose proof (lock_left cut _ x v Hcut Hrest Hx Hge) as Hin. destruct (first_least x Hin) as [|Hlt]; [done|]. split; [done|].
    apply blt_ble, user_key_lt_ts; [done| |done]. apply (scan_keys_user L W x W_ok L_wf). by apply Hrest. }
  destruct (L !! k) as [v|] eqn:Ev; [left; exists v|right]; (split; [done|]).
  - split; [apply seek_ge_Some; split_and!; [done..|]|].
    + intros x v2 H2 Hge2. destruct (decide (x = k)) as [->|Hne]; [apply ble_refl|]. by apply blt_ble, (Hother x v2).
    + apply seek_gt_ge; [apply blt_append_ts, is_u64_0|]. intros x v2 (H2 & Hgt & _)%seek_gt_Some.
      apply (Hother x v2 H2); [by eapply ble_trans; [exact Hle|apply blt_ble]|]. intros ->. by apply blt_irrefl in Hgt.
  - split.
    + apply seek_ge_skip; [eapply ble_trans; [exact Hle|apply ble_append_ts]|]. intros x v Hx Hge. apply (Hother x v Hx Hge). congruence.
    + intros x v (Hx & Hge & _)%seek_ge_Some. apply (Hother x v Hx Hge). congruence.
Qed.

(** *** One round *)

Let a := view (range_engine lo hi e0) k.
Abbreviation pw := (seek_ge W (cut_bound cut)).
Abbreviation pl' := (seek_ge L (append_ts k 0)).
Abbreviation below := (fun x => ble x (cut_bound cut)).
Abbreviation outcome := (read_outcome e0 cfg0 k).

Lemma first_current : exists hw hl, current_of false (fst <$> pw, fst <$> seek_ge L (cut_bound cut)) = Ok (Some (k, hw, hl)) /\
  (hw = true -> exists c v, pw = Some (append_ts k c, v) /\ is_u64 c /\ (forall c', is_u64 c' -> is_Some (W !! append_ts k c') -> c' <= c)) /\
  (hw = false -> ~ has_record W k /\ pw = past e0 (lo := lo) (hi := hi) k) /\
  (hl = true -> exists v, L !! k = Some v /\ seek_ge L (cut_bound cut) = Some (k, v) /\ seek_gt L k = pl') /\
  (hl = false -> L !! k = None /\ seek_ge L (cut_bound cut) = pl').
Proof using Hinv Hlo Hhi Hcut Hrest.
  assert (forall u, ~ blt u u) as Hirr by apply blt_irrefl.
  destruct write_pos as [(c & v & Ew & Hc & Hn)|(Hno & Ew & Hgt)], lock_pos as [(lv & Hl & El & Eg)|(Hl & El & Hlgt)].
  - exists true, true. rewrite Ew, El. cbn. rewrite truncate_for_append_ts. cbn. rewrite bcmp_refl. split_and!; [done|eauto|done|eauto|done].
  - exists true, false. rewrite Ew. cbn. rewrite truncate_for_append_ts. split_and!; [|eauto|done..].
    destruct (seek_ge L (cut_bound cut)) as [[x xv]|] eqn:E; cbn; [|done]. specialize (Hlgt x xv eq_refl). unfold blt in Hlgt. by rewrite Hlgt.
  - exists false, true. rewrite El. cbn. split_and!; [|done|done|eauto|done].
    destruct pw as [[x xv]|] eqn:E; cbn; [|done]. destruct (Hgt x xv eq_refl) as (u & c & -> & Hlt). rewrite truncate_for_append_ts. cbn.
    unfold blt in Hlt. by rewrite bcmp_antisym, Hlt.
  - exfalso. assert (k ∈ scan_keys L W) as Hin by (apply Hrest; apply list_elem_of_here).
    apply (elem_of_scan_keys L W k W_ok) in Hin as [[v Hv]|?]; [congruence|done].
Qed.

(** Reading the records, or none. *)
Lemma write_stage s (hw : bool) pl : at_pos s pw pl below ->
  (hw = true -> exists c v, pw = Some (append_ts k c, v) /\ is_u64 c /\ (forall c', is_u64 c' -> is_Some (W !! append_ts k c') -> c' <= c)) ->
  (hw = false -> ~ has_record W k /\ pw = past e0 (lo := lo) (hi := hi) k) ->
  exists r s', (if hw then read_writes k else mret (HSkip k)) s = (r, s') /\ outcome pl below r s'.
Proof using Hinv Hlo Hhi Hsnap Hlow Hup Hts Hdesc Hcut Hrest.
  intros Hs Hw Hnw. destruct first_key as (Hu & Hr & Hle). destruct hw.
  - destruct (Hw eq_refl) as (c & v & Ew & Hc & Hn). rewrite Ew in Hs. do 2 eexists. split; [apply surjective_pairing|].
    apply (read_writes_spec e0 cfg0 Hinv Hlo Hhi Hsnap Hlow Hup Hts k Hu Hr Hdesc s c v pl below Hs); [|done|done].
    intros x Hx. by eapply ble_trans.
  - destruct (Hnw eq_refl) as [Hno Ew]. exists (Ok (HSkip k)), s. split; [done|]. exists None.
    split; [by apply (no_writes_spec e0 cfg0 Hinv Hlo Hhi k Hu)|]. split; [done|]. rewrite Ew in Hs. eapply state_mono; [done|]. by left.
Qed.

(** The key is done. *)
Lemma walk_on s (B : bytes -> Prop) : at_pos s (past e0 (lo := lo) (hi := hi) k) pl' B -> (forall x, B x -> below x \/ exists t, is_u64 t /\ x = append_ts k t) -> walk_at s (Some k).
Proof using Hinv Hlo Hhi Hcut Hrest.
  intros Hs HB. destruct first_key as (_ & _ & Hle). eapply state_mono; [exact Hs|]. intros x Hx. cbn.
  destruct (HB x Hx) as [Hb|(t & Ht & ->)].
  - eapply ble_trans; [exact Hb|]. eapply ble_trans; [exact Hle|apply ble_append_ts].
  - apply append_ts_le; [done|apply is_u64_0|]. unfold is_u64 in Ht. lia.
Qed.

(** The point get of the key agrees with what the round finds. *)
  Context (get : Key -> mres (option Value)).
  Hypothesis Hget : read_result (view e0 k) k ts (sc_omit_value cfg0) (sc_isolation_level cfg0) (sc_bypass_locks cfg0) (sc_access_locks cfg0) (get k).

Lemma get_is r : read_result a k ts (sc_omit_value cfg0) (sc_isolation_level cfg0) (sc_bypass_locks cfg0) (sc_access_locks cfg0) r -> get k = r.
Proof using Hinv Hlo Hhi Hts Hcut Hrest Hget. destruct first_key as (Hu & Hr & _). by apply get_unique. Qed.

Lemma unlocked_check : L !! k = None -> lock_check a k (sc_isolation_level cfg0) ts (sc_bypass_locks cfg0) = Ok tt.
Proof using.
  unfold L, scan_locks, lock_check. destruct (need_check_locks (sc_isolation_level cfg0)); [|by destruct (kv_lock a)].
  intros E. unfold a, view, lock_at. cbn. by rewrite E.
Qed.

Lemma get_value_is r : lock_check a k (sc_isolation_level cfg0) ts (sc_bypass_locks cfg0) = Ok tt ->
  value_result a k ts (sc_omit_value cfg0) (sc_isolation_level cfg0) r -> get k = r.
Proof using Hinv Hlo Hhi Hts Hcut Hrest Hget. intros El Hr. apply get_is. unfold read_result. by rewrite El. Qed.

(** The round from the lock of the key on. *)
Definition round (f : nat) (hw hl : bool) : SM (I := I) (option (Key * Value)) :=
  locked ← (if hl then _ ← note_newer; handle_lock LatestKvPolicy k else mret (HSkip k));
  match locked with
  | HReturn output => mret (Some output)
  | HMoveToNext => read_next_loop LatestKvPolicy f
  | HSkip k =>
      written ← (if hw then read_writes k else mret (HSkip k));
      match written with HReturn output => mret (Some output) | _ => read_next_loop LatestKvPolicy f end
  end.

(** Where a call of [next] leaves the scanner. *)
Definition next_post (rest : list Key) (p : mres (option (Key * Value)) * ScanState I) : Prop :=
  p.1 = (first_get get rest).1 /\
  (keeps_going p.1 = true -> exists cut', cut_wf cut' /\ walk_at p.2 cut' /\ rest_of cut' (first_get get rest).2).

Lemma key_returned s v : walk_at s (Some k) -> get k = Ok (Some v) -> next_post (k :: rest) (Ok (Some (k, v)), s).
Proof using Hinv Hlo Hhi Hcut Hrest.
  intros Hs Eg. unfold next_post. cbn. rewrite Eg. split; [done|]. intros _. exists (Some k). split; [intros ? [= <-]; apply first_key|]. split; [done|apply rest_next].
Qed.

Lemma key_failed s er : get k = Err er -> (keeps_going (Err er) = true -> walk_at s (Some k)) -> next_post (k :: rest) (Err er, s).
Proof using Hinv Hlo Hhi Hcut Hrest.
  intros Eg Hs. unfold next_post. cbn. rewrite Eg. split; [done|]. intros Hgo. exists (Some k). split; [intros ? [= <-]; apply first_key|].
  split; [by apply Hs|apply rest_next].
Qed.

(** Once the lock does not matter. *)
Lemma round_writes f s (hw : bool) (Hnext : forall s', walk_at s' (Some k) -> next_post rest (read_next_loop LatestKvPolicy f s')) :
  at_pos s pw pl' below -> lock_check a k (sc_isolation_level cfg0) ts (sc_bypass_locks cfg0) = Ok tt ->
  (hw = true -> exists c v, pw = Some (append_ts k c, v) /\ is_u64 c /\ (forall c', is_u64 c' -> is_Some (W !! append_ts k c') -> c' <= c)) ->
  (hw = false -> ~ has_record W k /\ pw = past e0 (lo := lo) (hi := hi) k) ->
  next_post (k :: rest) ((written ← (if hw then read_writes k else mret (HSkip k));
    match written with HReturn output => mret (Some output) | _ => read_next_loop LatestKvPolicy f end) s).
Proof using Hinv Hlo Hhi Hsnap Hlow Hup Hts Hdesc Hcut Hrest Hget.
  intros Hs Elc Hw Hnw. destruct (write_stage s hw pl' Hs Hw Hnw) as (r & s1 & E1 & Ho). unfold mbind, SM_bind. rewrite E1.
  destruct r as [o|er|]; [| |done].
  - destruct Ho as (v & Hv & -> & Hs1). pose proof (get_value_is _ Elc Hv) as Eg. apply walk_on in Hs1; [|intros x [?|?]; auto].
    destruct v as [v|]; cbn [returns]; [by apply key_returned|]. unfold next_post. cbn [first_get]. rewrite Eg. by apply Hnext.
  - destruct Ho as [Hv Hil]. apply key_failed; [by apply (get_value_is _ Elc)|]. intros Hgo. exfalso.
    assert (exists c, er = MWriteConflict ts 0 c (append_ts k c) [] ReasonRcCheckTs) as [c ->]; [|done].
    destruct first_key as (Hu & _). destruct Hv as [Hv1 Hv2]. destruct (newer_dec _ k ts (e_inv e0 Hinv Hlo Hhi) Hu Hts) as [Hn|Hn].
    + destruct (Hv2 Hn Hil) as (c & _ & _ & [= ->]). by exists c.
    + destruct (Hv1 (or_introl Hn)) as (v & ? & _). done.
Qed.

Lemma round_spec f s (Hnext : forall s', walk_at s' (Some k) -> next_post rest (read_next_loop LatestKvPolicy f s')) :
  walk_at s cut -> next_post (k :: rest) (read_next_loop LatestKvPolicy (S f) s).
Proof using Hinv Hlo Hhi Hsnap Hlow Hup Hts Hdesc Hcut Hrest Hget.
  intros Hs. destruct first_key as (Hu & Hr & Hle). destruct first_current as (hw & hl & Ecur & Hw & Hnw & Hl & Hnl).
  assert (read_next_loop LatestKvPolicy (S f) s = round f hw hl s) as ->.
  { cbn [read_next_loop]. sm_run (st_keys e0 cfg0 s _ _ _ Hs). unfold mbind at 1, SM_bind at 1, slift.
    rewrite Ecur. done. }
  unfold round. destruct hl.
  2:{ destruct (Hnl eq_refl) as [HL El]. unfold walk_at in Hs. rewrite El in Hs. by apply (round_writes f s hw Hnext Hs (unlocked_check HL)). }
  destruct (Hl eq_refl) as (lv & HL & El & Eg). unfold walk_at in Hs. rewrite El in Hs.
  sm_open. unfold mbind at 1, SM_bind at 1, note_newer, modify. set (s1 := set_met s _).
  assert (at_pos s1 pw (Some (k, lv)) below) as Hs1 by (by apply state_set_met). clearbody s1. cbn [handle_lock LatestKvPolicy].
  destruct (handle_lock_spec e0 cfg0 Hinv Hlo Hhi Hsnap Hlow Hup k Hu Hr Hdesc s1 pw lv below Hs1) as (l & Hlk & Hneed & Hcase).
  { intros x Hx. by eapply ble_trans. }
  { destruct hw; [left; destruct (Hw eq_refl) as (c & v & -> & Hc & _); by exists c, v|right; by apply Hnw]. }
  assert (lock_check a k (sc_isolation_level cfg0) ts (sc_bypass_locks cfg0) = check_ts_conflict l k ts (sc_bypass_locks cfg0) (sc_isolation_level cfg0)) as Elc.
  { unfold lock_check. fold a in Hlk. by rewrite Hlk, Hneed. }
  fold L in Hcase. rewrite Eg in Hcase.
  destruct (check_ts_conflict l k ts (sc_bypass_locks cfg0) (sc_isolation_level cfg0)) as [[]|er|]; [| |done].
  - destruct Hcase as (s2 & -> & Hs2). by apply (round_writes f s2 hw Hnext Hs2 Elc).
  - assert (forall r, (if TsSet_contains (sc_access_locks cfg0) (lock_ts l) then exists v, r = Ok (hide (sc_omit_value cfg0) v) /\ lock_value a l v
        else r = Err (mvcc_error_from_txn er)) -> get k = r) as Hres.
    { intros r Hx. apply get_is. unfold read_result. fold a in Hlk. by rewrite Elc, Hlk. }
    destruct (TsSet_contains (sc_access_locks cfg0) (lock_ts l)).
    + destruct Hcase as (v & s2 & -> & Hv & Hs2). specialize (Hres (Ok (hide (sc_omit_value cfg0) v)) (ex_intro _ v (conj eq_refl Hv))).
      apply walk_on in Hs2; [|intros x [?|?]; auto]. destruct (hide (sc_omit_value cfg0) v) as [v'|]; [by apply key_returned|].
      unfold next_post. cbn [first_get]. rewrite Hres. by apply Hnext.
    + destruct Hcase as (s2 & -> & Hs2). apply key_failed; [by apply Hres|]. intros _. eapply walk_on; [exact Hs2|]. by auto.
Qed.
End First.

(** *** The loop *)

Lemma walk_end s cut : rest_of cut [] -> cut_wf cut -> walk_at s cut -> cursor_keys s = (Ok (None, None), s).
Proof using Hinv Hlo Hhi.
  intros Hr Hc Hs. rewrite (st_keys e0 cfg0 s _ _ _ Hs). f_equal. f_equal. f_equal.
  - destruct (seek_ge W (cut_bound cut)) as [[x v]|] eqn:E; [|done]. apply seek_ge_Some in E as (Hx & Hge & _).
    destruct (record_left cut [] x v Hc Hr Hx Hge) as (u & c & _ & _ & _ & Hin). by apply elem_of_nil in Hin.
  - destruct (seek_ge L (cut_bound cut)) as [[x v]|] eqn:E; [|done]. apply seek_ge_Some in E as (Hx & Hge & _).
    pose proof (lock_left cut [] x v Hc Hr Hx Hge) as Hin. by apply elem_of_nil in Hin.
Qed.

  Context (get : Key -> mres (option Value)).
  Hypothesis Hget : forall u, u ∈ scan_keys L W ->
    read_result (view e0 u) u ts (sc_omit_value cfg0) (sc_isolation_level cfg0) (sc_bypass_locks cfg0) (sc_access_locks cfg0) (get u).

Lemma read_next_spec rest : forall cut s f, rest_of cut rest -> cut_wf cut -> walk_at s cut -> (length rest < f)%nat ->
  next_post get rest (read_next_loop LatestKvPolicy f s).
Proof using Hinv Hlo Hhi Hsnap Hlow Hup Hts Hdesc Hget.
  induction rest as [|k rest IH]; intros cut s f Hr Hc Hs Hf; (destruct f as [|f]; [cbn in Hf; lia|]).
  - cbn [read_next_loop]. unfold mbind, SM_bind. rewrite (walk_end s cut Hr Hc Hs). unfold slift. cbn. split; [done|]. intros _. by exists cut.
  - apply (round_spec cut k rest Hc Hr get); [|intros s' Hs'|done].
    + apply Hget. by apply Hr, list_elem_of_here.
    + cbn in Hf. apply (IH (Some k)); [by eapply rest_next|intros ? [= <-]; by eapply first_key|done|lia].
Qed.

(** *** Calls of [next] *)

  Hypothesis Hord : forall l h, lo = Some l -> hi = Some h -> ble l h.

(** A scanner before its first call. *)
Definition fresh_at (s : ScanState I) : Prop :=
  ss_is_started s = false /\ ss_cfg s = cfg0 /\ ss_default s = None /\
  (cur_at cfg0 (ss_write s) W None /\ cu_max_key (ss_write s) = None /\ cu_min_key (ss_write s) = None) /\
  match ss_lock s with
  | Some c => need_check_locks (sc_isolation_level cfg0) = true /\ cur_at cfg0 c L None /\ cu_max_key c = None /\ cu_min_key c = None
  | None => need_check_locks (sc_isolation_level cfg0) = false
  end.

Definition scanning (s : ScanState I) (keys : list Key) : Prop :=
  (fresh_at s /\ keys = scan_keys L W) \/ exists cut, cut_wf cut /\ walk_at s cut /\ rest_of cut keys.

Lemma build_fresh s : scanner_build cfg0 = Ok s -> fresh_at s.
Proof using Hsnap Hlow Hup.
  unfold scanner_build. assert (snap_engine (sc_snapshot cfg0) = e0) as Hse by (by rewrite Hsnap).
  destruct (new_cur_at e0 cfg0 Hse Hlow Hup (cf_lock e0) CF_LOCK eq_refl) as (cl & El & Hcl & Hml & Hnl).
  destruct (new_cur_at e0 cfg0 Hse Hlow Hup (cf_write e0) CF_WRITE eq_refl) as (cw & Ew & Hcw & Hmw & Hnw).
  destruct (need_check_locks (sc_isolation_level cfg0)) eqn:En; cbn [mbind res_bind]; rewrite ?El; change (bool_decide (CF_LOCK = CF_DEFAULT)) with false; cbn [mbind res_bind]; rewrite Ew; cbn; intros [= <-]; unfold fresh_at, L, scan_locks; cbn; rewrite En; by split_and!.
Qed.

(** The first positions. *)
Lemma start_seek (c : Cursor I) m b : lo = b -> (forall x v, m !! x = Some v -> in_range lo hi x = true) -> cur_at cfg0 c m None -> cu_max_key c = None ->
  exists r c', (match b with Some bound => cursor_seek c bound | None => cursor_seek_to_first c end) = Ok (r, c') /\ cur_at cfg0 c' m (seek_ge m []).
Proof using Hdesc Hord.
  intros Hb Hin Hc Hmax. pose proof Hc as (Hc0 & Hm & _). assert (scan_mode cfg0 = ScanForward) as Hmode by (unfold scan_mode; by rewrite Hdesc).
  destruct b as [bound|].
  - destruct (cursor_seek_at c m None bound Hc0) as (c' & E & Hs); [|congruence|done|].
    { split; [intros l El; rewrite Hb in El; injection El as ->; apply ble_refl|]. intros h Eh. by apply Hord. }
    assert (seek_ge m bound = seek_ge m []) as Eb.
    { symmetry. apply seek_ge_skip; [apply ble_nil|]. intros x v Hx _. by apply Hin, in_range_iff in Hx as [Hx _]; apply Hx. }
    rewrite E. do 2 eexists. split; [done|]. rewrite <- Eb. eapply cur_at_sought; [exact Hc|exact Hs|by right|by right].
  - destruct (cursor_first_at c m None Hc0) as (c' & E & Hc' & Hk). rewrite E. do 2 eexists. split; [done|].
    rewrite <- (seek_first_ge m []) by (intros; apply ble_nil). split; [done|]. destruct Hk as (Hkm & Hkx & _). split; [congruence|]. congruence.
Qed.

Lemma in_range_W x v : W !! x = Some v -> in_range lo hi x = true.
Proof using. by intros [_ ?]%range_cf_lookup. Qed.

Lemma in_range_L x v : L !! x = Some v -> in_range lo hi x = true.
Proof using. unfold L, scan_locks. destruct (need_check_locks (sc_isolation_level cfg0)); [by intros [_ ?]%range_cf_lookup|done]. Qed.

Lemma forward_start_spec s : fresh_at s -> exists s', forward_start s = (Ok tt, s') /\ walk_at s' None.
Proof using Hlow Hup Hdesc Hord.
  intros (Hst & Hcfg & Hd & (Hcw & Hmw & _) & Hl). destruct (start_seek (ss_write s) W lo eq_refl in_range_W Hcw Hmw) as (b & cw & Ew & Hcw').
  set (f := fun c : Cursor I => match lo with Some bound => cursor_seek c bound | None => cursor_seek_to_first c end).
  assert (forward_start s = (_ ← on_write f; _ ← if_lock f; modify set_started) s) as ->.
  { unfold forward_start, mbind, SM_bind, sget. rewrite Hst, Hcfg, Hlow. unfold f. clear. generalize lo as b.
    intros [bound|]; cbn; [destruct (on_write (fun c => cursor_seek c bound) s) as [[]]|change (fun c : Cursor I => cursor_seek_to_first c) with (cursor_seek_to_first (I := I)); destruct (on_write cursor_seek_to_first s) as [[]]]; done. }
  sm_run (on_write_ok f s b cw Ew). unfold mbind at 1, SM_bind at 1, if_lock. unfold mbind at 1, SM_bind at 1, sget.
  cbn [ss_lock set_write]. destruct (ss_lock s) as [cl|] eqn:El.
  - destruct Hl as (Hn & Hcl & Hml & _). destruct (start_seek cl L lo eq_refl in_range_L Hcl Hml) as (b' & cl' & El' & Hcl').
    sm_open. rewrite (on_lock_ok f (set_write s cw) cl b' cl'); [|by cbn|done]. cbn. eexists. split; [done|].
    constructor; cbn; [done..| |done]. by rewrite Hd.
  - cbn. eexists. split; [done|]. constructor; cbn; [done| | |done].
    + rewrite El. split; [done|]. unfold L, scan_locks. by rewrite Hl.
    + by rewrite Hd.
Qed.

Lemma rest_all : rest_of None (scan_keys L W).
Proof using. split; [apply scan_keys_sorted|]. intros u. split; [by split|by intros [? _]]. Qed.

Lemma rest_length cut rest : rest_of cut rest -> (length rest <= size W + size L)%nat.
Proof using Hinv Hlo Hhi.
  intros [Hs Hr]. trans (length (scan_keys L W)); [|pose proof (scan_keys_length L W W_ok); lia].
  apply submseteq_length, NoDup_submseteq; [|intros u Hu; by apply Hr]. clear Hr. induction Hs as [|u l Hs IH Hf]; constructor; [|done].
  intros Hin. rewrite Forall_forall in Hf. apply Hf in Hin. by apply blt_irrefl in Hin.
Qed.

Lemma fuel_rest s cut rest : walk_at s cut -> rest_of cut rest -> (length rest < scan_fuel (ss_cfg s))%nat.
Proof using Hinv Hlo Hhi Hsnap.
  intros Hs Hr. apply rest_length in Hr. destruct (state_cfg_eq e0 cfg0 s _ _ _ Hs) as (Es & _). unfold scan_fuel. rewrite Es, Hsnap.
  cbn [snap snap_engine engine_get_cf]. assert (size W <= size (cf_write e0))%nat by (apply map_subseteq_size, map_filter_subseteq).
  assert (size L <= size (cf_lock e0))%nat; [|lia]. unfold L, scan_locks. destruct (need_check_locks _); [apply map_subseteq_size, map_filter_subseteq|].
  rewrite map_size_empty. lia.
Qed.

Lemma forward_next s keys : scanning s keys ->
  (scanner_next s).1 = (first_get get keys).1 /\
  (keeps_going (scanner_next s).1 = true -> scanning (scanner_next s).2 (first_get get keys).2).
Proof using Hinv Hlo Hhi Hsnap Hlow Hup Hts Hdesc Hget Hord.
  intros Hs.
  assert (exists s' cut, scanner_next s = read_next_loop LatestKvPolicy (scan_fuel (ss_cfg s')) s' /\ cut_wf cut /\ walk_at s' cut /\ rest_of cut keys)
    as (s' & cut & -> & Hc & Hw & Hr).
  { destruct Hs as [[Hf ->]|(cut & Hc & Hw & Hr)].
    - destruct (forward_start_spec s Hf) as (s' & E & Hw). exists s', None. split; [|split_and!; [done..|apply rest_all]].
      unfold scanner_next, mbind at 1, SM_bind at 1, sget. destruct Hf as (_ & -> & _). rewrite Hdesc.
      unfold forward_read_next, mbind at 1, SM_bind at 1. by rewrite E.
    - exists s, cut. split_and!; [|done..]. unfold scanner_next, mbind at 1, SM_bind at 1, sget.
      destruct (state_cfg_eq e0 cfg0 s _ _ _ Hw) as (_ & _ & _ & _ & -> & _). rewrite Hdesc.
      unfold forward_read_next, mbind at 1, SM_bind at 1, forward_start, mbind at 1, SM_bind at 1, sget. by rewrite (sa_started _ _ _ _ _ _ Hw). }
  destruct (read_next_spec keys cut s' (scan_fuel (ss_cfg s')) Hr Hc Hw) as [E Hgo]; [by eapply fuel_rest|].
  split; [done|]. intros Hk. destruct (Hgo Hk) as (cut' & Hc' & Hw' & Hr'). right. by exists cut'.
Qed.

Lemma forward_scan_gets s limit sample_step : scanner_build cfg0 = Ok s ->
  (scan limit sample_step s).1 = gets get (scan_keys L W) limit sample_step 0 [].
Proof using IS Hinv Hlo Hhi Hsnap Hlow Hup Hts Hdesc Hget Hord.
  intros Hb. pose proof (build_fresh s Hb) as Hf. unfold scan, mbind, SM_bind, sget.
  apply (scan_loop_gets get scanning forward_next); [by left|]. destruct (forward_start_spec s Hf) as (s' & _ & Hw).
  pose proof (fuel_rest s' None _ Hw rest_all) as Hl. destruct (state_cfg_eq e0 cfg0 s' _ _ _ Hw) as (Es & _).
  unfold scan_fuel in Hl |- *. rewrite Es in Hl. by destruct Hf as (_ & -> & _).
Qed.
End Walk.
