(* ===== verification/BackwardScan.v ===== *)
(** * The backward scanner reads what point gets read

    The cursors of the backward scanner stand at the last record and the last
    lock of the keys that are left, that is, at the oldest version of the last
    of these keys. It looks for the version to read from the oldest to the
    newest, and gives up for a seek after some steps; the version it returns
    is the one a point get of the key returns. *)
From stdpp Require Import sorting.
From S2P Require Import Prelude Number Bytes Timestamp Key Fields Lock Write OrderedMap PeerLocks Engine.
From S2P Require Import ConcurrencyManager Reader Cursor Versions MvccTxn CheckTxnStatus Prewrite Commands.
From S2P Require Import KeyView Protocol ActionSpec ReadSpec PrewriteSpec System Demo Safety AsyncCommit PointGetter Scanner ScanSpec ForwardScan.
Local Open Scope Z_scope.

(** ** The records of one key, from the oldest on *)

Section Key.
  Context {I : Type} {lo hi : option Key} `{IS : IterSpec I lo hi} (e0 : Engine) (cfg0 : ScannerConfig).
  Hypothesis Hinv : sys_inv e0.
  Hypothesis Hlo : opt_user_key lo.
  Hypothesis Hhi : opt_user_key hi.
  Hypothesis Hsnap : sc_snapshot cfg0 = snap e0.
  Hypothesis Hlow : sc_lower_bound cfg0 = lo.
  Hypothesis Hup : sc_upper_bound cfg0 = hi.
  Hypothesis Hts : txn_ts (sc_ts cfg0).
  Hypothesis Hdesc : sc_desc cfg0 = true.
Let e := range_engine lo hi e0.
Let rd := new_with_ctx 1 (snap e) ctx0.
Let W := range_cf lo hi (cf_write e0).
Abbreviation ts := (sc_ts cfg0).
Abbreviation at_pos := (fun s pw pl => state_at e0 cfg0 s pw pl (fun _ => True)).
Abbreviation W_ok := (W_wf e0 Hinv Hlo Hhi).

  Context (k : Key).
  Hypothesis Hk : user_key k.
  Hypothesis Hkr : in_range lo hi k = true.
Abbreviation on_key := (on_key k).
Let a := view e k.
Abbreviation sees_k := (k_sees e0 Hinv Hlo Hhi k Hk).
Abbreviation inv_k := (k_inv e0 Hinv Hlo Hhi k Hk).

(** The last record before those of the key. *)
Definition back : option (bytes * bytes) := seek_lt W k.

Lemma mode_mixed : scan_mode cfg0 = ScanMixed.
Proof using Hdesc. unfold scan_mode. by rewrite Hdesc. Qed.

Lemma not_forward {P : Prop} : scan_mode cfg0 = ScanForward -> P.
Proof using Hdesc. by rewrite mode_mixed. Qed.

(** A record before one of the key is one of the key or before all of them. *)
Lemma before_key c x v : is_u64 c -> W !! x = Some v -> blt x (append_ts k c) -> is_user_key_eq x k = false -> blt x k.
Proof using Hinv Hlo Hhi Hk.
  intros Hc Hx Hlt Hne. destruct (W_ok x v Hx) as (u & c' & w & Hu & Hc' & _ & _ & -> & _).
  destruct (user_key_trichotomy u k) as [H0|[->|H0]]; [by apply user_key_lt_ts|by rewrite is_user_key_eq_append in Hne|].
  exfalso. apply (user_key_lt_versions k u c c' Hk Hu) in H0. by apply (blt_irrefl _ (blt_trans _ _ _ H0 Hlt)).
Qed.

Lemma back_off x v : back = Some (x, v) -> is_user_key_eq x k = false.
Proof using.
  intros (_ & Hlt & _)%seek_lt_Some. destruct (is_user_key_eq x k) eqn:E; [|done]. exfalso.
  apply is_user_key_eq_append_ts in E as (c & _ & ->). pose proof (ble_append_ts k c) as Hle. by apply not_ble in Hlt.
Qed.

(** [k] itself is not a record. *)
Lemma back_le : seek_le W k = back.
Proof using Hinv Hlo Hhi Hk.
  assert (W !! k = None) as Hn.
  { destruct (W !! k) as [v|] eqn:E; [|done]. destruct (W_ok k v E) as (u & c & w & Hu & Hc & _ & _ & Ek & _).
    rewrite <- (app_nil_r k) in Ek. apply user_key_append_inj in Ek as [_ Ek]; [|done..]. by apply (f_equal length) in Ek; rewrite length_encode_u64_desc in Ek. }
  unfold back. destruct (seek_lt W k) as [[x v]|] eqn:E.
  - pose proof E as (Hx & Hlt & Hmax)%seek_lt_Some. apply seek_le_Some. split_and!; [done|by apply blt_ble|]. intros x2 v2 H2 Hle.
    eapply Hmax; [done|]. apply ble_alt in Hle as [| ->]; [done|congruence].
  - apply seek_le_None. intros x2 v2 H2. pose proof (proj1 (seek_lt_None W k) E x2 v2 H2) as Hle. apply ble_alt in Hle as [| <-]; [done|congruence].
Qed.

(** The step to the next newer version. *)
Lemma prev_version c v : is_u64 c -> W !! append_ts k c = Some v ->
  (exists c' w', seek_lt W (append_ts k c) = Some (append_ts k c', write_to_bytes w') /\ is_u64 c' /\ c < c' /\ version W k c' = Some w' /\
     forall c2, is_u64 c2 -> c < c2 < c' -> version W k c2 = None)
  \/ (seek_lt W (append_ts k c) = back /\ forall c2, is_u64 c2 -> c < c2 -> version W k c2 = None).
Proof using Hinv Hlo Hhi Hk.
  intros Hc Hv. assert (forall c2 w2, is_u64 c2 -> c < c2 -> version W k c2 = Some w2 -> W !! append_ts k c2 = Some (write_to_bytes w2) /\ blt (append_ts k c2) (append_ts k c)) as Hnew.
  { intros c2 w2 Hc2 Hlt [_ Hm]%(version_Some rd W_ok). split; [done|]. by apply append_ts_lt. }
  assert ((forall c2, is_u64 c2 -> c < c2 -> version W k c2 = None) -> (forall x v', seek_lt W (append_ts k c) = Some (x, v') -> blt x k) ->
    seek_lt W (append_ts k c) = back) as Hback.
  { intros _ Hx. rewrite <- back_le. apply seek_lt_le; [by apply blt_append_ts|]. intros x v' E. by apply blt_ble, (Hx x v'). }
  destruct (seek_lt W (append_ts k c)) as [[x v']|] eqn:E.
  - pose proof E as (Hx & Hlt & Hmax)%seek_lt_Some. destruct (is_user_key_eq x k) eqn:Ex.
    + left. apply is_user_key_eq_append_ts in Ex as (c' & Hc' & ->). destruct (version_entry rd W_ok k c' v' Hx) as [w' Hw'].
      pose proof Hw' as [_ Hm]%(version_Some rd W_ok). change (rd_cf rd CF_WRITE) with W in Hm. rewrite Hx in Hm. injection Hm as ->. exists c', w'.
      assert (c < c') as Hcc. { destruct (Z.le_gt_cases c' c) as [Hle|]; [|lia]. apply (append_ts_le k c c' Hc Hc') in Hle. by apply not_ble in Hlt. }
      split_and!; [done..|]. intros c2 Hc2 Hcc2. destruct (version W k c2) as [w2|] eqn:E2; [|done]. exfalso.
      destruct (Hnew c2 w2 Hc2 ltac:(lia) E2) as [Hm2 Hl2]. specialize (Hmax _ _ Hm2 Hl2). apply append_ts_le in Hmax; [lia|done..].
    + right. assert (blt x k) as Hxk by (by eapply before_key).
      assert (forall c2, is_u64 c2 -> c < c2 -> version W k c2 = None) as Hno.
      { intros c2 Hc2 Hcc2. destruct (version W k c2) as [w2|] eqn:E2; [|done]. exfalso. destruct (Hnew c2 w2 Hc2 Hcc2 E2) as [Hm2 Hl2].
        specialize (Hmax _ _ Hm2 Hl2). pose proof (ble_trans _ _ _ (ble_append_ts k c2) Hmax) as Hle. by apply not_ble in Hxk. }
      split; [|done]. apply Hback; [done|]. by intros ? ? [= <- <-].
  - right. assert (forall c2, is_u64 c2 -> c < c2 -> version W k c2 = None) as Hno.
    { intros c2 Hc2 Hcc2. destruct (version W k c2) as [w2|] eqn:E2; [|done]. exfalso. destruct (Hnew c2 w2 Hc2 Hcc2 E2) as [Hm2 Hl2].
      pose proof (proj1 (seek_lt_None W _) E _ _ Hm2) as Hle. by apply not_ble in Hl2. }
    split; [|done]. by apply Hback.
Qed.

(** [move_write_cursor_to_prev_user_key] *)
Lemma prev_user_key_spec n : forall s pw pl (first : bool), at_pos s pw pl -> (if first then on_key pw \/ pw = back else on_key pw) ->
  exists s', prev_user_key_loop n first k s = (Ok tt, s') /\ at_pos s' back pl.
Proof using Hinv Hlo Hhi Hk Hkr Hdesc.
  induction n as [|n IH]; intros s pw pl first Hs Hpw; cbn [prev_user_key_loop].
  - unfold over_seek_bound, modify, mbind, SM_bind. set (s1 := set_stats s _). assert (at_pos s1 pw pl) as Hs1 by (by apply state_set_stats). clearbody s1.
    destruct (st_internal_seek_for_prev e0 cfg0 s1 pw pl _ k Hs1) as (s2 & -> & Hs2); [|apply not_forward|].
    { apply in_range_iff in Hkr as [H1 H2]. split; [done|]. intros h Eh. by apply blt_ble, H2. }
    fold W in Hs2. rewrite back_le in Hs2. by exists s2.
  - assert (exists s1 pw1 b, (if first then mret false else on_write cursor_prev) s = (Ok b, s1) /\ at_pos s1 pw1 pl /\ (on_key pw1 \/ pw1 = back)) as (s1 & pw1 & b & E & Hs1 & Hpw1).
    { destruct first; [exists s, pw, false; done|]. destruct Hpw as (c & v & Hc & ->).
      destruct (st_prev e0 cfg0 s _ _ pl _ Hs) as (s1 & E1 & Hs1). do 3 eexists. split; [exact E1|]. split; [exact Hs1|].
      destruct (st_entry e0 cfg0 s _ _ pl _ Hs) as (_ & _ & Hv). destruct (prev_version c v Hc Hv) as [(c' & w' & Ec & Hc' & _)|[Ec _]].
      - left. exists c', (write_to_bytes w'). by split.
      - by right. }
    unfold mbind, SM_bind in E |- *. rewrite E. rewrite (st_valid e0 cfg0 s1 pw1 pl _ Hs1). clear E Hs Hpw.
    destruct pw1 as [[x v]|]; cbn [found negb]; [|destruct Hpw1 as [(? & ? & _ & ?)|Hp]; [done|exists s1; split; [done|by rewrite <- Hp]]].
    destruct (st_entry e0 cfg0 s1 x v pl _ Hs1) as (-> & _). destruct Hpw1 as [(c & v' & Hc & [= -> ->])|Hp].
    + rewrite is_user_key_eq_append. cbn [negb]. apply (IH s1 _ pl false Hs1). by exists c, v'.
    + symmetry in Hp. rewrite (back_off x v Hp). exists s1. split; [done|]. by rewrite Hp.
Qed.

Lemma move_prev_spec s pw pl : at_pos s pw pl -> on_key pw \/ pw = back ->
  exists s', move_write_cursor_to_prev_user_key k s = (Ok tt, s') /\ at_pos s' back pl.
Proof using Hinv Hlo Hhi Hk Hkr Hdesc. intros Hs Hpw. by apply (prev_user_key_spec _ s pw pl true). Qed.

(** *** The version that decides *)

(** [lv] is the version that decides what is read at [t]. *)
Definition known (t : TimeStamp) (lv : option Write) : Prop :=
  match lv with Some w => exists c, latest_data W k t c w | None => no_data W k t end.

Lemma known_extend t t' lv : t <= t' -> (forall c w, is_u64 c -> t < c <= t' -> version W k c = Some w -> is_data w = false) ->
  known t lv -> known t' lv.
Proof using.
  intros Hle Hno. destruct lv as [w|]; [|by apply no_data_skip]. intros (c & Hc & Hct & Hv & Hd & Hn). exists c. split_and!; [done|lia|done|done|].
  intros c' w' Hc' Hcc Hv'. destruct (Z.le_gt_cases c' t); [apply (Hn c')|apply (Hno c')]; done || lia.
Qed.

Lemma known_step c w lv : is_u64 c -> version W k c = Some w -> known (c - 1) lv ->
  known c (match write_type w with WTPut | WTDelete => Some w | WTLock | WTRollback => lv end).
Proof using.
  intros Hc Hv Hkn. destruct (is_data w) eqn:Hd.
  - assert (known c (Some w)) as Hw by (exists c; split_and!; [done|lia|done|done|]; intros; lia). unfold is_data in Hd. by destruct (write_type w).
  - assert (known c lv) as Hw.
    { apply (known_extend (c - 1)); [lia| |done]. intros c' w' Hc' Hcc Hv'. assert (c' = c) as -> by lia. congruence. }
    unfold is_data in Hd. by destruct (write_type w).
Qed.

Lemma put_value s pw pl w c : at_pos s pw pl -> reads W k ts (Some (w, c)) ->
  exists v s', (x ← reverse_load_data_by_write w k; mret (Some x)) s = (Ok (hide (sc_omit_value cfg0) (Some v)), s') /\
    value_at a ts (Some v) /\ at_pos s' pw pl.
Proof using Hinv Hlo Hhi Hsnap Hlow Hup Hk Hkr Hdesc.
  intros Hs Hr. apply (reads_read_at rd k a sees_k) in Hr. pose proof Hr as (Hw & Hp & _). destruct (state_cfg_eq e0 cfg0 s _ pl _ Hs) as (_ & Eo & _).
  assert (forall v, match write_short_value w with Some sv => v = sv | None => kv_val a !! write_start_ts w = Some v end -> value_at a ts (Some v)) as Hval by (intros v Hv; by exists w, c).
  unfold reverse_load_data_by_write, mbind at 1, SM_bind at 1. unfold mbind at 1, SM_bind at 1, sget. rewrite Eo.
  destruct (write_short_value w) as [sv|] eqn:E.
  { exists sv, s. specialize (Hval sv eq_refl). by destruct (sc_omit_value cfg0). }
  destruct (inv_value a inv_k c w Hw Hp E) as [v Hv]. specialize (Hval v Hv). destruct (sc_omit_value cfg0); [by exists v, s|].
  destruct (st_load_backward e0 cfg0 ltac:(by rewrite Hsnap) Hlow Hup k (write_start_ts w) v s pw pl _ Hs mode_mixed) as (s1 & E1 & Hs1).
  - apply (value_stored e0 Hinv Hlo Hhi k Hk); [done|]. by apply (sees_ver_wf rd k a sees_k) in Hw as (_ & _ & ? & _).
  - by apply in_range_accepts.
  - exists v, s1. by rewrite E1.
Qed.

Lemma fence_passes c w : is_u64 c -> version W k c = Some w -> quiet W k (Some ts) c -> check_gc_fence_as_latest_version w ts = true.
Proof using Hinv Hlo Hhi Hk.
  intros Hc Hv Hq. pose proof (readable_fences rd k a sees_k (Some ts) (kinv_readable a (Some ts) inv_k) c w Hc Hv Hq) as Hf. by apply negb_false_iff.
Qed.

Lemma quiet_now : quiet W k (Some ts) ts.
Proof using. intros l c' w' [= <-] Hc' Hlt. lia. Qed.

Lemma none_value : reads W k ts None -> value_at a ts None.
Proof using Hinv Hlo Hhi Hk. intros Hr. by apply (reads_none_value e0 cfg0 Hinv Hlo Hhi k Hk None). Qed.

Lemma hide_none : hide (sc_omit_value cfg0) None = None.
Proof using. by destruct (sc_omit_value cfg0). Qed.

(** The value of the key was found. *)
Definition found_value (r : mres (option Value)) : Prop := exists v, r = Ok (hide (sc_omit_value cfg0) v) /\ value_at a ts v.

Lemma found_none : reads W k ts None -> found_value (Ok None).
Proof using Hinv Hlo Hhi Hk. exists None. rewrite hide_none. split; [done|by apply none_value]. Qed.

Lemma last_version_spec s lv pw pl : at_pos s pw pl -> known ts lv ->
  exists r s', handle_last_version lv k s = (r, s') /\ found_value r /\ at_pos s' pw pl.
Proof using Hinv Hlo Hhi Hsnap Hlow Hup Hk Hkr Hdesc.
  intros Hs Hkn. destruct lv as [w|]; cbn [handle_last_version].
  2:{ exists (Ok None), s. split; [done|]. split; [|done]. apply found_none. by left. }
  destruct Hkn as (c & Hl). pose proof Hl as (Hc & _ & Hv & Hd & _). destruct (state_cfg_eq e0 cfg0 s _ pl _ Hs) as (_ & _ & _ & Et & _).
  unfold mbind at 1, SM_bind at 1, sget. rewrite Et. rewrite (fence_passes c w Hc Hv) by (by apply (quiet_data rd k (Some ts) ts c w); [apply quiet_now|]). cbn [negb].
  unfold is_data in Hd. destruct (write_type w) eqn:Ety; try done.
  - destruct (put_value s pw pl w c Hs) as (v & s1 & E1 & Hv1 & Hs1); [by split|]. eexists _, s1. split; [exact E1|]. split; [by exists (Some v)|done].
  - exists (Ok None), s. split; [done|]. split; [|done]. apply found_none. right. by exists c, w.
Qed.

(** *** From the oldest version on *)

(** The cursor was left on the key, or before it. *)
Definition left_at (s : ScanState I) (met : bool) (pl : option (bytes * bytes)) : Prop :=
  exists pw, at_pos s pw pl /\ if met then pw = back else on_key pw \/ pw = back.

Definition rounds_post (pl : option (bytes * bytes)) (o : PrevRounds) (s : ScanState I) : Prop :=
  match o with
  | PrevDone lv met => known ts lv /\ left_at s met pl
  | PrevBound lv cp => known cp lv /\ is_u64 cp /\ cp <= ts /\
      exists w, version W k cp = Some w /\ at_pos s (Some (append_ts k cp, write_to_bytes w)) pl
  end.

(** The part of a round once the cursor is at a record. *)
Definition round_at (n : nat) (lv : option Write) : SM (I := I) PrevRounds :=
  s ← sget;
  current_key ← write_key;
  cp ← slift (map_err MCodec (decode_ts_from current_key));
  if negb (is_user_key_eq current_key k) then mret (PrevDone lv true)
  else if ts <? cp then
    _ ← note_newer;
    if bool_decide (sc_isolation_level (ss_cfg s) = RcCheckTs) then
      slift (Err (MWriteConflict (sc_ts (ss_cfg s)) 0 cp current_key [] ReasonRcCheckTs))
    else mret (PrevDone lv false)
  else
    value ← write_value;
    write ← slift (map_err mvcc_error_from_txn (write_parse value));
    prev_rounds n false k ts (match write_type write with WTPut | WTDelete => Some write | WTLock | WTRollback => lv end) cp.

(** There is no version between [t] and [c]. *)
Definition gap (t c : TimeStamp) : Prop := forall c', is_u64 c' -> t < c' < c -> version W k c' = None.

Definition rounds_from (n : nat) : Prop := forall s pl lv cp w, at_pos s (Some (append_ts k cp, write_to_bytes w)) pl ->
  is_u64 cp -> version W k cp = Some w -> cp <= ts -> known cp lv ->
  exists o s', prev_rounds n false k ts lv cp s = (Ok o, s') /\ rounds_post pl o s'.

Lemma known_gap t t' lv : t <= t' -> gap t (t' + 1) -> known t lv -> known t' lv.
Proof using. intros Hle Hg. apply known_extend; [done|]. intros c w Hc Hct Hv. by rewrite (Hg c) in Hv by (done || lia). Qed.

  Hypothesis Hil : sc_isolation_level cfg0 <> RcCheckTs.

Lemma round_at_version n s pl lv t c w : rounds_from n -> at_pos s (Some (append_ts k c, write_to_bytes w)) pl ->
  is_u64 c -> version W k c = Some w -> t < c -> t <= ts -> gap t c -> known t lv -> exists o s', round_at n lv s = (Ok o, s') /\ rounds_post pl o s'.
Proof using Hinv Hlo Hhi Hil.
  intros IH Hs Hc Hv Htc Htt Hg Hkn. destruct (st_entry e0 cfg0 s _ _ pl _ Hs) as (Ek & Ev & _). destruct (state_cfg_eq e0 cfg0 s _ pl _ Hs) as (_ & _ & Ei & _).
  unfold round_at, mbind at 1, SM_bind at 1, sget. sm_run Ek. unfold mbind at 1, SM_bind at 1, slift at 1.
  rewrite decode_ts_append_ts by done. cbn [map_err]. rewrite is_user_key_eq_append. cbn [negb]. destruct (Z.ltb_spec ts c) as [Hlt|Hle].
  - unfold mbind, SM_bind, note_newer, modify. rewrite Ei, bool_decide_eq_false_2 by done. do 2 eexists. split; [done|]. split.
    + apply (known_gap t); [done| |done]. intros c' Hc' Hcc. apply Hg; [done|lia].
    + exists (Some (append_ts k c, write_to_bytes w)). split; [by apply state_set_met|]. left. by exists c, (write_to_bytes w).
  - sm_run Ev. unfold mbind at 1, SM_bind at 1, slift. apply (version_Some rd W_ok) in Hv as Hx. destruct Hx as [Hww _].
    rewrite write_parse_to_bytes by done. cbn [map_err]. apply (IH s pl _ c w); [done..|]. apply known_step; [done..|].
    apply (known_gap t); [lia| |done]. intros c' Hc' Hcc. apply Hg; [done|lia].
Qed.

Lemma round_at_back n s pl lv x v : back = Some (x, v) -> at_pos s back pl -> round_at n lv s = (Ok (PrevDone lv true), s).
Proof using Hinv Hlo Hhi.
  intros Hb Hs. rewrite Hb in Hs. destruct (st_entry e0 cfg0 s _ _ pl _ Hs) as (Ek & _ & Hx). destruct (W_ok x v Hx) as (u & c & w & _ & Hc & _ & _ & -> & _).
  unfold round_at, mbind, SM_bind, sget, slift. rewrite Ek, decode_ts_append_ts by done. cbn [map_err]. by rewrite (back_off _ v Hb).
Qed.

Lemma rounds_spec n : rounds_from n.
Proof using Hinv Hlo Hhi Hk Hil.
  induction n as [|n IH]; intros s pl lv cp w Hs Hc Hv Hle Hkn; cbn [prev_rounds].
  { exists (PrevBound lv cp), s. split; [done|]. split_and!; [done..|]. by exists w. }
  change (exists o s', ((valid ← (_ ← on_write cursor_prev; write_valid); if negb valid then mret (PrevDone lv false) else round_at n lv) s = (Ok o, s')) /\ rounds_post pl o s').
  destruct (st_prev e0 cfg0 s _ _ pl _ Hs) as (s1 & E1 & Hs1). pose proof Hv as [_ Hm]%(version_Some rd W_ok).
  unfold mbind at 1 2, SM_bind at 1 2. rewrite E1. rewrite (st_valid e0 cfg0 s1 _ pl _ Hs1). destruct (prev_version cp _ Hc Hm) as [(c' & w' & Ep & Hc' & Hlt & Hv' & Hg)|[Ep Hno]]; fold W in Hs1 |- *; rewrite Ep in Hs1 |- *.
  - cbn [found negb]. by apply (round_at_version n s1 pl lv cp c' w').
  - assert (known ts lv) as Hkt by (apply (known_gap cp); [done| |done]; intros c' Hc' Hcc; apply Hno; [done|lia]).
    destruct back as [[x v]|] eqn:Hb; cbn [found negb].
    + rewrite <- Hb in Hs1. rewrite (round_at_back n s1 pl lv x v Hb Hs1). do 2 eexists. split; [done|]. split; [done|]. by exists back.
    + do 2 eexists. split; [done|]. split; [done|]. exists None. split; [done|]. right. by rewrite Hb.
Qed.

(** The rounds start at the oldest version. *)
Lemma rounds_start n s pl c w : at_pos s (Some (append_ts k c, write_to_bytes w)) pl -> is_u64 c -> version W k c = Some w ->
  (forall c', is_u64 c' -> is_Some (W !! append_ts k c') -> c <= c') ->
  exists o s', prev_rounds (S n) true k ts None 0 s = (Ok o, s') /\ rounds_post pl o s'.
Proof using Hinv Hlo Hhi Hk Hts Hil.
  intros Hs Hc Hv Hmin. pose proof (version_pos rd W_ok k c w Hc Hv). change (prev_rounds (S n) true k ts None 0 s) with (round_at n None s).
  apply (round_at_version n s pl None 0 c w); [apply rounds_spec|done..|destruct Hts; lia| |].
  - intros c' Hc' Hcc. destruct (version W k c') as [w'|] eqn:E; [|done]. apply (version_Some rd W_ok) in E as [_ Hm]. pose proof (Hmin c' Hc' ltac:(eauto)). lia.
  - intros c' w' Hc' Hle Hv'. pose proof (version_pos rd W_ok k c' w' Hc' Hv'). lia.
Qed.

(** *** The seek after the rounds *)

(** The cursor is at the latest version at [t], and there is no data after it. *)
Definition after_seek (f : nat) : Prop := forall s pl lv cp wp t c w, at_pos s (Some (append_ts k c, write_to_bytes w)) pl ->
  is_u64 cp -> version W k cp = Some wp -> known cp lv -> is_u64 t -> cp <= t <= ts -> is_latest W k t c w -> quiet W k (Some ts) t ->
  (size (entries_from rd (append_ts k t)) < f)%nat ->
  exists r s', after_seek_loop f k lv cp s = (r, s') /\ found_value r /\ left_at s' false pl.

Lemma left_on s c w pl : at_pos s (Some (append_ts k c, w)) pl -> is_u64 c -> left_at s false pl.
Proof using. intros Hs Hc. exists (Some (append_ts k c, w)). split; [done|]. left. by exists c, w. Qed.

(** The version at the cursor is neither data nor the last one seen. *)
Lemma after_seek_next f s pl lv cp wp t c w : after_seek f -> at_pos s (Some (append_ts k c, write_to_bytes w)) pl ->
  is_u64 cp -> version W k cp = Some wp -> known cp lv -> is_u64 t -> cp < c -> t <= ts -> is_latest W k t c w -> is_data w = false -> quiet W k (Some ts) t ->
  (size (entries_from rd (append_ts k t)) < S f)%nat ->
  exists r s', (_ ← on_write cursor_next; valid ← write_valid; _ ← sassert valid; after_seek_loop f k lv cp) s = (r, s') /\ found_value r /\ left_at s' false pl.
Proof using Hinv Hlo Hhi Hk.
  intros IH Hs Hcp Hvp Hkn Ht Hlt Hle Hl Hd Hq Hf. pose proof Hl as (Hc & Hct & Hv & _). pose proof (entries_from_decr rd W_ok k t c w Ht Hl).
  assert (is_u64 (c - 1)) as Hc1 by (unfold is_u64 in *; lia). destruct (st_next e0 cfg0 s _ _ pl _ Hs) as (s1 & E1 & Hs1). fold W in Hs1.
  sm_run E1. sm_run (st_valid e0 cfg0 s1 _ pl _ Hs1).
  destruct (next_version e0 Hinv Hlo Hhi k Hk c w Hc Hv) as [(c' & w' & Ec & Hl')|[_ Hno]]; [|pose proof (Hno cp Hcp ltac:(lia)) as Hx; fold W in Hx; congruence].
  fold W in Ec. rewrite Ec in Hs1 |- *. cbn [found]. apply (IH s1 pl lv cp wp (c - 1) c' w'); [done..|lia|done| |lia].
  apply (quiet_prev rd k (Some ts) c w); [by apply (quiet_latest rd k (Some ts) t c w)|done|done].
Qed.

Lemma after_seek_spec f : after_seek f.
Proof using Hinv Hlo Hhi Hsnap Hlow Hup Hk Hkr Hdesc.
  induction f as [|f IH]; intros s pl lv cp wp t c w Hs Hcp Hvp Hkn Ht Hle Hl Hq Hf; [lia|]. cbn [after_seek_loop].
  pose proof Hl as (Hc & Hct & Hv & Hn). destruct (st_entry e0 cfg0 s _ _ pl _ Hs) as (Ek & Ev & _). destruct (state_cfg_eq e0 cfg0 s _ pl _ Hs) as (_ & _ & _ & Et & _).
  unfold mbind at 1, SM_bind at 1, sget. sm_run Ek. unfold mbind at 1, SM_bind at 1, slift at 1.
  rewrite decode_ts_append_ts by done. cbn [map_err]. destruct (Z.leb_spec c cp) as [Hcc|Hcc].
  { destruct (last_version_spec s lv _ pl Hs) as (r & s1 & E1 & Hr & Hs1); [|exists r, s1; split_and!; [done..|by eapply left_on]].
    apply (known_extend cp); [lia| |done]. intros c' w' Hc' Hc'' Hv'. destruct (Z.le_gt_cases c' t); [|apply (Hq ts c'); [done..|lia|done]].
    by rewrite (Hn c') in Hv' by (done || lia). }
  sm_run Ev. unfold mbind at 1, SM_bind at 1, slift at 1. apply (version_Some rd W_ok) in Hv as Hx. destruct Hx as [Hww _].
  rewrite write_parse_to_bytes by done. cbn [map_err]. rewrite Et.
  rewrite (fence_passes c w Hc Hv) by (by apply (quiet_latest rd k (Some ts) t c w)). cbn [negb].
  pose proof (after_seek_next f s pl lv cp wp t c w IH Hs Hcp Hvp Hkn Ht Hcc ltac:(lia) Hl) as Hnext.
  destruct (is_data w) eqn:Hd.
  - assert (latest_data W k ts c w) as Hld.
    { split_and!; [done|lia|done|done|]. intros c' w' Hc' Hc'' Hv'. destruct (Z.le_gt_cases c' t); [by rewrite (Hn c') in Hv' by (done || lia)|].
      apply (Hq ts c'); [done..|lia|done]. }
    unfold is_data in Hd. destruct (write_type w) eqn:Ety; try done.
    + destruct (put_value s _ pl w c Hs) as (v & s1 & E1 & Hv1 & Hs1); [by split|]. eexists _, s1. split; [exact E1|]. split; [by exists (Some v)|by eapply left_on].
    + exists (Ok None), s. split; [done|]. split; [|by eapply left_on]. apply found_none. right. by exists c, w.
  - specialize (Hnext eq_refl Hq Hf). unfold is_data in Hd. by destruct (write_type w).
Qed.

Lemma seek_key t cp wp : is_u64 t -> is_u64 cp -> cp <= t -> version W k cp = Some wp -> exists c v, seek_ge W (append_ts k t) = Some (append_ts k c, v) /\ is_u64 c.
Proof using Hinv Hlo Hhi Hk.
  intros Ht Hcp Hle [_ Hm]%(version_Some rd W_ok). change (rd_cf rd CF_WRITE) with W in Hm. apply (append_ts_le k t cp Ht Hcp) in Hle as Hb.
  destruct (seek_ge W (append_ts k t)) as [[x v]|] eqn:E.
  - pose proof E as (Hx & Hge & Hmin)%seek_ge_Some. destruct (between e0 Hinv Hlo Hhi k Hk t cp x v Ht Hcp Hx Hge) as (c & -> & Hc & _); [by eapply Hmin|]. eauto.
  - pose proof (proj1 (seek_ge_None W _) E _ _ Hm) as Hlt. by apply not_ble in Hlt.
Qed.

Lemma is_u64_ts_max : is_u64 ts_max.
Proof using. by vm_compute. Qed.

(** The seeks that lead to the wanted version. *)
Definition seek_steps : SM (I := I) unit :=
  s ← sget;
  if bool_decide (ss_met s = NotMetYet) then
    _ ← on_write (fun c => internal_seek c (append_ts k ts_max));
    valid ← write_valid;
    _ ← sassert valid;
    current_key ← write_key;
    key_ts ← slift (map_err MCodec (decode_ts_from current_key));
    _ ← (if ts <? key_ts then modify (fun s => set_met s Met) else mret tt);
    over ← on_write (nearly (fun c => near_seek c (append_ts k ts)));
    over_seek_bound over
  else _ ← on_write (fun c => internal_seek c (append_ts k ts)); mret tt.

Lemma seek_steps_spec s pw pl cp wp : at_pos s pw pl -> is_u64 cp -> cp <= ts -> version W k cp = Some wp ->
  exists s', seek_steps s = (Ok tt, s') /\ at_pos s' (seek_ge W (append_ts k ts)) pl.
Proof using Hinv Hlo Hhi Hk Hkr Hts Hdesc.
  intros Hs Hcp Hle Hvp. assert (forall t, accepts lo hi (append_ts k t)) as Hacc by (intros; by apply in_range_accepts).
  assert (is_u64 ts) as Htu by apply Hts. unfold seek_steps, mbind at 1, SM_bind at 1, sget. case_bool_decide as Hmet.
  - destruct (seek_key ts_max cp wp is_u64_ts_max Hcp) as (c & v & Ec & Hc); [unfold is_u64, ts_max, Prelude.u64_max in *; lia|done|].
    destruct (st_internal_seek e0 cfg0 s pw pl _ (append_ts k ts_max) Hs (Hacc _) not_forward) as (s1 & E1 & Hs1). fold W in Hs1. rewrite Ec in Hs1.
    sm_run E1. sm_run (st_valid e0 cfg0 s1 _ pl _ Hs1). cbn [found].
    destruct (st_entry e0 cfg0 s1 _ _ pl _ Hs1) as (Ek & _). sm_open. cbn [sassert mret SM_ret].
    sm_run Ek. unfold mbind at 1, SM_bind at 1, slift. rewrite decode_ts_append_ts by done. cbn [map_err].
    assert (exists s2, (if ts <? c then modify (fun s => set_met s Met) else mret tt) s1 = (Ok tt, s2) /\ at_pos s2 (Some (append_ts k c, v)) pl) as (s2 & E2 & Hs2).
    { destruct (ts <? c); [|by exists s1]. eexists. split; [done|by apply state_set_met]. }
    sm_run E2. destruct (seek_key ts cp wp Htu Hcp Hle Hvp) as (c' & v' & Ec' & _).
    destruct (st_near_seek e0 cfg0 s2 _ pl _ (append_ts k ts) Hs2 (Hacc _) mode_mixed) as (over & s3 & E3 & Hs3); [fold W; rewrite Ec'; by eauto|].
    sm_run E3. eexists. split; [done|]. by apply state_set_stats.
  - destruct (st_internal_seek e0 cfg0 s pw pl _ (append_ts k ts) Hs (Hacc _) not_forward) as (s1 & E1 & Hs1).
    exists s1. split; [|done]. unfold mbind, SM_bind. by rewrite E1.
Qed.

Lemma seek_wanted_spec s pl lv cp wp : at_pos s (Some (append_ts k cp, write_to_bytes wp)) pl -> is_u64 cp -> version W k cp = Some wp -> known cp lv -> cp < ts ->
  exists r s', seek_wanted k ts lv cp s = (r, s') /\ found_value r /\ left_at s' false pl.
Proof using Hinv Hlo Hhi Hsnap Hlow Hup Hts Hk Hkr Hdesc.
  intros Hs Hcp Hvp Hkn Hlt. destruct (seek_steps_spec s _ pl cp wp Hs Hcp ltac:(lia) Hvp) as (s1 & E1 & Hs1).
  assert (seek_wanted k ts lv cp s = (valid ← write_valid; _ ← sassert valid; after_seek_loop (scan_fuel (ss_cfg s)) k lv cp) s1) as ->.
  { unfold seek_wanted. rewrite (proj2 (Z.ltb_lt _ _) Hlt). revert E1. unfold seek_steps, mbind, SM_bind, sget, sassert, mret, SM_ret.
    intros E1. by rewrite E1. }
  destruct (wanted_cases e0 cfg0 Hinv Hlo Hhi Hts k Hk) as [(_ & c & w & Ew & Hl)|(_ & _ & Hno)]; [|pose proof (Hno cp Hcp ltac:(lia)) as Hx; fold W in Hx; congruence].
  unfold wanted in Ew. fold W in Ew. rewrite Ew in Hs1. unfold mbind, SM_bind. rewrite (st_valid e0 cfg0 s1 _ pl _ Hs1). cbn [found sassert].
  apply (after_seek_spec _ s1 pl lv cp wp ts c w); [done..|apply Hts|lia|done|apply quiet_now|].
  by apply (scan_fuel_enough e0 cfg0 Hsnap s _ pl _ _ Hs).
Qed.

Lemma check_newer_spec s pl c w : at_pos s (Some (append_ts k c, write_to_bytes w)) pl -> is_u64 c ->
  exists met s', check_newer_at k s = (Ok met, s') /\ left_at s' met pl.
Proof using Hinv Hlo Hhi Hk.
  intros Hs Hc. unfold check_newer_at, mbind at 1, SM_bind at 1, sget. case_bool_decide; [|exists false, s; split; [done|by apply (left_on s c (write_to_bytes w))]].
  destruct (st_prev e0 cfg0 s _ _ pl _ Hs) as (s1 & E1 & Hs1). destruct (st_entry e0 cfg0 s _ _ pl _ Hs) as (_ & _ & Hm).
  unfold mbind, SM_bind. rewrite E1, (st_valid e0 cfg0 s1 _ pl _ Hs1). fold W in Hm, Hs1 |- *.
  destruct (prev_version c _ Hc Hm) as [(c' & w' & Ep & Hc' & _)|[Ep _]]; rewrite Ep in Hs1 |- *.
  - cbn [found]. destruct (st_entry e0 cfg0 s1 _ _ pl _ Hs1) as (-> & _). rewrite is_user_key_eq_append. do 2 eexists. split; [done|].
    eapply (left_on _ c'); [|done]. by apply state_set_met.
  - pose proof back_off as Hoff. destruct back as [[x v]|] eqn:Hb; cbn [found].
    + destruct (st_entry e0 cfg0 s1 _ _ pl _ Hs1) as (-> & _). rewrite (Hoff x v eq_refl). do 2 eexists. split; [done|]. exists back. by rewrite Hb.
    + do 2 eexists. split; [done|]. exists None. split; [done|]. right. by rewrite Hb.
Qed.

(** [reverse_get], from the oldest version of the key. *)
Lemma reverse_get_spec s pl c w : at_pos s (Some (append_ts k c, write_to_bytes w)) pl -> is_u64 c -> version W k c = Some w ->
  (forall c', is_u64 c' -> is_Some (W !! append_ts k c') -> c <= c') ->
  exists r met s', reverse_get k ts s = (Ok (r, met), s') /\ found_value r /\ left_at s' met pl.
Proof using Hinv Hlo Hhi Hsnap Hlow Hup Hts Hk Hkr Hdesc Hil.
  intros Hs Hc Hv Hmin. assert (forall A (m : SM (I := I) A) s r s', m s = (r, s') -> r <> Panic -> attempt m s = (Ok r, s')) as Hatt.
  { intros A m s0 r s' E Hr. unfold attempt. rewrite E. by destruct r. }
  assert (forall r, found_value r -> r <> Panic) as Hnp by (intros r (v & -> & _); done).
  unfold reverse_get, mbind at 1, SM_bind at 1. rewrite (Hatt _ _ s _ s (st_valid e0 cfg0 s _ pl _ Hs)) by done. cbn [found].
  sm_open. cbn [sassert mret SM_ret]. change (Z.to_nat REVERSE_SEEK_BOUND) with 16%nat.
  destruct (rounds_start 15 s pl c w Hs Hc Hv Hmin) as (o & s1 & E1 & Ho). sm_open. rewrite (Hatt _ _ s _ s1 E1) by done.
  destruct o as [lv met|lv cp].
  - destruct Ho as (Hkn & pw & Hs1 & Hpw). destruct (last_version_spec s1 lv pw pl Hs1 Hkn) as (r & s2 & E2 & Hr & Hs2).
    unfold mbind, SM_bind. rewrite (Hatt _ _ s1 r s2 E2) by auto. do 3 eexists. split; [done|]. split; [done|]. by exists pw.
  - destruct Ho as (Hkn & Hcp & Hle & wp & Hvp & Hs1). destruct (Z.eqb_spec cp ts) as [->|Hne].
    + destruct (check_newer_spec s1 pl ts wp Hs1 Hcp) as (met & s2 & E2 & pw & Hs2 & Hpw). sm_open. rewrite (Hatt _ _ s1 _ s2 E2) by done.
      destruct (last_version_spec s2 lv pw pl Hs2 Hkn) as (r & s3 & E3 & Hr & Hs3).
      unfold mbind, SM_bind. rewrite (Hatt _ _ s2 r s3 E3) by auto. do 3 eexists. split; [done|]. split; [done|]. by exists pw.
    + destruct (seek_wanted_spec s1 pl lv cp wp Hs1 Hcp Hvp Hkn ltac:(lia)) as (r & s2 & E2 & Hr & Hl).
      unfold mbind, SM_bind. rewrite (Hatt _ _ s1 r s2 E2) by auto. by exists r, false, s2.
Qed.

(** *** The lock of the key *)

Let L := scan_locks (lo := lo) (hi := hi) e0 cfg0.

Lemma back_load_lock s pw pl l er : at_pos s pw pl -> with_default s -> kv_lock a = Some l ->
  check_ts_conflict l k ts (sc_bypass_locks cfg0) (sc_isolation_level cfg0) = Err er ->
  exists v s', load_data_by_lock k l s = (Ok (hide (sc_omit_value cfg0) v), s') /\ lock_value a l v /\ at_pos s' pw pl.
Proof using Hinv Hlo Hhi Hsnap Hlow Hup Hk Hkr Hdesc.
  intros Hs [c Ec] Hl Hc. destruct (state_cfg_eq e0 cfg0 s pw pl _ Hs) as (_ & Eo & _ & _ & Ed & _).
  unfold load_data_by_lock, mbind at 1, SM_bind at 1, sget. rewrite Eo, Ed, Hdesc. unfold lock_value.
  destruct (conflict_type e k ts (e_inv e0 Hinv Hlo Hhi) Hk (sc_omit_value cfg0) (sc_isolation_level cfg0) (sc_bypass_locks cfg0) TsEmpty Unknown l er Hl Hc) as [Ht|Ht]; rewrite Ht.
  2:{ exists None, s. by rewrite hide_none. }
  assert (exists v, match lock_short_value l with Some sv => v = sv | None => kv_val a !! lock_ts l = Some v end) as [v Hv].
  { destruct (lock_short_value l) as [sv|] eqn:E; [by exists sv|]. apply (inv_lock_value a inv_k l Hl). unfold needs_value. rewrite Ht, E. by rewrite !bool_decide_eq_true_2. }
  destruct (sc_omit_value cfg0); [exists (Some v), s; split_and!; [done| |done]; by exists v|].
  destruct (lock_short_value l) as [sv|] eqn:E; [subst v; exists (Some sv), s; split_and!; [done| |done]; by exists sv|].
  destruct (st_load_backward e0 cfg0 ltac:(by rewrite Hsnap) Hlow Hup k (lock_ts l) v s pw pl _ Hs mode_mixed) as (s1 & E1 & Hs1).
  - apply (value_stored e0 Hinv Hlo Hhi k Hk); [done|]. by destruct (sees_lock_wf rd k a sees_k l Hl) as [(_ & ? & _) _].
  - by apply in_range_accepts.
  - exists (Some v), s1. split_and!; [|by exists v|done]. unfold ensure_default_cursor, mbind at 1 2, SM_bind at 1 2, sget in E1. rewrite Ec in E1.
    unfold mbind, SM_bind. unfold mret, SM_ret in E1. by rewrite E1.
Qed.

(** What the lock means, before the cursor steps over it. *)
Definition lock_stage (hw : bool) (l : Lock) : SM (I := I) (mres (option Value) * bool) :=
  match check_ts_conflict l k ts (sc_bypass_locks cfg0) (sc_isolation_level cfg0) with
  | Ok _ => mret (Ok None, hw)
  | Err er =>
      if TsSet_contains (sc_access_locks cfg0) (lock_ts l) then
        _ ← ensure_default_cursor;
        result ← attempt (load_data_by_lock k l);
        if hw then _ ← move_write_cursor_to_prev_user_key k; mret (result, false)
        else mret (result, false)
      else mret (Err (mvcc_error_from_txn er), hw)
  | Panic => slift Panic
  end.

Lemma lock_stage_run s pw lv l (hw : bool) r s2 pw' : at_pos s pw (Some (k, lv)) -> lock_parse lv = Ok l -> need_check_locks (sc_isolation_level cfg0) = true ->
  lock_stage hw l (set_met s (meet (ss_met s))) = (Ok r, s2) -> at_pos s2 pw' (Some (k, lv)) ->
  exists s', backward_lock k hw s = (Ok r, s') /\ at_pos s' pw' (seek_lt L k).
Proof using.
  intros Hs Hparse Hneed E Hs2. destruct (state_cfg_eq e0 cfg0 s pw _ _ Hs) as (_ & _ & Ei & Et & _ & Eb & Ea).
  destruct (st_lock_prev e0 cfg0 s2 pw' k lv _ Hs2) as (s3 & _ & E3 & Hs3). exists s3. split; [|done].
  unfold backward_lock, mbind at 1, SM_bind at 1, sget. cbn zeta. rewrite Ei, Et, Eb, Ea, Hneed. sm_open. sm_open.
  rewrite (st_lock_value e0 cfg0 s pw k lv _ Hs). unfold mbind at 1, SM_bind at 1, slift at 1. rewrite Hparse. cbn [map_err].
  unfold mbind at 1, SM_bind at 1, note_newer, modify. fold (lock_stage hw l). rewrite E. unfold mbind, SM_bind. by rewrite E3.
Qed.

(** Reading the lock: a lock that does not conflict is stepped over. *)
Lemma backward_lock_spec s pw lv (hw : bool) : at_pos s pw (Some (k, lv)) -> (if hw then on_key pw else pw = back) ->
  exists l, kv_lock a = Some l /\ need_check_locks (sc_isolation_level cfg0) = true /\
  match check_ts_conflict l k ts (sc_bypass_locks cfg0) (sc_isolation_level cfg0) with
  | Ok _ => exists s', backward_lock k hw s = (Ok (Ok None, hw), s') /\ at_pos s' pw (seek_lt L k)
  | Err er =>
      if TsSet_contains (sc_access_locks cfg0) (lock_ts l) then
        exists v s', backward_lock k hw s = (Ok (Ok (hide (sc_omit_value cfg0) v), false), s') /\ lock_value a l v /\ at_pos s' back (seek_lt L k)
      else exists s', backward_lock k hw s = (Ok (Err (mvcc_error_from_txn er), hw), s') /\ at_pos s' pw (seek_lt L k)
  | Panic => False
  end.
Proof using Hinv Hlo Hhi Hsnap Hlow Hup Hk Hkr Hdesc.
  intros Hs Hpw. destruct (st_lock_cursor e0 cfg0 s pw k lv _ Hs) as (lc & _ & (Hlc & _)).
  destruct (cursor_entry_at _ _ _ _ Hlc) as (_ & _ & HL). destruct (lock_view e0 cfg0 Hinv Hlo Hhi k Hk lv HL) as (Hneed & l & Hl & _ & Hparse).
  exists l. split; [done|]. split; [done|]. pose proof (check_ts_conflict_no_panic l k ts (sc_bypass_locks cfg0) (sc_isolation_level cfg0) Hk) as Hnp.
  pose proof (fun r s2 pw' => lock_stage_run s pw lv l hw r s2 pw' Hs Hparse Hneed) as Hrun. unfold lock_stage in Hrun. set (s1 := set_met s _) in Hrun.
  assert (at_pos s1 pw (Some (k, lv))) as Hs1 by (by apply state_set_met). clearbody s1.
  destruct (check_ts_conflict l k ts (sc_bypass_locks cfg0) (sc_isolation_level cfg0)) as [[]|er|] eqn:Ec; [by apply (Hrun _ s1)| |done].
  destruct (TsSet_contains (sc_access_locks cfg0) (lock_ts l)); [|by apply (Hrun _ s1)].
  destruct (st_ensure e0 cfg0 ltac:(by rewrite Hsnap) Hlow Hup s1 _ _ _ Hs1) as (s2 & E2 & Hs2 & Hd).
  destruct (back_load_lock s2 _ _ l er Hs2 Hd Hl Ec) as (v & s3 & E3 & Hv & Hs3). unfold mbind, SM_bind, attempt in Hrun. rewrite E2, E3 in Hrun. exists v.
  destruct hw; [|destruct (Hrun _ s3 pw eq_refl Hs3) as (s5 & E5 & Hs5); subst pw; by exists s5].
  destruct (move_prev_spec s3 pw _ Hs3) as (s4 & E4 & Hs4); [by left|]. rewrite E4 in Hrun.
  destruct (Hrun _ s4 back eq_refl Hs4) as (s5 & E5 & Hs5). by exists s5.
Qed.
End Key.

(** ** The keys that are left *)

(** The keys below the cut; all of them without one. *)
Definition below (cut : option Key) (x : bytes) : Prop := forall k0, cut = Some k0 -> blt x k0.
Definition seek_below (m : cf) (cut : option Key) : option (bytes * bytes) := match cut with Some k => seek_lt m k | None => seek_last m end.

Lemma seek_below_spec m cut :
  match seek_below m cut with
  | Some (x, v) => m !! x = Some v /\ below cut x /\ forall x' v', m !! x' = Some v' -> below cut x' -> ble x' x
  | None => forall x v, m !! x = Some v -> ~ below cut x
  end.
Proof.
  destruct cut as [k0|]; cbn.
  - destruct (seek_lt m k0) as [[x v]|] eqn:E.
    + apply seek_lt_Some in E as (Hx & Hlt & Hmax). split_and!; [done|by intros ? [= <-]|]. intros x' v' Hx' Hb. eapply Hmax; [done|]. by apply Hb.
    + intros x v Hx Hb. pose proof (proj1 (seek_lt_None m k0) E x v Hx) as Hle. apply not_blt in Hle. by apply Hle, Hb.
  - destruct (seek_last m) as [[x v]|] eqn:E.
    + apply seek_last_max in E as [Hx Hmax]. split_and!; [done..|]. intros x' v' Hx' _. by eapply Hmax.
    + apply seek_last_None in E as ->. intros x v Hx. by rewrite lookup_empty in Hx.
Qed.

Lemma seek_below_Some (m : cf) cut x v : m !! x = Some v -> below cut x -> (forall x' v', m !! x' = Some v' -> below cut x' -> ble x' x) ->
  seek_below m cut = Some (x, v).
Proof.
  intros Hx Hb Hmax. pose proof (seek_below_spec m cut) as Hs. destruct (seek_below m cut) as [[x' v']|]; [|by destruct (Hs x v Hx)].
  destruct Hs as (Hx' & Hb' & Hmax'). assert (x' = x) as -> by (apply ble_antisym; eauto). congruence.
Qed.

Lemma seek_below_skip (m : cf) cut k : below cut k -> (forall x v, m !! x = Some v -> below cut x -> blt x k) -> seek_below m cut = seek_lt m k.
Proof.
  intros Hk Hskip. change (seek_lt m k) with (seek_below m (Some k)). pose proof (seek_below_spec m (Some k)) as Hs.
  destruct (seek_below m (Some k)) as [[x v]|] eqn:E.
  - destruct Hs as (Hx & Hb & Hmax). apply seek_below_Some; [done| |].
    + intros k0 E0. eapply blt_trans; [by apply Hb|by apply Hk].
    + intros x' v' Hx' Hb'. eapply Hmax; [done|]. intros k0 [= <-]. by eapply Hskip.
  - pose proof (seek_below_spec m cut) as Hs'. destruct (seek_below m cut) as [[x v]|]; [|done]. destruct Hs' as (Hx & Hb & _). exfalso.
    apply (Hs x v Hx). intros k0 [= <-]. by eapply Hskip.
Qed.

Lemma sorted_reverse (l : list Key) : StronglySorted blt l -> StronglySorted (fun u u' => blt u' u) (reverse l).
Proof.
  induction 1 as [|u l Hs IH Hf]; [constructor|]. rewrite reverse_cons. apply StronglySorted_app_2; [|done|constructor; constructor].
  rewrite Forall_forall in Hf. intros u1 u2 H1 ->%list_elem_of_singleton. rewrite elem_of_reverse in H1. by apply Hf.
Qed.

Section Walk.
  Context {I : Type} {lo hi : option Key} `{IS : IterSpec I lo hi} (e0 : Engine) (cfg0 : ScannerConfig).
  Hypothesis Hinv : sys_inv e0.
  Hypothesis Hlo : opt_user_key lo.
  Hypothesis Hhi : opt_user_key hi.
  Hypothesis Hsnap : sc_snapshot cfg0 = snap e0.
  Hypothesis Hlow : sc_lower_bound cfg0 = lo.
  Hypothesis Hup : sc_upper_bound cfg0 = hi.
  Hypothesis Hts : txn_ts (sc_ts cfg0).
  Hypothesis Hdesc : sc_desc cfg0 = true.
  Hypothesis Hil : sc_isolation_level cfg0 <> RcCheckTs.
Let rd := new_with_ctx 1 (snap (range_engine lo hi e0)) ctx0.
Let W := range_cf lo hi (cf_write e0).
Let L := scan_locks (lo := lo) (hi := hi) e0 cfg0.
Abbreviation ts := (sc_ts cfg0).
Abbreviation at_pos := (fun s pw pl => state_at e0 cfg0 s pw pl (fun _ => True)).
Abbreviation W_ok := (W_wf e0 Hinv Hlo Hhi).
Abbreviation L_ok := (L_wf e0 cfg0 Hinv Hlo Hhi).

(** The keys from the cut on are done. *)
Definition left_of (cut : option Key) (rest : list Key) : Prop :=
  StronglySorted (fun u u' => blt u' u) rest /\ forall u, u ∈ rest <-> u ∈ scan_keys L W /\ below cut u.

Definition back_at (s : ScanState I) (cut : option Key) : Prop := at_pos s (seek_below W cut) (seek_below L cut).

Lemma below_record cut u c : cut_wf cut -> user_key u -> below cut (append_ts u c) <-> below cut u.
Proof using.
  intros Hc Hu. split; intros Hb k0 E.
  - eapply ble_lt_trans; [apply ble_append_ts|by apply Hb].
  - apply user_key_lt_ts; [done|by apply Hc|by apply Hb].
Qed.

(** A record before the cut belongs to a key that is left. *)
Lemma back_record_left cut rest x v : cut_wf cut -> left_of cut rest -> W !! x = Some v -> below cut x ->
  exists u c, is_u64 c /\ x = append_ts u c /\ u ∈ rest.
Proof using Hinv Hlo Hhi.
  intros Hc [_ Hr] Hx Hb. destruct (W_ok x v Hx) as (u & c & w & Hu & Hcu & _ & _ & -> & _). exists u, c. split_and!; [done..|].
  apply Hr. split; [apply (elem_of_scan_keys L W u W_ok); right; by exists c, v|]. by apply (below_record cut u c).
Qed.

Lemma back_lock_left cut rest x v : left_of cut rest -> L !! x = Some v -> below cut x -> x ∈ rest.
Proof using Hinv Hlo Hhi. intros [_ Hr] Hx Hb. apply Hr. split; [|done]. apply (elem_of_scan_keys L W x W_ok). left. by exists v. Qed.

(** The last key that is left: where the cursors are. *)
Section Last.
  Context (cut : option Key) (k : Key) (rest : list Key).
  Hypothesis Hcut : cut_wf cut.
  Hypothesis Hrest : left_of cut (k :: rest).
Abbreviation back_k := (back e0 (lo := lo) (hi := hi) k).

Lemma last_key : user_key k /\ in_range lo hi k = true /\ below cut k.
Proof using Hinv Hlo Hhi Hrest.
  destruct (proj1 (proj2 Hrest k) (list_elem_of_here k rest)) as [Hin Hlt]. by destruct (scanned_in_range e0 cfg0 Hinv Hlo Hhi k Hin) as [Hu Hr].
Qed.

Lemma last_greatest u : u ∈ k :: rest -> u = k \/ blt u k.
Proof using Hrest.
  intros [->|Hu]%elem_of_cons; [by left|right]. destruct Hrest as [Hs _]. apply StronglySorted_cons in Hs as [Hf _].
  rewrite Forall_forall in Hf. by apply Hf.
Qed.

Lemma left_next : left_of (Some k) rest.
Proof using Hrest.
  pose proof Hrest as [Hs Hr]. apply StronglySorted_cons in Hs as [Hf Hs]. rewrite Forall_forall in Hf. split; [done|]. intros u. split.
  - intros Hu. split; [apply Hr; by right|]. intros k0 [= <-]. by apply Hf.
  - intros [Hu Hlt]. specialize (Hlt k eq_refl). assert (u ∈ k :: rest) as Hin.
    { apply Hr. split; [done|]. intros k0 E. eapply blt_trans; [exact Hlt|]. by apply (proj1 (Hr k) (list_elem_of_here k rest)). }
    apply elem_of_cons in Hin as [->|]; [|done]. by apply blt_irrefl in Hlt.
Qed.

(** The position is the oldest record of the key. *)
Definition at_oldest (p : option (bytes * bytes)) : Prop := exists c w, p = Some (append_ts k c, write_to_bytes w) /\ is_u64 c /\ version W k c = Some w /\
  forall c', is_u64 c' -> is_Some (W !! append_ts k c') -> c <= c'.

Lemma back_write_pos : at_oldest (seek_below W cut)
  \/ (~ has_record W k /\ seek_below W cut = back_k /\ forall x v, seek_below W cut = Some (x, v) -> exists u c, x = append_ts u c /\ blt u k).
Proof using Hinv Hlo Hhi Hcut Hrest.
  destruct last_key as (Huk & _ & Hb). assert (forall c, below cut (append_ts k c)) as Hbc by (intros c; by apply below_record).
  assert (~ has_record W k -> seek_below W cut = back_k) as Hskip.
  { intros Hno. apply seek_below_skip; [done|]. intros x v Hx Hbx. destruct (back_record_left cut _ x v Hcut Hrest Hx Hbx) as (u & c & Hc & -> & Hin).
    destruct (last_greatest u Hin) as [->|Hlt]; [destruct Hno; by exists c, v|]. apply user_key_lt_ts; [|done..]. apply (scan_keys_user L W u W_ok L_ok). by apply Hrest. }
  pose proof (seek_below_spec W cut) as Hs. destruct (seek_below W cut) as [[x v]|].
  - destruct Hs as (Hx & Hbx & Hmax). destruct (back_record_left cut _ x v Hcut Hrest Hx Hbx) as (u & c & Hc & -> & Hin). destruct (last_greatest u Hin) as [->|Hlt].
    + left. destruct (version_entry rd W_ok k c v Hx) as [w Hw]. pose proof Hw as [_ Hm]%(version_Some rd W_ok). change (rd_cf rd CF_WRITE) with W in Hm.
      rewrite Hx in Hm. injection Hm as ->. exists c, w. split_and!; [done..|]. intros c' Hc' [v' Hv']. specialize (Hmax _ _ Hv' (Hbc c')). by apply append_ts_le in Hmax.
    + right. assert (~ has_record W k) as Hno; [|split_and!; [done|by apply Hskip|intros ? ? [= <- <-]; by exists u, c]].
      intros (c' & v' & Hc' & Hv'). specialize (Hmax _ _ Hv' (Hbc c')). assert (user_key u) as Hu by (apply (scan_keys_user L W u W_ok L_ok); by apply Hrest).
      apply (user_key_lt_versions u k c c' Hu Huk) in Hlt. by apply not_ble in Hlt.
  - right. assert (~ has_record W k) as Hno; [|split_and!; [done|by apply Hskip|done]]. intros (c & v & Hc & Hv). by apply (Hs _ _ Hv).
Qed.

Lemma back_lock_pos :
  (exists v, L !! k = Some v /\ seek_below L cut = Some (k, v))
  \/ (L !! k = None /\ seek_below L cut = seek_lt L k /\ forall x v, seek_below L cut = Some (x, v) -> blt x k).
Proof using Hinv Hlo Hhi Hrest.
  destruct last_key as (_ & _ & Hb). assert (forall x v, L !! x = Some v -> below cut x -> x = k \/ blt x k) as Hother.
  { intros x v Hx Hbx. by apply last_greatest, (back_lock_left cut _ x v). }
  destruct (L !! k) as [v|] eqn:Ev; [left; exists v|right]; (split; [done|]).
  - apply seek_below_Some; [done..|]. intros x v2 H2 Hb2. destruct (Hother x v2 H2 Hb2) as [->|?]; [apply ble_refl|by apply blt_ble].
  - assert (seek_below L cut = seek_lt L k) as E.
    { apply seek_below_skip; [done|]. intros x v Hx Hbx. destruct (Hother x v Hx Hbx) as [->|?]; [congruence|done]. }
    split; [done|]. intros x v Ex. rewrite E in Ex. by apply seek_lt_Some in Ex as (_ & ? & _).
Qed.

Lemma last_current : exists hw hl, current_of true (fst <$> seek_below W cut, fst <$> seek_below L cut) = Ok (Some (k, hw, hl)) /\
  (if hw then at_oldest (seek_below W cut) else ~ has_record W k /\ seek_below W cut = back_k) /\
  (if hl then exists v, L !! k = Some v /\ seek_below L cut = Some (k, v) else L !! k = None /\ seek_below L cut = seek_lt L k).
Proof using Hinv Hlo Hhi Hcut Hrest.
  destruct back_write_pos as [Hold|(Hno & Ew & Hlt)], back_lock_pos as [(lv & Hl & El)|(Hl & El & Hllt)].
  - exists true, true. split; [|by eauto]. pose proof Hold as (c & w & Ew & _). rewrite El, Ew. cbn. rewrite truncate_for_append_ts. cbn. by rewrite bcmp_refl.
  - exists true, false. split; [|done]. pose proof Hold as (c & w & Ew & _). rewrite Ew. cbn. rewrite truncate_for_append_ts.
    destruct (seek_below L cut) as [[x xv]|]; cbn; [|done]. specialize (Hllt x xv eq_refl). unfold blt in Hllt. by rewrite bcmp_antisym, Hllt.
  - exists false, true. split; [|by eauto]. rewrite El. cbn. destruct (seek_below W cut) as [[x xv]|]; cbn; [|done].
    destruct (Hlt x xv eq_refl) as (u & c & -> & Hu). rewrite truncate_for_append_ts. cbn. unfold blt in Hu. by rewrite Hu.
  - exfalso. assert (k ∈ scan_keys L W) as Hin by (apply Hrest; apply list_elem_of_here).
    apply (elem_of_scan_keys L W k W_ok) in Hin as [[v Hv]|?]; [congruence|done].
Qed.

(** *** One round *)

Let a := view (range_engine lo hi e0) k.
Abbreviation on_k := (on_key k).

  Context (get : Key -> mres (option Value)).
  Hypothesis Hget : read_result (view e0 k) k ts (sc_omit_value cfg0) (sc_isolation_level cfg0) (sc_bypass_locks cfg0) (sc_access_locks cfg0) (get k).

Lemma back_get_is r : read_result a k ts (sc_omit_value cfg0) (sc_isolation_level cfg0) (sc_bypass_locks cfg0) (sc_access_locks cfg0) r -> get k = r.
Proof using Hinv Hlo Hhi Hts Hrest Hget. destruct last_key as (Hu & Hr & _). by apply (get_unique e0 cfg0 Hinv Hlo Hhi Hts get k r Hu Hr Hget). Qed.

Lemma back_get_value r : lock_check a k (sc_isolation_level cfg0) ts (sc_bypass_locks cfg0) = Ok tt -> found_value (lo := lo) (hi := hi) e0 cfg0 k r -> get k = r.
Proof using Hinv Hlo Hhi Hts Hil Hrest Hget.
  intros El Hr. apply back_get_is. unfold read_result. rewrite El. split; [|by intros _ ?]. intros _. exact Hr.
Qed.

(** Where a call of [next] leaves the scanner. *)
Definition back_post (rest : list Key) (p : mres (option (Key * Value)) * ScanState I) : Prop :=
  p.1 = (first_get get rest).1 /\
  (keeps_going p.1 = true -> exists cut', cut_wf cut' /\ back_at p.2 cut' /\ left_of cut' (first_get get rest).2).

(** The end of a round: the key is done. *)
Lemma back_done f r s (Hnext : forall s', back_at s' (Some k) -> back_post rest (backward_loop f s')) : back_at s (Some k) -> get k = r -> r <> Panic ->
  back_post (k :: rest) ((value ← slift r; match value with Some v => mret (Some (k, v)) | None => backward_loop f end) s).
Proof using Hinv Hlo Hhi Hrest.
  intros Hs Eg Hp. assert (cut_wf (Some k)) as Hc by (intros ? [= <-]; apply last_key). pose proof left_next as Hl.
  unfold mbind, SM_bind, slift. destruct r as [[v|]|er|]; [| | |done].
  - unfold back_post. cbn. rewrite Eg. split; [done|]. intros _. by exists (Some k).
  - unfold back_post. cbn [first_get]. rewrite Eg. by apply Hnext.
  - unfold back_post. cbn. rewrite Eg. split; [done|]. intros _. by exists (Some k).
Qed.

(** The records of the key, once the result so far is known. *)
Definition back_writes (result : mres (option Value)) (hw : bool) : SM (I := I) (mres (option Value)) :=
  if hw then
    '(result, met_prev_user_key) ← (match result with Ok _ => reverse_get k ts | _ => mret (result, false) end);
    if negb met_prev_user_key then _ ← move_write_cursor_to_prev_user_key k; mret result
    else mret result
  else mret result.

Lemma oldest_on p : at_oldest p -> on_k p.
Proof using. intros (c & w & -> & Hc & _). by exists c, (write_to_bytes w). Qed.

(** The key was read. *)
Definition key_read (m : SM (mres (option Value))) (s : ScanState I) : Prop :=
  exists r s', m s = (Ok r, s') /\ get k = r /\ r <> Panic /\ back_at s' (Some k).

(** The lock does not matter. *)
Lemma back_writes_read s pw (hw : bool) : at_pos s pw (seek_lt L k) -> (if hw then at_oldest pw else ~ has_record W k /\ pw = back_k) ->
  lock_check a k (sc_isolation_level cfg0) ts (sc_bypass_locks cfg0) = Ok tt -> key_read (back_writes (Ok None) hw) s.
Proof using Hinv Hlo Hhi Hsnap Hlow Hup Hts Hdesc Hil Hrest Hget.
  intros Hs Hpw Elc. destruct last_key as (Hu & Hr & _). destruct hw; unfold key_read, back_writes.
  - destruct Hpw as (c & w & -> & Hc & Hv & Hmin).
    destruct (reverse_get_spec e0 cfg0 Hinv Hlo Hhi Hsnap Hlow Hup Hts Hdesc k Hu Hr Hil s _ c w Hs Hc Hv Hmin) as (r & met & s1 & E1 & Hf & pw & Hs1 & Hpw).
    assert (r <> Panic) as Hp by (by destruct Hf as (v & -> & _)). exists r. rewrite (back_get_value r Elc Hf). sm_run E1.
    destruct met; cbn [negb]; [exists s1; subst pw; by split_and!|].
    destruct (move_prev_spec e0 cfg0 Hinv Hlo Hhi Hdesc k Hu Hr s1 pw _ Hs1 Hpw) as (s2 & E2 & Hs2). exists s2. split_and!; [|done..]. unfold mbind, SM_bind. by rewrite E2.
  - destruct Hpw as [Hno ->]. exists (Ok None), s. split_and!; [done| |done..]. apply back_get_is. unfold read_result. rewrite Elc.
    by apply (no_writes_spec e0 cfg0 Hinv Hlo Hhi k Hu).
Qed.

(** The lock is an error. *)
Lemma back_writes_failed s pw (hw : bool) er : at_pos s pw (seek_lt L k) -> (if hw then at_oldest pw else ~ has_record W k /\ pw = back_k) ->
  get k = Err er -> key_read (back_writes (Err er) hw) s.
Proof using Hinv Hlo Hhi Hdesc Hrest.
  intros Hs Hpw Eg. destruct last_key as (Hu & Hr & _). exists (Err er). destruct hw; unfold back_writes.
  - destruct (move_prev_spec e0 cfg0 Hinv Hlo Hhi Hdesc k Hu Hr s pw _ Hs) as (s2 & E2 & Hs2); [left; by apply oldest_on|].
    exists s2. split_and!; [|done..]. unfold mbind, SM_bind, mret, SM_ret. cbn [negb]. by rewrite E2.
  - destruct Hpw as [_ ->]. by exists s.
Qed.

(** The lock of the key, and then its records. *)
Lemma back_locked s lv (hw : bool) : at_pos s (seek_below W cut) (Some (k, lv)) -> (if hw then at_oldest (seek_below W cut) else ~ has_record W k /\ seek_below W cut = back_k) ->
  key_read ('(result, has_write) ← backward_lock k hw; back_writes result has_write) s.
Proof using Hinv Hlo Hhi Hsnap Hlow Hup Hts Hdesc Hil Hrest Hget.
  intros Hs Hw. destruct last_key as (Hu & Hr & _).
  destruct (backward_lock_spec e0 cfg0 Hinv Hlo Hhi Hsnap Hlow Hup Hdesc k Hu Hr s _ lv hw Hs) as (l & Hlk & Hneed & Hcase).
  { destruct hw; [by apply oldest_on|by apply Hw]. }
  assert (lock_check a k (sc_isolation_level cfg0) ts (sc_bypass_locks cfg0) = check_ts_conflict l k ts (sc_bypass_locks cfg0) (sc_isolation_level cfg0)) as Elc.
  { unfold lock_check. fold a in Hlk. by rewrite Hlk, Hneed. }
  unfold key_read, mbind at 1, SM_bind at 1.
  destruct (check_ts_conflict l k ts (sc_bypass_locks cfg0) (sc_isolation_level cfg0)) as [[]|er|]; [| |done].
  - destruct Hcase as (s2 & -> & Hs2). by apply (back_writes_read s2 _ hw Hs2).
  - assert (forall r, (if TsSet_contains (sc_access_locks cfg0) (lock_ts l) then exists v, r = Ok (hide (sc_omit_value cfg0) v) /\ lock_value a l v
        else r = Err (mvcc_error_from_txn er)) -> get k = r) as Hres.
    { intros r Hx. apply back_get_is. unfold read_result. fold a in Hlk. by rewrite Elc, Hlk. }
    destruct (TsSet_contains (sc_access_locks cfg0) (lock_ts l)).
    + destruct Hcase as (v & s2 & -> & Hv & Hs2). eexists _, s2. split_and!; [done|apply Hres; by exists v|done|exact Hs2].
    + destruct Hcase as (s2 & -> & Hs2). apply (back_writes_failed s2 _ hw _ Hs2 Hw). by apply Hres.
Qed.

Lemma back_round f s (Hnext : forall s', back_at s' (Some k) -> back_post rest (backward_loop f s')) :
  back_at s cut -> back_post (k :: rest) (backward_loop (S f) s).
Proof using Hinv Hlo Hhi Hsnap Hlow Hup Hts Hdesc Hil Hcut Hrest Hget.
  intros Hs. destruct last_current as (hw & hl & Ecur & Hw & Hl). destruct (state_cfg_eq e0 cfg0 s _ _ _ Hs) as (_ & _ & _ & Et & _).
  assert (key_read ('(result, has_write) ← (if hl then backward_lock k hw else mret (Ok None, hw)); back_writes result has_write) s) as (r & s1 & E1 & Eg & Hp & Hs1).
  { unfold back_at in Hs. destruct hl.
    - destruct Hl as (lv & HL & El). rewrite El in Hs. by eapply back_locked.
    - destruct Hl as [HL El]. rewrite El in Hs. apply (back_writes_read s _ hw Hs Hw). apply (unlocked_check e0 cfg0 k HL). }
  assert (backward_loop (S f) s = (value ← slift r; match value with Some v => mret (Some (k, v)) | None => backward_loop f end) s1) as ->; [|by apply back_done].
  cbn [backward_loop]. sm_run (st_keys e0 cfg0 s _ _ _ Hs). unfold mbind at 1, SM_bind at 1, slift at 1.
  rewrite Ecur. unfold mbind at 1, SM_bind at 1, sget. rewrite Et. unfold mbind at 1, SM_bind at 1 in E1. sm_open.
  destruct ((if hl then backward_lock k hw else mret (Ok None, hw)) s) as [[[result hw']|?|] s2]; [|done..]. fold (back_writes result hw').
  sm_open. by rewrite E1.
Qed.
End Last.

(** *** The loop *)

Lemma back_end s cut : left_of cut [] -> cut_wf cut -> back_at s cut -> cursor_keys s = (Ok (None, None), s).
Proof using Hinv Hlo Hhi.
  intros Hr Hc Hs. rewrite (st_keys e0 cfg0 s _ _ _ Hs). fold W L. pose proof (seek_below_spec W cut) as Hw. pose proof (seek_below_spec L cut) as Hl. f_equal. f_equal. f_equal.
  - destruct (seek_below W cut) as [[x v]|]; [|done]. destruct Hw as (Hx & Hb & _). destruct (back_record_left cut [] x v Hc Hr Hx Hb) as (u & c & _ & _ & Hin).
    by apply elem_of_nil in Hin.
  - destruct (seek_below L cut) as [[x v]|]; [|done]. destruct Hl as (Hx & Hb & _). pose proof (back_lock_left cut [] x v Hr Hx Hb) as Hin. by apply elem_of_nil in Hin.
Qed.

  Context (get : Key -> mres (option Value)).
  Hypothesis Hget : forall u, u ∈ scan_keys L W ->
    read_result (view e0 u) u ts (sc_omit_value cfg0) (sc_isolation_level cfg0) (sc_bypass_locks cfg0) (sc_access_locks cfg0) (get u).

Lemma backward_loop_spec rest : forall cut s f, left_of cut rest -> cut_wf cut -> back_at s cut -> (length rest < f)%nat ->
  back_post get rest (backward_loop f s).
Proof using Hinv Hlo Hhi Hsnap Hlow Hup Hts Hdesc Hil Hget.
  induction rest as [|k rest IH]; intros cut s f Hr Hc Hs Hf; (destruct f as [|f]; [cbn in Hf; lia|]).
  - cbn [backward_loop]. unfold mbind, SM_bind. rewrite (back_end s cut Hr Hc Hs). unfold slift. cbn. split; [done|]. intros _. by exists cut.
  - apply (back_round cut k rest Hc Hr get); [|intros s' Hs'|done].
    + apply Hget. by apply Hr, list_elem_of_here.
    + cbn in Hf. apply (IH (Some k)); [by eapply left_next|intros ? [= <-]; by eapply last_key|done|lia].
Qed.

(** *** Calls of [next] *)

  Hypothesis Hord : forall l h, lo = Some l -> hi = Some h -> ble l h.

Definition scanning_back (s : ScanState I) (keys : list Key) : Prop :=
  (fresh_at e0 cfg0 s /\ keys = reverse (scan_keys L W)) \/ exists cut, cut_wf cut /\ back_at s cut /\ left_of cut keys.

(** The first positions. *)
Lemma back_start_seek (c : Cursor I) m b : hi = b -> (forall x v, m !! x = Some v -> in_range lo hi x = true) -> cur_at cfg0 c m None -> cu_min_key c = None ->
  exists r c', (match b with Some bound => reverse_seek c bound | None => cursor_seek_to_last c end) = Ok (r, c') /\ cur_at cfg0 c' m (seek_last m).
Proof using Hdesc Hord.
  intros Hb Hin Hc Hmin. pose proof Hc as (Hc0 & Hm & _). pose proof (mode_mixed cfg0 Hdesc) as Hmode.
  destruct b as [bound|].
  - destruct (reverse_seek_at c m None bound Hc0) as (c' & E & Hs); [|congruence|intros ?; congruence|].
    { split; [intros l El; by apply Hord|]. intros h Eh. rewrite Hb in Eh. injection Eh as ->. apply ble_refl. }
    assert (seek_last m = seek_lt m bound) as ->.
    { apply (seek_below_skip m None bound); [done|]. intros x v Hx _. by apply Hin, in_range_iff in Hx as [_ Hx]; apply Hx. }
    rewrite E. do 2 eexists. split; [done|]. eapply cur_at_sought; [exact Hc|exact Hs|by right|congruence].
  - destruct (cursor_last_at c m None Hc0) as (c' & E & Hc' & Hk). rewrite E. do 2 eexists. split; [done|].
    split; [done|]. destruct Hk as (Hkm & _). split; congruence.
Qed.

Lemma backward_start_spec s : fresh_at e0 cfg0 s -> exists s', backward_start s = (Ok tt, s') /\ back_at s' None.
Proof using Hlow Hup Hdesc Hord.
  intros (Hst & Hcfg & Hd & (Hcw & _ & Hmw) & Hl). destruct (back_start_seek (ss_write s) W hi eq_refl (in_range_W e0) Hcw Hmw) as (b & cw & Ew & Hcw').
  set (f := fun c : Cursor I => match hi with Some bound => reverse_seek c bound | None => cursor_seek_to_last c end).
  assert (backward_start s = (_ ← on_write f; _ ← if_lock f; modify set_started) s) as ->.
  { unfold backward_start, mbind, SM_bind, sget. rewrite Hst, Hcfg, Hup. unfold f. clear. generalize hi as b.
    intros [bound|]; cbn; [destruct (on_write (fun c => reverse_seek c bound) s) as [[]]|change (fun c : Cursor I => cursor_seek_to_last c) with (cursor_seek_to_last (I := I)); destruct (on_write cursor_seek_to_last s) as [[]]]; done. }
  sm_run (on_write_ok f s b cw Ew). unfold mbind at 1, SM_bind at 1, if_lock. unfold mbind at 1, SM_bind at 1, sget.
  cbn [ss_lock set_write]. destruct (ss_lock s) as [cl|] eqn:El.
  - destruct Hl as (Hn & Hcl & _ & Hml). destruct (back_start_seek cl L hi eq_refl (in_range_L e0 cfg0) Hcl Hml) as (b' & cl' & El' & Hcl').
    sm_open. rewrite (on_lock_ok f (set_write s cw) cl b' cl'); [|by cbn|done]. cbn. eexists. split; [done|].
    constructor; cbn; [done..| |done]. by rewrite Hd.
  - cbn. eexists. split; [done|]. constructor; cbn; [done| | |done].
    + rewrite El. split; [done|]. unfold L, scan_locks. by rewrite Hl.
    + by rewrite Hd.
Qed.

Lemma left_all : left_of None (reverse (scan_keys L W)).
Proof using.
  split; [|intros u; rewrite elem_of_reverse; split; [by split|by intros [? _]]]. apply sorted_reverse, scan_keys_sorted.
Qed.

Lemma left_length cut rest : left_of cut rest -> (length rest <= size W + size L)%nat.
Proof using Hinv Hlo Hhi.
  intros [Hs Hr]. trans (length (scan_keys L W)); [|pose proof (scan_keys_length L W W_ok); lia].
  apply submseteq_length, NoDup_submseteq; [|intros u Hu; by apply Hr]. clear Hr. induction Hs as [|u l Hs IH Hf]; constructor; [|done].
  intros Hin. rewrite Forall_forall in Hf. apply Hf in Hin. by apply blt_irrefl in Hin.
Qed.

Lemma fuel_left s cut rest : back_at s cut -> left_of cut rest -> (length rest < scan_fuel (ss_cfg s))%nat.
Proof using Hinv Hlo Hhi Hsnap.
  intros Hs Hr. apply left_length in Hr. destruct (state_cfg_eq e0 cfg0 s _ _ _ Hs) as (Es & _). unfold scan_fuel. rewrite Es, Hsnap.
  cbn [snap snap_engine engine_get_cf]. assert (size W <= size (cf_write e0))%nat by (apply map_subseteq_size, map_filter_subseteq).
  assert (size L <= size (cf_lock e0))%nat; [|lia]. unfold L, scan_locks. destruct (need_check_locks _); [apply map_subseteq_size, map_filter_subseteq|].
  rewrite map_size_empty. lia.
Qed.

Lemma backward_next s keys : scanning_back s keys ->
  (scanner_next s).1 = (first_get get keys).1 /\
  (keeps_going (scanner_next s).1 = true -> scanning_back (scanner_next s).2 (first_get get keys).2).
Proof using Hinv Hlo Hhi Hsnap Hlow Hup Hts Hdesc Hil Hget Hord.
  intros Hs.
  assert (exists s' cut, scanner_next s = backward_loop (scan_fuel (ss_cfg s')) s' /\ cut_wf cut /\ back_at s' cut /\ left_of cut keys)
    as (s' & cut & -> & Hc & Hw & Hr).
  { destruct Hs as [[Hf ->]|(cut & Hc & Hw & Hr)].
    - destruct (backward_start_spec s Hf) as (s' & E & Hw). exists s', None. split; [|split_and!; [done..|apply left_all]].
      unfold scanner_next, mbind at 1, SM_bind at 1, sget. destruct Hf as (_ & -> & _). rewrite Hdesc.
      unfold backward_read_next, mbind at 1, SM_bind at 1. by rewrite E.
    - exists s, cut. split_and!; [|done..]. unfold scanner_next, mbind at 1, SM_bind at 1, sget.
      destruct (state_cfg_eq e0 cfg0 s _ _ _ Hw) as (_ & _ & _ & _ & -> & _). rewrite Hdesc.
      unfold backward_read_next, mbind at 1, SM_bind at 1, backward_start, mbind at 1, SM_bind at 1, sget. by rewrite (sa_started _ _ _ _ _ _ Hw). }
  destruct (backward_loop_spec keys cut s' (scan_fuel (ss_cfg s')) Hr Hc Hw) as [E Hgo]; [by eapply fuel_left|].
  split; [done|]. intros Hk. destruct (Hgo Hk) as (cut' & Hc' & Hw' & Hr'). right. by exists cut'.
Qed.

Lemma backward_scan_gets s limit sample_step : scanner_build cfg0 = Ok s ->
  (scan limit sample_step s).1 = gets get (reverse (scan_keys L W)) limit sample_step 0 [].
Proof using IS Hinv Hlo Hhi Hsnap Hlow Hup Hts Hdesc Hil Hget Hord.
  intros Hb. pose proof (build_fresh e0 cfg0 Hsnap Hlow Hup s Hb) as Hf. unfold scan, mbind, SM_bind, sget.
  apply (scan_loop_gets get scanning_back backward_next); [by left|]. destruct (backward_start_spec s Hf) as (s' & _ & Hw).
  pose proof (fuel_left s' None _ Hw left_all) as Hl. destruct (state_cfg_eq e0 cfg0 s' _ _ _ Hw) as (Es & _).
  unfold scan_fuel in Hl |- *. rewrite Es in Hl. by destruct Hf as (_ & -> & _).
Qed.
End Walk.
