(* ===== verification/Scan.v ===== *)
(** * Scans return what point gets return

    The specification of a scan by the point getter: a scan, forward or
    backward, returns what point gets of the keys in its range return, one
    after the other. *)
From stdpp Require Import sorting.
From S2P Require Import Prelude Number Bytes Timestamp Key Fields Lock Write OrderedMap PeerLocks Engine ConcurrencyManager Reader Cursor Versions MvccTxn CheckTxnStatus.
From S2P Require Import Prewrite Commands KeyView Protocol ActionSpec ReadSpec PrewriteSpec System Demo Safety AsyncCommit PointGetter Scanner ScanSpec ForwardScan BackwardScan.
Local Open Scope Z_scope.

(** The point getter that reads as the scanner does. *)
Definition getter_of (cfg : ScannerConfig) (met : NewerTsCheckState) : PointGetter :=
  mk_getter (sc_snapshot cfg) (sc_omit_value cfg) (sc_isolation_level cfg) (sc_ts cfg) (sc_bypass_locks cfg) (sc_access_locks cfg) met.

(** The keys a scan meets: those in its range with a record, or with a lock if
    the isolation level looks at locks. *)
Definition scanned (e : Engine) (cfg : ScannerConfig) (u : Key) : Prop :=
  user_key u /\ in_range (sc_lower_bound cfg) (sc_upper_bound cfg) u = true /\
  ((need_check_locks (sc_isolation_level cfg) = true /\ is_Some (cf_lock e !! u)) \/ has_record (cf_write e) u).

Section Scan.
  Context {I : Type} (e : Engine) (cfg : ScannerConfig) `{IS : IterSpec I (sc_lower_bound cfg) (sc_upper_bound cfg)}.
Abbreviation lo := (sc_lower_bound cfg).
Abbreviation hi := (sc_upper_bound cfg).
  Hypothesis Hinv : sys_inv e.
  Hypothesis Hb : bounds_wf lo hi.
  Hypothesis Hsnap : sc_snapshot cfg = snap e.
Let W := range_cf lo hi (cf_write e).
Let L := scan_locks (lo := lo) (hi := hi) e cfg.

Lemma build_ok : exists s : ScanState I, scanner_build cfg = Ok s.
Proof using IS Hsnap.
  unfold scanner_build. assert (snap_engine (sc_snapshot cfg) = e) as Hse by (by rewrite Hsnap).
  destruct (new_cur_at e cfg Hse eq_refl eq_refl (cf_lock e) CF_LOCK eq_refl) as (cl & El & _).
  destruct (new_cur_at e cfg Hse eq_refl eq_refl (cf_write e) CF_WRITE eq_refl) as (cw & Ew & _).
  destruct (need_check_locks (sc_isolation_level cfg)); cbn [mbind res_bind]; rewrite ?El; change (bool_decide (CF_LOCK = CF_DEFAULT)) with false; cbn [mbind res_bind]; rewrite Ew; cbn; eauto.
Qed.

Lemma scanned_keys u : u ∈ scan_keys L W <-> scanned e cfg u.
Proof using Hinv Hb.
  destruct Hb as (Hlo & Hhi & _). pose proof (W_wf e Hinv Hlo Hhi) as HW. pose proof (L_wf e cfg Hinv Hlo Hhi) as HL. split.
  - intros Hu. destruct (scanned_in_range e cfg Hinv Hlo Hhi u Hu) as [Huk Hr]. split_and!; [done..|].
    apply (elem_of_scan_keys L W u HW) in Hu as [[v Hv]|(c & v & Hc & Hv)].
    + left. unfold L, scan_locks in Hv. destruct (need_check_locks (sc_isolation_level cfg)); [|done]. apply range_cf_lookup in Hv as [Hv _]. by eauto.
    + right. apply range_cf_lookup in Hv as [Hv _]. by exists c, v.
  - intros (Hu & Hr & [[Hn [v Hv]]|(c & v & Hc & Hv)]); apply (elem_of_scan_keys L W u HW).
    + left. exists v. unfold L, scan_locks. rewrite Hn. by apply range_cf_lookup.
    + right. exists c, v. split; [done|]. apply range_cf_lookup. by rewrite in_range_append.
Qed.
End Scan.


(** ** A sample *)

Definition sample_cfg (desc : bool) : ScannerConfig := mk_scan_cfg (snap e4) false Si None None 11 desc TsEmpty TsEmpty false.


(** The scans of the sample return the first value of its key. *)
Lemma sample_scans : forall desc, exists s : ScanState RangeIterator, scanner_build (sample_cfg desc) = Ok s /\
  (scan 10 0 s).1 = Ok [Ok ([Byte.x6b], [Byte.x61])].
Proof. intros []; eexists; (split; [reflexivity|vm_compute; reflexivity]). Qed.

(** ** Conflicts a backward scan does not see *)

(** Seventeen committed versions of one key, the last of them after the read. *)
Definition many_versions : Engine :=
  mk_engine ∅ ∅ (list_to_map ((fun i => (append_ts k (2 * i), write_to_bytes (mk_write WTPut (2 * i - 1) (Some [Byte.x61]) false None LCUnknown 0))) <$> seqZ 1 17)).
Definition rc_cfg (desc : bool) : ScannerConfig := mk_scan_cfg (snap many_versions) false RcCheckTs None None 33 desc TsEmpty TsEmpty false.

(** Under [RcCheckTs] a version newer than the read is an error. Forward scans
    and point gets report it. A backward scan does so only if it meets that
    version in its first [REVERSE_SEEK_BOUND] steps; after them it seeks to
    the version to read, and nothing looks for a newer one. *)
Lemma backward_misses_conflict :
  (exists s : ScanState RangeIterator, scanner_build (rc_cfg false) = Ok s /\
     (scan 1 0 s).1 = Err (MWriteConflict 33 0 34 (append_ts k 34) [] ReasonRcCheckTs)) /\
  (pg_get (getter_of (rc_cfg false) Unknown) false k).1 = Err (MWriteConflict 33 0 34 (append_ts k 34) [] ReasonRcCheckTs) /\
  (exists s : ScanState RangeIterator, scanner_build (rc_cfg true) = Ok s /\ (scan 1 0 s).1 = Ok [Ok ([Byte.x6b], [Byte.x61])]).
Proof. split_and!; [eexists; (split; [reflexivity|vm_compute; reflexivity])|vm_compute; reflexivity|eexists; (split; [reflexivity|vm_compute; reflexivity])]. Qed.
