(* ===== verification/ReadProgress.v ===== *)
(** * How far a replica may serve stale reads
    (components/raftstore/src/store/util.rs, [RegionReadProgress])

    A replica serves a read at a timestamp up to its [safe_ts] without asking
    the leader. It learns [safe_ts] from pairs of an apply index and a
    timestamp that the leader publishes: the timestamp is safe once the
    replica has applied the log up to the index. Pairs that come too early are
    kept, some are dropped, and merges of regions lower [safe_ts]. Shown: if
    every published pair is true, [safe_ts] always is.

    The instants that are kept for diagnosis and the notification of the
    advance worker are left out. *)
From Stdlib Require Import Sorted.
From S2P Require Import Prelude.
Local Open Scope Z_scope.

(** ** State *)

Record ReadState := mk_rs { rs_idx : Z; rs_ts : Z }.

Inductive PeerRole := Voter | Learner | IncomingVoter | DemotingVoter.
Record Peer := mk_peer { pr_id : Z; pr_store_id : Z; pr_role : PeerRole }.

(** What is used of a [Region]; an epoch is [conf_ver] and [version]. *)
Record RegionMeta := mk_meta { rg_epoch : Z * Z; rg_peers : list Peer }.

Record LocalLeaderInfo := mk_leader {
  ll_id : Z;
  ll_term : Z;
  ll_store_id : option Z;
  ll_epoch : Z * Z;
  ll_peers : list Peer
}.

Definition leader_new (region : RegionMeta) : LocalLeaderInfo := mk_leader 0 0 None (rg_epoch region) (rg_peers region).

Fixpoint find_store_id (peer_list : list Peer) (peer_id : Z) : option Z :=
  match peer_list with
  | [] => None
  | peer :: peer_list => if pr_id peer =? peer_id then Some (pr_store_id peer) else find_store_id peer_list peer_id
  end.

Record RegionReadProgressCore := mk_core {
  rc_applied_index : Z;
  rc_read_state : ReadState;
  rc_leader_info : LocalLeaderInfo;
  rc_pending_items : list ReadState;
  rc_last_merge_index : Z;
  rc_pause : bool;
  rc_discard : bool
}.

Record RegionReadProgress := mk_rrp {
  rp_core : RegionReadProgressCore;
  rp_safe_ts : Z;
  rp_read_index_safe_ts : Z
}.

Definition set_applied (c : RegionReadProgressCore) (applied : Z) (rs : ReadState) (pending : list ReadState) : RegionReadProgressCore :=
  mk_core applied rs (rc_leader_info c) pending (rc_last_merge_index c) (rc_pause c) (rc_discard c).
Definition set_flags (c : RegionReadProgressCore) (pause discard : bool) : RegionReadProgressCore :=
  mk_core (rc_applied_index c) (rc_read_state c) (rc_leader_info c) (rc_pending_items c) (rc_last_merge_index c) pause discard.

(** ** The core *)

(** [INVALID_ID] is zero. A witness serves no stale reads. *)
Definition core_new (region : RegionMeta) (applied_index : Z) (is_witness : bool) : RegionReadProgressCore :=
  mk_core applied_index (mk_rs 0 0) (leader_new region) [] 0 is_witness is_witness.

(** The items up to the applied index are popped; the one with the largest
    timestamp is kept. *)
Fixpoint consume (applied : Z) (to_update : ReadState) (pending : list ReadState) : ReadState * list ReadState :=
  match pending with
  | [] => (to_update, [])
  | item :: rest =>
      if applied <? rs_idx item then (to_update, item :: rest)
      else consume applied (if rs_ts to_update <? rs_ts item then item else to_update) rest
  end.

Definition core_update_applied (c : RegionReadProgressCore) (applied : Z) : res unit (option Z * RegionReadProgressCore) :=
  rassert (rc_applied_index c <=? applied)
    (let '(to_update, pending) := consume applied (rc_read_state c) (rc_pending_items c) in
     if rs_ts (rc_read_state c) <? rs_ts to_update
     then Ok (Some (rs_ts to_update), set_applied c applied to_update pending)
     else Ok (None, set_applied c applied (rc_read_state c) pending)).

(** Every second item goes when the queue is full. *)
Fixpoint keep_alternate {A} (keep : bool) (l : list A) : list A :=
  match l with
  | [] => []
  | x :: l => if negb keep then x :: keep_alternate (negb keep) l else keep_alternate (negb keep) l
  end.

Definition core_push_back (capacity : nat) (pending : list ReadState) (item : ReadState) : list ReadState :=
  (if bool_decide (capacity <= length pending)%nat then keep_alternate false pending else pending) ++ [item].

(** [capacity] is what the queue has allocated. *)
Definition core_update_safe_ts (capacity : nat) (c : RegionReadProgressCore) (idx ts : Z) : option Z * RegionReadProgressCore :=
  if idx <? rc_last_merge_index c then (None, c)
  else if idx <=? rc_applied_index c then
    if rs_ts (rc_read_state c) <? ts
    then (Some ts, set_applied c (rc_applied_index c) (mk_rs idx ts) (rc_pending_items c))
    else (None, c)
  else
    let pending := rc_pending_items c in
    let push := set_applied c (rc_applied_index c) (rc_read_state c) (core_push_back capacity pending (mk_rs idx ts)) in
    match last pending with
    | Some prev_item =>
        if ts <=? rs_ts prev_item then (None, c)
        else if idx <=? rs_idx prev_item then
          (None, set_applied c (rc_applied_index c) (rc_read_state c)
                   (take (length pending - 1) pending ++ [mk_rs (rs_idx prev_item) ts]))
        else (None, push)
    | None => (None, push)
    end.

Definition core_merge_safe_ts (c : RegionReadProgressCore) (source_safe_ts merge_index : Z) : res unit (option Z * RegionReadProgressCore) :=
  '(_, c) ← core_update_applied c merge_index;
  let target_safe_ts := rs_ts (rc_read_state c) in
  let ts := Z.min source_safe_ts target_safe_ts in
  let c := mk_core (rc_applied_index c) (mk_rs (rs_idx (rc_read_state c)) ts) (rc_leader_info c) (rc_pending_items c)
             merge_index (rc_pause c) (rc_discard c) in
  Ok (if negb (ts =? target_safe_ts) then Some ts else None, c).

(** The pair the leader sends out. *)
Definition published_state (c : RegionReadProgressCore) : ReadState :=
  match last (rc_pending_items c) with Some item => item | None => rc_read_state c end.

(** ** The progress of a replica *)

Definition rrp_new (region : RegionMeta) (applied_index : Z) (is_witness : bool) : RegionReadProgress :=
  mk_rrp (core_new region applied_index is_witness) 0 0.

(** [safe_ts] follows the core unless the replica is paused. *)
Definition store_safe_ts (p : RegionReadProgress) (updated : option Z) (c : RegionReadProgressCore) : RegionReadProgress :=
  mk_rrp c (match updated with Some ts => if rc_pause c then rp_safe_ts p else ts | None => rp_safe_ts p end) (rp_read_index_safe_ts p).

Definition update_applied (p : RegionReadProgress) (applied : Z) : res unit RegionReadProgress :=
  '(updated, c) ← core_update_applied (rp_core p) applied;
  Ok (store_safe_ts p updated c).

Definition update_safe_ts (capacity : nat) (p : RegionReadProgress) (apply_index ts : Z) : RegionReadProgress :=
  if (apply_index =? 0) || (ts =? 0) then p
  else if rc_discard (rp_core p) then p
  else let '(updated, c) := core_update_safe_ts capacity (rp_core p) apply_index ts in store_safe_ts p updated c.

Definition merge_safe_ts (p : RegionReadProgress) (source_safe_ts merge_index : Z) : res unit RegionReadProgress :=
  '(updated, c) ← core_merge_safe_ts (rp_core p) source_safe_ts merge_index;
  let p := store_safe_ts p updated c in
  Ok (mk_rrp (rp_core p) (rp_safe_ts p) 0).

(** What a [LeaderInfo] message carries. *)
Record LeaderInfo := mk_li { li_peer_id : Z; li_term : Z; li_epoch : Z * Z; li_read_state : option ReadState }.

(** The result says whether the sender is the leader this replica knows. *)
Definition consume_leader_info (capacity : nat) (p : RegionReadProgress) (li : LeaderInfo) : bool * RegionReadProgress :=
  let p := match li_read_state li with
           | Some rs => update_safe_ts capacity p (rs_idx rs) (rs_ts rs)
           | None => p
           end in
  let own := rc_leader_info (rp_core p) in
  ((ll_term own =? li_term li) && (ll_id own =? li_peer_id li) && bool_decide (ll_epoch own = li_epoch li), p).

Definition update_leader_info (p : RegionReadProgress) (peer_id term : Z) (region : RegionMeta) : RegionReadProgress :=
  let c := rp_core p in
  let leader_info := mk_leader peer_id term (find_store_id (rg_peers region) peer_id) (rg_epoch region) (rg_peers region) in
  mk_rrp (mk_core (rc_applied_index c) (rc_read_state c) leader_info (rc_pending_items c)
            (rc_last_merge_index c) (rc_pause c) (rc_discard c))
    (rp_safe_ts p) (rp_read_index_safe_ts p).

Definition get_leader_info (p : RegionReadProgress) : LeaderInfo :=
  let own := rc_leader_info (rp_core p) in
  mk_li (ll_id own) (ll_term own) (ll_epoch own) (Some (published_state (rp_core p))).

Definition rrp_pause (p : RegionReadProgress) : RegionReadProgress :=
  mk_rrp (set_flags (rp_core p) true (rc_discard (rp_core p))) 0 0.

Definition rrp_discard (p : RegionReadProgress) : RegionReadProgress :=
  mk_rrp (set_flags (rp_core p) true true) (rp_safe_ts p) 0.

Definition rrp_resume (p : RegionReadProgress) : RegionReadProgress :=
  mk_rrp (set_flags (rp_core p) false false) (rs_ts (rc_read_state (rp_core p))) 0.

Definition update_read_index_safe_ts (p : RegionReadProgress) (start_ts : Z) : RegionReadProgress :=
  if start_ts =? u64_max then p
  else if rc_pause (rp_core p) || rc_discard (rp_core p) then p
  else if rp_read_index_safe_ts p <? start_ts then mk_rrp (rp_core p) (rp_safe_ts p) start_ts
  else p.

(** ** What a pair of an index and a timestamp promises *)

(** A version that a log entry commits. *)
Record LogCommit := mk_commit { cm_key : bytes; cm_ts : Z; cm_value : bytes }.

Section Promise.
(** The log of the region: the versions each entry commits, from index one.
    [joined] is the index of the merge that brought the key to the region. *)
Variable log : list (list LogCommit).
Variable joined : bytes -> Z.
(** The index of the last merge before the replica was started, which it does
    not remember. *)
Variable base : Z.

Definition rows_upto (idx : Z) : list LogCommit := concat (take (Z.to_nat idx) log).
Definition rows_after (idx : Z) : list LogCommit := concat (drop (Z.to_nat idx) log).

(** Whatever is committed past the index, on a key that the region holds at
    the index, is above the timestamp. *)
Definition covers (idx ts : Z) : Prop :=
  forall r, r ∈ rows_after idx -> joined (cm_key r) <= idx -> ts < cm_ts r.

(** No merge has an index in the half-open interval. *)
Definition no_join (lo hi : Z) : Prop :=
  forall key, joined key <= hi -> joined key <= lo.

(** A pair is not from before the replica was started, and it is on the same
    side of every merge as the last pending item, whose timestamp it may
    replace. *)
Definition in_order (c : RegionReadProgressCore) (idx : Z) : Prop :=
  base <= idx /\ forall prev, last (rc_pending_items c) = Some prev -> no_join idx (rs_idx prev).

(** The keys of the source region are safe at its timestamp. *)
Definition source_covers (lo idx ts : Z) : Prop :=
  forall r, r ∈ rows_after idx -> joined (cm_key r) <= idx -> lo < joined (cm_key r) -> ts < cm_ts r.

(** One operation on the read progress of a replica. *)
Inductive rrp_step : RegionReadProgress -> RegionReadProgress -> Prop :=
  | step_applied p applied p' :
      update_applied p applied = Ok p' -> no_join (rc_applied_index (rp_core p)) applied -> rrp_step p p'
  | step_safe_ts capacity p idx ts :
      covers idx ts -> in_order (rp_core p) idx -> rrp_step p (update_safe_ts capacity p idx ts)
  | step_leader_info capacity p li :
      (forall rs, li_read_state li = Some rs -> covers (rs_idx rs) (rs_ts rs) /\ in_order (rp_core p) (rs_idx rs)) ->
      rrp_step p (consume_leader_info capacity p li).2
  | step_merge p source_safe_ts merge_index p' :
      merge_safe_ts p source_safe_ts merge_index = Ok p' ->
      0 <= source_safe_ts ->
      source_covers (rc_applied_index (rp_core p)) merge_index source_safe_ts ->
      (rc_pause (rp_core p) = true -> rp_safe_ts p = 0) ->
      rrp_step p p'
  | step_leader p peer_id term region : rrp_step p (update_leader_info p peer_id term region)
  | step_pause p : rrp_step p (rrp_pause p)
  | step_discard p : rrp_step p (rrp_discard p)
  | step_resume p : rrp_step p (rrp_resume p)
  | step_read_index p start_ts : rrp_step p (update_read_index_safe_ts p start_ts).

(** A read on a replica: the newest version at or below the timestamp among
    those applied. *)
Definition newer (key : bytes) (ts : Z) (best : option LogCommit) (r : LogCommit) : option LogCommit :=
  if bool_decide (cm_key r = key) && (cm_ts r <=? ts) then
    match best with
    | Some b => if cm_ts b <? cm_ts r then Some r else best
    | None => Some r
    end
  else best.
Definition stale_get (applied : Z) (key : bytes) (ts : Z) : option LogCommit :=
  foldl (newer key ts) None (rows_upto applied).

(** ** Proofs *)

Lemma rows_after_mono i j r : i <= j -> r ∈ rows_after j -> r ∈ rows_after i.
Proof.
  intros Hij. unfold rows_after.
  replace (Z.to_nat j) with (Z.to_nat i + (Z.to_nat j - Z.to_nat i))%nat by lia.
  rewrite <- drop_drop. generalize (drop (Z.to_nat i) log). intros l Hr.
  rewrite <- (take_drop (Z.to_nat j - Z.to_nat i) l), concat_app. apply elem_of_app. by right.
Qed.

Lemma covers_mono i j ts : covers i ts -> i <= j -> no_join i j -> covers j ts.
Proof. intros Hc Hij Hno r Hr Hj. apply Hc; [by eapply rows_after_mono | by apply Hno]. Qed.

Lemma covers_le i ts ts' : covers i ts -> ts' <= ts -> covers i ts'.
Proof. intros Hc Hle r Hr Hj. specialize (Hc r Hr Hj). lia. Qed.

Lemma no_join_sub lo lo' hi hi' : no_join lo hi -> lo <= lo' -> hi' <= hi -> no_join lo' hi'.
Proof. intros Hno Hl Hh key Hk. specialize (Hno key). lia. Qed.

Lemma no_join_trans i j k : no_join i j -> no_join j k -> no_join i k.
Proof. intros H1 H2 key Hk. auto. Qed.

(** The items that wait are true and ahead of the replica. *)
Definition pending_ok (applied : Z) (pending : list ReadState) : Prop :=
  Forall (fun it => applied < rs_idx it /\ covers (rs_idx it) (rs_ts it)) pending.

(** The pending items are sorted: [update_applied] stops at the first one that
    is ahead. *)
Definition pending_sorted : list ReadState -> Prop := StronglySorted (fun a b => rs_idx a < rs_idx b).

Record core_inv (c : RegionReadProgressCore) : Prop := mk_core_inv {
  ci_read : covers (rc_applied_index c) (rs_ts (rc_read_state c));
  ci_pending : pending_ok (rc_applied_index c) (rc_pending_items c);
  ci_sorted : pending_sorted (rc_pending_items c);
  ci_merge : no_join (Z.max base (rc_last_merge_index c)) (rc_applied_index c)
}.

(** A reported change is the new timestamp, and it is no decrease. *)
Definition reported (c : RegionReadProgressCore) (u : option Z) (c' : RegionReadProgressCore) : Prop :=
  rs_ts (rc_read_state c) <= rs_ts (rc_read_state c') /\ (u = Some (rs_ts (rc_read_state c')) \/ u = None).

Definition rrp_inv (p : RegionReadProgress) : Prop :=
  core_inv (rp_core p) /\ 0 <= rs_ts (rc_read_state (rp_core p)) /\ rp_safe_ts p <= rs_ts (rc_read_state (rp_core p)).

Lemma consume_spec applied pending : forall best,
  pending_sorted pending ->
  let '(to_update, rest) := consume applied best pending in
  (to_update = best \/ to_update ∈ pending /\ rs_idx to_update <= applied) /\
  pending_sorted rest /\ Forall (fun it => applied < rs_idx it) rest /\ rest ⊆ pending.
Proof.
  induction pending as [|it pending IH]; intros best Hs; cbn [consume].
  - repeat split; auto; apply Forall_nil.
  - apply StronglySorted_inv in Hs as Hs'. destruct Hs' as [Hs' Hf].
    destruct (Z.ltb_spec applied (rs_idx it)).
    + repeat split; auto. constructor; [done|].
      eapply Forall_impl; [exact Hf|]. cbn. lia.
    + specialize (IH (if rs_ts best <? rs_ts it then it else best) Hs').
      destruct (consume applied _ pending) as [u rest]. destruct IH as (Hu & Hr & Hfr & Hsub).
      repeat split; auto; [|set_solver].
      destruct Hu as [->|[Hu ?]]; [|right; set_solver].
      destruct (rs_ts best <? rs_ts it); [right | by left]. split; [set_solver | done].
Qed.

(** Applying the log moves the core to a timestamp that held at an index no
    larger, among those with no merge in between. *)
Lemma core_update_applied_spec c applied u c' :
  core_update_applied c applied = Ok (u, c') -> core_inv c ->
  rc_applied_index c <= applied /\ rc_applied_index c' = applied /\
  rc_last_merge_index c' = rc_last_merge_index c /\ rc_pause c' = rc_pause c /\
  pending_ok applied (rc_pending_items c') /\ pending_sorted (rc_pending_items c') /\
  (exists i, rc_applied_index c <= i <= applied /\ covers i (rs_ts (rc_read_state c')) ) /\
  reported c u c'.
Proof.
  unfold core_update_applied, rassert. intros Hu [Hread Hpend Hsort Hmerge].
  destruct (Z.leb_spec (rc_applied_index c) applied); [|done].
  pose proof (consume_spec applied (rc_pending_items c) (rc_read_state c) Hsort) as Hc.
  destruct (consume applied _ _) as [to rest]. destruct Hc as (Hto & Hs & Hf & Hsub).
  assert (pending_ok applied rest) as Hok.
  { apply Forall_forall. intros it Hit. split; [by eapply Forall_forall in Hf|].
    eapply Forall_forall in Hpend; [exact (proj2 Hpend)|]. by apply Hsub. }
  destruct (Z.ltb_spec (rs_ts (rc_read_state c)) (rs_ts to)); simplify_eq; cbn; unfold reported; cbn; repeat split; auto; try lia.
  - destruct Hto as [-> | [Hin Hle]]; [exists (rc_applied_index c); split; [lia|done]|].
    eapply Forall_forall in Hpend; [|done]. exists (rs_idx to). split; [lia | apply Hpend].
  - exists (rc_applied_index c). split; [lia | done].
Qed.

Lemma core_update_applied_inv c applied u c' :
  core_update_applied c applied = Ok (u, c') -> no_join (rc_applied_index c) applied ->
  core_inv c -> core_inv c'.
Proof.
  intros Hu Hno Hc. destruct (core_update_applied_spec _ _ _ _ Hu Hc) as (Hle & Ha & Hm & _ & Hp & Hs & (i & Hi & Hci) & _).
  split; rewrite ?Ha, ?Hm; auto.
  - eapply covers_mono; [done | lia |]. eapply no_join_sub; [done | lia..].
  - eapply no_join_trans; [apply Hc | done].
Qed.

Lemma keep_alternate_spec {A} (l : list A) : forall keep, sublist (keep_alternate keep l) l.
Proof. induction l as [|x l IH]; intros [|]; cbn; [apply sublist_nil_l.. | | ]; constructor; apply IH. Qed.

Lemma Forall_sublist_of {A} (P : A -> Prop) l k : sublist l k -> Forall P k -> Forall P l.
Proof. intros Hsub Hk. apply Forall_forall. intros x Hx. eapply Forall_forall in Hk; [done|]. by eapply sublist_submseteq, elem_of_submseteq in Hsub. Qed.

Lemma sorted_sublist l k : sublist l k -> pending_sorted k -> pending_sorted l.
Proof.
  induction 1 as [|x l k Hsub IH|x l k Hsub IH]; intros Hs; [constructor|..];
    apply StronglySorted_inv in Hs as [Hs Hf]; [|by apply IH].
  constructor; [by apply IH | by eapply Forall_sublist_of].
Qed.

Lemma sorted_snoc l it : pending_sorted l -> Forall (fun x => rs_idx x < rs_idx it) l -> pending_sorted (l ++ [it]).
Proof.
  induction 1 as [|x l Hs IH Hf]; intros Hl; cbn; [repeat constructor|]. inversion Hl; subst.
  constructor; [by apply IH|]. apply Forall_app. split; [done | by constructor].
Qed.

(** In a sorted list nothing is past the last item. *)
Lemma pending_last l prev : pending_sorted (l ++ [prev]) -> Forall (fun x => rs_idx x < rs_idx prev) l.
Proof.
  induction l as [|x l IH]; cbn; intros Hs; constructor; apply StronglySorted_inv in Hs as [Hs Hf]; [|by apply IH].
  eapply Forall_forall in Hf; [done|]. set_solver.
Qed.

(** Adding an item that is past all others. *)
Lemma push_back_inv capacity c it :
  core_inv c -> rc_applied_index c < rs_idx it -> covers (rs_idx it) (rs_ts it) ->
  Forall (fun x => rs_idx x < rs_idx it) (rc_pending_items c) ->
  core_inv (set_applied c (rc_applied_index c) (rc_read_state c) (core_push_back capacity (rc_pending_items c) it)).
Proof.
  intros [Hread Hok Hs Hmerge] Ha Hc Hf. split; cbn; auto; unfold core_push_back;
    (assert (sublist (if bool_decide (capacity <= length (rc_pending_items c))%nat
                      then keep_alternate false (rc_pending_items c) else rc_pending_items c)
               (rc_pending_items c)) as Hsub by (case_bool_decide; [apply keep_alternate_spec | done])).
  - apply Forall_app. split; [by eapply Forall_sublist_of | by constructor].
  - apply sorted_snoc; [by eapply sorted_sublist | by eapply Forall_sublist_of].
Qed.

Lemma last_snoc_inv {A} (l : list A) x : last l = Some x -> l = take (length l - 1) l ++ [x].
Proof.
  intros Hl. apply last_Some in Hl as [l' ->]. rewrite length_app. cbn.
  replace (length l' + 1 - 1)%nat with (length l') by lia. by rewrite take_app_length.
Qed.

Lemma core_update_safe_ts_inv capacity c idx ts u c' :
  core_update_safe_ts capacity c idx ts = (u, c') -> core_inv c -> covers idx ts ->
  in_order c idx ->
  core_inv c' /\ rc_applied_index c' = rc_applied_index c /\ reported c u c'.
Proof.
  unfold core_update_safe_ts, reported. intros Hu Hinv Hc [Hbase Hord]. pose proof Hinv as [Hread Hpend Hsort Hmerge].
  destruct (Z.ltb_spec idx (rc_last_merge_index c)); [by simplify_eq; auto with lia|].
  destruct (Z.leb_spec idx (rc_applied_index c)).
  { destruct (Z.ltb_spec (rs_ts (rc_read_state c)) ts); simplify_eq; [|by auto with lia].
    split; [|by cbn; auto with lia]. split; cbn; auto. eapply covers_mono; [done..|]. eapply no_join_sub; [done | lia..]. }
  destruct (last (rc_pending_items c)) as [prev|] eqn:El.
  - specialize (Hord prev eq_refl). apply last_snoc_inv in El. set (front := take _ _) in *. rewrite El in Hpend, Hsort.
    pose proof (pending_last _ _ Hsort) as Hfront.
    apply Forall_app in Hpend as [Hpf Hpl]. inversion Hpl as [|? ? [Hpa Hpc] _]; subst.
    destruct (Z.leb_spec ts (rs_ts prev)); [by simplify_eq; auto with lia|].
    destruct (Z.leb_spec idx (rs_idx prev)); simplify_eq; (split; [|by cbn; auto with lia]).
    + split; cbn; auto.
      * apply Forall_app. split; [done|]. constructor; [|constructor]. cbn. split; [done|]. by eapply covers_mono.
      * apply sorted_snoc; [|done]. eapply sorted_sublist; [|exact Hsort]. by apply sublist_inserts_r.
    + apply push_back_inv; cbn; auto. rewrite El. apply Forall_app.
      split; [eapply Forall_impl; [exact Hfront | cbn; lia] | by constructor].
  - apply last_None in El. simplify_eq. split; [|by cbn; auto with lia].
    apply push_back_inv; cbn; auto. rewrite El. constructor.
Qed.

Lemma core_merge_safe_ts_inv c source_safe_ts merge_index u c' :
  core_merge_safe_ts c source_safe_ts merge_index = Ok (u, c') ->
  source_covers (rc_applied_index c) merge_index source_safe_ts -> core_inv c ->
  core_inv c' /\ rc_pause c' = rc_pause c /\
  Z.min source_safe_ts (rs_ts (rc_read_state c)) <= rs_ts (rc_read_state c') /\
  (u = Some (rs_ts (rc_read_state c')) \/ u = None /\ rs_ts (rc_read_state c) <= rs_ts (rc_read_state c')).
Proof.
  unfold core_merge_safe_ts. intros Hm Hsrc Hc.
  destruct (core_update_applied c merge_index) as [[u0 c0]|?|] eqn:E; [|done..]. cbn in Hm.
  destruct (core_update_applied_spec _ _ _ _ E Hc) as (Hle & Ha & _ & Hpause & Hp & Hs & (i & Hi & Hci) & Hrep & _).
  injection Hm as <- <-. cbn. repeat split; cbn; rewrite ?Ha; auto; [ | intros key; lia | lia | ].
  - intros r Hr Hj. destruct (Z.le_gt_cases (joined (cm_key r)) (rc_applied_index c)) as [Hold | Hnew].
    + assert (rs_ts (rc_read_state c0) < cm_ts r); [|lia]. apply Hci; [eapply rows_after_mono, Hr; lia | lia].
    + specialize (Hsrc r Hr Hj). lia.
  - destruct (Z.eqb_spec (Z.min source_safe_ts (rs_ts (rc_read_state c0))) (rs_ts (rc_read_state c0))); cbn; [right | by left].
    split; [done | lia].
Qed.

Lemma store_safe_ts_inv p u c :
  rrp_inv p -> core_inv c -> reported (rp_core p) u c -> rrp_inv (store_safe_ts p u c).
Proof.
  intros (_ & H0 & Hle) Hc [Hup Hu]. split; [done|]. cbn. split; [lia|].
  destruct Hu as [-> | ->]; [destruct (rc_pause c)|]; lia.
Qed.

Lemma update_safe_ts_inv capacity p idx ts :
  covers idx ts -> in_order (rp_core p) idx -> rrp_inv p -> rrp_inv (update_safe_ts capacity p idx ts).
Proof.
  intros Hc Hord Hp. unfold update_safe_ts. case_match; [done|]. case_match; [done|].
  destruct (core_update_safe_ts capacity (rp_core p) idx ts) as [u c] eqn:E.
  destruct (core_update_safe_ts_inv _ _ _ _ _ _ E (proj1 Hp) Hc Hord) as (Hinv & _ & Hrep).
  by apply store_safe_ts_inv.
Qed.

Lemma merge_safe_ts_inv p source_safe_ts merge_index p' :
  merge_safe_ts p source_safe_ts merge_index = Ok p' -> 0 <= source_safe_ts ->
  source_covers (rc_applied_index (rp_core p)) merge_index source_safe_ts ->
  (rc_pause (rp_core p) = true -> rp_safe_ts p = 0) -> rrp_inv p -> rrp_inv p'.
Proof.
  unfold merge_safe_ts. intros Hm Hs Hsrc Hpause (Hc & H0 & Hle).
  destruct (core_merge_safe_ts (rp_core p) source_safe_ts merge_index) as [[u c]|?|] eqn:E; [|done..].
  cbn in Hm. injection Hm as <-.
  destruct (core_merge_safe_ts_inv _ _ _ _ _ E Hsrc Hc) as (Hinv & Hp & Hmin & Hu).
  split; [done|]. cbn. split; [lia|]. rewrite Hp.
  destruct Hu as [-> | [-> ?]]; [|lia]. destruct (rc_pause (rp_core p)) eqn:Ep; [rewrite Hpause by done; lia | lia].
Qed.

Lemma flags_inv p pause discard safe read_index :
  rrp_inv p -> safe <= rs_ts (rc_read_state (rp_core p)) ->
  rrp_inv (mk_rrp (set_flags (rp_core p) pause discard) safe read_index).
Proof. intros ([] & H0 & Hle) Hs. by repeat split. Qed.

Lemma rrp_step_inv p p' : rrp_step p p' -> rrp_inv p -> rrp_inv p'.
Proof.
  intros Hstep Hp. pose proof Hp as (Hc & H0 & Hle).
  destruct Hstep as [p a p' Hu Hno | cap p idx ts Hcov Hord | cap p li Hli | | p peer term ep | p | p | p | p ts].
  - unfold update_applied in Hu. destruct (core_update_applied (rp_core p) a) as [[u c]|?|] eqn:E; [|done..].
    cbn in Hu. injection Hu as <-. apply store_safe_ts_inv; [done | by eapply core_update_applied_inv |].
    by destruct (core_update_applied_spec _ _ _ _ E Hc) as (_ & _ & _ & _ & _ & _ & _ & Hrep).
  - by apply update_safe_ts_inv.
  - cbn. destruct (li_read_state li) as [rs|]; [|done]. destruct (Hli rs eq_refl). by apply update_safe_ts_inv.
  - by eapply merge_safe_ts_inv.
  - destruct Hc. by repeat split.
  - by apply flags_inv.
  - by apply flags_inv.
  - by apply flags_inv.
  - unfold update_read_index_safe_ts. repeat case_match; done.
Qed.

(** ** Stale reads *)

(** Versions above the timestamp do not change what is read. *)
Lemma newer_skip key ts rows : forall best,
  Forall (fun r => cm_key r = key -> ts < cm_ts r) rows -> foldl (newer key ts) best rows = best.
Proof.
  induction rows as [|r rows IH]; intros best Hf; [done|]. apply Forall_cons in Hf as [Hr Hf]. cbn.
  rewrite IH by done. unfold newer. case_bool_decide as Hk; [|done]. cbn.
  specialize (Hr Hk). by destruct (Z.leb_spec (cm_ts r) ts); [lia|].
Qed.

Lemma stale_get_stable applied later key ts :
  covers applied ts -> joined key <= applied -> applied <= later ->
  stale_get later key ts = stale_get applied key ts.
Proof.
  intros Hc Hj Hle. unfold stale_get, rows_upto.
  replace (Z.to_nat later) with (Z.to_nat applied + (Z.to_nat later - Z.to_nat applied))%nat by lia.
  rewrite <- (take_drop (Z.to_nat applied) log) at 1.
  set (n := (Z.to_nat later - Z.to_nat applied)%nat).
  assert (take (Z.to_nat applied + n) log = take (Z.to_nat applied) log ++ take n (drop (Z.to_nat applied) log)) as Et.
  { by rewrite take_take_drop. }
  rewrite take_drop, Et, concat_app, foldl_app. apply newer_skip.
  apply Forall_forall. intros r Hr Hk. apply Hc; [|by rewrite Hk].
  unfold rows_after. rewrite <- (take_drop n (drop _ log)), concat_app. apply elem_of_app. by left.
Qed.

Lemma rtc_rrp_inv p p' : rtc rrp_step p p' -> rrp_inv p -> rrp_inv p'.
Proof. induction 1; eauto using rrp_step_inv. Qed.

Lemma rrp_new_inv region applied is_witness :
  Forall (fun r => 0 < cm_ts r) (concat log) -> no_join base applied -> rrp_inv (rrp_new region applied is_witness).
Proof.
  intros Hpos Hj. repeat split; cbn; auto using Forall_nil; try lia.
  - intros r Hr _. eapply Forall_forall in Hpos; [exact Hpos|].
    rewrite <- (take_drop (Z.to_nat applied) log), concat_app. apply elem_of_app. by right.
  - constructor.
  - constructor.
  - eapply no_join_sub; [done | lia..].
Qed.

(** A replica whose leader only publishes true pairs never serves a wrong
    stale read. Start from a fresh read progress and apply any sequence of its
    operations (log entries applied, pairs received, in any order and with any
    dropped by the bounded queue, merges, pauses, resumptions). A read at a
    timestamp up to [safe_ts] finds in the applied log what it would find in
    the whole log. *)
Theorem stale_read_complete region applied is_witness p key ts later :
  Forall (fun r => 0 < cm_ts r) (concat log) ->
  no_join base applied ->
  rtc rrp_step (rrp_new region applied is_witness) p ->
  ts <= rp_safe_ts p ->
  joined key <= rc_applied_index (rp_core p) -> rc_applied_index (rp_core p) <= later ->
  stale_get later key ts = stale_get (rc_applied_index (rp_core p)) key ts.
Proof.
  intros Hpos Hj0 Hsteps Hts Hjk Hle.
  destruct (rtc_rrp_inv _ _ Hsteps (rrp_new_inv region applied is_witness Hpos Hj0)) as (Hc & _ & Hs).
  apply stale_get_stable; [|done..]. eapply covers_le; [apply Hc | lia].
Qed.
End Promise.

(** ** An example: a pair that comes early, and a merge *)

Definition k1 : bytes := [Byte.x01].
Definition k2 : bytes := [Byte.x02].
Definition sample_log : list (list LogCommit) :=
  [[mk_commit k1 5 [Byte.x05]]; [mk_commit k1 9 [Byte.x09]]; []; []; [mk_commit k2 8 [Byte.x08]; mk_commit k1 12 [Byte.x0c]]].
Definition sample_joined (key : bytes) : Z := if bool_decide (key = k2) then 3 else 0.

Definition sample_pending : RegionReadProgress := update_safe_ts 4 (rrp_new (mk_meta (1, 1) []) 1 false) 2 10.
Definition unwrap_progress (r : res unit RegionReadProgress) : RegionReadProgress :=
  match r with Ok p => p | _ => rrp_new (mk_meta (0, 0) []) 0 true end.
Definition sample_applied : RegionReadProgress := unwrap_progress (update_applied sample_pending 2).
Definition sample_merged : RegionReadProgress := unwrap_progress (merge_safe_ts sample_applied 7 3).

Lemma sample_no_join lo hi : 0 <= lo -> hi < 3 \/ 3 <= lo -> no_join sample_joined lo hi.
Proof. intros ? ? key. unfold sample_joined. case_bool_decide; lia. Qed.

(** Whether a pair is true of the log, evaluated. *)
Lemma sample_covers idx ts :
  forallb (fun r => negb (sample_joined (cm_key r) <=? idx) || (ts <? cm_ts r)) (rows_after sample_log idx) = true ->
  covers sample_log sample_joined idx ts.
Proof.
  intros Hf r Hr Hj. apply Is_true_true, forallb_True in Hf. eapply Forall_forall in Hf; [|done].
  apply Is_true_true in Hf. apply orb_true_iff in Hf as [Hf | Hf]; [|lia].
  apply negb_true_iff in Hf. lia.
Qed.

(** Nothing is safe while the pair waits; the merge lowers what is. *)
Lemma sample_safe_ts :
  rp_safe_ts sample_pending = 0 /\ rp_safe_ts sample_applied = 10 /\ rp_safe_ts sample_merged = 7.
Proof. vm_compute. auto. Qed.

Lemma sample_reached : rtc (rrp_step sample_log sample_joined 0) (rrp_new (mk_meta (1, 1) []) 1 false) sample_merged.
Proof.
  apply rtc_l with sample_pending.
  { apply step_safe_ts; [by apply sample_covers | by split]. }
  apply rtc_l with sample_applied.
  { apply step_applied with 2; [done|]. apply sample_no_join; cbn; lia. }
  apply rtc_once, step_merge with 7 3; [done | lia | | done].
  intros r Hr _ _. repeat (apply elem_of_cons in Hr as [-> | Hr]; [cbn; lia|]). by apply elem_of_nil in Hr.
Qed.

Lemma stale_read_complete_witness :
  stale_get sample_log 5 k1 7 = Some (mk_commit k1 5 [Byte.x05]) /\
  stale_get sample_log 5 k1 7 = stale_get sample_log 3 k1 7.
Proof.
  split; [vm_compute; reflexivity|].
  apply (stale_read_complete sample_log sample_joined 0 (mk_meta (1, 1) []) 1 false sample_merged k1 7 5).
  - repeat constructor; cbn; lia.
  - apply sample_no_join; lia.
  - apply sample_reached.
  - vm_compute. intro H. discriminate H.
  - vm_compute. intro H. discriminate H.
  - vm_compute. intro H. discriminate H.
Defined.

(** Without the order of pairs the merge can be undone. Both pairs are true,
    but the one from before the merge comes while the one from after it waits,
    and lends it its timestamp: the replica then reads at 10 without the
    version at 8 that is yet to come. *)
Lemma delayed_pair_undoes_merge :
  let p := update_safe_ts 4 (update_safe_ts 4 (rrp_new (mk_meta (1, 1) []) 1 false) 4 7) 2 10 in
  let p := unwrap_progress (update_applied (unwrap_progress (merge_safe_ts p 7 3)) 4) in
  covers sample_log sample_joined 4 7 /\ covers sample_log sample_joined 2 10 /\
  rc_applied_index (rp_core p) = 4 /\ rp_safe_ts p = 10 /\
  stale_get sample_log 4 k2 10 = None /\ stale_get sample_log 5 k2 10 = Some (mk_commit k2 8 [Byte.x08]).
Proof. split; [apply sample_covers; reflexivity|]. split; [apply sample_covers; reflexivity|]. vm_compute. auto. Qed.
