(* ===== verification/Resolver.v ===== *)
(** * The resolver of a region
    (components/resolved_ts/src/resolver.rs, components/tikv_util/src/memory.rs)

    The resolver tracks the locks of a region and computes from them the
    resolved timestamp, below which nothing will be committed any more. Locks
    of ordinary transactions are tracked one by one; of a large (pipelined)
    transaction one representative key is, and its minimum commit timestamp is
    looked up in the status cache, which is an argument here. The memory for
    the tracked keys is taken from a quota that all resolvers share, threaded
    here through the operations. Left out are the instants and the shrinking
    of the hash map's allocation. *)
From S2P Require Import Prelude Timestamp.
Local Open Scope Z_scope.

(** ** The memory quota *)

Definition MAX_MEMORY_ALLOC_SIZE : Z := 2 ^ 48.
Definition isize_max : Z := 2 ^ 63 - 1.

(** [isize] arithmetic wraps; [as usize] reinterprets. *)
Definition wrap_isize (z : Z) : Z := (z + 2 ^ 63) mod 2 ^ 64 - 2 ^ 63.
Definition saturate_isize (z : Z) : Z := Z.max (- 2 ^ 63) (Z.min isize_max z).

Record MemoryQuota := mk_quota { mq_in_use : Z; mq_capacity : Z }.

Definition adjust_capacity (capacity : Z) : Z := Z.min capacity isize_max.
Definition quota_new (capacity : Z) : MemoryQuota := mk_quota 0 (adjust_capacity capacity).
Definition quota_set_capacity (q : MemoryQuota) (capacity : Z) : MemoryQuota :=
  mk_quota (mq_in_use q) (adjust_capacity capacity).
Definition quota_in_use (q : MemoryQuota) : Z := Z.max (mq_in_use q) 0.

Definition quota_alloc_force (q : MemoryQuota) (bytes : Z) : MemoryQuota :=
  if MAX_MEMORY_ALLOC_SIZE <? bytes then q else mk_quota (wrap_isize (mq_in_use q + bytes)) (mq_capacity q).

(** The boolean says whether the memory was granted. *)
Definition quota_alloc (q : MemoryQuota) (bytes : Z) : bool * MemoryQuota :=
  let capacity := mq_capacity q in
  let in_use_bytes := mq_in_use q in
  if (wrap64 (saturate_isize (capacity - in_use_bytes)) <? bytes) || (MAX_MEMORY_ALLOC_SIZE <? bytes) then (false, q)
  else
    let added := wrap_isize (in_use_bytes + bytes) in
    if wrap_isize (capacity - in_use_bytes) <? bytes
    then (false, mk_quota (wrap_isize (added - bytes)) capacity)
    else (true, mk_quota added capacity).

Definition quota_free (q : MemoryQuota) (bytes : Z) : MemoryQuota :=
  if MAX_MEMORY_ALLOC_SIZE <? bytes then q
  else
    let new_in_use_bytes := wrap_isize (mq_in_use q - bytes) in
    if new_in_use_bytes <? 0
    then mk_quota (wrap_isize (new_in_use_bytes + Z.min (wrap_isize (- new_in_use_bytes)) bytes)) (mq_capacity q)
    else mk_quota new_in_use_bytes (mq_capacity q).

(** ** The resolver *)

(** [TxnState], as the status cache returns it. *)
Inductive TxnState :=
  | StOngoing (min_commit_ts : TimeStamp)
  | StCommitted (commit_ts : TimeStamp)
  | StRolledBack.

Record TxnLocks := mk_txn_locks { tl_lock_count : Z; tl_sample_lock : option bytes }.

Inductive TsSource := SrcLock (locks : TxnLocks) | SrcMemoryLock (key : bytes) | SrcPdTso | SrcBackupStream | SrcCdc.

Record LastAttempt := mk_attempt { la_success : bool; la_ts : TimeStamp; la_reason : TsSource }.

(** [has_read_progress] says whether pairs are still published. *)
Record Resolver := mk_resolver {
  locks_by_key : gmap bytes TimeStamp;
  lock_ts_heap : gmap TimeStamp TxnLocks;
  large_txns : gmap TimeStamp TxnLocks;
  large_txn_key_representative : gmap bytes TimeStamp;
  resolved_ts : TimeStamp;
  tracked_index : Z;
  has_read_progress : bool;
  r_min_ts : TimeStamp;
  stopped : bool;
  last_attempt : option LastAttempt
}.

Definition resolver_new (read_progress : bool) : Resolver :=
  mk_resolver ∅ ∅ ∅ ∅ ts_zero 0 read_progress ts_zero false None.

Definition set_locks (r : Resolver) (by_key : gmap bytes TimeStamp) (heap : gmap TimeStamp TxnLocks) : Resolver :=
  mk_resolver by_key heap (large_txns r) (large_txn_key_representative r) (resolved_ts r) (tracked_index r)
    (has_read_progress r) (r_min_ts r) (stopped r) (last_attempt r).
Definition set_large (r : Resolver) (txns : gmap TimeStamp TxnLocks) (keys : gmap bytes TimeStamp) : Resolver :=
  mk_resolver (locks_by_key r) (lock_ts_heap r) txns keys (resolved_ts r) (tracked_index r)
    (has_read_progress r) (r_min_ts r) (stopped r) (last_attempt r).
Definition set_index (r : Resolver) (index : Z) : Resolver :=
  mk_resolver (locks_by_key r) (lock_ts_heap r) (large_txns r) (large_txn_key_representative r) (resolved_ts r) index
    (has_read_progress r) (r_min_ts r) (stopped r) (last_attempt r).
Definition set_resolved (r : Resolver) (ts min_ts : TimeStamp) (attempt : LastAttempt) : Resolver :=
  mk_resolver (locks_by_key r) (lock_ts_heap r) (large_txns r) (large_txn_key_representative r) ts (tracked_index r)
    (has_read_progress r) min_ts (stopped r) (Some attempt).

Definition stop_tracking (r : Resolver) : Resolver :=
  mk_resolver (locks_by_key r) (lock_ts_heap r) (large_txns r) (large_txn_key_representative r) (resolved_ts r)
    (tracked_index r) false (r_min_ts r) true (last_attempt r).

(** The error comes with the state that is left. *)
Inductive MemoryQuotaExceeded := QuotaExceeded (q : MemoryQuota) (r : Resolver).
Abbreviation rres := (res MemoryQuotaExceeded).

Definition update_tracked_index (r : Resolver) (index : Z) : rres Resolver :=
  rassert (tracked_index r <=? index) (Ok (set_index r index)).

(** Operations that take the log index of the row as an option. *)
Definition update_index_opt (r : Resolver) (index : option Z) : rres Resolver :=
  match index with Some index => update_tracked_index r index | None => Ok r end.

(** A [TimeStamp] has eight bytes. *)
Definition lock_heap_size (key : bytes) : Z := Z.of_nat (length key) + 8.

(** The counts are [usize]. *)
Definition inc_locks (t : TxnLocks) : TxnLocks := mk_txn_locks (wrap64 (tl_lock_count t + 1)) (tl_sample_lock t).
Definition dec_locks (t : TxnLocks) : TxnLocks :=
  mk_txn_locks (if 0 <? tl_lock_count t then tl_lock_count t - 1 else tl_lock_count t) (tl_sample_lock t).

Definition track_normal_lock (q : MemoryQuota) (r : Resolver) (start_ts : TimeStamp) (key : bytes) : rres (MemoryQuota * Resolver) :=
  let bytes := lock_heap_size key in
  match quota_alloc q bytes with
  | (false, q) => Err (QuotaExceeded q r)
  | (true, q) =>
      match locks_by_key r !! key with
      | Some _ => Ok (quota_free q bytes, r)
      | None =>
          let txn_locks := default (mk_txn_locks 0 (Some key)) (lock_ts_heap r !! start_ts) in
          Ok (q, set_locks r (<[key := start_ts]> (locks_by_key r)) (<[start_ts := inc_locks txn_locks]> (lock_ts_heap r)))
      end
  end.

Definition track_large_txn_lock (r : Resolver) (start_ts : TimeStamp) (key : bytes) : Resolver :=
  match large_txns r !! start_ts with
  | Some entry => set_large r (<[start_ts := inc_locks entry]> (large_txns r)) (large_txn_key_representative r)
  | None =>
      set_large r (<[start_ts := mk_txn_locks 1 (Some key)]> (large_txns r))
        (<[key := start_ts]> (large_txn_key_representative r))
  end.

Definition track_lock (q : MemoryQuota) (r : Resolver) (start_ts : TimeStamp) (key : bytes) (index : option Z) (generation : Z) : rres (MemoryQuota * Resolver) :=
  r ← update_index_opt r index;
  if generation =? 0 then track_normal_lock q r start_ts key
  else Ok (q, track_large_txn_lock r start_ts key).

(** [debug_assert] is not compiled in a release. *)
Definition untrack_lock (q : MemoryQuota) (r : Resolver) (key : bytes) (index : option Z) : rres (MemoryQuota * Resolver) :=
  r ← update_index_opt r index;
  match locks_by_key r !! key with
  | Some start_ts =>
      let heap :=
        match lock_ts_heap r !! start_ts with
        | Some txn_locks =>
            let txn_locks := dec_locks txn_locks in
            if tl_lock_count txn_locks =? 0 then delete start_ts (lock_ts_heap r)
            else <[start_ts := txn_locks]> (lock_ts_heap r)
        | None => lock_ts_heap r
        end in
      Ok (quota_free q (lock_heap_size key), set_locks r (delete key (locks_by_key r)) heap)
  | None =>
      match large_txn_key_representative r !! key with
      | Some start_ts => Ok (q, set_large r (delete start_ts (large_txns r)) (delete key (large_txn_key_representative r)))
      | None => Ok (q, r)
      end
  end.

(** When the resolver goes away it gives its memory back. *)
Definition locks_size (locks : gmap bytes TimeStamp) : Z :=
  map_fold (fun key _ total => lock_heap_size key + total) 0 locks.
Definition resolver_drop (q : MemoryQuota) (r : Resolver) : MemoryQuota := quota_free q (locks_size (locks_by_key r)).

(** ** Resolving *)

(** The entry with the smallest timestamp, the first of those in list order. *)
Definition pick_min (best : option (TimeStamp * TxnLocks)) (e : TimeStamp * TxnLocks) : option (TimeStamp * TxnLocks) :=
  match best with
  | Some b => if e.1 <? b.1 then Some e else best
  | None => Some e
  end.
Definition min_entry (l : list (TimeStamp * TxnLocks)) : option (TimeStamp * TxnLocks) := foldl pick_min None l.

Section StatusCache.
(** [TxnStatusCache::get] *)
Variable cache_get : TimeStamp -> option TxnState.

Definition lookup_min_commit_ts (start_ts : TimeStamp) : option TimeStamp :=
  match cache_get start_ts with
  | None => Some start_ts
  | Some (StOngoing min_commit_ts) => Some min_commit_ts
  | Some (StCommitted _) | Some StRolledBack => None
  end.

(** The hash map is read in some order; among equal timestamps the order only
    decides which locks are reported. *)
Fixpoint large_candidates (l : list (TimeStamp * TxnLocks)) : rres (list (TimeStamp * TxnLocks)) :=
  match l with
  | [] => Ok []
  | (start_ts, txn_locks) :: l =>
      match lookup_min_commit_ts start_ts with
      | Some ts => ts ← ts_prev ts; rest ← large_candidates l; Ok ((ts, txn_locks) :: rest)
      | None => large_candidates l
      end
  end.

Definition oldest_transaction (r : Resolver) : rres (option (TimeStamp * TxnLocks)) :=
  let oldest_normal_txn := min_entry (map_to_list (lock_ts_heap r)) in
  candidates ← large_candidates (map_to_list (large_txns r));
  let oldest_large_txn := min_entry candidates in
  Ok (match oldest_normal_txn, oldest_large_txn with
      | Some (ts1, txn_locks1), Some (ts2, txn_locks2) =>
          if ts1 <? ts2 then Some (ts1, txn_locks1) else Some (ts2, txn_locks2)
      | Some x, None => Some x
      | None, Some x => Some x
      | None, None => None
      end).

(** The result also has the pair that is handed to the read progress. *)
Definition resolve (r : Resolver) (min_ts : TimeStamp) (source : TsSource) : rres (TimeStamp * option (Z * TimeStamp) * Resolver) :=
  if stopped r then Ok (resolved_ts r, None, r)
  else
    min_lock ← oldest_transaction r;
    let has_lock := bool_decide (is_Some min_lock) in
    let min_txn_ts := match min_lock with Some (ts, _) => ts | None => min_ts end in
    let new_resolved_ts := Z.min min_txn_ts min_ts in
    let reason := match min_lock with
                  | Some (lock_ts, txn_locks) => if lock_ts <? min_ts then SrcLock txn_locks else source
                  | None => source
                  end in
    let attempt := mk_attempt (negb (new_resolved_ts <=? resolved_ts r)) new_resolved_ts reason in
    let resolved := Z.max (resolved_ts r) new_resolved_ts in
    let published := if has_read_progress r then Some (tracked_index r, resolved) else None in
    let new_min_ts := if has_lock then new_resolved_ts else min_ts in
    Ok (resolved, published, set_resolved r resolved (Z.max (r_min_ts r) new_min_ts) attempt).
End StatusCache.

(** [num_locks] and [num_transactions], for the metrics. *)
Definition num_locks (r : Resolver) : Z :=
  wrap64 (Z.of_nat (size (locks_by_key r)) + map_fold (fun _ l total => tl_lock_count l + total) 0 (large_txns r)).
Definition num_transactions (r : Resolver) : Z :=
  wrap64 (Z.of_nat (size (lock_ts_heap r)) + Z.of_nat (size (large_txns r))).

(** ** The quota is respected *)

Definition quota_wf (q : MemoryQuota) : Prop := 0 <= mq_in_use q <= isize_max /\ 0 <= mq_capacity q <= isize_max.

Lemma wrap_isize_small z : - 2 ^ 63 <= z < 2 ^ 63 -> wrap_isize z = z.
Proof. intros H. unfold wrap_isize. rewrite Z.mod_small; lia. Qed.

Lemma wrap64_neg z : - 2 ^ 63 <= z < 0 -> wrap64 z = z + 2 ^ 64.
Proof. intros H. unfold wrap64. rewrite <- (Z.mod_add z 1) by lia. apply Z.mod_small. lia. Qed.

(** Memory is granted exactly when it fits, and nothing changes otherwise. *)
Lemma quota_alloc_spec q bytes :
  quota_wf q -> 0 <= bytes ->
  quota_alloc q bytes =
    if bool_decide (mq_in_use q + bytes <= mq_capacity q /\ bytes <= MAX_MEMORY_ALLOC_SIZE)
    then (true, mk_quota (mq_in_use q + bytes) (mq_capacity q)) else (false, q).
Proof.
  destruct q as [u c]. unfold quota_wf, quota_alloc, saturate_isize, isize_max, MAX_MEMORY_ALLOC_SIZE. cbn [mq_in_use mq_capacity].
  intros [Hu Hc] Hb. rewrite Z.min_r, Z.max_r, (wrap_isize_small (c - u)) by lia.
  destruct (Z.lt_ge_cases (c - u) 0) as [Hneg | Hpos].
  - rewrite wrap64_neg by lia. rewrite bool_decide_eq_false_2 by lia.
    destruct (Z.ltb_spec (c - u + 2 ^ 64) bytes), (Z.ltb_spec (2 ^ 48) bytes); try done. cbn.
    destruct (Z.ltb_spec (c - u) bytes); [|lia].
    f_equal. f_equal. unfold wrap_isize at 1. unfold wrap_isize.
    replace (((u + bytes + 2 ^ 63) mod 2 ^ 64 - 2 ^ 63 - bytes + 2 ^ 63)) with ((u + bytes + 2 ^ 63) mod 2 ^ 64 - bytes) by lia.
    rewrite Zminus_mod_idemp_l. rewrite Z.mod_small; lia.
  - rewrite wrap64_small by (unfold is_u64; lia).
    destruct (Z.ltb_spec (c - u) bytes), (Z.ltb_spec (2 ^ 48) bytes); cbn; case_bool_decide; try lia; try done.
    by rewrite wrap_isize_small by lia.
Qed.

(** Freeing what was granted gives it back. *)
Lemma quota_free_spec q bytes :
  quota_wf q -> 0 <= bytes <= mq_in_use q -> bytes <= MAX_MEMORY_ALLOC_SIZE ->
  quota_free q bytes = mk_quota (mq_in_use q - bytes) (mq_capacity q).
Proof.
  destruct q as [u c]. unfold quota_wf, quota_free, isize_max, MAX_MEMORY_ALLOC_SIZE. cbn [mq_in_use mq_capacity]. intros [Hu Hc] Hb Hmax.
  rewrite wrap_isize_small by lia. destruct (Z.ltb_spec (2 ^ 48) bytes), (Z.ltb_spec (u - bytes) 0); try lia; done.
Qed.

(** ** The heap and the quota agree with the tracked locks *)

Definition locks_of (by_key : gmap bytes TimeStamp) (ts : TimeStamp) : gmap bytes TimeStamp :=
  filter (fun kv => kv.2 = ts) by_key.

Definition heap_exact (by_key : gmap bytes TimeStamp) (heap : gmap TimeStamp TxnLocks) : Prop :=
  forall ts, match heap !! ts with
             | Some tl => tl_lock_count tl = Z.of_nat (size (locks_of by_key ts)) /\ 0 < tl_lock_count tl
             | None => locks_of by_key ts = ∅
             end.

(** Every tracked key was granted its memory. *)
Record resolver_inv (q : MemoryQuota) (r : Resolver) : Prop := mk_resolver_inv {
  ri_heap : heap_exact (locks_by_key r) (lock_ts_heap r);
  ri_quota : quota_wf q;
  ri_granted : locks_size (locks_by_key r) <= mq_in_use q;
  ri_keys : map_Forall (fun key _ => lock_heap_size key <= MAX_MEMORY_ALLOC_SIZE) (locks_by_key r)
}.

Lemma lock_heap_size_pos key : 8 <= lock_heap_size key.
Proof. unfold lock_heap_size. lia. Qed.

Lemma locks_size_insert m key ts :
  m !! key = None -> locks_size (<[key := ts]> m) = lock_heap_size key + locks_size m.
Proof. intros Hm. unfold locks_size. rewrite map_fold_insert_L; [done | intros; lia | done]. Qed.

Lemma locks_size_delete m key ts :
  m !! key = Some ts -> locks_size m = lock_heap_size key + locks_size (delete key m).
Proof. intros Hm. rewrite <- (insert_delete_id m key ts Hm) at 1. apply locks_size_insert, lookup_delete_eq. Qed.

Lemma locks_size_bound m : 8 * Z.of_nat (size m) <= locks_size m.
Proof.
  induction m as [|key ts m Hm IH] using map_ind; [done|].
  rewrite map_size_insert_None, locks_size_insert by done. pose proof (lock_heap_size_pos key). lia.
Qed.

Lemma locks_of_insert m key s ts :
  m !! key = None ->
  locks_of (<[key := s]> m) ts = if decide (s = ts) then <[key := s]> (locks_of m ts) else locks_of m ts.
Proof.
  intros Hm. unfold locks_of. destruct (decide (s = ts)) as [-> | Hne].
  - by rewrite map_filter_insert_True.
  - rewrite map_filter_insert_False by done. by rewrite delete_id.
Qed.

Lemma locks_of_fresh m key ts : m !! key = None -> locks_of m ts !! key = None.
Proof. intros Hm. apply map_lookup_filter_None. by left. Qed.

(** Tracking a new key counts it. *)
Lemma heap_exact_insert m heap key s :
  heap_exact m heap -> m !! key = None -> Z.of_nat (size m) < u64_max ->
  heap_exact (<[key := s]> m) (<[s := inc_locks (default (mk_txn_locks 0 (Some key)) (heap !! s))]> heap).
Proof.
  intros Hh Hm Hsz ts. specialize (Hh ts). rewrite locks_of_insert by done.
  destruct (decide (s = ts)) as [-> | Hne]; [|by rewrite lookup_insert_ne].
  rewrite lookup_insert_eq, map_size_insert_None by (by apply locks_of_fresh).
  assert (size (locks_of m ts) <= size m)%nat as Hle by (apply map_subseteq_size, map_filter_subseteq).
  assert (tl_lock_count (default (mk_txn_locks 0 (Some key)) (heap !! ts)) = Z.of_nat (size (locks_of m ts))) as Hcnt.
  { destruct (heap !! ts) as [tl|]; [apply Hh|]. by rewrite Hh, map_size_empty. }
  unfold inc_locks. cbn. rewrite Hcnt, wrap64_small by u64_lia. lia.
Qed.

(** Untracking a key takes it off the count, and the last one the entry. *)
Lemma heap_exact_delete m heap key s :
  heap_exact m heap -> m !! key = Some s ->
  heap_exact (delete key m)
    (match heap !! s with
     | Some tl => if tl_lock_count (dec_locks tl) =? 0 then delete s heap else <[s := dec_locks tl]> heap
     | None => heap
     end).
Proof.
  intros Hh Hm ts.
  assert (locks_of m s !! key = Some s) as Hin by (by apply map_lookup_filter_Some).
  pose proof (Hh s) as Hs. pose proof (Hh ts) as Hts.
  unfold locks_of. rewrite map_filter_delete. fold (locks_of m ts).
  destruct (heap !! s) as [tl|] eqn:Etl; [|by rewrite Hs in Hin].
  destruct Hs as [Hcnt Hpos]. unfold dec_locks at 1. cbn.
  destruct (Z.ltb_spec 0 (tl_lock_count tl)); [|lia].
  destruct (decide (ts = s)) as [-> | Hne].
  - pose proof (map_size_delete key (locks_of m s)) as Hsz. rewrite Hin in Hsz.
    assert (size (locks_of m s) <> 0)%nat as Hnz.
    { intros E. apply map_size_empty_iff in E. by rewrite E in Hin. }
    destruct (Z.eqb_spec (tl_lock_count tl - 1) 0).
    + rewrite lookup_delete_eq. apply map_size_empty_iff. lia.
    + rewrite lookup_insert_eq. unfold dec_locks. cbn. destruct (Z.ltb_spec 0 (tl_lock_count tl)); [|lia]. lia.
  - rewrite (delete_id (locks_of m ts)).
    2:{ apply map_lookup_filter_None. right. intros x Hx ?. cbn in *. congruence. }
    destruct (tl_lock_count tl - 1 =? 0); [by rewrite lookup_delete_ne | by rewrite lookup_insert_ne].
Qed.

Lemma update_index_same r index r' :
  update_index_opt r index = Ok r' -> locks_by_key r' = locks_by_key r /\ lock_ts_heap r' = lock_ts_heap r.
Proof.
  destruct index as [i|]; cbn; [|by intros [= <-]]. unfold update_tracked_index, rassert.
  destruct (tracked_index r <=? i); [|done]. by intros [= <-].
Qed.

(** What a tracking of an ordinary lock leaves, and that it keeps the
    invariant. *)
Lemma track_normal_lock_spec q r s key q' r' :
  track_normal_lock q r s key = Ok (q', r') -> resolver_inv q r ->
  resolver_inv q' r' /\
  locks_by_key r' = (match locks_by_key r !! key with Some _ => locks_by_key r | None => <[key := s]> (locks_by_key r) end) /\
  mq_in_use q' - mq_in_use q = locks_size (locks_by_key r') - locks_size (locks_by_key r).
Proof.
  unfold track_normal_lock. intros Ht [Hheap Hq Hg Hk].
  pose proof (lock_heap_size_pos key) as Hpos. pose proof (locks_size_bound (locks_by_key r)) as Hbound.
  rewrite quota_alloc_spec in Ht by (done || lia). case_bool_decide as Hfit; [|done]. destruct Hfit as [Hfit Hmax].
  pose proof Hq as [Hu Hc].
  destruct (locks_by_key r !! key) as [s0|] eqn:Ek.
  - rewrite quota_free_spec in Ht by (cbn; unfold quota_wf; cbn; lia). injection Ht as <- <-. cbn.
    split; [|split; [done | lia]]. replace (mq_in_use q + lock_heap_size key - lock_heap_size key) with (mq_in_use q) by lia.
    by destruct q.
  - injection Ht as <- <-. cbn. rewrite locks_size_insert by done. split; [|split; [done | lia]].
    split; cbn; [apply heap_exact_insert; [done..|] | unfold quota_wf; cbn; lia | rewrite locks_size_insert by done; lia |].
    + unfold u64_max, isize_max in *. lia.
    + by apply map_Forall_insert_2.
Qed.

(** Untracking drops the key, or the large transaction it stands for. *)
Lemma untrack_lock_spec q r key index q' r' :
  untrack_lock q r key index = Ok (q', r') -> resolver_inv q r ->
  resolver_inv q' r' /\ locks_by_key r' = delete key (locks_by_key r) /\
  mq_in_use q' - mq_in_use q = locks_size (locks_by_key r') - locks_size (locks_by_key r).
Proof.
  unfold untrack_lock. intros Hu Hinv. destruct (update_index_opt r index) as [r0|?|] eqn:Ei; [|done..].
  destruct (update_index_same _ _ _ Ei) as (E1 & E2). rewrite <- E1. cbn in Hu.
  assert (resolver_inv q r0) as [Hheap Hq Hg Hk] by (destruct Hinv; split; rewrite ?E1, ?E2; done). clear Hinv.
  destruct (locks_by_key r0 !! key) as [s|] eqn:Ek.
  - pose proof (locks_size_delete _ _ _ Ek) as Hsz. pose proof (lock_heap_size_pos key) as Hpos.
    pose proof (locks_size_bound (delete key (locks_by_key r0))) as Hb.
    rewrite quota_free_spec in Hu; [|done | lia | exact (Hk _ _ Ek)]. injection Hu as <- <-. cbn.
    split; [|split; [done | lia]]. destruct Hq.
    split; cbn; [by apply heap_exact_delete | unfold quota_wf; cbn; lia | lia | by apply map_Forall_delete].
  - destruct (large_txn_key_representative r0 !! key); injection Hu as <- <-; cbn; rewrite (delete_id (locks_by_key r0)) by done;
      (split; [by split | split; [done | lia]]).
Qed.

Lemma track_lock_spec q r s key index generation q' r' :
  track_lock q r s key index generation = Ok (q', r') -> resolver_inv q r ->
  resolver_inv q' r' /\
  locks_by_key r' =
    (if generation =? 0
     then match locks_by_key r !! key with Some _ => locks_by_key r | None => <[key := s]> (locks_by_key r) end
     else locks_by_key r) /\
  mq_in_use q' - mq_in_use q = locks_size (locks_by_key r') - locks_size (locks_by_key r).
Proof.
  unfold track_lock. intros Hu Hinv. destruct (update_index_opt r index) as [r0|?|] eqn:Ei; [|done..].
  destruct (update_index_same _ _ _ Ei) as (E1 & E2). rewrite <- E1. cbn in Hu.
  assert (resolver_inv q r0) as Hinv0 by (destruct Hinv; split; rewrite ?E1, ?E2; done). clear Hinv.
  destruct (generation =? 0); [by eapply track_normal_lock_spec|]. injection Hu as <- <-.
  destruct Hinv0. unfold track_large_txn_lock. destruct (large_txns r0 !! s); cbn; (split; [by split | split; [done | lia]]).
Qed.

(** ** What is resolved *)

Lemma min_entry_spec l : forall best,
  match foldl pick_min best l with
  | Some b => (best = Some b \/ b ∈ l) /\ (forall e, best = Some e \/ e ∈ l -> b.1 <= e.1)
  | None => best = None /\ l = []
  end.
Proof.
  induction l as [|x l IH]; intros best; cbn [foldl].
  - destruct best as [b|]; [|done]. split; [by left|]. intros e [[= ->]|He]; [lia|]. by apply elem_of_nil in He.
  - specialize (IH (pick_min best x)).
    assert (exists y, pick_min best x = Some y /\ (best = Some y \/ y = x) /\ y.1 <= x.1 /\ (forall e, best = Some e -> y.1 <= e.1))
      as (y & Ey & Hy & Hyx & Hyb).
    { unfold pick_min. destruct best as [b|]; [destruct (Z.ltb_spec x.1 b.1)|]; eexists; (split; [done|]); repeat split; auto; try lia;
        intros ? [= <-]; lia. }
    rewrite Ey in IH. rewrite Ey. destruct (foldl pick_min (Some y) l) as [b|]; [|by destruct IH].
    destruct IH as [Hb Hmin]. split.
    + destruct Hb as [[= <-] | Hb]; [|right; set_solver]. destruct Hy as [Hy | ->]; [by left | right; set_solver].
    + intros e He. pose proof (Hmin y (or_introl eq_refl)). destruct He as [He | He]; [specialize (Hyb _ He); lia|].
      apply elem_of_cons in He as [-> | He]; [lia | apply Hmin; by right].
Qed.

(** The oldest transaction is no younger than any tracked lock. *)
Lemma oldest_transaction_le cache r q o key s :
  oldest_transaction cache r = Ok o -> resolver_inv q r -> locks_by_key r !! key = Some s ->
  exists ts tl, o = Some (ts, tl) /\ ts <= s.
Proof.
  unfold oldest_transaction. intros Ho [Hheap _ _ _] Hk.
  destruct (large_candidates cache _) as [l|?|] eqn:El; [|done..]. cbn in Ho. injection Ho as <-.
  pose proof (min_entry_spec (map_to_list (lock_ts_heap r)) None) as Hn. fold (min_entry (map_to_list (lock_ts_heap r))) in Hn.
  specialize (Hheap s). destruct (lock_ts_heap r !! s) as [tl|] eqn:Es.
  2:{ assert (locks_of (locks_by_key r) s !! key = Some s) as Hin by (by apply map_lookup_filter_Some). by rewrite Hheap in Hin. }
  assert ((s, tl) ∈ map_to_list (lock_ts_heap r)) as Hin by (by apply elem_of_map_to_list).
  destruct (min_entry (map_to_list (lock_ts_heap r))) as [[ts1 tl1]|].
  2:{ destruct Hn as [_ Hn]. rewrite Hn in Hin. by apply elem_of_nil in Hin. }
  destruct Hn as [_ Hn]. specialize (Hn _ (or_intror Hin)). cbn in Hn.
  destruct (min_entry l) as [[ts2 tl2]|]; [destruct (Z.ltb_spec ts1 ts2)|]; eexists _, _; (split; [done | lia]).
Qed.

(** Resolving leaves the locks alone, never goes back, and passes neither the
    given timestamp nor the start of a tracked lock. *)
Record resolves_to (r : Resolver) (min_ts t : TimeStamp) (published : option (Z * TimeStamp)) (r' : Resolver) : Prop := mk_resolves {
  rv_ts : resolved_ts r' = t;
  rv_mono : resolved_ts r <= t;
  rv_min : t <= Z.max (resolved_ts r) min_ts;
  rv_locks : forall key s, locks_by_key r !! key = Some s -> t <= Z.max (resolved_ts r) s;
  rv_published : published = if has_read_progress r then Some (tracked_index r, t) else None;
  rv_by_key : locks_by_key r' = locks_by_key r;
  rv_heap : lock_ts_heap r' = lock_ts_heap r;
  rv_index : tracked_index r' = tracked_index r
}.

Lemma resolve_spec cache r q min_ts source t published r' :
  resolve cache r min_ts source = Ok (t, published, r') -> resolver_inv q r ->
  if stopped r then t = resolved_ts r /\ published = None /\ r' = r else resolves_to r min_ts t published r'.
Proof.
  unfold resolve. intros Hr Hinv. destruct (stopped r); [by simplify_eq|].
  destruct (oldest_transaction cache r) as [o|?|] eqn:Eo; [|done..]. cbn in Hr. injection Hr as <- <- <-.
  split; cbn; try done; try lia.
  intros key s Hk. destruct (oldest_transaction_le _ _ _ _ _ _ Eo Hinv Hk) as (ts & tl & -> & Hle). lia.
Qed.

(** With nothing locked the given timestamp is reached. *)
Lemma resolve_unlocked cache r min_ts source :
  stopped r = false -> lock_ts_heap r = ∅ -> large_txns r = ∅ ->
  exists published r', resolve cache r min_ts source = Ok (Z.max (resolved_ts r) min_ts, published, r').
Proof.
  intros Hs Hh Hl. unfold resolve, oldest_transaction. rewrite Hs, Hh, Hl, !map_to_list_empty. cbn.
  rewrite Z.min_id. eauto.
Qed.
