(* ===== verification/ChangeLog.v ===== *)
(** * From raft commands to rows (components/resolved_ts/src/cmd.rs)

    The requests of an applied command are grouped by key, and each key gives
    at most one row: a lock that appears, a lock that goes away, or a one-phase
    commit. [encode_rows] walks a hash map; the order is an argument. *)
From Stdlib Require Import String.
From S2P Require Import Prelude Number Bytes Timestamp Key Fields Lock Write OrderedMap PeerLocks Engine.
Local Open Scope Z_scope.

(** ** Requests *)

Definition cf_str (c : CfName) : string :=
  match c with CF_DEFAULT => "default" | CF_LOCK => "lock" | CF_WRITE => "write" end%string.

(** Requests of other types carry nothing that is read. *)
Inductive Request :=
  | ReqPut (cf : string) (key : bytes) (value : Value)
  | ReqDelete (cf : string) (key : bytes)
  | ReqIngestSst
  | ReqOther.

(** [impl From<Modify> for raft_cmdpb::Request]: the default column family has
    no name. *)
Definition request_cf (c : CfName) : string := if decide (c = CF_DEFAULT) then EmptyString else cf_str c.
Definition request_of (m : Modify) : Request :=
  match m with
  | ModifyDelete c k => ReqDelete (request_cf c) k
  | ModifyPut c k v => ReqPut (request_cf c) k v
  | ModifyPessimisticLock k lock => ReqPut (cf_str CF_LOCK) k (lock_to_bytes (pl_to_lock lock))
  | ModifyDeleteRange _ _ _ _ => ReqOther
  | ModifyIngest => ReqIngestSst
  end.

(** ** Grouping *)

Inductive KeyOp := OpPutKey (ts : option TimeStamp) (value : Value) | OpDeleteKey.

Record RowChange := mk_row { rc_write : option KeyOp; rc_lock : option KeyOp; rc_default : option KeyOp }.
Definition row_default : RowChange := mk_row None None None.
Definition row_set_write (row : RowChange) (op : KeyOp) : RowChange := mk_row (Some op) (rc_lock row) (rc_default row).
Definition row_set_lock (row : RowChange) (op : KeyOp) : RowChange := mk_row (rc_write row) (Some op) (rc_default row).
Definition row_set_default (row : RowChange) (op : KeyOp) : RowChange := mk_row (rc_write row) (rc_lock row) (Some op).

(** The rows, the values that wait for one, and whether a file is ingested. *)
Record Grouped := mk_grouped {
  g_changes : gmap Key RowChange;
  g_unmatched : gmap Key KeyOp;
  g_ingest : bool
}.

(** Nothing returns an error here. *)
Abbreviation cl := (res unit).

Definition unwrap {E A} (r : res E A) : cl A := match r with Ok a => Ok a | _ => Panic end.

Definition set_changes (g : Grouped) (changes : gmap Key RowChange) : Grouped := mk_grouped changes (g_unmatched g) (g_ingest g).

Definition row_at (g : Grouped) (key : Key) : RowChange := default row_default (g_changes g !! key).

Definition group_put (g : Grouped) (cf : string) (key : Key) (value : Value) : cl Grouped :=
  if String.eqb cf (cf_str CF_WRITE) then
    match decode_ts_from key with
    | Ok ts =>
        key ← unwrap (truncate_ts key);
        let row := row_at g key in
        rassert (bool_decide (rc_write row = None))
          (Ok (set_changes g (<[key := row_set_write row (OpPutKey (Some ts) value)]> (g_changes g))))
    | _ => Ok g
    end
  else if String.eqb cf (cf_str CF_LOCK) then
    let row := row_at g key in
    rassert (bool_decide (rc_lock row = None))
      (Ok (set_changes g (<[key := row_set_lock row (OpPutKey None value)]> (g_changes g))))
  else if String.eqb cf EmptyString || String.eqb cf (cf_str CF_DEFAULT) then
    match decode_ts_from key with
    | Ok ts =>
        key ← unwrap (truncate_ts key);
        Ok (mk_grouped (g_changes g) (<[key := OpPutKey (Some ts) value]> (g_unmatched g)) (g_ingest g))
    | _ => Ok g
    end
  else Ok g.

Definition group_delete (g : Grouped) (cf : string) (key : Key) : Grouped :=
  if String.eqb cf (cf_str CF_LOCK)
  then set_changes g (<[key := row_set_lock (row_at g key) OpDeleteKey]> (g_changes g))
  else g.

Definition group_request (g : Grouped) (req : Request) : cl Grouped :=
  match req with
  | ReqIngestSst => Ok (mk_grouped (g_changes g) (g_unmatched g) true)
  | ReqPut cf key value => group_put g cf key value
  | ReqDelete cf key => Ok (group_delete g cf key)
  | ReqOther => Ok g
  end.

Fixpoint group_requests (g : Grouped) (requests : list Request) : cl Grouped :=
  match requests with
  | [] => Ok g
  | req :: requests => g ← group_request g req; group_requests g requests
  end.

(** Values only go to rows there are. *)
Definition match_defaults (g : Grouped) : gmap Key RowChange :=
  map_imap (fun key row => Some (match g_unmatched g !! key with Some d => row_set_default row d | None => row end)) (g_changes g).

Definition group_row_changes (requests : list Request) : cl (gmap Key RowChange * bool) :=
  g ← group_requests (mk_grouped ∅ ∅ false) requests;
  Ok (match_defaults g, g_ingest g).

(** ** Rows *)

Inductive ChangeRow :=
  | RowPrewrite (key : Key) (start_ts : TimeStamp) (lock_type : LockType) (value : option Value) (generation : Z)
  | RowCommit (key : Key) (write_type : WriteType) (start_ts commit_ts : option TimeStamp)
  | RowOnePc (key : Key) (write_type : WriteType) (commit_ts : TimeStamp) (value : option Value)
  | RowIngestSst.

Definition decode_write (value : bytes) (is_apply : bool) : cl (option Write) :=
  match write_parse value with
  | Ok write =>
      if is_apply && bool_decide (is_Some (write_gc_fence write)) then
        rassert (write_has_overlapped_rollback write)
          (rassert (negb (bool_decide (write_type write = WTRollback))) (Ok None))
      else
        match write_type write with
        | WTPut | WTDelete | WTRollback => Ok (Some write)
        | WTLock => Ok None
        end
  | Err _ => Ok None
  | Panic => Panic
  end.

Definition decode_lock (value : bytes) : cl (option Lock) :=
  match lock_parse value with
  | Ok lock =>
      match lock_type lock with
      | LTPut | LTDelete => Ok (Some lock)
      | LTLock | LTPessimistic => Ok None
      end
  | Err _ => Ok None
  | Panic => Panic
  end.

(** [default.map_or(short_value, |v| Some(v.into_put().1))] *)
Definition row_value (default : option KeyOp) (short_value : option Value) : cl (option Value) :=
  match default with
  | None => Ok short_value
  | Some (OpPutKey _ v) => Ok (Some v)
  | Some OpDeleteKey => Panic
  end.

Definition encode_row (is_one_pc : bool) (key : Key) (row : RowChange) : cl (option ChangeRow) :=
  match rc_write row, rc_lock row with
  | Some (OpPutKey commit_ts write), _ =>
      write ← decode_write write true;
      match write with
      | None => Ok None
      | Some write =>
          value ← row_value (rc_default row) (write_short_value write);
          if is_one_pc then Ok (Some (RowOnePc key (write_type write) (default 0 commit_ts) value))
          else
            let commit_ts := if decide (write_type write = WTRollback) then None else commit_ts in
            Ok (Some (RowCommit key (write_type write) (Some (write_start_ts write)) commit_ts))
      end
  | None, Some (OpPutKey _ lock) =>
      lock ← decode_lock lock;
      match lock with
      | None => Ok None
      | Some lock =>
          value ← row_value (rc_default row) (lock_short_value lock);
          Ok (Some (RowPrewrite key (lock_ts lock) (lock_type lock) value (lock_generation lock)))
      end
  | None, Some OpDeleteKey => Ok (Some (RowCommit key WTRollback None None))
  | _, _ => Panic
  end.

Fixpoint encode_rows (is_one_pc : bool) (changes : list (Key * RowChange)) : cl (list ChangeRow) :=
  match changes with
  | [] => Ok []
  | (key, row) :: changes =>
      r ← encode_row is_one_pc key row;
      rows ← encode_rows is_one_pc changes;
      Ok (match r with Some r => r :: rows | None => rows end)
  end.

(** ** Change logs *)

Inductive AdminCmdType := AdSplit | AdBatchSplit | AdPrepareMerge | AdRollbackMerge | AdCommitMerge | AdOther.

(** [ONE_PC] is the lowest bit of the header's flags. *)
Record RaftCmd := mk_raft_cmd {
  cmd_index : Z;
  cmd_flags : Z;
  cmd_admin : option AdminCmdType;
  cmd_requests : list Request;
  cmd_error : bool
}.

Inductive ChangeLog := LogError | LogRows (index : Z) (rows : list ChangeRow) | LogAdmin (t : AdminCmdType).

Section Order.
(** The order in which the hash map is walked. *)
Variable iter : gmap Key RowChange -> list (Key * RowChange).

Definition change_rows (is_one_pc : bool) (requests : list Request) : cl (list ChangeRow) :=
  '(changes, has_ingest_sst) ← group_row_changes requests;
  rows ← encode_rows is_one_pc (iter changes);
  Ok (rows ++ if has_ingest_sst : bool then [RowIngestSst] else []).

Definition encode_cmd (cmd : RaftCmd) : cl ChangeLog :=
  if negb (cmd_error cmd) then
    match cmd_admin cmd with
    | None => rows ← change_rows (Z.testbit (cmd_flags cmd) 0) (cmd_requests cmd); Ok (LogRows (cmd_index cmd) rows)
    | Some t => Ok (LogAdmin t)
    end
  else Ok LogError.

Fixpoint encode_change_log (cmds : list RaftCmd) : cl (list ChangeLog) :=
  match cmds with
  | [] => Ok []
  | cmd :: cmds => log ← encode_cmd cmd; logs ← encode_change_log cmds; Ok (log :: logs)
  end.
End Order.

(** ** The filter in front of it *)

Inductive ObserveLevel := ObserveNone | LockRelated | ObserveAll.

Definition lock_related (req : Request) : bool :=
  let cf := match req with ReqPut cf _ _ => cf | ReqDelete cf _ => cf | _ => EmptyString end in
  String.eqb cf (cf_str CF_LOCK) || String.eqb cf (cf_str CF_WRITE)
  || match req with ReqIngestSst => true | _ => false end.

Definition filter_cmd (cmd : RaftCmd) : RaftCmd :=
  mk_raft_cmd (cmd_index cmd) (cmd_flags cmd) (cmd_admin cmd) (List.filter lock_related (cmd_requests cmd)) (cmd_error cmd).

Definition lock_only_filter (level : ObserveLevel) (cmds : list RaftCmd) : option (list RaftCmd) :=
  match cmds with
  | [] => None
  | _ => match level with
         | ObserveNone => None
         | ObserveAll => Some cmds
         | LockRelated => Some (map filter_cmd cmds)
         end
  end.
