(* ===== verification/ChangeLogSpec.v ===== *)
(** * When the rows tell which keys are locked

    The requests of a batch of modifications, grouped and encoded as rows. A
    command is calm when no row takes a lock of another transaction for gone, and
    none that is gone goes without a row. After a calm command the keys that the
    rows leave tracked are exactly those that are locked. *)
From Stdlib Require Import String.
From S2P Require Import Prelude Number Bytes Timestamp Key Fields Lock Write OrderedMap PeerLocks Engine.
From S2P Require Import ConcurrencyManager Reader Versions MvccTxn CheckTxnStatus Prewrite Commands PrewriteCommand.
From S2P Require Import KeyView Protocol ActionSpec ReadSpec PrewriteSpec PrewriteCommandSpec System Demo ChangeLog.
Local Open Scope Z_scope.

(** ** The requests of one key *)

(** What a key's modifications come to: the version that is put, and the lock
    that is put or removed. [None] when an assertion fails. *)
Record KRow := mk_krow { kr_write : option (TimeStamp * Write); kr_lock : option (option Lock) }.
Definition krow_nil : KRow := mk_krow None None.

Definition krow_step (o : KRow) (k : kmod) : option KRow :=
  match k with
  | KPutLock l => if decide (kr_lock o = None) then Some (mk_krow (kr_write o) (Some (Some l))) else None
  | KDelLock => Some (mk_krow (kr_write o) (Some None))
  | KPutWrite c w => if decide (kr_write o = None) then Some (mk_krow (Some (c, w)) (kr_lock o)) else None
  | KDelWrite _ | KPutVal _ _ | KDelVal _ => Some o
  end.

Fixpoint krow (o : KRow) (ks : list kmod) : option KRow :=
  match ks with
  | [] => Some o
  | k :: ks => match krow_step o k with Some o => krow o ks | None => None end
  end.

(** The same as bytes, when there is a row at all. *)
Definition lock_op (l : option Lock) : KeyOp := match l with Some l => OpPutKey None (lock_to_bytes l) | None => OpDeleteKey end.
Definition write_op (cw : TimeStamp * Write) : KeyOp := OpPutKey (Some cw.1) (write_to_bytes cw.2).
Definition has_row (o : KRow) : bool := bool_decide (is_Some (kr_write o)) || bool_decide (is_Some (kr_lock o)).
Definition row_bytes (o : KRow) : option RowChange :=
  if has_row o then Some (mk_row (write_op <$> kr_write o) (lock_op <$> kr_lock o) None) else None.

(** Values that wait are puts. *)
Definition unmatched_ok (g : Grouped) : Prop := map_Forall (fun _ op => op <> OpDeleteKey) (g_unmatched g).

(** [g'] differs from [g] in the row of the key at most. *)
Record grouped_at (g g' : Grouped) (key : Key) (o : KRow) : Prop := mk_grouped_at {
  ga_row : g_changes g' !! key = row_bytes o;
  ga_other : forall k, k <> key -> g_changes g' !! k = g_changes g !! k;
  ga_ingest : g_ingest g' = g_ingest g;
  ga_unmatched : unmatched_ok g'
}.

Lemma row_at_bytes g key o :
  g_changes g !! key = row_bytes o -> row_at g key = mk_row (write_op <$> kr_write o) (lock_op <$> kr_lock o) None.
Proof. intros E. unfold row_at. rewrite E. unfold row_bytes. destruct o as [[] []]; done. Qed.

Lemma grouped_at_insert g key row o :
  unmatched_ok g -> row_bytes o = Some row -> grouped_at g (set_changes g (<[key := row]> (g_changes g))) key o.
Proof. intros Hu Hr. split; cbn; [by rewrite lookup_insert_eq | intros; by rewrite lookup_insert_ne | done | done]. Qed.

Lemma group_kmod g key o k o' :
  kmod_wf k -> unmatched_ok g -> g_changes g !! key = row_bytes o -> krow_step o k = Some o' ->
  exists g', group_request g (request_of (concrete key k)) = Ok g' /\ grouped_at g g' key o'.
Proof.
  intros Hwf Hu Hrow Hk. pose proof (row_at_bytes _ _ _ Hrow) as Hat.
  destruct k as [l| |c w|c|ts v|ts]; cbn in Hk, Hwf; cbn [concrete request_of group_request].
  - case_decide as El; [|done]. injection Hk as <-. unfold group_put. cbn. rewrite Hat, El. cbn.
    eexists. split; [done|]. apply grouped_at_insert; [done|]. by destruct o as [[] []].
  - injection Hk as <-. eexists. split; [done|]. unfold group_delete. cbn. rewrite Hat. apply grouped_at_insert; [done|]. by destruct o as [[] []].
  - case_decide as El; [|done]. injection Hk as <-. unfold group_put. cbn.
    rewrite decode_ts_append_ts, truncate_append_ts by apply Hwf. cbn. rewrite Hat, El. cbn.
    eexists. split; [done|]. apply grouped_at_insert; [done|]. by destruct o as [[] []].
  - injection Hk as <-. by exists g.
  - injection Hk as <-. unfold group_put. cbn. rewrite decode_ts_append_ts, truncate_append_ts by done. cbn.
    eexists. split; [done|]. split; cbn; [done..|]. by apply map_Forall_insert_2.
  - injection Hk as <-. by exists g.
Qed.

(** What a key's modifications come to, when the assertions hold. *)
Definition krow_from (o : KRow) (ks : list kmod) : KRow := default o (krow o ks).
Definition krow_of (ks : list kmod) : KRow := krow_from krow_nil ks.

Lemma krow_cons o k ks : is_Some (krow o (k :: ks)) ->
  exists o1, krow_step o k = Some o1 /\ is_Some (krow o1 ks) /\ krow_from o (k :: ks) = krow_from o1 ks.
Proof.
  unfold krow_from. cbn. destruct (krow_step o k) as [o1|]; [|by intros []]. intros Hk. exists o1. split_and!; [done..|].
  by destruct Hk as [o' ->].
Qed.

(** The modifications of a command, grouped. [R] has the rows so far. *)
Lemma group_trace tr : forall g R,
  Forall (fun '(_, m) => kmod_wf m) tr -> (forall k, is_Some (krow (R k) (of_key k tr))) ->
  unmatched_ok g -> (forall k, g_changes g !! k = row_bytes (R k)) ->
  exists g', group_requests g (map request_of (emit tr)) = Ok g' /\ g_ingest g' = g_ingest g /\ unmatched_ok g' /\
    forall k, g_changes g' !! k = row_bytes (krow_from (R k) (of_key k tr)).
Proof.
  induction tr as [|[key m] tr IH]; intros g R Hwf Hok Hu HR; [by exists g|].
  apply Forall_cons in Hwf as [Hm Hwf]. pose proof (Hok key) as Hkey. rewrite of_key_cons, decide_True in Hkey by done.
  destruct (krow_cons _ _ _ Hkey) as (o1 & Eo & Hrest & Efrom).
  destruct (group_kmod g key (R key) m o1 Hm Hu (HR key) Eo) as (g1 & Eg & [Hr1 Ho1 Hi1 Hu1]).
  destruct (IH g1 (fun k => if decide (k = key) then o1 else R k) Hwf) as (g' & Eg' & Hi & Hu' & Hrows).
  - intros k. case_decide as Ek; [by subst k|]. specialize (Hok k). by rewrite of_key_cons, decide_False in Hok.
  - done.
  - intros k. case_decide as Ek; [by subst k|]. by rewrite Ho1.
  - exists g'. change (emit ((key, m) :: tr)) with (concrete key m :: emit tr). cbn [map group_requests].
    rewrite Eg. cbn [mbind res_bind]. split; [done|]. split; [congruence|]. split; [done|].
    intros k. rewrite Hrows, of_key_cons. case_decide as Ek.
    + subst k. rewrite decide_True by done. cbn [app]. by rewrite Efrom.
    + by rewrite decide_False.
Qed.

(** ** Rows and the table of locks *)

(** The keys the resolver should track: those locked by an ordinary
    transaction that writes. *)
Definition tracked (l : option Lock) : option TimeStamp :=
  match l with
  | Some l => if bool_decide (lock_type l = LTPut \/ lock_type l = LTDelete) && (lock_generation l =? 0)
              then Some (lock_ts l) else None
  | None => None
  end.

(** What a row does to the table. *)
Definition apply_row (T : gmap bytes TimeStamp) (row : ChangeRow) : cl (gmap bytes TimeStamp) :=
  match row with
  | RowPrewrite key start_ts _ _ generation =>
      raw ← unwrap (key_to_raw key);
      Ok (if generation =? 0 then match T !! raw with Some _ => T | None => <[raw := start_ts]> T end else T)
  | RowCommit key _ _ _ => raw ← unwrap (key_to_raw key); Ok (delete raw T)
  | RowOnePc _ _ _ _ | RowIngestSst => Ok T
  end.

Fixpoint apply_rows (T : gmap bytes TimeStamp) (rows : list ChangeRow) : cl (gmap bytes TimeStamp) :=
  match rows with
  | [] => Ok T
  | row :: rows => T ← apply_row T row; apply_rows T rows
  end.

(** The table has the locks of the engine, but for the keys in [hit], about
    which nothing is said. *)
Definition table_of (hit : bytes -> Prop) (e : Engine) (T : gmap bytes TimeStamp) : Prop :=
  forall raw, ~ hit raw -> T !! raw = tracked (kv_lock (view e (key_from_raw raw))).

(** The version makes a row that releases the key. *)
Definition releases (is_one_pc : bool) (w : Write) : bool :=
  negb is_one_pc && bool_decide (write_gc_fence w = None) && negb (bool_decide (write_type w = WTLock)).

(** The rewritten version passes the assertions of [decode_write]. *)
Definition fence_ok (w : Write) : Prop :=
  write_gc_fence w <> None -> write_has_overlapped_rollback w = true /\ write_type w <> WTRollback.

Definition fences_ok (o : KRow) : Prop := forall c w, kr_write o = Some (c, w) -> fence_ok w.

(** A key's part of a batch is calm: a tracked lock is released by a row
    exactly when it is gone, and stays of the same transaction otherwise. *)
Definition calm (is_one_pc : bool) (l : option Lock) (o : KRow) : Prop :=
  let released := match kr_write o with Some (_, w) => releases is_one_pc w | None => bool_decide (kr_lock o = Some None) end in
  let after := match kr_lock o with Some l' => l' | None => l end in
  fences_ok o /\
  match tracked l with
  | Some _ => if released then tracked after = None else tracked after = tracked l
  | None => kr_write o <> None -> tracked after = None
  end.

Lemma decode_write_spec w :
  write_wf w -> fence_ok w ->
  decode_write (write_to_bytes w) true =
    Ok (if bool_decide (write_gc_fence w = None) && negb (bool_decide (write_type w = WTLock)) then Some w else None).
Proof.
  intros Hwf Hf. unfold decode_write. rewrite write_parse_to_bytes by done. cbn [andb].
  destruct (write_gc_fence w) as [f|] eqn:Ef.
  - rewrite (bool_decide_eq_true_2 (is_Some _)) by (by eexists). rewrite (bool_decide_eq_false_2 (Some f = None)) by done.
    destruct Hf as [Ho Ht]; [by rewrite Ef|]. unfold rassert. rewrite Ho. by rewrite bool_decide_eq_false_2.
  - rewrite (bool_decide_eq_false_2 (is_Some _)) by (by intros []). rewrite (bool_decide_eq_true_2 (None = None)) by done. cbn.
    by destruct (write_type w).
Qed.

Lemma decode_lock_spec l :
  lock_wf l ->
  exists l', decode_lock (lock_to_bytes l) =
      Ok (if bool_decide (lock_type l = LTPut \/ lock_type l = LTDelete) then Some l' else None) /\
    lock_ts l' = lock_ts l /\ lock_generation l' = lock_generation l.
Proof.
  intros Hwf. exists (lock_set_async l (lock_use_async_commit l) false (lock_secondaries l)). split; [|done].
  unfold decode_lock. rewrite lock_parse_to_bytes by done. cbn [lock_set_async lock_type].
  destruct (lock_type l); (case_bool_decide; [done || naive_solver | naive_solver]).
Qed.

(** What one row does to the table at its key. *)
Definition row_effect (raw : bytes) (r : option ChangeRow) (before after : option TimeStamp) : Prop :=
  forall T, T !! raw = before ->
  exists T', match r with Some r => apply_row T r | None => Ok T end = Ok T' /\ T' !! raw = after /\ (forall raw', raw' <> raw -> T' !! raw' = T !! raw').

Lemma effect_none raw before : row_effect raw None before before.
Proof. intros T HT. by exists T. Qed.

Lemma effect_commit raw wt st c before : row_effect raw (Some (RowCommit (key_from_raw raw) wt st c)) before None.
Proof.
  intros T HT. cbn [apply_row]. rewrite key_to_raw_from_raw. cbn [unwrap mbind res_bind]. eexists. split; [done|].
  split; [apply lookup_delete_eq|]. intros. by apply lookup_delete_ne.
Qed.

Lemma effect_one_pc raw wt c v before : row_effect raw (Some (RowOnePc (key_from_raw raw) wt c v)) before before.
Proof. intros T HT. by exists T. Qed.

Lemma effect_prewrite raw s lt v g before :
  row_effect raw (Some (RowPrewrite (key_from_raw raw) s lt v g)) before
    (if g =? 0 then Some (default s before) else before).
Proof.
  intros T HT. cbn [apply_row]. rewrite key_to_raw_from_raw. cbn [unwrap mbind res_bind]. destruct (g =? 0); [|by exists T].
  rewrite HT. destruct before as [s0|]; [by exists T|]. eexists. split; [done|].
  split; [apply lookup_insert_eq|]. intros. by apply lookup_insert_ne.
Qed.

Lemma row_value_put d v : d <> Some OpDeleteKey -> exists v', row_value d v = Ok v'.
Proof. destruct d as [[]|]; cbn; eauto. done. Qed.

(** The row of a calm key, when it has one, brings the table up to date. *)
Lemma encode_row_effect is_one_pc raw o d l :
  d <> Some OpDeleteKey -> has_row o = true -> calm is_one_pc l o ->
  (forall c w, kr_write o = Some (c, w) -> write_wf w) -> (forall l', kr_lock o = Some (Some l') -> lock_wf l') ->
  exists r, encode_row is_one_pc (key_from_raw raw) (mk_row (write_op <$> kr_write o) (lock_op <$> kr_lock o) d) = Ok r /\
    row_effect raw r (tracked l) (tracked (match kr_lock o with Some l' => l' | None => l end)).
Proof.
  destruct o as [ow ol]. cbn [kr_write kr_lock]. intros Hd Hrow [Hf Hcalm] Hw Hl. cbn [kr_write kr_lock] in *.
  destruct ow as [[c w]|]; unfold encode_row; cbn [fmap option_fmap option_map rc_write rc_lock rc_default write_op fst snd].
  - rewrite decode_write_spec by eauto. specialize (Hf c w eq_refl).
    unfold releases in Hcalm. destruct (bool_decide (write_gc_fence w = None) && negb (bool_decide (write_type w = WTLock))) eqn:Er; cbn.
    + destruct (row_value_put d (write_short_value w) Hd) as [v ->]. cbn.
      rewrite <- andb_assoc, Er, andb_true_r in Hcalm.
      destruct is_one_pc; cbn in Hcalm; (eexists; split; [done|]).
      * assert (tracked (match ol with Some l' => l' | None => l end) = tracked l) as ->; [|apply effect_one_pc].
        destruct (tracked l); [done | by apply Hcalm].
      * assert (tracked (match ol with Some l' => l' | None => l end) = None) as ->; [|apply effect_commit].
        destruct (tracked l); [done | by apply Hcalm].
    + eexists. split; [done|]. rewrite <- andb_assoc, Er, andb_false_r in Hcalm.
      assert (tracked (match ol with Some l' => l' | None => l end) = tracked l) as ->; [|apply effect_none].
      destruct (tracked l); [done | by apply Hcalm].
  - destruct ol as [[l'|]|]; [| |done]; cbn [lock_op].
    + destruct (decode_lock_spec l') as (l2 & El & Ets & Eg); [by eauto|].
      cbn [fmap option_fmap option_map lock_op]. rewrite El. clear El. cbn [kr_lock] in Hcalm. rewrite bool_decide_eq_false_2 in Hcalm by done.
      set (before := tracked l) in *. clearbody before.
      assert (before <> None -> tracked (Some l') = before) as Hsame by (by destruct before).
      unfold tracked in Hsame |- *. destruct (bool_decide (lock_type l' = LTPut \/ lock_type l' = LTDelete)); cbn in Hsame |- *.
      * destruct (row_value_put d (lock_short_value l2) Hd) as [v ->]. cbn. rewrite Ets, Eg. eexists. split; [done|].
        destruct (lock_generation l' =? 0) eqn:E0.
        -- assert (Some (lock_ts l') = Some (default (lock_ts l') before)) as ->; [destruct before; [by apply Hsame | done]|].
           pose proof (effect_prewrite raw (lock_ts l') (lock_type l2) v (lock_generation l') before) as H. by rewrite E0 in H.
        -- assert (before = None) as -> by (destruct before; [by specialize (Hsame ltac:(done)) | done]).
           pose proof (effect_prewrite raw (lock_ts l') (lock_type l2) v (lock_generation l') None) as H. by rewrite E0 in H.
      * eexists. split; [done|]. assert (before = None) as -> by (destruct before; [by specialize (Hsame ltac:(done)) | done]).
        apply effect_none.
    + eexists. split; [done|]. apply effect_commit.
Qed.

(** A row is about one key. *)
Definition row_key (row : ChangeRow) : option Key :=
  match row with
  | RowPrewrite key _ _ _ _ | RowCommit key _ _ _ | RowOnePc key _ _ _ => Some key
  | RowIngestSst => None
  end.

Lemma encode_row_key is_one_pc k row r : encode_row is_one_pc k row = Ok (Some r) -> row_key r = Some k.
Proof.
  unfold encode_row. destruct (rc_write row) as [[ts v|]|]; [|done|].
  - destruct (decode_write v true) as [[w|]|?|]; [|done..]. cbn. destruct (row_value _ _); [|done..]. cbn.
    destruct is_one_pc; by intros [= <-].
  - destruct (rc_lock row) as [[ts v|]|]; [|by intros [= <-]|done].
    destruct (decode_lock v) as [[l|]|?|]; [|done..]. cbn. destruct (row_value _ _); [|done..]. by intros [= <-].
Qed.

(** It is encoded when the assertions of [decode_write] hold. *)
Lemma encode_row_ok is_one_pc k o d :
  d <> Some OpDeleteKey -> has_row o = true -> fences_ok o ->
  (forall c w, kr_write o = Some (c, w) -> write_wf w) -> (forall l', kr_lock o = Some (Some l') -> lock_wf l') ->
  exists r, encode_row is_one_pc k (mk_row (write_op <$> kr_write o) (lock_op <$> kr_lock o) d) = Ok r.
Proof.
  destruct o as [ow ol]. cbn [kr_write kr_lock]. intros Hd Hrow Hf Hw Hl. cbn [kr_write kr_lock] in *.
  destruct ow as [[c w]|]; unfold encode_row; cbn [fmap option_fmap option_map rc_write rc_lock rc_default write_op fst snd].
  - rewrite decode_write_spec by eauto. destruct (_ && _); cbn; [|eauto].
    destruct (row_value_put d (write_short_value w) Hd) as [v ->]. cbn. destruct is_one_pc; eauto.
  - destruct ol as [[l'|]|]; [| |done]; cbn [fmap option_fmap option_map lock_op]; [|eauto].
    destruct (decode_lock_spec l') as (l2 & El & _); [by eauto|]. rewrite El. destruct (bool_decide _); cbn; [|eauto].
    destruct (row_value_put d (lock_short_value l2) Hd) as [v ->]. cbn. eauto.
Qed.

(** What the row of a key leaves alone. *)
Definition row_frame (raw : bytes) (r : option ChangeRow) : Prop :=
  forall T, exists T', match r with Some r => apply_row T r | None => Ok T end = Ok T' /\ (forall raw', raw' <> raw -> T' !! raw' = T !! raw').

Lemma encoded_frame is_one_pc raw row r : encode_row is_one_pc (key_from_raw raw) row = Ok r -> row_frame raw r.
Proof.
  intros He T. destruct r as [r|]; [|by exists T]. apply encode_row_key in He.
  destruct r as [key s lt v g|key wt st c|key wt c v|]; [..|done]; cbn [row_key] in He; injection He as ->; cbn [apply_row];
    rewrite ?key_to_raw_from_raw; cbn [unwrap mbind res_bind]; eexists; (split; [done|]); intros raw' Hne.
  - destruct (g =? 0); [|done]. destruct (T !! raw); [done|]. by rewrite lookup_insert_ne.
  - by rewrite lookup_delete_ne.
  - done.
Qed.

(** Rows of different keys act independently. *)
Lemma encode_rows_effect (hit : bytes -> Prop) is_one_pc (B A : bytes -> option TimeStamp) l :
  NoDup l.*1 ->
  Forall (fun '(k, row) => exists raw r, k = key_from_raw raw /\ encode_row is_one_pc k row = Ok r /\
            (~ hit raw -> row_effect raw r (B raw) (A raw))) l ->
  exists rows, encode_rows is_one_pc l = Ok rows /\
    forall T, (forall raw, ~ hit raw -> key_from_raw raw ∈ l.*1 -> T !! raw = B raw) ->
    exists T', apply_rows T rows = Ok T' /\ (forall raw, ~ hit raw -> key_from_raw raw ∈ l.*1 -> T' !! raw = A raw) /\
      (forall raw, key_from_raw raw ∉ l.*1 -> T' !! raw = T !! raw).
Proof.
  induction l as [|[k row] l IH]; intros Hnd Hl; cbn [encode_rows].
  { exists []. split; [done|]. intros T _. exists T. split; [done|]. split; [|done]. by intros raw _ ?%elem_of_nil. }
  cbn in Hnd. apply NoDup_cons in Hnd as [Hnk Hnd]. apply Forall_cons in Hl as [(raw & r & -> & Er & Heff) Hl].
  pose proof (encoded_frame _ _ _ _ Er) as Hframe. rewrite Er.
  destruct (IH Hnd Hl) as (rows & -> & Hrows). cbn [mbind res_bind]. eexists. split; [done|]. intros T HT.
  destruct (Hframe T) as (T1 & E1 & Hoth).
  assert (~ hit raw -> T1 !! raw = A raw) as Hself.
  { intros Hn. destruct (Heff Hn T) as (T2 & E2 & Hs & _); [apply HT; [done|cbn; set_solver]|]. by rewrite E1 in E2; injection E2 as <-. }
  assert (forall raw', key_from_raw raw' ∈ l.*1 -> raw' <> raw) as Hne by (intros raw' Hin ->; done).
  destruct (Hrows T1) as (T' & E' & Hin & Hout).
  { intros raw' Hn Hr. rewrite Hoth by auto. apply HT; [done|]. cbn. set_solver. }
  exists T'. split; [destruct r; cbn [apply_rows]; [by rewrite E1 | by simplify_eq]|]. cbn. split.
  - intros raw' Hn [Ek | Hr]%elem_of_cons; [|by apply Hin]. apply key_from_raw_inj in Ek as ->. rewrite Hout by done. by apply Hself.
  - intros raw' [Ek Hr]%not_elem_of_cons. rewrite Hout, Hoth by (done || by intros ->). done.
Qed.

(** The lock of the key after its modifications. *)
Lemma kapplies_lock ks : forall a o o',
  krow o ks = Some o' -> (forall l, kr_lock o = Some l -> kv_lock a = l) ->
  (forall l, kr_lock o' = Some l -> kv_lock (kapplies a ks) = l) /\
  (kr_lock o' = None -> kr_lock o = None /\ kv_lock (kapplies a ks) = kv_lock a).
Proof.
  induction ks as [|k ks IH]; intros a o o' Hk Ha; cbn in Hk.
  { injection Hk as <-. split; [apply Ha | done]. }
  destruct (krow_step o k) as [o1|] eqn:E1; [|done]. unfold kapplies. cbn [fold_left]. fold (kapplies (kapply a k) ks).
  destruct (IH (kapply a k) o1 o' Hk) as [Hs Hn].
  - intros l. destruct k; cbn in E1; try case_decide; simplify_eq; cbn; intros; simplify_eq; auto.
  - split; [done|]. intros Hnone. destruct (Hn Hnone) as [Ho1 Hl].
    destruct k; cbn in E1; try case_decide; simplify_eq; cbn in *; try done; auto.
Qed.

(** The records in a key's modifications are well formed. *)
Lemma krow_wf ks : forall o o',
  Forall kmod_wf ks -> krow o ks = Some o' ->
  (forall c w, kr_write o = Some (c, w) -> write_wf w) -> (forall l, kr_lock o = Some (Some l) -> lock_wf l) ->
  (forall c w, kr_write o' = Some (c, w) -> write_wf w) /\ (forall l, kr_lock o' = Some (Some l) -> lock_wf l).
Proof.
  induction ks as [|k ks IH]; intros o o' Hwf Hk Hw Hl; cbn in Hk; [by injection Hk as <-|].
  apply Forall_cons in Hwf as [Hwk Hwf]. destruct (krow_step o k) as [o1|] eqn:E1; [|done].
  apply (IH o1 o' Hwf Hk); destruct k; cbn in E1, Hwk; try case_decide; simplify_eq; cbn; intros; simplify_eq; destruct_and?; eauto.
Qed.

(** Commands only touch user keys, and pass the assertions of the grouping. *)
Definition trace_rows (tr : trace) : Prop :=
  Forall (fun '(k, m) => user_key k /\ kmod_wf m) tr /\ forall k, is_Some (krow krow_nil (of_key k tr)).

Section Exact.
Variable iter : gmap Key RowChange -> list (Key * RowChange).
Hypothesis iter_entries : forall m, iter m ≡ₚ map_to_list m.
Variables (hit : bytes -> Prop) (is_one_pc : bool) (e : Engine) (tr : trace).
Hypothesis Hwf : engine_wf e.
Hypothesis Htr : trace_rows tr.
Hypothesis Hfences : forall k, user_key k -> fences_ok (krow_of (of_key k tr)).
Hypothesis Hcalm : forall raw, ~ hit raw -> calm is_one_pc (kv_lock (view e (key_from_raw raw))) (krow_of (of_key (key_from_raw raw) tr)).

Definition grouped (g : Grouped) : Prop :=
  group_requests (mk_grouped ∅ ∅ false) (map request_of (emit tr)) = Ok g /\ g_ingest g = false /\ unmatched_ok g /\
  (forall k, g_changes g !! k = row_bytes (krow_of (of_key k tr))).

Lemma grouped_exists : exists g, grouped g.
Proof using Htr.
  destruct Htr as [Hf Hok]. destruct (group_trace tr (mk_grouped ∅ ∅ false) (fun _ => krow_nil)) as (g & E & Hi & Hu & Hrows).
  - eapply Forall_impl; [exact Hf|]. by intros [k m] [].
  - exact Hok.
  - apply map_Forall_empty.
  - reflexivity.
  - exists g. exact (conj E (conj Hi (conj Hu Hrows))).
Qed.

(** Every row of the map comes from a key of the command. *)
Lemma grouped_row g k row :
  grouped g -> match_defaults g !! k = Some row ->
  exists raw d, k = key_from_raw raw /\ has_row (krow_of (of_key k tr)) = true /\ d <> Some OpDeleteKey /\
    row = mk_row (write_op <$> kr_write (krow_of (of_key k tr))) (lock_op <$> kr_lock (krow_of (of_key k tr))) d.
Proof using Htr.
  intros (_ & _ & Hu & Hrows) Hrow. unfold match_defaults in Hrow. rewrite map_lookup_imap, Hrows in Hrow.
  unfold row_bytes in Hrow. destruct (has_row (krow_of (of_key k tr))) eqn:Er; [|done].
  assert (user_key k) as [raw Hraw].
  { destruct Htr as [Hf _]. rewrite Forall_forall in Hf. destruct (of_key k tr) as [|m ms] eqn:Ek; [done|].
    apply (Hf (k, m)), elem_of_of_key. rewrite Ek. apply list_elem_of_here. }
  cbn in Hrow. injection Hrow as <-. destruct (g_unmatched g !! k) as [op|] eqn:Eo.
  - exists raw, (Some op). repeat split; try done. intros [= ->]. by apply (Hu _ _ Eo).
  - exists raw, None. done.
Qed.

(** The lock of a key after the command. *)
Lemma lock_after e' k :
  (forall k, user_key k -> view e' k = kapplies (view e k) (of_key k tr)) -> user_key k ->
  kv_lock (view e' k) = match kr_lock (krow_of (of_key k tr)) with Some l => l | None => kv_lock (view e k) end.
Proof using Htr.
  intros Hv Hk. rewrite Hv by done. destruct Htr as [_ Hok]. destruct (Hok k) as [o Ho]. unfold krow_of, krow_from. rewrite Ho. cbn.
  destruct (kapplies_lock (of_key k tr) (view e k) krow_nil o Ho) as [Hs Hn]; [done|].
  destruct (kr_lock o) as [l|]; [by apply Hs | apply Hn; done].
Qed.

(** The row of a key takes the table from the lock before to the lock after. *)
Lemma trace_row_effect e' g k row :
  grouped g -> (forall k, user_key k -> view e' k = kapplies (view e k) (of_key k tr)) -> match_defaults g !! k = Some row ->
  exists raw r, k = key_from_raw raw /\ encode_row is_one_pc k row = Ok r /\
    (~ hit raw -> row_effect raw r (tracked (kv_lock (view e (key_from_raw raw)))) (tracked (kv_lock (view e' (key_from_raw raw))))).
Proof using Htr Hfences Hcalm.
  intros Hg Hv Hrow. destruct (grouped_row g k row Hg Hrow) as (raw & d & -> & Hhas & Hd & ->).
  assert (user_key (key_from_raw raw)) as Huk by (by eexists). pose proof (lock_after e' _ Hv Huk) as Hafter.
  destruct Htr as [Hf Hok]. destruct (Hok (key_from_raw raw)) as [o Ho].
  destruct (krow_wf (of_key (key_from_raw raw) tr) krow_nil o) as [Hw Hl]; [|done..|].
  { apply Forall_forall. intros m Hm%elem_of_of_key. rewrite Forall_forall in Hf. by apply (Hf _ Hm). }
  pose proof (Hfences _ Huk) as Hf'. specialize (Hcalm raw). unfold krow_of, krow_from in *. rewrite Ho in *. cbn [default] in *.
  destruct (encode_row_ok is_one_pc (key_from_raw raw) o d Hd Hhas Hf' Hw Hl) as (r & Er).
  exists raw, r. split; [done|]. split; [done|]. intros Hn. rewrite Hafter.
  destruct (encode_row_effect is_one_pc raw o d _ Hd Hhas (Hcalm Hn) Hw Hl) as (r' & Er' & Heff). by rewrite Er in Er'; injection Er' as <-.
Qed.

(** The rows of a command that is calm but for some keys keep the resolver's
    table exact, but for those. If the table has the keys that ordinary
    writing transactions hold locked in the engine, then the requests of the command are grouped and encoded without a
    panic, and after the rows, in whatever order the hash map yields them, the
    table has exactly the keys that are locked once the command is written. *)
Lemma change_rows_exact T :
  table_of hit e T ->
  exists rows e' T', change_rows iter is_one_pc (map request_of (emit tr)) = Ok rows /\
    write_modifies (E := kv_error) e (emit tr) = Ok e' /\ apply_rows T rows = Ok T' /\ table_of hit e' T'.
Proof using iter_entries Hwf Htr Hfences Hcalm.
  intros HT. destruct (write_trace e tr Hwf (proj1 Htr)) as (e' & Ew & _ & Hv).
  destruct grouped_exists as (g & Hg). pose proof Hg as (Eg & Hi & _ & Hrow).
  destruct (encode_rows_effect hit is_one_pc (fun raw => tracked (kv_lock (view e (key_from_raw raw))))
              (fun raw => tracked (kv_lock (view e' (key_from_raw raw)))) (iter (match_defaults g))) as (rows & Er & Hrows).
  - rewrite iter_entries. apply NoDup_fst_map_to_list.
  - apply Forall_forall. intros [k row] Hin. rewrite iter_entries in Hin. apply elem_of_map_to_list in Hin.
    by eapply trace_row_effect.
  - destruct (Hrows T) as (T' & ET & Hin & Hout); [intros; by apply HT|].
    exists rows, e', T'. split_and!; try done.
    + unfold change_rows, group_row_changes. rewrite Eg. cbn. rewrite Er. cbn. by rewrite Hi, app_nil_r.
    + intros raw Hn. destruct (decide (key_from_raw raw ∈ (iter (match_defaults g)).*1)) as [Hk|Hk]; [by apply Hin|].
      rewrite Hout, HT by done. f_equal. rewrite (lock_after e') by (done || by eexists).
      destruct (krow_of (of_key (key_from_raw raw) tr)) as [ow [l|]] eqn:Eo; [|done]. exfalso. apply Hk.
      rewrite iter_entries. apply list_elem_of_fmap.
      eexists (key_from_raw raw, _). split; [done|]. apply elem_of_map_to_list.
      unfold match_defaults. rewrite map_lookup_imap, Hrow, Eo. unfold row_bytes, has_row. cbn. by rewrite orb_true_r.
Qed.
End Exact.
