(* ===== verification/CommandRows.v ===== *)
(** * The rows of the write commands

    What the rows of a command's requests do to the resolver's table: for the
    commands of the transaction system, which keys they change how, that the
    requests are grouped and encoded, and for which keys the table stays
    exact. A rollback is where it may not: its record makes a row that
    releases the key, even if another transaction holds the lock, and a
    rollback that is recorded in another transaction's commit record makes
    none. *)
From S2P Require Import Prelude Number Bytes Timestamp Key Fields Lock Write OrderedMap PeerLocks Engine.
From S2P Require Import ConcurrencyManager Reader Versions MvccTxn CheckTxnStatus Prewrite Commands PrewriteCommand.
From S2P Require Import KeyView Protocol ActionSpec ReadSpec PrewriteSpec PrewriteCommandSpec System ChangeLog ChangeLogSpec.
Local Open Scope Z_scope.

(** ** Traces of commands *)

Definition trace_of (b : batch) : trace := concat (map (fun '(k, ks) => map (pair k) ks) b).

Lemma emit_trace_of b : emit (trace_of b) = flatten b.
Proof.
  induction b as [|[k ks] b IH]; [done|]. unfold trace_of, flatten in *. cbn [map concat]. by rewrite emit_app, emit_key, IH.
Qed.

Lemma of_key_trace_of k b :
  NoDup b.*1 -> of_key k (trace_of b) = match list_find (fun x => x.1 = k) b with Some (_, (_, ks)) => ks | None => [] end.
Proof.
  induction b as [|[k' ks] b IH]; intros Hnd; [done|]. cbn in Hnd. apply NoDup_cons in Hnd as [Hnk Hnd].
  unfold trace_of. cbn [map concat]. rewrite of_key_app. fold (trace_of b). rewrite IH by done. cbn [list_find fst].
  destruct (decide (k' = k)) as [-> | Hne].
  - rewrite of_key_same. assert (list_find (fun x => x.1 = k) b = None) as ->; [|apply app_nil_r].
    apply list_find_None. apply Forall_forall. intros [k1 ks1] Hin E. cbn in E. subst k1. apply Hnk, list_elem_of_fmap. by exists (k, ks1).
  - rewrite of_key_other by done. cbn [app]. destruct (list_find (fun x => x.1 = k) b) as [[? []]|]; done.
Qed.

(** What the trace has for a key, by what the batch has. *)
Lemma trace_of_cases (P : Key -> list kmod -> Prop) b :
  NoDup b.*1 -> Forall (fun '(k, ks) => P k ks) b -> forall k, of_key k (trace_of b) = [] \/ k ∈ b.*1 /\ P k (of_key k (trace_of b)).
Proof.
  intros Hnd Hb k. rewrite of_key_trace_of by done.
  destruct (list_find (fun x => x.1 = k) b) as [[n [k' ks]]|] eqn:E; [|by left]. right.
  apply list_find_Some in E as (Hn & Hk & _). cbn in Hk. subst k'. apply list_elem_of_lookup_2 in Hn.
  split; [apply list_elem_of_fmap; by exists (k, ks)|]. rewrite Forall_forall in Hb. by apply (Hb _ Hn).
Qed.

(** ** Which commands are calm *)

Lemma calm_nil is_one_pc l : calm is_one_pc l (krow_of []).
Proof. split; [done|]. cbn. by destruct (tracked l). Qed.

(** A commit of the lock's transaction. *)
Lemma commit_calm l c w :
  committed_record l c w -> calm false (Some l) (krow_of [KPutWrite c w; KDelLock]).
Proof.
  intros (t & Et & Ht & _ & _ & _ & Hf & _). change (krow_of _) with (mk_krow (Some (c, w)) (Some None)).
  split; [intros ? ? [= <- <-]; unfold fence_ok; by rewrite Hf|]. cbn [kr_write kr_lock].
  unfold releases. rewrite Hf. destruct (tracked (Some l)) eqn:El; [|done].
  assert (write_type w <> WTLock) as Hne.
  { unfold tracked in El. case_bool_decide as Hl; [|done]. destruct Hl as [E | E]; rewrite E in Et; cbn in Et; congruence. }
  by rewrite bool_decide_eq_true_2, bool_decide_eq_false_2.
Qed.

(** A lock on a free key. *)
Lemma lock_calm st v l : calm false None (krow_of (value_mods st v ++ [KPutLock l])).
Proof. destruct v; (split; [done|]); cbn; intros []; done. Qed.

(** ** Rows of a trace *)

(** The rows of the requests come from different keys, and each from what the
    trace has for its key. *)
Lemma encode_rows_elem is_one_pc l : forall rows,
  encode_rows is_one_pc l = Ok rows ->
  sublist (omap row_key rows) l.*1 /\ forall r, r ∈ rows -> exists k row, (k, row) ∈ l /\ encode_row is_one_pc k row = Ok (Some r).
Proof.
  induction l as [|[k row] l IH]; intros rows Hr; cbn [encode_rows] in Hr.
  { injection Hr as <-. split; [done|]. by intros r ?%elem_of_nil. }
  destruct (encode_row is_one_pc k row) as [r0|?|] eqn:E0; [|done..]. cbn [mbind res_bind] in Hr.
  destruct (encode_rows is_one_pc l) as [rows0|?|] eqn:E1; [|done..]. cbn [mbind res_bind] in Hr. injection Hr as <-.
  destruct (IH _ eq_refl) as [Hsub Hin]. destruct r0 as [r0|].
  - split.
    + cbn. rewrite (encode_row_key _ _ _ _ E0). by constructor.
    + intros r [-> | Hr]%elem_of_cons; [exists k, row; split; [apply list_elem_of_here | done]|].
      destruct (Hin r Hr) as (k' & row' & ? & ?). exists k', row'. split; [by apply list_elem_of_further | done].
  - split; [by constructor|]. intros r Hr. destruct (Hin r Hr) as (k' & row' & ? & ?).
    exists k', row'. split; [by apply list_elem_of_further | done].
Qed.

Section Rows.
Variable iter : gmap Key RowChange -> list (Key * RowChange).
Hypothesis iter_entries : forall m, iter m ≡ₚ map_to_list m.

Lemma trace_rows_elem is_one_pc tr rows :
  trace_rows tr -> change_rows iter is_one_pc (map request_of (emit tr)) = Ok rows ->
  NoDup (omap row_key rows) /\
  forall r, r ∈ rows -> exists k d, user_key k /\
    encode_row is_one_pc k (mk_row (write_op <$> kr_write (krow_of (of_key k tr))) (lock_op <$> kr_lock (krow_of (of_key k tr))) d) = Ok (Some r).
Proof using iter_entries.
  intros Htr Hr. destruct (grouped_exists tr Htr) as [g Hg]. pose proof Hg as (Eg & Hi & _).
  unfold change_rows, group_row_changes in Hr. rewrite Eg in Hr. cbn [mbind res_bind] in Hr.
  destruct (encode_rows is_one_pc (iter (match_defaults g))) as [rows0|?|] eqn:Er; [|done..].
  cbn [mbind res_bind] in Hr. rewrite Hi, app_nil_r in Hr. injection Hr as <-.
  destruct (encode_rows_elem _ _ _ Er) as [Hsub Hin]. split.
  - eapply sublist_NoDup; [|exact Hsub]. rewrite iter_entries. apply NoDup_fst_map_to_list.
  - intros r Hr. destruct (Hin r Hr) as (k & row & Hk & Ek). rewrite iter_entries in Hk. apply elem_of_map_to_list in Hk.
    destruct (grouped_row tr Htr g k row Hg Hk) as (raw & d & -> & _ & _ & ->). exists (key_from_raw raw), d. split; [by eexists | done].
Qed.

(** ** What prewrites and commits write *)

(** Each key: nothing, or a lock where there was none. *)
Definition prewrites (e : Engine) (tr : trace) : Prop :=
  forall k, of_key k tr = [] \/
    exists st v l, of_key k tr = value_mods st v ++ [KPutLock l] /\ kv_lock (view e k) = None.

(** Each key: nothing, or the transaction's lock becomes a commit record. *)
Definition commits_at (e : Engine) (st c : TimeStamp) (tr : trace) : Prop :=
  forall k, of_key k tr = [] \/
    exists l w, of_key k tr = [KPutWrite c w; KDelLock] /\ kv_lock (view e k) = Some l /\ lock_ts l = st /\
      committed_record l c w /\ write_wf w.

(** Each key: nothing, or a commit record where there was no lock. *)
Definition commits_at_once (e : Engine) (st c : TimeStamp) (tr : trace) : Prop :=
  forall k, of_key k tr = [] \/
    exists v l, of_key k tr = value_mods st v ++ [commit_1pc st c l] /\ kv_lock (view e k) = None.

Lemma at_once_krow st c v l :
  krow krow_nil (value_mods st v ++ [commit_1pc st c l])
  = Some (mk_krow (Some (c, one_pc_write (default WTPut (write_type_from_lock_type (lock_type l))) st l)) None).
Proof. by destruct v. Qed.

Lemma at_once_calm e st c tr :
  commits_at_once e st c tr -> forall k, user_key k -> calm true (kv_lock (view e k)) (krow_of (of_key k tr)).
Proof.
  intros Hp k _. destruct (Hp k) as [-> | (v & l & -> & ->)]; [apply calm_nil|]. unfold krow_of, krow_from. rewrite at_once_krow.
  split; [|done]. intros c0 w0 [= <- <-]. done.
Qed.

Lemma at_once_shape e st c tr k : commits_at_once e st c tr -> is_Some (krow krow_nil (of_key k tr)).
Proof. intros Hp. destruct (Hp k) as [-> | (v & l & -> & _)]; [by eexists|]. rewrite at_once_krow. by eexists. Qed.

(** A one-phase commit makes rows with its timestamp. *)
Lemma at_once_row e st c tr k d r :
  commits_at_once e st c tr ->
  encode_row true k (mk_row (write_op <$> kr_write (krow_of (of_key k tr))) (lock_op <$> kr_lock (krow_of (of_key k tr))) d) = Ok (Some r) ->
  exists wt v, r = RowOnePc k wt c v.
Proof using.
  intros Hp He. destruct (Hp k) as [E | (v & l & E & _)]; [by rewrite E in He|].
  unfold krow_of, krow_from in He. rewrite E, at_once_krow in He.
  unfold encode_row in He. cbn [default id kr_write kr_lock fmap option_fmap option_map rc_write rc_lock write_op fst snd rc_default] in He.
  destruct (decode_write _ _) as [[w|]|?|]; [|done..]. cbn in He. destruct (row_value d _); [|done..]. cbn in He. injection He as <-. eauto.
Qed.

Lemma prewrites_calm e tr : prewrites e tr -> forall k, user_key k -> calm false (kv_lock (view e k)) (krow_of (of_key k tr)).
Proof. intros Hp k _. destruct (Hp k) as [-> | (st & v & l & -> & ->)]; [apply calm_nil | apply lock_calm]. Qed.

Lemma commits_calm e st c tr : commits_at e st c tr -> forall k, user_key k -> calm false (kv_lock (view e k)) (krow_of (of_key k tr)).
Proof. intros Hp k _. destruct (Hp k) as [-> | (l & w & -> & -> & _ & Hr & _)]; [apply calm_nil | by apply commit_calm]. Qed.

Lemma prewrites_shape e tr k : prewrites e tr -> is_Some (krow krow_nil (of_key k tr)).
Proof. intros Hp. destruct (Hp k) as [-> | (st & [v|] & l & -> & _)]; by eexists. Qed.

Lemma commits_shape e st c tr k : commits_at e st c tr -> is_Some (krow krow_nil (of_key k tr)).
Proof. intros Hp. destruct (Hp k) as [-> | (l & w & -> & _)]; by eexists. Qed.

(** A prewrite only makes prewrite rows. *)
Lemma prewrite_row e tr k d r :
  prewrites e tr -> (forall k m, (k, m) ∈ tr -> kmod_wf m) ->
  encode_row false k (mk_row (write_op <$> kr_write (krow_of (of_key k tr))) (lock_op <$> kr_lock (krow_of (of_key k tr))) d) = Ok (Some r) ->
  exists s lt v g, r = RowPrewrite k s lt v g.
Proof using.
  intros Hp Hwf He. destruct (Hp k) as [E | (st & v & l & E & _)]; [by rewrite E in He|].
  assert (lock_wf l) as Hl.
  { apply (Hwf k (KPutLock l)), elem_of_of_key. rewrite E. apply elem_of_app. right. apply list_elem_of_here. }
  assert (krow_of (of_key k tr) = mk_krow None (Some (Some l))) as Ek by (rewrite E; by destruct v). rewrite Ek in He.
  unfold encode_row in He. cbn [kr_write kr_lock fmap option_fmap option_map rc_write rc_lock lock_op rc_default] in He.
  destruct (decode_lock_spec l Hl) as (l' & El & _). rewrite El in He. destruct (bool_decide _); [|done]. cbn in He.
  destruct (row_value d _); [|done..]. cbn in He. injection He as <-. eauto.
Qed.

(** A commit makes rows with its timestamp. *)
Lemma commit_row e st c tr k d r :
  commits_at e st c tr ->
  encode_row false k (mk_row (write_op <$> kr_write (krow_of (of_key k tr))) (lock_op <$> kr_lock (krow_of (of_key k tr))) d) = Ok (Some r) ->
  exists wt l, r = RowCommit k wt (Some st) (Some c) /\ kv_lock (view e k) = Some l /\ lock_ts l = st /\
    (lock_type l = LTPut \/ lock_type l = LTDelete).
Proof using.
  intros Hp He. destruct (Hp k) as [E | (l & w & E & Hl & Hts & Hrec & Hwf)]; [by rewrite E in He|].
  rewrite E in He. change (krow_of _) with (mk_krow (Some (c, w)) (Some None)) in He.
  unfold encode_row in He. cbn [kr_write kr_lock fmap option_fmap option_map rc_write rc_lock write_op fst snd rc_default] in He.
  destruct Hrec as (t & Et & Ht & Hst & _ & _ & Hf & _).
  rewrite decode_write_spec in He; [|done | unfold fence_ok; by rewrite Hf].
  rewrite bool_decide_eq_true_2 in He by done. case_bool_decide as Hty; [done|]. cbn in He.
  destruct (row_value d _); [|done..]. cbn in He.
  assert (write_type w <> WTRollback) as Hnr by (rewrite Ht; destruct (lock_type l); cbn in Et; congruence).
  rewrite decide_False in He by done. injection He as <-. exists (write_type w), l. rewrite Hst, Hts.
  repeat split; try done. destruct (lock_type l); cbn in Et; auto; congruence.
Qed.
End Rows.

(** ** Rollbacks and rewritten locks *)

(** The record of a rollback: none, one of its own, or a mark on a commit
    record of another transaction. *)
Definition recorded (a : KV) (st : TimeStamp) (w : option (TimeStamp * Write)) : Prop :=
  w = None \/ (exists prot, w = Some (st, write_new_rollback st prot)) \/
  exists w0 g, kv_ver a !! st = Some w0 /\ is_rollback w0 = false /\ w = Some (st, set_overlapped_rollback w0 true (Some g)).

(** The lock of the transaction is gone; another one stays, or is extended. *)
Definition unlocked (a : KV) (st : TimeStamp) (l : option (option Lock)) : Prop :=
  match kv_lock a with
  | Some l0 => if lock_ts l0 =? st then l = Some None else l = None \/ exists l', lock_extends l0 l' /\ l = Some (Some l')
  | None => l = None
  end.

Lemma krow_app ks : forall o ks', krow o (ks ++ ks') = (o' ← krow o ks; krow o' ks').
Proof. induction ks as [|k ks IH]; intros o ks'; [done|]. cbn. destruct (krow_step o k); [apply IH|done]. Qed.

Lemma krow_of_eq ks o : krow krow_nil ks = Some o -> krow_of ks = o.
Proof. unfold krow_of, krow_from. by intros ->. Qed.

Lemma krow_collapses a st cs o : collapses a st cs -> krow o cs = Some o.
Proof. by intros [->|(c & w & -> & _)]. Qed.

Lemma krow_rollback_mods a st prot ov l :
  kinv a -> record_of (kv_ver a) st (TCRNone ov) ->
  exists w, krow (mk_krow None l) (rollback_mods st prot ov) = Some (mk_krow w l) /\ recorded a st w.
Proof.
  intros I Hr. destruct ov as [[w g]|]; cbn [rollback_mods].
  - destruct Hr as (Hno & Hw & _). destruct prot; [|exists None; split; [done|by left]]. eexists. split; [done|]. right. right.
    exists w, g. split_and!; [done| |done]. destruct (is_rollback w) eqn:Er; [|done].
    destruct (inv_rollback a I st w Hw Er) as [E _]. by destruct (Hno st w Hw).
  - eexists. split; [done|]. right. left. by exists prot.
Qed.

(** What the rows of a rollback are made of. *)
Lemma rollback_krow a st ks :
  kinv a -> rollback_form a st ks -> exists w l, krow krow_nil ks = Some (mk_krow w l) /\ recorded a st w /\ unlocked a st l.
Proof.
  intros I (prot & ov & cs & Hr & Hc & [(l & dv & Hl & Hts & Hdv & ->)|(ls & Hfree & Htold & ->)]).
  - destruct (krow_rollback_mods a st prot ov None I Hr) as (w & Ew & Hw). exists w, (Some None). split_and!; [|done|].
    + assert (krow krow_nil dv = Some krow_nil) as Ed by (by destruct Hdv as [-> | ->]).
      rewrite krow_app, Ed. cbn. unfold krow_nil. rewrite krow_app, Ew. cbn. by rewrite krow_app, (krow_collapses _ _ _ _ Hc).
    + unfold unlocked. rewrite Hl, Hts. by rewrite Z.eqb_refl.
  - destruct Htold as [->|(l & l' & Hl & Hx & ->)].
    + destruct (krow_rollback_mods a st prot ov None I Hr) as (w & Ew & Hw). exists w, None. split_and!; [|done|].
      * by rewrite krow_app, (krow_collapses _ _ _ _ Hc).
      * unfold unlocked. destruct (kv_lock a) as [l|]; [|done]. destruct (Z.eqb_spec (lock_ts l) st) as [E|]; [by destruct (Hfree l eq_refl)|by left].
    + destruct (krow_rollback_mods a st prot ov (Some (Some l')) I Hr) as (w & Ew & Hw). exists w, (Some (Some l')). split_and!; [|done|].
      * by rewrite krow_app, (krow_collapses _ _ _ _ Hc).
      * unfold unlocked. rewrite Hl. destruct (Z.eqb_spec (lock_ts l) st) as [E|]; [by destruct (Hfree l Hl)|]. right. eauto.
Qed.

Lemma tracked_extends l l' : lock_extends l l' -> tracked (Some l') = tracked (Some l).
Proof. intros (Et & Es & _ & _ & _ & _ & _ & Eg). unfold tracked. by rewrite Et, Es, Eg. Qed.

Lemma recorded_fences a st w l : recorded a st w -> fences_ok (mk_krow w l).
Proof.
  intros Hw c w1 E. cbn in E. subst w. unfold fence_ok. destruct Hw as [?|[[prot E]|(w0 & g & _ & Hr & E)]]; [done|..]; injection E as -> ->; cbn; [done|].
  intros _. split; [done|]. intros Ht. unfold is_rollback in Hr. by rewrite Ht in Hr.
Qed.

(** What the commands that resolve locks do to a key: nothing, rewrite its
    lock, or roll the transaction back. *)
Definition rewrites (e : Engine) (k : Key) (ks : list kmod) : Prop :=
  ks = [] \/ exists l l', kv_lock (view e k) = Some l /\ lock_extends l l' /\ ks = [KPutLock l'].
Definition resolves (e : Engine) (st : TimeStamp) (k : Key) (ks : list kmod) : Prop :=
  rewrites e k ks \/ rollback_form (view e k) st ks.

Lemma rewrites_resolves e st k ks : rewrites e k ks -> resolves e st k ks.
Proof. by left. Qed.

Lemma resolves_nil e st k : resolves e st k [].
Proof. by left; left. Qed.

(** The rows of the rollback of [st] do not mislead the resolver about the
    key: no other transaction that is tracked holds it locked, and where the
    transaction does, no other one is committed at its start timestamp. *)
Definition spares (e : Engine) (st : TimeStamp) (k : Key) : Prop :=
  match kv_lock (view e k) with
  | Some l => if lock_ts l =? st then kv_ver (view e k) !! st = None else tracked (Some l) = None
  | None => True
  end.

Lemma resolves_shape e st k ks : kinv (view e k) -> resolves e st k ks -> is_Some (krow krow_nil ks) /\ fences_ok (krow_of ks).
Proof.
  intros I [[->|(l & l' & _ & _ & ->)]|Hr]; [done|done|]. destruct (rollback_krow _ _ _ I Hr) as (w & l & E & Hw & _).
  split; [by eexists|]. apply krow_of_eq in E as ->. by eapply recorded_fences.
Qed.

Lemma rewrites_calm e k ks : rewrites e k ks -> calm false (kv_lock (view e k)) (krow_of ks).
Proof.
  intros [->|(l & l' & Hl & Hx & ->)].
  - apply calm_nil.
  - rewrite Hl. split; [done|]. change (krow_of [KPutLock l']) with (mk_krow None (Some (Some l'))). cbn [kr_write kr_lock].
    rewrite (tracked_extends _ _ Hx), bool_decide_eq_false_2 by done. by destruct (tracked (Some l)).
Qed.

Lemma resolves_calm e st k ks :
  kinv (view e k) -> resolves e st k ks -> spares e st k -> calm false (kv_lock (view e k)) (krow_of ks).
Proof.
  intros I Hr Hs. pose proof (resolves_shape _ _ _ _ I Hr) as [_ Hf]. destruct Hr as [Hr|Hr]; [by apply rewrites_calm|].
  destruct (rollback_krow _ _ _ I Hr) as (w & lk & E & Hw & Hl). apply krow_of_eq in E. rewrite E in Hf |- *.
  split; [done|]. cbn [kr_write kr_lock]. unfold spares in Hs. unfold unlocked in Hl.
  destruct (kv_lock (view e k)) as [l|]; [|by subst lk].
  destruct (lock_ts l =? st).
  - subst lk. destruct Hw as [->|[[prot ->]|(w0 & g & Hw & _)]]; [by destruct (tracked (Some l))|by destruct (tracked (Some l))|congruence].
  - rewrite Hs. intros _. destruct Hl as [->|(l' & Hx & ->)]; [done|]. by rewrite (tracked_extends _ _ Hx).
Qed.

(** Their rows commit nothing. *)
Definition quiet_row (r : ChangeRow) : Prop :=
  match r with RowPrewrite _ _ _ _ _ | RowCommit _ _ _ None => True | _ => False end.

Lemma lock_row_quiet k lk d r :
  encode_row false k (mk_row None (lock_op <$> lk) d) = Ok (Some r) -> quiet_row r.
Proof.
  unfold encode_row. destruct lk as [[l|]|]; cbn [fmap option_fmap option_map rc_write rc_lock lock_op]; [|by intros [= <-]|done].
  destruct (decode_lock _) as [[l'|]|?|]; [|done..]. cbn. destruct (row_value _ _); [|done..]. by intros [= <-].
Qed.

Lemma resolve_row e st k ks d r :
  kinv (view e k) -> Forall kmod_wf ks -> resolves e st k ks ->
  encode_row false k (mk_row (write_op <$> kr_write (krow_of ks)) (lock_op <$> kr_lock (krow_of ks)) d) = Ok (Some r) -> quiet_row r.
Proof.
  intros I Hwf Hr He. pose proof (resolves_shape _ _ _ _ I Hr) as [[o Ho] Hf].
  destruct (krow_wf ks krow_nil o Hwf Ho) as [Hww _]; [done..|].
  destruct Hr as [[->|(l & l' & _ & _ & ->)]|Hr]; [done|by eapply lock_row_quiet|].
  destruct (rollback_krow _ _ _ I Hr) as (w & lk & E & Hw & _). assert (o = mk_krow w lk) as -> by congruence.
  apply krow_of_eq in E. rewrite E in He, Hf. cbn [kr_write kr_lock] in He, Hf, Hww.
  destruct w as [[c w]|]; [|by eapply lock_row_quiet]. specialize (Hww c w eq_refl). specialize (Hf c w eq_refl).
  unfold encode_row in He. cbn [fmap option_fmap option_map rc_write rc_lock write_op fst snd rc_default] in He.
  rewrite decode_write_spec in He by done. destruct Hw as [?|[[prot Ew]|(w0 & g & _ & _ & Ew)]]; [done|..]; injection Ew as -> ->; [|done].
  rewrite (bool_decide_eq_false_2 (_ = WTLock)) in He by done. cbn in He. destruct (row_value d _); [|done..]. cbn in He. by injection He as <-.
Qed.

Section Commands.
Context (s e : Engine).
Hypothesis Hinv : sys_inv e.

(** The commit action on every key. *)
Lemma commits_trace {A} cm ctx keys st c (f : list (option ReleasedLock) -> MvccTxn -> cres (WriteResult A)) wr :
  agrees s e keys -> txn_ts st -> is_u64 c -> st < c -> NoDup keys -> Forall user_key keys ->
  (forall rs t wr, f rs t = Ok wr -> wr_modifies wr = txn_modifies t) ->
  run_body st cm (for_each (fun k => commit (new_with_ctx st (snap s) ctx) k c) keys) f = Ok wr ->
  exists tr, wr_modifies wr = emit tr /\ trace_rows tr /\ commits_at e st c tr /\ forall k, of_key k tr <> [] -> k ∈ keys.
Proof using Hinv.
  intros Hag Hst Hc Hlt Hnd Huk Hf Hw. pose proof Hinv as [He Hk]. rewrite Forall_forall in Huk. unfold run_body in Hw.
  destruct (for_each_emits st (fun k => commit (new_with_ctx st (snap s) ctx) k c)
              (fun k => commit_post (new_with_ctx st (snap s) ctx) (view e k) c) keys) with (t := txn_new st cm)
    as (r & t & b & Et & Hm & _ & _ & Hr); [|done|].
  { intros key Hin. apply (commit_spec (new_with_ctx st (snap s) ctx)); [by eapply sees_on; eauto | auto]. }
  rewrite Et in Hw. destruct r as [rs|e0|]; [|done..]. destruct Hr as [Hb Hq].
  rewrite (Hf _ _ _ Hw), Hm. cbn [txn_new txn_modifies app].
  exists (trace_of b). split; [by rewrite emit_trace_of|].
  assert (NoDup b.*1) as Hndb by (by rewrite Hb).
  assert (Forall (fun '(k, ks) => ks = [] \/ exists l w, ks = [KPutWrite c w; KDelLock] /\ kv_lock (view e k) = Some l /\
            lock_ts l = st /\ committed_record l c w /\ write_wf w) b) as Hcases.
  { apply Forall_forall. intros [k ks] [i Hi]%list_elem_of_lookup. destruct (Forall2_lookup_l _ _ _ _ _ Hq Hi) as (a & _ & Ha).
    unfold commit_post in Ha. cbn [rd_start_ts new_with_ctx] in Ha.
    destruct (kv_lock (view e k)) as [l|]; [|by left; destruct Ha].
    destruct (Z.eqb_spec (lock_ts l) st); [|by left; destruct Ha]. destruct (c <? lock_min_commit_ts l); [by left; destruct Ha|].
    destruct Ha as (w & rel & _ & -> & Hrec & Hww). right. exists l, w. done. }
  assert (commits_at e st c (trace_of b)) as Hcom.
  { intros k. destruct (trace_of_cases _ _ Hndb Hcases k) as [E | [_ [E | H]]]; [by left | by left | by right]. }
  split; [|split; [done|]].
  2:{ intros k Hne. destruct (trace_of_cases _ _ Hndb Hcases k) as [E | [Hkb _]]; [done | by rewrite <- Hb]. }
  split; [|intros k; by eapply commits_shape].
  apply Forall_forall. intros [k m] Hin. apply elem_of_of_key in Hin.
  destruct (trace_of_cases _ _ Hndb Hcases k) as [E | [Hkb H]]; [rewrite E in Hin; by apply elem_of_nil in Hin|].
  split; [apply Huk; by rewrite <- Hb|]. destruct H as [E | (l & w & E & _ & _ & _ & Hww)]; rewrite E in Hin; [by apply elem_of_nil in Hin|].
  destruct Hst. repeat (apply elem_of_cons in Hin as [-> | Hin]; [cbn; split_and?; try done; lia|]). by apply elem_of_nil in Hin.
Qed.

Lemma commit_command_trace cm ctx keys st c wr :
  agrees s e keys -> txn_ts st -> is_u64 c -> NoDup keys -> Forall user_key keys ->
  Commit cm (snap s) ctx keys st c = Ok wr ->
  st < c /\ exists tr, wr_modifies wr = emit tr /\ trace_rows tr /\ commits_at e st c tr /\
    forall k, of_key k tr <> [] -> k ∈ keys.
Proof using Hinv.
  intros Hag Hst Hc Hnd Huk Hw. unfold Commit in Hw. destruct (Z.leb_spec c st) as [|Hlt]; [done|]. split; [done|].
  eapply commits_trace; [done..| |exact Hw]. intros rs t wr'. apply finish_write_modifies.
Qed.

Lemma prewrite_command_trace env cm last_change synced incomplete need_old async_apply committed c w cm' :
  agrees s e (prewrite_keys c) -> txn_ts (pwc_start_ts c) -> prewrite_request_wf c -> NoDup (prewrite_keys c) ->
  Forall user_key (prewrite_keys c) ->
  prewrite_process_write env last_change cm (snap s) synced incomplete need_old async_apply committed c = (Ok w, cm') ->
  exists tr, wr_modifies (pww_result w) = emit tr /\ trace_rows tr /\
    let one_pc := pr_one_pc_commit_ts (wr_pr (pww_result w)) in
    if one_pc =? 0 then prewrites e tr else commits_at_once e (pwc_start_ts c) one_pc tr.
Proof using Hinv.
  intros Hag Hst Hreq Hnd Huk Er. pose proof Hinv as [He Hk]. rewrite Forall_forall in Huk.
  eapply (prewrite_command_spec _ _ _ _ _ _ _ _ _ _ _ _ (view e)) in Er as (tr & Etr & Hout); [|done..|].
  2:{ intros k Hin. split; [by eapply sees_on; eauto|by apply Hk, Huk]. }
  pose proof (fun k => prewrite_outcome_steps _ _ _ _ _ k Hout) as Hsteps.
  exists tr. split; [done|]. destruct Hout as [Hno Hcases]. cbv zeta. set (one_pc := pr_one_pc_commit_ts _) in *.
  assert (if one_pc =? 0 then prewrites e tr else commits_at_once e (pwc_start_ts c) one_pc tr) as Hp.
  { assert (tr = [] -> if one_pc =? 0 then prewrites e tr else commits_at_once e (pwc_start_ts c) one_pc tr) as Hnil
      by (intros ->; destruct (one_pc =? 0); by left).
    destruct (pr_locks (wr_pr (pww_result w))); [|by destruct Hcases as [? _]; apply Hnil].
    destruct Hcases as [[? _] | Hall]; [by apply Hnil|].
    destruct (one_pc =? 0); intros k; (destruct (decide (k ∈ map mutation_key (pwc_mutations c))) as [Hin|Hn]; [|left; by apply Hno]);
      apply list_elem_of_fmap in Hin as (m & -> & Hm); specialize (Hall m Hm).
    - destruct Hall as [[E _] | [_ (l & v & E & _ & _ & _ & _ & Hfree)]]; [by left|]. right. by eexists _, v, l.
    - destruct Hall as [[E _] | (_ & _ & _ & _ & _ & _ & Hfree & v & l & E)]; [by left|]. right. by exists v, l. }
  split; [|done]. split.
  - apply Forall_forall. intros [k m] Hin%elem_of_of_key. destruct (Hsteps k) as [Hwf _]. rewrite Forall_forall in Hwf.
    split; [|by apply Hwf]. apply Huk. destruct (decide (k ∈ prewrite_keys c)) as [|Hn]; [done|exfalso].
    rewrite Hno in Hin by done. by apply elem_of_nil in Hin.
  - intros k. destruct (one_pc =? 0); [by eapply prewrites_shape|by eapply at_once_shape].
Qed.

(** *** Commands that resolve locks *)

Definition resolved_by (st : TimeStamp) (keys : list Key) (tr : trace) : Prop :=
  forall k, of_key k tr = [] \/ (k ∈ keys /\ resolves e st k (of_key k tr)).

(** The modifications of a batch of keys, as a trace. *)
Lemma batch_trace st b :
  NoDup b.*1 -> Forall (fun '(k, ks) => user_key k /\ key_steps e k ks /\ resolves e st k ks) b ->
  trace_rows (trace_of b) /\ resolved_by st b.*1 (trace_of b).
Proof using Hinv.
  intros Hnd Hb. pose proof Hinv as [_ Hk].
  assert (forall k, of_key k (trace_of b) = [] \/ k ∈ b.*1 /\ user_key k /\ key_steps e k (of_key k (trace_of b)) /\ resolves e st k (of_key k (trace_of b))) as Hc.
  { intros k. by destruct (trace_of_cases _ _ Hnd Hb k) as [E|[Hin H]]; [left|right]. }
  split; [split|].
  - apply Forall_forall. intros [k m] Hin%elem_of_of_key. destruct (Hc k) as [E|(_ & Hu & [Hwf _] & _)]; [rewrite E in Hin; by apply elem_of_nil in Hin|].
    rewrite Forall_forall in Hwf. split; [done|by apply Hwf].
  - intros k. destruct (Hc k) as [->|(_ & Hu & _ & Hr)]; [by eexists|]. by apply (resolves_shape e st k); [apply Hk|].
  - intros k. destruct (Hc k) as [?|(Hin & _ & _ & Hr)]; [by left|by right].
Qed.

Lemma for_each_trace {A B} st cm (act : Key -> M A) (Q : Key -> mres A -> list kmod -> Prop) keys
    (f : list A -> MvccTxn -> cres (WriteResult B)) wr :
  NoDup keys -> Forall user_key keys -> (forall key, key ∈ keys -> emits st key (act key) (Q key)) ->
  (forall key a ks, key ∈ keys -> Q key (Ok a) ks -> key_steps e key ks /\ resolves e st key ks) ->
  (forall rs t wr, f rs t = Ok wr -> wr_modifies wr = txn_modifies t) ->
  run_body st cm (for_each act keys) f = Ok wr -> exists tr, wr_modifies wr = emit tr /\ trace_rows tr /\ resolved_by st keys tr.
Proof using Hinv.
  intros Hnd Huk Hem Hq Hf Er. unfold run_body in Er.
  destruct (for_each_emits st act Q keys Hem (txn_new st cm) eq_refl) as (r & t & b & Et & Hm & _ & _ & Hr).
  rewrite Et in Er. destruct r as [rs|e0|]; [|done..]. destruct Hr as [Hb Hqs].
  rewrite (Hf _ _ _ Er), Hm. cbn [txn_new txn_modifies app]. exists (trace_of b). split; [by rewrite emit_trace_of|].
  rewrite <- Hb. apply batch_trace; [by rewrite Hb|]. apply Forall_forall. intros [k ks] Hin.
  assert (k ∈ keys) as Hk by (rewrite <- Hb; apply list_elem_of_fmap; by exists (k, ks)). rewrite Forall_forall in Huk. split; [by apply Huk|].
  apply list_elem_of_lookup in Hin as [i Hi]. destruct (Forall2_lookup_l _ _ _ _ _ Hqs Hi) as (a & _ & Ha). by eapply Hq.
Qed.

Lemma body_trace {A B} st cm key (body : M A) (Q : mres A -> list kmod -> Prop) (f : A -> MvccTxn -> cres (WriteResult B)) wr :
  user_key key -> emits st key body Q -> (forall a ks, Q (Ok a) ks -> key_steps e key ks /\ resolves e st key ks) ->
  (forall a t wr, f a t = Ok wr -> wr_modifies wr = txn_modifies t) ->
  run_body st cm body f = Ok wr ->
  exists tr, wr_modifies wr = emit tr /\ trace_rows tr /\ resolved_by st [key] tr /\ exists a, Q (Ok a) (of_key key tr).
Proof using Hinv.
  intros Huk Hem Hq Hf Er. destruct (body_result _ _ _ _ _ _ _ Hem Er) as (a & ks & t & Ha & Ek & Hm).
  rewrite (Hf _ _ _ Ek), Hm. exists (trace_of [(key, ks)]). split; [rewrite emit_trace_of; unfold flatten; cbn; by rewrite app_nil_r|].
  destruct (batch_trace st [(key, ks)]) as [Htr Hby]; [apply NoDup_singleton|apply Forall_singleton; split; [done|by eapply Hq]|].
  split; [done|]. split; [done|]. exists a. unfold trace_of. cbn [map concat]. by rewrite app_nil_r, of_key_same.
Qed.

Lemma rolls_back_resolves st prot key ks : rolls_back (view e key) st prot ks -> resolves e st key ks.
Proof using. intros (_ & _ & _ & _ & Hr). by right. Qed.

Lemma cleanup_resolves st ctx key current_ts protect a ks :
  cleanup_post (new_with_ctx st (snap s) ctx) key (view e key) current_ts protect (Ok a) ks -> key_steps e key ks /\ resolves e st key ks.
Proof using.
  intros H. split; [by eapply cleanup_key_steps|]. unfold cleanup_post in H. cbn [rd_start_ts new_with_ctx] in H.
  assert (cleanup_missing_post (new_with_ctx st (snap s) ctx) (view e key) protect (Ok a) ks -> resolves e st key ks) as Hmiss.
  { intros [(c & w & raw & _ & _ & ->)|[(_ & _ & _ & ->)|(_ & _ & _ & Hr)]]; [apply resolves_nil..|by eapply rolls_back_resolves]. }
  destruct (kv_lock (view e key)) as [l|]; [|by apply Hmiss]. destruct (lock_ts l =? st); [|by apply Hmiss].
  destruct (_ && _); [destruct H as [-> _]; apply resolves_nil|]. destruct H as (_ & Hr & _). by eapply rolls_back_resolves.
Qed.

Lemma status_resolves st caller_start_ts current_ts ctx key rollback_if_not_exist force_sync resolving verify_primary r ks :
  check_status_post s e st caller_start_ts current_ts ctx key rollback_if_not_exist force_sync resolving verify_primary r ks ->
  key_steps e key ks /\ resolves e st key ks.
Proof using.
  intros H. split; [by eapply status_key_steps|]. unfold check_status_post in H.
  assert (forall x, missing_post (new_with_ctx st (snap s) ctx) (view e key) (mla_rollback rollback_if_not_exist) resolving x ks ->
    resolves e st key ks) as Hmiss.
  { intros x [(c & w & _ & _ & ->)|[(_ & _ & _ & ->)|(_ & _ & Hx)]]; [apply resolves_nil..|].
    destruct (mla_rollback _); [destruct resolving|destruct resolving|].
    1, 3: destruct Hx as [_ ->]; apply resolves_nil.
    1, 2: destruct Hx as [_ Hx]; by eapply rolls_back_resolves.
    destruct Hx as [-> _]. apply resolves_nil. }
  destruct (kv_lock (view e key)) as [l|] eqn:El; [|by destruct H as (x & Hx & _); eapply Hmiss].
  destruct (lock_ts l =? st); [|by destruct H as (x & Hx & _); eapply Hmiss].
  unfold status_post in H. destruct (_ && _); [destruct H as [-> _]; apply resolves_nil|]. destruct (_ && _); [destruct H as [-> _]; apply resolves_nil|].
  destruct (lock_expired _ _); [destruct H as (_ & H & _); by eapply rolls_back_resolves|].
  destruct H as (l' & pushed & _ & Hx & [[-> _]|[-> _]] & _); [apply resolves_nil|]. left. right. eauto.
Qed.

Lemma heart_beat_rewrites st key advise_ttl a ks :
  heart_beat_post e st key advise_ttl (Ok a) ks -> rewrites e key ks.
Proof using.
  intros [Hk H]. destruct (kv_lock (view e key)) as [l|] eqn:El; [|by left; destruct H].
  destruct (lock_ts l =? st); [|by left; destruct H].
  destruct H as (l' & _ & Hx & _ & _ & [->| ->]); [by left|]. right. eauto.
Qed.

Lemma rollback_command_trace cm ctx keys st wr :
  agrees s e keys -> txn_ts st -> NoDup keys -> Forall user_key keys -> Forall (fun k => lock_has_room (view e k)) keys ->
  Rollback cm (snap s) ctx keys st = Ok wr -> exists tr, wr_modifies wr = emit tr /\ trace_rows tr /\ resolved_by st keys tr.
Proof using Hinv.
  intros Hag Hst Hnd Huk Hr Hw. pose proof Huk as Huk'. rewrite Forall_forall in Huk', Hr. pose proof Hinv as [He Hk].
  eapply (for_each_trace _ _ _ (fun k => cleanup_post (new_with_ctx st (snap s) ctx) k (view e k) 0 false)) in Hw; [done|done|done|..].
  - intros key Hin. apply (cleanup_spec (new_with_ctx st (snap s) ctx)); [by eapply sees_on; eauto|auto..].
  - intros key a ks _. apply cleanup_resolves.
  - intros rs t wr'. apply finish_write_modifies.
Qed.

Lemma cleanup_command_trace env cm ctx key st current_ts wr :
  agrees s e [key] -> txn_ts st -> user_key key -> lock_has_room (view e key) ->
  Cleanup env cm (snap s) ctx key st current_ts = Ok wr -> exists tr, wr_modifies wr = emit tr /\ trace_rows tr /\ resolved_by st [key] tr.
Proof using Hinv.
  intros Hag Hst Huk Hr Er. apply cmd_max_ts_ok in Er as [cm' Er]. pose proof Hinv as [He Hk].
  eapply (body_trace _ _ key _ (cleanup_post (new_with_ctx st (snap s) ctx) key (view e key) current_ts true)) in Er as (tr & Em & Htr & Hby & _); [by exists tr|done|..].
  - apply (cleanup_spec (new_with_ctx st (snap s) ctx)); [by eapply sees_on; eauto using list_elem_of_here|auto..].
  - intros a ks. apply cleanup_resolves.
  - intros rs t wr'. apply finish_write_modifies.
Qed.

Lemma check_txn_status_trace env cm ctx key st caller_start_ts current_ts rollback_if_not_exist force_sync resolving verify_primary wr :
  agrees s e [key] -> txn_ts st -> user_key key -> is_u64 caller_start_ts -> is_u64 current_ts -> lock_has_room (view e key) ->
  CheckTxnStatus env cm (snap s) ctx key st caller_start_ts current_ts rollback_if_not_exist force_sync resolving verify_primary = Ok wr ->
  exists tr, wr_modifies wr = emit tr /\ trace_rows tr /\ resolved_by st [key] tr.
Proof using Hinv.
  intros Hag Hst Huk Hca Hcu Hr Er. apply cmd_max_ts_ok in Er as [cm' Er].
  eapply body_trace in Er as (tr & Em & Htr & Hby & _); [by exists tr|done|by apply check_status_spec| |].
  - intros a ks. apply status_resolves.
  - intros [x rel] t wr'. apply finish_write_modifies.
Qed.

Lemma heart_beat_trace cm ctx key st advise_ttl min_commit_ts wr :
  agrees s e [key] -> txn_ts st -> user_key key -> is_u64 advise_ttl -> is_u64 min_commit_ts ->
  TxnHeartBeat cm (snap s) ctx key st advise_ttl min_commit_ts = Ok wr ->
  exists tr, wr_modifies wr = emit tr /\ trace_rows tr /\ resolved_by st [key] tr /\ rewrites e key (of_key key tr).
Proof using Hinv.
  intros Hag Hst Huk Ha Hm Er. eapply body_trace in Er as (tr & Em & Htr & Hby & a & Hq); [|done|by apply heart_beat_spec| |].
  - exists tr. split_and!; [done..|]. by eapply heart_beat_rewrites.
  - intros a ks Hq. split; [apply Hq|]. by apply rewrites_resolves, heart_beat_rewrites with st advise_ttl a.
  - intros x t wr'. apply finish_write_modifies.
Qed.

Lemma resolve_lite_trace cm ctx keys st c wr :
  agrees s e keys -> txn_ts st -> is_u64 c -> c = 0 \/ st < c -> NoDup keys -> Forall user_key keys ->
  Forall (fun k => lock_has_room (view e k)) keys -> ResolveLockLite cm (snap s) ctx st c keys = Ok wr ->
  exists tr, wr_modifies wr = emit tr /\ trace_rows tr /\
    if c =? 0 then resolved_by st keys tr else st < c /\ commits_at e st c tr /\ forall k, of_key k tr <> [] -> k ∈ keys.
Proof using Hinv.
  intros Hag Hst Hc Hlt Hnd Huk Hr Hw. unfold ResolveLockLite, ts_is_zero in Hw. destruct (Z.eqb_spec c 0) as [E|Hne]; cbn [negb] in Hw.
  - pose proof Huk as Huk'. rewrite Forall_forall in Huk', Hr. pose proof Hinv as [He Hk].
    eapply (for_each_trace _ _ _ (fun k => cleanup_post (new_with_ctx st (snap s) ctx) k (view e k) 0 false)) in Hw; [done|done|done|..].
    + intros key Hin. apply (cleanup_spec (new_with_ctx st (snap s) ctx)); [by eapply sees_on; eauto|auto..].
    + intros key a ks _. apply cleanup_resolves.
    + intros rs t wr'. apply finish_write_modifies.
  - assert (st < c) as Hlt' by lia. eapply commits_trace in Hw as (tr & Em & Htr & Hcom & Hin); [by exists tr|done..|].
    intros rs t wr'. apply finish_write_modifies.
Qed.
End Commands.

(** ** Commands and the table *)

Section Table.
Variable iter : gmap Key RowChange -> list (Key * RowChange).
Hypothesis iter_entries : forall m, iter m ≡ₚ map_to_list m.
(** The keys for which the rows of some rollback may mislead the resolver. *)
Variable hit : bytes -> Prop.

(** A rollback of the transaction spares the key, if it is not [hit]. *)
Definition spared (e : Engine) (st : TimeStamp) (key : Key) : Prop :=
  forall raw, key = key_from_raw raw -> ~ hit raw -> spares e st key.

(** What is asked of the timestamp [c] at which a transaction [st] is committed
    on a key, and of one at which a transaction is committed in one phase. *)
Variable fresh : TimeStamp -> TimeStamp -> Key -> Prop.
Variable fresh_once : TimeStamp -> Prop.

(** A command of the transaction system on the engine, with its modifications;
    the flag says that they are a one-phase commit. *)
Inductive command_on (e : Engine) : bool -> list Modify -> Prop :=
  | on_prewrite s env cm last_change synced incomplete need_old async_apply committed c w cm' :
      agrees s e (prewrite_keys c) -> txn_ts (pwc_start_ts c) -> prewrite_request_wf c -> NoDup (prewrite_keys c) ->
      Forall user_key (prewrite_keys c) ->
      prewrite_process_write env last_change cm (snap s) synced incomplete need_old async_apply committed c = (Ok w, cm') ->
      let one_pc := pr_one_pc_commit_ts (wr_pr (pww_result w)) in
      one_pc = 0 \/ fresh_once one_pc ->
      command_on e (negb (one_pc =? 0)) (wr_modifies (pww_result w))
  | on_commit s cm ctx keys st c wr :
      agrees s e keys -> txn_ts st -> is_u64 c -> NoDup keys -> Forall user_key keys -> Forall (fresh_commit e st c) keys ->
      Commit cm (snap s) ctx keys st c = Ok wr -> Forall (fresh st c) keys ->
      command_on e false (wr_modifies wr)
  | on_rollback s cm ctx keys st wr :
      agrees s e keys -> txn_ts st -> NoDup keys -> Forall user_key keys -> Forall (fun k => lock_has_room (view e k)) keys ->
      Rollback cm (snap s) ctx keys st = Ok wr -> Forall (spared e st) keys ->
      command_on e false (wr_modifies wr)
  | on_cleanup s env cm ctx key st current_ts wr :
      agrees s e [key] -> txn_ts st -> user_key key -> lock_has_room (view e key) ->
      Cleanup env cm (snap s) ctx key st current_ts = Ok wr -> spared e st key ->
      command_on e false (wr_modifies wr)
  | on_check_txn_status s env cm ctx key st caller_start_ts current_ts rollback_if_not_exist force_sync resolving
      verify_primary wr :
      agrees s e [key] -> txn_ts st -> user_key key -> is_u64 caller_start_ts -> is_u64 current_ts -> lock_has_room (view e key) ->
      CheckTxnStatus env cm (snap s) ctx key st caller_start_ts current_ts rollback_if_not_exist force_sync resolving
        verify_primary = Ok wr -> spared e st key ->
      command_on e false (wr_modifies wr)
  | on_heart_beat s cm ctx key st advise_ttl min_commit_ts wr :
      agrees s e [key] -> txn_ts st -> user_key key -> is_u64 advise_ttl -> is_u64 min_commit_ts ->
      TxnHeartBeat cm (snap s) ctx key st advise_ttl min_commit_ts = Ok wr ->
      command_on e false (wr_modifies wr)
  | on_resolve_lite s cm ctx keys st c wr :
      agrees s e keys -> txn_ts st -> is_u64 c -> c = 0 \/ st < c -> NoDup keys -> Forall user_key keys ->
      Forall (fresh_commit e st c) keys -> Forall (fun k => lock_has_room (view e k)) keys ->
      ResolveLockLite cm (snap s) ctx st c keys = Ok wr ->
      Forall (if c =? 0 then spared e st else fresh st c) keys ->
      command_on e false (wr_modifies wr).

(** What the modifications of a command do to the keys. *)
Inductive effect (e : Engine) : bool -> trace -> Prop :=
  | eff_prewrite tr : prewrites e tr -> effect e false tr
  | eff_once st c tr : commits_at_once e st c tr -> fresh_once c -> effect e true tr
  | eff_commit st c tr :
      commits_at e st c tr -> st < c -> (forall k, of_key k tr <> [] -> fresh st c k) -> effect e false tr
  | eff_resolve st keys tr :
      resolved_by e st keys tr -> (forall k, of_key k tr <> [] -> rewrites e k (of_key k tr) \/ spared e st k) ->
      effect e false tr.

Lemma eff_rollback e st keys tr : resolved_by e st keys tr -> Forall (spared e st) keys -> effect e false tr.
Proof using.
  intros Hby Hsp. eapply eff_resolve; [done|]. intros k Hne. right.
  rewrite Forall_forall in Hsp. apply Hsp. by destruct (Hby k) as [?|[? _]].
Qed.

Lemma eff_commits e st c keys tr :
  commits_at e st c tr -> st < c -> (forall k, of_key k tr <> [] -> k ∈ keys) -> Forall (fresh st c) keys -> effect e false tr.
Proof using. intros Hc Hlt Hk Hf. rewrite Forall_forall in Hf. eapply eff_commit; eauto. Qed.

Lemma command_effect e one_pc ms e' :
  sys_inv e -> command_on e one_pc ms -> write_modifies (E := kv_error) e ms = Ok e' ->
  simulates e e' /\ exists tr, ms = emit tr /\ trace_rows tr /\ effect e one_pc tr.
Proof using.
  intros Hsys Hon Hw.
  destruct Hon as [s env cm last_change synced incomplete need_old async_apply committed c w cm' Hag Hst Hreq Hnd Huk Er one_pc Hone
    | s cm ctx keys st c wr Hag Hst Hc Hnd Huk Hfc Er Hfr | s cm ctx keys st wr Hag Hst Hnd Huk Hroom Er Hsp
    | s env cm ctx key st cur wr Hag Hst Huk Hroom Er Hsp
    | s env cm ctx key st caller cur rb force res vp wr Hag Hst Huk Hca Hcu Hroom Er Hsp
    | s cm ctx key st ttl mc wr Hag Hst Huk Ha Hm Er
    | s cm ctx keys st c wr Hag Hst Hc Hlt Hnd Huk Hfc Hroom Er Hfr].
  - destruct (prewrite_command_trace s e Hsys _ _ _ _ _ _ _ _ _ _ _ Hag Hst Hreq Hnd Huk Er) as (tr & Em & Htr & Hp).
    destruct (sim_prewrite s e Hsys _ _ _ _ _ _ _ _ _ _ _ _ Hag Hst Hreq Hnd Huk Er Hw) as [Hsim _].
    split; [done|]. exists tr. split_and!; [done..|]. cbv zeta in Hp. fold one_pc in Hp. clearbody one_pc.
    destruct (Z.eqb_spec one_pc 0) as [E|Hne]; [by apply eff_prewrite|]. destruct Hone as [|Hone]; [done|]. by eapply eff_once.
  - destruct (commit_command_trace s e Hsys _ _ _ _ _ _ Hag Hst Hc Hnd Huk Er) as (Hlt & tr & Em & Htr & Hp & Hk).
    destruct (sim_commit s e Hsys cm ctx keys st c e' Hag Hst Hc Hnd Huk Hfc) as (_ & Hsim & _); [by exists wr|].
    split; [done|]. exists tr. split_and!; [done..|]. by eapply eff_commits.
  - destruct (rollback_command_trace s e Hsys _ _ _ _ _ Hag Hst Hnd Huk Hroom Er) as (tr & Em & Htr & Hby).
    destruct (sim_rollback s e Hsys cm ctx keys st e' Hag Hst Hnd Huk Hroom) as [Hsim _]; [by exists wr|].
    split; [done|]. exists tr. split_and!; [done..|]. by eapply eff_rollback.
  - destruct (cleanup_command_trace s e Hsys _ _ _ _ _ _ _ Hag Hst Huk Hroom Er) as (tr & Em & Htr & Hby).
    destruct (sim_cleanup s e Hsys env cm ctx key st cur e' Hag Hst Huk Hroom) as [Hsim _]; [by exists wr|].
    split; [done|]. exists tr. split_and!; [done..|]. eapply eff_rollback; [done|by apply Forall_singleton].
  - destruct (check_txn_status_trace s e Hsys _ _ _ _ _ _ _ _ _ _ _ _ Hag Hst Huk Hca Hcu Hroom Er) as (tr & Em & Htr & Hby).
    destruct (sim_check_txn_status s e Hsys _ _ _ _ _ _ _ _ _ _ _ _ _ Hag Hst Huk Hca Hcu Hroom Er Hw) as [Hsim _].
    split; [done|]. exists tr. split_and!; [done..|]. eapply eff_rollback; [done|by apply Forall_singleton].
  - destruct (heart_beat_trace s e Hsys _ _ _ _ _ _ _ Hag Hst Huk Ha Hm Er) as (tr & Em & Htr & Hby & Hrw).
    destruct (sim_heart_beat s e Hsys cm ctx key st ttl mc e' Hag Hst Huk Ha Hm) as [Hsim _]; [by exists wr|].
    split; [done|]. exists tr. split_and!; [done..|]. eapply eff_resolve; [done|]. intros k Hne. left.
    destruct (Hby k) as [?|[Hk%list_elem_of_singleton _]]; [done|]. by subst k.
  - destruct (resolve_lite_trace s e Hsys _ _ _ _ _ _ Hag Hst Hc Hlt Hnd Huk Hroom Er) as (tr & Em & Htr & Hp).
    destruct (sim_resolve_lite s e Hsys cm ctx keys st c e' Hag Hst Hc Hlt Hnd Huk Hfc Hroom) as [Hsim _]; [by exists wr|].
    split; [done|]. exists tr. split_and!; [done..|]. destruct (c =? 0); [by eapply eff_rollback|].
    destruct Hp as (Hlt' & Hp & Hk). by eapply eff_commits.
Qed.

(** Every effect is calm but for the [hit] keys. *)
Lemma effect_calm e one_pc tr : sys_inv e -> effect e one_pc tr ->
  (forall k, user_key k -> fences_ok (krow_of (of_key k tr))) /\
  forall raw, ~ hit raw -> calm one_pc (kv_lock (view e (key_from_raw raw))) (krow_of (of_key (key_from_raw raw) tr)).
Proof using.
  intros [_ Hk] Heff.
  assert ((forall k, user_key k -> calm one_pc (kv_lock (view e k)) (krow_of (of_key k tr))) ->
          (forall k, user_key k -> fences_ok (krow_of (of_key k tr))) /\
          forall raw, ~ hit raw -> calm one_pc (kv_lock (view e (key_from_raw raw))) (krow_of (of_key (key_from_raw raw) tr))) as Hall.
  { intros Hcalm. split; [intros k Hu; by apply Hcalm|]. intros raw _. apply Hcalm. by eexists. }
  destruct Heff as [tr Hp|st c tr Hp _|st c tr Hp _ _|st keys tr Hby Hsp];
    [by apply Hall, prewrites_calm|by eapply Hall, at_once_calm|by eapply Hall, commits_calm|].
  assert (forall k, resolves e st k (of_key k tr)) as Hres by (intros k; destruct (Hby k) as [-> |[_ H]]; [apply resolves_nil|done]).
  split.
  - intros k Hu. by apply (resolves_shape e st k); [apply Hk|].
  - intros raw Hn. assert (user_key (key_from_raw raw)) as Hu by (by eexists).
    destruct (decide (of_key (key_from_raw raw) tr = [])) as [->|Hne]; [apply calm_nil|].
    destruct (Hsp _ Hne) as [Hrw|Hs]; [by apply rewrites_calm|]. apply resolves_calm with st; [by apply Hk|done|by eapply Hs].
Qed.

(** After a command the rows of its requests keep the table exact. *)
Lemma command_exact e one_pc ms e' T :
  sys_inv e -> command_on e one_pc ms -> write_modifies (E := kv_error) e ms = Ok e' -> table_of hit e T ->
  sys_inv e' /\ exists rows T', change_rows iter one_pc (map request_of ms) = Ok rows /\ apply_rows T rows = Ok T' /\ table_of hit e' T'.
Proof using iter_entries.
  intros Hsys Hon Hw HT. destruct (command_effect _ _ _ _ Hsys Hon Hw) as (Hsim & tr & -> & Htr & Heff).
  destruct (effect_calm _ _ _ Hsys Heff) as [Hfence Hcalm]. split; [by eapply simulates_inv|].
  destruct (change_rows_exact iter iter_entries hit one_pc e tr (proj1 Hsys) Htr Hfence Hcalm T HT) as (rows & e1 & T' & Er & Ew & Ea & HT').
  assert (e1 = e') as -> by congruence. by exists rows, T'.
Qed.
End Table.
