(* ===== verification/LockScan.v ===== *)
(** * The scan of the locks of a region
    (src/storage/mvcc/reader/reader.rs [scan_locks_from_storage],
    components/resolved_ts/src/scanner.rs)

    A region that starts to be observed has its locks scanned from a snapshot,
    in batches; a batch starts with the last lock of the one before, so that
    lock is found twice. Shown is that the scan ends, without an error, and
    finds exactly the locks of the snapshot that will write. *)
From S2P Require Import Prelude Number Bytes Timestamp Key Fields Lock Write OrderedMap PeerLocks Engine.
From S2P Require Import ConcurrencyManager Reader Versions KeyView.
From stdpp Require Import sorting.
Local Open Scope Z_scope.

(** ** The reader's scan *)

(** The entries of the lock column family from where the cursor is put. *)
Definition entries_from (start : option Key) (m : cf) : list (bytes * bytes) :=
  match start with
  | Some key => List.filter (fun e => bleb key e.1) (entries m)
  | None => entries m
  end.

(** The loop over the cursor, with the locks it has so far. *)
Fixpoint scan_cursor (end_ : option Key) (accept : Key -> Lock -> bool) (limit : Z) (es : list (bytes * bytes)) (locks : list (Key * Lock)) :
  mres (list (Key * Lock) * bool) :=
  match es with
  | [] => Ok (locks, false)
  | (key, value) :: es =>
      if (match end_ with Some e => bleb e key | None => false end) then Ok (locks, false)
      else
        lock ← map_err mvcc_error_from_txn (lock_parse value);
        if accept key lock then
          let locks := locks ++ [(key, lock)] in
          if (0 <? limit) && (Z.of_nat (length locks) =? limit) then Ok (locks, true)
          else scan_cursor end_ accept limit es locks
        else scan_cursor end_ accept limit es locks
  end.

Definition scan_locks_from_storage (snapshot : Snapshot) (start end_ : option Key) (accept : Key -> Lock -> bool) (limit : Z) :
  mres (list (Key * Lock) * bool) :=
  scan_cursor end_ accept limit (entries_from start (cf_lock (snap_engine snapshot))) [].

(** ** The scan task *)

Definition DEFAULT_SCAN_BATCH_SIZE : Z := 128.

Definition will_write (lock : Lock) : bool :=
  match lock_type lock with LTPut | LTDelete => true | _ => false end.

Definition scan_batch (snapshot : Snapshot) (start : option Key) : mres (list (Key * Lock) * bool) :=
  scan_locks_from_storage snapshot start None (fun _ lock => will_write lock) DEFAULT_SCAN_BATCH_SIZE.

(** The batches that [spawn_task] sends on, when it is not cancelled. *)
Fixpoint scan_batches (fuel : nat) (snapshot : Snapshot) (start_key : option Key) : mres (list (list (Key * Lock))) :=
  match fuel with
  | O => Panic
  | S fuel =>
      '(locks, has_remaining) ← scan_batch snapshot start_key;
      if (has_remaining : bool) then
        match last locks with
        | Some (key, _) => rest ← scan_batches fuel snapshot (Some key); Ok (locks :: rest)
        | None => Panic
        end
      else Ok [locks]
  end.

Definition scan_task (snapshot : Snapshot) : mres (list (list (Key * Lock))) :=
  scan_batches (S (size (cf_lock (snap_engine snapshot)))) snapshot None.

(** ** What the scan finds *)

(** The accepted locks of the entries. *)
Definition accepted (es : list (bytes * bytes)) : list (Key * Lock) :=
  omap (fun e => match lock_parse e.2 with Ok l => if will_write l then Some (e.1, l) else None | _ => None end) es.

Lemma elem_of_accepted es k l : (k, l) ∈ accepted es <-> exists v, (k, v) ∈ es /\ lock_parse v = Ok l /\ will_write l = true.
Proof.
  unfold accepted. rewrite list_elem_of_omap. split.
  - intros ([k' v] & Hin & E). cbn in E. destruct (lock_parse v) as [l'|?|] eqn:Ep; [|done..].
    destruct (will_write l') eqn:Ew; [|done]. injection E as -> ->. eauto.
  - intros (v & Hin & Ep & Ew). exists (k, v). split; [done|]. cbn. by rewrite Ep, Ew.
Qed.

Lemma accepted_filter k es :
  accepted (List.filter (fun e => bleb k e.1) es) = List.filter (fun kl => bleb k kl.1) (accepted es).
Proof.
  induction es as [|[k' v] es IH]; [done|]. cbn [List.filter fst]. unfold accepted in *. cbn [omap list_omap fst snd].
  destruct (bleb k k') eqn:Ek; cbn [omap list_omap fst snd]; rewrite IH; destruct (lock_parse v) as [l|?|]; try done;
    destruct (will_write l); try done; cbn [List.filter fst]; by rewrite Ek.
Qed.

Lemma accepted_sorted es : StronglySorted (fun a b => blt a.1 b.1) es -> StronglySorted (fun a b => blt a.1 b.1) (accepted es).
Proof.
  induction 1 as [|[k v] es Hs IH Hf]; [constructor|]. unfold accepted in *. cbn [omap list_omap fst snd].
  destruct (lock_parse v) as [l|?|]; [|done..]. destruct (will_write l); [|done]. constructor; [done|].
  apply Forall_forall. intros [k' l'] Hin. apply elem_of_accepted in Hin as (v' & Hin & _).
  rewrite Forall_forall in Hf. by apply (Hf (k', v')).
Qed.

(** One batch: the accepted locks up to the limit. *)
Lemma scan_cursor_spec (limit : nat) es : forall locks,
  Forall (fun e => exists l, lock_parse e.2 = Ok l) es -> (length locks < limit)%nat ->
  scan_cursor None (fun _ lock => will_write lock) (Z.of_nat limit) es locks =
    Ok (locks ++ take (limit - length locks) (accepted es), bool_decide (limit - length locks <= length (accepted es))%nat).
Proof.
  induction es as [|[k v] es IH]; intros locks Hp Hl; cbn [scan_cursor accepted omap list_omap].
  { rewrite take_nil, app_nil_r, bool_decide_eq_false_2; [done|cbn; lia]. }
  apply Forall_cons in Hp as [[l Ep] Hp]. cbn [snd fst] in Ep |- *. rewrite Ep. cbn [map_err mbind res_bind].
  destruct (will_write l); [|by apply IH].
  rewrite length_app. cbn [length]. replace (0 <? Z.of_nat limit) with true by lia. cbn [andb].
  destruct (Z.eqb_spec (Z.of_nat (length locks + 1)) (Z.of_nat limit)) as [E|Hne].
  - replace (limit - length locks)%nat with 1%nat by lia. cbn [take length]. rewrite take_0, bool_decide_eq_true_2 by lia. done.
  - rewrite IH by (done || (rewrite length_app; cbn; lia)). rewrite length_app. cbn [length].
    replace (limit - length locks)%nat with (S (limit - (length locks + 1))) by lia. cbn [take]. rewrite <- app_assoc. cbn [app].
    do 2 f_equal. apply bool_decide_ext. unfold accepted. lia.
Qed.

Lemma accepted_length m : (length (accepted (entries m)) <= size m)%nat.
Proof.
  assert (length (entries m) = size m) as <- by (unfold entries; by rewrite merge_sort_Permutation, length_map_to_list).
  induction (entries m) as [|[k v] es IH]; [done|]. unfold accepted in *. cbn [omap list_omap fst snd length].
  destruct (lock_parse v) as [l|?|]; [destruct (will_write l); cbn [length]|..]; lia.
Qed.

(** A full batch [b] of at least two locks, and the locks from its last one on:
    together they are all, and those are fewer than all. *)
Lemma batch_rest b x y rest :
  let all := b ++ [x; y] ++ rest in
  StronglySorted (fun a b : Key * Lock => blt a.1 b.1) all ->
  let tail := List.filter (fun kl => bleb y.1 kl.1) all in
  (forall kl, kl ∈ b ++ [x; y] \/ kl ∈ tail <-> kl ∈ all) /\ (length tail < length all)%nat.
Proof.
  cbn zeta. intros Hs. replace (b ++ [x; y] ++ rest) with ((b ++ [x]) ++ (y :: rest)) in * by (by rewrite <- app_assoc).
  set (tail := List.filter _ _).
  assert (tail = y :: rest) as ->.
  { apply StronglySorted_app in Hs as (Hlt & _ & Hr). unfold tail. rewrite List.filter_app.
    assert (forall l, (forall z, z ∈ l -> blt z.1 y.1) -> List.filter (fun kl : Key * Lock => bleb y.1 kl.1) l = []) as Hnone.
    { induction l as [|z l IH]; intros Hl; [done|]. cbn [List.filter]. rewrite (proj2 (bleb_gt y.1 z.1)) by (apply Hl; left).
      apply IH. intros z' Hz'. apply Hl. by right. }
    assert (forall l, (forall z, z ∈ l -> ble y.1 z.1) -> List.filter (fun kl : Key * Lock => bleb y.1 kl.1) l = l) as Hevery.
    { induction l as [|z l IH]; intros Hl; [done|]. cbn [List.filter]. rewrite (proj2 (bleb_le y.1 z.1)) by (apply Hl; left).
      f_equal. apply IH. intros z' Hz'. apply Hl. by right. }
    rewrite Hnone, Hevery; [done| |].
    - apply StronglySorted_inv in Hr as [_ Hf]. rewrite Forall_forall in Hf. intros z [->|Hz]%elem_of_cons; [apply ble_refl|by apply blt_ble, Hf].
    - intros z Hz. apply Hlt; [done|left]. }
  split; [intros kl; set_solver|]. rewrite !length_app. cbn [length]. lia.
Qed.

Section Task.
Variable e : Engine.
Hypothesis He : lock_cf_wf (cf_lock e).
Let snapshot := mk_snapshot e None.

Lemma entries_parse start : Forall (fun e => exists l, lock_parse e.2 = Ok l) (entries_from start (cf_lock e)).
Proof using He.
  apply Forall_forall. intros [k v] Hin. assert ((k, v) ∈ entries (cf_lock e)) as (l & _ & Hw & _ & ->)%elem_of_entries%He.
  { unfold entries_from in Hin. destruct start; [|done]. apply list_elem_of_In, List.filter_In in Hin as [Hin _]. by apply list_elem_of_In. }
  eexists. by apply lock_parse_to_bytes.
Qed.

Lemma sorted_filter {A} (R : A -> A -> Prop) p l : StronglySorted R l -> StronglySorted R (List.filter p l).
Proof using.
  induction 1 as [|x l Hs IH Hf]; [constructor|]. cbn. destruct (p x); [|done]. constructor; [done|].
  apply Forall_forall. intros z [Hz _]%list_elem_of_In%List.filter_In. rewrite Forall_forall in Hf. by apply Hf, list_elem_of_In.
Qed.

Lemma accepted_from_sorted start : StronglySorted (fun a b => blt a.1 b.1) (accepted (entries_from start (cf_lock e))).
Proof using. apply accepted_sorted. destruct start; [apply sorted_filter|]; apply entries_sorted. Qed.

(** The locks from a later key on. *)
Lemma accepted_from_later start kl : kl ∈ accepted (entries_from start (cf_lock e)) ->
  accepted (entries_from (Some kl.1) (cf_lock e)) = List.filter (fun kl' => bleb kl.1 kl'.1) (accepted (entries_from start (cf_lock e))).
Proof using.
  intros Hin. cbn [entries_from]. rewrite accepted_filter. destruct start as [k|]; [|done]. cbn [entries_from] in *. rewrite accepted_filter in *.
  apply list_elem_of_In, List.filter_In in Hin as [_ Hk%bleb_le].
  induction (accepted (entries (cf_lock e))) as [|z l IH]; [done|]. cbn [List.filter].
  destruct (bleb k z.1) eqn:Ez; cbn [List.filter]; rewrite IH; [done|]. destruct (bleb kl.1 z.1) eqn:Ez'; [|done].
  apply bleb_le in Ez'. apply bleb_gt in Ez. destruct (blt_irrefl k). eapply ble_lt_trans; [|done]. by eapply ble_trans.
Qed.

Lemma scan_batches_spec fuel : forall start, let all := accepted (entries_from start (cf_lock e)) in
  (length all < fuel)%nat -> exists batches, scan_batches fuel snapshot start = Ok batches /\ forall kl, kl ∈ concat batches <-> kl ∈ all.
Proof using He.
  induction fuel as [|fuel IH]; intros start all Hl; [lia|]. cbn [scan_batches]. unfold scan_batch, scan_locks_from_storage, DEFAULT_SCAN_BATCH_SIZE.
  change (cf_lock (snap_engine snapshot)) with (cf_lock e). change 128 with (Z.of_nat 128).
  rewrite (scan_cursor_spec 128) by (apply entries_parse || (cbn; lia)). fold all. cbn [length app Nat.sub mbind res_bind].
  case_bool_decide as Hfull; [|exists [take 128 all]; split; [done|]; intros kl; cbn; rewrite app_nil_r, take_ge by lia; done].
  assert (exists b x y rest, all = b ++ [x; y] ++ rest /\ take 128 all = b ++ [x; y]) as (b & x & y & rest & Eall & Et).
  { assert (length (drop 126 all) >= 2)%nat as Hd by (rewrite length_drop; lia).
    destruct (drop 126 all) as [|x [|y rest]] eqn:Ed; cbn in Hd; [lia..|]. exists (take 126 all), x, y, rest.
    rewrite <- (take_drop 126 all) at 1. rewrite Ed. split; [done|].
    rewrite <- (take_drop 126 all) at 1. rewrite take_app_ge, length_take by (rewrite length_take; lia).
    replace (128 - _)%nat with 2%nat by lia. by rewrite Ed. }
  rewrite Et, last_app. cbn [last]. destruct (batch_rest b x y rest) as [Hin Hless].
  { rewrite <- Eall. apply accepted_from_sorted. }
  rewrite <- Eall in Hin, Hless. pose proof (accepted_from_later start y) as Hlater. fold all in Hlater.
  rewrite <- Hlater in Hin, Hless by (rewrite Eall; set_solver). destruct y as [ky ly]. cbn [fst] in *.
  destruct (IH (Some ky)) as (batches & Eb & Hb); [lia|]. rewrite Eb. cbn [mbind res_bind].
  eexists. split; [done|]. intros kl. cbn [concat]. rewrite elem_of_app, Hb. apply Hin.
Qed.

(** The scan ends without an error, and its batches have exactly the locks that
    are going to write. *)
Lemma scan_task_exact : exists batches, scan_task snapshot = Ok batches /\
  forall k l, (k, l) ∈ concat batches <-> user_key k /\ kv_lock (view e k) = Some l /\ will_write l = true.
Proof using He.
  destruct (scan_batches_spec (S (size (cf_lock e))) None) as (batches & E & Hb).
  { pose proof (accepted_length (cf_lock e)). cbn [entries_from]. lia. }
  exists batches. split; [exact E|]. intros k l. rewrite Hb. cbn [entries_from]. rewrite elem_of_accepted.
  setoid_rewrite elem_of_entries. unfold view, lock_at. cbn [kv_lock]. split.
  - intros (v & Hv & Ep & Hw). rewrite Hv, Ep. destruct (He _ _ Hv) as (? & ? & _). done.
  - intros (_ & Hl & Hw). destruct (cf_lock e !! k) as [v|]; [|done]. exists v. destruct (lock_parse v); [|done..]. by injection Hl as ->.
Qed.
End Task.
