(* ===== verification/ObserveRegion.v ===== *)
(** * Observed regions (components/resolved_ts/src/endpoint.rs)

    A region that the store observes: the resolver, and until the scan of the
    region's locks is finished the rows that wait for it. The rows of applied
    commands go to the one or the other. The handlers of the endpoint register
    and drop observed regions and pass rows, scanned locks and timestamps on to
    them. [heap_size] is the memory that a key's buffer has allocated. *)
From S2P Require Import Prelude Number Bytes Timestamp Key Fields Lock Write OrderedMap PeerLocks Engine.
From S2P Require Import ChangeLog Resolver.
Local Open Scope Z_scope.

(** ** State *)

Inductive PendingLock :=
  | PTrack (key : Key) (start_ts : TimeStamp) (generation : Z)
  | PUntrack (key : Key) (start_ts commit_ts : option TimeStamp).

Inductive ResolverStatus :=
  | Pending (tracked_index : Z) (locks : list PendingLock)
  | Ready.

(** [or_version] is the version of the region's epoch, [or_handle] the id of
    the observation. *)
Record ObserveRegion := mk_region {
  or_version : Z;
  or_handle : Z;
  or_resolver : Resolver;
  or_status : ResolverStatus
}.

Definition region_new (version handle : Z) : ObserveRegion :=
  mk_region version handle (resolver_new true) (Pending 0 []).

Definition set_resolver (o : ObserveRegion) (r : Resolver) : ObserveRegion :=
  mk_region (or_version o) (or_handle o) r (or_status o).
Definition set_status (o : ObserveRegion) (s : ResolverStatus) : ObserveRegion :=
  mk_region (or_version o) (or_handle o) (or_resolver o) s.

(** Errors come with the state that is left: the region is dropped then. *)
Inductive obs_error := ObsQuotaExceeded (q : MemoryQuota) (o : ObserveRegion) | ObsAdmin (q : MemoryQuota) (o : ObserveRegion).

Abbreviation ores := (res obs_error (MemoryQuota * ObserveRegion)).

Definition to_raw_unwrap {E} (key : Key) : res E bytes := match key_to_raw key with Ok raw => Ok raw | _ => Panic end.

(** An operation on the resolver of the region. *)
Definition on_resolver (o : ObserveRegion) (x : rres (MemoryQuota * Resolver)) : ores :=
  match x with
  | Ok (q, r) => Ok (q, set_resolver o r)
  | Err (QuotaExceeded q r) => Err (ObsQuotaExceeded q (set_resolver o r))
  | Panic => Panic
  end.

Section Region.
Variable heap_size : Key -> Z.

Definition pending_key (lock : PendingLock) : Key := match lock with PTrack key _ _ => key | PUntrack key _ _ => key end.
Definition pending_size (lock : PendingLock) : Z := heap_size (pending_key lock).

(** Dropping a status that waits frees its memory. *)
Definition status_drop (q : MemoryQuota) (s : ResolverStatus) : MemoryQuota :=
  match s with
  | Pending _ [] | Ready => q
  | Pending _ locks => quota_free q (foldr (fun l total => pending_size l + total) 0 locks)
  end.

Definition push_pending_lock (q : MemoryQuota) (o : ObserveRegion) (lock : PendingLock) : ores :=
  match or_status o with
  | Ready => Panic
  | Pending idx locks =>
      match quota_alloc q (pending_size lock) with
      | (false, q) => Err (ObsQuotaExceeded q o)
      | (true, q) => Ok (q, set_status o (Pending idx (locks ++ [lock])))
      end
  end.

Definition update_pending_index (o : ObserveRegion) (index : Z) : res obs_error ObserveRegion :=
  match or_status o with
  | Ready => Panic
  | Pending idx locks => rassert (idx <? index) (Ok (set_status o (Pending index locks)))
  end.

(** ** Rows while the resolver waits for the scan *)

Definition pending_of_row (row : ChangeRow) : option PendingLock :=
  match row with
  | RowPrewrite key start_ts _ _ generation => Some (PTrack key start_ts generation)
  | RowCommit key _ start_ts commit_ts => Some (PUntrack key start_ts commit_ts)
  | RowOnePc _ _ _ _ | RowIngestSst => None
  end.

Fixpoint pend_rows (q : MemoryQuota) (o : ObserveRegion) (rows : list ChangeRow) : ores :=
  match rows with
  | [] => Ok (q, o)
  | row :: rows =>
      match pending_of_row row with
      | Some lock => '(q, o) ← push_pending_lock q o lock; pend_rows q o rows
      | None => pend_rows q o rows
      end
  end.

Fixpoint pend_logs (q : MemoryQuota) (o : ObserveRegion) (logs : list ChangeLog) : ores :=
  match logs with
  | [] => Ok (q, o)
  | LogError :: logs => pend_logs q o logs
  | LogAdmin _ :: _ => Err (ObsAdmin q o)
  | LogRows index rows :: logs =>
      '(q, o) ← pend_rows q o rows;
      o ← update_pending_index o index;
      pend_logs q o logs
  end.

(** ** Rows when it is ready *)

Definition track_row (q : MemoryQuota) (o : ObserveRegion) (index : Z) (row : ChangeRow) : ores :=
  match row with
  | RowPrewrite key start_ts _ _ generation =>
      raw ← to_raw_unwrap key;
      on_resolver o (track_lock q (or_resolver o) start_ts raw (Some index) generation)
  | RowCommit key _ _ _ =>
      raw ← to_raw_unwrap key;
      on_resolver o (untrack_lock q (or_resolver o) raw (Some index))
  | RowOnePc _ _ _ _ | RowIngestSst =>
      on_resolver o (r ← update_tracked_index (or_resolver o) index; Ok (q, r))
  end.

Fixpoint track_rows (q : MemoryQuota) (o : ObserveRegion) (index : Z) (rows : list ChangeRow) : ores :=
  match rows with
  | [] => Ok (q, o)
  | row :: rows => '(q, o) ← track_row q o index row; track_rows q o index rows
  end.

Definition key_range_changed (t : AdminCmdType) : bool := match t with AdOther => false | _ => true end.

Fixpoint track_logs (q : MemoryQuota) (o : ObserveRegion) (logs : list ChangeLog) : ores :=
  match logs with
  | [] => Ok (q, o)
  | LogError :: logs => track_logs q o logs
  | LogAdmin t :: logs =>
      track_logs q (if key_range_changed t then set_resolver o (stop_tracking (or_resolver o)) else o) logs
  | LogRows index rows :: logs => '(q, o) ← track_rows q o index rows; track_logs q o logs
  end.

Definition track_change_log (q : MemoryQuota) (o : ObserveRegion) (logs : list ChangeLog) : ores :=
  match or_status o with
  | Pending _ _ => pend_logs q o logs
  | Ready => track_logs q o logs
  end.

(** ** The scan of the region's locks *)

Inductive ScanEntries := ScanLock (locks : list (Key * Lock)) | ScanNone.

Fixpoint track_scanned (q : MemoryQuota) (o : ObserveRegion) (apply_index : Z) (locks : list (Key * Lock)) : ores :=
  match locks with
  | [] => Ok (q, o)
  | (key, lock) :: locks =>
      raw ← to_raw_unwrap key;
      '(q, o) ← on_resolver o (track_lock q (or_resolver o) (lock_ts lock) raw (Some apply_index) (lock_generation lock));
      track_scanned q o apply_index locks
  end.

(** The iterator frees the memory of a pending lock as it hands it out; what
    is left of it when an error ends the loop is dropped. *)
Fixpoint drain_pending (q : MemoryQuota) (o : ObserveRegion) (index : Z) (locks : list PendingLock) : ores :=
  match locks with
  | [] => Ok (q, o)
  | lock :: locks =>
      let q := quota_free q (pending_size lock) in
      raw ← to_raw_unwrap (pending_key lock);
      '(q, o) ← on_resolver o
                  (match lock with
                   | PTrack _ start_ts generation => track_lock q (or_resolver o) start_ts raw (Some index) generation
                   | PUntrack _ _ _ => untrack_lock q (or_resolver o) raw (Some index)
                   end);
      drain_pending q o index locks
  end.

Definition track_scan_locks (q : MemoryQuota) (o : ObserveRegion) (entries : ScanEntries) (apply_index : Z) : ores :=
  match entries with
  | ScanLock locks =>
      match or_status o with
      | Ready => Panic
      | Pending _ _ => track_scanned q o apply_index locks
      end
  | ScanNone =>
      '(q, o) ← on_resolver o (r ← update_tracked_index (or_resolver o) apply_index; Ok (q, r));
      match or_status o with
      | Ready => Panic
      | Pending pending_tracked_index locks => drain_pending q (set_status o Ready) pending_tracked_index locks
      end
  end.

(** ** The endpoint *)

(** [ep_next] is the id of the next observation. The scans that registering
    starts come back as [track_scan_locks] with the id of the observation. *)
Record Endpoint := mk_endpoint {
  ep_regions : gmap Z ObserveRegion;
  ep_quota : MemoryQuota;
  ep_next : Z
}.

Definition set_region (ep : Endpoint) (region_id : Z) (q : MemoryQuota) (o : ObserveRegion) : Endpoint :=
  mk_endpoint (<[region_id := o]> (ep_regions ep)) q (ep_next ep).

Abbreviation eres := (res unit Endpoint).

(** What the store has: whether there is a read progress for the region, and
    the version of the region. *)
Variable has_progress : Z -> bool.
Variable store_version : Z -> option Z.

Definition register_region (ep : Endpoint) (region_id version : Z) : eres :=
  rassert (bool_decide (ep_regions ep !! region_id = None))
    (if has_progress region_id
     then Ok (mk_endpoint (<[region_id := region_new version (ep_next ep)]> (ep_regions ep)) (ep_quota ep) (ep_next ep + 1))
     else Ok ep).

(** The region's status and resolver are dropped. *)
Definition deregister_region (ep : Endpoint) (region_id : Z) : Endpoint :=
  match ep_regions ep !! region_id with
  | Some o =>
      mk_endpoint (delete region_id (ep_regions ep))
        (resolver_drop (status_drop (ep_quota ep) (or_status o)) (or_resolver o)) (ep_next ep)
  | None => ep
  end.

Definition region_updated (ep : Endpoint) (region_id version : Z) : eres :=
  match ep_regions ep !! region_id with
  | Some o => if or_version o =? version then Ok ep else register_region (deregister_region ep region_id) region_id version
  | None => Ok ep
  end.

Definition re_register_region (ep : Endpoint) (region_id observe_id : Z) : eres :=
  match ep_regions ep !! region_id with
  | Some o =>
      if negb (or_handle o =? observe_id) then Ok ep
      else let ep := deregister_region ep region_id in
           match store_version region_id with Some v => register_region ep region_id v | None => Ok ep end
  | None => Ok ep
  end.

Record CmdBatch := mk_batch { cb_region_id : Z; cb_rts_id : Z; cb_cmds : list RaftCmd }.

Fixpoint handle_change_log (iter : gmap Key RowChange -> list (Key * RowChange)) (ep : Endpoint) (batches : list CmdBatch) : eres :=
  match batches with
  | [] => Ok ep
  | batch :: batches =>
      let region_id := cb_region_id batch in
      if bool_decide (cb_cmds batch = []) then handle_change_log iter ep batches
      else
        match ep_regions ep !! region_id with
        | None => handle_change_log iter ep batches
        | Some o =>
            if negb (or_handle o =? cb_rts_id batch) then handle_change_log iter ep batches
            else
              logs ← encode_change_log iter (cb_cmds batch);
              ep ← match track_change_log (ep_quota ep) o logs with
                   | Ok (q, o) => Ok (set_region ep region_id q o)
                   | Err (ObsQuotaExceeded q o) | Err (ObsAdmin q o) =>
                       re_register_region (set_region ep region_id q o) region_id (cb_rts_id batch)
                   | Panic => Panic
                   end;
              handle_change_log iter ep batches
        end
  end.

(** Errors of another kind are not looked at here. *)
Definition handle_scan_locks (ep : Endpoint) (region_id observe_id : Z) (entries : ScanEntries) (apply_index : Z) : eres :=
  match ep_regions ep !! region_id with
  | None => Ok ep
  | Some o =>
      if negb (or_handle o =? observe_id) then Ok ep
      else
        match track_scan_locks (ep_quota ep) o entries apply_index with
        | Ok (q, o) | Err (ObsAdmin q o) => Ok (set_region ep region_id q o)
        | Err (ObsQuotaExceeded q o) => re_register_region (set_region ep region_id q o) region_id observe_id
        | Panic => Panic
        end
  end.

(** Only regions that are ready are resolved. *)
Definition resolve_region (cache_get : TimeStamp -> option TxnState) (o : ObserveRegion) (ts : TimeStamp) (source : TsSource)
  : rres (option (Z * TimeStamp) * ObserveRegion) :=
  match or_status o with
  | Pending _ _ => Ok (None, o)
  | Ready => '(_, published, r) ← resolve cache_get (or_resolver o) ts source; Ok (published, set_resolver o r)
  end.

(** The pairs that are published, with the region. *)
Fixpoint handle_resolved_ts_advanced (cache_get : TimeStamp -> option TxnState) (ep : Endpoint) (regions : list Z)
    (ts : TimeStamp) (source : TsSource) : rres (list (Z * (Z * TimeStamp)) * Endpoint) :=
  match regions with
  | [] => Ok ([], ep)
  | region_id :: regions =>
      match ep_regions ep !! region_id with
      | None => handle_resolved_ts_advanced cache_get ep regions ts source
      | Some o =>
          '(published, o) ← resolve_region cache_get o ts source;
          let ep := set_region ep region_id (ep_quota ep) o in
          '(rest, ep) ← handle_resolved_ts_advanced cache_get ep regions ts source;
          Ok (match published with Some p => (region_id, p) :: rest | None => rest end, ep)
      end
  end.
End Region.
