(* ===== verification/ResolvedTs.v ===== *)
(** * The promise of the resolved timestamp

    The leader of a region tracks the locks of its log and publishes pairs of
    an index and a resolved timestamp; the replicas serve stale reads by them.
    Shown is that the pairs are true, whatever rows come, as long as every
    commit is above the timestamps the leader resolved with before the lock was
    written. That is what the timestamp oracle, and for async commit the
    concurrency manager, give. Put together with the read progress of a
    replica this makes stale reads complete. *)
From S2P Require Import Prelude Number Bytes Timestamp Key Fields Lock Write OrderedMap PeerLocks Engine.
From S2P Require Import ConcurrencyManager Reader Versions MvccTxn CheckTxnStatus Prewrite Commands PrewriteCommand.
From S2P Require Import KeyView Protocol ActionSpec ReadSpec PrewriteSpec PrewriteCommandSpec System Demo ChangeLog.
From S2P Require Import ChangeLogSpec Resolver ObserveRegion ReadProgress.
Local Open Scope Z_scope.

(** ** What an observed region does with rows *)

(** Tracking leaves these alone. *)
Record same_progress (r r' : Resolver) : Prop := mk_same {
  sp_resolved : resolved_ts r' = resolved_ts r;
  sp_stopped : stopped r' = stopped r;
  sp_progress : has_read_progress r' = has_read_progress r
}.

Lemma update_index_progress r index r' :
  update_index_opt r (Some index) = Ok r' -> same_progress r r' /\ tracked_index r <= index /\ tracked_index r' = index.
Proof.
  cbn. unfold update_tracked_index, rassert. destruct (Z.leb_spec (tracked_index r) index); [|done].
  intros [= <-]. by repeat split.
Qed.

Lemma track_lock_progress q r s raw index generation q' r' :
  track_lock q r s raw (Some index) generation = Ok (q', r') ->
  same_progress r r' /\ tracked_index r <= index /\ tracked_index r' = index.
Proof.
  unfold track_lock. intros Ht. destruct (update_index_opt r (Some index)) as [r0|?|] eqn:E; [|done..].
  destruct (update_index_progress _ _ _ E) as ([] & Hle & Hidx). cbn in Ht.
  destruct (generation =? 0).
  - unfold track_normal_lock in Ht. destruct (quota_alloc q _) as [[] ?]; [|done].
    destruct (locks_by_key r0 !! raw); injection Ht as <- <-; by repeat split.
  - injection Ht as <- <-. unfold track_large_txn_lock. destruct (large_txns r0 !! s); by repeat split.
Qed.

Lemma untrack_lock_progress q r raw index q' r' :
  untrack_lock q r raw (Some index) = Ok (q', r') ->
  same_progress r r' /\ tracked_index r <= index /\ tracked_index r' = index.
Proof.
  unfold untrack_lock. intros Ht. destruct (update_index_opt r (Some index)) as [r0|?|] eqn:E; [|done..].
  destruct (update_index_progress _ _ _ E) as ([] & Hle & Hidx). cbn in Ht.
  destruct (locks_by_key r0 !! raw); [|destruct (large_txn_key_representative r0 !! raw)]; injection Ht as <- <-; by repeat split.
Qed.

(** The result of rows: the table as [apply_rows] says, the rest as it was. *)
Record tracked_to (q : MemoryQuota) (o : ObserveRegion) (q' : MemoryQuota) (o' : ObserveRegion) : Prop := mk_tracked_to {
  tt_inv : resolver_inv q' (or_resolver o');
  tt_same : same_progress (or_resolver o) (or_resolver o');
  tt_status : or_status o' = or_status o;
  tt_quota : mq_in_use q' - mq_in_use q = locks_size (locks_by_key (or_resolver o')) - locks_size (locks_by_key (or_resolver o))
}.

Lemma on_resolver_ok o x q' o' : on_resolver o x = Ok (q', o') -> exists r', x = Ok (q', r') /\ o' = set_resolver o r'.
Proof. destruct x as [[q r]|[q r]|]; cbn; [|done..]. intros [= <- <-]. eauto. Qed.

Lemma to_raw_unwrap_ok {E} key raw : to_raw_unwrap (E := E) key = Ok raw -> unwrap (key_to_raw key) = Ok raw.
Proof. unfold to_raw_unwrap, unwrap. destruct (key_to_raw key); [|done..]. by intros [= ->]. Qed.

(** A row without lock only moves the index. *)
Lemma index_row_spec q o index q' o' :
  on_resolver o (r ← update_tracked_index (or_resolver o) index; Ok (q, r)) = Ok (q', o') -> resolver_inv q (or_resolver o) ->
  tracked_to q o q' o' /\ Ok (E := unit) (locks_by_key (or_resolver o)) = Ok (locks_by_key (or_resolver o')) /\
  tracked_index (or_resolver o) <= index /\ tracked_index (or_resolver o') = index.
Proof.
  intros Ht Hinv. apply on_resolver_ok in Ht as (r' & Ht & ->).
  destruct (update_tracked_index _ index) as [r0|?|] eqn:E; [|done..]. cbn in Ht. injection Ht as <- <-.
  destruct (update_index_progress _ _ _ E) as (Hs & Hle & Hidx).
  destruct (update_index_same _ (Some index) _ E) as [E1 E2]. cbn. rewrite E1. split; [|by split].
  split; [|done|done|cbn; rewrite E1; lia]. destruct Hinv. split; cbn; by rewrite ?E1, ?E2.
Qed.

Lemma track_row_spec q o index row q' o' :
  track_row q o index row = Ok (q', o') -> resolver_inv q (or_resolver o) ->
  tracked_to q o q' o' /\ apply_row (locks_by_key (or_resolver o)) row = Ok (locks_by_key (or_resolver o')) /\
  tracked_index (or_resolver o) <= index /\ tracked_index (or_resolver o') = index.
Proof.
  intros Ht Hinv. destruct row as [key s lt v g|key wt st c|key wt c v|]; cbn [track_row] in Ht; cbn [apply_row].
  - destruct (to_raw_unwrap key) as [raw|?|] eqn:Eraw; [|done..]. rewrite (to_raw_unwrap_ok _ _ Eraw). cbn [mbind res_bind] in Ht |- *.
    apply on_resolver_ok in Ht as (r' & Ht & ->). cbn.
    destruct (track_lock_spec _ _ _ _ _ _ _ _ Ht Hinv) as (Hi & Hl & Hquota).
    destruct (track_lock_progress _ _ _ _ _ _ _ _ Ht) as (Hs & Hle & Hidx). rewrite <- Hl. split; [by constructor | by split].
  - destruct (to_raw_unwrap key) as [raw|?|] eqn:Eraw; [|done..]. rewrite (to_raw_unwrap_ok _ _ Eraw). cbn [mbind res_bind] in Ht |- *.
    apply on_resolver_ok in Ht as (r' & Ht & ->). cbn.
    destruct (untrack_lock_spec _ _ _ _ _ _ Ht Hinv) as (Hi & Hl & Hquota).
    destruct (untrack_lock_progress _ _ _ _ _ _ Ht) as (Hs & Hle & Hidx). rewrite <- Hl. split; [by constructor | by split].
  - by apply index_row_spec.
  - by apply index_row_spec.
Qed.

(** ** Commits in rows *)

(** The version that a row commits. *)
Definition row_commit (row : ChangeRow) : option (bytes * TimeStamp) :=
  match row with
  | RowCommit key _ _ (Some c) | RowOnePc key _ c _ => match key_to_raw key with Ok raw => Some (raw, c) | _ => None end
  | _ => None
  end.

(** Where the commit timestamps come from. [born] is for every key the largest
    timestamp the leader had resolved with when the key was locked, [bound] the
    largest one so far. A commit is above the start timestamp of its lock, and
    it is above [born], for it was fetched, or computed from the largest read
    timestamp, after the lock was written. A one-phase commit is above
    [bound]. Nothing is said of commits on the keys in [hit]: those whose lock
    the leader may have lost track of. *)
Definition fresh_row (hit : bytes -> Prop) (T : gmap bytes TimeStamp) (born : bytes -> Z) (bound : Z) (row : ChangeRow) : Prop :=
  match row with
  | RowCommit key _ _ (Some c) =>
      forall raw, key_to_raw key = Ok raw -> ~ hit raw -> exists s, T !! raw = Some s /\ s < c /\ born raw < c
  | RowOnePc _ _ c _ => bound < c
  | _ => True
  end.

(** A key that is tracked anew is born at the bound. *)
Definition born_row (T : gmap bytes TimeStamp) (born : bytes -> Z) (bound : Z) (row : ChangeRow) : bytes -> Z :=
  match row with
  | RowPrewrite key _ _ _ _ => fun raw => if bool_decide (key_to_raw key = Ok raw /\ T !! raw = None) then bound else born raw
  | _ => born
  end.

Fixpoint fresh_rows (hit : bytes -> Prop) (T : gmap bytes TimeStamp) (born : bytes -> Z) (bound : Z) (rows : list ChangeRow) : Prop :=
  match rows with
  | [] => True
  | row :: rows =>
      fresh_row hit T born bound row /\
      match apply_row T row with Ok T' => fresh_rows hit T' (born_row T born bound row) bound rows | _ => True end
  end.

Fixpoint born_rows (T : gmap bytes TimeStamp) (born : bytes -> Z) (bound : Z) (rows : list ChangeRow) : bytes -> Z :=
  match rows with
  | [] => born
  | row :: rows =>
      match apply_row T row with
      | Ok T' => born_rows T' (born_row T born bound row) bound rows
      | _ => born
      end
  end.

(** The resolved timestamp is below every commit to come. *)
Definition stays_below (T : gmap bytes TimeStamp) (born : bytes -> Z) (bound resolved : Z) : Prop :=
  (forall raw s, T !! raw = Some s -> resolved <= Z.max s (born raw)) /\ resolved <= bound.

Lemma below_row T born bound resolved row T' :
  apply_row T row = Ok T' -> stays_below T born bound resolved -> stays_below T' (born_row T born bound row) bound resolved.
Proof.
  intros Ha [Hk Hb]. split; [|done]. intros raw s HT'.
  destruct row as [key s0 lt v g|key wt st c|key wt c v|]; cbn [apply_row born_row] in *; [| |by simplify_eq; auto..].
  - unfold unwrap in Ha. destruct (key_to_raw key) as [raw0|?|] eqn:Eraw; [|done..]. cbn in Ha. injection Ha as <-.
    case_bool_decide as Hnew; [lia|].
    assert (T !! raw = Some s) as HT; [|by apply Hk].
    destruct (g =? 0); [|done]. destruct (T !! raw0) eqn:E0; [done|].
    apply lookup_insert_Some in HT' as [[-> _] | [_ ?]]; [|done]. exfalso. by apply Hnew.
  - unfold unwrap in Ha. destruct (key_to_raw key) as [raw0|?|]; [|done..]. cbn in Ha. injection Ha as <-.
    apply lookup_delete_Some in HT' as [_ HT]. by apply Hk.
Qed.

Lemma below_commit hit T born bound resolved row raw c :
  fresh_row hit T born bound row -> stays_below T born bound resolved -> row_commit row = Some (raw, c) -> ~ hit raw -> resolved < c.
Proof.
  intros Hf [Hk Hb] Hc Hn. destruct row as [|key wt st [c0|]|key wt c0 v|]; cbn [fresh_row row_commit] in *; try done.
  - destruct (key_to_raw key) as [raw0|?|] eqn:Eraw; [|done..]. injection Hc as -> ->.
    destruct (Hf _ eq_refl Hn) as (s & Hs & Hlt & Hborn). specialize (Hk _ _ Hs). lia.
  - destruct (key_to_raw key) as [raw0|?|]; [|done..]. injection Hc as -> ->. lia.
Qed.

Lemma below_rows hit rows : forall T born bound resolved T',
  apply_rows T rows = Ok T' -> fresh_rows hit T born bound rows -> stays_below T born bound resolved ->
  stays_below T' (born_rows T born bound rows) bound resolved /\ Forall (fun x => ~ hit x.1 -> resolved < x.2) (omap row_commit rows).
Proof.
  induction rows as [|row rows IH]; intros T born bound resolved T' Ha Hf Hb; cbn [apply_rows fresh_rows born_rows] in *.
  { injection Ha as <-. split; [done | constructor]. }
  destruct Hf as [Hf Hrest]. destruct (apply_row T row) as [T1|?|] eqn:E1; [|done..]. cbn in Ha.
  destruct (IH _ _ _ _ _ Ha Hrest (below_row _ _ _ _ _ _ E1 Hb)) as [Hb' Hcs]. split; [done|].
  cbn. destruct (row_commit row) as [[raw c]|] eqn:Ec; [|done]. constructor; [by eapply below_commit | done].
Qed.

Lemma track_rows_spec rows : forall q o index q' o',
  track_rows q o index rows = Ok (q', o') -> resolver_inv q (or_resolver o) ->
  tracked_to q o q' o' /\ apply_rows (locks_by_key (or_resolver o)) rows = Ok (locks_by_key (or_resolver o')) /\
  (tracked_index (or_resolver o') = index \/ rows = [] /\ tracked_index (or_resolver o') = tracked_index (or_resolver o)).
Proof.
  induction rows as [|row rows IH]; intros q o index q' o' Ht Hinv; cbn in Ht.
  { injection Ht as <- <-. split; [split; try done; lia|]. split; [done | by right]. }
  destruct (track_row q o index row) as [[q1 o1]|?|] eqn:E1; [|done..]. cbn in Ht.
  destruct (track_row_spec _ _ _ _ _ _ E1 Hinv) as ([Hi1 Hs1 Hst1 Hq1] & Ha1 & _ & Hx1).
  destruct (IH _ _ _ _ _ Ht Hi1) as ([Hi Hs Hst Hq] & Ha & Hx).
  split; [|split].
  - split; [done | | congruence | lia]. destruct Hs1, Hs. split; congruence.
  - cbn. by rewrite Ha1.
  - left. destruct Hx as [Hx | [_ Hx]]; congruence.
Qed.

(** ** The leader of a region *)

(** The observed region with the log it was told of, the ghosts of
    [fresh_row], and the pairs it has published. *)
Record Leader := mk_lead {
  ld_quota : MemoryQuota;
  ld_region : ObserveRegion;
  ld_log : list (list LogCommit);
  ld_born : bytes -> Z;
  ld_bound : Z;
  ld_pairs : list (Z * TimeStamp)
}.

Definition ld_table (l : Leader) : gmap bytes TimeStamp := locks_by_key (or_resolver (ld_region l)).
Definition next_index (l : Leader) : Z := Z.of_nat (length (ld_log l)) + 1.

(** The versions that an entry commits are those of its rows. *)
Definition commits_of (commits : list LogCommit) (rows : list ChangeRow) : Prop :=
  map (fun r => (cm_key r, cm_ts r)) commits = omap row_commit rows.

Section Leader.
Variable heap_size : Key -> Z.
Variable hit : bytes -> Prop.

Inductive lead_step : Leader -> Leader -> Prop :=
  (* the next entry of the log has rows *)
  | lead_rows l rows commits q o :
      track_change_log heap_size (ld_quota l) (ld_region l) [LogRows (next_index l) rows] = Ok (q, o) ->
      fresh_rows hit (ld_table l) (ld_born l) (ld_bound l) rows -> commits_of commits rows ->
      lead_step l (mk_lead q o (ld_log l ++ [commits]) (born_rows (ld_table l) (ld_born l) (ld_bound l) rows)
                     (ld_bound l) (ld_pairs l))
  (* it is an admin command, or an error *)
  | lead_other l log q o :
      (forall index rows, log <> LogRows index rows) ->
      track_change_log heap_size (ld_quota l) (ld_region l) [log] = Ok (q, o) ->
      lead_step l (mk_lead q o (ld_log l ++ [[]]) (ld_born l) (ld_bound l) (ld_pairs l))
  (* other regions use the quota *)
  | lead_quota l q :
      quota_wf q -> locks_size (ld_table l) <= mq_in_use q ->
      lead_step l (mk_lead q (ld_region l) (ld_log l) (ld_born l) (ld_bound l) (ld_pairs l))
  (* the timestamp advances *)
  | lead_resolve l cache ts source published o :
      resolve_region cache (ld_region l) ts source = Ok (published, o) ->
      lead_step l (mk_lead (ld_quota l) o (ld_log l) (ld_born l) (Z.max (ld_bound l) ts)
                     (ld_pairs l ++ option_list published)).

(** A region that is ready and has published nothing. Its locks are tracked,
    and no entry after the tracked index commits anything. *)
Record lead_start (l : Leader) : Prop := mk_start {
  ls_ready : or_status (ld_region l) = Ready;
  ls_inv : resolver_inv (ld_quota l) (or_resolver (ld_region l));
  ls_resolved : resolved_ts (or_resolver (ld_region l)) = 0;
  ls_index : 0 <= tracked_index (or_resolver (ld_region l)) < next_index l;
  ls_after : rows_after (ld_log l) (tracked_index (or_resolver (ld_region l))) = [];
  ls_born : forall raw, 0 <= ld_born l raw;
  ls_bound : 0 <= ld_bound l;
  ls_pairs : ld_pairs l = []
}.

(** A published pair is below the present, and true of the log so far. *)
Definition pair_ok (l : Leader) (p : Z * TimeStamp) : Prop :=
  0 <= p.1 < next_index l /\ p.2 <= resolved_ts (or_resolver (ld_region l)) /\
  Forall (fun r => ~ hit (cm_key r) -> p.2 < cm_ts r) (rows_after (ld_log l) p.1).

Record lead_inv (l : Leader) : Prop := mk_lead_inv {
  li_ready : or_status (ld_region l) = Ready;
  li_inv : resolver_inv (ld_quota l) (or_resolver (ld_region l));
  li_below : stays_below (ld_table l) (ld_born l) (ld_bound l) (resolved_ts (or_resolver (ld_region l)));
  li_index : 0 <= tracked_index (or_resolver (ld_region l)) < next_index l;
  li_after : rows_after (ld_log l) (tracked_index (or_resolver (ld_region l))) = [];
  li_pairs : Forall (pair_ok l) (ld_pairs l)
}.

Lemma lead_start_inv l : lead_start l -> lead_inv l.
Proof.
  intros []. split; auto; [|by rewrite ls_pairs0]. split; rewrite ls_resolved0; [|done].
  intros raw s _. specialize (ls_born0 raw). lia.
Qed.

Lemma rows_after_snoc log i commits :
  0 <= i -> (Z.to_nat i <= length log)%nat -> rows_after (log ++ [commits]) i = rows_after log i ++ commits.
Proof.
  intros Hi Hle. unfold rows_after. rewrite drop_app_le by done. by rewrite concat_app; cbn; rewrite app_nil_r.
Qed.

Lemma rows_after_end log i : Z.of_nat (length log) <= i -> rows_after log i = [].
Proof. intros Hle. unfold rows_after. by rewrite drop_ge by lia. Qed.

(** Pairs stay true when what is committed next is above the resolved
    timestamp. *)
Lemma pair_ok_snoc l commits l' p :
  pair_ok l p -> ld_log l' = ld_log l ++ [commits] ->
  resolved_ts (or_resolver (ld_region l)) <= resolved_ts (or_resolver (ld_region l')) ->
  Forall (fun r => ~ hit (cm_key r) -> resolved_ts (or_resolver (ld_region l)) < cm_ts r) commits -> pair_ok l' p.
Proof.
  unfold pair_ok, next_index. intros (Hi & Hr & Hf) Elog Hmono Hc. rewrite Elog, length_app, rows_after_snoc by lia. cbn.
  split_and!; [lia | lia | lia |]. apply Forall_app. split; [done|]. eapply Forall_impl; [exact Hc|]. cbn. intros r Hgt Hn. specialize (Hgt Hn). lia.
Qed.

Lemma commits_above commits rows bound :
  commits_of commits rows -> Forall (fun x => ~ hit x.1 -> bound < x.2) (omap row_commit rows) ->
  Forall (fun r => ~ hit (cm_key r) -> bound < cm_ts r) commits.
Proof. intros Hc Hf. unfold commits_of in Hc. rewrite <- Hc in Hf. rewrite List.Forall_map in Hf. exact Hf. Qed.

Lemma lead_rows_inv l rows commits q o :
  lead_inv l -> track_change_log heap_size (ld_quota l) (ld_region l) [LogRows (next_index l) rows] = Ok (q, o) ->
  fresh_rows hit (ld_table l) (ld_born l) (ld_bound l) rows -> commits_of commits rows ->
  lead_inv (mk_lead q o (ld_log l ++ [commits]) (born_rows (ld_table l) (ld_born l) (ld_bound l) rows) (ld_bound l) (ld_pairs l)).
Proof.
  intros [Hready Hinv Hbelow Hidx Hafter Hpairs] Ht Hf Hc. unfold track_change_log in Ht. rewrite Hready in Ht. cbn [track_logs] in Ht.
  destruct (track_rows _ _ _ rows) as [[q1 o1]|?|] eqn:Er; [|done..]. cbn in Ht. injection Ht as -> ->.
  destruct (track_rows_spec _ _ _ _ _ _ Er Hinv) as ([Hinv' [Hres _ _] Hst _] & Ha & Hx).
  destruct (below_rows _ _ _ _ _ _ _ Ha Hf Hbelow) as [Hbelow' Habove].
  pose proof (commits_above _ _ _ Hc Habove) as Hcs.
  assert (tracked_index (or_resolver o) = next_index l -> rows_after (ld_log l ++ [commits]) (tracked_index (or_resolver o)) = []) as Hend.
  { intros ->. apply rows_after_end. rewrite length_app. unfold next_index. cbn. lia. }
  split; cbn; rewrite ?Hres; try done; [congruence | | |].
  - unfold next_index in *. cbn. rewrite length_app. cbn. destruct Hx as [-> | [_ ->]]; lia.
  - destruct Hx as [Hx | [-> Hx]]; [by apply Hend|]. unfold next_index in Hidx. rewrite Hx, rows_after_snoc, Hafter by lia.
    by destruct commits.
  - eapply Forall_impl; [exact Hpairs|]. intros p Hp. eapply pair_ok_snoc; [done | done | cbn; lia | done].
Qed.

(** Entries without rows only stop the resolver, if that. *)
Lemma track_other q o log q' o' :
  or_status o = Ready -> (forall index rows, log <> LogRows index rows) ->
  track_change_log heap_size q o [log] = Ok (q', o') ->
  q' = q /\ (o' = o \/ o' = set_resolver o (stop_tracking (or_resolver o))).
Proof.
  intros Hready Hlog. unfold track_change_log. rewrite Hready. destruct log as [|index rows|t]; [by intros [= <- <-]; auto | by destruct (Hlog index rows) |].
  cbn. destruct (key_range_changed t); intros [= <- <-]; auto.
Qed.

Lemma lead_other_inv l log q o :
  lead_inv l -> (forall index rows, log <> LogRows index rows) ->
  track_change_log heap_size (ld_quota l) (ld_region l) [log] = Ok (q, o) ->
  lead_inv (mk_lead q o (ld_log l ++ [[]]) (ld_born l) (ld_bound l) (ld_pairs l)).
Proof.
  intros [Hready Hinv Hbelow Hidx Hafter Hpairs] Hlog Ht.
  destruct (track_other _ _ _ _ _ Hready Hlog Ht) as [-> Ho].
  assert (rows_after (ld_log l ++ [[]]) (tracked_index (or_resolver (ld_region l))) = []) as Hafter'.
  { unfold next_index in Hidx. rewrite rows_after_snoc, Hafter by lia. done. }
  assert (0 <= tracked_index (or_resolver (ld_region l)) < Z.of_nat (length (ld_log l ++ [[]])) + 1) as Hidx'.
  { unfold next_index in Hidx. rewrite length_app. cbn. lia. }
  assert (forall l', ld_log l' = ld_log l ++ [[]] ->
    resolved_ts (or_resolver (ld_region l')) = resolved_ts (or_resolver (ld_region l)) -> Forall (pair_ok l') (ld_pairs l)) as Hpairs'.
  { intros l' El Er. eapply Forall_impl; [exact Hpairs|]. intros p Hp.
    eapply pair_ok_snoc; [done | done | by rewrite Er | constructor]. }
  destruct Ho as [-> | ->]; split; cbn; try done; try (by apply Hpairs'). destruct Hinv. by split.
Qed.

Lemma lead_resolve_inv l cache ts source published o :
  lead_inv l -> resolve_region cache (ld_region l) ts source = Ok (published, o) ->
  lead_inv (mk_lead (ld_quota l) o (ld_log l) (ld_born l) (Z.max (ld_bound l) ts) (ld_pairs l ++ option_list published)).
Proof.
  intros [Hready Hinv [Hbk Hbb] Hidx Hafter Hpairs] Hr. unfold resolve_region in Hr. rewrite Hready in Hr.
  destruct (resolve cache (or_resolver (ld_region l)) ts source) as [[[t pub] r']|?|] eqn:E; [|done..].
  cbn in Hr. injection Hr as -> <-. pose proof (resolve_spec _ _ _ _ _ _ _ _ E Hinv) as Hs.
  destruct (stopped (or_resolver (ld_region l))).
  - destruct Hs as (-> & -> & ->). cbn. rewrite app_nil_r. split; cbn; try done. split; [done|lia].
  - destruct Hs as [Hts Hmono Hmin Hlocks Hpub Hk Hh Hi]. split; cbn; rewrite ?Hi; try done.
    + destruct Hinv. split; cbn; by rewrite ?Hk, ?Hh.
    + unfold ld_table. cbn. rewrite Hk, Hts. split; [|lia]. intros raw s Hs. specialize (Hbk _ _ Hs). specialize (Hlocks _ _ Hs). lia.
    + apply Forall_app. split.
      * eapply Forall_impl; [exact Hpairs|]. intros p (Hp1 & Hp2 & Hp3). split_and!; cbn; [apply Hp1.. | lia | done].
      * rewrite Hpub. destruct (has_read_progress _); cbn; [|constructor]. apply Forall_singleton.
        split_and!; cbn; [apply Hidx.. | lia | by rewrite Hafter].
Qed.

Lemma lead_step_inv l l' : lead_step l l' -> lead_inv l -> lead_inv l'.
Proof.
  intros Hstep Hl. destruct Hstep as [l rows commits q o Ht Hf Hc | l log q o Hlog Ht | l q Hq Hle | l cache ts source pub o Hr].
  - by apply lead_rows_inv.
  - by eapply lead_other_inv.
  - destruct Hl as [Hready [] Hbelow Hidx Hafter Hpairs]. by split.
  - by eapply lead_resolve_inv.
Qed.

Lemma lead_steps_inv l l' : rtc lead_step l l' -> lead_inv l -> lead_inv l'.
Proof. induction 1; eauto using lead_step_inv. Qed.

(** The pair promises that whatever is committed past its index, but on the
    keys in [hit], is above its timestamp. *)
Definition pair_true (log : list (list LogCommit)) (idx ts : Z) : Prop :=
  forall r, r ∈ rows_after log idx -> ~ hit (cm_key r) -> ts < cm_ts r.

(** The pairs the leader publishes are true. Start from a region that is
    ready with its locks tracked, let it observe any log and resolve with any
    timestamps. If every commit is above the start of its lock and above the
    timestamps resolved with before the lock was tracked, and every one-phase
    commit above those resolved with before it, then nothing that the log
    commits past the index of a published pair is at or below the pair's
    timestamp. *)
Lemma pairs_true l0 l :
  lead_start l0 -> rtc lead_step l0 l -> Forall (fun x => 0 <= x.1 /\ pair_true (ld_log l) x.1 x.2) (ld_pairs l).
Proof.
  intros Hs Hsteps. destruct (lead_steps_inv _ _ Hsteps (lead_start_inv _ Hs)) as [_ _ _ _ _ Hp].
  eapply Forall_impl; [exact Hp|]. intros [idx ts] ([Hi _] & _ & Hf). split; [done|]. intros r Hr. by eapply Forall_forall in Hf.
Qed.
End Leader.

(** No key. *)
Definition nowhere : bytes -> Prop := fun _ => False.

(** ** The log of one key *)

Definition key_log (key : bytes) (log : list (list LogCommit)) : list (list LogCommit) :=
  map (List.filter (fun r => bool_decide (cm_key r = key))) log.

Lemma concat_key_log key log : concat (key_log key log) = List.filter (fun r => bool_decide (cm_key r = key)) (concat log).
Proof. induction log as [|rs log IH]; [done|]. unfold key_log in *. cbn [map concat]. by rewrite IH, List.filter_app. Qed.

(** A read of the key does not look at others. *)
Lemma stale_get_key_log log applied key ts : stale_get (key_log key log) applied key ts = stale_get log applied key ts.
Proof.
  unfold stale_get, rows_upto. unfold key_log. rewrite firstn_map. fold (key_log key (firstn (Z.to_nat applied) log)).
  change (firstn (Z.to_nat applied) log) with (take (Z.to_nat applied) log). rewrite concat_key_log.
  generalize (concat (take (Z.to_nat applied) log)) (None : option LogCommit). intros rs. induction rs as [|r rs IH]; intros best; [done|]. cbn.
  case_bool_decide as Hk; cbn [foldl]; [by rewrite IH|]. rewrite IH. f_equal. unfold newer at 1. by rewrite bool_decide_eq_false_2.
Qed.

Lemma rows_after_key_log log idx key r : r ∈ rows_after (key_log key log) idx <-> r ∈ rows_after log idx /\ cm_key r = key.
Proof.
  unfold rows_after, key_log. rewrite skipn_map. fold (key_log key (skipn (Z.to_nat idx) log)).
  change (skipn (Z.to_nat idx) log) with (drop (Z.to_nat idx) log). by rewrite concat_key_log, elem_of_filter_b, bool_decide_eq_true.
Qed.

(** A true pair is a promise about the log of a key that is not [hit]. *)
Lemma pair_true_key hit log key idx ts : ~ hit key -> pair_true hit log idx ts -> covers (key_log key log) (fun _ => 0) idx ts.
Proof. intros Hn Hp r Hr _. apply rows_after_key_log in Hr as [Hr <-]. by apply Hp. Qed.

(** ** Leader and replica *)

(** One operation on a replica of a region that is not merged; the pairs it
    gets are of those the leader has published, in any order, any number of
    times. *)
Inductive replica_step (pairs : list (Z * TimeStamp)) : RegionReadProgress -> RegionReadProgress -> Prop :=
  | rep_applied p applied p' : update_applied p applied = Ok p' -> replica_step pairs p p'
  | rep_safe_ts capacity p idx ts : (idx, ts) ∈ pairs -> replica_step pairs p (update_safe_ts capacity p idx ts)
  | rep_leader_info capacity p li :
      (forall rs, li_read_state li = Some rs -> (rs_idx rs, rs_ts rs) ∈ pairs) ->
      replica_step pairs p (consume_leader_info capacity p li).2
  | rep_leader p peer_id term region : replica_step pairs p (update_leader_info p peer_id term region)
  | rep_pause p : replica_step pairs p (rrp_pause p)
  | rep_discard p : replica_step pairs p (rrp_discard p)
  | rep_resume p : replica_step pairs p (rrp_resume p)
  | rep_read_index p start_ts : replica_step pairs p (update_read_index_safe_ts p start_ts).

Lemma update_applied_grows p applied p' : update_applied p applied = Ok p' -> rc_applied_index (rp_core p) <= rc_applied_index (rp_core p').
Proof.
  unfold update_applied, core_update_applied, rassert. destruct (Z.leb_spec (rc_applied_index (rp_core p)) applied); [|done].
  destruct (consume _ _ _) as [to rest]. destruct (_ <? _); cbn; intros [= <-]; cbn; lia.
Qed.

(** With true pairs these are steps of the read progress. *)
Lemma replica_step_ok log pairs p p' :
  Forall (fun x => 0 <= x.1 /\ covers log (fun _ => 0) x.1 x.2) pairs -> 0 <= rc_applied_index (rp_core p) ->
  replica_step pairs p p' -> rrp_step log (fun _ => 0) 0 p p'.
Proof.
  intros Hpairs Hpos Hstep.
  assert (forall idx ts q, (idx, ts) ∈ pairs -> covers log (fun _ => 0) idx ts /\ in_order (fun _ => 0) 0 q idx) as Hpair.
  { intros idx ts q Hin. eapply Forall_forall in Hpairs as [Hi Hc]; [|exact Hin]. split; [done|]. split; [done|].
    intros prev _ key _. done. }
  destruct Hstep as [p a p' Hu | cap p idx ts Hin | cap p li Hli | | | | | ]; try (by constructor).
  - eapply step_applied; [done|]. by intros key.
  - destruct (Hpair idx ts (rp_core p) Hin). by apply step_safe_ts.
  - apply step_leader_info. intros rs Hrs. apply Hpair. by apply Hli.
Qed.

Lemma update_safe_ts_applied capacity p idx ts :
  rc_applied_index (rp_core (update_safe_ts capacity p idx ts)) = rc_applied_index (rp_core p).
Proof.
  unfold update_safe_ts. case_match; [done|]. case_match; [done|]. unfold core_update_safe_ts.
  repeat (case_match; simplify_eq; try done).
Qed.

Lemma replica_applied_grows pairs p p' : replica_step pairs p p' -> rc_applied_index (rp_core p) <= rc_applied_index (rp_core p').
Proof.
  intros Hstep. destruct Hstep as [p a p' Hu | cap p idx ts Hin | cap p li Hli | | | | |p start_ts]; try (cbn; lia).
  - by eapply update_applied_grows.
  - rewrite update_safe_ts_applied. lia.
  - cbn. destruct (li_read_state li); [rewrite update_safe_ts_applied|]; lia.
  - unfold update_read_index_safe_ts. repeat case_match; cbn; lia.
Qed.

Lemma replica_steps_ok log pairs p p' :
  Forall (fun x => 0 <= x.1 /\ covers log (fun _ => 0) x.1 x.2) pairs -> 0 <= rc_applied_index (rp_core p) ->
  rtc (replica_step pairs) p p' -> rtc (rrp_step log (fun _ => 0) 0) p p' /\ 0 <= rc_applied_index (rp_core p').
Proof.
  intros Hpairs Hpos Hsteps. induction Hsteps as [p|p p1 p' Hstep Hsteps IH]; [done|].
  destruct IH as [IH IHpos]; [pose proof (replica_applied_grows _ _ _ Hstep); lia|]. split; [|done].
  eapply rtc_l; [by eapply replica_step_ok | done].
Qed.


(** ** An example *)

Definition key_len (key : Key) : Z := Z.of_nat (length key).

Definition observe_rows (l : Leader) (rows : list ChangeRow) (commits : list LogCommit) : Leader :=
  match track_change_log key_len (ld_quota l) (ld_region l) [LogRows (next_index l) rows] with
  | Ok (q, o) => mk_lead q o (ld_log l ++ [commits]) (born_rows (ld_table l) (ld_born l) (ld_bound l) rows) (ld_bound l) (ld_pairs l)
  | _ => l
  end.
Definition no_cache : TimeStamp -> option TxnState := fun _ => None.
Definition advance (l : Leader) (ts : TimeStamp) : Leader :=
  match resolve_region no_cache (ld_region l) ts SrcPdTso with
  | Ok (published, o) => mk_lead (ld_quota l) o (ld_log l) (ld_born l) (Z.max (ld_bound l) ts) (ld_pairs l ++ option_list published)
  | _ => l
  end.

(** A key is locked at 10, then committed at 15; the leader resolves with 12
    in between and with 20 afterwards. *)
Definition lead0 : Leader := mk_lead (quota_new 1000) (mk_region 1 0 (resolver_new true) Ready) [] (fun _ => 0) 0 [].
Definition lead1 : Leader := observe_rows lead0 [RowPrewrite k 10 LTPut None 0] [].
Definition lead2 : Leader := advance lead1 12.
Definition lead3 : Leader := observe_rows lead2 [RowCommit k WTPut (Some 10) (Some 15)] [mk_commit raw_k 15 [Byte.x61]].
Definition lead4 : Leader := advance lead3 20.

Lemma lead4_pairs : ld_pairs lead4 = [(1, 10); (2, 20)].
Proof. vm_compute. reflexivity. Qed.

Lemma resolver_new_inv q read_progress : quota_wf q -> resolver_inv q (resolver_new read_progress).
Proof.
  intros Hq. split; [|done| |apply map_Forall_empty].
  - intros ts. cbn. rewrite lookup_empty. apply map_filter_empty.
  - cbn. unfold locks_size. rewrite map_fold_empty. apply Hq.
Qed.

Lemma lead0_start : lead_start lead0.
Proof. split; done. Qed.

Lemma observe_step l rows commits :
  (exists x, track_change_log key_len (ld_quota l) (ld_region l) [LogRows (next_index l) rows] = Ok x) ->
  fresh_rows nowhere (ld_table l) (ld_born l) (ld_bound l) rows -> commits_of commits rows ->
  lead_step key_len nowhere l (observe_rows l rows commits).
Proof. intros [[q o] E] Hf Hc. unfold observe_rows. rewrite E. by eapply lead_rows. Qed.

Lemma advance_step l ts :
  (exists x, resolve_region no_cache (ld_region l) ts SrcPdTso = Ok x) -> lead_step key_len nowhere l (advance l ts).
Proof. intros [[published o] E]. unfold advance. rewrite E. by eapply lead_resolve. Qed.

Lemma lead4_steps : rtc (lead_step key_len nowhere) lead0 lead4.
Proof.
  apply rtc_l with lead1. { apply observe_step; [eexists; vm_compute; reflexivity | done | done]. }
  apply rtc_l with lead2. { apply advance_step. eexists. vm_compute. reflexivity. }
  apply rtc_l with lead3.
  { apply observe_step; [eexists; vm_compute; reflexivity | | vm_compute; reflexivity].
    split; [|by vm_compute]. intros raw Hraw _. assert (raw = raw_k) as -> by (vm_compute in Hraw |- *; congruence).
    exists 10. vm_compute. auto. }
  apply rtc_once, advance_step. eexists. vm_compute. reflexivity.
Qed.

Definition rep0 : RegionReadProgress := rrp_new (mk_meta (1, 1) []) 1 false.
Definition rep1 : RegionReadProgress := update_safe_ts 4 rep0 1 10.

