(* ===== verification/ResolvedTsSystem.v ===== *)
(** * The resolved timestamp of the transaction system

    The write commands of the transaction layer, the rows their requests make,
    and the leader's resolver together. The commands keep the resolver's table
    exact, and no commit is at or below the resolved timestamp, except on keys
    that a rollback does not spare. Two rollbacks that break the table are
    shown at the end. *)
From S2P Require Import Prelude Number Bytes Timestamp Key Fields Lock Write OrderedMap PeerLocks Engine.
From S2P Require Import ConcurrencyManager Reader Versions MvccTxn CheckTxnStatus Prewrite Commands PrewriteCommand.
From S2P Require Import KeyView Protocol ActionSpec ReadSpec PrewriteSpec PrewriteCommandSpec System Demo ChangeLog.
From S2P Require Import ChangeLogSpec CommandRows Resolver ObserveRegion ReadProgress ResolvedTs.
Local Open Scope Z_scope.

(** ** Commits are fresh *)

Section Fresh.
Variable hit : bytes -> Prop.

Lemma fresh_quiet bound rows : forall T born, Forall quiet_row rows -> fresh_rows hit T born bound rows.
Proof.
  induction rows as [|row rows IH]; intros T born Hf; [done|]. apply Forall_cons in Hf as [Hq Hf].
  cbn [fresh_rows]. split; [by destruct row as [|? ? ? []| |]|]. destruct (apply_row T _); [by apply IH | done..].
Qed.

Lemma fresh_at_once bound c rows : forall T born,
  bound < c -> Forall (fun r => exists k wt v, r = RowOnePc k wt c v) rows -> fresh_rows hit T born bound rows.
Proof.
  induction rows as [|row rows IH]; intros T born Hlt Hf; [done|]. apply Forall_cons in Hf as [(k & wt & v & ->) Hf].
  cbn [fresh_rows apply_row]. split; [done|]. by apply IH.
Qed.

Lemma fresh_commits bound born st c rows : forall T,
  NoDup (omap row_key rows) -> st < c ->
  Forall (fun r => exists raw wt, r = RowCommit (key_from_raw raw) wt (Some st) (Some c) /\
                     (~ hit raw -> T !! raw = Some st /\ born raw < c)) rows ->
  fresh_rows hit T born bound rows.
Proof.
  induction rows as [|row rows IH]; intros T Hnd Hlt Hf; [done|].
  apply Forall_cons in Hf as [(raw & wt & -> & HT) Hf]. cbn [omap list_omap row_key] in Hnd. apply NoDup_cons in Hnd as [Hnk Hnd].
  cbn [fresh_rows fresh_row apply_row born_row]. rewrite key_to_raw_from_raw. cbn [unwrap mbind res_bind]. split.
  - intros raw' [= <-] Hn. destruct (HT Hn). eauto.
  - apply IH; [done..|]. apply Forall_forall. intros r Hr. rewrite Forall_forall in Hf.
    destruct (Hf r Hr) as (raw' & wt' & -> & HT'). exists raw', wt'. split; [done|].
    rewrite lookup_delete_ne; [done|]. intros ->. apply Hnk. apply list_elem_of_omap.
    exists (RowCommit (key_from_raw raw') wt' (Some st) (Some c)). done.
Qed.
End Fresh.

(** ** The system *)

(** The leader is told the rows of its next entry. *)
Definition told (l : Leader) (rows : list ChangeRow) (commits : list LogCommit) (q : MemoryQuota) (o : ObserveRegion) : Leader :=
  mk_lead q o (ld_log l ++ [commits]) (born_rows (ld_table l) (ld_born l) (ld_bound l) rows) (ld_bound l) (ld_pairs l).

Section System.
Variable heap_size : Key -> Z.
Variable iter : gmap Key RowChange -> list (Key * RowChange).
Hypothesis iter_entries : forall m, iter m ≡ₚ map_to_list m.
(** The keys for which the rows of some rollback may mislead the leader. *)
Variable hit : bytes -> Prop.

(** A command's modifications are written, and its rows go to the leader. *)
Definition applies (is_one_pc : bool) (e : Engine) (l : Leader) (modifies : list Modify) (e' : Engine) (l' : Leader) : Prop :=
  write_modifies (E := kv_error) e modifies = Ok e' /\
  exists rows commits q o,
    change_rows iter is_one_pc (map request_of modifies) = Ok rows /\ commits_of commits rows /\
    track_change_log heap_size (ld_quota l) (ld_region l) [LogRows (next_index l) rows] = Ok (q, o) /\
    l' = told l rows commits q o.

(** The commit timestamp is fetched after the locks are written, and the
    leader's resolver is given timestamps that were fetched before; ordinary
    transactions. *)
Definition commit_fresh (e : Engine) (l : Leader) (st c : TimeStamp) (key : Key) : Prop :=
  forall raw lock, key = key_from_raw raw -> ~ hit raw -> kv_lock (view e key) = Some lock -> lock_ts lock = st ->
    lock_generation lock = 0 /\ ld_born l raw < c.

(** The commands of the transaction system, each with its rows, and the
    leader's own work. *)
Inductive rts_step : Engine * Leader -> Engine * Leader -> Prop :=
  | rts_command e l one_pc ms e' l' :
      command_on hit (commit_fresh e l) (fun c => ld_bound l < c) e one_pc ms -> applies one_pc e l ms e' l' ->
      rts_step (e, l) (e', l')
  | rts_other e l log q o :
      (forall index rows, log <> LogRows index rows) ->
      track_change_log heap_size (ld_quota l) (ld_region l) [log] = Ok (q, o) ->
      rts_step (e, l) (e, mk_lead q o (ld_log l ++ [[]]) (ld_born l) (ld_bound l) (ld_pairs l))
  | rts_quota e l q :
      quota_wf q -> locks_size (ld_table l) <= mq_in_use q ->
      rts_step (e, l) (e, mk_lead q (ld_region l) (ld_log l) (ld_born l) (ld_bound l) (ld_pairs l))
  | rts_resolve e l cache ts source published o :
      resolve_region cache (ld_region l) ts source = Ok (published, o) ->
      rts_step (e, l) (e, mk_lead (ld_quota l) o (ld_log l) (ld_born l) (Z.max (ld_bound l) ts) (ld_pairs l ++ option_list published)).

Record rts_inv (x : Engine * Leader) : Prop := mk_rts_inv {
  rt_sys : sys_inv x.1;
  rt_lead : lead_inv hit x.2;
  rt_table : table_of hit x.1 (ld_table x.2)
}.

(** The rows of a command are fresh: they commit at the timestamps that were
    asked for, or nothing. *)
Lemma effect_fresh e l one_pc tr rows :
  rts_inv (e, l) -> trace_rows tr -> effect hit (commit_fresh e l) (fun c => ld_bound l < c) e one_pc tr ->
  change_rows iter one_pc (map request_of (emit tr)) = Ok rows -> fresh_rows hit (ld_table l) (ld_born l) (ld_bound l) rows.
Proof using iter_entries.
  intros Hinv Htr Heff Er. destruct (trace_rows_elem iter iter_entries _ _ _ Htr Er) as [Hnd Hrows].
  pose proof (rt_sys _ Hinv) as [_ Hk]. cbn [fst] in Hk.
  assert (forall k, Forall kmod_wf (of_key k tr)) as Hwf.
  { intros k. apply Forall_forall. intros m Hm%elem_of_of_key. destruct Htr as [Hf _]. rewrite Forall_forall in Hf. by apply (Hf _ Hm). }
  destruct Heff as [tr Hp|st c tr Hp Hlt|st c tr Hp Hlt Hfr|st keys tr Hby Hsp].
  - apply fresh_quiet, Forall_forall. intros r Hr. destruct (Hrows r Hr) as (k & d & _ & He).
    destruct (prewrite_row e tr k d r Hp) as (s0 & lt & v & g & ->); [|done|done].
    intros k' m Hin. destruct Htr as [Hf _]. rewrite Forall_forall in Hf. by apply (Hf _ Hin).
  - eapply fresh_at_once; [done|]. apply Forall_forall. intros r Hr. destruct (Hrows r Hr) as (k & d & _ & He).
    destruct (at_once_row e st c tr k d r Hp He) as (wt & v & ->). eauto.
  - apply fresh_commits with st c; [done..|]. apply Forall_forall. intros r Hr.
    destruct (Hrows r Hr) as (k & d & [raw ->] & He). destruct (commit_row _ _ _ _ _ _ _ Hp He) as (wt & lock & -> & Hl & Hts & Hty).
    exists raw, wt. split; [done|]. intros Hn.
    destruct (Hfr (key_from_raw raw)) with (raw := raw) (lock := lock) as [Hg Hb]; [by intros E; rewrite E in He|done..|].
    split; [|done]. pose proof (rt_table _ Hinv raw Hn) as HT. cbn [fst snd] in HT. rewrite HT, Hl. unfold tracked.
    rewrite bool_decide_eq_true_2 by done. rewrite Hg, Hts. done.
  - apply fresh_quiet, Forall_forall. intros r Hr. destruct (Hrows r Hr) as (k & d & Hu & He).
    eapply (resolve_row e st k); [by apply Hk|apply Hwf| |exact He]. destruct (Hby k) as [-> |[_ H]]; [apply resolves_nil|done].
Qed.

(** A command keeps the leader's part. *)
Lemma rts_command_inv e l one_pc ms e' l' :
  rts_inv (e, l) -> command_on hit (commit_fresh e l) (fun c => ld_bound l < c) e one_pc ms -> applies one_pc e l ms e' l' ->
  rts_inv (e', l').
Proof using iter_entries.
  intros Hinv Hon (Ew & rows & commits & q & o & Er & Hc & Et & ->). pose proof Hinv as [Hsys Hlead Htab]. cbn in Hsys, Hlead, Htab.
  destruct (command_effect _ _ _ _ _ _ _ Hsys Hon Ew) as (_ & tr & -> & Htr & Heff).
  pose proof (effect_fresh _ _ _ _ _ Hinv Htr Heff Er) as Hfresh.
  destruct (command_exact iter iter_entries _ _ _ _ _ _ _ _ Hsys Hon Ew Htab) as (Hsys' & rows' & T' & Er' & Ea & HT').
  assert (rows' = rows) as -> by congruence. split; cbn [fst snd]; [done|by eapply lead_rows_inv|].
  unfold track_change_log in Et. rewrite (li_ready _ _ Hlead) in Et. cbn [track_logs] in Et.
  destruct (track_rows _ _ _ rows) as [[q1 o1]|?|] eqn:E1; [|done..]. cbn in Et. injection Et as -> ->.
  destruct (track_rows_spec _ _ _ _ _ _ E1 (li_inv _ _ Hlead)) as (_ & Ha & _).
  unfold ld_table in Ea. rewrite Ha in Ea. injection Ea as <-. exact HT'.
Qed.

Lemma rts_lead_step_inv e l l' : rts_inv (e, l) -> lead_inv hit l' -> ld_table l' = ld_table l -> rts_inv (e, l').
Proof using. intros [Hs _ Ht] Hl E. split; cbn [fst snd] in *; [done|done|by rewrite E]. Qed.

Lemma rts_step_inv x y : rts_step x y -> rts_inv x -> rts_inv y.
Proof using iter_entries.
  intros Hstep Hinv.
  destruct Hstep as [e l one_pc ms e' l' Hon Happ | e l log q o Hlog Ht | e l q Hq Hle | e l cache ts source pub o Hr].
  - by eapply rts_command_inv.
  - pose proof (rt_lead _ Hinv) as Hl. cbn [snd] in Hl. eapply rts_lead_step_inv; [done|by eapply lead_other_inv|].
    destruct (track_other _ _ _ _ _ _ (li_ready _ _ Hl) Hlog Ht) as [_ [-> | ->]]; done.
  - pose proof (rt_lead _ Hinv) as Hl. cbn [snd] in Hl. eapply rts_lead_step_inv; [done| |done].
    destruct Hl as [Hready [] Hbelow Hidx Hafter Hpairs]. by split.
  - pose proof (rt_lead _ Hinv) as Hl. cbn [snd] in Hl. eapply rts_lead_step_inv; [done|by eapply lead_resolve_inv|].
    unfold resolve_region in Hr. rewrite (li_ready _ _ Hl) in Hr.
    destruct (resolve _ _ _ _) as [[[t p] r']|?|] eqn:E; [|done..]. cbn in Hr. injection Hr as -> <-.
    pose proof (resolve_spec _ _ _ _ _ _ _ _ E (li_inv _ _ Hl)) as H. destruct (stopped _); [by destruct H as (_ & _ & ->)|].
    unfold ld_table. cbn. by rewrite (rv_by_key _ _ _ _ _ H).
Qed.

Lemma rts_steps_inv x y : rtc rts_step x y -> rts_inv x -> rts_inv y.
Proof using iter_entries. induction 1; eauto using rts_step_inv. Qed.

(** An engine and a leader that tracks its locks. *)
Definition rts_start (x : Engine * Leader) : Prop := sys_inv x.1 /\ lead_start x.2 /\ table_of hit x.1 (ld_table x.2).

Lemma rts_start_inv x : rts_start x -> rts_inv x.
Proof. intros (Hs & Hl & Ht). split; [done | by apply lead_start_inv | done]. Qed.


End System.

(** ** Examples *)

Abbreviation in_map_order := (@map_to_list Key RowChange (gmap Key RowChange) _).

(** The rows of a command's modifications go to the leader. *)
Definition rows_of (ms : list Modify) : list ChangeRow :=
  match change_rows in_map_order false (map request_of ms) with Ok rows => rows | _ => [] end.
Definition follow (l : Leader) (ms : list Modify) (commits : list LogCommit) : Leader := observe_rows l (rows_of ms) commits.

(** The key is locked at 5, and the leader resolves with 6. *)
Definition rl1 : Leader := follow lead0 (prewritten (run_prewrite empty_engine 5 [Byte.x61])) [].
Definition rl2 : Leader := advance rl1 6.

Lemma rts0_start hit : rts_start hit (empty_engine, lead0).
Proof.
  split; [exact sys_inv_empty|]. split; [exact lead0_start|]. intros raw _. cbn. rewrite lookup_empty.
  unfold lock_at. cbn. by rewrite lookup_empty.
Qed.

Lemma locked_on fresh fresh_once :
  command_on nowhere fresh fresh_once empty_engine false (prewritten (run_prewrite empty_engine 5 [Byte.x61])).
Proof.
  destruct (run_prewrite empty_engine 5 [Byte.x61]) as [r cm'] eqn:E.
  assert (r = (run_prewrite empty_engine 5 [Byte.x61]).1) as Hr by (by rewrite E).
  destruct r as [w|?|]; [|vm_compute in Hr; discriminate Hr..].
  assert (pr_one_pc_commit_ts (wr_pr (pww_result w)) = 0) as E0 by (injection Hr as ->; vm_compute; reflexivity).
  change (prewritten _) with (wr_modifies (pww_result w)).
  replace false with (negb (pr_one_pc_commit_ts (wr_pr (pww_result w)) =? 0)) by (by rewrite E0).
  eapply (on_prewrite _ _ _ _ empty_engine env0 cm0 false true false false false (fun _ => None) (put_cmd 5 [Byte.x61]) w cm');
    [apply agrees_refl|done|apply put_cmd_wf|apply NoDup_singleton|apply Forall_singleton, k_user|exact E|by left].
Qed.

Lemma rl1_step : rts_step key_len in_map_order nowhere (empty_engine, lead0) (e1, rl1).
Proof.
  eapply (rts_command key_len in_map_order nowhere empty_engine lead0 false); [apply locked_on|].
  split; [vm_compute; reflexivity|]. eexists _, [], _, _. split_and!.
  - vm_compute. reflexivity.
  - vm_compute. reflexivity.
  - vm_compute. reflexivity.
  - vm_compute. reflexivity.
Qed.

Lemma rl2_steps : rtc (rts_step key_len in_map_order nowhere) (empty_engine, lead0) (e1, rl2).
Proof.
  apply rtc_l with (e1, rl1); [apply rl1_step|]. apply rtc_once.
  unfold rl2, advance. destruct (resolve_region no_cache (ld_region rl1) 6 SrcPdTso) as [[p o]|?|] eqn:E; [|vm_compute in E; discriminate E..].
  by eapply rts_resolve.
Qed.



(** The rollback of the transaction itself spares the key: the resolver and the
    engine lose the lock together. *)
Lemma e1_spared : spared nowhere e1 5 k.
Proof. intros raw _ _. vm_compute. reflexivity. Qed.

Lemma own_rollback_step :
  let ms := modifies_of (Rollback cm0 (snap e1) ctx0 [k] 5) in
  let l := follow rl1 ms [] in
  rts_step key_len in_map_order nowhere (e1, rl1) (apply_to e1 ms, l) /\ ld_table l !! raw_k = None /\
  tracked (kv_lock (view (apply_to e1 ms) k)) = None.
Proof.
  cbv zeta. split; [|vm_compute; auto].
  assert (exists wr, Rollback cm0 (snap e1) ctx0 [k] 5 = Ok wr) as [wr E] by (eexists; vm_compute; reflexivity).
  assert (modifies_of (Rollback cm0 (snap e1) ctx0 [k] 5) = wr_modifies wr) as Em by (by rewrite E).
  eapply (rts_command key_len in_map_order nowhere e1 rl1 false (wr_modifies wr)).
  - eapply (on_rollback _ _ _ e1 e1 cm0 ctx0 [k] 5 wr);
      [apply agrees_refl|clear; done|apply NoDup_singleton|apply Forall_singleton, k_user| |exact E|apply Forall_singleton, e1_spared].
    apply Forall_singleton, room_of_empty. vm_compute. reflexivity.
  - rewrite <- Em. clear. split; [vm_compute; reflexivity|]. eexists _, [], _, _. split_and!.
    + vm_compute. reflexivity.
    + vm_compute. reflexivity.
    + vm_compute. reflexivity.
    + vm_compute. reflexivity.
Qed.

(** A status check of another transaction makes the resolver forget the lock.
    The transaction at 3 never wrote its primary key; the check leaves a
    rollback record for it, and the row of that record untracks the key, which
    the transaction at 5 holds locked. The leader then resolves 20, and the
    commit at 7 goes through. *)
Lemma rollback_untracks_other :
  let checked := modifies_of (run_status e1 3 (2 ^ 40)) in
  let e := apply_to e1 checked in
  let l := advance (follow rl1 checked []) 20 in
  tracked (kv_lock (view e k)) = Some 5 /\ ld_table l !! raw_k = None /\ ld_pairs l = [(2, 20)] /\
  match run_commit e 5 7 with Ok _ => true | _ => false end = true.
Proof. vm_compute. auto. Qed.

(** A rollback that overlaps a commit record makes no row. The key is committed
    at 7 by another transaction, locked at 7, and rolled back; the lock is gone
    and the resolver keeps it, so that the resolved timestamp stays at 7. *)
Lemma overlapped_rollback_tracked :
  let ms := prewritten (run_prewrite e2 7 [Byte.x62]) in
  let e := apply_to e2 ms in
  let checked := modifies_of (run_status e 7 (2 ^ 40)) in
  let l := advance (follow (follow lead0 ms []) checked []) 100 in
  tracked (kv_lock (view (apply_to e checked) k)) = None /\ rows_of checked = [] /\
  ld_table l !! raw_k = Some 7 /\ ld_pairs l = [(1, 7)].
Proof. vm_compute. auto. Qed.
