(* ===== verification/ObserveInit.v ===== *)
(** * How an observed region gets ready

    The rows of the log wait while the locks of a snapshot are scanned; then
    they are replayed, also those that the snapshot already has. Shown is that
    the resolver ends up with exactly the locks that the engine has then, and
    that the memory of the rows that waited is given back. *)
From S2P Require Import Prelude Number Bytes Timestamp Key Fields Lock Write OrderedMap PeerLocks Engine.
From S2P Require Import ConcurrencyManager Reader Versions MvccTxn CheckTxnStatus Prewrite Commands PrewriteCommand.
From S2P Require Import KeyView Protocol ActionSpec ReadSpec PrewriteSpec PrewriteCommandSpec System Demo ChangeLog.
From S2P Require Import ChangeLogSpec CommandRows LockScan Resolver ObserveRegion ReadProgress ResolvedTs ResolvedTsSystem.
Local Open Scope Z_scope.

(** ** Replaying rows *)

(** What a row does to one key of the table. *)
Definition row_at_key (raw : bytes) (row : ChangeRow) (x : option TimeStamp) : option TimeStamp :=
  match row with
  | RowPrewrite key s _ _ g => if bool_decide (key_to_raw key = Ok raw) && (g =? 0) then Some (default s x) else x
  | RowCommit key _ _ _ => if bool_decide (key_to_raw key = Ok raw) then None else x
  | RowOnePc _ _ _ _ | RowIngestSst => x
  end.
Definition rows_at_key (raw : bytes) (rows : list ChangeRow) (x : option TimeStamp) : option TimeStamp :=
  foldl (fun x row => row_at_key raw row x) x rows.

Lemma apply_row_at_key T row T' raw : apply_row T row = Ok T' -> T' !! raw = row_at_key raw row (T !! raw).
Proof.
  intros Ha. destruct row as [key s lt v g|key wt st c|key wt c v|]; cbn [apply_row row_at_key] in *; [| |by injection Ha as <-..].
  - unfold unwrap in Ha. destruct (key_to_raw key) as [raw0|?|]; [|done..]. cbn in Ha. injection Ha as <-.
    destruct (g =? 0); [|by rewrite andb_false_r]. rewrite andb_true_r.
    destruct (decide (raw0 = raw)) as [-> | Hne].
    + rewrite bool_decide_eq_true_2 by done. destruct (T !! raw) eqn:E; [done | by rewrite lookup_insert_eq].
    + rewrite bool_decide_eq_false_2 by congruence. destruct (T !! raw0); [done | by rewrite lookup_insert_ne].
  - unfold unwrap in Ha. destruct (key_to_raw key) as [raw0|?|]; [|done..]. cbn in Ha. injection Ha as <-.
    destruct (decide (raw0 = raw)) as [-> | Hne].
    + rewrite bool_decide_eq_true_2 by done. apply lookup_delete_eq.
    + rewrite bool_decide_eq_false_2 by congruence. by apply lookup_delete_ne.
Qed.

Lemma apply_rows_at_key rows raw : forall T T', apply_rows T rows = Ok T' -> T' !! raw = rows_at_key raw rows (T !! raw).
Proof.
  induction rows as [|row rows IH]; intros T T' Ha; cbn in Ha; [by injection Ha as <-|].
  destruct (apply_row T row) as [T1|?|] eqn:E1; [|done..]. cbn in Ha. rewrite (IH _ _ Ha). cbn.
  by rewrite (apply_row_at_key _ _ _ raw E1).
Qed.

(** Rows either fix a key's state whatever it was, or keep it once it is
    locked. *)
Lemma rows_at_key_replay raw rows : forall x,
  rows_at_key raw rows (rows_at_key raw rows x) = rows_at_key raw rows x.
Proof.
  assert ((exists y, forall x, rows_at_key raw rows x = y) \/
          (forall s, rows_at_key raw rows (Some s) = Some s) /\
          (rows_at_key raw rows None = None \/ is_Some (rows_at_key raw rows None))) as Hcase.
  { induction rows as [|row rows IH]; [right; cbn; eauto|]. cbn.
    assert ((exists y, forall x, row_at_key raw row x = y) \/
            (forall s, row_at_key raw row (Some s) = Some s)) as [[y Hy] | Hs].
    { destruct row; cbn; try (by right); case_match; eauto. }
    - left. exists (rows_at_key raw rows y). intros x. unfold rows_at_key. cbn. by rewrite Hy.
    - destruct IH as [[y Hy] | [IHs IHn]]; [left; exists y; intros x; unfold rows_at_key; cbn; apply Hy|].
      right. unfold rows_at_key in *. cbn. split; [intros s; by rewrite Hs|].
      destruct (row_at_key raw row None) as [s|]; [right; rewrite IHs; eauto | done]. }
  intros x. destruct Hcase as [[y Hy] | [Hs Hn]]; [by rewrite !Hy|].
  destruct x as [s|]; [by rewrite !Hs|]. destruct Hn as [Hn | [s Hn]]; rewrite Hn; [done | apply Hs].
Qed.

(** Replaying a log from any point of it gives the state at its end. *)
Lemma replay_rows raw rows1 rows2 x :
  rows_at_key raw (rows1 ++ rows2) (rows_at_key raw rows1 x) = rows_at_key raw (rows1 ++ rows2) x.
Proof. unfold rows_at_key. rewrite !foldl_app. f_equal. apply rows_at_key_replay. Qed.

(** A scanned lock does what the row of its prewrite would. *)
Definition scan_row (kl : Key * Lock) : ChangeRow := RowPrewrite kl.1 (lock_ts kl.2) LTPut None (lock_generation kl.2).

(** ** The table of a scan *)

Lemma scan_at_key raw y scanned : forall x,
  x = None \/ x = y -> Forall (fun kl => user_key kl.1) scanned ->
  (forall l, (key_from_raw raw, l) ∈ scanned -> y = if lock_generation l =? 0 then Some (lock_ts l) else None) ->
  rows_at_key raw (map scan_row scanned) x = if bool_decide (key_from_raw raw ∈ scanned.*1) then y else x.
Proof.
  induction scanned as [|[key lock] scanned IH]; intros x Hx Huk Hy.
  { by rewrite bool_decide_eq_false_2 by (cbn; apply not_elem_of_nil). }
  apply Forall_cons in Huk as [[raw0 Hraw] Huk]. cbn [fst] in Hraw. subst key. cbn [fmap list_fmap fst].
  change (rows_at_key raw (map scan_row ((key_from_raw raw0, lock) :: scanned)) x)
    with (rows_at_key raw (map scan_row scanned) (row_at_key raw (scan_row (key_from_raw raw0, lock)) x)).
  cbn [scan_row row_at_key fst snd]. rewrite key_to_raw_from_raw. destruct (decide (raw0 = raw)) as [-> | Hne].
  - rewrite (bool_decide_eq_true_2 (Ok raw = Ok raw)), (bool_decide_eq_true_2 (_ ∈ _ :: _)) by (done || by left). cbn [andb].
    specialize (Hy lock (list_elem_of_here _ _)) as Hyl. assert ((if lock_generation lock =? 0 then Some (default (lock_ts lock) x) else x) = y) as ->.
    { destruct (lock_generation lock =? 0), Hx; subst; done. }
    rewrite IH; [by case_bool_decide|by right|done|]. intros l Hl. apply Hy. by right.
  - rewrite (bool_decide_eq_false_2 (Ok raw0 = Ok raw)) by congruence. cbn [andb]. rewrite IH; [|done..|intros l Hl; apply Hy; by right].
    rewrite (bool_decide_ext (key_from_raw raw ∈ key_from_raw raw0 :: scanned.*1) (key_from_raw raw ∈ scanned.*1)); [done|].
    rewrite elem_of_cons. split; [|by right]. intros [H%key_from_raw_inj|?]; [by destruct Hne|done].
Qed.

Lemma will_write_tracked l : will_write l = true -> tracked (Some l) = if lock_generation l =? 0 then Some (lock_ts l) else None.
Proof.
  unfold will_write, tracked. intros Hw. rewrite bool_decide_eq_true_2; [done|]. destruct (lock_type l); [by left|by right|done..].
Qed.

Lemma not_will_write l : will_write l = false -> tracked (Some l) = None.
Proof. unfold will_write, tracked. intros Hw. rewrite bool_decide_eq_false_2; [done|]. intros [E|E]; by rewrite E in Hw. Qed.

(** The locks that the scan finds make the table of the snapshot's locks. *)
Lemma scan_table e batches T :
  engine_wf e -> scan_task (snap e) = Ok batches -> apply_rows ∅ (map scan_row (concat batches)) = Ok T ->
  forall raw, T !! raw = tracked (kv_lock (view e (key_from_raw raw))).
Proof.
  intros (_ & Hw & _) Es Ha raw. destruct (scan_task_exact e Hw) as (batches' & Es' & Hin).
  assert (batches' = batches) as -> by (unfold snap in Es; congruence).
  rewrite (apply_rows_at_key _ raw _ _ Ha), lookup_empty, (scan_at_key raw (tracked (kv_lock (view e (key_from_raw raw))))).
  - case_bool_decide as Hk; [done|]. destruct (kv_lock (view e (key_from_raw raw))) as [l|] eqn:El; [|done].
    destruct (will_write l) eqn:Ew; [|by rewrite not_will_write]. destruct Hk. apply list_elem_of_fmap.
    exists (key_from_raw raw, l). split; [done|]. apply Hin. split_and!; [by eexists|done..].
  - by left.
  - apply Forall_forall. intros [k l] Hk. by apply Hin in Hk as [? _].
  - intros l (_ & -> & Hwl)%Hin. by apply will_write_tracked.
Qed.

Lemma apply_scan_rows scanned : Forall (fun kl => user_key kl.1) scanned -> forall T, exists T', apply_rows T (map scan_row scanned) = Ok T'.
Proof.
  induction 1 as [|[key lock] scanned [raw Hk] _ IH]; intros T; [by eexists|]. cbn [fst] in Hk. subst key.
  cbn [map apply_rows scan_row apply_row fst snd]. rewrite key_to_raw_from_raw. cbn [unwrap mbind res_bind]. apply IH.
Qed.

(** Every engine's locks make a table. *)
Lemma table_exists hit e : engine_wf e -> exists T, table_of hit e T.
Proof.
  intros He. pose proof He as (_ & Hw & _). destruct (scan_task_exact e Hw) as (batches & Es & Hin).
  destruct (apply_scan_rows (concat batches)) with (T := ∅ : gmap bytes TimeStamp) as [T Ha].
  { apply Forall_forall. intros [k l] Hk. by apply Hin in Hk as [? _]. }
  exists T. intros raw _. by eapply scan_table.
Qed.

(** ** Getting ready *)

Section Init.
Variable heap_size : Key -> Z.
Hypothesis heap_size_pos : forall key, 0 <= heap_size key.

Definition pending_total (locks : list PendingLock) : Z := foldr (fun l total => pending_size heap_size l + total) 0 locks.

(** What the quota is used for besides this region. *)
Variable others : Z.
Hypothesis others_pos : 0 <= others.

(** The quota has exactly the memory of the tracked and of the waiting locks
    more in use. *)
Record waiting (q : MemoryQuota) (o : ObserveRegion) (locks : list PendingLock) : Prop := mk_waiting {
  wa_inv : resolver_inv q (or_resolver o);
  wa_granted : mq_in_use q = others + locks_size (locks_by_key (or_resolver o)) + pending_total locks;
  wa_sizes : Forall (fun l => pending_size heap_size l <= MAX_MEMORY_ALLOC_SIZE) locks
}.

Lemma pending_total_app a b : pending_total (a ++ b) = pending_total a + pending_total b.
Proof. induction a as [|l a IH]; cbn; [done|]. unfold pending_total in *. rewrite IH. lia. Qed.

Lemma pending_total_pos locks : 0 <= pending_total locks.
Proof using heap_size_pos others_pos.
  induction locks as [|l locks IH]; cbn; [done|]. pose proof (heap_size_pos (pending_key l)). unfold pending_total, pending_size in *. lia.
Qed.

Lemma resolver_inv_quota q q' r :
  resolver_inv q r -> quota_wf q' -> locks_size (locks_by_key r) <= mq_in_use q' -> resolver_inv q' r.
Proof. intros [] Hq Hle. by split. Qed.

Lemma push_pending_ok q o idx locks lock q' o' :
  or_status o = Pending idx locks -> push_pending_lock heap_size q o lock = Ok (q', o') -> waiting q o locks ->
  o' = set_status o (Pending idx (locks ++ [lock])) /\ waiting q' o' (locks ++ [lock]).
Proof using heap_size_pos others_pos.
  intros Hst Hp [Hinv Hg Hs]. unfold push_pending_lock in Hp. rewrite Hst in Hp. pose proof (ri_quota _ _ Hinv) as Hq.
  pose proof (heap_size_pos (pending_key lock)) as Hpos. fold (pending_size heap_size lock) in Hpos.
  rewrite quota_alloc_spec in Hp by done. case_bool_decide as Hfit; [|done]. destruct Hfit as [Hfit Hmax].
  injection Hp as <- <-. split; [done|]. destruct Hq as [Hu Hc].
  pose proof (pending_total_pos locks) as Htp.
  split; cbn; [|rewrite pending_total_app; cbn; lia | apply Forall_app; split; [done | by apply Forall_singleton]].
  eapply resolver_inv_quota; [done | unfold quota_wf; cbn; lia | cbn; lia].
Qed.

Lemma pend_rows_ok rows : forall q o idx locks q' o',
  or_status o = Pending idx locks -> pend_rows heap_size q o rows = Ok (q', o') -> waiting q o locks ->
  o' = set_status o (Pending idx (locks ++ omap pending_of_row rows)) /\ waiting q' o' (locks ++ omap pending_of_row rows).
Proof using heap_size_pos others_pos.
  induction rows as [|row rows IH]; intros q o idx locks q' o' Hst Hp Hw; cbn in Hp.
  { injection Hp as <- <-. cbn. rewrite app_nil_r. split; [|done]. destruct o. cbn in *. by subst. }
  cbn [omap list_omap]. destruct (pending_of_row row) as [lock|]; [|by apply (IH q o idx locks q' o')].
  destruct (push_pending_lock heap_size q o lock) as [[q1 o1]|?|] eqn:E1; [|done..]. cbn in Hp.
  destruct (push_pending_ok _ _ _ _ _ _ _ Hst E1 Hw) as [-> Hw1].
  destruct (IH q1 (set_status o (Pending idx (locks ++ [lock]))) idx (locks ++ [lock]) q' o' eq_refl Hp Hw1) as [-> Hw'].
  rewrite <- app_assoc in Hw' |- *. done.
Qed.

(** The rows of the entries that had any. *)
Fixpoint log_rows (logs : list ChangeLog) : list ChangeRow :=
  match logs with
  | [] => []
  | LogRows _ rows :: logs => rows ++ log_rows logs
  | _ :: logs => log_rows logs
  end.

Lemma pend_logs_ok logs : forall q o idx locks q' o',
  or_status o = Pending idx locks -> pend_logs heap_size q o logs = Ok (q', o') -> waiting q o locks ->
  exists idx', o' = set_status o (Pending idx' (locks ++ omap pending_of_row (log_rows logs))) /\
    waiting q' o' (locks ++ omap pending_of_row (log_rows logs)).
Proof using heap_size_pos others_pos.
  induction logs as [|log logs IH]; intros q o idx locks q' o' Hst Hp Hw; cbn in Hp.
  { injection Hp as <- <-. exists idx. cbn. rewrite app_nil_r. split; [|done]. destruct o. cbn in *. by subst. }
  destruct log as [|index rows|t]; [by eapply IH | | done]. cbn [log_rows]. rewrite omap_app, app_assoc.
  destruct (pend_rows heap_size q o rows) as [[q1 o1]|?|] eqn:E1; [|done..]. cbn in Hp.
  destruct (pend_rows_ok _ _ _ _ _ _ _ Hst E1 Hw) as [-> Hw1]. cbn in Hp. unfold rassert in Hp. destruct (idx <? index); [|done]. cbn in Hp.
  destruct (IH q1 (set_status o (Pending index (locks ++ omap pending_of_row rows))) index (locks ++ omap pending_of_row rows) q' o' eq_refl Hp) as (idx' & -> & Hw').
  { destruct Hw1. by split. }
  by exists idx'.
Qed.

(** What a pending lock does to the table is what its row does. *)
Definition pending_row (lock : PendingLock) : ChangeRow :=
  match lock with
  | PTrack key s g => RowPrewrite key s LTPut None g
  | PUntrack key st c => RowCommit key WTRollback st c
  end.

Lemma apply_rows_pending rows : forall T, apply_rows T (map pending_row (omap pending_of_row rows)) = apply_rows T rows.
Proof.
  induction rows as [|row rows IH]; intros T; [done|]. destruct row as [key s lt v g|key wt st c|key wt c v|]; try apply IH;
    cbn [omap list_omap pending_of_row map apply_rows pending_row apply_row];
    destruct (unwrap (key_to_raw key)); cbn [mbind res_bind]; try done; apply IH.
Qed.

Lemma drain_pending_ok locks : forall q o index q' o',
  drain_pending heap_size q o index locks = Ok (q', o') -> waiting q o locks ->
  waiting q' o' [] /\ or_status o' = or_status o /\
  apply_rows (locks_by_key (or_resolver o)) (map pending_row locks) = Ok (locks_by_key (or_resolver o')) /\
  same_progress (or_resolver o) (or_resolver o').
Proof using heap_size_pos others_pos.
  induction locks as [|lock locks IH]; intros q o index q' o' Hd [Hinv Hg Hs]; cbn [drain_pending] in Hd.
  { injection Hd as <- <-. by repeat split; try apply Hinv. }
  cbn in Hg. apply Forall_cons in Hs as [Hl Hs]. pose proof (heap_size_pos (pending_key lock)) as Hpos. fold (pending_size heap_size lock) in Hpos.
  pose proof (pending_total_pos locks) as Htp. fold (pending_total locks) in Hg.
  pose proof (ri_quota _ _ Hinv) as [Hu Hc]. pose proof (locks_size_bound (locks_by_key (or_resolver o))) as Hb.
  rewrite quota_free_spec in Hd by (done || lia). set (q1 := mk_quota _ _) in Hd.
  assert (resolver_inv q1 (or_resolver o)) as Hinv1.
  { eapply resolver_inv_quota; [done | unfold quota_wf, q1; cbn; lia | unfold q1; cbn; lia]. }
  assert (forall q2 o2, track_row q1 o index (pending_row lock) = Ok (q2, o2) -> drain_pending heap_size q2 o2 index locks = Ok (q', o') ->
    waiting q' o' [] /\ or_status o' = or_status o /\
    apply_rows (locks_by_key (or_resolver o)) (map pending_row (lock :: locks)) = Ok (locks_by_key (or_resolver o')) /\
    same_progress (or_resolver o) (or_resolver o')) as Hstep.
  { intros q2 o2 E2 Hd2. destruct (track_row_spec _ _ _ _ _ _ E2 Hinv1) as ([Hi2 Hsp2 Hst2 Hq2] & Ha2 & _).
    destruct (IH _ _ _ _ _ Hd2) as (Hi & Hst & Ha & Hsp).
    - split; [done | | done]. unfold q1 in Hq2. cbn in Hq2. lia.
    - split; [done|]. split; [congruence|]. cbn [map apply_rows]. rewrite Ha2. split; [done|]. destruct Hsp2, Hsp. split; congruence. }
  destruct lock as [key s g|key st c]; cbn [pending_row pending_key track_row] in *;
    (destruct (to_raw_unwrap key) as [raw|?|]; [|done..]); cbn [mbind res_bind] in Hd, Hstep;
    (destruct (on_resolver o _) as [[q2 o2]|?|]; [|done..]); by eapply Hstep.
Qed.

Lemma track_scanned_rows scanned index : forall q o,
  track_scanned q o index scanned = track_rows q o index (map scan_row scanned).
Proof.
  induction scanned as [|[key lock] scanned IH]; intros q o; [done|]. cbn [track_scanned map track_rows track_row scan_row fst snd].
  destruct (to_raw_unwrap key) as [raw|?|]; [|done..]. cbn [mbind res_bind].
  destruct (on_resolver o _) as [[q1 o1]|?|]; [apply IH | done..].
Qed.

Lemma track_scanned_ok scanned q o index locks q' o' :
  track_scanned q o index scanned = Ok (q', o') -> waiting q o locks ->
  waiting q' o' locks /\ tracked_to q o q' o' /\
  apply_rows (locks_by_key (or_resolver o)) (map scan_row scanned) = Ok (locks_by_key (or_resolver o')).
Proof using.
  rewrite track_scanned_rows. intros Ht [Hinv Hg Hs]. destruct (track_rows_spec _ _ _ _ _ _ Ht Hinv) as (Hto & Ha & _).
  split; [|done]. destruct Hto as [Hi _ _ Hq]. split; [done | lia | done].
Qed.

(** A region that is getting ready, with the rows it was told and the locks
    that were scanned so far. *)
Record Starting := mk_starting {
  in_quota : MemoryQuota;
  in_region : ObserveRegion;
  in_rows : list ChangeRow;
  in_scanned : list (Key * Lock)
}.

Inductive init_step : Starting -> Starting -> Prop :=
  | init_logs i logs q o :
      track_change_log heap_size (in_quota i) (in_region i) logs = Ok (q, o) ->
      init_step i (mk_starting q o (in_rows i ++ log_rows logs) (in_scanned i))
  | init_scan i locks apply_index q o :
      track_scan_locks heap_size (in_quota i) (in_region i) (ScanLock locks) apply_index = Ok (q, o) ->
      init_step i (mk_starting q o (in_rows i) (in_scanned i ++ locks)).

Record init_inv (i : Starting) : Prop := mk_init_inv {
  ii_status : exists idx, or_status (in_region i) = Pending idx (omap pending_of_row (in_rows i));
  ii_waiting : waiting (in_quota i) (in_region i) (omap pending_of_row (in_rows i));
  ii_table : apply_rows ∅ (map scan_row (in_scanned i)) = Ok (locks_by_key (or_resolver (in_region i)));
  ii_resolved : resolved_ts (or_resolver (in_region i)) = 0
}.

Lemma apply_rows_app T a b : apply_rows T (a ++ b) = (T ← apply_rows T a; apply_rows T b).
Proof. revert T. induction a as [|x a IH]; intros T; [done|]. cbn [app apply_rows]. destruct (apply_row T x); cbn; [apply IH | done..]. Qed.

Lemma init_step_inv i i' : init_step i i' -> init_inv i -> init_inv i'.
Proof using heap_size_pos others_pos.
  intros Hstep [[idx Hst] Hw Ht Hr]. destruct Hstep as [i logs q o Hl | i locks apply_index q o Hs].
  - unfold track_change_log in Hl. rewrite Hst in Hl.
    destruct (pend_logs_ok _ _ _ _ _ _ _ Hst Hl Hw) as (idx' & -> & Hw'). split; cbn [in_rows in_quota in_region in_scanned];
      rewrite ?omap_app; [by exists idx' | done..].
  - unfold track_scan_locks in Hs. rewrite Hst in Hs.
    destruct (track_scanned_ok _ _ _ _ _ _ _ Hs Hw) as (Hw' & [_ [Hres _ _] Hst' _] & Ha).
    split; cbn [in_rows in_quota in_region in_scanned]; [exists idx; congruence | done | | congruence].
    rewrite map_app, apply_rows_app, Ht. exact Ha.
Qed.

Lemma init_steps_inv i i' : rtc init_step i i' -> init_inv i -> init_inv i'.
Proof using heap_size_pos others_pos. induction 1; eauto using init_step_inv. Qed.

Definition starting (q : MemoryQuota) (version handle : Z) : Starting := mk_starting q (region_new version handle) [] [].

Lemma starting_inv q version handle : quota_wf q -> mq_in_use q = others -> init_inv (starting q version handle).
Proof using.
  intros Hq Ho. split; [by exists 0 | | done | done]. split; [by apply resolver_new_inv | | constructor].
  cbn. unfold locks_size. rewrite map_fold_empty. lia.
Qed.

(** The end of the scan: the rows that waited are replayed. *)
Lemma init_end i apply_index q o :
  init_inv i -> track_scan_locks heap_size (in_quota i) (in_region i) ScanNone apply_index = Ok (q, o) ->
  or_status o = Ready /\ waiting q o [] /\ resolved_ts (or_resolver o) = 0 /\
  exists T, apply_rows ∅ (map scan_row (in_scanned i)) = Ok T /\ apply_rows T (in_rows i) = Ok (locks_by_key (or_resolver o)).
Proof using heap_size_pos others_pos.
  intros [[idx Hst] Hw Htab Hres] Ht. unfold track_scan_locks in Ht.
  destruct (on_resolver (in_region i) _) as [[q1 o1]|?|] eqn:E1; [|done..]. cbn [mbind res_bind] in Ht.
  destruct (index_row_spec _ _ _ _ _ E1 (wa_inv _ _ _ Hw)) as ([Hi1 [Hr1 _ _] Hst1 Hq1] & [= Hl1] & _).
  rewrite Hst1, Hst in Ht. destruct (drain_pending_ok _ _ _ _ _ _ Ht) as (Hi & Hs & Hd & [Hr _ _]).
  { destruct Hw as [_ Hg Hsz]. split; cbn; [done | lia | done]. }
  cbn in Hd, Hr. rewrite apply_rows_pending, <- Hl1 in Hd. split_and!; [done|done|congruence|eauto].
Qed.
End Init.

(** ** The engine whose log is observed *)

Section Observed.
Variable heap_size : Key -> Z.
Hypothesis heap_size_pos : forall key, 0 <= heap_size key.
Variable iter : gmap Key RowChange -> list (Key * RowChange).
Hypothesis iter_entries : forall m, iter m ≡ₚ map_to_list m.
Variable hit : bytes -> Prop.

(** Commands write to the engine, and their rows are told. *)
Inductive row_step : Engine * list ChangeRow -> Engine * list ChangeRow -> Prop :=
  | row_command e told one_pc ms rows e' :
      command_on hit (fun _ _ _ => True) (fun _ => True) e one_pc ms -> write_modifies (E := kv_error) e ms = Ok e' ->
      change_rows iter one_pc (map request_of ms) = Ok rows ->
      row_step (e, told) (e', told ++ rows).

Lemma row_steps_exact x y : rtc row_step x y -> sys_inv x.1 ->
  sys_inv y.1 /\ exists rows, y.2 = x.2 ++ rows /\
    forall T, table_of hit x.1 T -> exists T', apply_rows T rows = Ok T' /\ table_of hit y.1 T'.
Proof using iter_entries.
  induction 1 as [x|x y z Hstep _ IH]; intros Hsys.
  { split; [done|]. exists []. rewrite app_nil_r. split; [done|]. intros T HT. by exists T. }
  destruct Hstep as [e told one_pc ms rows e' Hon Hw Er]. cbn [fst snd] in *.
  destruct (table_exists hit e (proj1 Hsys)) as [T0 HT0].
  destruct (command_exact iter iter_entries _ _ _ _ _ _ _ _ Hsys Hon Hw HT0) as (Hsys' & _).
  destruct (IH Hsys') as (Hsys2 & rows2 & E2 & Happ). split; [done|]. exists (rows ++ rows2). rewrite E2, app_assoc. split; [done|].
  intros T HT. destruct (command_exact iter iter_entries _ _ _ _ _ _ _ _ Hsys Hon Hw HT) as (_ & rows' & T1 & Er' & Ha1 & HT1).
  assert (rows' = rows) as -> by congruence. destruct (Happ T1 HT1) as (T2 & Ha2 & HT2).
  exists T2. rewrite apply_rows_app, Ha1. done.
Qed.

End Observed.

(** ** Examples *)

Definition unwrap_region (x : res obs_error (MemoryQuota * ObserveRegion)) : MemoryQuota * ObserveRegion :=
  match x with
  | Ok x => x
  | Err (ObsQuotaExceeded q o) | Err (ObsAdmin q o) => (q, o)
  | Panic => (quota_new 0, region_new 0 0)
  end.

(** A key is locked at 5; the row comes, and the snapshot has the lock too. *)
Definition init_rows : list ChangeRow := rows_of (prewritten (run_prewrite empty_engine 5 [Byte.x61])).
Definition init_batches : list (list (Key * Lock)) := match scan_task (snap e1) with Ok b => b | _ => [] end.
Definition start0 : Starting := starting (quota_new 1000) 1 0.
Definition start1 : Starting :=
  let x := unwrap_region (track_change_log key_len (in_quota start0) (in_region start0) [LogRows 6 init_rows]) in
  mk_starting x.1 x.2 (in_rows start0 ++ log_rows [LogRows 6 init_rows]) [].
Definition start2 : Starting :=
  let x := unwrap_region (track_scan_locks key_len (in_quota start1) (in_region start1) (ScanLock (concat init_batches)) 6) in
  mk_starting x.1 x.2 (in_rows start1) (in_scanned start1 ++ concat init_batches).
Definition start3 : MemoryQuota * ObserveRegion :=
  unwrap_region (track_scan_locks key_len (in_quota start2) (in_region start2) ScanNone 6).

Lemma start2_steps : rtc (init_step key_len) start0 start2.
Proof.
  apply rtc_l with start1; [|apply rtc_once].
  - unfold start1. cbv zeta. apply (init_logs key_len start0 [LogRows 6 init_rows]). vm_compute. reflexivity.
  - unfold start2. cbv zeta. apply (init_scan key_len start1 (concat init_batches) 6). vm_compute. reflexivity.
Qed.

Lemma init_row_step : rtc (row_step in_map_order nowhere) (empty_engine, []) (e1, init_rows).
Proof.
  apply rtc_once. apply (row_command in_map_order nowhere empty_engine [] false _ init_rows e1 (locked_on _ _)); vm_compute; reflexivity.
Qed.


(** What the witness is about. *)
Lemma start3_tracks : locks_by_key (or_resolver start3.2) = {[raw_k := 5]} /\ length init_rows = 1%nat /\ length (concat init_batches) = 1%nat.
Proof. vm_compute. auto. Qed.

(** The index that is published does not cover one-phase commits that wait: a
    region whose snapshot is of index 5 sees one at index 6, becomes ready, and
    publishes its resolved timestamp with index 5. A replica at index 5 reads
    at 20 without the version at 15. *)
Lemma one_pc_while_starting :
  let log := [[]; []; []; []; []; [mk_commit raw_k 15 [Byte.x61]]] in
  let '(q, o) := unwrap_region (track_change_log key_len (quota_new 1000) (region_new 1 0) [LogRows 6 [RowOnePc k WTPut 15 None]]) in
  let '(q, o) := unwrap_region (track_scan_locks key_len q o ScanNone 5) in
  exists o', resolve_region no_cache o 20 SrcPdTso = Ok (Some (5, 20), o') /\
    stale_get log 5 raw_k 20 = None /\ stale_get log 6 raw_k 20 = Some (mk_commit raw_k 15 [Byte.x61]).
Proof. vm_compute. eauto. Qed.

(** The memory of pending locks leaks when the quota ends the replay: two keys
    of seven bytes wait, the first does not fit once it is tracked, and after
    the region is dropped the memory of the second is still in use. *)
Definition long_key (b : byte) : Key := key_from_raw [b; b; b; b; b; b; b].

Lemma pending_memory_leaks :
  let rows := [RowPrewrite (long_key Byte.x61) 10 LTPut None 0; RowPrewrite (long_key Byte.x62) 10 LTPut None 0] in
  let '(q, o) := unwrap_region (track_change_log key_len (quota_new 18) (region_new 1 0) [LogRows 6 rows]) in
  let failed := track_scan_locks key_len q o ScanNone 5 in
  let '(q, o) := unwrap_region failed in
  match failed with Err (ObsQuotaExceeded _ _) => true | _ => false end = true /\
  mq_in_use (resolver_drop (status_drop key_len q (or_status o)) (or_resolver o)) = 9.
Proof. vm_compute. auto. Qed.
