(* ===== verification/Advance.v ===== *)
(** * The worker that advances resolved timestamps
    (components/resolved_ts/src/advance.rs; [RegionReadProgressRegistry] of
    components/raftstore/src/store/util.rs)

    From time to time the worker takes a timestamp from the oracle, announces
    it to the concurrency manager, lowers it to the oldest lock in memory, and
    asks the other stores whether this one still leads its regions. The regions
    for which a quorum says so are resolved with the timestamp. Shown here is
    that the answer of the stores is evaluated exactly.

    The connections to the stores, timeouts and metrics are left out: the
    responses are given in the order in which they arrive. *)
From S2P Require Import Prelude Number Bytes Timestamp Key Fields Lock OrderedMap ConcurrencyManager Resolver ReadProgress.
Local Open Scope Z_scope.

(** ** The timestamp *)

(** [tso] is the answer of the oracle. *)
Definition advance_ts (env : CmEnv) (cm : ConcurrencyManager) (tso : option TimeStamp) :
    res InvalidMaxTsUpdate (TimeStamp * TsSource) * ConcurrencyManager :=
  let min_ts := default ts_zero tso in
  match update_max_ts env cm min_ts with
  | (Ok _, cm) =>
      (Ok (match global_min_lock cm with
           | Some (min_mem_lock_ts, lock) =>
               if min_mem_lock_ts <? min_ts then (min_mem_lock_ts, SrcMemoryLock lock) else (min_ts, SrcPdTso)
           | None => (min_ts, SrcPdTso)
           end), cm)
  | (Err e, cm) => (Err e, cm)
  | (Panic, cm) => (Panic, cm)
  end.

(** ** Quorums *)

Definition role_eqb (a b : PeerRole) : bool :=
  match a, b with
  | Voter, Voter | Learner, Learner | IncomingVoter, IncomingVoter | DemotingVoter, DemotingVoter => true
  | _, _ => false
  end.

Definition in_resp (stores : list Z) (peer : Peer) : bool := existsb (fun store_id => store_id =? pr_store_id peer) stores.
Definition count_peers (p : Peer -> bool) (peers : list Peer) : Z := Z.of_nat (length (List.filter p peers)).

Definition region_has_quorum (peers : list Peer) (stores : list Z) : bool :=
  let count role := count_peers (fun peer => role_eqb (pr_role peer) role) peers in
  let count_resp role := count_peers (fun peer => role_eqb (pr_role peer) role && in_resp stores peer) peers in
  let voters := count Voter in
  let incoming_voters := count IncomingVoter in
  let demoting_voters := count DemotingVoter in
  let resp_voters := count_resp Voter in
  let resp_incoming_voters := count_resp IncomingVoter in
  let resp_demoting_voters := count_resp DemotingVoter in
  let has_incoming_majority := (voters + incoming_voters) / 2 + 1 <=? resp_voters + resp_incoming_voters in
  let has_demoting_majority := (voters + demoting_voters) / 2 + 1 <=? resp_voters + resp_demoting_voters in
  has_incoming_majority && has_demoting_majority.

(** ** Asking for the leadership *)

Record RegionProgress := mk_progress { rgp_resolved : bool; rgp_peers : list Peer; rgp_resps : list Z }.

Definition progress_new : RegionProgress := mk_progress false [] [].
Definition progress_clear (p : RegionProgress) : RegionProgress := mk_progress false [] [].

(** A request has the leader info of some regions, and a timestamp that is not
    read. *)
Abbreviation Requests := (gmap Z (list (Z * LeaderInfo))).

Record LeadershipResolver := mk_lr {
  lr_store_id : Z;
  lr_store_req_map : Requests;
  lr_progresses : gmap Z RegionProgress;
  lr_checking_regions : gset Z;
  lr_valid_regions : gset Z
}.

Definition lr_new (store_id : Z) : LeadershipResolver := mk_lr store_id ∅ ∅ ∅ ∅.

(** [expired] says that the interval of collection has passed. *)
Definition lr_gc (expired : bool) (lr : LeadershipResolver) : LeadershipResolver :=
  if expired then mk_lr (lr_store_id lr) ∅ ∅ ∅ ∅ else lr.

Definition lr_clear (lr : LeadershipResolver) : LeadershipResolver :=
  mk_lr (lr_store_id lr) ((fun _ => []) <$> lr_store_req_map lr) (progress_clear <$> lr_progresses lr) ∅ ∅.

Definition push_req (reqs : Requests) (store_id : Z) (info : Z * LeaderInfo) : Requests :=
  <[store_id := default [] (reqs !! store_id) ++ [info]]> reqs.

(** The peers of a region: this store votes at once, the others are asked. *)
Fixpoint ask_peers (store_id leader_id : Z) (info : Z * LeaderInfo) (peer_list : list Peer)
    (reqs : Requests) (resps : list Z) (unvotes : Z) : Requests * list Z * Z :=
  match peer_list with
  | [] => (reqs, resps, unvotes)
  | peer :: peer_list =>
      if (pr_store_id peer =? store_id) && (pr_id peer =? leader_id)
      then ask_peers store_id leader_id info peer_list reqs (resps ++ [store_id]) unvotes
      else ask_peers store_id leader_id info peer_list (push_req reqs (pr_store_id peer) info) resps
             (if negb (role_eqb (pr_role peer) Learner) then unvotes + 1 else unvotes)
  end.

Definition check_region (lr : LeadershipResolver) (entry : Z * RegionReadProgress) : LeadershipResolver :=
  let '(region_id, read_progress) := entry in
  if negb (bool_decide (region_id ∈ lr_checking_regions lr)) then lr
  else
    let local_leader_info := rc_leader_info (rp_core read_progress) in
    if negb (bool_decide (ll_store_id local_leader_info = Some (lr_store_id lr))) then lr
    else
      let peer_list := ll_peers local_leader_info in
      let prog := default progress_new (lr_progresses lr !! region_id) in
      let '(reqs, resps, unvotes) :=
        ask_peers (lr_store_id lr) (ll_id local_leader_info) (region_id, get_leader_info read_progress) peer_list
          (lr_store_req_map lr) (rgp_resps prog) 0 in
      if (unvotes =? 0) && region_has_quorum peer_list resps
      then mk_lr (lr_store_id lr) reqs (<[region_id := mk_progress true (rgp_peers prog) resps]> (lr_progresses lr))
             (lr_checking_regions lr) ({[region_id]} ∪ lr_valid_regions lr)
      else mk_lr (lr_store_id lr) reqs
             (<[region_id := mk_progress (rgp_resolved prog) (rgp_peers prog ++ peer_list) resps]> (lr_progresses lr))
             (lr_checking_regions lr) (lr_valid_regions lr).

(** A store has answered for a region. *)
Definition on_region (to_store : Z) (lr : LeadershipResolver) (region_id : Z) : LeadershipResolver :=
  match lr_progresses lr !! region_id with
  | Some prog =>
      if rgp_resolved prog then lr
      else
        let resps := rgp_resps prog ++ [to_store] in
        if region_has_quorum (rgp_peers prog) resps
        then mk_lr (lr_store_id lr) (lr_store_req_map lr)
               (<[region_id := mk_progress true (rgp_peers prog) resps]> (lr_progresses lr))
               (lr_checking_regions lr) ({[region_id]} ∪ lr_valid_regions lr)
        else mk_lr (lr_store_id lr) (lr_store_req_map lr)
               (<[region_id := mk_progress false (rgp_peers prog) resps]> (lr_progresses lr))
               (lr_checking_regions lr) (lr_valid_regions lr)
  | None => lr
  end.

(** The results of the calls as they come; [None] is a failure. *)
Fixpoint collect (lr : LeadershipResolver) (results : list (Z * option (list Z))) : LeadershipResolver :=
  match results with
  | [] => lr
  | (to_store, resp) :: results =>
      let lr := match resp with Some regions => foldl (on_region to_store) lr regions | None => lr end in
      if bool_decide (size (lr_progresses lr) <= size (lr_valid_regions lr))%nat then lr else collect lr results
  end.

(** [registry] is walked in the order of the hash map. *)
Definition lr_resolve (expired : bool) (lr : LeadershipResolver) (regions : list Z)
    (registry : list (Z * RegionReadProgress)) (results : list (Z * option (list Z))) : list Z * LeadershipResolver :=
  match regions with
  | [] => ([], lr)
  | _ =>
      let lr := lr_gc expired (lr_clear lr) in
      let lr := mk_lr (lr_store_id lr) (lr_store_req_map lr) (lr_progresses lr) (list_to_set regions) (lr_valid_regions lr) in
      let lr := collect (foldl check_region lr registry) results in
      (elements (lr_valid_regions lr),
       mk_lr (lr_store_id lr) (lr_store_req_map lr) (lr_progresses lr) (lr_checking_regions lr) ∅)
  end.

(** ** The store that is asked *)

Fixpoint handle_check_leaders (capacity : Z -> nat) (registry : gmap Z RegionReadProgress) (leaders : list (Z * LeaderInfo)) :
    list Z * gmap Z RegionReadProgress :=
  match leaders with
  | [] => ([], registry)
  | (region_id, leader_info) :: leaders =>
      match registry !! region_id with
      | Some rp =>
          let '(same, rp) := consume_leader_info (capacity region_id) rp leader_info in
          let '(regions, registry) := handle_check_leaders capacity (<[region_id := rp]> registry) leaders in
          (if (same : bool) then region_id :: regions else regions, registry)
      | None => handle_check_leaders capacity registry leaders
      end
  end.

(** ** Quorums intersect *)

Definition incoming (peer : Peer) : bool := role_eqb (pr_role peer) Voter || role_eqb (pr_role peer) IncomingVoter.
Definition outgoing (peer : Peer) : bool := role_eqb (pr_role peer) Voter || role_eqb (pr_role peer) DemotingVoter.

Lemma count_disjoint p q peers :
  (forall x, p x && q x = false) -> count_peers p peers + count_peers q peers = count_peers (fun x => p x || q x) peers.
Proof.
  intros Hd. unfold count_peers. induction peers as [|x peers IH]; [done|]. cbn.
  specialize (Hd x). destruct (p x), (q x); cbn in *; try done; lia.
Qed.

Lemma count_ext p q peers : (forall x, p x = q x) -> count_peers p peers = count_peers q peers.
Proof.
  intros H. unfold count_peers. do 2 f_equal. induction peers as [|x peers IH]; [done|]. cbn. by rewrite H, IH.
Qed.

Lemma count_mono p q peers : (forall x, x ∈ peers -> p x = true -> q x = true) -> count_peers p peers <= count_peers q peers.
Proof.
  unfold count_peers. induction peers as [|x peers IH]; intros H; [done|]. cbn.
  specialize (IH (fun y Hy => H y (list_elem_of_further _ _ _ Hy))). specialize (H x (list_elem_of_here _ _)).
  destruct (p x), (q x); cbn in *; lia || by specialize (H eq_refl).
Qed.

Lemma count_peers_pos p peers : 0 < count_peers p peers -> exists x, x ∈ peers /\ p x = true.
Proof.
  unfold count_peers. induction peers as [|x peers IH]; cbn; [lia|]. destruct (p x) eqn:E.
  - intros _. exists x. split; [apply list_elem_of_here | done].
  - intros H. destruct (IH H) as (y & Hy & Hp). exists y. split; [by apply list_elem_of_further | done].
Qed.

Lemma count_zero p peers : (forall x, x ∈ peers -> p x = false) -> count_peers p peers = 0.
Proof.
  intros H. destruct (Z.lt_ge_cases 0 (count_peers p peers)) as [Hpos | ?]; [|unfold count_peers in *; lia].
  apply count_peers_pos in Hpos as (x & Hx & E). by rewrite H in E.
Qed.

(** A majority of the incoming and one of the outgoing configuration. *)
Lemma has_quorum_iff peers stores :
  region_has_quorum peers stores = true <->
  count_peers incoming peers / 2 + 1 <= count_peers (fun p => incoming p && in_resp stores p) peers /\
  count_peers outgoing peers / 2 + 1 <= count_peers (fun p => outgoing p && in_resp stores p) peers.
Proof.
  unfold region_has_quorum. rewrite andb_true_iff, !Z.leb_le.
  rewrite !count_disjoint by (intros x; destruct (pr_role x), (in_resp stores x); done).
  rewrite (count_ext (fun x => role_eqb (pr_role x) Voter && in_resp stores x || role_eqb (pr_role x) IncomingVoter && in_resp stores x)
             (fun p => incoming p && in_resp stores p)) by (intros x; unfold incoming; by rewrite andb_orb_distrib_l).
  rewrite (count_ext (fun x => role_eqb (pr_role x) Voter && in_resp stores x || role_eqb (pr_role x) DemotingVoter && in_resp stores x)
             (fun p => outgoing p && in_resp stores p)) by (intros x; unfold outgoing; by rewrite andb_orb_distrib_l).
  done.
Qed.

Lemma in_resp_iff stores peer : in_resp stores peer = true <-> pr_store_id peer ∈ stores.
Proof.
  unfold in_resp. rewrite existsb_exists. setoid_rewrite <- list_elem_of_In. setoid_rewrite Z.eqb_eq.
  split; [|eauto]. intros (x & Hx & E). by rewrite <- E.
Qed.

Lemma quorum_mono peers A B : A ⊆ B -> region_has_quorum peers A = true -> region_has_quorum peers B = true.
Proof.
  intros Hsub. rewrite !has_quorum_iff. intros [H1 H2].
  assert (forall f, count_peers (fun p => f p && in_resp A p) peers <= count_peers (fun p => f p && in_resp B p) peers) as Hm.
  { intros f. apply count_mono. intros x _. rewrite !andb_true_iff, !in_resp_iff. intros [? ?]. split; [done | by apply Hsub]. }
  pose proof (Hm incoming). pose proof (Hm outgoing). lia.
Qed.

Lemma quorum_ext peers A B : (forall s, s ∈ A <-> s ∈ B) -> region_has_quorum peers A = region_has_quorum peers B.
Proof.
  intros H. destruct (region_has_quorum peers A) eqn:EA, (region_has_quorum peers B) eqn:EB; try done.
  - rewrite (quorum_mono peers A B) in EB; [done | by intros s Hs; apply H | done].
  - rewrite (quorum_mono peers B A) in EA; [done | by intros s Hs; apply H | done].
Qed.

Lemma count_two V A B peers :
  (forall x, x ∈ peers -> V x = true -> A x = true -> B x = true -> False) ->
  count_peers (fun x => V x && A x) peers + count_peers (fun x => V x && B x) peers <= count_peers V peers.
Proof.
  unfold count_peers. induction peers as [|x peers IH]; intros H; [done|]. cbn.
  specialize (IH (fun y Hy => H y (list_elem_of_further _ _ _ Hy))). specialize (H x (list_elem_of_here _ _)).
  destruct (V x), (A x), (B x); cbn in *; lia || by destruct H.
Qed.

(** Two quorums of a region have a voter in common. *)
Lemma quorums_intersect peers A B :
  region_has_quorum peers A = true -> region_has_quorum peers B = true ->
  exists peer, peer ∈ peers /\ pr_store_id peer ∈ A /\ pr_store_id peer ∈ B.
Proof.
  rewrite !has_quorum_iff. intros [HA _] [HB _].
  destruct (decide (Exists (fun p => pr_store_id p ∈ A /\ pr_store_id p ∈ B) peers)) as [He | Hn].
  - apply Exists_exists in He as (x & Hx & ? & ?). by exists x.
  - assert (count_peers (fun p => incoming p && in_resp A p) peers + count_peers (fun p => incoming p && in_resp B p) peers
              <= count_peers incoming peers) as Hle.
    { apply count_two. intros x Hx _ Ha Hb. apply Hn, Exists_exists. exists x. by rewrite !in_resp_iff in *. }
    pose proof (Z.div_mod (count_peers incoming peers) 2). pose proof (Z.mod_pos_bound (count_peers incoming peers) 2). lia.
Qed.

(** ** What a round returns *)

(** Distinct peers are on distinct stores, and the leader is on the store
    where its peer is. *)
Record leader_wf (info : LocalLeaderInfo) : Prop := mk_leader_wf {
  lw_stores : NoDup (pr_store_id <$> ll_peers info);
  lw_leader : forall s, ll_store_id info = Some s -> find_store_id (ll_peers info) (ll_id info) = Some s
}.

Lemma update_leader_info_wf p peer_id term region :
  NoDup (pr_store_id <$> rg_peers region) -> leader_wf (rc_leader_info (rp_core (update_leader_info p peer_id term region))).
Proof. by split. Qed.

Lemma find_store_id_Some peers id s :
  find_store_id peers id = Some s -> exists peer, peer ∈ peers /\ pr_store_id peer = s /\ pr_id peer = id.
Proof.
  induction peers as [|p peers IH]; cbn [find_store_id]; [done|]. destruct (Z.eqb_spec (pr_id p) id) as [E|].
  - intros [= <-]. exists p. split; [apply list_elem_of_here | done].
  - intros H. destruct (IH H) as (x & Hx & ?). exists x. split; [by apply list_elem_of_further | done].
Qed.

Lemma same_store peers p q :
  NoDup (pr_store_id <$> peers) -> p ∈ peers -> q ∈ peers -> pr_store_id p = pr_store_id q -> p = q.
Proof.
  intros Hnd (i & Hi)%list_elem_of_lookup (j & Hj)%list_elem_of_lookup E.
  assert (i = j) as ->; [|congruence]. eapply NoDup_lookup; [exact Hnd| |]; rewrite list_lookup_fmap; [by rewrite Hi | by rewrite Hj, E].
Qed.

Lemma count_one f peers p q : count_peers f peers <= 1 -> p ∈ peers -> q ∈ peers -> f p = true -> f q = true -> p = q.
Proof.
  unfold count_peers. intros Hc Hp Hq Fp Fq.
  assert (p ∈ List.filter f peers /\ q ∈ List.filter f peers) as [Ip Iq] by (by rewrite !elem_of_filter_b).
  destruct (List.filter f peers) as [|x [|y l]]; [by apply elem_of_nil in Ip | | cbn in Hc; lia].
  apply list_elem_of_singleton in Ip, Iq. congruence.
Qed.

Lemma count_store f peers s :
  NoDup (pr_store_id <$> peers) -> (forall p, f p = true -> pr_store_id p = s) -> count_peers f peers <= 1.
Proof.
  intros Hnd Hf. unfold count_peers. induction peers as [|p peers IH]; [done|]. cbn in *. apply NoDup_cons in Hnd as [Hn Hnd].
  destruct (f p) eqn:E; [|by apply IH]. assert (List.filter f peers = []) as ->; [|done].
  destruct (List.filter f peers) as [|x l] eqn:El; [done|].
  assert (x ∈ List.filter f peers) as Hx by (rewrite El; apply list_elem_of_here). apply elem_of_filter_b in Hx as [Hx Fx].
  destruct Hn. apply list_elem_of_fmap. exists x. split; [|done]. by rewrite (Hf _ E), (Hf _ Fx).
Qed.

(** The store alone is a quorum only if nobody else votes. *)
Lemma quorum_alone peers store :
  NoDup (pr_store_id <$> peers) -> region_has_quorum peers [store] = true ->
  forall p, p ∈ peers -> role_eqb (pr_role p) Learner = false -> pr_store_id p = store.
Proof.
  intros Hnd. rewrite has_quorum_iff. intros [H1 H2] p Hp Hl.
  assert (forall f, count_peers (fun p => f p && in_resp [store] p) peers <= 1) as Hle.
  { intros f. apply count_store with store; [done|]. intros x. rewrite andb_true_iff, in_resp_iff, list_elem_of_singleton. tauto. }
  assert (forall f, count_peers f peers / 2 + 1 <= count_peers (fun p => f p && in_resp [store] p) peers ->
    count_peers f peers <= 1 /\ exists q, q ∈ peers /\ f q = true /\ pr_store_id q = store) as Hone.
  { intros f Hf. specialize (Hle f). assert (0 <= count_peers f peers) by (unfold count_peers; lia).
    pose proof (Z.div_mod (count_peers f peers) 2). pose proof (Z.mod_pos_bound (count_peers f peers) 2).
    pose proof (Z.div_pos (count_peers f peers) 2). split; [lia|].
    destruct (count_peers_pos (fun p => f p && in_resp [store] p) peers) as (q & Hq & Fq); [lia|].
    rewrite andb_true_iff, in_resp_iff, list_elem_of_singleton in Fq. naive_solver. }
  destruct (Hone _ H1) as (C1 & q1 & Q1 & F1 & S1). destruct (Hone _ H2) as (C2 & q2 & Q2 & F2 & S2).
  assert (incoming p = true \/ outgoing p = true) as [F | F] by (unfold incoming, outgoing; destruct (pr_role p); cbn in *; auto).
  - by rewrite (count_one _ _ p q1 C1).
  - by rewrite (count_one _ _ p q2 C2).
Qed.

Definition is_leader (store_id leader_id : Z) (peer : Peer) : bool := (pr_store_id peer =? store_id) && (pr_id peer =? leader_id).
Definition asked (reqs : Requests) (store : Z) : list (Z * LeaderInfo) := default [] (reqs !! store).

Lemma asked_push reqs s info s' : asked (push_req reqs s info) s' = if bool_decide (s' = s) then asked reqs s ++ [info] else asked reqs s'.
Proof. unfold asked, push_req. case_bool_decide as E; [subst; by rewrite lookup_insert_eq | by rewrite lookup_insert_ne]. Qed.

Lemma ask_peers_spec store leader info peers : forall reqs resps unvotes reqs' resps' unvotes',
  ask_peers store leader info peers reqs resps unvotes = (reqs', resps', unvotes') ->
  (forall s, s ∈ resps' <-> s ∈ resps \/ s = store /\ exists p, p ∈ peers /\ is_leader store leader p = true) /\
  unvotes' = unvotes + count_peers (fun p => negb (is_leader store leader p) && negb (role_eqb (pr_role p) Learner)) peers /\
  (forall s i, i ∈ asked reqs' s -> i ∈ asked reqs s \/ i = info).
Proof.
  induction peers as [|p peers IH]; intros reqs resps unvotes reqs' resps' unvotes' H; cbn [ask_peers] in H.
  { injection H as <- <- <-. split_and!; [|unfold count_peers; cbn; lia | auto].
    intros s. split; [auto|]. intros [?|(_ & p & Hp & _)]; [done|]. by apply elem_of_nil in Hp. }
  unfold count_peers. cbn [List.filter]. fold (is_leader store leader p) in H. destruct (is_leader store leader p) eqn:E; cbn [negb andb].
  - destruct (IH _ _ _ _ _ _ H) as (Hr & Hu & Ha). split_and!; [|done..]. intros s. rewrite Hr, elem_of_app, list_elem_of_singleton.
    split; [intros [[?|?]|(-> & x & Hx & ?)]; auto; right; (split; [done|]) | intros [?|(-> & x & Hx & Ex)]; auto].
    + exists p. split; [apply list_elem_of_here | done].
    + exists x. split; [by apply list_elem_of_further | done].
  - destruct (IH _ _ _ _ _ _ H) as (Hr & Hu & Ha). split_and!.
    + intros s. rewrite Hr. split; (intros [?|(-> & x & Hx & Ex)]; [by left|right; split; [done|]]).
      * exists x. split; [by apply list_elem_of_further | done].
      * apply elem_of_cons in Hx as [-> | Hx]; [congruence | eauto].
    + rewrite Hu. unfold count_peers. destruct (role_eqb (pr_role p) Learner); cbn; lia.
    + intros s i Hi. destruct (Ha s i Hi) as [Hi'|]; [|by right]. rewrite asked_push in Hi'. case_bool_decide; [|by left].
      subst. apply elem_of_app in Hi' as [?|?%list_elem_of_singleton]; auto.
Qed.

Section Round.
Variables (store : Z) (regions : list Z).

(** The regions that are checked: asked for, and led by this store. *)
Definition led (rp : RegionReadProgress) : Prop := ll_store_id (rc_leader_info (rp_core rp)) = Some store.
Definition peers_of (rp : RegionReadProgress) : list Peer := ll_peers (rc_leader_info (rp_core rp)).

(** The state of a region that [ans] have answered for. *)
Record settled (lr : LeadershipResolver) (r : Z) (rp : RegionReadProgress) (ans : list Z) : Prop := mk_settled {
  se_prog : is_Some (lr_progresses lr !! r);
  se_valid : r ∈ lr_valid_regions lr <-> region_has_quorum (peers_of rp) (store :: ans) = true;
  se_resolved : forall prog, lr_progresses lr !! r = Some prog ->
    (rgp_resolved prog = true <-> r ∈ lr_valid_regions lr) /\
    (rgp_resolved prog = false -> rgp_peers prog = peers_of rp /\ forall s, s ∈ rgp_resps prog <-> s ∈ (store :: ans))
}.

(** What is left of earlier rounds. *)
Definition stale (lr : LeadershipResolver) (r : Z) : Prop :=
  (r ∉ lr_valid_regions lr) /\
  forall prog, lr_progresses lr !! r = Some prog -> rgp_resolved prog = false /\ rgp_peers prog = [].

Record round_inv (entries : list (Z * RegionReadProgress)) (ans : Z -> list Z) (lr : LeadershipResolver) : Prop := mk_round_inv {
  ro_store : lr_store_id lr = store;
  ro_checking : lr_checking_regions lr = list_to_set regions;
  ro_led : forall r rp, (r, rp) ∈ entries -> r ∈ regions -> led rp -> settled lr r rp (ans r);
  ro_other : forall r, (forall rp, (r, rp) ∈ entries -> r ∈ regions -> led rp -> False) -> stale lr r
}.

Lemma no_peers_no_quorum stores : region_has_quorum [] stores = false.
Proof. done. Qed.

(** A region is looked at for the first time. *)
Lemma ask_first reqs r rp reqs' resps unvotes :
  leader_wf (rc_leader_info (rp_core rp)) -> led rp ->
  ask_peers store (ll_id (rc_leader_info (rp_core rp))) (r, get_leader_info rp) (peers_of rp) reqs [] 0 = (reqs', resps, unvotes) ->
  (forall s, s ∈ resps <-> s ∈ [store]) /\
  (region_has_quorum (peers_of rp) [store] = true -> unvotes = 0).
Proof.
  intros [Hnd Hl] Hled Ha. destruct (ask_peers_spec _ _ _ _ _ _ _ _ _ _ Ha) as (Hr & Hu & _).
  destruct (find_store_id_Some _ _ _ (Hl _ Hled)) as (q & Hq & Sq & Iq).
  assert (is_leader store (ll_id (rc_leader_info (rp_core rp))) q = true) as Lq by (unfold is_leader; by rewrite Sq, Iq, !Z.eqb_refl).
  split.
  - intros s. rewrite Hr, list_elem_of_singleton.
    split; [intros [Hs|[? _]]; [by apply elem_of_nil in Hs | done] | intros ->; right; eauto].
  - intros Hquo. rewrite Hu. apply count_zero. intros p Hp. apply andb_false_iff.
    destruct (role_eqb (pr_role p) Learner) eqn:E; [by right | left]. apply negb_false_iff.
    rewrite (same_store _ p q Hnd Hp Hq); [done|]. rewrite Sq. by apply (quorum_alone (peers_of rp)).
Qed.

(** A step that changes one region only. *)
Record touches (r : Z) (lr lr' : LeadershipResolver) : Prop := mk_touches {
  tc_store : lr_store_id lr' = lr_store_id lr;
  tc_checking : lr_checking_regions lr' = lr_checking_regions lr;
  tc_progress : forall r', r' <> r -> lr_progresses lr' !! r' = lr_progresses lr !! r';
  tc_valid : forall r', r' <> r -> r' ∈ lr_valid_regions lr' <-> r' ∈ lr_valid_regions lr
}.

Lemma settled_other lr lr' r r' rp ans : touches r lr lr' -> r' <> r -> settled lr r' rp ans -> settled lr' r' rp ans.
Proof.
  intros [_ _ Hp Hv] Hne [H1 H2 H3]. split; rewrite ?Hp, ?Hv by done; [done..|].
  intros prog Hprog. rewrite Hv by done. by apply H3.
Qed.

Lemma stale_other lr lr' r r' : touches r lr lr' -> r' <> r -> stale lr r' -> stale lr' r'.
Proof. intros [_ _ Hp Hv] Hne [H1 H2]. split; [by rewrite Hv|]. by rewrite Hp. Qed.

(** The region's new progress, and whether it is valid now. *)
Lemma settled_now lr r rp ans prog :
  lr_progresses lr !! r = Some prog ->
  (rgp_resolved prog = true <-> region_has_quorum (peers_of rp) (store :: ans) = true) ->
  (r ∈ lr_valid_regions lr <-> region_has_quorum (peers_of rp) (store :: ans) = true) ->
  (rgp_resolved prog = false -> rgp_peers prog = peers_of rp /\ forall s, s ∈ rgp_resps prog <-> s ∈ (store :: ans)) ->
  settled lr r rp ans.
Proof. intros Hp Hr Hv Hf. split; [by rewrite Hp | done |]. intros prog'. rewrite Hp. intros [= <-]. split; [by rewrite Hr, Hv | done]. Qed.

(** The region is not checked. *)
Lemma skip_inv entries lr r rp :
  ~ (r ∈ regions /\ led rp) -> round_inv entries (fun _ => []) lr -> round_inv ((r, rp) :: entries) (fun _ => []) lr.
Proof.
  intros Hno [Hstore Hcheck Hled Hother]. split; auto.
  - intros r' rp' [[= -> ->]|Hin]%elem_of_cons ? ?; [by destruct Hno | by eapply Hled].
  - intros r' Hn. apply Hother. intros rp' Hin ? ?. eapply (Hn rp'); [by apply list_elem_of_further | done..].
Qed.

Lemma touched_inv entries lr lr' r rp :
  r ∉ entries.*1 -> r ∈ regions -> led rp -> round_inv entries (fun _ => []) lr -> touches r lr lr' -> settled lr' r rp [] ->
  round_inv ((r, rp) :: entries) (fun _ => []) lr'.
Proof.
  intros Hn Hr Hl [Hstore Hcheck Hled Hother] Ht Hset. pose proof Ht as [E1 E2 _ _]. split; [congruence.. | |].
  - intros r' rp' [[= -> ->]|Hin]%elem_of_cons ? ?; [done|]. eapply settled_other; [done| |by eapply Hled].
    intros ->. apply Hn, list_elem_of_fmap. by exists (r, rp').
  - intros r' Hno. destruct (decide (r' = r)) as [->|Hne]; [destruct (Hno rp); [apply list_elem_of_here|done..]|].
    eapply stale_other; [done..|]. apply Hother. intros rp' Hin ? ?. eapply (Hno rp'); [by apply list_elem_of_further | done..].
Qed.

(** No answer is left of earlier rounds in the regions still to be checked. *)
Definition unanswered (entries : list (Z * RegionReadProgress)) (lr : LeadershipResolver) : Prop :=
  forall r prog, r ∉ entries.*1 -> lr_progresses lr !! r = Some prog -> rgp_resps prog = [].

Lemma unanswered_cons entries lr lr' r rp :
  unanswered entries lr -> (forall r', r' <> r -> lr_progresses lr' !! r' = lr_progresses lr !! r') -> unanswered ((r, rp) :: entries) lr'.
Proof. intros Hu Hp r' prog Hn. cbn in Hn. apply not_elem_of_cons in Hn as [Hne Hn]. rewrite Hp by done. by apply Hu. Qed.

Lemma check_region_inv entries lr r rp :
  r ∉ entries.*1 -> leader_wf (rc_leader_info (rp_core rp)) -> unanswered entries lr -> round_inv entries (fun _ => []) lr ->
  round_inv ((r, rp) :: entries) (fun _ => []) (check_region lr (r, rp)) /\ unanswered ((r, rp) :: entries) (check_region lr (r, rp)).
Proof.
  intros Hn Hwf Hresps Hinv. pose proof Hinv as [Hstore Hcheck _ Hother]. unfold check_region. rewrite Hcheck, Hstore.
  destruct (decide (r ∈ regions)) as [Hr | Hr]; [rewrite bool_decide_eq_true_2 by set_solver | rewrite bool_decide_eq_false_2 by set_solver]; cbn [negb];
    [|split; [by apply skip_inv; [intros []|] | by eapply unanswered_cons]].
  destruct (decide (ll_store_id (rc_leader_info (rp_core rp)) = Some store)) as [Hl | Hl];
    [rewrite bool_decide_eq_true_2 by done | rewrite bool_decide_eq_false_2 by done]; cbn [negb];
    [|split; [by apply skip_inv; [intros []|] | by eapply unanswered_cons]].
  set (prog := default progress_new (lr_progresses lr !! r)).
  destruct (Hother r) as [Hnv Hprog]; [intros rp' Hin; destruct Hn; apply list_elem_of_fmap; by exists (r, rp')|].
  assert (rgp_resolved prog = false /\ rgp_peers prog = [] /\ rgp_resps prog = []) as (-> & -> & ->).
  { unfold prog. destruct (lr_progresses lr !! r) as [p|] eqn:E; [|done]. cbn. destruct (Hprog _ eq_refl). by split_and!; [..|eapply Hresps]. }
  cbn [app]. destruct (ask_peers _ _ _ _ _ _ _) as [[reqs resps] unvotes] eqn:Ea.
  destruct (ask_first _ _ _ _ _ _ Hwf Hl Ea) as [Er Eu]. fold (peers_of rp). rewrite (quorum_ext (peers_of rp) resps [store]) by done.
  assert ((unvotes =? 0) && region_has_quorum (peers_of rp) [store] = region_has_quorum (peers_of rp) [store]) as ->.
  { destruct (region_has_quorum (peers_of rp) [store]); [by rewrite Eu | apply andb_false_r]. }
  destruct (region_has_quorum (peers_of rp) [store]) eqn:Eq;
    (split; [eapply touched_inv; [done..| |] | by eapply unanswered_cons; [|intros r' Hne; apply lookup_insert_ne]]).
  - split; cbn; [by rewrite Hstore | done | intros; by apply lookup_insert_ne | set_solver].
  - eapply settled_now; cbn; [by rewrite lookup_insert_eq | by rewrite Eq | rewrite Eq; set_solver | done].
  - split; cbn; [by rewrite Hstore | done | intros; by apply lookup_insert_ne | done].
  - eapply settled_now; cbn; [by rewrite lookup_insert_eq | by rewrite Eq | by rewrite Eq; split | done].
Qed.

Lemma check_regions_inv entries : forall seen lr,
  NoDup (entries.*1 ++ seen.*1) -> Forall (fun e => leader_wf (rc_leader_info (rp_core e.2))) entries ->
  unanswered seen lr -> round_inv seen (fun _ => []) lr -> round_inv (reverse entries ++ seen) (fun _ => []) (foldl check_region lr entries).
Proof.
  induction entries as [|[r rp] entries IH]; intros seen lr Hnd Hwf Hu Hinv; [done|].
  apply Forall_cons in Hwf as [Hw Hwf]. cbn in Hnd. apply NoDup_cons in Hnd as [Hn Hnd].
  destruct (check_region_inv seen lr r rp) as [Hinv' Hu']; [by intros ?; apply Hn, elem_of_app; right | done..|].
  cbn [foldl]. rewrite reverse_cons, <- app_assoc. cbn [app]. apply IH; [|done..]. cbn. by rewrite <- Permutation_middle; apply NoDup_cons.
Qed.

(** A store answers for a region. *)
Lemma on_region_inv entries ans s lr x :
  round_inv entries ans lr -> NoDup entries.*1 ->
  round_inv entries (fun r => if decide (r = x) then ans r ++ [s] else ans r) (on_region s lr x).
Proof.
  intros [Hstore Hcheck Hled Hother] Hnd. unfold on_region.
  assert (forall lr', touches x lr lr' -> (forall rp, (x, rp) ∈ entries -> x ∈ regions -> led rp -> settled lr x rp (ans x) -> settled lr' x rp (ans x ++ [s])) ->
    (stale lr x -> stale lr' x) -> round_inv entries (fun r => if decide (r = x) then ans r ++ [s] else ans r) lr') as Hgo.
  { intros lr' Ht Hset Hst. pose proof Ht as [E1 E2 _ _]. split; [congruence..| |].
    - intros r rp Hin Hr Hl. destruct (decide (r = x)) as [->|Hne]; [by apply Hset; [..|apply Hled] | by eapply settled_other; [..|apply Hled]].
    - intros r Hno. destruct (decide (r = x)) as [->|Hne]; [by apply Hst, Hother | by eapply stale_other; [..|apply Hother]]. }
  destruct (lr_progresses lr !! x) as [prog|] eqn:Ex.
  2:{ apply Hgo; [by split | | done]. intros rp Hin Hr Hl [[p Hp] _ _]. congruence. }
  destruct (rgp_resolved prog) eqn:Er.
  - apply Hgo; [by split | | done]. intros rp _ _ _ [H1 H2 H3]. destruct (H3 _ Ex) as [Hv _].
    assert (x ∈ lr_valid_regions lr) as Hx by (by apply Hv).
    eapply settled_now; [exact Ex | | |by rewrite Er].
    + split; [|done]. intros _. eapply quorum_mono; [|by apply H2]. set_solver.
    + split; [|done]. intros _. eapply quorum_mono; [|by apply H2]. set_solver.
  - assert (forall b, touches x lr (mk_lr (lr_store_id lr) (lr_store_req_map lr)
              (<[x := mk_progress b (rgp_peers prog) (rgp_resps prog ++ [s])]> (lr_progresses lr)) (lr_checking_regions lr)
              (if b : bool then {[x]} ∪ lr_valid_regions lr else lr_valid_regions lr))) as Htouch.
    { intros b. split; cbn; [done | done | intros; by apply lookup_insert_ne | destruct b; set_solver]. }
    destruct (region_has_quorum (rgp_peers prog) (rgp_resps prog ++ [s])) eqn:Eq; apply Hgo; [apply (Htouch true) | | |apply (Htouch false)| |].
    + intros rp _ _ _ [H1 H2 H3]. destruct (H3 _ Ex) as [_ Hf]. destruct (Hf Er) as [Ep Es].
      assert (region_has_quorum (peers_of rp) (store :: ans x ++ [s]) = true) as Hq.
      { rewrite <- Ep, <- Eq. apply quorum_ext. intros t. specialize (Es t). set_solver. }
      eapply settled_now; cbn; [by rewrite lookup_insert_eq | by rewrite Hq | rewrite Hq; set_solver | done].
    + intros [_ H]. destruct (H _ Ex) as [_ Hp]. by rewrite Hp in Eq.
    + intros rp _ _ _ [H1 H2 H3]. destruct (H3 _ Ex) as [Hv Hf]. destruct (Hf Er) as [Ep Es].
      assert (region_has_quorum (peers_of rp) (store :: ans x ++ [s]) = false) as Hq.
      { rewrite <- Ep, <- Eq. apply quorum_ext. intros t. specialize (Es t). set_solver. }
      eapply settled_now; cbn; [by rewrite lookup_insert_eq | by rewrite Hq | rewrite Hq, <- Hv, Er; done |].
      intros _. split; [done|]. intros t. specialize (Es t). set_solver.
    + intros [Hn H]. split; [done|]. cbn. intros prog'. rewrite lookup_insert_eq. intros [= <-]. cbn. split; [done|]. by apply (H _ Ex).
Qed.

Lemma round_inv_ext entries ans ans' lr :
  round_inv entries ans lr -> (forall r t, t ∈ ans r <-> t ∈ ans' r) -> round_inv entries ans' lr.
Proof.
  intros [Hstore Hcheck Hled Hother] He. split; auto. intros r rp Hin Hr Hl. destruct (Hled r rp Hin Hr Hl) as [H1 H2 H3]. split; [done| |].
  - rewrite H2. rewrite (quorum_ext _ (store :: ans r) (store :: ans' r)); [done|]. intros t. specialize (He r t). set_solver.
  - intros prog Hp. destruct (H3 prog Hp) as [Hv Hf]. split; [done|]. intros Hres. destruct (Hf Hres) as [Ep Es]. split; [done|].
    intros t. rewrite Es. specialize (He r t). set_solver.
Qed.

Lemma on_regions_inv entries s answer : forall ans lr,
  round_inv entries ans lr -> NoDup entries.*1 ->
  round_inv entries (fun r => if bool_decide (r ∈ answer) then ans r ++ [s] else ans r) (foldl (on_region s) lr answer).
Proof.
  induction answer as [|x answer IH]; intros ans lr Hinv Hnd; cbn [foldl].
  - eapply round_inv_ext; [done|]. intros r t. rewrite bool_decide_eq_false_2; [done|]. apply not_elem_of_nil.
  - eapply round_inv_ext; [by apply IH; [by apply on_region_inv|]|]. cbn beta. intros r t. destruct (decide (r = x)); repeat case_bool_decide; set_solver.
Qed.

(** The stores that answered for the region. *)
Fixpoint answered (results : list (Z * option (list Z))) (r : Z) : list Z :=
  match results with
  | [] => []
  | (s, Some answer) :: results => if bool_decide (r ∈ answer) then s :: answered results r else answered results r
  | (_, None) :: results => answered results r
  end.

Definition eligible (entries : list (Z * RegionReadProgress)) (r : Z) : Prop :=
  exists rp, (r, rp) ∈ entries /\ r ∈ regions /\ led rp.

Lemma eligible_dec entries r : eligible entries r \/ (forall rp, (r, rp) ∈ entries -> r ∈ regions -> led rp -> False).
Proof.
  destruct (decide (Exists (fun e => e.1 = r /\ r ∈ regions /\ ll_store_id (rc_leader_info (rp_core e.2)) = Some store) entries)) as [He|Hn].
  - apply Exists_exists in He as ([r' rp] & Hin & E & Hr & Hl). cbn in E. subst r'. left. by exists rp.
  - right. intros rp Hin Hr Hl. apply Hn, Exists_exists. by exists (r, rp).
Qed.

Lemma valid_progress entries ans lr : round_inv entries ans lr -> lr_valid_regions lr ⊆ dom (lr_progresses lr).
Proof.
  intros [_ _ Hled Hother] r Hr. destruct (eligible_dec entries r) as [(rp & Hin & Hreg & Hl)|Hn].
  - apply elem_of_dom. by apply (Hled r rp).
  - by destruct (Hother r Hn).
Qed.

(** The early exit loses nothing. *)
Lemma collect_valid entries results : forall ans lr r,
  round_inv entries ans lr -> NoDup entries.*1 ->
  (forall rp, (r, rp) ∈ entries -> r ∈ regions -> led rp ->
     r ∈ lr_valid_regions (collect lr results) <-> region_has_quorum (peers_of rp) (store :: ans r ++ answered results r) = true) /\
  ((forall rp, (r, rp) ∈ entries -> r ∈ regions -> led rp -> False) -> r ∉ lr_valid_regions (collect lr results)).
Proof.
  induction results as [|[s resp] results IH]; intros ans lr r Hinv Hnd; cbn [collect answered].
  { split.
    - intros rp Hin Hr Hl. rewrite app_nil_r. apply (se_valid _ _ _ _ (ro_led _ _ _ Hinv r rp Hin Hr Hl)).
    - intros Hn. apply (ro_other _ _ _ Hinv r Hn). }
  set (lr1 := match resp with Some answer => foldl (on_region s) lr answer | None => lr end).
  assert (exists ans1, round_inv entries ans1 lr1 /\
    forall t, t ∈ ans1 r ++ answered results r <-> t ∈ ans r ++ answered ((s, resp) :: results) r) as (ans1 & Hinv1 & He).
  { unfold lr1. destruct resp as [answer|]; [|by exists ans]. eexists. split; [by apply on_regions_inv|]. cbn beta.
    intros t. cbn [answered]. case_bool_decide; set_solver. }
  cbn [answered] in He. case_bool_decide as Hsize.
  - split; [|intros Hn; apply (ro_other _ _ _ Hinv1 r Hn)]. intros rp Hin Hr Hl.
    destruct (ro_led _ _ _ Hinv1 r rp Hin Hr Hl) as [Hp Hv _].
    assert (r ∈ lr_valid_regions lr1) as Hval.
    { assert (lr_valid_regions lr1 = dom (lr_progresses lr1)) as ->; [|by apply elem_of_dom].
      apply set_subseteq_size_eq; [by eapply valid_progress|]. by rewrite size_dom. }
    split; [|done]. intros _. eapply quorum_mono; [|by apply Hv]. intros t Ht. specialize (He t). set_solver.
  - destruct (IH ans1 lr1 r Hinv1 Hnd) as [IH1 IH2]. split; [|done]. intros rp Hin Hr Hl. rewrite (IH1 rp Hin Hr Hl).
    rewrite (quorum_ext _ _ (store :: ans r ++ answered ((s, resp) :: results) r)); [done|]. intros t. specialize (He t). cbn [answered]. set_solver.
Qed.
End Round.

(** ** Requests and answers *)

Lemma check_regions_asked entries : forall lr s r li,
  (r, li) ∈ asked (lr_store_req_map (foldl check_region lr entries)) s ->
  (r, li) ∈ asked (lr_store_req_map lr) s \/ exists rp, (r, rp) ∈ entries /\ li = get_leader_info rp.
Proof.
  induction entries as [|[x rp] entries IH]; intros lr s r li Hin; [by left|]. cbn [foldl] in Hin.
  destruct (IH _ _ _ _ Hin) as [Hin1|(rp' & H1 & H2)]; [|right; exists rp'; by split; [apply list_elem_of_further|]].
  unfold check_region in Hin1. destruct (negb _); [by left|]. destruct (negb _); [by left|].
  destruct (ask_peers _ _ _ _ _ _ _) as [[reqs resps] unvotes] eqn:Ea. destruct (ask_peers_spec _ _ _ _ _ _ _ _ _ _ Ea) as (_ & _ & Hask).
  assert ((r, li) ∈ asked reqs s) as Hin2 by (by destruct (_ && _)).
  destruct (Hask _ _ Hin2) as [?|[= -> ->]]; [by left|]. right. exists rp. split; [apply list_elem_of_here | done].
Qed.

Lemma collect_asked results : forall lr, lr_store_req_map (collect lr results) = lr_store_req_map lr.
Proof.
  assert (forall s answer lr, lr_store_req_map (foldl (on_region s) lr answer) = lr_store_req_map lr) as Hon.
  { intros s answer. induction answer as [|x answer IH]; intros lr; [done|]. cbn. rewrite IH. unfold on_region. by repeat case_match. }
  induction results as [|[s [answer|]] results IH]; intros lr; cbn [collect]; [done| |]; case_bool_decide; rewrite ?IH; auto.
Qed.

Lemma consume_leader_info_keeps capacity p li : rc_leader_info (rp_core (consume_leader_info capacity p li).2) = rc_leader_info (rp_core p).
Proof.
  unfold consume_leader_info. cbn [snd]. destruct (li_read_state li) as [rs|]; [|done].
  unfold update_safe_ts, core_update_safe_ts. repeat (case_match; simplify_eq/=; try done).
Qed.

(** A store answers for a region only if it knows the same leader. *)
Lemma handle_check_leaders_spec capacity leaders : forall registry r,
  r ∈ (handle_check_leaders capacity registry leaders).1 ->
  exists li rp, (r, li) ∈ leaders /\ registry !! r = Some rp /\
    let info := rc_leader_info (rp_core rp) in ll_term info = li_term li /\ ll_id info = li_peer_id li /\ ll_epoch info = li_epoch li.
Proof.
  induction leaders as [|[x li] leaders IH]; intros registry r Hin; cbn [handle_check_leaders] in Hin; [by apply elem_of_nil in Hin|].
  destruct (registry !! x) as [rp|] eqn:Ex.
  2:{ destruct (IH _ _ Hin) as (li' & rp' & ? & ?). exists li', rp'. by split; [apply list_elem_of_further|]. }
  pose proof (consume_leader_info_keeps (capacity x) rp li) as Hkeep.
  destruct (consume_leader_info (capacity x) rp li) as [same rp1] eqn:Ec. cbn [snd] in Hkeep.
  destruct (handle_check_leaders capacity _ leaders) as [answer registry'] eqn:Eh. cbn [fst] in Hin.
  assert (r ∈ answer \/ r = x /\ same = true) as [Hr | [-> ->]].
  { destruct same; [|by left]. apply elem_of_cons in Hin as [->|?]; auto. }
  - destruct (IH (<[x := rp1]> registry) r) as (li' & rp' & H1 & H2 & H3); [by rewrite Eh|]. exists li'.
    apply lookup_insert_Some in H2 as [[-> ->]|[_ H2]]; [exists rp; rewrite <- Hkeep | exists rp']; (split; [by apply list_elem_of_further | done]).
  - unfold consume_leader_info in Ec. injection Ec as Ec Ep. apply andb_true_iff in Ec as [Ec E3]. apply andb_true_iff in Ec as [E1 E2].
    apply bool_decide_eq_true in E3. rewrite Ep, Hkeep in E1, E2, E3. exists li, rp. cbn zeta. split_and!; [apply list_elem_of_here | done | lia | lia | done].
Qed.

(** ** Results *)

Lemma round_start store regions lr expired :
  lr_store_id lr = store ->
  let lr1 := lr_gc expired (lr_clear lr) in
  round_inv store regions [] (fun _ => [])
    (mk_lr (lr_store_id lr1) (lr_store_req_map lr1) (lr_progresses lr1) (list_to_set regions) (lr_valid_regions lr1))
  /\ unanswered [] (mk_lr (lr_store_id lr1) (lr_store_req_map lr1) (lr_progresses lr1) (list_to_set regions) (lr_valid_regions lr1))
  /\ (forall s, asked (lr_store_req_map lr1) s = []) /\ lr_valid_regions lr1 = ∅.
Proof.
  intros Hs lr1. assert (forall r prog, lr_progresses lr1 !! r = Some prog -> prog = progress_new) as Hp.
  { intros r prog. unfold lr1, lr_gc. destruct expired; cbn; [by rewrite lookup_empty|].
    rewrite lookup_fmap. intros (? & _ & ->)%fmap_Some. done. }
  assert (lr_valid_regions lr1 = ∅) as Hv by (unfold lr1, lr_gc; by destruct expired).
  split_and!; [|by intros r prog _ ->%Hp | |done].
  - split; [unfold lr1, lr_gc; by destruct expired | done | intros r rp Hin; by apply elem_of_nil in Hin |].
    intros r _. split; cbn; [by rewrite Hv; apply not_elem_of_empty | by intros prog ->%Hp].
  - intros s. unfold lr1, lr_gc, asked. destruct expired; cbn; [by rewrite lookup_empty|]. rewrite lookup_fmap. by destruct (_ !! s).
Qed.

Lemma registry_unique (registry : list (Z * RegionReadProgress)) r rp rp' :
  NoDup registry.*1 -> (r, rp) ∈ registry -> (r, rp') ∈ registry -> rp = rp'.
Proof.
  intros Hnd H1 H2. apply (elem_of_list_to_map_1 (M := gmap Z)) in H1; [|done]. apply (elem_of_list_to_map_1 (M := gmap Z)) in H2; [|done]. congruence.
Qed.

Lemma resolve_valid expired lr regions registry results r :
  NoDup registry.*1 -> Forall (fun e => leader_wf (rc_leader_info (rp_core e.2))) registry ->
  r ∈ (lr_resolve expired lr regions registry results).1 <->
  exists rp, (r, rp) ∈ registry /\ r ∈ regions /\ led (lr_store_id lr) rp /\
    region_has_quorum (peers_of rp) (lr_store_id lr :: answered results r) = true.
Proof.
  intros Hnd Hwf. unfold lr_resolve. destruct regions as [|x regions].
  { split; [by intros ?%elem_of_nil | by intros (? & _ & ?%elem_of_nil & _)]. }
  destruct (round_start (lr_store_id lr) (x :: regions) lr expired eq_refl) as (Hinv & Hu & _ & _).
  cbn [fst]. rewrite elem_of_elements.
  pose proof (check_regions_inv (lr_store_id lr) (x :: regions) registry [] _ ltac:(by rewrite app_nil_r) Hwf Hu Hinv) as Hc.
  rewrite app_nil_r in Hc.
  assert (forall e, e ∈ reverse registry <-> e ∈ registry) as Hrev by (intros e; by rewrite reverse_Permutation).
  assert (NoDup (reverse registry).*1) as Hnd' by (by rewrite reverse_Permutation).
  destruct (collect_valid _ _ _ results _ _ r Hc Hnd') as [H1 H2]. setoid_rewrite Hrev in H1. setoid_rewrite Hrev in H2.
  destruct (eligible_dec (lr_store_id lr) (x :: regions) registry r) as [(rp & Hin & Hr & Hl)|Hn].
  - rewrite (H1 rp Hin Hr Hl). split; [intros Hq; by exists rp|]. intros (rp' & Hin' & _ & _ & Hq).
    assert (rp' = rp) as ->; [|done]. exact (registry_unique _ _ _ _ Hnd Hin' Hin).
  - split; [by intros ?%H2 | by intros (rp & ? & ? & ? & _); destruct (Hn rp)].
Qed.

(** What a store was sent is the leader info of a region of the round. *)
Lemma resolve_asked expired lr regions registry results s r li :
  regions <> [] -> (r, li) ∈ asked (lr_store_req_map (lr_resolve expired lr regions registry results).2) s ->
  exists rp, (r, rp) ∈ registry /\ li = get_leader_info rp.
Proof.
  intros Hne Hin. unfold lr_resolve in Hin. destruct regions as [|x regions]; [done|]. cbn [snd lr_store_req_map] in Hin.
  rewrite collect_asked in Hin. destruct (check_regions_asked _ _ _ _ _ Hin) as [Hin1|?]; [|done].
  destruct (round_start (lr_store_id lr) (x :: regions) lr expired eq_refl) as (_ & _ & Ha & _). cbn in Hin1. rewrite Ha in Hin1.
  by apply elem_of_nil in Hin1.
Qed.

Lemma answered_elem results r s : s ∈ answered results r -> exists answer, (s, Some answer) ∈ results /\ r ∈ answer.
Proof.
  induction results as [|[t [answer|]] results IH]; cbn [answered]; intros Hin; [by apply elem_of_nil in Hin| |].
  - case_bool_decide as Hr.
    + apply elem_of_cons in Hin as [->|Hin]; [exists answer; split; [apply list_elem_of_here | done]|].
      destruct (IH Hin) as (a & ? & ?). exists a. by split; [apply list_elem_of_further|].
    + destruct (IH Hin) as (a & ? & ?). exists a. by split; [apply list_elem_of_further|].
  - destruct (IH Hin) as (a & ? & ?). exists a. by split; [apply list_elem_of_further|].
Qed.

(** A round confirms the leadership of exactly the right regions. It
    returns the regions that were asked for, that this store leads as far as
    it knows, and for which this store and the stores that answered are a
    quorum of the region's peers, in the old and in the new configuration when
    it is changing; whatever earlier rounds left, in whatever order the answers
    come, and although the round ends as soon as all regions are confirmed. *)
Theorem leaders_confirmed_exactly expired lr regions registry results r :
  NoDup registry.*1 -> Forall (fun e => leader_wf (rc_leader_info (rp_core e.2))) registry ->
  r ∈ (lr_resolve expired lr regions registry results).1 <->
  exists rp, (r, rp) ∈ registry /\ r ∈ regions /\ led (lr_store_id lr) rp /\
    region_has_quorum (peers_of rp) (lr_store_id lr :: answered results r) = true.
Proof. apply resolve_valid. Qed.

(** C31: A confirmed leader had no successor when the round began. Let a region
    be confirmed, by stores that compare the request with the leader they know
    ([handle_check_leaders]) at some time [at_] after [t0]. The term a store
    knows never decreases. Then a leader with a larger term, which a quorum
    knew by [t], has [t] after [t0]; so whatever it commits gets a timestamp
    that the oracle gives after [t0]. *)
Theorem confirmed_before_successor expired lr regions registry results r rp capacity
    (known : Z -> gmap Z RegionReadProgress) (term : Z -> Z -> Z) (at_ : Z -> Z) t0 successors (ack : Z -> Z) t later :
  NoDup registry.*1 -> Forall (fun e => leader_wf (rc_leader_info (rp_core e.2))) registry ->
  r ∈ (lr_resolve expired lr regions registry results).1 -> (r, rp) ∈ registry ->
  (forall s answer, (s, Some answer) ∈ results ->
     answer = (handle_check_leaders capacity (known s) (asked (lr_store_req_map (lr_resolve expired lr regions registry results).2) s)).1) ->
  (forall s p, known s !! r = Some p -> ll_term (rc_leader_info (rp_core p)) = term s (at_ s)) ->
  ll_term (rc_leader_info (rp_core rp)) = term (lr_store_id lr) (at_ (lr_store_id lr)) ->
  (forall s, t0 <= at_ s) -> (forall s x y, x <= y -> term s x <= term s y) ->
  region_has_quorum (peers_of rp) successors = true ->
  (forall s, s ∈ successors -> ack s <= t /\ later <= term s (ack s)) ->
  ll_term (rc_leader_info (rp_core rp)) < later -> t0 < t.
Proof.
  intros Hnd Hwf Hr Hrp Hres Hknown Hown Ht0 Hmono Hquo Hsucc Hlt.
  assert (regions <> []) as Hne by (intros ->; by apply elem_of_nil in Hr).
  apply resolve_valid in Hr as (rp' & Hin & _ & _ & Hq); [|done..]. rewrite (registry_unique _ _ _ _ Hnd Hin Hrp) in Hq.
  destruct (quorums_intersect _ _ _ Hq Hquo) as (peer & _ & H1 & H2). destruct (Hsucc _ H2) as [Hack Hlater].
  set (s := pr_store_id peer) in *.
  assert (ll_term (rc_leader_info (rp_core rp)) = term s (at_ s)) as Hterm.
  { apply elem_of_cons in H1 as [-> | H1]; [done|]. apply answered_elem in H1 as (answer & Ha & Hra).
    rewrite (Hres _ _ Ha) in Hra. apply handle_check_leaders_spec in Hra as (li & p & Hli & Hp & Et & _).
    rewrite <- (Hknown _ _ Hp), Et. apply resolve_asked in Hli as (rp1 & Hin1 & ->); [|done].
    by rewrite (registry_unique _ _ _ _ Hnd Hin1 Hrp). }
  destruct (Z.lt_ge_cases (at_ s) (ack s)) as [?|Hge]; [specialize (Ht0 s); lia|].
  specialize (Hmono s (ack s) (at_ s)). lia.
Qed.

(** ** Examples *)

(** A region with three voters and one more that joins, led by the first. *)
Definition sample_region : RegionMeta :=
  mk_meta (1, 1) [mk_peer 11 1 Voter; mk_peer 12 2 Voter; mk_peer 13 3 DemotingVoter; mk_peer 14 4 IncomingVoter].
Definition sample_progress : RegionReadProgress := update_leader_info (rrp_new sample_region 5 false) 11 7 sample_region.
Definition sample_results : list (Z * option (list Z)) := [(4, None); (2, Some [100]); (3, Some [100])].
Definition sample_round : list Z * LeadershipResolver := lr_resolve false (lr_new 1) [100] [(100, sample_progress)] sample_results.

Lemma sample_registry_wf : Forall (fun e => leader_wf (rc_leader_info (rp_core e.2))) [(100, sample_progress)].
Proof. apply Forall_singleton. split; [|done]. cbn. repeat (apply NoDup_cons; split; [set_solver|]). apply NoDup_nil_2. Qed.

Lemma leaders_confirmed_exactly_witness :
  100 ∈ sample_round.1 <->
  exists rp, (100, rp) ∈ [(100, sample_progress)] /\ 100 ∈ [100] /\ led 1 rp /\ region_has_quorum (peers_of rp) [1; 2; 3] = true.
Proof.
  apply (leaders_confirmed_exactly false (lr_new 1) [100] [(100, sample_progress)] sample_results 100).
  - apply NoDup_singleton.
  - exact sample_registry_wf.
Defined.

(** The stores 2 and 3 know the leader; the stores 1, 2 and 4 later follow a
    leader of term 8, which they know by time 9. *)
Definition sample_term (s t : Z) : Z := if t <? 9 then 7 else 8.

Lemma confirmed_before_successor_witness : sample_round.1 = [100] /\ 3 < 9.
Proof.
  split; [vm_compute; reflexivity|].
  apply (confirmed_before_successor false (lr_new 1) [100] [(100, sample_progress)] sample_results 100 sample_progress (fun _ => 4%nat)
    (fun s => if decide (s = 4) then ∅ else {[100 := sample_progress]}) sample_term (fun _ => 4) 3 [1; 2; 4] (fun _ => 9) 9 8).
  - apply NoDup_singleton.
  - exact sample_registry_wf.
  - vm_compute. apply list_elem_of_here.
  - apply list_elem_of_here.
  - intros s answer Hin. repeat (apply elem_of_cons in Hin as [Hin|Hin]; [first [discriminate Hin | injection Hin as -> ->; vm_compute; reflexivity]|]).
    by apply elem_of_nil in Hin.
  - intros s p. destruct (decide (s = 4)); [by rewrite lookup_empty|]. intros [_ <-]%lookup_singleton_Some. reflexivity.
  - reflexivity.
  - intros _. lia.
  - intros s x y Hle. unfold sample_term. destruct (Z.ltb_spec x 9), (Z.ltb_spec y 9); lia.
  - vm_compute. reflexivity.
  - intros s _. vm_compute. split; discriminate.
  - vm_compute. reflexivity.
Defined.
