(* ===== verification/AdvanceSafe.v ===== *)
(** * Resolved timestamps and concurrent commits

    The pairs of the leader are true if commits are above the timestamps it
    resolved with before ([ResolvedTs.v]). Here that is shown of the code. The
    worker that advances the timestamp ([advance_ts] of [Advance.v]), taken
    apart into its atomic operations, runs against any number of prewrites with
    async commit or one-phase commit, whose steps are those of
    [AsyncCommit.v], against two-phase transactions, and against reads. What
    they send to the endpoint is queued, and the leader takes it from there.

    The rows of a command are queued before its memory locks are released:
    raftstore hands applied commands to the observers before it answers. *)
From S2P Require Import Prelude Number Bytes Timestamp Key Fields Lock Write OrderedMap PeerLocks Engine.
From S2P Require Import ConcurrencyManager Reader Versions MvccTxn CheckTxnStatus Prewrite Commands AsyncCommit PrewriteCommand.
From S2P Require Import KeyView Protocol ActionSpec ReadSpec PrewriteSpec PrewriteCommandSpec System Demo ChangeLog.
From S2P Require Import ChangeLogSpec Resolver ObserveRegion ReadProgress ResolvedTs Advance.
Local Open Scope Z_scope.

(** ** The worker *)

(** Waiting; with a timestamp from the oracle; walking the lock table, with
    keys still to visit and the oldest lock found; with the timestamp to
    resolve with. *)
Inductive ATask :=
  | AIdle
  | AFetched (ts : TimeStamp)
  | AScan (ts : TimeStamp) (todo : list Key) (found : option (TimeStamp * Key))
  | AReady (ts : TimeStamp).

Definition note_lock (found : option (TimeStamp * Key)) (key : Key) (lock : option Lock) : option (TimeStamp * Key) :=
  match lock with
  | None => found
  | Some lock =>
      match found with
      | Some (ts, _) => if lock_ts lock <? ts then Some (lock_ts lock, key) else found
      | None => Some (lock_ts lock, key)
      end
  end.
Definition lower (ts : TimeStamp) (found : option (TimeStamp * Key)) : TimeStamp :=
  match found with
  | Some (min_mem_lock_ts, _) => if min_mem_lock_ts <? ts then min_mem_lock_ts else ts
  | None => ts
  end.
Definition visited (key : Key) (todo : list Key) : list Key := List.filter (fun k => negb (bool_decide (k = key))) todo.

(** One operation of the worker. The walk visits the keys that were in the
    table when it began, and it may meet others. *)
Inductive worker_step (free : Key -> bool) : ConcurrencyManager -> ATask -> ConcurrencyManager -> ATask -> Prop :=
  | wk_update env cm ts cm' :
      update_max_ts env cm ts = (Ok tt, cm') ->
      worker_step free cm (AFetched ts) cm' (AScan ts (entries (cm_lock_table cm')).*1 None)
  | wk_fails env cm ts e cm' :
      update_max_ts env cm ts = (Err e, cm') -> worker_step free cm (AFetched ts) cm' AIdle
  | wk_visit cm ts todo found key lock :
      cm_lock_table cm !! key = Some lock -> free key = true ->
      worker_step free cm (AScan ts todo found) cm (AScan ts (visited key todo) (note_lock found key lock))
  | wk_gone cm ts todo found key :
      cm_lock_table cm !! key = None -> worker_step free cm (AScan ts todo found) cm (AScan ts (visited key todo) found)
  | wk_ready cm ts found : worker_step free cm (AScan ts [] found) cm (AReady (lower ts found))
  (* no region was confirmed *)
  | wk_drop cm ts : worker_step free cm (AReady ts) cm AIdle.

Lemma min_lock_loop_note es : forall found,
  min_lock_loop es found = foldl (fun f e => note_lock f e.1 e.2) found es.
Proof. induction es as [|[key [lock|]] es IH]; intros found; cbn; [done| |by rewrite IH]. by rewrite IH. Qed.

Lemma visited_head key (l : list Key) : NoDup (key :: l) -> visited key (key :: l) = l.
Proof.
  intros [Hn Hnd]%NoDup_cons. unfold visited. cbn. rewrite bool_decide_eq_true_2 by done. cbn.
  induction l as [|k l IH]; [done|]. cbn. apply not_elem_of_cons in Hn as [Hne Hn]. rewrite bool_decide_eq_false_2 by done. cbn.
  f_equal. apply IH; [done|]. by apply NoDup_cons in Hnd as [_ ?].
Qed.

(** Undisturbed, the worker computes [advance_ts]. *)
Lemma worker_alone env cm ts min_ts source cm' :
  advance_ts env cm (Some ts) = (Ok (min_ts, source), cm') ->
  rtc (fun x y => worker_step (fun _ => true) x.1 x.2 y.1 y.2) (cm, AFetched ts) (cm', AReady min_ts).
Proof.
  unfold advance_ts. change (default ts_zero (Some ts)) with ts. destruct (update_max_ts env cm ts) as [[[]|?|] cm1] eqn:Eu; intros H; [|discriminate H..].
  injection H as Hmin <-.
  apply rtc_l with (cm1, AScan ts (entries (cm_lock_table cm1)).*1 None); [by apply (wk_update _ env)|].
  assert (forall es found, (forall e, e ∈ es -> cm_lock_table cm1 !! e.1 = Some e.2) -> NoDup es.*1 ->
    rtc (fun x y => worker_step (fun _ => true) x.1 x.2 y.1 y.2) (cm1, AScan ts es.*1 found)
        (cm1, AReady (lower ts (foldl (fun f e => note_lock f e.1 e.2) found es)))) as Hscan.
  { induction es as [|[key lock] es IH]; intros found Hes Hnd; [apply rtc_once, wk_ready|]. cbn [fmap list_fmap foldl fst snd] in *.
    eapply (rtc_l _ _ (cm1, _)); [by apply (wk_visit _ cm1 ts _ found key lock); [apply (Hes _ (list_elem_of_here _ _))|]|].
    rewrite visited_head by done. apply IH; [by intros e He; apply Hes, list_elem_of_further|]. by apply NoDup_cons in Hnd as [_ ?]. }
  replace min_ts with (lower ts (global_min_lock cm1)).
  - unfold global_min_lock. rewrite min_lock_loop_note. apply Hscan.
    + intros [key lock] He. by apply elem_of_entries.
    + apply entries_nodup.
  - unfold lower. destruct (global_min_lock cm1) as [[m key]|]; [destruct (m <? ts)|]; congruence.
Qed.

(** ** The store *)

(** What the endpoint is sent. *)
Inductive Event := EvRow (row : ChangeRow) | EvAdvance (ts : TimeStamp).

(** [so_tso] is the last timestamp of the oracle, [so_locks] the locks in the
    engine that are going to write, [so_fetched] the commit timestamps that
    clients fetched for a key and a start timestamp, [so_events] all that was
    sent to the endpoint. *)
Record Store := mk_store {
  so_shared : Shared;
  so_tso : TimeStamp;
  so_worker : ATask;
  so_writers : list WTask;
  so_locks : gmap bytes Lock;
  so_fetched : list (bytes * TimeStamp * TimeStamp);
  so_events : list Event
}.

Definition prewrite_row (raw : bytes) (l : Lock) (value : option Value) : ChangeRow :=
  RowPrewrite (key_from_raw raw) (lock_ts l) (lock_type l) value (lock_generation l).

Section Store.
(** The keys that a rollback record of another transaction may hit while they
    are locked, or whose lock is rolled back without a row. *)
Variable hit : bytes -> Prop.

Inductive store_step : Store -> Store -> Prop :=
  (* the worker gets a timestamp, or none *)
  | st_tso sh tso ws locks fetched evs ts :
      tso < ts -> ts_is_max ts = false ->
      store_step (mk_store sh tso AIdle ws locks fetched evs) (mk_store sh ts (AFetched ts) ws locks fetched evs)
  | st_no_tso sh tso ws locks fetched evs :
      store_step (mk_store sh tso AIdle ws locks fetched evs) (mk_store sh tso (AFetched ts_zero) ws locks fetched evs)
  | st_worker cm written tso a ws locks fetched evs cm' a' :
      worker_step (store_free ws) cm a cm' a' ->
      store_step (mk_store (mk_shared cm written) tso a ws locks fetched evs)
                 (mk_store (mk_shared cm' written) tso a' ws locks fetched evs)
  | st_schedule sh tso ws locks fetched evs ts :
      store_step (mk_store sh tso (AReady ts) ws locks fetched evs)
                 (mk_store sh tso AIdle ws locks fetched (evs ++ [EvAdvance ts]))
  (* a prewrite with async commit or one-phase commit, before it is applied and after *)
  | st_new sh tso a ws locks fetched evs key lock f m :
      store_step (mk_store sh tso a ws locks fetched evs) (mk_store sh tso a (ws ++ [WStart key lock f m]) locks fetched evs)
  | st_writer sh tso a ws locks fetched evs i w sh' w' :
      ws !! i = Some w -> writer_step sh w = Some (sh', w') -> (forall key lock, w <> WMemory key lock) ->
      store_step (mk_store sh tso a ws locks fetched evs) (mk_store sh' tso a (<[i := w']> ws) locks fetched evs)
  (* its lock is applied; the key's latch is held and it was not locked, and the
     transaction has no commit timestamp yet *)
  | st_async_lock sh tso a ws locks fetched evs i raw l sh' w' value :
      ws !! i = Some (WMemory (key_from_raw raw) l) -> writer_step sh (WMemory (key_from_raw raw) l) = Some (sh', w') ->
      locks !! raw = None -> lock_generation l = 0 -> (forall c, (raw, lock_ts l, c) ∉ fetched) ->
      store_step (mk_store sh tso a ws locks fetched evs)
                 (mk_store sh' tso a (<[i := w']> ws) (<[raw := l]> locks) fetched (evs ++ [EvRow (prewrite_row raw l value)]))
  (* or it commits at once, at the largest minimum of its keys *)
  | st_one_pc sh tso a ws locks fetched evs i key l sh' w' wt c value :
      ws !! i = Some (WMemory key l) -> writer_step sh (WMemory key l) = Some (sh', w') -> lock_min_commit_ts l <= c ->
      store_step (mk_store sh tso a ws locks fetched evs)
                 (mk_store sh' tso a (<[i := w']> ws) locks fetched (evs ++ [EvRow (RowOnePc key wt c value)]))
  (* a two-phase prewrite is applied *)
  | st_lock sh tso a ws locks fetched evs raw l value :
      locks !! raw = None -> lock_generation l = 0 -> lock_use_async_commit l = false ->
      (forall c, (raw, lock_ts l, c) ∉ fetched) ->
      store_step (mk_store sh tso a ws locks fetched evs)
                 (mk_store sh tso a ws (<[raw := l]> locks) fetched (evs ++ [EvRow (prewrite_row raw l value)]))
  (* a lock is written again: a heartbeat, or its minimum commit timestamp is pushed *)
  | st_rewrite sh tso a ws locks fetched evs raw l l' value :
      locks !! raw = Some l -> lock_ts l' = lock_ts l -> lock_generation l' = 0 ->
      lock_use_async_commit l' = lock_use_async_commit l -> lock_min_commit_ts l <= lock_min_commit_ts l' ->
      store_step (mk_store sh tso a ws locks fetched evs)
                 (mk_store sh tso a ws (<[raw := l']> locks) fetched (evs ++ [EvRow (prewrite_row raw l' value)]))
  (* the client of a locked key fetches a commit timestamp *)
  | st_fetch sh tso a ws locks fetched evs raw l c :
      locks !! raw = Some l -> tso < c ->
      store_step (mk_store sh tso a ws locks fetched evs) (mk_store sh c a ws locks (fetched ++ [(raw, lock_ts l, c)]) evs)
  (* a commit is applied, with what the commit action has checked; the timestamp was
     fetched, or computed from the minimum commit timestamps of an async commit *)
  | st_commit sh tso a ws locks fetched evs raw l wt c :
      locks !! raw = Some l -> lock_ts l < c -> lock_min_commit_ts l <= c ->
      lock_use_async_commit l = true \/ (raw, lock_ts l, c) ∈ fetched ->
      store_step (mk_store sh tso a ws locks fetched evs)
                 (mk_store sh tso a ws (delete raw locks) fetched
                    (evs ++ [EvRow (RowCommit (key_from_raw raw) wt (Some (lock_ts l)) (Some c))]))
  | st_rollback sh tso a ws locks fetched evs raw l start_ts :
      locks !! raw = Some l ->
      store_step (mk_store sh tso a ws locks fetched evs)
                 (mk_store sh tso a ws (delete raw locks) fetched
                    (evs ++ [EvRow (RowCommit (key_from_raw raw) WTRollback start_ts None)]))
  (* the rollback of a transaction that has no lock on the key is recorded: the row
     makes the leader forget the lock that another transaction has *)
  | st_rollback_record sh tso a ws locks fetched evs raw start_ts :
      locks !! raw = None \/ hit raw ->
      store_step (mk_store sh tso a ws locks fetched evs)
                 (mk_store sh tso a ws locks fetched (evs ++ [EvRow (RowCommit (key_from_raw raw) WTRollback start_ts None)]))
  (* a rollback is recorded in a commit record of another transaction, which makes no row *)
  | st_rollback_overlapped sh tso a ws locks fetched evs raw :
      hit raw ->
      store_step (mk_store sh tso a ws locks fetched evs) (mk_store sh tso a ws (delete raw locks) fetched evs)
  (* a read *)
  | st_read env cm written tso a ws locks fetched evs ts :
      store_step (mk_store (mk_shared cm written) tso a ws locks fetched evs)
                 (mk_store (mk_shared (update_max_ts env cm ts).2 written) tso a ws locks fetched evs).

(** ** The events *)

(** What the leader's ghosts are after the events. *)
Record Hist := mk_hist { h_table : gmap bytes TimeStamp; h_born : bytes -> Z; h_bound : Z }.

Definition event_ok (h : Hist) (ev : Event) : Prop :=
  match ev with
  | EvRow row => fresh_row hit (h_table h) (h_born h) (h_bound h) row /\ exists T, apply_row (h_table h) row = Ok T
  | EvAdvance _ => True
  end.
Definition event_step (h : Hist) (ev : Event) : Hist :=
  match ev with
  | EvRow row =>
      match apply_row (h_table h) row with
      | Ok T => mk_hist T (born_row (h_table h) (h_born h) (h_bound h) row) (h_bound h)
      | _ => h
      end
  | EvAdvance ts => mk_hist (h_table h) (h_born h) (Z.max (h_bound h) ts)
  end.

Fixpoint events_ok (h : Hist) (evs : list Event) : Prop :=
  match evs with [] => True | ev :: evs => event_ok h ev /\ events_ok (event_step h ev) evs end.
Definition replay (h : Hist) (evs : list Event) : Hist := foldl event_step h evs.

Lemma events_ok_app evs1 evs2 : forall h, events_ok h (evs1 ++ evs2) <-> events_ok h evs1 /\ events_ok (replay h evs1) evs2.
Proof. induction evs1 as [|ev evs1 IH]; intros h; cbn; [tauto|]. rewrite IH. tauto. Qed.

Lemma replay_app h evs1 evs2 : replay h (evs1 ++ evs2) = replay (replay h evs1) evs2.
Proof. apply foldl_app. Qed.

(** Good rows are fresh for the leader, and the ghosts agree. *)
Lemma events_ok_rows rows : forall h,
  events_ok h (map EvRow rows) ->
  fresh_rows hit (h_table h) (h_born h) (h_bound h) rows /\
  exists T, apply_rows (h_table h) rows = Ok T /\
    replay h (map EvRow rows) = mk_hist T (born_rows (h_table h) (h_born h) (h_bound h) rows) (h_bound h).
Proof.
  induction rows as [|row rows IH]; intros h Hok; cbn in *; [by destruct h; eauto|].
  destruct Hok as [[Hf [T HT]] Hok]. rewrite HT in Hok |- *. destruct (IH _ Hok) as (Hf' & T' & Ha & Hr). cbn in *.
  split; [done|]. exists T'. split; [done|]. exact Hr.
Qed.

(** ** The invariant *)

(** What the timestamp of the worker is going to be, for a lock with the
    smallest commit timestamp [m] on the key: below [m], or lowered when the
    walk comes to the key. *)
Definition worker_below (a : ATask) (key : Key) (m : Z) : Prop :=
  match a with
  | AScan ts todo found => ts < m \/ key ∈ todo \/ exists t k, found = Some (t, k) /\ t < m
  | AReady ts => ts < m
  | _ => True
  end.

Definition writer_fresh (bound : Z) (a : ATask) (w : WTask) : Prop :=
  match w with
  | WMax key _ _ _ max_ts =>
      bound <= max_ts /\
      match a with
      | AScan ts todo _ => ts <= max_ts \/ key ∈ todo
      | AReady ts => ts <= max_ts
      | _ => True
      end
  | WMemory key l => lock_ts l < lock_min_commit_ts l /\ bound < lock_min_commit_ts l /\ worker_below a key (lock_min_commit_ts l)
  | _ => True
  end.

(** The worker's timestamp comes from the oracle and is announced. *)
Definition worker_ok (a : ATask) (tso max_ts : Z) : Prop :=
  match a with
  | AIdle => True
  | AFetched ts => ts <= tso /\ ts_is_max ts = false
  | AScan ts _ _ | AReady ts => ts <= tso /\ ts <= max_ts
  end.

Record store_inv (h0 : Hist) (s : Store) : Prop := mk_store_inv {
  si_guards : guards_ok (so_shared s) (so_writers s);
  si_bound : 0 <= h_bound (replay h0 (so_events s)) <= Z.min (so_tso s) (cm_max_ts (sh_cm (so_shared s)));
  si_worker : worker_ok (so_worker s) (so_tso s) (cm_max_ts (sh_cm (so_shared s)));
  si_writers : Forall (writer_fresh (h_bound (replay h0 (so_events s))) (so_worker s)) (so_writers s);
  si_table : forall raw, ~ hit raw -> h_table (replay h0 (so_events s)) !! raw = lock_ts <$> so_locks s !! raw;
  si_born : forall raw l, ~ hit raw -> so_locks s !! raw = Some l ->
    h_born (replay h0 (so_events s)) raw <= h_bound (replay h0 (so_events s)) /\
    (lock_use_async_commit l = true -> h_born (replay h0 (so_events s)) raw < lock_min_commit_ts l);
  si_fetched : forall raw c l, ~ hit raw -> so_locks s !! raw = Some l -> (raw, lock_ts l, c) ∈ so_fetched s ->
    h_born (replay h0 (so_events s)) raw < c;
  si_events : events_ok h0 (so_events s)
}.

(** A published lock commits above the [max_ts] that was read. *)
Lemma publish_above max_ts lock f m l :
  0 <= max_ts -> publish_lock max_ts lock (lock_ts lock) f m = Ok l ->
  max_ts < lock_min_commit_ts l /\ lock_ts l = lock_ts lock /\ lock_ts l < lock_min_commit_ts l.
Proof.
  intros H0. unfold publish_lock, ts_next.
  destruct (Z.ltb_spec (Z.max (Z.max max_ts (lock_ts lock)) f) u64_max) as [Hlt|]; [|done]. cbn [mbind res_bind].
  destruct (_ && _); [done|]. intros [= <-]. cbn. rewrite wrap64_small by u64_lia. lia.
Qed.

Lemma note_lock_lowers found key lock t k :
  found = Some (t, k) -> exists t' k', note_lock found key lock = Some (t', k') /\ t' <= t.
Proof.
  intros ->. destruct lock as [l|]; cbn; [|by exists t, k]. destruct (Z.ltb_spec (lock_ts l) t); eexists _, _; (split; [done|lia]).
Qed.

Lemma note_lock_found found key l : exists t k, note_lock found key (Some l) = Some (t, k) /\ t <= lock_ts l.
Proof.
  destruct found as [[t k]|]; cbn; [|by eexists _, _]. destruct (Z.ltb_spec (lock_ts l) t); eexists _, _; (split; [done|lia]).
Qed.

Lemma elem_of_visited k key todo : k ∈ visited key todo <-> k ∈ todo /\ k <> key.
Proof. unfold visited. rewrite elem_of_filter_b, negb_true_iff, bool_decide_eq_false. done. Qed.

Lemma lower_le ts found : lower ts found <= ts.
Proof. unfold lower. destruct found as [[m k]|]; [|lia]. destruct (Z.ltb_spec m ts); lia. Qed.

(** The worker's steps keep the writers fresh. *)
Lemma worker_step_fresh cm written ws a cm' a' bound :
  worker_step (store_free ws) cm a cm' a' -> guards_ok (mk_shared cm written) ws ->
  Forall (writer_fresh bound a) ws -> Forall (writer_fresh bound a') ws.
Proof.
  intros Hstep Hg Hf. apply Forall_lookup. intros i w Hi. pose proof (Forall_lookup_1 _ _ _ _ Hf Hi) as Hw.
  assert (forall key o, guarded w = Some (key, o) -> cm_lock_table cm !! key = Some o) as Htab.
  { intros key o. apply (gu_table _ _ Hg i w key o Hi). }
  destruct Hstep as [env cm ts cm' E | env cm ts e cm' E | cm ts todo found key o Ho Hfree | cm ts todo found key Ho | cm ts found | cm ts].
  - pose proof (update_max_ts_table env cm ts) as Et. rewrite E in Et. cbn [snd] in Et.
    assert (forall k o, guarded w = Some (k, o) -> k ∈ (entries (cm_lock_table cm')).*1) as Hin.
    { intros k o Hk. apply list_elem_of_fmap. exists (k, o). split; [done|]. apply elem_of_entries. rewrite Et. by apply Htab. }
    destruct w as [| | |k l f m mx|k l| | |]; cbn in *; try done.
    + split; [apply Hw|]. right. by eapply Hin.
    + split_and!; [apply Hw.. |]. right. left. by eapply Hin.
  - destruct w; cbn in *; try done; tauto.
  - pose proof (free_not_in_closure ws key i w Hfree Hi) as Hcl.
    destruct w as [| | |k l f m mx|k l| | |]; cbn in *; try done.
    + destruct Hw as [Hb [?|Hk]]; (split; [done|]); [by left|]. right. apply elem_of_visited. split; [done|]. intros ->.
      by rewrite bool_decide_eq_true_2 in Hcl.
    + destruct Hw as (Hl & Hb & [?|[Hk|(t & k' & Hfound & Ht)]]); (split_and!; [done..|]); [by left| |].
      * destruct (decide (k = key)) as [->|Hne]; [|right; left; by apply elem_of_visited].
        rewrite (Htab key (Some l) eq_refl) in Ho. injection Ho as <-. right. right.
        destruct (note_lock_found found key l) as (t & k' & E & Hle). exists t, k'. split; [done|lia].
      * right. right. destruct (note_lock_lowers _ key o _ _ Hfound) as (t' & k'' & E & Hle). exists t', k''. split; [done|lia].
  - destruct w as [| | |k l f m mx|k l| | |]; cbn in *; try done.
    + destruct Hw as [Hb [?|Hk]]; (split; [done|]); [by left|]. right. apply elem_of_visited. split; [done|]. intros ->.
      by rewrite (Htab key None eq_refl) in Ho.
    + destruct Hw as (Hl & Hb & [?|[Hk|?]]); (split_and!; [done..|]); [by left| |by right; right].
      right. left. apply elem_of_visited. split; [done|]. intros ->. by rewrite (Htab key (Some l) eq_refl) in Ho.
  - pose proof (lower_le ts found). destruct w as [| | |k l f m mx|k l| | |]; cbn in *; try done.
    + destruct Hw as [Hb [?|Hk]]; [split; [done|lia]|]. by apply elem_of_nil in Hk.
    + destruct Hw as (Hl & Hb & [?|[Hk|(t & k' & -> & Ht)]]); [split_and!; [done..|lia]|by apply elem_of_nil in Hk|].
      split_and!; [done..|]. unfold lower. destruct (Z.ltb_spec t ts); lia.
  - destruct w; cbn in *; try done; tauto.
Qed.

Lemma writer_step_fresh bound a tso sh w sh' w' :
  writer_step sh w = Some (sh', w') -> 0 <= bound <= cm_max_ts (sh_cm sh) -> worker_ok a tso (cm_max_ts (sh_cm sh)) ->
  writer_fresh bound a w -> writer_fresh bound a w'.
Proof.
  intros H Hb Ha Hw. destruct w as [key lock f m|key lock f m|key lock f m|key lock f m mx|key lock|key lock|key lock|];
    cbn [writer_step] in H; try (injection H as <- <-); try done.
  - unfold cm_lock_key in H. destruct (_ !! _); [done|]. by injection H as <- <-.
  - cbn. split; [lia|]. destruct a; cbn in Ha; auto; [left|]; lia.
  - destruct (publish_lock mx lock (lock_ts lock) f m) as [l| |] eqn:E; injection H as <- <-; try done.
    cbn in Hw. destruct Hw as [Hmx Hw]. destruct (publish_above mx lock f m l ltac:(lia) E) as (H1 & H2 & H3). cbn. split_and!; [done|lia|].
    destruct a; cbn in *; auto; [|lia]. destruct Hw as [?|?]; [left; lia | by right; left].
Qed.

(** The worker's timestamp is sent. *)
Lemma scheduled_fresh bound ts w : writer_fresh bound (AReady ts) w -> writer_fresh (Z.max bound ts) AIdle w.
Proof. destruct w; cbn; try done; intros; split_and!; try done; lia. Qed.

(** ** What rows do to the ghosts *)

Lemma unwrap_raw raw : unwrap (key_to_raw (key_from_raw raw)) = Ok raw.
Proof. by rewrite key_to_raw_from_raw. Qed.

(** The state after one more event. *)
Lemma replay_snoc h evs ev : replay h (evs ++ [ev]) = event_step (replay h evs) ev.
Proof. by rewrite replay_app. Qed.

Lemma events_ok_snoc h evs ev : events_ok h evs -> event_ok (replay h evs) ev -> events_ok h (evs ++ [ev]).
Proof. intros H1 H2. apply events_ok_app. cbn. auto. Qed.

(** A key is locked, or its lock is written again. *)
Lemma lock_event h raw l value :
  lock_generation l = 0 ->
  event_ok h (EvRow (prewrite_row raw l value)) /\
  let h' := event_step h (EvRow (prewrite_row raw l value)) in
  h_table h' = match h_table h !! raw with Some _ => h_table h | None => <[raw := lock_ts l]> (h_table h) end /\
  h_bound h' = h_bound h /\
  (forall r, h_born h' r = if bool_decide (r = raw /\ h_table h !! raw = None) then h_bound h else h_born h r).
Proof.
  intros Hg. unfold prewrite_row. cbn [event_ok event_step fresh_row apply_row]. rewrite unwrap_raw. cbn [mbind res_bind]. rewrite Hg, Z.eqb_refl.
  split; [by split; [|eexists]|]. cbn [h_table h_born h_bound born_row]. split_and!; [done..|]. intros r. rewrite key_to_raw_from_raw.
  do 2 case_bool_decide; naive_solver.
Qed.

Lemma commit_event h raw wt start_ts c :
  match c with Some c => ~ hit raw -> exists s, h_table h !! raw = Some s /\ s < c /\ h_born h raw < c | None => True end ->
  event_ok h (EvRow (RowCommit (key_from_raw raw) wt start_ts c)) /\
  event_step h (EvRow (RowCommit (key_from_raw raw) wt start_ts c)) = mk_hist (delete raw (h_table h)) (h_born h) (h_bound h).
Proof.
  intros Hc. cbn [event_ok event_step fresh_row apply_row]. rewrite unwrap_raw. cbn [mbind res_bind]. split; [|done]. split; [|by eexists].
  destruct c as [c|]; [|done]. rewrite key_to_raw_from_raw. by intros ? [= <-].
Qed.

(** The engine and the ghosts after a key is locked. *)
Lemma store_lock_inv h0 s s' raw l value :
  store_inv h0 s -> lock_generation l = 0 ->
  match so_locks s !! raw with
  | Some l0 => lock_ts l0 = lock_ts l /\ lock_use_async_commit l0 = lock_use_async_commit l /\ lock_min_commit_ts l0 <= lock_min_commit_ts l
  | None => (lock_use_async_commit l = true -> h_bound (replay h0 (so_events s)) < lock_min_commit_ts l)
            /\ forall c, (raw, lock_ts l, c) ∈ so_fetched s -> h_bound (replay h0 (so_events s)) < c
  end ->
  so_locks s' = <[raw := l]> (so_locks s) -> so_fetched s' = so_fetched s -> so_events s' = so_events s ++ [EvRow (prewrite_row raw l value)] ->
  so_tso s' = so_tso s -> so_worker s' = so_worker s -> cm_max_ts (sh_cm (so_shared s')) = cm_max_ts (sh_cm (so_shared s)) ->
  guards_ok (so_shared s') (so_writers s') ->
  Forall (writer_fresh (h_bound (replay h0 (so_events s))) (so_worker s)) (so_writers s') -> store_inv h0 s'.
Proof.
  intros [_ Hbound Hworker _ Htable Hborn Hfetched Hevents] Hg Hl El Ef Ee Et Ew Em Hguards Hwr.
  destruct (lock_event (replay h0 (so_events s)) raw l value Hg) as (Hok & HT & HB & Hb). rewrite <- replay_snoc, <- Ee in HT, HB, Hb.
  split; rewrite ?HB, ?Et, ?Ew, ?Em; try done.
  - intros r Hn. rewrite HT, El. destruct (decide (r = raw)) as [->|Hne].
    + rewrite lookup_insert_eq. pose proof (Htable raw Hn) as Hraw. rewrite Hraw.
      destruct (so_locks s !! raw) as [l0|]; cbn; [|by rewrite lookup_insert_eq]. rewrite Hraw. cbn. f_equal. tauto.
    + rewrite lookup_insert_ne by done. rewrite <- Htable by done. destruct (h_table _ !! raw); [done|]. by rewrite lookup_insert_ne.
  - intros r l1 Hn. rewrite El, Hb. intros [[<- <-]|[Hne Hr]]%lookup_insert_Some.
    + rewrite (Htable _ Hn). destruct (so_locks s !! raw) as [l0|] eqn:E0; cbn.
      * rewrite bool_decide_eq_false_2 by (by intros []). destruct (Hborn _ _ Hn E0) as [H1 H2], Hl as (_ & Ea & Hle). split; [done|].
        rewrite <- Ea. intros Ha. specialize (H2 Ha). lia.
      * rewrite bool_decide_eq_true_2 by done. split; [done|]. apply Hl.
    + rewrite bool_decide_eq_false_2 by (by intros [? _]; congruence). by apply Hborn.
  - intros r c l1 Hn. rewrite El, Ef, Hb. intros [[<- <-]|[Hne Hr]]%lookup_insert_Some Hin.
    + rewrite (Htable _ Hn). destruct (so_locks s !! raw) as [l0|] eqn:E0; cbn.
      * rewrite bool_decide_eq_false_2 by (by intros []). eapply Hfetched; [exact Hn|exact E0|]. destruct Hl as [-> _]. done.
      * rewrite bool_decide_eq_true_2 by done. by apply Hl.
    + rewrite bool_decide_eq_false_2 by (by intros [? _]; congruence). by eapply Hfetched.
  - rewrite Ee. by apply events_ok_snoc.
Qed.

(** A row that releases the key is sent; the lock is gone, or there is none, or
    the leader is wrong about the key. *)
Lemma store_unlock_inv h0 s raw wt start_ts c locks :
  store_inv h0 s -> (forall r, r <> raw -> locks !! r = so_locks s !! r) -> (~ hit raw -> locks !! raw = None) ->
  match c with
  | Some c => exists l, so_locks s !! raw = Some l /\ lock_ts l < c /\ lock_min_commit_ts l <= c /\
                (lock_use_async_commit l = true \/ (raw, lock_ts l, c) ∈ so_fetched s)
  | None => True
  end ->
  store_inv h0 (mk_store (so_shared s) (so_tso s) (so_worker s) (so_writers s) locks (so_fetched s)
                  (so_events s ++ [EvRow (RowCommit (key_from_raw raw) wt start_ts c)])).
Proof.
  intros [Hguards Hbound Hworker Hwr Htable Hborn Hfetched Hevents] Hlocks Hgone Hc.
  destruct (commit_event (replay h0 (so_events s)) raw wt start_ts c) as [Hok Hstep].
  { destruct c as [c|]; [|done]. intros Hn. destruct Hc as (l & El & H1 & H2 & H3). exists (lock_ts l). rewrite Htable, El by done.
    split_and!; [done..|].
    destruct H3 as [Ha | Hin]; [destruct (Hborn _ _ Hn El) as [_ Hm]; specialize (Hm Ha); lia | by eapply Hfetched]. }
  assert (forall r l, ~ hit r -> locks !! r = Some l -> so_locks s !! r = Some l) as Hold.
  { intros r l Hn Hr. destruct (decide (r = raw)) as [->|Hne]; [by rewrite Hgone in Hr|]. by rewrite <- Hlocks. }
  split; cbn [so_shared so_tso so_worker so_writers so_locks so_fetched so_events]; rewrite ?replay_snoc, ?Hstep; cbn [h_table h_born h_bound]; try done.
  - intros r Hn. destruct (decide (r = raw)) as [->|Hne]; [by rewrite lookup_delete_eq, Hgone|]. rewrite lookup_delete_ne, Hlocks by done.
    by apply Htable.
  - intros r l1 Hn Hr. by apply Hborn, Hold.
  - intros r c1 l1 Hn Hr. by apply Hfetched, Hold.
  - by apply events_ok_snoc.
Qed.

(** A lock that the leader may be wrong about is gone. *)
Lemma store_forget_inv h0 s raw :
  store_inv h0 s -> hit raw ->
  store_inv h0 (mk_store (so_shared s) (so_tso s) (so_worker s) (so_writers s) (delete raw (so_locks s)) (so_fetched s) (so_events s)).
Proof.
  intros [Hguards Hbound Hworker Hwr Htable Hborn Hfetched Hevents] Hh.
  assert (forall r, ~ hit r -> delete raw (so_locks s) !! r = so_locks s !! r) as Hsame.
  { intros r Hn. rewrite lookup_delete_ne; [done|]. by intros ->. }
  split; cbn [so_shared so_tso so_worker so_writers so_locks so_fetched so_events]; try done.
  - intros r Hn. rewrite Hsame by done. by apply Htable.
  - intros r l Hn. rewrite Hsame by done. by apply Hborn.
  - intros r c l Hn. rewrite Hsame by done. by apply Hfetched.
Qed.

(** Steps that neither lock nor unlock, and send no row that changes the
    ghosts. *)
Lemma quiet_inv h0 s s' :
  store_inv h0 s -> replay h0 (so_events s') = replay h0 (so_events s) -> events_ok h0 (so_events s') ->
  so_locks s' = so_locks s -> so_fetched s' = so_fetched s -> so_tso s <= so_tso s' ->
  cm_max_ts (sh_cm (so_shared s)) <= cm_max_ts (sh_cm (so_shared s')) ->
  guards_ok (so_shared s') (so_writers s') -> worker_ok (so_worker s') (so_tso s') (cm_max_ts (sh_cm (so_shared s'))) ->
  Forall (writer_fresh (h_bound (replay h0 (so_events s))) (so_worker s')) (so_writers s') -> store_inv h0 s'.
Proof.
  intros [_ Hbound _ _ Htable Hborn Hfetched _] Er Hok El Ef Ht Hm Hg Hw Hwr. split; rewrite ?Er, ?El, ?Ef; try done. lia.
Qed.

Lemma worker_ok_mono a tso max tso' max' : worker_ok a tso max -> tso <= tso' -> max <= max' -> worker_ok a tso' max'.
Proof. destruct a; cbn; [done|..]; intros [? ?] ? ?; split; auto; lia. Qed.

Lemma worker_step_ok free cm a cm' a' tso :
  worker_step free cm a cm' a' -> worker_ok a tso (cm_max_ts cm) ->
  worker_ok a' tso (cm_max_ts cm') /\ cm_max_ts cm <= cm_max_ts cm' /\ cm_lock_table cm' = cm_lock_table cm.
Proof.
  intros Hstep. destruct Hstep as [env cm ts cm' E | env cm ts e cm' E | cm ts todo found key o Ho Hfree | cm ts todo found key Ho | cm ts found | cm ts]; cbn; intros Hok.
  - pose proof (update_max_ts_monotone env cm ts). pose proof (update_max_ts_table env cm ts). pose proof (update_max_ts_covers env cm ts) as Hc.
    rewrite E in *. cbn in *. split; [|done]. split; [apply Hok|]. apply Hc; [done | apply Hok].
  - pose proof (update_max_ts_monotone env cm ts). pose proof (update_max_ts_table env cm ts). by rewrite E in *.
  - done.
  - done.
  - pose proof (lower_le ts found). split; [lia | done].
  - done.
Qed.

(** A writer moves on. *)
Lemma writer_moves h0 s i w sh' w' :
  store_inv h0 s -> so_writers s !! i = Some w -> writer_step (so_shared s) w = Some (sh', w') ->
  guards_ok sh' (<[i := w']> (so_writers s)) /\ cm_max_ts (sh_cm sh') = cm_max_ts (sh_cm (so_shared s)) /\
  Forall (writer_fresh (h_bound (replay h0 (so_events s))) (so_worker s)) (<[i := w']> (so_writers s)).
Proof.
  intros [Hg Hbound Hworker Hwr _ _ _ _] Hi Hstep. split_and!; [by eapply writer_step_guards | by eapply writer_step_max |].
  apply Forall_insert; [done|]. eapply writer_step_fresh; [done | lia | done |]. by eapply Forall_lookup_1 in Hwr.
Qed.

Lemma store_step_inv h0 s s' : store_step s s' -> store_inv h0 s -> store_inv h0 s'.
Proof.
  intros Hstep Hinv. pose proof Hinv as [Hg Hbound Hworker Hwr Htable Hborn Hfetched Hevents].
  destruct Hstep as [sh tso ws locks fetched evs ts Hts Hmax | sh tso ws locks fetched evs | cm written tso a ws locks fetched evs cm' a' Hstep
    | sh tso ws locks fetched evs ts | sh tso a ws locks fetched evs key lock f m | sh tso a ws locks fetched evs i w sh' w' Hi Hstep _
    | sh tso a ws locks fetched evs i raw l sh' w' value Hi Hstep Hl Hgen Hf | sh tso a ws locks fetched evs i key l sh' w' wt c value Hi Hstep Hc
    | sh tso a ws locks fetched evs raw l value Hl Hgen Ha Hf | sh tso a ws locks fetched evs raw l l' value Hl Ht Hgen Ha Hm
    | sh tso a ws locks fetched evs raw l c Hl Hc | sh tso a ws locks fetched evs raw l wt c Hl Hlt Hmc Hc
    | sh tso a ws locks fetched evs raw l st Hl | sh tso a ws locks fetched evs raw st Hl | sh tso a ws locks fetched evs raw Hh
    | env cm written tso a ws locks fetched evs ts];
    cbn [so_shared so_tso so_worker so_writers so_locks so_fetched so_events] in *.
  - eapply quiet_inv; [exact Hinv|done..|cbn; lia|done|done|cbn; split; [lia|done]|]. cbn. eapply Forall_impl; [exact Hwr|]. intros w. by destruct w.
  - eapply quiet_inv; [exact Hinv|done..|cbn; split; [unfold ts_zero; lia|done]|]. cbn. eapply Forall_impl; [exact Hwr|]. intros w. by destruct w.
  - destruct (worker_step_ok _ _ _ _ _ _ Hstep Hworker) as (Hok & Hm & Ht).
    eapply quiet_inv; [exact Hinv|done..|cbn; by eapply guards_same_table|done|]. cbn. by eapply worker_step_fresh.
  - split; cbn [so_shared so_tso so_worker so_writers so_locks so_fetched so_events]; rewrite ?replay_snoc; cbn [event_step h_table h_born h_bound]; try done.
    + cbn in Hworker. lia.
    + eapply Forall_impl; [exact Hwr|]. intros w. apply scheduled_fresh.
    + intros raw l Hn Hl. destruct (Hborn raw l Hn Hl) as [? ?]. split; [lia|done].
    + by apply events_ok_snoc.
  - eapply quiet_inv; [exact Hinv|done..|cbn; by apply guards_new|done|]. cbn. apply Forall_app. split; [done|]. by apply Forall_singleton.
  - destruct (writer_moves _ _ _ _ _ _ Hinv Hi Hstep) as (H1 & H2 & H3). cbn in H2. eapply quiet_inv; [exact Hinv|done..|cbn; lia|done|cbn; by rewrite H2|done].
  - destruct (writer_moves _ _ _ _ _ _ Hinv Hi Hstep) as (H1 & H2 & H3). eapply store_lock_inv; [exact Hinv|exact Hgen| |done..].
    cbn [so_locks so_events so_fetched]. rewrite Hl. pose proof (Forall_lookup_1 _ _ _ _ Hwr Hi) as (_ & Hb & _). split; [done|]. intros c Hin. by destruct (Hf c).
  - destruct (writer_moves _ _ _ _ _ _ Hinv Hi Hstep) as (H1 & H2 & H3). cbn in H2. pose proof (Forall_lookup_1 _ _ _ _ Hwr Hi) as (_ & Hb & _).
    eapply quiet_inv; [exact Hinv|cbn [so_events]; rewrite replay_snoc; by destruct (replay h0 evs)|..]; try done.
    + cbn. apply events_ok_snoc; [done|]. split; [cbn; lia | by eexists].
    + cbn. lia.
    + cbn. by rewrite H2.
  - eapply store_lock_inv; [exact Hinv|exact Hgen| |done..]. cbn [so_locks so_events so_fetched]. rewrite Hl, Ha. split; [done|]. intros c Hin. by destruct (Hf c).
  - eapply store_lock_inv; [exact Hinv|exact Hgen| |done..]. cbn [so_locks]. by rewrite Hl.
  - split; cbn [so_shared so_tso so_worker so_writers so_locks so_fetched so_events]; try done.
    + lia.
    + eapply worker_ok_mono; [done|lia|lia].
    + intros r c1 l1 Hn Hr [Hin|Hin%list_elem_of_singleton]%elem_of_app; [by eapply Hfetched|]. injection Hin as -> _ ->.
      destruct (Hborn _ _ Hn Hr). lia.
  - apply (store_unlock_inv h0 (mk_store sh tso a ws locks fetched evs)); [exact Hinv|by intros; apply lookup_delete_ne|by rewrite lookup_delete_eq|].
    by exists l.
  - apply (store_unlock_inv h0 (mk_store sh tso a ws locks fetched evs)); [exact Hinv|by intros; apply lookup_delete_ne|by rewrite lookup_delete_eq|done].
  - apply (store_unlock_inv h0 (mk_store sh tso a ws locks fetched evs)); [exact Hinv|done|by destruct Hl|done].
  - by apply (store_forget_inv h0 (mk_store sh tso a ws locks fetched evs)).
  - pose proof (update_max_ts_monotone env cm ts). eapply quiet_inv; [exact Hinv|done..| | |done]; cbn.
    + eapply guards_same_table; [apply update_max_ts_table | done].
    + by eapply worker_ok_mono; [done|lia|].
Qed.

Lemma store_step_events s s' : store_step s s' -> exists evs, so_events s' = so_events s ++ evs.
Proof. intros Hstep. destruct Hstep; cbn; eauto; exists []; by rewrite app_nil_r. Qed.

(** ** The leader takes the events *)

Definition ghosts (l : Leader) : Hist := mk_hist (ld_table l) (ld_born l) (ld_bound l).

Section Whole.
Variable heap_size : Key -> Z.

(** The store, the leader, and how many events the leader has handled. The
    rows of one entry of the log are handled together. *)
Inductive whole_step : Store * Leader * nat -> Store * Leader * nat -> Prop :=
  | wh_store s s' l pos : store_step s s' -> whole_step (s, l, pos) (s', l, pos)
  | wh_rows s l pos rows commits q o :
      take (length rows) (drop pos (so_events s)) = map EvRow rows ->
      track_change_log heap_size (ld_quota l) (ld_region l) [LogRows (next_index l) rows] = Ok (q, o) -> commits_of commits rows ->
      whole_step (s, l, pos)
        (s, mk_lead q o (ld_log l ++ [commits]) (born_rows (ld_table l) (ld_born l) (ld_bound l) rows) (ld_bound l) (ld_pairs l),
         pos + length rows)%nat
  | wh_advance s l pos ts cache source published o :
      so_events s !! pos = Some (EvAdvance ts) -> resolve_region cache (ld_region l) ts source = Ok (published, o) ->
      whole_step (s, l, pos)
        (s, mk_lead (ld_quota l) o (ld_log l) (ld_born l) (Z.max (ld_bound l) ts) (ld_pairs l ++ option_list published), S pos)
  | wh_other s l pos log q o :
      (forall index rows, log <> LogRows index rows) ->
      track_change_log heap_size (ld_quota l) (ld_region l) [log] = Ok (q, o) ->
      whole_step (s, l, pos) (s, mk_lead q o (ld_log l ++ [[]]) (ld_born l) (ld_bound l) (ld_pairs l), pos)
  | wh_quota s l pos q :
      quota_wf q -> locks_size (ld_table l) <= mq_in_use q ->
      whole_step (s, l, pos) (s, mk_lead q (ld_region l) (ld_log l) (ld_born l) (ld_bound l) (ld_pairs l), pos).

(** The region is ready, its locks are tracked, and nothing has been sent;
    prewrites may be on their way. *)
Record whole_start (s : Store) (l : Leader) : Prop := mk_whole_start {
  ws_lead : lead_start l;
  ws_ghosts : ld_bound l = 0 /\ forall raw, ld_born l raw = 0;
  ws_table : forall raw, ~ hit raw -> ld_table l !! raw = lock_ts <$> so_locks s !! raw;
  ws_async : forall raw lock, so_locks s !! raw = Some lock -> lock_use_async_commit lock = true -> 0 < lock_min_commit_ts lock;
  ws_nothing : so_events s = [] /\ so_fetched s = [] /\ so_worker s = AIdle;
  ws_max : 0 <= so_tso s /\ 0 <= cm_max_ts (sh_cm (so_shared s));
  ws_guards : guards_ok (so_shared s) (so_writers s);
  ws_writers : Forall (writer_fresh 0 AIdle) (so_writers s)
}.

Record whole_inv (l0 : Leader) (s : Store) (l : Leader) (pos : nat) : Prop := mk_whole_inv {
  wi_store : store_inv (ghosts l0) s;
  wi_steps : rtc (lead_step heap_size hit) l0 l;
  wi_inv : lead_inv hit l;
  wi_pos : (pos <= length (so_events s))%nat;
  wi_ghosts : ghosts l = replay (ghosts l0) (take pos (so_events s))
}.

Lemma whole_start_inv s l : whole_start s l -> whole_inv l s l 0.
Proof.
  intros [Hlead [Hb0 Hborn] Htable Hasync (He & Hf & Hw) Hmax Hg Hwr]. split; [|done|by apply lead_start_inv|lia|done].
  split; rewrite ?He, ?Hf, ?Hw; cbn; rewrite ?Hb0; try done; [lia| |].
  - intros raw lock _ Hl. rewrite Hborn. split; [done|]. by eapply Hasync.
  - intros raw c lock _ _ Hin. by apply elem_of_nil in Hin.
Qed.

(** Rows: they are fresh, and the ghosts follow. *)
Lemma whole_rows_inv l0 s l pos rows commits q o :
  whole_inv l0 s l pos -> take (length rows) (drop pos (so_events s)) = map EvRow rows ->
  track_change_log heap_size (ld_quota l) (ld_region l) [LogRows (next_index l) rows] = Ok (q, o) -> commits_of commits rows ->
  whole_inv l0 s (mk_lead q o (ld_log l ++ [commits]) (born_rows (ld_table l) (ld_born l) (ld_bound l) rows) (ld_bound l) (ld_pairs l))
    (pos + length rows).
Proof.
  intros [Hs Hsteps Hinv Hpos Hgh] Hrows Ht Hc. pose proof (si_events _ _ Hs) as Hok.
  assert (so_events s = take pos (so_events s) ++ map EvRow rows ++ drop (length rows) (drop pos (so_events s))) as Hsplit.
  { rewrite <- Hrows. by rewrite take_drop, take_drop. }
  rewrite Hsplit in Hok. apply events_ok_app in Hok as [_ Hok]. apply events_ok_app in Hok as [Hok _]. rewrite <- Hgh in Hok.
  destruct (events_ok_rows _ _ Hok) as (Hf & T & Ha & Hr). cbn [ghosts h_table h_born h_bound] in Hf, Ha, Hr.
  assert (lead_step heap_size hit l (mk_lead q o (ld_log l ++ [commits]) (born_rows (ld_table l) (ld_born l) (ld_bound l) rows) (ld_bound l) (ld_pairs l)))
    as Hstep by (by apply lead_rows).
  assert (pos + length rows <= length (so_events s))%nat as Hlen.
  { apply (f_equal length) in Hrows. rewrite length_take, length_drop, length_map in Hrows. lia. }
  split; [done|by eapply rtc_r|by eapply lead_step_inv|done|].
  assert (take (pos + length rows) (so_events s) = take pos (so_events s) ++ map EvRow rows) as ->.
  { rewrite <- Hrows. symmetry. apply take_take_drop. }
  rewrite replay_app, <- Hgh, Hr. unfold ghosts. cbn [ld_born ld_bound]. f_equal.
  unfold track_change_log in Ht. rewrite (li_ready _ _ Hinv) in Ht. cbn [track_logs] in Ht.
  destruct (track_rows _ _ _ rows) as [[q1 o1]|?|] eqn:Er; [|done..]. cbn in Ht. injection Ht as -> ->.
  destruct (track_rows_spec _ _ _ _ _ _ Er (li_inv _ _ Hinv)) as (_ & Ha' & _). unfold ld_table in *. cbn. congruence.
Qed.

Lemma resolve_region_table l cache ts source published o :
  lead_inv hit l -> resolve_region cache (ld_region l) ts source = Ok (published, o) -> locks_by_key (or_resolver o) = ld_table l.
Proof.
  intros Hl Hr. unfold resolve_region in Hr. rewrite (li_ready _ _ Hl) in Hr.
  destruct (resolve _ _ _ _) as [[[t p] r']|?|] eqn:E; [|done..]. cbn in Hr. injection Hr as -> <-.
  pose proof (resolve_spec _ _ _ _ _ _ _ _ E (li_inv _ _ Hl)) as H. destruct (stopped _); [by destruct H as (_ & _ & ->)|]. apply (rv_by_key _ _ _ _ _ H).
Qed.

Lemma whole_step_inv l0 x y :
  whole_step x y -> whole_inv l0 x.1.1 x.1.2 x.2 -> whole_inv l0 y.1.1 y.1.2 y.2.
Proof.
  intros Hstep Hinv. pose proof Hinv as [Hs Hsteps Hlead Hpos Hgh].
  destruct Hstep as [s s' l pos Hst | s l pos rows commits q o Hrows Ht Hc | s l pos ts cache source published o Hev Hr | s l pos log q o Hlog Ht | s l pos q Hq Hle];
    cbn [fst snd] in *.
  - destruct (store_step_events _ _ Hst) as [evs E]. split; [by eapply store_step_inv|done|done| |].
    + rewrite E, length_app. lia.
    + by rewrite E, take_app_le.
  - by eapply whole_rows_inv.
  - assert (lead_step heap_size hit l (mk_lead (ld_quota l) o (ld_log l) (ld_born l) (Z.max (ld_bound l) ts) (ld_pairs l ++ option_list published))) as Hstep
      by (by eapply lead_resolve).
    split; [done|by eapply rtc_r|by eapply lead_step_inv|by apply lookup_lt_Some in Hev|].
    rewrite (take_S_r _ _ _ Hev), replay_app, <- Hgh. cbn. unfold ghosts, ld_table at 1. cbn. f_equal. by eapply resolve_region_table.
  - assert (lead_step heap_size hit l (mk_lead q o (ld_log l ++ [[]]) (ld_born l) (ld_bound l) (ld_pairs l))) as Hstep by (by eapply lead_other).
    split; [done|by eapply rtc_r|by eapply lead_step_inv|done|]. rewrite <- Hgh.
    destruct (track_other _ _ _ _ _ _ (li_ready _ _ Hlead) Hlog Ht) as [_ [-> | ->]]; done.
  - assert (lead_step heap_size hit l (mk_lead q (ld_region l) (ld_log l) (ld_born l) (ld_bound l) (ld_pairs l))) as Hstep by (by apply lead_quota).
    split; [done|by eapply rtc_r|by eapply lead_step_inv|done|done].
Qed.

End Whole.
End Store.

(** ** An example *)

Lemma whole_observe s l pos rows commits :
  (exists x, track_change_log key_len (ld_quota l) (ld_region l) [LogRows (next_index l) rows] = Ok x) ->
  take (length rows) (drop pos (so_events s)) = map EvRow rows -> commits_of commits rows ->
  whole_step nowhere key_len (s, l, pos) (s, observe_rows l rows commits, (pos + length rows)%nat).
Proof. intros [[q o] E] Hrows Hc. unfold observe_rows. rewrite E. by eapply wh_rows. Qed.

Lemma whole_advance s l pos ts :
  (exists x, resolve_region no_cache (ld_region l) ts SrcPdTso = Ok x) -> so_events s !! pos = Some (EvAdvance ts) ->
  whole_step nowhere key_len (s, l, pos) (s, advance l ts, S pos).
Proof. intros [[published o] E] Hev. unfold advance. rewrite E. by eapply wh_advance. Qed.

(** An async-commit prewrite at 5 has read [max_ts] when the worker gets 10
    and announces it. The walk waits for the lock and finds it, so that the
    leader resolves with 5; the key is then locked and committed at 6. *)
Definition conc_lock : Lock := lock_with_min_commit_ts async_lock 6.
Definition conc0 : Store := mk_store (mk_shared sample_cm []) 4 AIdle [] ∅ [] [].
Definition conc1 : Store :=
  mk_store (mk_shared (guard_set_lock (cm_with_max_ts (cm_with_table sample_cm {[k := None]}) 10) k (Some conc_lock)) []) 10 (AReady 5)
    [WMemory k conc_lock] ∅ [] [].
Definition conc2 : Store :=
  mk_store (mk_shared (sh_cm (so_shared conc1)) [(k, conc_lock)]) 10 AIdle [WEngine k conc_lock] ∅ []
    [EvAdvance 5; EvRow (prewrite_row raw_k conc_lock None); EvRow (RowCommit k WTPut (Some 5) (Some 6))].
Definition conc_lead : Leader :=
  observe_rows (observe_rows (advance lead0 5) [prewrite_row raw_k conc_lock None] []) [RowCommit k WTPut (Some 5) (Some 6)]
    [mk_commit raw_k 6 [Byte.x61]].

Lemma conc1_steps : rtc (store_step nowhere) conc0 conc1.
Proof.
  eapply rtc_l; [apply (st_new _ _ _ _ _ _ _ _ k async_lock 0 0)|].
  do 3 (eapply rtc_l; [by eapply (st_writer _ _ _ _ _ _ _ _ 0)|]).
  eapply rtc_l; [by apply (st_tso _ _ _ _ _ _ _ 10)|].
  eapply rtc_l; [by eapply st_worker, (wk_update _ sample_env)|].
  eapply rtc_l; [by eapply (st_writer _ _ _ _ _ _ _ _ 0)|].
  eapply rtc_l; [by eapply st_worker, (wk_visit _ _ _ _ _ k)|].
  eapply rtc_l; [eapply st_worker; vm_compute; apply wk_ready|].
  vm_compute. constructor.
Qed.

Lemma conc2_steps : rtc (store_step nowhere) conc1 conc2.
Proof.
  eapply rtc_l; [apply st_schedule|].
  eapply rtc_l; [eapply (st_async_lock _ _ _ _ _ _ _ _ 0 raw_k conc_lock _ _ None); [reflexivity..|intros c; apply not_elem_of_nil]|].
  eapply rtc_l; [eapply (st_commit _ _ _ _ _ _ _ _ raw_k conc_lock WTPut 6); [reflexivity|reflexivity|done|by left]|].
  vm_compute. constructor.
Qed.

