(* ===== verification/LockWaiting.v ===== *)
(** * Requests that wait for a lock
    (src/storage/lock_manager/lock_waiting_queue.rs, lock_wait_context.rs)

    A request that meets a lock of another transaction waits in a queue of the
    key. It is taken out when the lock is released, by a delayed notification
    after that, or when it is cancelled from outside; then its callback is
    called. A legacy request that is woken fails with a write conflict; one
    that allows to lock with conflicts is resumed, and may wait again.

    The priority queue is a third-party container: a class with the laws of
    its documentation. The metrics are left out. *)
From S2P Require Import Prelude Number Bytes Timestamp Key Fields Lock Write OrderedMap PeerLocks Engine.
From S2P Require Import ConcurrencyManager Reader MvccTxn CheckTxnStatus Prewrite AcquirePessimisticLock.
Local Open Scope Z_scope.

(** ** Entries *)

Inductive WaitTimeout := WaitDefault | WaitMillis (ms : Z).

(** [PessimisticLockParameters] without the context of the request. *)
Record LockParameters := mk_params {
  lp_primary : bytes;
  lp_start_ts : TimeStamp;
  lp_lock_ttl : Z;
  lp_for_update_ts : TimeStamp;
  lp_wait_timeout : option WaitTimeout;
  lp_return_values : bool;
  lp_min_commit_ts : TimeStamp;
  lp_check_existence : bool;
  lp_is_first_lock : bool;
  lp_lock_only_if_exists : bool;
  lp_allow_lock_with_conflict : bool
}.

(** The shared state of the request is found by its token. A callback is the
    token of the request that it finishes. *)
Record LockWaitEntry := mk_entry {
  le_key : Key;
  le_lock_hash : Z;
  le_parameters : LockParameters;
  le_should_not_exist : bool;
  le_lock_wait_token : Z;
  le_legacy_wake_up_index : option Z;
  le_key_cb : option Z
}.

Definition set_wake_up_index (e : LockWaitEntry) (index : Z) : LockWaitEntry :=
  mk_entry (le_key e) (le_lock_hash e) (le_parameters e) (le_should_not_exist e) (le_lock_wait_token e) (Some index)
    (le_key_cb e).

Definition allows_conflict (e : LockWaitEntry) : bool := lp_allow_lock_with_conflict (le_parameters e).
Definition entry_ts (e : LockWaitEntry) : TimeStamp := lp_start_ts (le_parameters e).

(** [KeyedPriorityQueue]: entries by token; the one with the greatest priority,
    that is the smallest start timestamp, is first, ties in any order. *)
Class KeyedPriorityQueue (Q : Type) := {
  kpq_empty : Q;
  kpq_push : Q -> Z -> LockWaitEntry -> Q;
  kpq_peek : Q -> option (Z * LockWaitEntry);
  kpq_pop : Q -> option (Z * LockWaitEntry * Q);
  kpq_remove : Q -> Z -> option LockWaitEntry * Q;
  kpq_iter : Q -> list (Z * LockWaitEntry)
}.
Definition kpq_items {Q} `{KeyedPriorityQueue Q} (q : Q) : gmap Z LockWaitEntry := list_to_map (kpq_iter q).
Definition kpq_is_empty {Q} `{KeyedPriorityQueue Q} (q : Q) : bool := bool_decide (kpq_iter q = []).

Class KeyedPriorityQueueLaws (Q : Type) `{KeyedPriorityQueue Q} := {
  kpq_iter_nodup q : NoDup (kpq_iter q).*1;
  kpq_items_empty : kpq_items kpq_empty = ∅;
  kpq_items_push q t e : kpq_items (kpq_push q t e) = <[t := e]> (kpq_items q);
  kpq_peek_min q t e : kpq_peek q = Some (t, e) ->
    kpq_items q !! t = Some e /\ forall t' e', kpq_items q !! t' = Some e' -> entry_ts e <= entry_ts e';
  kpq_peek_none q : kpq_peek q = None -> kpq_items q = ∅;
  kpq_pop_peek q : match kpq_pop q with
                   | Some (t, e, q') => kpq_peek q = Some (t, e) /\ kpq_items q' = delete t (kpq_items q)
                   | None => kpq_peek q = None
                   end;
  kpq_remove_spec q t : (kpq_remove q t).1 = kpq_items q !! t /\ kpq_items (kpq_remove q t).2 = delete t (kpq_items q)
}.

(** ** The queues *)

Section Queues.
Context {Q : Type} `{KeyedPriorityQueue Q}.

(** The state of a delayed notification is its id and the instant it began;
    its delay is shared with the task that waits for it. *)
Record KeyLockWaitState := mk_key_state {
  ks_current_lock : LockInfo;
  ks_legacy_wake_up_index : Z;
  ks_queue : Q;
  ks_last_conflict_start_ts : TimeStamp;
  ks_last_conflict_commit_ts : TimeStamp;
  ks_delayed_notify_all : option (Z * Z)
}.

Definition no_lock_info : LockInfo := mk_lock_info [] 0 [] 0 0 OpPut 0 false 0 [].

Definition key_state_new : KeyLockWaitState := mk_key_state no_lock_info 0 kpq_empty ts_zero ts_zero None.

(** Instants are milliseconds. [wq_delays] has the [delay_ms] of each task. *)
Record LockWaitQueues := mk_queues {
  wq_queue_map : gmap Key KeyLockWaitState;
  wq_id_allocated : Z;
  wq_entries_count : Z;
  wq_delays : gmap Z Z
}.

Definition queues_new : LockWaitQueues := mk_queues ∅ 1 0 ∅.

Definition set_queue (ks : KeyLockWaitState) (q : Q) : KeyLockWaitState :=
  mk_key_state (ks_current_lock ks) (ks_legacy_wake_up_index ks) q (ks_last_conflict_start_ts ks) (ks_last_conflict_commit_ts ks)
    (ks_delayed_notify_all ks).

(** [remove_if_mut]: the state after the closure, removed when it says so. *)
Definition put_back (wq : LockWaitQueues) (key : Key) (ks : KeyLockWaitState) (removed : Z) : LockWaitQueues :=
  mk_queues (if kpq_is_empty (ks_queue ks) then delete key (wq_queue_map wq) else <[key := ks]> (wq_queue_map wq))
    (wq_id_allocated wq) (wrap64 (wq_entries_count wq - removed)) (wq_delays wq).

(** [push_lock_wait], for a request that was not cancelled. *)
Definition push_entry (wq : LockWaitQueues) (e : LockWaitEntry) (current_lock : LockInfo) : LockWaitQueues :=
  let ks := default key_state_new (wq_queue_map wq !! le_key e) in
  let e := match le_legacy_wake_up_index e with Some _ => e | None => set_wake_up_index e (ks_legacy_wake_up_index ks) end in
  let ks := mk_key_state (if bool_decide (info_key current_lock = []) then ks_current_lock ks else current_lock) (ks_legacy_wake_up_index ks)
              (kpq_push (ks_queue ks) (le_lock_wait_token e) e) (ks_last_conflict_start_ts ks) (ks_last_conflict_commit_ts ks)
              (ks_delayed_notify_all ks) in
  mk_queues (<[le_key e := ks]> (wq_queue_map wq)) (wq_id_allocated wq) (wrap64 (wq_entries_count wq + 1)) (wq_delays wq).

(** A task that waits already has its delay extended; otherwise the id of a
    new one is returned. *)
Definition handle_delayed_wake_up (wq : LockWaitQueues) (ks : KeyLockWaitState) (now wake_up_delay_duration_ms : Z) :
    option Z * KeyLockWaitState * LockWaitQueues :=
  match ks_delayed_notify_all ks with
  | Some (id, start_time) =>
      let new_delay_duration := wrap64 (Z.max 0 (now - start_time) + wake_up_delay_duration_ms) in
      (None, ks, mk_queues (wq_queue_map wq) (wq_id_allocated wq) (wq_entries_count wq) (<[id := new_delay_duration]> (wq_delays wq)))
  | None =>
      let notify_id := wq_id_allocated wq in
      (Some notify_id,
       mk_key_state (ks_current_lock ks) (ks_legacy_wake_up_index ks) (ks_queue ks) (ks_last_conflict_start_ts ks)
         (ks_last_conflict_commit_ts ks) (Some (notify_id, now)),
       mk_queues (wq_queue_map wq) (wrap64 (notify_id + 1)) (wq_entries_count wq) (<[notify_id := wake_up_delay_duration_ms]> (wq_delays wq)))
  end.

(** The entry to wake up, and the id of the task to spawn. *)
Definition pop_for_waking_up (wq : LockWaitQueues) (key : Key) (conflicting_start_ts conflicting_commit_ts : TimeStamp)
    (now wake_up_delay_duration_ms : Z) : option (LockWaitEntry * option Z) * LockWaitQueues :=
  match wq_queue_map wq !! key with
  | None => (None, wq)
  | Some ks =>
      let ks := mk_key_state (ks_current_lock ks) (ks_legacy_wake_up_index ks) (ks_queue ks) conflicting_start_ts conflicting_commit_ts
                  (ks_delayed_notify_all ks) in
      match kpq_pop (ks_queue ks) with
      | None => (None, put_back wq key ks 0)
      | Some (_, e, q) =>
          if negb (allows_conflict e) then
            let ks := mk_key_state (ks_current_lock ks) (wrap64 (ks_legacy_wake_up_index ks + 1)) q (ks_last_conflict_start_ts ks)
                        (ks_last_conflict_commit_ts ks) (ks_delayed_notify_all ks) in
            if kpq_is_empty q then (Some (e, None), put_back wq key ks 1)
            else
              let '(id, ks, wq) := handle_delayed_wake_up wq ks now wake_up_delay_duration_ms in
              (Some (e, id), put_back wq key ks 1)
          else (Some (e, None), put_back wq key (set_queue ks q) 1)
      end
  end.

(** The loop of [delayed_notify_all]; every turn removes an entry. *)
Fixpoint pop_woken (fuel : nat) (legacy_wake_up_index : Z) (q : Q) : list LockWaitEntry * option LockWaitEntry * Q :=
  match fuel with
  | O => ([], None, q)
  | S fuel =>
      match kpq_peek q with
      | None => ([], None, q)
      | Some (_, front) =>
          if match le_legacy_wake_up_index front with Some idx => legacy_wake_up_index <=? idx | None => false end then ([], None, q)
          else
            match kpq_pop q with
            | None => ([], None, q)
            | Some (_, e, q) =>
                if allows_conflict e then ([], Some e, q)
                else let '(popped, woken, q) := pop_woken fuel legacy_wake_up_index q in (e :: popped, woken, q)
            end
      end
  end.

(** Which entries fail, which one is resumed, and the conflict to report. *)
Record Notified := mk_notified {
  no_popped : list LockWaitEntry;
  no_woken : option LockWaitEntry;
  no_start_ts : TimeStamp;
  no_commit_ts : TimeStamp
}.

Definition delayed_notify_all (wq : LockWaitQueues) (key : Key) (notify_id : Z) : Notified * LockWaitQueues :=
  let nothing := mk_notified [] None ts_zero ts_zero in
  match wq_queue_map wq !! key with
  | None => (nothing, wq)
  | Some ks =>
      match ks_delayed_notify_all ks with
      | Some (id, _) =>
          if id =? notify_id then
            let '(popped, woken, q) := pop_woken (length (kpq_iter (ks_queue ks))) (ks_legacy_wake_up_index ks) (ks_queue ks) in
            let ks' := mk_key_state (ks_current_lock ks) (ks_legacy_wake_up_index ks) q (ks_last_conflict_start_ts ks)
                         (ks_last_conflict_commit_ts ks) None in
            let removed := Z.of_nat (length popped) + match woken with Some _ => 1 | None => 0 end in
            (mk_notified popped woken (ks_last_conflict_start_ts ks) (ks_last_conflict_commit_ts ks), put_back wq key ks' removed)
          else (nothing, wq)
      | None => (nothing, wq)
      end
  end.

(** One turn of the loop that waits: whether the task is cancelled, is due,
    or waits until an instant. *)
Inductive DelayTurn := DelayCancelled | DelayDue | DelayUntil (deadline : Z).
Definition delay_turn (start_time now prev_delay_ms current_delay_ms : Z) : DelayTurn :=
  if current_delay_ms =? 0 then DelayCancelled
  else if (current_delay_ms <=? prev_delay_ms) || (current_delay_ms <=? Z.max 0 (now - start_time)) then DelayDue
  else DelayUntil (start_time + current_delay_ms).

Definition remove_by_token (wq : LockWaitQueues) (key : Key) (token : Z) : option LockWaitEntry * LockWaitQueues :=
  match wq_queue_map wq !! key with
  | None => (None, wq)
  | Some ks =>
      let '(e, q) := kpq_remove (ks_queue ks) token in
      (e, put_back wq key (set_queue ks q) (match e with Some _ => 1 | None => 0 end))
  end.

(** What the lock manager is told when a key gets a new lock. *)
Record UpdateWaitForEvent := mk_wait_for {
  uw_token : Z;
  uw_start_ts : TimeStamp;
  uw_is_first_lock : bool;
  uw_key : Key;
  uw_lock_ts : TimeStamp;
  uw_lock_hash : Z;
  uw_lock_info : LockInfo;
  uw_allow_lock_with_conflict : bool
}.

Definition wait_for_event (key : Key) (lock_info : LockInfo) (x : Z * LockWaitEntry) : UpdateWaitForEvent :=
  let '(token, entry) := x in
  mk_wait_for token (entry_ts entry) (lp_is_first_lock (le_parameters entry)) key (info_lock_version lock_info) (le_lock_hash entry)
    lock_info (allows_conflict entry).

Fixpoint update_lock_wait (wq : LockWaitQueues) (infos : list LockInfo) : list UpdateWaitForEvent * LockWaitQueues :=
  match infos with
  | [] => ([], wq)
  | lock_info :: infos =>
      let key := key_from_raw (info_key lock_info) in
      match wq_queue_map wq !! key with
      | None => update_lock_wait wq infos
      | Some ks =>
          let ks := mk_key_state lock_info (ks_legacy_wake_up_index ks) (ks_queue ks) (ks_last_conflict_start_ts ks)
                      (ks_last_conflict_commit_ts ks) (ks_delayed_notify_all ks) in
          let wq := mk_queues (<[key := ks]> (wq_queue_map wq)) (wq_id_allocated wq) (wq_entries_count wq) (wq_delays wq) in
          let '(events, wq) := update_lock_wait wq infos in
          (map (wait_for_event key lock_info) (kpq_iter (ks_queue ks)) ++ events, wq)
      end
  end.

Definition entry_count (wq : LockWaitQueues) : Z := wq_entries_count wq.
Definition queues_is_empty (wq : LockWaitQueues) : bool := entry_count wq =? 0.
End Queues.
Arguments KeyLockWaitState : clear implicits.
Arguments LockWaitQueues : clear implicits.

(** ** The context of a request *)

(** Errors of the lock manager other than the ones of a key are a number. *)
Inductive StorageError := SEMvcc (e : mvcc_error) | SEOther (code : Z).
Inductive KeyResult := KRDone (r : PessimisticLockKeyResult) | KRWaiting | KRFailed (e : StorageError).
Inductive ProcessResult := PRFailed (e : StorageError) | PRPessimisticLockRes (res : list KeyResult).

(** [cx_inner]: the callback was not taken. [cx_tx], [cx_rx]: the ends of the
    channel were not taken; [cx_channel] is what was sent. *)
Record LockWaitContext := mk_ctx {
  cx_inner : bool;
  cx_key : Key;
  cx_is_canceled : bool;
  cx_tx : bool;
  cx_rx : bool;
  cx_channel : option StorageError;
  cx_allow_lock_with_conflict : bool
}.

Definition ctx_new (key : Key) (allow_lock_with_conflict : bool) : LockWaitContext :=
  mk_ctx true key false true true None allow_lock_with_conflict.
Definition ctx_take_inner (c : LockWaitContext) : LockWaitContext :=
  mk_ctx false (cx_key c) (cx_is_canceled c) (cx_tx c) (cx_rx c) (cx_channel c) (cx_allow_lock_with_conflict c).
Definition ctx_set_canceled (c : LockWaitContext) : LockWaitContext :=
  mk_ctx (cx_inner c) (cx_key c) true (cx_tx c) (cx_rx c) (cx_channel c) (cx_allow_lock_with_conflict c).

(** [get_external_error] takes the receiver, then waits. *)
Definition take_receiver (c : LockWaitContext) : option LockWaitContext :=
  if cx_rx c then Some (mk_ctx (cx_inner c) (cx_key c) (cx_is_canceled c) (cx_tx c) false (cx_channel c) (cx_allow_lock_with_conflict c))
  else None.

(** The receiver waits while the sender may still send. *)
Inductive Received := RecvBlocked | RecvDisconnected | RecvError (e : StorageError).
Definition recv (c : LockWaitContext) : Received :=
  match cx_channel c with
  | Some e => RecvError e
  | None => if cx_tx c then RecvBlocked else RecvDisconnected
  end.

Definition put_external_error (c : LockWaitContext) (e : StorageError) : option LockWaitContext :=
  if cx_tx c then Some (mk_ctx (cx_inner c) (cx_key c) (cx_is_canceled c) false (cx_rx c) (Some e) (cx_allow_lock_with_conflict c))
  else None.

(** What [finish_request] does once the request is out of the queue. *)
Definition finish_request (c : LockWaitContext) (result : KeyResult) : option (ProcessResult * LockWaitContext) :=
  if negb (cx_inner c) then None
  else
    let c' := ctx_take_inner c in
    if negb (cx_allow_lock_with_conflict c) then
      match result with KRFailed err => Some (PRFailed err, c') | _ => None end
    else
      match result with KRWaiting => None | key_res => Some (PRPessimisticLockRes [key_res], c') end.

(** The error of a request that is woken to retry. *)
Definition pessimistic_retry (e : LockWaitEntry) (key : Key) (conflict_start_ts conflict_commit_ts : TimeStamp) : option StorageError :=
  match key_into_raw key with
  | Ok raw =>
      Some (SEMvcc (MWriteConflict (entry_ts e) conflict_start_ts conflict_commit_ts raw (lp_primary (le_parameters e)) ReasonPessimisticRetry))
  | _ => None
  end.

(** The error of a cancelled request has the latest lock of the key. *)
Definition latest_lock_error {Q} (wq : LockWaitQueues Q) (key : Key) (err : StorageError) : StorageError :=
  match wq_queue_map wq !! key, err with
  | Some ks, SEMvcc (MKeyIsLocked _) =>
      if bool_decide (info_key (ks_current_lock ks) = []) then err else SEMvcc (MKeyIsLocked (ks_current_lock ks))
  | _, _ => err
  end.

(** ** The waiting requests *)

Section Waiting.
Context {Q : Type} `{KeyedPriorityQueueLaws Q}.

Definition queue_entries (q : Q) : list LockWaitEntry := (kpq_iter q).*2.
Definition waiting_map (m : gmap Key (KeyLockWaitState Q)) : list LockWaitEntry :=
  map_to_list m ≫= fun x => queue_entries (ks_queue x.2).
Definition waiting (wq : LockWaitQueues Q) : list LockWaitEntry := waiting_map (wq_queue_map wq).

(** No queue is empty; an entry is under its key and its token. *)
Definition wf_state (k : Key) (ks : KeyLockWaitState Q) : Prop :=
  forall t e, kpq_items (ks_queue ks) !! t = Some e -> le_key e = k /\ le_lock_wait_token e = t.
Definition wf_queues (wq : LockWaitQueues Q) : Prop :=
  (forall k ks, wq_queue_map wq !! k = Some ks -> wf_state k ks /\ queue_entries (ks_queue ks) <> []) /\
  wq_entries_count wq = wrap64 (Z.of_nat (length (waiting wq))).

Lemma iter_items (q : Q) : kpq_iter q ≡ₚ map_to_list (kpq_items q).
Proof. unfold kpq_items. rewrite map_to_list_to_map; [done|]. apply kpq_iter_nodup. Qed.

Lemma entries_items (q : Q) : queue_entries q ≡ₚ (map_to_list (kpq_items q)).*2.
Proof. unfold queue_entries. by rewrite iter_items. Qed.

Lemma in_entries (q : Q) e : e ∈ queue_entries q <-> exists t, kpq_items q !! t = Some e.
Proof.
  rewrite entries_items, list_elem_of_fmap. split.
  - intros [[t e'] [-> Hin]]. exists t. by apply elem_of_map_to_list.
  - intros [t Ht]. exists (t, e). split; [done|]. by apply elem_of_map_to_list.
Qed.

Lemma entries_push (q : Q) t e : kpq_items q !! t = None -> queue_entries (kpq_push q t e) ≡ₚ e :: queue_entries q.
Proof. intros Ht. by rewrite !entries_items, kpq_items_push, map_to_list_insert. Qed.

Lemma entries_delete (q q' : Q) t e : kpq_items q !! t = Some e -> kpq_items q' = delete t (kpq_items q) -> queue_entries q ≡ₚ e :: queue_entries q'.
Proof.
  intros Ht Hd. rewrite !entries_items, Hd. rewrite <- (insert_delete_id (kpq_items q) t e) at 1 by done.
  rewrite map_to_list_insert; [done|]. apply lookup_delete_eq.
Qed.

Lemma pop_some (q q' : Q) t e : kpq_pop q = Some (t, e, q') ->
  kpq_items q !! t = Some e /\ kpq_items q' = delete t (kpq_items q) /\
  (forall t' e', kpq_items q !! t' = Some e' -> entry_ts e <= entry_ts e').
Proof. intros Hp. pose proof (kpq_pop_peek q) as Hq. rewrite Hp in Hq. destruct Hq as [Hk Hd]. apply kpq_peek_min in Hk. tauto. Qed.

Lemma pop_entries (q q' : Q) t e : kpq_pop q = Some (t, e, q') -> queue_entries q ≡ₚ e :: queue_entries q'.
Proof. intros (Ht & Hd & _)%pop_some. by eapply entries_delete. Qed.

Lemma is_empty_entries (q : Q) : kpq_is_empty q = bool_decide (queue_entries q = []).
Proof. unfold kpq_is_empty, queue_entries. apply bool_decide_ext. destruct (kpq_iter q); cbn; split; congruence. Qed.

Lemma entries_empty : queue_entries (kpq_empty : Q) = [].
Proof. apply Permutation_nil. by rewrite entries_items, kpq_items_empty, map_to_list_empty. Qed.

Lemma waiting_map_lookup m k (ks : KeyLockWaitState Q) : m !! k = Some ks ->
  waiting_map m ≡ₚ queue_entries (ks_queue ks) ++ waiting_map (delete k m).
Proof.
  intros Hk. unfold waiting_map. rewrite <- (insert_delete_id m k ks) at 1 by done.
  rewrite map_to_list_insert; [done|]. apply lookup_delete_eq.
Qed.

Lemma waiting_map_insert m k (ks : KeyLockWaitState Q) : waiting_map (<[k := ks]> m) ≡ₚ queue_entries (ks_queue ks) ++ waiting_map (delete k m).
Proof. rewrite (waiting_map_lookup _ k ks); [|apply lookup_insert_eq]. by rewrite delete_insert_eq. Qed.

Lemma waiting_put_back wq k ks n : waiting (put_back wq k ks n) ≡ₚ queue_entries (ks_queue ks) ++ waiting_map (delete k (wq_queue_map wq)).
Proof.
  unfold waiting, put_back. cbn. rewrite is_empty_entries. case_bool_decide as He; [by rewrite He|]. apply waiting_map_insert.
Qed.

Lemma wrap64_sub_nat a n m : a = wrap64 (Z.of_nat (n + m)) -> wrap64 (a - Z.of_nat m) = wrap64 (Z.of_nat n).
Proof. intros ->. unfold wrap64. rewrite Zminus_mod_idemp_l. f_equal. lia. Qed.

(** The closures of [remove_if_mut] keep the rest of the queue. *)
Lemma put_back_spec wq k ks ks' out n : wf_queues wq -> wq_queue_map wq !! k = Some ks -> n = Z.of_nat (length out) ->
  queue_entries (ks_queue ks) ≡ₚ out ++ queue_entries (ks_queue ks') -> wf_state k ks' ->
  wf_queues (put_back wq k ks' n) /\ waiting wq ≡ₚ out ++ waiting (put_back wq k ks' n).
Proof.
  intros [Hwf Hc] Hk -> Hp Hs.
  assert (Hw : waiting wq ≡ₚ out ++ waiting (put_back wq k ks' (Z.of_nat (length out)))).
  { rewrite waiting_put_back. unfold waiting. by rewrite (waiting_map_lookup _ k ks Hk), Hp, <- app_assoc. }
  split; [|done]. split.
  - intros k' ks''. cbn. rewrite is_empty_entries. case_bool_decide as He.
    + intros [_ Hk']%lookup_delete_Some. by apply Hwf.
    + intros [[<- <-]|[_ Hk']]%lookup_insert_Some; [done|by apply Hwf].
  - cbn [wq_entries_count put_back]. apply wrap64_sub_nat. rewrite Hc, Hw, length_app. do 2 f_equal. lia.
Qed.

Lemma wf_state_delete k ks ks' t : wf_state k ks -> kpq_items (ks_queue ks') = delete t (kpq_items (ks_queue ks)) -> wf_state k ks'.
Proof. intros Hw Hd t' e'. rewrite Hd. intros [_ Hl]%lookup_delete_Some. by apply Hw. Qed.

Lemma waiting_in wq e : e ∈ waiting wq <-> exists k ks t, wq_queue_map wq !! k = Some ks /\ kpq_items (ks_queue ks) !! t = Some e.
Proof.
  unfold waiting, waiting_map. rewrite list_elem_of_bind. split.
  - intros [[k ks] [[t Ht]%in_entries Hk%elem_of_map_to_list]]. eauto.
  - intros (k & ks & t & Hk & Ht). exists (k, ks). split; [apply in_entries; eauto|by apply elem_of_map_to_list].
Qed.

(** ** What each operation does to the waiting requests *)

Lemma wf_queues_same wq wq' : wq_queue_map wq' = wq_queue_map wq -> wq_entries_count wq' = wq_entries_count wq -> wf_queues wq -> wf_queues wq'.
Proof. unfold wf_queues, waiting. by intros -> ->. Qed.

Lemma push_entry_spec wq e l : wf_queues wq -> (forall e', e' ∈ waiting wq -> le_lock_wait_token e' <> le_lock_wait_token e) ->
  wf_queues (push_entry wq e l) /\ exists i, waiting (push_entry wq e l) ≡ₚ set_wake_up_index e i :: waiting wq.
Proof.
  intros [Hwf Hc] Hfresh. set (ks := default key_state_new (wq_queue_map wq !! le_key e)).
  assert (Hi : exists i, (match le_legacy_wake_up_index e with Some _ => e | None => set_wake_up_index e (ks_legacy_wake_up_index ks) end)
                 = set_wake_up_index e i).
  { destruct e as [? ? ? ? ? [i|] ?]; cbn; eauto. }
  destruct Hi as [i Hi]. unfold push_entry. fold ks. cbv zeta. rewrite Hi. set (e' := set_wake_up_index e i).
  change (le_key e') with (le_key e). change (le_lock_wait_token e') with (le_lock_wait_token e). set (ks' := mk_key_state _ _ _ _ _ _).
  assert (Hks : wf_state (le_key e) ks /\ waiting wq ≡ₚ queue_entries (ks_queue ks) ++ waiting_map (delete (le_key e) (wq_queue_map wq))).
  { subst ks. destruct (wq_queue_map wq !! le_key e) as [ks|] eqn:Hk; cbn.
    - split; [by apply Hwf|]. by apply waiting_map_lookup.
    - rewrite entries_empty, delete_id by done. split; [|done]. intros t e''. cbn. by rewrite kpq_items_empty, lookup_empty. }
  destruct Hks as [Hs Hw].
  assert (Hn : kpq_items (ks_queue ks) !! le_lock_wait_token e = None).
  { apply eq_None_not_Some. intros [e'' He]. apply (Hfresh e''); [|by apply (Hs _ _ He)].
    rewrite Hw. apply elem_of_app. left. apply in_entries. eauto. }
  assert (Hw' : waiting_map (<[le_key e := ks']> (wq_queue_map wq)) ≡ₚ e' :: waiting wq).
  { rewrite waiting_map_insert, Hw. cbn [ks_queue ks']. by rewrite (entries_push _ _ _ Hn). }
  split; [split|exists i; exact Hw'].
  - intros k ks''. cbn. intros [[<- <-]|[_ Hk]]%lookup_insert_Some; [|by apply Hwf]. split.
    + intros t e''. cbn. rewrite kpq_items_push. intros [[<- <-]|[_ Hl]]%lookup_insert_Some; [done|by apply Hs].
    + cbn. intros Hnil. pose proof (entries_push _ _ e' Hn) as Hp. rewrite Hnil in Hp. by apply Permutation_nil_cons in Hp.
  - unfold waiting. cbn. rewrite Hw', Hc. cbn [length]. unfold wrap64. rewrite Zplus_mod_idemp_l. f_equal. lia.
Qed.

Lemma handle_delayed_same (wq : LockWaitQueues Q) ks now d id ks' (wq' : LockWaitQueues Q) : handle_delayed_wake_up wq ks now d = (id, ks', wq') ->
  wq_queue_map wq' = wq_queue_map wq /\ wq_entries_count wq' = wq_entries_count wq /\ ks_queue ks' = ks_queue ks.
Proof. unfold handle_delayed_wake_up. destruct (ks_delayed_notify_all ks) as [[? ?]|]; intros [= <- <- <-]; done. Qed.

Lemma queue_min wq key ks e : wf_queues wq -> wq_queue_map wq !! key = Some ks ->
  (forall t' e', kpq_items (ks_queue ks) !! t' = Some e' -> entry_ts e <= entry_ts e') ->
  forall e', e' ∈ waiting wq -> le_key e' = key -> entry_ts e <= entry_ts e'.
Proof.
  intros [Hwf _] Hk Hmin e' (k' & ks' & t' & Hk' & Ht')%waiting_in Hkey.
  destruct (Hwf _ _ Hk') as [Hs _]. destruct (Hs _ _ Ht') as [<- _]. simplify_eq. eauto.
Qed.

(** The request that is woken is the oldest one of its key. *)
Lemma pop_for_waking_up_spec wq key cs cc now d r wq' : wf_queues wq -> pop_for_waking_up wq key cs cc now d = (r, wq') ->
  wf_queues wq' /\
  match r with
  | Some (e, _) => waiting wq ≡ₚ e :: waiting wq' /\ le_key e = key /\
                   forall e', e' ∈ waiting wq -> le_key e' = key -> entry_ts e <= entry_ts e'
  | None => wq' = wq /\ wq_queue_map wq !! key = None
  end.
Proof.
  intros Hwf. unfold pop_for_waking_up. destruct (wq_queue_map wq !! key) as [ks|] eqn:Hk; [|by intros [= <- <-]].
  cbn [ks_queue ks_legacy_wake_up_index ks_current_lock ks_last_conflict_start_ts ks_last_conflict_commit_ts ks_delayed_notify_all].
  destruct (proj1 Hwf _ _ Hk) as [Hs Hne].
  destruct (kpq_pop (ks_queue ks)) as [[[t e] q]|] eqn:Hpop.
  2:{ exfalso. apply Hne. pose proof (kpq_pop_peek (ks_queue ks)) as Hpk. rewrite Hpop in Hpk. apply kpq_peek_none in Hpk.
      apply Permutation_nil. by rewrite entries_items, Hpk, map_to_list_empty. }
  pose proof (pop_some _ _ _ _ Hpop) as (Ht & Hd & Hmin). pose proof (pop_entries _ _ _ _ Hpop) as Hent.
  assert (Hend : forall wq1 ks1, wq_queue_map wq1 = wq_queue_map wq -> wq_entries_count wq1 = wq_entries_count wq -> ks_queue ks1 = q ->
            wf_queues (put_back wq1 key ks1 1) /\ waiting wq ≡ₚ e :: waiting (put_back wq1 key ks1 1) /\ le_key e = key /\
            forall e', e' ∈ waiting wq -> le_key e' = key -> entry_ts e <= entry_ts e').
  { intros wq1 ks1 Hm Hc Hq. destruct (put_back_spec wq1 key ks ks1 [e] 1) as [Hwf1 Hw1]; cbn; rewrite ?Hm, ?Hq; try done.
    - by eapply wf_queues_same.
    - eapply wf_state_delete; [exact Hs|]. by rewrite Hq.
    - unfold waiting in Hw1 at 1. rewrite Hm in Hw1. split; [done|]. split; [done|]. split; [by apply (Hs _ _ Ht)|].
      by eapply queue_min. }
  destruct (allows_conflict e); cbn [negb]; [intros [= <- <-]; by apply Hend|].
  destruct (kpq_is_empty q); [intros [= <- <-]; by apply Hend|].
  destruct (handle_delayed_wake_up _ _ _ _) as [[id ks1] wq1] eqn:Hh. intros [= <- <-].
  apply handle_delayed_same in Hh as (Hm & Hc & Hq). by apply Hend.
Qed.

Lemma remove_by_token_spec wq key t r wq' : wf_queues wq -> remove_by_token wq key t = (r, wq') ->
  wf_queues wq' /\ waiting wq ≡ₚ option_list r ++ waiting wq' /\
  match r with
  | Some e => le_key e = key /\ le_lock_wait_token e = t
  | None => forall e, e ∈ waiting wq -> le_key e = key -> le_lock_wait_token e <> t
  end.
Proof.
  intros Hwf. unfold remove_by_token. destruct (wq_queue_map wq !! key) as [ks|] eqn:Hk.
  2:{ intros [= <- <-]. split; [done|]. split; [done|]. intros e (k & ks & t' & Hk' & Ht)%waiting_in <-.
      destruct (proj1 Hwf _ _ Hk') as [Hs _]. destruct (Hs _ _ Ht) as [<- _]. congruence. }
  destruct (proj1 Hwf _ _ Hk) as [Hs _]. pose proof (kpq_remove_spec (ks_queue ks) t) as [Hr Hd].
  destruct (kpq_remove (ks_queue ks) t) as [e q]. cbn in Hr, Hd. intros [= <- <-].
  assert (Hent : queue_entries (ks_queue ks) ≡ₚ option_list e ++ queue_entries q).
  { destruct e as [e|]; cbn; [by eapply entries_delete|]. by rewrite !entries_items, Hd, delete_id. }
  destruct (put_back_spec wq key ks (set_queue ks q) (option_list e) (match e with Some _ => 1 | None => 0 end)) as [Hwf' Hw];
    [done|done|by destruct e|done|by eapply wf_state_delete|].
  split; [done|]. split; [done|]. destruct e as [e|]; [by apply Hs|].
  intros e (k & ks' & t' & Hk' & Ht)%waiting_in <- <-. destruct (proj1 Hwf _ _ Hk') as [Hs' _].
  destruct (Hs' _ _ Ht) as [<- <-]. simplify_eq. congruence.
Qed.

Lemma update_lock_wait_spec infos : forall wq events wq', wf_queues wq -> update_lock_wait wq infos = (events, wq') ->
  wf_queues wq' /\ waiting wq' ≡ₚ waiting wq.
Proof.
  induction infos as [|i infos IH]; intros wq events wq' Hwf; cbn [update_lock_wait]; [by intros [= <- <-]|].
  destruct (wq_queue_map wq !! key_from_raw (info_key i)) as [ks|] eqn:Hk; [|by apply IH].
  set (ks' := mk_key_state i _ _ _ _ _). set (wq1 := mk_queues _ _ _ _).
  destruct (update_lock_wait wq1 infos) as [ev wq2] eqn:Hu. intros [= <- <-].
  assert (Hw1 : waiting wq1 ≡ₚ waiting wq).
  { unfold waiting, wq1. cbn. rewrite waiting_map_insert. by rewrite (waiting_map_lookup (wq_queue_map wq) _ _ Hk). }
  assert (Hwf1 : wf_queues wq1).
  { destruct Hwf as [Hwf Hc]. split; [|by rewrite Hw1]. intros k ks''. cbn.
    intros [[<- <-]|[_ Hl]]%lookup_insert_Some; [by apply (Hwf _ ks)|by apply Hwf]. }
  destruct (IH _ _ _ Hwf1 Hu) as [Hwf2 Hw2]. split; [done|]. by rewrite Hw2.
Qed.

(** ** The delayed notification *)

(** The request came before the last wake-up of a legacy request. *)
Definition came_before (i : Z) (e : LockWaitEntry) : bool :=
  negb (match le_legacy_wake_up_index e with Some idx => i <=? idx | None => false end).

(** What is popped, and where the loop stops. *)
Record woken_up (i : Z) (q : Q) (popped : list LockWaitEntry) (woken : option LockWaitEntry) (q' : Q) : Prop := mk_woken_up {
  wu_entries : queue_entries q ≡ₚ popped ++ option_list woken ++ queue_entries q';
  wu_items : kpq_items q' ⊆ kpq_items q;
  wu_popped : Forall (fun e => allows_conflict e = false /\ came_before i e = true) popped;
  wu_woken : Forall (fun e => allows_conflict e = true /\ came_before i e = true) (option_list woken);
  wu_oldest : forall e e', e ∈ popped ++ option_list woken -> e' ∈ queue_entries q' -> entry_ts e <= entry_ts e';
  wu_stopped : woken = None -> forall t front, kpq_peek q' = Some (t, front) -> came_before i front = false
}.

Lemma woken_up_cons i q t e q1 popped woken q' : kpq_pop q = Some (t, e, q1) -> came_before i e = true -> allows_conflict e = false ->
  woken_up i q1 popped woken q' -> woken_up i q (e :: popped) woken q'.
Proof.
  intros Hpop Hb Ha [He Hi Hp Hw Ho Hs]. pose proof (pop_some _ _ _ _ Hpop) as (Ht & Hd & Hmin).
  assert (Hsub : kpq_items q' ⊆ kpq_items q). { etransitivity; [exact Hi|]. rewrite Hd. apply delete_subseteq. }
  constructor; try done.
  - rewrite (pop_entries _ _ _ _ Hpop), He. done.
  - by constructor.
  - intros e1 e2 [->|Hin]%elem_of_cons Hin2; [|by apply Ho]. apply in_entries in Hin2 as [t2 Ht2].
    apply (Hmin t2). by eapply lookup_weaken.
Qed.

Lemma woken_up_stop i q : (forall t front, kpq_peek q = Some (t, front) -> came_before i front = false) -> woken_up i q [] None q.
Proof. intros Hs. constructor; try done. intros e e' Hin. by apply elem_of_nil in Hin. Qed.

Lemma pop_woken_spec fuel i : forall q popped woken q', (length (queue_entries q) <= fuel)%nat ->
  pop_woken fuel i q = (popped, woken, q') -> woken_up i q popped woken q'.
Proof.
  induction fuel as [|fuel IH]; intros q popped woken q' Hlen; cbn [pop_woken].
  - intros [= <- <- <-]. apply woken_up_stop. intros t front [Ht _]%kpq_peek_min. exfalso. assert (Hin : front ∈ queue_entries q) by (apply in_entries; eauto).
    destruct (queue_entries q); [by apply elem_of_nil in Hin|cbn in Hlen; lia].
  - destruct (kpq_peek q) as [[t front]|] eqn:Hpk.
    2:{ intros [= <- <- <-]. apply woken_up_stop. congruence. }
    destruct (match le_legacy_wake_up_index front with Some idx => i <=? idx | None => false end) eqn:Hn.
    { intros [= <- <- <-]. apply woken_up_stop. intros t' f Hf. simplify_eq. unfold came_before. by rewrite Hn. }
    assert (Hb : came_before i front = true) by (unfold came_before; by rewrite Hn).
    pose proof (kpq_pop_peek q) as Hpp. destruct (kpq_pop q) as [[[t' e] q1]|] eqn:Hpop; [|congruence].
    destruct Hpp as [Hpp _]. rewrite Hpk in Hpp. injection Hpp as -> ->. pose proof (pop_entries _ _ _ _ Hpop) as Hent. destruct (allows_conflict e) eqn:Ha.
    + intros [= <- <- <-]. pose proof (pop_some _ _ _ _ Hpop) as (Ht & Hd & Hmin). constructor; try done; [| |].
      * rewrite Hd. apply delete_subseteq.
      * by repeat constructor.
      * intros e1 e2 ->%list_elem_of_singleton Hin. apply in_entries in Hin as [t2 Ht2]. rewrite Hd in Ht2.
        apply lookup_delete_Some in Ht2 as [_ Ht2]. by eapply Hmin.
    + destruct (pop_woken fuel i q1) as [[p w] q2] eqn:Hpw. intros [= <- <- <-]. eapply woken_up_cons; try done.
      apply IH; [|done]. rewrite Hent in Hlen. cbn in Hlen. lia.
Qed.

(** A request that came before the wake-up still waits only behind a
    resumable one that was woken, or behind an older one that came later. *)
Lemma left_waiting i q popped woken q' e : woken_up i q popped woken q' -> e ∈ queue_entries q' -> came_before i e = true ->
  (exists w, woken = Some w /\ entry_ts w <= entry_ts e) \/
  exists front, front ∈ queue_entries q' /\ came_before i front = false /\ entry_ts front <= entry_ts e.
Proof.
  intros [He Hi Hp Hw Ho Hs] Hin Hb. destruct woken as [w|].
  { left. exists w. split; [done|]. apply Ho; [|done]. apply elem_of_app. right. by left. }
  right. apply in_entries in Hin as [t Ht]. destruct (kpq_peek q') as [[t' front]|] eqn:Hpk.
  - exists front. pose proof (kpq_peek_min _ _ _ Hpk) as [Hf Hmin]. split; [apply in_entries; eauto|]. split; [by eapply Hs|by eapply Hmin].
  - apply kpq_peek_none in Hpk. by rewrite Hpk, lookup_empty in Ht.
Qed.

Lemma delayed_notify_all_spec wq key id n wq' : wf_queues wq -> delayed_notify_all wq key id = (n, wq') ->
  wf_queues wq' /\ waiting wq ≡ₚ no_popped n ++ option_list (no_woken n) ++ waiting wq' /\
  Forall (fun e => allows_conflict e = false /\ le_key e = key) (no_popped n) /\
  Forall (fun e => allows_conflict e = true /\ le_key e = key) (option_list (no_woken n)).
Proof.
  intros Hwf. unfold delayed_notify_all. destruct (wq_queue_map wq !! key) as [ks|] eqn:Hk; [|intros [= <- <-]; by split_and!].
  destruct (ks_delayed_notify_all ks) as [[id' st]|]; [|intros [= <- <-]; by split_and!].
  destruct (id' =? id); [|intros [= <- <-]; by split_and!].
  destruct (pop_woken _ _ _) as [[popped woken] q] eqn:Hp. intros [= <- <-]. cbn [no_popped no_woken].
  apply pop_woken_spec in Hp as [He Hi Hpo Hwo _ _]; [|unfold queue_entries; by rewrite length_fmap].
  destruct (proj1 Hwf _ _ Hk) as [Hs _]. set (ks' := mk_key_state _ _ _ _ _ _).
  assert (Hkey : forall e, e ∈ popped ++ option_list woken -> le_key e = key).
  { intros e Hin. assert (Hq : e ∈ queue_entries (ks_queue ks)) by (rewrite He, app_assoc; apply elem_of_app; by left).
    apply in_entries in Hq as [t Ht]. by apply (Hs _ _ Ht). }
  destruct (put_back_spec wq key ks ks' (popped ++ option_list woken)
              (Z.of_nat (length popped) + match woken with Some _ => 1 | None => 0 end)) as [Hwf' Hw]; try done.
  { rewrite length_app. destruct woken; cbn; lia. }
  { by rewrite <- app_assoc. }
  { intros t e Ht. apply Hs. by eapply lookup_weaken. }
  split; [done|]. split; [by rewrite Hw, <- app_assoc|].
  split; apply Forall_forall; intros e Hin; (split; [|apply Hkey; apply elem_of_app; tauto]).
  - rewrite Forall_forall in Hpo. by apply Hpo.
  - rewrite Forall_forall in Hwo. by apply Hwo.
Qed.
End Waiting.

(** ** A queue by a map *)

Definition older (x y : Z * LockWaitEntry) : Z * LockWaitEntry := if entry_ts x.2 <=? entry_ts y.2 then x else y.
Definition map_peek (m : gmap Z LockWaitEntry) : option (Z * LockWaitEntry) :=
  match map_to_list m with [] => None | x :: l => Some (foldl older x l) end.

#[export] Instance map_queue : KeyedPriorityQueue (gmap Z LockWaitEntry) := {
  kpq_empty := ∅;
  kpq_push q t e := <[t := e]> q;
  kpq_peek := map_peek;
  kpq_pop q := match map_peek q with Some (t, e) => Some (t, e, delete t q) | None => None end;
  kpq_remove q t := (q !! t, delete t q);
  kpq_iter := map_to_list
}.

Lemma older_fold l : forall x, foldl older x l ∈ x :: l /\ forall y, y ∈ x :: l -> entry_ts (foldl older x l).2 <= entry_ts y.2.
Proof.
  induction l as [|z l IH]; intros x; cbn [foldl].
  - split; [by left|]. by intros y ->%list_elem_of_singleton.
  - destruct (IH (older x z)) as [Hin Hmin]. pose proof (Hmin (older x z) ltac:(by left)) as Hx. unfold older in *.
    split.
    + apply elem_of_cons in Hin as [->|Hin]; [|by do 2 right]. destruct (_ <=? _); [by left|right; by left].
    + destruct (Z.leb_spec (entry_ts x.2) (entry_ts z.2)); intros y Hy;
        (apply elem_of_cons in Hy as [->|[->|Hy]%elem_of_cons]; [lia|lia|]); apply Hmin; by right.
Qed.

Lemma map_items (m : gmap Z LockWaitEntry) : kpq_items m = m.
Proof. apply list_to_map_to_list. Qed.

#[export] Instance map_queue_laws : KeyedPriorityQueueLaws (gmap Z LockWaitEntry).
Proof.
  split.
  - intros q. apply NoDup_fst_map_to_list.
  - apply map_items.
  - intros q t e. by rewrite !map_items.
  - intros q t e. rewrite map_items. cbn. unfold map_peek. destruct (map_to_list q) as [|x l] eqn:Hl; [done|]. intros [= Hx].
    destruct (older_fold l x) as [Hin Hmin]. rewrite Hx, <- Hl in *. split; [by apply elem_of_map_to_list|].
    intros t' e' He. apply (Hmin (t', e')). by apply elem_of_map_to_list.
  - intros q. rewrite map_items. cbn. unfold map_peek. destruct (map_to_list q) eqn:Hl; [|done]. intros _. by apply map_to_list_empty_iff.
  - intros q. cbn [kpq_pop kpq_peek map_queue]. destruct (map_peek q) as [[t e]|]; [|done]. by rewrite !map_items.
  - intros q t. by rewrite !map_items.
Qed.

(** ** Examples *)

Definition waiter (key : Key) (token start_ts : Z) (allow : bool) : LockWaitEntry :=
  mk_entry key 0 (mk_params [] start_ts 1000 start_ts (Some WaitDefault) false 0 false false false allow) false token None (Some token).

(** Requests 20 and 30 wait when the lock is released and 20 is woken. A
    request 25 that comes then hides 30 from the delayed notification. *)
Definition key_k : Key := key_from_raw [Byte.x6b].
Definition hidden_queues : LockWaitQueues (gmap Z LockWaitEntry) :=
  let wq := push_entry (push_entry queues_new (waiter key_k 1 20 false) no_lock_info) (waiter key_k 2 30 false) no_lock_info in
  push_entry (pop_for_waking_up wq key_k 5 6 0 20).2 (waiter key_k 3 25 false) no_lock_info.

Lemma hidden_not_notified :
  exists ks, wq_queue_map hidden_queues !! key_k = Some ks /\ ks_delayed_notify_all ks = Some (1, 0) /\
    came_before (ks_legacy_wake_up_index ks) (set_wake_up_index (waiter key_k 2 30 false) 0) = true /\
    no_popped (delayed_notify_all hidden_queues key_k 1).1 = [] /\
    length (waiting (delayed_notify_all hidden_queues key_k 1).2) = 2%nat.
Proof. eexists. split; [vm_compute; reflexivity|]. split_and!; vm_compute; reflexivity. Qed.

(** With a delay of zero the task ends at once as a cancelled one, and the
    key keeps its id: later wake-ups extend a task that is gone. *)
Lemma zero_delay_cancelled start now : delay_turn start now 0 0 = DelayCancelled.
Proof. done. Qed.

Lemma zero_delay_keeps_task {Q} `{KeyedPriorityQueue Q} (wq : LockWaitQueues Q) ks now now' d id ks' wq' :
  handle_delayed_wake_up wq ks now 0 = (Some id, ks', wq') ->
  wq_delays wq' !! id = Some 0 /\ exists wq'', handle_delayed_wake_up wq' ks' now' d = (None, ks', wq'').
Proof.
  unfold handle_delayed_wake_up. destruct (ks_delayed_notify_all ks) as [[? ?]|]; intros [= <- <- <-]. cbn.
  split; [apply lookup_insert_eq|eauto].
Qed.
