(* ===== verification/LockWaitSystem.v ===== *)
(** * Waiting, waking and cancelling at the same time
    (src/storage/lock_manager, and the calls of it in src/storage/txn/scheduler.rs)

    Threads of the scheduler push, wake and resume requests while the lock
    manager cancels them. A turn of a thread is what it does between two
    points at which others can see it: an access to the queue of a key, which
    holds the lock of a shard of the map, or to the shared state of a request.

    Every request is answered at most once and none is lost: one that waits
    has a thread that can still cancel it. One interleaving never ends: a
    request that is pushed again when its flag is set, and before the canceller
    has looked for it in the queue. *)
From S2P Require Import Prelude Number Bytes Timestamp Key Fields Lock Write OrderedMap PeerLocks Engine.
From S2P Require Import ConcurrencyManager Reader MvccTxn CheckTxnStatus Prewrite AcquirePessimisticLock LockWaiting.
Local Open Scope Z_scope.

(** ** Threads *)

Inductive FinishRequestKind := Executed | Canceled | CanceledBeforeEnqueueing.

Inductive Thread :=
| TPush (first : bool) (e : LockWaitEntry) (current_lock : LockInfo)
| TInsert (first : bool) (e : LockWaitEntry) (current_lock : LockInfo)
| TRegister (token : Z)
| TWaiter (token : Z)
| TCancel (token : Z) (error : StorageError)
| TCancelRemove (token : Z) (error : StorageError)
| TCancelPut (token : Z) (error : StorageError)
| TRecv (e : LockWaitEntry)
| TCallback (token : Z) (result : KeyResult) (kind : FinishRequestKind)
| TResumed (e : LockWaitEntry)
| TRelease (released_locks : list ReleasedLock)
| TNotify (key : Key) (notify_id start_time prev_delay_ms : Z)
| TNotifyDue (key : Key) (notify_id : Z)
| TUpdate (infos : list LockInfo).

(** How the resumed command ends for a key. *)
Inductive Resumed :=
| ResumedLocked (lock_hash : Z) (lock_info : LockInfo)
| ResumedPutBack
| ResumedDone (r : PessimisticLockKeyResult)
| ResumedFailed (e : StorageError).

(** What a turn depends on outside the model. *)
Record Choice := mk_choice {
  ch_now : Z;
  ch_wake_up_delay_ms : Z;
  ch_resumed : Resumed;
  ch_error : StorageError;
  ch_drop : bool
}.

(** The key was made from a raw one. *)
Definition valid_key (key : Key) : Prop := exists raw, key_into_raw key = Ok raw.
Arguments valid_key : simpl never.

Section System.
Context {Q : Type} `{KeyedPriorityQueue Q}.

(** The shard of the map that has a key. *)
Variable shard : Key -> Z.

(** [sh_removed]: the tokens of [remove_lock_wait]. *)
Record WaitShared := mk_shared {
  sh_queues : LockWaitQueues Q;
  sh_ctxs : gmap Z LockWaitContext;
  sh_removed : gset Z;
  sh_answers : list (Z * ProcessResult)
}.

Definition with_queues (sh : WaitShared) (wq : LockWaitQueues Q) : WaitShared := mk_shared wq (sh_ctxs sh) (sh_removed sh) (sh_answers sh).
Definition with_ctx (sh : WaitShared) (t : Z) (c : LockWaitContext) : WaitShared :=
  mk_shared (sh_queues sh) (<[t := c]> (sh_ctxs sh)) (sh_removed sh) (sh_answers sh).

Inductive Outcome := Blocked | Panicked | Turned (sh : WaitShared) (spawned : list Thread).

(** A thread inside [push_lock_wait] has the shard of its key. *)
Definition thread_shard (th : Thread) : list Z :=
  match th with TInsert _ e _ | TRecv e => [shard (le_key e)] | _ => [] end.
Definition held (ths : list Thread) : list Z := ths ≫= thread_shard.

(** [key_cb.unwrap()] *)
Definition with_cb (e : LockWaitEntry) (k : Z -> Outcome) : Outcome :=
  match le_key_cb e with Some cb => k cb | None => Panicked end.

Definition needs (locked : list Z) (key : Key) (k : Outcome) : Outcome := if bool_decide (shard key ∈ locked) then Blocked else k.
Definition on_ctx (sh : WaitShared) (t : Z) (k : LockWaitContext -> Outcome) : Outcome :=
  match sh_ctxs sh !! t with Some c => k c | None => Panicked end.

(** [push_lock_wait] up to the test of the flag, and after it. *)
Definition turn_push (sh : WaitShared) (first : bool) (e : LockWaitEntry) (l : LockInfo) : Outcome :=
  on_ctx sh (le_lock_wait_token e) (fun c =>
    if cx_is_canceled c then
      match take_receiver c with
      | Some c' => Turned (with_ctx sh (le_lock_wait_token e) c') [TRecv e]
      | None => Panicked
      end
    else Turned sh [TInsert first e l]).

Definition turn_insert (sh : WaitShared) (first : bool) (e : LockWaitEntry) (l : LockInfo) : Outcome :=
  Turned (with_queues sh (push_entry (sh_queues sh) e l)) (if first then [TRegister (le_lock_wait_token e)] else []).

(** [on_push_canceled_entry]. The receiver is dropped with its message. *)
Definition turn_recv (sh : WaitShared) (e : LockWaitEntry) : Outcome :=
  on_ctx sh (le_lock_wait_token e) (fun c =>
    match recv c with
    | RecvBlocked => Blocked
    | RecvDisconnected => Panicked
    | RecvError err =>
        with_cb e (fun cb => Turned sh [TCallback cb (KRFailed (latest_lock_error (sh_queues sh) (le_key e) err)) CanceledBeforeEnqueueing])
    end).

(** A waiter of the lock manager is dropped, or its request is cancelled. *)
Definition turn_waiter (ch : Choice) (sh : WaitShared) (t : Z) : Outcome :=
  if ch_drop ch && bool_decide (t ∈ sh_removed sh) then Turned sh [] else Turned sh [TCancel t (ch_error ch)].

(** The three parts of [finish_request] for a cancelled request. *)
Definition turn_cancel (sh : WaitShared) (t : Z) (err : StorageError) : Outcome :=
  on_ctx sh t (fun c => Turned (with_ctx sh t (ctx_set_canceled c)) [TCancelRemove t err]).

Definition turn_cancel_remove (locked : list Z) (sh : WaitShared) (t : Z) (err : StorageError) : Outcome :=
  on_ctx sh t (fun c =>
    needs locked (cx_key c)
      (let '(entry, wq) := remove_by_token (sh_queues sh) (cx_key c) t in
       Turned (with_queues sh wq) [match entry with Some _ => TCallback t (KRFailed err) Canceled | None => TCancelPut t err end])).

Definition turn_cancel_put (sh : WaitShared) (t : Z) (err : StorageError) : Outcome :=
  on_ctx sh t (fun c => match put_external_error c err with Some c' => Turned (with_ctx sh t c') [] | None => Panicked end).

(** The rest of [finish_request]. *)
Definition turn_callback (sh : WaitShared) (t : Z) (result : KeyResult) (kind : FinishRequestKind) : Outcome :=
  on_ctx sh t (fun c =>
    match finish_request c result with
    | Some (pr, c') =>
        let removed := match kind with Executed => {[t]} ∪ sh_removed sh | _ => sh_removed sh end in
        Turned (mk_shared (sh_queues sh) (<[t := c']> (sh_ctxs sh)) removed ((t, pr) :: sh_answers sh)) []
    | None => Panicked
    end).

(** [put_back_lock_wait_entries], or [schedule_awakened_pessimistic_locks],
    which takes the callback, and then [make_lock_waiting_after_resuming] or
    the callback of the key. *)
Definition turn_resumed (ch : Choice) (sh : WaitShared) (e : LockWaitEntry) : Outcome :=
  match ch_resumed ch with
  | ResumedPutBack => Turned sh [TPush false e no_lock_info]
  | ResumedLocked hash info =>
      with_cb e (fun cb =>
        Turned sh [TPush false (mk_entry (le_key e) hash (le_parameters e) (le_should_not_exist e) (le_lock_wait_token e) None (Some cb)) info])
  | ResumedDone r => with_cb e (fun cb => Turned sh [TCallback cb (KRDone r) Executed])
  | ResumedFailed err => with_cb e (fun cb => Turned sh [TCallback cb (KRFailed err) Executed])
  end.

(** A turn of the loop of [on_release_locks], and the tasks it spawns. *)
Definition turn_release (ch : Choice) (sh : WaitShared) (r : ReleasedLock) (rs : list ReleasedLock) : Outcome :=
  match pop_for_waking_up (sh_queues sh) (rl_key r) (rl_start_ts r) (rl_commit_ts r) (ch_now ch) (ch_wake_up_delay_ms ch) with
  | (None, wq) => Turned (with_queues sh wq) [TRelease rs]
  | (Some (e, future), wq) =>
      let rest := TRelease rs :: match future with Some id => [TNotify (rl_key r) id (ch_now ch) 0] | None => [] end in
      if allows_conflict e then Turned (with_queues sh wq) (TResumed e :: rest)
      else
        with_cb e (fun cb =>
          match pessimistic_retry e (rl_key r) (rl_start_ts r) (rl_commit_ts r) with
          | Some err => Turned (with_queues sh wq) (TCallback cb (KRFailed err) Executed :: rest)
          | None => Panicked
          end)
  end.

(** A turn of [async_delayed_notify_all]. *)
Definition turn_notify (ch : Choice) (sh : WaitShared) (key : Key) (id start prev : Z) : Outcome :=
  match wq_delays (sh_queues sh) !! id with
  | None => Panicked
  | Some d =>
      match delay_turn start (ch_now ch) prev d with
      | DelayCancelled => Turned sh []
      | DelayDue => Turned sh [TNotifyDue key id]
      | DelayUntil _ => Turned sh [TNotify key id start d]
      end
  end.

(** [delayed_notify_all] and the callbacks of the requests it pops. *)
Fixpoint retry_all (es : list LockWaitEntry) (start_ts commit_ts : TimeStamp) : option (list Thread) :=
  match es with
  | [] => Some []
  | e :: es =>
      match le_key_cb e, pessimistic_retry e (le_key e) start_ts commit_ts, retry_all es start_ts commit_ts with
      | Some cb, Some err, Some ths => Some (TCallback cb (KRFailed err) Executed :: ths)
      | _, _, _ => None
      end
  end.

Definition turn_notify_due (sh : WaitShared) (key : Key) (id : Z) : Outcome :=
  let '(n, wq) := delayed_notify_all (sh_queues sh) key id in
  match retry_all (no_popped n) (no_start_ts n) (no_commit_ts n) with
  | Some ths => Turned (with_queues sh wq) (ths ++ map TResumed (option_list (no_woken n)))
  | None => Panicked
  end.

Definition thread_turn (locked : list Z) (ch : Choice) (sh : WaitShared) (th : Thread) : Outcome :=
  match th with
  | TPush first e l => needs locked (le_key e) (turn_push sh first e l)
  | TInsert first e l => turn_insert sh first e l
  | TRegister t => Turned sh [TWaiter t]
  | TWaiter t => turn_waiter ch sh t
  | TCancel t err => turn_cancel sh t err
  | TCancelRemove t err => turn_cancel_remove locked sh t err
  | TCancelPut t err => turn_cancel_put sh t err
  | TRecv e => turn_recv sh e
  | TCallback t result kind => turn_callback sh t result kind
  | TResumed e => turn_resumed ch sh e
  | TRelease [] => Turned sh []
  | TRelease (r :: rs) => needs locked (rl_key r) (turn_release ch sh r rs)
  | TNotify key id start prev => turn_notify ch sh key id start prev
  | TNotifyDue key id => needs locked key (turn_notify_due sh key id)
  | TUpdate [] => Turned sh []
  | TUpdate (i :: infos) =>
      needs locked (key_from_raw (info_key i)) (Turned (with_queues sh (update_lock_wait (sh_queues sh) [i]).2) [TUpdate infos])
  end.

(** ** Steps *)

Definition system : Type := WaitShared * list Thread.
Definition system_new : system := (mk_shared queues_new ∅ ∅ [], []).

(** [make_lock_waiting] for a new token; the callback is the one of its
    context. *)
Definition new_request (sh : WaitShared) (e : LockWaitEntry) : WaitShared :=
  with_ctx sh (le_lock_wait_token e) (ctx_new (le_key e) (allows_conflict e)).
Definition is_new (sh : WaitShared) (e : LockWaitEntry) : Prop :=
  sh_ctxs sh !! le_lock_wait_token e = None /\ le_legacy_wake_up_index e = None /\
  le_key_cb e = Some (le_lock_wait_token e) /\ valid_key (le_key e).

Inductive wait_step : system -> system -> Prop :=
| ss_turn sh l1 th l2 ch sh' new :
    thread_turn (held (l1 ++ l2)) ch sh th = Turned sh' new -> wait_step (sh, l1 ++ th :: l2) (sh', new ++ l1 ++ l2)
| ss_request sh ths e l : is_new sh e -> wait_step (sh, ths) (new_request sh e, TPush true e l :: ths)
| ss_release sh ths rs : wait_step (sh, ths) (sh, TRelease rs :: ths)
| ss_update sh ths infos : wait_step (sh, ths) (sh, TUpdate infos :: ths).

Definition wait_reachable (s : system) : Prop := rtc wait_step system_new s.
End System.
Arguments WaitShared : clear implicits.
Arguments system : clear implicits.

(** ** Where a request is *)

(** The place of the entry of a request, and of its cancellation callback. *)
Inductive Place :=
| PPush (first : bool) (e : LockWaitEntry)
| PInsert (first : bool) (e : LockWaitEntry)
| PRecv (e : LockWaitEntry)
| PQueued (e : LockWaitEntry)
| PResumed (e : LockWaitEntry)
| PCallback (result : KeyResult)
| PAnswered.
Inductive Stage := StFirst | StRegister | StWaiter | StCancel | StRemove | StPut.

Definition thread_phase (th : Thread) : list (Z * Place) :=
  match th with
  | TPush first e _ => [(le_lock_wait_token e, PPush first e)]
  | TInsert first e _ => [(le_lock_wait_token e, PInsert first e)]
  | TRecv e => [(le_lock_wait_token e, PRecv e)]
  | TResumed e => [(le_lock_wait_token e, PResumed e)]
  | TCallback t result _ => [(t, PCallback result)]
  | _ => []
  end.
Definition thread_stage (th : Thread) : list (Z * Stage) :=
  match th with
  | TPush true e _ | TInsert true e _ => [(le_lock_wait_token e, StFirst)]
  | TRegister t => [(t, StRegister)]
  | TWaiter t => [(t, StWaiter)]
  | TCancel t _ => [(t, StCancel)]
  | TCancelRemove t _ => [(t, StRemove)]
  | TCancelPut t _ => [(t, StPut)]
  | _ => []
  end.
Definition queued_phase (e : LockWaitEntry) : Z * Place := (le_lock_wait_token e, PQueued e).

(** The shared state of a request agrees with its two places. *)
Definition stage_ok (c : LockWaitContext) (s : option Stage) : Prop :=
  match s with
  | None => True
  | Some (StRemove | StPut) => cx_is_canceled c = true /\ cx_tx c = true
  | Some _ => cx_is_canceled c = false /\ cx_tx c = true
  end.
Definition hopeful (c : LockWaitContext) (s : option Stage) : Prop :=
  match s with
  | None => cx_is_canceled c = true /\ cx_channel c <> None
  | Some StFirst => False
  | Some _ => True
  end.
Definition removable (s : option Stage) : Prop := match s with Some (StRegister | StWaiter | StCancel | StRemove) => True | _ => False end.
Definition request_ok (t : Z) (c : LockWaitContext) (e : LockWaitEntry) : Prop :=
  le_lock_wait_token e = t /\ cx_key c = le_key e /\ cx_allow_lock_with_conflict c = allows_conflict e /\
  valid_key (le_key e) /\ le_key_cb e = Some t.
Definition result_ok (c : LockWaitContext) (r : KeyResult) : Prop :=
  r <> KRWaiting /\ (cx_allow_lock_with_conflict c = false -> exists err, r = KRFailed err).
Definition at_place_ok (t : Z) (c : LockWaitContext) (p : Place) (s : option Stage) : Prop :=
  match p with
  | PPush true e | PInsert true e => request_ok t c e /\ cx_rx c = true /\ s = Some StFirst
  | PPush false e => request_ok t c e /\ cx_rx c = true /\ hopeful c s
  | PInsert false e | PQueued e => request_ok t c e /\ cx_rx c = true /\ removable s
  | PResumed e => request_ok t c e /\ cx_rx c = true /\ hopeful c s /\ allows_conflict e = true
  | PRecv e => request_ok t c e /\ cx_is_canceled c = true /\ (cx_channel c <> None \/ s = Some StRemove \/ s = Some StPut)
  | PCallback r => result_ok c r /\ s <> Some StFirst
  | PAnswered => s <> Some StFirst
  end.
Definition is_answered (p : Place) : bool := match p with PAnswered => true | _ => false end.
Definition place_ok (t : Z) (c : LockWaitContext) (p : Place) (s : option Stage) : Prop :=
  cx_inner c = negb (is_answered p) /\ stage_ok c s /\ at_place_ok t c p s.

(** Every request has one place, every callback at most one. *)
Record coherent_by (ph : gmap Z Place) (st : gmap Z Stage) (P : list (Z * Place)) (S : list (Z * Stage)) (C : gmap Z LockWaitContext)
    (R : gset Z) : Prop := mk_coherent {
  co_phases : P ≡ₚ map_to_list ph;
  co_stages : S ≡ₚ map_to_list st;
  co_dom : dom ph = dom C;
  co_dom_stage : dom st ⊆ dom C;
  co_ok : forall t c p, C !! t = Some c -> ph !! t = Some p -> place_ok t c p (st !! t);
  co_removed : forall t, t ∈ R -> ph !! t = Some PAnswered
}.
Definition coherent P S C R : Prop := exists ph st, coherent_by ph st P S C R.

#[export] Instance coherent_proper : Proper ((≡ₚ) ==> (≡ₚ) ==> (=) ==> (=) ==> iff) coherent.
Proof.
  intros P P' HP S S' HS C ? <- R ? <-. split; intros (ph & st & [Hp Hs Hd Hds Ho Hr]); exists ph, st; constructor; try done.
  - by rewrite <- HP.
  - by rewrite <- HS.
  - by rewrite HP.
  - by rewrite HS.
Qed.

Section PermMap.
Context {A : Type}.
Implicit Types (m : gmap Z A) (l : list (Z * A)).

Lemma perm_lookup m l t a : (t, a) :: l ≡ₚ map_to_list m -> m !! t = Some a.
Proof. intros Hp. apply elem_of_map_to_list. rewrite <- Hp. by left. Qed.

Lemma perm_delete m l t a : (t, a) :: l ≡ₚ map_to_list m -> l ≡ₚ map_to_list (delete t m).
Proof.
  intros Hp. pose proof (perm_lookup _ _ _ _ Hp) as Hl. rewrite <- (insert_delete_id m t a Hl) in Hp.
  rewrite map_to_list_insert in Hp by apply lookup_delete_eq. by apply Permutation_cons_inv in Hp.
Qed.

Lemma perm_insert m l t a : l ≡ₚ map_to_list m -> m !! t = None -> (t, a) :: l ≡ₚ map_to_list (<[t := a]> m).
Proof. intros Hp Ht. by rewrite map_to_list_insert, Hp. Qed.

Lemma perm_update m l t a b : (t, a) :: l ≡ₚ map_to_list m -> (t, b) :: l ≡ₚ map_to_list (<[t := b]> m).
Proof.
  intros Hp. apply perm_delete in Hp. rewrite <- insert_delete_eq. apply perm_insert; [done|]. apply lookup_delete_eq.
Qed.
End PermMap.

(** ** Moves *)

Lemma coherent_phase t p p' P S C R c c' : C !! t = Some c -> (p = PAnswered -> p' = PAnswered) ->
  (forall s, place_ok t c p s -> place_ok t c' p' s) ->
  coherent ((t, p) :: P) S C R -> coherent ((t, p') :: P) S (<[t := c']> C) R.
Proof.
  intros Hc Ha Hok (ph & st & [Hp Hs Hd Hds Ho Hr]). pose proof (perm_lookup _ _ _ _ Hp) as Hl.
  assert (Hdc : dom (<[t := c']> C) = dom C) by (apply dom_insert_lookup_L; eauto).
  exists (<[t := p']> ph), st. constructor; [by eapply perm_update|done| |by rewrite Hdc| |].
  - rewrite Hdc, <- Hd. apply dom_insert_lookup_L. eauto.
  - intros t1 c1 p1 [[<- <-]|[Hn Hc1]]%lookup_insert_Some [[? <-]|[Hn' Hp1]]%lookup_insert_Some; try done; [|by apply Ho].
    apply Hok. by apply Ho.
  - intros t1 Ht1. apply Hr in Ht1. apply lookup_insert_Some. destruct (decide (t = t1)) as [<-|]; [left|by right].
    split; [done|]. apply Ha. congruence.
Qed.

Lemma coherent_stage t s s' P S C R c c' : C !! t = Some c ->
  (forall p, (t, p) ∈ P -> (forall p', (t, p') ∈ P -> p' = p) -> (t ∈ R -> p = PAnswered) -> place_ok t c p (Some s) -> place_ok t c' p s') ->
  coherent P ((t, s) :: S) C R -> coherent P (option_list (pair t <$> s') ++ S) (<[t := c']> C) R.
Proof.
  intros Hc Hok (ph & st & [Hp Hs Hd Hds Ho Hr]). pose proof (perm_lookup _ _ _ _ Hs) as Hl.
  assert (Hdc : dom (<[t := c']> C) = dom C) by (apply dom_insert_lookup_L; eauto).
  exists ph, (partial_alter (fun _ => s') t st). constructor; [done| |by rewrite Hdc| | |done].
  - destruct s' as [s'|]; cbn; [by eapply perm_update|by eapply perm_delete].
  - rewrite Hdc. etransitivity; [|exact Hds]. intros t1 [x Hx]%elem_of_dom. apply elem_of_dom.
    destruct (decide (t = t1)) as [<-|Hne]; [eauto|]. rewrite lookup_partial_alter_ne in Hx by done. eauto.
  - intros t1 c1 p1 [[<- <-]|[Hn Hc1]]%lookup_insert_Some Hp1.
    + rewrite lookup_partial_alter_eq. apply Hok; [rewrite Hp; by apply elem_of_map_to_list| |intros Hin%Hr; congruence|rewrite <- Hl; by apply Ho].
      intros p'. rewrite Hp, elem_of_map_to_list. congruence.
    + rewrite lookup_partial_alter_ne by done. by apply Ho.
Qed.

Lemma coherent_both t p p' s s' P S C R : (p = PAnswered -> p' = PAnswered) ->
  (forall c, place_ok t c p (Some s) -> place_ok t c p' (Some s')) ->
  coherent ((t, p) :: P) ((t, s) :: S) C R -> coherent ((t, p') :: P) ((t, s') :: S) C R.
Proof.
  intros Ha Hok (ph & st & [Hp Hs Hd Hds Ho Hr]). pose proof (perm_lookup _ _ _ _ Hp) as Hl. pose proof (perm_lookup _ _ _ _ Hs) as Hls.
  exists (<[t := p']> ph), (<[t := s']> st). constructor; [by eapply perm_update|by eapply perm_update| | | |].
  - rewrite <- Hd. apply dom_insert_lookup_L. eauto.
  - rewrite dom_insert_lookup_L by eauto. done.
  - intros t1 c1 p1 Hc1 [[<- <-]|[Hn' Hp1]]%lookup_insert_Some.
    + rewrite lookup_insert_eq. apply Hok. rewrite <- Hls. by apply Ho.
    + rewrite lookup_insert_ne by done. by apply Ho.
  - intros t1 Ht1. apply Hr in Ht1. apply lookup_insert_Some. destruct (decide (t = t1)) as [<-|]; [left|by right].
    split; [done|]. apply Ha. congruence.
Qed.

Lemma coherent_new t p s c P S C R : C !! t = None -> place_ok t c p (Some s) ->
  coherent P S C R -> coherent ((t, p) :: P) ((t, s) :: S) (<[t := c]> C) R.
Proof.
  intros Hc Hok (ph & st & [Hp Hs Hd Hds Ho Hr]).
  assert (Hn : ph !! t = None) by (apply not_elem_of_dom; rewrite Hd; by apply not_elem_of_dom).
  assert (Hns : st !! t = None). { apply not_elem_of_dom. intros Hin%Hds. apply not_elem_of_dom in Hc. done. }
  exists (<[t := p]> ph), (<[t := s]> st). constructor; [by apply perm_insert|by apply perm_insert| | | |].
  - by rewrite !dom_insert_L, Hd.
  - rewrite !dom_insert_L. set_solver.
  - intros t1 c1 p1 [[<- <-]|[Hne Hc1]]%lookup_insert_Some [[? <-]|[Hn' Hp1]]%lookup_insert_Some; try done.
    + by rewrite lookup_insert_eq.
    + rewrite lookup_insert_ne by done. by apply Ho.
  - intros t1 Ht1. apply Hr in Ht1. rewrite lookup_insert_ne; [done|]. congruence.
Qed.

Lemma coherent_remove t P S C R : coherent ((t, PAnswered) :: P) S C R -> coherent ((t, PAnswered) :: P) S C ({[t]} ∪ R).
Proof.
  intros (ph & st & [Hp Hs Hd Hds Ho Hr]). exists ph, st. constructor; try done.
  intros t1 [->%elem_of_singleton|Ht]%elem_of_union; [by eapply perm_lookup|by apply Hr].
Qed.

Lemma coherent_phase_ctx t p P S C R : coherent ((t, p) :: P) S C R -> exists c s, C !! t = Some c /\ place_ok t c p s.
Proof.
  intros (ph & st & [Hp Hs Hd Hds Ho Hr]). pose proof (perm_lookup _ _ _ _ Hp) as Hl.
  assert (Hin : t ∈ dom C) by (rewrite <- Hd; apply elem_of_dom; eauto). apply elem_of_dom in Hin as [c Hc]. exists c, (st !! t).
  split; [done|]. by apply Ho.
Qed.

Lemma coherent_stage_ctx t s P S C R : coherent P ((t, s) :: S) C R ->
  exists c p, C !! t = Some c /\ place_ok t c p (Some s).
Proof.
  intros (ph & st & [Hp Hs Hd Hds Ho Hr]). pose proof (perm_lookup _ _ _ _ Hs) as Hl.
  assert (Hin : t ∈ dom C) by (apply Hds, elem_of_dom; eauto). pose proof Hin as [c Hc]%elem_of_dom.
  rewrite <- Hd in Hin. apply elem_of_dom in Hin as [p Hpl]. exists c, p. split; [done|]. rewrite <- Hl. by apply Ho.
Qed.

Lemma coherent_phase_same t p p' P S C R : (p = PAnswered -> p' = PAnswered) -> (forall c s, place_ok t c p s -> place_ok t c p' s) ->
  coherent ((t, p) :: P) S C R -> coherent ((t, p') :: P) S C R.
Proof.
  intros Ha Hok Hc. destruct (coherent_phase_ctx _ _ _ _ _ _ Hc) as (c & s & Hl & _).
  rewrite <- (insert_id C t c Hl). eapply coherent_phase; [exact Hl|exact Ha|intros s'; apply Hok|exact Hc].
Qed.

Lemma coherent_stage_same t s s' P S C R :
  (forall c p, C !! t = Some c -> (t, p) ∈ P -> (forall p', (t, p') ∈ P -> p' = p) -> (t ∈ R -> p = PAnswered) ->
     place_ok t c p (Some s) -> place_ok t c p s') ->
  coherent P ((t, s) :: S) C R -> coherent P (option_list (pair t <$> s') ++ S) C R.
Proof.
  intros Hok Hc. destruct (coherent_stage_ctx _ _ _ _ _ _ Hc) as (c & p & Hl & _).
  rewrite <- (insert_id C t c Hl). eapply coherent_stage; [exact Hl|intros p'; by apply Hok|exact Hc].
Qed.

(** Several queued requests move at once. *)
Lemma coherent_unqueue (es : list LockWaitEntry) (f : LockWaitEntry -> Place) P S C R :
  Forall (fun e => forall c s, place_ok (le_lock_wait_token e) c (PQueued e) s -> place_ok (le_lock_wait_token e) c (f e) s) es ->
  coherent ((queued_phase <$> es) ++ P) S C R -> coherent (((fun e => (le_lock_wait_token e, f e)) <$> es) ++ P) S C R.
Proof.
  intros Hf. revert P. induction Hf as [|e es He Hes IH]; intros P Hc; [done|]. cbn in *.
  apply (coherent_phase_same _ (PQueued e) (f e)) in Hc; [|done|done].
  rewrite Permutation_middle in Hc |- *. by apply IH.
Qed.

Ltac place_solve := unfold place_ok, stage_ok, at_place_ok, hopeful, removable, result_ok, request_ok in *; cbn in *; intros; destruct_and?; simplify_eq/=; destruct_and?; first [congruence | done | intuition congruence | naive_solver].

Section Invariant.
Context {Q : Type} `{KeyedPriorityQueueLaws Q}.
Variable shard : Key -> Z.
Implicit Types (sh : WaitShared Q) (ths : list Thread).

Definition answered_phase (a : Z * ProcessResult) : Z * Place := (a.1, PAnswered).
Definition rest_phases sh : list (Z * Place) := (queued_phase <$> waiting (sh_queues sh)) ++ (answered_phase <$> sh_answers sh).
Definition phases sh ths : list (Z * Place) := (ths ≫= thread_phase) ++ rest_phases sh.
Definition stages ths : list (Z * Stage) := ths ≫= thread_stage.

Definition places_inv sh ths : Prop := wf_queues (sh_queues sh) /\ coherent (phases sh ths) (stages ths) (sh_ctxs sh) (sh_removed sh).
Definition turn_inv (o : Outcome) ths : Prop :=
  match o with Blocked => True | Panicked => False | Turned sh new => places_inv sh (new ++ ths) end.

Lemma turn_push_ok sh ths first e l : places_inv sh (TPush first e l :: ths) -> turn_inv (turn_push sh first e l) ths.
Proof.
  intros [Hwf Hc]. unfold turn_push, on_ctx. change (phases sh _) with ((le_lock_wait_token e, PPush first e) :: phases sh ths) in Hc.
  destruct (coherent_phase_ctx _ _ _ _ _ _ Hc) as (c & s & Hl & Hok). rewrite Hl. destruct (cx_is_canceled c) eqn:Hcan.
  - assert (Hrx : cx_rx c = true) by (destruct first; place_solve).
    unfold take_receiver. rewrite Hrx. split; [done|]. cbn -[phases]. destruct first; [exfalso; place_solve|].
    eapply (coherent_phase _ _ (PRecv e)) in Hc; [exact Hc|done|done|]. intros s'. destruct s' as [[]|]; place_solve.
  - split; [done|]. eapply (coherent_phase _ _ (PInsert first e)) in Hc; [|exact Hl|done|].
    + rewrite insert_id in Hc by done. by destruct first.
    + intros s'. destruct first, s' as [[]|]; place_solve.
Qed.

Lemma turn_insert_ok sh ths first e l : places_inv sh (TInsert first e l :: ths) -> turn_inv (turn_insert sh first e l) ths.
Proof.
  intros [Hwf Hc]. unfold turn_insert, turn_inv. change (phases sh _) with ((le_lock_wait_token e, PInsert first e) :: phases sh ths) in Hc.
  assert (Hfresh : forall e', e' ∈ waiting (sh_queues sh) -> le_lock_wait_token e' <> le_lock_wait_token e).
  { intros e' Hin Ht. destruct Hc as (ph & st & [Hp _ _ _ _ _]).
    pose proof (perm_lookup _ _ _ _ Hp) as Hl. apply perm_delete in Hp.
    assert (He : queued_phase e' ∈ map_to_list (delete (le_lock_wait_token e) ph)).
    { rewrite <- Hp. unfold phases, rest_phases. rewrite !elem_of_app. right. left. by apply list_elem_of_fmap_2. }
    apply elem_of_map_to_list in He. rewrite Ht, lookup_delete_eq in He. done. }
  destruct (push_entry_spec _ e l Hwf Hfresh) as (Hwf' & i & Hw). split; [done|].
  assert (Hp : forall new, new ≫= thread_phase = [] -> phases (with_queues sh (push_entry (sh_queues sh) e l)) (new ++ ths)
                 ≡ₚ queued_phase (set_wake_up_index e i) :: phases sh ths).
  { intros new Hnew. unfold phases, rest_phases. cbn [sh_queues with_queues sh_answers]. rewrite bind_app, Hnew, Hw. cbn. solve_Permutation. }
  destruct first; rewrite Hp by done.
  - eapply (coherent_both _ _ (PQueued (set_wake_up_index e i)) _ StRegister) in Hc; [exact Hc|done|]. place_solve.
  - eapply (coherent_phase_same _ _ (PQueued (set_wake_up_index e i))) in Hc; [exact Hc|done|]. place_solve.
Qed.

Lemma turn_register_ok sh ths t : places_inv sh (TRegister t :: ths) -> places_inv sh (TWaiter t :: ths).
Proof.
  intros [Hwf Hc]. split; [done|]. eapply (coherent_stage_same _ _ (Some StWaiter)) in Hc; [exact Hc|].
  intros c p _ _ _ _. destruct p as [[]|[]|?|?|?|?|]; place_solve.
Qed.

Lemma turn_waiter_ok ch sh ths t : places_inv sh (TWaiter t :: ths) -> turn_inv (turn_waiter ch sh t) ths.
Proof.
  intros [Hwf Hc]. unfold turn_waiter. destruct (ch_drop ch && _) eqn:Hd; (split; [done|]).
  - apply andb_true_iff in Hd as [_ Hin%bool_decide_eq_true]. eapply (coherent_stage_same _ _ None) in Hc; [exact Hc|].
    intros c p _ _ _ Hr. rewrite (Hr Hin). place_solve.
  - eapply (coherent_stage_same _ _ (Some StCancel)) in Hc; [exact Hc|].
    intros c p _ _ _ _. destruct p as [[]|[]|?|?|?|?|]; place_solve.
Qed.

Lemma turn_cancel_ok sh ths t err : places_inv sh (TCancel t err :: ths) -> turn_inv (turn_cancel sh t err) ths.
Proof.
  intros [Hwf Hc]. unfold turn_cancel, on_ctx. destruct (coherent_stage_ctx _ _ _ _ _ _ Hc) as (c & p & Hl & _). rewrite Hl.
  split; [done|]. eapply (coherent_stage _ _ (Some StRemove)) in Hc; [exact Hc|exact Hl|].
  intros p' _ _ _. destruct p' as [[]|[]|?|?|?|?|]; place_solve.
Qed.

Lemma turn_cancel_put_ok sh ths t err : places_inv sh (TCancelPut t err :: ths) -> turn_inv (turn_cancel_put sh t err) ths.
Proof.
  intros [Hwf Hc]. unfold turn_cancel_put, on_ctx. destruct (coherent_stage_ctx _ _ _ _ _ _ Hc) as (c & p & Hl & Hok). rewrite Hl.
  unfold put_external_error. replace (cx_tx c) with true by (symmetry; place_solve).
  split; [done|]. eapply (coherent_stage _ _ None) in Hc; [exact Hc|exact Hl|].
  intros p' _ _ _. destruct p' as [[]|[]|?|?|?|?|]; place_solve.
Qed.

Lemma phases_in sh ths t p : (t, p) ∈ phases sh ths ->
  match p with
  | PQueued e => e ∈ waiting (sh_queues sh)
  | PInsert _ e | PRecv e => shard (le_key e) ∈ held shard ths
  | _ => True
  end.
Proof.
  unfold phases, rest_phases. rewrite !elem_of_app, !list_elem_of_fmap.
  intros [(th & Hth & Hin)%list_elem_of_bind|[(e & [= -> ->] & Hin)|(a & [= -> ->] & Hin)]]; [|done|done].
  assert (Hheld : forall x, x ∈ thread_shard shard th -> x ∈ held shard ths) by (intros x Hx; apply list_elem_of_bind; eauto).
  destruct th; cbn in Hth; apply list_elem_of_singleton in Hth || apply elem_of_nil in Hth; simplify_eq; try done; apply Hheld; by left.
Qed.

Lemma turn_cancel_remove_ok sh ths t err : places_inv sh (TCancelRemove t err :: ths) ->
  turn_inv (turn_cancel_remove shard (held shard ths) sh t err) ths.
Proof.
  intros [Hwf Hc]. unfold turn_cancel_remove, on_ctx, needs.
  change (phases sh _) with (phases sh ths) in Hc. change (stages _) with ((t, StRemove) :: stages ths) in Hc.
  destruct (coherent_stage_ctx _ _ _ _ _ _ Hc) as (c & p & Hl & _). rewrite Hl.
  case_bool_decide as Hfree; [done|]. destruct (remove_by_token _ _ _) as [r wq] eqn:Hr.
  destruct (remove_by_token_spec _ _ _ _ _ Hwf Hr) as (Hwf' & Hw & Hspec). split; [done|].
  assert (Hp : phases sh ths ≡ₚ (queued_phase <$> option_list r) ++ phases (with_queues sh wq) ths).
  { unfold phases, rest_phases. rewrite Hw, fmap_app. cbn. solve_Permutation. }
  destruct r as [e|]; cbn [option_list] in *.
  - destruct Hspec as [Hkey <-]. rewrite Hp in Hc. eapply (coherent_phase_same _ _ (PCallback (KRFailed err))) in Hc; [|done|place_solve].
    eapply (coherent_stage_same _ _ None) in Hc; [exact Hc|].
    intros c' p' _ _ Hu _. rewrite <- (Hu (PCallback (KRFailed err)) ltac:(by left)). place_solve.
  - eapply (coherent_stage_same _ _ (Some StPut)) in Hc; [rewrite Hp in Hc; exact Hc|].
    intros c' p' Hl' Hin _ _ Hok. simplify_eq. apply phases_in in Hin.
    destruct p' as [[]|[] e|?|e|?|?|]; try place_solve.
Qed.

Lemma turn_recv_ok sh ths e : places_inv sh (TRecv e :: ths) -> turn_inv (turn_recv sh e) ths.
Proof.
  intros [Hwf Hc]. unfold turn_recv, on_ctx. change (phases sh _) with ((le_lock_wait_token e, PRecv e) :: phases sh ths) in Hc.
  destruct (coherent_phase_ctx _ _ _ _ _ _ Hc) as (c & s & Hl & Hok). rewrite Hl. unfold recv.
  destruct (cx_channel c) as [err|] eqn:Hch.
  - assert (Hcb : le_key_cb e = Some (le_lock_wait_token e)) by place_solve. unfold with_cb. rewrite Hcb.
    split; [done|]. eapply (coherent_phase_same _ _ (PCallback _)) in Hc; [exact Hc|done|]. intros c' s'. destruct s' as [[]|]; place_solve.
  - destruct (cx_tx c) eqn:Htx; [done|]. destruct s as [[]|]; place_solve.
Qed.

Lemma finish_request_ok c r : cx_inner c = true -> result_ok c r -> exists pr, finish_request c r = Some (pr, ctx_take_inner c).
Proof.
  intros Hi [Hw Hf]. unfold finish_request. rewrite Hi. cbn [negb]. destruct (cx_allow_lock_with_conflict c); cbn [negb].
  - destruct r; [eauto|done|eauto].
  - destruct (Hf eq_refl) as [err ->]. eauto.
Qed.

Lemma turn_callback_ok sh ths t r k : places_inv sh (TCallback t r k :: ths) -> turn_inv (turn_callback sh t r k) ths.
Proof.
  intros [Hwf Hc]. unfold turn_callback, on_ctx. change (phases sh _) with ((t, PCallback r) :: phases sh ths) in Hc.
  destruct (coherent_phase_ctx _ _ _ _ _ _ Hc) as (c & s & Hl & Hok). rewrite Hl.
  destruct (finish_request_ok c r) as [pr ->]; [place_solve|place_solve|]. split; [done|].
  eapply (coherent_phase _ _ PAnswered _ _ _ _ _ (ctx_take_inner c)) in Hc; [|exact Hl|done|].
  2:{ intros s'. place_solve. }
  set (sh' := mk_shared _ _ _ _). assert (Hp : phases sh' ([] ++ ths) ≡ₚ (t, PAnswered) :: phases sh ths).
  { unfold phases, rest_phases. cbn. solve_Permutation. }
  rewrite Hp. destruct k; cbn; [by apply coherent_remove|done|done].
Qed.

Lemma turn_resumed_ok ch sh ths e : places_inv sh (TResumed e :: ths) -> turn_inv (turn_resumed ch sh e) ths.
Proof.
  intros [Hwf Hc]. unfold turn_resumed. change (phases sh _) with ((le_lock_wait_token e, PResumed e) :: phases sh ths) in Hc.
  assert (Hcb : le_key_cb e = Some (le_lock_wait_token e)) by (destruct (coherent_phase_ctx _ _ _ _ _ _ Hc) as (c & s & _ & Hok); place_solve).
  unfold with_cb. rewrite Hcb. destruct (ch_resumed ch); (split; [done|]).
  - eapply (coherent_phase_same _ _ (PPush false _)) in Hc; [exact Hc|done|]. place_solve.
  - eapply (coherent_phase_same _ _ (PPush false _)) in Hc; [exact Hc|done|]. place_solve.
  - eapply (coherent_phase_same _ _ (PCallback _)) in Hc; [exact Hc|done|]. intros c' s'. destruct s' as [[]|]; place_solve.
  - eapply (coherent_phase_same _ _ (PCallback _)) in Hc; [exact Hc|done|]. intros c' s'. destruct s' as [[]|]; place_solve.
Qed.

(** A request in a queue has a key that was made from a raw one, and its
    callback. *)
Definition answerable (e : LockWaitEntry) : Prop := valid_key (le_key e) /\ le_key_cb e = Some (le_lock_wait_token e).

Lemma queued_valid P S C R (es : list LockWaitEntry) e : coherent ((queued_phase <$> es) ++ P) S C R -> e ∈ es -> answerable e.
Proof.
  intros Hc [l1 [l2 ->]]%list_elem_of_split. rewrite <- Permutation_middle in Hc.
  apply coherent_phase_ctx in Hc as (c & s & _ & Hok). split; place_solve.
Qed.

Lemma retry_ok e key cs cc : valid_key key -> exists err, pessimistic_retry e key cs cc = Some err.
Proof. intros [raw Hraw]. unfold pessimistic_retry. rewrite Hraw. eauto. Qed.

Lemma turn_release_ok ch sh ths r rs : places_inv sh (TRelease (r :: rs) :: ths) -> turn_inv (turn_release ch sh r rs) ths.
Proof.
  intros [Hwf Hc]. unfold turn_release. destruct (pop_for_waking_up _ _ _ _ _ _) as [x wq] eqn:Hpop.
  destruct (pop_for_waking_up_spec _ _ _ _ _ _ _ _ Hwf Hpop) as [Hwf' Hspec]. destruct x as [[e future]|].
  2:{ destruct Hspec as [-> _]. split; done. }
  destruct Hspec as (Hw & Hkey & _).
  assert (Hp : phases sh (TRelease (r :: rs) :: ths) ≡ₚ (queued_phase <$> [e]) ++ phases (with_queues sh wq) ths).
  { unfold phases, rest_phases. rewrite Hw. cbn. solve_Permutation. }
  rewrite Hp in Hc. set (rest := TRelease rs :: _).
  assert (Hrest : rest ≫= thread_phase = [] /\ rest ≫= thread_stage = []) by (subst rest; by destruct future).
  destruct Hrest as [Hr1 Hr2].
  assert (Hfin : forall th, thread_stage th = [] -> coherent (thread_phase th ++ phases (with_queues sh wq) ths) (stages ths) (sh_ctxs sh) (sh_removed sh) ->
            places_inv (with_queues sh wq) ((th :: rest) ++ ths)).
  { intros th Hth Hco. split; [done|]. unfold phases, stages in *. cbn [mbind list_bind app]. rewrite !bind_app, Hr1, Hr2, Hth, <- app_assoc in *.
    exact Hco. }
  destruct (allows_conflict e) eqn:Ha.
  - apply Hfin; [done|]. eapply (coherent_phase_same _ _ (PResumed e)) in Hc; [exact Hc|done|].
    intros c s. destruct s as [[]|]; place_solve.
  - assert (Hv : answerable e) by (eapply queued_valid; [exact Hc|by left]). destruct Hv as [Hv Hcb]. rewrite Hkey in Hv.
    unfold with_cb. rewrite Hcb.
    destruct (retry_ok e (rl_key r) (rl_start_ts r) (rl_commit_ts r) Hv) as [err ->]. apply Hfin; [done|].
    eapply (coherent_phase_same _ _ (PCallback _)) in Hc; [exact Hc|done|]. place_solve.
Qed.

Lemma retry_all_ok cs cc es : Forall answerable es ->
  exists f ths, retry_all es cs cc = Some ths /\ ths ≫= thread_stage = [] /\
    ths ≫= thread_phase = (fun e => (le_lock_wait_token e, PCallback (KRFailed (f e)))) <$> es.
Proof.
  intros Hv. exists (fun e => default (SEOther 0) (pessimistic_retry e (le_key e) cs cc)).
  induction Hv as [|e es [He Hcb] Hes (ths & IH & Hs & Hp)]; [by exists []|]. cbn [retry_all]. rewrite Hcb.
  destruct (retry_ok e (le_key e) cs cc He) as [err Herr]. rewrite Herr, IH. eexists. split; [done|]. cbn. rewrite Hs, Hp, Herr. done.
Qed.

Lemma resumed_phases es : map TResumed es ≫= thread_phase = (fun e => (le_lock_wait_token e, PResumed e)) <$> es.
Proof. induction es as [|e es IH]; [done|]. cbn. by rewrite <- IH. Qed.

Lemma resumed_stages es : map TResumed es ≫= thread_stage = [].
Proof. by induction es. Qed.

Lemma turn_notify_due_ok sh ths key id : places_inv sh (TNotifyDue key id :: ths) -> turn_inv (turn_notify_due sh key id) ths.
Proof.
  intros [Hwf Hc]. unfold turn_notify_due. destruct (delayed_notify_all _ _ _) as [n wq] eqn:Hn.
  destruct (delayed_notify_all_spec _ _ _ _ _ Hwf Hn) as (Hwf' & Hw & Hpo & Hwo).
  assert (Hp : phases sh (TNotifyDue key id :: ths) ≡ₚ
            (queued_phase <$> no_popped n) ++ (queued_phase <$> option_list (no_woken n)) ++ phases (with_queues sh wq) ths).
  { unfold phases, rest_phases. rewrite Hw, !fmap_app. cbn. solve_Permutation. }
  rewrite Hp in Hc.
  assert (Hv : Forall answerable (no_popped n)) by (apply Forall_forall; intros e; by eapply queued_valid).
  destruct (retry_all_ok (no_start_ts n) (no_commit_ts n) _ Hv) as (f & new & -> & Hs & Hph). split; [done|].
  apply (coherent_unqueue _ (fun e => PCallback (KRFailed (f e)))) in Hc; [|apply Forall_forall; intros e _; place_solve].
  rewrite Permutation_app_swap_app in Hc. apply (coherent_unqueue _ PResumed) in Hc.
  2:{ eapply Forall_impl; [exact Hwo|]. intros e [Ha _] c s. destruct s as [[]|]; place_solve. }
  rewrite Permutation_app_swap_app in Hc. unfold phases, stages in *.
  rewrite !bind_app, Hph, Hs, resumed_phases, resumed_stages, <- !app_assoc. exact Hc.
Qed.

Lemma turn_update_ok sh ths i infos : places_inv sh (TUpdate (i :: infos) :: ths) ->
  places_inv (with_queues sh (update_lock_wait (sh_queues sh) [i]).2) (TUpdate infos :: ths).
Proof.
  intros [Hwf Hc]. destruct (update_lock_wait (sh_queues sh) [i]) as [ev wq] eqn:Hu.
  destruct (update_lock_wait_spec _ _ _ _ Hwf Hu) as [Hwf' Hw]. split; [done|].
  unfold phases, rest_phases in *. cbn [sh_queues with_queues sh_answers snd] in *. by rewrite Hw.
Qed.

(** ** Delays *)

(** A task that waits has a delay. *)
Definition tasks_have_delays sh ths : Prop := forall k id st pv, TNotify k id st pv ∈ ths -> is_Some (wq_delays (sh_queues sh) !! id).
Definition delays_kept (wq wq' : LockWaitQueues Q) : Prop := forall id : Z, is_Some (wq_delays wq !! id) -> is_Some (wq_delays wq' !! id).

Lemma handle_delayed_delays (wq : LockWaitQueues Q) ks now d id ks' wq' : handle_delayed_wake_up wq ks now d = (id, ks', wq') ->
  delays_kept wq wq' /\ forall x, id = Some x -> is_Some (wq_delays wq' !! x).
Proof.
  unfold handle_delayed_wake_up, delays_kept. destruct (ks_delayed_notify_all ks) as [[? ?]|]; intros [= <- <- <-]; cbn; split.
  - intros x Hx. by apply lookup_insert_is_Some'; right.
  - done.
  - intros x Hx. by apply lookup_insert_is_Some'; right.
  - intros x [= <-]. rewrite lookup_insert_eq. eauto.
Qed.

Lemma pop_for_waking_up_delays (wq : LockWaitQueues Q) key cs cc now d r wq' : pop_for_waking_up wq key cs cc now d = (r, wq') ->
  delays_kept wq wq' /\ forall e x, r = Some (e, Some x) -> is_Some (wq_delays wq' !! x).
Proof.
  unfold pop_for_waking_up, delays_kept. destruct (_ !! key) as [ks|]; [|by intros [= <- <-]].
  cbn [ks_queue]. destruct (kpq_pop _) as [[[t e] q]|]; [|intros [= <- <-]; cbn; naive_solver].
  destruct (allows_conflict e); cbn [negb]; [intros [= <- <-]; cbn; naive_solver|].
  destruct (kpq_is_empty q); [intros [= <- <-]; cbn; naive_solver|].
  destruct (handle_delayed_wake_up _ _ _ _) as [[id ks1] wq1] eqn:Hh. intros [= <- <-].
  apply handle_delayed_delays in Hh as [Hk Hi]. split; [exact Hk|]. intros e' x [= _ ->]. by apply Hi.
Qed.

Lemma delayed_notify_all_delays (wq : LockWaitQueues Q) key id : wq_delays (delayed_notify_all wq key id).2 = wq_delays wq.
Proof.
  unfold delayed_notify_all. destruct (_ !! key) as [ks|]; [|done]. destruct (ks_delayed_notify_all ks) as [[? ?]|]; [|done].
  destruct (_ =? _); [|done]. by destruct (pop_woken _ _ _) as [[? ?] ?].
Qed.

Lemma remove_by_token_delays (wq : LockWaitQueues Q) key t : wq_delays (remove_by_token wq key t).2 = wq_delays wq.
Proof. unfold remove_by_token. destruct (_ !! key) as [ks|]; [|done]. by destruct (kpq_remove _ _). Qed.

Lemma update_lock_wait_delays infos : forall wq : LockWaitQueues Q, wq_delays (update_lock_wait wq infos).2 = wq_delays wq.
Proof.
  induction infos as [|i infos IH]; intros wq; cbn [update_lock_wait]; [done|]. destruct (_ !! _) as [ks|]; [|apply IH].
  specialize (IH (mk_queues (<[key_from_raw (info_key i) := mk_key_state i (ks_legacy_wake_up_index ks) (ks_queue ks) (ks_last_conflict_start_ts ks)
                      (ks_last_conflict_commit_ts ks) (ks_delayed_notify_all ks)]> (wq_queue_map wq)) (wq_id_allocated wq) (wq_entries_count wq) (wq_delays wq))).
  by destruct (update_lock_wait _ infos) as [ev wq2].
Qed.

(** ** Every step keeps the invariant *)

Definition wait_inv (s : system Q) : Prop := places_inv s.1 s.2 /\ tasks_have_delays s.1 s.2.

Lemma turn_ok ch sh th ths : places_inv sh (th :: ths) -> tasks_have_delays sh (th :: ths) ->
  turn_inv (thread_turn shard (held shard ths) ch sh th) ths.
Proof.
  intros Hc Hd. destruct th as [f e l|f e l|t|t|t err|t err|t err|e|t r k|e|[|r rs]|key id st pv|key id|[|i infos]]; cbn [thread_turn].
  - unfold needs. case_bool_decide; [done|by eapply turn_push_ok].
  - by apply turn_insert_ok.
  - by apply turn_register_ok.
  - by apply turn_waiter_ok.
  - by apply turn_cancel_ok.
  - by apply turn_cancel_remove_ok.
  - by apply turn_cancel_put_ok.
  - by apply turn_recv_ok.
  - by apply turn_callback_ok.
  - by apply turn_resumed_ok.
  - exact Hc.
  - unfold needs. case_bool_decide; [done|by eapply turn_release_ok].
  - unfold turn_notify. destruct (Hd key id st pv) as [d ->]; [by left|]. destruct (delay_turn _ _ _ _); exact Hc.
  - unfold needs. case_bool_decide; [done|by apply turn_notify_due_ok].
  - exact Hc.
  - unfold needs. case_bool_decide; [done|by apply turn_update_ok].
Qed.

(** What a turn does to the tasks that wait. *)
Definition delays_turn sh sh' (th : Thread) (new : list Thread) : Prop :=
  delays_kept (sh_queues sh) (sh_queues sh') /\
  forall k id st pv, TNotify k id st pv ∈ new -> is_Some (wq_delays (sh_queues sh') !! id) \/ exists st' pv', th = TNotify k id st' pv'.

Lemma delays_turn_same sh sh' th new : wq_delays (sh_queues sh') = wq_delays (sh_queues sh) -> Forall (fun x => match x with TNotify _ _ _ _ => False | _ => True end) new ->
  delays_turn sh sh' th new.
Proof. intros Hd Hf. split; [intros id; by rewrite Hd|]. intros k id st pv Hin. rewrite Forall_forall in Hf. by apply Hf in Hin. Qed.

Lemma retry_all_no_task cs cc es : forall ths, retry_all es cs cc = Some ths -> Forall (fun x => match x with TNotify _ _ _ _ => False | _ => True end) ths.
Proof.
  induction es as [|e es IH]; intros ths; cbn [retry_all]; [intros [= <-]; constructor|].
  destruct (le_key_cb e); [|done]. destruct (pessimistic_retry _ _ _ _); [|done]. destruct (retry_all es cs cc); [|done]. intros [= <-]. constructor; [done|by apply IH].
Qed.

Lemma turn_delays ch sh th locked sh' new : thread_turn shard locked ch sh th = Turned sh' new -> delays_turn sh sh' th new.
Proof.
  destruct th as [f e l|f e l|t|t|t err|t err|t err|e|t r k|e|[|r rs]|key id st pv|key id|[|i infos]]; cbn [thread_turn];
    unfold needs, turn_push, turn_insert, turn_waiter, turn_cancel, turn_cancel_remove, turn_cancel_put, turn_recv, turn_callback, turn_resumed,
      on_ctx, with_cb, needs; intros Ht;
    try (repeat case_match; simplify_eq/=; (apply delays_turn_same; [done|by repeat constructor])).
  - (* a cancelled request is removed *)
    destruct (_ !! t) as [c|]; [|done]. case_bool_decide; [done|]. destruct (remove_by_token _ _ _) as [x wq] eqn:Hr.
    pose proof (remove_by_token_delays (sh_queues sh) (cx_key c) t) as Hd. rewrite Hr in Hd. simplify_eq.
    apply delays_turn_same; [done|]. destruct x; by repeat constructor.
  - (* a lock is released *)
    case_bool_decide; [done|]. unfold turn_release, with_cb in Ht. destruct (pop_for_waking_up _ _ _ _ _ _) as [x wq] eqn:Hp.
    apply pop_for_waking_up_delays in Hp as [Hk Hi]. split; [repeat case_match; by simplify_eq|].
    intros k id st pv Hin. left. destruct x as [[e [x|]]|]; repeat case_match; simplify_eq;
      rewrite ?elem_of_cons, ?elem_of_nil in Hin; destruct_or?; simplify_eq; cbn; by eapply Hi.
  - (* a task waits *)
    unfold turn_notify in Ht. destruct (_ !! id); [|done]. destruct (delay_turn _ _ _ _); simplify_eq; (split; [by intros x|]);
      intros k i s' p' Hin; rewrite ?elem_of_cons, ?elem_of_nil in Hin; destruct_or?; simplify_eq; eauto.
  - (* a task is due *)
    case_bool_decide; [done|]. unfold turn_notify_due in Ht. pose proof (delayed_notify_all_delays (sh_queues sh) key id) as Hd.
    destruct (delayed_notify_all _ _ _) as [n wq]. destruct (retry_all _ _ _) as [ths|] eqn:Hr; [|done]. simplify_eq.
    apply delays_turn_same; [done|]. apply Forall_app. split; [by eapply retry_all_no_task|]. destruct (no_woken n); by repeat constructor.
  - (* a key has a new lock *)
    case_bool_decide; [done|]. simplify_eq. apply delays_turn_same; [apply (update_lock_wait_delays [i])|]. by repeat constructor.
Qed.

Lemma places_inv_perm sh ths ths' : ths ≡ₚ ths' -> places_inv sh ths -> places_inv sh ths'.
Proof. intros Hp [Hwf Hc]. split; [done|]. unfold phases, stages in *. by rewrite <- Hp. Qed.

Lemma wait_inv_new : wait_inv system_new.
Proof.
  split; [split; [split|]|].
  - done.
  - done.
  - exists ∅, ∅. by constructor.
  - intros k id st pv Hin. by apply elem_of_nil in Hin.
Qed.

Lemma wait_step_inv s s' : wait_step shard s s' -> wait_inv s -> wait_inv s'.
Proof.
  intros Hs. destruct Hs as [sh l1 th l2 ch sh' new Ht|sh ths e l (Hn & _ & Hv)|sh ths rs|sh ths infos]; intros [Hc Hd]; cbn [fst snd] in *.
  - assert (Hp : l1 ++ th :: l2 ≡ₚ th :: l1 ++ l2) by solve_Permutation. apply (places_inv_perm _ _ _ Hp) in Hc.
    assert (Hd' : tasks_have_delays sh (th :: l1 ++ l2)) by (intros k id st pv; rewrite <- Hp; apply Hd).
    pose proof (turn_ok ch _ _ _ Hc Hd') as Hok. rewrite Ht in Hok. split; [exact Hok|].
    apply turn_delays in Ht as [Hk Hnew]. intros k id st pv [Hin|Hin]%elem_of_app; cbn.
    + destruct (Hnew _ _ _ _ Hin) as [?|(st' & pv' & ->)]; [done|]. apply Hk. eapply Hd'. by left.
    + apply Hk. eapply Hd'. by right.
  - split.
    + destruct Hc as [Hwf Hc]. split; [done|]. apply (coherent_new (le_lock_wait_token e) (PPush true e) StFirst (ctx_new (le_key e) (allows_conflict e))) in Hc;
        [exact Hc|done|place_solve].
    + intros k id st pv [?|Hin]%elem_of_cons; [done|]. by eapply Hd.
  - split; [exact Hc|]. intros k id st pv [?|Hin]%elem_of_cons; [done|]. by eapply Hd.
  - split; [exact Hc|]. intros k id st pv [?|Hin]%elem_of_cons; [done|]. by eapply Hd.
Qed.

Lemma wait_reachable_inv s : wait_reachable shard s -> wait_inv s.
Proof. intros Hr. eapply (rtc_ind_r wait_inv); [apply wait_inv_new| |exact Hr]. intros y z _ Hs Hi. by eapply wait_step_inv. Qed.

(** ** No request is lost *)

(** The thread has the cancellation callback of a request, or runs it and has
    not looked for the request in the queue. *)
Definition can_cancel (t : Z) (th : Thread) : bool :=
  match th with TRegister t' | TWaiter t' | TCancel t' _ | TCancelRemove t' _ => t' =? t | _ => false end.

Lemma stage_thread ths t s : (t, s) ∈ stages ths -> exists th, th ∈ ths /\ (t, s) ∈ thread_stage th.
Proof. intros (th & Hs & Hin)%list_elem_of_bind. eauto. Qed.

Lemma perm_dom {A} (m : gmap Z A) l : l ≡ₚ map_to_list m -> l.*1 ≡ₚ elements (dom m).
Proof.
  intros ->. apply NoDup_Permutation; [apply NoDup_fst_map_to_list|apply NoDup_elements|]. intros t.
  rewrite elem_of_elements, elem_of_dom, list_elem_of_fmap. split.
  - intros [[t' x] [-> Hin%elem_of_map_to_list]]. eauto.
  - intros [x Hx]. exists (t, x). split; [done|]. by apply elem_of_map_to_list.
Qed.

Lemma one_place s : wait_inv s ->
  (s.2 ≫= thread_phase).*1 ++ (le_lock_wait_token <$> waiting (sh_queues s.1)) ++ (sh_answers s.1).*1 ≡ₚ elements (dom (sh_ctxs s.1)).
Proof.
  intros [[_ (ph & st & [Hp _ Hd _ _ _])] _]. rewrite <- Hd, <- (perm_dom _ _ Hp). unfold phases, rest_phases.
  rewrite !fmap_app, <- !list_fmap_compose. done.
Qed.

Lemma queued_can_cancel s e : wait_inv s -> e ∈ waiting (sh_queues s.1) -> exists th, th ∈ s.2 /\ can_cancel (le_lock_wait_token e) th = true.
Proof.
  intros [[_ (ph & st & [Hp Hs Hd _ Ho _])] _] He. set (t := le_lock_wait_token e).
  assert (Hpt : ph !! t = Some (PQueued e)).
  { apply elem_of_map_to_list. rewrite <- Hp. unfold phases, rest_phases. rewrite !elem_of_app. right. left. by apply (list_elem_of_fmap_2 queued_phase). }
  assert (Hin : t ∈ dom (sh_ctxs s.1)) by (rewrite <- Hd; apply elem_of_dom; eauto). apply elem_of_dom in Hin as [c Hc].
  destruct (Ho _ _ _ Hc Hpt) as (_ & _ & _ & _ & Hrem). destruct (st !! t) as [sg|] eqn:Hst; [|done].
  apply elem_of_map_to_list in Hst. rewrite <- Hs in Hst. apply stage_thread in Hst as (th & Hth & Hsg). exists th. split; [done|].
  destruct th as [[] ? ?|[] ? ?|?|?|? ?|? ?|? ?|?|? ? ?|?|?|? ? ? ?|? ?|?]; cbn in Hsg |- *;
    apply list_elem_of_singleton in Hsg || apply elem_of_nil in Hsg; simplify_eq; try done; apply Z.eqb_refl.
Qed.

Lemma never_panics s ch l1 th l2 : wait_inv s -> s.2 = l1 ++ th :: l2 -> thread_turn shard (held shard (l1 ++ l2)) ch s.1 th <> Panicked.
Proof.
  destruct s as [sh ths]. cbn [fst snd]. intros [Hc Hd] ->. cbn [fst snd] in *. assert (Hp : l1 ++ th :: l2 ≡ₚ th :: l1 ++ l2) by solve_Permutation.
  apply (places_inv_perm _ _ _ Hp) in Hc.
  assert (Hd' : tasks_have_delays sh (th :: l1 ++ l2)) by (intros k id st pv; rewrite <- Hp; apply Hd).
  pose proof (turn_ok ch _ _ _ Hc Hd') as Hok. intros Hpan. by rewrite Hpan in Hok.
Qed.

(** C19: Every request that waits for a lock is in one place: with one thread,
    in one queue, or answered, and so it is answered at most once. One that is
    in a queue has a thread that can still cancel it. No [unwrap] or [assert]
    of the lock waiting code fails, and the count of entries is exact. *)
Theorem waiting_request_kept (s : system Q) : wait_reachable shard s ->
  (s.2 ≫= thread_phase).*1 ++ (le_lock_wait_token <$> waiting (sh_queues s.1)) ++ (sh_answers s.1).*1 ≡ₚ elements (dom (sh_ctxs s.1)) /\
  (forall e, e ∈ waiting (sh_queues s.1) -> exists th, th ∈ s.2 /\ can_cancel (le_lock_wait_token e) th = true) /\
  (forall ch l1 th l2, s.2 = l1 ++ th :: l2 -> thread_turn shard (held shard (l1 ++ l2)) ch s.1 th <> Panicked) /\
  entry_count (sh_queues s.1) = wrap64 (Z.of_nat (length (waiting (sh_queues s.1)))).
Proof.
  intros Hi%wait_reachable_inv. split; [by apply one_place|]. split; [intros e; by apply queued_can_cancel|].
  split; [intros ch l1 th l2; by apply never_panics|]. apply Hi.
Qed.
End Invariant.

(** ** A request that comes to wait *)

Definition conflict_waiter : LockWaitEntry := waiter key_k 1 10 true.
Definition waiting_state : system (gmap Z LockWaitEntry) := (new_request system_new.1 conflict_waiter, [TPush true conflict_waiter no_lock_info]).

Lemma waiting_state_reachable shard : wait_reachable shard waiting_state.
Proof.
  eapply rtc_l; [|constructor]. apply (ss_request shard _ _ conflict_waiter no_lock_info).
  split; [done|]. split; [done|]. split; [done|]. eexists. vm_compute. reflexivity.
Qed.

Lemma waiting_request_kept_witness :
  (waiting_state.2 ≫= thread_phase).*1 ++ (le_lock_wait_token <$> waiting (sh_queues waiting_state.1)) ++ (sh_answers waiting_state.1).*1
    ≡ₚ elements (dom (sh_ctxs waiting_state.1)).
Proof. apply (waiting_request_kept (fun _ => 0) waiting_state), waiting_state_reachable. Defined.
