(* ===== verification/LockWaitDeadlock.v ===== *)
(** * Progress of the requests that wait, and the one way to lose it

    [push_lock_wait] holds the shard of the key while it waits for the error of
    the canceller (src/storage/lock_manager/lock_waiting_queue.rs), and the
    canceller needs that shard before it gives the error
    (src/storage/lock_manager/lock_wait_context.rs). When the flag is set and
    the queue was not searched yet, both wait for ever. In every other state
    some thread can go on. *)
From S2P Require Import Prelude Number Bytes Timestamp Key Fields Lock Write OrderedMap PeerLocks Engine.
From S2P Require Import ConcurrencyManager Reader MvccTxn CheckTxnStatus Prewrite AcquirePessimisticLock LockWaiting LockWaitSystem.
Local Open Scope Z_scope.

Section Progress.
Context {Q : Type} `{KeyedPriorityQueueLaws Q}.
Variable shard : Key -> Z.
Implicit Types (sh : WaitShared Q) (ths : list Thread) (s : system Q).

(** A thread has a turn, whatever the rest of the program does. *)
Definition can_turn s : Prop :=
  exists l1 th l2, s.2 = l1 ++ th :: l2 /\ forall ch, exists sh' new, thread_turn shard (held shard (l1 ++ l2)) ch s.1 th = Turned sh' new.

(** The request waits for its error with its shard held, and its canceller
    has set the flag and waits for the shard. *)
Definition deadlocked (e : LockWaitEntry) (err : StorageError) s : Prop :=
  TRecv e ∈ s.2 /\ TCancelRemove (le_lock_wait_token e) err ∈ s.2 /\
  exists c, sh_ctxs s.1 !! le_lock_wait_token e = Some c /\ cx_channel c = None /\ cx_tx c = true /\ cx_key c = le_key e.

Lemma unblocked_turns s th : wait_inv s -> th ∈ s.2 ->
  (forall ch l1 l2, s.2 = l1 ++ th :: l2 -> thread_turn shard (held shard (l1 ++ l2)) ch s.1 th <> Blocked) -> can_turn s.
Proof.
  intros Hi [l1 [l2 Hs]]%list_elem_of_split Hb. exists l1, th, l2. split; [done|]. intros ch.
  pose proof (never_panics shard s ch l1 th l2 Hi Hs) as Hp. specialize (Hb ch l1 l2 Hs).
  destruct (thread_turn _ _ _ _ _); [done|done|eauto].
Qed.

(** Only the need of a shard and an empty channel block. *)
Lemma turn_blocked locked ch sh th : thread_turn shard locked ch sh th = Blocked ->
  locked <> [] \/ exists e c, th = TRecv e /\ sh_ctxs sh !! le_lock_wait_token e = Some c /\ cx_channel c = None.
Proof.
  assert (Hn : forall k (o : @Outcome Q), needs shard locked k o = Blocked -> locked <> [] \/ o = Blocked).
  { intros k o. unfold needs. case_bool_decide as Hin; [|by right]. intros _. left. by intros ->; apply elem_of_nil in Hin. }
  destruct th as [f e l|f e l|t|t|t err|t err|t err|e|t r k|e|[|r rs]|key id st pv|key id|[|i infos]]; cbn [thread_turn]; try done;
    unfold turn_waiter, turn_cancel, turn_cancel_remove, turn_cancel_put, turn_recv, turn_callback, turn_resumed, turn_notify, with_cb, on_ctx; intros Ht;
    try (repeat case_match; by simplify_eq).
  - apply Hn in Ht as [?|Ht]; [by left|]. unfold turn_push, on_ctx in Ht. repeat case_match; by simplify_eq.
  - destruct (_ !! t); [|done]. apply Hn in Ht as [?|Ht]; [by left|]. by destruct (remove_by_token _ _ _).
  - right. exists e. destruct (_ !! le_lock_wait_token e) as [c|]; [|done]. exists c. split; [done|]. split; [done|].
    unfold recv in Ht. destruct (cx_channel c); [by destruct (le_key_cb e)|done].
  - apply Hn in Ht as [?|Ht]; [by left|]. unfold turn_release, with_cb in Ht. repeat case_match; by simplify_eq.
  - apply Hn in Ht as [?|Ht]; [by left|]. unfold turn_notify_due in Ht. repeat case_match; by simplify_eq.
  - apply Hn in Ht as [?|Ht]; [by left|done].
Qed.

Lemma recv_has_canceller s e : wait_inv s -> TRecv e ∈ s.2 -> exists c, sh_ctxs s.1 !! le_lock_wait_token e = Some c /\ cx_key c = le_key e /\
  (cx_channel c = None -> cx_tx c = true /\
     ((exists err, TCancelRemove (le_lock_wait_token e) err ∈ s.2) \/ exists err, TCancelPut (le_lock_wait_token e) err ∈ s.2)).
Proof.
  intros [[_ (ph & st & [Hp Hs Hd _ Ho _])] _] He. set (t := le_lock_wait_token e).
  assert (Hpt : ph !! t = Some (PRecv e)).
  { apply elem_of_map_to_list. rewrite <- Hp. unfold phases. rewrite elem_of_app. left. apply list_elem_of_bind. exists (TRecv e). split; [by left|done]. }
  assert (Hin : t ∈ dom (sh_ctxs s.1)) by (rewrite <- Hd; apply elem_of_dom; eauto). apply elem_of_dom in Hin as [c Hc].
  destruct (Ho _ _ _ Hc Hpt) as (_ & Hst & (_ & Hk & _) & _ & Hor). exists c. split; [done|]. split; [done|]. intros Hch.
  assert (Hstage : forall sg, st !! t = Some sg -> exists th, th ∈ s.2 /\ (t, sg) ∈ thread_stage th).
  { intros sg Hsg. apply elem_of_map_to_list in Hsg. rewrite <- Hs in Hsg. by apply stage_thread in Hsg. }
  destruct Hor as [Hor|[Hor|Hor]]; [done| |]; rewrite Hor in Hst; (split; [apply Hst|]); destruct (Hstage _ Hor) as (th & Hth & Hsg);
    destruct th as [[] ? ?|[] ? ?|?|?|? ?|? ?|? ?|?|? ? ?|?|?|? ? ? ?|? ?|?]; cbn in Hsg;
    apply list_elem_of_singleton in Hsg || apply elem_of_nil in Hsg; simplify_eq; try done; [left|right]; by eexists.
Qed.

Lemma held_recv ths e : TRecv e ∈ ths -> shard (le_key e) ∈ held shard ths.
Proof. intros Hin. apply list_elem_of_bind. exists (TRecv e). split; [by left|done]. Qed.

Lemma held_empty ths : (forall f e l, TInsert f e l ∉ ths) -> (forall e, TRecv e ∉ ths) -> held shard ths = [].
Proof.
  intros Hi Hr. apply elem_of_nil_inv. intros x (th & Hx & Hin)%list_elem_of_bind.
  destruct th; cbn in Hx; try (by apply elem_of_nil in Hx); [by eapply Hi|by eapply Hr].
Qed.

Lemma not_in_middle (l1 l2 : list Thread) th x : x ∉ l1 ++ th :: l2 -> x ∉ l1 ++ l2.
Proof. rewrite !elem_of_app, elem_of_cons. tauto. Qed.

(** C21: In every reachable state with a thread some thread can go on, unless a
    cancelled request that is pushed again waits for an error that its
    canceller cannot give. *)
Theorem progress_or_deadlock s : wait_reachable shard s -> s.2 <> [] -> can_turn s \/ exists e err, deadlocked e err s.
Proof.
  intros Hi%wait_reachable_inv Hne.
  destruct (decide (Exists (fun th => match th with TInsert _ _ _ => true | _ => false end = true) s.2)) as [Hin|Hni].
  { left. apply Exists_exists in Hin as (th & Hin & Hth). apply (unblocked_turns s th Hi Hin). intros ch l1 l2 _. by destruct th. }
  assert (Hni' : forall f e l, TInsert f e l ∉ s.2) by (intros f e l Hin; apply Hni, Exists_exists; eauto).
  destruct (decide (Exists (fun th => match th with TRecv _ => true | _ => false end = true) s.2)) as [Hrc|Hnr].
  - apply Exists_exists in Hrc as (th & Hin & Hth). destruct th as [| | | | | | |e| | | | | |]; try done.
    destruct (recv_has_canceller s e Hi Hin) as (c & Hc & Hk & Hcan). destruct (cx_channel c) as [err|] eqn:Hch.
    + left. apply (unblocked_turns s (TRecv e) Hi Hin). intros ch l1 l2 _. cbn. unfold turn_recv, on_ctx, recv, with_cb. rewrite Hc, Hch. by destruct (le_key_cb e).
    + destruct (Hcan eq_refl) as [Htx [[err Herr]|[err Herr]]]; [right; exists e, err; split; [done|split; [done|]]; by exists c|].
      left. apply (unblocked_turns s _ Hi Herr). intros ch l1 l2 _. cbn. unfold turn_cancel_put, on_ctx. rewrite Hc.
      by destruct (put_external_error c err).
  - left. assert (Hnr' : forall e, TRecv e ∉ s.2) by (intros e Hin; apply Hnr, Exists_exists; eauto).
    destruct (s.2) as [|th ths] eqn:Hs; [done|]. rewrite <- Hs in Hni', Hnr'.
    apply (unblocked_turns s th Hi); [rewrite Hs; by left|]. intros ch l1 l2 Hs' Hb.
    apply turn_blocked in Hb as [Hb|(e & c & -> & _)]; [|by apply (Hnr' e); rewrite Hs; left].
    apply Hb, held_empty; [intros f e l|intros e]; eapply not_in_middle; rewrite <- Hs'; auto.
Qed.

End Progress.

Lemma progress_or_deadlock_witness : can_turn (fun _ => 0) waiting_state \/ exists e err, deadlocked e err waiting_state.
Proof. apply (progress_or_deadlock (fun _ => 0) waiting_state); [apply waiting_state_reachable|done]. Defined.

(** ** A deadlock is for ever *)

Section Forever.
Context {Q : Type} `{KeyedPriorityQueueLaws Q}.
Variable shard : Key -> Z.
Implicit Types (sh : WaitShared Q) (ths : list Thread) (s : system Q).

Lemma turn_keeps_ctx locked ch sh th sh' new t c : thread_turn shard locked ch sh th = Turned sh' new -> (forall err, th <> TCancelPut t err) ->
  sh_ctxs sh !! t = Some c ->
  exists c', sh_ctxs sh' !! t = Some c' /\ cx_channel c' = cx_channel c /\ cx_tx c' = cx_tx c /\ cx_key c' = cx_key c.
Proof.
  intros Ht Hth Hc.
  assert (Hins : forall t' c0 c1, sh_ctxs sh !! t' = Some c0 -> cx_channel c1 = cx_channel c0 -> cx_tx c1 = cx_tx c0 -> cx_key c1 = cx_key c0 ->
            exists c', <[t' := c1]> (sh_ctxs sh) !! t = Some c' /\ cx_channel c' = cx_channel c /\ cx_tx c' = cx_tx c /\ cx_key c' = cx_key c).
  { intros t' c0 c1 Hc0 H1 H2 H3. destruct (decide (t' = t)) as [->|Hn]; [rewrite lookup_insert_eq|rewrite lookup_insert_ne by done]; naive_solver. }
  destruct th as [f e l|f e l|t'|t'|t' err|t' err|t' err|e|t' r k|e|[|r rs]|key id st pv|key id|[|i infos]]; cbn [thread_turn] in Ht;
    unfold needs, turn_push, turn_insert, turn_waiter, turn_cancel, turn_cancel_remove, turn_cancel_put, turn_recv, turn_callback, turn_resumed, turn_release,
      turn_notify, turn_notify_due, with_cb, on_ctx, needs, take_receiver, put_external_error, finish_request in Ht;
    repeat case_match; simplify_eq; cbn [sh_ctxs with_queues with_ctx]; eauto; try (eapply Hins; by eauto).
  exists c. rewrite lookup_insert_ne; [done|]. intros ->. by eapply Hth.
Qed.

Lemma deadlock_blocked e err s l1 th l2 ch : deadlocked e err s -> s.2 = l1 ++ th :: l2 ->
  th = TRecv e \/ th = TCancelRemove (le_lock_wait_token e) err -> thread_turn shard (held shard (l1 ++ l2)) ch s.1 th = Blocked.
Proof.
  intros (Hr & _ & c & Hc & Hch & Htx & Hk) Hs [->| ->]; cbn.
  - unfold turn_recv, on_ctx, recv. by rewrite Hc, Hch, Htx.
  - unfold turn_cancel_remove, on_ctx, needs. rewrite Hc, Hk. rewrite bool_decide_true; [done|]. apply held_recv.
    rewrite Hs, elem_of_app, elem_of_cons in Hr. rewrite elem_of_app. destruct Hr as [?|[?|?]]; [by left|done|by right].
Qed.

Lemma one_canceller s t err err' : wait_inv s -> TCancelRemove t err ∈ s.2 -> TCancelPut t err' ∉ s.2.
Proof.
  intros [[_ (ph & st & [_ Hs _ _ _ _])] _] Hr Hp.
  assert (Hst : forall th sg, th ∈ s.2 -> (t, sg) ∈ thread_stage th -> st !! t = Some sg).
  { intros th sg Hin Hsg. apply elem_of_map_to_list. rewrite <- Hs. apply list_elem_of_bind. eauto. }
  pose proof (Hst _ StRemove Hr ltac:(by left)) as H1. pose proof (Hst _ StPut Hp ltac:(by left)) as H2. congruence.
Qed.

Lemma deadlock_step e err s s' : wait_inv s -> deadlocked e err s -> wait_step shard s s' -> deadlocked e err s'.
Proof.
  intros Hi Hdl Hs. pose proof Hdl as (Hr & Hcr & c & Hc & Hch & Htx & Hk).
  destruct Hs as [sh l1 th l2 ch sh' new Ht|sh ths e' l (Hn & _ & Hv)|sh ths rs|sh ths infos]; cbn [fst snd] in *.
  - assert (Hne : forall x, x = TRecv e \/ x = TCancelRemove (le_lock_wait_token e) err -> x ∈ l1 ++ th :: l2 -> x ∈ new ++ l1 ++ l2).
    { intros x Hx. rewrite !elem_of_app, elem_of_cons. intros [?|[->|?]]; [by right; left| |by right; right].
      pose proof (deadlock_blocked e err _ l1 th l2 ch Hdl eq_refl Hx) as Hb. cbn [fst] in Hb. by rewrite Hb in Ht. }
    split; [by apply Hne; [left|]|]. split; [by apply Hne; [right|]|].
    assert (Hput : forall err', th <> TCancelPut (le_lock_wait_token e) err').
    { intros err' ->. eapply (one_canceller _ _ _ err' Hi Hcr). cbn. rewrite elem_of_app. right. by left. }
    destruct (turn_keeps_ctx _ _ _ _ _ _ _ c Ht Hput Hc) as (c' & Hc' & H1 & H2 & H3). exists c'. cbn. by rewrite H1, H2, H3.
  - split; [by right|]. split; [by right|]. exists c. split_and!; try done. cbn. rewrite lookup_insert_ne; [done|]. congruence.
  - split; [by right|]. split; [by right|]. eauto.
  - split; [by right|]. split; [by right|]. eauto.
Qed.

Lemma deadlock_steps e err s s' : wait_inv s -> deadlocked e err s -> rtc (wait_step shard) s s' -> wait_inv s' /\ deadlocked e err s'.
Proof. intros Hi Hd. induction 1 as [|x y z Hs _ IH]; [done|]. apply IH; [by eapply wait_step_inv|by eapply deadlock_step]. Qed.
End Forever.

(** ** A run into the deadlock *)

Definition run_choice : Choice := mk_choice 0 20 (ResumedLocked 0 no_lock_info) (SEOther 1) false.

(** The thread at a position has its turns, one after the other. *)
Fixpoint run_turns (shard : Key -> Z) (positions : list nat) (s : system (gmap Z LockWaitEntry)) : option (system (gmap Z LockWaitEntry)) :=
  match positions with
  | [] => Some s
  | i :: positions =>
      match s.2 !! i with
      | None => None
      | Some th =>
          match thread_turn shard (held shard (take i s.2 ++ drop (S i) s.2)) run_choice s.1 th with
          | Turned sh' new => run_turns shard positions (sh', new ++ take i s.2 ++ drop (S i) s.2)
          | _ => None
          end
      end
  end.

Lemma run_turns_steps shard positions : forall s s', run_turns shard positions s = Some s' -> rtc (wait_step shard) s s'.
Proof.
  induction positions as [|i positions IH]; intros [sh ths] s'; cbn [run_turns fst snd]; [intros [= <-]; constructor|].
  destruct (ths !! i) as [th|] eqn:Hi; [|done]. destruct (thread_turn _ _ _ _ _) as [| |sh' new] eqn:Ht; try done.
  intros Hr. eapply rtc_l; [|by apply IH]. rewrite <- (take_drop_middle ths i th Hi) at 1. by eapply ss_turn.
Qed.

(** The lock is released while the lock manager cancels the request. *)
Definition released : ReleasedLock := mk_released 5 6 key_k true.

Lemma run_to_waiting shard : exists sh, run_turns shard [0; 0; 0]%nat waiting_state = Some (sh, [TWaiter 1]) /\
  exists s, run_turns shard [0; 2; 0; 1; 0]%nat (sh, [TRelease [released]; TWaiter 1]) = Some s /\ deadlocked conflict_waiter (SEOther 1) s.
Proof.
  eexists. split; [vm_compute; reflexivity|]. eexists. split; [vm_compute; reflexivity|].
  split; [by left|]. split; [by right; left|]. eexists. split; [vm_compute; reflexivity|]. by vm_compute.
Qed.

(** C22: Cancelling a request while it is resumed can leave two threads that
    never go on: the flag is set, the request is pushed again and waits for
    the error with the shard of its key held, and the canceller waits for the
    shard. From then on the request is not answered, and the shard stays
    locked for every other key in it. *)
Theorem cancelled_push_deadlock (shard : Key -> Z) :
  exists s : system (gmap Z LockWaitEntry), wait_reachable shard s /\
    forall s', rtc (wait_step shard) s s' ->
      TRecv conflict_waiter ∈ s'.2 /\ TCancelRemove 1 (SEOther 1) ∈ s'.2 /\ (1 ∉ (sh_answers s'.1).*1) /\
      (forall key, shard key = shard key_k -> shard key ∈ held shard s'.2).
Proof.
  destruct (run_to_waiting shard) as (sh & Hrun & s & Hrun' & Hdl).
  assert (Hr : wait_reachable shard s).
  { unfold wait_reachable. etransitivity; [exact (waiting_state_reachable shard)|]. etransitivity; [exact (run_turns_steps _ _ _ _ Hrun)|].
    eapply rtc_l; [apply (ss_release shard _ _ [released])|]. exact (run_turns_steps _ _ _ _ Hrun'). }
  exists s. split; [done|]. intros s' Hs. apply wait_reachable_inv in Hr.
  destruct (deadlock_steps shard _ _ _ _ Hr Hdl Hs) as (Hi & Hin & Hin' & _). split; [done|]. split; [done|]. split.
  - pose proof (one_place _ Hi) as Hp. intros Ha. pose proof (NoDup_elements (dom (sh_ctxs s'.1))) as Hnd. rewrite <- Hp in Hnd.
    apply NoDup_app in Hnd as (_ & Hd & _). apply (Hd 1); [|rewrite elem_of_app; by right].
    apply list_elem_of_fmap. exists (1, PRecv conflict_waiter). split; [done|]. apply list_elem_of_bind. exists (TRecv conflict_waiter). split; [by left|done].
  - intros key ->. change key_k with (le_key conflict_waiter). by apply held_recv.
Qed.
