(* ===== verification/LockCommands.v ===== *)
(** * The commands that acquire pessimistic locks
    (src/storage/txn/commands/acquire_pessimistic_lock.rs,
     acquire_pessimistic_lock_resumed.rs, mod.rs WriteResultLockInfo;
     src/storage/txn/scheduler.rs schedule_awakened_pessimistic_locks,
     on_wait_for_lock_after_resuming)

    [AcquirePessimisticLock] locks all its keys or, when one is locked by
    another transaction, none, and waits for that one.
    [AcquirePessimisticLockResumed] tries again for requests that were woken;
    each of them succeeds, fails or waits on its own. *)
From S2P Require Import Prelude Number Bytes Timestamp Key Fields Lock Write OrderedMap PeerLocks Engine.
From S2P Require Import ConcurrencyManager Reader MvccTxn CheckTxnStatus Prewrite AcquirePessimisticLock Commands PrewriteCommand LockWaiting.
Local Open Scope Z_scope.

(** ** Requests that met a lock *)

Record WriteResultLockInfo := mk_met_lock {
  wl_lock_digest : TimeStamp * Z;
  wl_key : Key;
  wl_should_not_exist : bool;
  wl_lock_info_pb : LockInfo;
  wl_parameters : LockParameters;
  wl_hash_for_latch : Z;
  wl_lock_wait_token : option Z
}.

(** What the commands return besides a [WriteResult]. The result is a list
    with one entry per key, or the error of the whole request. *)
Record LockWriteResult := mk_lock_write_result {
  lw_result : WriteResult (list KeyResult + StorageError);
  lw_lock_info : list WriteResultLockInfo;
  lw_old_values : OldValues
}.

Inductive lock_cmd_error := LCMvcc (e : mvcc_error) | LCMultipleKeys.

Section LockCommands.
Context (fingerprint64 : bytes -> Z) (latch_hash : Key -> Z).
Context (env : CmEnv) (last_change_enabled : bool) (cm : ConcurrencyManager) (snapshot : Snapshot) (ctx : Context) (need_old_value : bool).

(** [Key::gen_hash] *)
Definition gen_hash {E} (key : Key) : res E Z := match key_to_raw key with Ok raw => Ok (fingerprint64 raw) | _ => Panic end.

Definition met_lock_new {E} (info : LockInfo) (parameters : LockParameters) (key : Key) (should_not_exist : bool) : res E WriteResultLockInfo :=
  hash ← gen_hash key;
  Ok (mk_met_lock (info_lock_version info, hash) key should_not_exist info parameters (latch_hash key) None).

Definition lock_request (p : LockParameters) (should_not_exist allow_lock_with_conflict : bool) : AcquireReq :=
  mk_acquire (lp_primary p) should_not_exist (lp_lock_ttl p) (lp_return_values p) (lp_check_existence p) (lp_min_commit_ts p) need_old_value
    (lp_lock_only_if_exists p) allow_lock_with_conflict.

Definition make_write_data (modifies : list Modify) (old_values : OldValues) : OldValues :=
  match modifies with [] => ∅ | _ => old_values end.

(** ** AcquirePessimisticLock *)

Fixpoint lock_keys (rd : Reader) (p : LockParameters) (keys : list (Key * bool)) (results : list KeyResult) (old_values : OldValues) :
    M (list KeyResult * OldValues * list WriteResultLockInfo) :=
  match keys with
  | [] => mret (results, old_values, [])
  | (k, should_not_exist) :: keys => fun t =>
      match acquire_pessimistic_lock env last_change_enabled rd (lock_request p should_not_exist (lp_allow_lock_with_conflict p)) k
              (lp_for_update_ts p) t with
      | (Ok (key_res, old_value), t) =>
          lock_keys rd p keys (results ++ [KRDone key_res]) (insert_old_value_if_resolved old_values k (txn_start_ts t) old_value None) t
      | (Err (MKeyIsLocked info), t) =>
          match met_lock_new (E := mvcc_error) info p k should_not_exist with
          | Ok lock_info => (_ ← txn_clear; mret ([KRWaiting], old_values, [lock_info])) t
          | _ => (Panic, t)
          end
      | (Err e, t) => (Err e, t)
      | (Panic, t) => (Panic, t)
      end
  end.

(** The result when a lock was met and the request does not wait. *)
Definition no_wait_result (p : LockParameters) (results : list KeyResult) (met : list WriteResultLockInfo) :
    (list KeyResult + StorageError) * list WriteResultLockInfo :=
  match met, lp_wait_timeout p with
  | lock_info :: _, None =>
      let err := SEMvcc (MKeyIsLocked (wl_lock_info_pb lock_info)) in
      ((if lp_allow_lock_with_conflict p then inl (<[0%nat := KRFailed err]> results) else inr err), [])
  | _, _ => (inl results, met)
  end.

Definition acquire_pessimistic_lock_command (keys : list (Key * bool)) (p : LockParameters) : res lock_cmd_error LockWriteResult :=
  if lp_allow_lock_with_conflict p && (1 <? length keys)%nat then Err LCMultipleKeys
  else
    match lock_keys (new_with_ctx (lp_start_ts p) snapshot ctx) p keys [] ∅ (txn_new (lp_start_ts p) cm) with
    | (Ok (results, old_values, met), t) =>
        modifies ← into_modifies t;
        let '(pr, lock_info) := no_wait_result p results met in
        let rows := match pr with inl _ => Z.of_nat (length keys) | inr _ => 0 end in
        Ok (mk_lock_write_result (mk_write_result pr modifies rows [] (txn_new_locks t) []) lock_info (make_write_data modifies old_values))
    | (Err e, _) => Err (LCMvcc e)
    | (Panic, _) => Panic
    end.

(** ** AcquirePessimisticLockResumed *)

Record ResumedItem := mk_resumed_item {
  ri_key : Key;
  ri_should_not_exist : bool;
  ri_params : LockParameters;
  ri_lock_wait_token : Z
}.

Definition item_of_entry (e : LockWaitEntry) : ResumedItem :=
  mk_resumed_item (le_key e) (le_should_not_exist e) (le_parameters e) (le_lock_wait_token e).

(** [AcquirePessimisticLockResumed::from_lock_wait_entries] *)
Definition from_lock_wait_entries (entries : list LockWaitEntry) : res lock_cmd_error (list ResumedItem) :=
  rassert (forallb (fun e => bool_decide (le_key_cb e = None)) entries)
    (rassert (negb (bool_decide (entries = []))) (Ok (map item_of_entry entries))).

(** [schedule_awakened_pessimistic_locks]: the callbacks are taken out of the
    entries, and the command is made of the entries without them. *)
Definition without_cb (e : LockWaitEntry) : LockWaitEntry :=
  mk_entry (le_key e) (le_lock_hash e) (le_parameters e) (le_should_not_exist e) (le_lock_wait_token e) (le_legacy_wake_up_index e) None.
Fixpoint take_callbacks (entries : list LockWaitEntry) : res lock_cmd_error (list Z) :=
  match entries with
  | [] => Ok []
  | e :: entries =>
      match le_key_cb e with
      | Some cb => cbs ← take_callbacks entries; Ok (cb :: cbs)
      | None => Panic
      end
  end.
Definition schedule_awakened_pessimistic_locks (awakened_entries : list LockWaitEntry) : res lock_cmd_error (list Z * list ResumedItem) :=
  key_callbacks ← take_callbacks awakened_entries;
  items ← from_lock_wait_entries (map without_cb awakened_entries);
  Ok (key_callbacks, items).

(** The locals of the loop; [rs_txn] is the buffer of the last item. *)
Record ResumedState := mk_resumed_state {
  rs_txn : option MvccTxn;
  rs_modifies : list Modify;
  rs_new_locks : list LockInfo;
  rs_results : list KeyResult;
  rs_met : list WriteResultLockInfo;
  rs_old_values : OldValues
}.

(** The buffer for the next item: another transaction gets a new one. *)
Definition txn_for (s : ResumedState) (start_ts : TimeStamp) : res lock_cmd_error (MvccTxn * list Modify * list LockInfo) :=
  match rs_txn s with
  | None => Ok (txn_new start_ts cm, rs_modifies s, rs_new_locks s)
  | Some t =>
      if txn_start_ts t =? start_ts then Ok (t, rs_modifies s, rs_new_locks s)
      else modifies ← into_modifies t; Ok (txn_new start_ts (txn_cm t), rs_modifies s ++ modifies, rs_new_locks s ++ txn_new_locks t)
  end.

Definition with_token (l : WriteResultLockInfo) (token : Z) : WriteResultLockInfo :=
  mk_met_lock (wl_lock_digest l) (wl_key l) (wl_should_not_exist l) (wl_lock_info_pb l) (wl_parameters l) (wl_hash_for_latch l) (Some token).

Definition resume_item (s : ResumedState) (i : ResumedItem) : res lock_cmd_error ResumedState :=
  let p := ri_params i in
  '(t, modifies, new_locks) ← txn_for s (lp_start_ts p);
  match acquire_pessimistic_lock env last_change_enabled (new_with_ctx (lp_start_ts p) snapshot ctx)
          (lock_request p (ri_should_not_exist i) true) (ri_key i) (lp_for_update_ts p) t with
  | (Ok (key_res, old_value), t) =>
      Ok (mk_resumed_state (Some t) modifies new_locks (rs_results s ++ [KRDone key_res]) (rs_met s)
            (insert_old_value_if_resolved (rs_old_values s) (ri_key i) (lp_start_ts p) old_value None))
  | (Err (MKeyIsLocked info), t) =>
      lock_info ← met_lock_new info p (ri_key i) (ri_should_not_exist i);
      Ok (mk_resumed_state (Some t) modifies new_locks (rs_results s ++ [KRWaiting])
            (rs_met s ++ [with_token lock_info (ri_lock_wait_token i)]) (rs_old_values s))
  | (Err e, t) => Ok (mk_resumed_state (Some t) modifies new_locks (rs_results s ++ [KRFailed (SEMvcc e)]) (rs_met s) (rs_old_values s))
  | (Panic, _) => Panic
  end.

Fixpoint resume_items (s : ResumedState) (items : list ResumedItem) : res lock_cmd_error ResumedState :=
  match items with
  | [] => Ok s
  | i :: items => s ← resume_item s i; resume_items s items
  end.

Definition acquire_pessimistic_lock_resumed (items : list ResumedItem) : res lock_cmd_error LockWriteResult :=
  s ← resume_items (mk_resumed_state None [] [] [] [] ∅) items;
  '(modifies, new_locks) ←
    match rs_txn s with
    | Some t =>
        if txn_is_empty t then Ok (rs_modifies s, rs_new_locks s)
        else modifies ← into_modifies t; Ok (rs_modifies s ++ modifies, rs_new_locks s ++ txn_new_locks t)
    | None => Ok (rs_modifies s, rs_new_locks s)
    end;
  Ok (mk_lock_write_result (mk_write_result (inl (rs_results s)) modifies (Z.of_nat (length items)) [] new_locks []) (rs_met s)
        (make_write_data modifies (rs_old_values s))).
End LockCommands.

(** ** After the resumed command *)

Definition make_lock_waiting_after_resuming (l : WriteResultLockInfo) (token cb : Z) : LockWaitEntry :=
  mk_entry (wl_key l) (wl_lock_digest l).2 (wl_parameters l) (wl_should_not_exist l) token None (Some cb).

(** The results that stay with their callbacks, and the entries to push with
    the lock to wait for. Running out of met locks, or having some left,
    panics, and so does a lock met by a request without a shared state, which
    has no token either. *)
Fixpoint split_waiting (results : list KeyResult) (cbs : list Z) (met : list WriteResultLockInfo) :
    res lock_cmd_error (list (KeyResult * Z) * list (LockWaitEntry * LockInfo)) :=
  match results, cbs with
  | [], [] => match met with [] => Ok ([], []) | _ => Panic end
  | KRWaiting :: results, cb :: cbs =>
      match met with
      | l :: met =>
          match wl_lock_wait_token l with
          | Some token =>
              '(finished, waiting) ← split_waiting results cbs met;
              Ok (finished, (make_lock_waiting_after_resuming l token cb, wl_lock_info_pb l) :: waiting)
          | None => Panic
          end
      | [] => Panic
      end
  | r :: results, cb :: cbs => '(finished, waiting) ← split_waiting results cbs met; Ok ((r, cb) :: finished, waiting)
  | _, _ => Panic
  end.

(** Without met locks the callbacks stay with the command and are called with
    its results, or all with its error. *)
Definition on_wait_for_lock_after_resuming (w : LockWriteResult) (cbs : list Z) :
    res lock_cmd_error (list (KeyResult * Z) * list (LockWaitEntry * LockInfo)) :=
  match lw_lock_info w, wr_pr (lw_result w) with
  | [], inl results => Ok (combine results cbs, [])
  | [], inr err => Ok (map (pair (KRFailed err)) cbs, [])
  | met, inl results => split_waiting results cbs met
  | _, inr _ => Panic
  end.
