(* ===== verification/LockCommandsSpec.v ===== *)
(** * What acquiring a pessimistic lock guarantees

    On the contents of a key that the commit protocol produces: a new lock
    covers every version of the key, the value it returns is the newest one,
    and the transaction was not rolled back before. The commands lock all
    their keys or none, never take the lock of another transaction, and change
    no version. *)
From S2P Require Import Prelude Number Bytes Timestamp Key Fields Lock Write OrderedMap PeerLocks Engine.
From S2P Require Import ConcurrencyManager Reader Versions MvccTxn CheckTxnStatus Prewrite AcquirePessimisticLock Commands PrewriteCommand.
From S2P Require Import KeyView Protocol ActionSpec ReadSpec PrewriteSpec LockWaiting LockCommands.
Local Open Scope Z_scope.

Lemma value_at_mono a c ts v : c <= ts -> (forall c', c < c' <= ts -> data_at (kv_ver a) c' = None) -> value_at a c v -> value_at a ts v.
Proof.
  intros Hle Hn. assert (Hl : forall t, dlatest (kv_ver a) c t -> dlatest (kv_ver a) ts t).
  { intros t (H1 & H2 & H3). split_and!; [lia|done|]. intros c' Hc'. destruct (Z.le_gt_cases c' c); [apply H3; lia|apply Hn; lia]. }
  destruct v as [v|]; cbn.
  - intros (w & t & (H1 & H2 & H3) & H4). exists w, t. split; [|done]. split_and!; try done. by apply Hl.
  - intros [Hd|(t & s & v & Hd & Ht)]; [left|right; exists t, s, v; split; [by apply Hl|done]].
    intros c' Hc'. destruct (Z.le_gt_cases c' c); [by apply Hd|apply Hn; lia].
Qed.

Section Newest.
Context (rd : Reader) (key : Key) (a : KV).
Hypothesis Hs : sees rd key a.
Hypothesis I : kinv a.
Let st := rd_start_ts rd.

(** The newest record of the key. *)
Context (c : TimeStamp) (w : Write).
Hypothesis Hw : kv_ver a !! c = Some w.
Hypothesis Hlast : forall c', c < c' -> kv_ver a !! c' = None.

Lemma nothing_newer c' : c < c' -> data_at (kv_ver a) c' = None.
Proof. intros Hc'. unfold data_at. by rewrite Hlast. Qed.

Lemma newest_u64 : is_u64 c /\ 0 < c.
Proof. destruct (sees_ver_wf rd key a Hs c w Hw) as (? & ? & _). done. Qed.

Lemma newest_fence l : check_gc_fence_as_latest_version w l = true.
Proof.
  apply (rb_fence a (Some l) (kinv_readable a (Some l) I) c w l Hw eq_refl). intros c' Hc'. apply nothing_newer; lia.
Qed.

Lemma newest_now v : value_at a c v -> value_at a ts_max v.
Proof.
  apply value_at_mono; [destruct newest_u64 as [[_ ?] _]; unfold ts_max, u64_max; lia|]. intros c' Hc'. apply nothing_newer; lia.
Qed.

Lemma before_newest v : is_data w = false -> value_at a (c - 1) v -> value_at a ts_max v.
Proof.
  intros Hd Hv. apply newest_now. eapply value_at_mono; [| |exact Hv]; [lia|]. intros c' Hc'.
  assert (c' = c) as -> by lia. unfold data_at. by rewrite Hw, Hd.
Qed.

Lemma prev_newest {E} : ts_prev (E := E) c = Ok (c - 1) /\ is_u64 (c - 1).
Proof.
  destruct newest_u64 as [Hu Hp]. unfold ts_prev, is_u64 in *. destruct (Z.ltb_spec 0 c); [|lia].
  split; [|lia]. f_equal. apply Z.mod_small. lia.
Qed.

Lemma quiet_above_prev l c' : is_data w = false -> c - 1 < c' <= l -> data_at (kv_ver a) c' = None.
Proof.
  intros Hd Hc'. unfold data_at. destruct (decide (c' = c)) as [->|]; [by rewrite Hw, Hd|]. by rewrite Hlast by lia.
Qed.

(** Whether the key has a value now. *)
Definition exists_now (v : option Value) : Prop :=
  match v with Some _ => exists v', value_at a ts_max (Some v') | None => value_at a ts_max None end.

Lemma put_value_now v : write_type w = WTPut -> load_data rd key w = Ok v -> value_at a ts_max (Some v).
Proof.
  intros Hp. unfold load_data. rewrite Hp. cbn [bool_decide rassert]. intros Hv. apply newest_now. exists w, c.
  assert (Hd : is_data w = true) by (unfold is_data; by rewrite Hp).
  split. { split_and!; try done. split_and!; [lia|by eapply data_at_Some|lia]. }
  destruct (write_short_value w) as [sv|] eqn:Esv; [by injection Hv|].
  destruct (inv_value a I c w Hw Hp Esv) as [v' Hv'].
  assert (is_u64 (write_start_ts w)) as Hst by (by apply (sees_ver_wf rd key a Hs) in Hw as (_ & _ & ? & _)).
  pose proof (sees_value rd key a Hs _ _ Hst Hv') as E. cbn in Hv. unfold get_value, rd_cf in Hv. cbn [engine_get_cf] in Hv.
  rewrite E in Hv. injection Hv as <-. done.
Qed.

Lemma delete_now : write_type w = WTDelete -> value_at a ts_max None.
Proof.
  intros Hp. apply newest_now. right. exists c, (write_start_ts w), (write_short_value w).
  assert (Hd : is_data w = true) by (unfold is_data; by rewrite Hp).
  split; [split_and!; [lia|by eapply data_at_Some|lia]|]. unfold data_at. by rewrite Hw, Hd, Hp.
Qed.

Lemma get_write_before r : is_data w = false -> get_write rd key (c - 1) (Some st) = Ok r ->
  match r with Some w' => exists v, value_at a ts_max (Some v) | None => value_at a ts_max None end.
Proof.
  intros Hd. destruct (@prev_newest mvcc_error) as [_ Hu].
  destruct (get_write_reads rd key a Hs I (c - 1) (Some st) Hu) as (x & Ex & Hx).
  { intros l c' _ Hc'. by eapply quiet_above_prev. }
  unfold get_write. rewrite Ex. cbn [mbind res_bind]. intros [= <-]. destruct x as [[w' t]|]; cbn [option_map fst].
  - destruct Hx as (H1 & H2 & H3). destruct (write_short_value w') as [sv|] eqn:Esv.
    + exists sv. apply before_newest; [done|]. exists w', t. rewrite Esv. done.
    + destruct (inv_value a I t w' H1 H2 Esv) as [v Hv]. exists v. apply before_newest; [done|]. exists w', t. rewrite Esv. done.
  - by apply before_newest.
Qed.

Lemma read_before_newest (nl : bool) v : is_data w = false ->
  (ts ← ts_prev c;
   if nl then reader_get rd key ts (Some (rd_start_ts rd))
   else x ← get_write rd key ts (Some (rd_start_ts rd)); Ok (option_map (fun _ => []) x)) = Ok v ->
  (nl = true -> value_at a ts_max v) /\ exists_now v.
Proof.
  intros Hd. destruct (@prev_newest mvcc_error) as [-> Hu]. cbn [mbind res_bind]. destruct nl.
  - destruct (reader_get_value rd key a Hs I (c - 1) (Some st) Hu) as (v' & Ev & Hv).
    { intros l c' _ Hc'. by eapply quiet_above_prev. }
    fold st. rewrite Ev. intros [= <-]. apply before_newest in Hv; [|done]. split; [done|]. destruct v'; [eexists|]; done.
  - fold st. destruct (get_write rd key (c - 1) (Some st)) as [r| |] eqn:Er; [|done..]. intros [= <-].
    apply get_write_before in Er; [|done]. split; [done|]. by destruct r.
Qed.

Lemma read_value_newest (nl : bool) v : acquire_read_value rd key c w nl = Ok v -> (nl = true -> value_at a ts_max v) /\ exists_now v.
Proof.
  unfold acquire_read_value. destruct (write_type w) eqn:Hp.
  - rewrite newest_fence. destruct nl.
    + destruct (load_data rd key w) as [v'| |] eqn:El; [|done..]. intros [= <-]. apply (put_value_now v' Hp) in El. split; [done|].
      exists v'. done.
    + intros [= <-]. split; [done|]. destruct (write_short_value w) as [sv|] eqn:Esv.
      * exists sv. apply put_value_now; [done|]. unfold load_data. by rewrite Hp, Esv.
      * destruct (inv_value a I c w Hw Hp Esv) as [v Hv]. exists v. apply put_value_now; [done|]. unfold load_data. rewrite Hp, Esv.
        assert (is_u64 (write_start_ts w)) as Hst by (by apply (sees_ver_wf rd key a Hs) in Hw as (_ & _ & ? & _)).
        pose proof (sees_value rd key a Hs _ _ Hst Hv) as E. cbn. unfold get_value, rd_cf. cbn [engine_get_cf]. by rewrite E.
  - intros [= <-]. pose proof (delete_now Hp). done.
  - apply read_before_newest. unfold is_data. by rewrite Hp.
  - apply read_before_newest. unfold is_data. by rewrite Hp.
Qed.

Lemma own_rollback_newest : check_own_rollback rd key c w = Ok tt -> ~ rolled_back (kv_ver a) st.
Proof.
  intros Hc (w' & Hw' & Hr). unfold check_own_rollback in Hc.
  assert (Hown : forall w', says_rollback w' = true -> is_own_rollback rd st w' = true).
  { intros x Hx. unfold is_own_rollback, says_rollback, is_rollback in *. fold st. rewrite Z.eqb_refl. exact Hx. }
  assert (Herr : forall b, rassert b (raw ← map_err MCodec (key_into_raw key); Err (MPessimisticLockRolledBack (rd_start_ts rd) raw)) <> Ok tt).
  { intros []; unfold rassert; [|done]. by destruct (map_err MCodec (key_into_raw key)). }
  destruct (Z.lt_trichotomy c st) as [Hlt|[Heq|Hgt]].
  - by rewrite (Hlast st Hlt) in Hw'.
  - assert (w' = w) as -> by congruence. rewrite Heq in Hc. rewrite (Hown w Hr) in Hc. by eapply Herr.
  - destruct (is_own_rollback rd c w) eqn:Eo; [by eapply Herr|]. fold st in Hc. destruct (Z.ltb_spec st c); [|lia].
    destruct (sees_seek rd key a Hs st) as (r & Er & Hrs); [apply (sees_start _ _ _ Hs)|]. rewrite Er in Hc. cbn [mbind res_bind] in Hc.
    destruct r as [[c' x]|]; [|by rewrite (Hrs st) in Hw' by lia]. destruct Hrs as (Hx & Hle & Hno).
    assert (c' = st) as ->. { destruct (Z.eq_dec c' st); [done|]. by rewrite (Hno st) in Hw' by lia. }
    assert (x = w') as -> by congruence. rewrite (Hown w' Hr) in Hc. by eapply (Herr true).
Qed.

Lemma constraint_before :
  (existing ← (ts ← ts_prev c; prev_write ← get_write rd key ts (Some (rd_start_ts rd)); Ok (option_map write_start_ts prev_write));
   match existing with
   | Some existing_start_ts => raw ← to_raw_r key; Err (MAlreadyExist raw existing_start_ts)
   | None => Ok tt
   end) = Ok tt -> is_data w = false -> value_at a ts_max None.
Proof.
  intros Hc Hd. destruct (@prev_newest mvcc_error) as [Hprev Hu]. rewrite Hprev in Hc. cbn [mbind res_bind] in Hc. fold st in Hc.
  destruct (get_write rd key (c - 1) (Some st)) as [r| |] eqn:Er; [|done..]. apply get_write_before in Er; [|done].
  destruct r as [x|]; [|done]. exfalso. cbn in Hc. by destruct (to_raw_r key).
Qed.

Lemma constraint_newest sne : check_data_constraint rd sne w c key = Ok tt -> sne = true -> value_at a ts_max None.
Proof.
  intros Hc ->. unfold check_data_constraint in Hc. cbn [negb orb] in Hc.
  assert (Hf : fenced w = false).
  { unfold fenced. destruct (write_gc_fence w) as [g|] eqn:Eg; [|done]. unfold ts_is_zero. destruct (Z.eqb_spec g 0) as [|Hg]; [done|].
    destruct (inv_fence a I c w g Hw Eg Hg) as [Hlt [x Hx]]. by rewrite nothing_newer in Hx by lia. }
  rewrite Hf, orb_false_r in Hc. destruct (write_type w) eqn:Hp; cbn [bool_decide] in Hc.
  - exfalso. cbn in Hc. by destruct (to_raw_r key).
  - by apply delete_now.
  - apply (constraint_before Hc). unfold is_data. by rewrite Hp.
  - apply (constraint_before Hc). unfold is_data. by rewrite Hp.
Qed.
End Newest.

(** ** The action *)

(** What a new lock at [fut'] and the value [v] say about the contents. *)
Record lock_covers (a : KV) (st fut : TimeStamp) (q : AcquireReq) (fut' : TimeStamp) (v : option Value) : Prop := {
  lv_newest : forall c w, kv_ver a !! c = Some w -> c <= fut';
  lv_requested : fut <= fut';
  lv_conflict : fut < fut' -> aq_allow_lock_with_conflict q = true /\ is_Some (kv_ver a !! fut');
  lv_fresh : ~ rolled_back (kv_ver a) st;
  lv_absent : aq_should_not_exist q = true -> value_at a ts_max None;
  lv_value : aq_need_value q = true \/ fut < fut' -> value_at a ts_max v;
  lv_exists : aq_need_check_existence q = true -> exists_now a v
}.

(** The buffer gets the modifications [ms] and keeps the rest. *)
Record adds (t t' : MvccTxn) (ms : list Modify) : Prop := {
  bf_modifies : txn_modifies t' = txn_modifies t ++ ms;
  bf_start_ts : txn_start_ts t' = txn_start_ts t;
  bf_one_pc : txn_locks_for_1pc t' = txn_locks_for_1pc t
}.

Lemma adds_refl t : adds t t [].
Proof. split; [by rewrite app_nil_r|done..]. Qed.

Lemma adds_cm t t1 t' cm ms : t1 = txn_with_cm t cm -> adds t1 t' ms -> adds t t' ms.
Proof. by intros -> [? ? ?]. Qed.

Lemma bind_lift {A B} (r : mres A) (f : A -> M B) t :
  (lift r ≫= f) t = match r with Ok x => f x t | Err e => (Err e, t) | Panic => (Panic, t) end.
Proof. by destruct r. Qed.

Lemma put_pessimistic_adds key l is_new t r t' : put_pessimistic_lock key l is_new t = (r, t') ->
  match r with Ok _ => adds t t' [ModifyPessimisticLock key l] | Err _ => False | Panic => True end.
Proof.
  unfold put_pessimistic_lock, raw_unwrap, mbind, M_bind. destruct is_new; [|by intros [= <- <-]].
  destruct (key_to_raw key); by intros [= <- <-].
Qed.

Section Action.
Context (env : CmEnv) (last_change_enabled : bool) (rd : Reader) (q : AcquireReq) (key : Key) (a : KV).
Hypothesis Hs : sees rd key a.
Let st := rd_start_ts rd.

Lemma check_version_spec fut nl c w r : kinv a -> kv_ver a !! c = Some w -> (forall c', c < c' -> kv_ver a !! c' = None) -> is_u64 fut ->
  (aq_need_value q = true -> nl = true) -> acquire_check_version rd q key fut nl st c w = Ok r ->
  lock_covers a st fut q (ar_for_update_ts r) (ar_val r) /\ is_u64 (ar_for_update_ts r) /\ lc_wf (ar_last_change r) /\
  ar_conflict r = (if fut <? ar_for_update_ts r then Some (write_start_ts w, ar_for_update_ts r) else None).
Proof.
  intros I Hw Hlast Hfut Hnl. unfold acquire_check_version. fold st.
  destruct (newest_u64 rd key a Hs c w Hw) as [Hc _].
  destruct ((fut <? c) && negb (aq_allow_lock_with_conflict q)) eqn:Econf; [by destruct (map_err MCodec (key_into_raw key))|].
  destruct (check_own_rollback rd key c w) as [[]| |] eqn:Eown; [|done..]. cbn [mbind res_bind].
  destruct (check_constraint_or_conflict rd q w c key _) as [[]| |] eqn:Econ; [|done..]. cbn [mbind res_bind].
  pose proof (next_last_change_spec rd key a Hs I c w Hw Hlast) as Hlc. fold st in Hlc.
  destruct (next_last_change_info rd key w st c) as [lc| |]; [|done..]. destruct Hlc as [Hlcw _]. cbn [mbind res_bind].
  destruct (if aq_need_value q || aq_need_check_existence q || (fut <? c) then acquire_read_value rd key c w (nl || (fut <? c)) else Ok None)
    as [v| |] eqn:Ev; [|done..]. intros [= <-]. cbn.
  assert (Hle : forall c' w', kv_ver a !! c' = Some w' -> c' <= c).
  { intros c' w' Hx. destruct (Z.le_gt_cases c' c); [done|]. by rewrite Hlast in Hx by lia. }
  assert (Hread : aq_need_value q || aq_need_check_existence q || (fut <? c) = true ->
            ((nl || (fut <? c)) = true -> value_at a ts_max v) /\ exists_now a v).
  { intros Hn. rewrite Hn in Ev. exact (read_value_newest rd key a Hs I c w Hw Hlast _ v Ev). }
  assert (Hcons : check_data_constraint rd (aq_should_not_exist q) w c key = Ok tt).
  { unfold check_constraint_or_conflict in Econ. destruct (check_data_constraint _ _ _ _ _) as [[]|e|]; [done| |done].
    exfalso. clear -Econ. destruct (if fut <? c then Some (write_start_ts w, c) else None) as [x|]; [|done]. destruct (is_already_exist e); [|done].
    by destruct (to_raw_r key). }
  split; [|split; [by destruct (fut <? c)|split; [done|]]].
  2:{ destruct (Z.ltb_spec fut c) as [Hlt|]; [by rewrite (proj2 (Z.ltb_lt _ _) Hlt)|by rewrite Z.ltb_irrefl]. }
  destruct (Z.ltb_spec fut c) as [Hlt|Hge]; cbn [andb] in *; constructor; try done; try lia.
  - intros _. apply negb_false_iff in Econf. eauto.
  - exact (own_rollback_newest rd key a Hs c w Hw Hlast Eown).
  - exact (constraint_newest rd key a Hs I c w Hw Hlast _ Hcons).
  - intros _. apply Hread; by rewrite ?orb_true_r.
  - intros _. apply Hread. by rewrite ?orb_true_r.
  - intros c' w' Hx. apply Hle in Hx. lia.
  - exact (own_rollback_newest rd key a Hs c w Hw Hlast Eown).
  - exact (constraint_newest rd key a Hs I c w Hw Hlast _ Hcons).
  - intros [Hn|?]; [|lia]. apply Hread; [by rewrite Hn|by rewrite Hnl].
  - intros Hn. apply Hread. by rewrite Hn, orb_true_r.
Qed.

(** The lock a request writes. *)
Definition requested_lock (fut : TimeStamp) (lc : LastChange) (with_conflict : bool) : PessimisticLock :=
  mk_pessimistic_lock (aq_primary q) st (aq_lock_ttl q) fut (aq_min_commit_ts q) lc with_conflict.

(** The outcomes of a success. The key had no lock: the new one covers its
    versions, unless only an existing key is to be locked and there is no
    value. Or it had a pessimistic lock of the transaction, which is raised to
    the requested timestamp. *)
Definition acquired_new (fut : TimeStamp) (res : PessimisticLockKeyResult) (ms : list Modify) : Prop :=
  exists fut' v lc, lock_covers a st fut q fut' v /\ is_u64 fut' /\ lc_wf lc /\
    res = new_success (aq_need_value q) (aq_need_check_existence q) (if fut <? fut' then Some fut' else None) v /\
    ms = (if negb (aq_lock_only_if_exists q) || bool_decide (is_Some v)
          then [ModifyPessimisticLock key (requested_lock fut' lc (fut <? fut'))] else []).
Definition acquired_again (fut : TimeStamp) (l : Lock) (ms : list Modify) : Prop :=
  lock_ts l = st /\ is_pessimistic_lock l = true /\
  ms = (if lock_for_update_ts l <? fut
        then [ModifyPessimisticLock key (requested_lock fut (lock_last_change l) (is_pessimistic_lock_with_conflict l))] else []).
Definition acquired (fut : TimeStamp) (res : PessimisticLockKeyResult) (ms : list Modify) : Prop :=
  match kv_lock a with None => acquired_new fut res ms | Some l => acquired_again fut l ms end.

Definition acquire_outcome (fut : TimeStamp) (t t' : MvccTxn) (r : mres (PessimisticLockKeyResult * OldValue)) : Prop :=
  match r with
  | Ok (res, _) => exists ms, adds t t' ms /\ acquired fut res ms
  | Err _ => adds t t' []
  | Panic => True
  end.

Lemma acquire_unlocked_spec fut nl t r t' : kinv a -> is_u64 fut -> (aq_need_value q = true -> nl = true) -> txn_start_ts t = st ->
  kv_lock a = None -> acquire_unlocked last_change_enabled rd q key fut nl t = (r, t') -> acquire_outcome fut t t' r.
Proof.
  intros I Hfut Hnl Ht Hno. unfold acquire_outcome, acquired. rewrite Hno. unfold acquire_unlocked.
  change ((get_txn ≫= ?f) t) with (f t t). cbv beta. rewrite bind_lift, Ht.
  assert (Hmax : is_u64 ts_max) by done.
  destruct (sees_seek rd key a Hs ts_max Hmax) as (x & -> & Hx). cbn [mbind res_bind].
  set (read := match x with Some _ => _ | None => _ end).
  assert (Hread : forall y, read = Ok y -> lock_covers a st fut q (ar_for_update_ts y) (ar_val y) /\ is_u64 (ar_for_update_ts y) /\
            lc_wf (ar_last_change y) /\ option_map snd (ar_conflict y) = (if fut <? ar_for_update_ts y then Some (ar_for_update_ts y) else None)).
  { intros y Hy. subst read. destruct x as [[c w]|].
    - destruct Hx as (Hw & _ & Hlast).
      assert (Hl : forall c', c < c' -> kv_ver a !! c' = None).
      { intros c' Hc'. destruct (kv_ver a !! c') as [w'|] eqn:E; [|done]. destruct (sees_ver_wf rd key a Hs c' w' E) as ((_ & Hu) & _ & _).
        rewrite Hlast in E; [done|]. unfold ts_max, u64_max. lia. }
      destruct (check_version_spec fut nl c w y I Hw Hl Hfut Hnl Hy) as (H1 & H2 & H3 & H4). rewrite H4. by destruct (fut <? _).
    - injection Hy as <-. cbn. rewrite Z.ltb_irrefl. split; [|done].
      assert (Hnone : forall c, kv_ver a !! c = None).
      { intros c. destruct (kv_ver a !! c) as [w'|] eqn:E; [|done]. destruct (sees_ver_wf rd key a Hs c w' E) as ((_ & Hu) & _ & _).
        rewrite Hx in E; [done|]. unfold ts_max, u64_max. lia. }
      assert (Hv : value_at a ts_max None) by (left; intros c _; unfold data_at; by rewrite Hnone).
      constructor; cbn; try done; try lia; [by intros c w; rewrite Hnone|]. intros (w & Hw & _). by rewrite Hnone in Hw. }
  destruct read as [y| |]; [|by intros [= <- <-]; apply adds_refl|by intros [= <- <-]]. destruct (Hread y eq_refl) as (Hcov & Hu & Hlc & Hconf).
  rewrite bind_lift. destruct (load_old_value _ _ _ _ _ _ _ _) as [ov| |]; [|by intros [= <- <-]; apply adds_refl|by intros [= <- <-]].
  set (lock := mk_pessimistic_lock _ _ _ _ _ _ _).
  assert (Hlock : exists lc, lc_wf lc /\ lock = requested_lock (ar_for_update_ts y) lc (fut <? ar_for_update_ts y)).
  { exists (if last_change_enabled then ar_last_change y else LCUnknown). split; [by destruct last_change_enabled|].
    unfold lock, requested_lock. f_equal. destruct (ar_conflict y), (fut <? ar_for_update_ts y); done. }
  destruct Hlock as (lc & Hlw & ->). unfold mbind at 1, M_bind at 1.
  destruct (negb (aq_lock_only_if_exists q) || bool_decide (is_Some (ar_val y))) eqn:Eput.
  - destruct (put_pessimistic_lock _ _ _ t) as [z t1] eqn:Ep. apply put_pessimistic_adds in Ep. destruct z as [[]| |]; [|done|by intros [= <- <-]].
    intros [= <- <-]. eexists. split; [exact Ep|]. exists (ar_for_update_ts y), (ar_val y), lc. rewrite Eput, Hconf. done.
  - destruct (ar_conflict y) as [cf|] eqn:Ecf.
    + unfold into_raw_m. rewrite bind_lift. destruct (map_err MCodec (key_into_raw key)); intros [= <- <-]; try done; apply adds_refl.
    + intros [= <- <-]. exists []. split; [apply adds_refl|]. exists (ar_for_update_ts y), (ar_val y), lc. rewrite Eput. cbn in Hconf.
      rewrite <- Hconf. done.
Qed.

Lemma acquire_locked_spec fut nl t r t' l : kv_lock a = Some l ->
  acquire_locked rd q key l fut nl t = (r, t') -> acquire_outcome fut t t' r.
Proof.
  intros Hl. unfold acquire_outcome, acquired. rewrite Hl. unfold acquire_locked, into_raw_m. fold st.
  destruct (Z.eqb_spec (lock_ts l) st) as [Hts|]; cbn [negb].
  2:{ rewrite bind_lift. destruct (map_err MCodec (key_into_raw key)); intros [= <- <-]; try done; apply adds_refl. }
  destruct (is_pessimistic_lock l) eqn:Hp; cbn [negb].
  2:{ rewrite bind_lift. destruct (map_err MCodec (key_into_raw key)); intros [= <- <-]; try done; apply adds_refl. }
  set (wc := aq_allow_lock_with_conflict q && (fut <? lock_for_update_ts l)).
  rewrite bind_lift. match goal with |- match ?x with _ => _ end = _ -> _ => destruct x as [v| |] end;
    [|by intros [= <- <-]; apply adds_refl|by intros [= <- <-]].
  rewrite bind_lift. destruct (load_old_value _ _ _ _ _ _ _ _) as [ov| |]; [|by intros [= <- <-]; apply adds_refl|by intros [= <- <-]].
  assert (Hw : (lock_for_update_ts l <? (if wc then lock_for_update_ts l else fut)) = (lock_for_update_ts l <? fut)).
  { subst wc. destruct (aq_allow_lock_with_conflict q); cbn [andb]; [|done]. destruct (Z.ltb_spec fut (lock_for_update_ts l)); [|done].
    rewrite Z.ltb_irrefl. symmetry. apply Z.ltb_ge. lia. }
  rewrite Hw. unfold mbind, M_bind. destruct (Z.ltb_spec (lock_for_update_ts l) fut) as [Hlt|Hge].
  - replace (if wc then lock_for_update_ts l else fut) with fut.
    2:{ destruct wc; [|done]. by rewrite Z.ltb_irrefl in Hw. }
    destruct (put_pessimistic_lock _ _ _ t) as [z t1] eqn:Ep. apply put_pessimistic_adds in Ep. destruct z as [[]| |]; [|done|by intros [= <- <-]].
    intros [= <- <-]. eexists. split; [exact Ep|]. split; [done|]. split; [done|]. by rewrite (proj2 (Z.ltb_lt _ _) Hlt).
  - intros [= <- <-]. exists []. split; [apply adds_refl|]. split; [done|]. split; [done|]. by rewrite (proj2 (Z.ltb_ge _ _) Hge).
Qed.

Lemma acquire_spec fut t r t' : (kv_lock a = None -> kinv a) -> is_u64 fut -> txn_start_ts t = st ->
  acquire_pessimistic_lock env last_change_enabled rd q key fut t = (r, t') -> acquire_outcome fut t t' r.
Proof.
  intros I Hfut Ht. unfold acquire_pessimistic_lock. destruct (aq_lock_only_if_exists q && negb (aq_need_value q)).
  { unfold into_raw_m. rewrite bind_lift. destruct (map_err MCodec (key_into_raw key)); intros [= <- <-]; try done; apply adds_refl. }
  unfold mbind at 1, M_bind at 1.
  assert (Hmax : forall z t1, (if aq_should_not_exist q || aq_need_value q || aq_need_check_existence q then update_max_ts_m env fut else mret tt) t = (z, t1) ->
            exists cm, t1 = txn_with_cm t cm).
  { intros z t1. destruct (aq_should_not_exist q || aq_need_value q || aq_need_check_existence q).
    - unfold update_max_ts_m. destruct (update_max_ts env (txn_cm t) fut) as [[] cm]; intros [= <- <-]; by exists cm.
    - intros [= <- <-]. exists (txn_cm t). by destruct t. }
  match goal with |- context [match ?x t with _ => _ end] => destruct (x t) as [z t1] eqn:Ez end.
  destruct (Hmax z t1 eq_refl) as [cm Hcm].
  assert (Hout : forall r', acquire_outcome fut t1 t' r' -> acquire_outcome fut t t' r').
  { intros [[res ov]| |]; cbn; [|by apply adds_cm with (cm := cm)|done]. intros (ms & Ha & Hok). exists ms. split; [by eapply adds_cm|done]. }
  destruct z as [[]| |]; [|intros [= <- <-]; by apply Hout, adds_refl|by intros [= <- <-]].
  rewrite bind_lift, (sees_load_lock rd key a Hs). destruct (kv_lock a) as [l|] eqn:El; intros Hrun; apply Hout.
  - by eapply acquire_locked_spec.
  - eapply acquire_unlocked_spec; [by apply I|done| |by rewrite Hcm|done|exact Hrun]. intros ->. done.
Qed.
End Action.

(** ** The locks that are met *)

(** [r] is not the error of a locked key. *)
Definition no_lock_met {A} (r : mres A) : Prop := forall info, r <> Err (MKeyIsLocked info).
Definition never_locked {A} (m : M A) : Prop := forall t, no_lock_met (m t).1.

Create HintDb locks.

Lemma no_lock_bind {A B} (r : mres A) (k : A -> mres B) : no_lock_met r -> (forall x, no_lock_met (k x)) -> no_lock_met (x ← r; k x).
Proof. intros Hr Hk. destruct r as [x|e|]; [apply Hk| |done]. intros info [= ->]. by destruct (Hr info). Qed.

Lemma no_lock_codec {A} (r : res codec_error A) : no_lock_met (map_err MCodec r).
Proof. by destruct r. Qed.

(** Parsing a record fails, if at all, because of its bytes. *)
Definition format_error (e : txn_error) : Prop := match e with TKeyIsLocked _ => False | _ => True end.

Lemma field_loop_error fuel : forall b st e, field_loop write_field fuel b st = Err e -> format_error e.
Proof.
  induction fuel as [|f IH]; intros b st e; [done|]. destruct b as [|tag b]; [done|]. cbn [field_loop].
  destruct (write_field tag b st) as [[[st' b']|]|e'|] eqn:E; cbn [mbind res_bind]; [apply IH|done| |done].
  intros [= <-]. destruct st. unfold write_field in E. repeat (case_match || simplify_eq || destruct (decode_u64 _) || destruct (decode_var_u64 _) || cbn in E || done).
Qed.

Lemma write_parse_error b e : write_parse b = Err e -> format_error e.
Proof.
  unfold write_parse. destruct b as [|f b]; [by intros [= <-]|]. destruct (write_type_from_u8 f); [|by intros [= <-]].
  destruct (try_decode_var_u64 b) as [[ts b']| |]; cbn [map_err mbind res_bind]; [|by intros [= <-]|done].
  destruct (parse_fields write_field b' wfields_init) as [st|e'|] eqn:E; cbn [mbind res_bind]; [|intros [= <-]; by eapply field_loop_error|done].
  unfold lc_from_parts, lc_make_exist, rassert. repeat case_match; done.
Qed.

Lemma no_lock_parse b : no_lock_met (map_err mvcc_error_from_txn (write_parse b)).
Proof. destruct (write_parse b) as [|e|] eqn:E; [done| |done]. apply write_parse_error in E. by destruct e. Qed.

Lemma no_lock_to_raw key : no_lock_met (to_raw_r key).
Proof. apply no_lock_codec. Qed.
#[export] Hint Resolve no_lock_codec no_lock_parse no_lock_to_raw : locks.

(** Follow the branches of a read. *)
Ltac no_lock :=
  repeat first
    [ done | solve [auto with locks] | apply no_lock_bind; [|intros] | progress unfold rassert, ts_prev, lc_make_exist | progress cbv zeta | case_match ].

Section MetLocks.
Context (env : CmEnv) (last_change_enabled : bool) (rd : Reader) (q : AcquireReq) (key : Key).

Lemma no_lock_seek k ts : no_lock_met (seek_write rd k ts).
Proof. unfold seek_write. no_lock. Qed.
Hint Resolve no_lock_seek : locks.

Lemma no_lock_get_write k ts limit : no_lock_met (get_write_with_commit_ts rd k ts limit).
Proof.
  unfold get_write_with_commit_ts. apply no_lock_bind; [no_lock|]. generalize (write_fuel rd). intros fuel sr.
  revert ts sr. induction fuel as [|f IH]; intros ts sr; [done|]. cbn [get_write_loop]. no_lock.
Qed.
Hint Resolve no_lock_get_write : locks.

Lemma no_lock_load_data k w : no_lock_met (load_data rd k w).
Proof. unfold load_data, get_value. no_lock. Qed.

Lemma no_lock_old_value b v ts b' w : no_lock_met (load_old_value rd q b v key ts b' w).
Proof. unfold load_old_value, get_old_value, get_write. no_lock. Qed.

Lemma no_lock_constraint w c : no_lock_met (check_data_constraint rd (aq_should_not_exist q) w c key).
Proof. unfold check_data_constraint, get_write. no_lock. Qed.
Hint Resolve no_lock_load_data no_lock_old_value no_lock_constraint : locks.

Lemma no_lock_conflict w c conflict : no_lock_met (check_constraint_or_conflict rd q w c key conflict).
Proof.
  unfold check_constraint_or_conflict. pose proof (no_lock_constraint w c) as H. destruct (check_data_constraint _ _ _ _ _) as [|e|]; [done| |done].
  assert (no_lock_met (A := unit) (Err e)) as He by (intros info [= ->]; by destruct (H info)). no_lock.
Qed.

Lemma no_lock_version fut nl start c w : no_lock_met (acquire_check_version rd q key fut nl start c w).
Proof.
  pose proof no_lock_conflict. unfold acquire_check_version, check_own_rollback, next_last_change_info, acquire_read_value, reader_get, get_write. no_lock.
Qed.
Hint Resolve no_lock_conflict no_lock_version : locks.

Lemma never_locked_bind {A B} (m : M A) (k : A -> M B) : never_locked m -> (forall x, never_locked (k x)) -> never_locked (x ← m; k x).
Proof.
  intros Hm Hk t. unfold mbind, M_bind. specialize (Hm t). destruct (m t) as [[x|e|] t']; cbn in *; [apply Hk| |done].
  intros info [= ->]. by destruct (Hm info).
Qed.

Lemma never_locked_lift {A} (r : mres A) : no_lock_met r -> never_locked (lift r).
Proof. by intros Hr t. Qed.

Lemma never_locked_into_raw k : never_locked (into_raw_m k).
Proof. apply never_locked_lift, no_lock_codec. Qed.

Lemma never_locked_put l is_new : never_locked (put_pessimistic_lock key l is_new).
Proof. intros t. unfold put_pessimistic_lock, raw_unwrap, mbind, M_bind. destruct is_new; [|done]. by destruct (key_to_raw key). Qed.

Lemma never_locked_max ts : never_locked (update_max_ts_m env ts).
Proof. intros t. unfold update_max_ts_m. by destruct (update_max_ts _ _ _) as [[] ?]. Qed.

Lemma never_locked_fail {A} e : (forall info, e <> MKeyIsLocked info) -> never_locked (fail (A := A) e).
Proof. intros He t info [= ->]. by destruct (He info). Qed.
Hint Resolve never_locked_into_raw never_locked_put never_locked_max : locks.

Ltac never_locked :=
  repeat first
    [ done | solve [auto with locks] | apply never_locked_bind; [|intros] | apply never_locked_lift; no_lock | apply never_locked_fail; done
    | progress cbv zeta | case_match ].

(** A key without a lock, or with one of the transaction. *)
Lemma never_locked_unlocked fut nl : never_locked (acquire_unlocked last_change_enabled rd q key fut nl).
Proof. unfold acquire_unlocked. never_locked. Qed.

Lemma never_locked_own l fut nl : lock_ts l = rd_start_ts rd -> never_locked (acquire_locked rd q key l fut nl).
Proof. intros Hl. unfold acquire_locked. rewrite Hl, Z.eqb_refl. cbn [negb]. never_locked. Qed.

(** The lock that an error reports is on the key and of another transaction. *)
Lemma acquire_met a fut t info t' : sees rd key a ->
  acquire_pessimistic_lock env last_change_enabled rd q key fut t = (Err (MKeyIsLocked info), t') ->
  exists l raw, kv_lock a = Some l /\ lock_ts l <> rd_start_ts rd /\ key_into_raw key = Ok raw /\ info = into_lock_info l raw.
Proof.
  intros Hs. unfold acquire_pessimistic_lock. destruct (aq_lock_only_if_exists q && negb (aq_need_value q)).
  { intros E. exfalso. assert (never_locked (A := PessimisticLockKeyResult * OldValue) (raw ← into_raw_m key; fail (MLockIfExistsFailed (rd_start_ts rd) raw))) as H
      by never_locked. specialize (H t info). by rewrite E in H. }
  unfold mbind at 1, M_bind at 1.
  match goal with |- context [match ?x t with _ => _ end] => assert (never_locked x) as Hx by never_locked; specialize (Hx t); destruct (x t) as [[[]|e|] t1] end;
    [|intros [= -> ->]; by destruct (Hx info)|done].
  rewrite bind_lift, (sees_load_lock rd key a Hs). destruct (kv_lock a) as [l|].
  - destruct (Z.eq_dec (lock_ts l) (rd_start_ts rd)) as [Hts|Hts].
    { intros E. pose proof (never_locked_own l fut (aq_need_value q || aq_need_check_existence q && aq_need_old_value q) Hts t1 info) as H. by rewrite E in H. }
    unfold acquire_locked. rewrite (proj2 (Z.eqb_neq _ _) Hts). cbn [negb]. unfold into_raw_m. rewrite bind_lift.
    destruct (key_into_raw key) as [raw| |]; cbn; [|done..]. intros [= <- _]. by exists l, raw.
  - intros E. pose proof (never_locked_unlocked fut (aq_need_value q || aq_need_check_existence q && aq_need_old_value q) t1 info) as H. by rewrite E in H.
Qed.

(** Locking only an existing key needs its value. *)
Lemma acquire_needs_value fut t x t' : acquire_pessimistic_lock env last_change_enabled rd q key fut t = (Ok x, t') ->
  aq_lock_only_if_exists q = true -> aq_need_value q = true.
Proof.
  unfold acquire_pessimistic_lock. intros E Ho. rewrite Ho in E. destruct (aq_need_value q); [done|]. cbn [andb negb] in E.
  unfold into_raw_m in E. rewrite bind_lift in E. by destruct (map_err MCodec (key_into_raw key)).
Qed.
End MetLocks.

(** Whatever the contents are, the locks of a one-phase commit stay. *)
Lemma acquire_one_pc env lce rd q key fut t r t' : acquire_pessimistic_lock env lce rd q key fut t = (r, t') ->
  txn_locks_for_1pc t' = txn_locks_for_1pc t.
Proof.
  assert (Hput : forall l n (x : MvccTxn), txn_locks_for_1pc (put_pessimistic_lock key l n x).2 = txn_locks_for_1pc x).
  { intros l n x. unfold put_pessimistic_lock, raw_unwrap, mbind, M_bind. destruct n; [|done]. by destruct (key_to_raw key). }
  assert (Hbind : forall A B (m : M A) (f : A -> M B), (forall x, txn_locks_for_1pc (m x).2 = txn_locks_for_1pc x) ->
            (forall y x, txn_locks_for_1pc (f y x).2 = txn_locks_for_1pc x) -> forall x, txn_locks_for_1pc ((m ≫= f) x).2 = txn_locks_for_1pc x).
  { intros A B m f Hm Hf x. unfold mbind, M_bind. pose proof (Hm x) as Hx. destruct (m x) as [[y| |] x']; cbn in Hx |- *; by rewrite ?Hf. }
  intros Hrun. replace t' with (acquire_pessimistic_lock env lce rd q key fut t).2 by (by rewrite Hrun). clear Hrun.
  unfold acquire_pessimistic_lock. destruct (_ && _); [by apply Hbind|]. apply Hbind.
  { intros x. destruct (_ || _); [|done]. unfold update_max_ts_m. by destruct (update_max_ts _ _ _) as [[] ?]. }
  intros _. apply Hbind; [done|]. intros [l|].
  - unfold acquire_locked. destruct (negb _); [by apply Hbind|]. destruct (negb _); [by apply Hbind|]. apply Hbind; [done|]. intros v.
    apply Hbind; [done|]. intros ov. apply Hbind; [|done]. intros x. by destruct (_ <? _).
  - unfold acquire_unlocked. apply Hbind; [done|]. intros x. apply Hbind; [done|]. intros y. apply Hbind; [done|]. intros ov.
    apply Hbind; [|done]. intros z. destruct (_ || _); [done|]. destruct (ar_conflict y); [by apply Hbind|done].
Qed.
