(* ===== verification/LockSafety.v ===== *)
(** * The effect of the pessimistic lock commands on the engine

    The commands of [LockCommands.v] run on engines that the commit protocol
    produced, possibly with pessimistic locks on top. They change no version,
    never touch the lock of another transaction, and lock all the keys of a
    request or none. A request that is resumed is paired with its own callback. *)
From S2P Require Import Prelude Number Bytes Timestamp Key Fields Lock Write OrderedMap PeerLocks Engine.
From S2P Require Import ConcurrencyManager Reader Versions MvccTxn CheckTxnStatus Prewrite AcquirePessimisticLock Commands PrewriteCommand.
From S2P Require Import KeyView Protocol ActionSpec ReadSpec PrewriteSpec PrewriteCommandSpec System Demo Safety.
From S2P Require Import LockWaiting LockCommands LockCommandsSpec.
Local Open Scope Z_scope.

(** ** Engines with pessimistic locks *)

(** Where no lock is, the contents are those of the commit protocol. *)
Definition locking_inv (e : Engine) : Prop :=
  engine_wf e /\ forall key, user_key key -> kv_lock (view e key) = None -> kinv (view e key).

(** The widths a request respects. *)
Definition lock_request_wf (p : LockParameters) : Prop :=
  txn_ts (lp_start_ts p) /\ is_u64 (lp_for_update_ts p) /\ is_u64 (lp_lock_ttl p) /\ is_u64 (lp_min_commit_ts p) /\
  Z.of_nat (length (lp_primary p)) < 2 ^ 63.

Lemma sees_locking e st ctx key : locking_inv e -> txn_ts st -> user_key key -> sees (new_with_ctx st (snap e) ctx) key (view e key).
Proof. intros [He _] Hst Hk. constructor; done. Qed.

(** Modifications that put at most one pessimistic lock on the key. *)
Definition single_lock (k : Key) (ms : list Modify) : Prop :=
  ms = [] \/ exists pl, ms = [ModifyPessimisticLock k pl] /\ lock_wf (pl_to_lock pl).
Definition lock_after (a : KV) (ms : list Modify) : KV :=
  match ms with ModifyPessimisticLock _ pl :: _ => mk_kv (Some (pl_to_lock pl)) (kv_ver a) (kv_val a) | _ => a end.

Lemma write_single e k ms : engine_wf e -> user_key k -> single_lock k ms ->
  exists e', write_modifies (E := kv_error) e ms = Ok e' /\ engine_wf e' /\ view e' k = lock_after (view e k) ms /\
    forall k', user_key k' -> k' <> k -> view e' k' = view e k'.
Proof.
  intros He Hk [->|(pl & -> & Hw)]; [by exists e|].
  destruct (write_modify_wf e k (KPutLock (pl_to_lock pl)) He Hk) as (e' & E & He' & Hv & Ho); [done|].
  exists e'. split; [|done]. cbn in E |- *. exact E.
Qed.

(** Locks on distinct keys. *)
Lemma write_locks ks mss : forall e, engine_wf e -> NoDup ks -> Forall user_key ks -> Forall2 single_lock ks mss ->
  exists e', write_modifies (E := kv_error) e (concat mss) = Ok e' /\ engine_wf e' /\
    (forall k ms, (k, ms) ∈ zip ks mss -> view e' k = lock_after (view e k) ms) /\
    (forall k, user_key k -> k ∉ ks -> view e' k = view e k).
Proof.
  intros e He Hnd Huk Hf. revert e He Hnd Huk.
  induction Hf as [|k ms ks mss Hs Hf IH]; intros e He Hnd Huk.
  { exists e. split; [done|]. split; [done|]. split; [|done]. intros k ms Hin. by apply elem_of_nil in Hin. }
  apply NoDup_cons in Hnd as [Hni Hnd]. apply Forall_cons in Huk as [Hk Huk].
  destruct (write_single e k ms He Hk Hs) as (e1 & E1 & He1 & Hv1 & Ho1).
  destruct (IH e1 He1 Hnd Huk) as (e2 & E2 & He2 & Hv2 & Ho2). exists e2.
  split; [cbn [concat]; by rewrite write_modifies_app, E1|]. split; [done|]. split.
  - intros k' ms'. cbn [zip zip_with]. intros [[= -> ->]|Hin]%elem_of_cons; [by rewrite Ho2|]. rewrite (Hv2 _ _ Hin). rewrite Ho1; [done| |].
    + rewrite Forall_forall in Huk. apply Huk. by eapply elem_of_zip_l.
    + intros ->. apply Hni. by eapply elem_of_zip_l.
  - intros k' Hk'. rewrite not_elem_of_cons. intros [Hne Hn]. rewrite Ho2, Ho1; done.
Qed.

(** ** One key *)

(** The transaction has a pessimistic lock that covers the request, and, when
    it is new, every version. *)
Definition holds_pessimistic (st fut : TimeStamp) (a a' : KV) : Prop :=
  exists l, kv_lock a' = Some l /\ lock_ts l = st /\ is_pessimistic_lock l = true /\ fut <= lock_for_update_ts l /\
    (kv_lock a = None -> forall c w, kv_ver a !! c = Some w -> c <= lock_for_update_ts l).

(** What a request does to the contents of a key. A request that only locks
    existing keys leaves a key that has neither a lock nor a value. *)
Record key_locked (st fut : TimeStamp) (only_if_exists : bool) (a a' : KV) : Prop := {
  kl_versions : kv_ver a' = kv_ver a /\ kv_val a' = kv_val a;
  kl_own : forall l, kv_lock a = Some l -> lock_ts l = st;
  kl_holds : holds_pessimistic st fut a a' \/ (only_if_exists = true /\ kv_lock a = None /\ value_at a ts_max None /\ a' = a)
}.

Section OneKey.
Context (e : Engine) (ctx : Context) (need_old allow : bool) (p : LockParameters) (k : Key) (sne : bool).
Hypothesis Hinv : locking_inv e.
Hypothesis Hp : lock_request_wf p.
Hypothesis Hk : user_key k.
Let st := lp_start_ts p.
Let fut := lp_for_update_ts p.
Let rd := new_with_ctx st (snap e) ctx.
Let q := lock_request need_old p sne allow.

Lemma requested_lock_wf f lc b : is_u64 f -> lc_wf lc -> lock_wf (pl_to_lock (requested_lock rd q f lc b)).
Proof.
  intros Hf Hlc. destruct Hp as ((Hst & _) & _ & Httl & Hmin & Hprim). unfold lock_wf, pl_to_lock, requested_lock. cbn.
  split_and!; done || constructor.
Qed.

Lemma acquired_single res ms : acquired rd q k (view e k) fut res ms -> single_lock k ms.
Proof.
  unfold acquired. destruct (kv_lock (view e k)) as [l|] eqn:El.
  - intros (_ & _ & ->). destruct (_ <? fut); [right|by left]. eexists. split; [done|]. apply requested_lock_wf; [apply Hp|].
    destruct (sees_lock_wf _ _ _ (sees_locking e st ctx k Hinv (proj1 Hp) Hk) l El) as [Hl _]. unfold lock_wf in Hl. tauto.
  - intros (fut' & v & lc & _ & Hu & Hlc & _ & ->). destruct (_ || _); [right|by left]. eexists. split; [done|]. by apply requested_lock_wf.
Qed.

Lemma acquired_locks res ms : (lp_lock_only_if_exists p = true -> lp_return_values p = true) -> acquired rd q k (view e k) fut res ms ->
  key_locked st fut (lp_lock_only_if_exists p) (view e k) (lock_after (view e k) ms).
Proof.
  intros Hneed. unfold acquired. destruct (kv_lock (view e k)) as [l|] eqn:El.
  - intros (Hts & Hpl & ->). destruct (Z.ltb_spec (lock_for_update_ts l) fut); constructor; cbn [lock_after kv_ver kv_val kv_lock]; try done.
    + intros x. rewrite El. by intros [= <-].
    + left. eexists. split; [done|]. split; [done|]. split; [done|]. split; [cbn; lia|]. rewrite El. done.
    + intros x. rewrite El. by intros [= <-].
    + left. exists l. split; [done|]. split; [done|]. split; [done|]. split; [lia|]. rewrite El. done.
  - intros (fut' & v & lc & Hcov & Hu & Hlc & _ & ->). constructor.
    + by destruct (_ || _).
    + intros x. by rewrite El.
    + cbn [aq_lock_only_if_exists q lock_request]. destruct (negb (lp_lock_only_if_exists p) || bool_decide (is_Some v)) eqn:Eput; cbn [lock_after].
      * left. eexists. split; [done|]. split; [done|]. split; [done|]. split; [apply (lv_requested _ _ _ _ _ _ Hcov)|].
        intros _. apply (lv_newest _ _ _ _ _ _ Hcov).
      * right. apply orb_false_iff in Eput as [Ho%negb_false_iff Hv%bool_decide_eq_false]. split_and!; [done|done| |done].
        assert (v = None) as -> by (destruct v; [by destruct Hv; eexists|done]).
        apply (lv_value _ _ _ _ _ _ Hcov). left. by apply Hneed.
Qed.
End OneKey.

(** ** AcquirePessimisticLock *)

Section LockCommand.
Context (fingerprint64 : bytes -> Z) (latch_hash : Key -> Z) (env : CmEnv) (last_change_enabled : bool) (cm : ConcurrencyManager).
Context (e : Engine) (ctx : Context) (need_old : bool) (p : LockParameters).
Hypothesis Hinv : locking_inv e.
Hypothesis Hp : lock_request_wf p.
Let st := lp_start_ts p.
Let fut := lp_for_update_ts p.
Let rd := new_with_ctx st (snap e) ctx.
Let allow := lp_allow_lock_with_conflict p.

(** The information is that of a lock of another transaction on the key. *)
Definition others_lock (k : Key) (info : LockInfo) : Prop :=
  exists l raw, kv_lock (view e k) = Some l /\ lock_ts l <> st /\ key_into_raw k = Ok raw /\ info = into_lock_info l raw.

(** The request met such a lock on one of its keys. *)
Definition met_on (keys : list (Key * bool)) (m : WriteResultLockInfo) : Prop :=
  (wl_key m, wl_should_not_exist m) ∈ keys /\ wl_parameters m = p /\ others_lock (wl_key m) (wl_lock_info_pb m).

(** The modifications [ms] are those of a success on the key. *)
Definition key_acquired (ks : Key * bool) (ms : list Modify) : Prop :=
  (lp_lock_only_if_exists p = true -> lp_return_values p = true) /\
  exists res, acquired rd (lock_request need_old p ks.2 allow) ks.1 (view e ks.1) fut res ms.

Lemma adds_app t t1 t2 ms1 ms2 : adds t t1 ms1 -> adds t1 t2 ms2 -> adds t t2 (ms1 ++ ms2).
Proof. intros [H1 H2 H3] [H4 H5 H6]. split; [by rewrite H4, H1, app_assoc|congruence..]. Qed.

Lemma lock_keys_spec keys : forall results old t results' old' met t', Forall user_key keys.*1 -> txn_start_ts t = st ->
  lock_keys fingerprint64 latch_hash env last_change_enabled need_old rd p keys results old t = (Ok (results', old', met), t') ->
  (met = [] /\ exists mss rs, results' = results ++ map KRDone rs /\ length rs = length keys /\ adds t t' (concat mss) /\
     Forall2 key_acquired keys mss)
  \/ exists l, met = [l] /\ met_on keys l /\ results' = [KRWaiting] /\ txn_modifies t' = [] /\ txn_locks_for_1pc t' = [].
Proof.
  induction keys as [|[k sne] keys IH]; intros results old t results' old' met t' Huk Ht; cbn [lock_keys].
  { intros [= <- <- <- <-]. left. split; [done|]. exists [], []. cbn. rewrite app_nil_r. split_and!; try done. apply adds_refl. }
  apply Forall_cons in Huk as [Hk Huk].
  destruct (acquire_pessimistic_lock _ _ _ _ _ _ t) as [r t1] eqn:Ea. pose proof Ea as Ea0.
  pose proof (sees_locking e st ctx k Hinv (proj1 Hp) Hk) as Hsees.
  apply (acquire_spec env last_change_enabled rd _ k (view e k) Hsees) in Ea; [|by apply Hinv|apply Hp|done].
  destruct r as [[res ov]|er|]; [|destruct er; try done|done].
  - destruct Ea as (ms & Hadd & Hacq). intros Hrun. apply IH in Hrun; [|done|by rewrite (bf_start_ts _ _ _ Hadd)].
    destruct Hrun as [(-> & mss & rs & -> & Hlen & Hadd' & Hf)|(l & Hl & (Hin & Hmet) & Hrest)].
    2:{ right. exists l. split; [done|]. split; [|done]. split; [by right|done]. }
    left. split; [done|]. exists (ms :: mss), (res :: rs). cbn. rewrite <- app_assoc. split_and!; [done|by rewrite Hlen|by eapply adds_app|].
    constructor; [|done]. split; [exact (acquire_needs_value _ _ _ _ _ _ _ _ _ Ea0)|by exists res].
  - unfold met_lock_new. destruct (gen_hash _ _) as [h| |]; [|done..]. intros [= <- <- <- <-]. right. eexists. split; [done|].
    split; [|done]. split; [by left|]. split; [done|]. exact (acquire_met _ _ _ _ _ _ _ _ _ _ Hsees Ea0).
Qed.

(** A lock of another transaction was met on a key: the request waits for it,
    or it reports the lock at once. *)
Definition waits_or_fails (keys : list (Key * bool)) (w : LockWriteResult) : Prop :=
  match wr_pr (lw_result w), lw_lock_info w with
  | inl [KRWaiting], [m] => lp_wait_timeout p <> None /\ met_on keys m
  | inl [KRFailed (SEMvcc (MKeyIsLocked info))], [] =>
      lp_wait_timeout p = None /\ allow = true /\ exists k, k ∈ keys.*1 /\ others_lock k info
  | inr (SEMvcc (MKeyIsLocked info)), [] => lp_wait_timeout p = None /\ allow = false /\ exists k, k ∈ keys.*1 /\ others_lock k info
  | _, _ => False
  end.

Lemma lock_command_modifies keys w : Forall user_key keys.*1 ->
  acquire_pessimistic_lock_command fingerprint64 latch_hash env last_change_enabled cm (snap e) ctx need_old keys p = Ok w ->
  (exists mss rs, wr_modifies (lw_result w) = concat mss /\ wr_pr (lw_result w) = inl (map KRDone rs) /\ length rs = length keys /\
     lw_lock_info w = [] /\ Forall2 key_acquired keys mss)
  \/ wr_modifies (lw_result w) = [] /\ waits_or_fails keys w.
Proof.
  intros Huk. unfold acquire_pessimistic_lock_command. destruct (_ && _); [done|]. fold st. fold rd.
  destruct (lock_keys _ _ _ _ _ _ _ _ _ _ _) as [[[[results old] met]| |] t] eqn:Hrun; [|done..].
  apply lock_keys_spec in Hrun; [|done|done]. unfold into_modifies.
  destruct Hrun as [(-> & mss & rs & -> & Hlen & [Hm _ H1] & Hf)|(l & -> & Hmet & -> & Hm & H1)].
  - cbn in Hm, H1. rewrite H1, Hm. cbn. intros [= <-]. left. exists mss, rs. done.
  - rewrite Hm, H1. cbn [length rassert mbind res_bind]. unfold no_wait_result, waits_or_fails. fold allow. intros Hw. right.
    destruct (lp_wait_timeout p) as [wt|] eqn:Ewt; [injection Hw as <-; by cbn|].
    assert (exists k, k ∈ keys.*1 /\ others_lock k (wl_lock_info_pb l)) as Hex.
    { destruct Hmet as (Hin & _ & Ho). exists (wl_key l). split; [|done]. apply list_elem_of_fmap. by exists (wl_key l, wl_should_not_exist l). }
    destruct allow eqn:Ea; injection Hw as <-; cbn; done.
Qed.
End LockCommand.

(** ** AcquirePessimisticLockResumed *)

Section ResumedCommand.
Context (fingerprint64 : bytes -> Z) (latch_hash : Key -> Z) (env : CmEnv) (last_change_enabled : bool) (cm : ConcurrencyManager).
Context (e : Engine) (ctx : Context) (need_old : bool).

Definition item_ok (i : ResumedItem) : Prop := lock_request_wf (ri_params i) /\ user_key (ri_key i).

(** What a result says of the modifications of its item. *)
Definition item_result (i : ResumedItem) (r : KeyResult) (ms : list Modify) : Prop :=
  match r with
  | KRDone res =>
      (lp_lock_only_if_exists (ri_params i) = true -> lp_return_values (ri_params i) = true) /\
      acquired (new_with_ctx (lp_start_ts (ri_params i)) (snap e) ctx) (lock_request need_old (ri_params i) (ri_should_not_exist i) true)
        (ri_key i) (view e (ri_key i)) (lp_for_update_ts (ri_params i)) res ms
  | _ => ms = []
  end.

(** The action on the key of the item, with the parameters of the item, ends
    with [r]. *)
Definition action_ends (i : ResumedItem) (r : mres (PessimisticLockKeyResult * OldValue)) : Prop :=
  exists t t', txn_start_ts t = lp_start_ts (ri_params i) /\
    acquire_pessimistic_lock env last_change_enabled (new_with_ctx (lp_start_ts (ri_params i)) (snap e) ctx)
      (lock_request need_old (ri_params i) (ri_should_not_exist i) true) (ri_key i) (lp_for_update_ts (ri_params i)) t = (r, t').

(** The result reports what the action of the item said. *)
Definition own_result (i : ResumedItem) (r : KeyResult) : Prop :=
  match r with
  | KRDone res => exists old, action_ends i (Ok (res, old))
  | KRWaiting => exists info, action_ends i (Err (MKeyIsLocked info))
  | KRFailed (SEMvcc er) => action_ends i (Err er) /\ forall info, er <> MKeyIsLocked info
  | KRFailed _ => False
  end.

(** The met locks are those of the items that wait, in order. *)
Definition met_of (i : ResumedItem) (l : WriteResultLockInfo) : Prop :=
  wl_key l = ri_key i /\ wl_should_not_exist l = ri_should_not_exist i /\ wl_parameters l = ri_params i /\
  wl_lock_wait_token l = Some (ri_lock_wait_token i) /\ action_ends i (Err (MKeyIsLocked (wl_lock_info_pb l))).
Definition waiting_items (irs : list (ResumedItem * KeyResult)) : list ResumedItem :=
  omap (fun x => match x.2 with KRWaiting => Some x.1 | _ => None end) irs.

Definition pending (s : ResumedState) : list Modify := match rs_txn s with Some t => txn_modifies t | None => [] end.

(** The state after some items. *)
Record resumed_so_far (items : list ResumedItem) (s : ResumedState) : Prop := {
  rf_length : length (rs_results s) = length items;
  rf_own : Forall2 own_result items (rs_results s);
  rf_met : Forall2 met_of (waiting_items (zip items (rs_results s))) (rs_met s);
  rf_one_pc : forall t, rs_txn s = Some t -> txn_locks_for_1pc t = [];
  rf_modifies : locking_inv e -> Forall item_ok items ->
    exists mss, rs_modifies s ++ pending s = concat mss /\ Forall3 item_result items (rs_results s) mss
}.

Lemma txn_for_spec items s start_ts t ms nl : resumed_so_far items s -> txn_for cm s start_ts = Ok (t, ms, nl) ->
  txn_start_ts t = start_ts /\ txn_locks_for_1pc t = [] /\ ms ++ txn_modifies t = rs_modifies s ++ pending s.
Proof.
  intros Hs. unfold txn_for, pending. pose proof (rf_one_pc _ _ Hs) as H1. destruct (rs_txn s) as [t0|]; [|intros [= <- <- <-]; done].
  destruct (Z.eqb_spec (txn_start_ts t0) start_ts); [intros [= <- <- <-]; by rewrite H1|].
  unfold into_modifies. rewrite H1 by done. cbn. intros [= <- <- <-]. cbn. by rewrite app_nil_r.
Qed.

Lemma waiting_items_app irs irs' : waiting_items (irs ++ irs') = waiting_items irs ++ waiting_items irs'.
Proof. unfold waiting_items. apply omap_app. Qed.

Lemma resumed_add items s i t ms nl t' r met old : resumed_so_far items s -> txn_for cm s (lp_start_ts (ri_params i)) = Ok (t, ms, nl) ->
  own_result i r -> Forall2 met_of (waiting_items [(i, r)]) met -> txn_locks_for_1pc t' = txn_locks_for_1pc t ->
  (locking_inv e -> item_ok i -> exists new, adds t t' new /\ item_result i r new) ->
  resumed_so_far (items ++ [i]) (mk_resumed_state (Some t') ms nl (rs_results s ++ [r]) (rs_met s ++ met) old).
Proof.
  intros Hs Ht Hown Hmet H1 Hnew. destruct (txn_for_spec _ _ _ _ _ _ Hs Ht) as (Hst & H1pc & Hms).
  destruct Hs as [Hl Hrs Hm Ho Hmod]. constructor; cbn.
  - rewrite !length_app. by rewrite Hl.
  - apply Forall2_app; [done|]. by repeat constructor.
  - rewrite zip_with_app by done. rewrite waiting_items_app. by apply Forall2_app.
  - intros x [= <-]. by rewrite H1.
  - intros Hi [Hok Hoki]%Forall_app. destruct (Hmod Hi Hok) as (mss & Hc & Hf). rewrite Forall_singleton in Hoki.
    destruct (Hnew Hi Hoki) as (new & [Hadd _ _] & Hr). exists (mss ++ [new]). split.
    + rewrite Hadd, app_assoc, Hms, Hc, concat_app. cbn. by rewrite app_nil_r.
    + apply Forall3_app; [done|]. by repeat constructor.
Qed.

Lemma resume_item_spec items s i s' : resumed_so_far items s ->
  resume_item fingerprint64 latch_hash env last_change_enabled cm (snap e) ctx need_old s i = Ok s' -> resumed_so_far (items ++ [i]) s'.
Proof.
  intros Hs. unfold resume_item. destruct (txn_for cm s _) as [[[t ms] nl]| |] eqn:Ht; [|done..]. cbn [mbind res_bind].
  destruct (acquire_pessimistic_lock _ _ _ _ _ _ t) as [r t1] eqn:Ea.
  assert (Hact : action_ends i r) by (exists t, t1; split; [by eapply txn_for_spec|done]).
  assert (Hout : locking_inv e -> item_ok i ->
            acquire_outcome (new_with_ctx (lp_start_ts (ri_params i)) (snap e) ctx) (lock_request need_old (ri_params i) (ri_should_not_exist i) true)
              (ri_key i) (view e (ri_key i)) (lp_for_update_ts (ri_params i)) t t1 r).
  { intros Hi [Hp Hk]. eapply acquire_spec; [by apply sees_locking; [|apply Hp|]|by apply Hi|apply Hp|by eapply txn_for_spec|exact Ea]. }
  pose proof (acquire_one_pc _ _ _ _ _ _ _ _ _ Ea) as H1. unfold acquire_outcome in Hout.
  assert (Hfail : forall er, r = Err er -> forall x, x = KRWaiting \/ (exists er', x = KRFailed er') ->
            locking_inv e -> item_ok i -> exists new, adds t t1 new /\ item_result i x new).
  { intros er -> x Hx Hi Hok. exists []. split; [by apply Hout|]. by destruct Hx as [-> |[er' ->]]. }
  destruct r as [[res ov]|er|]; [| |done].
  - intros [= <-]. rewrite <- (app_nil_r (rs_met s)). eapply resumed_add; try done; [by exists ov|].
    intros Hi Hok. destruct (Hout Hi Hok) as (ms' & Hadd & Hacq). exists ms'. split; [done|]. split; [|done].
    exact (acquire_needs_value _ _ _ _ _ _ _ _ _ Ea).
  - destruct er; try (intros [= <-]; rewrite <- (app_nil_r (rs_met s)); eapply resumed_add; try done; by eapply Hfail; eauto).
    destruct (met_lock_new _ _ _ _ _ _) as [l| |] eqn:Hl; [|done..]. intros [= <-]. eapply resumed_add; try done; [by eexists| |by eapply Hfail; eauto].
    unfold met_lock_new in Hl. destruct (gen_hash _ _) as [h| |]; [|done..]. injection Hl as <-. by repeat constructor.
Qed.

Lemma resume_items_spec items : forall before s s', resumed_so_far before s ->
  resume_items fingerprint64 latch_hash env last_change_enabled cm (snap e) ctx need_old s items = Ok s' -> resumed_so_far (before ++ items) s'.
Proof.
  induction items as [|i items IH]; intros before s s' Hs; cbn [resume_items]; [intros [= <-]; by rewrite app_nil_r|].
  destruct (resume_item _ _ _ _ _ _ _ _ s i) as [s1| |] eqn:Hi; [|done..]. cbn [mbind res_bind]. intros Hrun.
  apply (resume_item_spec before) in Hi; [|done]. apply (IH (before ++ [i]) s1 s' Hi) in Hrun. by rewrite <- app_assoc in Hrun.
Qed.

Lemma resumed_command_spec items w :
  acquire_pessimistic_lock_resumed fingerprint64 latch_hash env last_change_enabled cm (snap e) ctx need_old items = Ok w ->
  exists rs, wr_pr (lw_result w) = inl rs /\ length rs = length items /\ Forall2 own_result items rs /\
    Forall2 met_of (waiting_items (zip items rs)) (lw_lock_info w) /\
    (locking_inv e -> Forall item_ok items -> exists mss, wr_modifies (lw_result w) = concat mss /\ Forall3 item_result items rs mss).
Proof.
  unfold acquire_pessimistic_lock_resumed. destruct (resume_items _ _ _ _ _ _ _ _ _ items) as [s| |] eqn:Hrun; [|done..]. cbn [mbind res_bind].
  apply (resume_items_spec items []) in Hrun.
  2:{ constructor; cbn; try done. intros _ _. exists []. split; [done|constructor]. }
  cbn [app] in Hrun. destruct Hrun as [Hl Hrs Hm Ho Hmod].
  assert (Hend : forall ms, ms = rs_modifies s ++ pending s -> locking_inv e -> Forall item_ok items ->
            exists mss, ms = concat mss /\ Forall3 item_result items (rs_results s) mss) by (intros ms ->; exact Hmod).
  unfold pending in Hend. destruct (rs_txn s) as [t|].
  - destruct (txn_is_empty t) eqn:Et.
    + intros [= <-]. exists (rs_results s). split_and!; try done. apply Hend. cbn. unfold txn_is_empty in Et.
      apply andb_true_iff in Et as [Et%bool_decide_eq_true _]. destruct (txn_modifies t); [by rewrite app_nil_r|done].
    + unfold into_modifies. rewrite (Ho t eq_refl). cbn. intros [= <-]. exists (rs_results s). split_and!; try done. by apply Hend.
  - intros [= <-]. exists (rs_results s). split_and!; try done. apply Hend. cbn. by rewrite app_nil_r.
Qed.
End ResumedCommand.

(** ** Engines the commands reach *)

Lemma zip_partner {A B} (l : list A) (k : list B) x : length l = length k -> x ∈ l -> exists y, (x, y) ∈ zip l k.
Proof.
  revert k. induction l as [|z l IH]; intros [|y k] Hlen Hin; cbn in *; try done; [by apply elem_of_nil in Hin|].
  apply elem_of_cons in Hin as [->|Hin]; [exists y; by left|]. destruct (IH k) as [y' Hy]; [lia|done|]. exists y'. by right.
Qed.

Lemma Forall2_zip_in {A B} (P : A -> B -> Prop) l k x : Forall2 P l k -> x ∈ l -> exists y, (x, y) ∈ zip l k /\ P x y.
Proof.
  intros Hf. induction Hf as [|a b l k Hab Hf IH]; intros Hin; [by apply elem_of_nil in Hin|].
  apply elem_of_cons in Hin as [->|Hin]; [exists b; split; [by left|done]|]. destruct (IH Hin) as (y & Hy & Hp). exists y. split; [by right|done].
Qed.

Lemma zip_fmap_in {A B C} (f : A -> B) (l : list A) (k : list C) x y : (x, y) ∈ zip l k -> (f x, y) ∈ zip (f <$> l) k.
Proof.
  revert k. induction l as [|a l IH]; intros [|c k]; cbn; try (by intros ?%elem_of_nil).
  intros [[= -> ->]|Hin]%elem_of_cons; [by left|]. right. by apply IH.
Qed.

Lemma locked_engine e e' ks mss : locking_inv e -> NoDup ks -> Forall user_key ks -> Forall2 single_lock ks mss ->
  write_modifies (E := kv_error) e (concat mss) = Ok e' ->
  locking_inv e' /\ (forall k ms, (k, ms) ∈ zip ks mss -> view e' k = lock_after (view e k) ms) /\
  (forall k, user_key k -> k ∉ ks -> view e' k = view e k).
Proof.
  intros [He Hi] Hnd Huk Hf Hw. destruct (write_locks ks mss e He Hnd Huk Hf) as (e1 & E1 & He1 & Hv & Ho).
  assert (e1 = e') as -> by congruence. split; [|done]. split; [done|]. intros k Hk Hn.
  destruct (decide (k ∈ ks)) as [Hin|Hni]; [|rewrite Ho in Hn |- * by done; by apply Hi].
  destruct (zip_partner ks mss k) as [ms Hz]; [by eapply Forall2_length|done|]. rewrite (Hv _ _ Hz) in Hn |- *.
  destruct ms as [|[]]; cbn in Hn |- *; try (by apply Hi). done.
Qed.

Inductive lock_step (e : Engine) : Engine -> Prop :=
| ls_lock fp lh env lce cm ctx need_old keys p w e' :
    lock_request_wf p -> NoDup keys.*1 -> Forall user_key keys.*1 ->
    acquire_pessimistic_lock_command fp lh env lce cm (snap e) ctx need_old keys p = Ok w ->
    write_modifies (E := kv_error) e (wr_modifies (lw_result w)) = Ok e' -> lock_step e e'
| ls_resumed fp lh env lce cm ctx need_old items w e' :
    Forall item_ok items -> NoDup (ri_key <$> items) ->
    acquire_pessimistic_lock_resumed fp lh env lce cm (snap e) ctx need_old items = Ok w ->
    write_modifies (E := kv_error) e (wr_modifies (lw_result w)) = Ok e' -> lock_step e e'.

(** The commands of the commit protocol, and then the ones that lock. *)
Definition lock_reachable (e : Engine) : Prop := exists e0, reachable e0 /\ rtc lock_step e0 e.

Lemma lock_command_effect fp lh env lce cm e e' ctx need_old keys p w : locking_inv e -> lock_request_wf p -> NoDup keys.*1 ->
  Forall user_key keys.*1 -> acquire_pessimistic_lock_command fp lh env lce cm (snap e) ctx need_old keys p = Ok w ->
  write_modifies (E := kv_error) e (wr_modifies (lw_result w)) = Ok e' ->
  locking_inv e' /\ (forall k, user_key k -> k ∉ keys.*1 -> view e' k = view e k) /\
  ((exists rs, wr_pr (lw_result w) = inl (map KRDone rs) /\ length rs = length keys /\ lw_lock_info w = [] /\
      forall k sne, (k, sne) ∈ keys ->
        key_locked (lp_start_ts p) (lp_for_update_ts p) (lp_lock_only_if_exists p) (view e k) (view e' k))
   \/ waits_or_fails e p keys w /\ e' = e).
Proof.
  intros Hi Hp Hnd Huk Hrun Hw.
  destruct (lock_command_modifies fp lh env lce cm e ctx need_old p Hi Hp keys w Huk Hrun) as [(mss & rs & Hm & Hpr & Hlen & Hli & Hf)|[Hm Hwf]].
  - rewrite Hm in Hw. assert (Hs : Forall2 single_lock keys.*1 mss).
    { apply Forall2_fmap_l. clear -Hf Hi Hp Huk. induction Hf as [|[k sne] ms keys mss (Hneed & res & Hacq) Hf IH]; [constructor|].
      apply Forall_cons in Huk as [Hk Huk]. constructor; [by eapply acquired_single|by apply IH]. }
    destruct (locked_engine e e' keys.*1 mss Hi Hnd Huk Hs Hw) as (Hi' & Hv & Ho). split; [done|]. split; [done|]. left. exists rs.
    split; [done|]. split; [done|]. split; [done|]. intros k sne Hin.
    destruct (Forall2_zip_in _ keys mss (k, sne) Hf Hin) as (ms & Hz & Hneed & res & Hacq).
    rewrite (Hv k ms) by (exact (zip_fmap_in fst keys mss (k, sne) ms Hz)). eapply acquired_locks; [exact Hneed|exact Hacq].
  - rewrite Hm in Hw. injection Hw as <-. split; [done|]. split; [done|]. by right.
Qed.

(** The results of the resumed command, item by item. *)
Definition item_effect (e e' : Engine) (i : ResumedItem) (r : KeyResult) : Prop :=
  match r with
  | KRDone _ => key_locked (lp_start_ts (ri_params i)) (lp_for_update_ts (ri_params i)) (lp_lock_only_if_exists (ri_params i))
                  (view e (ri_key i)) (view e' (ri_key i))
  | _ => view e' (ri_key i) = view e (ri_key i)
  end.

Lemma item_results_single e ctx need_old items rs mss : locking_inv e -> Forall item_ok items ->
  Forall3 (item_result e ctx need_old) items rs mss -> Forall2 single_lock (ri_key <$> items) mss.
Proof.
  intros Hi Hok Hf. induction Hf as [|i r ms items rs mss Hr Hf IH]; [constructor|]. apply Forall_cons in Hok as [[Hp Hk] Hok].
  constructor; [|by apply IH]. destruct r as [res| |er]; cbn in Hr; [|by left..]. by eapply acquired_single, Hr.
Qed.

Lemma item_results_effect e e' ctx need_old items rs mss : Forall3 (item_result e ctx need_old) items rs mss ->
  (forall k ms, (k, ms) ∈ zip (ri_key <$> items) mss -> view e' k = lock_after (view e k) ms) -> Forall2 (item_effect e e') items rs.
Proof.
  intros Hf. induction Hf as [|i r ms items rs mss Hr Hf IH]; intros Hv; [constructor|].
  constructor; [|apply IH; intros k' ms' Hin; apply Hv; by right].
  unfold item_effect. rewrite (Hv (ri_key i) ms) by (by left). destruct r as [res| |er]; cbn in Hr; [by eapply acquired_locks; apply Hr|by subst ms..].
Qed.

Lemma resumed_command_effect fp lh env lce cm e e' ctx need_old items w : locking_inv e -> Forall item_ok items -> NoDup (ri_key <$> items) ->
  acquire_pessimistic_lock_resumed fp lh env lce cm (snap e) ctx need_old items = Ok w ->
  write_modifies (E := kv_error) e (wr_modifies (lw_result w)) = Ok e' ->
  locking_inv e' /\ (forall k, user_key k -> k ∉ ri_key <$> items -> view e' k = view e k) /\
  exists rs, wr_pr (lw_result w) = inl rs /\ Forall2 (item_effect e e') items rs.
Proof.
  intros Hi Hok Hnd Hrun Hw. destruct (resumed_command_spec _ _ _ _ _ _ _ _ _ _ Hrun) as (rs & Hpr & Hlen & _ & _ & Hmod).
  destruct (Hmod Hi Hok) as (mss & Hm & Hf). rewrite Hm in Hw.
  assert (Huk : Forall user_key (ri_key <$> items)) by (apply Forall_fmap; eapply Forall_impl; [exact Hok|]; by intros i [_ ?]).
  destruct (locked_engine e e' _ mss Hi Hnd Huk) as (Hi' & Hv & Ho); [by eapply item_results_single|done|].
  split; [done|]. split; [done|]. exists rs. split; [done|]. by eapply item_results_effect.
Qed.

Lemma lock_reachable_inv e : lock_reachable e -> locking_inv e.
Proof.
  intros (e0 & Hr & Hs). assert (Hi : locking_inv e0).
  { destruct (reachable_inv e0 Hr) as [He Hk]. split; [done|]. intros k Huk _. by apply Hk. }
  clear Hr. induction Hs as [|x y z Hs _ IH]; [done|]. apply IH. destruct Hs.
  - by eapply lock_command_effect.
  - by eapply resumed_command_effect.
Qed.


(** C10: A pessimistic lock that is new covers the newest version. On a key
    without a lock, a success means: the lock's timestamp is at or above every
    version, and above the requested one only if the request allows that and
    there is such a version; the transaction was not rolled back on the key;
    the value it returns, when it is asked for or there was a conflict, is the
    newest one, and the existence it reports is the one of the key; a key that
    has to be absent is. *)
Theorem pessimistic_lock_reads_latest env lce e ctx st q key fut t res old t' :
  lock_reachable e -> user_key key -> txn_ts st -> is_u64 fut -> txn_start_ts t = st -> kv_lock (view e key) = None ->
  acquire_pessimistic_lock env lce (new_with_ctx st (snap e) ctx) q key fut t = (Ok (res, old), t') ->
  exists fut' v lc, lock_covers (view e key) st fut q fut' v /\
    res = new_success (aq_need_value q) (aq_need_check_existence q) (if fut <? fut' then Some fut' else None) v /\
    txn_modifies t' = txn_modifies t ++
      (if negb (aq_lock_only_if_exists q) || bool_decide (is_Some v)
       then [ModifyPessimisticLock key (mk_pessimistic_lock (aq_primary q) st (aq_lock_ttl q) fut' (aq_min_commit_ts q) lc (fut <? fut'))]
       else []).
Proof.
  intros Hr%lock_reachable_inv Hk Hst Hfut Ht Hno Ha.
  apply (acquire_spec env lce _ q key (view e key) (sees_locking e st ctx key Hr Hst Hk)) in Ha; [|by apply Hr|done|done].
  destruct Ha as (ms & [Hm _ _] & Hacq). unfold acquired in Hacq. rewrite Hno in Hacq.
  destruct Hacq as (fut' & v & lc & Hcov & _ & _ & -> & ->). exists fut', v, lc. split; [done|]. split; [done|]. exact Hm.
Qed.

(** ** After resuming *)

Section Pairing.
Context (env : CmEnv) (last_change_enabled : bool) (e : Engine) (ctx : Context) (need_old : bool).
Let own_result := own_result env last_change_enabled e ctx need_old.
Let action_ends := action_ends env last_change_enabled e ctx need_old.
Let met_of := met_of env last_change_enabled e ctx need_old.
Implicit Types (items : list ResumedItem) (rs : list KeyResult) (cbs : list Z).

(** The item, with its callback, waits again: it has the key, parameters and
    token it had, its own callback, and the lock its action met. *)
Definition waits_again (icbs : list (ResumedItem * Z)) (x : LockWaitEntry * LockInfo) : Prop :=
  exists i cb hash, (i, cb) ∈ icbs /\
    x.1 = mk_entry (ri_key i) hash (ri_params i) (ri_should_not_exist i) (ri_lock_wait_token i) None (Some cb) /\
    action_ends i (Err (MKeyIsLocked x.2)).

(** A callback gets the result of its own item. *)
Definition finishes (icbs : list (ResumedItem * Z)) (x : KeyResult * Z) : Prop :=
  x.1 <> KRWaiting /\ exists i, (i, x.2) ∈ icbs /\ own_result i x.1.

Definition callbacks_of (out : list (KeyResult * Z) * list (LockWaitEntry * LockInfo)) : list Z :=
  out.1.*2 ++ omap (fun x => le_key_cb x.1) out.2.

Definition paired (icbs : list (ResumedItem * Z)) (out : list (KeyResult * Z) * list (LockWaitEntry * LockInfo)) : Prop :=
  callbacks_of out ≡ₚ icbs.*2 /\ Forall (finishes icbs) out.1 /\ Forall (waits_again icbs) out.2.

Lemma finishes_cons ic icbs x : finishes icbs x -> finishes (ic :: icbs) x.
Proof. intros (Hr & i & Hin & Ho). split; [done|]. exists i. split; [by right|done]. Qed.

Lemma waits_cons ic icbs x : waits_again icbs x -> waits_again (ic :: icbs) x.
Proof. intros (i & cb & h & Hin & Hx). exists i, cb, h. split; [by right|done]. Qed.

Lemma paired_finished i r cb icbs f w : r <> KRWaiting -> own_result i r -> paired icbs (f, w) ->
  paired ((i, cb) :: icbs) ((r, cb) :: f, w).
Proof.
  intros Hr Ho (Hp & Hf & Hw). split; [unfold callbacks_of in *; cbn in *; by rewrite Hp|]. split; [constructor|].
  - split; [done|]. exists i. split; [by left|done].
  - eapply Forall_impl; [exact Hf|]. apply finishes_cons.
  - eapply Forall_impl; [exact Hw|]. apply waits_cons.
Qed.

Lemma paired_waits i cb l icbs f w : met_of i l -> paired icbs (f, w) ->
  paired ((i, cb) :: icbs) (f, (make_lock_waiting_after_resuming l (ri_lock_wait_token i) cb, wl_lock_info_pb l) :: w).
Proof.
  intros (H1 & H2 & H3 & _ & H5) (Hp & Hf & Hw). split; [unfold callbacks_of in *; cbn in *; by rewrite <- Permutation_middle, Hp|].
  split; [eapply Forall_impl; [exact Hf|]; apply finishes_cons|].
  constructor; [|eapply Forall_impl; [exact Hw|]; apply waits_cons]. exists i, cb, (wl_lock_digest l).2. split; [by left|].
  unfold make_lock_waiting_after_resuming. by rewrite H1, H2, H3.
Qed.

Lemma split_waiting_paired items : forall rs cbs met, Forall2 own_result items rs -> length cbs = length items ->
  Forall2 met_of (waiting_items (zip items rs)) met -> exists out, split_waiting rs cbs met = Ok out /\ paired (zip items cbs) out.
Proof.
  induction items as [|i items IH]; intros rs [|cb cbs] met Hl Hl' Hf; try done.
  { apply Forall2_nil_inv_l in Hl as ->. cbn in Hf. apply Forall2_nil_inv_l in Hf as ->. exists ([], []). by repeat constructor. }
  apply Forall2_cons_inv_l in Hl as (r & rs' & Hr & Hl & ->). injection Hl' as Hl'.
  assert (r = KRWaiting \/ r <> KRWaiting) as [-> |Hn] by (destruct r; auto).
  - cbn in Hf. apply Forall2_cons_inv_l in Hf as (l & met' & Hm & Hf & ->).
    destruct (IH rs' cbs met' Hl Hl' Hf) as ([f w] & E & Hp). cbn [split_waiting]. pose proof Hm as (_ & _ & _ & H4 & _). rewrite H4, E.
    eexists. split; [done|]. by apply paired_waits.
  - assert (Hf' : Forall2 met_of (waiting_items (zip items rs')) met) by (cbn in Hf; by destruct r).
    destruct (IH rs' cbs met Hl Hl' Hf') as ([f w] & E & Hp). exists ((r, cb) :: f, w). split; [|by apply paired_finished].
    cbn [split_waiting]. destruct r; [|done|]; by rewrite E.
Qed.

Lemma combine_paired items : forall rs cbs, Forall2 own_result items rs -> length cbs = length items -> waiting_items (zip items rs) = [] ->
  paired (zip items cbs) (combine rs cbs, []).
Proof.
  induction items as [|i items IH]; intros rs [|cb cbs] Hl Hl' Hn; try done.
  { by apply Forall2_nil_inv_l in Hl as ->. }
  apply Forall2_cons_inv_l in Hl as (r & rs' & Hr & Hl & ->). injection Hl' as Hl'.
  cbn [combine zip zip_with]. apply paired_finished; [by intros ->|done|]. apply IH; [done|done|]. cbn in Hn. by destruct r.
Qed.

Lemma resumed_paired fp lh cm items cbs w : length cbs = length items ->
  acquire_pessimistic_lock_resumed fp lh env last_change_enabled cm (snap e) ctx need_old items = Ok w ->
  exists out, on_wait_for_lock_after_resuming w cbs = Ok out /\ paired (zip items cbs) out.
Proof.
  intros Hcbs Hrun. destruct (resumed_command_spec _ _ _ _ _ _ _ _ _ _ Hrun) as (rs & Hpr & _ & Hown & Hmet & _).
  unfold on_wait_for_lock_after_resuming. rewrite Hpr. destruct (lw_lock_info w) as [|l met].
  - apply Forall2_nil_inv_r in Hmet. eexists. split; [done|]. by apply combine_paired.
  - by apply split_waiting_paired.
Qed.
End Pairing.

Lemma take_callbacks_ok es : Forall (fun x => is_Some (le_key_cb x)) es ->
  exists cbs, take_callbacks es = Ok cbs /\ Forall2 (fun x cb => le_key_cb x = Some cb) es cbs.
Proof.
  induction 1 as [|x es [cb Hcb] _ (cbs & IH & Hf)]; [by exists []|]. exists (cb :: cbs). cbn [take_callbacks]. rewrite Hcb, IH. split; [done|].
  by constructor.
Qed.

Lemma scheduled_resumption es : es <> [] -> Forall (fun x => is_Some (le_key_cb x)) es ->
  exists cbs, schedule_awakened_pessimistic_locks es = Ok (cbs, map item_of_entry es) /\ Forall2 (fun x cb => le_key_cb x = Some cb) es cbs.
Proof.
  intros Hne (cbs & Ht & Hf)%take_callbacks_ok. exists cbs. split; [|done]. unfold schedule_awakened_pessimistic_locks, from_lock_wait_entries.
  rewrite Ht. cbn [mbind res_bind]. assert (Hnone : forallb (fun x => bool_decide (le_key_cb x = None)) (map without_cb es) = true).
  { clear. by induction es. }
  rewrite Hnone, bool_decide_false by (by destruct es). cbn. rewrite map_map. done.
Qed.

Lemma scheduled_item es cbs i cb : Forall2 (fun x cb => le_key_cb x = Some cb) es cbs -> (i, cb) ∈ zip (map item_of_entry es) cbs ->
  exists x, x ∈ es /\ i = item_of_entry x /\ le_key_cb x = Some cb.
Proof.
  intros Hf. induction Hf as [|x c es cbs Hx Hf IH]; cbn; [by intros ?%elem_of_nil|].
  intros [[= -> ->]|Hin]%elem_of_cons; [exists x; split; [by left|done]|]. destruct (IH Hin) as (y & Hy & Hrest). exists y. split; [by right|done].
Qed.

(** The result is that of the request of the woken entry. *)
Definition result_of_entry (env : CmEnv) (lce : bool) (e : Engine) (ctx : Context) (need_old : bool) (x : LockWaitEntry) (r : KeyResult) : Prop :=
  own_result env lce e ctx need_old (item_of_entry x) r.

(** C20: When woken requests that have their callbacks are resumed, no
    [unwrap] or [assert] of the code that takes the callbacks out and puts the
    requests back fails. Every callback is used once. A callback that is
    called gets the result of the lock action on the key and parameters of its
    own request. A request whose action met a lock waits again, for that lock,
    with the key, parameters, token and callback it had. *)
Theorem resumed_requests_paired fp lh env lce cm e ctx need_old es :
  es <> [] -> Forall (fun x => is_Some (le_key_cb x)) es ->
  exists cbs items, schedule_awakened_pessimistic_locks es = Ok (cbs, items) /\
    Forall2 (fun x cb => le_key_cb x = Some cb) es cbs /\
    forall w, acquire_pessimistic_lock_resumed fp lh env lce cm (snap e) ctx need_old items = Ok w ->
      exists finished waiting, on_wait_for_lock_after_resuming w cbs = Ok (finished, waiting) /\
        callbacks_of (finished, waiting) ≡ₚ cbs /\
        Forall (fun f => f.1 <> KRWaiting /\
                  exists x, x ∈ es /\ le_key_cb x = Some f.2 /\ result_of_entry env lce e ctx need_old x f.1) finished /\
        Forall (fun v => exists x hash, x ∈ es /\
                  v.1 = mk_entry (le_key x) hash (le_parameters x) (le_should_not_exist x) (le_lock_wait_token x) None (le_key_cb x) /\
                  action_ends env lce e ctx need_old (item_of_entry x) (Err (MKeyIsLocked v.2))) waiting.
Proof.
  intros Hne Hcb. destruct (scheduled_resumption es Hne Hcb) as (cbs & Hs & Hf). exists cbs, (map item_of_entry es). split; [done|]. split; [done|].
  intros w Hrun. assert (Hl : length cbs = length (map item_of_entry es)) by (rewrite length_map; symmetry; by eapply Forall2_length).
  destruct (resumed_paired _ _ _ _ _ _ _ _ _ _ _ Hl Hrun) as ([f v] & Hon & Hp & Hfin & Hw). exists f, v. split; [done|].
  split; [by rewrite snd_zip in Hp by lia|]. split.
  - eapply Forall_impl; [exact Hfin|]. intros x (Hr & i & Hin & Ho). split; [done|].
    destruct (scheduled_item _ _ _ _ Hf Hin) as (y & Hy & -> & Hc). by exists y.
  - eapply Forall_impl; [exact Hw|]. intros x (i & cb & hash & Hin & Hx & Ha).
    destruct (scheduled_item _ _ _ _ Hf Hin) as (y & Hy & -> & Hc). exists y, hash. rewrite Hc. done.
Qed.

(** ** Runs *)

Definition lock_params : LockParameters := mk_params raw_k 30 1000 30 (Some WaitDefault) true 31 false true false false.
Definition run_lock (e : Engine) : res lock_cmd_error LockWriteResult :=
  acquire_pessimistic_lock_command (fun _ => 0) (fun _ => 0) env0 true cm0 (snap e) ctx0 false [(k, false)] lock_params.
Definition locked_write : LockWriteResult :=
  match run_lock e4 with Ok w => w | _ => mk_lock_write_result (mk_write_result (inl []) [] 0 [] [] []) [] ∅ end.
Definition e_locked : Engine := apply_to e4 (wr_modifies (lw_result locked_write)).

Lemma e4_lock_reachable : lock_reachable e4.
Proof. exists e4. split; [unfold reachable; etrans; [exact e2_steps|exact e4_steps]|done]. Qed.

Lemma lock_params_wf : lock_request_wf lock_params.
Proof. by vm_compute. Qed.

Lemma k_alone : NoDup [(k, false)].*1 /\ Forall user_key [(k, false)].*1.
Proof. split; [apply NoDup_singleton|]. constructor; [exact k_user|constructor]. Qed.


Definition lock_req : AcquireReq := lock_request false lock_params false false.
Definition lock_run : mres (PessimisticLockKeyResult * OldValue) * MvccTxn :=
  acquire_pessimistic_lock env0 true (new_with_ctx 30 (snap e4) ctx0) lock_req k 30 (txn_new 30 cm0).

Lemma pessimistic_lock_reads_latest_witness :
  exists fut' v lc, lock_covers (view e4 k) 30 30 lock_req fut' v /\
    PLValue (Some [Byte.x62]) = new_success true false (if 30 <? fut' then Some fut' else None) v /\
    txn_modifies lock_run.2 = [] ++
      (if negb false || bool_decide (is_Some v)
       then [ModifyPessimisticLock k (mk_pessimistic_lock raw_k 30 1000 fut' 31 lc (30 <? fut'))] else []).
Proof.
  apply (pessimistic_lock_reads_latest env0 true e4 ctx0 30 lock_req k 30 (txn_new 30 cm0) (PLValue (Some [Byte.x62])) OVUnspecified lock_run.2
    e4_lock_reachable k_user); vm_compute; done.
Defined.

(** One request is resumed and gets its lock, one meets the lock. *)
Definition resumed_entry (token start_ts : Z) : LockWaitEntry :=
  mk_entry k 0 (mk_params raw_k start_ts 1000 40 (Some WaitDefault) false 41 false false false true) false token (Some 0) (Some token).
Definition resumed_entries : list LockWaitEntry := [resumed_entry 1 30; resumed_entry 2 40].
Definition resumed_run : res lock_cmd_error LockWriteResult :=
  acquire_pessimistic_lock_resumed (fun _ => 0) (fun _ => 0) env0 true cm0 (snap e_locked) ctx0 false (map item_of_entry resumed_entries).
Definition resumed_write : LockWriteResult := match resumed_run with Ok w => w | _ => locked_write end.

Lemma resumed_requests_paired_witness :
  exists cbs items, schedule_awakened_pessimistic_locks resumed_entries = Ok (cbs, items) /\
    Forall2 (fun x cb => le_key_cb x = Some cb) resumed_entries cbs /\
    forall w, acquire_pessimistic_lock_resumed (fun _ => 0) (fun _ => 0) env0 true cm0 (snap e_locked) ctx0 false items = Ok w ->
      exists finished waiting, on_wait_for_lock_after_resuming w cbs = Ok (finished, waiting) /\
        callbacks_of (finished, waiting) ≡ₚ cbs /\
        Forall (fun f => f.1 <> KRWaiting /\
                  exists x, x ∈ resumed_entries /\ le_key_cb x = Some f.2 /\ result_of_entry env0 true e_locked ctx0 false x f.1) finished /\
        Forall (fun v => exists x hash, x ∈ resumed_entries /\
                  v.1 = mk_entry (le_key x) hash (le_parameters x) (le_should_not_exist x) (le_lock_wait_token x) None (le_key_cb x) /\
                  action_ends env0 true e_locked ctx0 false (item_of_entry x) (Err (MKeyIsLocked v.2))) waiting.
Proof.
  apply (resumed_requests_paired (fun _ => 0) (fun _ => 0) env0 true cm0 e_locked ctx0 false resumed_entries); [done|].
  by repeat (constructor; [by eexists|]).
Defined.

(** The run ends, with the first request finished and the second waiting. *)
Example resumed_sample :
  (exists w, resumed_run = Ok w) /\
  exists r l, on_wait_for_lock_after_resuming resumed_write [1; 2] = Ok ([(KRDone r, 1)], [l]) /\ le_key_cb l.1 = Some 2.
Proof. split; [by eexists; vm_compute|]. do 2 eexists. by vm_compute. Qed.
