(* ===== verification/LruTrace.v ===== *)
(** The recency list of the LRU cache (components/tikv_util/src/lru.rs): a
    doubly linked list of heap records between two sentinels, written with raw
    pointers.  The memory of one list is a finite map from addresses to
    records; reading through a pointer that is not allocated, or a key that is
    not initialised, is an error of its own, so that the theorems show that the
    unsafe code has neither.  The list represents a sequence of keys, most
    recent first; each operation is shown to be the operation on that sequence,
    with exactly the records of the sequence allocated. *)
From stdpp Require Import base numbers list gmap fin_maps fin_sets.
From S2P Require Import Prelude.

Local Open Scope Z_scope.

(** ** Memory *)

Definition ptr := positive.

(** What the unsafe code must not do.  [EndlessList] is a walk that does not
    reach the sentinel within the number of records. *)
Inductive mem_error := BadPointer | Uninitialised | EndlessList.
#[export] Instance mem_error_eq_dec : EqDecision mem_error.
Proof. solve_decision. Defined.

Abbreviation mres := (res mem_error).

(** The allocator returns an address that is not in use; nothing else is known
    of it, and freed addresses may come back. *)
Class Allocator := { alloc : gset ptr -> ptr; dangling : ptr }.
Class AllocatorLaws `{Allocator} : Prop := { alloc_fresh X : alloc X ∉ X }.

(** [key] is [None] while it is uninitialised. *)
Record LruRecord (K : Type) := mk_record { rec_prev : ptr; rec_next : ptr; rec_key : option K }.
Arguments mk_record {K}.
Arguments rec_prev {K}.
Arguments rec_next {K}.
Arguments rec_key {K}.

Abbreviation heap K := (gmap ptr (LruRecord K)).

(** The fields of [Trace], and the memory it owns. *)
Record Trace (K : Type) := mk_trace {
  tr_head : ptr;
  tr_tail : ptr;
  tr_tick : Z;
  tr_sample_mask : Z;
  tr_heap : heap K;
}.
Arguments mk_trace {K}.
Arguments tr_head {K}.
Arguments tr_tail {K}.
Arguments tr_tick {K}.
Arguments tr_sample_mask {K}.
Arguments tr_heap {K}.

Section Ops.
Context {K : Type} `{Allocator}.

Definition deref (h : heap K) (p : ptr) : mres (LruRecord K) :=
  match h !! p with Some r => Ok r | None => Err BadPointer end.
Definition read_key (r : LruRecord K) : mres K :=
  match rec_key r with Some k => Ok k | None => Err Uninitialised end.
Definition set_next (p q : ptr) (h : heap K) : mres (heap K) :=
  r ← deref h p; Ok (<[p := mk_record (rec_prev r) q (rec_key r)]> h).
Definition set_prev (p q : ptr) (h : heap K) : mres (heap K) :=
  r ← deref h p; Ok (<[p := mk_record q (rec_next r) (rec_key r)]> h).
Definition set_key (p : ptr) (k : K) (h : heap K) : mres (heap K) :=
  r ← deref h p; Ok (<[p := mk_record (rec_prev r) (rec_next r) (Some k)]> h).

Definition suture (leading following : ptr) (h : heap K) : mres (heap K) :=
  h ← set_next leading following h; set_prev following leading h.

Definition cut_out (record : ptr) (h : heap K) : mres (heap K) :=
  r ← deref h record; suture (rec_prev r) (rec_next r) h.

Definition set_heap (t : Trace K) (h : heap K) : Trace K :=
  mk_trace (tr_head t) (tr_tail t) (tr_tick t) (tr_sample_mask t) h.

Definition trace_new (sample_mask : Z) : mres (Trace K) :=
  let head := alloc ∅ in
  let h : heap K := {[head := mk_record dangling dangling None]} in
  let tail := alloc (dom h) in
  let h := <[tail := mk_record dangling dangling None]> h in
  h ← suture head tail h;
  Ok (mk_trace head tail 0 sample_mask h).

(** The pointer updates that [promote] and [reuse_tail] share. *)
Definition move_to_front (t : Trace K) (record : ptr) : mres (Trace K) :=
  h ← cut_out record (tr_heap t);
  r ← deref h (tr_head t);
  h ← suture record (rec_next r) h;
  h ← suture (tr_head t) record h;
  Ok (set_heap t h).

Definition promote (t : Trace K) (record : ptr) : mres (Trace K) := move_to_front t record.

Definition maybe_promote (t : Trace K) (record : ptr) : mres (Trace K) :=
  let tick := wrap64 (tr_tick t + 1) in
  let t := mk_trace (tr_head t) (tr_tail t) tick (tr_sample_mask t) (tr_heap t) in
  if Z.land tick (tr_sample_mask t) =? 0 then promote t record else Ok t.

(** The key is dropped with the record. *)
Definition trace_delete (t : Trace K) (record : ptr) : mres (Trace K) :=
  h ← cut_out record (tr_heap t);
  r ← deref h record;
  _ ← read_key r;
  Ok (set_heap t (delete record h)).

Definition trace_create (t : Trace K) (key : K) : mres (ptr * Trace K) :=
  let h := tr_heap t in
  first ← deref h (tr_head t);
  let record := alloc (dom h) in
  let h := <[record := mk_record (tr_head t) (rec_next first) (Some key)]> h in
  first ← deref h (tr_head t);
  h ← set_prev (rec_next first) record h;
  h ← set_next (tr_head t) record h;
  Ok (record, set_heap t h).

Definition reuse_tail (t : Trace K) (key : K) : mres (K * ptr * Trace K) :=
  last ← deref (tr_heap t) (tr_tail t);
  let record := rec_prev last in
  t ← move_to_front t record;
  r ← deref (tr_heap t) record;
  old_key ← read_key r;
  h ← set_key record key (tr_heap t);
  Ok (old_key, record, set_heap t h).

Fixpoint clear_loop (fuel : nat) (tail cur : ptr) (h : heap K) : mres (heap K) :=
  match fuel with
  | O => Err EndlessList
  | S fuel =>
      if decide (cur = tail) then Ok h
      else
        r ← deref h cur;
        _ ← read_key r;
        clear_loop fuel tail (rec_next r) (delete cur h)
  end.

Definition trace_clear (t : Trace K) : mres (Trace K) :=
  r ← deref (tr_heap t) (tr_head t);
  h ← clear_loop (size (tr_heap t)) (tr_tail t) (rec_next r) (tr_heap t);
  h ← suture (tr_head t) (tr_tail t) h;
  Ok (set_heap t h).

Definition remove_tail (t : Trace K) : mres (K * Trace K) :=
  last ← deref (tr_heap t) (tr_tail t);
  let record := rec_prev last in
  h ← cut_out record (tr_heap t);
  r ← deref h record;
  k ← read_key r;
  Ok (k, set_heap t (delete record h)).

Definition get_tail (t : Trace K) : mres K :=
  last ← deref (tr_heap t) (tr_tail t);
  r ← deref (tr_heap t) (rec_prev last);
  read_key r.

(** [drop] of the trace: what stays allocated afterwards. *)
Definition trace_drop (t : Trace K) : mres (heap K) :=
  _ ← deref (tr_heap t) (tr_head t);
  let h := delete (tr_head t) (tr_heap t) in
  _ ← deref h (tr_tail t);
  Ok (delete (tr_tail t) h).
End Ops.

(** ** Linked records *)

Section Linked.
Context {K : Type}.
Implicit Types h : heap K.

Definition nxt h (p : ptr) : option ptr := rec_next <$> h !! p.
Definition prv h (p : ptr) : option ptr := rec_prev <$> h !! p.
Definition rkey h (p : ptr) : option K := h !! p ≫= rec_key.

Fixpoint linked h (l : list ptr) : Prop :=
  match l with
  | a :: l' => match l' with b :: _ => nxt h a = Some b /\ prv h b = Some a /\ linked h l' | [] => True end
  | [] => True
  end.

Lemma linked_cons h a b l : linked h (a :: b :: l) <-> nxt h a = Some b /\ prv h b = Some a /\ linked h (b :: l).
Proof. reflexivity. Qed.

Lemma linked_app h l1 a l2 : linked h (l1 ++ a :: l2) <-> linked h (l1 ++ [a]) /\ linked h (a :: l2).
Proof.
  induction l1 as [|x l1 IH]; [cbn; naive_solver|].
  destruct l1 as [|y l1]; [cbn -[linked]; rewrite !linked_cons; cbn; naive_solver|].
  cbn [app] in *. rewrite !linked_cons, IH. naive_solver.
Qed.

Lemma linked_before h h' l a :
  (forall x, x ∈ l -> nxt h' x = nxt h x) -> (forall x, x ∈ l ++ [a] -> prv h' x = prv h x) ->
  linked h (l ++ [a]) -> linked h' (l ++ [a]).
Proof.
  induction l as [|x l IH]; intros Hn Hp HL; [done|].
  assert (IH' : linked h (l ++ [a]) -> linked h' (l ++ [a])) by (apply IH; intros; [apply Hn | apply Hp]; set_solver).
  destruct l as [|y l]; cbn [app] in *; rewrite linked_cons in *.
  - destruct HL as (E1 & E2 & _). rewrite Hn, Hp by set_solver. done.
  - destruct HL as (E1 & E2 & HL). rewrite Hn, Hp by set_solver. auto.
Qed.

Lemma linked_after h h' b l :
  (forall x, x ∈ b :: l -> nxt h' x = nxt h x) -> (forall x, x ∈ l -> prv h' x = prv h x) ->
  linked h (b :: l) -> linked h' (b :: l).
Proof.
  revert b. induction l as [|y l IH]; intros b Hn Hp HL; [done|].
  rewrite linked_cons in *. destruct HL as (E1 & E2 & HL). rewrite Hn, Hp by set_solver.
  split_and!; [done.. |]. apply IH; [intros; apply Hn; set_solver | intros; apply Hp; set_solver | done].
Qed.

(** What one pointer assignment pair changes. *)
Definition sutured h a b h' : Prop :=
  dom h' = dom h /\ nxt h' a = Some b /\ prv h' b = Some a /\
  (forall x, x <> a -> nxt h' x = nxt h x) /\ (forall x, x <> b -> prv h' x = prv h x) /\
  (forall x, rkey h' x = rkey h x).

Lemma set_next_ok h p q :
  p ∈ dom h ->
  exists h', set_next p q h = Ok h' /\ dom h' = dom h /\ nxt h' p = Some q /\
    (forall x, x <> p -> nxt h' x = nxt h x) /\ (forall x, prv h' x = prv h x) /\ (forall x, rkey h' x = rkey h x).
Proof.
  rewrite elem_of_dom. intros [r Hr]. unfold set_next, deref. rewrite Hr. cbn. eexists. split; [done|].
  unfold nxt, prv, rkey. split_and!.
  - rewrite dom_insert_L. apply elem_of_dom_2 in Hr. set_solver.
  - by rewrite lookup_insert_eq.
  - intros x Hx. by rewrite lookup_insert_ne.
  - intros x. destruct (decide (x = p)) as [->|]; [by rewrite lookup_insert_eq, Hr | by rewrite lookup_insert_ne].
  - intros x. destruct (decide (x = p)) as [->|]; [by rewrite lookup_insert_eq, Hr | by rewrite lookup_insert_ne].
Qed.

Lemma set_prev_ok h p q :
  p ∈ dom h ->
  exists h', set_prev p q h = Ok h' /\ dom h' = dom h /\ prv h' p = Some q /\
    (forall x, nxt h' x = nxt h x) /\ (forall x, x <> p -> prv h' x = prv h x) /\ (forall x, rkey h' x = rkey h x).
Proof.
  rewrite elem_of_dom. intros [r Hr]. unfold set_prev, deref. rewrite Hr. cbn. eexists. split; [done|].
  unfold nxt, prv, rkey. split_and!.
  - rewrite dom_insert_L. apply elem_of_dom_2 in Hr. set_solver.
  - by rewrite lookup_insert_eq.
  - intros x. destruct (decide (x = p)) as [->|]; [by rewrite lookup_insert_eq, Hr | by rewrite lookup_insert_ne].
  - intros x Hx. by rewrite lookup_insert_ne.
  - intros x. destruct (decide (x = p)) as [->|]; [by rewrite lookup_insert_eq, Hr | by rewrite lookup_insert_ne].
Qed.

Lemma suture_ok h a b : a ∈ dom h -> b ∈ dom h -> exists h', suture a b h = Ok h' /\ sutured h a b h'.
Proof.
  intros Ha Hb. destruct (set_next_ok h a b Ha) as (h1 & E1 & D1 & A1 & N1 & P1 & K1).
  destruct (set_prev_ok h1 b a) as (h2 & E2 & D2 & A2 & N2 & P2 & K2); [by rewrite D1|].
  exists h2. unfold suture. rewrite E1. cbn. split; [done|]. unfold sutured. rewrite D2, D1, N2, A2. split_and!; [done..| | |].
  - intros x Hx. by rewrite N2, N1.
  - intros x Hx. by rewrite P2, P1.
  - intros x. by rewrite K2, K1.
Qed.

(** Two lists are joined. *)
Lemma sutured_linked h h' l1 a b l2 :
  sutured h a b h' -> NoDup (l1 ++ a :: b :: l2) -> linked h (l1 ++ [a]) -> linked h (b :: l2) ->
  linked h' (l1 ++ a :: b :: l2).
Proof.
  intros (_ & Ea & Eb & Hn & Hp & _) HN H1 H2. apply NoDup_app in HN as (_ & HN1 & HN2).
  apply NoDup_cons in HN2 as [Hab HN2]. apply NoDup_cons in HN2 as [Hb _].
  rewrite linked_app, linked_cons. split_and!; [|done..|].
  - eapply linked_before; [| |done].
    + intros x Hx. apply Hn. intros ->. apply (HN1 a Hx). set_solver.
    + intros x Hx. apply Hp. intros ->. apply elem_of_app in Hx as [Hx|Hx]; [apply (HN1 b Hx) | apply Hab]; set_solver.
  - eapply linked_after; [| |done].
    + intros x Hx. apply Hn. set_solver.
    + intros x Hx. apply Hp. set_solver.
Qed.

(** A record is taken out of a list. *)
Lemma cut_out_ok h l1 r l2 :
  linked h (l1 ++ r :: l2) -> NoDup (l1 ++ r :: l2) -> l1 <> [] -> l2 <> [] ->
  exists h', cut_out r h = Ok h' /\ linked h' (l1 ++ l2) /\ dom h' = dom h /\ (forall x, rkey h' x = rkey h x).
Proof.
  intros HL HN H1 H2. destruct (exists_last H1) as (l1' & a & ->). destruct l2 as [|b l2]; [done|].
  rewrite <- app_assoc in *. cbn [app] in *.
  apply linked_app in HL as [HL1 HL]. rewrite !linked_cons in HL. destruct HL as (E1 & E2 & E3 & E4 & HL2).
  unfold nxt in E1, E3. unfold prv in E2, E4. unfold cut_out, deref.
  destruct (h !! r) as [rec|] eqn:Er; cbn in E2, E3; [|done]. simplify_eq. cbn.
  destruct (suture_ok h (rec_prev rec) (rec_next rec)) as (h' & E & HS).
  { apply elem_of_dom. destruct (h !! rec_prev rec); [eauto|done]. }
  { apply elem_of_dom. destruct (h !! rec_next rec); [eauto|done]. }
  exists h'. split; [done|]. pose proof HS as (HD & _ & _ & _ & _ & HK). split_and!; [|done..].
  eapply sutured_linked; [done| |done..].
  revert HN. rewrite !NoDup_app, !NoDup_cons. set_solver.
Qed.

Lemma deref_ok h p : p ∈ dom h -> exists r, deref h p = Ok r /\ h !! p = Some r.
Proof. rewrite elem_of_dom. intros [r Hr]. exists r. unfold deref. by rewrite Hr. Qed.

Lemma nxt_deref h a b : nxt h a = Some b -> exists r, deref h a = Ok r /\ rec_next r = b.
Proof. unfold nxt, deref. destruct (h !! a) as [r|]; cbn; [intros [= <-]; eauto | done]. Qed.

Lemma prv_deref h a b : prv h b = Some a -> exists r, deref h b = Ok r /\ rec_prev r = a.
Proof. unfold prv, deref. destruct (h !! b) as [r|]; cbn; [intros [= <-]; eauto | done]. Qed.

Lemma rkey_deref h p k : rkey h p = Some k -> exists r, deref h p = Ok r /\ read_key r = Ok k.
Proof. unfold rkey, deref, read_key. destruct (h !! p) as [r|]; cbn; [|done]. intros E. exists r. by rewrite E. Qed.

(** A record outside the list is put behind its first element. *)
Lemma push_front_ok h a p l :
  linked h (a :: l) -> l <> [] -> NoDup (p :: a :: l) -> list_to_set (p :: a :: l) ⊆ dom h ->
  exists h', (r ← deref h a; h1 ← suture p (rec_next r) h; suture a p h1) = Ok h' /\
    linked h' (a :: p :: l) /\ dom h' = dom h /\ (forall x, rkey h' x = rkey h x).
Proof.
  intros HL Hl HN HD. destruct l as [|b l]; [done|]. apply linked_cons in HL as (E1 & E2 & HL).
  apply nxt_deref in E1 as (r & -> & <-). cbn [mbind res_bind].
  destruct (suture_ok h p (rec_next r)) as (h1 & -> & HS1); [set_solver..|]. cbn [mbind res_bind].
  pose proof HS1 as (D1 & _ & _ & _ & _ & K1).
  destruct (suture_ok h1 a p) as (h2 & -> & HS2); [set_solver..|]. exists h2. split; [done|].
  pose proof HS2 as (D2 & _ & _ & _ & _ & K2). split_and!; [|congruence|intros; by rewrite K2, K1].
  rewrite !NoDup_cons in HN. apply (sutured_linked h1 h2 [] a p); [done|cbn [app]; rewrite !NoDup_cons; set_solver|done|].
  apply (sutured_linked h h1 [] p); [done|cbn [app]; rewrite !NoDup_cons; set_solver|done..].
Qed.
End Linked.

(** ** The sequence a trace represents *)

Section Represents.
Context {K : Type} `{AllocatorLaws}.
Implicit Types (t : Trace K) (l : list (ptr * K)).

Definition trace_ptrs t l : list ptr := tr_head t :: l.*1 ++ [tr_tail t].

(** The records of [l] hang between the sentinels in this order, with their
    keys, and nothing else is allocated. *)
Record trace_list t l : Prop := {
  trl_linked : linked (tr_heap t) (trace_ptrs t l);
  trl_nodup : NoDup (trace_ptrs t l);
  trl_dom : dom (tr_heap t) = list_to_set (trace_ptrs t l);
  trl_keys p k : (p, k) ∈ l -> rkey (tr_heap t) p = Some k;
}.

Lemma trace_ptrs_app t l1 p k l2 :
  trace_ptrs t (l1 ++ (p, k) :: l2) = (tr_head t :: l1.*1) ++ p :: l2.*1 ++ [tr_tail t].
Proof. unfold trace_ptrs. by rewrite fmap_app, fmap_cons, <- app_assoc. Qed.

Lemma trace_new_ok mask :
  exists t, trace_new mask = Ok t /\ trace_list t [] /\ tr_tick t = 0 /\ tr_sample_mask t = mask.
Proof.
  unfold trace_new. set (hd := alloc ∅). rewrite dom_singleton_L. set (tl := alloc {[hd]}).
  assert (Hne : tl <> hd) by (pose proof (alloc_fresh {[hd]}); set_solver).
  set (h := <[tl := _]> _). destruct (suture_ok h hd tl) as (h' & -> & HS); [set_solver..|].
  cbn. eexists. split; [done|]. pose proof HS as (D & _ & _ & _ & _ & HK). split; [|done].
  split; unfold trace_ptrs; cbn [tr_heap tr_head tr_tail fmap list_fmap app].
  - apply (sutured_linked h h' [] hd tl []); [done| |done..]. cbn [app]. rewrite !NoDup_cons. set_solver by apply NoDup_nil_2.
  - rewrite !NoDup_cons. split_and!; [set_solver..|apply NoDup_nil_2].
  - rewrite D. subst h. rewrite dom_insert_L, dom_singleton_L. set_solver.
  - set_solver.
Qed.

Lemma move_to_front_ok t l1 p k l2 :
  trace_list t (l1 ++ (p, k) :: l2) ->
  exists h, move_to_front t p = Ok (set_heap t h) /\ trace_list (set_heap t h) ((p, k) :: l1 ++ l2).
Proof.
  intros [HL HN HD HK]. rewrite trace_ptrs_app in *. unfold move_to_front.
  destruct (cut_out_ok _ _ _ _ HL HN) as (h1 & -> & HL1 & D1 & K1); [done | by destruct l2|]. cbn [mbind res_bind].
  assert (HP : p :: tr_head t :: l1.*1 ++ l2.*1 ++ [tr_tail t] ≡ₚ (tr_head t :: l1.*1) ++ p :: l2.*1 ++ [tr_tail t]).
  { cbn [app]. rewrite <- (Permutation_middle l1.*1). constructor. }
  destruct (push_front_ok h1 (tr_head t) p (l1.*1 ++ l2.*1 ++ [tr_tail t])) as (h2 & E & HL2 & D2 & K2).
  - done.
  - destruct l1, l2; done.
  - by rewrite HP.
  - by rewrite D1, HD, (list_to_set_perm_L _ _ HP).
  - exists h2. revert E. destruct (deref h1 (tr_head t)) as [r| |]; cbn; [|done..].
    destruct (suture p (rec_next r) h1) as [h1'| |]; cbn; [|done..]. intros ->. cbn. split; [done|].
    split; unfold trace_ptrs; cbn [tr_heap tr_head tr_tail set_heap]; rewrite ?fmap_cons, ?fmap_app; cbn [fst app]; rewrite <- ?app_assoc.
    + done.
    + rewrite <- HP in HN. by rewrite (perm_swap p).
    + rewrite D2, D1, HD. apply list_to_set_perm_L. rewrite <- HP. apply perm_swap.
    + intros q k' Hq. rewrite K2, K1. apply HK. set_solver.
Qed.

Definition tick_trace t : Trace K :=
  mk_trace (tr_head t) (tr_tail t) (wrap64 (tr_tick t + 1)) (tr_sample_mask t) (tr_heap t).

Lemma trace_list_heap t t' l :
  tr_head t = tr_head t' -> tr_tail t = tr_tail t' -> tr_heap t = tr_heap t' -> trace_list t l -> trace_list t' l.
Proof. destruct t, t'; cbn. intros -> -> -> [HL HN HD HK]. by split. Qed.

(** A record that goes away. *)
Lemma drop_record_ok t l1 p k l2 :
  trace_list t (l1 ++ (p, k) :: l2) ->
  exists h r, cut_out p (tr_heap t) = Ok h /\ deref h p = Ok r /\ read_key r = Ok k /\
    trace_list (set_heap t (delete p h)) (l1 ++ l2).
Proof.
  intros [HL HN HD HK]. rewrite trace_ptrs_app in *.
  destruct (cut_out_ok _ _ _ _ HL HN) as (h1 & E1 & HL1 & D1 & K1); [done | by destruct l2|].
  destruct (rkey_deref h1 p k) as (r & E2 & E3); [rewrite K1; apply HK; set_solver|].
  exists h1, r. split_and!; [done..|].
  rewrite <- (Permutation_middle (tr_head t :: l1.*1)) in HN. apply NoDup_cons in HN as [Hp HN].
  assert (HX : forall x, x ∈ (tr_head t :: l1.*1) ++ l2.*1 ++ [tr_tail t] -> delete p h1 !! x = h1 !! x).
  { intros x Hx. apply lookup_delete_ne. set_solver. }
  split; unfold trace_ptrs; cbn [tr_heap tr_head tr_tail set_heap]; rewrite ?fmap_app, <- ?app_assoc.
  - apply (linked_after h1); [| |done]; intros x Hx; unfold nxt, prv; rewrite HX by set_solver; done.
  - done.
  - rewrite dom_delete_L, D1, HD. rewrite !list_to_set_app_L in *. set_solver.
  - intros q k' Hq. unfold rkey. rewrite HX; [|apply (list_elem_of_fmap_2 fst) in Hq; rewrite fmap_app in Hq; set_solver].
    specialize (K1 q). unfold rkey in K1. rewrite K1. apply HK. apply elem_of_app. apply elem_of_app in Hq as [Hq|Hq]; [by left | right; by right].
Qed.

Lemma maybe_promote_ok t l1 p k l2 :
  trace_list t (l1 ++ (p, k) :: l2) ->
  exists h, maybe_promote t p = Ok (set_heap (tick_trace t) h) /\
    trace_list (set_heap (tick_trace t) h)
      (if Z.land (wrap64 (tr_tick t + 1)) (tr_sample_mask t) =? 0 then (p, k) :: l1 ++ l2 else l1 ++ (p, k) :: l2).
Proof.
  intros HT. unfold maybe_promote. cbn [tr_sample_mask]. destruct (Z.land _ _ =? 0).
  - apply (trace_list_heap _ (tick_trace t)) in HT; [|done..]. apply move_to_front_ok in HT as (h & E & HT). eauto.
  - exists (tr_heap t). split; [done|]. by apply (trace_list_heap t).
Qed.

Lemma trace_delete_ok t l1 p k l2 :
  trace_list t (l1 ++ (p, k) :: l2) ->
  exists h, trace_delete t p = Ok (set_heap t h) /\ trace_list (set_heap t h) (l1 ++ l2).
Proof.
  intros HT. destruct (drop_record_ok _ _ _ _ _ HT) as (h & r & E1 & E2 & E3 & HT').
  exists (delete p h). unfold trace_delete. rewrite E1. cbn [mbind res_bind]. rewrite E2. cbn [mbind res_bind]. by rewrite E3.
Qed.

(** The record before the tail sentinel is the last of the sequence. *)
Lemma tail_prev t l p k :
  trace_list t (l ++ [(p, k)]) -> exists r, deref (tr_heap t) (tr_tail t) = Ok r /\ rec_prev r = p.
Proof.
  intros [HL _ _ _]. rewrite trace_ptrs_app in HL. apply linked_app in HL as [_ HL].
  cbn [fmap list_fmap app] in HL. apply linked_cons in HL as (_ & E & _). by apply prv_deref.
Qed.

Lemma remove_tail_ok t l p k :
  trace_list t (l ++ [(p, k)]) -> exists h, remove_tail t = Ok (k, set_heap t h) /\ trace_list (set_heap t h) l.
Proof.
  intros HT. destruct (tail_prev _ _ _ _ HT) as (r & E & <-).
  destruct (drop_record_ok _ _ _ _ _ HT) as (h & r' & E1 & E2 & E3 & HT').
  exists (delete (rec_prev r) h). rewrite app_nil_r in HT'. split; [|done]. unfold remove_tail.
  rewrite E. cbn [mbind res_bind]. rewrite E1. cbn [mbind res_bind]. rewrite E2. cbn [mbind res_bind]. by rewrite E3.
Qed.

Lemma get_tail_ok t l p k : trace_list t (l ++ [(p, k)]) -> get_tail t = Ok k.
Proof.
  intros HT. destruct (tail_prev _ _ _ _ HT) as (r & E & <-).
  destruct (rkey_deref (tr_heap t) (rec_prev r) k) as (r' & E1 & E2); [apply HT; set_solver|].
  unfold get_tail. rewrite E. cbn [mbind res_bind]. by rewrite E1.
Qed.

Lemma set_key_ok t p k k' l :
  trace_list t ((p, k) :: l) ->
  exists h, set_key p k' (tr_heap t) = Ok h /\ trace_list (set_heap t h) ((p, k') :: l).
Proof.
  intros [HL HN HD HK]. destruct (rkey_deref (tr_heap t) p k) as (r & E & _); [apply HK; set_solver|].
  unfold set_key. rewrite E. cbn [mbind res_bind]. eexists. split; [done|].
  assert (Hr : tr_heap t !! p = Some r) by (unfold deref in E; by destruct (_ !! p); simplify_eq).
  assert (HX : forall x, nxt (<[p := mk_record (rec_prev r) (rec_next r) (Some k')]> (tr_heap t)) x = nxt (tr_heap t) x /\
                    prv (<[p := mk_record (rec_prev r) (rec_next r) (Some k')]> (tr_heap t)) x = prv (tr_heap t) x).
  { intros x. unfold nxt, prv. destruct (decide (x = p)) as [->|]; [by rewrite lookup_insert_eq, Hr | by rewrite lookup_insert_ne]. }
  unfold trace_ptrs in *. split; cbn [tr_heap tr_head tr_tail set_heap].
  - eapply linked_after; [| |exact HL]; intros x _; apply HX.
  - done.
  - rewrite dom_insert_L. apply elem_of_dom_2 in Hr. transitivity (dom (tr_heap t)); [set_solver|exact HD].
  - intros q k0 [[= -> ->]|Hq]%elem_of_cons; unfold rkey; [by rewrite lookup_insert_eq|].
    rewrite lookup_insert_ne; [apply HK; set_solver|]. intros ->.
    apply NoDup_cons in HN as [_ HN]. cbn [fmap list_fmap app] in HN. apply NoDup_cons in HN as [HN _].
    apply HN. apply elem_of_app. left. by apply (list_elem_of_fmap_2 fst) in Hq.
Qed.

Lemma reuse_tail_ok t l p k key :
  trace_list t (l ++ [(p, k)]) ->
  exists h, reuse_tail t key = Ok (k, p, set_heap t h) /\ trace_list (set_heap t h) ((p, key) :: l).
Proof.
  intros HT. destruct (tail_prev _ _ _ _ HT) as (r & E & <-).
  destruct (move_to_front_ok _ _ _ _ _ HT) as (h & E1 & HT'). rewrite app_nil_r in HT'.
  destruct (rkey_deref h (rec_prev r) k) as (r' & E2 & E3); [apply HT'; set_solver|].
  destruct (set_key_ok _ _ _ key _ HT') as (h' & E4 & HT''). exists h'. split; [|done].
  unfold reuse_tail. rewrite E. cbn [mbind res_bind]. rewrite E1. cbn [mbind res_bind tr_heap set_heap] in *.
  rewrite E2. cbn [mbind res_bind]. rewrite E3. cbn [mbind res_bind]. by rewrite E4.
Qed.

Lemma trace_create_ok t l key :
  trace_list t l ->
  exists p h, trace_create t key = Ok (p, set_heap t h) /\ trace_list (set_heap t h) ((p, key) :: l).
Proof.
  intros [HL HN HD HK]. unfold trace_ptrs in *. set (p := alloc (dom (tr_heap t))).
  assert (Hp : p ∉ tr_head t :: l.*1 ++ [tr_tail t]).
  { intros Hp. apply (alloc_fresh (dom (tr_heap t))). fold p. rewrite HD. by apply elem_of_list_to_set. }
  destruct (l.*1 ++ [tr_tail t]) as [|b l'] eqn:El; [by destruct (l.*1)|].
  apply linked_cons in HL as (E1 & E2 & HL). apply nxt_deref in E1 as (r & Er & <-).
  set (h0 := <[p := mk_record (tr_head t) (rec_next r) (Some key)]> (tr_heap t)).
  assert (HX : forall x, x <> p -> h0 !! x = tr_heap t !! x) by (intros; by apply lookup_insert_ne).
  assert (D0 : dom h0 = {[p]} ∪ dom (tr_heap t)) by apply dom_insert_L.
  destruct (set_prev_ok h0 (rec_next r) p) as (h1 & F1 & D1 & A1 & N1 & P1 & K1); [rewrite D0, HD; set_solver|].
  destruct (set_next_ok h1 (tr_head t) p) as (h2 & F2 & D2 & A2 & N2 & P2 & K2); [rewrite D1, D0, HD; set_solver|].
  exists p, h2. split.
  { unfold trace_create. rewrite Er. cbn [mbind res_bind]. fold p h0. unfold deref in *. rewrite HX by set_solver.
    destruct (tr_heap t !! tr_head t); simplify_eq. cbn [mbind res_bind]. rewrite F1. cbn [mbind res_bind]. by rewrite F2. }
  apply not_elem_of_cons in Hp as [Hp1 Hp2]. apply NoDup_cons in HN as [Hh HN].
  split; unfold trace_ptrs; cbn [tr_heap tr_head tr_tail set_heap fmap list_fmap fst app]; change (list_fmap _ _ fst l) with (l.*1); rewrite ?El.
  - rewrite !linked_cons. split_and!; [done | | | |].
    + rewrite P2, P1 by set_solver. unfold prv, h0. by rewrite lookup_insert_eq.
    + rewrite N2, N1 by done. unfold nxt, h0. by rewrite lookup_insert_eq.
    + by rewrite P2, A1.
    + apply NoDup_cons in HN as [Hb _]. eapply linked_after; [| |exact HL]; intros x Hx.
      * rewrite N2, N1 by set_solver. unfold nxt. by rewrite HX by set_solver.
      * rewrite P2, P1 by set_solver. unfold prv. by rewrite HX by set_solver.
  - apply NoDup_cons_2; [by apply not_elem_of_cons|]. by apply NoDup_cons_2.
  - rewrite D2, D1, D0, HD. set_solver.
  - intros q k [[= -> ->]|Hq]%elem_of_cons; rewrite K2, K1; unfold rkey; [unfold h0; by rewrite lookup_insert_eq|].
    rewrite HX; [by apply HK|]. intros ->. apply Hp2. rewrite <- El. apply elem_of_app. left. by apply (list_elem_of_fmap_2 fst) in Hq.
Qed.

(** The walk frees the records it passes and stops at the sentinel. *)
Lemma clear_loop_ok fuel (h : heap K) l tail cur rest :
  (length l < fuel)%nat -> l.*1 ++ [tail] = cur :: rest -> linked h (cur :: rest) -> NoDup (cur :: rest) ->
  (forall p k, (p, k) ∈ l -> rkey h p = Some k) ->
  exists h', clear_loop fuel tail cur h = Ok h' /\ dom h' = dom h ∖ list_to_set l.*1.
Proof.
  revert fuel h cur rest. induction l as [|[p k] l IH]; intros [|fuel] h cur rest Hf El HL HN HK; cbn [length] in Hf; try lia.
  - cbn in El. simplify_eq. exists h. cbn. rewrite decide_True by done. split; [done|set_solver].
  - rewrite fmap_cons in El. cbn [app fst] in El. injection El as <- El.
    destruct rest as [|b rest]; [by destruct (l.*1)|].
    apply linked_cons in HL as (E & _ & HL). apply NoDup_cons in HN as [Hp HN].
    destruct (rkey_deref h p k) as (r & E1 & E2); [apply HK; by left|].
    apply nxt_deref in E as (r' & E' & <-). assert (r' = r) as -> by congruence.
    assert (HX : forall x, x ∈ rec_next r :: rest -> delete p h !! x = h !! x).
    { intros x Hx. apply lookup_delete_ne. by intros ->. }
    destruct (IH fuel (delete p h) (rec_next r) rest) as (h' & F & D); [lia|done| |done| |].
    + eapply linked_after; [| |exact HL]; intros x Hx; unfold nxt, prv; rewrite HX; [done|done|done|by right].
    + intros q k' Hq. unfold rkey. rewrite HX; [apply HK; by right|]. rewrite <- El. apply elem_of_app. left.
      by apply (list_elem_of_fmap_2 fst) in Hq.
    + exists h'. cbn [clear_loop]. rewrite decide_False; [|intros ->; apply Hp; rewrite <- El; apply elem_of_app; right; by left].
      rewrite E1. cbn [mbind res_bind]. rewrite E2. cbn [mbind res_bind]. split; [done|].
      rewrite D, dom_delete_L, fmap_cons. cbn [fst list_to_set]. set_solver.
Qed.

Lemma trace_clear_ok t l :
  trace_list t l -> exists h, trace_clear t = Ok (set_heap t h) /\ trace_list (set_heap t h) [].
Proof.
  intros [HL HN HD HK]. unfold trace_ptrs in *.
  assert (Hsz : size (tr_heap t) = S (S (length l))).
  { rewrite <- (size_dom (D := gset ptr)), HD, size_list_to_set by done. cbn [length]. rewrite length_app, length_fmap. cbn. lia. }
  destruct (l.*1 ++ [tr_tail t]) as [|b rest] eqn:El; [by destruct (l.*1)|].
  apply linked_cons in HL as (E & _ & HL). apply nxt_deref in E as (r & E & <-). apply NoDup_cons in HN as [Hh HN].
  destruct (clear_loop_ok (size (tr_heap t)) (tr_heap t) l (tr_tail t) (rec_next r) rest) as (h1 & F1 & D1); [lia|done..|].
  rewrite <- El in HN, HD, Hh. apply NoDup_app in HN as (_ & HN & _).
  assert (D1' : dom h1 = {[tr_head t; tr_tail t]}).
  { rewrite D1, HD. cbn [list_to_set]. rewrite list_to_set_app_L. cbn [list_to_set].
    assert ((tr_head t ∉ l.*1) /\ (tr_tail t ∉ l.*1)) as [X1 X2].
    { split; [intros X; apply Hh, elem_of_app; by left | intros X; apply (HN _ X); by left]. }
    set_solver. }
  destruct (suture_ok h1 (tr_head t) (tr_tail t)) as (h2 & F2 & HS); [rewrite D1'; set_solver..|].
  exists h2. split; [unfold trace_clear; rewrite E; cbn [mbind res_bind]; rewrite F1; cbn [mbind res_bind]; by rewrite F2|].
  assert (HN' : NoDup [tr_head t; tr_tail t]).
  { apply NoDup_cons_2; [|apply NoDup_singleton]. intros X. apply Hh, elem_of_app. by right. }
  split; unfold trace_ptrs; cbn [tr_heap tr_head tr_tail set_heap fmap list_fmap app].
  - by apply (sutured_linked h1 h2 []).
  - done.
  - destruct HS as (-> & _). rewrite D1'. set_solver.
  - intros p k Hp. by apply elem_of_nil in Hp.
Qed.

(** Dropping a cleared trace leaves nothing allocated. *)
Lemma trace_drop_ok t : trace_list t [] -> trace_drop t = Ok ∅.
Proof.
  intros [_ HN HD _]. unfold trace_ptrs in *. cbn [fmap list_fmap app list_to_set] in *. unfold trace_drop.
  apply NoDup_cons in HN as [Hne _].
  destruct (deref_ok (tr_heap t) (tr_head t)) as (r & -> & _); [rewrite HD; set_solver|]. cbn [mbind res_bind].
  destruct (deref_ok (delete (tr_head t) (tr_heap t)) (tr_tail t)) as (r' & -> & _); [rewrite dom_delete_L, HD; set_solver|].
  cbn [mbind res_bind]. f_equal. apply dom_empty_inv_L. rewrite !dom_delete_L, HD. set_solver.
Qed.
End Represents.
