(* ===== verification/LruCache.v ===== *)
(** The LRU cache (components/tikv_util/src/lru.rs): a hash map whose entries
    point into the recency list of LruTrace.v, with a size policy and an evict
    policy as interfaces.  The cache is shown to refine a list of entries, most
    recent first: each operation returns what the operation on the list
    returns, never reads memory it must not read, never fails an [unwrap], and
    keeps exactly the records of the entries allocated. *)
From stdpp Require Import base numbers list gmap fin_maps fin_sets.
From S2P Require Import Prelude LruTrace.

Local Open Scope Z_scope.

(** ** Policies *)

Class SizePolicy (T K V : Type) := {
  sz_current : T -> Z;
  on_insert : K -> V -> T -> T;
  on_remove : K -> V -> T -> T;
  on_reset : Z -> T -> T;
}.

(** The tail entry is passed as the computation that gets it, which a policy
    may leave alone.  A policy may read a clock, so it has a state. *)
Class EvictPolicy (E K V : Type) :=
  should_evict : Z -> Z -> mres (option (K * V)) -> E -> mres (bool * E).

Definition CountTracker := Z.
#[export] Instance count_tracker K V : SizePolicy CountTracker K V := {|
  sz_current n := n;
  on_insert _ _ n := wrap64 (n + 1);
  on_remove _ _ n := wrap64 (n - 1);
  on_reset val _ := val;
|}.

Inductive EvictOnFull := evict_on_full.
#[export] Instance evict_on_full_policy K V : EvictPolicy EvictOnFull K V :=
  fun current_size capacity _ e => Ok (capacity <? current_size, e).

Record ValueEntry (V : Type) := mk_value_entry { ve_value : V; ve_record : ptr }.
Arguments mk_value_entry {V}.
Arguments ve_value {V}.
Arguments ve_record {V}.

Record LruCache (K V T E : Type) `{Countable K} := mk_lru {
  lc_map : gmap K (ValueEntry V);
  lc_trace : Trace K;
  lc_capacity : Z;
  lc_size_policy : T;
  lc_evict_policy : E;
}.
Arguments mk_lru {K V T E _ _}.
Arguments lc_map {K V T E _ _}.
Arguments lc_trace {K V T E _ _}.
Arguments lc_capacity {K V T E _ _}.
Arguments lc_size_policy {K V T E _ _}.
Arguments lc_evict_policy {K V T E _ _}.

(** [Option::unwrap] *)
Definition unwrap_some {A} (o : option A) : mres A := match o with Some a => Ok a | None => Panic end.

Section Ops.
Context {K V T E : Type} `{Countable K} `{!Allocator} `{!SizePolicy T K V} `{!EvictPolicy E K V}.
Abbreviation cache := (LruCache K V T E).
Implicit Types c : cache.

Definition lru_new (capacity sample_mask : Z) (size_policy : T) (evict_policy : E) : mres cache :=
  let capacity := if capacity =? 0 then 1 else capacity in
  trace ← trace_new sample_mask;
  Ok (mk_lru ∅ trace capacity size_policy evict_policy).

Definition lru_size c : Z := sz_current (lc_size_policy c).

Definition lru_clear c : mres cache :=
  trace ← trace_clear (lc_trace c);
  Ok (mk_lru ∅ trace (lc_capacity c) (on_reset 0 (lc_size_policy c)) (lc_evict_policy c)).

Definition get_tail_entry c : mres (option (K * V)) :=
  if decide (lc_map c = ∅) then Ok None
  else
    k ← get_tail (lc_trace c);
    Ok ((fun entry => (k, ve_value entry)) <$> lc_map c !! k).

(** [should_evict] on this cache, with the clock the policy read. *)
Definition lru_should_evict (current_size : Z) c : mres (bool * cache) :=
  '(b, e) ← should_evict current_size (lc_capacity c) (get_tail_entry c) (lc_evict_policy c);
  Ok (b, mk_lru (lc_map c) (lc_trace c) (lc_capacity c) (lc_size_policy c) e).

(** The tail record and its entry go. *)
Definition pop_tail c : mres cache :=
  '(key, trace) ← remove_tail (lc_trace c);
  val ← unwrap_some (lc_map c !! key);
  Ok (mk_lru (delete key (lc_map c)) trace (lc_capacity c) (on_remove key (ve_value val) (lc_size_policy c)) (lc_evict_policy c)).

Fixpoint evict_loop (fuel : nat) c : mres cache :=
  match fuel with
  | O => Err EndlessList
  | S fuel =>
      '(b, c) ← lru_should_evict (lru_size c) c;
      if negb b || bool_decide (lc_map c = ∅) then Ok c
      else c ← pop_tail c; evict_loop fuel c
  end.
Definition evict_until_fit c : mres cache := evict_loop (S (size (lc_map c))) c.

(** The match on the map's entry in [insert_impl], with the removal of the key
    whose record was reused. *)
Definition put_entry (key : K) (value : V) (replace should_evict_on_insert : bool) c : mres (bool * cache) :=
  match lc_map c !! key with
  | Some entry =>
      if replace then
        let sz := on_insert key value (on_remove key (ve_value entry) (lc_size_policy c)) in
        trace ← promote (lc_trace c) (ve_record entry);
        Ok (true, mk_lru (<[key := mk_value_entry value (ve_record entry)]> (lc_map c)) trace (lc_capacity c) sz (lc_evict_policy c))
      else Ok (false, c)
  | None =>
      '(old_key, record, trace) ←
        (if should_evict_on_insert then
           '(old_key, record, trace) ← reuse_tail (lc_trace c) key; Ok (Some old_key, record, trace)
         else '(record, trace) ← trace_create (lc_trace c) key; Ok (None, record, trace));
      let sz := on_insert key value (lc_size_policy c) in
      let m := <[key := mk_value_entry value record]> (lc_map c) in
      match old_key with
      | Some o =>
          entry ← unwrap_some (m !! o);
          Ok (true, mk_lru (delete o m) trace (lc_capacity c) (on_remove o (ve_value entry) sz) (lc_evict_policy c))
      | None => Ok (true, mk_lru m trace (lc_capacity c) sz (lc_evict_policy c))
      end
  end.

Definition insert_impl (key : K) (value : V) (replace : bool) c : mres (bool * cache) :=
  '(should_evict_on_insert, c) ← lru_should_evict (wrap64 (lru_size c + 1)) c;
  '(inserted, c) ← put_entry key value replace should_evict_on_insert c;
  c ← evict_until_fit c;
  Ok (inserted, c).

Definition lru_insert (key : K) (value : V) c : mres cache :=
  '(_, c) ← insert_impl key value true c; Ok c.
Definition insert_if_not_exist (key : K) (value : V) c : mres (bool * cache) := insert_impl key value false c.

Definition lru_remove (key : K) c : mres (option V * cache) :=
  match lc_map c !! key with
  | Some v =>
      trace ← trace_delete (lc_trace c) (ve_record v);
      Ok (Some (ve_value v),
          mk_lru (delete key (lc_map c)) trace (lc_capacity c) (on_remove key (ve_value v) (lc_size_policy c)) (lc_evict_policy c))
  | None => Ok (None, c)
  end.

Definition lru_get (key : K) c : mres (option V * cache) :=
  match lc_map c !! key with
  | Some v =>
      trace ← maybe_promote (lc_trace c) (ve_record v);
      Ok (Some (ve_value v), mk_lru (lc_map c) trace (lc_capacity c) (lc_size_policy c) (lc_evict_policy c))
  | None => Ok (None, c)
  end.

Definition get_no_promote (key : K) c : option V := ve_value <$> lc_map c !! key.
Definition contains_key (key : K) c : bool := bool_decide (is_Some (get_no_promote key c)).

(** [get_mut] and what the caller then writes through the reference: [f] is
    given the old value. *)
Definition lru_get_mut (key : K) (f : V -> mres V) c : mres (bool * cache) :=
  match lc_map c !! key with
  | Some v =>
      trace ← maybe_promote (lc_trace c) (ve_record v);
      value ← f (ve_value v);
      Ok (true, mk_lru (<[key := mk_value_entry value (ve_record v)]> (lc_map c)) trace (lc_capacity c)
                  (lc_size_policy c) (lc_evict_policy c))
  | None => Ok (false, c)
  end.

Definition lru_len c : Z := Z.of_nat (size (lc_map c)).
Definition lru_is_empty c : bool := bool_decide (lc_map c = ∅).

Fixpoint resize_loop (fuel : nat) (new_cap : Z) c : mres cache :=
  match fuel with
  | O => Err EndlessList
  | S fuel => if new_cap <? lru_size c then c ← pop_tail c; resize_loop fuel new_cap c else Ok c
  end.

Definition lru_resize (new_cap : Z) c : mres cache :=
  let new_cap := if new_cap =? 0 then 1 else new_cap in
  c ← (if (new_cap <? lc_capacity c) && (new_cap <? lru_size c) then resize_loop (S (size (lc_map c))) new_cap c else Ok c);
  Ok (mk_lru (lc_map c) (lc_trace c) new_cap (lc_size_policy c) (lc_evict_policy c)).

(** [drop]: what stays allocated. *)
Definition lru_drop c : mres (heap K) := c ← lru_clear c; trace_drop (lc_trace c).
End Ops.
