(* ===== verification/LruSpec.v ===== *)
(** What the LRU cache promises: it behaves as a list of entries, most recent
    first, from whose end entries are evicted.  The operations on the list are
    written without pointers and without a hash map; the operations of
    LruCache.v are shown to return what they return, for every size and evict
    policy that satisfies the laws stated here. *)
From stdpp Require Import base numbers list gmap fin_maps fin_sets.
From S2P Require Import Prelude LruTrace LruCache.

Local Open Scope Z_scope.

(** ** The list *)

Record lru_list (K V T E : Type) := mk_list {
  ll_entries : list (K * V);
  ll_tick : Z;
  ll_mask : Z;
  ll_capacity : Z;
  ll_size : T;
  ll_evict : E;
}.
Arguments mk_list {K V T E}.
Arguments ll_entries {K V T E}.
Arguments ll_tick {K V T E}.
Arguments ll_mask {K V T E}.
Arguments ll_capacity {K V T E}.
Arguments ll_size {K V T E}.
Arguments ll_evict {K V T E}.

(** The operations of a cache, and what they return. *)
Inductive lru_op (K V : Type) :=
  | OpInsert (key : K) (value : V)
  | OpInsertIfNotExist (key : K) (value : V)
  | OpRemove (key : K)
  | OpGet (key : K)
  | OpGetNoPromote (key : K)
  | OpGetMut (key : K) (f : V -> mres V)
  | OpResize (new_cap : Z)
  | OpClear.
Arguments OpInsert {K V}.
Arguments OpInsertIfNotExist {K V}.
Arguments OpRemove {K V}.
Arguments OpGet {K V}.
Arguments OpGetNoPromote {K V}.
Arguments OpGetMut {K V}.
Arguments OpResize {K V}.
Arguments OpClear {K V}.

Inductive lru_answer (V : Type) := AnsUnit | AnsBool (b : bool) | AnsValue (o : option V).
Arguments AnsUnit {V}.
Arguments AnsBool {V}.
Arguments AnsValue {V}.

Section Spec.
Context {K V T E : Type} `{Countable K} `{!SizePolicy T K V} `{!EvictPolicy E K V}.
Abbreviation spec := (lru_list K V T E).
Implicit Types s : spec.

Definition assoc (k : K) (l : list (K * V)) : option V := (list_to_map l : gmap K V) !! k.
Definition without (k : K) (l : list (K * V)) : list (K * V) := filter (fun e => e.1 <> k) l.
Definition replace (k : K) (v : V) (l : list (K * V)) : list (K * V) :=
  (fun e => if decide (e.1 = k) then (k, v) else e) <$> l.

Definition with_entries s l sz : spec := mk_list l (ll_tick s) (ll_mask s) (ll_capacity s) sz (ll_evict s).

Definition sp_new (capacity mask : Z) (sz : T) (ev : E) : spec :=
  mk_list [] 0 mask (if capacity =? 0 then 1 else capacity) sz ev.

(** A use of an entry moves it to the front on every [mask + 1]st use. *)
Definition sp_touch (k : K) (v : V) s : spec :=
  let tick := wrap64 (ll_tick s + 1) in
  let l := if Z.land tick (ll_mask s) =? 0 then (k, v) :: without k (ll_entries s) else ll_entries s in
  mk_list l tick (ll_mask s) (ll_capacity s) (ll_size s) (ll_evict s).

Definition sp_should_evict (n : Z) s : mres (bool * spec) :=
  '(b, e) ← should_evict n (ll_capacity s) (Ok (last (ll_entries s))) (ll_evict s);
  Ok (b, mk_list (ll_entries s) (ll_tick s) (ll_mask s) (ll_capacity s) (ll_size s) e).

Definition sp_pop s : spec :=
  match last (ll_entries s) with
  | Some (k, v) => with_entries s (removelast (ll_entries s)) (on_remove k v (ll_size s))
  | None => s
  end.

(** Entries leave at the end while the policy says so; there are [n] of them. *)
Fixpoint sp_evict (n : nat) s : mres spec :=
  '(b, s) ← sp_should_evict (sz_current (ll_size s)) s;
  match n with
  | O => Ok s
  | S n => if b : bool then sp_evict n (sp_pop s) else Ok s
  end.

Definition sp_put (k : K) (v : V) (repl evict : bool) s : bool * spec :=
  match assoc k (ll_entries s) with
  | Some v0 =>
      if repl
      then (true, with_entries s ((k, v) :: without k (ll_entries s)) (on_insert k v (on_remove k v0 (ll_size s))))
      else (false, s)
  | None =>
      (true,
       match evict, last (ll_entries s) with
       | true, Some (ko, vo) =>
           with_entries s ((k, v) :: removelast (ll_entries s)) (on_remove ko vo (on_insert k v (ll_size s)))
       | _, _ => with_entries s ((k, v) :: ll_entries s) (on_insert k v (ll_size s))
       end)
  end.

Definition sp_insert (k : K) (v : V) (repl : bool) s : mres (bool * spec) :=
  '(evict, s) ← sp_should_evict (wrap64 (sz_current (ll_size s) + 1)) s;
  let '(inserted, s) := sp_put k v repl evict s in
  s ← sp_evict (length (ll_entries s)) s;
  Ok (inserted, s).

Definition sp_remove (k : K) s : option V * spec :=
  match assoc k (ll_entries s) with
  | Some v => (Some v, with_entries s (without k (ll_entries s)) (on_remove k v (ll_size s)))
  | None => (None, s)
  end.

Definition sp_get (k : K) s : option V * spec :=
  match assoc k (ll_entries s) with Some v => (Some v, sp_touch k v s) | None => (None, s) end.

Definition sp_get_mut (k : K) (f : V -> mres V) s : mres (bool * spec) :=
  match assoc k (ll_entries s) with
  | Some v =>
      let s := sp_touch k v s in
      v' ← f v; Ok (true, with_entries s (replace k v' (ll_entries s)) (ll_size s))
  | None => Ok (false, s)
  end.

Fixpoint sp_shrink (n : nat) (new_cap : Z) s : spec :=
  match n with
  | O => s
  | S n => if new_cap <? sz_current (ll_size s) then sp_shrink n new_cap (sp_pop s) else s
  end.

Definition sp_resize (new_cap : Z) s : spec :=
  let new_cap := if new_cap =? 0 then 1 else new_cap in
  let s := if (new_cap <? ll_capacity s) && (new_cap <? sz_current (ll_size s))
           then sp_shrink (length (ll_entries s)) new_cap s else s in
  mk_list (ll_entries s) (ll_tick s) (ll_mask s) new_cap (ll_size s) (ll_evict s).

Definition sp_run (op : lru_op K V) s : mres (lru_answer V * spec) :=
  match op with
  | OpInsert k v => '(_, s) ← sp_insert k v true s; Ok (AnsUnit, s)
  | OpInsertIfNotExist k v => '(b, s) ← sp_insert k v false s; Ok (AnsBool b, s)
  | OpRemove k => let '(o, s) := sp_remove k s in Ok (AnsValue o, s)
  | OpGet k => let '(o, s) := sp_get k s in Ok (AnsValue o, s)
  | OpGetNoPromote k => Ok (AnsValue (assoc k (ll_entries s)), s)
  | OpGetMut k f => '(b, s) ← sp_get_mut k f s; Ok (AnsBool b, s)
  | OpResize n => Ok (AnsUnit, sp_resize n s)
  | OpClear => Ok (AnsUnit, with_entries s [] (on_reset 0 (ll_size s)))
  end.
End Spec.

Section Runs.
Context {K V T E : Type} `{Countable K} `{!Allocator} `{!SizePolicy T K V} `{!EvictPolicy E K V}.

Definition lru_run (op : lru_op K V) (c : LruCache K V T E) : mres (lru_answer V * LruCache K V T E) :=
  match op with
  | OpInsert k v => c ← lru_insert k v c; Ok (AnsUnit, c)
  | OpInsertIfNotExist k v => '(b, c) ← insert_if_not_exist k v c; Ok (AnsBool b, c)
  | OpRemove k => '(o, c) ← lru_remove k c; Ok (AnsValue o, c)
  | OpGet k => '(o, c) ← lru_get k c; Ok (AnsValue o, c)
  | OpGetNoPromote k => Ok (AnsValue (get_no_promote k c), c)
  | OpGetMut k f => '(b, c) ← lru_get_mut k f c; Ok (AnsBool b, c)
  | OpResize n => c ← lru_resize n c; Ok (AnsUnit, c)
  | OpClear => c ← lru_clear c; Ok (AnsUnit, c)
  end.
End Runs.

(** A sequence of operations. *)
Fixpoint run_all {A O S : Type} (run : O -> S -> mres (A * S)) (ops : list O) (s : S) : mres (list A * S) :=
  match ops with
  | [] => Ok ([], s)
  | op :: ops => '(a, s) ← run op s; '(rest, s) ← run_all run ops s; Ok (a :: rest, s)
  end.

(** ** Laws of the policies *)

(** The size is right for the entries; an empty cache has size zero. *)
Class SizeLaws (T K V : Type) `{SizePolicy T K V} := {
  sized : T -> list (K * V) -> Prop;
  sized_perm s l l' : l ≡ₚ l' -> sized s l -> sized s l';
  sized_insert k v s l : sized s l -> sized (on_insert k v s) ((k, v) :: l);
  sized_remove k v s l : sized s ((k, v) :: l) -> sized (on_remove k v s) l;
  sized_reset s : sized (on_reset 0 s) [];
  sized_empty s : sized s [] -> sz_current s = 0;
}.

(** Nothing is evicted from an empty cache that has room. *)
Class EvictLaws (E K V : Type) `{EvictPolicy E K V} : Prop := {
  evict_empty n cap (e e' : E) : should_evict n cap (Ok None) e = Ok (true, e') -> cap < n;
}.

#[export] Instance count_tracker_laws K V : SizeLaws CountTracker K V.
Proof.
  refine {| sized n l := n = wrap64 (Z.of_nat (length l)) |}; cbn.
  - intros s l l' HP. by rewrite HP.
  - intros k v s l ->. rewrite wrap64_add_l. f_equal. lia.
  - intros k v s l ->. rewrite wrap64_sub_l. f_equal. lia.
  - done.
  - intros s ->. done.
Defined.

#[export] Instance evict_on_full_laws K V : EvictLaws EvictOnFull K V.
Proof. split. intros n cap e e'. unfold should_evict, evict_on_full_policy. intros [= Hn]. by apply Z.ltb_lt. Qed.
