(* ===== verification/LruRefine.v ===== *)
(** The LRU cache of LruCache.v refines the list of LruSpec.v. *)
From stdpp Require Import base numbers list gmap fin_maps fin_sets.
From S2P Require Import Prelude LruTrace LruCache LruSpec.

Local Open Scope Z_scope.

(** ** Related results *)

(** Equal failures, or related values. *)
Definition res_rel {A B} (R : A -> B -> Prop) (m : mres A) (m' : mres B) : Prop :=
  match m, m' with
  | Ok a, Ok b => R a b
  | Err e, Err e' => e = e'
  | Panic, Panic => True
  | _, _ => False
  end.

Lemma res_rel_bind {A B C D} (R : A -> B -> Prop) (S : C -> D -> Prop) m m' f f' :
  res_rel R m m' -> (forall a b, R a b -> res_rel S (f a) (f' b)) -> res_rel S (m ≫= f) (m' ≫= f').
Proof. destruct m, m'; cbn; try done. auto. Qed.

Lemma res_rel_mono {A B} (R S : A -> B -> Prop) m m' :
  res_rel R m m' -> (forall a b, R a b -> S a b) -> res_rel S m m'.
Proof. destruct m, m'; cbn; auto. Qed.

Lemma res_rel_eq {A} (m : mres A) : res_rel eq m m.
Proof. by destruct m. Qed.

Lemma res_rel_ok {A B} (R : A -> B -> Prop) m b : res_rel R m (Ok b) -> exists a, m = Ok a /\ R a b.
Proof. destruct m; cbn; [eauto|done..]. Qed.

(** Equal answers with related states. *)
Definition ans_rel {A B C} (R : B -> C -> Prop) (x : A * B) (y : A * C) : Prop := x.1 = y.1 /\ R x.2 y.2.

(** ** Entries *)

Section Entries.
Context {K V : Type} `{Countable K}.
Implicit Types (L : list (K * ValueEntry V)) (l : list (K * V)).

Definition recs L : list (ptr * K) := (fun x => (ve_record x.2, x.1)) <$> L.
Definition vals L : list (K * V) := prod_map id ve_value <$> L.

Lemma vals_keys L : (vals L).*1 = L.*1.
Proof. unfold vals. rewrite <- list_fmap_compose. by apply list_fmap_ext. Qed.

Lemma recs_app L1 k e L2 : recs (L1 ++ (k, e) :: L2) = recs L1 ++ (ve_record e, k) :: recs L2.
Proof. unfold recs. by rewrite fmap_app. Qed.

Lemma vals_app L1 k e L2 : vals (L1 ++ (k, e) :: L2) = vals L1 ++ (k, ve_value e) :: vals L2.
Proof. unfold vals. by rewrite fmap_app. Qed.

Lemma assoc_vals L k : assoc k (vals L) = ve_value <$> (list_to_map L : gmap K _) !! k.
Proof. unfold assoc, vals. by rewrite list_to_map_fmap, lookup_fmap. Qed.

Lemma map_split L k e :
  (list_to_map L : gmap K _) !! k = Some e -> exists L1 L2, L = L1 ++ (k, e) :: L2.
Proof. intros Hk. apply elem_of_list_to_map_2 in Hk. by apply list_elem_of_split in Hk. Qed.

Lemma nodup_middle {A B} (l1 l2 : list (A * B)) k v :
  NoDup (l1 ++ (k, v) :: l2).*1 -> (k ∉ l1.*1) /\ (k ∉ l2.*1) /\ NoDup (l1 ++ l2).*1.
Proof.
  rewrite !fmap_app, fmap_cons. cbn [fst]. rewrite <- Permutation_middle, NoDup_cons, not_elem_of_app. tauto.
Qed.

Lemma without_none k l : k ∉ l.*1 -> without k l = l.
Proof.
  intros Hk. induction l as [|[k' v] l IH]; [done|]. rewrite fmap_cons, not_elem_of_cons in Hk. destruct Hk as [Hne Hk].
  unfold without in *. rewrite filter_cons_True by (cbn in *; congruence). by rewrite IH.
Qed.

Lemma without_middle k v l1 l2 : NoDup (l1 ++ (k, v) :: l2).*1 -> without k (l1 ++ (k, v) :: l2) = l1 ++ l2.
Proof.
  intros (H1 & H2 & _)%nodup_middle. unfold without. rewrite filter_app, filter_cons_False by (cbn; tauto).
  f_equal; by apply without_none.
Qed.

Lemma replace_none k v l : k ∉ l.*1 -> replace k v l = l.
Proof.
  intros Hk. induction l as [|[k' v'] l IH]; [done|]. rewrite fmap_cons, not_elem_of_cons in Hk. destruct Hk as [Hne Hk].
  unfold replace in *. rewrite fmap_cons, IH by done. by rewrite decide_False by (cbn in *; congruence).
Qed.

Lemma replace_middle k v v' l1 l2 :
  NoDup (l1 ++ (k, v) :: l2).*1 -> replace k v' (l1 ++ (k, v) :: l2) = l1 ++ (k, v') :: l2.
Proof.
  intros (H1 & H2 & _)%nodup_middle. unfold replace. rewrite fmap_app, fmap_cons, decide_True by done.
  f_equal; [|f_equal]; by apply replace_none.
Qed.

Lemma map_middle {A} (l1 l2 : list (K * A)) k a :
  NoDup (l1 ++ (k, a) :: l2).*1 ->
  delete k (list_to_map (l1 ++ (k, a) :: l2) : gmap K A) = list_to_map (l1 ++ l2).
Proof.
  intros HN. pose proof (nodup_middle _ _ _ _ HN) as (H1 & H2 & _).
  rewrite (list_to_map_proper _ ((k, a) :: l1 ++ l2)); [|done|by rewrite <- Permutation_middle].
  cbn [list_to_map foldr]. apply delete_insert_id, not_elem_of_list_to_map_1. rewrite fmap_app, not_elem_of_app. done.
Qed.

Lemma map_middle_insert {A} (l1 l2 : list (K * A)) k a a' :
  NoDup (l1 ++ (k, a) :: l2).*1 ->
  <[k := a']> (list_to_map (l1 ++ (k, a) :: l2) : gmap K A) = list_to_map ((k, a') :: l1 ++ l2).
Proof. intros HN. rewrite <- insert_delete_eq, map_middle by done. done. Qed.

Lemma map_perm {A} (l l' : list (K * A)) : NoDup l.*1 -> l ≡ₚ l' -> (list_to_map l : gmap K A) = list_to_map l'.
Proof. intros. by apply list_to_map_proper. Qed.

Lemma vals_last L : last (vals L) = prod_map id ve_value <$> last L.
Proof. unfold vals. by rewrite fmap_last. Qed.

Lemma size_map L : NoDup L.*1 -> size (list_to_map L : gmap K (ValueEntry V)) = length L.
Proof.
  intros HN. rewrite <- (size_dom (D := gset K)), dom_list_to_map_L, size_list_to_set by done. by rewrite length_fmap.
Qed.
End Entries.

(** ** The refinement *)

Section Refine.
Context {K V T E : Type} `{Countable K} `{!Allocator} `{!AllocatorLaws}.
Context `{!SizePolicy T K V} `{!EvictPolicy E K V} `{!SizeLaws T K V} `{!EvictLaws E K V}.
Abbreviation cache := (LruCache K V T E).
Abbreviation spec := (lru_list K V T E).
Implicit Types (c : cache) (s : spec) (L : list (K * ValueEntry V)).

Record lru_rel_by c s L : Prop := {
  rel_trace : trace_list (lc_trace c) (recs L);
  rel_nodup : NoDup L.*1;
  rel_map : lc_map c = list_to_map L;
  rel_entries : ll_entries s = vals L;
  rel_tick : tr_tick (lc_trace c) = ll_tick s;
  rel_mask : tr_sample_mask (lc_trace c) = ll_mask s;
  rel_capacity : lc_capacity c = ll_capacity s;
  rel_size : lc_size_policy c = ll_size s;
  rel_evict : lc_evict_policy c = ll_evict s;
}.

Record lru_rel c s : Prop := {
  rel_by : exists L, lru_rel_by c s L;
  rel_room : 1 <= ll_capacity s;
  rel_sized : sized (ll_size s) (ll_entries s);
}.

Lemma lru_new_refines cap mask sz ev :
  0 <= cap -> sized sz [] -> exists c, lru_new cap mask sz ev = Ok c /\ lru_rel c (sp_new cap mask sz ev).
Proof.
  intros Hc Hs. unfold lru_new, sp_new. destruct (trace_new_ok (K := K) mask) as (t & -> & HT & Htick & Hmask).
  cbn [mbind res_bind]. eexists. split; [done|]. split; [|cbn; destruct (cap =? 0) eqn:?; bool_to_prop; lia|done].
  exists []. split; (done || apply NoDup_nil_2).
Qed.

Lemma get_tail_entry_refines c s : lru_rel c s -> get_tail_entry c = Ok (last (ll_entries s)).
Proof.
  intros [[L [HT HN HM HE _ _ _ _ _]] _ _]. unfold get_tail_entry. rewrite HM, HE, vals_last.
  destruct L as [|[k e] L _] using rev_ind; [by rewrite decide_True|].
  rewrite recs_app in HT. rewrite decide_False, last_snoc, (get_tail_ok _ _ _ _ HT).
  - cbn [mbind res_bind]. rewrite (elem_of_list_to_map_1 _ k e); [done|done|]. apply elem_of_app. right. by left.
  - intros Hm. apply (f_equal (fun m => m !! k)) in Hm. rewrite (elem_of_list_to_map_1 _ k e) in Hm; [done|done|].
    apply elem_of_app. right. by left.
Qed.

(** The answer of the policy; it only says yes on a cache with entries, or on
    one that is beyond its capacity. *)
Lemma should_evict_refines n c s :
  lru_rel c s -> res_rel (fun x y => ans_rel lru_rel x y /\ lc_map x.2 = lc_map c /\ lc_trace x.2 = lc_trace c /\
                             ll_entries y.2 = ll_entries s /\ ll_size y.2 = ll_size s /\ ll_capacity y.2 = ll_capacity s /\
                             (y.1 = true -> ll_entries s = [] -> ll_capacity s < n))
                   (lru_should_evict n c) (sp_should_evict n s).
Proof.
  intros HR. unfold lru_should_evict, sp_should_evict. rewrite (get_tail_entry_refines c s HR).
  destruct HR as [[L [HT HN HM HE Ht Hm Hc Hs He]] Hr Hz]. rewrite Hc, He.
  destruct (should_evict _ _ _ _) as [[b e]| |] eqn:Ev; cbn; [|done..].
  split_and!; [|done..|].
  - split; [done|]. split; [|done..]. exists L. by split.
  - intros -> Hnil. rewrite Hnil in Ev. by apply evict_empty in Ev.
Qed.

Lemma rel_is_empty c s : lru_rel c s -> lc_map c = ∅ <-> ll_entries s = [].
Proof.
  intros [[L [_ HN HM HE _ _ _ _ _]] _ _]. rewrite HM, HE. split.
  - intros Hm. apply (f_equal size) in Hm. rewrite size_map, map_size_empty in Hm by done. by apply length_zero_iff_nil in Hm as ->.
  - unfold vals. intros Hn. by apply fmap_nil_inv in Hn as ->.
Qed.

Lemma rel_lru_size c s : lru_rel c s -> lru_size c = sz_current (ll_size s).
Proof. intros [[L [_ _ _ _ _ _ _ Hs _]] _ _]. unfold lru_size. by rewrite Hs. Qed.

Lemma rel_length c s : lru_rel c s -> size (lc_map c) = length (ll_entries s).
Proof. intros [[L [_ HN HM HE _ _ _ _ _]] _ _]. rewrite HM, HE, size_map by done. unfold vals. by rewrite length_fmap. Qed.

Lemma rel_lookup c s k : lru_rel c s -> ve_value <$> lc_map c !! k = assoc k (ll_entries s).
Proof. intros [[L [_ HN HM HE _ _ _ _ _]] _ _]. by rewrite HM, HE, assoc_vals. Qed.

(** A related pair for the changed parts. *)
Lemma rel_update c s L h t sz :
  lru_rel c s -> tr_tick t = tr_tick (lc_trace c) -> tr_sample_mask t = tr_sample_mask (lc_trace c) ->
  trace_list (set_heap t h) (recs L) -> NoDup L.*1 -> sized sz (vals L) ->
  lru_rel (mk_lru (list_to_map L) (set_heap t h) (lc_capacity c) sz (lc_evict_policy c)) (with_entries s (vals L) sz).
Proof.
  intros [[L0 [_ _ _ _ Ht Hm Hc _ He]] Hr _] Et Em HT HN HS. split; [|done..].
  exists L. split; cbn; (done || congruence).
Qed.

Lemma pop_tail_refines c s :
  lru_rel c s -> ll_entries s <> [] ->
  exists c', pop_tail c = Ok c' /\ lru_rel c' (sp_pop s) /\ S (size (lc_map c')) = size (lc_map c).
Proof.
  intros HR Hne. pose proof HR as [[L [HT HN HM HE Ht Hm Hc Hs He]] Hr Hz]. rewrite HE in Hne, Hz.
  destruct L as [|[k e] L _] using rev_ind; [done|]. rewrite recs_app in HT. unfold pop_tail.
  destruct (remove_tail_ok _ _ _ _ HT) as (h & -> & HT'). cbn [mbind res_bind].
  rewrite HM, (elem_of_list_to_map_1 _ k e); [|done|apply elem_of_app; right; by left]. cbn [unwrap_some mbind res_bind].
  eexists. split; [done|]. pose proof (nodup_middle _ _ _ _ HN) as (_ & _ & HN'). rewrite map_middle by done.
  rewrite app_nil_r in *. split.
  - unfold sp_pop. rewrite HE, vals_last, last_snoc. cbn [prod_map fmap option_fmap option_map id fst snd].
    rewrite vals_app. cbn [vals]. rewrite removelast_last. rewrite Hs. eapply rel_update; try done.
    apply sized_remove. eapply sized_perm; [|exact Hz]. rewrite vals_app. by rewrite <- Permutation_middle, app_nil_r.
  - cbn [lc_map]. rewrite !size_map by done. rewrite length_app. cbn. lia.
Qed.

Lemma evict_loop_refines n : forall fuel c s,
  (n < fuel)%nat -> length (ll_entries s) = n -> lru_rel c s -> res_rel lru_rel (evict_loop fuel c) (sp_evict n s).
Proof.
  induction n as [|n IH]; intros [|fuel] c s Hf Hn HR; try lia; cbn [evict_loop sp_evict];
    (eapply res_rel_bind; [rewrite (rel_lru_size c s HR); by apply should_evict_refines|]);
    intros [b c1] [b' s1] ([Hb HR1] & Em & _ & El & _); cbn [fst snd] in *; subst b'.
  - rewrite (bool_decide_eq_true_2 (lc_map c1 = ∅)), orb_true_r; [done|].
    apply (rel_is_empty c1 s1 HR1). rewrite El. by apply length_zero_iff_nil.
  - rewrite (bool_decide_eq_false_2 (lc_map c1 = ∅)), orb_false_r.
    2: { rewrite (rel_is_empty c1 s1 HR1), El. intros Hnil. by rewrite Hnil in Hn. }
    destruct b; cbn [negb]; [|done].
    destruct (pop_tail_refines c1 s1 HR1) as (c2 & -> & HR2 & Hsz); [rewrite El; intros Hnil; by rewrite Hnil in Hn|]. cbn [mbind res_bind].
    apply IH; [lia| |done]. apply rel_length in HR1, HR2. rewrite El in HR1. lia.
Qed.

Lemma evict_until_fit_refines c s :
  lru_rel c s -> res_rel lru_rel (evict_until_fit c) (sp_evict (length (ll_entries s)) s).
Proof. intros HR. unfold evict_until_fit. apply evict_loop_refines; [rewrite (rel_length c s HR); lia|done..]. Qed.

(** The entry of a key that is present. *)
Lemma rel_found c s k e :
  lru_rel c s -> lc_map c !! k = Some e ->
  exists L1 L2, lru_rel_by c s (L1 ++ (k, e) :: L2) /\ assoc k (ll_entries s) = Some (ve_value e) /\
    NoDup (L1 ++ L2).*1 /\ without k (ll_entries s) = vals (L1 ++ L2) /\
    ll_entries s ≡ₚ (k, ve_value e) :: vals (L1 ++ L2).
Proof.
  intros HR Hk. rewrite <- (rel_lookup c s k HR), Hk. destruct HR as [[L HL] _ _].
  pose proof (rel_map _ _ _ HL) as HM. rewrite HM in Hk. apply map_split in Hk as (L1 & L2 & ->).
  exists L1, L2. pose proof (rel_nodup _ _ _ HL) as HN. rewrite (rel_entries _ _ _ HL), vals_app.
  assert (HN' : NoDup (vals L1 ++ (k, ve_value e) :: vals L2).*1) by (rewrite <- vals_app, vals_keys; done).
  split_and!; [done|done| | |].
  - by apply nodup_middle in HN as (_ & _ & ?).
  - rewrite without_middle by done. unfold vals. by rewrite fmap_app.
  - rewrite <- Permutation_middle. unfold vals. by rewrite fmap_app.
Qed.

(** An entry that is present is replaced and promoted. *)
Lemma put_present k v e c s :
  lru_rel c s -> lc_map c !! k = Some e ->
  exists c', (trace ← promote (lc_trace c) (ve_record e);
         Ok (true, mk_lru (<[k := mk_value_entry v (ve_record e)]> (lc_map c)) trace (lc_capacity c)
                     (on_insert k v (on_remove k (ve_value e) (lc_size_policy c))) (lc_evict_policy c))) = Ok (true, c') /\
    lru_rel c' (with_entries s ((k, v) :: without k (ll_entries s)) (on_insert k v (on_remove k (ve_value e) (ll_size s)))).
Proof.
  intros HR Ek. destruct (rel_found c s k e HR Ek) as (L1 & L2 & HL & _ & HN & -> & HP).
  pose proof HL as [HT HN0 HM _ _ _ _ Hs _]. rewrite recs_app in HT.
  destruct (move_to_front_ok _ _ _ _ _ HT) as (h & E1 & HT'). unfold promote. rewrite E1. cbn [mbind res_bind].
  eexists. split; [done|]. rewrite HM, map_middle_insert, Hs by done.
  change ((k, v) :: vals (L1 ++ L2)) with (vals ((k, mk_value_entry v (ve_record e)) :: L1 ++ L2)).
  apply (rel_update c s); [done..| | |].
  - unfold recs in *. by rewrite <- fmap_app in HT'.
  - rewrite fmap_cons. apply NoDup_cons_2; [|done]. apply nodup_middle in HN0 as (X1 & X2 & _). rewrite fmap_app, not_elem_of_app. done.
  - apply sized_insert, sized_remove. eapply sized_perm; [exact HP|]. apply HR.
Qed.

(** A new entry takes the record of the last one, which goes. *)
Lemma put_reuse k v c s :
  lru_rel c s -> lc_map c !! k = None -> ll_entries s <> [] ->
  exists ko vo h p eo, last (ll_entries s) = Some (ko, vo) /\ reuse_tail (lc_trace c) k = Ok (ko, p, set_heap (lc_trace c) h) /\
    <[k := mk_value_entry v p]> (lc_map c) !! ko = Some eo /\ ve_value eo = vo /\
    lru_rel (mk_lru (delete ko (<[k := mk_value_entry v p]> (lc_map c))) (set_heap (lc_trace c) h) (lc_capacity c)
               (on_remove ko vo (on_insert k v (lc_size_policy c))) (lc_evict_policy c))
            (with_entries s ((k, v) :: removelast (ll_entries s)) (on_remove ko vo (on_insert k v (ll_size s)))).
Proof.
  intros HR Ek Hne. pose proof HR as [[L HL] _ Hz]. pose proof HL as [HT HN HM HE _ _ _ Hs _]. rewrite HE in *.
  destruct L as [|[ko eo] L _] using rev_ind; [done|]. rewrite recs_app in HT.
  assert (Hk : k ∉ (L ++ [(ko, eo)]).*1) by (apply not_elem_of_list_to_map_2; by rewrite <- HM).
  pose proof (nodup_middle _ _ _ _ HN) as (_ & _ & HN'). rewrite app_nil_r in HN'.
  rewrite fmap_app, not_elem_of_app in Hk. destruct Hk as [Hk Hko%not_elem_of_cons]. destruct Hko as [Hko _].
  destruct (reuse_tail_ok _ _ _ _ k HT) as (h & E1 & HT'). cbn [fst] in Hko.
  exists ko, (ve_value eo), h, (ve_record eo), eo. split_and!; [by rewrite vals_last, last_snoc|done| |done|].
  { rewrite lookup_insert_ne, HM by done. apply elem_of_list_to_map_1; [done|]. apply elem_of_app. right. by left. }
  rewrite delete_insert_ne, HM, map_middle, app_nil_r, Hs, vals_app, removelast_last by done.
  change ((k, v) :: vals L) with (vals ((k, mk_value_entry v (ve_record eo)) :: L)).
  apply (rel_update c s ((k, mk_value_entry v (ve_record eo)) :: L)); [done..| |].
  - rewrite fmap_cons. by apply NoDup_cons_2.
  - apply sized_remove. eapply sized_perm; [|apply (sized_insert k v), Hz]. rewrite vals_app, <- Permutation_middle, app_nil_r.
    apply perm_swap.
Qed.

Lemma put_create k v c s :
  lru_rel c s -> lc_map c !! k = None ->
  exists p h, trace_create (lc_trace c) k = Ok (p, set_heap (lc_trace c) h) /\
    lru_rel (mk_lru (<[k := mk_value_entry v p]> (lc_map c)) (set_heap (lc_trace c) h) (lc_capacity c)
               (on_insert k v (lc_size_policy c)) (lc_evict_policy c))
            (with_entries s ((k, v) :: ll_entries s) (on_insert k v (ll_size s))).
Proof.
  intros HR Ek. pose proof HR as [[L HL] _ Hz]. pose proof HL as [HT HN HM HE _ _ _ Hs _].
  assert (Hk : k ∉ L.*1) by (apply not_elem_of_list_to_map_2; by rewrite <- HM).
  destruct (trace_create_ok _ _ k HT) as (p & h & E1 & HT'). exists p, h. split; [done|].
  rewrite HE in *. rewrite HM, Hs. change ((k, v) :: vals L) with (vals ((k, mk_value_entry v p) :: L)).
  apply (rel_update c s ((k, mk_value_entry v p) :: L)); [done..| |].
  - rewrite fmap_cons. by apply NoDup_cons_2.
  - by apply sized_insert.
Qed.

Lemma put_entry_refines k v repl evict c s :
  lru_rel c s -> (evict = true -> ll_entries s <> []) ->
  res_rel (ans_rel lru_rel) (put_entry k v repl evict c) (Ok (sp_put k v repl evict s)).
Proof.
  intros HR Hev. unfold put_entry, sp_put. rewrite <- (rel_lookup c s k HR).
  destruct (lc_map c !! k) as [e|] eqn:Ek; cbn [fmap option_fmap option_map].
  - destruct repl; [|done]. destruct (put_present k v e c s HR Ek) as (c' & -> & HR'). done.
  - destruct evict.
    + destruct (put_reuse k v c s HR Ek (Hev eq_refl)) as (ko & vo & h & p & eo & -> & -> & E1 & <- & HR').
      cbn [mbind res_bind]. rewrite E1. done.
    + destruct (put_create k v c s HR Ek) as (p & h & -> & HR'). done.
Qed.

Lemma insert_refines k v repl c s :
  lru_rel c s -> res_rel (ans_rel lru_rel) (insert_impl k v repl c) (sp_insert k v repl s).
Proof.
  intros HR. unfold insert_impl, sp_insert. rewrite (rel_lru_size c s HR).
  eapply res_rel_bind; [by apply should_evict_refines|].
  intros [b c1] [b' s1] ([Hb HR1] & _ & _ & El & Es & Ec & Hemp); cbn [fst snd] in *; subst b'.
  assert (HP : res_rel (ans_rel lru_rel) (put_entry k v repl b c1) (Ok (sp_put k v repl b s1))).
  { apply put_entry_refines; [done|]. intros -> Hnil. rewrite El in Hnil. specialize (Hemp eq_refl Hnil).
    pose proof (rel_sized _ _ HR) as Hz. rewrite Hnil in Hz. rewrite (sized_empty _ Hz) in Hemp. pose proof (rel_room _ _ HR).
    change (wrap64 (0 + 1)) with 1 in Hemp. lia. }
  apply res_rel_ok in HP as ([i c2] & -> & [Hi HR2]). destruct (sp_put k v repl b s1) as [i' s2]. cbn [fst snd mbind res_bind] in *. subst i'.
  eapply res_rel_bind; [by apply evict_until_fit_refines|]. by intros c3 s3 HR3.
Qed.

Lemma remove_refines k c s : lru_rel c s -> res_rel (ans_rel lru_rel) (lru_remove k c) (Ok (sp_remove k s)).
Proof.
  intros HR. unfold lru_remove, sp_remove. rewrite <- (rel_lookup c s k HR).
  destruct (lc_map c !! k) as [e|] eqn:Ek; cbn [fmap option_fmap option_map]; [|done].
  destruct (rel_found c s k e HR Ek) as (L1 & L2 & HL & _ & HN & -> & HP).
  pose proof HL as [HT HN0 HM _ _ _ _ Hs _]. rewrite recs_app in HT.
  destruct (trace_delete_ok _ _ _ _ _ HT) as (h & -> & HT'). cbn [mbind res_bind res_rel]. split; [done|]. cbn [fst snd].
  rewrite HM, map_middle, Hs by done. apply (rel_update c s); [done..| |done|].
  - unfold recs in *. by rewrite fmap_app.
  - apply sized_remove. eapply sized_perm; [exact HP|]. apply HR.
Qed.

(** A use of an entry, through [get] or [get_mut]. *)
Lemma touch_refines k e c s :
  lru_rel c s -> lc_map c !! k = Some e ->
  exists trace, maybe_promote (lc_trace c) (ve_record e) = Ok trace /\
    lru_rel (mk_lru (lc_map c) trace (lc_capacity c) (lc_size_policy c) (lc_evict_policy c)) (sp_touch k (ve_value e) s) /\
    assoc k (ll_entries (sp_touch k (ve_value e) s)) = Some (ve_value e).
Proof.
  intros HR Ek. destruct (rel_found c s k e HR Ek) as (L1 & L2 & HL & Ha & HN & Hw & HP).
  pose proof HL as [HT HN0 HM HE Ht Hm Hc Hs He]. rewrite recs_app in HT.
  destruct (maybe_promote_ok _ _ _ _ _ HT) as (h & E1 & HT'). eexists. split; [exact E1|].
  set (L := if Z.land (wrap64 (ll_tick s + 1)) (ll_mask s) =? 0 then (k, e) :: L1 ++ L2 else L1 ++ (k, e) :: L2).
  assert (HPL : L1 ++ (k, e) :: L2 ≡ₚ L).
  { unfold L. destruct (Z.land (wrap64 (ll_tick s + 1)) (ll_mask s) =? 0); [symmetry; apply Permutation_middle|done]. }
  assert (HNL : NoDup L.*1) by (by rewrite <- HPL).
  assert (HV : ll_entries (sp_touch k (ve_value e) s) = vals L).
  { unfold sp_touch, L. cbn [ll_entries]. destruct (Z.land (wrap64 (ll_tick s + 1)) (ll_mask s) =? 0); [by rewrite Hw | by rewrite HE]. }
  assert (HR' : lru_rel (mk_lru (lc_map c) (set_heap (tick_trace (lc_trace c)) h) (lc_capacity c) (lc_size_policy c)
                           (lc_evict_policy c)) (sp_touch k (ve_value e) s)).
  { split; [|apply HR|].
    - exists L. split; cbn [lc_trace lc_map lc_capacity lc_size_policy lc_evict_policy]; try done.
      + rewrite Ht, Hm in HT'. unfold L. destruct (Z.land (wrap64 (ll_tick s + 1)) (ll_mask s) =? 0); [|by rewrite recs_app]. unfold recs in *. by rewrite <- fmap_app in HT'.
      + rewrite HM. by apply map_perm.
      + cbn. by rewrite Ht.
    - rewrite HV. eapply sized_perm; [|apply HR]. rewrite HE. unfold vals. by rewrite HPL. }
  split; [done|]. rewrite <- (rel_lookup _ _ k HR'). cbn [lc_map]. by rewrite Ek.
Qed.

Lemma get_refines k c s : lru_rel c s -> res_rel (ans_rel lru_rel) (lru_get k c) (Ok (sp_get k s)).
Proof.
  intros HR. unfold lru_get, sp_get. rewrite <- (rel_lookup c s k HR).
  destruct (lc_map c !! k) as [e|] eqn:Ek; cbn [fmap option_fmap option_map]; [|done].
  destruct (touch_refines k e c s HR Ek) as (t & -> & HR' & _). done.
Qed.

(** The update through the reference must not change the size of the entry. *)
Definition update_ok (op : lru_op K V) : Prop :=
  match op with
  | OpGetMut k f => forall v v' (sz : T) l, f v = Ok v' -> sized sz ((k, v) :: l) -> sized sz ((k, v') :: l)
  | OpResize n => 0 <= n
  | _ => True
  end.

Lemma get_mut_refines k f c s :
  update_ok (OpGetMut k f) -> lru_rel c s -> res_rel (ans_rel lru_rel) (lru_get_mut k f c) (sp_get_mut k f s).
Proof.
  intros Hf HR. unfold lru_get_mut, sp_get_mut. rewrite <- (rel_lookup c s k HR).
  destruct (lc_map c !! k) as [e|] eqn:Ek; cbn [fmap option_fmap option_map]; [|done].
  destruct (touch_refines k e c s HR Ek) as (t & -> & HR1 & _). cbn [mbind res_bind].
  destruct (f (ve_value e)) as [v'| |] eqn:Ef; cbn [mbind res_bind res_rel]; [|done..]. split; [done|]. cbn [fst snd].
  destruct (rel_found _ _ k e HR1 Ek) as (L1 & L2 & HL & _ & HN & Hw & HP).
  pose proof HL as [HT HN0 HM HE Ht Hm Hc Hs He]. cbn [lc_trace lc_map lc_capacity lc_size_policy lc_evict_policy] in *.
  assert (HV : replace k v' (ll_entries (sp_touch k (ve_value e) s)) = vals (L1 ++ (k, mk_value_entry v' (ve_record e)) :: L2)).
  { rewrite HE, !vals_app. apply replace_middle. by rewrite <- vals_app, vals_keys. }
  assert (HK : (L1 ++ (k, mk_value_entry v' (ve_record e)) :: L2).*1 = (L1 ++ (k, e) :: L2).*1) by (by rewrite !fmap_app).
  split; [|apply HR1|]; cbn [with_entries ll_entries ll_size]; rewrite ?HV.
  - exists (L1 ++ (k, mk_value_entry v' (ve_record e)) :: L2).
    split; cbn [lc_trace lc_map lc_capacity lc_size_policy lc_evict_policy with_entries ll_entries ll_size ll_tick ll_mask ll_capacity ll_evict]; try done.
    + rewrite recs_app in *. done.
    + by rewrite HK.
    + rewrite HM, map_middle_insert by done. apply map_perm; [|by rewrite <- Permutation_middle].
      rewrite fmap_cons. apply NoDup_cons_2; [|done]. apply nodup_middle in HN0 as (? & ? & _). by rewrite fmap_app, not_elem_of_app.
  - eapply sized_perm; [|eapply (Hf (ve_value e) v' _ (vals (L1 ++ L2))); [done|eapply sized_perm; [exact HP|apply HR1]]].
    rewrite vals_app, <- Permutation_middle. unfold vals. by rewrite fmap_app.
Qed.

Lemma resize_loop_refines new_cap n : forall fuel c s,
  1 <= new_cap -> (n < fuel)%nat -> length (ll_entries s) = n -> lru_rel c s ->
  exists c', resize_loop fuel new_cap c = Ok c' /\ lru_rel c' (sp_shrink n new_cap s).
Proof.
  induction n as [|n IH]; intros [|fuel] c s Hc Hf Hn HR; try lia; cbn [resize_loop sp_shrink]; rewrite (rel_lru_size c s HR).
  - apply length_zero_iff_nil in Hn. pose proof (rel_sized _ _ HR) as Hz. rewrite Hn in Hz. rewrite (sized_empty _ Hz).
    rewrite (proj2 (Z.ltb_ge _ _)) by lia. eauto.
  - destruct (new_cap <? sz_current (ll_size s)); [|eauto].
    destruct (pop_tail_refines c s HR) as (c1 & -> & HR1 & Hsz); [intros Hnil; by rewrite Hnil in Hn|]. cbn [mbind res_bind].
    apply IH; [done|lia| |done]. apply rel_length in HR, HR1. lia.
Qed.

Lemma resize_refines n c s :
  0 <= n -> lru_rel c s -> exists c', lru_resize n c = Ok c' /\ lru_rel c' (sp_resize n s).
Proof.
  intros Hn HR. unfold lru_resize, sp_resize. set (cap := if n =? 0 then 1 else n).
  assert (Hcap : 1 <= cap) by (unfold cap; destruct (n =? 0) eqn:?; bool_to_prop; lia).
  rewrite (rel_lru_size c s HR). assert (Ec : lc_capacity c = ll_capacity s) by (by destruct HR as [[L []] _ _]). rewrite Ec.
  assert (HX : exists c', (if (cap <? ll_capacity s) && (cap <? sz_current (ll_size s)) then resize_loop (S (size (lc_map c))) cap c else Ok c) = Ok c' /\
                lru_rel c' (if (cap <? ll_capacity s) && (cap <? sz_current (ll_size s)) then sp_shrink (length (ll_entries s)) cap s else s)).
  { destruct (_ && _); [|eauto]. apply resize_loop_refines; [done|rewrite (rel_length c s HR); lia|done..]. }
  destruct HX as (c' & -> & HR'). cbn [mbind res_bind]. eexists. split; [done|].
  destruct HR' as [[L HL] _ Hz]. split; [|done..]. exists L. destruct HL. by split.
Qed.

Lemma clear_refines c s :
  lru_rel c s -> exists c', lru_clear c = Ok c' /\ lru_rel c' (with_entries s [] (on_reset 0 (ll_size s))).
Proof.
  intros HR. pose proof HR as [[L [HT _ _ _ _ _ _ Hs _]] _ _]. unfold lru_clear.
  destruct (trace_clear_ok _ _ HT) as (h & -> & HT'). cbn [mbind res_bind]. eexists. split; [done|]. rewrite Hs.
  apply (rel_update c s []); [done..|apply NoDup_nil_2|apply sized_reset].
Qed.

Lemma drop_refines c s : lru_rel c s -> lru_drop c = Ok ∅.
Proof.
  intros HR. unfold lru_drop. destruct (clear_refines c s HR) as (c' & -> & [[L [HT _ _ HE _ _ _ _ _]] _ _]).
  cbn [mbind res_bind]. unfold vals in HE. symmetry in HE. apply fmap_nil_inv in HE as ->. by apply trace_drop_ok.
Qed.

Lemma rel_records c s : lru_rel c s -> size (tr_heap (lc_trace c)) = S (S (length (ll_entries s))).
Proof.
  intros [[L [[_ HN HD _] _ _ HE _ _ _ _ _]] _ _]. rewrite <- (size_dom (D := gset ptr)), HD, size_list_to_set, HE by done.
  unfold trace_ptrs, recs, vals. cbn [length]. rewrite length_app, !length_fmap. cbn. lia.
Qed.

Lemma run_refines op c s :
  update_ok op -> lru_rel c s -> res_rel (ans_rel lru_rel) (lru_run op c) (sp_run op s).
Proof.
  intros Hop HR. destruct op; cbn [lru_run sp_run].
  - pose proof (insert_refines key value true c s HR) as HI. unfold lru_insert.
    destruct (insert_impl key value true c) as [[? ?]| |], (sp_insert key value true s) as [[? ?]| |]; cbn in *; try done. by destruct HI.
  - eapply res_rel_bind; [by apply insert_refines|]. by intros [b c'] [b' s'] [[= ->] HR'].
  - pose proof (remove_refines key c s HR) as (x & -> & Hx)%res_rel_ok. destruct x, (sp_remove key s), Hx; cbn in *. by subst.
  - pose proof (get_refines key c s HR) as (x & -> & Hx)%res_rel_ok. destruct x, (sp_get key s), Hx; cbn in *. by subst.
  - split; [|done]. cbn. unfold get_no_promote. by rewrite (rel_lookup c s key HR).
  - eapply res_rel_bind; [by apply get_mut_refines|]. by intros [b c'] [b' s'] [[= ->] HR'].
  - destruct (resize_refines new_cap c s Hop HR) as (c' & -> & HR'). done.
  - destruct (clear_refines c s HR) as (c' & -> & HR'). done.
Qed.

Lemma run_all_refines ops : forall c s,
  Forall update_ok ops -> lru_rel c s -> res_rel (ans_rel lru_rel) (run_all lru_run ops c) (run_all sp_run ops s).
Proof.
  induction ops as [|op ops IH]; intros c s Hop HR; cbn [run_all]; [done|]. apply Forall_cons in Hop as [Ho Hop].
  eapply res_rel_bind; [by apply run_refines|]. intros [a c1] [a' s1] [[= ->] HR1]. cbn [snd] in *.
  eapply res_rel_bind; [by apply IH|]. intros [l c2] [l' s2] [[= ->] HR2]. done.
Qed.

(** C25: Whatever operations run on a new LRU cache, it answers as the list of
    entries, most recent first, from whose end entries are evicted: the pointer
    code reads no memory it must not read and fails no [unwrap], the answers,
    the entries and the size are those of the list, exactly the records of the
    entries and the two sentinels are allocated, and dropping the cache frees
    all of them. *)
Theorem lru_refines_list (cap mask : Z) (sz : T) (ev : E) (ops : list (lru_op K V)) :
  0 <= cap -> sized sz [] -> Forall update_ok ops ->
  res_rel (fun '(answers, c) '(answers', s) =>
             answers = answers' /\ (forall k, get_no_promote k c = assoc k (ll_entries s)) /\
             lru_len c = Z.of_nat (length (ll_entries s)) /\ lru_size c = sz_current (ll_size s) /\
             size (tr_heap (lc_trace c)) = S (S (length (ll_entries s))) /\ lru_drop c = Ok ∅)
    (c ← lru_new cap mask sz ev; run_all lru_run ops c) (run_all sp_run ops (sp_new cap mask sz ev)).
Proof.
  intros Hc Hz Hop. destruct (lru_new_refines cap mask sz ev Hc Hz) as (c & -> & HR). cbn [mbind res_bind].
  eapply res_rel_mono; [by apply run_all_refines|]. intros [a c'] [a' s'] [Ha HR']. cbn [fst snd] in *. split_and!; [done| | | | |].
  - intros k. apply (rel_lookup c' s' k HR').
  - unfold lru_len. by rewrite (rel_length c' s' HR').
  - by apply rel_lru_size.
  - by apply rel_records.
  - by apply (drop_refines c' s').
Qed.
End Refine.

(** An allocator, to run the code. *)
#[export] Instance first_fit : Allocator := {| alloc X := fresh X; dangling := 1%positive |}.
#[export] Instance first_fit_laws : AllocatorLaws.
Proof. split. intros X. apply is_fresh. Qed.

Definition lru_example : list (lru_op Z Z) :=
  [OpInsert 1 10; OpInsert 2 20; OpGet 1; OpInsert 3 30; OpGet 2; OpGetMut 1 (fun v => Ok (v + 1)); OpGetNoPromote 1;
   OpInsertIfNotExist 3 31; OpRemove 3; OpResize 1; OpGet 1; OpClear; OpGet 1].

Lemma lru_example_ok : Forall (update_ok (T := CountTracker)) lru_example.
Proof. unfold lru_example. repeat (apply Forall_cons; split); try exact I; [by intros ? ? ? ? _ | cbn; lia | apply Forall_nil_2]. Qed.

(** The second entry is evicted, as the first was used after it. *)
Lemma lru_refines_list_witness :
  exists c, (c ← lru_new (T := CountTracker) (E := EvictOnFull) 2 0 0 evict_on_full; run_all lru_run lru_example c) =
         Ok ([AnsUnit; AnsUnit; AnsValue (Some 10); AnsUnit; AnsValue None; AnsBool true; AnsValue (Some 11);
              AnsBool false; AnsValue (Some 30); AnsUnit; AnsValue (Some 11); AnsUnit; AnsValue None], c) /\ lru_drop c = Ok ∅.
Proof.
  pose proof (lru_refines_list (K := Z) (V := Z) (T := CountTracker) (E := EvictOnFull) 2 0 0 evict_on_full lru_example
                ltac:(lia) eq_refl lru_example_ok) as HL.
  set (m := c ← _; _) in HL |- *. set (m' := run_all sp_run _ _) in HL.
  assert (Es : exists a s, m' = Ok (a, s)) by (do 2 eexists; vm_compute; reflexivity). destruct Es as (a & s & Es).
  rewrite Es in HL. apply res_rel_ok in HL as ([a' c] & Ec & Ha & _ & _ & _ & _ & Hd).
  exists c. split; [|exact Hd]. rewrite Ec, Ha. vm_compute in Es. injection Es as Ea _. by rewrite <- Ea.
Defined.
