(* ===== verification/TxnStatusCache.v ===== *)
(** The cache of transaction states (src/storage/txn/txn_status_cache.rs): two
    vectors of LRU caches, one for normal and one for large transactions, with
    an evict policy that reads the clock.  The mutexes of a slot are taken in
    the same order everywhere and held to the end of an operation, so an
    operation is one step.  Also modelled are the two callers that fill the
    cache: the broadcast of transaction states (src/storage/mod.rs) and the end
    of a write command (src/storage/txn/scheduler.rs). *)
From stdpp Require Import base numbers list gmap fin_maps fin_sets.
From S2P Require Import Prelude Timestamp Resolver LruTrace LruCache LruSpec.

Local Open Scope Z_scope.

(** ** Entries *)

Record CacheEntry := mk_cache_entry { ce_state : TxnState; ce_update_time : Z }.

Definition entry_commit_ts (e : CacheEntry) : option TimeStamp :=
  match ce_state e with StCommitted commit_ts => Some commit_ts | _ => None end.

Definition opt_commit_ts (o : option CacheEntry) : option TimeStamp := match o with Some e => entry_commit_ts e | None => None end.

Definition from_ts (start_ts min_commit_ts commit_ts : TimeStamp) (rolled_back : bool) : TxnState :=
  if rolled_back then StRolledBack
  else if ts_is_zero commit_ts then StOngoing (Z.max start_ts min_commit_ts)
  else StCommitted commit_ts.

(** ** The clock and the evict policy *)

(** A [SystemTime] is in nanoseconds from the Unix epoch, a [Duration] in
    nanoseconds. *)
Definition as_millis_u64 (nanos : Z) : Z := wrap64 (nanos / 1000000).
Definition unix_millis (time : Z) : mres Z := if time <? 0 then Panic else Ok (as_millis_u64 time).

(** [pol_clock n] is what the [n]th reading of the clock gives; [pol_reads]
    readings were made. *)
Record TxnStatusCacheEvictPolicy := mk_policy {
  required_keep_time_millis : Z;
  pol_clock : nat -> Z;
  pol_reads : nat;
}.

Definition policy_new (required_keep_time : Z) (clock : nat -> Z) : TxnStatusCacheEvictPolicy :=
  mk_policy (as_millis_u64 required_keep_time) clock 0.

Definition policy_should_evict (current_size capacity : Z) (get_tail_entry : mres (option (TimeStamp * CacheEntry)))
    (e : TxnStatusCacheEvictPolicy) : mres (bool * TxnStatusCacheEvictPolicy) :=
  tail ← get_tail_entry;
  match tail with
  | Some (_, v) =>
      now ← unix_millis (pol_clock e (pol_reads e));
      let e' := mk_policy (required_keep_time_millis e) (pol_clock e) (S (pol_reads e)) in
      if wrap64 (required_keep_time_millis e + ce_update_time v) <? now then Ok (true, e')
      else Ok (capacity <? current_size, e')
  | None => Ok (capacity <? current_size, e)
  end.
#[export] Instance txn_status_evict : EvictPolicy TxnStatusCacheEvictPolicy TimeStamp CacheEntry := policy_should_evict.

Abbreviation TxnStatusCacheSlot := (LruCache TimeStamp CacheEntry CountTracker TxnStatusCacheEvictPolicy).

Record TxnStatusCache := mk_txn_status_cache {
  normal_cache : list TxnStatusCacheSlot;
  large_txn_cache : list TxnStatusCacheSlot;
  is_enabled : bool;
}.

Section Cache.
Context `{!Allocator}.
(** [fxhash::hash] *)
Variable hash : TimeStamp -> Z.

(** [n] slots, each with its own readings of the clock. *)
Fixpoint new_slots (n : nat) (capacity keep : Z) (clock : nat -> nat -> Z) : mres (list TxnStatusCacheSlot) :=
  match n with
  | O => Ok []
  | S n =>
      slots ← new_slots n capacity keep clock;
      slot ← lru_new capacity 0 (0 : CountTracker) (policy_new keep (clock n));
      Ok (slots ++ [slot])
  end.

Definition new_impl (slots required_keep_time large_txn_required_keep_time capacity large_txn_capacity : Z)
    (clock large_clock : nat -> nat -> Z) : mres TxnStatusCache :=
  if capacity =? 0 then Ok (mk_txn_status_cache [] [] false)
  else if slots =? 0 then Panic
  else
    normal ← new_slots (Z.to_nat slots) (capacity / slots) required_keep_time clock;
    large ← new_slots (Z.to_nat slots) (large_txn_capacity / slots) large_txn_required_keep_time large_clock;
    Ok (mk_txn_status_cache normal large true).

Definition with_slots_and_time_limit (slots required_keep_time large_txn_required_keep_time capacity : Z)
    (clock large_clock : nat -> nat -> Z) : mres TxnStatusCache :=
  new_impl slots required_keep_time large_txn_required_keep_time capacity capacity clock large_clock.

Definition TXN_STATUS_CACHE_SLOTS : Z := 128.
Definition CACHE_ITEMS_REQUIRED_KEEP_TIME : Z := 30 * 1000000000.
Definition CACHE_ITEMS_REQUIRED_KEEP_TIME_FOR_LARGE_TXNS : Z := 30 * 1000000000.

Definition cache_new (capacity : Z) (clock large_clock : nat -> nat -> Z) : mres TxnStatusCache :=
  with_slots_and_time_limit TXN_STATUS_CACHE_SLOTS CACHE_ITEMS_REQUIRED_KEEP_TIME
    CACHE_ITEMS_REQUIRED_KEEP_TIME_FOR_LARGE_TXNS capacity clock large_clock.

(** The remainder by zero panics. *)
Definition cache_slot_index (c : TxnStatusCache) (start_ts : TimeStamp) : mres nat :=
  let len := Z.of_nat (length (normal_cache c)) in
  if len =? 0 then Panic else Ok (Z.to_nat (hash start_ts mod len)).

Definition set_normal_slot (i : nat) (slot : TxnStatusCacheSlot) (c : TxnStatusCache) : TxnStatusCache :=
  mk_txn_status_cache (<[i := slot]> (normal_cache c)) (large_txn_cache c) (is_enabled c).
Definition set_large_slot (i : nat) (slot : TxnStatusCacheSlot) (c : TxnStatusCache) : TxnStatusCache :=
  mk_txn_status_cache (normal_cache c) (<[i := slot]> (large_txn_cache c)) (is_enabled c).

(** ** Operations *)

(** What is written through the reference to an existing entry of the large
    cache, when a large transaction is ongoing. *)
Definition raise_entry (min_commit_ts update_time : Z) (existing : CacheEntry) : mres CacheEntry :=
  match ce_state existing with
  | StOngoing existing_min_commit_ts =>
      if existing_min_commit_ts <? min_commit_ts then Ok (mk_cache_entry (StOngoing min_commit_ts) update_time) else Ok existing
  | _ => Ok existing
  end.

(** The same on the path of the normal cache, for entries of both caches. *)
Definition settle_entry (state : TxnState) (update_time : Z) (existing : CacheEntry) : mres CacheEntry :=
  match ce_state existing with
  | StOngoing min_commit_ts =>
      match state with
      | StCommitted commit_ts => rassert (min_commit_ts <=? commit_ts) (Ok (mk_cache_entry state update_time))
      | _ => Ok (mk_cache_entry state update_time)
      end
  | _ => Ok existing
  end.

Definition update_or_insert (start_ts : TimeStamp) (f : CacheEntry -> mres CacheEntry) (entry : CacheEntry)
    (slot : TxnStatusCacheSlot) : mres TxnStatusCacheSlot :=
  '(found, slot) ← lru_get_mut start_ts f slot;
  if found : bool then Ok slot else lru_insert start_ts entry slot.

(** The two branches of [upsert], on slot [i]. *)
Definition upsert_large (i : nat) (start_ts min_commit_ts : TimeStamp) (entry : CacheEntry) (c : TxnStatusCache) : mres TxnStatusCache :=
  large ← unwrap_some (large_txn_cache c !! i);
  large ← update_or_insert start_ts (raise_entry min_commit_ts (ce_update_time entry)) entry large;
  Ok (set_large_slot i large c).

Definition upsert_normal (i : nat) (start_ts : TimeStamp) (entry : CacheEntry) (c : TxnStatusCache) : mres TxnStatusCache :=
  large ← unwrap_some (large_txn_cache c !! i);
  normal ← unwrap_some (normal_cache c !! i);
  normal ← update_or_insert start_ts (settle_entry (ce_state entry) (ce_update_time entry)) entry normal;
  '(_, large) ← lru_get_mut start_ts (settle_entry (ce_state entry) (ce_update_time entry)) large;
  Ok (set_large_slot i large (set_normal_slot i normal c)).

Definition upsert (start_ts : TimeStamp) (state : TxnState) (now : Z) (c : TxnStatusCache) : mres TxnStatusCache :=
  if negb (is_enabled c) then Ok c
  else
    update_time ← unix_millis now;
    let entry := mk_cache_entry state update_time in
    i ← cache_slot_index c start_ts;
    match state with
    | StOngoing min_commit_ts =>
        if start_ts <? min_commit_ts then upsert_large i start_ts min_commit_ts entry c else upsert_normal i start_ts entry c
    | _ => upsert_normal i start_ts entry c
    end.

Definition insert_committed (start_ts commit_ts : TimeStamp) (now : Z) (c : TxnStatusCache) : mres TxnStatusCache :=
  upsert start_ts (StCommitted commit_ts) now c.

Definition cache_get (start_ts : TimeStamp) (c : TxnStatusCache) : mres (option TxnState * TxnStatusCache) :=
  if negb (is_enabled c) then Ok (None, c)
  else
    i ← cache_slot_index c start_ts;
    large ← unwrap_some (large_txn_cache c !! i);
    '(o, large) ← lru_get start_ts large;
    let c := set_large_slot i large c in
    match o with
    | Some entry => Ok (Some (ce_state entry), c)
    | None =>
        normal ← unwrap_some (normal_cache c !! i);
        '(o, normal) ← lru_get start_ts normal;
        Ok (option_map ce_state o, set_normal_slot i normal c)
    end.

Definition get_committed_no_promote (start_ts : TimeStamp) (c : TxnStatusCache) : mres (option TimeStamp) :=
  if negb (is_enabled c) then Ok None
  else
    i ← cache_slot_index c start_ts;
    slot ← unwrap_some (normal_cache c !! i);
    Ok (opt_commit_ts (get_no_promote start_ts slot)).

Definition get_committed (start_ts : TimeStamp) (c : TxnStatusCache) : mres (option TimeStamp * TxnStatusCache) :=
  if negb (is_enabled c) then Ok (None, c)
  else
    i ← cache_slot_index c start_ts;
    slot ← unwrap_some (normal_cache c !! i);
    '(o, slot) ← lru_get start_ts slot;
    Ok (opt_commit_ts o, set_normal_slot i slot c).

Definition remove_large_txn (start_ts : TimeStamp) (c : TxnStatusCache) : mres (option CacheEntry * TxnStatusCache) :=
  if negb (is_enabled c) then Ok (None, c)
  else
    i ← cache_slot_index c start_ts;
    slot ← unwrap_some (large_txn_cache c !! i);
    '(o, slot) ← lru_remove start_ts slot;
    Ok (o, set_large_slot i slot c).

(** ** Who fills the cache *)

(** [kvrpcpb::TxnStatus] *)
Record BroadcastStatus := mk_txn_status {
  tst_start_ts : TimeStamp;
  tst_min_commit_ts : TimeStamp;
  tst_commit_ts : TimeStamp;
  tst_rolled_back : bool;
  tst_is_completed : bool;
}.

Definition status_state (t : BroadcastStatus) : TxnState :=
  from_ts (tst_start_ts t) (tst_min_commit_ts t) (tst_commit_ts t) (tst_rolled_back t).

Definition is_final (state : TxnState) : bool := match state with StOngoing _ => false | _ => true end.

(** The future that [Storage::update_txn_status_cache] schedules. *)
Fixpoint update_txn_status_cache (txn_statuses : list BroadcastStatus) (now : Z) (c : TxnStatusCache) : mres TxnStatusCache :=
  match txn_statuses with
  | [] => Ok c
  | txn_status :: rest =>
      let txn_state := status_state txn_status in
      c ← (if tst_is_completed txn_status then
             rassert (is_final txn_state) ('(_, c) ← remove_large_txn (tst_start_ts txn_status) c; Ok c)
           else Ok c);
      c ← upsert (tst_start_ts txn_status) txn_state now c;
      update_txn_status_cache rest now c
  end.

(** The transactions a finished write command knows to be committed. *)
Fixpoint insert_known_txn_status (known_txn_status : list (TimeStamp * TimeStamp)) (now : Z) (c : TxnStatusCache) : mres TxnStatusCache :=
  match known_txn_status with
  | [] => Ok c
  | (start_ts, commit_ts) :: rest => c ← insert_committed start_ts commit_ts now c; insert_known_txn_status rest now c
  end.
End Cache.
