(* ===== verification/TxnStatusSafe.v ===== *)
(** What the cache of transaction states promises: what it answers was
    reported to it, and a committed transaction stays in it for the keep time
    unless more transactions are reported than fit, so that a late prewrite
    request of a pessimistic transaction is handled as a retry. *)
From stdpp Require Import base numbers list gmap fin_maps fin_sets.
From S2P Require Import Prelude Timestamp Resolver LruTrace LruCache LruSpec LruRefine TxnStatusCache.

Local Open Scope Z_scope.

Abbreviation slot_list := (lru_list TimeStamp CacheEntry CountTracker TxnStatusCacheEvictPolicy).

(** ** The policy *)

(** No reading of the clock so far was beyond the keep time of the entry. *)
Definition unexpired (e : TxnStatusCacheEvictPolicy) (v : CacheEntry) : Prop :=
  forall j, (j < pol_reads e)%nat ->
    as_millis_u64 (pol_clock e j) <= wrap64 (required_keep_time_millis e + ce_update_time v).

Definition clock_ok (e : TxnStatusCacheEvictPolicy) : Prop := forall j, 0 <= pol_clock e j.

(** The policy after some more readings. *)
Definition later (e e' : TxnStatusCacheEvictPolicy) : Prop :=
  required_keep_time_millis e' = required_keep_time_millis e /\ pol_clock e' = pol_clock e /\
  (pol_reads e <= pol_reads e')%nat.

#[export] Instance later_preorder : PreOrder later.
Proof.
  split; [intros e; unfold later; split_and!; (done || lia)|]. intros e1 e2 e3 (? & ? & ?) (? & ? & ?). split_and!; [congruence..|lia].
Qed.

Lemma unexpired_later e e' v : later e e' -> unexpired e' v -> unexpired e v.
Proof. intros (Hk & Hc & Hr) Hu j Hj. rewrite <- Hk, <- Hc. apply Hu. lia. Qed.

Lemma clock_ok_later e e' : later e e' -> clock_ok e -> clock_ok e'.
Proof. intros (_ & Hc & _) Ho j. rewrite Hc. apply Ho. Qed.

(** The policy answers; it lets the tail entry go when it has expired or when
    there are too many entries. *)
Lemma policy_answers n cap tail e :
  clock_ok e ->
  exists b e', policy_should_evict n cap (Ok tail) e = Ok (b, e') /\ later e e' /\
    (b = true -> cap < n \/ exists k v, tail = Some (k, v) /\ ~ unexpired e' v).
Proof.
  intros Ho. unfold policy_should_evict. cbn [mbind res_bind]. destruct tail as [[k v]|].
  - unfold unix_millis. rewrite (proj2 (Z.ltb_ge _ _) (Ho _)). cbn [mbind res_bind].
    set (e' := mk_policy _ _ _). assert (Hl : later e e') by (unfold later, e'; cbn; split_and!; [done..|lia]).
    destruct (_ <? as_millis_u64 _) eqn:Ee; do 2 eexists; (split; [done|]); (split; [exact Hl|]).
    + intros _. right. exists k, v. split; [done|]. intros Hu. specialize (Hu (pol_reads e)). cbn in Hu. bool_to_prop. lia.
    + intros Hb. left. by apply Z.ltb_lt.
  - do 2 eexists. split; [done|]. split; [done|]. intros Hb. left. by apply Z.ltb_lt.
Qed.

#[export] Instance txn_status_evict_laws : EvictLaws TxnStatusCacheEvictPolicy TimeStamp CacheEntry.
Proof.
  split. intros n cap e e'. unfold should_evict, txn_status_evict, policy_should_evict. cbn [mbind res_bind].
  intros [= Hn _]. by apply Z.ltb_lt.
Qed.

(** ** A slot as a list *)

Lemma sp_should_evict_ok n (s : slot_list) :
  clock_ok (ll_evict s) ->
  exists b s', sp_should_evict n s = Ok (b, s') /\ later (ll_evict s) (ll_evict s') /\ ll_entries s' = ll_entries s /\
    ll_size s' = ll_size s /\ ll_capacity s' = ll_capacity s /\
    (b = true -> ll_capacity s < n \/ exists k v, last (ll_entries s) = Some (k, v) /\ ~ unexpired (ll_evict s') v).
Proof.
  intros Ho. unfold sp_should_evict. change (should_evict (EvictPolicy := txn_status_evict)) with policy_should_evict.
  destruct (policy_answers n (ll_capacity s) (last (ll_entries s)) (ll_evict s) Ho) as (b & e' & Hp & Hl & Hb).
  unfold should_evict, txn_status_evict. rewrite Hp. cbn [mbind res_bind]. do 2 eexists. split; [done|]. cbn. by split_and!.
Qed.

(** Entries leave at the end; one that has not expired stays when all fit. *)
Lemma sp_evict_ok n : forall s : slot_list,
  clock_ok (ll_evict s) -> length (ll_entries s) = n -> ll_size s = wrap64 (Z.of_nat n) ->
  exists s', sp_evict n s = Ok s' /\ later (ll_evict s) (ll_evict s') /\ ll_capacity s' = ll_capacity s /\
    (exists gone, ll_entries s = ll_entries s' ++ gone) /\
    (Z.of_nat n <= ll_capacity s -> is_u64 (ll_capacity s) ->
     forall k v, (k, v) ∈ ll_entries s -> unexpired (ll_evict s') v -> (k, v) ∈ ll_entries s').
Proof.
  induction n as [|n IH]; intros s Ho Hn Hz; cbn [sp_evict sz_current count_tracker].
  - destruct (sp_should_evict_ok (ll_size s) s Ho) as (b & s1 & -> & Hl & He & _ & Hc & _). cbn [mbind res_bind].
    exists s1. split_and!; [done..| |].
    + exists []. by rewrite app_nil_r.
    + intros _ _ k v Hk _. by rewrite He.
  - destruct (sp_should_evict_ok (ll_size s) s Ho) as (b & s1 & -> & Hl & He & Hs & Hc & Hb). cbn [mbind res_bind].
    destruct b.
    2: { exists s1. split_and!; [done..| |]. { exists []. by rewrite app_nil_r. } intros _ _ k v Hk _. by rewrite He. }
    destruct (ll_entries s) as [|[kt vt] l _] eqn:El using rev_ind; [done|]. rewrite last_snoc in Hb.
    rewrite length_app in Hn. cbn in Hn.
    assert (Hpop : sp_pop s1 = with_entries s1 l (wrap64 (ll_size s1 - 1))).
    { unfold sp_pop. rewrite He, last_snoc, removelast_last. done. }
    destruct (IH (sp_pop s1)) as (s2 & -> & Hl2 & Hc2 & [gone Hg] & Hkeep); rewrite Hpop in *; cbn [with_entries ll_entries ll_size ll_capacity ll_evict] in *.
    { by apply (clock_ok_later (ll_evict s)). }
    { lia. }
    { rewrite Hs, Hz, wrap64_sub_l. f_equal. lia. }
    exists s2. split_and!; [done|by transitivity (ll_evict s1)|congruence| |].
    + exists (gone ++ [(kt, vt)]). by rewrite Hg, app_assoc.
    + intros Hle Hu k v Hk Hun. apply elem_of_app in Hk as [Hk|Hk].
      * apply Hkeep; [lia | by rewrite Hc | done | done].
      * apply list_elem_of_singleton in Hk as [= -> ->]. exfalso. destruct (Hb eq_refl) as [Hb'|(k0 & v0 & [= <- <-] & Hx)].
        -- rewrite Hz in Hb'. cbn in Hb'. rewrite wrap64_small in Hb'; [lia|]. unfold is_u64 in *. lia.
        -- apply Hx. by apply (unexpired_later _ (ll_evict s2)).
Qed.

(** A new key is put in front; when [b] says so, the last entry makes room, and
    it has expired if all fit. *)
Lemma sp_put_ok k v b (s : slot_list) :
  k ∉ (ll_entries s).*1 -> ll_size s = wrap64 (Z.of_nat (length (ll_entries s))) ->
  (b = true -> ll_capacity s < wrap64 (Z.of_nat (S (length (ll_entries s)))) \/
               exists k v, last (ll_entries s) = Some (k, v) /\ ~ unexpired (ll_evict s) v) ->
  exists s', sp_put k v true b s = (true, s') /\ ll_evict s' = ll_evict s /\ ll_capacity s' = ll_capacity s /\
    ll_size s' = wrap64 (Z.of_nat (length (ll_entries s'))) /\
    (exists l gone, ll_entries s' = (k, v) :: l /\ ll_entries s = l ++ gone) /\
    (Z.of_nat (S (length (ll_entries s))) <= ll_capacity s -> is_u64 (ll_capacity s) ->
     Z.of_nat (length (ll_entries s')) <= ll_capacity s /\
     forall x vx, (x, vx) ∈ (k, v) :: ll_entries s -> unexpired (ll_evict s) vx -> (x, vx) ∈ ll_entries s').
Proof.
  intros Hk Hz Hb. unfold sp_put. assert (Ha : assoc k (ll_entries s) = None) by (by apply not_elem_of_list_to_map_1). rewrite Ha.
  eexists. split; [done|]. destruct (ll_entries s) as [|[kt vt] l _] eqn:El using rev_ind.
  - replace (match b with true => _ | false => _ end) with (with_entries s [(k, v)] (wrap64 (ll_size s + 1))) by (by destruct b).
    cbn [with_entries ll_entries ll_size ll_capacity ll_evict]. rewrite Hz, wrap64_add_l. split_and!; [done|done|done| |].
    + by exists [], [].
    + intros Hr _. split; [done|]. by intros.
  - rewrite last_snoc in *. rewrite length_app in *. cbn [length] in *. destruct b.
    + rewrite removelast_last. cbn [with_entries ll_entries ll_size ll_capacity ll_evict length on_insert on_remove count_tracker].
      rewrite Hz, wrap64_add_l, wrap64_sub_l. split_and!; [done|done|f_equal; lia| |].
      * by exists l, [(kt, vt)].
      * intros Hr Hu. split; [lia|]. intros x vx Hx Hun. destruct (Hb eq_refl) as [Hb'|(k0 & v0 & [= <- <-] & Hexp)].
        -- rewrite wrap64_small in Hb'; [lia|]. unfold is_u64 in *. lia.
        -- rewrite elem_of_cons, elem_of_app, list_elem_of_singleton in Hx. rewrite elem_of_cons.
           destruct Hx as [Hx|[Hx|[= -> ->]]]; [by left|by right|done].
    + cbn [with_entries ll_entries ll_size ll_capacity ll_evict length on_insert on_remove count_tracker].
      rewrite Hz, wrap64_add_l, length_app. cbn [length]. split_and!; [done|done|f_equal; lia| |].
      * exists (l ++ [(kt, vt)]), []. by rewrite app_nil_r.
      * intros Hr _. split; [lia|]. by intros.
Qed.

(** A key that is not there is inserted. *)
Lemma sp_insert_ok k v (s : slot_list) :
  clock_ok (ll_evict s) -> k ∉ (ll_entries s).*1 -> ll_size s = wrap64 (Z.of_nat (length (ll_entries s))) ->
  exists b s', sp_insert k v true s = Ok (b, s') /\ later (ll_evict s) (ll_evict s') /\ ll_capacity s' = ll_capacity s /\
    (forall e, e ∈ ll_entries s' -> e ∈ (k, v) :: ll_entries s) /\
    (Z.of_nat (S (length (ll_entries s))) <= ll_capacity s -> is_u64 (ll_capacity s) ->
     forall x vx, (x, vx) ∈ (k, v) :: ll_entries s -> unexpired (ll_evict s') vx -> (x, vx) ∈ ll_entries s').
Proof.
  intros Ho Hk Hz. unfold sp_insert. cbn [sz_current count_tracker].
  destruct (sp_should_evict_ok (wrap64 (ll_size s + 1)) s Ho) as (b & s1 & -> & Hl1 & He1 & Hs1 & Hc1 & Hb). cbn [mbind res_bind].
  rewrite <- He1, <- Hc1, <- ?Hs1 in *.
  destruct (sp_put_ok k v b s1) as (s2 & -> & Ev2 & Ec2 & Ez2 & (l & gone & El2 & El) & Hroom); [done|done| |].
  { intros Hbt. destruct (Hb Hbt) as [Hb'|Hb']; [left|by right]. revert Hb'. rewrite Hz, wrap64_add_l.
    by replace (Z.of_nat (length (ll_entries s1)) + 1) with (Z.of_nat (S (length (ll_entries s1)))) by lia. }
  destruct (sp_evict_ok (length (ll_entries s2)) s2) as (s3 & E3 & Hl3 & Hc3 & [gone3 Hg3] & Hkeep).
  { rewrite Ev2. by apply (clock_ok_later (ll_evict s)). } { done. } { done. }
  rewrite Ev2 in Hl3. exists true, s3. rewrite E3. cbn [mbind res_bind].
  split_and!; [done|by transitivity (ll_evict s1)|congruence| |].
  - intros e Hin. assert (Hin2 : e ∈ ll_entries s2) by (rewrite Hg3; apply elem_of_app; by left).
    rewrite El2 in Hin2. rewrite El. rewrite elem_of_cons in *. rewrite elem_of_app. tauto.
  - intros Hr Hu x vx Hx Hun. destruct (Hroom Hr Hu) as [Hlen Hin]. apply Hkeep; [by rewrite Ec2|by rewrite Ec2| |done].
    apply Hin; [done|]. by apply (unexpired_later _ (ll_evict s3)).
Qed.

(** ** A slot *)

Section Slots.
Context `{!Allocator} `{!AllocatorLaws}.
Abbreviation slot := TxnStatusCacheSlot.
Implicit Types c : slot.

(** A slot with its limits, whose entries satisfy [Q]. *)
Record slot_ok (cap keep : Z) (clock : nat -> Z) (Q : TimeStamp -> CacheEntry -> Prop) c : Prop := {
  so_rel : exists s : slot_list, lru_rel c s;
  so_cap : lc_capacity c = cap;
  so_keep : required_keep_time_millis (lc_evict_policy c) = keep;
  so_clock : pol_clock (lc_evict_policy c) = clock;
  so_time j : 0 <= clock j;
  so_entries k v : get_no_promote k c = Some v -> Q k v;
}.

Lemma ans_rel_ok {A} (m : mres (A * slot)) (m' : mres (A * slot_list)) a c' :
  res_rel (ans_rel lru_rel) m m' -> m = Ok (a, c') -> exists s' : slot_list, lru_rel c' s'.
Proof. intros HR ->. destruct m' as [[a' s']| |]; cbn in HR; [|done..]. destruct HR as [_ HR]. eauto. Qed.

(** An update of the entry of a key. *)
Lemma slot_get_mut_ok cap keep clock Q k f c :
  slot_ok cap keep clock Q c -> (forall v, Q k v -> exists v', f v = Ok v' /\ Q k v') ->
  exists c', lru_get_mut k f c = Ok (bool_decide (is_Some (get_no_promote k c)), c') /\ slot_ok cap keep clock Q c' /\
    lc_evict_policy c' = lc_evict_policy c /\ (forall x, x <> k -> get_no_promote x c' = get_no_promote x c) /\
    (forall v, get_no_promote k c = Some v -> exists v', f v = Ok v' /\ get_no_promote k c' = Some v') /\
    (get_no_promote k c = None -> get_no_promote k c' = None).
Proof.
  intros HS Hf. pose proof HS as [[s HR] Hcap Hkeep Hclk Ht HQ].
  assert (Hu : update_ok (K := TimeStamp) (T := CountTracker) (OpGetMut k f)) by (by intros ? ? ? ? _).
  pose proof (get_mut_refines k f c s Hu HR) as HG. unfold lru_get_mut in *. unfold get_no_promote in *.
  destruct (lc_map c !! k) as [e|] eqn:Ek; cbn [fmap option_fmap option_map] in *.
  2: { exists c. rewrite Ek. split_and!; done. }
  destruct (touch_refines k e c s HR Ek) as (t & Et & _). rewrite Et in *. cbn [mbind res_bind] in *.
  destruct (Hf (ve_value e)) as (v' & Ef & HQ'); [apply HQ; by rewrite Ek|]. rewrite Ef in *. cbn [mbind res_bind] in *.
  eexists. split; [done|]. cbn [lc_map lc_evict_policy]. split_and!.
  - split; try done. { by eapply ans_rel_ok. } unfold get_no_promote. cbn [lc_map]. intros x v Hx. destruct (decide (x = k)) as [->|Hne].
    + rewrite lookup_insert_eq in Hx. cbn in Hx. by simplify_eq.
    + rewrite lookup_insert_ne in Hx by done. by apply HQ.
  - done.
  - intros x Hx. by rewrite lookup_insert_ne.
  - intros v [= <-]. exists v'. by rewrite lookup_insert_eq.
  - done.
Qed.

Lemma slot_get_ok cap keep clock Q k c :
  slot_ok cap keep clock Q c ->
  exists c', lru_get k c = Ok (get_no_promote k c, c') /\ slot_ok cap keep clock Q c' /\
    lc_evict_policy c' = lc_evict_policy c /\ (forall x, get_no_promote x c' = get_no_promote x c).
Proof.
  intros HS. pose proof HS as [[s HR] Hcap Hkeep Hclk Ht HQ].
  pose proof (get_refines k c s HR) as HG. unfold lru_get in *. unfold get_no_promote in *.
  destruct (lc_map c !! k) as [e|] eqn:Ek; cbn [fmap option_fmap option_map] in *; [|by exists c].
  destruct (touch_refines k e c s HR Ek) as (t & Et & _). rewrite Et in *. cbn [mbind res_bind] in *.
  eexists. split; [done|]. split_and!; [|done..]. split; try done. by eapply ans_rel_ok.
Qed.

Lemma slot_remove_ok cap keep clock Q k c :
  slot_ok cap keep clock Q c -> exists o c', lru_remove k c = Ok (o, c') /\ slot_ok cap keep clock Q c'.
Proof.
  intros HS. pose proof HS as [[s HR] Hcap Hkeep Hclk Ht HQ].
  pose proof (remove_refines k c s HR) as HG. pose proof HG as ([o c'] & E1 & [_ HR'])%res_rel_ok. exists o, c'.
  split; [done|]. revert E1. unfold lru_remove, get_no_promote in *. destruct (lc_map c !! k) as [e|] eqn:Ek.
  - destruct (trace_delete _ _) as [t| |]; cbn [mbind res_bind]; [|done..]. intros [= <- <-]. split; try done; [by eexists|].
    unfold get_no_promote. cbn [lc_map]. intros x v Hx. destruct (decide (x = k)) as [->|Hne].
    + by rewrite lookup_delete_eq in Hx.
    + rewrite lookup_delete_ne in Hx by done. by apply HQ.
  - by intros [= <- <-].
Qed.

Lemma rel_in c (s : slot_list) k v : lru_rel c s -> get_no_promote k c = Some v <-> (k, v) ∈ ll_entries s.
Proof.
  intros HR. unfold get_no_promote. rewrite (rel_lookup c s k HR). unfold assoc. symmetry. apply elem_of_list_to_map.
  destruct HR as [[L [_ HN _ -> _ _ _ _ _]] _ _]. by rewrite vals_keys.
Qed.

(** At most the keys of [X] are there. *)
Lemma rel_count c (s : slot_list) (X : gset TimeStamp) :
  lru_rel c s -> (forall k v, get_no_promote k c = Some v -> k ∈ X) -> (length (ll_entries s) <= size X)%nat.
Proof.
  intros HR HX. assert (HN : NoDup (ll_entries s).*1) by (destruct HR as [[L [_ HN _ -> _ _ _ _ _]] _ _]; by rewrite vals_keys).
  rewrite <- (length_fmap fst), <- (size_list_to_set (C := gset TimeStamp)) by done. apply subseteq_size. intros k Hk.
  apply elem_of_list_to_set, list_elem_of_fmap in Hk as ([k' v] & -> & Hk). apply (HX k' v). by apply (rel_in c s).
Qed.

Lemma slot_insert_ok cap keep clock Q (X : gset TimeStamp) k v c :
  slot_ok cap keep clock Q c -> Q k v -> (forall x vx, Q x vx -> x ∈ X) -> get_no_promote k c = None ->
  exists c', lru_insert k v c = Ok c' /\ slot_ok cap keep clock Q c' /\ later (lc_evict_policy c) (lc_evict_policy c') /\
    (Z.of_nat (size X) <= cap -> is_u64 cap ->
     (unexpired (lc_evict_policy c') v -> get_no_promote k c' = Some v) /\
     (forall x vx, get_no_promote x c = Some vx -> unexpired (lc_evict_policy c') vx -> get_no_promote x c' = Some vx)).
Proof.
  intros HS HQk HX Hnone. pose proof HS as [[s HR] Hcap Hkeep Hclk Ht HQ].
  pose proof (insert_refines k v true c s HR) as HI. pose proof HR as [[L HL] Hroom Hsz].
  assert (Hk : k ∉ (ll_entries s).*1).
  { intros Hin. apply list_elem_of_fmap in Hin as ([k' v'] & -> & Hin). apply (rel_in c s _ _ HR) in Hin. cbn [fst] in Hnone. congruence. }
  assert (Ev : lc_evict_policy c = ll_evict s) by apply HL. assert (Ec : lc_capacity c = ll_capacity s) by apply HL.
  destruct (sp_insert_ok k v s) as (b & s' & Es & Hl & Hc' & Hin & Hkept); [intros j; rewrite <- Ev, Hclk; apply Ht|done..|].
  rewrite Es in HI. apply res_rel_ok in HI as ([b' c'] & E1 & [_ HR']). cbn [snd] in HR'.
  assert (Ev' : lc_evict_policy c' = ll_evict s') by (by destruct HR' as [[L' []] _ _]).
  assert (Ec' : lc_capacity c' = ll_capacity s') by (by destruct HR' as [[L' []] _ _]).
  exists c'. unfold lru_insert. rewrite E1. cbn [mbind res_bind]. rewrite Ev, Ev'. split_and!; [done| |done|].
  - destruct Hl as (Hl1 & Hl2 & _). split; [by eexists|congruence..|done|].
    intros x vx Hx. apply (rel_in c' s' _ _ HR') in Hx. apply Hin, elem_of_cons in Hx as [[= -> ->]|Hx]; [done|].
    apply HQ. by apply (rel_in c s).
  - intros Hsize Hu. assert (Hlen : Z.of_nat (S (length (ll_entries s))) <= ll_capacity s).
    { pose proof (rel_count c s (X ∖ {[k]}) HR) as Hcnt. rewrite <- Ec, Hcap.
      enough (S (length (ll_entries s)) <= size X)%nat by lia. rewrite (union_difference_singleton_L k X) by eauto.
      rewrite size_union, size_singleton by set_solver. enough (length (ll_entries s) <= size (X ∖ {[k]}))%nat by lia. apply Hcnt.
      intros x vx Hx. apply elem_of_difference. split; [eauto|]. apply not_elem_of_singleton. intros ->. congruence. }
    rewrite <- Hcap, Ec in Hu. specialize (Hkept Hlen Hu). split.
    + intros Hun. apply (rel_in c' s' _ _ HR'). apply Hkept; [by left|done].
    + intros x vx Hx Hun. apply (rel_in c' s' _ _ HR'). apply Hkept; [|done]. right. by apply (rel_in c s).
Qed.
End Slots.
