(* ===== verification/TxnStatusRuns.v ===== *)
(** The cache of transaction states over whole runs: it answers only what was
    reported, it does not panic on consistent reports, and committed
    transactions are kept. *)
From stdpp Require Import base numbers list gmap fin_maps fin_sets.
From S2P Require Import Prelude Timestamp Resolver LruTrace LruCache LruSpec LruRefine TxnStatusCache TxnStatusSafe.

Local Open Scope Z_scope.

(** ** One operation *)

Section Run.
Context `{!Allocator} `{!AllocatorLaws}.
Variable hash : TimeStamp -> Z.
(** The number of slots, the limits of the slots, and their clocks. *)
Variables (n : nat) (cap lcap keep lkeep : Z) (clock lclock : nat -> nat -> Z).
(** The states that are reported in the run, and their transactions. *)
Variables (P : TimeStamp -> TxnState -> Prop) (X : gset TimeStamp).
Hypothesis n_pos : (0 < n)%nat.
Hypothesis P_bounds : forall s m c, P s (StOngoing m) -> P s (StCommitted c) -> m <= c.
Hypothesis P_known : forall s st, P s st -> s ∈ X.

Implicit Types c : TxnStatusCache.

Definition index_of (s : TimeStamp) : nat := Z.to_nat (hash s mod Z.of_nat n).
Definition reported_in (j : nat) (k : TimeStamp) (v : CacheEntry) : Prop := P k (ce_state v) /\ index_of k = j.
Definition slot_txns (j : nat) : gset TimeStamp := filter (fun s => index_of s = j) X.
Definition room (j : nat) : Prop := Z.of_nat (size (slot_txns j)) <= cap /\ is_u64 cap.

Record cache_ok c : Prop := {
  co_enabled : is_enabled c = true;
  co_normal_len : length (normal_cache c) = n;
  co_large_len : length (large_txn_cache c) = n;
  co_normal j slot : normal_cache c !! j = Some slot -> slot_ok cap keep (clock j) (reported_in j) slot;
  co_large j slot : large_txn_cache c !! j = Some slot -> slot_ok lcap lkeep (lclock j) (reported_in j) slot;
}.

(** Final states that have not expired stay in a slot with room. *)
Definition slot_step (j : nat) (slot slot' : TxnStatusCacheSlot) : Prop :=
  later (lc_evict_policy slot) (lc_evict_policy slot') /\
  (room j -> forall x v, get_no_promote x slot = Some v -> is_final (ce_state v) = true ->
   unexpired (lc_evict_policy slot') v -> get_no_promote x slot' = Some v).

Definition cache_step c c' : Prop :=
  forall j slot, normal_cache c !! j = Some slot -> exists slot', normal_cache c' !! j = Some slot' /\ slot_step j slot slot'.

#[export] Instance slot_step_preorder j : PreOrder (slot_step j).
Proof.
  split; [done|]. intros s1 s2 s3 [L1 H1] [L2 H2]. split; [by transitivity (lc_evict_policy s2)|].
  intros Hr x v Hx Hf Hu. apply H2; [done| |done|done]. apply H1; [done..|]. by apply (unexpired_later _ (lc_evict_policy s3)).
Qed.

#[export] Instance cache_step_preorder : PreOrder cache_step.
Proof.
  split; [by intros c j slot Hs; exists slot|]. intros c1 c2 c3 H1 H2 j slot Hs.
  destruct (H1 j slot Hs) as (s2 & E2 & S2). destruct (H2 j s2 E2) as (s3 & E3 & S3). exists s3. split; [done|]. by transitivity s2.
Qed.

Lemma index_lt s : (index_of s < n)%nat.
Proof. unfold index_of. pose proof (Z.mod_pos_bound (hash s) (Z.of_nat n)). lia. Qed.

Lemma slot_index_ok c s : cache_ok c -> cache_slot_index hash c s = Ok (index_of s).
Proof.
  intros HC. unfold cache_slot_index, index_of. rewrite (co_normal_len c HC).
  rewrite (proj2 (Z.eqb_neq _ _)) by lia. done.
Qed.

Lemma normal_slot c s : cache_ok c -> exists slot, normal_cache c !! index_of s = Some slot.
Proof. intros HC. apply lookup_lt_is_Some. rewrite (co_normal_len c HC). apply index_lt. Qed.
Lemma large_slot c s : cache_ok c -> exists slot, large_txn_cache c !! index_of s = Some slot.
Proof. intros HC. apply lookup_lt_is_Some. rewrite (co_large_len c HC). apply index_lt. Qed.

Lemma set_normal_ok c i slot :
  cache_ok c -> slot_ok cap keep (clock i) (reported_in i) slot -> cache_ok (set_normal_slot i slot c).
Proof.
  intros [He Hn Hl HN HL] Hs. split; cbn; [done|by rewrite length_insert|done| |done].
  intros j slot' [(<- & <- & _)|[_ Hj]]%list_lookup_insert_Some; [done|by apply HN].
Qed.

Lemma set_large_ok c i slot :
  cache_ok c -> slot_ok lcap lkeep (lclock i) (reported_in i) slot -> cache_ok (set_large_slot i slot c).
Proof.
  intros [He Hn Hl HN HL] Hs. split; cbn; [done|done|by rewrite length_insert|done|].
  intros j slot' [(<- & <- & _)|[_ Hj]]%list_lookup_insert_Some; [done|by apply HL].
Qed.

Lemma set_large_step c i slot : cache_step c (set_large_slot i slot c).
Proof. intros j s Hj. by exists s. Qed.

Lemma set_normal_step c i slot slot' :
  normal_cache c !! i = Some slot -> slot_step i slot slot' -> cache_step c (set_normal_slot i slot' c).
Proof.
  intros Hi HS j s Hj. cbn. destruct (decide (i = j)) as [<-|Hne].
  - exists slot'. rewrite list_lookup_insert_eq by (by apply lookup_lt_Some in Hi). split; [done|]. by simplify_eq.
  - exists s. by rewrite list_lookup_insert_ne.
Qed.

(** The updates keep the reported states; the assertion in them holds. *)
Lemma settle_entry_ok j s st ut v :
  P s st -> reported_in j s v -> exists v', settle_entry st ut v = Ok v' /\ reported_in j s v'.
Proof.
  intros Hst [Hv Hj]. unfold settle_entry, reported_in in *. destruct (ce_state v) as [m|c|] eqn:Ev; [|exists v; by rewrite Ev..].
  destruct st as [m'|c'|]; [by eexists| |by eexists]. unfold rassert. rewrite (proj2 (Z.leb_le _ _) (P_bounds s m c' Hv Hst)). by eexists.
Qed.

Lemma raise_entry_ok j s m ut v :
  P s (StOngoing m) -> reported_in j s v -> exists v', raise_entry m ut v = Ok v' /\ reported_in j s v'.
Proof.
  intros Hst [Hv Hj]. unfold raise_entry, reported_in in *. destruct (ce_state v) as [m'|c|] eqn:Ev; [|exists v; by rewrite Ev..].
  destruct (m' <? m); [by eexists|exists v; by rewrite Ev].
Qed.

Lemma reported_known j k v : reported_in j k v -> k ∈ slot_txns j.
Proof. intros [Hk <-]. apply elem_of_filter. eauto. Qed.

(** A state on the path of the normal cache.  A final state is there afterwards
    unless another one was. *)
Lemma settle_slot_ok s st ut slot :
  let j := index_of s in
  slot_ok cap keep (clock j) (reported_in j) slot -> P s st ->
  exists slot', update_or_insert s (settle_entry st ut) (mk_cache_entry st ut) slot = Ok slot' /\
    slot_ok cap keep (clock j) (reported_in j) slot' /\ slot_step j slot slot' /\
    (room j -> is_final st = true -> (forall v, get_no_promote s slot = Some v -> is_final (ce_state v) = false) ->
     unexpired (lc_evict_policy slot') (mk_cache_entry st ut) -> get_no_promote s slot' = Some (mk_cache_entry st ut)).
Proof.
  intros j HS Hst. unfold update_or_insert.
  destruct (slot_get_mut_ok _ _ _ _ s (settle_entry st ut) slot HS) as (s1 & E1 & HS1 & Ep1 & Ho1 & Hs1 & Hn1).
  { intros v Hv. by apply (settle_entry_ok j). }
  rewrite E1. cbn [mbind res_bind]. destruct (get_no_promote s slot) as [v|] eqn:Ev.
  - rewrite bool_decide_eq_true_2 by done. exists s1. destruct (Hs1 v eq_refl) as (v' & Ev' & Hv').
    split_and!; [done|done| |].
    + split; [by rewrite Ep1|]. intros _ x vx Hx Hf _. destruct (decide (x = s)) as [->|Hne]; [|by rewrite Ho1].
      assert (vx = v) as -> by congruence. rewrite Hv'. unfold settle_entry in Ev'. destruct (ce_state v); [done|congruence..].
    + intros _ _ Hno _. specialize (Hno v eq_refl). rewrite Hv'. unfold settle_entry, rassert in Ev'.
      destruct (ce_state v); [|done..]. destruct st; [congruence| |congruence]. destruct (_ <=? _); congruence.
  - rewrite bool_decide_eq_false_2 by (by intros [? ?]).
    destruct (slot_insert_ok _ _ _ _ (slot_txns j) s (mk_cache_entry st ut) s1 HS1) as (s2 & E2 & HS2 & Hl2 & Hk2).
    { done. } { apply reported_known. } { by apply Hn1. }
    exists s2. split_and!; [done|done| |].
    + split; [by rewrite <- Ep1|]. intros [Hr1 Hr2] x vx Hx _ Hu. apply Hk2; [done..| |done].
      rewrite Ho1; [done|]. intros ->. congruence.
    + intros [Hr1 Hr2] _ _ Hu. by apply (proj1 (Hk2 Hr1 Hr2)).
Qed.

Lemma upsert_large_ok s m ut c :
  cache_ok c -> P s (StOngoing m) ->
  exists c', upsert_large (index_of s) s m (mk_cache_entry (StOngoing m) ut) c = Ok c' /\ cache_ok c' /\ cache_step c c'.
Proof.
  intros HC Hst. unfold upsert_large, update_or_insert. cbn [ce_update_time].
  destruct (large_slot c s HC) as [ls El]. rewrite El. cbn [unwrap_some mbind res_bind]. pose proof (co_large c HC _ _ El) as HL.
  destruct (slot_get_mut_ok _ _ _ _ s (raise_entry m ut) ls HL) as (l1 & -> & HL1 & _ & _ & _ & Hn1).
  { intros v Hv. by apply (raise_entry_ok (index_of s)). }
  cbn [mbind res_bind]. destruct (get_no_promote s ls) as [v|] eqn:Ev.
  - rewrite bool_decide_eq_true_2 by done. eexists. split; [done|]. split; [by apply set_large_ok|apply set_large_step].
  - rewrite bool_decide_eq_false_2 by (by intros [? ?]).
    destruct (slot_insert_ok _ _ _ _ (slot_txns (index_of s)) s (mk_cache_entry (StOngoing m) ut) l1 HL1) as (l2 & -> & HL2 & _).
    { done. } { apply reported_known. } { by apply Hn1. }
    eexists. split; [done|]. split; [by apply set_large_ok|apply set_large_step].
Qed.

(** A final state is in the normal cache afterwards, unless another one was. *)
Definition settles (s : TimeStamp) (entry : CacheEntry) c c' : Prop :=
  forall slot slot', normal_cache c !! index_of s = Some slot -> normal_cache c' !! index_of s = Some slot' ->
    room (index_of s) -> is_final (ce_state entry) = true ->
    (forall v, get_no_promote s slot = Some v -> is_final (ce_state v) = false) ->
    unexpired (lc_evict_policy slot') entry -> get_no_promote s slot' = Some entry.

Lemma upsert_normal_ok s st ut c :
  cache_ok c -> P s st ->
  exists c', upsert_normal (index_of s) s (mk_cache_entry st ut) c = Ok c' /\ cache_ok c' /\ cache_step c c' /\
    settles s (mk_cache_entry st ut) c c'.
Proof.
  intros HC Hst. unfold upsert_normal. cbn [ce_state ce_update_time].
  destruct (normal_slot c s HC) as [ns En]. destruct (large_slot c s HC) as [ls El]. rewrite En, El. cbn [unwrap_some mbind res_bind].
  destruct (settle_slot_ok s st ut ns (co_normal c HC _ _ En) Hst) as (ns' & -> & HN' & HS & Hnew). cbn [mbind res_bind].
  destruct (slot_get_mut_ok _ _ _ _ s (settle_entry st ut) ls (co_large c HC _ _ El)) as (ls' & -> & HL' & _).
  { intros v Hv. by apply (settle_entry_ok (index_of s)). }
  cbn [mbind res_bind]. eexists. split; [done|]. split_and!.
  - apply set_large_ok; [|done]. by apply set_normal_ok.
  - transitivity (set_normal_slot (index_of s) ns' c); [by apply (set_normal_step c _ ns)|apply set_large_step].
  - intros slot slot' E1 E2. cbn in E2. rewrite list_lookup_insert_eq in E2 by (by apply lookup_lt_Some in En). by simplify_eq.
Qed.

(** What reporting a state does. *)
Lemma upsert_ok s st now c :
  cache_ok c -> P s st -> 0 <= now ->
  exists c', upsert hash s st now c = Ok c' /\ cache_ok c' /\ cache_step c c' /\ settles s (mk_cache_entry st (as_millis_u64 now)) c c'.
Proof.
  intros HC Hst Hnow. unfold upsert. rewrite (co_enabled c HC). cbn [negb]. unfold unix_millis.
  rewrite (proj2 (Z.ltb_ge _ _) Hnow). cbn [mbind res_bind]. rewrite (slot_index_ok c s HC). cbn [mbind res_bind].
  destruct st as [m| |]; [destruct (s <? m)|..]; [|by apply upsert_normal_ok..].
  destruct (upsert_large_ok s m (as_millis_u64 now) c HC Hst) as (c' & -> & HC' & HS'). by exists c'.
Qed.

Lemma remove_large_ok s c : cache_ok c -> exists o c', remove_large_txn hash s c = Ok (o, c') /\ cache_ok c' /\ cache_step c c'.
Proof.
  intros HC. unfold remove_large_txn. rewrite (co_enabled c HC). cbn [negb]. rewrite (slot_index_ok c s HC). cbn [mbind res_bind].
  destruct (large_slot c s HC) as [ls El]. rewrite El. cbn [unwrap_some mbind res_bind].
  destruct (slot_remove_ok _ _ _ _ s ls (co_large c HC _ _ El)) as (o & ls' & -> & HL'). cbn [mbind res_bind].
  do 2 eexists. split; [done|]. split; [by apply set_large_ok|apply set_large_step].
Qed.

Lemma get_slot_step s slot slot' :
  lc_evict_policy slot' = lc_evict_policy slot -> (forall x, get_no_promote x slot' = get_no_promote x slot) ->
  slot_step (index_of s) slot slot'.
Proof. intros Ep Hg. split; [by rewrite Ep|]. intros _ x v Hx _ _. by rewrite Hg. Qed.

(** An answer was reported. *)
Lemma cache_get_ok s c :
  cache_ok c -> exists o c', cache_get hash s c = Ok (o, c') /\ cache_ok c' /\ cache_step c c' /\ (forall st, o = Some st -> P s st).
Proof.
  intros HC. unfold cache_get. rewrite (co_enabled c HC). cbn [negb]. rewrite (slot_index_ok c s HC). cbn [mbind res_bind].
  destruct (normal_slot c s HC) as [ns En]. destruct (large_slot c s HC) as [ls El]. rewrite El. cbn [unwrap_some mbind res_bind].
  pose proof (co_normal c HC _ _ En) as HN. pose proof (co_large c HC _ _ El) as HL.
  destruct (slot_get_ok _ _ _ _ s ls HL) as (ls' & -> & HL' & _). cbn [mbind res_bind].
  destruct (get_no_promote s ls) as [v|] eqn:Ev.
  - do 2 eexists. split; [done|]. split_and!; [by apply set_large_ok|apply set_large_step|]. intros st [= <-]. by apply (so_entries _ _ _ _ _ HL).
  - change (normal_cache (set_large_slot (index_of s) ls' c)) with (normal_cache c). rewrite En. cbn [unwrap_some mbind res_bind].
    destruct (slot_get_ok _ _ _ _ s ns HN) as (ns' & -> & HN' & Ep & Hg). cbn [mbind res_bind].
    do 2 eexists. split; [done|]. split_and!.
    + apply set_normal_ok; [|done]. by apply set_large_ok.
    + transitivity (set_large_slot (index_of s) ls' c); [apply set_large_step|]. apply (set_normal_step _ _ ns); [done|by apply get_slot_step].
    + intros st Hst. destruct (get_no_promote s ns) as [v|] eqn:Ev'; cbn in Hst; [|done]. injection Hst as <-. by apply (so_entries _ _ _ _ _ HN).
Qed.

Lemma opt_commit_reported s slot cts :
  slot_ok cap keep (clock (index_of s)) (reported_in (index_of s)) slot ->
  opt_commit_ts (get_no_promote s slot) = Some cts -> P s (StCommitted cts).
Proof.
  intros HS. destruct (get_no_promote s slot) as [[st ut]|] eqn:Ev; cbn; [|done]. unfold entry_commit_ts. cbn.
  destruct st; intros [= ->]. by apply (so_entries _ _ _ _ _ HS) in Ev as [? _].
Qed.

Lemma get_committed_ok s c :
  cache_ok c -> exists o c', get_committed hash s c = Ok (o, c') /\ cache_ok c' /\ cache_step c c' /\
    (forall cts, o = Some cts -> P s (StCommitted cts)).
Proof.
  intros HC. unfold get_committed. rewrite (co_enabled c HC). cbn [negb]. rewrite (slot_index_ok c s HC). cbn [mbind res_bind].
  destruct (normal_slot c s HC) as [ns En]. rewrite En. cbn [unwrap_some mbind res_bind]. pose proof (co_normal c HC _ _ En) as HN.
  destruct (slot_get_ok _ _ _ _ s ns HN) as (ns' & -> & HN' & Ep & Hg). cbn [mbind res_bind]. do 2 eexists. split; [done|]. split_and!.
  - by apply set_normal_ok.
  - apply (set_normal_step _ _ ns); [done|by apply get_slot_step].
  - intros cts. by apply opt_commit_reported.
Qed.

Lemma get_committed_no_promote_ok s c :
  cache_ok c -> exists slot, normal_cache c !! index_of s = Some slot /\
    get_committed_no_promote hash s c = Ok (opt_commit_ts (get_no_promote s slot)) /\
    (forall cts, opt_commit_ts (get_no_promote s slot) = Some cts -> P s (StCommitted cts)).
Proof.
  intros HC. unfold get_committed_no_promote. rewrite (co_enabled c HC). cbn [negb]. rewrite (slot_index_ok c s HC). cbn [mbind res_bind].
  destruct (normal_slot c s HC) as [ns En]. exists ns. rewrite En. split_and!; [done..|]. intros cts.
  apply opt_commit_reported. by apply (co_normal c HC).
Qed.
End Run.
