(* ===== verification/TxnStatusKept.v ===== *)
(** The theorems on the cache of transaction states. *)
From stdpp Require Import base numbers list gmap fin_maps fin_sets.
From S2P Require Import Prelude Timestamp Resolver LruTrace LruCache LruSpec LruRefine TxnStatusCache TxnStatusSafe TxnStatusRuns.
From S2P Require Import Prewrite PrewriteCommand.

Local Open Scope Z_scope.

(** ** Runs *)

(** What is done with the cache: a broadcast of states, the end of a write
    command, and reads. *)
Inductive cache_op :=
  | OBroadcast (txn_statuses : list BroadcastStatus) (now : Z)
  | OFinish (known_txn_status : list (TimeStamp * TimeStamp)) (now : Z)
  | OGet (start_ts : TimeStamp)
  | OGetCommitted (start_ts : TimeStamp).

(** The states an operation reports. *)
Definition op_reports (op : cache_op) : list (TimeStamp * TxnState) :=
  match op with
  | OBroadcast txn_statuses _ => (fun t => (tst_start_ts t, status_state t)) <$> txn_statuses
  | OFinish known _ => (fun x => (x.1, StCommitted x.2)) <$> known
  | _ => []
  end.

(** The clock is not before the epoch, and completed transactions are committed
    or rolled back. *)
Definition op_ok (op : cache_op) : Prop :=
  match op with
  | OBroadcast txn_statuses now =>
      0 <= now /\ Forall (fun t => tst_is_completed t = true -> is_final (status_state t) = true) txn_statuses
  | OFinish _ now => 0 <= now
  | _ => True
  end.

(** A transaction commits at or above the timestamps reported while it was
    ongoing. *)
Definition consistent (reports : list (TimeStamp * TxnState)) : Prop :=
  forall s m c, (s, StOngoing m) ∈ reports -> (s, StCommitted c) ∈ reports -> m <= c.

Section Runs.
Context `{!Allocator}.
Variable hash : TimeStamp -> Z.

Definition run_op (op : cache_op) (c : TxnStatusCache) : mres TxnStatusCache :=
  match op with
  | OBroadcast txn_statuses now => update_txn_status_cache hash txn_statuses now c
  | OFinish known now => insert_known_txn_status hash known now c
  | OGet s => '(_, c) ← cache_get hash s c; Ok c
  | OGetCommitted s => '(_, c) ← get_committed hash s c; Ok c
  end.

Fixpoint run_cache (ops : list cache_op) (c : TxnStatusCache) : mres TxnStatusCache :=
  match ops with
  | [] => Ok c
  | op :: ops => c ← run_op op c; run_cache ops c
  end.

Lemma run_cache_app ops1 ops2 c : run_cache (ops1 ++ ops2) c = (c ← run_cache ops1 c; run_cache ops2 c).
Proof. revert c. induction ops1 as [|op ops1 IH]; intros c; cbn; [done|]. destruct (run_op op c); cbn; [apply IH|done..]. Qed.

(** The clock as the slot of a transaction read it. *)
Definition slot_readings (slots : Z) (s : TimeStamp) (c : TxnStatusCache) : list Z :=
  match normal_cache c !! index_of hash (Z.to_nat slots) s with
  | Some slot => pol_clock (lc_evict_policy slot) <$> seq 0 (pol_reads (lc_evict_policy slot))
  | None => []
  end.

(** What a prewrite request asks the cache. *)
Definition committed_in (c : TxnStatusCache) (s : TimeStamp) : option TimeStamp :=
  match get_committed_no_promote hash s c with Ok o => o | _ => None end.
End Runs.

Section Proofs.
Context `{!Allocator} `{!AllocatorLaws}.
Variable hash : TimeStamp -> Z.
Variables (n : nat) (cap lcap keep lkeep : Z) (clock lclock : nat -> nat -> Z).
Hypothesis n_pos : (0 < n)%nat.

Abbreviation ok P := (cache_ok hash n cap lcap keep lkeep clock lclock P).
Abbreviation step X := (cache_step hash n cap X).
Definition reported_by (reports : list (TimeStamp * TxnState)) (s : TimeStamp) (st : TxnState) : Prop := (s, st) ∈ reports.
Definition txns_of (reports : list (TimeStamp * TxnState)) : gset TimeStamp := list_to_set reports.*1.

Lemma reported_txn reports s st : reported_by reports s st -> s ∈ txns_of reports.
Proof. intros Hr. apply elem_of_list_to_set. by apply (list_elem_of_fmap_2 fst) in Hr. Qed.

Lemma cache_ok_mono P P' c : (forall s st, P s st -> P' s st) -> ok P c -> ok P' c.
Proof.
  intros HP [He Hn Hl HN HL]. split; [done..| |].
  - intros j slot Hj. destruct (HN j slot Hj) as [? ? ? ? ? HQ]. split; [done..|]. intros k v Hk. destruct (HQ k v Hk). split; auto.
  - intros j slot Hj. destruct (HL j slot Hj) as [? ? ? ? ? HQ]. split; [done..|]. intros k v Hk. destruct (HQ k v Hk). split; auto.
Qed.

Section Consistent.
Variable reports : list (TimeStamp * TxnState).
Hypothesis bounds : consistent reports.
Abbreviation P := (reported_by reports).
Abbreviation X := (txns_of reports).

Lemma broadcast_ok now l : forall c,
  0 <= now -> Forall (fun t => tst_is_completed t = true -> is_final (status_state t) = true) l ->
  (forall t, t ∈ l -> P (tst_start_ts t) (status_state t)) -> ok P c ->
  exists c', update_txn_status_cache hash l now c = Ok c' /\ ok P c' /\ step X c c'.
Proof.
  induction l as [|t l IH]; intros c Hnow Hf Hr HC; cbn [update_txn_status_cache]; [by exists c|].
  apply Forall_cons in Hf as [Ht Hf].
  assert (H1 : exists c1, (if tst_is_completed t then rassert (is_final (status_state t)) ('(_, c) ← remove_large_txn hash (tst_start_ts t) c; Ok c)
                      else Ok c) = Ok c1 /\ ok P c1 /\ step X c c1).
  { destruct (tst_is_completed t); [|by exists c]. rewrite Ht by done. cbn [rassert].
    destruct (remove_large_ok hash n cap lcap keep lkeep clock lclock P X n_pos (tst_start_ts t) c HC) as (o & c1 & -> & HC1 & HS1). by exists c1. }
  destruct H1 as (c1 & -> & HC1 & HS1). cbn [mbind res_bind].
  destruct (upsert_ok hash n cap lcap keep lkeep clock lclock P X n_pos bounds (reported_txn reports) (tst_start_ts t) (status_state t) now c1 HC1) as (c2 & -> & HC2 & HS2 & _);
    [apply Hr; by left|done|]. cbn [mbind res_bind].
  destruct (IH c2) as (c3 & -> & HC3 & HS3); [done|done|intros t' Ht'; apply Hr; by right|done|]. exists c3.
  split_and!; [done..|]. by etransitivity; [|etransitivity].
Qed.

Lemma finish_ok now l : forall c,
  0 <= now -> (forall x, x ∈ l -> P x.1 (StCommitted x.2)) -> ok P c ->
  exists c', insert_known_txn_status hash l now c = Ok c' /\ ok P c' /\ step X c c'.
Proof.
  induction l as [|[s cts] l IH]; intros c Hnow Hr HC; cbn [insert_known_txn_status]; [by exists c|].
  unfold insert_committed.
  destruct (upsert_ok hash n cap lcap keep lkeep clock lclock P X n_pos bounds (reported_txn reports) s (StCommitted cts) now c HC) as (c2 & -> & HC2 & HS2 & _);
    [apply (Hr (s, cts)); by left|done|]. cbn [mbind res_bind].
  destruct (IH c2) as (c3 & -> & HC3 & HS3); [done|intros x Hx; apply Hr; by right|done|]. exists c3. split_and!; [done..|]. by transitivity c2.
Qed.

Lemma run_op_ok op c :
  op_ok op -> (forall s st, (s, st) ∈ op_reports op -> P s st) -> ok P c ->
  exists c', run_op hash op c = Ok c' /\ ok P c' /\ step X c c'.
Proof.
  intros Hop Hr HC. destruct op as [l now|l now|s|s]; cbn [run_op op_ok] in *.
  - destruct Hop as [Hnow Hf]. apply broadcast_ok; [done..| |done]. intros t Ht. apply Hr. cbn. apply list_elem_of_fmap. eauto.
  - apply finish_ok; [done| |done]. intros x Hx. apply Hr. cbn. apply list_elem_of_fmap. eauto.
  - destruct (cache_get_ok hash n cap lcap keep lkeep clock lclock P X n_pos s c HC) as (o & c' & -> & HC' & HS & _). by exists c'.
  - destruct (get_committed_ok hash n cap lcap keep lkeep clock lclock P X n_pos s c HC) as (o & c' & -> & HC' & HS & _). by exists c'.
Qed.

Lemma run_cache_ok ops : forall c,
  Forall op_ok ops -> (forall s st, (s, st) ∈ ops ≫= op_reports -> P s st) -> ok P c ->
  exists c', run_cache hash ops c = Ok c' /\ ok P c' /\ step X c c'.
Proof.
  induction ops as [|op ops IH]; intros c Hop Hr HC; cbn [run_cache]; [by exists c|]. apply Forall_cons in Hop as [Ho Hop].
  rewrite bind_cons in Hr. destruct (run_op_ok op c) as (c1 & -> & HC1 & HS1); [done| |done|]; cbn [mbind res_bind].
  { intros s st Hs. apply Hr, elem_of_app. by left. }
  destruct (IH c1) as (c2 & -> & HC2 & HS2); [done| |done|]. { intros s st Hs. apply Hr, elem_of_app. by right. }
  exists c2. split_and!; [done..|]. by transitivity c1.
Qed.
End Consistent.
End Proofs.

(** ** A new cache *)

Section New.
Context `{!Allocator} `{!AllocatorLaws}.
Variable hash : TimeStamp -> Z.

Definition per_slot (capacity slots : Z) : Z := if capacity / slots =? 0 then 1 else capacity / slots.

Lemma new_slots_ok capacity keep clock n :
  0 <= capacity -> (forall i j, 0 <= clock i j) ->
  exists l, new_slots n capacity keep clock = Ok l /\ length l = n /\
    forall j slot Q, l !! j = Some slot -> slot_ok (if capacity =? 0 then 1 else capacity) (as_millis_u64 keep) (clock j) Q slot.
Proof.
  intros Hc Hclk. induction n as [|n (l & E1 & Hl & HS)]; cbn [new_slots]; [by exists []|]. rewrite E1. cbn [mbind res_bind].
  destruct (lru_new_refines (K := TimeStamp) (V := CacheEntry) capacity 0 (0 : CountTracker) (policy_new keep (clock n)) Hc) as (slot & E2 & HR); [done|].
  rewrite E2. cbn [mbind res_bind]. eexists. split; [done|]. rewrite length_app, Hl. split; [cbn; lia|].
  intros j slot' Q Hj. apply lookup_app_Some in Hj as [Hj|[Hj1 Hj2]]; [by apply HS|].
  apply list_lookup_singleton_Some in Hj2 as [Hj2 <-]. assert (j = n) as -> by lia.
  pose proof HR as [[L [_ _ _ HE _ _ Hcap _ Hev]] _ _]. split; [by eexists|by rewrite Hcap|by rewrite Hev|by rewrite Hev|done|].
  intros k v Hk. apply (rel_in slot _ _ _ HR) in Hk. by apply elem_of_nil in Hk.
Qed.

Lemma new_ok slots keep lkeep capacity clock lclock P :
  0 < slots -> 0 < capacity -> (forall i j, 0 <= clock i j) -> (forall i j, 0 <= lclock i j) ->
  exists c, with_slots_and_time_limit slots keep lkeep capacity clock lclock = Ok c /\
    cache_ok hash (Z.to_nat slots) (per_slot capacity slots) (per_slot capacity slots) (as_millis_u64 keep) (as_millis_u64 lkeep)
      clock lclock P c.
Proof.
  intros Hs Hc H1 H2. unfold with_slots_and_time_limit, new_impl. rewrite !(proj2 (Z.eqb_neq _ _)) by lia.
  assert (Hd : 0 <= capacity / slots) by (apply Z.div_pos; lia).
  destruct (new_slots_ok (capacity / slots) keep clock (Z.to_nat slots) Hd H1) as (l1 & -> & Hl1 & HS1). cbn [mbind res_bind].
  destruct (new_slots_ok (capacity / slots) lkeep lclock (Z.to_nat slots) Hd H2) as (l2 & -> & Hl2 & HS2). cbn [mbind res_bind].
  eexists. split; [done|]. split; cbn; [done..| |]; intros j slot Hj; [by apply HS1|by apply HS2].
Qed.

(** ** The theorems *)

(** C27: On consistent reports no operation on the cache panics, and every state
    or commit timestamp it answers was reported for that transaction. *)
Theorem cached_states_reported (slots keep lkeep capacity : Z) (clock lclock : nat -> nat -> Z) (ops : list cache_op) (s : TimeStamp) :
  0 < slots -> 0 < capacity -> (forall i j, 0 <= clock i j) -> (forall i j, 0 <= lclock i j) ->
  Forall op_ok ops -> consistent (ops ≫= op_reports) ->
  exists c o c' o' c'' oc, (c ← with_slots_and_time_limit slots keep lkeep capacity clock lclock; run_cache hash ops c) = Ok c /\
    cache_get hash s c = Ok (o, c') /\ (forall st, o = Some st -> (s, st) ∈ ops ≫= op_reports) /\
    get_committed hash s c = Ok (o', c'') /\ (forall cts, o' = Some cts -> (s, StCommitted cts) ∈ ops ≫= op_reports) /\
    get_committed_no_promote hash s c = Ok oc /\ (forall cts, oc = Some cts -> (s, StCommitted cts) ∈ ops ≫= op_reports).
Proof.
  intros Hs Hc H1 H2 Hop Hcons. set (P := reported_by (ops ≫= op_reports)).
  assert (Hn : (0 < Z.to_nat slots)%nat) by lia.
  destruct (new_ok slots keep lkeep capacity clock lclock P Hs Hc H1 H2) as (c0 & -> & HC0). cbn [mbind res_bind].
  edestruct (run_cache_ok hash (Z.to_nat slots)) as (c & -> & HC & _); [done|exact Hcons|exact Hop|done|exact HC0|].
  destruct (cache_get_ok hash _ _ _ _ _ _ _ P ∅ Hn s c HC) as (o & c' & E1 & _ & _ & A1).
  destruct (get_committed_ok hash _ _ _ _ _ _ _ P ∅ Hn s c HC) as (o' & c'' & E2 & _ & _ & A2).
  destruct (get_committed_no_promote_ok hash _ _ _ _ _ _ _ P Hn s c HC) as (slot & _ & E3 & A3).
  exists c, o, c', o', c'', (opt_commit_ts (get_no_promote s slot)). split_and!; done.
Qed.

(** The readings are within the keep time of an entry. *)
Lemma readings_unexpired slots s c slot entry :
  normal_cache c !! index_of hash (Z.to_nat slots) s = Some slot ->
  let limit := ce_update_time entry + required_keep_time_millis (lc_evict_policy slot) in
  is_u64 limit -> (forall t, t ∈ slot_readings hash slots s c -> as_millis_u64 t <= limit) ->
  unexpired (lc_evict_policy slot) entry.
Proof.
  intros Hs limit Hu Hr j Hj. rewrite wrap64_small by (unfold limit in Hu; by rewrite Z.add_comm). rewrite Z.add_comm. apply Hr.
  unfold slot_readings. rewrite Hs. apply list_elem_of_fmap. exists j. split; [done|]. apply elem_of_seq. lia.
Qed.

(** The state of the cache when the commit is reported, and at the end. *)
Lemma finish_kept n cap lcap keep lkeep clock lclock reports1 reports s cts now ops2 c1 :
  (0 < n)%nat -> consistent reports -> (forall e, e ∈ reports1 -> e ∈ reports) ->
  (forall e, e ∈ (s, StCommitted cts) :: (ops2 ≫= op_reports) -> e ∈ reports) -> 0 <= now -> Forall op_ok ops2 ->
  cache_ok hash n cap lcap keep lkeep clock lclock (reported_by reports1) c1 ->
  (forall st, (s, st) ∈ reports1 -> is_final st = false) -> room hash n cap (txns_of reports) (index_of hash n s) ->
  exists c slot, run_cache hash (OFinish [(s, cts)] now :: ops2) c1 = Ok c /\
    cache_ok hash n cap lcap keep lkeep clock lclock (reported_by reports) c /\ normal_cache c !! index_of hash n s = Some slot /\
    (unexpired (lc_evict_policy slot) (mk_cache_entry (StCommitted cts) (as_millis_u64 now)) ->
     get_no_promote s slot = Some (mk_cache_entry (StCommitted cts) (as_millis_u64 now))).
Proof.
  intros Hn Hcons Hsub Hrep Hnow Hop HC1 Hno Hroom.
  assert (HC1' : cache_ok hash n cap lcap keep lkeep clock lclock (reported_by reports) c1).
  { eapply cache_ok_mono; [|exact HC1]. intros x st Hx. by apply Hsub. }
  destruct (upsert_ok hash n cap lcap keep lkeep clock lclock (reported_by reports) (txns_of reports) Hn Hcons (reported_txn reports)
              s (StCommitted cts) now c1 HC1') as (c2 & E2 & HC2 & HS2 & Hset); [apply Hrep; by left|done|].
  edestruct (run_cache_ok hash n cap) as (c3 & E3 & HC3 & HS3); [done|exact Hcons|exact Hop| |exact HC2|].
  { intros x st Hx. apply Hrep. by right. }
  destruct (normal_slot hash n cap lcap keep lkeep clock lclock _ Hn c1 s HC1) as [slot1 F1].
  destruct (HS2 _ _ F1) as (slot2 & F2 & _). destruct (HS3 _ _ F2) as (slot3 & F3 & L3 & K3).
  exists c3, slot3. split_and!; [|done..|].
  { cbn [run_cache run_op insert_known_txn_status]. unfold insert_committed. rewrite E2. cbn [mbind res_bind]. by rewrite E3. }
  intros Hu. apply K3; [done| |done|done]. apply (Hset slot1 slot2); [done..| |by apply (unexpired_later _ (lc_evict_policy slot3))].
  intros v Hv. apply Hno. by apply (so_entries _ _ _ _ _ (co_normal _ _ _ _ _ _ _ _ _ _ HC1 _ _ F1)).
Qed.

End New.

(** ** Concrete runs *)

(** The clock stands at one second; a transaction is reported as ongoing, then
    committed, and others are reported after it. *)
Definition at_one_second : nat -> nat -> Z := fun _ _ => 1000000000.
Definition ongoing (start_ts min_commit_ts : TimeStamp) : BroadcastStatus := mk_txn_status start_ts min_commit_ts 0 false false.
Definition before_commit : list cache_op := [OBroadcast [ongoing 4 6; ongoing 8 0] 500000000].
Definition after_commit : list cache_op :=
  [OGet 4; OBroadcast [mk_txn_status 6 0 0 true true; ongoing 10 12] 1000000000; OGetCommitted 8].

Lemma ops_are_ok : Forall op_ok (before_commit ++ OFinish [(4, 7)] 1000000000 :: after_commit).
Proof.
  unfold before_commit, after_commit, ongoing.
  repeat (apply Forall_cons; split); cbn; repeat (done || lia || apply Forall_nil_2 || (apply Forall_cons; split) || split).
Qed.

Lemma ops_consistent : consistent ((before_commit ++ OFinish [(4, 7)] 1000000000 :: after_commit) ≫= op_reports).
Proof.
  intros s m c Hm Hc. cbn in Hm, Hc. repeat (apply elem_of_cons in Hc as [Hc|Hc]; [|]); try discriminate; [|by apply elem_of_nil in Hc].
  injection Hc as -> ->. repeat (apply elem_of_cons in Hm as [Hm|Hm]; [|]); try discriminate; [|by apply elem_of_nil in Hm].
  injection Hm as ->. lia.
Qed.


Lemma cached_states_reported_witness :
  exists c, (c ← with_slots_and_time_limit 2 30000000000 30000000000 8 at_one_second at_one_second;
        run_cache id (before_commit ++ OFinish [(4, 7)] 1000000000 :: after_commit) c) = Ok c /\
    exists c', cache_get id 10 c = Ok (Some (StOngoing 12), c') /\
      (10, StOngoing 12) ∈ (before_commit ++ OFinish [(4, 7)] 1000000000 :: after_commit) ≫= op_reports.
Proof.
  edestruct (cached_states_reported id 2 30000000000 30000000000 8 at_one_second at_one_second
               (before_commit ++ OFinish [(4, 7)] 1000000000 :: after_commit) 10)
    as (c & o & c' & o' & c'' & oc & Hc & Hg & Hrep & _); try (unfold at_one_second; lia).
  - apply ops_are_ok.
  - apply ops_consistent.
  - exists c. split; [exact Hc|]. exists c'.
    assert (Ho : o = Some (StOngoing 12)).
    { vm_compute in Hc. injection Hc as <-. vm_compute in Hg. by injection Hg as <- _. }
    rewrite Ho in Hg, Hrep. split; [exact Hg|]. by apply Hrep.
Defined.

(** A late report that a transaction is ongoing hides that it was committed:
    the entry of the large cache is new and is asked first. *)
Lemma ongoing_hides_committed :
  (c ← with_slots_and_time_limit 2 30000000000 30000000000 8 at_one_second at_one_second;
   c ← run_cache id [OFinish [(4, 7)] 1000000000; OBroadcast [ongoing 4 6] 1000000000] c;
   '(o, c) ← cache_get id 4 c; committed ← get_committed_no_promote id 4 c;
   Ok (o, committed)) = Ok (Some (StOngoing 6), Some 7).
Proof. vm_compute. reflexivity. Qed.

(** A report without a useful timestamp lowers the timestamp of a large
    transaction, which the path of the large cache never does. *)
Lemma ongoing_lowered :
  (c ← with_slots_and_time_limit 2 30000000000 30000000000 8 at_one_second at_one_second;
   c ← run_cache id [OBroadcast [ongoing 4 9] 1000000000; OBroadcast [ongoing 4 0] 1000000000] c;
   '(o, _) ← cache_get id 4 c; Ok o) = Ok (Some (StOngoing 4)).
Proof. vm_compute. reflexivity. Qed.
